(* ===== verification/_CoqProject ===== *)
-Q . S2P
Prelude.v
Lease.v
LeaseSafety.v
PairLeaseAgent.v
LeaseAgents.v
LeaseAgentSafety.v
LeaseAgentTheorems.v
KeyIndex.v
RehashMap.v
SlotStore.v
OrderBook.v
Identifiers.v
VoidedCommands.v
LogEpochTable.v
GroupEcho.v
MatchingEngine.v
MatchingEngineRefinement.v
MatchingEngineFailure.v
WalEntry.v
WalWriter.v
WalReader.v
Wal.v
WalLayout.v
WalLog.v
WalRefinement.v
WalTruncate.v
WalTheorems.v
WalDamage.v
RecordLog.v
RecordLogWal.v
ReplicatedWal.v
ReplicatedPair.v
ReplicatedPairRuns.v
ReplicatedPairEffects.v
PairLogs.v
PairProtocol.v
PairInvariant.v
PairFollower.v
PairRefinement.v
ReplicatedPairCommit.v
ReplicatedPairTheorems.v
RingBuffer.v
ByteArena.v
KeptReportStore.v
ArrayRing.v
KeptReports.v
OrderRelease.v
OrderReleaseTheorems.v
TradingDate.v
VenueState.v
VenueStateTheorems.v
OrderReleaseFollowers.v
HaltAndVoidRequests.v
SequencerLeader.v
SequencerLeaderTheorems.v
PduFraming.v
SlabAllocator.v
SlabAllocatorQueue.v
SlabAllocatorSafety.v
SlabAllocatorTheorems.v
PduFramingTheorems.v
PduFramingSafety.v
FixField.v
FixMessage.v
FixValidator.v
FixFieldTheorems.v
FixMessageTheorems.v
FixValidatorTheorems.v
FixParser.v
FixParserTheorems.v
FixSerialiser.v
FixSerialiserTheorems.v
RawBytes.v
RawClients.v
RawBytesTheorems.v
RawClientsTheorems.v
