(* ===== verification/Prelude.v ===== *)
(** * A verification of the venue's core

    The program is a trading venue built on a framework for processes that
    exchange messages ([src/libraries/pubsub_itc_fw]).  Members' commands reach
    a sequencer through gateways; the sequencer writes each command to a
    write-ahead log, gives it the log's number and releases it to the matching
    engine; the engine applies it to its order book and reports what it did.
    Every component that keeps state is a pair of instances of which one leads.
    The instance that leads holds a lease: its own vote and that of its peer or
    of a third voter (an arbiter, or a witness for the arbiters themselves).
    The leader sends its log to the follower, which repairs its own log by the
    leader's when the two differ, and the engine's follower rebuilds its book
    from the log.

    This library models the parts that decide which instance leads, the log and
    its repair, the matching engine with everything under it, the core of the
    sequencer, the framing of messages on a connection with the allocator that
    holds them, and the FIX codec, and proves that they do what they are for.  It is a shallow embedding: a class is a
    [Record], a member function a [Definition] of the same name, and code that
    changes state and may throw is a computation of type [comp] (below), whose
    result says what the state was when it threw.

    ** The files

    Prelude.v (this file): outcomes, computations, machine integers, tactics.

    Who leads ([src/libraries/pubsub_itc_fw/include/pubsub_itc_fw]):
    - Lease.v: the rules.  LeaderEpoch.hpp, LeaderStatement.hpp,
      LeaseTiming.hpp, LeaseVoter.hpp, LeaseHolder.hpp, LeaseParticipant.hpp.
    - LeaseSafety.v: the rules run by two instances and a third voter over a
      network that delays, repeats, reorders and loses, on clocks that drift, as
      a step relation; the two are never both acting, and no epoch is held by
      two.
    - PairLeaseAgent.v: PairLeaseAgent.hpp, which drives the rules from timer
      ticks and messages, with what it keeps on disk: LeasePromiseStore.hpp,
      BackgroundPromiseRecorder.hpp, EpochRecording.hpp.
    - LeaseAgents.v: two agents, their files and the third voter as a program
      that is given a list of events.  The third voter is
      ArbiterThread::handle_component_lease_request.
    - LeaseAgentSafety.v: every event is a run of steps of LeaseSafety.v, by an
      invariant on what the promise record on disk covers.
    - LeaseAgentTheorems.v: so two agents never both act, in runs without three
      things ([sound_run]): a request answered while a write of the promise
      record that names another instance is under way, a restart of a process that
      is waiting a lease period out, and a write of the epoch file that fails.
      Each of the three is shown to end with two leaders.

    The write-ahead log ([src/libraries/pubsub_itc_fw]):
    - WalEntry.v: Crc32.cpp, WalEntryChecks.hpp, WalEntryContents.hpp: an entry
      as bytes.
    - WalWriter.v: WalWriter.cpp with its helper thread, and the directory.
    - WalReader.v: WalReader.cpp and WalCursor.cpp.
    - Wal.v: Wal.cpp.
    - WalLayout.v, WalLog.v, WalRefinement.v, WalTruncate.v: what a log lies on
      the disk as, and that each operation does to it what it does to the list
      of records.
    - WalTheorems.v: the log is the list of its records through any sequence of
      operations and restarts.
    - WalDamage.v: what a death part way through an append costs, what reading
      does with damaged bytes, and two states the log cannot be used in again.
    - LogEpochTable.v: LogEpochTable.hpp, and from ReplicatedWal.cpp the exchange
      that makes a follower's log the start of its leader's.
    - RecordLog.v, RecordLogWal.v: what a replicated log asks of the log under
      it, as a class with its laws, and that Wal.cpp keeps them.
    - ReplicatedWal.v: ReplicatedWal.cpp, the log a pair keeps together, proved
      against the class.
    - ReplicatedPair.v: a leader, its follower, the connection between them and
      the thread that reads the leader's log, as a program given a list of
      events.
    - ReplicatedPairRuns.v: two runs that end with a committed record lost.
    - ReplicatedPairEffects.v: what each operation does to what the peer sees.
    - PairLogs.v: two logs whose records of one epoch are the same.
    - PairProtocol.v: the protocol, without the code's members: what the leader
      knows, the messages on the way and the two logs, as a step relation, with
      its invariant.
    - PairInvariant.v, PairFollower.v: every step keeps the invariant.
    - PairRefinement.v: every event of ReplicatedPair.v is a step of it.
    - ReplicatedPairCommit.v: what each operation of a leader commits.
    - ReplicatedPairTheorems.v: so the follower's log agrees with the leader's
      and holds what was acknowledged and committed, in every run but those in
      which a follower that agrees is told of a leader while an answer is still
      on its way ([fine_run]); ReplicatedPairRuns.v shows what those can end in.

    The matching engine ([src/applications/matching_engine]):
    - KeyIndex.v: the interface of the map an order book keeps, as a class.
    - RehashMap.v: IncrementalRehashMap.hpp, and that it implements the class.
    - SlotStore.v: MappedSlotStore.cpp, records in a mapped file.
    - OrderBook.v: OrderBook.cpp, proved against the class.
    - Identifiers.v: Ff1Cipher.cpp, ReportIdentifiers.cpp.
    - VoidedCommands.v: VoidedCommandList.hpp.
    - GroupEcho.v: BumpAllocator.hpp and the groups a report echoes.
    - MatchingEngine.v: MatchingEngineStateMachine.cpp, every handler.
    - MatchingEngineRefinement.v: an abstract venue, and that the handlers
      implement it, live and while catching up.
    - MatchingEngineFailure.v: what anything that throws costs.

    The sequencer ([src/applications/sequencer]):
    - RingBuffer.v: FixedCapacityRingBuffer.hpp (framework), a queue in a fixed
      array.
    - ByteArena.v, ArrayRing.v: copies in a circular block of bytes, and
      elements in a circular array, as the next files use them.
    - KeptReportStore.v: EngineReportPosition.hpp, KeptReportStore.hpp.
    - KeptReports.v: KeptReports.cpp, the reports a follower keeps in case it
      takes the lead.
    - OrderRelease.v, OrderReleaseTheorems.v: OrderRelease.cpp, which holds each
      order until it may be sent to the leading engine.  What the thread answers
      is the record [links], given anew at each call, and what it is told to do
      a list of outputs.
    - TradingDate.v: fix_common/TradingDate.hpp.
    - VenueState.v, VenueStateTheorems.v: TradingHaltState.hpp,
      VenueStateFromTheWal.cpp, VoidFromWal.hpp: what every instance keeps from
      the log.
    - OrderReleaseFollowers.v: what OrderRelease.cpp tells the engines that
      follow the log, against what it has sent to the one that leads.
    - HaltAndVoidRequests.v: HaltAndVoidRequests.cpp, an operator's requests.
    - SequencerLeader.v, SequencerLeaderTheorems.v: from SequencerThread.cpp what
      a sequencer that leads does with commands, reports, commits and requests,
      as a program given a list of events, over the files above.

    Messages on a connection ([src/libraries/pubsub_itc_fw]):
    - PduFraming.v: PduHeader.hpp, PduFramer.cpp, PduParser.cpp,
      PduProtocolHandler.cpp.  The socket is a list of what it answers, and the
      allocator a class.
    - SlabAllocator.v: SlabAllocator.cpp, EmptySlabQueue.cpp and
      ExpandableSlabAllocator.cpp, with one step for each access to memory that
      threads share.
    - SlabAllocatorQueue.v, SlabAllocatorSafety.v, SlabAllocatorTheorems.v: the
      queue of empty slabs, the invariant of every interleaving, what follows from
      it, and that the allocator is an instance of the class.
    - PduFramingTheorems.v: what is framed arrives, however it is cut.
    - PduFramingSafety.v: what arbitrary bytes, and every end of a connection, do
      to the chunks of the allocator.

    FIX ([src/libraries/fix_codec], [src/applications/fix_order_gateway]):
    - FixField.v, FixFieldTheorems.v: FixChecksum.hpp, FixField.hpp.
    - FixMessage.v, FixMessageTheorems.v: FixMessageReader.hpp,
      FixMessageWriter.hpp, with a pointer into a buffer as an offset and a read
      or a view outside of it as undefined behaviour.
    - FixValidator.v, FixValidatorTheorems.v: FixGroupWalker.hpp, FixReject.hpp,
      FixMessageValidator.hpp against a grammar of messages.  The dictionary is
      generated by the build, and a class with its laws.
    - FixParser.v, FixParserTheorems.v: FixParser.cpp, the stream of a connection.
    - RawBytes.v, RawBytesTheorems.v: MirroredBuffer.cpp and the reading half of
      RawBytesProtocolHandler.cpp, with the reactor and an application thread that
      share a buffer, as moves in any order.
    - RawClients.v, RawClientsTheorems.v: on_raw_socket_message of
      FixOrderGatewayThread.cpp, SequencerThread.cpp and AuthenticationThread.cpp;
      the first is proved, and runs of the other two carry a request out twice.
    - FixSerialiser.v, FixSerialiserTheorems.v: FixSerialiser.cpp.

    ** What is proved

    Safety of the lead: [two_instances_never_both_act],
    [two_agents_never_both_act].
    The log: refinement of a list ([wal_keeps_every_record]), damage
    ([reading_stops_at_damage]) and the repair of a follower
    ([repair_ends_in_the_leaders_log]).  The log a pair keeps
    ([follower_keeps_the_leaders_log], [acknowledged_records_are_kept],
    [committed_records_are_held]).  The map: refinement of a finite map and
    a bound on the work of one operation ([rehash_map_is_finite_map],
    [no_operation_stalls]).  The store and the book: a restart finds what was
    published ([restart_finds_published_orders]).  The identifiers: no two reports
    of a day share one ([identifiers_of_a_day_are_distinct]).  The engine:
    refinement of the abstract venue on every branch ([new_order_refines_venue],
    [cancel_refines_venue], [cancel_book_refines_venue]), agreement of an engine
    that is live with one that catches up ([live_and_catch_up_agree]), and that a
    failure costs one command ([failure_costs_one_command]).  The sequencer:
    committed orders are sent ([committed_orders_reach_the_engine]), to the engine
    that leads first and once ([followers_are_never_ahead_of_the_leading_engine]),
    a halt voids only what no engine was sent
    ([recovery_halt_voids_what_no_engine_was_sent]), a report kept is forwarded or
    accounted for ([kept_reports_reach_their_members],
    [kept_reports_are_a_queue]), and what is kept from the log is what the log
    says ([venue_state_is_what_the_log_says], [lift_is_never_early],
    [trading_date_is_the_calendar_date]).  Connections: PDUs arrive as they were
    framed ([pdus_arrive_as_they_were_framed]), no bytes break the parser
    ([no_bytes_break_the_parser]), a chunk that was sent is given back once
    ([sent_chunk_is_given_back_once]), and the allocator is safe in every
    interleaving ([every_interleaving_is_safe], [chunks_that_are_out_are_apart],
    [allocate_ends_and_reclaims]).  FIX: what is written reads back
    ([written_message_reads_back]), any bytes are read within their bounds
    ([any_bytes_are_read_within_bounds]), times are read as their moments
    ([utc_time_is_read_as_its_moment]), the validator accepts what conforms
    ([validator_accepts_exactly_what_conforms]), a stream is read however it is
    cut ([stream_is_read_however_it_is_cut], [members_messages_are_delivered]) and
    whichever thread is ahead ([gateway_reads_each_byte_once],
    [reading_stops_only_for_a_long_message]), and a message sent is what was asked
    ([sent_message_is_what_was_asked]).

    Lemmas about single runs, at the ends of their files, show behaviour that the
    code's own comments rule out: a log refused or locked, a committed record
    lost, an order sent ahead, a chunk never given back, a request carried out
    twice, two leaders.

    ** Bounds

    Loops are given turns, and a loop that used them all is [DoesNotReturn],
    which the theorems show is not reached: nine turns for the arena that
    doubles from 4 KiB to 1 MiB; as many probes as a table has slots; as many
    turns to scan a segment as it has bytes; two more than there are segments
    to read on; the number of segments for a search that halves them; a turn for
    each byte of a FIX message, a turn for each field left in a group, and eight
    for a buffer that doubles from 512 bytes to 64 KiB.  Sequence
    numbers stay below 2^63 and segments below 1,000,000, as the six digits of
    their file names need.  Times are in the unit of the code that passes them,
    milliseconds in the lease files.  Epochs are 32 bits wide and the one place
    that computes a new one has its check.

    ** What is not modelled

    The reactor, sockets, TLS and timers, logging, metrics and configuration are
    input and output.  OpenSSL's functions are parameters, as are the sizes of
    generated message types, the hash function, the random draws and the answers
    of the operating system.  Memory that threads share is sequentially
    consistent, in the slab allocator too; the pools and the message queue, which
    rest on weaker orders, are left out.  So are the parts that pass on what the
    parts above decide: forwarding reports, members' sessions and throttles, the
    readers of a log that serve its followers, and an engine's role and sending of
    reports.  In the replicated log the record of command identifiers is left out,
    and in the sequencer the failure of an encoder to write a record. *)

From stdpp Require Export base tactics list gmap strings fin_maps relations.
From Stdlib Require Export ZArith Lia.

#[export] Set Default Goal Selector "!".

(** ** Outcomes of code that may throw *)

(** The exceptions of the modelled code. [UndefinedBehaviour] stands for a
    read or write outside an array or a region, which C++ gives no meaning to,
    and [DoesNotReturn] for a loop that would turn for ever; the theorems show
    that neither is reached. *)
Inductive exn :=
  | PreconditionAssertion
  | PubSubItcException
  | ConfigurationException
  | RuntimeError
  | BadAlloc
  | UndefinedBehaviour
  | DoesNotReturn.

Inductive outcome (A : Type) :=
  | Returns (a : A)
  | Throws (e : exn).
Arguments Returns {A} a.
Arguments Throws {A} e.

#[export] Instance exn_eq_dec : EqDecision exn.
Proof. solve_decision. Defined.

Definition obind {A B} (m : outcome A) (f : A → outcome B) : outcome B :=
  match m with
  | Returns a => f a
  | Throws e => Throws e
  end.

Declare Scope venue_scope.
Delimit Scope venue_scope with venue.

Notation "'let!' x := m 'in' k" := (obind m (λ x, k))
  (at level 10, x pattern, m at level 100, k at level 200) : venue_scope.

(** Reading an array or a vector by index: outside it is undefined. *)
Definition at_index {A} (l : list A) (i : Z) : outcome A :=
  if (i <? 0)%Z then Throws UndefinedBehaviour
  else match l !! Z.to_nat i with
       | Some a => Returns a
       | None => Throws UndefinedBehaviour
       end.

Lemma at_index_ok {A} (l : list A) (i : Z) (x : A) :
  (0 ≤ i)%Z → l !! Z.to_nat i = Some x → at_index l i = Returns x.
Proof.
  intros Hi Hl. unfold at_index.
  destruct (Z.ltb_spec i 0); [lia|]. by rewrite Hl.
Qed.

(** ** Code that changes state and may throw *)

(** The state after, also when the code has thrown: what was changed before the
    throw stays changed. *)
Definition comp (S A : Type) : Type := S → S * outcome A.

#[export] Instance comp_ret S : MRet (comp S) := λ A a s, (s, Returns a).

#[export] Instance comp_bind S : MBind (comp S) := λ A B f m s,
  match m s with
  | (s', Returns a) => f a s'
  | (s', Throws e) => (s', Throws e)
  end.

Definition gets {S A} (f : S → A) : comp S A := λ s, (s, Returns (f s)).
Definition modify {S} (f : S → S) : comp S unit := λ s, (f s, Returns ()).
Definition throw {S A} (e : exn) : comp S A := λ s, (s, Throws e).

(** A computation that reads the state and may throw. *)
Definition ask {S A} (f : S → outcome A) : comp S A := λ s, (s, f s).

(** [try { m } catch (const std::exception& e) { h e }].  Undefined behaviour is
    no exception: nothing catches it. *)
Definition catchable (e : exn) : bool :=
  match e with UndefinedBehaviour | DoesNotReturn => false | _ => true end.

Definition try_catch {S A} (m : comp S A) (h : exn → comp S A) : comp S A :=
  λ s, match m s with
       | (s', Throws e) => if catchable e then h e s' else (s', Throws e)
       | r => r
       end.

(** Running code on one part of a state. *)
Definition on_fst {S T A} (m : comp S A) : comp (S * T) A :=
  λ st, let r := m st.1 in ((r.1, st.2), r.2).

Definition on_snd {S T A} (m : comp T A) : comp (S * T) A :=
  λ st, let r := m st.2 in ((st.1, r.1), r.2).

Lemma bind_returns {S A B} (m : comp S A) (f : A → comp S B) s s' a :
  m s = (s', Returns a) → (m ≫= f) s = f a s'.
Proof. intros Hm. unfold mbind, comp_bind. by rewrite Hm. Qed.

Lemma bind_throws {S A B} (m : comp S A) (f : A → comp S B) s s' e :
  m s = (s', Throws e) → (m ≫= f) s = (s', Throws e).
Proof. intros Hm. unfold mbind, comp_bind. by rewrite Hm. Qed.

(** The code returns from [s], and what it leaves and returns is as said. *)
Definition returns {S A} (m : comp S A) (s : S) (Q : S → A → Prop) : Prop :=
  match m s with
  | (s', Returns a) => Q s' a
  | (_, Throws _) => False
  end.

Arguments returns : simpl never.

Lemma returns_bind {S A B} (m : comp S A) (f : A → comp S B) s Q :
  returns m s (λ s' a, returns (f a) s' Q) → returns (m ≫= f) s Q.
Proof. unfold returns, mbind, comp_bind. by destruct (m s) as [s' [a|e]]. Qed.

Lemma returns_mono {S A} (m : comp S A) s (P Q : S → A → Prop) :
  returns m s P → (∀ s' a, P s' a → Q s' a) → returns m s Q.
Proof. unfold returns. destruct (m s) as [s' [a|e]]; auto. Qed.

Lemma returns_eq {S A} (m : comp S A) s s' a (Q : S → A → Prop) :
  m s = (s', Returns a) → Q s' a → returns m s Q.
Proof. unfold returns. by intros ->. Qed.

Lemma returns_inv {S A} (m : comp S A) s (Q : S → A → Prop) :
  returns m s Q → ∃ s' a, m s = (s', Returns a) ∧ Q s' a.
Proof. unfold returns. destruct (m s) as [s' [a|e]]; [eauto|done]. Qed.

Lemma returns_on_fst {S T A} (m : comp S A) (s : S) (t : T) (Q : S * T → A → Prop) :
  returns m s (λ s' a, Q (s', t) a) → returns (on_fst m) (s, t) Q.
Proof. unfold returns, on_fst. cbn. by destruct (m s) as [s' [a|e]]. Qed.

Lemma returns_on_snd {S T A} (m : comp T A) (s : S) (t : T) (Q : S * T → A → Prop) :
  returns m t (λ t' a, Q (s, t') a) → returns (on_snd m) (s, t) Q.
Proof. unfold returns, on_snd. cbn. by destruct (m t) as [t' [a|e]]. Qed.

(** ** Machine integers *)

Definition int32_max : Z := 2 ^ 31 - 1.
Definition uint64_max : Z := 2 ^ 64 - 1.
Definition wrap64 (z : Z) : Z := z mod 2 ^ 64.

Lemma wrap64_small z : (0 ≤ z < 2 ^ 64)%Z → wrap64 z = z.
Proof. apply Z.mod_small. Qed.

(** ** Tactics *)

(** Case analysis on every test the goal or a hypothesis branches on, with the
    boolean comparisons turned into propositions. *)
Ltac bool_to_prop :=
  repeat match goal with
  | H : (_ && _)%bool = true |- _ => apply andb_true_iff in H as [? ?]
  | H : (_ && _)%bool = false |- _ => apply andb_false_iff in H
  | H : (_ || _)%bool = false |- _ => apply orb_false_iff in H as [? ?]
  | H : (_ || _)%bool = true |- _ => apply orb_true_iff in H
  | H : negb _ = true |- _ => apply negb_true_iff in H
  | H : negb _ = false |- _ => apply negb_false_iff in H
  | H : (_ <? _)%Z = true |- _ => apply Z.ltb_lt in H
  | H : (_ <? _)%Z = false |- _ => apply Z.ltb_ge in H
  | H : (_ <=? _)%Z = true |- _ => apply Z.leb_le in H
  | H : (_ <=? _)%Z = false |- _ => apply Z.leb_gt in H
  | H : (_ =? _)%Z = true |- _ => apply Z.eqb_eq in H
  | H : (_ =? _)%Z = false |- _ => apply Z.eqb_neq in H
  | H : bool_decide _ = true |- _ => apply bool_decide_eq_true_1 in H
  | H : bool_decide _ = false |- _ => apply bool_decide_eq_false_1 in H
  end.

Ltac case_if :=
  match goal with
  | |- context [if ?b then _ else _] => destruct b eqn:?
  | H : context [if ?b then _ else _] |- _ => destruct b eqn:?
  end.

Ltac split_ifs := repeat (case_if; bool_to_prop; simplify_eq/=).
