(* ===== verification/Lease.v ===== *)
(** The lease rules that decide which instance of a pair leads.

    Models, from [libraries/pubsub_itc_fw/include/pubsub_itc_fw]:
    [LeaderEpoch.hpp], [LeaderStatement.hpp], [LeaseTiming.hpp],
    [LeaseVoter.hpp], [LeaseHolder.hpp], [LeaseParticipant.hpp] and
    [PeerStatementsFlag.hpp].

    A [steady_clock] time point or duration is a [Z], as the code passes time
    in; a time point that was never set is zero, as [time_point{}] is.
    [int32_t] epochs are [Z], and the one place that computes a new epoch,
    [LeaderEpoch.next_for], has its range checks.  A [std::map] is a [gmap]. *)

From S2P Require Import Prelude.

Local Open Scope Z_scope.
Local Open Scope venue_scope.

(** ** LeaderEpoch *)

Module LeaderEpoch.

Definition epoch_stride : Z := 4.

Definition next_for (above leader_instance_id : Z) : outcome Z :=
  if (leader_instance_id <? 1) || (epoch_stride <=? leader_instance_id)
  then Throws PreconditionAssertion
  else if (above <? 0) || (int32_max - 2 * epoch_stride <? above)
  then Throws PreconditionAssertion
  else
    let base := Z.quot above epoch_stride * epoch_stride in
    Returns (if above <? base + leader_instance_id
             then base + leader_instance_id
             else base + epoch_stride + leader_instance_id).

End LeaderEpoch.

(** ** LeaderStatement *)

Module LeaderStatement.

Record t := mk {
  leader_id : Z;
  epoch : Z;
  number : Z;
  peer_may_lead : bool
}.

(** [LeaderStatement{}]: names no leader. *)
Definition none : t := mk 0 0 0 true.

Definition newer_than (s other : t) : bool :=
  (epoch other <? epoch s) ||
  ((epoch s =? epoch other) && (number other <? number s)).

Definition same_as (s other : t) : bool :=
  (leader_id s =? leader_id other) && (epoch s =? epoch other) &&
  (number s =? number other).

Definition instance_that_may_not_lead (s : t) : Z :=
  if (leader_id s =? 0) || peer_may_lead s then 0
  else if leader_id s =? 1 then 2 else 1.

End LeaderStatement.

(** ** LeaseTiming *)

Module LeaseTiming.

Record t := mk {
  period : Z;
  drift_allowance : Z;
  renewal_interval : Z
}.

(** In milliseconds. *)
Definition tick_interval : Z := 100.

(** [load], given the three values the configuration holds. *)
Definition load (period drift renewal : Z) : outcome t :=
  if period <=? 0 then Throws ConfigurationException
  else
    let minimum_drift := 2 * tick_interval in
    if (drift <? minimum_drift) || (period <=? drift)
    then Throws ConfigurationException
    else if (renewal <=? 0) || (period - drift <? 2 * renewal)
    then Throws ConfigurationException
    else Returns (mk period drift renewal).

End LeaseTiming.

(** ** LeaseVoter *)

Module LeaseVoter.

Inductive Verdict :=
  | Granted
  | RefusedWhileRestarting
  | RefusedPromisedElsewhere
  | RefusedEpochBehind
  | RefusedMayNotLead.

#[global] Instance Verdict_eq_dec : EqDecision Verdict.
Proof. solve_decision. Defined.

Record Answer := mk_answer {
  verdict : Verdict;
  answer_highest_epoch : Z
}.

Record t := mk {
  lease_period : Z;
  quiet_until : Z;
  promised_to : Z;
  promise_expires : Z;
  held_for_self : bool;
  highest_epoch : Z;
  recorded_statement : LeaderStatement.t
}.

(** The constructor. *)
Definition make (period started_at highest : Z) : outcome t :=
  if period <=? 0 then Throws PreconditionAssertion
  else if highest <? 0 then Throws PreconditionAssertion
  else Returns (mk period (started_at + period) 0 0 false highest
                   LeaderStatement.none).

Definition promise_live (v : t) (now : Z) : bool :=
  negb (promised_to v =? 0) && (now <? promise_expires v).

Definition restarting (v : t) (now : Z) : bool := now <? quiet_until v.

Definition promised_elsewhere (v : t) (self_id now : Z) : bool :=
  promise_live v now && negb (promised_to v =? self_id).

Definition may_lead (v : t) (instance_id : Z) : bool :=
  negb (LeaderStatement.instance_that_may_not_lead (recorded_statement v)
        =? instance_id).

Definition consider (v : t) (candidate_id epoch now : Z) : t * Answer :=
  if restarting v now
  then (v, mk_answer RefusedWhileRestarting (highest_epoch v))
  else if held_for_self v ||
          (promise_live v now && negb (promised_to v =? candidate_id))
  then (v, mk_answer RefusedPromisedElsewhere (highest_epoch v))
  else if epoch <? highest_epoch v
  then (v, mk_answer RefusedEpochBehind (highest_epoch v))
  else if negb (may_lead v candidate_id)
  then (v, mk_answer RefusedMayNotLead (highest_epoch v))
  else (mk (lease_period v) (quiet_until v) candidate_id
           (now + lease_period v) (held_for_self v) epoch
           (recorded_statement v),
        mk_answer Granted epoch).

Definition hold_for_self (v : t) : t :=
  mk (lease_period v) (quiet_until v) (promised_to v) (promise_expires v)
     true (highest_epoch v) (recorded_statement v).

Definition release_self (v : t) : t :=
  mk (lease_period v) (quiet_until v) (promised_to v) (promise_expires v)
     false (highest_epoch v) (recorded_statement v).

Definition resume_with_kept_promise (v : t) (promised until now : Z) : t :=
  mk (lease_period v) now promised until (held_for_self v) (highest_epoch v)
     (recorded_statement v).

Definition restore_recorded_statement (v : t) (s : LeaderStatement.t) : t :=
  mk (lease_period v) (quiet_until v) (promised_to v) (promise_expires v)
     (held_for_self v) (highest_epoch v) s.

Definition record_statement (v : t) (s : LeaderStatement.t) : outcome t :=
  if (LeaderStatement.leader_id s <? 1) || (2 <? LeaderStatement.leader_id s)
     || (LeaderStatement.number s <? 1)
  then Throws PreconditionAssertion
  else if LeaderStatement.newer_than s (recorded_statement v)
  then Returns (restore_recorded_statement v s)
  else Returns v.

Definition holds_statement (v : t) (s : LeaderStatement.t) : bool :=
  LeaderStatement.same_as (recorded_statement v) s.

Definition learn_epoch (v : t) (epoch : Z) : t :=
  if highest_epoch v <? epoch
  then mk (lease_period v) (quiet_until v) (promised_to v)
          (promise_expires v) (held_for_self v) epoch (recorded_statement v)
  else v.

End LeaseVoter.

(** ** LeaseHolder *)

Module LeaseHolder.

Inductive State := Idle | Candidate | Leading.

#[global] Instance State_eq_dec : EqDecision State.
Proof. solve_decision. Defined.

Inductive Event := Nothing | BecameLeader | LeaseExtended | NewerEpochKnown.

Record Outstanding := mk_outstanding { voter_id : Z; sent_at : Z }.

Record t := mk {
  lease_period : Z;
  drift_allowance : Z;
  state : State;
  epoch : Z;
  last_request_id : Z;
  outstanding : gmap Z Outstanding;
  expiries : gmap Z Z
}.

(** The constructor. *)
Definition make (period drift : Z) : outcome t :=
  if (drift <? 0) || (period <=? drift) then Throws PreconditionAssertion
  else Returns (mk period drift Idle 0 0 ∅ ∅).

Definition begin_candidacy (h : t) (e : Z) : t :=
  mk (lease_period h) (drift_allowance h) Candidate e (last_request_id h) ∅ ∅.

Definition too_old (h : t) (now : Z) (o : Outstanding) : bool :=
  lease_period h <? now - sent_at o.

Definition record_request (h : t) (voter now : Z) : t * Z :=
  let kept := filter (λ kv, too_old h now kv.2 = false) (outstanding h) in
  let request_id := last_request_id h + 1 in
  (mk (lease_period h) (drift_allowance h) (state h) (epoch h) request_id
      (<[request_id := mk_outstanding voter now]> kept) (expiries h),
   request_id).

Definition with_outstanding (h : t) (o : gmap Z Outstanding) : t :=
  mk (lease_period h) (drift_allowance h) (state h) (epoch h)
     (last_request_id h) o (expiries h).

Definition is_idle (s : State) : bool :=
  match s with Idle => true | _ => false end.

(** A grant.  [expiries_[voter_id]] creates an entry of zero when there is
    none. *)
Definition on_grant (h : t) (voter request_id e now : Z) : t * Event :=
  match outstanding h !! request_id with
  | None => (h, Nothing)
  | Some request =>
      if negb (voter_id request =? voter) then (h, Nothing)
      else
        let expires := sent_at request + lease_period h - drift_allowance h in
        let h1 := with_outstanding h (delete request_id (outstanding h)) in
        if negb (e =? epoch h) || is_idle (state h) || (expires <=? now)
        then (h1, Nothing)
        else
          let held := default 0 (expiries h !! voter) in
          let held' := if held <? expires then expires else held in
          let h2 s := mk (lease_period h) (drift_allowance h) s (epoch h)
                         (last_request_id h)
                         (delete request_id (outstanding h))
                         (<[voter := held']> (expiries h)) in
          match state h with
          | Candidate => (h2 Leading, BecameLeader)
          | s => (h2 s, LeaseExtended)
          end
  end.

Definition on_refusal (h : t) (request_id highest : Z) : t * Event :=
  let h1 := with_outstanding h (delete request_id (outstanding h)) in
  if negb (is_idle (state h)) && (epoch h <? highest)
  then (h1, NewerEpochKnown)
  else (h1, Nothing).

Definition lease_expires_at (h : t) : Z :=
  map_fold (λ _ x latest, if latest <? x then x else latest) 0 (expiries h).

Definition acting (h : t) (now : Z) : bool :=
  match state h with
  | Leading => now <? lease_expires_at h
  | _ => false
  end.

Definition stop (h : t) : t :=
  mk (lease_period h) (drift_allowance h) Idle (epoch h) (last_request_id h)
     ∅ ∅.

End LeaseHolder.

(** ** LeaseParticipant *)

Module LeaseParticipant.

Inductive PeerStatements :=
  | PeerAlwaysMayLead
  | SayWhetherPeerMayLead
  | SayWhenPeerMayNotLead.

Record t := mk {
  self_id : Z;
  voter : LeaseVoter.t;
  holder : LeaseHolder.t;
  wait_until : Z;
  peer_statements : PeerStatements;
  statement : LeaderStatement.t;
  echoed_by_peer : Z;
  held_by_arbiter : Z * Z;
  held_alone : Z
}.

(** The constructor. *)
Definition make (self period drift started_at persisted_epoch : Z)
    (ps : PeerStatements) : outcome t :=
  let! v := LeaseVoter.make period started_at persisted_epoch in
  let! h := LeaseHolder.make period drift in
  Returns (mk self v h 0 ps LeaderStatement.none 0 (0, 0) 0).

Definition with_voter (p : t) (v : LeaseVoter.t) : t :=
  mk (self_id p) v (holder p) (wait_until p) (peer_statements p)
     (statement p) (echoed_by_peer p) (held_by_arbiter p) (held_alone p).

Definition with_holder (p : t) (h : LeaseHolder.t) : t :=
  mk (self_id p) (voter p) h (wait_until p) (peer_statements p)
     (statement p) (echoed_by_peer p) (held_by_arbiter p) (held_alone p).

Definition with_wait_until (p : t) (w : Z) : t :=
  mk (self_id p) (voter p) (holder p) w (peer_statements p)
     (statement p) (echoed_by_peer p) (held_by_arbiter p) (held_alone p).

Definition with_statement (p : t) (s : LeaderStatement.t) : t :=
  mk (self_id p) (voter p) (holder p) (wait_until p) (peer_statements p)
     s (echoed_by_peer p) (held_by_arbiter p) (held_alone p).

Definition with_confirmations (p : t) (echoed : Z) (held : Z * Z)
    (alone : Z) : t :=
  mk (self_id p) (voter p) (holder p) (wait_until p) (peer_statements p)
     (statement p) echoed held alone.

(** Both [holder_.stop()] and [voter_.release_self()]. *)
Definition stand_down (p : t) : t :=
  with_voter (with_holder p (LeaseHolder.stop (holder p)))
             (LeaseVoter.release_self (voter p)).

Record PeerRequestOutcome := mk_outcome {
  answer : LeaseVoter.Answer;
  gave_up_asking_to_lead : bool
}.

Definition is_candidate (s : LeaseHolder.State) : bool :=
  match s with LeaseHolder.Candidate => true | _ => false end.

Definition is_leading (s : LeaseHolder.State) : bool :=
  match s with LeaseHolder.Leading => true | _ => false end.

Definition on_peer_request (p : t) (candidate_id epoch now : Z)
    : t * PeerRequestOutcome :=
  let gives_up :=
    is_candidate (LeaseHolder.state (holder p)) &&
    (LeaseHolder.epoch (holder p) <? epoch) &&
    negb (LeaseVoter.restarting (voter p) now) in
  let p1 := if gives_up then stand_down p else p in
  let '(v, a) := LeaseVoter.consider (voter p1) candidate_id epoch now in
  (with_voter p1 v, mk_outcome a gives_up).

Definition may_ask_to_lead (p : t) (now : Z) : bool :=
  LeaseHolder.is_idle (LeaseHolder.state (holder p)) &&
  negb (LeaseVoter.restarting (voter p) now) &&
  negb (LeaseVoter.promised_elsewhere (voter p) (self_id p) now) &&
  (wait_until p <=? now) &&
  LeaseVoter.may_lead (voter p) (self_id p).

Definition begin_asking_to_lead (p : t) : outcome (t * Z) :=
  let! epoch := LeaderEpoch.next_for (LeaseVoter.highest_epoch (voter p))
                                     (self_id p) in
  Returns (with_voter
             (with_holder p (LeaseHolder.begin_candidacy (holder p) epoch))
             (LeaseVoter.hold_for_self (voter p)), epoch).

Definition record_request (p : t) (voter_id now : Z) : t * Z :=
  let '(h, request_id) := LeaseHolder.record_request (holder p) voter_id now in
  (with_holder p h, request_id).

Definition on_grant (p : t) (voter_id request_id epoch now : Z)
    : outcome (t * LeaseHolder.Event) :=
  let '(h, event) :=
    LeaseHolder.on_grant (holder p) voter_id request_id epoch now in
  let p1 := with_holder p h in
  match event with
  | LeaseHolder.BecameLeader =>
      let p2 := with_voter p1 (LeaseVoter.learn_epoch (voter p1) epoch) in
      match peer_statements p with
      | PeerAlwaysMayLead => Returns (p2, event)
      | ps =>
          let peer_may_lead :=
            match ps with SayWhenPeerMayNotLead => true | _ => false end in
          let s := LeaderStatement.mk (self_id p) epoch 1 peer_may_lead in
          let p3 := with_confirmations (with_statement p2 s) 0 (0, 0) 0 in
          let! v := LeaseVoter.record_statement (voter p3) s in
          Returns (with_voter p3 v, event)
      end
  | _ => Returns (p1, event)
  end.

Definition note_echo_from_peer (p : t) (epoch number : Z) : t :=
  if is_leading (LeaseHolder.state (holder p)) &&
     (epoch =? LeaseHolder.epoch (holder p)) && (echoed_by_peer p <? number)
  then with_confirmations p number (held_by_arbiter p) (held_alone p)
  else p.

Definition note_held_by_arbiter (p : t) (arbiter : Z)
    (held : LeaderStatement.t) (alone : bool) : t :=
  if negb (arbiter =? 1) && negb (arbiter =? 2) then p
  else if negb (is_leading (LeaseHolder.state (holder p))) ||
          negb (LeaderStatement.leader_id held =? self_id p) ||
          negb (LeaderStatement.epoch held =? LeaseHolder.epoch (holder p))
  then p
  else
    let n := LeaderStatement.number held in
    let '(first, second) := held_by_arbiter p in
    let both := if arbiter =? 1 then (Z.max first n, second)
                else (first, Z.max second n) in
    with_confirmations p (echoed_by_peer p) both
      (if alone && (held_alone p <? n) then n else held_alone p).

Definition require_leading (p : t) : outcome unit :=
  match peer_statements p with
  | PeerAlwaysMayLead => Throws PreconditionAssertion
  | _ => if is_leading (LeaseHolder.state (holder p)) then Returns tt
         else Throws PreconditionAssertion
  end.

(** The body [say_peer_may_not_lead] and [say_peer_may_lead] share: raise the
    number and have this instance's own voter record the new statement. *)
Definition say_next (p : t) (may : bool) : outcome t :=
  let s := LeaderStatement.mk (LeaderStatement.leader_id (statement p))
             (LeaderStatement.epoch (statement p))
             (LeaderStatement.number (statement p) + 1) may in
  let! v := LeaseVoter.record_statement (voter p) s in
  Returns (with_voter (with_statement p s) v).

Definition say_peer_may_not_lead (p : t) : outcome t :=
  let! _ := require_leading p in
  if negb (LeaderStatement.peer_may_lead (statement p)) then Returns p
  else say_next p false.

Definition say_peer_may_lead (p : t) : outcome t :=
  let! _ := require_leading p in
  if LeaderStatement.peer_may_lead (statement p) then Returns p
  else say_next p true.

Definition begin_running_without_peer (p : t) : outcome t :=
  let! _ := require_leading p in say_peer_may_not_lead p.

Definition peer_holds_everything (p : t) : outcome t :=
  let! _ := require_leading p in say_peer_may_lead p.

Definition may_act_without_peer (p : t) : bool :=
  let n := LeaderStatement.number (statement p) in
  let held_elsewhere :=
    (n <=? echoed_by_peer p) ||
    ((n <=? (held_by_arbiter p).1) && (n <=? (held_by_arbiter p).2)) ||
    (n <=? held_alone p) in
  is_leading (LeaseHolder.state (holder p)) &&
  negb (LeaderStatement.peer_may_lead (statement p)) && held_elsewhere &&
  LeaseVoter.holds_statement (voter p) (statement p).

Definition record_peer_statement (p : t) (s : LeaderStatement.t)
    : outcome (t * Z) :=
  let! v := LeaseVoter.record_statement (voter p) s in
  Returns (with_voter p v,
           if LeaseVoter.holds_statement v s then LeaderStatement.number s
           else 0).

Definition restore_recorded_statement (p : t) (s : LeaderStatement.t) : t :=
  with_voter p (LeaseVoter.restore_recorded_statement (voter p) s).

Definition stop (p : t) (now wait : Z) : t :=
  with_wait_until (stand_down p) (now + wait).

Definition on_refusal (p : t) (request_id highest now wait : Z)
    : t * LeaseHolder.Event :=
  let '(h, event) := LeaseHolder.on_refusal (holder p) request_id highest in
  let p1 := with_voter (with_holder p h)
              (LeaseVoter.learn_epoch (voter p) highest) in
  match event with
  | LeaseHolder.NewerEpochKnown => (stop p1 now wait, event)
  | _ => (p1, event)
  end.

Definition stop_if_lease_ran_out (p : t) (now : Z) : t * bool :=
  if negb (is_leading (LeaseHolder.state (holder p))) ||
     LeaseHolder.acting (holder p) now
  then (p, false)
  else (stand_down p, true).

Definition acting (p : t) (now : Z) : bool :=
  LeaseHolder.acting (holder p) now.

Definition resume_with_kept_promise (p : t) (promised until now : Z) : t :=
  with_voter p (LeaseVoter.resume_with_kept_promise (voter p) promised until
                  now).

End LeaseParticipant.

(** ** Lemmas on the operations *)

Lemma next_for_returns above id e :
  LeaderEpoch.next_for above id = Returns e →
  1 ≤ id < 4 ∧ 0 ≤ above ∧ above < e ≤ above + 4 ∧ e ≤ int32_max ∧
  e mod 4 = id.
Proof.
  unfold LeaderEpoch.next_for, LeaderEpoch.epoch_stride.
  destruct (_ || _) eqn:E1; [done|].
  destruct (_ || (_ <? above)) eqn:E2; [done|].
  bool_to_prop. rewrite Z.quot_div_nonneg by lia.
  pose proof (Z.div_mod above 4). pose proof (Z.mod_pos_bound above 4).
  destruct (above <? _) eqn:E3; intros [= <-]; bool_to_prop;
    (split_and!; [lia..|]).
  - rewrite Z.add_comm, Z.mod_add, Z.mod_small; lia.
  - replace (above / 4 * 4 + 4 + id) with (id + (above / 4 + 1) * 4) by lia.
    rewrite Z.mod_add, Z.mod_small; lia.
Qed.

Lemma next_for_least above id :
  0 ≤ above ≤ int32_max - 2 * LeaderEpoch.epoch_stride →
  1 ≤ id < LeaderEpoch.epoch_stride →
  ∃ e, LeaderEpoch.next_for above id = Returns e ∧ above < e ≤ int32_max ∧
       e mod LeaderEpoch.epoch_stride = id ∧
       ∀ e', above < e' → e' mod LeaderEpoch.epoch_stride = id → e ≤ e'.
Proof.
  unfold LeaderEpoch.epoch_stride. intros Ha Hid.
  destruct (LeaderEpoch.next_for above id) as [e|] eqn:He.
  - exists e. split; [done|]. apply next_for_returns in He.
    split_and!; [lia..|]. intros e' Hlt Hmod.
    pose proof (Z.div_mod e 4). pose proof (Z.div_mod e' 4). lia.
  - exfalso. unfold LeaderEpoch.next_for, LeaderEpoch.epoch_stride in He.
    destruct (_ || _) eqn:E1; bool_to_prop; [lia|].
    destruct (_ || (_ <? above)) eqn:E2; bool_to_prop; [lia|done].
Qed.

(** Two voters that differ at most in the statement they hold. *)
Record same_vote (v w : LeaseVoter.t) : Prop := {
  sv_period : LeaseVoter.lease_period v = LeaseVoter.lease_period w;
  sv_quiet : LeaseVoter.quiet_until v = LeaseVoter.quiet_until w;
  sv_to : LeaseVoter.promised_to v = LeaseVoter.promised_to w;
  sv_expires : LeaseVoter.promise_expires v = LeaseVoter.promise_expires w;
  sv_held : LeaseVoter.held_for_self v = LeaseVoter.held_for_self w;
  sv_epoch : LeaseVoter.highest_epoch v = LeaseVoter.highest_epoch w
}.

#[export] Instance same_vote_equivalence : Equivalence same_vote.
Proof.
  split.
  - intros v. by constructor.
  - intros v w []. by constructor.
  - intros u v w [] []. constructor; congruence.
Qed.

Lemma record_statement_same_vote v s w :
  LeaseVoter.record_statement v s = Returns w → same_vote v w.
Proof.
  unfold LeaseVoter.record_statement. intros H. split_ifs; [by constructor|done].
Qed.

(** A voter that grants was free to: not restarting, not voting for itself,
    and not bound to anybody else; its vote is then bound to the asker for a
    period from now. *)
Lemma consider_granted v c e t w a :
  LeaseVoter.consider v c e t = (w, a) →
  LeaseVoter.verdict a = LeaseVoter.Granted →
  LeaseVoter.quiet_until v ≤ t ∧
  LeaseVoter.held_for_self v = false ∧
  (LeaseVoter.promised_to v = 0 ∨ LeaseVoter.promise_expires v ≤ t ∨
   LeaseVoter.promised_to v = c) ∧
  LeaseVoter.highest_epoch v ≤ e ∧
  LeaseVoter.may_lead v c = true ∧
  w = LeaseVoter.mk (LeaseVoter.lease_period v) (LeaseVoter.quiet_until v) c
        (t + LeaseVoter.lease_period v) false e
        (LeaseVoter.recorded_statement v).
Proof.
  unfold LeaseVoter.consider, LeaseVoter.restarting, LeaseVoter.promise_live.
  intros H Hg.
  destruct (t <? _) eqn:?; simplify_eq/=.
  destruct (_ || _) eqn:Hheld; simplify_eq/=.
  destruct (e <? _) eqn:?; simplify_eq/=.
  destruct (negb (LeaseVoter.may_lead v c)) eqn:?; simplify_eq/=.
  apply orb_false_iff in Hheld as [Hself Hfree]. rewrite Hself.
  bool_to_prop. split_and!; try done; try lia.
Qed.

Lemma consider_refused v c e t w a :
  LeaseVoter.consider v c e t = (w, a) →
  LeaseVoter.verdict a ≠ LeaseVoter.Granted → w = v.
Proof. unfold LeaseVoter.consider. intros. by split_ifs. Qed.

Lemma lease_expires_at_witness h t :
  0 ≤ t → t < LeaseHolder.lease_expires_at h →
  ∃ v x, LeaseHolder.expiries h !! v = Some x ∧ t < x.
Proof.
  unfold LeaseHolder.lease_expires_at. intros Ht.
  generalize (LeaseHolder.expiries h) as m. intros m.
  refine (map_fold_weak_ind
            (λ r m, t < r → ∃ v x, m !! v = Some x ∧ t < x) _ 0 _ _ m);
    [lia|].
  intros v x m' r Hv IH Hlt. destruct (r <? x) eqn:E; bool_to_prop.
  - exists v, x. by rewrite lookup_insert_eq.
  - destruct IH as (v' & x' & Hl & ?); [lia|]. exists v', x'.
    split; [|done]. rewrite lookup_insert_ne; [done|congruence].
Qed.

Lemma lease_expires_at_ub h v x :
  LeaseHolder.expiries h !! v = Some x → x ≤ LeaseHolder.lease_expires_at h.
Proof.
  unfold LeaseHolder.lease_expires_at. revert v x.
  generalize (LeaseHolder.expiries h) as m. intros m.
  refine (map_fold_weak_ind
            (λ r m, ∀ v x, m !! v = Some x → x ≤ r) _ 0 _ _ m); [done|].
  intros v x m' r Hv IH u y [[-> <-]|[_ Hl]]%lookup_insert_Some.
  - destruct (r <? x) eqn:E; bool_to_prop; lia.
  - specialize (IH _ _ Hl). destruct (r <? x) eqn:E; bool_to_prop; lia.
Qed.

(** A grant of a candidate's request, arriving before the lease it gives has
    run out, makes it leader. *)
Lemma on_grant_elects h v rid sent now :
  LeaseHolder.state h = LeaseHolder.Candidate →
  LeaseHolder.outstanding h !! rid =
    Some (LeaseHolder.mk_outstanding v sent) →
  0 ≤ now →
  now < sent + LeaseHolder.lease_period h - LeaseHolder.drift_allowance h →
  ∃ h', LeaseHolder.on_grant h v rid (LeaseHolder.epoch h) now
          = (h', LeaseHolder.BecameLeader) ∧
        LeaseHolder.acting h' now = true.
Proof.
  intros Hst Ho Hnow Hlt. unfold LeaseHolder.on_grant. rewrite Ho. simpl.
  rewrite Z.eqb_refl, Z.eqb_refl, Hst. simpl.
  destruct (_ <=? now) eqn:E; bool_to_prop; [lia|].
  eexists. split; [done|]. unfold LeaseHolder.acting. simpl.
  apply Z.ltb_lt. eapply Z.lt_le_trans; [|eapply (lease_expires_at_ub _ v);
    simpl; apply lookup_insert_eq].
  destruct (_ <? sent + _ - _) eqn:E2; bool_to_prop; lia.
Qed.

Lemma participant_becomes_leader p v rid e now h :
  LeaseHolder.on_grant (LeaseParticipant.holder p) v rid e now
    = (h, LeaseHolder.BecameLeader) →
  1 ≤ LeaseParticipant.self_id p ≤ 2 →
  ∃ p', LeaseParticipant.on_grant p v rid e now
          = Returns (p', LeaseHolder.BecameLeader) ∧
        LeaseParticipant.holder p' = h.
Proof.
  intros Hh Hid. unfold LeaseParticipant.on_grant. rewrite Hh.
  destruct (LeaseParticipant.peer_statements p); [by eexists|..];
    unfold LeaseVoter.record_statement; simpl;
    (destruct (_ || _ || _) eqn:E;
       [repeat (bool_to_prop; destruct E as [E|E]); bool_to_prop; lia|];
     destruct (LeaderStatement.newer_than _ _); by eexists).
Qed.

(** What a grant does to the holder: nothing but drop the request it answers,
    except that a grant of the current epoch extends the lease from its voter
    to a period, less the drift allowance, after the request was sent. *)
Lemma on_grant_frame h v rid e now h' ev :
  LeaseHolder.on_grant h v rid e now = (h', ev) →
  LeaseHolder.lease_period h' = LeaseHolder.lease_period h ∧
  LeaseHolder.drift_allowance h' = LeaseHolder.drift_allowance h ∧
  LeaseHolder.epoch h' = LeaseHolder.epoch h ∧
  LeaseHolder.last_request_id h' = LeaseHolder.last_request_id h ∧
  LeaseHolder.outstanding h' ⊆ LeaseHolder.outstanding h ∧
  (LeaseHolder.state h = LeaseHolder.Idle →
   LeaseHolder.state h' = LeaseHolder.Idle) ∧
  ∀ u x, LeaseHolder.expiries h' !! u = Some x →
    LeaseHolder.expiries h !! u = Some x ∨ x = 0 ∨
    (u = v ∧ ∃ o, LeaseHolder.outstanding h !! rid = Some o ∧
       e = LeaseHolder.epoch h ∧ LeaseHolder.state h ≠ LeaseHolder.Idle ∧
       x = LeaseHolder.sent_at o + LeaseHolder.lease_period h
           - LeaseHolder.drift_allowance h).
Proof.
  unfold LeaseHolder.on_grant. intros H.
  destruct (LeaseHolder.outstanding h !! rid) as [o|] eqn:Ho;
    [|simplify_eq; split_and!; eauto].
  destruct (negb (_ =? v)) eqn:Hv; [simplify_eq; split_and!; eauto|].
  destruct (negb (e =? _) || _ || _) eqn:Hcond.
  { simplify_eq/=. split_and!; eauto. apply delete_subseteq. }
  apply orb_false_iff in Hcond as [Hcond Hlive].
  apply orb_false_iff in Hcond as [Hepoch Hidle]. bool_to_prop. subst e v.
  assert (Hst : LeaseHolder.state h ≠ LeaseHolder.Idle)
    by (intros E; by rewrite E in Hidle).
  assert (Hexp : ∀ u x, <[LeaseHolder.voter_id o :=
      if default 0 (LeaseHolder.expiries h !! LeaseHolder.voter_id o) <?
         LeaseHolder.sent_at o + LeaseHolder.lease_period h -
         LeaseHolder.drift_allowance h
      then LeaseHolder.sent_at o + LeaseHolder.lease_period h -
           LeaseHolder.drift_allowance h
      else default 0 (LeaseHolder.expiries h !! LeaseHolder.voter_id o)]>
      (LeaseHolder.expiries h) !! u = Some x →
    LeaseHolder.expiries h !! u = Some x ∨ x = 0 ∨
    (u = LeaseHolder.voter_id o ∧ ∃ o', Some o = Some o' ∧
       LeaseHolder.epoch h = LeaseHolder.epoch h ∧
       LeaseHolder.state h ≠ LeaseHolder.Idle ∧
       x = LeaseHolder.sent_at o' + LeaseHolder.lease_period h
           - LeaseHolder.drift_allowance h)).
  { intros u x [[-> <-]|[? ?]]%lookup_insert_Some; [|by left].
    destruct (default 0 (LeaseHolder.expiries h !! u) <? _);
      [right; right; split; [done|exists o; by split_and!]|].
    destruct (LeaseHolder.expiries h !! u); simpl; auto. }
  destruct (LeaseHolder.state h); simplify_eq/=; try done;
    split_and!; try done; apply delete_subseteq.
Qed.

(** ** Properties *)

(** A request answered in time gives a leader: an instance that may ask,
    asking a voter whose vote is free, leads and acts once the grant arrives
    within a lease period, less the drift allowance, of its request. *)
Theorem free_voter_elects p v now granted arrived :
  LeaseParticipant.may_ask_to_lead p now = true →
  LeaseVoter.highest_epoch (LeaseParticipant.voter p) ≤
    int32_max - 2 * LeaderEpoch.epoch_stride →
  0 ≤ LeaseVoter.highest_epoch (LeaseParticipant.voter p) →
  1 ≤ LeaseParticipant.self_id p ≤ 2 →
  LeaseVoter.highest_epoch v ≤ LeaseVoter.highest_epoch
                                 (LeaseParticipant.voter p) →
  LeaseVoter.restarting v granted = false →
  LeaseVoter.held_for_self v = false →
  LeaseVoter.promised_elsewhere v (LeaseParticipant.self_id p) granted
    = false →
  LeaseVoter.may_lead v (LeaseParticipant.self_id p) = true →
  0 ≤ arrived →
  arrived < now + LeaseHolder.lease_period (LeaseParticipant.holder p)
            - LeaseHolder.drift_allowance (LeaseParticipant.holder p) →
  ∃ p1 e p2 rid v' a p3,
    LeaseParticipant.begin_asking_to_lead p = Returns (p1, e) ∧
    LeaseParticipant.record_request p1 3 now = (p2, rid) ∧
    LeaseVoter.consider v (LeaseParticipant.self_id p) e granted = (v', a) ∧
    LeaseVoter.verdict a = LeaseVoter.Granted ∧
    LeaseParticipant.on_grant p2 3 rid e arrived
      = Returns (p3, LeaseHolder.BecameLeader) ∧
    LeaseParticipant.acting p3 arrived = true.
Proof.
  intros Hmay Hmax Hpos Hid Hhigh Hq Hself Hfree Hlead Harr Hlt.
  destruct (next_for_least (LeaseVoter.highest_epoch
    (LeaseParticipant.voter p)) (LeaseParticipant.self_id p))
    as (e & He & Hlo & _ & _); [lia|unfold LeaderEpoch.epoch_stride; lia|].
  set (p1 := LeaseParticipant.with_voter (LeaseParticipant.with_holder p
    (LeaseHolder.begin_candidacy (LeaseParticipant.holder p) e))
    (LeaseVoter.hold_for_self (LeaseParticipant.voter p))).
  destruct (LeaseParticipant.record_request p1 3 now) as [p2 rid] eqn:Hr.
  destruct (on_grant_elects (LeaseParticipant.holder p2) 3 rid now arrived)
    as (h & Hg & Hact); try (injection Hr as <- <-; simpl; done).
  { injection Hr as <- <-. apply lookup_insert_eq. }
  replace (LeaseHolder.epoch (LeaseParticipant.holder p2)) with e in Hg
    by (by injection Hr as <- <-).
  apply participant_becomes_leader in Hg as (p3 & Hp3 & <-);
    [|by injection Hr as <- <-].
  destruct (LeaseVoter.consider v (LeaseParticipant.self_id p) e granted)
    as [v' a] eqn:Hc.
  exists p1, e, p2, rid, v', a, p3. split_and!; try done.
  - unfold LeaseParticipant.begin_asking_to_lead. by rewrite He.
  - unfold LeaseVoter.consider in Hc.
    unfold LeaseVoter.promised_elsewhere in Hfree.
    rewrite Hq, Hself, Hfree, Hlead in Hc. simpl in Hc.
    destruct (e <? _) eqn:E; bool_to_prop; [lia|]. by simplify_eq.
Qed.

