(* ===== verification/LeaseSafety.v ===== *)
(** The lease rules run by a whole pair: two instances and a third voter that
    exchange requests and grants over a network that may delay, repeat,
    reorder and lose messages, each on a clock of its own, each of which may
    stop and start again at any moment.

    The step relation composes the operations of [Lease] the way
    [PairLeaseAgent.hpp] and the voters' owners do.  The theorem is that the
    two instances are never both acting as leader. *)

From S2P Require Import Prelude Lease.

Local Open Scope Z_scope.

(** ** The system *)

Inductive inst := Primary | Secondary.

Definition inst_id (i : inst) : Z :=
  match i with Primary => 1 | Secondary => 2 end.

Definition other (i : inst) : inst :=
  match i with Primary => Secondary | Secondary => Primary end.

Definition third_id : Z := 3.

#[export] Instance inst_eq_dec : EqDecision inst.
Proof. solve_decision. Defined.

(** A message, with the moment it was sent.  No operation reads that moment:
    it is there for the invariants. *)
Inductive msg :=
  | Request (candidate voter request_id epoch sent : Z)
  | Grant (voter candidate request_id epoch granted : Z).

(** An instance: the participant it runs, which clock it counts on, and the
    highest epoch it has written to disk before asking to lead in it. *)
Record node := mk_node {
  part : LeaseParticipant.t;
  ck : nat;
  disk_epoch : Z
}.

Record sys := mk_sys {
  time : Z;
  nodes : inst → node;
  third : LeaseVoter.t;
  third_ck : nat;
  net : list msg
}.

Definition with_node (s : sys) (i : inst) (n : node) : sys :=
  mk_sys (time s) (λ j, if decide (j = i) then n else nodes s j)
         (third s) (third_ck s) (net s).

Definition with_part (n : node) (p : LeaseParticipant.t) : node :=
  mk_node p (ck n) (disk_epoch n).

Definition send (s : sys) (m : msg) : sys :=
  mk_sys (time s) (nodes s) (third s) (third_ck s) (m :: net s).

Definition holder_state (n : node) : LeaseHolder.State :=
  LeaseHolder.state (LeaseParticipant.holder (part n)).

(** What an instance does to its statements about its peer, and to its record
    of who holds them. *)
Inductive statement_step : LeaseParticipant.t → LeaseParticipant.t → Prop :=
  | ss_record_peer p s p' n :
      LeaseParticipant.record_peer_statement p s = Returns (p', n) →
      statement_step p p'
  | ss_echo p e n :
      statement_step p (LeaseParticipant.note_echo_from_peer p e n)
  | ss_held p a s alone :
      statement_step p (LeaseParticipant.note_held_by_arbiter p a s alone)
  | ss_say_may p p' :
      LeaseParticipant.say_peer_may_lead p = Returns p' → statement_step p p'
  | ss_say_may_not p p' :
      LeaseParticipant.say_peer_may_not_lead p = Returns p' →
      statement_step p p'
  | ss_without_peer p p' :
      LeaseParticipant.begin_running_without_peer p = Returns p' →
      statement_step p p'
  | ss_peer_holds p p' :
      LeaseParticipant.peer_holds_everything p = Returns p' →
      statement_step p p'.

Section system.

(** What clock [c] shows at a moment. *)
Variable clock : nat → Z → Z.
Variables period drift : Z.
Variable ps : LeaseParticipant.PeerStatements.

Definition local (s : sys) (i : inst) : Z := clock (ck (nodes s i)) (time s).

(** A promise record read back after a restart covers every grant the instance
    sent: it names the instance granted until no earlier than the grant's
    period ends, unless that period has passed. *)
Definition record_covers (s : sys) (i : inst) (promised until : Z) : Prop :=
  ∀ c rid e g, Grant (inst_id i) c rid e g ∈ net s →
    (promised = c ∧ clock (ck (nodes s i)) g + period ≤ until) ∨
    clock (ck (nodes s i)) g + period ≤ local s i.

(** Two of the steps are there for an agent that answers in parts:
    [step_late_grant] sends a grant later in the handling that made the promise,
    and [step_third_statement] has the third voter learn a statement before it
    considers the request that carries it. *)
Inductive step : sys → sys → Prop :=
  | step_time s t :
      time s ≤ t →
      step s (mk_sys t (nodes s) (third s) (third_ck s) (net s))
  | step_ask s i p e :
      LeaseParticipant.may_ask_to_lead (part (nodes s i)) (local s i) = true →
      LeaseParticipant.begin_asking_to_lead (part (nodes s i))
        = Returns (p, e) →
      step s (with_node s i
                (mk_node p (ck (nodes s i))
                   (Z.max (disk_epoch (nodes s i)) e)))
  | step_send s i v p rid :
      holder_state (nodes s i) ≠ LeaseHolder.Idle →
      v = inst_id (other i) ∨ v = third_id →
      LeaseParticipant.record_request (part (nodes s i)) v (local s i)
        = (p, rid) →
      step s (send (with_node s i (with_part (nodes s i) p))
                (Request (inst_id i) v rid
                   (LeaseHolder.epoch
                      (LeaseParticipant.holder (part (nodes s i))))
                   (time s)))
  | step_peer_request s i rid e sent p out :
      Request (inst_id (other i)) (inst_id i) rid e sent ∈ net s →
      LeaseParticipant.on_peer_request (part (nodes s i))
        (inst_id (other i)) e (local s i) = (p, out) →
      step s (with_node s i (with_part (nodes s i) p))
  | step_peer_grant s i rid e sent p out :
      Request (inst_id (other i)) (inst_id i) rid e sent ∈ net s →
      LeaseParticipant.on_peer_request (part (nodes s i))
        (inst_id (other i)) e (local s i) = (p, out) →
      LeaseVoter.verdict (LeaseParticipant.answer out) = LeaseVoter.Granted →
      step s (send (with_node s i (with_part (nodes s i) p))
                (Grant (inst_id i) (inst_id (other i)) rid e (time s)))
  | step_late_grant s i rid e sent :
      Request (inst_id (other i)) (inst_id i) rid e sent ∈ net s →
      holder_state (nodes s i) = LeaseHolder.Idle →
      LeaseVoter.promised_to (LeaseParticipant.voter (part (nodes s i)))
        = inst_id (other i) →
      LeaseVoter.promise_expires (LeaseParticipant.voter (part (nodes s i)))
        = local s i + period →
      step s (send s (Grant (inst_id i) (inst_id (other i)) rid e (time s)))
  | step_third_request s c rid e sent v a :
      Request c third_id rid e sent ∈ net s →
      LeaseVoter.consider (third s) c e (clock (third_ck s) (time s))
        = (v, a) →
      step s (mk_sys (time s) (nodes s) v (third_ck s)
                (match LeaseVoter.verdict a with
                 | LeaseVoter.Granted =>
                     Grant third_id c rid e (time s) :: net s
                 | _ => net s
                 end))
  | step_grant s i v rid e g p ev :
      Grant v (inst_id i) rid e g ∈ net s →
      LeaseParticipant.on_grant (part (nodes s i)) v rid e (local s i)
        = Returns (p, ev) →
      step s (with_node s i (with_part (nodes s i) p))
  | step_refusal s i rid highest wait p ev :
      LeaseParticipant.on_refusal (part (nodes s i)) rid highest (local s i)
        wait = (p, ev) →
      step s (with_node s i (with_part (nodes s i) p))
  | step_stop s i wait :
      step s (with_node s i
                (with_part (nodes s i)
                   (LeaseParticipant.stop (part (nodes s i)) (local s i)
                      wait)))
  | step_ran_out s i p stopped :
      LeaseParticipant.stop_if_lease_ran_out (part (nodes s i)) (local s i)
        = (p, stopped) →
      step s (with_node s i (with_part (nodes s i) p))
  | step_statement s i p :
      statement_step (part (nodes s i)) p →
      step s (with_node s i (with_part (nodes s i) p))
  | step_restart s i c persisted p kept :
      0 ≤ clock c (time s) →
      disk_epoch (nodes s i) ≤ persisted →
      LeaseParticipant.make (inst_id i) period drift (clock c (time s))
        persisted ps = Returns p →
      step s (with_node s i
                (mk_node (LeaseParticipant.restore_recorded_statement p kept)
                   c (disk_epoch (nodes s i))))
  | step_restart_with_record s i persisted p kept promised until :
      disk_epoch (nodes s i) ≤ persisted →
      LeaseParticipant.make (inst_id i) period drift (local s i)
        persisted ps = Returns p →
      record_covers s i promised until →
      step s (with_node s i
                (with_part (nodes s i)
                   (LeaseParticipant.resume_with_kept_promise
                      (LeaseParticipant.restore_recorded_statement p kept)
                      promised until (local s i))))
  | step_third_statement s st v :
      LeaseVoter.record_statement (third s) st = Returns v →
      step s (mk_sys (time s) (nodes s) v (third_ck s) (net s))
  | step_third_restart s c highest v kept :
      LeaseVoter.make period (clock c (time s)) highest = Returns v →
      step s (mk_sys (time s) (nodes s)
                (LeaseVoter.restore_recorded_statement v kept) c (net s)).

Definition initial (s : sys) : Prop :=
  net s = [] ∧
  (∀ i, 0 ≤ local s i ∧
        LeaseParticipant.make (inst_id i) period drift (local s i)
          (disk_epoch (nodes s i)) ps = Returns (part (nodes s i))) ∧
  ∃ highest, LeaseVoter.make period (clock (third_ck s) (time s)) highest
               = Returns (third s).

Definition reachable (s : sys) : Prop := ∃ s0, initial s0 ∧ rtc step s0 s.

End system.

(** ** The invariant *)

Lemma other_ne i : inst_id (other i) ≠ inst_id i.
Proof. by destruct i. Qed.

Lemma inst_id_nonzero i : inst_id i ≠ 0.
Proof. by destruct i. Qed.

Lemma inst_id_not_third i : inst_id i ≠ third_id.
Proof. by destruct i. Qed.

Lemma inst_id_inj i j : inst_id i = inst_id j → i = j.
Proof. by destruct i, j. Qed.

Lemma other_involutive i : other (other i) = i.
Proof. by destruct i. Qed.

Lemma inst_cases i j : j = i ∨ j = other i.
Proof. destruct i, j; auto. Qed.

Create HintDb lease.
#[local] Hint Resolve other_ne inst_id_nonzero inst_id_not_third : lease.

Lemma statement_step_frame p p' :
  statement_step p p' →
  LeaseParticipant.self_id p' = LeaseParticipant.self_id p ∧
  LeaseParticipant.holder p' = LeaseParticipant.holder p ∧
  same_vote (LeaseParticipant.voter p) (LeaseParticipant.voter p').
Proof.
  assert (Hnext : ∀ p may p', LeaseParticipant.say_next p may = Returns p' →
    LeaseParticipant.self_id p' = LeaseParticipant.self_id p ∧
    LeaseParticipant.holder p' = LeaseParticipant.holder p ∧
    same_vote (LeaseParticipant.voter p) (LeaseParticipant.voter p')).
  { intros q may q'. unfold LeaseParticipant.say_next, obind.
    case_match; intros; simplify_eq/=.
    split_and!; [done..|by eapply record_statement_same_vote]. }
  assert (Hsay : ∀ p p', LeaseParticipant.say_peer_may_lead p = Returns p' ∨
      LeaseParticipant.say_peer_may_not_lead p = Returns p' →
    LeaseParticipant.self_id p' = LeaseParticipant.self_id p ∧
    LeaseParticipant.holder p' = LeaseParticipant.holder p ∧
    same_vote (LeaseParticipant.voter p) (LeaseParticipant.voter p')).
  { intros q q'. unfold LeaseParticipant.say_peer_may_lead,
      LeaseParticipant.say_peer_may_not_lead, obind.
    intros [H|H]; repeat case_match; simplify_eq; eauto;
      split_and!; reflexivity. }
  intros []; eauto.
  - unfold LeaseParticipant.record_peer_statement, obind in *.
    case_match; simplify_eq/=.
    split_and!; [done..|by eapply record_statement_same_vote].
  - unfold LeaseParticipant.note_echo_from_peer.
    case_match; split_and!; reflexivity.
  - unfold LeaseParticipant.note_held_by_arbiter.
    repeat case_match; split_and!; reflexivity.
  - unfold LeaseParticipant.begin_running_without_peer, obind in *.
    case_match; simplify_eq; eauto.
  - unfold LeaseParticipant.peer_holds_everything, obind in *.
    case_match; simplify_eq; eauto.
Qed.

Section safety.

Context (clock : nat → Z → Z) (period drift : Z)
        (ps : LeaseParticipant.PeerStatements).

(** A clock never goes back. *)
Hypothesis clock_monotone : ∀ c s t, s ≤ t → clock c s ≤ clock c t.

(** The drift allowance covers the difference in the rates of two clocks over
    one lease period. *)
Hypothesis clock_rates : ∀ a b s t, s ≤ t →
  period ≤ clock a t - clock a s → period - drift ≤ clock b t - clock b s.

(** By [t], a lease granted at [g] has run out for its holder, whichever clock
    the holder counts on. *)
Definition spent (g t : Z) : Prop :=
  ∀ b, period - drift ≤ clock b t - clock b g.

Lemma spent_mono g g' t t' : spent g t → g' ≤ g → t ≤ t' → spent g' t'.
Proof.
  intros H Hg Ht b. specialize (H b).
  pose proof (clock_monotone b _ _ Hg). pose proof (clock_monotone b _ _ Ht).
  lia.
Qed.

Lemma period_passed_spent a g t :
  g ≤ t → clock a g + period ≤ clock a t → spent g t.
Proof. intros Hg H b. apply (clock_rates a); [done|lia]. Qed.

(** The vote of [v] is bound to [c], which it granted at [g], until the grant
    is spent. *)
Definition bound (k : nat) (v : LeaseVoter.t) (c g t : Z) : Prop :=
  spent g t ∨
  (∃ r, g ≤ r ≤ t ∧ LeaseVoter.promised_to v = c ∧
        clock k r + period ≤ LeaseVoter.promise_expires v) ∨
  (∃ r, g ≤ r ≤ t ∧ clock k r + period ≤ LeaseVoter.quiet_until v).

Lemma bound_mono k v c g t t' : bound k v c g t → t ≤ t' → bound k v c g t'.
Proof.
  intros [H|[(r & ? & ?)|(r & ? & ?)]] ?.
  - left. eapply spent_mono; [done|lia..].
  - right; left. exists r. split; [lia|done].
  - right; right. exists r. split; [lia|done].
Qed.

Lemma bound_same_vote k v w c g t :
  same_vote v w → bound k v c g t → bound k w c g t.
Proof. intros [_ Hq Hp He _ _]. unfold bound. by rewrite Hq, Hp, He. Qed.

(** A vote that is free when asked for is bound to nobody. *)
Lemma bound_free k v c g t :
  bound k v c g t → c ≠ 0 →
  LeaseVoter.quiet_until v ≤ clock k t →
  (LeaseVoter.promised_to v = 0 ∨ LeaseVoter.promise_expires v ≤ clock k t ∨
   LeaseVoter.promised_to v ≠ c) →
  spent g t.
Proof.
  intros [?|[(r & Hr & Hc & Hx)|(r & Hr & Hx)]] Hc0 Hq Hfree; [done|..].
  - eapply spent_mono; [eapply (period_passed_spent k r t)|..]; try lia.
  - eapply spent_mono; [eapply (period_passed_spent k r t)|..]; lia.
Qed.

Lemma bound_promised k v c g t t' :
  LeaseVoter.promised_to v = c →
  LeaseVoter.promise_expires v = clock k t + period →
  g ≤ t → t ≤ t' → bound k v c g t'.
Proof. intros. right; left. exists t. split; [lia|split; [done|lia]]. Qed.

Lemma bound_quiet k v c g t t' :
  LeaseVoter.quiet_until v = clock k t + period →
  g ≤ t → t ≤ t' → bound k v c g t'.
Proof. intros. right; right. exists t. split; lia. Qed.

Abbreviation hold n := (LeaseParticipant.holder (part n)).
Abbreviation vote n := (LeaseParticipant.voter (part n)).

Record node_inv (t : Z) (ms : list msg) (i : inst) (n : node) : Prop := {
  ni_id : LeaseParticipant.self_id (part n) = inst_id i;
  ni_vote_period : LeaseVoter.lease_period (vote n) = period;
  ni_hold_period : LeaseHolder.lease_period (hold n) = period;
  ni_hold_drift : LeaseHolder.drift_allowance (hold n) = drift;
  ni_clock : 0 ≤ clock (ck n) t;
  ni_held : holder_state n ≠ LeaseHolder.Idle →
    LeaseVoter.held_for_self (vote n) = true;
  ni_epoch : holder_state n ≠ LeaseHolder.Idle →
    LeaseHolder.epoch (hold n) ≤ disk_epoch n;
  ni_request : ∀ v rid e sent, Request (inst_id i) v rid e sent ∈ ms →
    (v = inst_id (other i) ∨ v = third_id) ∧ sent ≤ t ∧ e ≤ disk_epoch n ∧
    (rid ≤ LeaseHolder.last_request_id (hold n) ∨
     e ≤ LeaseVoter.highest_epoch (vote n));
  ni_current : holder_state n ≠ LeaseHolder.Idle →
    ∀ v rid sent,
    Request (inst_id i) v rid (LeaseHolder.epoch (hold n)) sent ∈ ms →
    rid ≤ LeaseHolder.last_request_id (hold n) ∧
    ∀ o, LeaseHolder.outstanding (hold n) !! rid = Some o →
         LeaseHolder.sent_at o = clock (ck n) sent;
  ni_lease : holder_state n ≠ LeaseHolder.Idle →
    ∀ v x, LeaseHolder.expiries (hold n) !! v = Some x →
    x ≤ 0 ∨ ∃ rid e g, Grant v (inst_id i) rid e g ∈ ms ∧
                       x ≤ clock (ck n) g + (period - drift);
  ni_bound : ∀ c rid e g, Grant (inst_id i) c rid e g ∈ ms →
    bound (ck n) (vote n) c g t;
  ni_busy : holder_state n ≠ LeaseHolder.Idle →
    ∀ c rid e g, Grant (inst_id i) c rid e g ∈ ms → spent g t
}.

Record third_inv (t : Z) (ms : list msg) (k : nat) (v : LeaseVoter.t)
    : Prop := {
  ti_period : LeaseVoter.lease_period v = period;
  ti_bound : ∀ c rid e g, Grant third_id c rid e g ∈ ms → bound k v c g t;
  ti_exclusive : ∀ c1 rid1 e1 g1 c2 rid2 e2 g2,
    Grant third_id c1 rid1 e1 g1 ∈ ms → Grant third_id c2 rid2 e2 g2 ∈ ms →
    c1 ≠ c2 → g1 ≤ g2 → spent g1 g2
}.

Record net_inv (t : Z) (ms : list msg) : Prop := {
  nt_candidate : ∀ c v rid e sent, Request c v rid e sent ∈ ms →
    ∃ i, c = inst_id i;
  nt_grant : ∀ v c rid e g, Grant v c rid e g ∈ ms →
    g ≤ t ∧ ∃ sent, sent ≤ g ∧ Request c v rid e sent ∈ ms
}.

Record sys_inv (s : sys) : Prop := {
  si_nodes : ∀ i, node_inv (time s) (net s) i (nodes s i);
  si_third : third_inv (time s) (net s) (third_ck s) (third s);
  si_net : net_inv (time s) (net s)
}.

(** *** Frames: time passing, and messages that do not concern a voter *)

Lemma node_inv_frame t t' ms ms' i n :
  node_inv t ms i n → t ≤ t' →
  (∀ m, m ∈ ms → m ∈ ms') →
  (∀ v rid e sent, Request (inst_id i) v rid e sent ∈ ms' →
                   Request (inst_id i) v rid e sent ∈ ms) →
  (∀ c rid e g, Grant (inst_id i) c rid e g ∈ ms' →
                Grant (inst_id i) c rid e g ∈ ms) →
  node_inv t' ms' i n.
Proof.
  intros [] Ht Hsub Hreq Hgr. constructor; eauto.
  - pose proof (clock_monotone (ck n) _ _ Ht). lia.
  - intros v rid e sent H. apply Hreq, ni_request0 in H as (? & ? & ? & ?).
    split_and!; [done|lia|done..].
  - intros Hs v x Hx. apply ni_lease0 in Hx as [?|(rid & e & g & ? & ?)];
      [by left| |done]. right. eauto 10.
  - intros c rid e g H. eapply bound_mono; eauto.
  - intros Hs c rid e g H. eapply spent_mono; [by eapply ni_busy0; eauto|lia..].
Qed.

Lemma third_inv_frame t t' ms ms' k v :
  third_inv t ms k v → t ≤ t' →
  (∀ c rid e g, Grant third_id c rid e g ∈ ms' →
                Grant third_id c rid e g ∈ ms) →
  third_inv t' ms' k v.
Proof.
  intros [] Ht Hgr. constructor; [done| |eauto].
  intros. eapply bound_mono; eauto.
Qed.

Lemma net_inv_time t t' ms : net_inv t ms → t ≤ t' → net_inv t' ms.
Proof.
  intros [] ?. constructor; [done|]. intros v c rid e g Hm.
  apply nt_grant0 in Hm as (? & ?). split; [lia|done].
Qed.

Lemma net_inv_request t ms i v rid e :
  net_inv t ms → net_inv t (Request (inst_id i) v rid e t :: ms).
Proof.
  intros []. constructor.
  - intros c v' rid' e' sent [H|H]%elem_of_cons; [simplify_eq|]; eauto.
  - intros v' c rid' e' g [H|H]%elem_of_cons; [done|].
    apply nt_grant0 in H as (? & sent & ? & ?). split; [done|].
    exists sent. split; [done|]. by right.
Qed.

Lemma net_inv_grant t ms v c rid e sent :
  net_inv t ms → Request c v rid e sent ∈ ms → sent ≤ t →
  net_inv t (Grant v c rid e t :: ms).
Proof.
  intros [] Hin Hsent. constructor.
  - intros c' v' rid' e' sent' [H|H]%elem_of_cons; [done|eauto].
  - intros v' c' rid' e' g [H|H]%elem_of_cons.
    + simplify_eq. split; [lia|]. exists sent. split; [done|by right].
    + apply nt_grant0 in H as (? & sent' & ? & ?). split; [done|].
      exists sent'. split; [done|by right].
Qed.

(** *** Operations of one instance *)

(** An operation that starts no request to lead, sends nothing and grants
    nothing. *)
Lemma node_inv_update t ms i n n' :
  node_inv t ms i n →
  LeaseParticipant.self_id (part n') = LeaseParticipant.self_id (part n) →
  LeaseVoter.lease_period (vote n') = LeaseVoter.lease_period (vote n) →
  LeaseHolder.lease_period (hold n') = LeaseHolder.lease_period (hold n) →
  LeaseHolder.drift_allowance (hold n') =
    LeaseHolder.drift_allowance (hold n) →
  ck n' = ck n → disk_epoch n' = disk_epoch n →
  LeaseHolder.last_request_id (hold n') =
    LeaseHolder.last_request_id (hold n) →
  LeaseVoter.highest_epoch (vote n) ≤ LeaseVoter.highest_epoch (vote n') →
  (∀ c g, bound (ck n) (vote n) c g t → bound (ck n) (vote n') c g t) →
  (holder_state n' ≠ LeaseHolder.Idle →
   holder_state n ≠ LeaseHolder.Idle ∧
   LeaseHolder.epoch (hold n') = LeaseHolder.epoch (hold n) ∧
   LeaseVoter.held_for_self (vote n') = LeaseVoter.held_for_self (vote n) ∧
   LeaseHolder.outstanding (hold n') ⊆ LeaseHolder.outstanding (hold n) ∧
   ∀ v x, LeaseHolder.expiries (hold n') !! v = Some x →
     LeaseHolder.expiries (hold n) !! v = Some x ∨ x ≤ 0 ∨
     ∃ rid e g, Grant v (inst_id i) rid e g ∈ ms ∧
                x ≤ clock (ck n) g + (period - drift)) →
  node_inv t ms i n'.
Proof.
  intros [] Hid Hvp Hhp Hhd Hck Hdisk Hlast Hhigh Hbound Hst.
  constructor; try congruence.
  - intros Hs. destruct (Hst Hs) as (? & ? & -> & ?). eauto.
  - intros Hs. destruct (Hst Hs) as (? & -> & ?). rewrite Hdisk. eauto.
  - intros v rid e sent Hm. apply ni_request0 in Hm as (? & ? & ? & ?).
    rewrite Hdisk, Hlast. split_and!; [done..|]. lia.
  - intros Hs v rid sent. destruct (Hst Hs) as (? & -> & _ & Hout & _).
    intros Hm. rewrite Hlast, Hck. destruct (ni_current0 ltac:(done) _ _ _ Hm).
    split; [done|]. intros o Ho. eapply lookup_weaken in Ho; eauto.
  - intros Hs v x Hx. destruct (Hst Hs) as (? & _ & _ & _ & Hexp).
    rewrite Hck. apply Hexp in Hx as [Hx|?]; [eauto|done].
  - intros c rid e g Hm. rewrite Hck. eauto.
  - intros Hs. destruct (Hst Hs) as (? & _). eauto.
Qed.

Lemma bound_ext k v w c g t :
  LeaseVoter.quiet_until w = LeaseVoter.quiet_until v →
  LeaseVoter.promised_to w = LeaseVoter.promised_to v →
  LeaseVoter.promise_expires w = LeaseVoter.promise_expires v →
  bound k v c g t → bound k w c g t.
Proof. unfold bound. by intros -> -> ->. Qed.

Lemma learn_epoch_frame v e :
  LeaseVoter.lease_period (LeaseVoter.learn_epoch v e) =
    LeaseVoter.lease_period v ∧
  LeaseVoter.quiet_until (LeaseVoter.learn_epoch v e) =
    LeaseVoter.quiet_until v ∧
  LeaseVoter.promised_to (LeaseVoter.learn_epoch v e) =
    LeaseVoter.promised_to v ∧
  LeaseVoter.promise_expires (LeaseVoter.learn_epoch v e) =
    LeaseVoter.promise_expires v ∧
  LeaseVoter.held_for_self (LeaseVoter.learn_epoch v e) =
    LeaseVoter.held_for_self v ∧
  LeaseVoter.highest_epoch v ≤
    LeaseVoter.highest_epoch (LeaseVoter.learn_epoch v e).
Proof.
  unfold LeaseVoter.learn_epoch. case_match; bool_to_prop; simpl;
    split_and!; lia || done.
Qed.

Lemma node_inv_stand_down t ms i n wait :
  node_inv t ms i n →
  node_inv t ms i (with_part n (LeaseParticipant.with_wait_until
    (LeaseParticipant.stand_down (part n)) wait)).
Proof.
  intros H. eapply node_inv_update; try done; try (by simpl).
Qed.

Lemma node_inv_stand_down' t ms i n :
  node_inv t ms i n →
  node_inv t ms i (with_part n (LeaseParticipant.stand_down (part n))).
Proof. intros H. eapply node_inv_update; try done; try (by simpl). Qed.

Lemma node_inv_statement t ms i n p :
  node_inv t ms i n → statement_step (part n) p →
  node_inv t ms i (with_part n p).
Proof.
  intros H (Hid & Hh & [])%statement_step_frame.
  eapply node_inv_update; try done; simpl; rewrite ?Hh; try done; try lia.
  - intros c g. by apply bound_ext.
  - unfold holder_state. simpl. rewrite Hh. intros. split_and!; try done.
    intros. by left.
Qed.

Lemma node_inv_refusal t ms i n rid highest now wait p ev :
  node_inv t ms i n →
  LeaseParticipant.on_refusal (part n) rid highest now wait = (p, ev) →
  node_inv t ms i (with_part n p).
Proof.
  intros H. unfold LeaseParticipant.on_refusal, LeaseHolder.on_refusal.
  destruct (learn_epoch_frame (vote n) highest)
    as (Hp & Hq & Ht & Hx & Hh & Hle).
  destruct (_ && _) eqn:E; intros ?; simplify_eq/=;
    (eapply node_inv_update; try done; simpl; try done; try lia;
     try (by intros c g; apply bound_ext)).
  intros Hs. split_and!; try done.
  - apply delete_subseteq.
  - intros. by left.
Qed.

Lemma node_inv_ran_out t ms i n now p b :
  node_inv t ms i n →
  LeaseParticipant.stop_if_lease_ran_out (part n) now = (p, b) →
  node_inv t ms i (with_part n p).
Proof.
  intros H. unfold LeaseParticipant.stop_if_lease_ran_out.
  destruct (_ || _); intros; simplify_eq/=; [by destruct n|].
  by apply node_inv_stand_down'.
Qed.

(** Starting to ask to lead: the vote is bound to nobody else, and no request
    in the network carries the new epoch with an identifier still to come. *)
Lemma node_inv_ask t ms i n p e :
  node_inv t ms i n →
  (∀ c rid e g, Grant (inst_id i) c rid e g ∈ ms → c = inst_id (other i)) →
  LeaseParticipant.may_ask_to_lead (part n) (clock (ck n) t) = true →
  LeaseParticipant.begin_asking_to_lead (part n) = Returns (p, e) →
  LeaseVoter.highest_epoch (vote n) < e →
  node_inv t ms i (mk_node p (ck n) (Z.max (disk_epoch n) e)).
Proof.
  intros [] Hother Hmay Hask He.
  unfold LeaseParticipant.begin_asking_to_lead, obind in Hask.
  destruct (LeaderEpoch.next_for _ _) eqn:Hnext; simplify_eq/=.
  unfold LeaseParticipant.may_ask_to_lead, LeaseVoter.restarting,
    LeaseVoter.promised_elsewhere, LeaseVoter.promise_live in Hmay.
  repeat (apply andb_true_iff in Hmay as [Hmay ?]). bool_to_prop.
  constructor; simpl; try done.
  - intros _. lia.
  - intros v rid e' sent Hm. apply ni_request0 in Hm as (? & ? & ? & ?).
    split_and!; [done..|lia|done].
  - intros _ v rid sent Hm. pose proof Hm as (_ & _ & _ & [?|?])%ni_request0;
      [|lia]. split; [done|]. by intros o Ho%lookup_empty_Some.
  - intros _ c rid e' g Hm. pose proof (Hother _ _ _ _ Hm) as ->.
    eapply (bound_free (ck n) (vote n) (inst_id (other i))); eauto with lease.
    pose proof (other_ne i). rewrite ni_id0 in *.
    destruct (decide (LeaseVoter.promised_to (vote n) = inst_id i)).
    + right; right. congruence.
    + lia.
Qed.

Lemma node_inv_send t ms i n v p rid :
  node_inv t ms i n →
  holder_state n ≠ LeaseHolder.Idle →
  v = inst_id (other i) ∨ v = third_id →
  LeaseParticipant.record_request (part n) v (clock (ck n) t) = (p, rid) →
  node_inv t (Request (inst_id i) v rid (LeaseHolder.epoch (hold n)) t :: ms)
    i (with_part n p).
Proof.
  intros [] Hs Hv H. unfold LeaseParticipant.record_request,
    LeaseHolder.record_request in H. simplify_eq/=.
  constructor; simpl; try done.
  - intros v' rid e sent [Hm|Hm]%elem_of_cons.
    + simplify_eq. split_and!; [done|lia|eauto|lia].
    + apply ni_request0 in Hm as (? & ? & ? & ?). split_and!; [done..|lia].
  - intros _ v' rid sent [Hm|Hm]%elem_of_cons.
    + simplify_eq. split; [lia|]. intros o. rewrite lookup_insert_eq.
      by intros; simplify_eq/=.
    + destruct (ni_current0 Hs _ _ _ Hm) as [? Ho]. split; [lia|].
      intros o. rewrite lookup_insert_ne; [|lia].
      intros [? _]%map_lookup_filter_Some. eauto.
  - intros _ v' x Hx. apply ni_lease0 in Hx as [?|(r & e & g & ? & ?)];
      [by left| |done]. right. exists r, e, g. split; [by right|done].
  - intros c r e g [Hm|Hm]%elem_of_cons; [done|eauto].
  - intros _ c r e g [Hm|Hm]%elem_of_cons; [done|eauto].
Qed.

(** Answering the peer.  A grant in memory binds the vote to the peer for a
    period from now, so it may also be sent. *)
Lemma node_inv_consider t ms i n e v a :
  node_inv t ms i n →
  (∀ c rid e g, Grant (inst_id i) c rid e g ∈ ms →
                c = inst_id (other i) ∧ g ≤ t) →
  LeaseVoter.consider (vote n) (inst_id (other i)) e (clock (ck n) t)
    = (v, a) →
  let n' := with_part n (LeaseParticipant.with_voter (part n) v) in
  node_inv t ms i n' ∧
  (LeaseVoter.verdict a = LeaseVoter.Granted →
   holder_state n = LeaseHolder.Idle ∧
   ∀ g, g ≤ t → bound (ck n) v (inst_id (other i)) g t).
Proof.
  intros Hn Hother Hc n'.
  destruct (decide (LeaseVoter.verdict a = LeaseVoter.Granted)) as [Hg|Hg].
  - destruct (consider_granted _ _ _ _ _ _ Hc Hg)
      as (Hq & Hself & Hfree & He & _ & ->).
    assert (Hidle : holder_state n = LeaseHolder.Idle).
    { destruct (holder_state n) eqn:E; [done|..];
        rewrite (ni_held _ _ _ _ Hn) in Hself; congruence. }
    assert (Hb : ∀ g, g ≤ t → bound (ck n)
      (LeaseVoter.mk (LeaseVoter.lease_period (vote n))
         (LeaseVoter.quiet_until (vote n)) (inst_id (other i))
         (clock (ck n) t + LeaseVoter.lease_period (vote n)) false e
         (LeaseVoter.recorded_statement (vote n))) (inst_id (other i)) g t).
    { intros g Hgt. apply (bound_promised _ _ _ _ t); [done| |lia..].
      simpl. by rewrite (ni_vote_period _ _ _ _ Hn). }
    split; [|by split]. subst n'. destruct Hn. constructor; simpl; try done.
    + intros v rid e' sent Hm. apply ni_request0 in Hm as (? & ? & ? & ?).
      split_and!; [done..|lia].
    + intros c rid e' g Hm. destruct (Hother _ _ _ _ Hm) as [-> ?]. by apply Hb.
  - apply consider_refused in Hc; [|done]. subst v n'. split; [|done].
    by destruct n as [[] ? ?].
Qed.

Lemma node_inv_peer_request t ms i n e p out :
  node_inv t ms i n →
  (∀ c rid e g, Grant (inst_id i) c rid e g ∈ ms →
                c = inst_id (other i) ∧ g ≤ t) →
  LeaseParticipant.on_peer_request (part n) (inst_id (other i)) e
    (clock (ck n) t) = (p, out) →
  node_inv t ms i (with_part n p) ∧
  (LeaseVoter.verdict (LeaseParticipant.answer out) = LeaseVoter.Granted →
   holder_state (with_part n p) = LeaseHolder.Idle ∧
   ∀ g, g ≤ t → bound (ck n) (LeaseParticipant.voter p)
                      (inst_id (other i)) g t).
Proof.
  intros Hn Hother. unfold LeaseParticipant.on_peer_request.
  set (gives_up := _ && _). set (p1 := if gives_up then _ else _).
  assert (Hn1 : node_inv t ms i (with_part n p1)).
  { unfold p1. destruct gives_up; [by apply node_inv_stand_down'|].
    by destruct n. }
  destruct (LeaseVoter.consider _ _ _ _) as [v a] eqn:Hc.
  intros ?; simplify_eq. cbn [LeaseParticipant.answer].
  exact (node_inv_consider _ _ _ _ _ _ _ Hn1 Hother Hc).
Qed.

Lemma node_inv_granting t ms i n rid e :
  node_inv t ms i n →
  holder_state n = LeaseHolder.Idle →
  (∀ g, g ≤ t → bound (ck n) (vote n) (inst_id (other i)) g t) →
  node_inv t (Grant (inst_id i) (inst_id (other i)) rid e t :: ms) i n.
Proof.
  intros [] Hidle Hb. constructor; try done.
  - intros v r e' sent [Hm|Hm]%elem_of_cons; [done|eauto].
  - intros c r e' g [Hm|Hm]%elem_of_cons; [|eauto].
    simplify_eq. apply Hb. lia.
Qed.

(** Becoming leader changes the voter's epoch and statement only. *)
Lemma node_inv_become_leader t ms i n v e ps' s w :
  node_inv t ms i n →
  same_vote (LeaseVoter.learn_epoch v e) w → v = vote n →
  node_inv t ms i (with_part n (LeaseParticipant.mk
    (LeaseParticipant.self_id (part n)) w (hold n)
    (LeaseParticipant.wait_until (part n)) ps' s 0 (0, 0) 0)).
Proof.
  intros Hn [] ->.
  destruct (learn_epoch_frame (vote n) e) as (? & ? & ? & ? & ? & ?).
  eapply node_inv_update; try done; simpl; try congruence; try lia.
  - intros c g. apply bound_ext; congruence.
  - intros. split_and!; try done; [congruence|]. intros; by left.
Qed.

(** A lease counted from when its request was sent runs out no later than it
    would counted from when it was granted. *)
Lemma node_inv_holder_grant t ms i n v rid e g h ev :
  node_inv t ms i n → net_inv t ms →
  Grant v (inst_id i) rid e g ∈ ms →
  LeaseHolder.on_grant (hold n) v rid e (clock (ck n) t) = (h, ev) →
  node_inv t ms i (with_part n (LeaseParticipant.with_holder (part n) h)).
Proof.
  intros Hn Hnet Hin Hh.
  apply on_grant_frame in Hh as (? & ? & ? & ? & ? & Hidle & Hexp).
  eapply node_inv_update; try done; simpl.
  unfold holder_state. simpl. intros Hs. split_and!; try done; [tauto|].
  intros u x [?|[?|(-> & o & Ho & -> & Hst & ->)]]%Hexp; [by left|lia|].
  right; right.
  destruct (nt_grant _ _ Hnet _ _ _ _ _ Hin) as (_ & sent & Hsent & Hreq).
  destruct (ni_current _ _ _ _ Hn Hst _ _ _ Hreq) as [_ Hat].
  specialize (Hat _ Ho). pose proof (clock_monotone (ck n) _ _ Hsent).
  rewrite (ni_hold_period _ _ _ _ Hn), (ni_hold_drift _ _ _ _ Hn).
  eexists _, _, _. split; [done|]. lia.
Qed.

Lemma node_inv_grant t ms i n v rid e g p ev :
  node_inv t ms i n → net_inv t ms →
  Grant v (inst_id i) rid e g ∈ ms →
  LeaseParticipant.on_grant (part n) v rid e (clock (ck n) t)
    = Returns (p, ev) →
  node_inv t ms i (with_part n p).
Proof.
  intros Hn Hnet Hin H. unfold LeaseParticipant.on_grant in H.
  destruct (LeaseHolder.on_grant _ _ _ _ _) as [h ev'] eqn:Hh.
  pose proof (node_inv_holder_grant _ _ _ _ _ _ _ _ _ _ Hn Hnet Hin Hh) as Hn1.
  destruct ev'; simplify_eq/=; try done.
  destruct (LeaseParticipant.peer_statements (part n)); simplify_eq/=;
    [|unfold obind in H; case_match; simplify_eq/=..].
  - eapply node_inv_update; [exact Hn1|..]; try done; simpl;
      destruct (learn_epoch_frame (vote n) e) as (? & ? & ? & ? & ? & ?);
      try done.
    + intros c g'. by apply bound_ext.
    + intros. split_and!; try done. intros; by left.
  - eapply (node_inv_become_leader _ _ _ _ (vote n) e _ _ _ Hn1); [|done].
    by eapply record_statement_same_vote.
  - eapply (node_inv_become_leader _ _ _ _ (vote n) e _ _ _ Hn1); [|done].
    by eapply record_statement_same_vote.
Qed.

Lemma make_participant_inv self started persisted q p :
  LeaseParticipant.make self period drift started persisted q = Returns p →
  p = LeaseParticipant.mk self
        (LeaseVoter.mk period (started + period) 0 0 false persisted
           LeaderStatement.none)
        (LeaseHolder.mk period drift LeaseHolder.Idle 0 0 ∅ ∅) 0 q
        LeaderStatement.none 0 (0, 0) 0.
Proof.
  unfold LeaseParticipant.make, LeaseVoter.make, LeaseHolder.make, obind.
  intros. repeat case_match; by simplify_eq.
Qed.

(** Starting again, with a voter whose vote is still bound. *)
Lemma node_inv_restart t ms i n k p v :
  node_inv t ms i n → 0 ≤ clock k t →
  LeaseParticipant.self_id p = inst_id i →
  LeaseParticipant.holder p =
    LeaseHolder.mk period drift LeaseHolder.Idle 0 0 ∅ ∅ →
  LeaseParticipant.voter p = v →
  LeaseVoter.lease_period v = period →
  disk_epoch n ≤ LeaseVoter.highest_epoch v →
  (∀ c rid e g, Grant (inst_id i) c rid e g ∈ ms → bound k v c g t) →
  node_inv t ms i (mk_node p k (disk_epoch n)).
Proof.
  intros [] Hk Hid Hh <- Hv Hhigh Hb.
  assert (holder_state (mk_node p k (disk_epoch n)) = LeaseHolder.Idle) as Hs
    by (unfold holder_state; simpl; by rewrite Hh).
  constructor; simpl; rewrite ?Hh; try done.
  intros u rid e sent Hm. apply ni_request0 in Hm as (? & ? & ? & ?).
  split_and!; [done..|]. right. lia.
Qed.

Lemma third_inv_consider t ms k v c rid e sent w a :
  third_inv t ms k v → net_inv t ms →
  Request c third_id rid e sent ∈ ms → c ≠ 0 →
  LeaseVoter.consider v c e (clock k t) = (w, a) →
  third_inv t (match LeaseVoter.verdict a with
               | LeaseVoter.Granted => Grant third_id c rid e t :: ms
               | _ => ms
               end) k w.
Proof.
  intros [Hp Hb Hex] Hnet Hreq Hc0 Hc.
  destruct (decide (LeaseVoter.verdict a = LeaseVoter.Granted)) as [Hg|Hg];
    [|pose proof (consider_refused _ _ _ _ _ _ Hc Hg); subst w;
      destruct (LeaseVoter.verdict a); by constructor || done].
  destruct (consider_granted _ _ _ _ _ _ Hc Hg)
    as (Hq & Hself & Hfree & He & _ & ->). rewrite Hg.
  assert (Hspent : ∀ c' rid' e' g, Grant third_id c' rid' e' g ∈ ms →
    c' ≠ c → spent g t).
  { intros c' rid' e' g Hm Hne.
    destruct (nt_grant _ _ Hnet _ _ _ _ _ Hm) as (_ & s' & _ & Hr).
    destruct (nt_candidate _ _ Hnet _ _ _ _ _ Hr) as [j ->].
    eapply (bound_free k v (inst_id j)); eauto with lease. lia. }
  constructor; simpl; [done|..].
  - intros c' rid' e' g Hm.
    destruct (decide (c' = c)) as [->|Hne].
    + apply (bound_promised _ _ _ _ t); simpl; [done|lia| |lia].
      apply elem_of_cons in Hm as [Hm|Hm]; [simplify_eq; lia|].
      by apply (nt_grant _ _ Hnet) in Hm as [? _].
    + apply elem_of_cons in Hm as [Hm|Hm]; [simplify_eq|]. left. eauto.
  - intros c1 r1 e1 g1 c2 r2 e2 g2 H1 H2 Hne Hle.
    apply elem_of_cons in H1 as [H1|H1]; apply elem_of_cons in H2 as [H2|H2];
      simplify_eq; eauto.
    eapply spent_mono; [by eapply Hspent; eauto|done|].
    by apply (nt_grant _ _ Hnet) in H2 as [? _].
Qed.

(** *** Every step keeps the invariant *)

Lemma grants_to_peer s :
  sys_inv s → ∀ i c rid e g, Grant (inst_id i) c rid e g ∈ net s →
  c = inst_id (other i) ∧ g ≤ time s.
Proof.
  intros [Hn _ Hnet] i c rid e g Hm.
  destruct (nt_grant _ _ Hnet _ _ _ _ _ Hm) as (Hg & sent & _ & Hr).
  split; [|done]. destruct (nt_candidate _ _ Hnet _ _ _ _ _ Hr) as [j ->].
  destruct (ni_request _ _ _ _ (Hn j) _ _ _ _ Hr) as ([H|H] & _).
  - apply inst_id_inj in H. subst i. by rewrite other_involutive.
  - by destruct (inst_id_not_third i).
Qed.

(** A step of one instance that adds at most one message of its own. *)
Lemma sys_inv_node s i n ms :
  sys_inv s → node_inv (time s) ms i n →
  (ms = net s ∨
   (∃ v rid e t, ms = Request (inst_id i) v rid e t :: net s) ∨
   (∃ c rid e t, ms = Grant (inst_id i) c rid e t :: net s)) →
  net_inv (time s) ms →
  sys_inv (mk_sys (time s) (λ j, if decide (j = i) then n else nodes s j)
             (third s) (third_ck s) ms).
Proof.
  intros [Hn Ht Hnet] Hi Hms Hnet'. constructor; simpl; [|..|done].
  - intros j. destruct (decide (j = i)) as [->|Hne]; [done|].
    assert (inst_id i ≠ inst_id j) by (intros ?%inst_id_inj; congruence).
    eapply node_inv_frame; [apply Hn|lia|..]; intros *;
      destruct Hms as [->|[(? & ? & ? & ? & ->)|(? & ? & ? & ? & ->)]];
      rewrite ?elem_of_cons; intros; intuition congruence.
  - eapply third_inv_frame; [done|lia|]. intros *.
    pose proof (inst_id_not_third i).
    destruct Hms as [->|[(? & ? & ? & ? & ->)|(? & ? & ? & ? & ->)]];
      rewrite ?elem_of_cons; intros; intuition congruence.
Qed.

Abbreviation step := (step clock period drift ps).
Abbreviation initial := (initial clock period drift ps).
Abbreviation reachable := (reachable clock period drift ps).

Lemma sys_inv_node_op s i p :
  sys_inv s → node_inv (time s) (net s) i (with_part (nodes s i) p) →
  sys_inv (with_node s i (with_part (nodes s i) p)).
Proof. intros H Hn. apply sys_inv_node; [done..|by left|apply H]. Qed.

Lemma sys_inv_initial s : initial s → sys_inv s.
Proof.
  intros (Hnet & Hn & highest & Ht). constructor; rewrite ?Hnet.
  - intros i. destruct (Hn i) as [Hk Hp%make_participant_inv].
    assert (holder_state (nodes s i) = LeaseHolder.Idle)
      by (unfold holder_state; by rewrite Hp).
    constructor; rewrite ?Hp; simpl; try done; by intros * ?%elem_of_nil.
  - unfold LeaseVoter.make in Ht. repeat case_match; simplify_eq.
    replace (third s) with (LeaseVoter.mk period (clock (third_ck s) (time s)
      + period) 0 0 false highest LeaderStatement.none) by congruence.
    constructor; simpl; [done|..]; by intros * ?%elem_of_nil.
  - constructor; by intros * ?%elem_of_nil.
Qed.

Lemma sys_inv_step s s' : sys_inv s → step s s' → sys_inv s'.
Proof.
  intros Hs Hstep.
  pose proof (si_nodes _ Hs) as Hn. pose proof (si_third _ Hs) as Ht.
  pose proof (si_net _ Hs) as Hnet. pose proof (grants_to_peer _ Hs) as Hpeer.
  destruct Hstep as
    [s t Ht'|s i p e Hmay Hask|s i v p rid Hst Hv Hr|s i rid e sent p out Hin Ho
    |s i rid e sent p out Hin Ho Hg|s i rid e sent Hin Hidle Hto Hx
    |s c rid e sent v a Hin Hc
    |s i v rid e g p ev Hin Hg|s i rid high wait p ev Hr|s i wait
    |s i p b Hr|s i p Hst|s i k per p kept Hk Hper Hp
    |s i per p kept pr un Hper Hp Hcov|s st v Hv|s k high v kept Hv].
  - constructor; simpl.
    + intros i. by eapply node_inv_frame.
    + by eapply third_inv_frame.
    + by eapply net_inv_time.
  - apply sys_inv_node; [done| |by left|done].
    apply node_inv_ask; [done| |done|done|].
    { intros c r e' g Hm. by destruct (Hpeer _ _ _ _ _ Hm). }
    unfold LeaseParticipant.begin_asking_to_lead, obind in Hask.
    case_match eqn:Hnext; simplify_eq.
    apply next_for_returns in Hnext. lia.
  - apply (sys_inv_node s i);
      [done| |right; left; eauto|by apply net_inv_request].
    by apply node_inv_send.
  - apply sys_inv_node_op; [done|]. eapply node_inv_peer_request; eauto.
  - destruct (node_inv_peer_request _ _ _ _ _ _ _ (Hn i) (Hpeer i) Ho)
      as [Hi Hb]. destruct (Hb Hg) as [Hidle Hb'].
    apply (sys_inv_node s i); [done|by apply node_inv_granting| |].
    + right; right; eauto.
    + eapply net_inv_grant; eauto. by apply (ni_request _ _ _ _ (Hn (other i)))
        in Hin as (_ & ? & _).
  - assert (Hi : node_inv (time s)
        (Grant (inst_id i) (inst_id (other i)) rid e (time s) :: net s) i
        (nodes s i)).
    { apply node_inv_granting; [done..|]. intros g Hg.
      apply (bound_promised _ _ _ _ (time s)); [done..|lia]. }
    assert (Hsame : send s (Grant (inst_id i) (inst_id (other i)) rid e (time s))
      = mk_sys (time s) (nodes s) (third s) (third_ck s)
          (Grant (inst_id i) (inst_id (other i)) rid e (time s) :: net s)) by done.
    pose proof (sys_inv_node s i (nodes s i) _ Hs Hi) as Hnew.
    destruct Hnew as [Hn' Ht'' Hnet''].
    + right; right; eauto.
    + eapply net_inv_grant; eauto. by apply (ni_request _ _ _ _ (Hn (other i)))
        in Hin as (_ & ? & _).
    + rewrite Hsame. constructor; simpl; [|done..]. intros j.
      specialize (Hn' j). simpl in Hn'. case_decide; by subst.
  - destruct (nt_candidate _ _ Hnet _ _ _ _ _ Hin) as [j ->].
    assert (Hs' : sent ≤ time s)
      by (by apply (ni_request _ _ _ _ (Hn j)) in Hin as (_ & ? & _)).
    constructor; simpl.
    + intros i. pose proof (inst_id_not_third i).
      eapply node_inv_frame; [apply Hn|lia|..]; intros *;
        destruct (LeaseVoter.verdict a); rewrite ?elem_of_cons; intuition congruence.
    + eapply third_inv_consider; eauto with lease.
    + destruct (LeaseVoter.verdict a); try done. by eapply net_inv_grant.
  - apply sys_inv_node_op; [done|]. by eapply node_inv_grant.
  - apply sys_inv_node_op; [done|]. by eapply node_inv_refusal.
  - apply sys_inv_node_op; [done|]. by apply node_inv_stand_down.
  - apply sys_inv_node_op; [done|]. by eapply node_inv_ran_out.
  - apply sys_inv_node_op; [done|]. by apply node_inv_statement.
  - apply sys_inv_node; [done| |by left|done].
    apply make_participant_inv in Hp as ->.
    eapply node_inv_restart; try done. intros c rid e g Hm.
    apply (bound_quiet _ _ _ _ (time s)); simpl; [done| |lia].
    by destruct (Hpeer _ _ _ _ _ Hm).
  - apply sys_inv_node; [done| |by left|done].
    apply make_participant_inv in Hp as ->.
    eapply node_inv_restart; try done; [apply Hn|].
    intros c rid e g Hm. destruct (Hpeer _ _ _ _ _ Hm) as [_ Hle].
    destruct (Hcov _ _ _ _ Hm) as [[-> ?]|?].
    + right; left. exists g. split; [lia|done].
    + left. by eapply period_passed_spent.
  - apply record_statement_same_vote in Hv. constructor; simpl; [done| |done].
    destruct Ht as [Hp Hb Hex]. constructor; [|by intros; eapply bound_same_vote, Hb|done].
    by rewrite <- (sv_period _ _ Hv).
  - constructor; simpl; [done| |done].
    unfold LeaseVoter.make in Hv. repeat case_match; simplify_eq.
    constructor; simpl; [done| |apply Ht]. intros c rid e g Hm.
    apply (bound_quiet _ _ _ _ (time s)); simpl; [done| |lia].
    by apply (nt_grant _ _ Hnet) in Hm as [? _].
Qed.

Lemma reachable_inv s : reachable s → sys_inv s.
Proof.
  intros (s0 & Hi & Hsteps). apply sys_inv_initial in Hi.
  induction Hsteps; eauto using sys_inv_step.
Qed.

(** An instance that acts was granted a lease that is not spent. *)
Lemma acting_lease s i :
  sys_inv s →
  LeaseParticipant.acting (part (nodes s i)) (local clock s i) = true →
  holder_state (nodes s i) ≠ LeaseHolder.Idle ∧
  ∃ v rid e g, Grant v (inst_id i) rid e g ∈ net s ∧ ¬ spent g (time s) ∧
               (v = inst_id (other i) ∨ v = third_id).
Proof.
  intros Hs Hact. pose proof (si_nodes _ Hs i) as Hn.
  unfold LeaseParticipant.acting, LeaseHolder.acting, holder_state in *.
  destruct (LeaseHolder.state _) eqn:Hst; try done. bool_to_prop.
  split; [done|].
  destruct (lease_expires_at_witness _ _ (ni_clock _ _ _ _ Hn) Hact)
    as (v & x & Hx & Hlt).
  destruct (ni_lease _ _ _ _ Hn ltac:(unfold holder_state; by rewrite Hst)
    _ _ Hx) as [?|(rid & e & g & Hm & Hle)];
    [pose proof (ni_clock _ _ _ _ Hn); unfold local in *; lia|].
  exists v, rid, e, g. split_and!; [done|..].
  - intros H. specialize (H (ck (nodes s i))). unfold local in *. lia.
  - destruct (nt_grant _ _ (si_net _ Hs) _ _ _ _ _ Hm) as (_ & ? & _ & Hr).
    by apply (ni_request _ _ _ _ Hn) in Hr as [? _].
Qed.

Lemma never_both_acting s :
  sys_inv s →
  LeaseParticipant.acting (part (nodes s Primary)) (local clock s Primary)
    = true →
  LeaseParticipant.acting (part (nodes s Secondary))
    (local clock s Secondary) = true →
  False.
Proof.
  intros Hs Ha1 Ha2.
  apply (acting_lease _ _ Hs) in Ha1
    as (H1 & v1 & r1 & e1 & g1 & Hm1 & Hl1 & Hv1).
  apply (acting_lease _ _ Hs) in Ha2
    as (H2 & v2 & r2 & e2 & g2 & Hm2 & Hl2 & Hv2).
  pose proof (si_nodes _ Hs) as Hn. pose proof (si_third _ Hs) as Ht.
  destruct Hv1 as [-> | ->]; [by eapply Hl1, (ni_busy _ _ _ _ (Hn Secondary))|].
  destruct Hv2 as [-> | ->]; [by eapply Hl2, (ni_busy _ _ _ _ (Hn Primary))|].
  destruct (nt_grant _ _ (si_net _ Hs) _ _ _ _ _ Hm1) as [Hg1 _].
  destruct (nt_grant _ _ (si_net _ Hs) _ _ _ _ _ Hm2) as [Hg2 _].
  destruct (Z.le_ge_cases g1 g2) as [Hle|Hle].
  - apply Hl1. eapply (spent_mono g1 g1 g2); [|lia|exact Hg2].
    by eapply (ti_exclusive _ _ _ _ Ht _ _ _ _ _ _ _ _ Hm1 Hm2).
  - apply Hl2. eapply (spent_mono g2 g2 g1); [|lia|exact Hg1].
    by eapply (ti_exclusive _ _ _ _ Ht _ _ _ _ _ _ _ _ Hm2 Hm1).
Qed.

End safety.

(** ** Epochs name their leader *)

(** Every epoch in use records, in its remainder, the instance it is for. *)
Record epoch_inv (s : sys) : Prop := {
  ei_self : ∀ i, LeaseParticipant.self_id (part (nodes s i)) = inst_id i;
  ei_node : ∀ i, holder_state (nodes s i) ≠ LeaseHolder.Idle →
    LeaseHolder.epoch (LeaseParticipant.holder (part (nodes s i)))
      mod LeaderEpoch.epoch_stride = inst_id i;
  ei_request : ∀ c v rid e sent, Request c v rid e sent ∈ net s →
    e mod LeaderEpoch.epoch_stride = c;
  ei_grant : ∀ v c rid e g, Grant v c rid e g ∈ net s →
    e mod LeaderEpoch.epoch_stride = c
}.

(** An operation that does not start a request to lead. *)
Definition keeps_candidacy (p p' : LeaseParticipant.t) : Prop :=
  LeaseParticipant.self_id p' = LeaseParticipant.self_id p ∧
  (LeaseHolder.state (LeaseParticipant.holder p') ≠ LeaseHolder.Idle →
   LeaseHolder.state (LeaseParticipant.holder p) ≠ LeaseHolder.Idle ∧
   LeaseHolder.epoch (LeaseParticipant.holder p') =
     LeaseHolder.epoch (LeaseParticipant.holder p)).

Lemma keeps_candidacy_peer_request p c e t p' out :
  LeaseParticipant.on_peer_request p c e t = (p', out) → keeps_candidacy p p'.
Proof.
  unfold LeaseParticipant.on_peer_request. set (b := _ && _).
  destruct (LeaseVoter.consider _ _ _ _). intros; simplify_eq.
  unfold keeps_candidacy. by destruct b.
Qed.

Lemma keeps_candidacy_grant p v rid e t p' ev :
  LeaseParticipant.on_grant p v rid e t = Returns (p', ev) →
  keeps_candidacy p p'.
Proof.
  unfold LeaseParticipant.on_grant.
  destruct (LeaseHolder.on_grant _ _ _ _ _) as [h ev'] eqn:Hh.
  apply on_grant_frame in Hh as (_ & _ & He & _ & _ & Hidle & _).
  assert (Hk : ∀ p'', LeaseParticipant.self_id p'' = LeaseParticipant.self_id p
    → LeaseParticipant.holder p'' = h → keeps_candidacy p p'').
  { intros p'' Hs Hp. split; [done|]. rewrite Hp. tauto. }
  intros H. destruct ev'; simplify_eq; try (by apply Hk).
  unfold obind in H. repeat case_match; simplify_eq; by apply Hk.
Qed.

Lemma keeps_candidacy_refusal p rid highest t wait p' ev :
  LeaseParticipant.on_refusal p rid highest t wait = (p', ev) →
  keeps_candidacy p p'.
Proof.
  unfold LeaseParticipant.on_refusal, LeaseHolder.on_refusal.
  intros. split_ifs; by split.
Qed.

Lemma keeps_candidacy_ran_out p t p' b :
  LeaseParticipant.stop_if_lease_ran_out p t = (p', b) →
  keeps_candidacy p p'.
Proof.
  unfold LeaseParticipant.stop_if_lease_ran_out. intros.
  destruct (_ || _); simplify_eq; by split.
Qed.

Lemma keeps_candidacy_request p v t p' rid :
  LeaseParticipant.record_request p v t = (p', rid) → keeps_candidacy p p'.
Proof.
  unfold LeaseParticipant.record_request, LeaseHolder.record_request.
  intros. simplify_eq. by split.
Qed.

Lemma keeps_candidacy_statement p p' :
  statement_step p p' → keeps_candidacy p p'.
Proof.
  intros (Hs & Hh & _)%statement_step_frame. split; [done|]. by rewrite Hh.
Qed.

#[local] Hint Resolve keeps_candidacy_peer_request keeps_candidacy_grant
  keeps_candidacy_refusal keeps_candidacy_ran_out keeps_candidacy_request
  keeps_candidacy_statement : lease.

Lemma epoch_inv_node s i p k d :
  epoch_inv s → keeps_candidacy (part (nodes s i)) p →
  epoch_inv (with_node s i (mk_node p k d)).
Proof.
  intros [Hself Hnode Hreq Hgr] [Hs Hst]. constructor; simpl; [| |done..].
  - intros j. case_decide; [subst|done]. by rewrite <- Hself.
  - intros j. case_decide; [subst|by apply Hnode]. unfold holder_state in *.
    simpl. intros [? ->]%Hst. by apply Hnode.
Qed.

Lemma epoch_inv_idle s i p k d :
  epoch_inv s → LeaseParticipant.self_id p = inst_id i →
  LeaseHolder.state (LeaseParticipant.holder p) = LeaseHolder.Idle →
  epoch_inv (with_node s i (mk_node p k d)).
Proof.
  intros H Hs Hst. apply epoch_inv_node; [done|]. split.
  - by rewrite Hs, (ei_self _ H).
  - by rewrite Hst.
Qed.

Lemma epoch_inv_send s m :
  epoch_inv s →
  match m with
  | Request c _ _ e _ | Grant _ c _ e _ =>
      e mod LeaderEpoch.epoch_stride = c
  end → epoch_inv (send s m).
Proof.
  intros [] Hm. constructor; simpl; [done..| |]; intros *;
    rewrite elem_of_cons; intros [<-|?]; eauto.
Qed.

Lemma epoch_inv_step clock period drift ps s s' :
  epoch_inv s → step clock period drift ps s s' → epoch_inv s'.
Proof.
  intros Hs Hstep. destruct Hstep.
  - by destruct Hs.
  - unfold LeaseParticipant.begin_asking_to_lead, obind in *.
    case_match eqn:Hnext; simplify_eq.
    apply next_for_returns in Hnext as (_ & _ & _ & _ & Hmod).
    destruct Hs as [Hself Hnode Hreq Hgr].
    constructor; simpl; [| |done..].
    + intros j. case_decide; [subst|]; apply Hself.
    + intros j. case_decide; [subst|by apply Hnode]. intros _. simpl.
      by rewrite <- Hself.
  - apply epoch_inv_send; [|by apply Hs]. apply epoch_inv_node; eauto with lease.
  - apply epoch_inv_node; eauto with lease.
  - apply epoch_inv_send; [apply epoch_inv_node; eauto with lease|].
    by apply (ei_request _ Hs) in H.
  - apply epoch_inv_send; [done|]. by apply (ei_request _ Hs) in H.
  - destruct Hs as [Hself Hnode Hreq Hgr]. pose proof (Hreq _ _ _ _ _ H).
    constructor; simpl; [done..| |]; intros *; destruct (LeaseVoter.verdict a);
      rewrite ?elem_of_cons; try (by eauto); intros [Hm|?]; simplify_eq; eauto.
  - apply epoch_inv_node; eauto with lease.
  - apply epoch_inv_node; eauto with lease.
  - by apply epoch_inv_node.
  - apply epoch_inv_node; eauto with lease.
  - apply epoch_inv_node; eauto with lease.
  - apply make_participant_inv in H1 as ->. by apply epoch_inv_idle.
  - apply make_participant_inv in H0 as ->. by apply epoch_inv_idle.
  - by destruct Hs.
  - by destruct Hs.
Qed.

Lemma reachable_epoch_inv clock period drift ps s :
  reachable clock period drift ps s → epoch_inv s.
Proof.
  intros (s0 & (Hnet & Hn & _) & Hsteps).
  assert (epoch_inv s0) as H0.
  { constructor; rewrite ?Hnet; try (by intros * ?%elem_of_nil);
      intros i; destruct (Hn i) as [_ Hp%make_participant_inv];
      unfold holder_state; by rewrite Hp. }
  clear Hnet Hn. induction Hsteps; eauto using epoch_inv_step.
Qed.

(** ** A run in which the primary leads *)

Definition demo_part (i : inst) : LeaseParticipant.t :=
  match LeaseParticipant.make (inst_id i) 3000 250 0 0
          LeaseParticipant.SayWhetherPeerMayLead with
  | Returns p => p
  | Throws _ => LeaseParticipant.mk 0
      (LeaseVoter.mk 0 0 0 0 false 0 LeaderStatement.none)
      (LeaseHolder.mk 0 0 LeaseHolder.Idle 0 0 ∅ ∅) 0
      LeaseParticipant.PeerAlwaysMayLead LeaderStatement.none 0 (0, 0) 0
  end.

Definition demo_third : LeaseVoter.t :=
  LeaseVoter.mk 3000 3000 0 0 false 0 LeaderStatement.none.

Definition demo_start : sys :=
  mk_sys 0 (λ i, mk_node (demo_part i) 0 0) demo_third 0 [].

(** At 3000 the primary asks the third voter to lead at epoch 1; at 3010 the
    third voter grants; at 3020 the grant arrives. *)
Definition demo_asking : LeaseParticipant.t :=
  match LeaseParticipant.begin_asking_to_lead (demo_part Primary) with
  | Returns (p, _) => p
  | Throws _ => demo_part Primary
  end.

Definition demo_asked : LeaseParticipant.t :=
  (LeaseParticipant.record_request demo_asking third_id 3000).1.

Definition demo_leading : LeaseParticipant.t :=
  match LeaseParticipant.on_grant demo_asked third_id 1 1 3020 with
  | Returns (p, _) => p
  | Throws _ => demo_part Primary
  end.

Definition at_time (t : Z) (s : sys) : sys :=
  mk_sys t (nodes s) (third s) (third_ck s) (net s).

Definition demo_sent : sys :=
  let s := with_node (at_time 3000 demo_start) Primary
             (mk_node demo_asking 0 (Z.max 0 1)) in
  send (with_node s Primary (with_part (nodes s Primary) demo_asked))
    (Request 1 third_id 1 1 3000).

Definition demo_granted : sys :=
  mk_sys 3010 (nodes demo_sent)
    (LeaseVoter.consider demo_third 1 1 3010).1 0
    (Grant third_id 1 1 1 3010 :: net demo_sent).

Definition demo_end : sys :=
  let s := at_time 3020 demo_granted in
  with_node s Primary (with_part (nodes s Primary) demo_leading).

Lemma demo_reachable :
  reachable (λ _ t, t) 3000 250 LeaseParticipant.SayWhetherPeerMayLead
    demo_end.
Proof.
  exists demo_start. split.
  { split; [done|]. split; [|by exists 0].
    intros []; split; vm_compute; done. }
  eapply rtc_l; [apply (step_time _ _ _ _ _ 3000); simpl; lia|].
  eapply rtc_l; [apply (step_ask _ _ _ _ _ Primary demo_asking 1);
    vm_compute; reflexivity|].
  eapply rtc_l; [apply (step_send _ _ _ _ _ Primary third_id demo_asked 1);
    [done|by right|vm_compute; reflexivity]|].
  eapply rtc_l; [apply (step_time _ _ _ _ _ 3010); simpl; lia|].
  eapply rtc_l; [eapply (step_third_request _ _ _ _ _ 1 1 1 3000);
    [by left|apply surjective_pairing]|].
  eapply rtc_l; [apply (step_time _ _ _ _ _ 3020); simpl; lia|].
  eapply rtc_l; [apply (step_grant _ _ _ _ _ Primary third_id 1 1 3010
    demo_leading LeaseHolder.BecameLeader); [by left|vm_compute; reflexivity]|].
  apply rtc_refl.
Qed.

(** ** Properties *)

(** C2: Two instances of a pair never act as leader at the same moment,
    whatever the network delays, repeats or loses, whichever voters restart,
    with or without their promise records, and on clocks that may differ in
    rate by no more than the drift allowance over a lease period. *)
Theorem two_instances_never_both_act clock period drift ps s :
  (∀ c u t, u ≤ t → clock c u ≤ clock c t) →
  (∀ a b u t, u ≤ t → period ≤ clock a t - clock a u →
              period - drift ≤ clock b t - clock b u) →
  reachable clock period drift ps s →
  ¬ (LeaseParticipant.acting (part (nodes s Primary)) (local clock s Primary)
       = true ∧
     LeaseParticipant.acting (part (nodes s Secondary))
       (local clock s Secondary) = true).
Proof.
  intros Hmono Hrates Hr [H1 H2].
  eapply never_both_acting; eauto using reachable_inv.
Qed.

Lemma two_instances_never_both_act_witness :
  LeaseParticipant.acting (part (nodes demo_end Primary))
    (local (λ _ t, t) demo_end Primary) = true ∧
  ¬ (LeaseParticipant.acting (part (nodes demo_end Secondary))
       (local (λ _ t, t) demo_end Secondary) = true).
Proof.
  assert (Ha : LeaseParticipant.acting (part (nodes demo_end Primary))
    (local (λ _ t, t) demo_end Primary) = true)
    by (vm_compute; reflexivity).
  split; [exact Ha|]. intros Hb.
  apply (two_instances_never_both_act (λ _ t, t) 3000 250
    LeaseParticipant.SayWhetherPeerMayLead demo_end); [lia|lia| |split; done].
  exact demo_reachable.
Defined.

(** An epoch names one leader: in the whole history of a pair, any two
    requests to lead at one epoch come from the same instance, and so do any
    request and the leadership of an instance that leads or asks to lead. *)
Theorem epoch_names_one_leader clock period drift ps s :
  reachable clock period drift ps s →
  (∀ c1 v1 r1 c2 v2 r2 e s1 s2,
     Request c1 v1 r1 e s1 ∈ net s → Request c2 v2 r2 e s2 ∈ net s →
     c1 = c2) ∧
  (∀ v1 c1 r1 v2 c2 r2 e g1 g2,
     Grant v1 c1 r1 e g1 ∈ net s → Grant v2 c2 r2 e g2 ∈ net s → c1 = c2) ∧
  (holder_state (nodes s Primary) ≠ LeaseHolder.Idle →
   holder_state (nodes s Secondary) ≠ LeaseHolder.Idle →
   LeaseHolder.epoch (LeaseParticipant.holder (part (nodes s Primary))) ≠
   LeaseHolder.epoch (LeaseParticipant.holder (part (nodes s Secondary)))).
Proof.
  intros Hr. destruct (reachable_epoch_inv _ _ _ _ _ Hr) as [_ Hn Hq Hg].
  split_and!.
  - intros * H1%Hq H2%Hq. congruence.
  - intros * H1%Hg H2%Hg. congruence.
  - intros H1%Hn H2%Hn E. rewrite E in H1. rewrite H1 in H2. discriminate.
Qed.

