(* ===== verification/PairLeaseAgent.v ===== *)
(** The agent that drives the lease rules of one instance, and what it keeps on
    disk.

    Models, from [libraries/pubsub_itc_fw/include/pubsub_itc_fw]:
    [LeasePromiseRecord.hpp], [LeasePromiseStore.hpp] (what the file holds and
    when it is believed; its text form is not modelled),
    [BackgroundPromiseRecorder.hpp] (both threads, one turn of the writer at a
    time), [EpochRecording.hpp] with [EpochStore.hpp] (the epoch on disk; the
    histograms and the warnings are left out) and [PairLeaseAgent.hpp] (every
    operation; log lines, metrics and test events are left out, and with them
    the members only they read).

    Times are milliseconds, as in [Lease].  The calls on the links are listed
    in [sent], the newest first.  Whether each write reaches the disk, and how
    long the epoch's takes, are answers the environment gives. *)

From S2P Require Import Prelude.
From S2P Require Import Lease.

Local Open Scope Z_scope.
Local Open Scope venue_scope.

(** ** LeasePromiseRecord and LeasePromiseStore *)

Module LeasePromiseStore.

Record LeasePromiseRecord := mk_record {
  promised_to : Z;
  until : Z;
  statement : LeaderStatement.t
}.

(** The file: the boot that wrote it and what it says, or nothing readable. *)
Definition file : Type := option (nat * LeasePromiseRecord).

(** [load]: only a record of this boot of the machine is believed.  [None] for
    the boot is a boot id that could not be read. *)
Definition load (f : file) (boot_id : option nat) : option LeasePromiseRecord :=
  match f, boot_id with
  | Some (wrote, r), Some boot => if decide (wrote = boot) then Some r else None
  | _, _ => None
  end.

(** [load_statement]: whichever boot wrote it. *)
Definition load_statement (f : file) : LeaderStatement.t :=
  match f with Some (_, r) => statement r | None => LeaderStatement.none end.

(** [record]: a temporary file renamed over the real one, so that the record
    is the new one or the old; [reached] says whether every call succeeded. *)
Definition record (f : file) (boot_id : option nat) (r : LeasePromiseRecord)
    (reached : bool) : file * bool :=
  match boot_id with
  | Some boot => if reached then (Some (boot, r), true) else (f, false)
  | None => (f, false)
  end.

End LeasePromiseStore.

Export LeasePromiseStore (LeasePromiseRecord, mk_record).

(** ** BackgroundPromiseRecorder *)

Module BackgroundPromiseRecorder.

(** What the two threads share, the outcomes read, and the store. *)
Record t := mk {
  requests_started : Z;
  requests_finished : Z;
  last_write_succeeded : bool;
  slot : LeasePromiseRecord;
  outcomes_read : Z;
  boot_id : option nat;
  store : LeasePromiseStore.file
}.

Definition no_record : LeasePromiseRecord := mk_record 0 0 LeaderStatement.none.

(** The constructor, over the file as it is found. *)
Definition make (boot : option nat) (f : LeasePromiseStore.file) : t :=
  mk 0 0 false no_record 0 boot f.

Definition record_in_background (b : t) (r : LeasePromiseRecord) : t * bool :=
  if negb (requests_started b =? requests_finished b) then (b, false)
  else (mk (requests_started b + 1) (requests_finished b)
           (last_write_succeeded b) r (requests_finished b) (boot_id b)
           (store b), true).

Definition background_result (b : t) : t * option bool :=
  if requests_finished b =? outcomes_read b then (b, None)
  else (mk (requests_started b) (requests_finished b) (last_write_succeeded b)
           (slot b) (requests_finished b) (boot_id b) (store b),
        Some (last_write_succeeded b)).

(** One turn of [write_requests], the loop of the writer thread. *)
Definition write_requests (b : t) (reached : bool) : t :=
  if requests_started b =? requests_finished b then b
  else
    let '(f, written) :=
      LeasePromiseStore.record (store b) (boot_id b) (slot b) reached in
    mk (requests_started b) (requests_finished b + 1) written (slot b)
       (outcomes_read b) (boot_id b) f.

End BackgroundPromiseRecorder.

(** ** EpochRecording *)

Module EpochRecording.

(** The epoch on disk, zero for none, the highest this object has written, and
    the disk's answers to the writes to come: whether each succeeds and how
    long it takes. *)
Record t := mk {
  on_disk : Z;
  highest_written : Z;
  answers : list (bool * Z)
}.

Definition load (r : t) : Z := on_disk r.

(** [record]: whether the epoch is on disk, and how long it took. *)
Definition record (r : t) (epoch : Z) : t * (bool * Z) :=
  if epoch <=? highest_written r then (r, (true, 0))
  else
    let '(recorded, took) := default (true, 0) (head (answers r)) in
    (mk (if recorded then epoch else on_disk r)
        (if recorded then epoch else highest_written r) (tail (answers r)),
     (recorded, took)).

(** [EpochRecordedBeforeAsking::record_before_asking]. *)
Definition record_before_asking (r : t) (epoch : Z) : t * Z :=
  let '(r', (_, took)) := record r epoch in (r', took).

End EpochRecording.

(** ** The lease messages *)

Module LeaseMessages.

Inductive LeaseRefusalReason :=
  | unknown
  | restarting
  | promised_elsewhere
  | epoch_behind
  | may_not_lead
  | recording_promise.

Record LeaseRequest := mk_request {
  candidate_instance_id : Z;
  pair_id : Z;
  request_epoch : Z;
  request_id : Z;
  request_statement : LeaderStatement.t
}.

Record LeaseGrant := mk_grant {
  grant_voter : Z;
  grant_pair_id : Z;
  grant_epoch : Z;
  grant_request_id : Z;
  echoed_statement_number : Z
}.

Record LeaseRefusal := mk_refusal {
  refusal_voter : Z;
  refusal_pair_id : Z;
  refusal_highest_epoch : Z;
  refusal_request_id : Z;
  reason : LeaseRefusalReason
}.

(** The calls on [LeaseLinksInterface].  A connection is a number. *)
Inductive sending :=
  | request_to_peer (r : LeaseRequest)
  | request_to_third_voter (r : LeaseRequest)
  | grant_on (conn_id : Z) (g : LeaseGrant)
  | refusal_on (conn_id : Z) (r : LeaseRefusal).

End LeaseMessages.

Export LeaseMessages.

(** ** PairLeaseAgent *)

Module PairLeaseAgent.

Import BackgroundPromiseRecorder (no_record).

Inductive Change := Nothing | BecameLeader | StoppedLeading | AgreedPeerLeads.

(** How the agent is set up.  [keeps_epoch] is [epoch_recorder_ != nullptr]. *)
Record configuration := mk_configuration {
  pair_id_ : Z;
  self_id_ : Z;
  peer_id_ : Z;
  third_voter_id_ : Z;
  timing_ : LeaseTiming.t;
  keeps_epoch : bool
}.

(** [background_in_flight_] with [background_record_], and [record_wanted_]
    with [wanted_to_] and [wanted_until_], are options; [draws] counts the
    numbers taken from [random_]. *)
Record t := mk {
  cfg : configuration;
  participant_ : LeaseParticipant.t;
  draws : nat;
  last_renewal_ : Z;
  asked_at_ : Z;
  has_recorder : bool;
  recorded_to_ : Z;
  recorded_until_ : Z;
  recorded_statement_ : LeaderStatement.t;
  in_flight : option LeasePromiseRecord;
  wanted : option (Z * Z);
  peer_refused_ : bool;
  third_voter_refused_ : bool;
  resuming_lead_until_ : Z;
  asks_to_lead_ : bool
}.

(** The agent and what it calls. *)
Record state := mk_state {
  agent : t;
  recorder : BackgroundPromiseRecorder.t;
  epochs : EpochRecording.t;
  sent : list sending
}.

Definition promise_record_margin : Z := 10000.
Definition refresh_ahead : Z := promise_record_margin / 2.

(** *** Changing one member *)

Definition with_participant (a : t) (p : LeaseParticipant.t) : t :=
  mk (cfg a) p (draws a) (last_renewal_ a) (asked_at_ a) (has_recorder a)
     (recorded_to_ a) (recorded_until_ a) (recorded_statement_ a) (in_flight a)
     (wanted a) (peer_refused_ a) (third_voter_refused_ a)
     (resuming_lead_until_ a) (asks_to_lead_ a).

Definition with_draws (a : t) (n : nat) : t :=
  mk (cfg a) (participant_ a) n (last_renewal_ a) (asked_at_ a)
     (has_recorder a) (recorded_to_ a) (recorded_until_ a)
     (recorded_statement_ a) (in_flight a) (wanted a) (peer_refused_ a)
     (third_voter_refused_ a) (resuming_lead_until_ a) (asks_to_lead_ a).

Definition with_asking (a : t) (renewal asked : Z) : t :=
  mk (cfg a) (participant_ a) (draws a) renewal asked (has_recorder a)
     (recorded_to_ a) (recorded_until_ a) (recorded_statement_ a) (in_flight a)
     (wanted a) (peer_refused_ a) (third_voter_refused_ a)
     (resuming_lead_until_ a) (asks_to_lead_ a).

Definition with_recorded (a : t) (recorder : bool) (to until : Z)
    (s : LeaderStatement.t) : t :=
  mk (cfg a) (participant_ a) (draws a) (last_renewal_ a) (asked_at_ a)
     recorder to until s (in_flight a) (wanted a) (peer_refused_ a)
     (third_voter_refused_ a) (resuming_lead_until_ a) (asks_to_lead_ a).

Definition with_writes (a : t) (flight : option LeasePromiseRecord)
    (want : option (Z * Z)) : t :=
  mk (cfg a) (participant_ a) (draws a) (last_renewal_ a) (asked_at_ a)
     (has_recorder a) (recorded_to_ a) (recorded_until_ a)
     (recorded_statement_ a) flight want (peer_refused_ a)
     (third_voter_refused_ a) (resuming_lead_until_ a) (asks_to_lead_ a).

Definition with_refused (a : t) (peer third : bool) : t :=
  mk (cfg a) (participant_ a) (draws a) (last_renewal_ a) (asked_at_ a)
     (has_recorder a) (recorded_to_ a) (recorded_until_ a)
     (recorded_statement_ a) (in_flight a) (wanted a) peer third
     (resuming_lead_until_ a) (asks_to_lead_ a).

Definition with_resuming (a : t) (resuming : Z) : t :=
  mk (cfg a) (participant_ a) (draws a) (last_renewal_ a) (asked_at_ a)
     (has_recorder a) (recorded_to_ a) (recorded_until_ a)
     (recorded_statement_ a) (in_flight a) (wanted a) (peer_refused_ a)
     (third_voter_refused_ a) resuming (asks_to_lead_ a).

Definition with_asks (a : t) (asks : bool) : t :=
  mk (cfg a) (participant_ a) (draws a) (last_renewal_ a) (asked_at_ a)
     (has_recorder a) (recorded_to_ a) (recorded_until_ a)
     (recorded_statement_ a) (in_flight a) (wanted a) (peer_refused_ a)
     (third_voter_refused_ a) (resuming_lead_until_ a) asks.

(** *** Code over the state *)

Definition on_agent (f : t → t) : comp state unit :=
  modify (λ s, mk_state (f (agent s)) (recorder s) (epochs s) (sent s)).

Definition the_agent : comp state t := gets agent.

Definition send (m : sending) : comp state unit :=
  modify (λ s, mk_state (agent s) (recorder s) (epochs s) (m :: sent s)).

(** An operation of [participant_]. *)
Definition participant {A} (f : LeaseParticipant.t → LeaseParticipant.t * A)
    : comp state A :=
  λ s, let r := f (participant_ (agent s)) in
       (mk_state (with_participant (agent s) r.1) (recorder s) (epochs s)
          (sent s), Returns r.2).

(** One that may throw, changing nothing when it does. *)
Definition participant_or_throw {A}
    (f : LeaseParticipant.t → outcome (LeaseParticipant.t * A)) : comp state A :=
  λ s, match f (participant_ (agent s)) with
       | Returns r =>
           (mk_state (with_participant (agent s) r.1) (recorder s) (epochs s)
              (sent s), Returns r.2)
       | Throws e => (s, Throws e)
       end.

Definition with_unit (m : outcome LeaseParticipant.t)
    : outcome (LeaseParticipant.t * unit) :=
  let! p := m in Returns (p, ()).

Definition run_recorder {A}
    (f : BackgroundPromiseRecorder.t → BackgroundPromiseRecorder.t * A)
    : comp state A :=
  λ s, let r := f (recorder s) in
       (mk_state (agent s) r.1 (epochs s) (sent s), Returns r.2).

Definition run_epochs {A} (f : EpochRecording.t → EpochRecording.t * A)
    : comp state A :=
  λ s, let r := f (epochs s) in
       (mk_state (agent s) (recorder s) r.1 (sent s), Returns r.2).

Definition when (b : bool) (m : comp state unit) : comp state unit :=
  if b then m else mret ().

(** The statement this instance's voter holds. *)
Definition held_statement (a : t) : LeaderStatement.t :=
  LeaseVoter.recorded_statement (LeaseParticipant.voter (participant_ a)).

Definition holder_state (a : t) : LeaseHolder.State :=
  LeaseHolder.state (LeaseParticipant.holder (participant_ a)).

Definition holder_epoch (a : t) : Z :=
  LeaseHolder.epoch (LeaseParticipant.holder (participant_ a)).

(** *** What is kept on disk *)

Definition adopt_background_record : comp state unit :=
  a ← the_agent;
  match in_flight a with
  | None => mret ()
  | Some record =>
      if negb (has_recorder a) then mret ()
      else
        outcome ← run_recorder BackgroundPromiseRecorder.background_result;
        match outcome with
        | None => mret ()
        | Some written =>
            on_agent (λ a, with_writes a None (wanted a)) ;;
            when written
              (on_agent (λ a, with_recorded a (has_recorder a)
                 (LeasePromiseStore.promised_to record)
                 (LeasePromiseStore.until record)
                 (LeasePromiseStore.statement record)))
        end
  end.

Definition start_record (to until : Z) : comp state unit :=
  a ← the_agent;
  let record := mk_record to until (held_statement a) in
  started ← match in_flight a with
            | Some _ => mret false
            | None =>
                run_recorder
                  (λ b, BackgroundPromiseRecorder.record_in_background b record)
            end;
  if (started : bool) then on_agent (λ a, with_writes a (Some record) None)
  else on_agent (λ a, with_writes a (in_flight a) (Some (to, until))).

Definition start_wanted_record : comp state unit :=
  a ← the_agent;
  match has_recorder a, wanted a, in_flight a with
  | true, Some (to, until), None => start_record to until
  | _, _, _ => mret ()
  end.

Definition write_statement_if_needed : comp state unit :=
  a ← the_agent;
  match has_recorder a, in_flight a, wanted a with
  | true, None, None =>
      if LeaderStatement.same_as (recorded_statement_ a) (held_statement a)
      then mret ()
      else start_record (recorded_to_ a) (recorded_until_ a)
  | _, _, _ => mret ()
  end.

Definition write_in_progress_covers (a : t) (to expires_at : Z) : bool :=
  match wanted a with
  | Some (wanted_to, wanted_until) =>
      (wanted_to =? to) && (expires_at <=? wanted_until)
  | None =>
      match in_flight a with
      | Some r => (LeasePromiseStore.promised_to r =? to) &&
                  (expires_at <=? LeasePromiseStore.until r)
      | None => false
      end
  end.

Definition refresh_in_background (to expires_at : Z) : comp state unit :=
  a ← the_agent;
  match in_flight a, wanted a with
  | None, None =>
      if refresh_ahead <? recorded_until_ a - expires_at then mret ()
      else start_record to (expires_at + promise_record_margin)
  | _, _ => mret ()
  end.

(** What [promise_recorded] and [record_leading] share: whether the record on
    disk names [to] until [expires_at], and if not the write that will. *)
Definition covered_or_started (to expires_at : Z) : comp state bool :=
  adopt_background_record ;;
  a ← the_agent;
  if (recorded_to_ a =? to) && (expires_at <=? recorded_until_ a) then
    refresh_in_background to expires_at ;; mret true
  else
    when (negb (write_in_progress_covers a to expires_at))
      (start_record to (expires_at + promise_record_margin)) ;;
    mret false.

Definition promise_recorded (candidate_id : Z) : comp state bool :=
  a ← the_agent;
  if negb (has_recorder a) then mret true
  else
    covered_or_started candidate_id
      (LeaseVoter.promise_expires (LeaseParticipant.voter (participant_ a))).

Definition record_leading : comp state unit :=
  a ← the_agent;
  if negb (has_recorder a)
     || negb (LeaseParticipant.is_leading (holder_state a)) then mret ()
  else
    covered_or_started (self_id_ (cfg a))
      (LeaseHolder.lease_expires_at
         (LeaseParticipant.holder (participant_ a))) ;;
    mret ().

(** *** Asking *)

Definition no_statement : LeaderStatement.t := LeaderStatement.mk 0 0 0 false.

Definition ask_voters (epoch now : Z) : comp state unit :=
  a ← the_agent;
  let c := cfg a in
  let statement :=
    if LeaseParticipant.is_leading (holder_state a)
    then LeaseParticipant.statement (participant_ a) else no_statement in
  let request id := mk_request (self_id_ c) (pair_id_ c) epoch id statement in
  first ← participant (λ p, LeaseParticipant.record_request p (peer_id_ c) now);
  send (request_to_peer (request first)) ;;
  second ← participant
    (λ p, LeaseParticipant.record_request p (third_voter_id_ c) now);
  send (request_to_third_voter (request second)).

(** [last_renewal_ = now; ask_voters(participant_.epoch(), now)]. *)
Definition renew (now : Z) : comp state unit :=
  on_agent (λ a, with_asking a now (asked_at_ a)) ;;
  a ← the_agent;
  ask_voters (holder_epoch a) now.

Section random.

(** The [n]th number [std::uniform_int_distribution(low, high)] takes from
    [random_]. *)
Variable uniform : Z → Z → nat → Z.

Definition wait_before_asking_again : comp state Z :=
  a ← the_agent;
  let quarter := LeaseTiming.renewal_interval (timing_ (cfg a)) / 4 in
  on_agent (λ a, with_draws a (S (draws a))) ;;
  mret (uniform quarter (3 * quarter) (draws a)).

(** [participant_.stop(now, wait)], with a wait drawn first. *)
Definition stop_for_a_while (now : Z) : comp state unit :=
  wait ← wait_before_asking_again;
  participant (λ p, (LeaseParticipant.stop p now wait, ())).

(** Asking to lead, once the rules allow it. *)
Definition begin_to_ask (now : Z) : comp state unit :=
  epoch ← participant_or_throw LeaseParticipant.begin_asking_to_lead;
  a ← the_agent;
  took ← (if keeps_epoch (cfg a)
          then run_epochs (λ r, EpochRecording.record_before_asking r epoch)
          else mret 0);
  let sent_at := now + took in
  on_agent (λ a, with_refused (with_asking a sent_at sent_at) false false) ;;
  ask_voters epoch sent_at.

(** [on_tick] up to where this instance may ask to lead, and the whole. *)
Definition tick_before_asking (now : Z) : comp state Change :=
  adopt_background_record ;;
  start_wanted_record ;;
  write_statement_if_needed ;;
  a ← the_agent;
  when (negb (asks_to_lead_ a) && LeaseParticipant.is_candidate (holder_state a))
    (stop_for_a_while now) ;;
  ran_out ← participant (λ p, LeaseParticipant.stop_if_lease_ran_out p now);
  a ← the_agent;
  when (LeaseParticipant.acting (participant_ a) now &&
        (LeaseTiming.renewal_interval (timing_ (cfg a)) <=? now - last_renewal_ a))
    (renew now) ;;
  a ← the_agent;
  when (LeaseParticipant.is_candidate (holder_state a) &&
        (LeaseTiming.renewal_interval (timing_ (cfg a)) <=? now - last_renewal_ a))
    (renew now) ;;
  a ← the_agent;
  when (LeaseParticipant.is_candidate (holder_state a) &&
        (LeaseTiming.period (timing_ (cfg a)) <? now - asked_at_ a))
    (stop_for_a_while now) ;;
  mret (if (ran_out : bool) then StoppedLeading else Nothing).

Definition on_tick (now : Z) : comp state Change :=
  change ← tick_before_asking now;
  a ← the_agent;
  when (asks_to_lead_ a && LeaseParticipant.may_ask_to_lead (participant_ a) now)
    (begin_to_ask now) ;;
  mret change.

(** *** Answering the peer *)

Definition refusal_reason_for (v : LeaseVoter.Verdict) : LeaseRefusalReason :=
  match v with
  | LeaseVoter.RefusedWhileRestarting => restarting
  | LeaseVoter.RefusedPromisedElsewhere => promised_elsewhere
  | LeaseVoter.RefusedEpochBehind => epoch_behind
  | LeaseVoter.RefusedMayNotLead => may_not_lead
  | LeaseVoter.Granted => unknown
  end.

Definition is_granted (v : LeaseVoter.Verdict) : bool :=
  match v with LeaseVoter.Granted => true | _ => false end.

Definition record_peer (statement : LeaderStatement.t) : comp state Z :=
  participant_or_throw
    (λ p, LeaseParticipant.record_peer_statement p statement).

Definition on_request (reply_to candidate_id epoch request_id : Z)
    (statement : LeaderStatement.t) (now : Z) : comp state Change :=
  let makes_statement := negb (LeaderStatement.leader_id statement =? 0) in
  a ← the_agent;
  when (makes_statement &&
        LeaderStatement.newer_than statement (held_statement a))
    (record_peer statement ;; mret ()) ;;
  outcome ← participant
    (λ p, LeaseParticipant.on_peer_request p candidate_id epoch now);
  let answer := LeaseParticipant.answer outcome in
  let granted := is_granted (LeaseVoter.verdict answer) in
  echoed ← (if granted && makes_statement then record_peer statement
            else mret 0);
  covered ← (if granted then promise_recorded candidate_id else mret false);
  a ← the_agent;
  let c := cfg a in
  if (covered : bool) then
    write_statement_if_needed ;;
    send (grant_on reply_to
      (mk_grant (self_id_ c) (pair_id_ c) epoch request_id echoed)) ;;
    mret AgreedPeerLeads
  else
    send (refusal_on reply_to
      (mk_refusal (self_id_ c) (pair_id_ c)
         (LeaseVoter.answer_highest_epoch answer) request_id
         (if granted then recording_promise
          else refusal_reason_for (LeaseVoter.verdict answer)))) ;;
    mret Nothing.

(** *** Answers of the voters *)

Definition on_grant (voter_id epoch request_id echoed now : Z)
    : comp state Change :=
  a ← the_agent;
  event ← participant_or_throw
    (λ p, LeaseParticipant.on_grant p voter_id request_id epoch now);
  when (voter_id =? peer_id_ (cfg a))
    (participant (λ p, (LeaseParticipant.note_echo_from_peer p epoch echoed, ())));;
  match event with
  | LeaseHolder.LeaseExtended => record_leading ;; mret Nothing
  | LeaseHolder.BecameLeader =>
      on_agent (λ a, with_resuming a 0) ;;
      record_leading ;;
      a ← the_agent;
      when (negb (LeaderStatement.leader_id
                    (LeaseParticipant.statement (participant_ a)) =? 0))
        (renew now) ;;
      mret BecameLeader
  | _ => mret Nothing
  end.

Definition on_statement_held (arbiter : Z) (held : LeaderStatement.t)
    (alone : bool) : comp state unit :=
  participant
    (λ p, (LeaseParticipant.note_held_by_arbiter p arbiter held alone, ())).

Definition is_promised_elsewhere (r : LeaseRefusalReason) : bool :=
  match r with promised_elsewhere => true | _ => false end.

Definition on_refusal (voter_id highest_epoch request_id : Z)
    (why : LeaseRefusalReason) (now : Z) : comp state Change :=
  a ← the_agent;
  let was_leading := LeaseParticipant.is_leading (holder_state a) in
  wait ← (if now <? resuming_lead_until_ a then mret 0
          else wait_before_asking_again);
  when (is_promised_elsewhere why && LeaseParticipant.is_candidate (holder_state a))
    (on_agent (λ a, if voter_id =? third_voter_id_ (cfg a)
                    then with_refused a (peer_refused_ a) true
                    else with_refused a true (third_voter_refused_ a))) ;;
  a ← the_agent;
  if peer_refused_ a && third_voter_refused_ a
     && LeaseParticipant.is_candidate (holder_state a) then
    on_agent (λ a, with_refused a false false) ;;
    participant (λ p, (LeaseParticipant.stop p now
                         (LeaseTiming.period (timing_ (cfg a)) + wait), ())) ;;
    mret Nothing
  else
    event ← participant
      (λ p, LeaseParticipant.on_refusal p request_id highest_epoch now wait);
    match event with
    | LeaseHolder.NewerEpochKnown =>
        mret (if was_leading then StoppedLeading else Nothing)
    | _ => mret Nothing
    end.

End random.

(** *** What the owner says about the peer *)

Definition statement_changed (now : Z) : comp state unit :=
  write_statement_if_needed ;;
  a ← the_agent;
  when (LeaseParticipant.acting (participant_ a) now) (renew now).

Definition say (f : LeaseParticipant.t → outcome LeaseParticipant.t) (now : Z)
    : comp state unit :=
  participant_or_throw (λ p, with_unit (f p)) ;;
  statement_changed now.

Definition begin_running_without_peer : Z → comp state unit :=
  say LeaseParticipant.begin_running_without_peer.

Definition peer_holds_everything : Z → comp state unit :=
  say LeaseParticipant.peer_holds_everything.

Definition say_peer_may_not_lead : Z → comp state unit :=
  say LeaseParticipant.say_peer_may_not_lead.

Definition say_peer_may_lead : Z → comp state unit :=
  say LeaseParticipant.say_peer_may_lead.

Definition stop_asking_to_lead : comp state unit :=
  on_agent (λ a, with_asks a false).

Definition may_act_without_peer (a : t) : bool :=
  LeaseParticipant.may_act_without_peer (participant_ a) && has_recorder a &&
  LeaderStatement.same_as (recorded_statement_ a)
    (LeaseParticipant.statement (participant_ a)).

Definition says_peer_may_lead (a : t) : bool :=
  let s := LeaseParticipant.statement (participant_ a) in
  (LeaderStatement.leader_id s =? 0) || LeaderStatement.peer_may_lead s.

(** *** Starting *)

(** The constructor. *)
Definition make (c : configuration) (started_at persisted_epoch : Z)
    (ps : LeaseParticipant.PeerStatements) : outcome t :=
  let! p := LeaseParticipant.make (self_id_ c)
              (LeaseTiming.period (timing_ c))
              (LeaseTiming.drift_allowance (timing_ c)) started_at
              persisted_epoch ps in
  let p := if peer_id_ c <? self_id_ c
           then LeaseParticipant.stop p started_at
                  (LeaseTiming.period (timing_ c) +
                   LeaseTiming.renewal_interval (timing_ c))
           else p in
  Returns (mk c p 0 0 0 false 0 0 LeaderStatement.none None None false false
              0 true).

Definition keep_promises_in (kept : option LeasePromiseRecord)
    (kept_statement : LeaderStatement.t) (now : Z) (a : t) : t :=
  let a := with_recorded
             (with_participant a
                (LeaseParticipant.restore_recorded_statement (participant_ a)
                   kept_statement))
             true (recorded_to_ a) (recorded_until_ a) kept_statement in
  match kept with
  | None => a
  | Some k =>
      let was_leading :=
        (LeasePromiseStore.promised_to k =? self_id_ (cfg a)) &&
        (now <? LeasePromiseStore.until k) in
      let p := LeaseParticipant.resume_with_kept_promise (participant_ a)
                 (if was_leading then 0 else LeasePromiseStore.promised_to k)
                 (if was_leading then now else LeasePromiseStore.until k) now in
      let a := with_recorded (with_participant a p) true
                 (LeasePromiseStore.promised_to k) (LeasePromiseStore.until k)
                 kept_statement in
      if was_leading
      then with_resuming
             (with_participant a (LeaseParticipant.stop (participant_ a) now 0))
             (LeasePromiseStore.until k)
      else a
  end.

End PairLeaseAgent.
