(* ===== verification/LeaseAgents.v ===== *)
(** A pair of instances, each with its lease agent, promise record and epoch
    file, and the third voter, run by a list of events.

    The agents are those of [PairLeaseAgent], the way their owners drive them:
    a tick, a message delivered, the writer thread's turn, the owner's calls
    and a restart, of the process or of the machine.  The post keeps every
    message, so that an event may deliver one late, twice or never.  The third
    voter does what [ArbiterThread::handle_component_lease_request] and
    [WitnessThread::handle_lease_request] do with a request. *)

From S2P Require Import Prelude.
From S2P Require Import Lease.
From S2P Require Import LeaseSafety.
From S2P Require Import PairLeaseAgent.

Local Open Scope Z_scope.

(** A message in the post, and the voter it is addressed to. *)
Inductive letter :=
  | LRequest (to : Z) (r : LeaseRequest)
  | LGrant (to : Z) (g : LeaseGrant)
  | LRefusal (to : Z) (r : LeaseRefusal).

(** An instance, and the boot of the machine it runs in: its clock. *)
Record anode := mk_anode { st : PairLeaseAgent.state; boot : nat }.

Record asys := mk_asys {
  now_is : Z;
  anodes : inst → anode;
  athird : LeaseVoter.t;
  athird_boot : nat;
  post : list letter
}.

(** What the owner of an agent may ask of it. *)
Inductive saying := WithoutPeer | PeerHoldsEverything | MayNotLead | MayLead
  | StopAsking.

Inductive event :=
  | ETime (t : Z)
  | ETick (i : inst) (t : Z) (recorded : bool)
  | ERequest (i : inst) (k : nat)
  | EGrant (i : inst) (k : nat)
  | ERefusal (i : inst) (k : nat)
  | EHeld (i : inst) (arbiter : Z) (held : LeaderStatement.t) (alone : bool)
  | EWriter (i : inst) (reached : bool)
  | ESay (i : inst) (what : saying)
  | EThird (k : nat)
  | ERestart (i : inst) (b : nat)
  | EThirdRestart (b : nat) (highest : Z) (kept : LeaderStatement.t).

(** Where the messages of instance [i] go. *)
Definition letter_of (i : inst) (m : sending) : letter :=
  match m with
  | request_to_peer r => LRequest (inst_id (other i)) r
  | request_to_third_voter r => LRequest third_id r
  | grant_on c g => LGrant c g
  | refusal_on c r => LRefusal c r
  end.

Section agents.

(** What clock [b] shows, and the numbers drawn at random. *)
Variable clock : nat → Z → Z.
Variable uniform : Z → Z → nat → Z.
Variables period drift renewal pair : Z.
Variable ps : LeaseParticipant.PeerStatements.

Definition cfg_of (i : inst) : PairLeaseAgent.configuration :=
  PairLeaseAgent.mk_configuration pair (inst_id i) (inst_id (other i)) third_id
    (LeaseTiming.mk period drift renewal) true.

Definition local_time (a : asys) (i : inst) : Z :=
  clock (boot (anodes a i)) (now_is a).

(** Instance [i] ends in state [x] at time [t], having sent what is in it. *)
Definition settle (a : asys) (i : inst) (t : Z) (x : PairLeaseAgent.state)
    : asys :=
  mk_asys t
    (λ j, if decide (j = i)
          then mk_anode (PairLeaseAgent.mk_state (PairLeaseAgent.agent x)
                  (PairLeaseAgent.recorder x) (PairLeaseAgent.epochs x) [])
                  (boot (anodes a i))
          else anodes a j)
    (athird a) (athird_boot a)
    ((letter_of i <$> PairLeaseAgent.sent x) ++ post a).

(** Running an operation of instance [i]. *)
Definition operate {A} (a : asys) (i : inst) (m : comp PairLeaseAgent.state A)
    : asys :=
  settle a i (now_is a) (m (st (anodes a i))).1.

(** What the epoch's file answers to the tick's write, if there is one: whether the
    epoch is on disk, and how long the write took. *)
Definition expecting (x : PairLeaseAgent.state) (recorded : bool) (took : Z)
    : PairLeaseAgent.state :=
  PairLeaseAgent.mk_state (PairLeaseAgent.agent x) (PairLeaseAgent.recorder x)
    (EpochRecording.mk (EpochRecording.on_disk (PairLeaseAgent.epochs x))
       (EpochRecording.highest_written (PairLeaseAgent.epochs x)) [(recorded, took)])
    (PairLeaseAgent.sent x).

Definition tick (a : asys) (i : inst) (t : Z) (recorded : bool) : asys :=
  let took := clock (boot (anodes a i)) t - local_time a i in
  settle a i t
    (PairLeaseAgent.on_tick uniform (local_time a i)
       (expecting (st (anodes a i)) recorded took)).1.

Definition said (what : saying) (now : Z) : comp PairLeaseAgent.state unit :=
  match what with
  | WithoutPeer => PairLeaseAgent.begin_running_without_peer now
  | PeerHoldsEverything => PairLeaseAgent.peer_holds_everything now
  | MayNotLead => PairLeaseAgent.say_peer_may_not_lead now
  | MayLead => PairLeaseAgent.say_peer_may_lead now
  | StopAsking => PairLeaseAgent.stop_asking_to_lead
  end.

Definition writer_turn (reached : bool) : comp PairLeaseAgent.state unit :=
  PairLeaseAgent.run_recorder
    (λ b, (BackgroundPromiseRecorder.write_requests b reached, ())).

(** A process that starts in boot [b] and finds the files as they were left. *)
Definition start_agent (i : inst) (b : nat) (t : Z)
    (f : LeasePromiseStore.file) (epoch : Z) : outcome PairLeaseAgent.state :=
  match PairLeaseAgent.make (cfg_of i) (clock b t) epoch ps with
  | Throws e => Throws e
  | Returns x =>
      Returns (PairLeaseAgent.mk_state
        (PairLeaseAgent.keep_promises_in (LeasePromiseStore.load f (Some b))
           (LeasePromiseStore.load_statement f) (clock b t) x)
        (BackgroundPromiseRecorder.make (Some b) f)
        (EpochRecording.mk epoch 0 []) [])
  end.

Definition restart (a : asys) (i : inst) (b : nat) : option asys :=
  let x := st (anodes a i) in
  match start_agent i b (now_is a)
          (BackgroundPromiseRecorder.store (PairLeaseAgent.recorder x))
          (EpochRecording.load (PairLeaseAgent.epochs x)) with
  | Throws _ => None
  | Returns y =>
      Some (mk_asys (now_is a)
              (λ j, if decide (j = i) then mk_anode y b else anodes a j)
              (athird a) (athird_boot a) (post a))
  end.

Definition third_learns (v : LeaseVoter.t) (s : LeaderStatement.t)
    : LeaseVoter.t :=
  if LeaderStatement.leader_id s =? 0 then v
  else match LeaseVoter.record_statement v s with
       | Returns v' => v'
       | Throws _ => v
       end.

Definition third_answers (a : asys) (r : LeaseRequest) : asys :=
  let v := third_learns (athird a) (request_statement r) in
  let '(v', answer) := LeaseVoter.consider v (candidate_instance_id r)
                         (request_epoch r) (clock (athird_boot a) (now_is a)) in
  let reply :=
    if PairLeaseAgent.is_granted (LeaseVoter.verdict answer)
    then LGrant (candidate_instance_id r)
           (mk_grant third_id (pair_id r) (request_epoch r) (request_id r) 0)
    else LRefusal (candidate_instance_id r)
           (mk_refusal third_id (pair_id r)
              (LeaseVoter.answer_highest_epoch answer) (request_id r)
              (PairLeaseAgent.refusal_reason_for (LeaseVoter.verdict answer))) in
  mk_asys (now_is a) (anodes a) v' (athird_boot a) (reply :: post a).

Definition react (a : asys) (e : event) : option asys :=
  match e with
  | ETime t =>
      if now_is a <=? t
      then Some (mk_asys t (anodes a) (athird a) (athird_boot a) (post a))
      else None
  | ETick i t recorded => if now_is a <=? t then Some (tick a i t recorded) else None
  | ERequest i k =>
      match post a !! k with
      | Some (LRequest to r) =>
          if to =? inst_id i
          then Some (operate a i (PairLeaseAgent.on_request
                 (candidate_instance_id r) (candidate_instance_id r)
                 (request_epoch r) (request_id r) (request_statement r)
                 (local_time a i)))
          else None
      | _ => None
      end
  | EGrant i k =>
      match post a !! k with
      | Some (LGrant to g) =>
          if to =? inst_id i
          then Some (operate a i (PairLeaseAgent.on_grant (grant_voter g)
                 (grant_epoch g) (grant_request_id g)
                 (echoed_statement_number g) (local_time a i)))
          else None
      | _ => None
      end
  | ERefusal i k =>
      match post a !! k with
      | Some (LRefusal to r) =>
          if to =? inst_id i
          then Some (operate a i (PairLeaseAgent.on_refusal uniform
                 (refusal_voter r) (refusal_highest_epoch r)
                 (refusal_request_id r) (reason r) (local_time a i)))
          else None
      | _ => None
      end
  | EHeld i arbiter held alone =>
      Some (operate a i (PairLeaseAgent.on_statement_held arbiter held alone))
  | EWriter i reached => Some (operate a i (writer_turn reached))
  | ESay i what => Some (operate a i (said what (local_time a i)))
  | EThird k =>
      match post a !! k with
      | Some (LRequest to r) =>
          if to =? third_id then Some (third_answers a r) else None
      | _ => None
      end
  | ERestart i b =>
      if (0 <=? clock b (now_is a)) && (boot (anodes a i) <=? b)%nat
      then restart a i b else None
  | EThirdRestart b highest kept =>
      match LeaseVoter.make period (clock b (now_is a)) highest with
      | Returns v =>
          Some (mk_asys (now_is a) (anodes a)
                  (LeaseVoter.restore_recorded_statement v kept) b (post a))
      | Throws _ => None
      end
  end.

Fixpoint run (a : asys) (es : list event) : option asys :=
  match es with
  | [] => Some a
  | e :: es => match react a e with Some a' => run a' es | None => None end
  end.

(** Both instances and the third voter start at time zero, on empty disks. *)
Definition start : option asys :=
  match start_agent Primary 0 0 None 0, start_agent Secondary 0 0 None 0,
        LeaseVoter.make period (clock 0 0) 0 with
  | Returns x, Returns y, Returns v =>
      Some (mk_asys 0 (λ i, mk_anode (if decide (i = Primary) then x else y) 0)
              v 0 [])
  | _, _, _ => None
  end.

Definition agent_acting (a : asys) (i : inst) : bool :=
  LeaseParticipant.acting
    (PairLeaseAgent.participant_ (PairLeaseAgent.agent (st (anodes a i))))
    (local_time a i).

(** ** The three situations the records on disk do not survive *)

Definition names_another (candidate : Z) (x : PairLeaseAgent.t) : bool :=
  match PairLeaseAgent.in_flight x with
  | Some r => negb (LeasePromiseStore.promised_to r =? candidate)
  | None => false
  end ||
  match PairLeaseAgent.wanted x with
  | Some (to, _) => negb (to =? candidate)
  | None => false
  end.

Definition may_name (candidate : Z) (x : PairLeaseAgent.t) : bool :=
  (PairLeaseAgent.recorded_to_ x =? candidate) ||
  match PairLeaseAgent.in_flight x with
  | Some r => LeasePromiseStore.promised_to r =? candidate
  | None => false
  end.

(** A request of the peer's reaches an instance whose record on disk names the
    peer, or is about to, while a write that names another instance is still
    under way or waiting. *)
Definition overtaken (a : asys) (i : inst) : bool :=
  let x := PairLeaseAgent.agent (st (anodes a i)) in
  may_name (inst_id (other i)) x && names_another (inst_id (other i)) x.

(** A process is restarted within a lease period of starting with no record of
    its promises. *)
Definition waiting_out (a : asys) (i : inst) : bool :=
  LeaseVoter.restarting
    (LeaseParticipant.voter
       (PairLeaseAgent.participant_ (PairLeaseAgent.agent (st (anodes a i)))))
    (local_time a i).

(** Neither happens, and no epoch is asked for that could not be written down. *)
Definition sound_event (a : asys) (e : event) : bool :=
  match e with
  | ETick _ _ recorded => recorded
  | ERequest i _ => negb (overtaken a i)
  | ERestart i b => negb (waiting_out a i && (b =? boot (anodes a i))%nat)
  | _ => true
  end.

Fixpoint sound_run (a : asys) (es : list event) : bool :=
  match es with
  | [] => true
  | e :: es =>
      sound_event a e &&
      match react a e with Some a' => sound_run a' es | None => true end
  end.

End agents.
