(* ===== verification/LeaseAgentSafety.v ===== *)
(** The agents of a pair keep the lease rules: every event of [LeaseAgents] is
    a run of steps of [LeaseSafety], as long as no promise record is lost, and
    so the two agents are never both acting as leader.

    The link between the two is [record_inv]: what is on disk, what is being
    written and what waits to be written each cover every promise this
    instance has sent and not yet let run out.  Two situations break it, and
    [sound_run] leaves them out; a run of each ends with two leaders. *)

From S2P Require Import Prelude.
From S2P Require Import Lease.
From S2P Require Import LeaseSafety.
From S2P Require Import PairLeaseAgent.
From S2P Require Import LeaseAgents.

Local Open Scope Z_scope.

Import PairLeaseAgent.

Abbreviation voter_of x := (LeaseParticipant.voter (participant_ (agent x))).
Abbreviation record_to := LeasePromiseStore.promised_to.
Abbreviation record_until := LeasePromiseStore.until.

(** ** Operations that make no promise and start no request *)

Record calm (p q : LeaseParticipant.t) : Prop := {
  calm_self : LeaseParticipant.self_id q = LeaseParticipant.self_id p;
  calm_quiet : LeaseVoter.quiet_until (LeaseParticipant.voter q)
               = LeaseVoter.quiet_until (LeaseParticipant.voter p);
  calm_to : LeaseVoter.promised_to (LeaseParticipant.voter q)
            = LeaseVoter.promised_to (LeaseParticipant.voter p);
  calm_expires : LeaseVoter.promise_expires (LeaseParticipant.voter q)
                 = LeaseVoter.promise_expires (LeaseParticipant.voter p);
  calm_highest : LeaseVoter.highest_epoch (LeaseParticipant.voter p)
                 ≤ LeaseVoter.highest_epoch (LeaseParticipant.voter q);
  calm_idle : LeaseHolder.state (LeaseParticipant.holder q) ≠ LeaseHolder.Idle →
              LeaseHolder.state (LeaseParticipant.holder p) ≠ LeaseHolder.Idle
}.

#[export] Instance calm_preorder : PreOrder calm.
Proof.
  split; [by constructor|].
  intros p q r [] []. constructor; try congruence; [lia|tauto].
Qed.

Lemma calm_statement p q : statement_step p q → calm p q.
Proof.
  intros (Hs & Hh & [])%statement_step_frame.
  constructor; try congruence. lia.
Qed.

Lemma calm_stop p now wait : calm p (LeaseParticipant.stop p now wait).
Proof. by constructor. Qed.

Lemma calm_ran_out p now :
  calm p (LeaseParticipant.stop_if_lease_ran_out p now).1.
Proof.
  unfold LeaseParticipant.stop_if_lease_ran_out. destruct (_ || _); by constructor.
Qed.

Lemma calm_refusal p rid highest now wait :
  calm p (LeaseParticipant.on_refusal p rid highest now wait).1.
Proof.
  unfold LeaseParticipant.on_refusal, LeaseHolder.on_refusal.
  destruct (learn_epoch_frame (LeaseParticipant.voter p) highest)
    as (_ & ? & ? & ? & _ & ?).
  destruct (_ && _); constructor; done.
Qed.

Lemma calm_request p v now : calm p (LeaseParticipant.record_request p v now).1.
Proof. by constructor. Qed.

Lemma calm_grant p v rid e now q ev :
  LeaseParticipant.on_grant p v rid e now = Returns (q, ev) → calm p q.
Proof.
  unfold LeaseParticipant.on_grant.
  destruct (LeaseHolder.on_grant _ _ _ _ _) as [h ev'] eqn:Hh.
  apply on_grant_frame in Hh as (_ & _ & _ & _ & _ & Hidle & _).
  destruct (learn_epoch_frame (LeaseParticipant.voter p) e)
    as (_ & ? & ? & ? & _ & ?).
  intros Hev. destruct ev'; simplify_eq; try (by constructor; try done; tauto).
  assert (Hq : LeaseParticipant.self_id q = LeaseParticipant.self_id p ∧
    LeaseParticipant.holder q = h ∧
    same_vote (LeaseVoter.learn_epoch (LeaseParticipant.voter p) e)
              (LeaseParticipant.voter q)).
  { unfold obind in Hev.
    destruct (LeaseParticipant.peer_statements p); simplify_eq/=; [done|..];
      case_match eqn:Hr; simplify_eq/=;
      by apply record_statement_same_vote in Hr. }
  destruct Hq as (? & Hhold & []). constructor; try congruence; try lia.
  rewrite Hhold. tauto.
Qed.

Section safety.

Context (clock : nat → Z → Z) (uniform : Z → Z → nat → Z).
Context (period drift renewal pair : Z) (ps : LeaseParticipant.PeerStatements).

Hypothesis clock_monotone : ∀ c s t, s ≤ t → clock c s ≤ clock c t.
Hypothesis clock_rates : ∀ a b s t, s ≤ t →
  period ≤ clock a t - clock a s → period - drift ≤ clock b t - clock b s.

Abbreviation step := (LeaseSafety.step clock period drift ps).
Abbreviation reachable := (LeaseSafety.reachable clock period drift ps).
Abbreviation cfg_of := (LeaseAgents.cfg_of period drift renewal pair).

(** ** What the record must cover *)

Definition expired (k : nat) (g t : Z) : Prop := clock k g + period ≤ clock k t.

Definition promises (ms : list msg) (i : inst) (P : Z → Prop) : Prop :=
  ∀ c rid e g, Grant (inst_id i) c rid e g ∈ ms → P g.

(** A record of a promise to [to] until [until] covers every promise sent. *)
Definition covers (k : nat) (t : Z) (ms : list msg) (i : inst)
    (v : LeaseVoter.t) (to until : Z) : Prop :=
  promises ms i (λ g, expired k g t ∨
    (to = inst_id (other i) ∧ clock k g + period ≤ until) ∨
    clock k g + period ≤ LeaseVoter.quiet_until v).

(** What may be read back from the file after a restart, now or later: what
    was last written, what is being written and what waits to be. *)
Inductive entry (a : PairLeaseAgent.t) : Z → Z → Prop :=
  | entry_recorded : entry a (recorded_to_ a) (recorded_until_ a)
  | entry_flight r :
      in_flight a = Some r → entry a (record_to r) (record_until r)
  | entry_wanted to until : wanted a = Some (to, until) → entry a to until.

Record record_inv (t : Z) (ms : list msg) (i : inst) (k : nat) (x : state)
    : Prop := {
  ri_cfg : cfg (agent x) = cfg_of i;
  ri_recorder : has_recorder (agent x) = true;
  ri_boot : BackgroundPromiseRecorder.boot_id (recorder x) = Some k;
  ri_file_boot : ∀ b r,
    BackgroundPromiseRecorder.store (recorder x) = Some (b, r) → (b ≤ k)%nat;
  ri_grants : ∀ c rid e g, Grant (inst_id i) c rid e g ∈ ms →
    c = inst_id (other i) ∧ g ≤ t;
  ri_vote : promises ms i (λ g, expired k g t ∨
    (LeaseVoter.promised_to (voter_of x) = inst_id (other i) ∧
     clock k g + period ≤ LeaseVoter.promise_expires (voter_of x)) ∨
    clock k g + period ≤ LeaseVoter.quiet_until (voter_of x));
  ri_busy : holder_state (agent x) ≠ LeaseHolder.Idle →
    promises ms i (λ g, expired k g t);
  ri_covers : ∀ to until, entry (agent x) to until →
    covers k t ms i (voter_of x) to until;
  ri_bound : ∀ to until, entry (agent x) to until → to = inst_id (other i) →
    until ≤ clock k t + period + promise_record_margin;
  ri_flight_order : ∀ r, in_flight (agent x) = Some r →
    record_to r = inst_id (other i) →
    recorded_to_ (agent x) = inst_id (other i) →
    recorded_until_ (agent x) ≤ record_until r;
  ri_wanted_order : ∀ to until, wanted (agent x) = Some (to, until) →
    to = inst_id (other i) →
    (recorded_to_ (agent x) = inst_id (other i) →
     recorded_until_ (agent x) ≤ until) ∧
    (∀ r, in_flight (agent x) = Some r → record_to r = inst_id (other i) →
     record_until r ≤ until);
  ri_sync :
    match in_flight (agent x) with
    | None =>
        BackgroundPromiseRecorder.requests_started (recorder x)
          = BackgroundPromiseRecorder.requests_finished (recorder x) ∧
        BackgroundPromiseRecorder.outcomes_read (recorder x)
          = BackgroundPromiseRecorder.requests_finished (recorder x)
    | Some r =>
        BackgroundPromiseRecorder.slot (recorder x) = r ∧
        BackgroundPromiseRecorder.requests_started (recorder x)
          = BackgroundPromiseRecorder.outcomes_read (recorder x) + 1 ∧
        (BackgroundPromiseRecorder.requests_finished (recorder x)
           = BackgroundPromiseRecorder.outcomes_read (recorder x) ∨
         BackgroundPromiseRecorder.requests_finished (recorder x)
           = BackgroundPromiseRecorder.outcomes_read (recorder x) + 1 ∧
         (BackgroundPromiseRecorder.last_write_succeeded (recorder x) = true →
          BackgroundPromiseRecorder.store (recorder x) = Some (k, r)))
    end;
  ri_file : ∀ r, BackgroundPromiseRecorder.store (recorder x) = Some (k, r) →
    (record_to r = recorded_to_ (agent x) ∧
     record_until r = recorded_until_ (agent x)) ∨
    (in_flight (agent x) = Some r ∧
     BackgroundPromiseRecorder.requests_finished (recorder x)
       ≠ BackgroundPromiseRecorder.outcomes_read (recorder x) ∧
     BackgroundPromiseRecorder.last_write_succeeded (recorder x) = true)
}.

(** *** Frames *)

Lemma expired_mono k g t t' : expired k g t → t ≤ t' → expired k g t'.
Proof. unfold expired. intros ? Ht. pose proof (clock_monotone k _ _ Ht). lia. Qed.

(** Time passes, and messages that are not this instance's grants arrive. *)
Lemma record_inv_frame t t' ms ms' i k x :
  record_inv t ms i k x → t ≤ t' →
  (∀ c rid e g, Grant (inst_id i) c rid e g ∈ ms' →
                Grant (inst_id i) c rid e g ∈ ms) →
  record_inv t' ms' i k x.
Proof.
  intros [] Ht Hms. pose proof (clock_monotone k _ _ Ht).
  constructor; try done.
  - intros c rid e g Hg. apply Hms, ri_grants0 in Hg as [? ?]. split; [done|lia].
  - intros c rid e g Hg. destruct (ri_vote0 _ _ _ _ (Hms _ _ _ _ Hg)) as [?|?];
      [left; by eapply expired_mono|by right].
  - intros Hb c rid e g Hg. eapply expired_mono; [by eapply ri_busy0; eauto|done].
  - intros to until He c rid e g Hg.
    destruct (ri_covers0 _ _ He _ _ _ _ (Hms _ _ _ _ Hg)) as [?|?];
      [left; by eapply expired_mono|by right].
  - intros to until He Hto. pose proof (ri_bound0 _ _ He Hto). lia.
Qed.

(** The members the invariant reads, the participant apart. *)
Definition same_records (x y : state) : Prop :=
  cfg (agent y) = cfg (agent x) ∧
  has_recorder (agent y) = has_recorder (agent x) ∧
  recorded_to_ (agent y) = recorded_to_ (agent x) ∧
  recorded_until_ (agent y) = recorded_until_ (agent x) ∧
  in_flight (agent y) = in_flight (agent x) ∧
  wanted (agent y) = wanted (agent x) ∧
  recorder y = recorder x.

Lemma same_entries x y to until :
  same_records x y → entry (agent y) to until → entry (agent x) to until.
Proof.
  intros (_ & _ & H1 & H2 & H3 & H4 & _) He. destruct He as [|r Hr|? ? Hw].
  - rewrite H1, H2. constructor.
  - apply entry_flight. by rewrite <- H3.
  - apply entry_wanted. by rewrite <- H4.
Qed.

(** A state with the same records and another participant. *)
Lemma record_inv_put t ms i k x y :
  record_inv t ms i k x → same_records x y →
  LeaseVoter.quiet_until (voter_of y) = LeaseVoter.quiet_until (voter_of x) →
  promises ms i (λ g, expired k g t ∨
    (LeaseVoter.promised_to (voter_of y) = inst_id (other i) ∧
     clock k g + period ≤ LeaseVoter.promise_expires (voter_of y)) ∨
    clock k g + period ≤ LeaseVoter.quiet_until (voter_of y)) →
  (holder_state (agent y) ≠ LeaseHolder.Idle →
   promises ms i (λ g, expired k g t)) →
  record_inv t ms i k y.
Proof.
  intros [] Hsame Hq Hvote Hbusy.
  assert (Hent : ∀ to until, entry (agent y) to until → entry (agent x) to until)
    by (intros; by eapply same_entries).
  destruct Hsame as (H1 & H2 & H3 & H4 & H5 & H6 & H7).
  constructor; rewrite ?H1, ?H2, ?H3, ?H4, ?H5, ?H6, ?H7; try done.
  - intros to until He c rid e g Hg. rewrite Hq. by eapply ri_covers0; eauto.
  - intros to until He. by apply ri_bound0, Hent.
Qed.

Lemma record_inv_same t ms i k x y :
  record_inv t ms i k x → same_records x y →
  calm (participant_ (agent x)) (participant_ (agent y)) →
  record_inv t ms i k y.
Proof.
  intros Hx Hsame [_ Hq Hto Hexp _ Hidle].
  eapply record_inv_put; [done..| |].
  - rewrite Hto, Hexp, Hq. apply (ri_vote _ _ _ _ _ Hx).
  - intros Hs. apply (ri_busy _ _ _ _ _ Hx). by apply Hidle.
Qed.

(** *** Writes of the promise record *)

(** A record that may be written next. *)
Record writable (t : Z) (ms : list msg) (i : inst) (k : nat) (x : state)
    (to until : Z) : Prop := {
  wr_covers : covers k t ms i (voter_of x) to until;
  wr_bound : to = inst_id (other i) →
    until ≤ clock k t + period + promise_record_margin;
  wr_after : to = inst_id (other i) → ∀ until',
    entry (agent x) to until' → until' ≤ until
}.

Ltac find_entry :=
  first [by apply entry_recorded|by apply entry_flight|by apply entry_wanted].

Lemma start_record_inv t ms i k x to until :
  record_inv t ms i k x → writable t ms i k x to until →
  record_inv t ms i k (start_record to until x).1.
Proof.
  intros Hx [Hc Hb Ha]. pose proof Hx as Hx'. destruct Hx.
  unfold start_record, the_agent, gets, mbind, comp_bind.
  destruct (in_flight (agent x)) as [r|] eqn:Hf; cbn [mret comp_ret].
  { cbn -[start_record]. unfold on_agent, modify. cbn.
    constructor; cbn; rewrite ?Hf; try done.
    - intros to' until' He. destruct He as [|r' Hr'|? ? Hw]; cbn in *; simplify_eq.
      + apply ri_covers0. constructor.
      + apply ri_covers0. by apply entry_flight.
      + done.
    - intros to' until' He. destruct He as [|r' Hr'|? ? Hw]; cbn in *; simplify_eq.
      + apply ri_bound0. constructor.
      + apply ri_bound0. by apply entry_flight.
      + done.
    - intros to' until' ? ->; simplify_eq. split.
      + intros Hr. apply Ha; [done|]. rewrite <- Hr. constructor.
      + intros r' ? Hr'. simplify_eq. apply Ha; [done|]. rewrite <- Hr'.
        by apply entry_flight. }
  destruct ri_sync0 as [Hs1 Hs2]. unfold run_recorder.
  cbn [BackgroundPromiseRecorder.record_in_background].
  unfold BackgroundPromiseRecorder.record_in_background.
  rewrite (proj2 (Z.eqb_eq _ _) Hs1). cbn [negb fst snd].
  unfold on_agent, modify. cbn.
  constructor; cbn; try done.
  - intros to' until' He. destruct He as [|r' Hr'|? ? Hw]; cbn in *; simplify_eq/=.
    + apply ri_covers0. constructor.
    + done.
  - intros to' until' He. destruct He as [|r' Hr'|? ? Hw]; cbn in *; simplify_eq/=.
    + apply ri_bound0. constructor.
    + done.
  - intros r ? Hr Hrec. simplify_eq/=. apply Ha; [done|]. rewrite <- Hrec.
    constructor.
  - split; [done|]. split; [lia|]. by left.
  - intros r Hr. destruct (ri_file0 _ Hr) as [?|(? & _)]; [by left|congruence].
Qed.

(** Code that reads and writes the records only. *)
Definition rkeeps {A} (t : Z) (ms : list msg) (i : inst) (k : nat)
    (p : LeaseParticipant.t) (P : state → Prop) (m : comp state A)
    (Q : A → state → Prop) : Prop :=
  ∀ x, record_inv t ms i k x → participant_ (agent x) = p → P x →
    record_inv t ms i k (m x).1 ∧ participant_ (agent (m x).1) = p ∧
    epochs (m x).1 = epochs x ∧ sent (m x).1 = sent x ∧
    ∀ a, (m x).2 = Returns a → Q a (m x).1.

Section records.

Context (t : Z) (ms : list msg) (i : inst) (k : nat) (p : LeaseParticipant.t).

Abbreviation rk := (rkeeps t ms i k p).
Abbreviation peer := (inst_id (other i)).

Lemma rkeeps_ret {A} (P : state → Prop) (a : A) (Q : A → state → Prop) :
  (∀ x, P x → Q a x) → rk P (mret a) Q.
Proof. intros H x Hx Hp HP. split_and!; try done. intros ? [= <-]. by apply H. Qed.

Lemma rkeeps_bind {A B} P (m : comp state A) (f : A → comp state B) Q R :
  rk P m Q → (∀ a, rk (Q a) (f a) R) → rk P (m ≫= f) R.
Proof.
  intros Hm Hf x Hx Hp HP. destruct (Hm x Hx Hp HP) as (Hy & Hp' & He & Hs & HQ).
  unfold mbind, comp_bind. destruct (m x) as [y [a|e]]; cbn in *; [|by split_and!].
  destruct (Hf a y Hy Hp' (HQ a eq_refl)) as (? & ? & Hez & Hsz & ?).
  split_and!; try done; congruence.
Qed.

Lemma rkeeps_weaken {A} (P P' : state → Prop) (m : comp state A) Q Q' :
  (∀ x, P' x → P x) → (∀ a x, Q a x → Q' a x) → rk P m Q → rk P' m Q'.
Proof.
  intros HP HQ H x Hx Hp HP'. destruct (H x Hx Hp (HP _ HP')) as (? & ? & ? & ? & HQa).
  split_and!; try done. intros a Ha. by apply HQ, HQa.
Qed.

(** [a ← the_agent], which leaves the state as it is. *)
Lemma rkeeps_agent {B} (P : state → Prop) (f : PairLeaseAgent.t → comp state B) Q :
  (∀ a, rk (λ x, P x ∧ agent x = a) (f a) Q) → rk P (the_agent ≫= f) Q.
Proof. intros H x Hx Hp HP. exact (H (agent x) x Hx Hp (conj HP eq_refl)). Qed.

Lemma rkeeps_start (P : state → Prop) (Q : unit → state → Prop) to until :
  (∀ x, record_inv t ms i k x → participant_ (agent x) = p → P x →
     writable t ms i k x to until ∧ Q () (start_record to until x).1) →
  rk P (start_record to until) Q.
Proof.
  intros H x Hx Hp HP. destruct (H x Hx Hp HP) as [Hw HQ].
  pose proof (start_record_inv _ _ _ _ _ _ _ Hx Hw) as Hy. revert Hy HQ.
  unfold start_record, the_agent, gets, mbind, comp_bind, run_recorder, on_agent,
    modify. destruct (in_flight (agent x)) eqn:Hf; cbn.
  { intros. split_and!; try done. by intros [] _. }
  destruct (BackgroundPromiseRecorder.record_in_background _ _) as [b []];
    cbn; intros; split_and!; try done; by intros [] _.
Qed.

(** The writes under way name the peer, if the record that counts does. *)
Definition undisturbed (x : state) : Prop :=
  recorded_to_ (agent x) = peer →
  (∀ r, in_flight (agent x) = Some r → record_to r = peer) ∧
  (∀ to until, wanted (agent x) = Some (to, until) → to = peer).

Definition not_overtaken (x : state) : Prop :=
  may_name peer (agent x) && names_another peer (agent x) = false.

Lemma not_overtaken_undisturbed x : not_overtaken x → undisturbed x.
Proof.
  unfold not_overtaken, undisturbed, may_name, names_another. intros H Hto.
  apply Z.eqb_eq in Hto. rewrite Hto in H. cbn in H.
  split.
  - intros r Hr. rewrite Hr in H. bool_to_prop. lia.
  - intros to until Hw. rewrite Hw in H. bool_to_prop. lia.
Qed.

Lemma adopt_ok :
  rk (λ _, True) adopt_background_record (λ _ _, True) ∧
  rk not_overtaken adopt_background_record (λ _, undisturbed).
Proof.
  assert (H : ∀ x, record_inv t ms i k x →
    record_inv t ms i k (adopt_background_record x).1 ∧
    participant_ (agent (adopt_background_record x).1) = participant_ (agent x) ∧
    epochs (adopt_background_record x).1 = epochs x ∧
    sent (adopt_background_record x).1 = sent x ∧
    (not_overtaken x → undisturbed (adopt_background_record x).1)).
  { intros x Hx. pose proof Hx as Hx'. destruct Hx.
    unfold adopt_background_record, the_agent, gets, mbind, comp_bind.
    destruct (in_flight (agent x)) as [r|] eqn:Hf;
      [|split_and!; try done; apply not_overtaken_undisturbed].
    rewrite ri_recorder0. cbn [negb].
    destruct ri_sync0 as (Hslot & Hstart & Hfin).
    unfold run_recorder, BackgroundPromiseRecorder.background_result.
    destruct (Z.eqb_spec (BackgroundPromiseRecorder.requests_finished (recorder x))
      (BackgroundPromiseRecorder.outcomes_read (recorder x))) as [Heq|Hne]; cbn.
    { destruct x. split_and!; try done. apply not_overtaken_undisturbed. }
    destruct Hfin as [?|[Hfin Hdone]]; [done|].
    destruct (BackgroundPromiseRecorder.last_write_succeeded (recorder x)) eqn:Hok;
      cbn.
    - split_and!; try done.
      + constructor; cbn; try done.
        * intros to until He. destruct He as [|r' ?|? ? Hw]; cbn in *;
            simplify_eq; apply ri_covers0; find_entry.
        * intros to until He. destruct He as [|r' ?|? ? Hw]; cbn in *;
            simplify_eq; apply ri_bound0; find_entry.
        * intros to until Hw Hto. destruct (ri_wanted_order0 _ _ Hw Hto) as [_ H2].
          split; [|done]. intros Hr. by apply H2.
        * split; [lia|done].
        * intros r' Hr'. rewrite (Hdone eq_refl) in Hr'. simplify_eq. by left.
      + unfold not_overtaken, undisturbed, may_name, names_another. cbn.
        intros H Hto. split; [done|]. intros to until Hw. rewrite Hf, Hw in H.
        rewrite Hto, Z.eqb_refl in H. bool_to_prop. cbn in H. bool_to_prop. lia.
    - split_and!; try done.
      + constructor; cbn; try done.
        * intros to until He. destruct He as [|r' ?|? ? Hw]; cbn in *;
            simplify_eq; apply ri_covers0; find_entry.
        * intros to until He. destruct He as [|r' ?|? ? Hw]; cbn in *;
            simplify_eq; apply ri_bound0; find_entry.
        * intros to until Hw Hto. destruct (ri_wanted_order0 _ _ Hw Hto) as [H1 _].
          by split.
        * split; [lia|done].
        * intros r' Hr'. destruct (ri_file0 _ Hr') as [?|(_ & _ & ?)];
            [by left|congruence].
      + unfold not_overtaken, undisturbed, may_name, names_another. cbn.
        intros H Hto. split; [done|]. intros to until Hw. rewrite Hf, Hw in H.
        rewrite Hto, Z.eqb_refl in H. bool_to_prop. cbn in H. bool_to_prop. lia. }
  split; intros x Hx <- HP; destruct (H x Hx) as (? & ? & ? & ? & ?);
    split_and!; try done; auto.
Qed.

(** The record on disk, and every write under way, names the peer until the
    promise just made runs out. *)
Definition ready (expires : Z) (x : state) : Prop :=
  recorded_to_ (agent x) = peer ∧ expires ≤ recorded_until_ (agent x) ∧
  undisturbed x.

(** What holds of the records whatever the code that starts one finds. *)
Lemma started_agent to until x :
  let a := agent x in
  let b := agent (start_record to until x).1 in
  recorded_to_ b = recorded_to_ a ∧ recorded_until_ b = recorded_until_ a ∧
  (∀ r, in_flight b = Some r → in_flight a = Some r ∨ record_to r = to) ∧
  (∀ to' until', wanted b = Some (to', until') → to' = to).
Proof.
  unfold start_record, the_agent, gets, mbind, comp_bind, run_recorder, on_agent,
    modify. destruct (in_flight (agent x)) eqn:Hf; cbn.
  { split_and!; try done; [|by intros ? ? [= -> ->]]. rewrite Hf. by left. }
  destruct (BackgroundPromiseRecorder.record_in_background _ _) as [b []]; cbn.
  - split_and!; try done. intros r [= <-]. by right.
  - split_and!; try done; [|by intros ? ? [= -> ->]]. by rewrite Hf.
Qed.

Lemma ready_started expires until x :
  ready expires x → ready expires (start_record peer until x).1.
Proof.
  intros (Hto & Hu & Hud). destruct (started_agent peer until x)
    as (Ht' & Hu' & Hf & Hw). unfold ready, undisturbed.
  rewrite Ht', Hu'. split_and!; [done..|]. intros _. split.
  - intros r [Hr|?]%Hf; [|done]. by apply (Hud Hto).
  - by intros to u ?%Hw.
Qed.

Lemma entry_recorded_writable x :
  record_inv t ms i k x → in_flight (agent x) = None → wanted (agent x) = None →
  writable t ms i k x (recorded_to_ (agent x)) (recorded_until_ (agent x)).
Proof.
  intros [] Hf Hw. constructor.
  - apply ri_covers0. constructor.
  - apply ri_bound0. constructor.
  - intros Hto until' He. remember (recorded_to_ (agent x)) as to eqn:E.
    by destruct He as [|r Hr|? ? Hw']; [|congruence..].
Qed.

Lemma write_statement_ok :
  rk (λ _, True) write_statement_if_needed (λ _ _, True) ∧
  ∀ expires, rk (ready expires) write_statement_if_needed (λ _, ready expires).
Proof.
  assert (H : ∀ P : state → Prop,
    (∀ x, P x → P (start_record (recorded_to_ (agent x))
                     (recorded_until_ (agent x)) x).1) →
    rk P write_statement_if_needed (λ _, P)).
  { intros P HP. apply rkeeps_agent. intros a.
    assert (Hret : rk (λ x, P x ∧ agent x = a) (mret ()) (λ _, P))
      by (apply rkeeps_ret; tauto).
    destruct (has_recorder a) eqn:?; [|done].
    destruct (in_flight a) eqn:?; [done|]. destruct (wanted a) eqn:?; [done|].
    case_match; [done|].
    apply rkeeps_start. intros x Hx Hp [HPx <-].
    split; [by apply entry_recorded_writable|by apply HP]. }
  split; [by apply H|]. intros expires. apply H. intros x Hr.
  pose proof Hr as (Hto & _). rewrite Hto. by apply ready_started.
Qed.

Lemma start_wanted_ok :
  rk (λ _, True) start_wanted_record (λ _ _, True).
Proof.
  apply rkeeps_agent. intros a.
  destruct (has_recorder a) eqn:?; [|by apply rkeeps_ret].
  destruct (wanted a) as [[to until]|] eqn:Hw; [|by apply rkeeps_ret].
  destruct (in_flight a) eqn:Hf; [by apply rkeeps_ret|].
  apply rkeeps_start. intros x [] Hp [_ <-]. split; [|done]. constructor.
  - apply ri_covers0. by constructor.
  - apply ri_bound0. by constructor.
  - intros Hto until' He. destruct (ri_wanted_order0 _ _ Hw Hto) as [Hrec _].
    subst to. remember peer as to eqn:E.
    destruct He as [|r Hr|? ? Hw']; [by apply Hrec|congruence|by simplify_eq].
Qed.

(** A record of a promise made at this moment, and of this instance's own
    lead, may always be written. *)
Lemma promise_writable x until :
  record_inv t ms i k x →
  until = clock k t + period + promise_record_margin →
  writable t ms i k x peer until.
Proof.
  intros [] ->. constructor; [|lia|].
  - intros c rid e g Hg. apply ri_grants0 in Hg as [_ Hle].
    pose proof (clock_monotone k _ _ Hle). unfold promise_record_margin.
    right; left. split; [done|lia].
  - intros _ until' He. by apply ri_bound0 in He.
Qed.

Lemma lead_writable x until :
  record_inv t ms i k x → holder_state (agent x) ≠ LeaseHolder.Idle →
  writable t ms i k x (inst_id i) until.
Proof.
  intros [] Hs. pose proof (other_ne i). constructor; [|congruence..].
  intros c rid e g Hg. left. by eapply ri_busy0; eauto.
Qed.

Lemma covered_ok (pre post : state → Prop) to expires :
  rk pre adopt_background_record (λ _, post) →
  (∀ x, record_inv t ms i k x → participant_ (agent x) = p →
     writable t ms i k x to (expires + promise_record_margin)) →
  (∀ x, post x → recorded_to_ (agent x) = to →
     post (start_record to (expires + promise_record_margin) x).1) →
  rk pre (covered_or_started to expires)
    (λ covered x, covered = true → post x ∧ recorded_to_ (agent x) = to ∧
                                   expires ≤ recorded_until_ (agent x)).
Proof.
  intros Hadopt Hw Hpost. eapply rkeeps_bind; [exact Hadopt|]. intros [].
  apply rkeeps_agent. intros a.
  destruct ((recorded_to_ a =? to) && (expires <=? recorded_until_ a)) eqn:Hc.
  - bool_to_prop. eapply (rkeeps_bind _ _ _ (λ _ x, post x ∧
      recorded_to_ (agent x) = to ∧ expires ≤ recorded_until_ (agent x))).
    + apply rkeeps_agent. intros a'.
      assert (Hret : rk (λ x, (post x ∧ agent x = a) ∧ agent x = a') (mret ())
        (λ _ x, post x ∧ recorded_to_ (agent x) = to ∧
                expires ≤ recorded_until_ (agent x))).
      { apply rkeeps_ret. by intros x [[? ->] _]. }
      destruct (in_flight a'); [done|]. destruct (wanted a'); [done|].
      case_match; [done|]. apply rkeeps_start. intros x Hx Hp [[HP Ha] _].
      split; [by apply Hw|].
      destruct (started_agent to (expires + promise_record_margin) x)
        as (Ht' & Hu' & _). rewrite Ht', Hu'.
      split_and!; [apply Hpost; [done|congruence]|congruence|congruence].
    + intros []. by apply rkeeps_ret.
  - eapply (rkeeps_bind _ _ _ (λ _ _, True)).
    + unfold when. case_if; [|by apply rkeeps_ret].
      apply rkeeps_start. intros x Hx Hp _. split; [by apply Hw|done].
    + intros []. by apply rkeeps_ret.
Qed.

Lemma promise_recorded_ok :
  LeaseVoter.promise_expires (LeaseParticipant.voter p) = clock k t + period →
  rk not_overtaken (promise_recorded peer)
    (λ covered x, covered = true → ready (clock k t + period) x).
Proof.
  intros Hx. apply rkeeps_agent. intros a.
  destruct (has_recorder a) eqn:Hr; cbn [negb].
  - intros x Hinv Hp [Hno Ha]. subst a. rewrite Hp, Hx. revert x Hinv Hp Hno Hr.
    enough (H : rk not_overtaken (covered_or_started peer (clock k t + period))
      (λ covered x, covered = true → ready (clock k t + period) x))
      by (intros x ? ? ? _; by apply H).
    eapply (rkeeps_weaken not_overtaken); [done| |apply (covered_ok not_overtaken undisturbed)].
    + intros c y Hc Ht. destruct (Hc Ht) as (? & ? & ?). by split_and!.
    + apply adopt_ok.
    + intros y Hy Hpy. by apply promise_writable.
    + intros y Hu Hto. eapply (ready_started (recorded_until_ (agent y))).
      by split_and!.
  - intros x [] Hp [_ Ha]. subst a. congruence.
Qed.

Lemma record_leading_ok :
  rk (λ _, True) record_leading (λ _ _, True).
Proof.
  apply rkeeps_agent. intros a.
  destruct (_ || _) eqn:Hc; [by apply rkeeps_ret|].
  apply orb_false_iff in Hc as [_ Hlead]. apply negb_false_iff in Hlead.
  intros x Hx Hp [_ Ha]. subst a.
  assert (Hid : self_id_ (cfg (agent x)) = inst_id i)
    by (by rewrite (ri_cfg _ _ _ _ _ Hx)).
  rewrite Hid. revert x Hx Hp Hlead Hid.
  enough (H : ∀ expires, rk (λ x, holder_state (agent x) ≠ LeaseHolder.Idle)
    (covered_or_started (inst_id i) expires ;; mret ()) (λ _ _, True)).
  { intros x Hx Hp Hlead _. apply H; [done..|]. by destruct (holder_state _). }
  intros expires x Hx Hp Hbusy.
  assert (H : rk (λ _, True) (covered_or_started (inst_id i) expires ;; mret ())
    (λ _ _, True)); [|by apply H].
  eapply (rkeeps_bind _ _ _ (λ _ _, True)); [|by intros []; apply rkeeps_ret].
  eapply (rkeeps_weaken (λ _, True)); [done| |apply (covered_ok (λ _, True) (λ _, True))];
    [done|apply adopt_ok| |done].
  intros y Hy Hpy. apply lead_writable; [done|]. unfold holder_state in *.
  by rewrite Hpy, <- Hp.
Qed.

End records.

(** ** An agent and the participant it runs *)

(** A message of instance [i] that the network of the lease rules has too. *)
Definition posted (i : inst) (s : sys) (m : sending) : Prop :=
  match m with
  | request_to_peer r =>
      candidate_instance_id r = inst_id i ∧ ∃ at_,
      Request (inst_id i) (inst_id (other i)) (request_id r) (request_epoch r)
        at_ ∈ net s
  | request_to_third_voter r =>
      candidate_instance_id r = inst_id i ∧ ∃ at_,
      Request (inst_id i) third_id (request_id r) (request_epoch r) at_ ∈ net s
  | grant_on c g =>
      grant_voter g = inst_id i ∧ ∃ at_,
      Grant (inst_id i) c (grant_request_id g) (grant_epoch g) at_ ∈ net s
  | refusal_on _ _ => True
  end.

Record sim (i : inst) (s : sys) (x : state) : Prop := {
  sim_part : part (nodes s i) = participant_ (agent x);
  sim_epoch : disk_epoch (nodes s i) ≤ EpochRecording.on_disk (epochs x);
  sim_written : EpochRecording.highest_written (epochs x)
                ≤ EpochRecording.on_disk (epochs x);
  sim_next : ∀ h e, LeaseVoter.highest_epoch (voter_of x) ≤ h →
    LeaderEpoch.next_for h (inst_id i) = Returns e →
    EpochRecording.on_disk (epochs x) ≤ e;
  sim_sent : ∀ m, m ∈ sent x → posted i s m;
  sim_records : record_inv (time s) (net s) i (ck (nodes s i)) x
}.

(** What the steps of instance [i] leave alone. *)
Record moves (i : inst) (s s' : sys) : Prop := {
  mv_steps : rtc step s s';
  mv_other : nodes s' (other i) = nodes s (other i);
  mv_third : third s' = third s;
  mv_third_ck : third_ck s' = third_ck s;
  mv_ck : ck (nodes s' i) = ck (nodes s i);
  mv_time : time s ≤ time s';
  mv_net : ∀ m, m ∈ net s → m ∈ net s';
  mv_grants : ∀ v c rid e g, Grant v c rid e g ∈ net s' →
    Grant v c rid e g ∈ net s ∨ v = inst_id i
}.

#[local] Instance moves_preorder i : PreOrder (moves i).
Proof.
  split; [constructor; try done; auto with lia; by left|].
  intros s1 s2 s3 [] []. constructor; try congruence; [by etrans|lia|auto|].
  intros v c rid e g [Hg|?]%mv_grants1; [|by right]. by apply mv_grants0.
Qed.

Lemma moves_reachable i s s' : moves i s s' → reachable s → reachable s'.
Proof.
  intros [] (s0 & Hi & Hs). exists s0. split; [done|]. by etrans.
Qed.

Lemma posted_mono i s s' m :
  (∀ m, m ∈ net s → m ∈ net s') → posted i s m → posted i s' m.
Proof. intros H. destruct m; cbn; [intros (? & ? & ?)..|done]; eauto. Qed.

(** Code of an agent, run in boot [k] at time [t] while the messages [K] are in
    the network. *)
Definition keeps {A} (i : inst) (k : nat) (t : Z) (K : list msg) (P : state → Prop)
    (m : comp state A) (Q : A → state → Prop) : Prop :=
  ∀ s x, time s = t → ck (nodes s i) = k → reachable s →
    (∀ m, m ∈ K → m ∈ net s) → sim i s x → P x →
    ∃ s', moves i s s' ∧ time s' = t ∧ sim i s' (m x).1 ∧
      ∀ a, (m x).2 = Returns a → Q a (m x).1.

Lemma agent_keeps_ret {A} i k t K (P : state → Prop) (a : A) (Q : A → state → Prop) :
  (∀ x, P x → Q a x) → keeps i k t K P (mret a) Q.
Proof.
  intros H s x Ht Hk Hr HK Hx HP. exists s. split_and!; try done.
  intros ? [= <-]. by apply H.
Qed.

Lemma agent_keeps_bind {A B} i k t K P (m : comp state A) (f : A → comp state B) Q R :
  keeps i k t K P m Q → (∀ a, keeps i k t K (Q a) (f a) R) →
  keeps i k t K P (m ≫= f) R.
Proof.
  intros Hm Hf s x Ht Hk Hr HK Hx HP.
  destruct (Hm s x Ht Hk Hr HK Hx HP) as (s' & Hmv & Ht' & Hx' & HQ).
  unfold mbind, comp_bind. destruct (m x) as [y [a|e]]; cbn in *; [|by exists s'].
  destruct (Hf a s' y Ht' (eq_trans (mv_ck _ _ _ Hmv) Hk) (moves_reachable _ _ _ Hmv Hr)
    (λ m Hm, mv_net _ _ _ Hmv _ (HK m Hm)) Hx' (HQ a eq_refl))
    as (s'' & ? & ? & ? & ?).
  exists s''. split_and!; try done. by etrans.
Qed.

Lemma keeps_weaken {A} i k t K (P P' : state → Prop) (m : comp state A) Q Q' :
  (∀ x, P' x → P x) → (∀ a x, Q a x → Q' a x) →
  keeps i k t K P m Q → keeps i k t K P' m Q'.
Proof.
  intros HP HQ H s x Ht Hk Hr HK Hx HP'.
  destruct (H s x Ht Hk Hr HK Hx (HP _ HP')) as (s' & ? & ? & ? & HQa).
  exists s'. split_and!; try done. intros a Ha. by apply HQ, HQa.
Qed.

Lemma keeps_agent {B} i k t K (P : state → Prop) (f : PairLeaseAgent.t → comp state B) Q :
  (∀ a, keeps i k t K (λ x, P x ∧ agent x = a) (f a) Q) →
  keeps i k t K P (the_agent ≫= f) Q.
Proof.
  intros H s x Ht Hk Hr HK Hx HP.
  exact (H (agent x) s x Ht Hk Hr HK Hx (conj HP eq_refl)).
Qed.

(** Code that reads and writes the records only. *)
Lemma keeps_records {A} i k t K (P : state → Prop) (m : comp state A) Q :
  (∀ ms p, rkeeps t ms i k p (λ x, P x ∧ participant_ (agent x) = p) m Q) →
  keeps i k t K P m Q.
Proof.
  intros H s x <- <- Hr HK [] HP.
  destruct (H (net s) (participant_ (agent x)) x)
    as (Hy & Hp & He & Hs & HQ); [done..|].
  exists s. split_and!; try done. constructor; rewrite ?Hp, ?He, ?Hs; done.
Qed.

(** Code that changes none of what the invariants read. *)
Definition idle_change (f : PairLeaseAgent.t → PairLeaseAgent.t) : Prop :=
  ∀ a, participant_ (f a) = participant_ a ∧ cfg (f a) = cfg a ∧
    has_recorder (f a) = has_recorder a ∧
    recorded_to_ (f a) = recorded_to_ a ∧
    recorded_until_ (f a) = recorded_until_ a ∧
    in_flight (f a) = in_flight a ∧ wanted (f a) = wanted a.

Lemma sim_on_agent i s x f :
  sim i s x → idle_change f → sim i s (on_agent f x).1.
Proof.
  intros [] Hf. destruct (Hf (agent x)) as (H1 & H2 & H3 & H4 & H5 & H6 & H7).
  constructor; cbn; rewrite ?H1; try done.
  eapply record_inv_same; [done| |cbn; by rewrite H1].
  unfold same_records. cbn. by split_and!.
Qed.

Lemma keeps_on_agent i k t K (P : state → Prop) f (Q : unit → state → Prop) :
  idle_change f → (∀ x, P x → Q () (on_agent f x).1) →
  keeps i k t K P (on_agent f) Q.
Proof.
  intros Hf HQ s x Ht Hk Hr HK Hx HP. exists s.
  split_and!; [done..|by apply sim_on_agent|intros [] _; by apply HQ].
Qed.

(** *** Operations of the participant *)

Lemma moves_part i s q :
  step s (with_node s i (with_part (nodes s i) q)) →
  moves i s (with_node s i (with_part (nodes s i) q)).
Proof.
  intros Hs. constructor; cbn; try done; auto.
  - by apply rtc_once.
  - rewrite decide_False; [done|]. by destruct i.
  - by rewrite decide_True.
Qed.

(** The agent with another participant. *)
Definition put (q : LeaseParticipant.t) (x : state) : state :=
  mk_state (with_participant (agent x) q) (recorder x) (epochs x) (sent x).

Lemma sim_calm i s x q :
  sim i s x → calm (participant_ (agent x)) q →
  sim i (with_node s i (with_part (nodes s i) q)) (put q x).
Proof.
  intros [] Hc. constructor; cbn; rewrite ?decide_True by done; cbn; try done.
  - intros h e Hh. apply sim_next0. destruct Hc. lia.
  - eapply record_inv_same; [done| |done]. by unfold same_records.
Qed.

Lemma keeps_participant {A} i k t K (P : state → Prop)
    (f : LeaseParticipant.t → LeaseParticipant.t * A) Q :
  (∀ s, time s = t → ck (nodes s i) = k → (∀ m, m ∈ K → m ∈ net s) →
     step s (with_node s i (with_part (nodes s i) (f (part (nodes s i))).1))) →
  (∀ p, calm p (f p).1) →
  (∀ x, P x → Q (f (participant_ (agent x))).2
              (put (f (participant_ (agent x))).1 x)) →
  keeps i k t K P (participant f) Q.
Proof.
  intros Hstep Hcalm HQ s x Ht Hk Hr HK Hx HP. specialize (Hstep s Ht Hk HK).
  rewrite (sim_part _ _ _ Hx) in Hstep.
  exists (with_node s i (with_part (nodes s i) (f (participant_ (agent x))).1)).
  split_and!; [by apply moves_part|done|by apply sim_calm|].
  intros a [= <-]. by apply HQ.
Qed.

Lemma keeps_or_throw {A} i k t K (P : state → Prop)
    (f : LeaseParticipant.t → outcome (LeaseParticipant.t * A)) Q :
  (∀ s q a, time s = t → ck (nodes s i) = k → (∀ m, m ∈ K → m ∈ net s) →
     f (part (nodes s i)) = Returns (q, a) →
     step s (with_node s i (with_part (nodes s i) q))) →
  (∀ p q a, f p = Returns (q, a) → calm p q) →
  (∀ x q a, P x → f (participant_ (agent x)) = Returns (q, a) → Q a (put q x)) →
  keeps i k t K P (participant_or_throw f) Q.
Proof.
  intros Hstep Hcalm HQ s x Ht Hk Hr HK Hx HP.
  unfold participant_or_throw.
  destruct (f (participant_ (agent x))) as [[q a]|e] eqn:Hf.
  - pose proof Hf as Hf'. rewrite <- (sim_part _ _ _ Hx) in Hf'.
    exists (with_node s i (with_part (nodes s i) q)).
    split_and!; [by eapply moves_part, Hstep|done| |].
    + apply sim_calm; [done|]. by eapply Hcalm.
    + intros a' [= <-]. by eapply HQ.
  - exists s. split_and!; try done.
Qed.

Section operations.

Context (i : inst) (k : nat) (t : Z) (K : list msg).

Abbreviation peer := (inst_id (other i)).
Abbreviation kp := (keeps i k t K).
Abbreviation now := (clock k t).

Lemma local_now s : time s = t → ck (nodes s i) = k → local clock s i = now.
Proof. unfold local. by intros -> ->. Qed.

Lemma keeps_stop P wait Q :
  (∀ x q, P x → Q () (put q x)) →
  kp P (participant (λ p, (LeaseParticipant.stop p now wait, ()))) Q.
Proof.
  intros HQ. apply keeps_participant; [|intros; apply calm_stop|auto].
  intros s Ht Hk HK. cbn. rewrite <- (local_now s Ht Hk). apply step_stop.
Qed.

Lemma keeps_ran_out P Q :
  (∀ x q b, P x → Q b (put q x)) →
  kp P (participant (λ p, LeaseParticipant.stop_if_lease_ran_out p now)) Q.
Proof.
  intros HQ. apply keeps_participant; [|intros; apply calm_ran_out|auto].
  intros s Ht Hk HK. rewrite <- (local_now s Ht Hk). eapply step_ran_out.
  apply surjective_pairing.
Qed.

Lemma keeps_refusal P rid highest wait Q :
  (∀ x q b, P x → Q b (put q x)) →
  kp P (participant (λ p, LeaseParticipant.on_refusal p rid highest now wait)) Q.
Proof.
  intros HQ. apply keeps_participant; [|intros; apply calm_refusal|auto].
  intros s Ht Hk HK. rewrite <- (local_now s Ht Hk). eapply step_refusal.
  apply surjective_pairing.
Qed.

Lemma keeps_note P f Q :
  (∀ p, statement_step p (f p)) → (∀ x q, P x → Q () (put q x)) →
  kp P (participant (λ p, (f p, ()))) Q.
Proof.
  intros Hf HQ. apply keeps_participant; [|intros; by apply calm_statement, Hf|auto].
  intros s Ht Hk HK. apply step_statement, Hf.
Qed.

Lemma keeps_say P (f : LeaseParticipant.t → outcome LeaseParticipant.t) Q :
  (∀ p q, f p = Returns q → statement_step p q) → (∀ x q, P x → Q () (put q x)) →
  kp P (participant_or_throw (λ p, with_unit (f p))) Q.
Proof.
  intros Hf HQ. apply keeps_or_throw.
  - intros s q a _ _ _ H. unfold with_unit, obind in H. case_match; simplify_eq.
    by apply step_statement, Hf.
  - intros p q a H. unfold with_unit, obind in H. case_match; simplify_eq.
    by apply calm_statement, Hf.
  - intros x q [] ? _. by apply HQ.
Qed.

Lemma keeps_record_peer P st Q :
  (∀ x q n, P x → calm (participant_ (agent x)) q → Q n (put q x)) →
  kp P (record_peer st) Q.
Proof.
  assert (Hcalm : ∀ p q n, LeaseParticipant.record_peer_statement p st
    = Returns (q, n) → calm p q)
    by (intros; by eapply calm_statement, ss_record_peer).
  intros HQ. apply keeps_or_throw; [|done|eauto].
  intros s q a _ _ _ H. by eapply step_statement, ss_record_peer.
Qed.

Lemma keeps_grant P v rid e g Q :
  Grant v (inst_id i) rid e g ∈ K →
  (∀ x q ev, P x → LeaseParticipant.on_grant (participant_ (agent x)) v rid e now
     = Returns (q, ev) → Q ev (put q x)) →
  kp P (participant_or_throw (λ p, LeaseParticipant.on_grant p v rid e now)) Q.
Proof.
  intros HK HQ. apply keeps_or_throw; [|intros; by eapply calm_grant|done].
  intros s q a Ht Hk HKs H. rewrite <- (local_now s Ht Hk) in H.
  eapply step_grant; [by apply HKs|done].
Qed.

(** A message sent. *)
Lemma sim_send s x m :
  sim i s x → posted i s m → sim i s (send m x).1.
Proof.
  intros [] Hm. constructor; cbn; try done.
  - intros m' [->|?]%elem_of_cons; auto.
  - eapply record_inv_same; [done| |done]. by unfold same_records.
Qed.

Lemma keeps_refuse P conn r Q :
  (∀ x, P x → Q () (send (refusal_on conn r) x).1) →
  kp P (send (refusal_on conn r)) Q.
Proof.
  intros HQ s x Ht Hk Hr HK Hx HP. exists s. split_and!; try done.
  - by apply sim_send.
  - intros [] _. by apply HQ.
Qed.

Lemma moves_send s m :
  step s (LeaseSafety.send s m) →
  match m with Grant v _ _ _ _ => v = inst_id i | _ => True end →
  moves i s (LeaseSafety.send s m).
Proof.
  intros Hs Hm. constructor; cbn; try done; [by apply rtc_once| |].
  - intros m' ?. by right.
  - intros v c rid e g [E|?]%elem_of_cons; [|by left]. right. by rewrite <- E in Hm.
Qed.

Lemma sim_net s x m :
  sim i s x → match m with Grant v _ _ _ _ => v ≠ inst_id i | _ => True end →
  sim i (LeaseSafety.send s m) x.
Proof.
  intros [] Hm. constructor; cbn; try done.
  - intros m' Hm'. eapply posted_mono; [|by apply sim_sent0]. intros. by right.
  - eapply record_inv_frame; [done|lia|].
    intros c rid e g [E|?]%elem_of_cons; [|done]. by rewrite <- E in Hm.
Qed.

(** One request recorded and posted. *)
Lemma sim_request s x v :
  time s = t → ck (nodes s i) = k → sim i s x →
  holder_state (agent x) ≠ LeaseHolder.Idle → v = peer ∨ v = third_id →
  let q := LeaseParticipant.record_request (participant_ (agent x)) v now in
  ∃ s', moves i s s' ∧ time s' = t ∧ sim i s' (put q.1 x) ∧
    ∃ at_, Request (inst_id i) v q.2 (holder_epoch (agent x)) at_ ∈ net s'.
Proof.
  intros Ht Hk Hx Hst Hv. set (q := LeaseParticipant.record_request _ _ _).
  pose proof (sim_part _ _ _ Hx) as Hp.
  set (m := Request (inst_id i) v q.2 (holder_epoch (agent x)) (time s)).
  assert (Hs : step s (LeaseSafety.send (with_node s i (with_part (nodes s i) q.1)) m)).
  { unfold m, holder_epoch. rewrite <- Hp. apply step_send.
    - unfold LeaseSafety.holder_state. by rewrite Hp.
    - done.
    - rewrite Hp, (local_now s Ht Hk). apply surjective_pairing. }
  exists (LeaseSafety.send (with_node s i (with_part (nodes s i) q.1)) m).
  split_and!; [|exact Ht| |exists (time s); by left].
  - constructor; cbn; try done; [by apply rtc_once|..].
    + rewrite decide_False; [done|]. by destruct i.
    + by rewrite decide_True.
    + intros m' ?. by right.
    + intros v' c rid e g [?|?]%elem_of_cons; [done|by left].
  - apply (sim_net _ _ m); [|done]. apply sim_calm; [done|apply calm_request].
Qed.

Lemma agent_keeps_ask P :
  (∀ x, P x → holder_state (agent x) ≠ LeaseHolder.Idle) →
  ∀ e, (∀ x, P x → holder_epoch (agent x) = e) →
  kp P (ask_voters e now) (λ _ _, True).
Proof.
  intros HP e He s x Ht Hk Hr HK Hx HPx. specialize (HP x HPx). specialize (He x HPx).
  assert (Hc : cfg (agent x) = cfg_of i) by apply (ri_cfg _ _ _ _ _ (sim_records _ _ _ Hx)).
  destruct (sim_request s x peer Ht Hk Hx HP ltac:(by left))
    as (s1 & Hm1 & Ht1 & Hx1 & at1 & Hin1).
  set (q1 := LeaseParticipant.record_request _ _ _) in *.
  assert (Hk1 : ck (nodes s1 i) = k) by (by rewrite (mv_ck _ _ _ Hm1)).
  unfold ask_voters, the_agent, gets, participant, mbind, comp_bind. cbn [fst snd].
  rewrite Hc. cbn [cfg_of peer_id_ third_voter_id_ self_id_ pair_id_ LeaseAgents.cfg_of].
  fold q1. set (stm := if LeaseParticipant.is_leading _ then _ else no_statement).
  set (x1 := (send (request_to_peer (mk_request (inst_id i) pair e q1.2 stm))
                (put q1.1 x)).1).
  assert (Hx1' : sim i s1 x1).
  { apply sim_send; [done|]. split; [done|]. exists at1. by rewrite <- He. }
  destruct (sim_request s1 x1 third_id Ht1 Hk1 Hx1' HP ltac:(by right))
    as (s2 & Hm2 & Ht2 & Hx2 & at2 & Hin2).
  exists s2. split_and!; [by etrans|done| |done].
  apply (sim_send _ _ (request_to_third_voter (mk_request _ _ e _ stm)) Hx2).
  split; [done|]. exists at2. by rewrite <- He.
Qed.

Lemma keeps_renew P :
  (∀ x, P x → holder_state (agent x) ≠ LeaseHolder.Idle) →
  kp P (renew now) (λ _ _, True).
Proof.
  intros HP. eapply (agent_keeps_bind _ _ _ _ _ _ _ (λ _ x,
    holder_state (agent x) ≠ LeaseHolder.Idle)).
  - apply keeps_on_agent; [done|]. apply HP.
  - intros []. apply keeps_agent. intros a. apply agent_keeps_ask.
    + by intros x [? _].
    + by intros x [_ ->].
Qed.

Lemma keeps_when P b m :
  (b = true → kp P m (λ _ _, True)) → kp P (when b m) (λ _ _, True).
Proof. intros H. destruct b; [by apply H|by apply agent_keeps_ret]. Qed.

Lemma keeps_stop_for_a_while P :
  kp P (stop_for_a_while uniform now) (λ _ _, True).
Proof.
  eapply (agent_keeps_bind _ _ _ _ _ _ _ (λ _ _, True)).
  - apply keeps_agent. intros a. eapply (agent_keeps_bind _ _ _ _ _ _ _ (λ _ _, True)).
    + by apply keeps_on_agent.
    + intros []. by apply agent_keeps_ret.
  - intros wait. by apply keeps_stop.
Qed.

Lemma keeps_of_records {A} P (m : comp state A) :
  (∀ ms p, rkeeps t ms i k p (λ _, True) m (λ _ _, True)) →
  kp P m (λ _ _, True).
Proof.
  intros H. apply keeps_records. intros ms p.
  by eapply (rkeeps_weaken _ _ _ _ _ (λ _, True) _ _ (λ _ _, True)).
Qed.

Lemma candidate_busy x :
  LeaseParticipant.is_candidate (holder_state (agent x)) = true →
  holder_state (agent x) ≠ LeaseHolder.Idle.
Proof. by destruct (holder_state _). Qed.

Lemma acting_busy x u :
  LeaseParticipant.acting (participant_ (agent x)) u = true →
  holder_state (agent x) ≠ LeaseHolder.Idle.
Proof.
  unfold LeaseParticipant.acting, LeaseHolder.acting, holder_state.
  by destruct (LeaseHolder.state _).
Qed.

Lemma keeps_tick_before_asking :
  kp (λ _, True) (tick_before_asking uniform now) (λ _ _, True).
Proof.
  eapply agent_keeps_bind; [apply keeps_of_records; intros; apply adopt_ok|intros []].
  eapply agent_keeps_bind; [apply keeps_of_records; intros; apply start_wanted_ok|intros []].
  eapply agent_keeps_bind; [apply keeps_of_records; intros; apply write_statement_ok|intros []].
  apply keeps_agent; intros a0.
  eapply agent_keeps_bind; [apply keeps_when; intros _; apply keeps_stop_for_a_while|intros []].
  eapply (agent_keeps_bind _ _ _ _ _ _ _ (λ _ _, True)); [by apply keeps_ran_out|intros b].
  apply keeps_agent; intros a1.
  eapply agent_keeps_bind; [apply keeps_when; intros H; bool_to_prop; apply keeps_renew|intros []].
  { intros x [_ <-]. by eapply acting_busy. }
  apply keeps_agent; intros a2.
  eapply agent_keeps_bind; [apply keeps_when; intros H; bool_to_prop; apply keeps_renew|intros []].
  { intros x [_ <-]. by apply candidate_busy. }
  apply keeps_agent; intros a3.
  eapply agent_keeps_bind; [apply keeps_when; intros _; apply keeps_stop_for_a_while|intros []].
  by apply agent_keeps_ret.
Qed.

(** *** Answering the peer *)

Definition promised_now (x : state) : Prop :=
  LeaseVoter.promised_to (voter_of x) = peer ∧
  LeaseVoter.promise_expires (voter_of x) = now + period ∧
  holder_state (agent x) = LeaseHolder.Idle.

(** What considering the peer's request does: nothing, or the promise. *)
Lemma peer_request_cases p e q out :
  LeaseVoter.lease_period (LeaseParticipant.voter p) = period →
  (LeaseHolder.state (LeaseParticipant.holder p) ≠ LeaseHolder.Idle →
   LeaseVoter.held_for_self (LeaseParticipant.voter p) = true) →
  LeaseParticipant.on_peer_request p peer e now = (q, out) →
  (is_granted (LeaseVoter.verdict (LeaseParticipant.answer out)) = false ∧
   calm p q) ∨
  (is_granted (LeaseVoter.verdict (LeaseParticipant.answer out)) = true ∧
   LeaseVoter.quiet_until (LeaseParticipant.voter q)
     = LeaseVoter.quiet_until (LeaseParticipant.voter p) ∧
   LeaseVoter.highest_epoch (LeaseParticipant.voter p)
     ≤ LeaseVoter.highest_epoch (LeaseParticipant.voter q) ∧
   LeaseVoter.promised_to (LeaseParticipant.voter q) = peer ∧
   LeaseVoter.promise_expires (LeaseParticipant.voter q) = now + period ∧
   LeaseHolder.state (LeaseParticipant.holder q) = LeaseHolder.Idle).
Proof.
  intros Hper Hheld. unfold LeaseParticipant.on_peer_request.
  set (up := _ && _). set (p1 := if up then _ else _).
  assert (H1 : calm p p1 ∧
    LeaseVoter.lease_period (LeaseParticipant.voter p1) = period ∧
    (LeaseHolder.state (LeaseParticipant.holder p1) ≠ LeaseHolder.Idle →
     LeaseVoter.held_for_self (LeaseParticipant.voter p1) = true)).
  { unfold p1. destruct up; (split; [by constructor|done]). }
  destruct H1 as (Hcalm & Hper1 & Hheld1). clearbody p1.
  destruct (LeaseVoter.consider _ _ _ _) as [v a] eqn:Hc. intros [= <- <-].
  cbn [LeaseParticipant.answer].
  destruct (decide (LeaseVoter.verdict a = LeaseVoter.Granted)) as [Hg|Hg].
  - right. destruct (consider_granted _ _ _ _ _ _ Hc Hg)
      as (_ & Hself & _ & He & _ & ->). rewrite Hg. cbn.
    rewrite Hper1. destruct Hcalm. split_and!; try done; [lia|].
    destruct (decide (LeaseHolder.state (LeaseParticipant.holder p1)
      = LeaseHolder.Idle)) as [|Hbusy]; [done|].
    rewrite (Hheld1 Hbusy) in Hself. done.
  - left. split; [by destruct (LeaseVoter.verdict a)|].
    apply consider_refused in Hc as ->; [|done]. etrans; [done|].
    by constructor.
Qed.

Lemma record_inv_promise ms x q :
  record_inv t ms i k x →
  LeaseVoter.quiet_until (LeaseParticipant.voter q)
    = LeaseVoter.quiet_until (voter_of x) →
  LeaseVoter.promised_to (LeaseParticipant.voter q) = peer →
  LeaseVoter.promise_expires (LeaseParticipant.voter q) = now + period →
  LeaseHolder.state (LeaseParticipant.holder q) = LeaseHolder.Idle →
  record_inv t ms i k (put q x).
Proof.
  intros Hx Hq Hto Hexp Hidle.
  eapply record_inv_put; [done|by unfold same_records|done| |done].
  intros c rid e g Hg. apply (ri_grants _ _ _ _ _ Hx) in Hg as [_ Hle].
  pose proof (clock_monotone k _ _ Hle). right; left. cbn. split; [done|lia].
Qed.

Lemma keeps_peer_request P rid e at_ :
  Request peer (inst_id i) rid e at_ ∈ K →
  (∀ x q, P x → P (put q x)) →
  kp P (participant (λ p, LeaseParticipant.on_peer_request p peer e now))
    (λ out x, P x ∧
       (is_granted (LeaseVoter.verdict (LeaseParticipant.answer out)) = true →
        promised_now x)).
Proof.
  intros HK HP s x Ht Hk Hr HKs Hx HPx.
  pose proof (sim_part _ _ _ Hx) as Hp.
  assert (Hn : node_inv clock period drift (time s) (net s) i (nodes s i))
    by (by apply si_nodes, (reachable_inv clock period drift ps)).
  destruct (LeaseParticipant.on_peer_request (participant_ (agent x)) peer e now)
    as [q out] eqn:Ho.
  assert (Hs : step s (with_node s i (with_part (nodes s i) q))).
  { eapply (step_peer_request _ _ _ _ s i rid e at_ q out); [by apply HKs|].
    by rewrite Hp, (local_now s Ht Hk). }
  pose proof (peer_request_cases _ _ _ _
    (eq_trans (f_equal (λ p, LeaseVoter.lease_period (LeaseParticipant.voter p))
                 (eq_sym Hp)) (ni_vote_period _ _ _ _ _ _ _ Hn))
    ltac:(rewrite <- Hp; exact (ni_held _ _ _ _ _ _ _ Hn)) Ho) as Hcases.
  exists (with_node s i (with_part (nodes s i) q)).
  unfold participant. rewrite Ho. cbn [fst snd].
  destruct Hcases as [[Hg Hcalm]|(Hg & Hquiet & Hhigh & Hto & Hexp & Hidle)].
  - split_and!; [by apply moves_part|done|by apply sim_calm|].
    intros ? [= <-]. split; [by apply (HP x q)|congruence].
  - split_and!; [by apply moves_part|done| |].
    + destruct Hx. constructor; cbn; rewrite ?decide_True by done; cbn; try done.
      * intros h e' Hh. apply sim_next0. lia.
      * rewrite Hk, Ht in *. by apply record_inv_promise.
    + intros ? [= <-]. split; [by apply (HP x q)|]. by unfold promised_now.
Qed.

Lemma keeps_send_grant P rid e at_ pair_ echo Q :
  Request peer (inst_id i) rid e at_ ∈ K →
  (∀ x, P x → ready i (now + period) x ∧ promised_now x) →
  (∀ x m, P x → Q () (send m x).1) →
  kp P (send (grant_on peer (mk_grant (inst_id i) pair_ e rid echo))) Q.
Proof.
  intros HK HP HQ s x Ht Hk Hr HKs Hx HPx.
  destruct (HP x HPx) as [(Hto & Hu & Hud) (Hvt & Hvx & Hidle)].
  destruct (Hud Hto) as [Hflight Hwanted].
  pose proof (sim_part _ _ _ Hx) as Hp.
  set (m := Grant (inst_id i) peer rid e t).
  assert (Hs : step s (LeaseSafety.send s m)).
  { unfold m. rewrite <- Ht at 1. eapply step_late_grant; [by apply HKs|..].
    - unfold LeaseSafety.holder_state. by rewrite Hp.
    - by rewrite Hp.
    - rewrite Hp, Hvx, (local_now s Ht Hk). done. }
  exists (LeaseSafety.send s m). split_and!; [by apply moves_send|done| |].
  - apply sim_send; [|split; [done|]; exists t; by left].
    destruct Hx as [? ? ? ? Hsent Hrec]. constructor; cbn; try done.
    { intros m' Hm'. eapply posted_mono; [|by apply Hsent]. intros. by right. }
    rewrite Ht, Hk in *. destruct Hrec. constructor; try done.
    + intros c rid' e' g [Hg|Hg]%elem_of_cons; [|eauto].
      unfold m in Hg. simplify_eq. split; [done|lia].
    + intros c rid' e' g [Hg|Hg]%elem_of_cons; [|eauto].
      unfold m in Hg. simplify_eq. right; left. split; [done|lia].
    + intros to until He c rid' e' g [Hg|Hg]%elem_of_cons;
        [|by eapply ri_covers0; eauto].
      unfold m in Hg. simplify_eq. right; left.
      destruct He as [|r Hr'|to until Hw].
      * done.
      * split; [eauto|]. etrans; [exact Hu|]. eapply ri_flight_order0; eauto.
      * split; [eauto|]. etrans; [exact Hu|].
        eapply ri_wanted_order0; eauto.
  - intros [] _. by apply HQ.
Qed.

Lemma promised_now_calm x q :
  promised_now x → calm (participant_ (agent x)) q → promised_now (put q x).
Proof.
  intros (H1 & H2 & H3) []. unfold promised_now. cbn. split_and!; try congruence.
  unfold holder_state in *. cbn.
  destruct (decide (LeaseHolder.state (LeaseParticipant.holder q) = LeaseHolder.Idle));
    [done|tauto].
Qed.

Lemma keeps_on_request rid e at_ st :
  Request peer (inst_id i) rid e at_ ∈ K →
  kp (not_overtaken i) (on_request peer peer e rid st now) (λ _ _, True).
Proof.
  intros HK. apply keeps_agent. intros a.
  eapply (agent_keeps_bind _ _ _ _ _ _ _ (λ _ x, not_overtaken i x)).
  { unfold when. case_if; [|apply agent_keeps_ret; tauto].
    eapply (agent_keeps_bind _ _ _ _ _ _ _ (λ _ x, not_overtaken i x)).
    - apply keeps_record_peer. by intros x q n [? _] _.
    - intros n. by apply agent_keeps_ret. }
  intros []. eapply agent_keeps_bind; [by eapply keeps_peer_request|]. intros out.
  cbv zeta.
  set (granted := is_granted (LeaseVoter.verdict (LeaseParticipant.answer out))).
  eapply (agent_keeps_bind _ _ _ _ _ _ _ (λ _ x, not_overtaken i x ∧
    (granted = true → promised_now x))).
  { case_if; [|by apply agent_keeps_ret]. apply keeps_record_peer.
    intros x q n [Hn Hp] Hc. split; [done|]. intros Hg.
    by apply promised_now_calm; auto. }
  intros echoed.
  eapply (agent_keeps_bind _ _ _ _ _ _ _ (λ covered x, covered = true →
    ready i (now + period) x ∧ promised_now x)).
  { destruct granted eqn:Hg; [|by apply agent_keeps_ret].
    apply keeps_records. intros ms p x Hx Hp [[Hn Hpr] _]. specialize (Hpr eq_refl).
    assert (Hexp : LeaseVoter.promise_expires (LeaseParticipant.voter p)
      = now + period) by (rewrite <- Hp; apply Hpr).
    destruct (promise_recorded_ok t ms i k p Hexp x Hx Hp Hn)
      as (Hy & Hpy & He & Hs & HQ).
    split_and!; try done. intros c Hc Ht. split; [by eapply HQ|].
    unfold promised_now, holder_state in *. by rewrite Hpy, <- Hp. }
  intros covered. apply keeps_agent. intros b.
  destruct covered.
  - eapply (agent_keeps_bind _ _ _ _ _ _ _ (λ _ x, ready i (now + period) x ∧
      promised_now x ∧ cfg (agent x) = cfg b)).
    { apply keeps_records. intros ms p x Hx Hp [[HQ Hb] _].
      destruct (HQ eq_refl) as [Hr Hpr].
      destruct (proj2 (write_statement_ok t ms i k p) _ x Hx Hp Hr)
        as (Hy & Hpy & He & Hs & HQ').
      split_and!; try done. intros [] Hret. split_and!; [by eapply HQ'|..].
      - unfold promised_now, holder_state in *. by rewrite Hpy, <- Hp.
      - rewrite (ri_cfg _ _ _ _ _ Hy), <- Hb. by rewrite (ri_cfg _ _ _ _ _ Hx). }
    intros [].
    eapply (agent_keeps_bind _ _ _ _ _ _ _ (λ _ _, True)); [|by intros; apply agent_keeps_ret].
    intros s x Ht Hk Hr HKs Hx (HPr & HPp & Hc).
    assert (Hcfg : cfg b = cfg_of i)
      by (rewrite <- Hc; apply (ri_cfg _ _ _ _ _ (sim_records _ _ _ Hx))).
    rewrite Hcfg. cbn [self_id_ pair_id_ LeaseAgents.cfg_of].
    revert s x Ht Hk Hr HKs Hx HPr HPp Hc.
    enough (H : kp (λ x, ready i (now + period) x ∧ promised_now x)
      (send (grant_on peer (mk_grant (inst_id i) pair e rid echoed)))
      (λ _ _, True)) by (intros; by eapply H).
    by eapply keeps_send_grant.
  - eapply (agent_keeps_bind _ _ _ _ _ _ _ (λ _ _, True)); [|by intros; apply agent_keeps_ret].
    by apply keeps_refuse.
Qed.

(** *** Answers of the voters *)

Lemma became_leader_busy p v rid e q :
  LeaseParticipant.on_grant p v rid e now = Returns (q, LeaseHolder.BecameLeader) →
  LeaseHolder.state (LeaseParticipant.holder q) ≠ LeaseHolder.Idle.
Proof.
  unfold LeaseParticipant.on_grant.
  destruct (LeaseHolder.on_grant _ _ _ _ _) as [h ev] eqn:Hh. intros H.
  assert (ev = LeaseHolder.BecameLeader) as ->.
  { unfold obind in H. destruct ev; repeat case_match; by simplify_eq. }
  assert (Hl : LeaseHolder.state h = LeaseHolder.Leading).
  { unfold LeaseHolder.on_grant in Hh. repeat case_match; by simplify_eq/=. }
  assert (LeaseParticipant.holder q = h) as ->.
  { unfold obind in H. repeat case_match; by simplify_eq/=. }
  by rewrite Hl.
Qed.

Lemma keeps_on_grant v e rid echo g :
  Grant v (inst_id i) rid e g ∈ K →
  kp (λ _, True) (PairLeaseAgent.on_grant v e rid echo now) (λ _ _, True).
Proof.
  intros HK. apply keeps_agent. intros a.
  set (B := λ (ev : LeaseHolder.Event) (x : state), ev = LeaseHolder.BecameLeader →
    holder_state (agent x) ≠ LeaseHolder.Idle).
  eapply (agent_keeps_bind _ _ _ _ _ _ _ B).
  { eapply keeps_grant; [done|]. intros x q ev _ Hq ->.
    by apply became_leader_busy in Hq. }
  intros ev. eapply (agent_keeps_bind _ _ _ _ _ _ _ (λ _, B ev)).
  { unfold when. case_if; [|by apply agent_keeps_ret].
    apply keeps_participant.
    - intros s _ _ _. apply step_statement. constructor.
    - intros p. apply calm_statement. constructor.
    - intros x HB Hev. specialize (HB Hev). unfold holder_state in *. cbn.
      unfold LeaseParticipant.note_echo_from_peer. by case_match. }
  intros []. destruct ev; try by apply agent_keeps_ret.
  - eapply (agent_keeps_bind _ _ _ _ _ _ _ (λ _ x,
      holder_state (agent x) ≠ LeaseHolder.Idle)).
    { apply keeps_on_agent; [done|]. intros x HB. by apply HB. }
    intros []. eapply (agent_keeps_bind _ _ _ _ _ _ _ (λ _ x,
      holder_state (agent x) ≠ LeaseHolder.Idle)).
    { apply keeps_records. intros ms p x Hx Hp [HB _].
      destruct (record_leading_ok t ms i k p x Hx Hp I) as (? & Hpy & ? & ? & _).
      split_and!; try done. intros [] _. unfold holder_state in *.
      by rewrite Hpy, <- Hp. }
    intros []. apply keeps_agent. intros b.
    eapply (agent_keeps_bind _ _ _ _ _ _ _ (λ _ _, True)); [|by intros; apply agent_keeps_ret].
    apply keeps_when. intros _. apply keeps_renew. by intros x [? _].
  - eapply (agent_keeps_bind _ _ _ _ _ _ _ (λ _ _, True)); [|by intros; apply agent_keeps_ret].
    apply keeps_of_records. intros. apply record_leading_ok.
Qed.

Lemma keeps_held arbiter held alone :
  kp (λ _, True) (on_statement_held arbiter held alone) (λ _ _, True).
Proof. apply keeps_note; [intros; constructor|done]. Qed.

Lemma keeps_on_refusal v highest rid why :
  kp (λ _, True) (PairLeaseAgent.on_refusal uniform v highest rid why now)
    (λ _ _, True).
Proof.
  apply keeps_agent. intros a.
  eapply (agent_keeps_bind _ _ _ _ _ _ _ (λ _ _, True)).
  { case_if; [by apply agent_keeps_ret|]. apply keeps_agent. intros b.
    eapply (agent_keeps_bind _ _ _ _ _ _ _ (λ _ _, True)); [by apply keeps_on_agent|].
    intros []. by apply agent_keeps_ret. }
  intros wait. eapply (agent_keeps_bind _ _ _ _ _ _ _ (λ _ _, True)).
  { apply keeps_when. intros _. apply keeps_on_agent; [|done].
    intros b. by case_if. }
  intros []. apply keeps_agent. intros b. case_if.
  - eapply (agent_keeps_bind _ _ _ _ _ _ _ (λ _ _, True)); [by apply keeps_on_agent|].
    intros []. eapply (agent_keeps_bind _ _ _ _ _ _ _ (λ _ _, True)); [by apply keeps_stop|].
    intros []. by apply agent_keeps_ret.
  - eapply (agent_keeps_bind _ _ _ _ _ _ _ (λ _ _, True)); [by apply keeps_refusal|].
    intros []; by apply agent_keeps_ret.
Qed.

Lemma keeps_said what : kp (λ _, True) (said what now) (λ _ _, True).
Proof.
  assert (Hsay : ∀ f, (∀ p q, f p = Returns q → statement_step p q) →
    kp (λ _, True) (say f now) (λ _ _, True)).
  { intros f Hf. eapply (agent_keeps_bind _ _ _ _ _ _ _ (λ _ _, True)); [by apply keeps_say|].
    intros []. eapply (agent_keeps_bind _ _ _ _ _ _ _ (λ _ _, True)).
    - apply keeps_of_records. intros. apply write_statement_ok.
    - intros []. apply keeps_agent. intros a. apply keeps_when. intros Ha.
      apply keeps_renew. intros x [_ <-]. by eapply acting_busy. }
  destruct what; try (apply Hsay; intros; by constructor). by apply keeps_on_agent.
Qed.

Lemma keeps_writer reached : kp (λ _, True) (writer_turn reached) (λ _ _, True).
Proof.
  apply keeps_of_records. intros ms p x Hx Hp _. split_and!; try done.
  destruct Hx. unfold writer_turn, run_recorder. cbn [fst].
  unfold BackgroundPromiseRecorder.write_requests.
  destruct (Z.eqb_spec (BackgroundPromiseRecorder.requests_started (recorder x))
    (BackgroundPromiseRecorder.requests_finished (recorder x))) as [Heq|Hne].
  { by destruct x. }
  destruct (in_flight (agent x)) as [r|] eqn:Hf in ri_sync0; [|lia].
  destruct ri_sync0 as (Hslot & Hstart & [Hfin|[Hfin _]]); [|lia].
  unfold LeasePromiseStore.record. rewrite ri_boot0.
  destruct reached; cbn; constructor; cbn; try done.
  - intros b r' [= <- <-]. done.
  - rewrite Hf. cbn. split_and!; [done|lia|]. right. split; [lia|]. by rewrite <- Hslot.
  - intros r' [= <-]. right. rewrite Hslot. split_and!; [done|lia|done].
  - rewrite Hf. cbn. split_and!; [done|lia|]. right. split; [lia|]. by rewrite <- Hslot.
  - intros r' Hr'. destruct (ri_file0 _ Hr') as [?|(? & ? & ?)]; [by left|lia].
Qed.

End operations.

(** ** Asking to lead, and the tick *)

Lemma moves_time i s t :
  time s ≤ t → moves i s (mk_sys t (nodes s) (third s) (third_ck s) (net s)).
Proof.
  intros Ht. constructor; cbn; try done; [by apply rtc_once, step_time|by left].
Qed.

Lemma sim_time i s x t :
  sim i s x → time s ≤ t →
  sim i (mk_sys t (nodes s) (third s) (third_ck s) (net s)) x.
Proof.
  intros [] Ht. constructor; cbn; try done. by eapply record_inv_frame.
Qed.

(** Nothing this instance promised still runs when the rules let it ask. *)
Lemma asking_expired i x t ms k :
  record_inv t ms i k x →
  LeaseParticipant.self_id (participant_ (agent x)) = inst_id i →
  LeaseParticipant.may_ask_to_lead (participant_ (agent x)) (clock k t) = true →
  promises ms i (λ g, expired k g t).
Proof.
  intros [] Hself Hmay. unfold LeaseParticipant.may_ask_to_lead in Hmay.
  repeat (apply andb_true_iff in Hmay as [Hmay ?]).
  unfold LeaseVoter.restarting, LeaseVoter.promised_elsewhere,
    LeaseVoter.promise_live in *. bool_to_prop.
  pose proof (other_ne i). pose proof (inst_id_nonzero (other i)).
  intros c rid e g Hg. unfold expired.
  destruct (ri_vote0 _ _ _ _ Hg) as [?|[[Hto ?]|?]]; [done| |lia].
  rewrite Hself in *. rewrite Hto in *. lia.
Qed.

Lemma next_for_mono h h' id e e' :
  LeaderEpoch.next_for h id = Returns e → LeaderEpoch.next_for h' id = Returns e' →
  h ≤ h' → e ≤ e'.
Proof.
  intros (? & _ & ? & _ & Hm)%next_for_returns (_ & _ & ? & _ & Hm')%next_for_returns ?.
  assert (Hz : (e - e') mod 4 = 0) by (rewrite Zminus_mod, Hm, Hm', Z.sub_diag; done).
  destruct (Z.le_gt_cases e e'); [done|].
  rewrite Z.mod_small in Hz by lia. lia.
Qed.

(** The request to lead, with its epoch on disk: where the requests are noted
    as sent is where the clock stands once the write is over. *)
Lemma begin_ok i s x t' :
  reachable s → sim i s x → time s ≤ t' →
  LeaseParticipant.may_ask_to_lead (participant_ (agent x)) (local clock s i) = true →
  EpochRecording.answers (epochs x) =
    [(true, clock (ck (nodes s i)) t' - local clock s i)] →
  ∃ s', moves i s s' ∧ time s' ≤ t' ∧
    sim i s' (begin_to_ask (local clock s i) x).1.
Proof.
  intros Hr Hx Ht Hmay Hans. pose proof Hx as Hx0. destruct Hx.
  unfold begin_to_ask.
  destruct (LeaseParticipant.begin_asking_to_lead (participant_ (agent x)))
    as [[q e]|ex] eqn:Hask.
  2: { exists s. unfold mbind, comp_bind, participant_or_throw. by rewrite Hask. }
  rewrite (bind_returns _ _ _ (put q x) e)
    by (unfold participant_or_throw; by rewrite Hask).
  assert (Hself : LeaseParticipant.self_id (participant_ (agent x)) = inst_id i).
  { rewrite <- sim_part0. apply (ni_id clock period drift (time s) (net s)).
    by apply si_nodes, (reachable_inv clock period drift ps). }
  pose proof Hask as Hask'. unfold LeaseParticipant.begin_asking_to_lead, obind in Hask'.
  rewrite Hself in Hask'.
  destruct (LeaderEpoch.next_for _ (inst_id i)) as [e'|] eqn:Hnext; [|done].
  simplify_eq. set (q := LeaseParticipant.with_voter _ _) in *.
  set (s1 := with_node s i (mk_node q (ck (nodes s i))
               (Z.max (disk_epoch (nodes s i)) e))).
  assert (Hm1 : moves i s s1).
  { constructor; cbn; try done; auto.
    - apply rtc_once, step_ask; by rewrite sim_part0.
    - rewrite decide_False; [done|]. by destruct i.
    - by rewrite decide_True. }
  (* the epoch's file *)
  set (r := EpochRecording.record_before_asking (epochs x) e).
  set (x1 := mk_state (with_participant (agent x) q) (recorder x) r.1 (sent x)).
  assert (Hrec : EpochRecording.highest_written r.1 ≤ EpochRecording.on_disk r.1 ∧
    Z.max (disk_epoch (nodes s i)) e ≤ EpochRecording.on_disk r.1 ∧
    (r.2 = 0 ∨ r.2 = clock (ck (nodes s i)) t' - local clock s i) ∧
    (EpochRecording.on_disk r.1 = e ∨ r.1 = epochs x)).
  { unfold r, EpochRecording.record_before_asking, EpochRecording.record.
    pose proof (sim_next0 _ _ (Z.le_refl _) Hnext).
    destruct (Z.leb_spec e (EpochRecording.highest_written (epochs x))); cbn.
    - split_and!; [done|lia|by left|by right].
    - rewrite Hans. cbn. split_and!; [lia|lia|by right|by left]. }
  destruct Hrec as (Hw & Hd & Htook & Hsame).
  assert (Hx1 : sim i s1 x1).
  { constructor; cbn; rewrite ?decide_True by done; cbn; try done.
    - intros h e' Hh He'. destruct Hsame as [->| ->]; [|by eapply sim_next0].
      by eapply next_for_mono.
    - pose proof (asking_expired _ _ _ _ _ sim_records0 Hself Hmay) as Hexp.
      eapply record_inv_put; [done|by unfold same_records|done| |done].
      intros c rid e' g Hg. left. by eapply Hexp. }
  set (sent_at := local clock s i + r.2).
  set (x2 := (on_agent (λ a, with_refused (with_asking a sent_at sent_at) false false) x1).1).
  assert (Hc : cfg (agent x) = cfg_of i) by apply (ri_cfg _ _ _ _ _ sim_records0).
  assert (Hrun : ∀ f : Z → comp state unit,
    (a ← the_agent;
     took ← (if keeps_epoch (cfg a)
             then run_epochs (λ r, EpochRecording.record_before_asking r e)
             else mret 0);
     f took) (put q x) = f r.2 x1).
  { intros f. unfold the_agent, gets, mbind, comp_bind. cbn. by rewrite Hc. }
  rewrite Hrun. cbn [fst].
  rewrite (bind_returns _ _ _ x2 ()) by done.
  assert (Hx2 : sim i s1 x2) by (by apply sim_on_agent).
  (* the requests leave at [t'] when the file was written, and now when it was not *)
  assert (Hs2 : ∃ s2, moves i s1 s2 ∧ time s2 ≤ t' ∧ sim i s2 x2 ∧
    local clock s2 i = sent_at).
  { destruct Htook as [Hz|Hz].
    - exists s1. split_and!; try done. unfold sent_at. rewrite Hz.
      unfold local. cbn. rewrite decide_True by done. cbn. lia.
    - exists (mk_sys t' (nodes s1) (third s1) (third_ck s1) (net s1)).
      split_and!; [by apply moves_time|done|by apply sim_time|].
      unfold sent_at. rewrite Hz. unfold local. cbn.
      rewrite decide_True by done. cbn. lia. }
  destruct Hs2 as (s2 & Hm2 & Ht2 & Hx2' & Hat).
  assert (Hr2 : reachable s2) by (eapply moves_reachable; [|done]; by etrans).
  pose proof (agent_keeps_ask i (ck (nodes s2 i)) (time s2) []
    (λ x, holder_state (agent x) ≠ LeaseHolder.Idle ∧ holder_epoch (agent x) = e)
    (λ x H, proj1 H) e (λ x H, proj2 H)) as Hkeep.
  destruct (Hkeep s2 x2) as (s3 & Hm3 & Ht3 & Hx3 & _); try done.
  { by intros m ?%elem_of_nil. }
  exists s3. split_and!; [|lia|].
  { etrans; [exact Hm1|]. by etrans. }
  unfold local in Hat. rewrite Hat in Hx3. exact Hx3.
Qed.

(** The tick leaves the epoch's file alone until it asks. *)
Definition leaves_epochs {A} (m : comp state A) : Prop :=
  ∀ x, epochs (m x).1 = epochs x.

Lemma leaves_bind {A B} (m : comp state A) (f : A → comp state B) :
  leaves_epochs m → (∀ a, leaves_epochs (f a)) → leaves_epochs (m ≫= f).
Proof.
  intros Hm Hf x. unfold mbind, comp_bind. specialize (Hm x).
  destruct (m x) as [y [a|e]]; cbn in *; [|done]. by rewrite Hf.
Qed.

Lemma leaves_when b m : leaves_epochs m → leaves_epochs (when b m).
Proof. by destruct b. Qed.

Lemma leaves_start to until : leaves_epochs (start_record to until).
Proof.
  apply leaves_bind; [done|]. intros a. apply leaves_bind.
  - by destruct (in_flight a).
  - by intros [].
Qed.

Lemma leaves_records :
  leaves_epochs adopt_background_record ∧ leaves_epochs start_wanted_record ∧
  leaves_epochs write_statement_if_needed.
Proof.
  split_and!; (apply leaves_bind; [done|]; intros a).
  - destruct (in_flight a); [|done]. case_if; [done|].
    apply leaves_bind; [done|]. intros [[]|]; done.
  - repeat case_match; try done. apply leaves_start.
  - repeat case_match; try done. apply leaves_start.
Qed.

Lemma leaves_tick now : leaves_epochs (tick_before_asking uniform now).
Proof.
  destruct leaves_records as (Ha & Hw & Hs).
  do 3 (apply leaves_bind; [done|intros []]).
  repeat (apply leaves_bind; [try done; by apply leaves_when|intros ?]). done.
Qed.

Lemma tick_ok i s x t' :
  reachable s → sim i s x → time s ≤ t' →
  EpochRecording.answers (epochs x) =
    [(true, clock (ck (nodes s i)) t' - local clock s i)] →
  ∃ s', moves i s s' ∧ time s' = t' ∧
    sim i s' (on_tick uniform (local clock s i) x).1.
Proof.
  intros Hr Hx Ht Hans.
  assert (Hend : ∀ s1 y, moves i s s1 → time s1 ≤ t' → sim i s1 y →
    ∃ s', moves i s s' ∧ time s' = t' ∧ sim i s' y).
  { intros s1 y Hm H1 Hy.
    exists (mk_sys t' (nodes s1) (third s1) (third_ck s1) (net s1)).
    split_and!; [|done|by apply sim_time]. etrans; [done|by apply moves_time]. }
  destruct (keeps_tick_before_asking i (ck (nodes s i)) (time s) [] s x)
    as (s1 & Hm1 & Ht1 & Hx1 & _); try done.
  { by intros m ?%elem_of_nil. }
  pose proof (leaves_tick (local clock s i) x) as Hep.
  unfold on_tick, local in *. unfold mbind, comp_bind.
  destruct (tick_before_asking _ _ x) as [y [c|ex]]; cbn in *;
    [|apply (Hend s1); [done|lia|done]].
  unfold when. case_if; [|apply (Hend s1); [done|lia|done]]. bool_to_prop.
  assert (Hl : clock (ck (nodes s i)) (time s) = local clock s1 i)
    by (unfold local; by rewrite (mv_ck _ _ _ Hm1), Ht1).
  destruct (begin_ok i s1 y t') as (s2 & Hm2 & Ht2 & Hx2).
  - by eapply moves_reachable.
  - done.
  - lia.
  - by rewrite <- Hl.
  - rewrite Hep, <- Hl, (mv_ck _ _ _ Hm1). done.
  - rewrite <- Hl in Hx2.
    destruct (begin_to_ask _ y) as [z [u|ex]]; cbn in *; (eapply Hend; [|exact Ht2|exact Hx2]);
      by etrans.
Qed.

(** ** The pair *)

Definition letter_ok (s : sys) (l : letter) : Prop :=
  match l with
  | LRequest to r => ∃ at_,
      Request (candidate_instance_id r) to (request_id r) (request_epoch r) at_
        ∈ net s
  | LGrant to g => ∃ at_,
      Grant (grant_voter g) to (grant_request_id g) (grant_epoch g) at_ ∈ net s
  | LRefusal _ _ => True
  end.

Record asim (s : sys) (a : asys) : Prop := {
  as_reachable : reachable s;
  as_time : time s = now_is a;
  as_boot : ∀ i, ck (nodes s i) = boot (anodes a i);
  as_sim : ∀ i, sim i s (st (anodes a i));
  as_sent : ∀ i, sent (st (anodes a i)) = [];
  as_third : third s = athird a;
  as_third_boot : third_ck s = athird_boot a;
  as_post : ∀ l, l ∈ post a → letter_ok s l
}.

Lemma letter_ok_mono s s' l :
  (∀ m, m ∈ net s → m ∈ net s') → letter_ok s l → letter_ok s' l.
Proof. intros H. destruct l; cbn; [intros [? ?]..|done]; eauto. Qed.

Lemma posted_letter i s m : posted i s m → letter_ok s (letter_of i m).
Proof. destruct m; cbn; [intros (-> & ? & ?)..|done]; eauto. Qed.

(** What instance [i] does leaves the other where it was. *)
Lemma sim_other i s s' x :
  moves i s s' → sim (other i) s x → sim (other i) s' x.
Proof.
  intros [] []. constructor; rewrite ?mv_other0; try done.
  - intros m Hm. eapply posted_mono; [done|by apply sim_sent0].
  - eapply record_inv_frame; [done..|].
    intros c rid e g [?|Hi]%mv_grants0; [done|].
    by apply inst_id_inj in Hi; destruct i.
Qed.

Lemma settle_ok s s' a i t x :
  asim s a → moves i s s' → time s' = t → sim i s' x →
  asim s' (settle a i t x).
Proof.
  intros [] Hm Ht Hx. constructor; cbn.
  - by eapply moves_reachable.
  - done.
  - intros j. destruct (decide (j = i)) as [->|Hne]; cbn.
    + by rewrite (mv_ck _ _ _ Hm).
    + destruct (inst_cases i j) as [->| ->]; [done|]. by rewrite (mv_other _ _ _ Hm).
  - intros j. destruct (decide (j = i)) as [->|Hne]; cbn.
    + destruct Hx. constructor; cbn; try done; [by intros ? ?%elem_of_nil|].
      eapply record_inv_same; [done|by unfold same_records|done].
    + destruct (inst_cases i j) as [->| ->]; [done|]. by eapply sim_other.
  - intros j. by destruct (decide (j = i)).
  - by rewrite (mv_third _ _ _ Hm).
  - by rewrite (mv_third_ck _ _ _ Hm).
  - intros l [Hl|Hl]%elem_of_app.
    + apply list_elem_of_fmap in Hl as (m & -> & Hm'). apply posted_letter.
      by apply (sim_sent _ _ _ Hx).
    + eapply letter_ok_mono; [apply (mv_net _ _ _ Hm)|by apply as_post0].
Qed.

Lemma local_same s a i : asim s a → local clock s i = local_time clock a i.
Proof. intros []. unfold local, local_time. by rewrite as_time0, as_boot0. Qed.

Lemma operate_ok {A} s a i K (P : state → Prop) (m : comp state A) Q :
  asim s a →
  keeps i (boot (anodes a i)) (now_is a) K P m Q →
  (∀ m, m ∈ K → m ∈ net s) → P (st (anodes a i)) →
  ∃ s', asim s' (operate a i m).
Proof.
  intros Ha Hm HK HP. pose proof Ha as Ha'. destruct Ha.
  destruct (Hm s (st (anodes a i))) as (s' & Hmv & Ht & Hx & _); try done.
  exists s'. by apply (settle_ok s).
Qed.

(** A request that reaches an instance was sent by its peer. *)
Lemma request_from_peer s c i rid e at_ :
  reachable s → Request c (inst_id i) rid e at_ ∈ net s → c = inst_id (other i).
Proof.
  intros Hr Hin. apply (reachable_inv clock period drift ps) in Hr; [|done..].
  destruct (nt_candidate _ _ (si_net _ _ _ _ Hr) _ _ _ _ _ Hin) as [j ->].
  destruct (ni_request _ _ _ _ _ _ _ (si_nodes _ _ _ _ Hr j) _ _ _ _ Hin)
    as ([Hto|Hto] & _).
  - apply inst_id_inj in Hto. subst i. by rewrite other_involutive.
  - by destruct (inst_id_not_third i).
Qed.

(** *** Starting again *)

Definition fresh (i : inst) (epoch now : Z) (st : LeaderStatement.t)
    : LeaseParticipant.t :=
  LeaseParticipant.mk (inst_id i)
    (LeaseVoter.mk period (now + period) 0 0 false epoch st)
    (LeaseHolder.mk period drift LeaseHolder.Idle 0 0 ∅ ∅) 0 ps
    LeaderStatement.none 0 (0, 0) 0.

Definition head_start (i : inst) (now : Z) (p : LeaseParticipant.t)
    : LeaseParticipant.t :=
  if inst_id (other i) <? inst_id i
  then LeaseParticipant.stop p now (period + renewal) else p.

(** What a process that starts makes of what it finds. *)
Lemma start_agent_inv i b t f epoch y :
  start_agent clock period drift renewal pair ps i b t f epoch = Returns y →
  0 ≤ epoch ∧
  LeaseParticipant.make (inst_id i) period drift (clock b t) epoch ps
    = Returns (fresh i epoch (clock b t) LeaderStatement.none) ∧
  cfg (agent y) = cfg_of i ∧ has_recorder (agent y) = true ∧
  in_flight (agent y) = None ∧ wanted (agent y) = None ∧
  recorder y = BackgroundPromiseRecorder.make (Some b) f ∧
  epochs y = EpochRecording.mk epoch 0 [] ∧ sent y = [] ∧
  let p := head_start i (clock b t)
             (fresh i epoch (clock b t) (LeasePromiseStore.load_statement f)) in
  match LeasePromiseStore.load f (Some b) with
  | None =>
      recorded_to_ (agent y) = 0 ∧ recorded_until_ (agent y) = 0 ∧
      participant_ (agent y) = p
  | Some k =>
      recorded_to_ (agent y) = record_to k ∧
      recorded_until_ (agent y) = record_until k ∧
      participant_ (agent y) =
        if (record_to k =? inst_id i) && (clock b t <? record_until k)
        then LeaseParticipant.stop
               (LeaseParticipant.resume_with_kept_promise p 0 (clock b t)
                  (clock b t)) (clock b t) 0
        else LeaseParticipant.resume_with_kept_promise p (record_to k)
               (record_until k) (clock b t)
  end.
Proof.
  unfold start_agent, PairLeaseAgent.make, obind. cbn.
  destruct (LeaseParticipant.make _ _ _ _ _ _) as [p|ex] eqn:Hp; [|done].
  pose proof Hp as Hp'. apply make_participant_inv in Hp' as ->.
  assert (0 ≤ epoch).
  { unfold LeaseParticipant.make, LeaseVoter.make, obind in Hp.
    repeat (case_match; try done); bool_to_prop; lia. }
  intros [= <-]. cbn. unfold keep_promises_in, head_start.
  destruct (LeasePromiseStore.load f (Some b)) as [r|]; cbn.
  - destruct (_ && _); destruct (_ <? _); by split_and!.
  - destruct (_ <? _); by split_and!.
Qed.

(** Instance [i] may become [n] without anything else changing. *)
Definition reaches (i : inst) (s : sys) (n : node) : Prop :=
  ∃ s', rtc step s s' ∧ time s' = time s ∧ third s' = third s ∧
    third_ck s' = third_ck s ∧ net s' = net s ∧
    nodes s' (other i) = nodes s (other i) ∧ nodes s' i = n.

Lemma reaches_step i s n : step s (with_node s i n) → reaches i s n.
Proof.
  intros Hs. exists (with_node s i n). split_and!; try done; cbn.
  - by apply rtc_once.
  - rewrite decide_False; [done|]. by destruct i.
  - by rewrite decide_True.
Qed.

Lemma reaches_stop i s n now wait :
  reaches i s n → clock (ck n) (time s) = now →
  reaches i s (with_part n (LeaseParticipant.stop (part n) now wait)).
Proof.
  intros (s1 & Hs & H1 & H2 & H3 & H4 & H5 & Hn) Hnow.
  exists (with_node s1 i (with_part (nodes s1 i)
            (LeaseParticipant.stop (part (nodes s1 i)) (local clock s1 i) wait))).
  unfold local. rewrite Hn, H1, Hnow. split_and!; try done; cbn.
  - etrans; [done|]. apply rtc_once. rewrite <- Hnow, <- H1, <- Hn.
    apply step_stop.
  - rewrite decide_False; [done|]. by destruct i.
  - by rewrite decide_True.
Qed.

Lemma reaches_head_start i s n now :
  reaches i s n → clock (ck n) (time s) = now →
  reaches i s (with_part n (head_start i now (part n))).
Proof.
  intros H Hnow. unfold head_start. case_if; [by apply reaches_stop|].
  by destruct n.
Qed.

(** A process that found no record of this boot. *)
Lemma forgetful_reaches i s b t f epoch y :
  time s = t → 0 ≤ clock b t → disk_epoch (nodes s i) ≤ epoch →
  LeasePromiseStore.load f (Some b) = None →
  start_agent clock period drift renewal pair ps i b t f epoch = Returns y →
  reaches i s (mk_node (participant_ (agent y)) b (disk_epoch (nodes s i))).
Proof.
  intros Ht Hb Hd Hl Hy. apply start_agent_inv in Hy
    as (_ & Hmake & _ & _ & _ & _ & _ & _ & _ & Hy). rewrite Hl in Hy.
  destruct Hy as (_ & _ & ->).
  apply (reaches_head_start i s (mk_node (fresh i epoch (clock b t)
    (LeasePromiseStore.load_statement f)) b _)); [|by rewrite Ht].
  apply reaches_step. subst t.
  exact (step_restart clock period drift ps s i b epoch _
    (LeasePromiseStore.load_statement f) Hb Hd Hmake).
Qed.

(** One that found a record that covers every promise sent. *)
Lemma kept_reaches i s t f epoch y r :
  time s = t → disk_epoch (nodes s i) ≤ epoch →
  LeasePromiseStore.load f (Some (ck (nodes s i))) = Some r →
  start_agent clock period drift renewal pair ps i (ck (nodes s i)) t f epoch
    = Returns y →
  promises (net s) i (λ g, expired (ck (nodes s i)) g t ∨
    (record_to r = inst_id (other i) ∧
     clock (ck (nodes s i)) g + period ≤ record_until r)) →
  (∀ c rid e g, Grant (inst_id i) c rid e g ∈ net s → c = inst_id (other i)) →
  reaches i s (mk_node (participant_ (agent y)) (ck (nodes s i))
                 (disk_epoch (nodes s i))).
Proof.
  intros <- Hd Hl Hy Hcov Hpeer. pose proof (other_ne i) as Hne.
  apply start_agent_inv in Hy as (_ & Hmake & _ & _ & _ & _ & _ & _ & _ & Hy).
  rewrite Hl in Hy. destruct Hy as (_ & _ & Hp).
  set (now := clock (ck (nodes s i)) (time s)) in *.
  assert (Hres : ∀ promised until,
    record_covers clock period s i promised until →
    reaches i s (mk_node (LeaseParticipant.resume_with_kept_promise
        (head_start i now (fresh i epoch now (LeasePromiseStore.load_statement f)))
        promised until now) (ck (nodes s i)) (disk_epoch (nodes s i)))).
  { intros promised until Hc.
    assert (Hstep : reaches i s (with_part (nodes s i)
      (LeaseParticipant.resume_with_kept_promise
         (fresh i epoch now (LeasePromiseStore.load_statement f))
         promised until now))).
    { apply reaches_step.
      exact (step_restart_with_record clock period drift ps s i epoch _
        (LeasePromiseStore.load_statement f) promised until Hd Hmake Hc). }
    apply (reaches_head_start _ _ _ now) in Hstep; [|done].
    revert Hstep. unfold head_start. by case_if. }
  rewrite Hp. case_if; bool_to_prop.
  - apply (reaches_stop i s (mk_node _ _ _) now 0); [|done]. apply Hres.
    intros c rid e g Hg. right. destruct (Hcov _ _ _ _ Hg) as [?|[? _]]; [done|].
    congruence.
  - apply Hres. intros c rid e g Hg. rewrite (Hpeer _ _ _ _ Hg).
    destruct (Hcov _ _ _ _ Hg); [by right|by left].
Qed.

(** The invariant of a process that has just started. *)
Lemma started_sim i s b t f epoch y :
  time s = t →
  start_agent clock period drift renewal pair ps i b t f epoch = Returns y →
  nodes s i = mk_node (participant_ (agent y)) b (disk_epoch (nodes s i)) →
  disk_epoch (nodes s i) ≤ epoch →
  (∀ b' r, f = Some (b', r) → (b' ≤ b)%nat) →
  (∀ c rid e g, Grant (inst_id i) c rid e g ∈ net s →
     c = inst_id (other i) ∧ g ≤ t) →
  (∀ r, LeasePromiseStore.load f (Some b) = Some r →
     promises (net s) i (λ g, expired b g t ∨
       (record_to r = inst_id (other i) ∧ clock b g + period ≤ record_until r)) ∧
     (record_to r = inst_id (other i) →
      record_until r ≤ clock b t + period + promise_record_margin)) →
  sim i s y.
Proof.
  intros Ht Hy Hn Hd Hboot Hpeer Hkept. pose proof (inst_id_nonzero (other i)).
  pose proof (other_ne i).
  apply start_agent_inv in Hy
    as (He & _ & Hc & Hrec & Hf & Hw & Hr & Hep & Hs & Hy).
  assert (Hidle : holder_state (agent y) = LeaseHolder.Idle ∧
    LeaseVoter.highest_epoch (voter_of y) = epoch ∧
    match LeasePromiseStore.load f (Some b) with
    | None => LeaseVoter.quiet_until (voter_of y) = clock b t + period
    | Some r =>
        (record_to r = inst_id (other i) →
         LeaseVoter.promised_to (voter_of y) = record_to r ∧
         LeaseVoter.promise_expires (voter_of y) = record_until r)
    end).
  { unfold holder_state. destruct (LeasePromiseStore.load f (Some b)) as [r|];
      destruct Hy as (_ & _ & ->); unfold head_start.
    - case_if; destruct (inst_id (other i) <? inst_id i); bool_to_prop;
        (split_and!; [done..|]); intros; cbn; split; congruence || done.
    - destruct (inst_id (other i) <? inst_id i); by split_and!. }
  destruct Hidle as (Hidle & Hhigh & Hvote).
  constructor; rewrite ?Hep, ?Hs; cbn; try done.
  - by rewrite Hn.
  - intros h e Hh (_ & _ & ? & _)%next_for_returns. lia.
  - by intros m ?%elem_of_nil.
  - rewrite Hn, Ht. cbn [ck].
    assert (Hcov : covers b t (net s) i (voter_of y) (recorded_to_ (agent y))
      (recorded_until_ (agent y))).
    { intros c rid e g Hg. destruct (Hpeer _ _ _ _ Hg) as [_ Hle].
      pose proof (clock_monotone b _ _ Hle).
      destruct (LeasePromiseStore.load f (Some b)) as [r|].
      - destruct Hy as (-> & -> & _).
        destruct (proj1 (Hkept r eq_refl) _ _ _ _ Hg); [by left|by right; left].
      - right; right. rewrite Hvote. lia. }
    assert (Hent : ∀ to until, entry (agent y) to until →
      to = recorded_to_ (agent y) ∧ until = recorded_until_ (agent y)).
    { intros to until []; [done|congruence..]. }
    constructor; rewrite ?Hr, ?Hf, ?Hw; try done.
    + intros c rid e g Hg. destruct (Hpeer _ _ _ _ Hg) as [_ Hle].
      pose proof (clock_monotone b _ _ Hle).
      destruct (LeasePromiseStore.load f (Some b)) as [r|].
      * destruct (proj1 (Hkept r eq_refl) _ _ _ _ Hg) as [?|[Hto ?]]; [by left|].
        destruct (Hvote Hto) as [-> ->]. right; left. by rewrite Hto.
      * right; right. rewrite Hvote. lia.
    + intros to until [-> ->]%Hent. done.
    + intros to until [-> ->]%Hent Hto.
      destruct (LeasePromiseStore.load f (Some b)) as [r|].
      * destruct Hy as (Hy1 & -> & _). rewrite Hy1 in Hto. by apply Hkept.
      * destruct Hy as (Hy1 & _). congruence.
    + intros r Hst. cbn in Hst. left. unfold LeasePromiseStore.load in Hy.
      rewrite Hst in Hy. rewrite decide_True in Hy by done. by destruct Hy as (-> & -> & _).
Qed.

Lemma restart_ok s a i b a' :
  asim s a → 0 ≤ clock b (now_is a) → (boot (anodes a i) ≤ b)%nat →
  waiting_out clock a i && (b =? boot (anodes a i))%nat = false →
  restart clock period drift renewal pair ps a i b = Some a' →
  ∃ s', asim s' a'.
Proof.
  intros Ha Hb Hle Hsound. unfold restart. pose proof Ha as Ha'. destruct Ha.
  pose proof (as_sim0 i) as Hx. destruct Hx as [? ? ? ? ? Hinv].
  set (x := st (anodes a i)) in *.
  set (f := BackgroundPromiseRecorder.store (recorder x)).
  destruct (start_agent _ _ _ _ _ _ _ _ _ _ _) as [y|] eqn:Hy; [|done].
  intros [= <-].
  (* a record of this boot was written in it, by a process past its wait *)
  assert (Hkept : ∀ r, LeasePromiseStore.load f (Some b) = Some r →
    b = ck (nodes s i) ∧
    promises (net s) i (λ g, expired b g (now_is a) ∨
      (record_to r = inst_id (other i) ∧ clock b g + period ≤ record_until r)) ∧
    (record_to r = inst_id (other i) →
     record_until r ≤ clock b (now_is a) + period + promise_record_margin)).
  { intros r Hl. unfold LeasePromiseStore.load in Hl.
    destruct f as [[wrote r']|] eqn:Hf; [|done]. case_decide; [|done]. simplify_eq.
    assert (b = boot (anodes a i)) as Hbb.
    { pose proof (ri_file_boot _ _ _ _ _ Hinv _ _ Hf). rewrite as_boot0 in *. lia. }
    split; [by rewrite as_boot0|]. subst b.
    rewrite Nat.eqb_refl, andb_true_r in Hsound.
    unfold waiting_out, LeaseVoter.restarting, local_time in Hsound. fold x in Hsound.
    bool_to_prop.
    rewrite as_boot0, as_time0 in Hinv.
    assert (He : entry (agent x) (record_to r) (record_until r)).
    { destruct (ri_file _ _ _ _ _ Hinv _ Hf) as [[-> ->]|[? _]]; find_entry. }
    split.
    - intros c rid e g Hg.
      destruct (ri_covers _ _ _ _ _ Hinv _ _ He _ _ _ _ Hg) as [?|[?|?]];
        [by left|by right|left]. unfold expired. lia.
    - by apply (ri_bound _ _ _ _ _ Hinv). }
  assert (Hreach : reaches i s
    (mk_node (participant_ (agent y)) b (disk_epoch (nodes s i)))).
  { destruct (LeasePromiseStore.load f (Some b)) as [r|] eqn:Hl.
    - destruct (Hkept r eq_refl) as (-> & Hcov & _).
      eapply kept_reaches; try done.
      intros. by eapply (ri_grants _ _ _ _ _ Hinv).
    - by eapply forgetful_reaches. }
  destruct Hreach as (s' & Hsteps & H1 & H2 & H3 & H4 & H5 & H6).
  assert (Hother : ∀ j, j ≠ i → nodes s' j = nodes s j).
  { intros j Hj. destruct (inst_cases i j) as [->| ->]; done. }
  exists s'. constructor; cbn; rewrite ?H1, ?H2, ?H3; try done.
  - destruct as_reachable0 as (s0 & ? & ?). exists s0. split; [done|by etrans].
  - intros j. destruct (decide (j = i)) as [->|Hj]; cbn; [by rewrite H6|].
    by rewrite Hother.
  - intros j. destruct (decide (j = i)) as [->|Hj]; cbn.
    + apply (started_sim i s' b (now_is a) f (EpochRecording.load (epochs x))).
      * by rewrite H1.
      * done.
      * by rewrite H6.
      * by rewrite H6.
      * intros b' r Hf. pose proof (ri_file_boot _ _ _ _ _ Hinv _ _ Hf).
        rewrite as_boot0 in *. lia.
      * rewrite H4, <- as_time0. apply (ri_grants _ _ _ _ _ Hinv).
      * rewrite H4. intros r Hr. by apply Hkept.
    + destruct (as_sim0 j). constructor; rewrite ?Hother; try done.
      * intros m Hm. eapply posted_mono; [|by apply sim_sent1]. by rewrite H4.
      * by rewrite H1, H4.
  - intros j. destruct (decide (j = i)) as [->|Hj]; cbn; [|done].
    by apply start_agent_inv in Hy as (_ & _ & _ & _ & _ & _ & _ & _ & ? & _).
  - intros l Hl. eapply letter_ok_mono; [|by apply as_post0]. by rewrite H4.
Qed.

(** *** The third voter *)

(** A step that leaves the instances where they are. *)
Lemma third_moves s s' a v b ls :
  asim s a → rtc step s s' → time s' = time s → nodes s' = nodes s →
  (∀ m, m ∈ net s → m ∈ net s') →
  (∀ w c rid e g, Grant w c rid e g ∈ net s' →
     Grant w c rid e g ∈ net s ∨ w = third_id) →
  third s' = v → third_ck s' = b →
  (∀ l, l ∈ ls → letter_ok s' l) →
  asim s' (mk_asys (now_is a) (anodes a) v b (ls ++ post a)).
Proof.
  intros [] Hs Ht Hn Hnet Hgr Hv Hb Hls. constructor; cbn; rewrite ?Hn; try done.
  - destruct as_reachable0 as (s0 & ? & ?). exists s0. split; [done|by etrans].
  - by rewrite Ht.
  - intros i. destruct (as_sim0 i). constructor; rewrite ?Hn; try done.
    + intros m Hm. eapply posted_mono; [done|by apply sim_sent0].
    + rewrite Ht. eapply record_inv_frame; [done|lia|].
      intros c rid e g [?|Hi]%Hgr; [done|]. by destruct (inst_id_not_third i).
  - intros l [Hl|Hl]%elem_of_app; [by apply Hls|].
    eapply letter_ok_mono; [done|by apply as_post0].
Qed.

Lemma third_answers_ok s a r :
  asim s a → LRequest third_id r ∈ post a → ∃ s', asim s' (third_answers clock a r).
Proof.
  intros Ha Hin. pose proof Ha as []. destruct (as_post0 _ Hin) as [at_ Hreq].
  unfold third_answers. set (v := third_learns _ _).
  set (s1 := mk_sys (time s) (nodes s) v (third_ck s) (net s)).
  assert (Hs1 : rtc step s s1).
  { unfold s1, v, third_learns. rewrite <- as_third0. case_if; [by destruct s|].
    destruct (LeaseVoter.record_statement _ _) eqn:Hrec; [|by destruct s].
    by eapply rtc_once, step_third_statement. }
  destruct (LeaseVoter.consider v _ _ _) as [v' ans] eqn:Hc.
  rewrite <- as_third_boot0, <- as_time0 in Hc.
  pose proof (step_third_request clock period drift ps s1 _ _ _ at_ v' ans Hreq Hc)
    as Hstep. cbn in Hstep.
  set (s2 := mk_sys _ _ _ _ _) in Hstep.
  assert (Hs2 : rtc step s s2) by (etrans; [exact Hs1|by apply rtc_once]).
  exists s2.
  eapply (third_moves s s2 a v' (athird_boot a) [_]); try done.
  - intros m Hm. cbn. destruct (LeaseVoter.verdict ans); try done. by right.
  - intros w c rid e g Hg. cbn in Hg. destruct (LeaseVoter.verdict ans);
      try (by left). apply elem_of_cons in Hg as [Hg|Hg]; [|by left].
    right. congruence.
  - intros l [->|Hl]%elem_of_cons; [|by apply elem_of_nil in Hl].
    destruct (LeaseVoter.verdict ans) eqn:Hv; cbn; try done.
    exists (time s). by left.
Qed.

Lemma react_ok s a e a' :
  asim s a → sound_event clock a e = true →
  react clock uniform period drift renewal pair ps a e = Some a' →
  ∃ s', asim s' a'.
Proof.
  intros Ha Hsound Hre. pose proof (local_same s a) as Hloc.
  pose proof Ha as Ha'. destruct Ha'.
  destruct e as [t|i t recorded|i k|i k|i k|i arb held alone|i reached|i what|k|i b|b high kept];
    cbn in Hre; cbn in Hsound.
  - case_if; [|done]. simplify_eq. bool_to_prop.
    exists (mk_sys t (nodes s) (third s) (third_ck s) (net s)).
    constructor; cbn; try done.
    + destruct as_reachable0 as (s0 & ? & ?). exists s0. split; [done|].
      etrans; [done|]. apply rtc_once, step_time. lia.
    + intros i. apply sim_time; [done|lia].
  - case_if; [|done]. simplify_eq. bool_to_prop. unfold tick.
    destruct (tick_ok i s (expecting (st (anodes a i)) true
      (clock (boot (anodes a i)) t - local_time clock a i)) t)
      as (s' & Hm & Ht' & Hx'); try done.
    + destruct (as_sim0 i). constructor; try done.
      eapply record_inv_same; [done|by unfold same_records|done].
    + lia.
    + cbn. by rewrite as_boot0, Hloc.
    + exists s'. rewrite Hloc in Hx' by done. by eapply settle_ok.
  - destruct (post a !! k) as [[to r| |]|] eqn:Hk; try done. case_if; [|done].
    bool_to_prop. simplify_eq. apply list_elem_of_lookup_2, as_post0 in Hk as [at_ Hin].
    pose proof (request_from_peer _ _ _ _ _ _ as_reachable0 Hin) as Hc.
    rewrite Hc in *.
    eapply (operate_ok s a i [_] (not_overtaken i)); [done| | |exact Hsound].
    + eapply keeps_on_request. by left.
    + intros m [->|?%elem_of_nil]%elem_of_cons; done.
  - destruct (post a !! k) as [[|to g|]|] eqn:Hk; try done. case_if; [|done].
    bool_to_prop. simplify_eq. apply list_elem_of_lookup_2, as_post0 in Hk as [at_ Hin].
    eapply (operate_ok s a i [_] (λ _, True)); [done| | |exact I].
    + eapply keeps_on_grant. by left.
    + intros m [->|?%elem_of_nil]%elem_of_cons; done.
  - destruct (post a !! k) as [[| |to r]|] eqn:Hk; try done. case_if; [|done].
    simplify_eq. eapply (operate_ok s a i [] (λ _, True)); [done|apply keeps_on_refusal| |exact I].
    by intros m ?%elem_of_nil.
  - simplify_eq. eapply (operate_ok s a i [] (λ _, True)); [done|apply keeps_held| |exact I].
    by intros m ?%elem_of_nil.
  - simplify_eq. eapply (operate_ok s a i [] (λ _, True)); [done|apply keeps_writer| |exact I].
    by intros m ?%elem_of_nil.
  - simplify_eq. eapply (operate_ok s a i [] (λ _, True)); [done|apply keeps_said| |exact I].
    by intros m ?%elem_of_nil.
  - destruct (post a !! k) as [[to r| |]|] eqn:Hk; try done. case_if; [|done].
    bool_to_prop. simplify_eq. apply (third_answers_ok s); [done|].
    by eapply list_elem_of_lookup_2.
  - apply negb_true_iff in Hsound. destruct (_ && (_ <=? _)%nat) eqn:Hg; [|done].
    apply andb_true_iff in Hg as [?%Z.leb_le ?%Nat.leb_le]. by eapply restart_ok.
  - destruct (LeaseVoter.make _ _ _) as [v|] eqn:Hv; [|done]. simplify_eq.
    exists (mk_sys (time s) (nodes s) (LeaseVoter.restore_recorded_statement v kept)
              b (net s)).
    apply (third_moves s _ a _ b []); try done.
    + apply rtc_once. eapply step_third_restart. by rewrite as_time0.
    + by left.
    + by intros l ?%elem_of_nil.
Qed.

(** *** The start *)

Lemma start_ok a :
  0 ≤ clock 0%nat 0 → start clock period drift renewal pair ps = Some a →
  ∃ s, asim s a.
Proof.
  intros Hclock. unfold start.
  destruct (start_agent _ _ _ _ _ _ Primary _ _ _ _) as [x|] eqn:Hx; [|done].
  destruct (start_agent _ _ _ _ _ _ Secondary _ _ _ _) as [y|] eqn:Hy; [|done].
  destruct (LeaseVoter.make _ _ _) as [v|] eqn:Hv; [|done]. intros [= <-].
  pose proof Hx as (_ & Hmx & _ & _ & _ & _ & _ & _ & Hsx & Hpx)%start_agent_inv.
  pose proof Hy as (_ & Hmy & _ & _ & _ & _ & _ & _ & Hsy & Hpy)%start_agent_inv.
  destruct Hpx as (_ & _ & Hpx). destruct Hpy as (_ & _ & Hpy).
  set (p i := fresh i 0 (clock 0%nat 0) LeaderStatement.none).
  set (s0 := mk_sys 0 (λ i, mk_node (p i) 0 0) v 0 []).
  assert (Hr0 : reachable s0).
  { exists s0. split; [|done]. split; [done|]. split; [|by exists 0].
    intros []; by split. }
  assert (Hreach : reaches Secondary s0 (mk_node (participant_ (agent y)) 0 0)).
  { rewrite Hpy. apply (reaches_head_start _ _ (mk_node (p Secondary) 0 0)); [|done].
    by exists s0. }
  destruct Hreach as (s & Hs & H1 & H2 & H3 & H4 & H5 & H6).
  cbn in H1, H2, H3, H4, H5.
  exists s. constructor; cbn; try done.
  - destruct Hr0 as (s00 & ? & ?). exists s00. split; [done|by etrans].
  - intros []; [by rewrite H5|by rewrite H6].
  - intros i.
    assert (Hsim : ∀ j z, start_agent clock period drift renewal pair ps j 0 0 None 0
      = Returns z → nodes s j = mk_node (participant_ (agent z)) 0 0 → sim j s z).
    { intros j z Hz Hnz. apply (started_sim j s 0 0 None 0); try done.
      - by rewrite Hnz.
      - by rewrite Hnz.
      - rewrite H4. by intros c rid e g ?%elem_of_nil. }
    destruct i; cbn; apply Hsim; try done. etrans; [exact H5|]. f_equal. by symmetry.
  - intros []; done.
  - by intros l ?%elem_of_nil.
Qed.

Lemma run_ok s a es b :
  asim s a → sound_run clock uniform period drift renewal pair ps a es = true →
  run clock uniform period drift renewal pair ps a es = Some b →
  ∃ s', asim s' b.
Proof.
  revert s a. induction es as [|e es IH]; intros s a Ha Hsound Hrun; cbn in *.
  { simplify_eq. by exists s. }
  apply andb_true_iff in Hsound as [He Hsound].
  destruct (react _ _ _ _ _ _ _ a e) as [a'|] eqn:Hre; [|done].
  destruct (react_ok _ _ _ _ Ha He Hre) as [s' Ha']. by eapply IH.
Qed.

Lemma never_both s a :
  asim s a →
  agent_acting clock a Primary = true → agent_acting clock a Secondary = true →
  False.
Proof.
  intros Ha H1 H2.
  assert (Hact : ∀ i, agent_acting clock a i = true →
    LeaseParticipant.acting (part (nodes s i)) (local clock s i) = true).
  { intros i Hi. rewrite (local_same s a i Ha).
    by rewrite (sim_part _ _ _ (as_sim _ _ Ha i)). }
  eapply (never_both_acting clock period drift); eauto.
  apply (reachable_inv clock period drift ps); [done..|apply Ha].
Qed.

End safety.
