(* ===== verification/LeaseAgentTheorems.v ===== *)
(** What the agents of a pair keep, and what they do not: the two instances are
    never both leading in a run in which no promise record and no epoch is
    lost, and three runs in which one is. *)

From S2P Require Import Prelude.
From S2P Require Import Lease.
From S2P Require Import LeaseSafety.
From S2P Require Import PairLeaseAgent.
From S2P Require Import LeaseAgents.
From S2P Require Import LeaseAgentSafety.

Local Open Scope Z_scope.

(** ** A matching engine pair, every clock the same *)

Definition one_clock : nat → Z → Z := λ _ t, t.
Definition shortest_wait : Z → Z → nat → Z := λ low _ _, low.

Definition engine_pair_run (es : list event) : option asys :=
  match start one_clock 3000 250 1000 7 LeaseParticipant.SayWhenPeerMayNotLead with
  | Some a => run one_clock shortest_wait 3000 250 1000 7
                LeaseParticipant.SayWhenPeerMayNotLead a es
  | None => None
  end.

Definition both_act (a : option asys) : option (bool * bool) :=
  match a with
  | Some b => Some (agent_acting one_clock b Primary, agent_acting one_clock b Secondary)
  | None => None
  end.

(** The secondary has the promise of its vote written, then grants the primary
    a lease. *)
Definition primary_takes_the_lead : list event :=
  [ETime 3000; ETick Primary 3000 true; ERequest Secondary 1; EWriter Secondary true;
   ETime 4000; ETick Primary 4000 true; ERequest Secondary 1; EGrant Primary 0].

(** At 7000 the promise has run out and the secondary leads with the third
    voter's grant; the write of its record stays under way until 12780.
    Meanwhile it loses the lead, and grants the primary at 12770 on the record
    of the promise of 4000.  The write then ends, and the process is
    restarted. *)
Definition slow_write : list event :=
  primary_takes_the_lead ++
  [ETime 7000; ETick Secondary 7000 true; EThird 0; EGrant Secondary 0;
   ETime 9700; ETick Primary 9700 true; ETime 9760; ETick Secondary 9760 true;
   ETime 12690; ETick Primary 12690 true; ETime 12770; ETick Secondary 12770 true;
   ERequest Secondary 3; EGrant Primary 0;
   ETime 12780; EWriter Secondary true;
   ETime 12800; ERestart Secondary 0; ETick Secondary 12800 true; EThird 0;
   EGrant Secondary 0].

(** At 5000 the primary grants the secondary a lease.  Its machine is up again
    at 5200, the promise forgotten; within the wait of one period a request
    that carries a statement has its record written, with no promise in it,
    and the process is restarted once more. *)
Definition restart_while_waiting : list event :=
  [ETime 4000; ETick Secondary 4000 true; ERequest Primary 1; EWriter Primary true;
   ETime 5000; ETick Secondary 5000 true; ERequest Primary 1; EGrant Secondary 0;
   ETime 5200; ERestart Primary 1; ERequest Primary 1; ETick Primary 5200 true;
   EWriter Primary true;
   ETime 5400; ERestart Primary 1; ETick Primary 5400 true; EThird 0; EGrant Primary 0].

(** At 4000 the secondary asks to lead in an epoch that it could not write down,
    and is restarted before the third voter's grant reaches it.  The primary
    then leads with the third voter.  At 9100 the secondary asks in the same
    epoch, with the same request number, and the first grant reaches it. *)
Definition failed_epoch_write : list event :=
  [ETime 4000; ETick Secondary 4000 false; EThird 0;
   ETime 5000; ERestart Secondary 0;
   ETime 7050; ETick Primary 7050 true; EThird 0; ERefusal Primary 0;
   ETime 9000; ETick Primary 9000 true; EThird 0; EGrant Primary 0;
   ETime 9100; ETick Secondary 9100 true; EGrant Secondary 10].

(** ** Properties *)

(** C1: Two lease agents, with their promise records, their epoch files and
    the background writes of both, never both act as leader, whatever is
    delayed, lost, repeated or restarted, in any run in which none of three
    things happens: a request of the peer's is answered while a write of the
    promise record that names another instance is still under way, a process is
    restarted while it waits out a lease period, and the write of an epoch
    fails, after which the agent asks to lead in it regardless. *)
Theorem two_agents_never_both_act clock uniform period drift renewal pair ps
    a es b :
  (∀ c u t, u ≤ t → clock c u ≤ clock c t) →
  (∀ c d u t, u ≤ t → period ≤ clock c t - clock c u →
              period - drift ≤ clock d t - clock d u) →
  0 ≤ clock 0%nat 0 →
  start clock period drift renewal pair ps = Some a →
  sound_run clock uniform period drift renewal pair ps a es = true →
  run clock uniform period drift renewal pair ps a es = Some b →
  ¬ (agent_acting clock b Primary = true ∧ agent_acting clock b Secondary = true).
Proof.
  intros Hmono Hrates H0 Hstart Hsound Hrun [H1 H2].
  destruct (start_ok clock period drift renewal pair ps Hmono a H0 Hstart) as [s0 Ha].
  destruct (run_ok clock uniform period drift renewal pair ps Hmono Hrates
    s0 a es b Ha Hsound Hrun) as [s Hb].
  by eapply (never_both clock period drift renewal pair ps Hmono Hrates s b).
Qed.

Lemma two_agents_never_both_act_witness :
  both_act (engine_pair_run primary_takes_the_lead) = Some (true, false).
Proof.
  destruct (start one_clock 3000 250 1000 7 LeaseParticipant.SayWhenPeerMayNotLead)
    as [a|] eqn:Ha; [|by vm_compute in Ha].
  destruct (run one_clock shortest_wait 3000 250 1000 7
    LeaseParticipant.SayWhenPeerMayNotLead a primary_takes_the_lead) as [b|] eqn:Hb;
    [|by injection Ha as <-; vm_compute in Hb].
  pose proof (two_agents_never_both_act one_clock shortest_wait 3000 250 1000 7
    LeaseParticipant.SayWhenPeerMayNotLead a primary_takes_the_lead b
    ltac:(unfold one_clock; lia) ltac:(unfold one_clock; lia)
    ltac:(unfold one_clock; lia) Ha
    ltac:(injection Ha as <-; vm_compute; reflexivity) Hb) as Hnot.
  unfold engine_pair_run. rewrite Ha, Hb. cbn [both_act].
  assert (Hp : agent_acting one_clock b Primary = true)
    by (injection Ha as <-; vm_compute in Hb; injection Hb as <-; vm_compute; reflexivity).
  rewrite Hp. destruct (agent_acting one_clock b Secondary) eqn:Hs; [|reflexivity].
  by destruct Hnot.
Defined.

(** A promise record that is still being written when the promise it does
    not name is made ends on disk in place of the one that does: the instance
    that is then restarted takes its old lead for its own promise, and both
    instances lead. *)
Theorem slow_record_write_gives_two_leaders :
  both_act (engine_pair_run slow_write) = Some (true, true).
Proof. vm_compute. reflexivity. Qed.

(** An instance that has forgotten its promises and waits a lease period
    before it votes writes a record with no promise in it when a statement
    reaches it; restarted within the period it trusts that record, and both
    instances lead. *)
Theorem restart_while_waiting_gives_two_leaders :
  both_act (engine_pair_run restart_while_waiting) = Some (true, true).
Proof. vm_compute. reflexivity. Qed.

(** An instance that could not write down the epoch it asked to lead in asks in it
    again after a restart, and takes the grant of the first request, which the
    third voter gave long before, for an answer to the second: both instances
    lead. *)
Theorem failed_epoch_write_gives_two_leaders :
  both_act (engine_pair_run failed_epoch_write) = Some (true, true).
Proof. vm_compute. reflexivity. Qed.
