(* ===== verification/KeyIndex.v ===== *)
(** What the order book asks of its map.

    [KeyIndex] lists the operations of a keyed container that the order book
    calls, each as the state it leaves and its outcome, and [KeyIndexLaws]
    what they promise: the container is a finite map.  RehashMap.v gives the
    instance for pubsub_itc_fw::IncrementalRehashMap; OrderBook.v is written
    and proved against the class. *)

From S2P Require Import Prelude.

Class KeyIndex (I K V : Type) := {
  ix_empty : I;
  (** [find] and the value of the iterator, [None] for [end()]. *)
  ix_lookup : I → K → outcome (option V);
  (** [emplace]: whether the key is new.  The first argument says whether
      memory for a table of so many slots can be had. *)
  ix_emplace : (nat → bool) → I → K → V → I * outcome bool;
  ix_erase : I → K → outcome (I * nat);
  (** The entries a range-based [for] visits, in its order. *)
  ix_walk : I → outcome (list (K * V));
  ix_size : I → nat;
  ix_clear : I → I;
  ix_reserve : (nat → bool) → I → nat → I * outcome unit
}.

Class KeyIndexLaws (I K V : Type) `{Countable K} `{KeyIndex I K V} := {
  ix_ok : I → Prop;
  ix_abs : I → gmap K V;
  ix_empty_ok : ix_ok ix_empty ∧ ix_abs ix_empty = ∅;
  ix_lookup_ok i k : ix_ok i → ix_lookup i k = Returns (ix_abs i !! k);
  ix_emplace_present mem i k v w :
    ix_ok i → ix_abs i !! k = Some w →
    ∃ i', ix_emplace mem i k v = (i', Returns false) ∧
      ix_ok i' ∧ ix_abs i' = ix_abs i;
  ix_emplace_absent mem i k v :
    ix_ok i → ix_abs i !! k = None →
    ∃ i', ix_ok i' ∧
      (ix_emplace mem i k v = (i', Returns true) ∧
         ix_abs i' = <[k := v]> (ix_abs i) ∨
       ix_emplace mem i k v = (i', Throws BadAlloc) ∧
         ix_abs i' = ix_abs i ∧ ∃ n, mem n = false);
  ix_erase_ok i k :
    ix_ok i →
    ∃ i', ix_erase i k
            = Returns (i', if ix_abs i !! k is Some _ then 1 else 0) ∧
      ix_ok i' ∧ ix_abs i' = delete k (ix_abs i);
  ix_walk_ok i :
    ix_ok i → ∃ l, ix_walk i = Returns l ∧ l ≡ₚ map_to_list (ix_abs i);
  ix_size_ok i : ix_ok i → ix_size i = size (ix_abs i);
  ix_clear_ok i : ix_ok i → ix_ok (ix_clear i) ∧ ix_abs (ix_clear i) = ∅;
  ix_reserve_ok mem i n :
    ix_ok i →
    ∃ i' r, ix_reserve mem i n = (i', r) ∧ ix_ok i' ∧ ix_abs i' = ix_abs i ∧
      (r = Returns () ∨ r = Throws BadAlloc ∧ ∃ n, mem n = false)
}.
