(* ===== verification/RehashMap.v ===== *)
(** The incremental hash map: pubsub_itc_fw/IncrementalRehashMap.hpp.

    [RehashMap] is the class, one definition per member function: open
    addressing with linear probing and tombstones, and growth that moves a few
    slots per operation from the table being replaced to its successor.  The
    state array and the entry array of a [Table] are one list of slots here,
    an entry existing exactly in an occupied slot.  The hash function and the
    number of slots moved per operation are the class's template parameters,
    and whether memory for a new table can be had is an argument of the
    operations that allocate.

    The theorems show that the map is a finite map whatever the hash function
    does, while a migration is in flight as much as when it is settled: the
    operations refine those of [gmap], a lookup loses no entry, no loop turns
    for ever and no slot is read outside its table.  With the eight slots per
    operation the code uses, the incoming table is never full before the
    migration ends, so no operation moves more than eight slots. *)

From S2P Require Import Prelude KeyIndex.
#[local] Open Scope venue_scope.

Module RehashMap.

Section map.
Context {K V : Type} `{Countable K}.
(** [Hash] and [MigrationSlotsPerOperation]. *)
Context (hash : K → N) (migration_slots_per_operation : nat).

Inductive Slot :=
  | Empty
  | Occupied (k : K) (v : V)
  | Tombstone.

Record Table := mk_table {
  slots : list Slot;
  capacity : nat;
  mask : nat;
  live : nat;
  used : nat
}.

(** [Table{}]. *)
Definition no_table : Table := mk_table [] 0 0 0 0.

Record t := mk {
  current : Table;
  next : Table;
  migration_cursor : nat;
  size : nat
}.

Definition minimum_capacity : nat := 16.

(** A default-constructed map, which allocates nothing. *)
Definition make_empty : t := mk no_table no_table 0 0.

Definition is_occupied (s : Slot) : bool :=
  match s with Occupied _ _ => true | _ => false end.

Definition is_empty (s : Slot) : bool :=
  match s with Empty => true | _ => false end.

Definition is_migrating (m : t) : bool := 0 <? capacity (next m).

Definition map_capacity (m : t) : nat := capacity (current m) + capacity (next m).

Definition migration_slots_remaining (m : t) : nat :=
  if is_migrating m then capacity (current m) - migration_cursor m else 0.

(** Reading [states[slot]] and [entries[slot]]. *)
Definition slot_at (tb : Table) (i : nat) : outcome Slot :=
  match slots tb !! i with
  | Some s => Returns s
  | None => Throws UndefinedBehaviour
  end.

(** [capacity_for]: the loop doubles from the minimum, so as many turns as
    there are entries are enough. *)
Fixpoint grow_until (fuel wanted entry_count : nat) : nat :=
  match fuel with
  | O => wanted
  | S fuel => if wanted `div` 2 <? entry_count
              then grow_until fuel (wanted * 2) entry_count else wanted
  end.

Definition capacity_for (entry_count : nat) : nat :=
  grow_until entry_count minimum_capacity entry_count.

(** [allocate_table]: [mem c] says whether memory for [c] slots can be had. *)
Definition allocate_table (mem : nat → bool) (table_capacity : nat)
    : outcome Table :=
  if mem table_capacity
  then Returns (mk_table (replicate table_capacity Empty) table_capacity
                         (table_capacity - 1) 0 0)
  else Throws BadAlloc.

Definition destroy_entries (tb : Table) : Table :=
  mk_table (replicate (length (slots tb)) Empty) (capacity tb) (mask tb) 0 0.

Definition first_slot (tb : Table) (hash_value : N) : nat :=
  N.to_nat (N.land hash_value (N.of_nat (mask tb))).

Definition following_slot (tb : Table) (slot : nat) : nat :=
  Nat.land (slot + 1) (mask tb).

(** [find_slot]: the probe loop, bounded by the capacity. *)
Fixpoint probe_for (turns : nat) (tb : Table) (key : K) (slot : nat)
    : outcome nat :=
  match turns with
  | O => Returns (capacity tb)
  | S turns =>
      match slot_at tb slot with
      | Throws e => Throws e
      | Returns Empty => Returns (capacity tb)
      | Returns (Occupied k _) =>
          if bool_decide (k = key) then Returns slot
          else probe_for turns tb key (following_slot tb slot)
      | Returns Tombstone => probe_for turns tb key (following_slot tb slot)
      end
  end.

Definition find_slot (tb : Table) (key : K) (hash_value : N) : outcome nat :=
  if capacity tb =? 0 then Returns 0
  else probe_for (capacity tb) tb key (first_slot tb hash_value).

(** [find_free_slot]: the loop has no bound of its own.  The slots it visits
    repeat after as many turns as the table has slots, so a loop that has not
    left by then never does. *)
Fixpoint probe_free (turns : nat) (tb : Table) (slot : nat) : outcome nat :=
  match turns with
  | O => Throws DoesNotReturn
  | S turns =>
      match slot_at tb slot with
      | Throws e => Throws e
      | Returns s => if is_occupied s
                     then probe_free turns tb (following_slot tb slot)
                     else Returns slot
      end
  end.

Definition find_free_slot (tb : Table) (hash_value : N) : outcome nat :=
  probe_free (S (capacity tb)) tb (first_slot tb hash_value).

Definition construct_at (tb : Table) (slot : nat) (key : K) (value : V)
    : outcome Table :=
  match slot_at tb slot with
  | Throws e => Throws e
  | Returns previous =>
      Returns (mk_table (<[slot := Occupied key value]> (slots tb))
                 (capacity tb) (mask tb) (live tb + 1)
                 (if is_empty previous then used tb + 1 else used tb))
  end.

(** [ConstIterator]: which table, and which slot of it. *)
Record ConstIterator := mk_iter { table_index : nat; slot_index : nat }.

#[global] Instance iter_eq_dec : EqDecision ConstIterator.
Proof. solve_decision. Defined.

Definition table_for (m : t) (index : nat) : Table :=
  match index with O => current m | S _ => next m end.

Definition end_ : ConstIterator := mk_iter 2 0.

(** The inner loop of [advance_to_occupied]: the first occupied slot at or
    after [i], the list being the slots from [i] on. *)
Fixpoint occupied_from (l : list Slot) (i : nat) : option nat :=
  match l with
  | [] => None
  | s :: l => if is_occupied s then Some i else occupied_from l (i + 1)
  end.

Definition advance_to_occupied (m : t) (it : ConstIterator) : ConstIterator :=
  match table_index it with
  | O => match occupied_from (drop (slot_index it) (slots (current m)))
                             (slot_index it) with
         | Some i => mk_iter 0 i
         | None => match occupied_from (slots (next m)) 0 with
                   | Some i => mk_iter 1 i
                   | None => end_
                   end
         end
  | 1 => match occupied_from (drop (slot_index it) (slots (next m)))
                             (slot_index it) with
         | Some i => mk_iter 1 i
         | None => end_
         end
  | _ => end_
  end.

Definition begin (m : t) : ConstIterator := advance_to_occupied m (mk_iter 0 0).

(** [operator++] and [operator*]. *)
Definition next_iter (m : t) (it : ConstIterator) : ConstIterator :=
  advance_to_occupied m (mk_iter (table_index it) (slot_index it + 1)).

Definition deref (m : t) (it : ConstIterator) : outcome (K * V) :=
  match slots (table_for m (table_index it)) !! slot_index it with
  | Some (Occupied k v) => Returns (k, v)
  | _ => Throws UndefinedBehaviour
  end.

(** A range-based [for] over the map, as the list of the entries it visits. *)
Fixpoint visit (turns : nat) (m : t) (it : ConstIterator)
    : outcome (list (K * V)) :=
  if bool_decide (it = end_) then Returns []
  else match turns with
       | O => Throws DoesNotReturn
       | S turns =>
           let! e := deref m it in
           let! l := visit turns m (next_iter m it) in
           Returns (e :: l)
       end.

Definition for_each (m : t) : outcome (list (K * V)) :=
  visit (map_capacity m) m (begin m).

(** [find]. *)
Definition find (m : t) (key : K) : outcome ConstIterator :=
  let in_current :=
    let! slot := find_slot (current m) key (hash key) in
    if slot =? capacity (current m) then Returns end_
    else Returns (advance_to_occupied m (mk_iter 0 slot)) in
  if is_migrating m then
    let! slot := find_slot (next m) key (hash key) in
    if slot =? capacity (next m) then in_current
    else Returns (advance_to_occupied m (mk_iter 1 slot))
  else in_current.

Definition count (m : t) (key : K) : outcome nat :=
  let! it := find m key in
  Returns (if bool_decide (it = end_) then 0 else 1).

(** [it->second] for the iterator [find] returned, or [None] at [end()]. *)
Definition lookup (m : t) (key : K) : outcome (option V) :=
  let! it := find m key in
  if bool_decide (it = end_) then Returns None
  else let! e := deref m it in Returns (Some (e.2)).

(** [move_slot]. *)
Definition move_slot (m : t) (slot : nat) : outcome t :=
  match slot_at (current m) slot with
  | Throws e => Throws e
  | Returns (Occupied k v) =>
      let! destination := find_free_slot (next m) (hash k) in
      let nx := next m in
      let cu := current m in
      Returns (mk
        (mk_table (<[slot := Tombstone]> (slots cu)) (capacity cu) (mask cu)
                  (live cu - 1) (used cu))
        (mk_table (<[destination := Occupied k v]> (slots nx)) (capacity nx)
                  (mask nx) (live nx + 1) (used nx + 1))
        (migration_cursor m) (size m))
  | Returns _ => Returns m
  end.

Definition finish_migration (m : t) : t := mk (next m) no_table 0 (size m).

(** The loop of [step_migration]. *)
Fixpoint move_slots (turns : nat) (m : t) : outcome t :=
  match turns with
  | O => Returns m
  | S turns =>
      if migration_cursor m <? capacity (current m) then
        let! m' := move_slot m (migration_cursor m) in
        move_slots turns (mk (current m') (next m') (migration_cursor m' + 1)
                             (size m'))
      else Returns m
  end.

Definition step_migration (m : t) : outcome t :=
  if is_migrating m then
    let! m' := move_slots migration_slots_per_operation m in
    Returns (if capacity (current m') <=? migration_cursor m'
             then finish_migration m' else m')
  else Returns m.

(** [complete_migration]: a step moves the cursor, so as many steps as there
    are slots to examine, and the one that ends, are enough. *)
Fixpoint step_until_settled (turns : nat) (m : t) : outcome t :=
  if is_migrating m then
    match turns with
    | O => Throws DoesNotReturn
    | S turns => let! m' := step_migration m in step_until_settled turns m'
    end
  else Returns m.

Definition complete_migration (m : t) : outcome t :=
  step_until_settled (S (capacity (current m))) m.

Definition begin_migration (mem : nat → bool) (m : t) (target_capacity : nat)
    : outcome t :=
  let! table := allocate_table mem target_capacity in
  Returns (mk (current m) table 0 (size m)).

(** [make_room_for_one].  The state is kept when memory cannot be had, the
    migration having been completed by then. *)
Definition grow (mem : nat → bool) (m : t) : t * outcome unit :=
  let target_capacity :=
    if capacity (current m) <? live (current m) * 2 * 2
    then capacity (current m) * 2 else capacity (current m) in
  match begin_migration mem m target_capacity with
  | Returns m' => (m', Returns ())
  | Throws e => (m, Throws e)
  end.

Definition make_room_for_one (mem : nat → bool) (m : t) : t * outcome unit :=
  if (capacity (current m) =? 0) && negb (is_migrating m) then
    match allocate_table mem minimum_capacity with
    | Returns table => (mk table (next m) (migration_cursor m) (size m),
                        Returns ())
    | Throws e => (m, Throws e)
    end
  else
    let target := if is_migrating m then next m else current m in
    if (used target + 1) * 2 <=? capacity target then (m, Returns ())
    else if is_migrating m then
           match complete_migration m with
           | Returns m' => grow mem m'
           | Throws e => (m, Throws e)
           end
         else grow mem m.

Inductive AssignExisting := AssignNo | AssignYes.

(** Assigning through [entries[slot].entry.second]. *)
Definition assign_at (tb : Table) (slot : nat) (value : V) : Table :=
  match slots tb !! slot with
  | Some (Occupied k _) =>
      mk_table (<[slot := Occupied k value]> (slots tb)) (capacity tb)
               (mask tb) (live tb) (used tb)
  | _ => tb
  end.

Definition with_table (m : t) (index : nat) (tb : Table) : t :=
  match index with
  | O => mk tb (next m) (migration_cursor m) (size m)
  | S _ => mk (current m) tb (migration_cursor m) (size m)
  end.

(** The slot an insert found its key in, and the table. *)
Definition find_existing (m : t) (key : K) : outcome (option (nat * nat)) :=
  let in_current :=
    let! slot := find_slot (current m) key (hash key) in
    if slot =? capacity (current m) then Returns None
    else Returns (Some (0, slot)) in
  if is_migrating m then
    let! slot := find_slot (next m) key (hash key) in
    if slot =? capacity (next m) then in_current
    else Returns (Some (1, slot))
  else in_current.

(** [find_value]: the pointer it returns, as the place of the value in the
    tables, and writing through it. *)
Definition find_value (m : t) (key : K) : outcome (option (nat * nat)) :=
  find_existing m key.

Definition write_value (m : t) (place : nat * nat) (value : V) : t :=
  with_table m (place.1) (assign_at (table_for m (place.1)) (place.2) value).

(** The last part of [insert_entry], when there is room. *)
Definition construct_new (m : t) (key : K) (value : V)
    : t * outcome (ConstIterator * bool) :=
  let index := if is_migrating m then 1 else 0 in
  let target := table_for m index in
  match find_free_slot target (hash key) with
  | Throws e => (m, Throws e)
  | Returns slot =>
      match construct_at target slot key value with
      | Throws e => (m, Throws e)
      | Returns table =>
          let m' := with_table m index table in
          let m'' := mk (current m') (next m') (migration_cursor m')
                        (size m' + 1) in
          (m'', Returns (advance_to_occupied m'' (mk_iter index slot), true))
      end
  end.

Definition insert_entry (mem : nat → bool) (m : t) (key : K) (value : V)
    (assign : AssignExisting) : t * outcome (ConstIterator * bool) :=
  match step_migration m with
  | Throws e => (m, Throws e)
  | Returns m =>
      match find_existing m key with
      | Throws e => (m, Throws e)
      | Returns (Some (index, slot)) =>
          let m' := match assign with
                    | AssignYes => with_table m index
                                     (assign_at (table_for m index) slot value)
                    | AssignNo => m
                    end in
          (m', Returns (advance_to_occupied m' (mk_iter index slot), false))
      | Returns None =>
          match make_room_for_one mem m with
          | (m, Throws e) => (m, Throws e)
          | (m, Returns _) => construct_new m key value
          end
      end
  end.

Definition emplace (mem : nat → bool) (m : t) (key : K) (value : V) :=
  insert_entry mem m key value AssignNo.

Definition insert_or_assign (mem : nat → bool) (m : t) (key : K) (value : V) :=
  insert_entry mem m key value AssignYes.

(** [erase(ConstIterator)], and the iterator to the following entry.  The
    removal comes before the migration step, which may move entries. *)
Definition remove_at (m : t) (position : ConstIterator) : t :=
  let index := table_index position in
  let tb := table_for m index in
  let m1 := with_table m index
    (mk_table (<[slot_index position := Tombstone]> (slots tb)) (capacity tb)
              (mask tb) (live tb - 1) (used tb)) in
  mk (current m1) (next m1) (migration_cursor m) (size m - 1).

Definition erase_at (m : t) (position : ConstIterator)
    : outcome (t * ConstIterator) :=
  if bool_decide (position = end_) then Returns (m, end_)
  else
    match slot_at (table_for m (table_index position)) (slot_index position) with
    | Throws e => Throws e
    | Returns _ =>
        let m1 := remove_at m position in
        let following := advance_to_occupied m1
          (mk_iter (table_index position) (slot_index position + 1)) in
        let! m2 := step_migration m1 in
        Returns (m2, following)
    end.

(** [erase(const Key&)]. *)
Definition erase (m : t) (key : K) : outcome (t * nat) :=
  let! position := find m key in
  if bool_decide (position = end_)
  then let! m' := step_migration m in Returns (m', 0)
  else let! r := erase_at m position in Returns (r.1, 1).

Definition reserve (mem : nat → bool) (m : t) (entry_count : nat)
    : t * outcome unit :=
  let wanted := capacity_for entry_count in
  if (size m =? 0) && negb (is_migrating m) then
    if capacity (current m) <? wanted then
      match allocate_table mem wanted with
      | Returns table => (mk table (next m) (migration_cursor m) (size m),
                          Returns ())
      | Throws e => (m, Throws e)
      end
    else (m, Returns ())
  else if (capacity (current m) <? wanted) && negb (is_migrating m) then
    match begin_migration mem m wanted with
    | Returns m' => (m', Returns ())
    | Throws e => (m, Throws e)
    end
  else (m, Returns ()).

Definition clear (m : t) : t := mk (destroy_entries (current m)) no_table 0 0.

(** Move construction: the tables transfer as they stand, and the map moved
    from is left empty. *)
Definition move_from (other : t) : t * t := (other, make_empty).

End map.

End RehashMap.

Import RehashMap.

(** ** Tables *)

Section tables.
Context {K V : Type} `{Countable K}.
Context (hash : K → N).

Implicit Types (tb : Table (K:=K) (V:=V)) (k : K) (v w : V).

Abbreviation occupied_slot := (is_occupied (K:=K) (V:=V)).

Fixpoint count_slots (p : Slot (K:=K) (V:=V) → bool) l : nat :=
  match l with
  | [] => 0
  | s :: l => Nat.b2n (p s) + count_slots p l
  end.

Definition not_empty (s : Slot (K:=K) (V:=V)) : bool := negb (is_empty s).

(** The array of a table, its capacity and its mask go together. *)
Record table_shape tb : Prop := {
  shape_len : length (slots tb) = capacity tb;
  shape_pow : ∃ n, 4 ≤ n ∧ capacity tb = 2 ^ n;
  shape_mask : mask tb = capacity tb - 1
}.

Definition home tb k : nat := first_slot tb (hash k).

(** The slot a probe that starts at [s] reaches after [d] turns. *)
Definition probe tb (s d : nat) : nat := (s + d) mod capacity tb.

(** No lookup of [k] stops before slot [i]. *)
Definition reaches tb k (i : nat) : Prop :=
  ∃ d, d < capacity tb ∧ i = probe tb (home tb k) d ∧
       ∀ d', d' < d → slots tb !! probe tb (home tb k) d' ≠ Some Empty.

Record table_ok tb : Prop := {
  ok_shape : table_shape tb;
  ok_live : live tb = count_slots is_occupied (slots tb);
  ok_used : count_slots not_empty (slots tb) ≤ used tb;
  ok_reaches : ∀ i k v, slots tb !! i = Some (Occupied k v) → reaches tb k i;
  ok_unique : ∀ i j k v w, slots tb !! i = Some (Occupied k v) →
                slots tb !! j = Some (Occupied k w) → i = j
}.

Definition slot_entry (s : Slot (K:=K) (V:=V)) : option (K * V) :=
  match s with Occupied k v => Some (k, v) | _ => None end.

Definition entries tb : list (K * V) := omap slot_entry (slots tb).

(** What a table holds. *)
Definition contents tb : gmap K V := list_to_map (entries tb).

Lemma count_slots_insert p l i x y :
  l !! i = Some y →
  count_slots p (<[i := x]> l) + Nat.b2n (p y)
    = count_slots p l + Nat.b2n (p x).
Proof.
  revert i. induction l as [|z l IH]; intros [|i] Hi; simplify_eq/=; [lia|].
  specialize (IH i Hi). lia.
Qed.

Lemma count_slots_replicate p n x :
  count_slots p (replicate n x) = n * Nat.b2n (p x).
Proof. induction n; simpl; lia. Qed.

Lemma count_slots_le p q l :
  (∀ s, p s = true → q s = true) → count_slots p l ≤ count_slots q l.
Proof.
  intros Hpq. induction l as [|s l IH]; simpl; [done|].
  specialize (Hpq s). destruct (p s), (q s); simpl; lia || by discriminate Hpq.
Qed.

Lemma count_slots_lt p l :
  count_slots p l < length l → ∃ i s, l !! i = Some s ∧ p s = false.
Proof.
  induction l as [|s l IH]; simpl; intros Hlt; [lia|].
  destruct (p s) eqn:Hs; [|by exists 0, s].
  destruct IH as (i & s' & ? & ?); [simpl in Hlt; lia|]. by exists (S i), s'.
Qed.

Lemma count_occupied_used tb :
  table_ok tb → live tb ≤ used tb.
Proof.
  intros Hok. rewrite (ok_live _ Hok). etrans; [|apply (ok_used _ Hok)].
  apply count_slots_le. by intros [].
Qed.

(** *** Probing *)

Lemma shape_capacity_16 tb : table_shape tb → 16 ≤ capacity tb.
Proof.
  intros [_ (n & Hn & ->) _]. by apply (Nat.pow_le_mono_r 2 4).
Qed.

Lemma shape_capacity_pos tb : table_shape tb → 0 < capacity tb.
Proof. intros Hs%shape_capacity_16. lia. Qed.

Lemma following_slot_mod tb s :
  table_shape tb → following_slot tb s = (s + 1) mod capacity tb.
Proof.
  intros [_ (n & _ & Hn) Hm]. unfold following_slot. rewrite Hm, Hn.
  replace (2 ^ n - 1) with (Nat.ones n) by (rewrite Nat.ones_equiv; lia).
  apply Nat.land_ones.
Qed.

Lemma first_slot_lt tb h : table_shape tb → first_slot tb h < capacity tb.
Proof.
  intros [_ (n & _ & Hn) Hm]. unfold first_slot. rewrite Hm, Hn.
  replace (N.of_nat (2 ^ n - 1)) with (N.ones (N.of_nat n)).
  - rewrite N.land_ones. pose proof (N.mod_lt h (2 ^ N.of_nat n)) as Hlt.
    rewrite <- (Nat2N.id (2 ^ n)), Nat2N.inj_pow. simpl. lia.
  - rewrite N.ones_equiv, Nat2N.inj_sub, Nat2N.inj_pow. simpl. lia.
Qed.

Lemma home_lt tb k : table_shape tb → home tb k < capacity tb.
Proof. apply first_slot_lt. Qed.

Lemma probe_lt tb s d : table_shape tb → probe tb s d < capacity tb.
Proof.
  intros Hs. apply Nat.mod_upper_bound.
  pose proof (shape_capacity_pos _ Hs). lia.
Qed.

Lemma probe_0 tb s : s < capacity tb → probe tb s 0 = s.
Proof. intros. unfold probe. rewrite Nat.add_0_r. by apply Nat.mod_small. Qed.

Lemma probe_succ tb s d :
  table_shape tb →
  following_slot tb (probe tb s d) = probe tb s (S d).
Proof.
  intros Hs. rewrite following_slot_mod by done. unfold probe.
  rewrite Nat.Div0.add_mod_idemp_l. f_equal. lia.
Qed.

(** A probe visits every slot of the table. *)
Lemma probe_covers tb s i :
  s < capacity tb → i < capacity tb →
  ∃ d, d < capacity tb ∧ probe tb s d = i.
Proof.
  intros Hs Hi. unfold probe. destruct (decide (s ≤ i)).
  - exists (i - s). split; [lia|]. rewrite Nat.mod_small; lia.
  - exists (i + capacity tb - s). split; [lia|].
    replace (s + (i + capacity tb - s)) with (i + 1 * capacity tb) by lia.
    rewrite Nat.Div0.mod_add. by apply Nat.mod_small.
Qed.

Lemma slot_at_lt tb i :
  table_shape tb → i < capacity tb →
  ∃ s, slots tb !! i = Some s ∧ slot_at tb i = Returns s.
Proof.
  intros Hs Hi. destruct (lookup_lt_is_Some_2 (slots tb) i) as [s Hl].
  { by rewrite shape_len. }
  exists s. unfold slot_at. by rewrite Hl.
Qed.

(** The loop of [find_slot] from turn [d] on, when the key is in slot [i]. *)
Lemma probe_for_found tb k v i turns d n :
  table_shape tb →
  slots tb !! i = Some (Occupied k v) →
  (∀ j w, slots tb !! j = Some (Occupied k w) → i = j) →
  (∀ d', d' < d + n → slots tb !! probe tb (home tb k) d' ≠ Some Empty) →
  probe tb (home tb k) (d + n) = i → n < turns →
  probe_for turns tb k (probe tb (home tb k) d) = Returns i.
Proof.
  intros Hs Hi Hu Hne Hp Hlt. revert d n Hne Hp Hlt.
  induction turns as [|turns IH]; intros d n Hne Hp Hlt; [lia|]. simpl.
  destruct (slot_at_lt tb (probe tb (home tb k) d)) as (s & Hl & ->);
    [done|by apply probe_lt|].
  destruct n as [|n].
  { rewrite Nat.add_0_r in Hp. rewrite Hp in Hl |- *. simplify_eq/=.
    by rewrite bool_decide_eq_true_2. }
  rewrite probe_succ by done.
  assert (probe_for turns tb k (probe tb (home tb k) (S d)) = Returns i) as IH'.
  { apply (IH (S d) n); [|by rewrite <- Hp; f_equal; lia|lia].
    intros d' ?. apply Hne. lia. }
  destruct s as [|k' v'|].
  - exfalso. apply (Hne d); [lia|done].
  - case_bool_decide; [|done]. subst. f_equal. by rewrite (Hu _ _ Hl).
  - done.
Qed.

Lemma probe_for_absent tb k turns d :
  table_shape tb →
  (∀ j w, slots tb !! j ≠ Some (Occupied k w)) →
  probe_for turns tb k (probe tb (home tb k) d) = Returns (capacity tb).
Proof.
  intros Hs Ha. revert d. induction turns as [|turns IH]; intros d; [done|].
  simpl. destruct (slot_at_lt tb (probe tb (home tb k) d)) as (s & Hl & ->);
    [done|by apply probe_lt|].
  rewrite probe_succ by done. destruct s as [|k' v'|]; [done| |done].
  case_bool_decide; [|done]. subst. by destruct (Ha _ _ Hl).
Qed.

Lemma find_slot_found tb k v i :
  table_ok tb → slots tb !! i = Some (Occupied k v) →
  find_slot tb k (hash k) = Returns i ∧ i < capacity tb.
Proof.
  intros Hok Hi. pose proof (ok_shape _ Hok) as Hs.
  pose proof (shape_capacity_pos _ Hs).
  destruct (ok_reaches _ Hok _ _ _ Hi) as (d & Hd & -> & Hne).
  split; [|by apply probe_lt].
  unfold find_slot. destruct (Nat.eqb_spec (capacity tb) 0); [lia|].
  rewrite <- (probe_0 tb (first_slot tb (hash k))) at 1 by (by apply home_lt).
  apply (probe_for_found tb k v _ _ 0 d); try done.
  intros j w Hj. by apply (ok_unique _ Hok _ _ _ _ _ Hi Hj).
Qed.

Lemma find_slot_absent tb k :
  table_shape tb → (∀ j w, slots tb !! j ≠ Some (Occupied k w)) →
  find_slot tb k (hash k) = Returns (capacity tb).
Proof.
  intros Hs Ha. unfold find_slot.
  destruct (Nat.eqb_spec (capacity tb) 0); [congruence|].
  rewrite <- (probe_0 tb (first_slot tb (hash k))) at 1 by (by apply home_lt).
  by apply probe_for_absent.
Qed.

(** [find_free_slot] leaves its loop when some slot is not occupied, at a slot
    every lookup of the key reaches. *)
Lemma probe_free_found tb k turns d n :
  table_shape tb →
  (∀ d', d' < d → slots tb !! probe tb (home tb k) d' ≠ Some Empty) →
  (∀ s, slots tb !! probe tb (home tb k) (d + n) = Some s →
        is_occupied s = false) →
  d + n < capacity tb → n < turns →
  ∃ i s, probe_free turns tb (probe tb (home tb k) d) = Returns i ∧
    slots tb !! i = Some s ∧ is_occupied s = false ∧ reaches tb k i.
Proof.
  intros Hs. revert d n. induction turns as [|turns IH];
    intros d n Hne Hfree Hlt Hn; [lia|]. simpl.
  destruct (slot_at_lt tb (probe tb (home tb k) d)) as (s & Hl & ->);
    [done|by apply probe_lt|].
  destruct (is_occupied s) eqn:Ho.
  - rewrite probe_succ by done.
    destruct n as [|n].
    { rewrite Nat.add_0_r in Hfree. by rewrite (Hfree _ Hl) in Ho. }
    apply (IH (S d) n); [|by rewrite Nat.add_succ_r in Hfree|lia|lia].
    intros d' Hd'. destruct (decide (d' = d)) as [->|].
    + rewrite Hl. by destruct s.
    + apply Hne. lia.
  - exists (probe tb (home tb k) d), s. repeat split; try done.
    exists d. repeat split; [lia|done].
Qed.

Lemma find_free_slot_found tb k :
  table_shape tb → count_slots is_occupied (slots tb) < capacity tb →
  ∃ i s, find_free_slot tb (hash k) = Returns i ∧
    slots tb !! i = Some s ∧ is_occupied s = false ∧ reaches tb k i.
Proof.
  intros Hs Hc. rewrite <- (shape_len _ Hs) in Hc.
  destruct (count_slots_lt _ _ Hc) as (j & s & Hj & Ho).
  assert (Hjl : j < capacity tb).
  { rewrite <- shape_len by done. by eapply lookup_lt_Some. }
  destruct (probe_covers tb (home tb k) j) as (d & Hd & Hp);
    [by apply home_lt|done|].
  assert (Hf := probe_free_found tb k (S (capacity tb)) 0 d Hs).
  rewrite probe_0 in Hf by (by apply home_lt). apply Hf; try (done || lia).
  simpl. rewrite Hp. intros ? ?. by simplify_eq.
Qed.

(** *** Changing a slot *)

Lemma reaches_insert tb tb' k i j x :
  slots tb' = <[j := x]> (slots tb) → capacity tb' = capacity tb →
  mask tb' = mask tb → x ≠ Empty → reaches tb k i → reaches tb' k i.
Proof.
  intros Hsl Hc Hm Hx (d & Hd & -> & Hne).
  assert (∀ d, probe tb' (home tb' k) d = probe tb (home tb k) d) as Hp.
  { intros ?. unfold probe, home, first_slot. by rewrite Hc, Hm. }
  exists d. rewrite Hc, Hp. repeat split; try done.
  intros d' Hd'. rewrite Hp, Hsl. destruct (decide (j = probe tb (home tb k) d'))
    as [->|].
  - destruct (decide (probe tb (home tb k) d' < length (slots tb))).
    + rewrite list_lookup_insert_eq by done. congruence.
    + rewrite lookup_ge_None_2; [done|]. rewrite length_insert. lia.
  - rewrite list_lookup_insert_ne by done. by apply Hne.
Qed.

Lemma shape_insert tb j x l u :
  table_shape tb →
  table_shape (mk_table (<[j := x]> (slots tb)) (capacity tb) (mask tb) l u).
Proof. intros []. split; simpl; [by rewrite length_insert|done|done]. Qed.

(** Any slot may be marked occupied or a tombstone, provided the counts follow
    and a lookup of the key written reaches the slot and finds it nowhere
    else. *)
Lemma table_ok_set tb i s x l u :
  table_ok tb → slots tb !! i = Some s → x ≠ Empty →
  l + Nat.b2n (is_occupied s) = live tb + Nat.b2n (is_occupied x) →
  used tb + Nat.b2n (is_empty s) ≤ u →
  (∀ k v, x = Occupied k v →
     reaches tb k i ∧ ∀ j w, slots tb !! j = Some (Occupied k w) → j = i) →
  table_ok (mk_table (<[i := x]> (slots tb)) (capacity tb) (mask tb) l u).
Proof.
  intros Hok Hi Hx Hl Hu Hk. pose proof (lookup_lt_Some _ _ _ Hi) as Hlt.
  split; simpl.
  - by apply shape_insert, ok_shape.
  - pose proof (count_slots_insert is_occupied _ _ x _ Hi).
    rewrite (ok_live _ Hok) in Hl. lia.
  - pose proof (count_slots_insert not_empty _ _ x _ Hi).
    pose proof (ok_used _ Hok). unfold not_empty in *.
    destruct (is_empty s), x; simpl in *; done || lia.
  - intros j k v Hj. eapply reaches_insert; try done.
    apply list_lookup_insert_Some in Hj as [(?&?&?)|[? Hj]]; simplify_eq.
    + by destruct (Hk _ _ eq_refl).
    + by eapply ok_reaches.
  - intros j j' k v w Hj Hj'.
    apply list_lookup_insert_Some in Hj as [(?&?&?)|[? Hj]];
      apply list_lookup_insert_Some in Hj' as [(?&?&?)|[? Hj']]; simplify_eq.
    + done.
    + destruct (Hk _ _ eq_refl) as [_ Hone]. by rewrite (Hone _ _ Hj').
    + destruct (Hk _ _ eq_refl) as [_ Hone]. by rewrite (Hone _ _ Hj).
    + by eapply ok_unique.
Qed.

(** *** What a table holds *)

Lemma slot_keys_nodup l :
  (∀ i j k v w, l !! i = Some (Occupied k v) → l !! j = Some (Occupied k w) →
     i = j) →
  NoDup (omap slot_entry l).*1.
Proof.
  induction l as [|s l IH]; intros Hu; [constructor|].
  assert (NoDup (omap slot_entry l).*1) as Hl.
  { apply IH. intros i j k v w Hi Hj. enough (S i = S j) by lia.
    by apply (Hu (S i) (S j) k v w). }
  destruct s as [|k v|]; simpl; [done| |done]. constructor; [|done].
  intros ([k' w] & -> & Hin)%list_elem_of_fmap.
  apply list_elem_of_omap in Hin as (s & Hin & Hs).
  apply list_elem_of_lookup in Hin as [j Hj].
  destruct s; simplify_eq/=. by discriminate (Hu 0 (S j) _ _ _ eq_refl Hj).
Qed.

Lemma lookup_contents tb k v :
  table_ok tb →
  contents tb !! k = Some v ↔ ∃ i, slots tb !! i = Some (Occupied k v).
Proof.
  intros Hok. unfold contents, entries.
  rewrite <- elem_of_list_to_map
    by (apply slot_keys_nodup; intros; by eapply ok_unique).
  rewrite list_elem_of_omap. split.
  - intros (s & [i Hi]%list_elem_of_lookup & Hs). destruct s; simplify_eq/=.
    by exists i.
  - intros [i Hi]. exists (Occupied k v). split; [|done].
    by eapply list_elem_of_lookup_2.
Qed.

Lemma lookup_contents_None tb k :
  table_ok tb →
  contents tb !! k = None ↔ ∀ i v, slots tb !! i ≠ Some (Occupied k v).
Proof.
  intros Hok. rewrite eq_None_not_Some. split.
  - intros Hn i v Hi. apply Hn. exists v. apply lookup_contents; eauto.
  - intros Hn [v Hv]. apply lookup_contents in Hv as [i Hi]; [|done].
    by apply (Hn i v).
Qed.

Lemma size_contents tb : table_ok tb → base.size (contents tb) = live tb.
Proof.
  intros Hok. unfold contents. rewrite map_size_list_to_map
    by (apply slot_keys_nodup; intros; by eapply ok_unique).
  rewrite (ok_live _ Hok). unfold entries. clear Hok.
  induction (slots tb) as [|[] l IH]; simpl; auto.
Qed.

(** Writing an entry for a key the table does not hold elsewhere. *)
Lemma contents_occupy tb tb' i s k v :
  table_ok tb → table_ok tb' → slots tb !! i = Some s →
  slots tb' = <[i := Occupied k v]> (slots tb) →
  (is_occupied s = false ∨ ∃ w, s = Occupied k w) →
  contents tb' = <[k := v]> (contents tb).
Proof.
  intros Hok Hok' Hi Hsl Hs. pose proof (lookup_lt_Some _ _ _ Hi) as Hlt.
  apply map_eq. intros k'. apply option_eq. intros w.
  rewrite lookup_contents, Hsl by done. rewrite lookup_insert_Some.
  rewrite lookup_contents by done. split.
  - intros [j Hj].
    apply list_lookup_insert_Some in Hj as [(?&?&?)|[Hne Hj]];
      simplify_eq; [by left|].
    right. split; [|by exists j]. intros ->.
    apply Hne. eapply (ok_unique _ Hok' i j); rewrite Hsl.
    + by rewrite list_lookup_insert_eq.
    + by rewrite list_lookup_insert_ne.
  - intros [[-> ->]|[Hne [j Hj]]].
    + exists i. by rewrite list_lookup_insert_eq.
    + exists j. rewrite list_lookup_insert_ne; [done|]. intros ->.
      rewrite Hi in Hj. injection Hj as ->.
      destruct Hs as [?|[? ?]]; [done|congruence].
Qed.

(** Leaving a tombstone where an entry was. *)
Lemma contents_bury tb tb' i k v :
  table_ok tb → table_ok tb' → slots tb !! i = Some (Occupied k v) →
  slots tb' = <[i := Tombstone]> (slots tb) →
  contents tb' = delete k (contents tb).
Proof.
  intros Hok Hok' Hi Hsl. apply map_eq. intros k'. apply option_eq. intros w.
  rewrite lookup_contents, Hsl by done. rewrite lookup_delete_Some.
  rewrite lookup_contents by done. split.
  - intros [j Hj].
    apply list_lookup_insert_Some in Hj as [(?&?&?)|[Hne Hj]]; simplify_eq.
    split; [|by exists j]. intros ->. apply Hne.
    exact (ok_unique _ Hok _ _ _ _ _ Hi Hj).
  - intros [Hne [j Hj]]. exists j. rewrite list_lookup_insert_ne; [done|].
    intros ->. by simplify_eq.
Qed.

(** A table just allocated, or cleared. *)
Lemma table_ok_fresh n l u :
  4 ≤ n →
  table_ok (mk_table (replicate (2 ^ n) Empty) (2 ^ n) (2 ^ n - 1) 0 u)
  ∧ contents (mk_table (replicate (2 ^ n) Empty) (2 ^ n) (2 ^ n - 1) l u) = ∅.
Proof.
  intros Hn. split; [split; simpl|].
  - split; simpl; [apply length_replicate|by exists n|done].
  - by rewrite count_slots_replicate, Nat.mul_0_r.
  - rewrite count_slots_replicate, Nat.mul_0_r. lia.
  - by intros ? ? ? [? _]%lookup_replicate.
  - by intros ? ? ? ? ? [? _]%lookup_replicate.
  - unfold contents, entries. simpl. by induction (2 ^ n).
Qed.

End tables.

(** ** The map *)

Section map_proofs.
Context {K V : Type} `{Countable K}.
Context (hash : K → N) (per_op : nat).

Implicit Types (m : RehashMap.t (K:=K) (V:=V)) (tb : Table (K:=K) (V:=V))
  (k : K) (v w : V).

Abbreviation table_ok := (table_ok hash).

(** The finite map a state stands for: the entries of both tables. *)
Definition abs m : gmap K V := contents (next m) ∪ contents (current m).

(** A settled map has one table, or none yet. *)
Record settled_ok m : Prop := {
  settled_next : next m = no_table;
  settled_current : current m = no_table ∨
    (table_ok (current m) ∧ used (current m) < capacity (current m))
}.

(** A map in migration: everything before the cursor has moved, no key is in
    both tables, and the incoming table has room for what is still to move. *)
Record migrating_ok m : Prop := {
  mig_current : table_ok (current m);
  mig_next : table_ok (next m);
  mig_cursor : migration_cursor m ≤ capacity (current m);
  mig_moved : ∀ i s, i < migration_cursor m →
    slots (current m) !! i = Some s → is_occupied s = false;
  mig_disjoint : contents (current m) ##ₘ contents (next m);
  mig_half : 2 * live (current m) < capacity (next m);
  mig_room : used (next m) + live (current m) < capacity (next m)
}.

Record map_ok m : Prop := {
  ok_size : size m = base.size (abs m);
  ok_state : settled_ok m ∨ migrating_ok m
}.

Lemma contents_no_table : contents (no_table (K:=K) (V:=V)) = ∅.
Proof. done. Qed.

Lemma settled_not_migrating m : settled_ok m → is_migrating m = false.
Proof. intros [Hn _]. unfold is_migrating. by rewrite Hn. Qed.

Lemma migrating_is_migrating m : migrating_ok m → is_migrating m = true.
Proof.
  intros Hm. unfold is_migrating. apply Nat.ltb_lt.
  by eapply shape_capacity_pos, ok_shape, mig_next.
Qed.

Lemma abs_settled m : settled_ok m → abs m = contents (current m).
Proof.
  intros [Hn _]. unfold abs. rewrite Hn, contents_no_table.
  apply map_empty_union.
Qed.

(** *** Migration *)

(** What moving slots keeps, and by how much the two tables' loads change. *)
Record moved m m' : Prop := {
  moved_ok : migrating_ok m';
  moved_abs : abs m' = abs m;
  moved_size : size m' = size m;
  moved_cap : capacity (current m') = capacity (current m);
  moved_cap_next : capacity (next m') = capacity (next m);
  moved_load : used (next m') + live (current m')
                 = used (next m) + live (current m)
}.

Definition with_cursor m c : RehashMap.t := mk (current m) (next m) c (size m).

Lemma move_slot_moved m :
  migrating_ok m → migration_cursor m < capacity (current m) →
  ∃ m', move_slot hash m (migration_cursor m) = Returns m' ∧
    migration_cursor m' = migration_cursor m ∧
    moved m (with_cursor m' (migration_cursor m + 1)).
Proof.
  intros Hm Hc. destruct (Hm) as [Hcu Hnx _ Hmv Hdis Hhalf Hroom].
  destruct (slot_at_lt (current m) (migration_cursor m)) as (s & Hl & Hs);
    [by eapply ok_shape|done|].
  assert (Hskip : is_occupied s = false →
    moved m (with_cursor m (migration_cursor m + 1))).
  { intros Ho. split; try done. split; simpl; try done; [lia|].
    intros i s' Hi Hl'. destruct (decide (i = migration_cursor m)) as [->|].
    - by simplify_eq.
    - apply (Hmv i); [lia|done]. }
  unfold move_slot. rewrite Hs. destruct s as [|k v|]; [eauto| |eauto].
  pose proof (count_occupied_used _ _ Hnx) as Hlu.
  destruct (find_free_slot_found hash (next m) k) as (d & s & -> & Hd & Ho & Hr).
  { by eapply ok_shape. }
  { rewrite <- (ok_live _ _ Hnx). lia. }
  assert (contents (current m) !! k = Some v) as Hk.
  { apply (lookup_contents hash); eauto. }
  assert (contents (next m) !! k = None) as Hkn.
  { by eapply map_disjoint_Some_l. }
  assert (∀ i w, slots (next m) !! i ≠ Some (Occupied k w)) as Habs.
  { by apply (lookup_contents_None hash). }
  assert (0 < live (current m)) as Hlive.
  { rewrite <- (size_contents _ _ Hcu). apply Nat.neq_0_lt_0.
    apply map_size_non_empty_iff. intros He. by rewrite He in Hk. }
  simpl. eexists. split; [done|]. split; [done|].
  match goal with |- moved _ (with_cursor (mk ?c ?n _ _) _) =>
    assert (table_ok c) as Hcu'; [|assert (table_ok n) as Hnx'] end.
  { eapply (table_ok_set hash _ _ _ Tombstone); try done; simpl; lia. }
  { eapply (table_ok_set hash _ _ s (Occupied k v)); try done.
    - rewrite Ho. simpl. lia.
    - destruct (is_empty s); simpl; lia.
    - intros k' v' [= <- <-]. split; [done|]. intros j w Hj.
      by destruct (Habs j w). }
  assert (Hc' := contents_bury hash _ _ _ _ _ Hcu Hcu' Hl eq_refl).
  assert (Hn' := contents_occupy hash _ _ _ _ k v Hnx Hnx' Hd eq_refl
                   (or_introl Ho)).
  split; simpl; try done; [split; simpl; try done| |lia].
  - lia.
  - intros i s' Hi Hl'.
    apply list_lookup_insert_Some in Hl' as [(?&?&?)|[? Hl']]; simplify_eq;
      [done|]. apply (Hmv i); [lia|done].
  - rewrite Hc', Hn'. apply map_disjoint_insert_r. split.
    + apply lookup_delete_eq.
    + by apply map_disjoint_delete_l.
  - lia.
  - lia.
  - unfold abs; simpl. rewrite Hc', Hn'.
    rewrite <- insert_union_l, insert_union_r by done.
    by rewrite insert_delete_id.
Qed.

Lemma moved_refl m : migrating_ok m → moved m m.
Proof. by split. Qed.

Lemma moved_trans m1 m2 m3 : moved m1 m2 → moved m2 m3 → moved m1 m3.
Proof. intros [] []. split; congruence. Qed.

Lemma move_slots_moved n m :
  migrating_ok m →
  ∃ m', move_slots hash n m = Returns m' ∧ moved m m' ∧
    migration_cursor m' = (migration_cursor m + n) `min` capacity (current m).
Proof.
  revert m. induction n as [|n IH]; intros m Hm; simpl.
  { exists m. pose proof (mig_cursor _ Hm).
    split; [done|]. split; [by apply moved_refl|lia]. }
  destruct (Nat.ltb_spec (migration_cursor m) (capacity (current m))) as [Hc|Hc].
  - destruct (move_slot_moved m Hm Hc) as (m1 & -> & Hc1 & Hmv). simpl.
    rewrite Hc1. destruct (IH _ (moved_ok _ _ Hmv)) as (m2 & Hr & Hmv2 & Hc2).
    exists m2. split; [done|]. split; [by eapply moved_trans|].
    rewrite Hc2, (moved_cap _ _ Hmv). simpl. lia.
  - exists m. pose proof (mig_cursor _ Hm).
    split; [done|]. split; [by apply moved_refl|lia].
Qed.

(** At the end of a migration nothing is left in the outgoing table. *)
Lemma migrated_empty m :
  migrating_ok m → migration_cursor m = capacity (current m) →
  contents (current m) = ∅ ∧ live (current m) = 0.
Proof.
  intros Hm Hc. assert (contents (current m) = ∅) as He.
  { apply map_empty. intros k.
    apply (lookup_contents_None hash); [apply Hm|]. intros i v Hi.
    pose proof (lookup_lt_Some _ _ _ Hi) as Hlt.
    rewrite (shape_len _ (ok_shape _ _ (mig_current _ Hm))), <- Hc in Hlt.
    by discriminate (mig_moved _ Hm _ _ Hlt Hi). }
  split; [done|]. rewrite <- (size_contents hash _ (mig_current _ Hm)), He.
  apply map_size_empty.
Qed.

Lemma finish_migration_settled m :
  migrating_ok m → migration_cursor m = capacity (current m) →
  settled_ok (finish_migration m) ∧ abs (finish_migration m) = abs m ∧
  used (next m) = used (next m) + live (current m).
Proof.
  intros Hm Hc. destruct (migrated_empty m Hm Hc) as [He Hl].
  pose proof (mig_room _ Hm). split; [|split; [|lia]].
  - split; simpl; [done|]. right. split; [apply Hm|lia].
  - unfold abs. simpl. rewrite He, contents_no_table, map_union_empty.
    apply map_empty_union.
Qed.

(** One step either goes on with the migration or ends it. *)
Lemma step_migration_migrating m :
  migrating_ok m →
  ∃ m', step_migration hash per_op m = Returns m' ∧
    abs m' = abs m ∧ size m' = size m ∧
    (moved m m' ∧ migration_cursor m' = migration_cursor m + per_op ∧
       migration_cursor m' < capacity (current m) ∨
     settled_ok m' ∧ capacity (current m') = capacity (next m) ∧
       used (current m') = used (next m) + live (current m)).
Proof.
  intros Hm. unfold step_migration. rewrite migrating_is_migrating by done.
  destruct (move_slots_moved per_op m Hm) as (m1 & -> & Hmv & Hc). simpl.
  pose proof (moved_cap _ _ Hmv) as Hcap.
  destruct (Nat.leb_spec (capacity (current m1)) (migration_cursor m1)).
  - destruct (finish_migration_settled m1) as (Hs & Ha & Hu);
      [apply Hmv|lia|]. eexists. split; [done|].
    split; [by rewrite Ha; apply Hmv|]. split; [apply Hmv|]. right.
    split; [done|]. simpl. split; [apply Hmv|].
    rewrite Hu. apply Hmv.
  - exists m1. split; [done|]. split; [apply Hmv|]. split; [apply Hmv|].
    left. split; [done|]. lia.
Qed.

Lemma step_migration_settled m :
  settled_ok m → step_migration hash per_op m = Returns m.
Proof.
  intros Hm. unfold step_migration. by rewrite settled_not_migrating.
Qed.

(** A step of the migration is not visible. *)
Lemma step_migration_ok m :
  map_ok m →
  ∃ m', step_migration hash per_op m = Returns m' ∧ map_ok m' ∧
    abs m' = abs m ∧ size m' = size m.
Proof.
  intros [Hs [Hm|Hm]].
  - exists m. rewrite step_migration_settled by done.
    split; [done|]. split; [|done]. split; auto.
  - destruct (step_migration_migrating m Hm) as (m' & -> & Ha & Hsz & Hcase).
    exists m'. split; [done|]. split; [|done]. split; [by rewrite Ha, Hsz|].
    destruct Hcase as [[Hmv _]|[Hset _]]; [right; apply Hmv|by left].
Qed.

(** [complete_migration] ends. *)
Lemma step_until_settled_ok turns m :
  0 < per_op → migrating_ok m →
  capacity (current m) - migration_cursor m < turns →
  ∃ m', step_until_settled hash per_op turns m = Returns m' ∧
    settled_ok m' ∧ abs m' = abs m ∧ size m' = size m ∧
    capacity (current m') = capacity (next m).
Proof.
  intros Hpos. revert m. induction turns as [|turns IH]; intros m Hm Hlt; [lia|].
  simpl. rewrite migrating_is_migrating by done.
  destruct (step_migration_migrating m Hm) as (m1 & -> & Ha & Hsz & Hcase).
  simpl. destruct Hcase as [(Hmv & Hc & Hlt')|(Hset & Hcap & _)].
  - destruct (IH m1) as (m2 & -> & Hset & Ha2 & Hs2 & Hc2);
      [apply Hmv|rewrite (moved_cap _ _ Hmv); lia|].
    exists m2. split; [done|]. split; [done|].
    split; [congruence|]. split; [congruence|].
    rewrite Hc2. apply Hmv.
  - exists m1. split; [|done].
    destruct turns; simpl; by rewrite settled_not_migrating.
Qed.

Lemma complete_migration_ok m :
  0 < per_op → migrating_ok m →
  ∃ m', complete_migration hash per_op m = Returns m' ∧
    settled_ok m' ∧ abs m' = abs m ∧ size m' = size m ∧
    capacity (current m') = capacity (next m).
Proof.
  intros Hpos Hm. apply step_until_settled_ok; [done..|]. lia.
Qed.

(** *** Lookups *)

Lemma advance_occupied m i k v index :
  slots (table_for m index) !! i = Some (Occupied k v) → index < 2 →
  advance_to_occupied m (mk_iter index i) = mk_iter index i ∧
  deref m (mk_iter index i) = Returns (k, v).
Proof.
  intros Hi Hlt. unfold deref. simpl. rewrite Hi. split; [|done].
  destruct index as [|[|]]; [| |lia];
    unfold advance_to_occupied, table_for in *; simpl in *.
  all: by rewrite (drop_S _ _ _ Hi).
Qed.

(** Where an insert or a lookup finds a key. *)
Definition key_at m k v (place : nat * nat) : Prop :=
  place.1 < 2 ∧
  slots (table_for m place.1) !! place.2 = Some (Occupied k v) ∧
  place.2 < capacity (table_for m place.1).

Definition find_result m k (r : option (nat * nat)) : Prop :=
  match r with
  | Some place => ∃ v, key_at m k v place ∧ abs m !! k = Some v
  | None => abs m !! k = None
  end.

Lemma find_in_table tb k :
  table_ok tb →
  match contents tb !! k with
  | Some v => ∃ i, find_slot tb k (hash k) = Returns i ∧ i < capacity tb ∧
                   slots tb !! i = Some (Occupied k v)
  | None => find_slot tb k (hash k) = Returns (capacity tb)
  end.
Proof.
  intros Hok. destruct (contents tb !! k) as [v|] eqn:Hk.
  - apply (lookup_contents hash) in Hk as [i Hi]; [|done].
    exists i. destruct (find_slot_found hash tb k v i Hok Hi). done.
  - apply find_slot_absent; [by eapply ok_shape|].
    by apply (lookup_contents_None hash).
Qed.

Lemma find_existing_ok m k :
  map_ok m → ∃ r, find_existing hash m k = Returns r ∧ find_result m k r.
Proof.
  intros [_ [Hm|Hm]]; unfold find_existing.
  - rewrite settled_not_migrating by done. unfold find_result.
    rewrite abs_settled by done. destruct (settled_current _ Hm) as [Hc|[Hc _]].
    + exists None. by rewrite Hc.
    + pose proof (find_in_table (current m) k Hc) as Hf.
      destruct (contents (current m) !! k) as [v|] eqn:Hk.
      * destruct Hf as (i & -> & Hlt & Hi). simpl.
        destruct (Nat.eqb_spec i (capacity (current m))); [lia|].
        exists (Some (0, i)). split; [done|]. exists v. split; [|done].
        split; simpl; [lia|done].
      * rewrite Hf. simpl. rewrite Nat.eqb_refl. by exists None.
  - rewrite migrating_is_migrating by done. unfold find_result, abs.
    pose proof (find_in_table _ k (mig_next _ Hm)) as Hf.
    destruct (contents (next m) !! k) as [v|] eqn:Hk.
    + destruct Hf as (i & -> & Hlt & Hi). simpl.
      destruct (Nat.eqb_spec i (capacity (next m))); [lia|].
      exists (Some (1, i)). split; [done|]. exists v.
      split; [split; simpl; [lia|done]|]. by apply lookup_union_Some_l.
    + rewrite Hf. simpl. rewrite Nat.eqb_refl.
      pose proof (find_in_table _ k (mig_current _ Hm)) as Hf'.
      destruct (contents (current m) !! k) as [v|] eqn:Hk'.
      * destruct Hf' as (i & -> & Hlt & Hi). simpl.
        destruct (Nat.eqb_spec i (capacity (current m))); [lia|].
        exists (Some (0, i)). split; [done|]. exists v.
        split; [split; simpl; [lia|done]|]. by rewrite lookup_union_r.
      * rewrite Hf'. simpl. rewrite Nat.eqb_refl. exists None.
        split; [done|]. by apply lookup_union_None.
Qed.

Lemma find_as_existing m k :
  find hash m k = obind (find_existing hash m k) (λ r, Returns
    match r with
    | Some p => advance_to_occupied m (mk_iter (p.1) (p.2))
    | None => end_
    end).
Proof.
  unfold find, find_existing. destruct (is_migrating m); simpl;
    [destruct (find_slot (next m) k (hash k)); [simpl; case_if|done]|];
    try done; destruct (find_slot (current m) k (hash k)); try done; simpl;
    by case_if.
Qed.

(** An iterator [find] returns points at the entry of the key. *)
Lemma find_ok m k :
  map_ok m →
  match abs m !! k with
  | Some v => ∃ it, find hash m k = Returns it ∧ it ≠ end_ ∧
                    key_at m k v (table_index it, slot_index it) ∧
                    deref m it = Returns (k, v)
  | None => find hash m k = Returns end_
  end.
Proof.
  intros Hm. rewrite find_as_existing.
  destruct (find_existing_ok m k Hm) as ([[index i]|] & -> & Hr); simpl in *.
  - destruct Hr as (v & (Hlt & Hi & Hc) & ->). simpl in *.
    destruct (advance_occupied m i k v index Hi Hlt) as [-> Hd].
    exists (mk_iter index i). repeat split; try done.
    intros [= -> ->]. lia.
  - by rewrite Hr.
Qed.

Lemma lookup_abs m k : map_ok m → lookup hash m k = Returns (abs m !! k).
Proof.
  intros Hm. pose proof (find_ok m k Hm) as Hf. unfold lookup.
  destruct (abs m !! k) as [v|].
  - destruct Hf as (it & -> & Hne & _ & Hd). simpl.
    rewrite bool_decide_eq_false_2 by done. by rewrite Hd.
  - by rewrite Hf.
Qed.

(** *** Inserting *)

Definition room m : Prop :=
  (migrating_ok m ∧ (used (next m) + 1) * 2 ≤ capacity (next m)) ∨
  (settled_ok m ∧ table_ok (current m) ∧
   (used (current m) + 1) * 2 ≤ capacity (current m)).

Lemma allocate_table_ok (mem : nat → bool) n :
  4 ≤ n →
  match allocate_table (K:=K) (V:=V) mem (2 ^ n) with
  | Returns tb => table_ok tb ∧ capacity tb = 2 ^ n ∧ used tb = 0 ∧
                  contents tb = ∅
  | Throws e => e = BadAlloc ∧ mem (2 ^ n) = false
  end.
Proof.
  intros Hn. unfold allocate_table. destruct (mem (2 ^ n)); [|done].
  destruct (table_ok_fresh hash (V:=V) n 0 0 Hn) as [Hok Hc]. done.
Qed.

Lemma double_pow tb :
  table_ok tb → ∃ n, 4 ≤ n ∧ capacity tb * 2 = 2 ^ n.
Proof.
  intros Hok. destruct (shape_pow _ (ok_shape _ _ Hok)) as (n & Hn & ->).
  exists (S n). split; [lia|]. simpl. lia.
Qed.

(** Starting a migration to a table of at least twice the live entries. *)
Lemma begin_migration_ok (mem : nat → bool) m n :
  map_ok m → settled_ok m → table_ok (current m) → 4 ≤ n →
  2 * live (current m) < 2 ^ n →
  match begin_migration mem m (2 ^ n) with
  | Returns m' => map_ok m' ∧ migrating_ok m' ∧ abs m' = abs m ∧
      size m' = size m ∧ used (next m') = 0 ∧ capacity (next m') = 2 ^ n ∧
      current m' = current m ∧ migration_cursor m' = 0
  | Throws e => e = BadAlloc ∧ mem (2 ^ n) = false
  end.
Proof.
  intros Hm Hset Hcu Hn Hl. unfold begin_migration.
  pose proof (allocate_table_ok mem n Hn) as Ha.
  destruct (allocate_table mem (2 ^ n)) as [tb|e]; [|done].
  destruct Ha as (Hok & Hcap & Hu & Hc). simpl.
  assert (abs (mk (current m) tb 0 (size m)) = abs m) as Habs.
  { rewrite (abs_settled m) by done. unfold abs. simpl.
    rewrite Hc. apply map_empty_union. }
  assert (migrating_ok (mk (current m) tb 0 (size m))) as Hmig.
  { split; simpl; try done; [lia|lia| |lia|lia].
    rewrite Hc. apply map_disjoint_empty_r. }
  split; [split; [by rewrite Habs; apply Hm|by right]|]. done.
Qed.

(** The outcome of making room: the map keeps what it holds, and either there
    is room or memory could not be had. *)
Definition roomy (mem : nat → bool) m (res : RehashMap.t * outcome unit) : Prop :=
  map_ok res.1 ∧ abs res.1 = abs m ∧ size res.1 = size m ∧
  (res.2 = Returns () ∧ room res.1 ∨
   res.2 = Throws BadAlloc ∧ ∃ c, mem c = false).

Lemma roomy_self mem m : map_ok m → room m → roomy mem m (m, Returns ()).
Proof. unfold roomy. simpl. auto 10. Qed.

Lemma grow_ok (mem : nat → bool) m :
  map_ok m → settled_ok m → table_ok (current m) →
  used (current m) < capacity (current m) →
  roomy mem m (grow mem m).
Proof.
  intros Hm Hset Hcu Hlt. unfold grow.
  pose proof (count_occupied_used _ _ Hcu) as Hlu.
  pose proof (shape_capacity_16 _ (ok_shape _ _ Hcu)) as H16.
  match goal with |- context [begin_migration mem m ?c] =>
    assert (∃ n, 4 ≤ n ∧ c = 2 ^ n ∧ 2 * live (current m) < 2 ^ n)
      as (n & Hn & Heq & Hl) end.
  { destruct (double_pow _ Hcu) as (n & Hn & Hd).
    destruct (shape_pow _ (ok_shape _ _ Hcu)) as (n' & Hn' & Hd').
    destruct (Nat.ltb_spec (capacity (current m)) (live (current m) * 2 * 2)).
    - exists n. lia.
    - exists n'. lia. }
  rewrite Heq. pose proof (begin_migration_ok mem m n Hm Hset Hcu Hn Hl) as Hb.
  destruct (begin_migration mem m (2 ^ n)) as [m'|e].
  - destruct Hb as (Hok & Hmig & Ha & Hs & Hu & Hc & _ & _).
    split; [done|]. split; [done|]. split; [done|]. left. split; [done|].
    left. split; [done|]. simpl. rewrite Hu, Hc.
    pose proof (Nat.pow_le_mono_r 2 4 n). simpl in *. lia.
  - destruct Hb as [-> Hmem]. unfold roomy. simpl. eauto 10.
Qed.

Lemma first_table_roomy (mem : nat → bool) m :
  map_ok m → settled_ok m → current m = no_table →
  roomy mem m
    match allocate_table mem minimum_capacity with
    | Returns table => (mk table (next m) (migration_cursor m) (size m),
                        Returns ())
    | Throws e => (m, Throws e)
    end.
Proof.
  intros Hm Hset Hc. pose proof (allocate_table_ok mem 4 ltac:(lia)) as Ha.
  change (2 ^ 4) with minimum_capacity in Ha. unfold roomy.
  destruct (allocate_table mem minimum_capacity) as [tb|e]; simpl.
  - destruct Ha as (Hok & Hcap & Hu & He).
    assert (settled_ok (mk tb (next m) (migration_cursor m) (size m))) as Hset'.
    { split; simpl; [apply Hset|]. right. rewrite Hcap, Hu. split; [done|].
      unfold minimum_capacity. lia. }
    assert (abs (mk tb (next m) (migration_cursor m) (size m)) = abs m) as Habs.
    { by rewrite !abs_settled, Hc, contents_no_table by done. }
    split; [split; [rewrite Habs; apply Hm|by left]|].
    split; [done|]. split; [done|]. left. split; [done|]. right.
    split; [done|]. simpl. rewrite Hu, Hcap. unfold minimum_capacity.
    split; [done|lia].
  - destruct Ha as [-> Hmem]. eauto 10.
Qed.

Lemma make_room_ok (mem : nat → bool) m :
  0 < per_op → map_ok m → roomy mem m (make_room_for_one hash per_op mem m).
Proof.
  intros Hpos Hm. unfold make_room_for_one.
  destruct (ok_state _ Hm) as [Hset|Hmig].
  - rewrite settled_not_migrating by done. rewrite andb_true_r.
    destruct (settled_current _ Hset) as [Hc|[Hc Hu]].
    { rewrite Hc. by apply first_table_roomy. }
    pose proof (shape_capacity_pos _ (ok_shape _ _ Hc)).
    destruct (Nat.eqb_spec (capacity (current m)) 0); [lia|].
    destruct (Nat.leb_spec ((used (current m) + 1) * 2)
                           (capacity (current m))); [|by apply grow_ok].
    apply roomy_self; [done|]. by right.
  - rewrite migrating_is_migrating by done. rewrite andb_false_r.
    destruct (Nat.leb_spec ((used (next m) + 1) * 2) (capacity (next m))).
    { apply roomy_self; [done|]. by left. }
    destruct (complete_migration_ok m Hpos Hmig)
      as (m1 & -> & Hset & Ha & Hs & Hcap).
    assert (map_ok m1) as Hm1.
    { split; [rewrite Hs, Ha; apply Hm|by left]. }
    pose proof (shape_capacity_pos _ (ok_shape _ _ (mig_next _ Hmig))).
    destruct (settled_current _ Hset) as [Hc|[Hc Hu]].
    { rewrite Hc in Hcap. simpl in Hcap. lia. }
    destruct (grow_ok mem m1 Hm1 Hset Hc Hu) as (Hok & Ha2 & Hs2 & Hr).
    unfold roomy. by rewrite Ha2, Hs2.
Qed.

(** Filing a new key in a table with room. *)
Lemma file_new_ok tb k v :
  table_ok tb → (used tb + 1) * 2 ≤ capacity tb → contents tb !! k = None →
  ∃ i tb', find_free_slot tb (hash k) = Returns i ∧
    construct_at tb i k v = Returns tb' ∧ table_ok tb' ∧
    contents tb' = <[k := v]> (contents tb) ∧
    capacity tb' = capacity tb ∧ used tb' ≤ used tb + 1 ∧
    slots tb' !! i = Some (Occupied k v).
Proof.
  intros Hok Hroom Hk. pose proof (ok_shape _ _ Hok) as Hsh.
  pose proof (shape_capacity_pos _ Hsh) as Hpos.
  pose proof (count_occupied_used _ _ Hok) as Hlu.
  destruct (find_free_slot_found hash tb k) as (i & s & Hf & Hi & Ho & Hreach);
    [done|rewrite <- (ok_live _ _ Hok); lia|].
  rewrite (lookup_contents_None hash) in Hk by done.
  exists i. unfold construct_at, slot_at. rewrite Hi. eexists.
  split; [done|]. split; [done|].
  match goal with |- table_ok ?tb' ∧ _ => assert (table_ok tb') as Hok' end.
  { eapply (table_ok_set hash _ _ s (Occupied k v)); try done.
    - rewrite Ho. simpl. lia.
    - destruct (is_empty s); simpl; lia.
    - intros k' v' [= <- <-]. split; [done|]. intros j w Hj.
      by destruct (Hk j w). }
  split; [done|].
  split; [by apply (contents_occupy hash _ _ _ _ k v Hok Hok' Hi); auto|].
  split; [done|]. split; [simpl; destruct (is_empty s); lia|].
  by apply list_lookup_insert_eq, (lookup_lt_Some _ _ _ Hi).
Qed.

Lemma construct_new_ok m k v :
  map_ok m → room m → abs m !! k = None →
  ∃ m' it, construct_new hash m k v = (m', Returns (it, true)) ∧ map_ok m' ∧
    abs m' = <[k := v]> (abs m) ∧ deref m' it = Returns (k, v).
Proof.
  intros Hm Hr Hk. unfold abs in Hk.
  apply lookup_union_None in Hk as [Hkn Hkc]. unfold construct_new.
  assert (∀ m', size m' = S (size m) → abs m' = <[k := v]> (abs m) →
    settled_ok m' ∨ migrating_ok m' → map_ok m') as Hsize.
  { intros m' Hs Ha Hst. split; [|done].
    rewrite Hs, Ha, map_size_insert_None by (by apply lookup_union_None).
    by rewrite (ok_size _ Hm). }
  destruct Hr as [[Hmig Hr]|(Hset & Hc & Hr)].
  - rewrite migrating_is_migrating by done.
    destruct (file_new_ok _ k v (mig_next _ Hmig) Hr Hkn)
      as (i & tb & Hf & Hcon & Hok & Hct & Hcap & Hu & Hi).
    cbv zeta. simpl. rewrite Hf, Hcon. set (m' := mk _ _ _ _).
    destruct (advance_occupied m' i k v 1 Hi) as [-> Hd]; [lia|].
    assert (abs m' = <[k := v]> (abs m)) as Ha.
    { unfold abs. simpl. rewrite Hct. symmetry. apply insert_union_l. }
    exists m', (mk_iter 1 i). split; [done|]. split; [|done].
    apply Hsize; [simpl; lia|done|]. right.
    pose proof (mig_half _ Hmig). split; simpl; try apply Hmig; try done.
    + rewrite Hct. apply map_disjoint_insert_r. split; [done|]. apply Hmig.
    + lia.
    + lia.
  - rewrite settled_not_migrating by done.
    destruct (file_new_ok _ k v Hc Hr Hkc)
      as (i & tb & Hf & Hcon & Hok & Hct & Hcap & Hu & Hi).
    cbv zeta. simpl. rewrite Hf, Hcon. set (m' := mk _ _ _ _).
    destruct (advance_occupied m' i k v 0 Hi) as [-> Hd]; [lia|].
    assert (abs m' = <[k := v]> (abs m)) as Ha.
    { unfold abs. simpl. rewrite Hct. by rewrite insert_union_r. }
    exists m', (mk_iter 0 i). split; [done|]. split; [|done].
    apply Hsize; [simpl; lia|done|]. left.
    split; simpl; [apply Hset|]. right. split; [done|].
    pose proof (shape_capacity_pos _ (ok_shape _ _ Hok)). lia.
Qed.

(** Changing the entry of one occupied slot: the value of the key, or a
    tombstone in its place. *)
Record touched tb tb' : Prop := {
  touched_ok : table_ok tb';
  touched_capacity : capacity tb' = capacity tb;
  touched_used : used tb' = used tb;
  touched_live : live tb' ≤ live tb;
  touched_slots : ∀ i s, slots tb !! i = Some s → is_occupied s = false →
    slots tb' !! i = Some s;
  touched_dom : dom (contents tb') ⊆ dom (contents tb)
}.

Lemma touched_state m k v p tb' c :
  map_ok m → key_at m k v p → touched (table_for m p.1) tb' →
  settled_ok (mk (current (with_table m p.1 tb')) (next (with_table m p.1 tb'))
                 (migration_cursor m) c) ∨
  migrating_ok (mk (current (with_table m p.1 tb'))
                   (next (with_table m p.1 tb')) (migration_cursor m) c).
Proof.
  intros Hm (Hp & Hi & _) []. destruct p as [index i]; simpl in *.
  destruct (ok_state _ Hm) as [Hset|Hmig].
  - left. destruct index as [|[|]]; [| |lia]; unfold table_for in *; simpl in *.
    + split; simpl; [apply Hset|].
      destruct (settled_current _ Hset) as [Hc|[Hc Hu]].
      { by rewrite Hc in Hi. }
      right. split; [done|lia].
    + by rewrite (settled_next _ Hset) in Hi.
  - right. destruct (Hmig). destruct index as [|[|]]; [| |lia];
      unfold table_for in *; simpl in *; split; simpl; try done; try lia.
    + intros j s Hj Hs. destruct (slots (current m) !! j) as [s'|] eqn:Hs'.
      * pose proof (mig_moved0 _ _ Hj Hs') as Ho.
        pose proof (touched_slots0 _ _ Hs' Ho). by simplify_eq.
      * apply lookup_ge_None in Hs'. apply lookup_lt_Some in Hs.
        rewrite (shape_len _ (ok_shape _ _ touched_ok0)) in Hs.
        rewrite (shape_len _ (ok_shape _ _ mig_current0)) in Hs'. lia.
    + apply map_disjoint_dom. apply map_disjoint_dom in mig_disjoint0. set_solver.
    + apply map_disjoint_dom. apply map_disjoint_dom in mig_disjoint0. set_solver.
Qed.

Lemma key_at_table_ok m k v p :
  map_ok m → key_at m k v p → table_ok (table_for m p.1).
Proof.
  intros Hm (Hp & Hi & _). destruct p as [index i]; simpl in *.
  destruct (ok_state _ Hm) as [Hset|Hmig];
    destruct index as [|[|]]; try lia; unfold table_for in *; simpl in *.
  - destruct (settled_current _ Hset) as [Hc|[Hc _]]; [by rewrite Hc in Hi|done].
  - by rewrite (settled_next _ Hset) in Hi.
  - apply Hmig.
  - apply Hmig.
Qed.

Lemma key_at_contents m k v p :
  map_ok m → key_at m k v p →
  contents (table_for m p.1) !! k = Some v ∧
  contents (table_for m (1 - p.1)) !! k = None.
Proof.
  intros Hm Hp. pose proof (key_at_table_ok _ _ _ _ Hm Hp) as Hok.
  destruct Hp as (Hp & Hi & _). destruct p as [index i]; simpl in *.
  assert (contents (table_for m index) !! k = Some v) as Hk.
  { apply (lookup_contents hash); eauto. }
  split; [done|]. destruct (ok_state _ Hm) as [Hset|Hmig];
    destruct index as [|[|]]; try lia; simpl in *.
  - by rewrite (settled_next _ Hset).
  - by rewrite (settled_next _ Hset) in Hi.
  - eapply map_disjoint_Some_l, Hk. apply Hmig.
  - eapply map_disjoint_Some_r, Hk. apply Hmig.
Qed.

Lemma key_at_abs m k v p : map_ok m → key_at m k v p → abs m !! k = Some v.
Proof.
  intros Hm Hp. destruct (key_at_contents _ _ _ _ Hm Hp) as [Hk Hn].
  destruct Hp as (Hp & _). destruct p as [[|[|]] i]; simpl in *; [| |lia].
  - unfold abs. by rewrite lookup_union_r.
  - by apply lookup_union_Some_l.
Qed.

(** The map after the table the key is in has changed. *)
Lemma abs_with_table m k v p tb' c (f : gmap K V → gmap K V) :
  map_ok m → key_at m k v p →
  ((∃ w, f = insert k w) ∨ f = delete k) →
  contents tb' = f (contents (table_for m p.1)) →
  abs (mk (current (with_table m p.1 tb')) (next (with_table m p.1 tb'))
          (migration_cursor m) c) = f (abs m).
Proof.
  intros Hm Hp Hf Hc. destruct (key_at_contents _ _ _ _ Hm Hp) as [Hk Hn].
  destruct Hp as (Hp & _). destruct p as [[|[|]] i]; simpl in *; [| |lia];
    unfold abs; simpl; rewrite Hc.
  - destruct Hf as [[w ->] | ->]; [by rewrite insert_union_r|].
    rewrite delete_union. by rewrite (delete_id (contents (next m))).
  - destruct Hf as [[w ->] | ->]; [by rewrite insert_union_l|].
    rewrite delete_union. by rewrite (delete_id (contents (current m))).
Qed.

Lemma assign_touched tb i k v w :
  table_ok tb → slots tb !! i = Some (Occupied k v) →
  touched tb (assign_at tb i w) ∧
  contents (assign_at tb i w) = <[k := w]> (contents tb) ∧
  slots (assign_at tb i w) !! i = Some (Occupied k w).
Proof.
  intros Hok Hi. unfold assign_at. rewrite Hi.
  match goal with |- touched _ ?t ∧ _ => assert (table_ok t) as Hok' end.
  { eapply (table_ok_set hash _ _ _ (Occupied k w)); try done; simpl; try lia.
    intros k' v' [= <- <-]. split; [by eapply ok_reaches|].
    intros j u Hj. exact (ok_unique _ _ Hok _ _ _ _ _ Hj Hi). }
  assert (Hc := contents_occupy hash _ _ _ _ k w Hok Hok' Hi eq_refl
                  (or_intror (ex_intro _ v eq_refl))).
  split; [|split; [done|]].
  - split; simpl; try done.
    + intros j s Hj Ho. rewrite list_lookup_insert_ne; [done|].
      intros ->. by simplify_eq.
    + rewrite Hc, dom_insert. apply union_subseteq. split; [|done].
      apply singleton_subseteq_l, elem_of_dom.
      exists v. apply (lookup_contents hash); eauto.
  - by apply list_lookup_insert_eq, (lookup_lt_Some _ _ _ Hi).
Qed.

Lemma bury_touched tb i k v :
  table_ok tb → slots tb !! i = Some (Occupied k v) →
  let tb' := mk_table (<[i := Tombstone]> (slots tb)) (capacity tb) (mask tb)
               (live tb - 1) (used tb) in
  touched tb tb' ∧ contents tb' = delete k (contents tb).
Proof.
  intros Hok Hi tb'. assert (contents tb !! k = Some v) as Hk.
  { apply (lookup_contents hash); eauto. }
  assert (0 < live tb) as Hl.
  { rewrite <- (size_contents hash _ Hok). apply Nat.neq_0_lt_0.
    apply map_size_non_empty_iff. intros He. by rewrite He in Hk. }
  assert (table_ok tb') as Hok'.
  { eapply (table_ok_set hash _ _ _ Tombstone); try done; simpl; lia. }
  assert (Hc := contents_bury hash _ _ _ _ _ Hok Hok' Hi eq_refl).
  split; [|done]. split; simpl; try done; [lia| |].
  - intros j s Hj Ho. rewrite list_lookup_insert_ne; [done|].
    intros ->. by simplify_eq.
  - rewrite Hc, dom_delete. by intros x [? _]%elem_of_difference.
Qed.

(** Writing through the pointer to a value. *)
Lemma write_value_ok m k w p v :
  map_ok m → key_at m k w p →
  map_ok (write_value m p v) ∧ abs (write_value m p v) = <[k := v]> (abs m) ∧
  slots (table_for (write_value m p v) (p.1)) !! p.2 = Some (Occupied k v).
Proof.
  intros Hm Hat. pose proof (key_at_table_ok _ _ _ _ Hm Hat) as Hok.
  destruct (Hat) as (Hlt & Hi & _).
  destruct (assign_touched _ _ k w v Hok Hi) as (Ht & Hc & Hi').
  unfold write_value. set (m2 := with_table m _ _).
  assert (m2 = mk (current m2) (next m2) (migration_cursor m) (size m)) as Heq.
  { unfold m2. by destruct p as [[] ?]. }
  assert (abs m2 = <[k := v]> (abs m)) as Ha2.
  { rewrite Heq. apply (abs_with_table m k w p _ _ _ Hm Hat); eauto. }
  split; [|split; [done|]].
  - split.
    + rewrite Ha2, map_size_insert_Some by (eexists; by eapply key_at_abs).
      rewrite <- (ok_size _ Hm), Heq. done.
    + rewrite Heq. by apply (touched_state m k w p).
  - unfold m2. by destruct p as [[] ?].
Qed.

(** [insert_entry] on a key the map holds. *)
Lemma insert_entry_present mem m k v w assign :
  map_ok m → abs m !! k = Some w →
  ∃ m' it, insert_entry hash per_op mem m k v assign = (m', Returns (it, false)) ∧
    map_ok m' ∧
    abs m' = match assign with AssignYes => <[k := v]> (abs m)
                             | AssignNo => abs m end ∧
    deref m' it = Returns (k, match assign with AssignYes => v | AssignNo => w end).
Proof.
  intros Hm Hk. unfold insert_entry.
  destruct (step_migration_ok m Hm) as (m1 & -> & Hm1 & Ha1 & Hs1).
  rewrite <- Ha1 in Hk |- *.
  destruct (find_existing_ok m1 k Hm1) as ([[index i]|] & -> & Hr); simpl in Hr;
    [|congruence].
  destruct Hr as (w' & Hat & Hk'). simplify_eq.
  destruct (Hat) as (Hlt & Hi & _). simpl in Hlt, Hi. destruct assign.
  - destruct (advance_occupied m1 i k w index Hi Hlt) as [-> Hd].
    by exists m1, (mk_iter index i).
  - destruct (write_value_ok m1 k w (index, i) v Hm1 Hat) as (Hm2 & Ha2 & Hi2).
    unfold write_value in *. simpl in *. set (m2 := with_table m1 _ _) in *.
    destruct (advance_occupied m2 i k v index Hi2 Hlt) as [-> Hd].
    by exists m2, (mk_iter index i).
Qed.

(** [insert_entry] on a new key. *)
Lemma insert_entry_absent mem m k v assign :
  0 < per_op → map_ok m → abs m !! k = None →
  (∃ m' it, insert_entry hash per_op mem m k v assign
              = (m', Returns (it, true)) ∧
     map_ok m' ∧ abs m' = <[k := v]> (abs m) ∧ deref m' it = Returns (k, v)) ∨
  (∃ m', insert_entry hash per_op mem m k v assign = (m', Throws BadAlloc) ∧
     map_ok m' ∧ abs m' = abs m ∧ ∃ c, mem c = false).
Proof.
  intros Hpos Hm Hk. unfold insert_entry.
  destruct (step_migration_ok m Hm) as (m1 & -> & Hm1 & Ha1 & Hs1).
  rewrite <- Ha1 in Hk |- *.
  destruct (find_existing_ok m1 k Hm1) as ([p|] & -> & Hr); simpl in Hr.
  { destruct Hr as (? & _ & ?). congruence. }
  destruct (make_room_ok mem m1 Hpos Hm1) as (Hm2 & Ha2 & Hs2 & Hroom).
  destruct (make_room_for_one hash per_op mem m1) as [m2 r]; simpl in *.
  destruct Hroom as [[-> Hroom]|[-> Hmem]].
  - left. rewrite <- Ha2. apply construct_new_ok; congruence.
  - right. exists m2. done.
Qed.

(** *** Erasing *)

Lemma remove_at_ok m it k v :
  map_ok m → key_at m k v (table_index it, slot_index it) →
  map_ok (remove_at m it) ∧ abs (remove_at m it) = delete k (abs m).
Proof.
  intros Hm Hat. pose proof (key_at_table_ok _ _ _ _ Hm Hat) as Hok.
  destruct (Hat) as (_ & Hi & _). simpl in *.
  destruct (bury_touched _ _ _ _ Hok Hi) as [Ht Hc].
  assert (abs (remove_at m it) = delete k (abs m)) as Ha.
  { apply (abs_with_table m k v (table_index it, slot_index it)); auto. }
  split; [|done]. split.
  - rewrite Ha, map_size_delete_Some by (eexists; by eapply key_at_abs).
    simpl. rewrite (ok_size _ Hm). lia.
  - by apply (touched_state m k v (table_index it, slot_index it)).
Qed.

Lemma erase_at_ok m it k v :
  map_ok m → it ≠ end_ → key_at m k v (table_index it, slot_index it) →
  ∃ m' following, erase_at hash per_op m it = Returns (m', following) ∧
    map_ok m' ∧ abs m' = delete k (abs m).
Proof.
  intros Hm Hne Hat. unfold erase_at. rewrite bool_decide_eq_false_2 by done.
  destruct (remove_at_ok m it k v Hm Hat) as [Hm1 Ha1].
  destruct Hat as (_ & Hi & _). simpl in Hi. unfold slot_at. rewrite Hi.
  destruct (step_migration_ok _ Hm1) as (m2 & -> & Hm2 & Ha2 & _).
  simpl. do 2 eexists. split; [done|]. split; [done|]. congruence.
Qed.

Lemma erase_ok m k :
  map_ok m →
  ∃ m', erase hash per_op m k
          = Returns (m', if abs m !! k is Some _ then 1 else 0) ∧
    map_ok m' ∧ abs m' = delete k (abs m).
Proof.
  intros Hm. unfold erase. pose proof (find_ok m k Hm) as Hf.
  destruct (abs m !! k) as [v|] eqn:Hk.
  - destruct Hf as (it & -> & Hne & Hat & _). simpl.
    rewrite bool_decide_eq_false_2 by done.
    destruct (erase_at_ok m it k v Hm Hne Hat) as (m' & fol & -> & Hm' & Ha).
    by exists m'.
  - rewrite Hf. simpl.
    destruct (step_migration_ok m Hm) as (m' & -> & Hm' & Ha & _).
    exists m'. split; [done|]. split; [done|]. by rewrite Ha, delete_id.
Qed.

(** *** Reserving and clearing *)

Lemma grow_until_ok fuel n c :
  1 ≤ n → c ≤ 2 ^ (n - 1 + fuel) →
  ∃ n', n ≤ n' ∧ grow_until fuel (2 ^ n) c = 2 ^ n' ∧ 2 * c ≤ 2 ^ n' ∧
    (n' = n ∨ 2 ^ n' < 4 * c).
Proof.
  revert n. induction fuel as [|fuel IH]; intros n Hn Hc; cbn [grow_until].
  - exists n. split; [done|]. split; [done|]. split; [|by left].
    replace n with (S (n - 1)) at 1 by lia. simpl.
    rewrite Nat.add_0_r in Hc. lia.
  - assert (2 ^ n = 2 * 2 ^ (n - 1)) as Hpow.
    { replace n with (S (n - 1)) at 1 by lia. done. }
    assert (2 ^ n `div` 2 = 2 ^ (n - 1)) as ->.
    { rewrite Hpow, Nat.mul_comm. by apply Nat.div_mul. }
    destruct (Nat.ltb_spec (2 ^ (n - 1)) c) as [Hlt|Hge].
    + replace (2 ^ n * 2) with (2 ^ S n) by (simpl; lia).
      destruct (IH (S n)) as (n' & Hle & -> & Hok & Hmin);
        [lia|by replace (S n - 1 + fuel) with (n - 1 + S fuel) by lia|].
      exists n'. split; [lia|]. split; [done|]. split; [done|]. right.
      destruct Hmin as [->|]; [simpl; lia|done].
    + exists n. split; [done|]. split; [done|]. split; [lia|by left].
Qed.

(** [capacity_for] is the smallest power of two, from the minimum up, whose
    half holds the entries. *)
Lemma capacity_for_ok c :
  ∃ n, 4 ≤ n ∧ capacity_for c = 2 ^ n ∧ 2 * c ≤ 2 ^ n ∧
    (n = 4 ∨ 2 ^ n < 4 * c).
Proof.
  apply (grow_until_ok c 4 c); [lia|].
  pose proof (Nat.pow_gt_lin_r 2 (4 - 1 + c)). simpl in *. lia.
Qed.

Lemma reserve_ok (mem : nat → bool) m c :
  map_ok m →
  map_ok (reserve mem m c).1 ∧ abs (reserve mem m c).1 = abs m ∧
  size (reserve mem m c).1 = size m ∧
  ((reserve mem m c).2 = Returns () ∨
   (reserve mem m c).2 = Throws BadAlloc ∧ ∃ c, mem c = false).
Proof.
  intros Hm. unfold reserve.
  destruct (capacity_for_ok c) as (n & Hn & -> & _ & _).
  destruct (ok_state _ Hm) as [Hset|Hmig].
  2: { rewrite migrating_is_migrating by done. rewrite !andb_false_r. auto. }
  rewrite settled_not_migrating by done. rewrite !andb_true_r.
  destruct (Nat.eqb_spec (size m) 0) as [Hz|Hz];
    destruct (Nat.ltb_spec (capacity (current m)) (2 ^ n)) as [Hlt|]; auto.
  - pose proof (allocate_table_ok mem n Hn) as Ha.
    destruct (allocate_table mem (2 ^ n)) as [tb|e]; simpl;
      [|destruct Ha as [-> ?]; eauto 10].
    destruct Ha as (Hok & Hcap & Hu & He). rewrite (ok_size _ Hm) in Hz.
    apply map_size_empty_inv in Hz.
    assert (settled_ok (mk tb (next m) (migration_cursor m) (size m))) as Hset'.
    { split; simpl; [apply Hset|]. right. split; [done|]. lia. }
    assert (abs (mk tb (next m) (migration_cursor m) (size m)) = abs m) as Habs.
    { by rewrite abs_settled, Hz by done. }
    split; [split; [rewrite Habs; apply Hm|by left]|]. auto.
  - destruct (settled_current _ Hset) as [Hc|[Hc Hu]].
    { destruct Hz. rewrite (ok_size _ Hm), abs_settled, Hc by done.
      apply map_size_empty. }
    pose proof (count_occupied_used _ _ Hc) as Hlu.
    destruct (shape_pow _ (ok_shape _ _ Hc)) as (n' & Hn' & Hcap).
    assert (2 ^ S n' ≤ 2 ^ n) as Hdouble.
    { apply Nat.pow_le_mono_r; [lia|]. rewrite Hcap in Hlt.
      apply Nat.pow_lt_mono_r_iff in Hlt; lia. }
    simpl in Hdouble.
    pose proof (begin_migration_ok mem m n Hm Hset Hc Hn ltac:(lia)) as Hb.
    destruct (begin_migration mem m (2 ^ n)) as [m'|e]; simpl.
    + destruct Hb as (Hok & _ & Ha & Hs & _). auto.
    + destruct Hb as [-> Hmem]. eauto 10.
Qed.

Lemma clear_ok m : map_ok m → map_ok (clear m) ∧ abs (clear m) = ∅.
Proof.
  intros Hm.
  assert (current m = no_table ∨ table_ok (current m)) as Hc.
  { destruct (ok_state _ Hm) as [Hset|Hmig]; [|right; apply Hmig].
    destruct (settled_current _ Hset) as [?|[? _]]; auto. }
  assert (settled_ok (clear m) ∧ abs (clear m) = ∅) as [Hset He].
  { destruct Hc as [Hc|Hc]; unfold clear.
    - rewrite Hc. split; [by split; [|left]|done].
    - destruct (ok_shape _ _ Hc) as [Hlen (n & Hn & Hcap) Hmask].
      unfold destroy_entries. rewrite Hmask, Hlen, Hcap.
      destruct (table_ok_fresh hash (V:=V) n 0 0 Hn) as [Hok Hct].
      assert (0 < 2 ^ n) by (pose proof (Nat.pow_nonzero 2 n); lia).
      split; [by split; [|right]|]. unfold abs. simpl. rewrite Hct.
      apply map_empty_union. }
  split; [|done]. split; [|by left]. rewrite He. symmetry. apply map_size_empty.
Qed.

Lemma make_empty_ok : map_ok make_empty ∧ abs make_empty = ∅.
Proof.
  split; [|done]. split; [done|]. left. by split; [|left].
Qed.

(** *** Iterating *)

Lemma occupied_from_spec (l : list (Slot (K:=K) (V:=V))) i :
  match occupied_from l i with
  | Some j => ∃ d k v, j = i + d ∧ l !! d = Some (Occupied k v) ∧
      omap slot_entry l = (k, v) :: omap slot_entry (drop (S d) l)
  | None => omap slot_entry l = []
  end.
Proof.
  revert i. induction l as [|s l IH]; intros i; simpl; [done|].
  destruct s as [|k v|]; simpl.
  2: { exists 0, k, v. rewrite Nat.add_0_r. done. }
  all: specialize (IH (i + 1)); destruct (occupied_from l (i + 1)); [|done];
    destruct IH as (d & k & v & -> & Hl & He); exists (S d), k, v;
    (split; [lia|done]).
Qed.

(** The entries an iterator has yet to visit. *)
Definition remaining m (it : ConstIterator) : list (K * V) :=
  match table_index it with
  | O => omap slot_entry (drop (slot_index it) (slots (current m)))
         ++ entries (next m)
  | 1 => omap slot_entry (drop (slot_index it) (slots (next m)))
  | _ => []
  end.

Lemma advance_spec m it :
  let it' := advance_to_occupied m it in
  (it' = end_ ∧ remaining m it = []) ∨
  (it' ≠ end_ ∧ ∃ e, deref m it' = Returns e ∧
     remaining m it
       = e :: remaining m (mk_iter (table_index it') (slot_index it' + 1))).
Proof.
  destruct it as [[|[|]] i]; unfold advance_to_occupied, remaining; simpl.
  - pose proof (occupied_from_spec (drop i (slots (current m))) i) as Hf.
    destruct (occupied_from (drop i (slots (current m))) i) as [j|].
    { destruct Hf as (d & k & v & -> & Hl & He). right. split; [done|].
      exists (k, v). rewrite lookup_drop in Hl. unfold deref. simpl.
      rewrite Hl. split; [done|]. rewrite He, drop_drop.
      by replace (i + S d) with (i + d + 1) by lia. }
    rewrite Hf. simpl.
    pose proof (occupied_from_spec (slots (next m)) 0) as Hf'.
    destruct (occupied_from (slots (next m)) 0) as [j|]; [|by left].
    destruct Hf' as (d & k & v & -> & Hl & He). right. split; [done|].
    exists (k, v). unfold deref, entries. simpl. rewrite Hl, He.
    by rewrite Nat.add_1_r.
  - pose proof (occupied_from_spec (drop i (slots (next m))) i) as Hf.
    destruct (occupied_from (drop i (slots (next m))) i) as [j|]; [|by left].
    destruct Hf as (d & k & v & -> & Hl & He). right. split; [done|].
    exists (k, v). rewrite lookup_drop in Hl. unfold deref. simpl.
    rewrite Hl. split; [done|]. rewrite He, drop_drop.
    by replace (i + S d) with (i + d + 1) by lia.
  - by left.
Qed.

Lemma visit_ok turns m it :
  length (remaining m it) ≤ turns →
  visit turns m (advance_to_occupied m it) = Returns (remaining m it).
Proof.
  revert it. induction turns as [|turns IH]; intros it Hlen;
    destruct (advance_spec m it) as [[-> He]|(Hne & e & Hd & He)].
  - by rewrite He.
  - rewrite He in Hlen. simpl in Hlen. lia.
  - by rewrite He.
  - rewrite He in *. simpl in Hlen. simpl. rewrite bool_decide_eq_false_2 by done.
    rewrite Hd. simpl. unfold next_iter. rewrite IH by lia. done.
Qed.

Lemma entries_length tb : length (entries tb) ≤ length (slots tb).
Proof.
  unfold entries. induction (slots tb) as [|s l IH]; [done|].
  destruct s; csimpl; lia.
Qed.

Lemma state_tables m :
  map_ok m →
  (current m = no_table ∨ table_ok (current m)) ∧
  (next m = no_table ∨ table_ok (next m)) ∧
  contents (current m) ##ₘ contents (next m).
Proof.
  intros Hm. destruct (ok_state _ Hm) as [Hset|Hmig].
  - rewrite (settled_next _ Hset). split.
    + destruct (settled_current _ Hset) as [?|[? _]]; auto.
    + split; [by left|]. apply map_disjoint_empty_r.
  - split; [right; apply Hmig|]. split; [right|]; apply Hmig.
Qed.

Lemma table_length tb :
  tb = no_table ∨ table_ok tb → length (slots tb) = capacity tb.
Proof. intros [->|Hok]; [done|]. apply (shape_len _ (ok_shape _ _ Hok)). Qed.

Lemma table_nodup tb : tb = no_table ∨ table_ok tb → NoDup (entries tb).*1.
Proof.
  intros [->|Hok]; [constructor|]. apply slot_keys_nodup. intros.
  by eapply ok_unique.
Qed.

(** A walk of the map visits every entry once, in both tables. *)
Lemma for_each_ok m :
  map_ok m →
  ∃ l, for_each m = Returns l ∧ l ≡ₚ map_to_list (abs m).
Proof.
  intros Hm. destruct (state_tables m Hm) as (Hc & Hn & Hdis).
  exists (entries (current m) ++ entries (next m)). split.
  - unfold for_each, begin. rewrite visit_ok; [done|].
    unfold remaining. cbn [table_index slot_index]. rewrite drop_0, length_app.
    unfold map_capacity.
    rewrite <- (table_length _ Hc), <- (table_length _ Hn).
    pose proof (entries_length (current m)). pose proof (entries_length (next m)).
    unfold entries in *. simpl. lia.
  - rewrite (Permutation_app_comm (entries (current m))).
    unfold abs, contents. rewrite <- list_to_map_app. symmetry.
    apply map_to_list_to_map. rewrite fmap_app. apply NoDup_app.
    split; [by apply table_nodup|]. split; [|by apply table_nodup].
    intros k Hk1 Hk2. apply map_disjoint_dom in Hdis.
    apply (Hdis k); unfold contents; rewrite dom_list_to_map_L;
      by apply elem_of_list_to_set.
Qed.

End map_proofs.

(** ** The cost of an operation *)

Section load.
Context {K V : Type} `{Countable K}.
Context (hash : K → N).

Implicit Types (m : RehashMap.t (K:=K) (V:=V)) (k : K) (v : V).

Abbreviation map_ok := (map_ok hash).
Abbreviation migrating_ok := (migrating_ok hash).
Abbreviation settled_ok := (settled_ok hash).

(** How full the tables are, with [j] inserts still to come: a settled table is
    at most half full counting tombstones, and a migration ends before the
    incoming table is half full even if every operation left is an insert. *)
Definition load (j : nat) m : Prop :=
  if is_migrating m then
    8 * (used (next m) + live (current m) + j)
      + (capacity (current m) - migration_cursor m) ≤ 4 * capacity (next m)
  else 2 * used (current m) ≤ capacity (current m).

(** One mutating operation by the owner of the map. *)
Inductive op_step : RehashMap.t (K:=K) (V:=V) → RehashMap.t → Prop :=
  | op_insert mem m k v assign :
      op_step m (insert_entry hash 8 mem m k v assign).1
  | op_erase m k m' c :
      erase hash 8 m k = Returns (m', c) → op_step m m'
  | op_erase_at m k it m' following :
      find hash m k = Returns it →
      erase_at hash 8 m it = Returns (m', following) → op_step m m'
  | op_write m k v place :
      find_value hash m k = Returns (Some place) →
      op_step m (write_value m place v)
  | op_reserve mem m n : op_step m (reserve mem m n).1
  | op_clear m : op_step m (clear m).

Definition in_use m : Prop := rtc op_step make_empty m.

Lemma load_step m :
  map_ok m → load 0 m →
  ∃ m', step_migration hash 8 m = Returns m' ∧ map_ok m' ∧ load 1 m' ∧
    abs m' = abs m ∧ size m' = size m.
Proof.
  intros Hm Hl.
  destruct (step_migration_ok hash 8 m Hm) as (m' & Hst & Hm' & Ha & Hs).
  exists m'. split; [done|]. split; [done|]. split; [|done].
  unfold load in *. destruct (ok_state _ _ Hm) as [Hset|Hmig].
  - rewrite step_migration_settled in Hst by done. simplify_eq.
    by rewrite (settled_not_migrating hash) in Hl |- * by done.
  - rewrite (migrating_is_migrating hash) in Hl by done.
    destruct (step_migration_migrating hash 8 m Hmig)
      as (m1 & Hst' & _ & _ & Hcase). rewrite Hst in Hst'. simplify_eq.
    destruct Hcase as [(Hmv & Hc & Hlt)|(Hset & Hcap & Hu)].
    + pose proof (moved_load _ _ _ Hmv). pose proof (moved_cap _ _ _ Hmv).
      pose proof (moved_cap_next _ _ _ Hmv).
      rewrite (migrating_is_migrating hash) by apply Hmv. lia.
    + rewrite (settled_not_migrating hash) by done. lia.
Qed.

(** The incoming table has room whenever an insert looks at it. *)
Lemma load_room mem m :
  map_ok m → is_migrating m = true → load 1 m →
  make_room_for_one hash 8 mem m = (m, Returns ()).
Proof.
  intros Hm Hmig Hl. unfold make_room_for_one, load in *.
  rewrite Hmig in *. rewrite andb_false_r.
  by destruct (Nat.leb_spec ((used (next m) + 1) * 2) (capacity (next m))); [|lia].
Qed.

(** Beginning a migration from a table at most half full. *)
Lemma load_begin mem m c m' :
  begin_migration mem m c = Returns m' →
  table_ok hash (current m) → 2 * used (current m) ≤ capacity (current m) →
  capacity (current m) * 2 ≤ c ∨
    4 * live (current m) ≤ capacity (current m) ∧ c = capacity (current m) →
  load 1 m'.
Proof.
  intros Hb Hok Hl Hc. pose proof (count_occupied_used _ _ Hok) as Hlu.
  pose proof (shape_capacity_16 _ (ok_shape _ _ Hok)).
  unfold begin_migration, allocate_table in Hb.
  destruct (mem c); [|done]. simplify_eq/=.
  unfold load, is_migrating. simpl.
  destruct (Nat.ltb_spec 0 c); lia.
Qed.

Lemma load_grow mem m :
  table_ok hash (current m) → 2 * used (current m) ≤ capacity (current m) →
  is_migrating m = false → load 1 (grow mem m).1.
Proof.
  intros Hok Hl Hmig. unfold grow. cbv zeta.
  set (c := if (_ <? _) then _ else _).
  destruct (begin_migration mem m c) as [m'|e] eqn:Hb; simpl.
  - eapply load_begin; [done..|]. unfold c.
    destruct (Nat.ltb_spec (capacity (current m)) (live (current m) * 2 * 2)); lia.
  - unfold load. by rewrite Hmig.
Qed.

Lemma load_make_room mem m :
  map_ok m → load 1 m → load 1 (make_room_for_one hash 8 mem m).1.
Proof.
  intros Hm Hl. destruct (ok_state _ _ Hm) as [Hset|Hmig].
  2: { rewrite load_room; [done|done| |done]. by eapply migrating_is_migrating. }
  pose proof (settled_not_migrating _ _ Hset) as Hnm.
  unfold make_room_for_one. unfold load in Hl. rewrite Hnm in *.
  rewrite andb_true_r. destruct (settled_current _ _ Hset) as [Hc|[Hc Hu]].
  - rewrite Hc. simpl. unfold allocate_table.
    destruct (mem minimum_capacity); simpl; unfold load, is_migrating; simpl;
      rewrite (settled_next _ _ Hset); simpl; [lia|]. by rewrite Hc.
  - pose proof (shape_capacity_pos _ (ok_shape _ _ Hc)).
    destruct (Nat.eqb_spec (capacity (current m)) 0); [lia|].
    destruct (Nat.leb_spec ((used (current m) + 1) * 2)
                           (capacity (current m))); simpl.
    + unfold load. by rewrite Hnm.
    + by apply load_grow.
Qed.

Lemma load_construct_new m k v :
  load 1 m → room hash m → load 0 (construct_new hash m k v).1.
Proof.
  intros Hl Hr. unfold construct_new, construct_at.
  assert (load 0 m) as Hl0.
  { unfold load in *. destruct (is_migrating m); [lia|done]. }
  destruct (is_migrating m) eqn:Hmig; cbv zeta; simpl;
    (destruct (find_free_slot _ _) as [i|]; [|done]);
    (destruct (slot_at _ i) as [s|]; [|done]); simpl;
    unfold load, is_migrating in *; simpl in *; rewrite Hmig in *.
  - destruct (is_empty s); lia.
  - destruct Hr as [[Hm _]|(_ & _ & Hr)].
    + apply migrating_is_migrating in Hm. unfold is_migrating in Hm. congruence.
    + destruct (is_empty s); lia.
Qed.

Lemma load_touched m k v p tb' c :
  map_ok m → key_at m k v p → touched hash (table_for m p.1) tb' → load 0 m →
  load 0 (mk (current (with_table m p.1 tb')) (next (with_table m p.1 tb'))
             (migration_cursor m) c).
Proof.
  intros Hm (Hp & _) [] Hl. destruct p as [[|[|]] i]; simpl in *; [| |lia];
    unfold load, is_migrating in *; simpl in *; rewrite ?touched_capacity0;
    destruct (_ <? _); lia.
Qed.

Lemma load_weaken m : load 1 m → load 0 m.
Proof. unfold load. destruct (is_migrating m); [lia|done]. Qed.

Lemma load_write m k w p v :
  map_ok m → key_at m k w p → load 0 m → load 0 (write_value m p v).
Proof.
  intros Hm Hat Hl. pose proof (key_at_table_ok _ _ _ _ _ Hm Hat) as Hok.
  destruct (Hat) as (Hlt & Hi & _).
  destruct (assign_touched _ _ _ k w v Hok Hi) as (Ht & _).
  assert (Hlt' := load_touched m k w p _ (size m) Hm Hat Ht Hl).
  unfold write_value. destruct p as [[] ?]; exact Hlt'.
Qed.

Lemma load_insert mem m k v assign :
  map_ok m → load 0 m → load 0 (insert_entry hash 8 mem m k v assign).1.
Proof.
  intros Hm Hl. unfold insert_entry.
  destruct (load_step m Hm Hl) as (m1 & -> & Hm1 & Hl1 & Ha1 & Hs1).
  destruct (find_existing_ok hash m1 k Hm1) as ([[index i]|] & -> & Hr).
  - destruct Hr as (w & Hat & _). apply load_weaken in Hl1.
    destruct assign; [done|].
    by apply (load_write m1 k w (index, i) v Hm1 Hat).
  - pose proof (load_make_room mem m1 Hm1 Hl1) as Hl2.
    destruct (make_room_ok hash 8 mem m1 ltac:(lia) Hm1) as (Hm2 & _ & _ & Hroom).
    destruct (make_room_for_one hash 8 mem m1) as [m2 r]; simpl in *.
    destruct Hroom as [[-> Hroom]|[-> _]]; simpl.
    + by apply load_construct_new.
    + by apply load_weaken.
Qed.

Lemma load_erase_at m it k v m' following :
  map_ok m → load 0 m → key_at m k v (table_index it, slot_index it) →
  erase_at hash 8 m it = Returns (m', following) → load 0 m'.
Proof.
  intros Hm Hl Hat. unfold erase_at.
  case_bool_decide; [by intros ?; simplify_eq|].
  pose proof (key_at_table_ok _ _ _ _ _ Hm Hat) as Hok.
  destruct (remove_at_ok hash m it k v Hm Hat) as [Hm1 _].
  destruct (Hat) as (_ & Hi & _). simpl in *.
  destruct (bury_touched hash _ _ _ _ Hok Hi) as [Ht _].
  assert (load 0 (remove_at m it)) as Hl1.
  { exact (load_touched m k v (table_index it, slot_index it) _ _ Hm Hat Ht Hl). }
  destruct (load_step _ Hm1 Hl1) as (m2 & -> & _ & Hl2 & _).
  unfold slot_at. rewrite Hi. simpl. intros ?. simplify_eq.
  by apply load_weaken.
Qed.

Lemma load_reserve mem m n :
  map_ok m → load 0 m → load 0 (reserve mem m n).1.
Proof.
  intros Hm Hl. unfold reserve.
  destruct (capacity_for_ok n) as (e & He & -> & _ & _).
  destruct (ok_state _ _ Hm) as [Hset|Hmig].
  2: { rewrite (migrating_is_migrating hash) by done. by rewrite !andb_false_r. }
  pose proof (settled_not_migrating _ _ Hset) as Hnm. rewrite Hnm, !andb_true_r.
  pose proof Hl as Hl'. unfold load in Hl'. rewrite Hnm in Hl'.
  destruct (Nat.eqb_spec (size m) 0) as [Hz|Hz];
    destruct (Nat.ltb_spec (capacity (current m)) (2 ^ e)) as [Hlt|]; try done.
  - unfold allocate_table. destruct (mem (2 ^ e)); simpl; [|done].
    unfold load, is_migrating. simpl. rewrite (settled_next _ _ Hset). simpl. lia.
  - destruct (settled_current _ _ Hset) as [Hc|[Hc Hu]].
    { destruct Hz. rewrite (ok_size _ _ Hm), (abs_settled hash), Hc by done.
      apply map_size_empty. }
    destruct (shape_pow _ (ok_shape _ _ Hc)) as (n' & Hn' & Hcap).
    assert (2 ^ S n' ≤ 2 ^ e) as Hdouble.
    { apply Nat.pow_le_mono_r; [lia|]. rewrite Hcap in Hlt.
      apply Nat.pow_lt_mono_r_iff in Hlt; lia. }
    destruct (begin_migration mem m (2 ^ e)) as [m'|] eqn:Hb; [|done].
    apply load_weaken. eapply load_begin; [done..|]. simpl in Hdouble. lia.
Qed.

Lemma insert_entry_ok mem m k v assign :
  map_ok m → map_ok (insert_entry hash 8 mem m k v assign).1.
Proof.
  intros Hm. destruct (abs m !! k) as [w|] eqn:Hk.
  - by destruct (insert_entry_present hash 8 mem m k v w assign Hm Hk)
      as (? & ? & -> & ? & _).
  - by destruct (insert_entry_absent hash 8 mem m k v assign ltac:(lia) Hm Hk)
      as [(? & ? & -> & ? & _)|(? & -> & ? & _)].
Qed.

Lemma load_erase_found m k it m' following :
  map_ok m → load 0 m → find hash m k = Returns it →
  erase_at hash 8 m it = Returns (m', following) → map_ok m' ∧ load 0 m'.
Proof.
  intros Hm Hl Hf He. pose proof (find_ok hash m k Hm) as Hf'.
  destruct (abs m !! k) as [v|].
  - destruct Hf' as (it' & Hf' & Hne & Hat & _).
    rewrite Hf in Hf'. injection Hf' as <-.
    destruct (erase_at_ok hash 8 m it k v Hm Hne Hat)
      as (m1 & f1 & He1 & Hm1 & _).
    rewrite He in He1. injection He1 as -> ->. split; [done|].
    exact (load_erase_at _ _ _ _ _ _ Hm Hl Hat He).
  - rewrite Hf in Hf'. injection Hf' as ->. unfold erase_at in He.
    by simplify_eq/=.
Qed.

Lemma load_erase m k m' c :
  map_ok m → load 0 m → erase hash 8 m k = Returns (m', c) → load 0 m'.
Proof.
  intros Hm Hl He. unfold erase in He. pose proof (find_ok hash m k Hm) as Hf.
  destruct (abs m !! k) as [v|].
  - destruct Hf as (it & Hf & Hne & Hat & _). rewrite Hf in He. simpl in He.
    rewrite bool_decide_eq_false_2 in He by done.
    destruct (erase_at hash 8 m it) as [[m2 fol]|] eqn:He'; [|done].
    simplify_eq/=. exact (load_erase_at _ _ _ _ _ _ Hm Hl Hat He').
  - rewrite Hf in He. simpl in He.
    destruct (load_step m Hm Hl) as (m2 & Hst & _ & Hl2 & _).
    rewrite Hst in He. simplify_eq/=. by apply load_weaken.
Qed.

Lemma op_step_inv m m' :
  op_step m m' → map_ok m → load 0 m → map_ok m' ∧ load 0 m'.
Proof.
  intros Hst Hm Hl. destruct Hst as [mem m k v assign|m k m' c He
    |m k it m' fol Hf He|m k v p Hf|mem m n|m].
  - split; [by apply insert_entry_ok|by apply load_insert].
  - split; [|by eapply load_erase].
    destruct (erase_ok hash 8 m k Hm) as (m1 & He1 & Hm1 & _).
    rewrite He1 in He. by simplify_eq.
  - by eapply load_erase_found.
  - destruct (find_existing_ok hash m k Hm) as (r & Hr & Hres).
    unfold find_value in Hf. rewrite Hf in Hr. injection Hr as <-.
    destruct Hres as (w & Hat & _).
    split; [by eapply write_value_ok|by eapply load_write].
  - split; [by apply reserve_ok|by apply load_reserve].
  - split; [by apply clear_ok|]. unfold load. simpl. lia.
Qed.

(** What every map in use satisfies. *)
Lemma in_use_inv m : in_use m → map_ok m ∧ load 0 m.
Proof.
  unfold in_use. intros Hu.
  assert (∀ m0, rtc op_step m0 m → map_ok m0 → load 0 m0 →
            map_ok m ∧ load 0 m) as Hind.
  { intros m0. induction 1 as [|? ? ? Hst _ IH]; [done|].
    intros Hm Hl. destruct (op_step_inv _ _ Hst Hm Hl). by apply IH. }
  apply (Hind _ Hu); [apply make_empty_ok|]. unfold load. simpl. lia.
Qed.

End load.

(** ** The interface the order book uses *)

Section interface.
Context {K V : Type} `{Countable K}.
Context (hash : K → N).

(** The first component and whether the key was new. *)
Definition was_new (r : RehashMap.t (K:=K) (V:=V) * outcome (ConstIterator * bool))
    : RehashMap.t (K:=K) (V:=V) * outcome bool :=
  (r.1, let! p := r.2 in Returns (p.2)).

Definition rehash_index : KeyIndex (RehashMap.t (K:=K) (V:=V)) K V := {|
  ix_empty := make_empty;
  ix_lookup := lookup hash;
  ix_emplace := λ mem m k v, was_new (emplace hash 8 mem m k v);
  ix_erase := erase hash 8;
  ix_walk := for_each;
  ix_size := size;
  ix_clear := clear;
  ix_reserve := reserve
|}.

#[local] Existing Instance rehash_index.

#[refine] Definition rehash_index_laws
    : KeyIndexLaws (RehashMap.t (K:=K) (V:=V)) K V := {|
  ix_ok := map_ok hash;
  ix_abs := abs
|}.
Proof.
  - apply make_empty_ok.
  - intros. by apply lookup_abs.
  - intros mem i k v w Hi Hk. simpl.
    destruct (insert_entry_present hash 8 mem i k v w AssignNo Hi Hk)
      as (i' & it & He & Hok & Ha & _). exists i'.
    unfold emplace. by rewrite He.
  - intros mem i k v Hi Hk. simpl. unfold emplace.
    destruct (insert_entry_absent hash 8 mem i k v AssignNo ltac:(lia) Hi Hk)
      as [(i' & it & -> & Hok & Ha & _)|(i' & -> & Hok & Ha)]; exists i'; auto.
  - intros. by apply erase_ok.
  - intros. by apply (for_each_ok hash).
  - intros i Hi. apply (ok_size _ _ Hi).
  - intros. by apply clear_ok.
  - intros mem i n Hi. destruct (reserve_ok hash mem i n Hi) as (? & ? & ? & ?).
    exists (reserve mem i n).1, (reserve mem i n).2.
    split; [apply surjective_pairing|done].
Defined.

End interface.

(** ** Properties *)

Section properties.
Context {K V : Type} `{Countable K}.
Context (hash : K → N).

(** What a caller does with a map, and what it is told. *)
Inductive map_op :=
  | OpFind (k : K)
  | OpEmplace (k : K) (v : V)
  | OpAssign (k : K) (v : V)
  | OpErase (k : K)
  | OpReserve (n : nat)
  | OpClear
  | OpSize.

Inductive map_answer :=
  | Found (v : option V)
  | Inserted (fresh : bool)
  | Erased (n : nat)
  | Done
  | SizeIs (n : nat)
  | Threw (e : exn).

Definition told {A} (f : A → map_answer) (r : outcome A) : map_answer :=
  match r with Returns a => f a | Throws e => Threw e end.

(** The operations of the class, memory never running out. *)
Definition run_op (m : RehashMap.t) (op : map_op) : RehashMap.t * map_answer :=
  let enough := λ _ : nat, true in
  match op with
  | OpFind k => (m, told Found (lookup hash m k))
  | OpEmplace k v => let r := emplace hash 8 enough m k v in
                     (r.1, told (λ p, Inserted (p.2)) r.2)
  | OpAssign k v => let r := insert_or_assign hash 8 enough m k v in
                    (r.1, told (λ p, Inserted (p.2)) r.2)
  | OpErase k => match erase hash 8 m k with
                 | Returns (m', n) => (m', Erased n)
                 | Throws e => (m, Threw e)
                 end
  | OpReserve n => let r := reserve enough m n in (r.1, told (λ _, Done) r.2)
  | OpClear => (clear m, Done)
  | OpSize => (m, SizeIs (size m))
  end.

(** The same on a finite map. *)
Definition spec_op (g : gmap K V) (op : map_op) : gmap K V * map_answer :=
  match op with
  | OpFind k => (g, Found (g !! k))
  | OpEmplace k v => match g !! k with
                     | Some _ => (g, Inserted false)
                     | None => (<[k := v]> g, Inserted true)
                     end
  | OpAssign k v => (<[k := v]> g,
                     Inserted (if g !! k is Some _ then false else true))
  | OpErase k => (delete k g, Erased (if g !! k is Some _ then 1 else 0))
  | OpReserve _ => (g, Done)
  | OpClear => (∅, Done)
  | OpSize => (g, SizeIs (base.size g))
  end.

Fixpoint run {S} (f : S → map_op → S * map_answer) (s : S) (ops : list map_op)
    : list map_answer :=
  match ops with
  | [] => []
  | op :: ops => (f s op).2 :: run f (f s op).1 ops
  end.

Lemma run_op_simulates m op :
  map_ok hash m →
  map_ok hash (run_op m op).1 ∧
  abs (run_op m op).1 = (spec_op (abs m) op).1 ∧
  (run_op m op).2 = (spec_op (abs m) op).2.
Proof.
  intros Hm. destruct op as [k|k v|k v|k|n| |]; simpl.
  - by rewrite lookup_abs.
  - unfold emplace. destruct (abs m !! k) as [w|] eqn:Hk.
    + by destruct (insert_entry_present hash 8 (λ _, true) m k v w AssignNo Hm Hk)
        as (m' & it & -> & Hok & Ha & _).
    + destruct (insert_entry_absent hash 8 (λ _, true) m k v AssignNo
        ltac:(lia) Hm Hk) as [(m' & it & -> & Hok & Ha & _)|(? & _ & _ & _ & _ & ?)];
        done.
  - unfold insert_or_assign. destruct (abs m !! k) as [w|] eqn:Hk.
    + by destruct (insert_entry_present hash 8 (λ _, true) m k v w AssignYes Hm Hk)
        as (m' & it & -> & Hok & Ha & _).
    + destruct (insert_entry_absent hash 8 (λ _, true) m k v AssignYes
        ltac:(lia) Hm Hk) as [(m' & it & -> & Hok & Ha & _)|(? & _ & _ & _ & _ & ?)];
        done.
  - by destruct (erase_ok hash 8 m k Hm) as (m' & -> & Hok & Ha).
  - destruct (reserve_ok hash (λ _, true) m n Hm) as (Hok & Ha & _ & Hr).
    destruct Hr as [->|[_ [? ?]]]; [|done]. done.
  - destruct (clear_ok hash m Hm). done.
  - by rewrite (ok_size _ _ Hm).
Qed.

Lemma run_simulates ops m :
  map_ok hash m → run run_op m ops = run spec_op (abs m) ops.
Proof.
  revert m. induction ops as [|op ops IH]; intros m Hm; simpl; [done|].
  destruct (run_op_simulates m op Hm) as (Hok & Ha & ->).
  f_equal. rewrite <- Ha. by apply IH.
Qed.

(** C5: whatever the hash function, a caller cannot tell the incremental hash
    map from a finite map: over any sequence of finds, emplaces, assignments,
    erases, reserves and clears, migrations in flight included, every answer
    is the finite map's. *)
Theorem rehash_map_is_finite_map ops :
  run run_op make_empty ops = run spec_op ∅ ops.
Proof. apply run_simulates, make_empty_ok. Qed.

(** C40: no operation pays for the table.  In a map in use, the share of the
    migration an insert pays is at most eight slots; after it the incoming
    table always has room, so making room neither completes the migration nor
    allocates; and a settled table is at most half full, tombstones counted. *)
Theorem no_operation_stalls (m : RehashMap.t (K:=K) (V:=V)) :
  in_use hash m →
  (if is_migrating m then True
   else 2 * used (current m) ≤ capacity (current m)) ∧
  ∃ m1, step_migration hash 8 m = Returns m1 ∧
    (is_migrating m1 = true → ∀ mem,
       migration_slots_remaining m = migration_slots_remaining m1 + 8 ∧
       make_room_for_one hash 8 mem m1 = (m1, Returns ())) ∧
    (is_migrating m = true → is_migrating m1 = false →
       migration_slots_remaining m ≤ 8).
Proof.
  intros Hu. destruct (in_use_inv hash m Hu) as [Hm Hl].
  split; [unfold load in Hl; by destruct (is_migrating m)|].
  destruct (load_step hash m Hm Hl) as (m1 & Hst & Hm1 & Hl1 & _).
  exists m1. split; [done|]. unfold migration_slots_remaining.
  destruct (ok_state _ _ Hm) as [Hset|Hmig].
  - rewrite step_migration_settled in Hst by done. injection Hst as <-.
    rewrite (settled_not_migrating hash) by done. done.
  - rewrite (migrating_is_migrating hash m) by done.
    destruct (step_migration_migrating hash 8 m Hmig)
      as (m2 & Hst' & _ & _ & Hcase). rewrite Hst in Hst'. injection Hst' as <-.
    split.
    + intros Hmig1 mem. rewrite Hmig1.
      destruct Hcase as [(Hmv & Hc & Hlt)|(Hset & _)].
      2: { by rewrite (settled_not_migrating hash) in Hmig1. }
      rewrite (moved_cap _ _ _ Hmv). split; [lia|]. by apply load_room.
    + intros _ Hnm. destruct Hcase as [(Hmv & _)|_].
      { rewrite (migrating_is_migrating hash) in Hnm by apply Hmv. done. }
      unfold step_migration in Hst.
      rewrite (migrating_is_migrating hash) in Hst by done.
      destruct (move_slots_moved hash 8 m Hmig) as (m2 & Hmv2 & Hmv & Hc).
      rewrite Hmv2 in Hst. simpl in Hst. injection Hst as <-.
      rewrite (moved_cap _ _ _ Hmv), Hc in Hnm.
      destruct (Nat.leb_spec (capacity (current m))
        ((migration_cursor m + 8) `min` capacity (current m))); [lia|].
      rewrite (migrating_is_migrating hash) in Hnm by apply Hmv. done.
Qed.

(** a walk of the map visits every entry exactly once, while entries are
    being moved as much as when they are not, and every entry it visits is
    found by a lookup of its key. *)
Theorem walk_visits_every_entry_once (m : RehashMap.t (K:=K) (V:=V)) :
  in_use hash m →
  ∃ l, for_each m = Returns l ∧ NoDup l.*1 ∧ length l = size m ∧
    ∀ k v, (k, v) ∈ l ↔ lookup hash m k = Returns (Some v).
Proof.
  intros Hu. destruct (in_use_inv hash m Hu) as [Hm _].
  destruct (for_each_ok hash m Hm) as (l & Hl & Hp). exists l.
  split; [done|]. split; [|split].
  - rewrite Hp. apply NoDup_fst_map_to_list.
  - by rewrite Hp, (ok_size _ _ Hm), length_map_to_list.
  - intros k v. rewrite Hp, elem_of_map_to_list, lookup_abs by done.
    split; [congruence|by intros [= ?]].
Qed.

End properties.

(** ** A map in migration *)

(** Nine keys in a table of sixteen slots: the ninth begins a migration. *)
Definition demo_map : RehashMap.t (K:=nat) (V:=Z) :=
  foldl (λ m k, (emplace N.of_nat 8 (λ _, true) m k (Z.of_nat k)).1)
        make_empty (seq 0 9).

Lemma demo_map_in_use : in_use N.of_nat demo_map.
Proof.
  unfold demo_map, in_use.
  generalize (make_empty (K:=nat) (V:=Z)) at 1 2.
  induction (seq 0 9) as [|k ks IH]; intros m; simpl; [constructor|].
  eapply rtc_l; [apply (op_insert _ (λ _, true) m k (Z.of_nat k) AssignNo)|].
  apply IH.
Qed.

Lemma no_operation_stalls_witness :
  is_migrating demo_map = true ∧
  ∃ m1, step_migration N.of_nat 8 demo_map = Returns m1 ∧
    is_migrating m1 = true ∧
    make_room_for_one N.of_nat 8 (λ _, true) m1 = (m1, Returns ()).
Proof.
  destruct (no_operation_stalls N.of_nat demo_map demo_map_in_use)
    as (_ & m1 & Hs & Hm & _).
  split; [vm_compute; reflexivity|]. exists m1. split; [done|].
  assert (is_migrating m1 = true) as Hmig.
  { vm_compute in Hs. injection Hs as <-. reflexivity. }
  split; [done|]. by apply Hm.
Defined.
