(* ===== verification/SlotStore.v ===== *)
(** Records in a memory-mapped file: pubsub_itc_fw/MappedSlotStore.{hpp,cpp}.

    [Region] is what the file holds: the header and the slots, each with its
    header and its record.  [SlotStore] is the class: the object's fields with
    the region it has mapped, one definition per member function.  The file
    outlives the object and is mapped shared, so what the region holds when a
    process dies is what the next process opens; [open] takes the file's
    content and gives it back.  Reading a slot outside the region, and using a
    store that is not open, are undefined.

    The theorems show that a new store is well formed and hands out every slot
    once, that what is on the free list is never live, and that reading back a
    region whatever its free list holds leaves exactly the records stamped at
    or below the published position, with every other slot free. *)

From S2P Require Import Prelude.
#[local] Open Scope Z_scope.
#[local] Open Scope venue_scope.

(** A record as the store sees it: bytes.  [blank] is a record of zero bytes,
    and [cut n] keeps a record's first [n] bytes and zeroes the rest. *)
Class Payload (P : Type) := {
  blank : P;
  cut : Z → P → P
}.

Module SlotStore.

Definition store_magic : Z := 0x534C4F54.
Definition store_version : Z := 5.
Definition slot_free : Z := 0.
Definition slot_live : Z := 1.
Definition page_size : Z := 4096.
Definition no_slot : Z := 0xFFFFFFFF.
Definition owner_value_count : Z := 4.

(** The sizes of the two headers on the supported platform. *)
Definition header_bytes : Z := 64.
Definition slot_header_bytes : Z := 16.

Section store.
Context {P : Type} `{Payload P}.

Record Slot := mk_slot {
  state : Z;
  next_free : Z;
  seq_no : Z;
  payload : P
}.

Record Region := mk_region {
  magic : Z;
  version : Z;
  payload_size : Z;
  slot_count : Z;
  published_ : Z;
  free_head : Z;
  payload_format : Z;
  owner_values : list Z;
  slots : list Slot
}.

(** The object: [base_] with the region it points to, and the fields [open]
    sets. *)
Record t := mk {
  base : option Region;
  payload_size_ : Z;
  slot_count_ : Z
}.

(** A store object before [open]. *)
Definition make : t := mk None 0 0.

Definition is_open (s : t) : bool := if base s is Some _ then true else false.

Definition capacity (s : t) : Z := slot_count_ s.

Definition header (s : t) : outcome Region :=
  match base s with
  | Some r => Returns r
  | None => Throws UndefinedBehaviour
  end.

Definition with_region (s : t) (r : Region) : t :=
  mk (Some r) (payload_size_ s) (slot_count_ s).

(** *** The file *)

Definition slot_stride (ps : Z) : Z :=
  Z.land (slot_header_bytes + ps + 7) (Z.lnot 7).

Definition mapped_size (ps count : Z) : Z :=
  Z.land (header_bytes + slot_stride ps * count + page_size - 1)
         (Z.lnot (page_size - 1)).

(** Bytes a file grows by read as zero. *)
Definition zero_slot : Slot := mk_slot 0 0 0 blank.

Definition zero_region (count : Z) : Region :=
  mk_region 0 0 0 0 0 0 0 [0; 0; 0; 0] (replicate (Z.to_nat count) zero_slot).

(** What [ftruncate] to [size] bytes leaves of the slot that starts at [off]:
    the bytes past the end are lost, and read as zero if the file grows again.
    The end of the file is a whole number of pages and a slot starts at a
    multiple of eight bytes, so the first two words of a slot are cut
    together. *)
Definition truncate_slot (size off stride : Z) (s : Slot) : Slot :=
  if off + stride <=? size then s
  else if size <=? off then zero_slot
  else mk_slot (state s) (next_free s)
         (if slot_header_bytes <=? size - off then seq_no s else 0)
         (cut (size - off - slot_header_bytes) (payload s)).

Definition ftruncate (size : Z) (r : Region) : Region :=
  mk_region (magic r) (version r) (payload_size r) (slot_count r)
    (published_ r) (free_head r) (payload_format r) (owner_values r)
    (imap (λ i s, truncate_slot size
             (header_bytes + Z.of_nat i * slot_stride (payload_size r))
             (slot_stride (payload_size r)) s) (slots r)).

(** How the operating system answers the calls of [open]. *)
Inductive OsAnswer := OsOk | OpenFails | FtruncateFails | MmapFails.

(** The loop that lays out a new store's slots, from slot [i] on. *)
Fixpoint lay_out (count i : Z) (l : list Slot) : list Slot :=
  match l with
  | [] => []
  | s :: l => mk_slot slot_free (if i + 1 <? count then i + 1 else no_slot) 0
                (payload s) :: lay_out count (i + 1) l
  end.

Definition new_region (r : Region) (ps count format : Z) : Region :=
  mk_region store_magic store_version ps count 0 0 format [0; 0; 0; 0]
    (lay_out count 0 (slots r)).

(** [open], with the content of the file before, [None] for no file or an empty
    one, and after. *)
Definition open (os : OsAnswer) (file : option Region) (ps count format : Z)
    (s : t) : t * option Region * outcome bool :=
  if (ps =? 0) || (count =? 0) || (count =? no_slot)
  then (s, file, Throws PreconditionAssertion)
  else
    let s := mk (base s) ps count in
    match os with
    | OpenFails | FtruncateFails => (s, file, Throws PubSubItcException)
    | _ =>
        let sized := match file with
                     | Some r => ftruncate (mapped_size ps count) r
                     | None => zero_region count
                     end in
        match os with
        | MmapFails => (mk None ps count, Some sized, Throws PubSubItcException)
        | _ =>
            match file with
            | Some _ =>
                if negb (magic sized =? store_magic)
                then (mk None ps count, Some sized, Throws PubSubItcException)
                else if negb (version sized =? store_version)
                        || negb (payload_size sized =? ps)
                        || negb (slot_count sized =? count)
                        || negb (payload_format sized =? format)
                then (mk None ps count, Some sized, Throws PubSubItcException)
                else (mk (Some sized) ps count, Some sized, Returns true)
            | None =>
                let r := new_region sized ps count format in
                (mk (Some r) ps count, Some r, Returns false)
            end
        end
    end.

(** [close]: the mapping goes, the file stays. *)
Definition close (s : t) : t := mk None (payload_size_ s) (slot_count_ s).

(** *** The mapped records *)

Definition slot (r : Region) (i : Z) : outcome Slot := at_index (slots r) i.

Definition set_slot (r : Region) (i : Z) (x : Slot) : Region :=
  mk_region (magic r) (version r) (payload_size r) (slot_count r)
    (published_ r) (free_head r) (payload_format r) (owner_values r)
    (<[Z.to_nat i := x]> (slots r)).

Definition set_free_head (r : Region) (h : Z) : Region :=
  mk_region (magic r) (version r) (payload_size r) (slot_count r)
    (published_ r) h (payload_format r) (owner_values r) (slots r).

Definition acquire (s : t) : outcome (t * Z) :=
  let! hdr := header s in
  let head := free_head hdr in
  if head =? no_slot then Returns (s, no_slot)
  else let! x := slot hdr head in
       Returns (with_region s (set_free_head hdr (next_free x)), head).

(** Writing the record's bytes, and reading them. *)
Definition write_payload (s : t) (i : Z) (p : P) : outcome t :=
  let! hdr := header s in
  let! x := slot hdr i in
  Returns (with_region s
    (set_slot hdr i (mk_slot (state x) (next_free x) (seq_no x) p))).

Definition read_payload (s : t) (i : Z) : outcome P :=
  let! hdr := header s in
  let! x := slot hdr i in
  Returns (payload x).

Definition commit (s : t) (i seq : Z) : outcome t :=
  let! hdr := header s in
  let! x := slot hdr i in
  Returns (with_region s
    (set_slot hdr i (mk_slot slot_live (next_free x) seq (payload x)))).

Definition release (s : t) (i : Z) : outcome t :=
  let! hdr := header s in
  let! x := slot hdr i in
  Returns (with_region s (set_free_head
    (set_slot hdr i (mk_slot slot_free (free_head hdr) (seq_no x) (payload x)))
    i)).

Definition set_owner_value (s : t) (index value : Z) : outcome t :=
  if (index <? 0) || (owner_value_count <=? index)
  then Throws PreconditionAssertion
  else
    let! r := header s in
    Returns (with_region s
      (mk_region (magic r) (version r) (payload_size r) (slot_count r)
         (published_ r) (free_head r) (payload_format r)
         (<[Z.to_nat index := value]> (owner_values r)) (slots r))).

Definition owner_value (s : t) (index : Z) : outcome Z :=
  if (index <? 0) || (owner_value_count <=? index)
  then Throws PreconditionAssertion
  else let! r := header s in at_index (owner_values r) index.

Definition mark_unusable (s : t) : outcome t :=
  let! r := header s in
  Returns (with_region s
    (mk_region 0 (version r) (payload_size r) (slot_count r) (published_ r)
       (free_head r) (payload_format r) (owner_values r) (slots r))).

Definition publish (s : t) (seq : Z) : outcome t :=
  let! r := header s in
  Returns (with_region s
    (mk_region (magic r) (version r) (payload_size r) (slot_count r) seq
       (free_head r) (payload_format r) (owner_values r) (slots r))).

Definition published (s : t) : outcome Z :=
  let! r := header s in Returns (published_ r).

Definition is_live (s : t) (i : Z) : outcome bool :=
  let! r := header s in
  let! x := slot r i in
  Returns (state x =? slot_live).

Definition slot_seq_no (s : t) (i : Z) : outcome Z :=
  let! r := header s in
  let! x := slot r i in
  Returns (seq_no x).

Definition is_recoverable (s : t) (i : Z) : outcome bool :=
  let! stamp := slot_seq_no s i in
  let! live := is_live s i in
  let! through := published s in
  Returns (live && (0 <? stamp) && (stamp <=? through)).

(** [rebuild_free_list]: the loop, backwards over the first [n] slots, with
    the head of the list built so far and how many are recoverable. *)
Fixpoint rebuild_from (n : nat) (s : t) (head recoverable : Z)
    : outcome (t * Z * Z) :=
  match n with
  | O => Returns (s, head, recoverable)
  | S n =>
      let index := Z.of_nat n in
      let! keep := is_recoverable s index in
      if keep then rebuild_from n s head (recoverable + 1)
      else
        let! r := header s in
        let! x := slot r index in
        rebuild_from n
          (with_region s
             (set_slot r index
                (mk_slot slot_free head (seq_no x) (payload x))))
          index recoverable
  end.

Definition rebuild_free_list (s : t) : outcome (t * Z) :=
  let! res := rebuild_from (Z.to_nat (slot_count_ s)) s no_slot 0 in
  let '(s', head, recoverable) := res in
  let! r := header s' in
  Returns (with_region s' (set_free_head r head), recoverable).

End store.
Arguments Slot P : clear implicits.
Arguments Region P : clear implicits.
Arguments t P : clear implicits.

End SlotStore.

Import SlotStore.

(** ** The free list *)

Section free_list.
Context {P : Type} `{Payload P}.

Implicit Types (r : Region P) (s : SlotStore.t P) (x : Slot P) (p : P).

(** The slots the free list visits from [h]. *)
Fixpoint chain (l : list (Slot P)) (h : Z) (fl : list Z) : Prop :=
  match fl with
  | [] => h = no_slot
  | i :: fl => h = i ∧ 0 ≤ i < no_slot ∧
      ∃ x, l !! Z.to_nat i = Some x ∧ chain l (next_free x) fl
  end.

(** The region of an open store, its slots numbered from zero. *)
Record mapped s r : Prop := {
  mapped_base : base s = Some r;
  mapped_count : slot_count_ s = Z.of_nat (length (slots r));
  mapped_bound : slot_count_ s < no_slot;
  mapped_header : slot_count r = slot_count_ s;
  mapped_owner : length (owner_values r) = 4%nat
}.

(** Every slot is live, on the free list, or taken from it and not yet
    committed. *)
Record free_list_ok r (fl held : list Z) : Prop := {
  fl_chain : chain (slots r) (free_head r) fl;
  fl_nodup : NoDup (fl ++ held);
  fl_range : ∀ i, i ∈ fl ++ held → 0 ≤ i < Z.of_nat (length (slots r));
  fl_free : ∀ (i : nat) x, slots r !! i = Some x →
    Z.of_nat i ∈ fl ++ held ↔ state x ≠ slot_live
}.

Lemma chain_insert l h fl i x :
  i ∉ fl → 0 ≤ i → chain l h fl → chain (<[Z.to_nat i := x]> l) h fl.
Proof.
  intros Hni Hi. revert h Hni. induction fl as [|j fl IH]; intros h Hni; simpl.
  { done. }
  intros (-> & Hj & y & Hy & Hc). split; [done|]. split; [done|].
  apply not_elem_of_cons in Hni as [Hne Hni].
  exists y. split; [|by apply IH].
  rewrite list_lookup_insert_ne; [done|]. intros Heq. apply Hne. lia.
Qed.

(** Writing one slot keeps the list when its links and its states agree. *)
Lemma free_list_set r fl held i x y fl' held' h :
  free_list_ok r fl held → slots r !! Z.to_nat i = Some x → 0 ≤ i →
  chain (<[Z.to_nat i := y]> (slots r)) h fl' →
  NoDup (fl' ++ held') →
  (i ∈ fl' ++ held' ↔ state y ≠ slot_live) →
  (∀ j, j ≠ i → j ∈ fl' ++ held' ↔ j ∈ fl ++ held) →
  free_list_ok (set_free_head (set_slot r i y) h) fl' held'.
Proof.
  intros [Hc Hnd Hr Hf] Hx Hi Hc' Hnd' Hy Hj. split; simpl; try done.
  - intros j Hin. rewrite length_insert.
    destruct (decide (j = i)) as [->|Hne].
    + apply lookup_lt_Some in Hx. lia.
    + by apply Hr, Hj.
  - intros j z Hz. apply list_lookup_insert_Some in Hz
      as [(Hji & <- & _)|[Hji Hz]].
    + rewrite <- Hji, Z2Nat.id by done. done.
    + rewrite Hj by lia. by apply Hf.
Qed.

(** *** Taking and giving back slots *)

Lemma acquire_ok s r fl :
  mapped s r → free_list_ok r fl [] →
  match fl with
  | [] => acquire s = Returns (s, no_slot)
  | i :: fl' => ∃ h x, slots r !! Z.to_nat i = Some x ∧
      acquire s = Returns (with_region s (set_free_head r h), i) ∧
      free_list_ok (set_free_head r h) fl' [i]
  end.
Proof.
  intros Hm [Hc Hnd Hr Hf]. unfold acquire, header. rewrite (mapped_base _ _ Hm).
  simpl. destruct fl as [|i fl]; simpl in Hc.
  { by rewrite Hc. }
  destruct Hc as (-> & Hi & x & Hx & Hc).
  destruct (Z.eqb_spec i no_slot); [lia|].
  unfold slot. rewrite (at_index_ok _ _ x) by (done || lia). simpl.
  exists (next_free x), x. split; [done|]. split; [done|].
  rewrite app_nil_r in *. split; simpl; [done| | |].
  - rewrite Permutation_app_comm. done.
  - intros j. rewrite (Permutation_app_comm fl [i]). apply Hr.
  - intros j y Hy. rewrite (Permutation_app_comm fl [i]). by apply Hf.
Qed.

Lemma write_payload_ok s r fl held i x p :
  mapped s r → free_list_ok r fl held → 0 ≤ i →
  slots r !! Z.to_nat i = Some x → i ∉ fl →
  let x' := mk_slot (state x) (next_free x) (seq_no x) p in
  write_payload s i p = Returns (with_region s (set_slot r i x')) ∧
  free_list_ok (set_slot r i x') fl held.
Proof.
  intros Hm Hok Hi Hx Hnf x'. split.
  { unfold write_payload, header, slot. rewrite (mapped_base _ _ Hm). simpl.
    by rewrite (at_index_ok _ _ x). }
  destruct (Hok). apply (free_list_set r fl held i x x' fl held (free_head r));
    try done; [by apply chain_insert|].
  unfold x'. simpl. rewrite <- (fl_free0 (Z.to_nat i) x Hx).
  by rewrite Z2Nat.id.
Qed.

Lemma commit_ok s r fl i x seq :
  mapped s r → free_list_ok r fl [i] → slots r !! Z.to_nat i = Some x →
  let x' := mk_slot slot_live (next_free x) seq (payload x) in
  commit s i seq = Returns (with_region s (set_slot r i x')) ∧
  free_list_ok (set_slot r i x') fl [].
Proof.
  intros Hm Hok Hx x'. destruct (Hok).
  assert (0 ≤ i) as Hi.
  { apply fl_range0. apply elem_of_app. right. by apply list_elem_of_singleton. }
  assert ((i ∉ fl) ∧ NoDup fl) as [Hnf Hnd].
  { apply NoDup_app in fl_nodup0 as (? & Hd & _). split; [|done].
    intros Hin. apply (Hd _ Hin). by apply list_elem_of_singleton. }
  split.
  { unfold commit, header, slot. rewrite (mapped_base _ _ Hm). simpl.
    by rewrite (at_index_ok _ _ x). }
  apply (free_list_set r fl [i] i x x' fl [] (free_head r)); try done.
  - by apply chain_insert.
  - by rewrite app_nil_r.
  - rewrite app_nil_r. simpl. split; [done|]. by intros [].
  - intros j Hj. rewrite app_nil_r, elem_of_app, list_elem_of_singleton.
    split; [by left|by intros [?|?]].
Qed.

Lemma release_ok s r fl i x :
  mapped s r → free_list_ok r fl [] → 0 ≤ i → slots r !! Z.to_nat i = Some x →
  state x = slot_live →
  let x' := mk_slot slot_free (free_head r) (seq_no x) (payload x) in
  release s i = Returns (with_region s (set_free_head (set_slot r i x') i)) ∧
  free_list_ok (set_free_head (set_slot r i x') i) (i :: fl) [].
Proof.
  intros Hm Hok Hi Hx Hl x'. destruct (Hok). rewrite app_nil_r in *.
  assert (i ∉ fl) as Hnf.
  { intros Hin. rewrite <- (Z2Nat.id i) in Hin by done.
    by apply (fl_free0 _ _ Hx) in Hin. }
  split.
  { unfold release, header, slot. rewrite (mapped_base _ _ Hm). simpl.
    by rewrite (at_index_ok _ _ x). }
  apply (free_list_set r fl [] i x x' (i :: fl) []); rewrite ?app_nil_r; try done.
  - simpl. split; [done|]. apply lookup_lt_Some in Hx as Hlt.
    pose proof (mapped_count _ _ Hm). pose proof (mapped_bound _ _ Hm).
    split; [lia|]. exists x'. split; [by apply list_lookup_insert_eq|].
    by apply chain_insert.
  - by constructor.
  - simpl. split; [done|]. intros _. by left.
  - intros j Hj. rewrite elem_of_cons. split; [by intros [?|?]|by right].
Qed.

Lemma mapped_with_region s r r' :
  mapped s r → length (slots r') = length (slots r) →
  length (owner_values r') = length (owner_values r) →
  slot_count r' = slot_count r →
  mapped (with_region s r') r'.
Proof.
  intros [] Hl Ho Hc. split; simpl; congruence.
Qed.

(** *** Reading a region back *)

(** [is_recoverable] of a slot, the published position being [through]. *)
Definition keeps (through : Z) x : bool :=
  (state x =? slot_live) && (0 <? seq_no x) && (seq_no x <=? through).

(** The first [n] slots that are not kept, in ascending order. *)
Fixpoint spare (through : Z) (l : list (Slot P)) (n : nat) : list Z :=
  match n with
  | O => []
  | S n => spare through l n ++
      match l !! n with
      | Some x => if keeps through x then [] else [Z.of_nat n]
      | None => []
      end
  end.

Lemma spare_spec through l n i :
  i ∈ spare through l n ↔
  ∃ x, 0 ≤ i < Z.of_nat n ∧ l !! Z.to_nat i = Some x ∧ keeps through x = false.
Proof.
  induction n as [|n IH]; cbn [spare].
  { split; [by intros ?%not_elem_of_nil|]. intros (x & ? & _). lia. }
  rewrite elem_of_app, IH. split.
  - intros [(x & ? & Hx & Hk)|Hin].
    { exists x. split; [lia|done]. }
    destruct (l !! n) as [x|] eqn:Hx; [|by apply not_elem_of_nil in Hin].
    destruct (keeps through x) eqn:Hk; [by apply not_elem_of_nil in Hin|].
    apply list_elem_of_singleton in Hin as ->. exists x. rewrite Nat2Z.id.
    split; [lia|done].
  - intros (x & Hi & Hx & Hk). destruct (decide (i = Z.of_nat n)) as [->|].
    + right. rewrite Nat2Z.id in Hx. rewrite Hx, Hk.
      by apply list_elem_of_singleton.
    + left. exists x. split; [lia|done].
Qed.

Lemma spare_nodup through l n : NoDup (spare through l n).
Proof.
  induction n as [|n IH]; cbn [spare]; [constructor|]. apply NoDup_app.
  split; [done|]. split.
  - intros i Hi Hin. apply spare_spec in Hi as (x & Hi & _).
    destruct (l !! n) as [y|]; [|by apply not_elem_of_nil in Hin].
    destruct (keeps through y); [by apply not_elem_of_nil in Hin|].
    apply list_elem_of_singleton in Hin. lia.
  - destruct (l !! n) as [y|]; [|constructor].
    destruct (keeps through y); [constructor|apply NoDup_singleton].
Qed.

Lemma spare_set through l n i x :
  (n ≤ i)%nat → spare through (<[i := x]> l) n = spare through l n.
Proof.
  induction n as [|n IH]; intros Hi; cbn [spare]; [done|].
  rewrite IH by lia. by rewrite list_lookup_insert_ne by lia.
Qed.

(** What a slot holds once the region has been read back. *)
Definition settled (through : Z) x x' : Prop :=
  seq_no x' = seq_no x ∧ payload x' = payload x ∧
  if keeps through x then x' = x else state x' = slot_free.

Lemma is_recoverable_ok s r i x :
  mapped s r → slots r !! i = Some x →
  is_recoverable s (Z.of_nat i) = Returns (keeps (published_ r) x).
Proof.
  intros Hm Hx. unfold is_recoverable, slot_seq_no, is_live, published, header.
  rewrite (mapped_base _ _ Hm). simpl. unfold slot.
  rewrite (at_index_ok _ _ x) by (rewrite ?Nat2Z.id; done || lia). done.
Qed.

(** Only slots and the free list change. *)
Definition same_header r r' : Prop :=
  magic r' = magic r ∧ version r' = version r ∧
  payload_size r' = payload_size r ∧ slot_count r' = slot_count r ∧
  published_ r' = published_ r ∧ payload_format r' = payload_format r ∧
  owner_values r' = owner_values r.

Lemma rebuild_from_ok n s r head count fl :
  mapped s r → (n ≤ length (slots r))%nat → chain (slots r) head fl →
  (∀ i, i ∈ fl → Z.of_nat n ≤ i) →
  ∃ r' head' count',
    rebuild_from n s head count = Returns (with_region s r', head', count') ∧
    same_header r r' ∧ length (slots r') = length (slots r) ∧
    chain (slots r') head' (spare (published_ r) (slots r) n ++ fl) ∧
    ∀ i x, slots r !! i = Some x →
      ∃ x', slots r' !! i = Some x' ∧
        if (i <? n)%nat then settled (published_ r) x x' else x' = x.
Proof.
  revert s r head count fl.
  induction n as [|n IH]; intros s r head count fl Hm Hn Hc Hfl.
  { exists r, head, count. simpl. split.
    - unfold with_region. rewrite <- (mapped_base _ _ Hm). by destruct s.
    - repeat split; eauto. }
  destruct (lookup_lt_is_Some_2 (slots r) n) as [x Hx]; [lia|].
  cbn [rebuild_from spare]. rewrite (is_recoverable_ok _ _ _ _ Hm Hx), Hx.
  cbn [obind]. destruct (keeps (published_ r) x) eqn:Hk.
  - rewrite app_nil_r. destruct (IH s r head (count + 1) fl)
      as (r' & h' & c' & Hr & Hh & Hl & Hch & Hs); [done|lia|done| |].
    { intros i Hi. specialize (Hfl i Hi). lia. }
    exists r', h', c'. do 4 (split; [done|]).
    intros i y Hy. destruct (Hs i y Hy) as (y' & Hy' & Hset).
    exists y'. split; [done|].
    destruct (Nat.ltb_spec i n), (Nat.ltb_spec i (S n)); try lia; try done.
    assert (i = n) as -> by lia. simplify_eq. split; [done|].
    split; [done|]. by rewrite Hk.
  - unfold header, slot. rewrite (mapped_base _ _ Hm). cbn [obind].
    rewrite (at_index_ok _ _ x) by (rewrite ?Nat2Z.id; done || lia).
    cbn [obind]. set (x0 := mk_slot slot_free head (seq_no x) (payload x)).
    assert (Hc1 : chain (slots (set_slot r (Z.of_nat n) x0)) (Z.of_nat n)
                    (Z.of_nat n :: fl)).
    { simpl. pose proof (mapped_count _ _ Hm). pose proof (mapped_bound _ _ Hm).
      split; [done|]. split; [lia|]. exists x0. rewrite Nat2Z.id.
      split; [apply list_lookup_insert_eq; lia|].
      rewrite <- (Nat2Z.id n) at 1. apply chain_insert; [|lia|done].
      intros Hin. specialize (Hfl _ Hin). lia. }
    destruct (IH (with_region s (set_slot r (Z.of_nat n) x0))
                (set_slot r (Z.of_nat n) x0) (Z.of_nat n) count
                (Z.of_nat n :: fl))
      as (r' & h' & c' & Hr & Hh & Hl & Hch & Hs); [| |done| |].
    { eapply mapped_with_region; [done| |done|done]. simpl. apply length_insert. }
    { simpl. rewrite length_insert. lia. }
    { intros i [-> | Hi]%elem_of_cons; [lia|]. specialize (Hfl i Hi). lia. }
    simpl in Hs, Hch, Hl. rewrite Nat2Z.id in Hs, Hch, Hl.
    rewrite length_insert in Hl. rewrite spare_set in Hch by lia.
    exists r', h', c'. split; [done|]. split; [done|]. split; [done|].
    split; [by rewrite <- app_assoc|].
    intros i y Hy. destruct (decide (i = n)) as [->|Hne].
    + simplify_eq. destruct (Hs n x0) as (y' & Hy' & Hset).
      { apply list_lookup_insert_eq. lia. }
      exists y'. split; [done|].
      destruct (Nat.ltb_spec n n), (Nat.ltb_spec n (S n)); try lia. subst y'.
      split; [done|]. split; [done|]. by rewrite Hk.
    + destruct (Hs i y) as (y' & Hy' & Hset).
      { by rewrite list_lookup_insert_ne. }
      exists y'. split; [done|].
      destruct (Nat.ltb_spec i n), (Nat.ltb_spec i (S n)); try lia; done.
Qed.

(** Reading back trusts nothing of the free list it finds. *)
Lemma rebuild_free_list_ok s r :
  mapped s r →
  ∃ r' n, rebuild_free_list s = Returns (with_region s r', n) ∧
    mapped (with_region s r') r' ∧ same_header r r' ∧
    (∃ fl, free_list_ok r' fl []) ∧
    ∀ i x, slots r !! i = Some x →
      ∃ x', slots r' !! i = Some x' ∧ settled (published_ r) x x'.
Proof.
  intros Hm. unfold rebuild_free_list.
  rewrite (mapped_count _ _ Hm), Nat2Z.id.
  destruct (rebuild_from_ok (length (slots r)) s r no_slot 0 [])
    as (r' & h & c & -> & Hh & Hl & Hch & Hs); [done..|by intros ? ?%not_elem_of_nil|].
  simpl. rewrite app_nil_r in Hch.
  exists (set_free_head r' h), c. split; [done|].
  assert (∀ i x, slots r !! i = Some x →
    ∃ x', slots r' !! i = Some x' ∧ settled (published_ r) x x') as Hset.
  { intros i x Hx. destruct (Hs i x Hx) as (x' & Hx' & Hx2). exists x'.
    split; [done|]. apply lookup_lt_Some in Hx.
    by destruct (Nat.ltb_spec i (length (slots r))); [|lia]. }
  split; [|split; [done|split; [|done]]].
  { destruct Hh as (_ & _ & _ & Hsc & _ & _ & Ho).
    eapply mapped_with_region; [done|done| |done]. simpl. by rewrite Ho. }
  exists (spare (published_ r) (slots r) (length (slots r))).
  split; simpl; rewrite ?app_nil_r; [done|apply spare_nodup| |].
  - intros i (x & Hi & _)%spare_spec. by rewrite Hl.
  - intros i x' Hx'. destruct (lookup_lt_is_Some_2 (slots r) i) as [x Hx].
    { rewrite <- Hl. by eapply lookup_lt_Some. }
    destruct (Hset i x Hx) as (x2 & Hx2 & _ & _ & Hk). simplify_eq.
    rewrite spare_spec, Nat2Z.id. apply lookup_lt_Some in Hx as Hlt.
    destruct (keeps (published_ r) x) eqn:Hkx.
    + subst. split; [intros (y & _ & Hy & Hky); congruence|].
      unfold keeps in Hkx. bool_to_prop. by intros [].
    + rewrite Hk. split; [done|]. intros _. exists x.
      split; [lia|done].
Qed.

End free_list.

(** ** Opening *)

Section opening.
Context {P : Type} `{Payload P}.

Implicit Types (r : Region P) (s : SlotStore.t P).

Lemma lay_out_length count i (l : list (Slot P)) :
  length (lay_out count i l) = length l.
Proof. revert i. induction l; intros; simpl; auto. Qed.

Lemma lay_out_lookup count i (l : list (Slot P)) (j : nat) x :
  lay_out count i l !! j = Some x →
  state x = slot_free ∧ seq_no x = 0 ∧
  next_free x = if i + Z.of_nat j + 1 <? count then i + Z.of_nat j + 1 else no_slot.
Proof.
  revert i j. induction l as [|y l IH]; intros i [|j] Hj; simplify_eq/=.
  - by rewrite Z.add_0_r.
  - destruct (IH (i + 1) j Hj) as (? & ? & ->).
    by replace (i + 1 + Z.of_nat j + 1) with (i + Z.of_nat (S j) + 1) by lia.
Qed.

Lemma lay_out_chain (l : list (Slot P)) n :
  (n ≤ length l)%nat → Z.of_nat (length l) < no_slot →
  chain (lay_out (Z.of_nat (length l)) 0 l)
    (if Z.of_nat (length l - n) <? Z.of_nat (length l)
     then Z.of_nat (length l - n) else no_slot)
    (seqZ (Z.of_nat (length l - n)) (Z.of_nat n)).
Proof.
  intros Hn Hlt. induction n as [|n IH].
  { rewrite Nat.sub_0_r. by destruct (Z.ltb_spec (Z.of_nat (length l))
      (Z.of_nat (length l))); [lia|]. }
  rewrite seqZ_cons by lia. cbn [chain].
  destruct (Z.ltb_spec (Z.of_nat (length l - S n)) (Z.of_nat (length l))); [|lia].
  split; [done|]. split; [lia|]. rewrite Nat2Z.id.
  destruct (lookup_lt_is_Some_2 (lay_out (Z.of_nat (length l)) 0 l)
    (length l - S n)) as [x Hx]; [rewrite lay_out_length; lia|].
  exists x. split; [done|].
  destruct (lay_out_lookup _ _ _ _ _ Hx) as (_ & _ & ->).
  replace (0 + Z.of_nat (length l - S n) + 1) with (Z.of_nat (length l - n)) by lia.
  replace (Z.succ (Z.of_nat (length l - S n))) with (Z.of_nat (length l - n)) by lia.
  replace (Z.pred (Z.of_nat (S n))) with (Z.of_nat n) by lia. apply IH. lia.
Qed.

Lemma open_new_ok ps count format s :
  0 < ps → 0 < count < no_slot →
  ∃ s' r, open OsOk None ps count format s = (s', Some r, Returns false) ∧
    mapped s' r ∧ published_ r = 0 ∧ owner_values r = [0; 0; 0; 0] ∧
    free_list_ok r (seqZ 0 count) [] ∧
    (∀ i x, slots r !! i = Some x → state x = slot_free).
Proof.
  intros Hps Hc. unfold open.
  destruct (Z.eqb_spec ps 0), (Z.eqb_spec count 0), (Z.eqb_spec count no_slot);
    try lia. simpl. do 2 eexists. split; [done|].
  assert (Hlen : length (replicate (Z.to_nat count) (zero_slot (P:=P)))
                 = Z.to_nat count) by apply length_replicate.
  split; [|split; [done|split; [done|split]]].
  - split; simpl; try done; [rewrite lay_out_length, Hlen|]; lia.
  - pose proof (lay_out_chain (replicate (Z.to_nat count) zero_slot)
      (Z.to_nat count)) as Hch. rewrite Hlen in Hch.
    rewrite Nat.sub_diag, Z2Nat.id in Hch by lia.
    split; simpl; rewrite ?app_nil_r.
    + specialize (Hch ltac:(lia) ltac:(lia)).
      change (Z.of_nat 0) with 0 in Hch.
      by destruct (Z.ltb_spec 0 count); [|lia].
    + apply NoDup_seqZ.
    + intros i. rewrite elem_of_seqZ, lay_out_length, Hlen. lia.
    + intros i x Hx. pose proof (lookup_lt_Some _ _ _ Hx) as Hi.
      rewrite lay_out_length, Hlen in Hi.
      destruct (lay_out_lookup _ _ _ _ _ Hx) as (-> & _).
      rewrite elem_of_seqZ. unfold slot_free, slot_live. lia.
  - intros i x Hx. by destruct (lay_out_lookup _ _ _ _ _ Hx).
Qed.

(** The slots that fit the file are as they were. *)
Lemma ftruncate_fits size r i x :
  slots r !! i = Some x →
  header_bytes + (Z.of_nat i + 1) * slot_stride (payload_size r) ≤ size →
  slots (ftruncate size r) !! i = Some x.
Proof.
  intros Hx Hfit. simpl. rewrite list_lookup_imap, Hx. simpl. f_equal.
  unfold truncate_slot.
  destruct (Z.leb_spec (header_bytes + Z.of_nat i * slot_stride (payload_size r)
    + slot_stride (payload_size r)) size); [done|lia].
Qed.

Lemma round_up_le z k : 0 ≤ k → z ≤ Z.land (z + (2 ^ k - 1)) (Z.lnot (2 ^ k - 1)).
Proof.
  intros Hk. pose proof (Z.pow_pos_nonneg 2 k).
  replace (2 ^ k - 1) with (Z.ones k) at 2 by (rewrite Z.ones_equiv; lia).
  rewrite <- Z.ldiff_land, Z.ldiff_ones_r, Z.shiftl_mul_pow2, Z.shiftr_div_pow2
    by done.
  pose proof (Z.div_mod (z + (2 ^ k - 1)) (2 ^ k)).
  pose proof (Z.mod_pos_bound (z + (2 ^ k - 1)) (2 ^ k)). lia.
Qed.

(** A region of the size asked for is mapped as it is. *)
Lemma ftruncate_same r :
  slot_count r = Z.of_nat (length (slots r)) → 0 ≤ payload_size r →
  ftruncate (mapped_size (payload_size r) (slot_count r)) r = r.
Proof.
  intros Hc Hp. unfold ftruncate. destruct r as [m v ps c pub fh fmt ov sl].
  simpl in *. f_equal. apply list_eq. intros i.
  rewrite list_lookup_imap. destruct (sl !! i) as [x|] eqn:Hx; [|done].
  simpl. f_equal. unfold truncate_slot. apply lookup_lt_Some in Hx.
  assert (0 ≤ slot_stride ps) as Hst.
  { pose proof (round_up_le (slot_header_bytes + ps) 3 ltac:(lia)) as Hr.
    change (2 ^ 3 - 1) with 7 in Hr. unfold slot_stride.
    unfold slot_header_bytes in *. lia. }
  pose proof (round_up_le (header_bytes + slot_stride ps * c) 12 ltac:(lia)) as Hr.
  change (2 ^ 12 - 1) with (page_size - 1) in Hr.
  destruct (Z.leb_spec (header_bytes + Z.of_nat i * slot_stride ps
    + slot_stride ps) (mapped_size ps c)) as [|Hgt]; [done|].
  exfalso. unfold mapped_size in Hgt. rewrite <- Z.add_sub_assoc in Hgt.
  assert ((Z.of_nat i + 1) * slot_stride ps ≤ slot_stride ps * c) by nia. lia.
Qed.

(** Opening the store a process left behind maps what it left. *)
Lemma open_existing_ok r s :
  magic r = store_magic → version r = store_version →
  slot_count r = Z.of_nat (length (slots r)) →
  0 < payload_size r → 0 < slot_count r < no_slot →
  open OsOk (Some r) (payload_size r) (slot_count r) (payload_format r) s
    = (mk (Some r) (payload_size r) (slot_count r), Some r, Returns true).
Proof.
  intros Hmag Hver Hc Hps Hcnt. unfold open.
  destruct (Z.eqb_spec (payload_size r) 0), (Z.eqb_spec (slot_count r) 0),
    (Z.eqb_spec (slot_count r) no_slot); try lia. simpl.
  rewrite ftruncate_same by (done || lia). rewrite Hmag, Hver, !Z.eqb_refl. done.
Qed.

End opening.

(** ** Properties *)

Section properties.
Context {P : Type} `{Payload P}.

Implicit Types (r : Region P) (s : SlotStore.t P).

(** Acquiring and committing slots until the store is full. *)
Fixpoint fill (n : nat) (seq : Z) s : outcome (SlotStore.t P * list Z) :=
  match n with
  | O => Returns (s, [])
  | S n =>
      let! a := acquire s in
      let! s' := commit (a.1) (a.2) seq in
      let! rest := fill n (seq + 1) s' in
      Returns (rest.1, a.2 :: rest.2)
  end.

Lemma fill_ok n seq s r fl :
  mapped s r → free_list_ok r fl [] → (n ≤ length fl)%nat →
  ∃ s' r', fill n seq s = Returns (s', take n fl) ∧
    mapped s' r' ∧ free_list_ok r' (drop n fl) [].
Proof.
  revert seq s r fl.
  induction n as [|n IH]; intros seq s r fl Hm Hf Hn; [by exists s, r|].
  destruct fl as [|i fl]; simpl in Hn; [lia|].
  destruct (acquire_ok s r _ Hm Hf) as (h & x & Hx & Ha & Hf1).
  cbn [fill]. rewrite Ha. cbn [obind fst snd].
  assert (mapped (with_region s (set_free_head r h)) (set_free_head r h)) as Hm1.
  { by eapply mapped_with_region. }
  destruct (commit_ok _ _ fl i x seq Hm1 Hf1 Hx) as [-> Hf2]. cbn [obind].
  match goal with |- context [fill n (seq + 1) (with_region ?s1 ?r1)] =>
    assert (mapped (with_region s1 r1) r1) as Hm2 end.
  { eapply mapped_with_region; [exact Hm1| |done|done]. simpl. apply length_insert. }
  destruct (IH (seq + 1) _ _ fl Hm2 Hf2) as (s' & r' & -> & Hm' & Hf'); [lia|].
  by exists s', r'.
Qed.

(** a new store hands out each of its slots once, in order, and then says
    it is full. *)
Theorem new_store_hands_out_every_slot ps count format s :
  0 < ps → 0 < count < no_slot →
  ∃ s1 r1 s2, open OsOk None ps count format s = (s1, Some r1, Returns false) ∧
    fill (Z.to_nat count) 1 s1 = Returns (s2, seqZ 0 count) ∧
    acquire s2 = Returns (s2, no_slot).
Proof.
  intros Hps Hc. destruct (open_new_ok ps count format s Hps Hc)
    as (s1 & r1 & Ho & Hm & _ & _ & Hf & _).
  assert (Hlen : length (seqZ 0 count) = Z.to_nat count) by apply length_seqZ.
  destruct (fill_ok (Z.to_nat count) 1 s1 r1 _ Hm Hf) as (s2 & r2 & Hfi & Hm2 & Hf2).
  { by rewrite Hlen. }
  rewrite take_ge in Hfi by lia. rewrite drop_ge in Hf2 by lia.
  exists s1, r1, s2. split; [done|]. split; [done|].
  exact (acquire_ok s2 r2 [] Hm2 Hf2).
Qed.

(** whatever a process left in the free list and in its unfinished slots,
    reading the region back leaves the records stamped above zero and at or
    below the published position live and untouched, every other slot free,
    the header's other values as they were, and a free list that holds each
    free slot exactly once and no live one. *)
Theorem rebuilding_trusts_only_published_records s r :
  mapped s r →
  ∃ r' n fl, rebuild_free_list s = Returns (with_region s r', n) ∧
    same_header r r' ∧ length (slots r') = length (slots r) ∧
    chain (slots r') (free_head r') fl ∧ NoDup fl ∧
    ∀ (i : nat) x, slots r !! i = Some x →
      ∃ x', slots r' !! i = Some x' ∧ payload x' = payload x ∧
        if keeps (published_ r) x
        then x' = x ∧ ¬ Z.of_nat i ∈ fl
        else state x' = slot_free ∧ Z.of_nat i ∈ fl.
Proof.
  intros Hm. destruct (rebuild_free_list_ok s r Hm)
    as (r' & n & Hr & Hm' & Hh & [fl Hf] & Hs).
  exists r', n, fl. split; [done|]. split; [done|]. split.
  { pose proof (mapped_count _ _ Hm). pose proof (mapped_count _ _ Hm') as Hc'.
    simpl in Hc'. lia. }
  pose proof (fl_nodup _ _ _ Hf) as Hnd. rewrite app_nil_r in Hnd.
  split; [by apply fl_chain with []|]. split; [done|].
  intros i x Hx. destruct (Hs i x Hx) as (x' & Hx' & _ & Hp & Hk).
  exists x'. split; [done|]. split; [done|].
  pose proof (fl_free _ _ _ Hf i x' Hx') as Hin. rewrite app_nil_r in Hin.
  destruct (keeps (published_ r) x) eqn:Hkx.
  - split; [done|]. subst. rewrite Hin. unfold keeps in Hkx. bool_to_prop.
    by intros [].
  - split; [done|]. rewrite Hin, Hk. done.
Qed.

(** A store marked unusable is refused by every later [open], whatever
    it asks for. *)
Theorem unusable_store_is_refused s r ps count format os fresh :
  mapped s r →
  ∃ s' r', mark_unusable s = Returns s' ∧ base s' = Some r' ∧
    slots r' = slots r ∧ published_ r' = published_ r ∧
    ∃ s'' f e, open os (Some r') ps count format fresh = (s'', f, Throws e).
Proof.
  intros Hm. unfold mark_unusable, header. rewrite (mapped_base _ _ Hm).
  do 2 eexists. split; [done|]. split; [done|]. split; [done|]. split; [done|].
  unfold open. case_if; [by do 3 eexists|].
  destruct os; by do 3 eexists.
Qed.

(** [open] cuts the file to the size it is asked for before it compares
    the header.  Asked for a smaller store it refuses, as it must, but a
    record past the new end is lost: the next process that asks for the right
    size is given the store, with a free slot where the live record was. *)
Theorem refused_open_loses_records r count (i : nat) x :
  magic r = store_magic → version r = store_version →
  slot_count r = Z.of_nat (length (slots r)) →
  0 < payload_size r → 0 < count → count < slot_count r → slot_count r < no_slot →
  slots r !! i = Some x → state x = slot_live →
  mapped_size (payload_size r) count
    ≤ header_bytes + Z.of_nat i * slot_stride (payload_size r) →
  ∃ s1 r1 s2 r2,
    open OsOk (Some r) (payload_size r) count (payload_format r) make
      = (s1, Some r1, Throws PubSubItcException) ∧
    open OsOk (Some r1) (payload_size r) (slot_count r) (payload_format r) make
      = (s2, Some r2, Returns true) ∧
    published_ r2 = published_ r ∧
    ∃ x', slots r2 !! i = Some x' ∧ state x' = slot_free.
Proof.
  intros Hmag Hver Hc Hps Hpos Hlt Hb Hx Hl Hcut.
  set (r1 := ftruncate (mapped_size (payload_size r) count) r).
  assert (Hc1 : slot_count r1 = Z.of_nat (length (slots r1))).
  { simpl. by rewrite length_imap. }
  exists (mk None (payload_size r) count), r1,
    (mk (Some r1) (payload_size r1) (slot_count r1)), r1. split.
  - unfold open.
    destruct (Z.eqb_spec (payload_size r) 0), (Z.eqb_spec count 0),
      (Z.eqb_spec count no_slot); try lia. cbn [orb].
    fold r1. change (magic r1) with (magic r). change (version r1) with (version r).
    change (slot_count r1) with (slot_count r). rewrite Hmag, Hver.
    destruct (Z.eqb_spec (slot_count r) count); [lia|].
    rewrite !orb_true_r. done.
  - split; [apply (open_existing_ok r1 make); [exact Hmag|exact Hver|exact Hc1|exact Hps|simpl; lia]|]. split; [done|].
    exists zero_slot. split; [|done]. unfold r1. simpl.
    rewrite list_lookup_imap, Hx. simpl. f_equal. unfold truncate_slot.
    pose proof (round_up_le (slot_header_bytes + payload_size r) 3 ltac:(lia)) as Hr.
    change (2 ^ 3 - 1) with 7 in Hr. fold (slot_stride (payload_size r)) in Hr.
    unfold slot_header_bytes in Hr.
    destruct (Z.leb_spec (header_bytes + Z.of_nat i * slot_stride (payload_size r)
      + slot_stride (payload_size r)) (mapped_size (payload_size r) count)); [lia|].
    destruct (Z.leb_spec (mapped_size (payload_size r) count)
      (header_bytes + Z.of_nat i * slot_stride (payload_size r))); [done|lia].
Qed.

End properties.

(** ** A store of numbers *)

(** Records of eight bytes, the lowest first. *)
#[local] Instance number_payload : Payload Z := {|
  blank := 0;
  cut n z := z mod 2 ^ (8 * n)
|}.

(** Three slots as a process might leave them: a published record, one written
    by work that did not finish, and a free list that loops. *)
Definition left_behind : Region Z :=
  mk_region store_magic store_version 8 3 7 2 0 [0; 0; 0; 0]
    [mk_slot slot_live 0 5 50; mk_slot slot_live 2 9 90; mk_slot slot_free 2 0 0].

Lemma left_behind_mapped : mapped (mk (Some left_behind) 8 3) left_behind.
Proof. by split. Qed.

(** A store of 300 live records, which asked for one slot keeps one page. *)
Definition three_hundred : Region Z :=
  mk_region store_magic store_version 8 300 300 no_slot 0 [0; 0; 0; 0]
    (replicate 300 (mk_slot slot_live no_slot 7 70)).

