(* ===== verification/OrderBook.v ===== *)
(** The order book: applications/matching_engine/OrderBook.{hpp,cpp},
    OrderKey.hpp, OrderEntry.hpp and applications/fix_common/SessionIdentity.hpp.

    [SessionIdentity], [OrderKey] and [OrderEntry] are the fixed-size records:
    a character array with its length is the string it holds, cut to the
    array's size when it is written.  [OrderBook] is the class: the region of
    records (SlotStore.v), the map from an order's key to its record, here any
    [KeyIndex] (RehashMap.v gives the one the code uses), and the values kept
    beside them.

    The theorems show that the book is a finite map from keys to orders kept
    in the region, that the check of its consistency never finds a problem,
    that removing the orders placed up to a position visits them in the order
    they were placed, and what a process that opens the region of one that
    died finds in it. *)

From stdpp Require Import sorting.
From S2P Require Import Prelude KeyIndex SlotStore RehashMap.
#[local] Open Scope Z_scope.
#[local] Open Scope venue_scope.

(** [std::string_view] cut to [n] characters, as [memcpy] into an array. *)
Definition clip (n : nat) (s : string) : string := String.substring 0 n s.

(** One step of FNV-1a on 64 bits. *)
Definition fnv_step (hash byte : N) : N :=
  (N.lxor hash byte * 1099511628211) mod 2 ^ 64.

Fixpoint fnv_string (hash : N) (s : string) : N :=
  match s with
  | EmptyString => hash
  | String c s => fnv_string (fnv_step hash (Ascii.N_of_ascii c)) s
  end.

Definition max_cl_ord_id_length : nat := 64.
Definition max_comp_id_length : nat := 64.
Definition max_symbol_length : nat := 16.
Definition max_qty_length : nat := 24.

Module SessionIdentity.

Record t := mk { protocol : Z; comp_id : string }.

Definition make (id : string) (protocol : Z) : t :=
  mk protocol (clip max_comp_id_length id).

Definition empty (s : t) : bool := (String.length (comp_id s) =? 0)%nat.

(** The two bytes of the protocol, the lower first, then the comp id. *)
Definition hash (s : t) : N :=
  let p := Z.to_N (protocol s mod 2 ^ 16) in
  fnv_string
    (fnv_step (fnv_step 14695981039346656037 (p mod 256)%N) (p / 256)%N)
    (comp_id s).

#[global] Instance eq_dec : EqDecision t.
Proof. solve_decision. Defined.

#[global] Instance countable : Countable t.
Proof.
  apply (inj_countable' (λ s, (protocol s, comp_id s)) (λ p, mk p.1 p.2)).
  by intros [].
Defined.

End SessionIdentity.

Module OrderKey.

Record t := mk { session : SessionIdentity.t; cl_ord_id : string }.

Definition fits (id : string) : bool :=
  (String.length id <=? max_cl_ord_id_length)%nat.

Definition make (session : SessionIdentity.t) (id : string) : t :=
  mk session (clip max_cl_ord_id_length id).

(** [OrderKeyHash]. *)
Definition hash (k : t) : N :=
  fnv_string (SessionIdentity.hash (session k)) (cl_ord_id k).

#[global] Instance eq_dec : EqDecision t.
Proof. solve_decision. Defined.

#[global] Instance countable : Countable t.
Proof.
  apply (inj_countable' (λ k, (session k, cl_ord_id k)) (λ p, mk p.1 p.2)).
  by intros [].
Defined.

End OrderKey.

(** A resting order.  [side], [ord_type] and [time_in_force] are values of
    enumerations of the generated messages, which the engine only passes on:
    their numbers on the wire. *)
Module OrderEntry.

Record t := mk {
  placed_at_seq_no : Z;
  session : SessionIdentity.t;
  side : Z;
  ord_type : Z;
  has_time_in_force : bool;
  time_in_force : Z;
  has_expire_time : bool;
  expire_time : Z;
  has_price : bool;
  cl_ord_id : string;
  symbol : string;
  order_qty : string;
  price : string
}.

(** [OrderEntry{}], with the default session. *)
Definition blank_entry : t :=
  mk 0 (SessionIdentity.mk 1 "") 0 0 false 0 false 0 false "" "" "" "".

(** [add] writes the key's two parts into the record. *)
Definition file_under (k : OrderKey.t) (e : t) : t :=
  mk (placed_at_seq_no e) (OrderKey.session k) (side e) (ord_type e)
     (has_time_in_force e) (time_in_force e) (has_expire_time e)
     (expire_time e) (has_price e)
     (clip max_cl_ord_id_length (OrderKey.cl_ord_id k)) (symbol e)
     (order_qty e) (price e).

(** The key a record read back is filed under. *)
Definition key_of (e : t) : OrderKey.t :=
  OrderKey.make (session e) (cl_ord_id e).

End OrderEntry.

Module OrderBook.

Section book.
Context {I : Type} `{KI : KeyIndex I OrderKey.t Z}.

Abbreviation Region := (SlotStore.Region OrderEntry.t).

Definition record_format : Z := 1.
Definition halted_value : Z := 0.
Definition voids_known_through_value : Z := 1.
Definition applying_value : Z := 2.

Record t := mk {
  store : SlotStore.t OrderEntry.t;
  halted : bool;
  voids_known_through : Z;
  applying_when_opened : Z;
  index : I
}.

(** The constructor. *)
Definition make : t := mk SlotStore.make false 0 0 ix_empty.

Definition with_store (b : t) (s : SlotStore.t OrderEntry.t) : t :=
  mk s (halted b) (voids_known_through b) (applying_when_opened b) (index b).

Definition with_index (b : t) (i : I) : t :=
  mk (store b) (halted b) (voids_known_through b) (applying_when_opened b) i.

(** A call that changes the region. *)
Definition store_does (f : SlotStore.t OrderEntry.t →
    outcome (SlotStore.t OrderEntry.t)) : comp t unit :=
  λ b, match f (store b) with
       | Returns s => (with_store b s, Returns ())
       | Throws e => (b, Throws e)
       end.

Definition is_open (b : t) : bool := SlotStore.is_open (store b).

Definition region_capacity (b : t) : Z := SlotStore.capacity (store b).

Definition size (b : t) : nat := ix_size (index b).

Definition entry_at (b : t) (slot : Z) : outcome OrderEntry.t :=
  SlotStore.read_payload (store b) slot.

(** [open]: [entry_size] is [sizeof(OrderEntry)], and the file's content comes
    back with the book. *)
Definition open `{Payload OrderEntry.t} (mem : nat → bool)
    (os : SlotStore.OsAnswer) (file : option Region) (entry_size : Z)
    (region_path : string) (region_capacity : Z) (map_capacity : nat) (b : t)
    : t * option Region * outcome bool :=
  if bool_decide (region_path = ""%string)
  then (b, file, Throws PreconditionAssertion)
  else
    match SlotStore.open os file entry_size region_capacity record_format
            (store b) with
    | (s, file, Throws e) => (with_store b s, file, Throws e)
    | (s, file, Returns existed) =>
        match (let! h := SlotStore.owner_value s halted_value in
               let! v := SlotStore.owner_value s voids_known_through_value in
               let! a := SlotStore.owner_value s applying_value in
               Returns (h, v, a)) with
        | Throws e => (with_store b s, file, Throws e)
        | Returns (h, v, a) =>
            match ix_reserve mem (index b) map_capacity with
            | (i, Returns _) =>
                (mk s (negb (h =? 0)) v a i, file, Returns existed)
            | (i, Throws e) => (mk s (negb (h =? 0)) v a i, file, Throws e)
            end
        end
    end.

Definition contains (b : t) (key : OrderKey.t) : outcome bool :=
  let! found := ix_lookup (index b) key in
  Returns (if found is Some _ then true else false).

Definition find (b : t) (key : OrderKey.t) : outcome (option OrderEntry.t) :=
  let! found := ix_lookup (index b) key in
  match found with
  | None => Returns None
  | Some slot => let! e := entry_at b slot in Returns (Some e)
  end.

Definition acquire_slot : comp t Z := λ b,
  match SlotStore.acquire (store b) with
  | Returns (s, i) => (with_store b s, Returns i)
  | Throws e => (b, Throws e)
  end.

Definition index_emplace (mem : nat → bool) (key : OrderKey.t) (slot : Z)
    : comp t unit := λ b,
  match ix_emplace mem (index b) key slot with
  | (i, Returns _) => (with_index b i, Returns ())
  | (i, Throws e) => (with_index b i, Throws e)
  end.

Definition index_erase (key : OrderKey.t) : comp t unit := λ b,
  match ix_erase (index b) key with
  | Returns (i, _) => (with_index b i, Returns ())
  | Throws e => (b, Throws e)
  end.

Definition add (mem : nat → bool) (key : OrderKey.t) (entry : OrderEntry.t)
    (seq_no : Z) : comp t bool :=
  slot ← acquire_slot;
  if slot =? SlotStore.no_slot then mret false
  else
    store_does (λ s, SlotStore.write_payload s slot
                       (OrderEntry.file_under key entry)) ;;
    store_does (λ s, SlotStore.commit s slot seq_no) ;;
    try_catch (index_emplace mem key slot)
      (λ e, store_does (λ s, SlotStore.release s slot) ;; throw e) ;;
    mret true.

(** [remove]: erasing through the iterator [find] returned is erasing the
    key. *)
Definition remove (key : OrderKey.t) : comp t bool :=
  found ← ask (λ b, ix_lookup (index b) key);
  match found with
  | None => mret false
  | Some slot =>
      index_erase key ;;
      store_does (λ s, SlotStore.release s slot) ;;
      mret true
  end.

(** [clear]: the walk, then the releases it makes, then the map's [clear]. *)
Fixpoint release_each (l : list (OrderKey.t * Z)) : comp t unit :=
  match l with
  | [] => mret ()
  | kv :: l => store_does (λ s, SlotStore.release s kv.2) ;; release_each l
  end.

Definition clear : comp t unit :=
  l ← ask (λ b, ix_walk (index b));
  release_each l ;;
  modify (λ b, with_index b (ix_clear (index b))).

(** [Recovery]. *)
Record Recovery := mk_recovery {
  orders_found : nat;
  discarded : nat;
  published_found : Z
}.

(** The loop of [recover], with [n] slots still to read. *)
Fixpoint recover_from (mem : nat → bool) (n : nat) (slot : Z) (found : Recovery)
    : comp t Recovery :=
  match n with
  | O => mret found
  | S n =>
      recoverable ← ask (λ b, SlotStore.is_recoverable (store b) slot);
      if recoverable : bool then
        entry ← ask (λ b, entry_at b slot);
        index_emplace mem (OrderEntry.key_of entry) slot ;;
        recover_from mem n (slot + 1)
          (mk_recovery (orders_found found + 1) (discarded found)
                       (published_found found))
      else
        live ← ask (λ b, SlotStore.is_live (store b) slot);
        recover_from mem n (slot + 1)
          (if live : bool
           then mk_recovery (orders_found found) (discarded found + 1)
                            (published_found found)
           else found)
  end.

Definition recover (mem : nat → bool) : comp t Recovery :=
  through ← ask (λ b, SlotStore.published (store b));
  capacity ← gets region_capacity;
  found ← recover_from mem (Z.to_nat capacity) 0 (mk_recovery 0 0 through);
  store_does (λ s, let! r := SlotStore.rebuild_free_list s in Returns (r.1)) ;;
  mret found.

Definition publish (seq_no : Z) : comp t unit :=
  store_does (λ s, SlotStore.publish s seq_no).

Definition mark_unusable : comp t unit := store_does SlotStore.mark_unusable.

Definition published (b : t) : outcome Z := SlotStore.published (store b).

(** Setting an owner value when the region is open. *)
Definition keep_value (i v : Z) : comp t unit := λ b,
  if is_open b then store_does (λ s, SlotStore.set_owner_value s i v) b
  else (b, Returns ()).

Definition set_halted (h : bool) : comp t unit :=
  modify (λ b, mk (store b) h (voids_known_through b)
                  (applying_when_opened b) (index b)) ;;
  keep_value halted_value (if h then 1 else 0).

Definition set_voids_known_through (void_seq_no : Z) : comp t unit :=
  modify (λ b, mk (store b) (halted b) void_seq_no
                  (applying_when_opened b) (index b)) ;;
  keep_value voids_known_through_value void_seq_no.

Definition set_applying (seq_no : Z) : comp t unit :=
  keep_value applying_value seq_no.

(** [consistency_problem]: what its text says. *)
Inductive problem :=
  | CountsDiffer (live orders : nat)
  | NotInUse (slot : Z)
  | HoldsOtherOrder (slot : Z)
  | LookupFails (slot : Z).

Fixpoint count_live (b : t) (n : nat) (slot : Z) : outcome nat :=
  match n with
  | O => Returns 0%nat
  | S n => let! live := SlotStore.is_live (store b) slot in
           let! rest := count_live b n (slot + 1) in
           Returns ((if live : bool then 1 else 0) + rest)%nat
  end.

Fixpoint check_each (b : t) (l : list (OrderKey.t * Z))
    : outcome (option problem) :=
  match l with
  | [] => Returns None
  | (key, slot) :: l =>
      let! live := SlotStore.is_live (store b) slot in
      if negb live then Returns (Some (NotInUse slot))
      else
        let! entry := entry_at b slot in
        if negb (bool_decide (OrderEntry.key_of entry = key))
        then Returns (Some (HoldsOtherOrder slot))
        else
          let! found := ix_lookup (index b) key in
          match found with
          | None => Returns (Some (LookupFails slot))
          | Some _ => check_each b l
          end
  end.

Definition consistency_problem (b : t) : outcome (option problem) :=
  let! live := count_live b (Z.to_nat (region_capacity b)) 0 in
  if negb (live =? size b)%nat
  then Returns (Some (CountsDiffer live (size b)))
  else let! l := ix_walk (index b) in check_each b l.

(** [std::pair<int64_t, SlotIndex>] and its order. *)
Definition placed_le (p q : Z * Z) : Prop :=
  p.1 < q.1 ∨ (p.1 = q.1 ∧ p.2 ≤ q.2).

#[global] Instance placed_le_dec : RelDecision placed_le.
Proof. intros p q. unfold placed_le. apply _. Defined.

(** The orders a walk finds, with the position each was placed at, and those
    at or below [through] when there is a bound. *)
Fixpoint collect_placed (b : t) (through : option Z)
    (l : list (OrderKey.t * Z)) : outcome (list (Z * Z)) :=
  match l with
  | [] => Returns []
  | kv :: l =>
      let! entry := entry_at b (kv.2) in
      let! rest := collect_placed b through l in
      let seq_no := OrderEntry.placed_at_seq_no entry in
      Returns (if (match through with Some p => seq_no <=? p | None => true end)
               then (seq_no, kv.2) :: rest else rest)
  end.

Definition placed_in_order (b : t) (through : option Z)
    : outcome (list (Z * Z)) :=
  let! l := ix_walk (index b) in
  let! placed := collect_placed b through l in
  Returns (merge_sort placed_le placed).

(** [for_each_in_order_placed], as the entries [fn] is called with. *)
Fixpoint read_each (b : t) (l : list (Z * Z)) : outcome (list OrderEntry.t) :=
  match l with
  | [] => Returns []
  | p :: l => let! e := entry_at b (p.2) in
              let! rest := read_each b l in
              Returns (e :: rest)
  end.

Definition for_each_in_order_placed (b : t) : outcome (list OrderEntry.t) :=
  let! l := placed_in_order b None in read_each b l.

(** [remove_placed_through], [fn] running on a state of its own. *)
Fixpoint remove_each {X} (fn : OrderEntry.t → comp X unit) (l : list (Z * Z))
    : comp (t * X) unit :=
  match l with
  | [] => mret ()
  | p :: l =>
      entry ← on_fst (ask (λ b, entry_at b (p.2)));
      on_snd (fn entry) ;;
      on_fst (index_erase (OrderEntry.key_of entry)) ;;
      on_fst (store_does (λ s, SlotStore.release s (p.2))) ;;
      remove_each fn l
  end.

Definition remove_placed_through {X} (placed_through : Z)
    (fn : OrderEntry.t → comp X unit) : comp (t * X) nat :=
  l ← on_fst (ask (λ b, placed_in_order b (Some placed_through)));
  remove_each fn l ;;
  mret (length l).

End book.
Arguments t I : clear implicits.

End OrderBook.

Import OrderBook.

(** ** Keys *)

Lemma clip_fits n s : (String.length s ≤ n)%nat → clip n s = s.
Proof.
  unfold clip. revert n. induction s as [|c s IH]; intros [|n] Hn; simpl in *;
    try done; [lia|]. f_equal. apply IH. lia.
Qed.

Lemma clip_length n s : (String.length (clip n s) ≤ n)%nat.
Proof.
  unfold clip. revert n. induction s as [|c s IH]; intros [|n]; simpl; try lia.
  specialize (IH n). lia.
Qed.

Lemma clip_clip n s : clip n (clip n s) = clip n s.
Proof. apply clip_fits, clip_length. Qed.

(** A key as [OrderKey::make] builds it. *)
Definition key_wf (k : OrderKey.t) : Prop :=
  clip max_cl_ord_id_length (OrderKey.cl_ord_id k) = OrderKey.cl_ord_id k.

Lemma make_wf s id : key_wf (OrderKey.make s id).
Proof. apply clip_clip. Qed.

Lemma key_of_filed k e :
  key_wf k → OrderEntry.key_of (OrderEntry.file_under k e) = k.
Proof.
  intros Hk. destruct k as [s id]. unfold OrderEntry.key_of, OrderKey.make.
  unfold key_wf in Hk. simpl in *. f_equal. by rewrite !Hk.
Qed.

Lemma key_of_wf e : key_wf (OrderEntry.key_of e).
Proof. apply make_wf. Qed.

(** ** The book *)

Section book_proofs.
Context {I : Type} `{KI : KeyIndex I OrderKey.t Z}.
Context {KL : KeyIndexLaws I OrderKey.t Z}.

Implicit Types (b : OrderBook.t I) (r : SlotStore.Region OrderEntry.t)
  (x : SlotStore.Slot OrderEntry.t) (k : OrderKey.t) (e : OrderEntry.t).

Abbreviation payload := SlotStore.payload.
Abbreviation slots := SlotStore.slots.
Abbreviation live := SlotStore.slot_live.
Abbreviation index_of b := (ix_abs (index b)).

(** The orders a book holds: what its map leads to in the region. *)
Definition orders b : gmap OrderKey.t OrderEntry.t :=
  match SlotStore.base (store b) with
  | Some r => omap (λ slot, payload <$> slots r !! Z.to_nat slot) (index_of b)
  | None => ∅
  end.

(** The region and the map agree: the map files every live record under the
    key the record holds, and nothing else, and every other slot is on the
    free list. *)
Record book_ok b r (fl : list Z) : Prop := {
  bk_mapped : mapped (store b) r;
  bk_free : free_list_ok r fl [];
  bk_index : ix_ok (index b);
  bk_filed : ∀ k i, index_of b !! k = Some i →
    0 ≤ i ∧ ∃ x, slots r !! Z.to_nat i = Some x ∧
      SlotStore.state x = live ∧ OrderEntry.key_of (payload x) = k;
  bk_live : ∀ (i : nat) x, slots r !! i = Some x → SlotStore.state x = live →
    index_of b !! OrderEntry.key_of (payload x) = Some (Z.of_nat i);
  bk_stamp : ∀ (i : nat) x, slots r !! i = Some x → SlotStore.state x = live →
    SlotStore.seq_no x = OrderEntry.placed_at_seq_no (payload x) ∧
    0 < SlotStore.seq_no x
}.

Lemma lookup_orders b r fl k e :
  book_ok b r fl →
  orders b !! k = Some e ↔
  ∃ i x, index_of b !! k = Some i ∧ slots r !! Z.to_nat i = Some x ∧
         payload x = e.
Proof.
  intros Hb. unfold orders. rewrite (mapped_base _ _ (bk_mapped _ _ _ Hb)).
  rewrite lookup_omap_Some. split.
  - intros (i & Hs & Hi). apply fmap_Some in Hs as (x & Hx & ->). eauto 10.
  - intros (i & x & Hi & Hx & <-). exists i. by rewrite Hx.
Qed.

Lemma lookup_orders_None b r fl k :
  book_ok b r fl → orders b !! k = None ↔ index_of b !! k = None.
Proof.
  intros Hb. split; intros Hn.
  - destruct (index_of b !! k) as [i|] eqn:Hi; [|done].
    destruct (bk_filed _ _ _ Hb k i Hi) as (_ & x & Hx & _ & _).
    assert (orders b !! k = Some (payload x)) by (apply (lookup_orders b r fl); eauto).
    congruence.
  - destruct (orders b !! k) as [e|] eqn:He; [|done].
    apply (lookup_orders b r fl) in He as (i & x & Hi & _); [|done]. congruence.
Qed.

(** The orders are the live records. *)
Lemma orders_live b r fl k e :
  book_ok b r fl →
  orders b !! k = Some e ↔
  ∃ (i : nat) x, slots r !! i = Some x ∧ SlotStore.state x = live ∧
    payload x = e ∧ OrderEntry.key_of e = k.
Proof.
  intros Hb. rewrite lookup_orders by done. split.
  - intros (i & x & Hi & Hx & <-).
    destruct (bk_filed _ _ _ Hb k i Hi) as (_ & x' & Hx' & Hl & Hk).
    simplify_eq. eauto 10.
  - intros (i & x & Hx & Hl & <- & <-). exists (Z.of_nat i), x.
    rewrite Nat2Z.id. split; [by apply (bk_live _ _ _ Hb)|done].
Qed.

Lemma store_does_returns b f s :
  f (store b) = Returns s → store_does f b = (with_store b s, Returns ()).
Proof. intros Hf. unfold store_does. by rewrite Hf. Qed.

Lemma ask_returns {A} b (f : OrderBook.t I → outcome A) a :
  f b = Returns a → ask f b = (b, Returns a).
Proof. intros Hf. unfold ask. by rewrite Hf. Qed.

(** *** Lookups *)

Lemma read_payload_ok s r i x :
  mapped s r → 0 ≤ i → slots r !! Z.to_nat i = Some x →
  SlotStore.read_payload s i = Returns (payload x).
Proof.
  intros Hm Hi Hx. unfold SlotStore.read_payload, SlotStore.header, SlotStore.slot.
  rewrite (mapped_base _ _ Hm). simpl. by rewrite (at_index_ok _ _ x).
Qed.

Lemma is_live_ok s r i x :
  mapped s r → 0 ≤ i → slots r !! Z.to_nat i = Some x →
  SlotStore.is_live s i = Returns (SlotStore.state x =? live).
Proof.
  intros Hm Hi Hx. unfold SlotStore.is_live, SlotStore.header, SlotStore.slot.
  rewrite (mapped_base _ _ Hm). simpl. by rewrite (at_index_ok _ _ x).
Qed.

Lemma entry_at_ok b r fl k i :
  book_ok b r fl → index_of b !! k = Some i →
  ∃ e, entry_at b i = Returns e ∧ orders b !! k = Some e ∧
    OrderEntry.key_of e = k.
Proof.
  intros Hb Hi. destruct (bk_filed _ _ _ Hb k i Hi) as (H0 & x & Hx & _ & Hk).
  exists (payload x). split; [by eapply read_payload_ok, Hx; [apply Hb|]|].
  split; [apply (lookup_orders b r fl); eauto|done].
Qed.

Lemma find_orders b r fl k :
  book_ok b r fl → find b k = Returns (orders b !! k).
Proof.
  intros Hb. unfold find. rewrite ix_lookup_ok by apply Hb. simpl.
  destruct (index_of b !! k) as [i|] eqn:Hi.
  - by destruct (entry_at_ok b r fl k i Hb Hi) as (e & -> & -> & _).
  - by rewrite (proj2 (lookup_orders_None b r fl k Hb)).
Qed.

Lemma contains_orders b r fl k :
  book_ok b r fl →
  contains b k = Returns (if orders b !! k is Some _ then true else false).
Proof.
  intros Hb. unfold contains. rewrite ix_lookup_ok by apply Hb. simpl.
  destruct (index_of b !! k) as [i|] eqn:Hi.
  - by destruct (entry_at_ok b r fl k i Hb Hi) as (e & _ & -> & _).
  - by rewrite (proj2 (lookup_orders_None b r fl k Hb)).
Qed.

(** *** Adding *)

(** What an operation on the orders leaves alone. *)
Definition beside b r b' r' : Prop :=
  halted b' = halted b ∧ voids_known_through b' = voids_known_through b ∧
  applying_when_opened b' = applying_when_opened b ∧ same_header r r'.

Lemma free_slot_not_live r fl i x :
  free_list_ok r fl [] → i ∈ fl → slots r !! Z.to_nat i = Some x →
  0 ≤ i ∧ SlotStore.state x ≠ live.
Proof.
  intros Hf Hin Hx. pose proof (fl_range _ _ _ Hf i) as Hr.
  pose proof (fl_free _ _ _ Hf _ _ Hx) as Hl.
  rewrite app_nil_r in *. destruct (Hr Hin) as [Hi _]. split; [done|].
  apply Hl. by rewrite Z2Nat.id.
Qed.

(** A record written to slot [i] and filed under its key. *)
Lemma book_ok_filed b r fl r' fl' idx i x y k e seq :
  book_ok b r fl → key_wf k → index_of b !! k = None → 0 ≤ i →
  slots r !! Z.to_nat i = Some y → SlotStore.state y ≠ live →
  seq = OrderEntry.placed_at_seq_no e → 0 < seq →
  x = SlotStore.mk_slot live (SlotStore.next_free y) seq
        (OrderEntry.file_under k e) →
  slots r' = <[Z.to_nat i := x]> (slots r) →
  same_header r r' →
  free_list_ok r' fl' [] → ix_ok idx → ix_abs idx = <[k := i]> (index_of b) →
  let b' := mk (SlotStore.with_region (store b) r') (halted b)
              (voids_known_through b) (applying_when_opened b) idx in
  book_ok b' r' fl' ∧
  orders b' = <[k := OrderEntry.file_under k e]> (orders b).
Proof.
  intros Hb Hk Hn Hi Hy Hnl Hseq Hpos Hx Hsl Hov Hf' Hix Habs b'.
  pose proof (lookup_lt_Some _ _ _ Hy) as Hlt.
  assert (Hkx : OrderEntry.key_of (payload x) = k).
  { rewrite Hx. by apply key_of_filed. }
  assert (Hlx : SlotStore.state x = live) by (by rewrite Hx).
  assert (book_ok b' r' fl') as Hb'.
  { split; simpl; try done.
    - destruct Hov as (_ & _ & _ & Hsc & _ & _ & Hov).
      eapply mapped_with_region; [apply Hb| |by rewrite Hov|done].
      by rewrite Hsl, length_insert.
    - intros k' j Hj. rewrite Habs in Hj.
      apply lookup_insert_Some in Hj as [[<- <-]|[Hne Hj]].
      + split; [done|]. exists x. rewrite Hsl, list_lookup_insert_eq by done. done.
      + destruct (bk_filed _ _ _ Hb k' j Hj) as (Hj0 & z & Hz & Hl & Hkz).
        split; [done|]. exists z. split; [|done].
        rewrite Hsl, list_lookup_insert_ne; [done|]. intros Heq.
        rewrite Heq in Hy. by simplify_eq.
    - intros j z Hz Hl. rewrite Habs, Hsl in *.
      apply list_lookup_insert_Some in Hz as [(<- & <- & _)|[Hne Hz]].
      + rewrite Hkx, lookup_insert_eq. by rewrite Z2Nat.id.
      + pose proof (bk_live _ _ _ Hb j z Hz Hl) as Hj.
        rewrite lookup_insert_ne; [done|]. intros Heq. rewrite <- Heq in Hj.
        congruence.
    - intros j z Hz Hl. rewrite Hsl in Hz.
      apply list_lookup_insert_Some in Hz as [(_ & <- & _)|[_ Hz]].
      + by rewrite Hx.
      + by apply (bk_stamp _ _ _ Hb j z Hz). }
  split; [done|]. apply map_eq. intros k'. apply option_eq. intros e'.
  rewrite lookup_orders by done. rewrite lookup_insert_Some.
  rewrite (lookup_orders b r fl) by done. unfold b'. simpl. rewrite Habs, Hsl.
  split.
  - intros (j & z & Hj & Hz & <-).
    apply lookup_insert_Some in Hj as [[<- <-]|[Hne Hj]].
    + left. rewrite list_lookup_insert_eq in Hz by done. injection Hz as <-.
      by rewrite Hx.
    + right. split; [done|]. exists j, z. split; [done|]. split; [|done].
      rewrite list_lookup_insert_ne in Hz; [done|]. intros Heq.
      destruct (bk_filed _ _ _ Hb k' j Hj) as (_ & w & Hw & Hl & _).
      rewrite <- Heq in Hw. by simplify_eq.
  - intros [[<- <-]|[Hne (j & z & Hj & Hz & <-)]].
    + exists i, x. rewrite lookup_insert_eq, list_lookup_insert_eq by done.
      by rewrite Hx.
    + exists j, z. rewrite lookup_insert_ne by done. split; [done|].
      split; [|done]. rewrite list_lookup_insert_ne; [done|]. intros Heq.
      destruct (bk_filed _ _ _ Hb k' j Hj) as (_ & w & Hw & Hl & _).
      rewrite <- Heq in Hw. by simplify_eq.
Qed.

(** Slots off the map may change in any way, provided they stay off it. *)
Lemma book_ok_unfiled b r fl r' fl' idx i x y :
  book_ok b r fl → 0 ≤ i → slots r !! Z.to_nat i = Some y →
  SlotStore.state y ≠ live → SlotStore.state x ≠ live →
  slots r' = <[Z.to_nat i := x]> (slots r) →
  same_header r r' →
  free_list_ok r' fl' [] → ix_ok idx → ix_abs idx = index_of b →
  let b' := mk (SlotStore.with_region (store b) r') (halted b)
              (voids_known_through b) (applying_when_opened b) idx in
  book_ok b' r' fl' ∧ orders b' = orders b.
Proof.
  intros Hb Hi Hy Hnl Hnx Hsl Hov Hf' Hix Habs b'.
  pose proof (lookup_lt_Some _ _ _ Hy) as Hlt.
  assert (Hsame : ∀ j z, SlotStore.state z = live →
    slots r' !! j = Some z ↔ slots r !! j = Some z).
  { intros j z Hl. rewrite Hsl. destruct (decide (Z.to_nat i = j)) as [<-|].
    - rewrite list_lookup_insert_eq by done. split; intros ?; by simplify_eq.
    - by rewrite list_lookup_insert_ne. }
  assert (book_ok b' r' fl') as Hb'.
  { split; simpl; try done.
    - destruct Hov as (_ & _ & _ & Hsc & _ & _ & Hov).
      eapply mapped_with_region; [apply Hb| |by rewrite Hov|done].
      by rewrite Hsl, length_insert.
    - intros k' j Hj. rewrite Habs in Hj.
      destruct (bk_filed _ _ _ Hb k' j Hj) as (Hj0 & z & Hz & Hl & Hkz).
      split; [done|]. exists z. split; [by apply Hsame|done].
    - intros j z Hz Hl. rewrite Habs. apply (bk_live _ _ _ Hb); [|done].
      by apply Hsame.
    - intros j z Hz Hl. apply (bk_stamp _ _ _ Hb j z); [by apply Hsame|done]. }
  split; [done|]. apply map_eq. intros k'. apply option_eq. intros e'.
  rewrite (orders_live b' r' fl') by done. rewrite (orders_live b r fl) by done.
  split; intros (j & z & Hz & Hl & ?); exists j, z; (split; [by apply Hsame|done]).
Qed.

Lemma book_eta b : with_store b (store b) = b.
Proof. by destruct b. Qed.

(** Taking a slot, writing the record and stamping it. *)
Lemma record_written s r i fl (p : OrderEntry.t) seq :
  mapped s r → free_list_ok r (i :: fl) [] →
  ∃ y s1 s2 r3, slots r !! Z.to_nat i = Some y ∧ SlotStore.state y ≠ live ∧
    0 ≤ i ∧ (i =? SlotStore.no_slot) = false ∧
    SlotStore.acquire s = Returns (s1, i) ∧
    SlotStore.write_payload s1 i p = Returns s2 ∧
    SlotStore.commit s2 i seq = Returns (SlotStore.with_region s r3) ∧
    mapped (SlotStore.with_region s r3) r3 ∧ free_list_ok r3 fl [] ∧
    same_header r r3 ∧
    slots r3 = <[Z.to_nat i :=
      SlotStore.mk_slot live (SlotStore.next_free y) seq p]> (slots r).
Proof.
  intros Hm Hf. destruct (acquire_ok _ _ _ Hm Hf) as (h & y & Hy & Ha & Hf1).
  destruct (free_slot_not_live r (i :: fl) i y Hf) as [Hi Hnl]; [by left|done|].
  assert (Hm1 : mapped (SlotStore.with_region s (SlotStore.set_free_head r h))
    (SlotStore.set_free_head r h)) by (by eapply mapped_with_region).
  assert (i ∉ fl) as Hnf.
  { pose proof (fl_nodup _ _ _ Hf1) as (_ & Hd & _)%NoDup_app.
    intros Hin. apply (Hd i Hin). by apply list_elem_of_singleton. }
  destruct (write_payload_ok _ _ fl [i] i y p Hm1 Hf1 Hi Hy Hnf) as [Hw Hf2].
  set (y2 := SlotStore.mk_slot _ _ _ p) in *.
  set (r2 := SlotStore.set_slot _ i y2) in *.
  assert (Hm2 : mapped (SlotStore.with_region s r2) r2).
  { eapply mapped_with_region; [exact Hm|apply length_insert|done|done]. }
  assert (Hy2 : slots r2 !! Z.to_nat i = Some y2).
  { apply list_lookup_insert_eq. by apply (lookup_lt_Some _ _ _ Hy). }
  destruct (commit_ok _ _ fl i y2 seq Hm2 Hf2 Hy2) as [Hc Hf3].
  exists y. do 3 eexists. split; [done|]. split; [done|]. split; [done|]. split.
  { apply Z.eqb_neq. pose proof (mapped_count _ _ Hm).
    pose proof (mapped_bound _ _ Hm). apply lookup_lt_Some in Hy. lia. }
  split; [exact Ha|]. split; [exact Hw|]. split; [exact Hc|].
  assert (Hsl : ∀ z, slots (SlotStore.set_slot r2 i z)
    = <[Z.to_nat i := z]> (slots r)) by (intros; apply list_insert_insert_eq).
  split; [|split; [exact Hf3|split; [done|by rewrite Hsl]]].
  eapply mapped_with_region; [exact Hm|by rewrite Hsl, length_insert|done|done].
Qed.

(** [add] on a key not on the book. *)
Lemma add_ok mem b r fl k e seq :
  book_ok b r fl → key_wf k → orders b !! k = None →
  seq = OrderEntry.placed_at_seq_no e → 0 < seq →
  (fl = [] ∧ add mem k e seq b = (b, Returns false)) ∨
  (∃ b' r' fl' res, add mem k e seq b = (b', res) ∧ book_ok b' r' fl' ∧
     beside b r b' r' ∧
     (res = Returns true ∧
        orders b' = <[k := OrderEntry.file_under k e]> (orders b) ∨
      res = Throws BadAlloc ∧ orders b' = orders b ∧ ∃ n, mem n = false)).
Proof.
  intros Hb Hk Hn Hseq Hpos. pose proof (bk_mapped _ _ _ Hb) as Hm.
  unfold add. destruct fl as [|i fl].
  { left. split; [done|]. unfold acquire_slot, mbind, comp_bind.
    rewrite (acquire_ok _ _ [] Hm (bk_free _ _ _ Hb)), book_eta. done. }
  right. destruct (record_written _ _ i fl (OrderEntry.file_under k e) seq Hm
    (bk_free _ _ _ Hb)) as (y & s1 & s2 & r3 & Hy & Hnl & Hi & Hne & Ha & Hw & Hc
      & Hm3 & Hf3 & Hh & Hsl).
  apply (lookup_orders_None b r (i :: fl)) in Hn; [|done].
  rewrite (bind_returns _ _ _ (with_store b s1) i)
    by (unfold acquire_slot; by rewrite Ha).
  rewrite Hne.
  rewrite (bind_returns _ _ _ _ _ (store_does_returns (with_store b s1) _ _ Hw)).
  rewrite (bind_returns _ _ _ _ _ (store_does_returns (with_store b s2) _ _ Hc)).
  set (b3 := with_store _ _).
  unfold mbind, comp_bind, try_catch, index_emplace.
  change (index b3) with (index b).
  destruct (ix_emplace_absent mem (index b) k i (bk_index _ _ _ Hb) Hn)
    as (idx & Hix & [[-> Habs]|(-> & Habs & Hmem)]).
  - destruct (book_ok_filed b r (i :: fl) r3 fl idx i _ y k e seq Hb Hk Hn Hi Hy
      Hnl Hseq Hpos eq_refl Hsl) as [Hb' Ho]; [exact Hh|done..|].
    do 4 eexists. split; [reflexivity|]. split; [exact Hb'|].
    split; [by split|]. left. done.
  - assert (Hy3 := list_lookup_insert_eq (slots r) _
      (SlotStore.mk_slot live (SlotStore.next_free y) seq
         (OrderEntry.file_under k e)) (lookup_lt_Some _ _ _ Hy)).
    rewrite <- Hsl in Hy3.
    destruct (release_ok _ _ fl i _ Hm3 Hf3 Hi Hy3 eq_refl) as [Hrel Hf4].
    unfold throw, store_does. change (store (with_index b3 idx)) with
      (SlotStore.with_region (store b) r3). rewrite Hrel.
    edestruct (book_ok_unfiled b r (i :: fl)) as [Hb' Ho];
      [exact Hb|exact Hi|exact Hy|exact Hnl| | | |exact Hf4|exact Hix|exact Habs|].
    2: { simpl. rewrite Hsl. apply list_insert_insert_eq. }
    + done.
    + apply Hh.
    + do 4 eexists. split; [reflexivity|]. split; [exact Hb'|].
      split; [by split|]. right. eauto.
Qed.

(** *** Removing *)

(** Releasing a record and erasing its key. *)
Lemma drop_order b r fl k i idx :
  book_ok b r fl → index_of b !! k = Some i → ix_ok idx →
  ix_abs idx = delete k (index_of b) →
  ∃ r', SlotStore.release (store b) i
          = Returns (SlotStore.with_region (store b) r') ∧
    same_header r r' ∧
    let b' := mk (SlotStore.with_region (store b) r') (halted b)
                (voids_known_through b) (applying_when_opened b) idx in
    book_ok b' r' (i :: fl) ∧ orders b' = delete k (orders b).
Proof.
  intros Hb Hi Hix Habs.
  destruct (bk_filed _ _ _ Hb k i Hi) as (H0 & x & Hx & Hl & Hk).
  destruct (release_ok _ _ fl i x (bk_mapped _ _ _ Hb) (bk_free _ _ _ Hb) H0 Hx Hl)
    as [Hrel Hf].
  set (x' := SlotStore.mk_slot SlotStore.slot_free _ _ _) in *.
  set (r' := SlotStore.set_free_head (SlotStore.set_slot r i x') i) in *.
  exists r'. split; [done|]. split; [done|]. intros b'.
  pose proof (lookup_lt_Some _ _ _ Hx) as Hlt.
  assert (Hsame : ∀ j z, SlotStore.state z = live →
    slots r' !! j = Some z ↔ slots r !! j = Some z ∧ j ≠ Z.to_nat i).
  { intros j z Hlz. unfold r'. simpl.
    destruct (decide (Z.to_nat i = j)) as [<-|].
    - rewrite list_lookup_insert_eq by done.
      split; [intros ?; by simplify_eq|by intros [_ []]].
    - rewrite list_lookup_insert_ne by done. split; [auto|by intros []]. }
  assert (book_ok b' r' (i :: fl)) as Hb'.
  { split; simpl; try done.
    - eapply mapped_with_region; [apply Hb| |done|done]. apply length_insert.
    - intros k' j Hj. rewrite Habs in Hj. apply lookup_delete_Some in Hj as [Hne Hj].
      destruct (bk_filed _ _ _ Hb k' j Hj) as (Hj0 & z & Hz & Hlz & Hkz).
      split; [done|]. exists z. split; [|done]. apply Hsame; [done|].
      split; [done|]. intros Heq. rewrite Heq in Hz. congruence.
    - intros j z Hz Hlz. apply Hsame in Hz as [Hz Hne]; [|done].
      pose proof (bk_live _ _ _ Hb j z Hz Hlz) as Hj. rewrite Habs.
      rewrite lookup_delete_ne; [done|]. intros Heq. rewrite <- Heq, Hi in Hj.
      injection Hj as ->. apply Hne. by rewrite Nat2Z.id.
    - intros j z Hz Hlz. apply Hsame in Hz as [Hz _]; [|done].
      by apply (bk_stamp _ _ _ Hb j z). }
  split; [done|]. apply map_eq. intros k'. apply option_eq. intros e'.
  rewrite (lookup_orders b' r') by done. rewrite lookup_delete_Some.
  rewrite (lookup_orders b r fl) by done. unfold b'. simpl. rewrite Habs. split.
  - intros (j & z & Hj & Hz & <-). apply lookup_delete_Some in Hj as [Hne Hj].
    split; [done|]. exists j, z. split; [done|]. split; [|done].
    destruct (bk_filed _ _ _ Hb k' j Hj) as (_ & w & Hw & Hlw & Hkw).
    rewrite list_lookup_insert_ne in Hz; [done|]. intros Heq.
    rewrite <- Heq in Hw. congruence.
  - intros (Hne & j & z & Hj & Hz & <-). exists j, z.
    rewrite lookup_delete_ne by done. split; [done|]. split; [|done].
    destruct (bk_filed _ _ _ Hb k' j Hj) as (_ & w & Hw & Hlw & Hkw).
    rewrite list_lookup_insert_ne; [done|]. intros Heq.
    rewrite <- Heq in Hw. congruence.
Qed.

Lemma index_erase_ok b r fl k :
  book_ok b r fl →
  ∃ idx, index_erase k b = (with_index b idx, Returns ()) ∧ ix_ok idx ∧
    ix_abs idx = delete k (index_of b).
Proof.
  intros Hb. destruct (ix_erase_ok (index b) k (bk_index _ _ _ Hb))
    as (idx & He & Hix & Habs).
  exists idx. unfold index_erase. by rewrite He.
Qed.

Lemma beside_refl b r : beside b r b r.
Proof. done. Qed.

Lemma beside_trans b r b1 r1 b2 r2 :
  beside b r b1 r1 → beside b1 r1 b2 r2 → beside b r b2 r2.
Proof.
  intros (?&?&?&?&?&?&?&?&?&?) (?&?&?&?&?&?&?&?&?&?).
  repeat split; congruence.
Qed.

Lemma remove_ok b r fl k :
  book_ok b r fl →
  ∃ b' r' fl', remove k b
      = (b', Returns (if orders b !! k is Some _ then true else false)) ∧
    book_ok b' r' fl' ∧ beside b r b' r' ∧ orders b' = delete k (orders b).
Proof.
  intros Hb. unfold remove.
  rewrite (bind_returns _ _ b b (index_of b !! k))
    by (apply ask_returns; by apply ix_lookup_ok, Hb).
  destruct (index_of b !! k) as [i|] eqn:Hi.
  - destruct (entry_at_ok b r fl k i Hb Hi) as (e & _ & -> & _).
    destruct (index_erase_ok b r fl k Hb) as (idx & He & Hix & Habs).
    destruct (drop_order b r fl k i idx Hb Hi Hix Habs)
      as (r' & Hrel & Hh & Hb' & Ho).
    rewrite (bind_returns _ _ _ _ _ He).
    rewrite (bind_returns _ _ _ _ _
      (store_does_returns (with_index b idx) _ _ Hrel)).
    do 3 eexists. split; [reflexivity|]. split; [exact Hb'|].
    split; [by split|done].
  - apply (lookup_orders_None b r fl) in Hi; [|done]. rewrite Hi.
    exists b, r, fl. split; [done|]. split; [done|]. split; [done|].
    by rewrite delete_id.
Qed.

(** *** Positions and values beside the orders *)

(** What never changes of a region once it is laid out. *)
Definition same_shape r r' : Prop :=
  SlotStore.magic r' = SlotStore.magic r ∧
  SlotStore.version r' = SlotStore.version r ∧
  SlotStore.payload_size r' = SlotStore.payload_size r ∧
  SlotStore.slot_count r' = SlotStore.slot_count r ∧
  SlotStore.payload_format r' = SlotStore.payload_format r.

Lemma book_ok_header b r fl r' :
  book_ok b r fl → slots r' = slots r →
  SlotStore.free_head r' = SlotStore.free_head r →
  length (SlotStore.owner_values r') = length (SlotStore.owner_values r) →
  SlotStore.slot_count r' = SlotStore.slot_count r →
  ∀ h v a,
  let b' := mk (SlotStore.with_region (store b) r') h v a (index b) in
  book_ok b' r' fl ∧ orders b' = orders b.
Proof.
  intros Hb Hs Hfh Hov Hsc h v a b'. split.
  - destruct Hb as [Hm [] ?]. split; simpl; rewrite ?Hs; try done.
    + eapply mapped_with_region; [done| |done|done]. by rewrite Hs.
    + split; rewrite ?Hs, ?Hfh; done.
  - unfold orders. rewrite (mapped_base _ _ (bk_mapped _ _ _ Hb)). simpl.
    by rewrite Hs.
Qed.

Lemma publish_ok b r fl seq :
  book_ok b r fl →
  ∃ b' r', publish seq b = (b', Returns ()) ∧ book_ok b' r' fl ∧
    orders b' = orders b ∧ halted b' = halted b ∧
    voids_known_through b' = voids_known_through b ∧ index b' = index b ∧
    SlotStore.published_ r' = seq ∧ same_shape r r' ∧
    SlotStore.owner_values r' = SlotStore.owner_values r.
Proof.
  intros Hb. unfold publish.
  erewrite store_does_returns; last first.
  { unfold SlotStore.publish, SlotStore.header.
    rewrite (mapped_base _ _ (bk_mapped _ _ _ Hb)). reflexivity. }
  match goal with |- context [SlotStore.with_region (store b) ?r'] =>
    destruct (book_ok_header b r fl r' Hb eq_refl eq_refl eq_refl eq_refl (halted b)
      (voids_known_through b) (applying_when_opened b)) as [Hb' Ho] end.
  do 2 eexists. split; [reflexivity|]. split; [exact Hb'|]. done.
Qed.

Lemma keep_value_ok b r fl i v :
  book_ok b r fl → 0 ≤ i < 4 →
  ∃ b' r', keep_value i v b = (b', Returns ()) ∧ book_ok b' r' fl ∧
    orders b' = orders b ∧ halted b' = halted b ∧
    voids_known_through b' = voids_known_through b ∧ index b' = index b ∧
    SlotStore.published_ r' = SlotStore.published_ r ∧ same_shape r r' ∧
    SlotStore.owner_values r' = <[Z.to_nat i := v]> (SlotStore.owner_values r).
Proof.
  intros Hb Hi. unfold keep_value, is_open, SlotStore.is_open.
  rewrite (mapped_base _ _ (bk_mapped _ _ _ Hb)).
  erewrite store_does_returns; last first.
  { unfold SlotStore.set_owner_value, SlotStore.header, SlotStore.owner_value_count.
    destruct (Z.ltb_spec i 0), (Z.leb_spec 4 i); try lia. simpl.
    rewrite (mapped_base _ _ (bk_mapped _ _ _ Hb)). reflexivity. }
  match goal with |- context [SlotStore.with_region (store b) ?r'] =>
    destruct (book_ok_header b r fl r' Hb eq_refl eq_refl
      (length_insert _ _ _) eq_refl (halted b) (voids_known_through b)
      (applying_when_opened b)) as [Hb' Ho] end.
  do 2 eexists. split; [reflexivity|]. split; [exact Hb'|]. done.
Qed.

Lemma set_halted_ok b r fl h :
  book_ok b r fl →
  ∃ b' r', set_halted h b = (b', Returns ()) ∧ book_ok b' r' fl ∧
    orders b' = orders b ∧ halted b' = h ∧
    voids_known_through b' = voids_known_through b ∧ index b' = index b ∧
    SlotStore.published_ r' = SlotStore.published_ r ∧ same_shape r r' ∧
    SlotStore.owner_values r'
      = <[0%nat := if h then 1 else 0]> (SlotStore.owner_values r).
Proof.
  intros Hb. unfold set_halted.
  destruct (book_ok_header b r fl r Hb eq_refl eq_refl eq_refl eq_refl h
    (voids_known_through b) (applying_when_opened b)) as [Hb1 Ho].
  assert (SlotStore.with_region (store b) r = store b) as Heta.
  { pose proof (mapped_base _ _ (bk_mapped _ _ _ Hb)) as Hbase.
    destruct (store b). simpl in *. by rewrite Hbase. }
  rewrite Heta in Hb1, Ho.
  rewrite (bind_returns _ _ _ _ _ (eq_refl : modify _ b = (_, Returns ()))).
  destruct (keep_value_ok _ _ fl halted_value (if h then 1 else 0) Hb1)
    as (b' & r' & Hk & Hb' & Ho' & Hh & Hv & Hix & Hp & Hsh & Hov);
    [unfold halted_value; lia|].
  exists b', r'. rewrite Hk. split; [done|]. split; [done|].
  rewrite Ho'. done.
Qed.

Lemma set_voids_known_through_ok b r fl v :
  book_ok b r fl →
  ∃ b' r', set_voids_known_through v b = (b', Returns ()) ∧ book_ok b' r' fl ∧
    orders b' = orders b ∧ halted b' = halted b ∧
    voids_known_through b' = v ∧ index b' = index b ∧
    SlotStore.published_ r' = SlotStore.published_ r ∧ same_shape r r' ∧
    SlotStore.owner_values r' = <[1%nat := v]> (SlotStore.owner_values r).
Proof.
  intros Hb. unfold set_voids_known_through.
  destruct (book_ok_header b r fl r Hb eq_refl eq_refl eq_refl eq_refl (halted b)
    v (applying_when_opened b)) as [Hb1 Ho].
  assert (SlotStore.with_region (store b) r = store b) as Heta.
  { pose proof (mapped_base _ _ (bk_mapped _ _ _ Hb)) as Hbase.
    destruct (store b). simpl in *. by rewrite Hbase. }
  rewrite Heta in Hb1, Ho.
  rewrite (bind_returns _ _ _ _ _ (eq_refl : modify _ b = (_, Returns ()))).
  destruct (keep_value_ok _ _ fl voids_known_through_value v Hb1)
    as (b' & r' & Hk & Hb' & Ho' & Hh & Hv & Hix & Hp & Hsh & Hov);
    [unfold voids_known_through_value; lia|].
  exists b', r'. rewrite Hk. split; [done|]. split; [done|].
  rewrite Ho'. done.
Qed.

(** *** The orders in the order they were placed *)

(** A list of positions and records that are filed orders of the book. *)
Definition filed b (l : list (Z * Z)) (es : list OrderEntry.t) : Prop :=
  Forall2 (λ p e, OrderEntry.placed_at_seq_no e = p.1 ∧
    index_of b !! OrderEntry.key_of e = Some p.2 ∧
    orders b !! OrderEntry.key_of e = Some e) l es.

Definition below (through : option Z) (e : OrderEntry.t) : Prop :=
  match through with
  | Some p => OrderEntry.placed_at_seq_no e ≤ p
  | None => True
  end.

Lemma collect_placed_ok b r fl through l :
  book_ok b r fl → (∀ k i, (k, i) ∈ l → index_of b !! k = Some i) →
  ∃ ps es, collect_placed b through l = Returns ps ∧ filed b ps es ∧
    (∀ e, e ∈ es ↔ below through e ∧
       ∃ k i, (k, i) ∈ l ∧ orders b !! k = Some e) ∧
    sublist ps.*2 l.*2.
Proof.
  intros Hb. induction l as [|[k i] l IH]; intros Hl.
  { exists [], []. split; [done|]. split; [constructor|]. split; [|done].
    intros e. split; [by intros ?%not_elem_of_nil|].
    by intros (_ & k & i & ?%not_elem_of_nil & _). }
  destruct IH as (ps & es & Hc & Hf & Hes & Hsub).
  { intros k' i' Hin. apply Hl. by right. }
  pose proof (Hl k i ltac:(by left)) as Hi.
  destruct (entry_at_ok b r fl k i Hb Hi) as (e & He & Ho & Hk).
  simpl. rewrite He. simpl. rewrite Hc. simpl.
  set (test := match through with Some p => _ | None => true end).
  assert (Htest : test = true ↔ below through e).
  { unfold test, below. destruct through; [apply Z.leb_le|done]. }
  assert (Hiff : ∀ e', (below through e' ∧
      ∃ k' i', (k', i') ∈ (k, i) :: l ∧ orders b !! k' = Some e') ↔
      (e' = e ∧ below through e) ∨ e' ∈ es).
  { intros e'. rewrite Hes. split.
    - intros (Hbl & k' & i' & Hin & Ho'). apply elem_of_cons in Hin as [?|Hin].
      + simplify_eq. by left.
      + right. eauto 10.
    - intros [[-> Hbl]|(Hbl & k' & i' & Hin & Ho')].
      + split; [done|]. exists k, i. split; [by left|done].
      + split; [done|]. exists k', i'. split; [by right|done]. }
  destruct test eqn:Ht.
  - exists ((OrderEntry.placed_at_seq_no e, i) :: ps), (e :: es).
    split; [done|]. split; [constructor; [by rewrite Hk|done]|]. split.
    + intros e'. rewrite Hiff, elem_of_cons.
      split; [intros [-> |?]; [left; split; [done|by apply Htest]|by right]|].
      intros [[-> _]|?]; [by left|by right].
    + simpl. by apply sublist_skip.
  - exists ps, es. split; [done|]. split; [done|]. split.
    + intros e'. rewrite Hiff. split; [by right|]. intros [[-> Hbl]|]; [|done].
      apply Htest in Hbl. congruence.
    + simpl. by apply sublist_cons.
Qed.

#[local] Instance placed_le_total : Total placed_le.
Proof. intros p q. unfold placed_le. lia. Qed.

#[local] Instance placed_le_trans : Transitive placed_le.
Proof. intros p q u. unfold placed_le. lia. Qed.

Definition earlier e e' : Prop :=
  OrderEntry.placed_at_seq_no e ≤ OrderEntry.placed_at_seq_no e'.

Lemma filed_sorted b l es :
  filed b l es → StronglySorted placed_le l → StronglySorted earlier es.
Proof.
  intros Hf. induction Hf as [|p e l es [Hp _] Hf IH]; intros Hs; [constructor|].
  apply StronglySorted_inv in Hs as [Hs Hall]. constructor; [by apply IH|].
  clear IH Hs. induction Hf as [|p' e' l es [Hp' _] Hf IH]; [constructor|].
  apply Forall_cons in Hall as [Hle Hall]. constructor; [|by apply IH].
  unfold earlier, placed_le in *. lia.
Qed.

Lemma filed_permutation b l l' es :
  filed b l es → l' ≡ₚ l → ∃ es', filed b l' es' ∧ es' ≡ₚ es.
Proof.
  intros Hf Hp. symmetry in Hp.
  destruct (Permutation_Forall2 Hp Hf) as (es' & Hes & Hf').
  exists es'. split; [done|]. by symmetry.
Qed.

Lemma placed_in_order_ok b r fl through :
  book_ok b r fl →
  ∃ l es, placed_in_order b through = Returns l ∧ filed b l es ∧
    NoDup l.*2 ∧ StronglySorted earlier es ∧
    ∀ e, e ∈ es ↔ below through e ∧ ∃ k, orders b !! k = Some e.
Proof.
  intros Hb. unfold placed_in_order.
  destruct (ix_walk_ok (index b) (bk_index _ _ _ Hb)) as (w & -> & Hw). simpl.
  assert (∀ k i, (k, i) ∈ w ↔ index_of b !! k = Some i) as Hin.
  { intros k i. by rewrite Hw, elem_of_map_to_list. }
  destruct (collect_placed_ok b r fl through w Hb) as (ps & es & -> & Hf & Hes & Hsub).
  { intros k i. by apply Hin. }
  simpl. pose proof (merge_sort_Permutation placed_le ps) as Hp.
  destruct (filed_permutation b ps _ es Hf Hp) as (es' & Hf' & Hpe).
  exists (merge_sort placed_le ps), es'. split; [done|]. split; [done|].
  split; [|split].
  - rewrite Hp. eapply sublist_NoDup; [|exact Hsub]. rewrite Hw.
    apply NoDup_fmap_2_strong; [|apply NoDup_map_to_list].
    intros [k i] [k' i'] H1 H2 Heq. simpl in Heq. subst i'.
    apply elem_of_map_to_list in H1, H2.
    destruct (bk_filed _ _ _ Hb _ _ H1) as (_ & x & Hx & _ & Hk).
    destruct (bk_filed _ _ _ Hb _ _ H2) as (_ & x' & Hx' & _ & Hk').
    simplify_eq. done.
  - apply (filed_sorted b (merge_sort placed_le ps)); [done|].
    apply Sorted_StronglySorted; [|apply Sorted_merge_sort; apply _].
    apply placed_le_trans.
  - intros e. rewrite Hpe, Hes. split.
    + intros (Hbl & k & i & _ & Ho). eauto.
    + intros (Hbl & k & Ho). split; [done|].
      pose proof Ho as Ho'. apply (lookup_orders b r fl) in Ho' as (i & x & Hi & _);
        [|done].
      exists k, i. split; [by apply Hin|done].
Qed.

(** Calling [fn] for each entry in turn. *)
Fixpoint visit_all {X} (fn : OrderEntry.t → comp X unit)
    (es : list OrderEntry.t) : comp X unit :=
  match es with
  | [] => mret ()
  | e :: es => fn e ;; visit_all fn es
  end.

Definition without (m : gmap OrderKey.t OrderEntry.t) (es : list OrderEntry.t) :=
  foldl (λ m e, delete (OrderEntry.key_of e) m) m es.

Lemma filed_drop b b' i k l es :
  filed b l es → index_of b !! k = Some i → i ∉ l.*2 →
  index_of b' = delete k (index_of b) → orders b' = delete k (orders b) →
  filed b' l es.
Proof.
  intros Hf Hi Hni Hix Ho. induction Hf as [|p e l es (Hp & Hpi & Hpo) Hf IH];
    [constructor|]. apply not_elem_of_cons in Hni as [Hne Hni].
  constructor; [|by apply IH]. rewrite Hix, Ho.
  rewrite !lookup_delete_ne; [done| |]; intros ->; congruence.
Qed.

(** The loop of [remove_placed_through]: it calls [fn] for each order and
    takes it off the book, and stops where [fn] throws. *)
Lemma remove_each_ok {X} (fn : OrderEntry.t → comp X unit) l es b r fl (x : X) :
  book_ok b r fl → filed b l es → NoDup l.*2 →
  ∃ b' r' fl' n,
    remove_each fn l (b, x)
      = ((b', (visit_all fn es x).1), (visit_all fn es x).2) ∧
    book_ok b' r' fl' ∧ beside b r b' r' ∧
    orders b' = without (orders b) (take n es) ∧
    ((visit_all fn es x).2 = Returns () → take n es = es).
Proof.
  revert es b r fl x. induction l as [|p l IH]; intros es b r fl x Hb Hf Hnd.
  { inversion Hf; subst. exists b, r, fl, 0%nat. done. }
  inversion Hf as [|? e ? es' (Hp & Hi & Ho) Hf']; subst.
  apply NoDup_cons in Hnd as [Hni Hnd]. cbn [remove_each visit_all].
  destruct (entry_at_ok b r fl _ _ Hb Hi) as (e' & He & Ho' & _).
  rewrite Ho in Ho'. injection Ho' as <-.
  rewrite (bind_returns _ _ _ (b, x) e) by (unfold on_fst, ask; simpl; by rewrite He).
  destruct (fn e x) as [x' [[]|ex]] eqn:Hfn; last first.
  { rewrite (bind_throws _ _ _ (b, x') ex) by (unfold on_snd; simpl; by rewrite Hfn).
    rewrite (bind_throws _ _ _ x' ex Hfn). exists b, r, fl, 0%nat. done. }
  rewrite (bind_returns _ _ _ (b, x') ()) by (unfold on_snd; simpl; by rewrite Hfn).
  rewrite (bind_returns (fn e) _ x x' () Hfn).
  destruct (index_erase_ok b r fl (OrderEntry.key_of e) Hb) as (idx & Hie & Hix & Habs).
  rewrite (bind_returns _ _ _ (with_index b idx, x') ())
    by (unfold on_fst; simpl; by rewrite Hie).
  destruct (drop_order b r fl _ _ idx Hb Hi Hix Habs)
    as (r1 & Hrel & Hh & Hb1 & Ho1).
  set (b1 := mk _ _ _ _ _) in *.
  rewrite (bind_returns _ _ _ (b1, x') ())
    by (unfold on_fst, store_does; simpl; by rewrite Hrel).
  assert (filed b1 l es') as Hf1.
  { by eapply (filed_drop b b1 p.2 (OrderEntry.key_of e)). }
  destruct (IH es' b1 r1 _ x' Hb1 Hf1 Hnd)
    as (b2 & r2 & fl2 & n & -> & Hb2 & Hbes & Ho2 & Hall).
  exists b2, r2, fl2, (S n). split; [done|]. split; [done|].
  split; [by eapply (beside_trans b r b1 r1)|]. simpl. rewrite Ho2, Ho1.
  split; [done|]. intros Hret. by rewrite Hall.
Qed.

Lemma without_lookup m es k e :
  without m es !! k = Some e ↔
  m !! k = Some e ∧ ∀ e', e' ∈ es → OrderEntry.key_of e' ≠ k.
Proof.
  revert m. induction es as [|e0 es IH]; intros m; simpl.
  { split; [|by intros []]. intros ?. split; [done|].
    by intros ? ?%not_elem_of_nil. }
  unfold without in IH. rewrite IH, lookup_delete_Some. split.
  - intros [[Hne Hm] Hall]. split; [done|].
    intros e' [-> | Hin]%elem_of_cons; [done|by apply Hall].
  - intros [Hm Hall]. split; [split; [|done]|].
    + apply Hall. by left.
    + intros e' Hin. apply Hall. by right.
Qed.

(** Taking off the orders placed up to [p] keeps those placed after it. *)
Lemma without_placed_through b r fl p es k :
  book_ok b r fl →
  (∀ e, e ∈ es ↔ OrderEntry.placed_at_seq_no e ≤ p ∧
                 ∃ k, orders b !! k = Some e) →
  without (orders b) es !! k =
    (o ← orders b !! k;
     if p <? OrderEntry.placed_at_seq_no o then Some o else None).
Proof.
  intros Hb Hes.
  assert (∀ k e, orders b !! k = Some e → k = OrderEntry.key_of e) as Hkey.
  { intros k' e Hk'.
    by apply (orders_live b r fl) in Hk' as (? & ? & _ & _ & _ & ?). }
  apply option_eq. intros e. rewrite without_lookup. split.
  - intros [Hk Hrest]. rewrite Hk. simpl.
    destruct (Z.ltb_spec p (OrderEntry.placed_at_seq_no e)) as [|Hle]; [done|].
    destruct (Hrest e); [by apply Hes; eauto|]. symmetry. by apply Hkey.
  - destruct (orders b !! k) as [o|] eqn:Hk; [|done]. simpl.
    destruct (Z.ltb_spec p (OrderEntry.placed_at_seq_no o)) as [Hlt|]; [|done].
    intros [= ->]. split; [done|]. intros e' [Hle [k' Hk']]%Hes He'.
    rewrite (Hkey k' e' Hk'), He', Hk in Hk'. simplify_eq. lia.
Qed.

(** Orders placed at different positions are different orders. *)
Lemma distinct_placed b r fl l :
  book_ok b r fl → placed_in_order b None = Returns l → NoDup l.*1 →
  ∀ k k' e e', orders b !! k = Some e → orders b !! k' = Some e' →
    OrderEntry.placed_at_seq_no e = OrderEntry.placed_at_seq_no e' → e = e'.
Proof.
  intros Hb Hl Hnd k k' e e' Hk Hk' Heq.
  destruct (placed_in_order_ok b r fl None Hb) as (l' & es & Hl' & Hf & _ & _ & Hes).
  rewrite Hl in Hl'. injection Hl' as <-.
  assert (e ∈ es ∧ e' ∈ es) as [Hin Hin'] by (split; apply Hes; split; eauto; done).
  apply list_elem_of_lookup_1 in Hin as [j Hj], Hin' as [j' Hj'].
  destruct (Forall2_lookup_r _ _ _ _ _ Hf Hj) as (p & Hp & Hpe & _).
  destruct (Forall2_lookup_r _ _ _ _ _ Hf Hj') as (p' & Hp' & Hpe' & _).
  assert (j = j') as ->; [|congruence].
  apply (NoDup_lookup l.*1 j j' p.1 Hnd); rewrite list_lookup_fmap;
    rewrite ?Hp, ?Hp'; simpl; congruence.
Qed.

(** [remove_placed_through]. *)
Lemma remove_placed_through_ok {X} p (fn : OrderEntry.t → comp X unit) b r fl
    (x : X) :
  book_ok b r fl →
  ∃ es b' r' fl' n,
    StronglySorted earlier es ∧ NoDup es ∧
    (∀ e, e ∈ es ↔ OrderEntry.placed_at_seq_no e ≤ p ∧
                   ∃ k, orders b !! k = Some e) ∧
    remove_placed_through p fn (b, x)
      = ((b', (visit_all fn es x).1),
         obind (visit_all fn es x).2 (λ _, Returns (length es))) ∧
    book_ok b' r' fl' ∧ beside b r b' r' ∧
    orders b' = without (orders b) (take n es) ∧
    ((visit_all fn es x).2 = Returns () → take n es = es).
Proof.
  intros Hb. destruct (placed_in_order_ok b r fl (Some p) Hb)
    as (l & es & Hl & Hf & Hnd & Hs & Hes).
  destruct (remove_each_ok fn l es b r fl x Hb Hf Hnd)
    as (b' & r' & fl' & n & Hre & Hb' & Hbes & Ho & Hall).
  exists es, b', r', fl', n. split; [done|]. split.
  { clear -Hf Hnd. induction Hf as [|q e l es (_ & Hq & _) Hf IH]; [constructor|].
    apply NoDup_cons in Hnd as [Hni Hnd]. constructor; [|by apply IH].
    intros Hin. apply Hni.
    apply list_elem_of_lookup_1 in Hin as [j Hj].
    destruct (Forall2_lookup_r _ _ _ _ _ Hf Hj) as (q' & Hq' & _ & Hq2 & _).
    rewrite Hq in Hq2. injection Hq2 as ->.
    apply list_elem_of_fmap. exists q'. split; [done|].
    by eapply list_elem_of_lookup_2. }
  split; [done|]. split; [|done]. unfold remove_placed_through.
  rewrite (bind_returns _ _ _ (b, x) l) by (unfold on_fst, ask; simpl; by rewrite Hl).
  unfold mbind, comp_bind. rewrite Hre.
  destruct ((visit_all fn es x).2); simpl; [|done].
  by rewrite (Forall2_length _ _ _ Hf).
Qed.

(** *** Consistency *)

Lemma size_orders b r fl :
  book_ok b r fl → base.size (orders b) = size b.
Proof.
  intros Hb. unfold size. rewrite ix_size_ok by apply Hb.
  rewrite <- !size_dom. f_equal. apply set_eq. intros k.
  rewrite !elem_of_dom, <- !not_eq_None_Some.
  by rewrite (lookup_orders_None b r fl).
Qed.

(** The orders in the records from [i] to [i + n]. *)
Definition filed_within b (i : Z) (n : nat) : gmap OrderKey.t Z :=
  filter (λ kv, i ≤ kv.2 < i + Z.of_nat n) (index_of b).

Lemma count_live_ok b r fl n i :
  book_ok b r fl → 0 ≤ i → i + Z.of_nat n ≤ Z.of_nat (length (slots r)) →
  count_live b n i = Returns (base.size (filed_within b i n)).
Proof.
  intros Hb. revert i. induction n as [|n IH]; intros i Hi Hn; cbn [count_live].
  { f_equal. symmetry. apply map_size_empty_iff, map_empty. intros k.
    apply map_lookup_filter_None. right. intros j Hj. simpl. lia. }
  destruct (lookup_lt_is_Some_2 (slots r) (Z.to_nat i)) as [x Hx]; [lia|].
  rewrite (is_live_ok _ r i x (bk_mapped _ _ _ Hb) Hi Hx). simpl.
  rewrite IH by lia. simpl. f_equal.
  destruct (Z.eqb_spec (SlotStore.state x) live) as [Hl|Hl].
  - pose proof (bk_live _ _ _ Hb _ _ Hx Hl) as Hk. rewrite Z2Nat.id in Hk by done.
    replace (filed_within b i (S n)) with
      (<[OrderEntry.key_of (payload x) := i]> (filed_within b (i + 1) n)).
    + rewrite map_size_insert_None; [done|]. apply map_lookup_filter_None.
      right. intros j Hj. simplify_eq. simpl. lia.
    + apply map_eq. intros k. apply option_eq. intros j. unfold filed_within.
      rewrite lookup_insert_Some, !map_lookup_filter_Some. simpl. split.
      * intros [[<- <-]|(Hne & Hj & ?)]; (split; [done|lia]).
      * intros [Hj ?]. destruct (decide (OrderEntry.key_of (payload x) = k))
          as [<-|Hne]; [left; split; [done|congruence]|].
        right. split; [done|]. split; [done|].
        enough (j ≠ i) by lia. intros ->.
        destruct (bk_filed _ _ _ Hb k i Hj) as (_ & y & Hy & _ & Hky). congruence.
  - simpl. f_equal. apply map_filter_strong_ext. intros k j. simpl. split.
    + intros [? Hj]. split; [|done]. lia.
    + intros [? Hj]. split; [|done]. enough (j ≠ i) by lia. intros ->.
      destruct (bk_filed _ _ _ Hb k i Hj) as (_ & y & Hy & Hly & _). congruence.
Qed.

Lemma check_each_ok b r fl l :
  book_ok b r fl → (∀ k i, (k, i) ∈ l → index_of b !! k = Some i) →
  check_each b l = Returns None.
Proof.
  intros Hb. induction l as [|[k i] l IH]; intros Hl; simpl; [done|].
  pose proof (Hl k i ltac:(by left)) as Hi.
  destruct (bk_filed _ _ _ Hb k i Hi) as (H0 & x & Hx & Hlx & Hk).
  rewrite (is_live_ok _ r i x (bk_mapped _ _ _ Hb) H0 Hx). simpl.
  rewrite Hlx. simpl. unfold entry_at.
  rewrite (read_payload_ok _ r i x (bk_mapped _ _ _ Hb) H0 Hx). simpl.
  rewrite bool_decide_eq_true_2 by done. simpl.
  rewrite ix_lookup_ok by apply Hb. rewrite Hi. simpl.
  apply IH. intros k' i' Hin. apply Hl. by right.
Qed.

Lemma consistency_ok b r fl :
  book_ok b r fl → consistency_problem b = Returns None.
Proof.
  intros Hb. unfold consistency_problem, region_capacity, SlotStore.capacity.
  rewrite (mapped_count _ _ (bk_mapped _ _ _ Hb)), Nat2Z.id.
  rewrite (count_live_ok b r fl) by (done || lia). simpl.
  assert (filed_within b 0 (length (slots r)) = index_of b) as ->.
  { apply map_filter_id. intros k i Hi. simpl.
    destruct (bk_filed _ _ _ Hb k i Hi) as (? & x & Hx & _).
    apply lookup_lt_Some in Hx. lia. }
  unfold size. rewrite ix_size_ok by apply Hb. rewrite Nat.eqb_refl. simpl.
  destruct (ix_walk_ok (index b) (bk_index _ _ _ Hb)) as (l & -> & Hl). simpl.
  apply (check_each_ok b r fl); [done|]. intros k i.
  by rewrite Hl, elem_of_map_to_list.
Qed.

(** A book with no free slot holds as many orders as the region can. *)
Lemma full_book_size b r :
  book_ok b r [] → Z.of_nat (base.size (orders b)) = region_capacity b.
Proof.
  intros Hb. pose proof (mapped_count _ _ (bk_mapped _ _ _ Hb)) as Hc.
  unfold region_capacity, SlotStore.capacity. rewrite Hc. f_equal.
  rewrite (size_orders b r []) by done. unfold size. rewrite ix_size_ok by apply Hb.
  rewrite <- (length_map_to_list (index_of b)).
  rewrite <- (length_fmap snd (map_to_list (index_of b))).
  assert (Hp : (map_to_list (index_of b)).*2 ≡ₚ seqZ 0 (Z.of_nat (length (slots r)))).
  { apply NoDup_Permutation; [|apply NoDup_seqZ|].
    - apply NoDup_fmap_2_strong; [|apply NoDup_map_to_list].
      intros [k i] [k' i'] Hk1 Hk2 Heq. simpl in Heq. subst i'.
      apply elem_of_map_to_list in Hk1, Hk2.
      destruct (bk_filed _ _ _ Hb _ _ Hk1) as (_ & x & Hx & _ & Hk).
      destruct (bk_filed _ _ _ Hb _ _ Hk2) as (_ & x' & Hx' & _ & Hk').
      simplify_eq. done.
    - intros i. rewrite elem_of_seqZ, list_elem_of_fmap. split.
      + intros ([k j] & -> & Hin). apply elem_of_map_to_list in Hin.
        destruct (bk_filed _ _ _ Hb _ _ Hin) as (? & x & Hx & _).
        apply lookup_lt_Some in Hx. simpl. lia.
      + intros Hi. destruct (lookup_lt_is_Some_2 (slots r) (Z.to_nat i))
          as [x Hx]; [lia|].
        pose proof (fl_free _ _ _ (bk_free _ _ _ Hb) _ _ Hx) as Hl. simpl in Hl.
        destruct (decide (SlotStore.state x = live)) as [Hlx|Hnl].
        * pose proof (bk_live _ _ _ Hb _ _ Hx Hlx) as Hk.
          rewrite Z2Nat.id in Hk by lia. eexists (_, i). split; [done|].
          by apply elem_of_map_to_list.
        * apply Hl in Hnl. by apply not_elem_of_nil in Hnl. }
  rewrite Hp, length_seqZ. lia.
Qed.

(** It never holds more. *)
Lemma count_live_le b n i c : count_live b n i = Returns c → (c ≤ n)%nat.
Proof.
  revert i c. induction n as [|n IH]; intros i c; cbn [count_live].
  { intros [= <-]. lia. }
  destruct (SlotStore.is_live (store b) i) as [l|]; [|done]. cbn [obind].
  destruct (count_live b n (i + 1)) as [c'|] eqn:Hc; [|done]. intros [= <-].
  apply IH in Hc. destruct l; lia.
Qed.

Lemma orders_within_capacity b r fl :
  book_ok b r fl → Z.of_nat (base.size (orders b)) ≤ region_capacity b.
Proof.
  intros Hb. pose proof (consistency_ok b r fl Hb) as Hc.
  unfold consistency_problem in Hc. rewrite (size_orders b r fl Hb).
  destruct (count_live b _ 0) as [c|] eqn:Hcl; [|done]. cbn [obind] in Hc.
  destruct (Nat.eqb_spec c (size b)) as [<-|]; [|done].
  apply count_live_le in Hcl. unfold region_capacity, SlotStore.capacity in *.
  rewrite (mapped_count _ _ (bk_mapped _ _ _ Hb)) in *. lia.
Qed.

Lemma capacity_header b r fl :
  book_ok b r fl → region_capacity b = SlotStore.slot_count r.
Proof.
  intros Hb. unfold region_capacity, SlotStore.capacity.
  by rewrite (mapped_header _ _ (bk_mapped _ _ _ Hb)).
Qed.

(** *** Recovery *)

(** What a region must satisfy for a book to be read back from it: its
    published records are stamped with the position that placed them, and no
    two hold the same key. *)
Record region_sound r : Prop := {
  rs_stamp : ∀ i x, slots r !! i = Some x →
    keeps (SlotStore.published_ r) x = true →
    SlotStore.seq_no x = OrderEntry.placed_at_seq_no (payload x);
  rs_keys : ∀ i j x y, slots r !! i = Some x → slots r !! j = Some y →
    keeps (SlotStore.published_ r) x = true →
    keeps (SlotStore.published_ r) y = true →
    OrderEntry.key_of (payload x) = OrderEntry.key_of (payload y) → i = j
}.

(** The published records below slot [n], by key. *)
Definition reads_back r (n : nat) (m : gmap OrderKey.t Z) : Prop :=
  ∀ k j, m !! k = Some j ↔ ∃ x, 0 ≤ j < Z.of_nat n ∧
    slots r !! Z.to_nat j = Some x ∧ keeps (SlotStore.published_ r) x = true ∧
    OrderEntry.key_of (payload x) = k.

Lemma reads_back_skip r n m x :
  reads_back r n m → slots r !! n = Some x →
  keeps (SlotStore.published_ r) x = false → reads_back r (S n) m.
Proof.
  intros Hm Hx Hk k j. rewrite (Hm k j).
  split; intros (y & Hj & Hy & Hky & Hkey); exists y; (split; [|done]); [lia|].
  enough (j ≠ Z.of_nat n) by lia. intros ->. rewrite Nat2Z.id in Hy. congruence.
Qed.

Lemma reads_back_keep r n m x :
  region_sound r → reads_back r n m → slots r !! n = Some x →
  keeps (SlotStore.published_ r) x = true →
  m !! OrderEntry.key_of (payload x) = None ∧
  reads_back r (S n) (<[OrderEntry.key_of (payload x) := Z.of_nat n]> m).
Proof.
  intros Hs Hm Hx Hk.
  assert (m !! OrderEntry.key_of (payload x) = None) as Hnone.
  { apply eq_None_not_Some. intros [j Hj]. apply Hm in Hj
      as (y & Hjn & Hy & Hky & Hkey).
    pose proof (rs_keys _ Hs _ _ _ _ Hy Hx Hky Hk Hkey). lia. }
  split; [done|]. intros k j. rewrite lookup_insert_Some, (Hm k j). split.
  - intros [[<- <-]|(Hne & y & Hj & Hrest)].
    + exists x. rewrite Nat2Z.id. split; [lia|done].
    + exists y. split; [lia|done].
  - intros (y & Hj & Hy & Hky & Hkey).
    destruct (decide (j = Z.of_nat n)) as [->|].
    + rewrite Nat2Z.id in Hy. left. split; congruence.
    + right. split; [|exists y; split; [lia|done]].
      intros Heq. rewrite <- Heq in Hkey.
      pose proof (rs_keys _ Hs _ _ _ _ Hy Hx Hky Hk Hkey). lia.
Qed.

Lemma recover_from_ok mem r n i found b :
  (∀ c, mem c = true) → mapped (store b) r → region_sound r →
  ix_ok (index b) → (i + n = length (slots r))%nat →
  reads_back r i (index_of b) → orders_found found = base.size (index_of b) →
  ∃ idx found', recover_from mem n (Z.of_nat i) found b
      = (with_index b idx, Returns found') ∧ ix_ok idx ∧
    reads_back r (length (slots r)) (ix_abs idx) ∧
    orders_found found' = base.size (ix_abs idx) ∧
    published_found found' = published_found found.
Proof.
  intros Hmem Hm Hs. revert i found b Hm.
  induction n as [|n IH]; intros i found b Hm Hix Hn Hrb Hc.
  { exists (index b), found. rewrite Nat.add_0_r in Hn. subst i.
    split; [by destruct b|done]. }
  destruct (lookup_lt_is_Some_2 (slots r) i) as [x Hx]; [lia|].
  cbn [recover_from].
  rewrite (bind_returns _ _ _ b (keeps (SlotStore.published_ r) x))
    by (apply ask_returns; by apply is_recoverable_ok).
  assert (Hx' : slots r !! Z.to_nat (Z.of_nat i) = Some x) by (by rewrite Nat2Z.id).
  replace (Z.of_nat i + 1) with (Z.of_nat (S i)) by lia.
  destruct (keeps (SlotStore.published_ r) x) eqn:Hk.
  - rewrite (bind_returns _ _ _ b (payload x))
      by (apply ask_returns; apply (read_payload_ok _ r); done || lia).
    destruct (reads_back_keep r i _ x Hs Hrb Hx Hk) as [Hnone Hrb'].
    destruct (ix_emplace_absent mem (index b) _ (Z.of_nat i) Hix Hnone)
      as (idx & Hix' & [[He Habs]|(_ & _ & c & Hc')]);
      [|by rewrite Hmem in Hc'].
    rewrite (bind_returns _ _ _ (with_index b idx) ())
      by (unfold index_emplace; by rewrite He).
    destruct (IH (S i) (mk_recovery (orders_found found + 1) (discarded found)
      (published_found found)) (with_index b idx)) as (idx' & f' & Hr & Hrest);
      try done; [lia|simpl; by rewrite Habs| |].
    { simpl. rewrite Habs, map_size_insert_None by done. lia. }
    exists idx', f'. rewrite Hr. done.
  - rewrite (bind_returns _ _ _ b (SlotStore.state x =? live))
      by (apply ask_returns; apply (is_live_ok _ r); done || lia).
    set (f := if _ : bool then _ else found).
    destruct (IH (S i) f b) as (idx' & f' & Hr & Hix' & Hrb' & Hcf & Hpf); try done;
      [lia|by eapply reads_back_skip|unfold f; by case_if|].
    exists idx', f'. rewrite Hr. do 4 (split; [done|]). rewrite Hpf. unfold f. by case_if.
Qed.

(** What [recover] leaves: exactly the published records. *)
Lemma recover_ok mem b r :
  (∀ c, mem c = true) → mapped (store b) r → region_sound r →
  ix_ok (index b) → index_of b = ∅ →
  ∃ b' r' fl' found, recover mem b = (b', Returns found) ∧
    book_ok b' r' fl' ∧ beside b r b' r' ∧
    orders_found found = base.size (orders b') ∧
    published_found found = SlotStore.published_ r ∧
    ∀ k e, orders b' !! k = Some e ↔
      ∃ (i : nat) x, slots r !! i = Some x ∧
        keeps (SlotStore.published_ r) x = true ∧ payload x = e ∧
        OrderEntry.key_of e = k.
Proof.
  intros Hmem Hm Hs Hix He. unfold recover.
  rewrite (bind_returns _ _ _ b (SlotStore.published_ r)); last first.
  { apply ask_returns. unfold SlotStore.published, SlotStore.header.
    by rewrite (mapped_base _ _ Hm). }
  rewrite (bind_returns _ _ _ _ _ (eq_refl : gets region_capacity b = (_, Returns _))).
  unfold region_capacity, SlotStore.capacity.
  rewrite (mapped_count _ _ Hm), Nat2Z.id.
  destruct (recover_from_ok mem r (length (slots r)) 0
    (mk_recovery 0 0 (SlotStore.published_ r)) b)
    as (idx & found & Hr & Hix' & Hrb & Hcount & Hp); try done.
  { intros k j. rewrite He, lookup_empty. split; [done|].
    intros (x & Hj & _). lia. }
  { by rewrite He, map_size_empty. }
  rewrite (bind_returns _ _ _ _ _ Hr).
  destruct (rebuild_free_list_ok (store b) r Hm)
    as (r' & n & Hreb & Hm' & Hh & [fl Hf] & Hset).
  rewrite (bind_returns _ _ _ (mk (SlotStore.with_region (store b) r') (halted b)
    (voids_known_through b) (applying_when_opened b) idx) ())
    by (unfold store_does; simpl; by rewrite Hreb).
  set (b' := mk _ _ _ _ _).
  assert (Hlive : ∀ i x', slots r' !! i = Some x' → SlotStore.state x' = live →
    slots r !! i = Some x' ∧ keeps (SlotStore.published_ r) x' = true).
  { intros i x' Hx' Hl. destruct (lookup_lt_is_Some_2 (slots r) i) as [x Hx].
    { pose proof (mapped_count _ _ Hm). pose proof (mapped_count _ _ Hm') as Hc'.
      simpl in Hc'. apply lookup_lt_Some in Hx'. lia. }
    destruct (Hset i x Hx) as (x2 & Hx2 & _ & _ & Hk). simplify_eq.
    destruct (keeps (SlotStore.published_ r) x) eqn:Hkx.
    - subst. done.
    - rewrite Hk in Hl. done. }
  assert (Hkept : ∀ i x, slots r !! i = Some x →
    keeps (SlotStore.published_ r) x = true →
    slots r' !! i = Some x ∧ SlotStore.state x = live ∧ 0 < SlotStore.seq_no x).
  { intros i x Hx Hk. destruct (Hset i x Hx) as (x2 & Hx2 & _ & _ & Hk2).
    rewrite Hk in Hk2. subst. unfold keeps in Hk. bool_to_prop. done. }
  assert (book_ok b' r' fl) as Hb'.
  { split; simpl; try done.
    - intros k j Hj. apply Hrb in Hj as (x & Hj & Hx & Hk & Hkey).
      split; [lia|]. exists x. destruct (Hkept _ _ Hx Hk) as (? & ? & _). done.
    - intros i x Hx Hl. destruct (Hlive i x Hx Hl) as [Hx0 Hk].
      apply Hrb. exists x. rewrite Nat2Z.id. apply lookup_lt_Some in Hx0 as Hlt.
      split; [lia|done].
    - intros i x Hx Hl. destruct (Hlive i x Hx Hl) as [Hx0 Hk].
      split; [by apply (rs_stamp _ Hs i)|by apply (Hkept i)]. }
  exists b', r', fl, found. split; [done|]. split; [done|].
  split; [by repeat split; apply Hh|]. split.
  { rewrite (size_orders b' r' fl Hb'), Hcount. symmetry. by apply ix_size_ok. }
  split; [done|]. intros k e. rewrite (orders_live b' r' fl) by done. split.
  - intros (i & x & Hx & Hl & ? & ?). exists i, x.
    destruct (Hlive i x Hx Hl). done.
  - intros (i & x & Hx & Hk & ? & ?). exists i, x.
    destruct (Hkept i x Hx Hk) as (? & ? & _). done.
Qed.

Lemma book_region_sound b r fl : book_ok b r fl → region_sound r.
Proof.
  intros Hb. split.
  - intros i x Hx Hk. apply (bk_stamp _ _ _ Hb i x Hx).
    unfold keeps in Hk. bool_to_prop. done.
  - intros i j x y Hx Hy Hkx Hky Hkey. unfold keeps in Hkx, Hky. bool_to_prop.
    pose proof (bk_live _ _ _ Hb i x Hx ltac:(done)) as Hix.
    pose proof (bk_live _ _ _ Hb j y Hy ltac:(done)) as Hiy.
    rewrite Hkey, Hiy in Hix. injection Hix. lia.
Qed.

End book_proofs.

(** ** The book in use *)

Section in_use.
Context {I : Type} `{KI : KeyIndex I OrderKey.t Z}.
Context {KL : KeyIndexLaws I OrderKey.t Z} `{Payload OrderEntry.t}.
(** [sizeof(OrderEntry)]. *)
Context (entry_size : Z).

Implicit Types (b : OrderBook.t I) (r : SlotStore.Region OrderEntry.t)
  (x : SlotStore.Slot OrderEntry.t) (k : OrderKey.t) (e : OrderEntry.t).

(** A process starts from the region another left: it opens the region and
    reads it back. *)
Definition restart (mem : nat → bool) (path : string) (map_capacity : nat) r
    : OrderBook.t I * outcome Recovery :=
  match open mem SlotStore.OsOk (Some r) entry_size path (SlotStore.slot_count r)
          map_capacity make with
  | (b, _, Returns _) => recover mem b
  | (b, _, Throws e) => (b, Throws e)
  end.

(** What the owner of a book does with it, and the death of the process
    between two of them.  The matching engine adds an order only after asking
    whether its key is on the book, and stamps it with the position of the
    command that placed it. *)
Inductive book_step : OrderBook.t I → OrderBook.t I → Prop :=
  | bs_add mem b k e :
      key_wf k → contains b k = Returns false →
      0 < OrderEntry.placed_at_seq_no e →
      book_step b (add mem k e (OrderEntry.placed_at_seq_no e) b).1
  | bs_remove b k : book_step b (remove k b).1
  | bs_remove_through {X} p (fn : OrderEntry.t → comp X unit) b (y : X) :
      book_step b (remove_placed_through p fn (b, y)).1.1
  | bs_publish b seq : book_step b (publish seq b).1
  | bs_set_halted b h : book_step b (set_halted h b).1
  | bs_set_voids b v : book_step b (set_voids_known_through v b).1
  | bs_restart mem path n b r b' found :
      path ≠ ""%string → SlotStore.base (store b) = Some r →
      (∀ c, mem c = true) →
      restart mem path n r = (b', Returns found) → book_step b b'.

(** A book opened on a new region, and used. *)
Definition book_in_use b : Prop :=
  ∃ mem path capacity n b0 r0,
    open mem SlotStore.OsOk None entry_size path capacity n make
      = (b0, Some r0, Returns false) ∧
    0 < entry_size ∧ 0 < capacity < SlotStore.no_slot ∧ rtc book_step b0 b.

(** The invariant of a book in use. *)
Record use_inv b r (fl : list Z) : Prop := {
  ui_ok : book_ok b r fl;
  ui_magic : SlotStore.magic r = SlotStore.store_magic;
  ui_version : SlotStore.version r = SlotStore.store_version;
  ui_size : SlotStore.payload_size r = entry_size ∧ 0 < entry_size;
  ui_count : 0 < SlotStore.slot_count r < SlotStore.no_slot;
  ui_format : SlotStore.payload_format r = record_format;
  ui_halted : SlotStore.owner_values r !! 0%nat
                = Some (if halted b then 1 else 0);
  ui_voids : SlotStore.owner_values r !! 1%nat = Some (voids_known_through b)
}.

Lemma use_inv_beside b r fl b' r' fl' :
  use_inv b r fl → book_ok b' r' fl' → beside b r b' r' →
  use_inv b' r' fl'.
Proof.
  intros [Hb] Hb' (Hh & Hv & _ & Hm & Hver & Hps & Hc & Hp & Hf & Ho).
  split; try congruence; by rewrite ?Hps, ?Hc, ?Ho, ?Hh, ?Hv.
Qed.

(** A region another process can start from, with the values kept in it. *)
Record region_ok r (h : bool) (v : Z) : Prop := {
  ro_magic : SlotStore.magic r = SlotStore.store_magic;
  ro_version : SlotStore.version r = SlotStore.store_version;
  ro_size : SlotStore.payload_size r = entry_size ∧ 0 < entry_size;
  ro_length : SlotStore.slot_count r = Z.of_nat (length (SlotStore.slots r));
  ro_count : 0 < SlotStore.slot_count r < SlotStore.no_slot;
  ro_format : SlotStore.payload_format r = record_format;
  ro_values : length (SlotStore.owner_values r) = 4%nat;
  ro_halted : SlotStore.owner_values r !! 0%nat = Some (if h then 1 else 0);
  ro_voids : SlotStore.owner_values r !! 1%nat = Some v;
  ro_sound : region_sound r
}.

Lemma use_inv_region b r fl :
  use_inv b r fl → region_ok r (halted b) (voids_known_through b).
Proof.
  intros [Hb]. pose proof (bk_mapped _ _ _ Hb) as Hm. split; try done.
  - by rewrite (mapped_header _ _ Hm), (mapped_count _ _ Hm).
  - apply (mapped_owner _ _ Hm).
  - by eapply book_region_sound.
Qed.

(** Opening the region, and sizing the map. *)
Lemma open_existing_book mem path n r h v :
  region_ok r h v → path ≠ ""%string → (∀ c, mem c = true) →
  ∃ b, open mem SlotStore.OsOk (Some r) entry_size path (SlotStore.slot_count r)
         n make = (b, Some r, Returns true) ∧
    mapped (store b) r ∧ ix_ok (index b) ∧ ix_abs (index b) = ∅ ∧
    halted b = h ∧ voids_known_through b = v.
Proof.
  intros [Hmag Hver [Hps Hpos] Hlen Hcnt Hfmt Hov Hh Hv Hs] Hpath Hmem. unfold open.
  rewrite bool_decide_eq_false_2 by done.
  rewrite <- Hps, <- Hfmt.
  rewrite open_existing_ok by (done || lia).
  destruct (lookup_lt_is_Some_2 (SlotStore.owner_values r) 2) as [a Ha]; [lia|].
  unfold SlotStore.owner_value, SlotStore.header. simpl.
  rewrite (at_index_ok _ 0 (if h then 1 else 0)) by done. simpl.
  rewrite (at_index_ok _ 1 v) by done. simpl.
  rewrite (at_index_ok _ 2 a) by done. simpl.
  destruct (ix_reserve_ok mem ix_empty n (proj1 ix_empty_ok))
    as (idx & res & -> & Hix & Habs & [-> |[-> [c Hc]]]);
    [|by rewrite Hmem in Hc].
  eexists. split; [reflexivity|]. split.
  { split; simpl; try done; lia. }
  split; [done|]. simpl. rewrite Habs. split; [apply ix_empty_ok|].
  split; [by destruct h|done].
Qed.

(** Starting from a region finds the published orders in it, and the values
    kept beside them. *)
Lemma restart_region mem path n r h v :
  region_ok r h v → path ≠ ""%string → (∀ c, mem c = true) →
  ∃ b' r' fl' found, restart mem path n r = (b', Returns found) ∧
    use_inv b' r' fl' ∧ halted b' = h ∧ voids_known_through b' = v ∧
    SlotStore.published_ r' = SlotStore.published_ r ∧
    published_found found = SlotStore.published_ r ∧
    orders_found found = base.size (orders b') ∧
    ∀ k e, orders b' !! k = Some e ↔
      ∃ (i : nat) x, SlotStore.slots r !! i = Some x ∧
        keeps (SlotStore.published_ r) x = true ∧ SlotStore.payload x = e ∧
        OrderEntry.key_of e = k.
Proof.
  intros Hr Hpath Hmem. unfold restart.
  destruct (open_existing_book mem path n r h v Hr Hpath Hmem)
    as (b & -> & Hm & Hix & He & Hh & Hv).
  destruct (recover_ok mem b r Hmem Hm (ro_sound _ _ _ Hr) Hix He)
    as (b' & r' & fl' & found & -> & Hb' & Hbes & Hcnt & Hp & Ho).
  exists b', r', fl', found. split; [done|].
  destruct (Hbes) as (Hh' & Hv' & _ & Hmag & Hver & Hps & Hsc & Hpub & Hfmt & Hov).
  destruct Hr. split.
  { split; [done|congruence|congruence|by rewrite Hps|by rewrite Hsc|congruence
      |by rewrite Hov, Hh', Hh|by rewrite Hov, Hv', Hv]. }
  split; [congruence|]. split; [congruence|]. done.
Qed.

(** *** The invariant *)

Lemma use_inv_values b r fl b' r' fl' :
  use_inv b r fl → book_ok b' r' fl' → same_shape r r' →
  SlotStore.owner_values r' !! 0%nat = Some (if halted b' then 1 else 0) →
  SlotStore.owner_values r' !! 1%nat = Some (voids_known_through b') →
  use_inv b' r' fl'.
Proof.
  intros [Hb] Hb' (Hm & Hver & Hps & Hc & Hf) Hh Hv.
  split; try congruence; by rewrite ?Hps, ?Hc.
Qed.

Lemma book_step_inv b b' r fl :
  book_step b b' → use_inv b r fl → ∃ r' fl', use_inv b' r' fl'.
Proof.
  intros Hst Hu. pose proof (ui_ok _ _ _ Hu) as Hb.
  assert (Hlen : length (SlotStore.owner_values r) = 4%nat)
    by apply (mapped_owner _ _ (bk_mapped _ _ _ Hb)).
  destruct Hst as [mem b k e Hk Hc Hpos|b k|X p fn b y|b seq|b h|b v
    |mem path n b r0 b' found Hp Hr Hmem Hrs].
  - assert (orders b !! k = None) as Hn.
    { rewrite (contains_orders b r fl) in Hc by done.
      by destruct (orders b !! k). }
    destruct (add_ok mem b r fl k e _ Hb Hk Hn eq_refl Hpos)
      as [[_ ->]|(b' & r' & fl' & res & -> & Hb' & Hbes & _)]; [by exists r, fl|].
    exists r', fl'. by eapply use_inv_beside.
  - destruct (remove_ok b r fl k Hb) as (b' & r' & fl' & -> & Hb' & Hbes & _).
    exists r', fl'. by eapply use_inv_beside.
  - destruct (remove_placed_through_ok p fn b r fl y Hb)
      as (es & b' & r' & fl' & n & _ & _ & _ & -> & Hb' & Hbes & _).
    exists r', fl'. by eapply use_inv_beside.
  - destruct (publish_ok b r fl seq Hb)
      as (b' & r' & -> & Hb' & _ & Hh & Hv & _ & _ & Hsh & Hov).
    exists r', fl. eapply use_inv_values; try done; simpl;
      rewrite Hov, ?Hh, ?Hv; apply Hu.
  - destruct (set_halted_ok b r fl h Hb)
      as (b' & r' & -> & Hb' & _ & Hh & Hv & _ & _ & Hsh & Hov).
    exists r', fl. eapply use_inv_values; try done; simpl; rewrite Hov.
    + rewrite Hh. apply list_lookup_insert_eq. lia.
    + rewrite Hv, list_lookup_insert_ne by lia. apply Hu.
  - destruct (set_voids_known_through_ok b r fl v Hb)
      as (b' & r' & -> & Hb' & _ & Hh & Hv & _ & _ & Hsh & Hov).
    exists r', fl. eapply use_inv_values; try done; simpl; rewrite Hov.
    + rewrite Hh, list_lookup_insert_ne by lia. apply Hu.
    + rewrite Hv. apply list_lookup_insert_eq. lia.
  - assert (r0 = r) as ->.
    { rewrite (mapped_base _ _ (bk_mapped _ _ _ Hb)) in Hr. congruence. }
    destruct (restart_region mem path n r _ _ (use_inv_region b r fl Hu) Hp Hmem)
      as (b2 & r2 & fl2 & f2 & Hrs2 & Hu2 & _).
    rewrite Hrs in Hrs2. injection Hrs2 as -> ->. eauto.
Qed.

Lemma open_new_book mem path capacity n b r :
  open mem SlotStore.OsOk None entry_size path capacity n make
    = (b, Some r, Returns false) →
  0 < entry_size → 0 < capacity < SlotStore.no_slot →
  use_inv b r (seqZ 0 capacity) ∧ orders b = ∅.
Proof.
  unfold open. intros Ho Hps Hc. case_bool_decide; [done|].
  destruct (open_new_ok (P:=OrderEntry.t) entry_size capacity record_format
    SlotStore.make Hps Hc) as (s & r1 & Hos & Hm & Hpub & Hov & Hf & Hfree).
  assert (Hhdr : SlotStore.magic r1 = SlotStore.store_magic ∧
    SlotStore.version r1 = SlotStore.store_version ∧
    SlotStore.payload_size r1 = entry_size ∧ SlotStore.slot_count r1 = capacity ∧
    SlotStore.payload_format r1 = record_format).
  { unfold SlotStore.open in Hos.
    destruct (Z.eqb_spec entry_size 0), (Z.eqb_spec capacity 0),
      (Z.eqb_spec capacity SlotStore.no_slot); try lia.
    cbn [orb] in Hos. injection Hos as _ <-. done. }
  simpl in Ho. rewrite Hos in Ho.
  unfold SlotStore.owner_value, SlotStore.header in Ho. simpl in Ho.
  rewrite (mapped_base _ _ Hm) in Ho. simpl in Ho. rewrite Hov in Ho. simpl in Ho.
  destruct (ix_reserve_ok mem ix_empty n (proj1 ix_empty_ok))
    as (idx & res & Hres & Hix & Habs & Hr).
  rewrite Hres in Ho. destruct res as [[]|]; [|done].
  injection Ho as <- <-.
  rewrite (proj2 ix_empty_ok) in Habs. split.
  - destruct Hhdr as (? & ? & ? & Hsc & ?). split; simpl; try done.
    + split; simpl; try done.
      * intros k i. by rewrite Habs, lookup_empty.
      * intros i x Hx Hl. by rewrite (Hfree i x Hx) in Hl.
      * intros i x Hx Hl. by rewrite (Hfree i x Hx) in Hl.
    + by rewrite Hsc.
    + by rewrite Hov.
    + by rewrite Hov.
  - unfold orders. simpl. rewrite (mapped_base _ _ Hm), Habs. apply omap_empty.
Qed.

Lemma book_in_use_inv b : book_in_use b → ∃ r fl, use_inv b r fl.
Proof.
  intros (mem & path & capacity & n & b0 & r0 & Ho & Hes & Hc & Hst).
  destruct (open_new_book mem path capacity n b0 r0 Ho Hes Hc) as [Hu _].
  clear Ho. revert Hu. generalize (seqZ 0 capacity). revert r0.
  induction Hst as [b|b b1 b2 Hst _ IH]; intros r fl Hu; [by exists r, fl|].
  destruct (book_step_inv b b1 r fl Hst Hu) as (r1 & fl1 & Hu1). by eapply IH.
Qed.

End in_use.

(** ** Properties *)

Section properties.
Context {I : Type} `{KI : KeyIndex I OrderKey.t Z}.
Context {KL : KeyIndexLaws I OrderKey.t Z} `{Payload OrderEntry.t}.
Context (entry_size : Z).

Implicit Types (b : OrderBook.t I) (r : SlotStore.Region OrderEntry.t)
  (x y : SlotStore.Slot OrderEntry.t) (k : OrderKey.t) (e : OrderEntry.t).

Abbreviation book_in_use := (book_in_use entry_size).

(** the region and the map of a book in use always agree, restarts
    included: the check of the book's consistency finds no problem, and reads
    no record outside the region while it looks. *)
Theorem book_in_use_is_consistent b :
  book_in_use b → consistency_problem b = Returns None.
Proof.
  intros Hu. destruct (book_in_use_inv entry_size b Hu) as (r & fl & Hi).
  apply (consistency_ok b r fl), Hi.
Qed.

(** adding an order whose key is not on the book files exactly that order
    under its key and changes no other, or refuses because the region holds as
    many orders as it can, or throws because the map could not grow; in the
    last two cases the book holds what it held. *)
Theorem add_files_one_order mem b k e seq :
  book_in_use b → key_wf k → contains b k = Returns false →
  seq = OrderEntry.placed_at_seq_no e → 0 < seq →
  ∃ b' res, add mem k e seq b = (b', res) ∧
    consistency_problem b' = Returns None ∧
    match res with
    | Returns true => find b' k = Returns (Some (OrderEntry.file_under k e)) ∧
        ∀ k', k' ≠ k → find b' k' = find b k'
    | Returns false => b' = b ∧ Z.of_nat (size b) = region_capacity b
    | Throws ex => ex = BadAlloc ∧ (∃ n, mem n = false) ∧
        ∀ k', find b' k' = find b k'
    end.
Proof.
  intros Hu Hk Hc Hseq Hpos.
  destruct (book_in_use_inv entry_size b Hu) as (r & fl & Hi).
  pose proof (ui_ok _ _ _ _ Hi) as Hb.
  assert (orders b !! k = None) as Hn.
  { rewrite (contains_orders b r fl) in Hc by done. by destruct (orders b !! k). }
  destruct (add_ok mem b r fl k e seq Hb Hk Hn Hseq Hpos)
    as [[-> ->]|(b' & r' & fl' & res & -> & Hb' & Hbes & Hres)].
  - exists b, (Returns false). split; [done|].
    split; [by apply (consistency_ok b r [])|]. split; [done|].
    rewrite <- (size_orders b r []) by done. by apply full_book_size with r.
  - exists b', res. split; [done|]. split; [by apply (consistency_ok b' r' fl')|].
    destruct Hres as [[-> Ho]|(-> & Ho & Hmem)].
    + rewrite (find_orders b' r' fl') by done. rewrite Ho, lookup_insert_eq.
      split; [done|]. intros k' Hne. rewrite (find_orders b' r' fl') by done.
      rewrite (find_orders b r fl) by done. by rewrite Ho, lookup_insert_ne.
    + split; [done|]. split; [done|]. intros k'.
      rewrite (find_orders b' r' fl') by done.
      by rewrite (find_orders b r fl), Ho by done.
Qed.

(** removing an order takes off the book that order and no other, and
    says whether there was one. *)
Theorem remove_takes_off_one_order b k :
  book_in_use b →
  ∃ b', remove k b = (b', contains b k) ∧
    consistency_problem b' = Returns None ∧ find b' k = Returns None ∧
    ∀ k', k' ≠ k → find b' k' = find b k'.
Proof.
  intros Hu. destruct (book_in_use_inv entry_size b Hu) as (r & fl & Hi).
  pose proof (ui_ok _ _ _ _ Hi) as Hb.
  destruct (remove_ok b r fl k Hb) as (b' & r' & fl' & Hr & Hb' & _ & Ho).
  exists b'. rewrite (contains_orders b r fl) by done. split; [done|].
  split; [by apply (consistency_ok b' r' fl')|].
  rewrite (find_orders b' r' fl') by done. rewrite Ho, lookup_delete_eq.
  split; [done|]. intros k' Hne. rewrite (find_orders b' r' fl') by done.
  rewrite (find_orders b r fl) by done. by rewrite Ho, lookup_delete_ne.
Qed.

(** C6: a process that starts from the region another process left, at any
    point between two operations on the book, holds exactly the orders placed
    at or below the published position, and the halt and the void position
    recorded in the region. *)
Theorem restart_finds_published_orders mem path n b r :
  book_in_use b → SlotStore.base (store b) = Some r →
  path ≠ ""%string → (∀ c, mem c = true) →
  ∃ b' found, restart entry_size mem path n r = (b', Returns found) ∧
    consistency_problem b' = Returns None ∧
    halted b' = halted b ∧ voids_known_through b' = voids_known_through b ∧
    published b' = published b ∧ orders_found found = size b' ∧
    ∀ k, find b' k =
      (let! found := find b k in Returns
       (o ← found;
        if OrderEntry.placed_at_seq_no o <=? SlotStore.published_ r
        then Some o else None)).
Proof.
  intros Hu Hr Hpath Hmem.
  destruct (book_in_use_inv entry_size b Hu) as (r0 & fl & Hi).
  pose proof (ui_ok _ _ _ _ Hi) as Hb.
  assert (r0 = r) as ->.
  { rewrite (mapped_base _ _ (bk_mapped _ _ _ Hb)) in Hr. congruence. }
  destruct (restart_region entry_size mem path n r _ _
    (use_inv_region entry_size b r fl Hi) Hpath Hmem)
    as (b' & r' & fl' & found & Hrs & Hi' & Hh & Hv & Hp & _ & Hc & Ho).
  pose proof (ui_ok _ _ _ _ Hi') as Hb'.
  exists b', found. split; [done|]. split; [by apply (consistency_ok b' r' fl')|].
  split; [done|]. split; [done|]. split.
  { unfold published, SlotStore.published, SlotStore.header.
    rewrite (mapped_base _ _ (bk_mapped _ _ _ Hb')), Hr. simpl. congruence. }
  split; [by rewrite Hc, (size_orders b' r' fl')|].
  intros k. rewrite (find_orders b' r' fl') by done.
  rewrite (find_orders b r fl) by done. simpl. f_equal.
  apply option_eq. intros e. rewrite Ho. split.
  - intros (i & x & Hx & Hk & <- & <-). unfold keeps in Hk. bool_to_prop.
    rewrite (proj2 (orders_live b r fl _ (SlotStore.payload x) Hb)) by eauto 10.
    simpl. destruct (bk_stamp _ _ _ Hb i x Hx ltac:(done)) as [<- _].
    destruct (Z.leb_spec (SlotStore.seq_no x) (SlotStore.published_ r)); [done|lia].
  - intros Hbind. destruct (orders b !! k) as [o|] eqn:Hok; [|done]. simpl in Hbind.
    destruct (Z.leb_spec (OrderEntry.placed_at_seq_no o) (SlotStore.published_ r));
      [|done]. injection Hbind as ->.
    apply (orders_live b r fl) in Hok as (i & x & Hx & Hl & Hpx & Hkx); [|done].
    exists i, x. destruct (bk_stamp _ _ _ Hb i x Hx Hl) as [Hst Hpos].
    split; [done|]. split; [|done]. unfold keeps. rewrite Hl, Hst, Hpx.
    rewrite Hst, Hpx in Hpos. simpl.
    apply andb_true_iff. split; [by apply Z.ltb_lt|by apply Z.leb_le].
Qed.

(** The memory of the region at each point inside [add] where the process may
    die: the slot taken, some bytes of the record written, the stamp written,
    the slot live. *)
Inductive during_add r (i : Z) y k e seq
    : SlotStore.Region OrderEntry.t → Prop :=
  | da_taken :
      during_add r i y k e seq (SlotStore.set_free_head r (SlotStore.next_free y))
  | da_writing p :
      during_add r i y k e seq
        (SlotStore.set_slot (SlotStore.set_free_head r (SlotStore.next_free y)) i
           (SlotStore.mk_slot (SlotStore.state y) (SlotStore.next_free y)
              (SlotStore.seq_no y) p))
  | da_stamped :
      during_add r i y k e seq
        (SlotStore.set_slot (SlotStore.set_free_head r (SlotStore.next_free y)) i
           (SlotStore.mk_slot (SlotStore.state y) (SlotStore.next_free y) seq
              (OrderEntry.file_under k e)))
  | da_live :
      during_add r i y k e seq
        (SlotStore.set_slot (SlotStore.set_free_head r (SlotStore.next_free y)) i
           (SlotStore.mk_slot SlotStore.slot_live (SlotStore.next_free y) seq
              (OrderEntry.file_under k e))).

Lemma during_add_kept r i y k e seq r' :
  during_add r i y k e seq r' →
  SlotStore.slots r !! Z.to_nat i = Some y →
  SlotStore.state y ≠ SlotStore.slot_live → SlotStore.published_ r < seq →
  same_header r r' ∧
  length (SlotStore.slots r') = length (SlotStore.slots r) ∧
  ∀ j x, keeps (SlotStore.published_ r) x = true →
    SlotStore.slots r' !! j = Some x ↔ SlotStore.slots r !! j = Some x.
Proof.
  intros Hd Hy Hnl Hlt.
  assert (∀ j x z, keeps (SlotStore.published_ r) x = true →
    keeps (SlotStore.published_ r) z = false →
    <[Z.to_nat i := z]> (SlotStore.slots r) !! j = Some x ↔
    SlotStore.slots r !! j = Some x) as Hset.
  { intros j x z Hx Hz. apply Z.eqb_neq in Hnl.
    destruct (decide (Z.to_nat i = j)) as [<-|].
    - rewrite list_lookup_insert_eq by (by apply (lookup_lt_Some _ _ _ Hy)).
      assert (keeps (SlotStore.published_ r) y = false).
      { unfold keeps. by rewrite Hnl. }
      split; intros ?; congruence.
    - by rewrite list_lookup_insert_ne. }
  destruct Hd; (split; [done|]); simpl; rewrite ?length_insert; (split; [done|]);
    try done; intros j x Hx; apply Hset; try done; unfold keeps; simpl;
    apply Z.eqb_neq in Hnl; rewrite ?Hnl; try done.
  apply andb_false_iff. right. apply Z.leb_gt. lia.
Qed.

(** a process that dies at any point inside [add], before the command's
    position is published, leaves a region from which the next process reads
    the same orders as if the command had not begun. *)
Theorem death_during_add_is_not_seen mem path n b r i y k e seq r' :
  book_in_use b → SlotStore.base (store b) = Some r →
  SlotStore.acquire (store b)
    = Returns (SlotStore.with_region (store b)
                 (SlotStore.set_free_head r (SlotStore.next_free y)), i) →
  i ≠ SlotStore.no_slot → SlotStore.slots r !! Z.to_nat i = Some y →
  SlotStore.published_ r < seq → during_add r i y k e seq r' →
  path ≠ ""%string → (∀ c, mem c = true) →
  ∃ b1 f1 b2 f2, restart entry_size mem path n r = (b1, Returns f1) ∧
    restart entry_size mem path n r' = (b2, Returns f2) ∧
    consistency_problem b2 = Returns None ∧ published b2 = published b1 ∧
    halted b2 = halted b1 ∧ orders_found f2 = orders_found f1 ∧
    ∀ k', find b2 k' = find b1 k'.
Proof.
  intros Hu Hr Ha Hi Hy Hlt Hd Hpath Hmem.
  destruct (book_in_use_inv entry_size b Hu) as (r0 & fl & Hinv).
  pose proof (ui_ok _ _ _ _ Hinv) as Hb.
  assert (r0 = r) as ->.
  { rewrite (mapped_base _ _ (bk_mapped _ _ _ Hb)) in Hr. congruence. }
  assert (SlotStore.state y ≠ SlotStore.slot_live) as Hnl.
  { pose proof (acquire_ok _ _ fl (bk_mapped _ _ _ Hb) (bk_free _ _ _ Hb)) as Hacq.
    destruct fl as [|j fl]; [rewrite Ha in Hacq; congruence|].
    destruct Hacq as (h & z & Hz & Hacq & _). rewrite Ha in Hacq.
    injection Hacq as _ ->. simplify_eq.
    by eapply (free_slot_not_live r (j :: fl) j y (bk_free _ _ _ Hb));
      [left|]. }
  destruct (during_add_kept r i y k e seq r' Hd Hy Hnl Hlt) as (Hh & Hlen & Hk).
  pose proof (use_inv_region entry_size b r fl Hinv) as Hro.
  assert (region_ok entry_size r' (halted b) (voids_known_through b)) as Hro'.
  { destruct Hh as (Hmag & Hver & Hps & Hsc & Hpub & Hfmt & Hov), Hro.
    split; rewrite ?Hmag, ?Hver, ?Hps, ?Hsc, ?Hfmt, ?Hov, ?Hlen; try done.
    split; rewrite Hpub.
    - intros j x Hx Hkx. by apply (rs_stamp _ ro_sound0 j), Hkx; apply Hk.
    - intros j j' x z Hx Hz Hkx Hkz. apply (rs_keys _ ro_sound0); try done;
        by apply Hk. }
  destruct (restart_region entry_size mem path n r _ _ Hro Hpath Hmem)
    as (b1 & r1 & fl1 & f1 & Hrs1 & Hi1 & Hh1 & _ & Hp1 & _ & Hc1 & Ho1).
  destruct (restart_region entry_size mem path n r' _ _ Hro' Hpath Hmem)
    as (b2 & r2 & fl2 & f2 & Hrs2 & Hi2 & Hh2 & _ & Hp2 & _ & Hc2 & Ho2).
  pose proof (ui_ok _ _ _ _ Hi1) as Hb1. pose proof (ui_ok _ _ _ _ Hi2) as Hb2.
  destruct Hh as (_ & _ & _ & _ & Hpub & _ & _).
  assert (orders b2 = orders b1) as Heq.
  { apply map_eq. intros k'. apply option_eq. intros e'. rewrite Ho1, Ho2, Hpub.
    split; intros (j & x & Hx & Hkx & ? & ?); exists j, x;
      (split; [by apply Hk|done]). }
  exists b1, f1, b2, f2. split; [done|]. split; [done|].
  split; [by apply (consistency_ok b2 r2 fl2)|]. split.
  { unfold published, SlotStore.published, SlotStore.header.
    rewrite (mapped_base _ _ (bk_mapped _ _ _ Hb1)).
    rewrite (mapped_base _ _ (bk_mapped _ _ _ Hb2)). simpl. congruence. }
  split; [congruence|]. split; [by rewrite Hc1, Hc2, Heq|].
  intros k'. rewrite (find_orders b2 r2 fl2) by done.
  by rewrite (find_orders b1 r1 fl1), Heq by done.
Qed.

(** [remove] releases the record at once, so the change does not stay
    above the published position: a process that dies after removing an order
    and before publishing the command's position leaves a region from which
    the next process no longer reads the order, although nothing published
    says it was removed. *)
Theorem death_after_remove_loses_order mem path n b k e b1 r1 res :
  book_in_use b → find b k = Returns (Some e) →
  remove k b = (b1, res) → SlotStore.base (store b1) = Some r1 →
  path ≠ ""%string → (∀ c, mem c = true) →
  published b1 = published b ∧
  ∃ b2 found, restart entry_size mem path n r1 = (b2, Returns found) ∧
    find b2 k = Returns None.
Proof.
  intros Hu Hf Hrem Hr1 Hpath Hmem.
  destruct (book_in_use_inv entry_size b Hu) as (r & fl & Hinv).
  pose proof (ui_ok _ _ _ _ Hinv) as Hb.
  destruct (remove_ok b r fl k Hb) as (b' & r' & fl' & Hr & Hb' & Hbes & Ho).
  rewrite Hrem in Hr. injection Hr as -> ->.
  pose proof (use_inv_beside entry_size b r fl b' r' fl' Hinv Hb' Hbes) as Hinv'.
  assert (r1 = r') as ->.
  { rewrite (mapped_base _ _ (bk_mapped _ _ _ Hb')) in Hr1. congruence. }
  split.
  { destruct Hbes as (_ & _ & _ & _ & _ & _ & _ & Hp & _).
    unfold published, SlotStore.published, SlotStore.header.
    rewrite (mapped_base _ _ (bk_mapped _ _ _ Hb)), Hr1. simpl. congruence. }
  destruct (restart_region entry_size mem path n r' _ _
    (use_inv_region entry_size b' r' fl' Hinv') Hpath Hmem)
    as (b2 & r2 & fl2 & f2 & Hrs2 & Hi2 & _ & _ & _ & _ & _ & Ho2).
  exists b2, f2. split; [done|]. pose proof (ui_ok _ _ _ _ Hi2) as Hb2.
  rewrite (find_orders b2 r2 fl2) by done. f_equal.
  apply eq_None_not_Some. intros [e' He']. apply Ho2 in He'
    as (j & x & Hx & Hk & Hp & Hkey). unfold keeps in Hk. bool_to_prop.
  assert (orders b' !! k = Some e') as Hk'.
  { apply (orders_live b' r' fl'); eauto 10. }
  by rewrite Ho, lookup_delete_eq in Hk'.
Qed.

(** a cancel of every order placed up to a position visits the orders in
    the order they were placed, so two engines whose books hold the same
    orders make the same calls in the same order, whatever the two maps and
    the two regions look like; if no call throws, both books keep exactly the
    orders placed after the position. *)
Theorem mass_cancel_is_deterministic {X} p (fn : OrderEntry.t → comp X unit)
    b1 b2 (s : X) :
  book_in_use b1 → book_in_use b2 → (∀ k, find b1 k = find b2 k) →
  (∀ k k' e e', find b1 k = Returns (Some e) → find b1 k' = Returns (Some e') →
     OrderEntry.placed_at_seq_no e = OrderEntry.placed_at_seq_no e' → e = e') →
  ∃ b1' b2' s' res,
    remove_placed_through p fn (b1, s) = ((b1', s'), res) ∧
    remove_placed_through p fn (b2, s) = ((b2', s'), res) ∧
    consistency_problem b1' = Returns None ∧
    consistency_problem b2' = Returns None ∧
    (∀ n, res = Returns n → ∀ k, find b2' k = find b1' k ∧
       find b1' k =
         (let! found := find b1 k in Returns
          (o ← found; if p <? OrderEntry.placed_at_seq_no o
                      then Some o else None))).
Proof.
  intros Hu1 Hu2 Hsame Hdist.
  destruct (book_in_use_inv entry_size b1 Hu1) as (r1 & fl1 & Hi1).
  destruct (book_in_use_inv entry_size b2 Hu2) as (r2 & fl2 & Hi2).
  pose proof (ui_ok _ _ _ _ Hi1) as Hb1. pose proof (ui_ok _ _ _ _ Hi2) as Hb2.
  assert (orders b1 = orders b2) as Heq.
  { apply map_eq. intros k. specialize (Hsame k).
    rewrite (find_orders b1 r1 fl1), (find_orders b2 r2 fl2) in Hsame by done.
    by injection Hsame. }
  destruct (remove_placed_through_ok p fn b1 r1 fl1 s Hb1)
    as (es & b1' & r1' & fl1' & n1 & Hs1 & Hn1 & He1 & Hr1 & Hb1' & _ & Ho1 & Hall1).
  destruct (remove_placed_through_ok p fn b2 r2 fl2 s Hb2)
    as (es2 & b2' & r2' & fl2' & n2 & Hs2 & Hn2 & He2 & Hr2 & Hb2' & _ & Ho2 & Hall2).
  assert (es2 = es) as ->.
  { apply (StronglySorted_unique_strong earlier); [|done|done|].
    - intros e e' [_ [k Hk]]%He2 [_ [k' Hk']]%He1 Hle Hle'.
      rewrite <- Heq in Hk. unfold earlier in *.
      apply (Hdist k k'); [..|lia];
        rewrite (find_orders b1 r1 fl1) by done; congruence.
    - apply NoDup_Permutation; [done|done|]. intros e.
      by rewrite He1, He2, Heq. }
  exists b1', b2'. do 2 eexists. split; [exact Hr1|]. split; [exact Hr2|].
  split; [by apply (consistency_ok b1' r1' fl1')|].
  split; [by apply (consistency_ok b2' r2' fl2')|]. intros n Hn.
  assert ((visit_all fn es s).2 = Returns ()) as Hret.
  { destruct ((visit_all fn es s).2) as [[]|]; done. }
  rewrite (Hall1 Hret) in Ho1. rewrite (Hall2 Hret) in Ho2.
  intros k. rewrite (find_orders b1' r1' fl1'), (find_orders b2' r2' fl2') by done.
  rewrite (find_orders b1 r1 fl1) by done. rewrite Ho1, Ho2, Heq. simpl.
  split; [done|]. f_equal. rewrite <- Heq.
  by apply (without_placed_through b1 r1 fl1).
Qed.

End properties.

(** ** The book on the map the code uses *)

Abbreviation order_map := (RehashMap.t (K:=OrderKey.t) (V:=Z)).

#[export] Instance order_index : KeyIndex order_map OrderKey.t Z :=
  rehash_index OrderKey.hash.

#[export] Instance order_index_laws : KeyIndexLaws order_map OrderKey.t Z :=
  rehash_index_laws OrderKey.hash.

(** A region of three records: two orders placed and published, and a third
    placed by a command that has not finished. *)
Section demo.

#[local] Instance demo_payload : Payload OrderEntry.t := {|
  blank := OrderEntry.blank_entry;
  cut n e := if n <=? 0 then OrderEntry.blank_entry else e
|}.

Definition demo_session : SessionIdentity.t := SessionIdentity.make "MEMBER" 1.

Definition demo_key (id : string) : OrderKey.t := OrderKey.make demo_session id.

Definition demo_entry (seq : Z) : OrderEntry.t :=
  OrderEntry.mk seq demo_session 49 50 false 0 false 0 true "" "VOD.L" "100"
    "12.5".

Definition plenty (c : nat) : bool := true.

Definition demo_new : OrderBook.t order_map :=
  (open plenty SlotStore.OsOk None 320 "book" 3 0 make).1.1.

Definition demo_add (id : string) (seq : Z) (b : OrderBook.t order_map)
    : OrderBook.t order_map :=
  (add plenty (demo_key id) (demo_entry seq)
     (OrderEntry.placed_at_seq_no (demo_entry seq)) b).1.

Definition demo_published : OrderBook.t order_map :=
  (publish 2 (demo_add "B" 2 (demo_add "A" 1 demo_new))).1.

Definition demo_book : OrderBook.t order_map := demo_add "C" 3 demo_published.

Lemma demo_add_step id seq b :
  contains b (demo_key id) = Returns false → 0 < seq →
  book_step 320 b (demo_add id seq b).
Proof.
  intros Hc Hs. unfold demo_add.
  apply (bs_add 320 plenty b (demo_key id) (demo_entry seq));
    [apply make_wf|exact Hc|exact Hs].
Qed.

Lemma demo_published_in_use : book_in_use 320 demo_published.
Proof.
  exists plenty, "book"%string, 3, 0%nat, demo_new.
  eexists. split; [vm_compute; reflexivity|].
  split; [reflexivity|]. split; [split; reflexivity|].
  apply (rtc_l _ _ (demo_add "A" 1 demo_new)).
  { apply demo_add_step; [vm_compute; reflexivity|reflexivity]. }
  apply (rtc_l _ _ (demo_add "B" 2 (demo_add "A" 1 demo_new))).
  { apply demo_add_step; [vm_compute; reflexivity|reflexivity]. }
  unfold demo_published. generalize (demo_add "B" 2 (demo_add "A" 1 demo_new)).
  intros b. apply rtc_once. apply bs_publish.
Qed.

Lemma demo_book_in_use : book_in_use 320 demo_book.
Proof.
  destruct demo_published_in_use as (mem & path & c & n & b0 & r0 & Ho & Hs & Hc & Hst).
  exists mem, path, c, n, b0, r0. split; [exact Ho|]. split; [exact Hs|].
  split; [exact Hc|]. apply (rtc_r _ demo_published); [exact Hst|].
  unfold demo_book. apply demo_add_step; [vm_compute; reflexivity|reflexivity].
Qed.

Lemma restart_finds_published_orders_witness :
  ∃ r b' found, SlotStore.base (store demo_book) = Some r ∧
    restart 320 plenty "book" 0 r = (b', Returns found) ∧
    orders_found found = size b' ∧
    find b' (demo_key "B") = find demo_book (demo_key "B") ∧
    find b' (demo_key "C") = Returns None.
Proof.
  destruct (SlotStore.base (store demo_book)) as [r|] eqn:Hr;
    [|vm_compute in Hr; discriminate].
  destruct (restart_finds_published_orders 320 plenty "book" 0 demo_book r
    demo_book_in_use Hr) as (b' & found & Hrs & _ & _ & _ & _ & Hc & Hf);
    [discriminate|reflexivity|].
  assert (SlotStore.published_ r = 2) as Hp.
  { vm_compute in Hr. injection Hr as <-. reflexivity. }
  exists r, b', found. split; [exact eq_refl|]. split; [exact Hrs|].
  split; [exact Hc|]. rewrite !Hf, Hp. split; vm_compute; reflexivity.
Defined.

(** A callback that keeps the positions it is called with. *)
Definition note_placed (e : OrderEntry.t) : comp (list Z) unit :=
  modify (λ l, l ++ [OrderEntry.placed_at_seq_no e]).

End demo.
