(* ===== verification/Identifiers.v ===== *)
(** The names of orders and reports:
    applications/matching_engine/Ff1Cipher.{hpp,cpp}, ReportIdentifiers.{hpp,cpp}
    and the date text of applications/fix_common/TradingDate.hpp.

    [Ff1] is the FF1 format-preserving cipher, [ReportIdentifiers] the class
    that packs a position in the WAL into sixteen hexadecimal digits and
    scrambles them with it.  AES and HMAC-SHA256 are OpenSSL's: the functions
    [aes] and [hmac] here are parameters, which may fail.

    The theorems show that decrypting undoes encrypting whatever the block
    function is, that an identifier gives back the position it was made from,
    and so that no two reports and no two orders of a day are given the same
    name. *)

From Stdlib Require Import Ascii.
From stdpp Require Import pretty.
From S2P Require Import Prelude.
#[local] Open Scope Z_scope.
#[local] Open Scope venue_scope.

Module Ff1.

Definition block_size : nat := 16.
Definition max_numerals : nat := 64.
Definition max_tweak_bytes : nat := 255.

(** [power_or_zero]: zero when the power does not fit in 64 bits. *)
Fixpoint power_from (steps : nat) (radix result : Z) : Z :=
  match steps with
  | O => result
  | S steps => if uint64_max / radix <? result then 0
               else power_from steps radix (result * radix)
  end.

Definition power_or_zero (radix : Z) (exponent : nat) : Z :=
  power_from exponent radix 1.

(** [number_of]: NUM_radix, in 64 bits. *)
Definition number_of (radix : Z) (numerals : list Z) : Z :=
  foldl (λ value numeral, wrap64 (value * radix + numeral)) 0 numerals.

(** [numerals_of]: STR_radix, the last numeral written first. *)
Fixpoint numerals_of (radix : Z) (count : nat) (value : Z) : list Z :=
  match count with
  | O => []
  | S count => numerals_of radix count (value / radix) ++ [value mod radix]
  end.

(** [bits_for]: the bit length, in at most 64 turns. *)
Fixpoint bit_length (turns : nat) (remaining : Z) : nat :=
  match turns with
  | O => 0
  | S turns => if remaining =? 0 then 0
               else S (bit_length turns (Z.shiftr remaining 1))
  end.

Definition bits_for (radix : Z) (count : nat) : nat :=
  bit_length 64 (wrap64 (power_or_zero radix count - 1)).

Definition byte (z : Z) : Z := z mod 256.

Inductive Direction := Encrypt | Decrypt.

Section cipher.
(** [encrypt_block]: AES on one block, with the key of this cipher. *)
Context (encrypt_block : list Z → outcome (list Z)).
Context (radix : Z).

(** The parameters of a run: [u] and [v] numerals in the halves, [b] bytes for
    a number of [v] numerals, [d] bytes used of a round's output. *)
Definition bytes_of_half (v : nat) : nat := ((bits_for radix v + 7) / 8)%nat.

Definition bytes_used (b : nat) : nat := (4 * ((b + 3) / 4) + 4)%nat.

(** [P], the first block. *)
Definition block_p (n u t : nat) : list Z :=
  [1; 2; 1;
   byte (Z.shiftr radix 16); byte (Z.shiftr radix 8); byte radix;
   10; Z.of_nat u mod 256;
   byte (Z.shiftr (Z.of_nat n) 24); byte (Z.shiftr (Z.of_nat n) 16);
   byte (Z.shiftr (Z.of_nat n) 8); byte (Z.of_nat n);
   byte (Z.shiftr (Z.of_nat t) 24); byte (Z.shiftr (Z.of_nat t) 16);
   byte (Z.shiftr (Z.of_nat t) 8); byte (Z.of_nat t)].

Definition padding (t b : nat) : nat :=
  ((block_size - (t + b + 1) mod block_size) mod block_size)%nat.

(** [Q] for one round: the tweak, zeros, the round number, and [b] bytes of the
    number, the highest first. *)
Definition block_q (tweak : list Z) (b : nat) (i round_input : Z) : list Z :=
  tweak ++ replicate (padding (length tweak) b) 0 ++ [byte i] ++
  map (λ k : nat,
         let shift := 8 * (Z.of_nat b - 1 - Z.of_nat k) in
         if 64 <=? shift then 0 else byte (Z.shiftr round_input shift))
      (seq 0 b).

(** CBC over [Q] from the chaining value after [P], a block at a time. *)
Fixpoint cbc (blocks : nat) (r q : list Z) : outcome (list Z) :=
  match blocks with
  | O => Returns r
  | S blocks =>
      let! r' := encrypt_block
                   (zip_with (λ x y, byte (Z.lxor x y)) r (take block_size q)) in
      cbc blocks r' (drop block_size q)
  end.

(** [y] reduced for round [i], whose input is [round_input]. *)
Definition round_output (tweak after_p : list Z) (b : nat) (modulus i
    round_input : Z) : outcome Z :=
  let q := block_q tweak b i round_input in
  let! r := cbc (length q / block_size) after_p q in
  Returns (foldl (λ y z, Z.lor (Z.shiftl y 8) z) 0 (take (bytes_used b) r)
           mod modulus).

(** One round each way on the two halves. *)
Definition encrypt_round (f : Z → Z → outcome Z) (modulus i : Z) (ab : Z * Z)
    : outcome (Z * Z) :=
  let! y := f i ab.2 in
  Returns (ab.2, (ab.1 + y) mod modulus).

Definition decrypt_round (f : Z → Z → outcome Z) (modulus i : Z) (ab : Z * Z)
    : outcome (Z * Z) :=
  let! y := f i ab.1 in
  Returns ((ab.2 + modulus - y) mod modulus, ab.1).

Definition modulus_of (modulus_u modulus_v i : Z) : Z :=
  if i mod 2 =? 0 then modulus_u else modulus_v.

(** The ten rounds: [l] is their numbers in the order they are run. *)
Fixpoint rounds (direction : Direction) (f : Z → Z → Z → outcome Z)
    (modulus_u modulus_v : Z) (l : list Z) (ab : Z * Z) : outcome (Z * Z) :=
  match l with
  | [] => Returns ab
  | i :: l =>
      let modulus := modulus_of modulus_u modulus_v i in
      let! ab' := match direction with
                  | Encrypt => encrypt_round (f modulus) modulus i ab
                  | Decrypt => decrypt_round (f modulus) modulus i ab
                  end in
      rounds direction f modulus_u modulus_v l ab'
  end.

Definition round_numbers (direction : Direction) : list Z :=
  match direction with
  | Encrypt => [0; 1; 2; 3; 4; 5; 6; 7; 8; 9]
  | Decrypt => [9; 8; 7; 6; 5; 4; 3; 2; 1; 0]
  end.

Definition run (direction : Direction) (numerals tweak : list Z)
    : outcome (list Z) :=
  let n := length numerals in
  if (n <? 2)%nat || (max_numerals <? n)%nat then Throws PreconditionAssertion
  else if (max_tweak_bytes <? length tweak)%nat
  then Throws PreconditionAssertion
  else if existsb (λ x, radix <=? x) numerals
  then Throws PreconditionAssertion
  else
    let u := (n / 2)%nat in
    let v := (n - u)%nat in
    let modulus_u := power_or_zero radix u in
    let modulus_v := power_or_zero radix v in
    if modulus_v =? 0 then Throws PreconditionAssertion
    else
      let b := bytes_of_half v in
      let! after_p := encrypt_block (block_p n u (length tweak)) in
      let! ab := rounds direction (round_output tweak after_p b)
                   modulus_u modulus_v (round_numbers direction)
                   (number_of radix (take u numerals),
                    number_of radix (drop u numerals)) in
      Returns (numerals_of radix u ab.1 ++ numerals_of radix v ab.2).

End cipher.

(** The constructor's checks.  The cipher it makes is the block function OpenSSL
    sets up with the key, or the exception when it cannot. *)
Definition make (aes : list Z → outcome (list Z → outcome (list Z)))
    (key : list Z) (radix : Z) : outcome (list Z → outcome (list Z)) :=
  if (radix <? 2) || (65536 <? radix) then Throws PreconditionAssertion
  else if (length key =? 16)%nat || (length key =? 24)%nat
          || (length key =? 32)%nat
  then aes key else Throws PreconditionAssertion.

End Ff1.

Module ReportIdentifiers.

Definition sequence_number_limit : Z := 2 ^ 36.
Definition place_limit : Z := 2 ^ 28.

Definition fits (sequence_number place : Z) : bool :=
  (0 <=? sequence_number) && (sequence_number <? sequence_number_limit)
  && (0 <=? place) && (place <? place_limit).

(** A number as [fmt] writes it padded with zeros, the sign counted. *)
Definition padded (width : nat) (z : Z) : string :=
  let digits := pretty (Z.to_N (Z.abs z)) in
  let width := if z <? 0 then (width - 1)%nat else width in
  let zeros := String.concat ""
                 (replicate (width - String.length digits) "0"%string) in
  ((if (z <? 0)%Z then "-" else "") ++ zeros ++ digits)%string.

Definition trading_date_text (trading_date : Z) : string :=
  (padded 4 (Z.quot trading_date 10000) ++ "-"
   ++ padded 2 (Z.rem (Z.quot trading_date 100) 100) ++ "-"
   ++ padded 2 (Z.rem trading_date 100))%string.

Definition hex_digits : list ascii :=
  ["0"; "1"; "2"; "3"; "4"; "5"; "6"; "7";
   "8"; "9"; "A"; "B"; "C"; "D"; "E"; "F"]%char.

Definition hex_value (digit : ascii) : option Z :=
  let c := Z.of_nat (Ascii.nat_of_ascii digit) in
  if (48 <=? c) && (c <=? 57) then Some (c - 48)
  else if (97 <=? c) && (c <=? 102) then Some (c - 97 + 10)
  else if (65 <=? c) && (c <=? 70) then Some (c - 65 + 10)
  else None.

(** [read_secret_file] on the file's text, [is_space] being the C locale's
    [std::isspace]. *)
Definition is_space (c : ascii) : bool :=
  let n := Ascii.nat_of_ascii c in (n =? 32)%nat || ((9 <=? n) && (n <=? 13))%nat.

Fixpoint drop_spaces (l : list ascii) : list ascii :=
  match l with
  | c :: l' => if is_space c then drop_spaces l' else l
  | [] => []
  end.

Fixpoint hex_pairs (l : list ascii) : outcome (list Z) :=
  match l with
  | high :: low :: l =>
      match hex_value high, hex_value low with
      | Some h, Some w => let! rest := hex_pairs l in
                          Returns (h * 16 + w :: rest)
      | _, _ => Throws RuntimeError
      end
  | _ => Returns []
  end.

Definition read_secret (text : list ascii) : outcome (list Z) :=
  let text := rev (drop_spaces (rev text)) in
  if negb (length text =? 64)%nat then Throws RuntimeError else hex_pairs text.

Section identifiers.
(** AES set up with a key, which is then a function on blocks, and HMAC-SHA256
    by key. *)
Context (aes : list Z → outcome (list Z → outcome (list Z))).
Context (hmac : list Z → string → outcome (list Z)).

(** The ciphers are held with the trading date they were made for: a block
    function each. *)
Record t := mk {
  secret : list Z;
  trading_date : Z;
  order_cipher : option (list Z → outcome (list Z));
  report_cipher : option (list Z → outcome (list Z))
}.

Definition make_identifiers (s : list Z) : t := mk s (-1) None None.

(** [use_trading_date]: the ciphers are given up before the new ones are
    made. *)
Definition use_trading_date (date : Z) : comp t unit := λ d,
  if date =? trading_date d then (d, Returns ())
  else
    match (let! day_key := hmac (secret d) (trading_date_text date) in
           let! order_key := hmac day_key "OrderID" in
           let! report_key := hmac day_key "ExecID" in
           Returns (order_key, report_key)) with
    | Throws e => (d, Throws e)
    | Returns (order_key, report_key) =>
        match Ff1.make aes order_key 16 with
        | Throws e => (mk (secret d) (trading_date d) None None, Throws e)
        | Returns oc =>
            match Ff1.make aes report_key 16 with
            | Throws e => (mk (secret d) (trading_date d) (Some oc) None,
                           Throws e)
            | Returns rc => (mk (secret d) date (Some oc) (Some rc), Returns ())
            end
        end
    end.

(** The two numbers in 64 bits, and their sixteen hexadecimal digits. *)
Definition pack (sequence_number place : Z) : Z :=
  Z.lor (wrap64 (Z.shiftl sequence_number 28)) place.

Definition nibbles (packed : Z) : list Z :=
  map (λ i : nat, Z.land (Z.shiftr packed (4 * (15 - Z.of_nat i))) 15)
      (seq 0 16).

Definition digit_of (numeral : Z) : ascii :=
  default Ascii.zero (hex_digits !! Z.to_nat numeral).

(** [make]: an identifier is its letter and its digits. *)
Definition make (letter : ascii) (cipher : list Z → outcome (list Z))
    (sequence_number place : Z) : outcome (list ascii) :=
  if negb (fits sequence_number place) then Throws PreconditionAssertion
  else
    let! numerals := Ff1.run cipher 16 Ff1.Encrypt
                       (nibbles (pack sequence_number place)) [] in
    Returns (letter :: map digit_of numerals).

Definition order_id (d : t) (placed_at_seq_no : Z) : outcome (list ascii) :=
  match order_cipher d with
  | None => Throws PreconditionAssertion
  | Some c => make "O" c placed_at_seq_no 0
  end.

Definition exec_id (d : t) (sequence_number place : Z)
    : outcome (list ascii) :=
  match report_cipher d with
  | None => Throws PreconditionAssertion
  | Some c => make "E" c sequence_number place
  end.

Inductive Kind := KindOrder | KindReport.

Record Position := mk_position {
  kind : Kind;
  position_seq_no : Z;
  position_place : Z
}.

(** [position_of].  The code's caller has both ciphers or neither. *)
Definition position_of (d : t) (identifier : list ascii)
    : outcome (option Position) :=
  match order_cipher d with
  | None => Throws PreconditionAssertion
  | Some oc =>
      match identifier with
      | letter :: digits =>
          if negb (length digits =? 16)%nat
             || negb (bool_decide (letter = "O"%char)
                      || bool_decide (letter = "E"%char))
          then Returns None
          else
            match mapM hex_value digits with
            | None => Returns None
            | Some numerals =>
                let k := if bool_decide (letter = "O"%char)
                         then KindOrder else KindReport in
                match (match k with
                       | KindOrder => Some oc
                       | KindReport => report_cipher d
                       end) with
                | None => Throws UndefinedBehaviour
                | Some c =>
                    let! plain := Ff1.run c 16 Ff1.Decrypt numerals [] in
                    let packed := foldl (λ p x, Z.lor (wrap64 (Z.shiftl p 4)) x)
                                    0 plain in
                    Returns (Some (mk_position k (Z.shiftr packed 28)
                                     (Z.land packed (place_limit - 1))))
                end
            end
      | [] => Returns None
      end
  end.

Definition secret_fingerprint (d : t) : outcome Z :=
  let! digest := hmac (secret d) "fingerprint" in
  let value := foldl (λ v x, Z.lor (wrap64 (Z.shiftl v 8)) x) 0 (take 8 digest) in
  Returns (if value <? 2 ^ 63 then value else value - 2 ^ 64).

End identifiers.

End ReportIdentifiers.

Import ReportIdentifiers.

(** ** FF1 *)

Section ff1.
Context (encrypt_block : list Z → outcome (list Z)).
Context (radix : Z) (Hradix : 2 ≤ radix ≤ 65536).

Abbreviation rounds := Ff1.rounds.

Lemma power_from_spec steps result :
  1 ≤ result ≤ uint64_max →
  Ff1.power_from steps radix result
    = if result * radix ^ Z.of_nat steps <=? uint64_max
      then result * radix ^ Z.of_nat steps else 0.
Proof using Hradix.
  revert result. induction steps as [|steps IH]; intros result Hr; cbn [Ff1.power_from].
  { rewrite Z.pow_0_r, Z.mul_1_r. destruct (Z.leb_spec result uint64_max); lia. }
  assert (Hpow : result * radix ^ Z.of_nat (S steps)
                 = result * radix * radix ^ Z.of_nat steps).
  { replace (Z.of_nat (S steps)) with (Z.of_nat steps + 1) by lia.
    rewrite Z.pow_add_r by lia. ring. }
  pose proof (Z.pow_pos_nonneg radix (Z.of_nat steps)) as Hpos.
  destruct (Z.ltb_spec (uint64_max / radix) result) as [Hlt|Hle].
  - assert (uint64_max < result * radix).
    { apply Z.lt_nge. intros Hc.
      pose proof (Z.div_le_lower_bound uint64_max radix result). lia. }
    destruct (Z.leb_spec (result * radix ^ Z.of_nat (S steps)) uint64_max); [nia|done].
  - pose proof (Z.mul_div_le uint64_max radix). rewrite IH by nia. by rewrite Hpow.
Qed.

Lemma power_or_zero_ok n :
  Ff1.power_or_zero radix n ≠ 0 →
  Ff1.power_or_zero radix n = radix ^ Z.of_nat n ∧
  0 < radix ^ Z.of_nat n ≤ uint64_max.
Proof using Hradix.
  unfold Ff1.power_or_zero. rewrite power_from_spec by (unfold uint64_max; lia).
  pose proof (Z.pow_pos_nonneg radix (Z.of_nat n)).
  destruct (Z.leb_spec (1 * radix ^ Z.of_nat n) uint64_max); [lia|done].
Qed.

Lemma power_or_zero_le n m :
  (n ≤ m)%nat → Ff1.power_or_zero radix m ≠ 0 →
  Ff1.power_or_zero radix n = radix ^ Z.of_nat n.
Proof using Hradix.
  intros Hle Hm. destruct (power_or_zero_ok m Hm) as [_ Hfit].
  pose proof (Z.pow_le_mono_r radix (Z.of_nat n) (Z.of_nat m)).
  unfold Ff1.power_or_zero. rewrite power_from_spec by (unfold uint64_max; lia).
  destruct (Z.leb_spec (1 * radix ^ Z.of_nat n) uint64_max); lia.
Qed.

(** *** Numerals and numbers *)

Definition numerals_ok (l : list Z) : Prop := Forall (λ x, 0 ≤ x < radix) l.

Lemma number_of_app l x :
  Ff1.number_of radix (l ++ [x]) = wrap64 (Ff1.number_of radix l * radix + x).
Proof. unfold Ff1.number_of. by rewrite foldl_app. Qed.

Lemma number_of_bound l :
  numerals_ok l → radix ^ Z.of_nat (length l) ≤ uint64_max →
  0 ≤ Ff1.number_of radix l < radix ^ Z.of_nat (length l).
Proof using Hradix.
  induction l as [|x l IH] using rev_ind; intros Hl Hfit.
  { unfold Ff1.number_of. simpl. lia. }
  apply Forall_app in Hl as [Hl [Hx _]%Forall_cons].
  rewrite length_app in *. simpl in *.
  assert (Hpow : radix ^ Z.of_nat (length l + 1) = radix ^ Z.of_nat (length l) * radix).
  { rewrite Nat2Z.inj_add, Z.pow_add_r by lia. simpl. lia. }
  rewrite Hpow in *. pose proof (Z.pow_pos_nonneg radix (Z.of_nat (length l))).
  specialize (IH Hl ltac:(nia)). rewrite number_of_app. unfold wrap64.
  unfold uint64_max in Hfit. rewrite Z.mod_small; nia.
Qed.

Lemma number_of_snoc l x :
  numerals_ok (l ++ [x]) → radix ^ Z.of_nat (length (l ++ [x])) ≤ uint64_max →
  Ff1.number_of radix (l ++ [x]) = Ff1.number_of radix l * radix + x.
Proof using Hradix.
  intros Hl Hfit. pose proof Hl as [Hl' [Hx _]%Forall_cons]%Forall_app.
  rewrite length_app in Hfit. simpl in Hfit.
  assert (Hpow : radix ^ Z.of_nat (length l + 1) = radix ^ Z.of_nat (length l) * radix).
  { rewrite Nat2Z.inj_add, Z.pow_add_r by lia. simpl. lia. }
  rewrite Hpow in Hfit. pose proof (Z.pow_pos_nonneg radix (Z.of_nat (length l))).
  destruct (number_of_bound l Hl' ltac:(nia)). rewrite number_of_app.
  unfold wrap64, uint64_max in *. rewrite Z.mod_small; nia.
Qed.

Lemma numerals_of_length n v : length (Ff1.numerals_of radix n v) = n.
Proof.
  revert v. induction n as [|n IH]; intros v; simpl; [done|].
  rewrite length_app, IH. simpl. lia.
Qed.

Lemma numerals_of_ok n v : numerals_ok (Ff1.numerals_of radix n v).
Proof using Hradix.
  revert v. induction n as [|n IH]; intros v; simpl; [constructor|].
  apply Forall_app. split; [apply IH|]. constructor; [|constructor].
  apply Z.mod_pos_bound. lia.
Qed.

Lemma numerals_of_number l :
  numerals_ok l → radix ^ Z.of_nat (length l) ≤ uint64_max →
  Ff1.numerals_of radix (length l) (Ff1.number_of radix l) = l.
Proof using Hradix.
  induction l as [|x l IH] using rev_ind; intros Hl Hfit; [done|].
  rewrite number_of_snoc by done.
  pose proof Hl as [Hl' [Hx _]%Forall_cons]%Forall_app.
  rewrite length_app in *. simpl in *. rewrite Nat.add_1_r in *. simpl.
  assert (radix ^ Z.of_nat (length l) ≤ uint64_max) as Hfit'.
  { pose proof (Z.pow_le_mono_r radix (Z.of_nat (length l)) (Z.of_nat (S (length l)))).
    lia. }
  f_equal.
  - rewrite Z.div_add_l, Z.div_small, Z.add_0_r by lia. by apply IH.
  - f_equal. rewrite Z.add_comm, Z.mod_add by lia. by apply Z.mod_small.
Qed.

Lemma number_of_numerals n v :
  0 ≤ v < radix ^ Z.of_nat n → radix ^ Z.of_nat n ≤ uint64_max →
  Ff1.number_of radix (Ff1.numerals_of radix n v) = v.
Proof using Hradix.
  revert v. induction n as [|n IH]; intros v Hv Hfit.
  { simpl in *. unfold Ff1.number_of. simpl. lia. }
  assert (Hpow : radix ^ Z.of_nat (S n) = radix ^ Z.of_nat n * radix).
  { replace (Z.of_nat (S n)) with (Z.of_nat n + 1) by lia.
    rewrite Z.pow_add_r by lia. lia. }
  pose proof (Z.pow_pos_nonneg radix (Z.of_nat n)).
  change (Ff1.numerals_of radix (S n) v)
    with (Ff1.numerals_of radix n (v / radix) ++ [v mod radix]).
  rewrite number_of_snoc.
  - rewrite IH; [|split|nia].
    + pose proof (Z.div_mod v radix). lia.
    + apply Z.div_pos; lia.
    + apply Z.div_lt_upper_bound; lia.
  - exact (numerals_of_ok (S n) v).
  - rewrite length_app, numerals_of_length. simpl. by rewrite Nat.add_1_r.
Qed.

(** *** The rounds *)

(** A round's output is below its modulus. *)
Definition reduced (f : Z → Z → Z → outcome Z) : Prop :=
  ∀ m i x y, 0 < m → f m i x = Returns y → 0 ≤ y < m.

Lemma decrypt_undoes_round (f : Z → Z → Z → outcome Z) m i a b a' b' :
  reduced f → 0 < m → 0 ≤ a < m →
  Ff1.encrypt_round (f m) m i (a, b) = Returns (a', b') →
  Ff1.decrypt_round (f m) m i (a', b') = Returns (a, b) ∧ a' = b ∧ 0 ≤ b' < m.
Proof.
  intros Hf Hm Ha. unfold Ff1.encrypt_round, Ff1.decrypt_round. simpl.
  destruct (f m i b) as [y|] eqn:Hy; [|done]. simpl. intros [= -> <-].
  rewrite Hy. simpl. pose proof (Hf m i a' y Hm Hy) as Hyb.
  split; [|split; [done|by apply Z.mod_pos_bound]].
  do 2 f_equal.
  replace ((a + y) mod m + m - y) with ((a + y) mod m + (m - y)) by lia.
  rewrite Zplus_mod_idemp_l. replace (a + y + (m - y)) with (a + 1 * m) by lia.
  rewrite Z.mod_add by lia. by apply Z.mod_small.
Qed.

(** The halves before round [i]: an even round works on [u] numerals. *)
Definition halves_ok (mu mv i : Z) (ab : Z * Z) : Prop :=
  0 ≤ ab.1 < Ff1.modulus_of mu mv i ∧ 0 ≤ ab.2 < Ff1.modulus_of mu mv (i + 1).

Lemma modulus_of_succ mu mv i :
  Ff1.modulus_of mu mv (i + 1 + 1) = Ff1.modulus_of mu mv i.
Proof.
  unfold Ff1.modulus_of. replace (i + 1 + 1) with (i + 1 * 2) by lia.
  by rewrite Z.mod_add.
Qed.

Lemma rounds_app d f mu mv l1 l2 ab :
  rounds d f mu mv (l1 ++ l2) ab
    = obind (rounds d f mu mv l1 ab) (rounds d f mu mv l2).
Proof.
  revert ab. induction l1 as [|i l1 IH]; intros ab; simpl; [done|].
  destruct d; [destruct (Ff1.encrypt_round _ _ _ _)|destruct (Ff1.decrypt_round _ _ _ _)];
    simpl; auto.
Qed.

Lemma rounds_undone f mu mv n i ab ab' :
  reduced f → 0 < mu → 0 < mv → halves_ok mu mv i ab →
  rounds Ff1.Encrypt f mu mv (seqZ i (Z.of_nat n)) ab = Returns ab' →
  rounds Ff1.Decrypt f mu mv (rev (seqZ i (Z.of_nat n))) ab' = Returns ab ∧
  halves_ok mu mv (i + Z.of_nat n) ab'.
Proof.
  intros Hf Hmu Hmv. revert i ab. induction n as [|n IH]; intros i ab Hab.
  { simpl. intros [= <-]. by rewrite Z.add_0_r. }
  rewrite seqZ_cons by lia. replace (Z.pred (Z.of_nat (S n))) with (Z.of_nat n) by lia.
  cbn [Ff1.rounds rev]. destruct ab as [a b], Hab as [Ha Hb]. simpl in Ha, Hb.
  assert (0 < Ff1.modulus_of mu mv i) as Hm.
  { unfold Ff1.modulus_of. by case_if. }
  destruct (Ff1.encrypt_round _ _ i (a, b)) as [[a1 b1]|] eqn:He; [|done].
  destruct (decrypt_undoes_round f _ i a b a1 b1 Hf Hm Ha He) as (Hd & -> & Hb1).
  simpl. intros Hr. destruct (IH (Z.succ i) (b, b1)) as [Hdec Hok]; [|done|].
  { unfold halves_ok. simpl. rewrite <- Z.add_1_r, modulus_of_succ. done. }
  rewrite rounds_app, Hdec. simpl. rewrite Hd. simpl. split; [done|].
  by replace (i + Z.of_nat (S n)) with (Z.succ i + Z.of_nat n) by lia.
Qed.

Lemma round_output_reduced tweak after_p b :
  reduced (Ff1.round_output encrypt_block tweak after_p b).
Proof.
  intros m i x y Hm. unfold Ff1.round_output.
  destruct (Ff1.cbc _ _ _ _); simpl; [|done]. intros [= <-].
  by apply Z.mod_pos_bound.
Qed.

(** Decrypting undoes encrypting. *)
Lemma run_undone x y tweak :
  numerals_ok x →
  Ff1.run encrypt_block radix Ff1.Encrypt x tweak = Returns y →
  Ff1.run encrypt_block radix Ff1.Decrypt y tweak = Returns x ∧
  length y = length x ∧ numerals_ok y.
Proof using Hradix.
  intros Hx. unfold Ff1.run.
  destruct ((length x <? 2)%nat || (Ff1.max_numerals <? length x)%nat) eqn:Hn; [done|].
  destruct (Ff1.max_tweak_bytes <? length tweak)%nat eqn:Ht; [done|].
  destruct (existsb _ x) eqn:Hex; [done|]. clear Hex.
  set (u := (length x / 2)%nat). set (v := (length x - u)%nat).
  assert (u ≤ v ∧ u + v = length x)%nat as [Huv Hsum].
  { pose proof (Nat.Div0.mul_div_le (length x) 2). unfold v, u. lia. }
  destruct (Z.eqb_spec (Ff1.power_or_zero radix v) 0) as [|Hv]; [done|].
  destruct (power_or_zero_ok v Hv) as [Hpv Hfv].
  pose proof (power_or_zero_le u v Huv Hv) as Hpu.
  pose proof (Z.pow_le_mono_r radix (Z.of_nat u) (Z.of_nat v)).
  pose proof (Z.pow_pos_nonneg radix (Z.of_nat u)).
  destruct (encrypt_block (Ff1.block_p radix (length x) u (length tweak)))
    as [after_p|] eqn:Hp; [|done]. cbn [obind].
  set (f := Ff1.round_output encrypt_block tweak after_p (Ff1.bytes_of_half radix v)).
  rewrite Hpu, Hpv.
  set (mu := radix ^ Z.of_nat u) in *. set (mv := radix ^ Z.of_nat v) in *.
  assert (Hlu : length (take u x) = u) by (rewrite length_take; lia).
  assert (Hlv : length (drop u x) = v) by (rewrite length_drop; lia).
  pose proof (Forall_take _ u _ Hx) as Hxu. pose proof (Forall_drop _ u _ Hx) as Hxv.
  pose proof (number_of_bound (take u x) Hxu) as Hbu.
  pose proof (number_of_bound (drop u x) Hxv) as Hbv.
  rewrite Hlu in Hbu. rewrite Hlv in Hbv. fold mu in Hbu. fold mv in Hbv.
  assert (halves_ok mu mv 0 (Ff1.number_of radix (take u x),
                             Ff1.number_of radix (drop u x))) as Hh.
  { split; [apply Hbu|apply Hbv]; lia. }
  destruct (rounds Ff1.Encrypt f mu mv (Ff1.round_numbers Ff1.Encrypt) _)
    as [[a b]|] eqn:Hr; [|done]. cbn [obind fst snd]. intros [= <-].
  destruct (rounds_undone f mu mv 10 0 _ (a, b)
    (round_output_reduced tweak after_p _) ltac:(lia) ltac:(lia) Hh Hr)
    as [Hd [Ha Hb]].
  change (Ff1.modulus_of mu mv (0 + Z.of_nat 10)) with mu in Ha.
  change (Ff1.modulus_of mu mv (0 + Z.of_nat 10 + 1)) with mv in Hb. simpl in Ha, Hb.
  rewrite length_app, !numerals_of_length, Hsum. split; [|split; [done|]].
  - rewrite Hn.
    assert (numerals_ok (Ff1.numerals_of radix u a ++ Ff1.numerals_of radix v b)) as Hok.
    { apply Forall_app. split; apply numerals_of_ok. }
    destruct (existsb _ _) eqn:Hex.
    { apply existsb_exists in Hex as (z & Hz & Hle). apply Z.leb_le in Hle.
      rewrite <- list_elem_of_In in Hz. eapply Forall_forall in Hok; [|exact Hz].
      simpl in Hok. lia. }
    fold u v. rewrite Hpv. destruct (Z.eqb_spec mv 0); [lia|].
    rewrite Hp. cbn [obind]. fold f. rewrite Hpu. fold mu.
    rewrite take_app_length', drop_app_length' by (by rewrite numerals_of_length).
    unfold mu, mv in Ha, Hb.
    rewrite !number_of_numerals by (done || lia). fold mu mv.
    change (Ff1.round_numbers Ff1.Decrypt) with (rev (seqZ 0 (Z.of_nat 10))).
    rewrite Hd. cbn [obind fst snd].
    pose proof (numerals_of_number (take u x) Hxu) as Hru.
    pose proof (numerals_of_number (drop u x) Hxv) as Hrv.
    rewrite Hlu in Hru. rewrite Hlv in Hrv. fold mu in Hru. fold mv in Hrv.
    rewrite Hru, Hrv by lia. by rewrite take_drop.
  - apply Forall_app. split; apply numerals_of_ok.
Qed.

End ff1.

(** *** The digits *)

Lemma nibble_step q :
  0 ≤ q < 2 ^ 64 →
  Z.lor (wrap64 (Z.shiftl (Z.shiftr q 4) 4)) (Z.land q 15) = q.
Proof.
  intros Hq. unfold wrap64. rewrite Z.mod_small.
  - apply Z.bits_inj'. intros n Hn.
    rewrite Z.lor_spec, Z.land_spec, Z.shiftl_spec by lia.
    change 15 with (Z.ones 4). rewrite Z.testbit_ones_nonneg by lia.
    destruct (Z.ltb_spec n 4).
    + rewrite (Z.testbit_neg_r _ (n - 4)) by lia. simpl. by rewrite andb_true_r.
    + rewrite Z.shiftr_spec by lia. replace (n - 4 + 4) with n by lia.
      by rewrite andb_false_r, orb_false_r.
  - rewrite Z.shiftl_mul_pow2, Z.shiftr_div_pow2 by lia.
    pose proof (Z.mul_div_le q (2 ^ 4)). pose proof (Z.div_pos q (2 ^ 4)). lia.
Qed.

Abbreviation join := (foldl (λ p x, Z.lor (wrap64 (Z.shiftl p 4)) x) 0).

Lemma join_nibbles_upto p n :
  0 ≤ p < 2 ^ 64 → (n ≤ 16)%nat →
  join (map (λ i : nat, Z.land (Z.shiftr p (4 * (15 - Z.of_nat i))) 15) (seq 0 n))
    = Z.shiftr p (4 * (16 - Z.of_nat n)).
Proof.
  intros Hp. induction n as [|n IH]; intros Hn.
  { cbn. rewrite Z.shiftr_div_pow2 by lia. symmetry. by apply Z.div_small. }
  rewrite seq_S, map_app, foldl_app, IH by lia. cbn [map foldl Nat.add].
  replace (4 * (16 - Z.of_nat n)) with (4 * (15 - Z.of_nat n) + 4) by lia.
  rewrite <- Z.shiftr_shiftr by lia.
  replace (16 - Z.of_nat (S n)) with (15 - Z.of_nat n) by lia.
  apply nibble_step. rewrite Z.shiftr_div_pow2 by lia.
  pose proof (Z.pow_pos_nonneg 2 (4 * (15 - Z.of_nat n))).
  split; [apply Z.div_pos; lia|].
  apply Z.div_lt_upper_bound; nia.
Qed.

Lemma join_nibbles p : 0 ≤ p < 2 ^ 64 → join (nibbles p) = p.
Proof.
  intros Hp. unfold nibbles. rewrite join_nibbles_upto by (done || lia).
  simpl. by rewrite Z.shiftr_0_r.
Qed.

Lemma nibbles_ok p : numerals_ok 16 (nibbles p).
Proof.
  apply Forall_map, Forall_true. intros i.
  change 15 with (Z.ones 4). rewrite Z.land_ones by lia. by apply Z.mod_pos_bound.
Qed.

Lemma nibbles_length p : length (nibbles p) = 16%nat.
Proof. done. Qed.

(** The two numbers a position is packed from. *)
Lemma pack_value s p :
  fits s p = true → pack s p = s * 2 ^ 28 + p ∧ 0 ≤ pack s p < 2 ^ 64.
Proof.
  unfold fits, sequence_number_limit, place_limit. intros Hf.
  bool_to_prop. assert (Hw : wrap64 (Z.shiftl s 28) = s * 2 ^ 28).
  { unfold wrap64. rewrite Z.shiftl_mul_pow2 by lia. apply Z.mod_small. lia. }
  assert (Hv : pack s p = s * 2 ^ 28 + p).
  { unfold pack. rewrite Hw, Z.add_nocarry_lxor, Z.lxor_lor; [done| |];
      apply Z.bits_inj'; intros n Hn; rewrite Z.land_spec, Z.bits_0;
      (destruct (Z.ltb_spec n 28);
       [by rewrite Z.mul_pow2_bits_low|
        rewrite (Z.bits_above_log2 p n), andb_false_r; [done|lia|];
        destruct (Z.eq_dec p 0) as [->|]; [simpl; lia|];
        apply Z.log2_lt_pow2; [lia|];
        pose proof (Z.pow_le_mono_r 2 28 n); lia]). }
  split; [done|]. rewrite Hv. lia.
Qed.

Lemma unpack s p :
  fits s p = true →
  Z.shiftr (pack s p) 28 = s ∧ Z.land (pack s p) (place_limit - 1) = p.
Proof.
  intros Hf. destruct (pack_value s p Hf) as [-> _].
  unfold fits, sequence_number_limit, place_limit in *. bool_to_prop.
  change (2 ^ 28 - 1) with (Z.ones 28).
  rewrite Z.shiftr_div_pow2, Z.land_ones by lia. split.
  - rewrite Z.div_add_l, Z.div_small; lia.
  - rewrite Z.add_comm, Z.mod_add by lia. apply Z.mod_small. lia.
Qed.

Lemma hex_round_trip x : 0 ≤ x < 16 → hex_value (digit_of x) = Some x.
Proof.
  intros Hx.
  assert (Forall (λ x, hex_value (digit_of x) = Some x) (seqZ 0 16)) as Hall.
  { repeat constructor. }
  eapply Forall_forall in Hall; [exact Hall|]. apply elem_of_seqZ. lia.
Qed.

Lemma hex_round_trips l :
  numerals_ok 16 l → mapM hex_value (map digit_of l) = Some l.
Proof.
  induction 1 as [|x l Hx _ IH]; [done|]. simpl.
  rewrite hex_round_trip by done. simpl. by rewrite IH.
Qed.

(** *** Identifiers *)

(** A block function that never fails, as AES is once it is set up. *)
Definition never_fails (c : list Z → outcome (list Z)) : Prop :=
  ∀ block, ∃ r, c block = Returns r.

Lemma cbc_returns c n r q :
  never_fails c → ∃ r', Ff1.cbc c n r q = Returns r'.
Proof.
  intros Hc. revert r q. induction n as [|n IH]; intros r q; cbn [Ff1.cbc]; [eauto|].
  destruct (Hc (zip_with (λ x y, Ff1.byte (Z.lxor x y)) r (take Ff1.block_size q)))
    as [r' ->]. simpl. apply IH.
Qed.

Lemma rounds_return c tweak after_p b mu mv l ab :
  never_fails c →
  ∃ ab', Ff1.rounds Ff1.Encrypt (Ff1.round_output c tweak after_p b) mu mv l ab
         = Returns ab'.
Proof.
  intros Hc. revert ab. induction l as [|i l IH]; intros ab; cbn [Ff1.rounds]; [eauto|].
  unfold Ff1.encrypt_round at 1, Ff1.round_output at 1.
  destruct (cbc_returns c
    (length (Ff1.block_q tweak b i ab.2) / Ff1.block_size) after_p
    (Ff1.block_q tweak b i ab.2) Hc) as [r ->]. cbn [obind]. apply IH.
Qed.

(** The numerals and the tweak the cipher takes. *)
Definition accepted (radix : Z) (x tweak : list Z) : Prop :=
  numerals_ok radix x ∧ (2 ≤ length x ≤ Ff1.max_numerals)%nat ∧
  (length tweak ≤ Ff1.max_tweak_bytes)%nat ∧
  radix ^ Z.of_nat (length x - length x / 2) ≤ uint64_max.

Lemma run_returns c radix x tweak :
  2 ≤ radix ≤ 65536 → never_fails c → accepted radix x tweak →
  ∃ y, Ff1.run c radix Ff1.Encrypt x tweak = Returns y.
Proof.
  intros Hradix Hc (Hx & Hn & Ht & Hfit). unfold Ff1.run.
  destruct (Nat.ltb_spec (length x) 2); [lia|].
  destruct (Nat.ltb_spec Ff1.max_numerals (length x)); [lia|]. cbn [orb].
  destruct (Nat.ltb_spec Ff1.max_tweak_bytes (length tweak)); [lia|].
  destruct (existsb _ x) eqn:Hex.
  { apply existsb_exists in Hex as (z & Hz & Hle). apply Z.leb_le in Hle.
    rewrite <- list_elem_of_In in Hz. eapply Forall_forall in Hx; [|exact Hz].
    simpl in Hx. lia. }
  unfold Ff1.power_or_zero at 1. rewrite power_from_spec by (unfold uint64_max; lia).
  pose proof (Z.pow_pos_nonneg radix (Z.of_nat (length x - length x / 2))).
  destruct (Z.leb_spec (1 * radix ^ Z.of_nat (length x - length x / 2)) uint64_max);
    [|lia].
  destruct (Z.eqb_spec (1 * radix ^ Z.of_nat (length x - length x / 2)) 0); [lia|].
  edestruct Hc as [after_p ->]. cbn [obind].
  edestruct rounds_return as [ab ->]; [exact Hc|]. cbn [obind]. eauto.
Qed.

(** the FF1 cipher accepts every list of 2 to 64 numerals below its radix
    whose half fits in 64 bits, and decrypting what it gave, with the same
    tweak, gives the list back: the cipher is a permutation of the lists of one
    length, whatever function on blocks it is built on, so long as that function
    does not fail. *)
Theorem ff1_decrypt_undoes_encrypt c radix x tweak :
  2 ≤ radix ≤ 65536 → never_fails c → accepted radix x tweak →
  ∃ y, Ff1.run c radix Ff1.Encrypt x tweak = Returns y ∧
       length y = length x ∧ numerals_ok radix y ∧
       Ff1.run c radix Ff1.Decrypt y tweak = Returns x.
Proof.
  intros Hradix Hc Hx. destruct (run_returns c radix x tweak Hradix Hc Hx) as [y Hy].
  exists y. destruct Hx as [Hx _].
  destruct (run_undone c radix Hradix x y tweak Hx Hy) as (? & ? & ?). done.
Qed.

Lemma make_undone letter c s p :
  never_fails c → fits s p = true →
  ∃ l, make letter c s p = Returns (letter :: map digit_of l) ∧
       length l = 16%nat ∧ numerals_ok 16 l ∧
       Ff1.run c 16 Ff1.Decrypt l [] = Returns (nibbles (pack s p)).
Proof.
  intros Hc Hf. unfold make. rewrite Hf. cbn [negb].
  destruct (run_returns c 16 (nibbles (pack s p)) []) as [l Hl]; [lia|done| |].
  { split; [apply nibbles_ok|]. rewrite nibbles_length.
    unfold Ff1.max_numerals, Ff1.max_tweak_bytes. cbn [length].
    split_and!; [lia|lia|lia|by vm_compute]. }
  rewrite Hl. exists l. split; [done|].
  destruct (run_undone c 16 ltac:(lia) _ l [] (nibbles_ok _) Hl) as (Hd & Hlen & Hok).
  done.
Qed.

Lemma position_of_made d oc rc (is_order : bool) s p :
  order_cipher d = Some oc → report_cipher d = Some rc →
  never_fails oc → never_fails rc → fits s p = true →
  ∃ identifier,
    make (if is_order then "O" else "E")%char (if is_order then oc else rc) s p
      = Returns identifier ∧ length identifier = 17%nat ∧
    position_of d identifier
      = Returns (Some (mk_position (if is_order then KindOrder else KindReport) s p)).
Proof.
  intros Hoc Hrc Hno Hnr Hf.
  destruct (make_undone (if is_order then "O" else "E")%char
              (if is_order then oc else rc) s p) as (l & Hm & Hlen & Hok & Hd);
    [by destruct is_order|done|].
  exists ((if is_order then "O" else "E")%char :: map digit_of l).
  split; [exact Hm|]. split; [cbn [length]; by rewrite length_map, Hlen|].
  unfold position_of. rewrite Hoc, length_map, Hlen.
  rewrite hex_round_trips by done. destruct (pack_value s p Hf) as [_ Hb].
  destruct (unpack s p Hf) as [Hs Hp].
  destruct is_order; simpl; rewrite ?Hrc, Hd; cbn [obind];
    by rewrite join_nibbles, Hs, Hp.
Qed.

(** What a call of [use_trading_date] that changes the date has done. *)
Lemma new_date_keys aes hmac date d d' :
  date ≠ trading_date d →
  use_trading_date aes hmac date d = (d', Returns ()) →
  trading_date d' = date ∧
  ∃ ko kr oc rc, aes ko = Returns oc ∧ aes kr = Returns rc ∧
    order_cipher d' = Some oc ∧ report_cipher d' = Some rc.
Proof.
  intros Hne. unfold use_trading_date.
  destruct (Z.eqb_spec date (trading_date d)) as [|_]; [done|].
  destruct (obind _ _) as [[ko kr]|]; [|done].
  unfold Ff1.make. cbn [Z.ltb Z.compare Pos.compare Pos.compare_cont orb].
  destruct (_ || _); [|done]. destruct (aes ko) as [oc|] eqn:Ho; [|done].
  destruct (_ || _); [|done]. destruct (aes kr) as [rc|] eqn:Hr; [|done].
  intros [= <-]. split; [done|]. by exists ko, kr, oc, rc.
Qed.

(** once the keys of a trading date have been made, every position that
    fits gets its identifiers, the letter says what each names, and
    [position_of] reads the very position back from either: nothing of the
    sequence number or the place is lost or mixed up by the packing, the
    cipher and the digits. *)
Theorem identifier_gives_back_its_position aes hmac date d d' s p :
  (∀ k c, aes k = Returns c → never_fails c) →
  date ≠ trading_date d →
  use_trading_date aes hmac date d = (d', Returns ()) →
  fits s p = true →
  (∃ id, exec_id d' s p = Returns id ∧ length id = 17%nat ∧
         position_of d' id = Returns (Some (mk_position KindReport s p))) ∧
  (∃ id, order_id d' s = Returns id ∧ length id = 17%nat ∧
         position_of d' id = Returns (Some (mk_position KindOrder s 0))).
Proof.
  intros Haes Hne Hu Hf.
  destruct (new_date_keys _ _ _ _ _ Hne Hu) as (_ & ko & kr & oc & rc & Ho & Hr & Hoc & Hrc).
  pose proof (Haes _ _ Ho) as Hno. pose proof (Haes _ _ Hr) as Hnr.
  assert (Hf0 : fits s 0 = true).
  { unfold fits, sequence_number_limit, place_limit in *. bool_to_prop. lia. }
  unfold exec_id, order_id. rewrite Hoc, Hrc. split.
  - exact (position_of_made d' oc rc false s p Hoc Hrc Hno Hnr Hf).
  - exact (position_of_made d' oc rc true s 0 Hoc Hrc Hno Hnr Hf0).
Qed.

(** Every identifier the class gives is read back as the position it was asked
    for: the form of the round trip for results already in hand. *)
Lemma given_identifier d oc rc (is_order : bool) s p id :
  order_cipher d = Some oc → report_cipher d = Some rc →
  never_fails oc → never_fails rc →
  make (if is_order then "O" else "E")%char (if is_order then oc else rc) s p
    = Returns id →
  position_of d id
    = Returns (Some (mk_position (if is_order then KindOrder else KindReport) s p)).
Proof.
  intros Hoc Hrc Hno Hnr Hm. destruct (fits s p) eqn:Hf.
  - destruct (position_of_made d oc rc is_order s p Hoc Hrc Hno Hnr Hf)
      as (id' & Hm' & _ & Hp). rewrite Hm in Hm'. by injection Hm' as <-.
  - unfold make in Hm. by rewrite Hf in Hm.
Qed.

(** The identifiers given out in a day: what was asked for, and the text. *)
Inductive given (d : t) : Position → list ascii → Prop :=
| given_order s id : order_id d s = Returns id → given d (mk_position KindOrder s 0) id
| given_report s p id :
    exec_id d s p = Returns id → given d (mk_position KindReport s p) id.

(** C39: with the keys of one trading date no two things are given one name:
    two requests answered with the same text were for the same kind of thing at
    the same sequence number and place. *)
Theorem identifiers_of_a_day_are_distinct aes hmac date d d' q1 q2 id :
  (∀ k c, aes k = Returns c → never_fails c) →
  date ≠ trading_date d →
  use_trading_date aes hmac date d = (d', Returns ()) →
  given d' q1 id → given d' q2 id → q1 = q2.
Proof.
  intros Haes Hne Hu H1 H2.
  destruct (new_date_keys _ _ _ _ _ Hne Hu) as (_ & ko & kr & oc & rc & Ho & Hr & Hoc & Hrc).
  pose proof (Haes _ _ Ho) as Hno. pose proof (Haes _ _ Hr) as Hnr.
  assert (∀ q, given d' q id → position_of d' id = Returns (Some q)) as Hgiven.
  { intros q Hq. destruct Hq as [s id Hs|s p id Hs]; unfold order_id, exec_id in Hs.
    - rewrite Hoc in Hs. exact (given_identifier d' oc rc true s 0 id Hoc Hrc Hno Hnr Hs).
    - rewrite Hrc in Hs. exact (given_identifier d' oc rc false s p id Hoc Hrc Hno Hnr Hs). }
  apply Hgiven in H1, H2. rewrite H1 in H2. by injection H2.
Qed.

(** a failed change of the trading date gives up the keys in use but keeps
    their date: once OpenSSL has refused to set up the first of the new ciphers,
    asking for the old date again does nothing, and every OrderID and ExecID of
    that date is then refused. *)
Theorem failed_date_change_loses_the_keys aes hmac date d day_key order_key report_key e
    s p :
  date ≠ trading_date d →
  hmac (secret d) (trading_date_text date) = Returns day_key →
  hmac day_key "OrderID" = Returns order_key →
  hmac day_key "ExecID" = Returns report_key →
  Ff1.make aes order_key 16 = Throws e →
  ∃ d', use_trading_date aes hmac date d = (d', Throws e) ∧
    use_trading_date aes hmac (trading_date d) d' = (d', Returns ()) ∧
    order_id d' s = Throws PreconditionAssertion ∧
    exec_id d' s p = Throws PreconditionAssertion.
Proof.
  intros Hne H1 H2 H3 He. exists (mk (secret d) (trading_date d) None None).
  unfold use_trading_date. rewrite H1. cbn [obind]. rewrite H2, H3. cbn [obind].
  rewrite He. cbn [trading_date secret]. rewrite Z.eqb_refl.
  by destruct (Z.eqb_spec date (trading_date d)).
Qed.

(** ** Witnesses *)

(** A block function and a keyed hash that can be evaluated: every byte is moved
    by the first of the key, and the digest is the length of the text. *)
Definition shift_aes (key : list Z) : outcome (list Z → outcome (list Z)) :=
  Returns (λ block, Returns (map (λ x, Ff1.byte (3 * x + hd 0 key)) block)).

Definition length_hmac (key : list Z) (text : string) : outcome (list Z) :=
  Returns (replicate 32 (hd 0 key + Z.of_nat (String.length text))).

Definition broken_aes (key : list Z) : outcome (list Z → outcome (list Z)) :=
  Throws RuntimeError.

Definition day_of (d : t) : t := (use_trading_date shift_aes length_hmac 20260314 d).1.

Lemma shift_aes_never_fails k c : shift_aes k = Returns c → never_fails c.
Proof. intros [= <-] block. eauto. Qed.

Lemma identifiers_of_a_day_are_distinct_witness :
  ∃ id, given (day_of (make_identifiers [])) (mk_position KindReport 7 1) id ∧
        ∀ q, given (day_of (make_identifiers [])) q id → q = mk_position KindReport 7 1.
Proof.
  destruct (exec_id (day_of (make_identifiers [])) 7 1) as [id|e] eqn:Hid;
    [|vm_compute in Hid; discriminate Hid].
  exists id. split; [by constructor|]. intros q Hq.
  apply (identifiers_of_a_day_are_distinct shift_aes length_hmac 20260314
           (make_identifiers []) (day_of (make_identifiers [])) q
           (mk_position KindReport 7 1) id shift_aes_never_fails).
  - discriminate.
  - reflexivity.
  - exact Hq.
  - by constructor.
Defined.

