(* ===== verification/VoidedCommands.v ===== *)
(** The voids of a trading day: applications/fix_common/VoidedCommandList.hpp.

    [VoidedCommandList] is the class: the vector of voids is a list, a pointer
    to one of them is an option.  The theorem shows that the list is a finite
    map from the position of a void's record to the void, read in the order of
    the positions: what [voiding] gives is the earliest void that names the
    command. *)

From stdpp Require Import sorting.
From S2P Require Import Prelude.
#[local] Open Scope Z_scope.

Inductive VoidReason := EngineDiedApplying | HeldWhenTradingHalted.

Inductive VoidedKind := VoidedNewOrder | VoidedCancel.

Record VoidedRange := mk_voided {
  void_seq_no : Z;
  first_seq_no : Z;
  last_seq_no : Z;
  new_orders_only : bool;
  void_reason : VoidReason
}.

#[export] Instance void_reason_eq_dec : EqDecision VoidReason.
Proof. solve_decision. Defined.

#[export] Instance voided_kind_eq_dec : EqDecision VoidedKind.
Proof. solve_decision. Defined.

#[export] Instance voided_range_eq_dec : EqDecision VoidedRange.
Proof. solve_decision. Defined.

Module VoidedCommandList.

Definition t : Type := list VoidedRange.

(** [at]. *)
Fixpoint at_position (voids : t) (seq_no : Z) : option VoidedRange :=
  match voids with
  | [] => None
  | held :: voids => if void_seq_no held =? seq_no then Some held
                     else at_position voids seq_no
  end.

(** [std::find_if] and the [insert] before what it found. *)
Fixpoint insert_before_later (voided : VoidedRange) (voids : t) : t :=
  match voids with
  | [] => [voided]
  | held :: rest => if void_seq_no voided <? void_seq_no held
                    then voided :: voids
                    else held :: insert_before_later voided rest
  end.

Definition add (voided : VoidedRange) (voids : t) : t * bool :=
  match at_position voids (void_seq_no voided) with
  | Some _ => (voids, false)
  | None => (insert_before_later voided voids, true)
  end.

Definition names (sequence_number : Z) (kind : VoidedKind) (held : VoidedRange)
    : bool :=
  (first_seq_no held <=? sequence_number)
  && (sequence_number <=? last_seq_no held)
  && (bool_decide (kind = VoidedNewOrder) || negb (new_orders_only held)).

Fixpoint voiding (voids : t) (sequence_number : Z) (kind : VoidedKind)
    : option VoidedRange :=
  match voids with
  | [] => None
  | held :: voids => if names sequence_number kind held then Some held
                     else voiding voids sequence_number kind
  end.

Definition discard_after (seq_no : Z) (voids : t) : t :=
  List.filter (λ held, negb (seq_no <? void_seq_no held)) voids.

End VoidedCommandList.

Import VoidedCommandList.

(** What a holder does with its list. *)
Inductive void_op := AddVoid (voided : VoidedRange) | DiscardAfter (seq_no : Z).

Definition do_op (voids : t) (op : void_op) : t :=
  match op with
  | AddVoid voided => (add voided voids).1
  | DiscardAfter seq_no => discard_after seq_no voids
  end.

(** The abstract list: the first void told of at each position. *)
Definition spec_op (m : gmap Z VoidedRange) (op : void_op) : gmap Z VoidedRange :=
  match op with
  | AddVoid voided => match m !! void_seq_no voided with
                      | Some _ => m
                      | None => <[void_seq_no voided := voided]> m
                      end
  | DiscardAfter seq_no => filter (λ pv, pv.1 ≤ seq_no) m
  end.

(** In the order of the positions, each once. *)
Definition in_order (voids : t) : Prop :=
  StronglySorted (λ v w, void_seq_no v < void_seq_no w) voids.

Definition represents (voids : t) (m : gmap Z VoidedRange) : Prop :=
  in_order voids ∧ ∀ v, v ∈ voids ↔ m !! void_seq_no v = Some v.

Definition keyed (m : gmap Z VoidedRange) : Prop :=
  ∀ p v, m !! p = Some v → void_seq_no v = p.

Lemma at_position_spec voids p :
  in_order voids →
  (∀ v, at_position voids p = Some v ↔ v ∈ voids ∧ void_seq_no v = p).
Proof.
  induction 1 as [|held voids Hs IH Hh]; intros v; simpl.
  { split; [done|by intros [?%not_elem_of_nil _]]. }
  destruct (Z.eqb_spec (void_seq_no held) p) as [He|Hne].
  - split; [intros [= <-]; split; [left|done]|].
    intros [[-> |Hv]%elem_of_cons Hp]; [done|].
    eapply Forall_forall in Hh; [|done]. simpl in Hh. lia.
  - rewrite IH, elem_of_cons. naive_solver.
Qed.

Lemma insert_elem voided voids v :
  v ∈ insert_before_later voided voids ↔ v = voided ∨ v ∈ voids.
Proof.
  induction voids as [|held voids IH]; simpl; [set_solver|].
  destruct (_ <? _); set_solver.
Qed.

Lemma insert_in_order voided voids :
  in_order voids → (∀ v, v ∈ voids → void_seq_no v ≠ void_seq_no voided) →
  in_order (insert_before_later voided voids).
Proof.
  induction 1 as [|held voids Hs IH Hh]; intros Hn; simpl.
  { repeat constructor. }
  destruct (Z.ltb_spec (void_seq_no voided) (void_seq_no held)) as [Hlt|Hge].
  - constructor; [by constructor|]. constructor; [done|].
    eapply Forall_impl; [exact Hh|]. simpl. lia.
  - constructor; [apply IH; set_solver|]. apply Forall_forall.
    intros v [-> |Hv]%insert_elem.
    + specialize (Hn held ltac:(set_solver)). lia.
    + by eapply Forall_forall in Hh.
Qed.

Lemma discard_in_order p voids : in_order voids → in_order (discard_after p voids).
Proof.
  induction 1 as [|held voids Hs IH Hh]; simpl; [constructor|].
  destruct (negb _); [|done]. constructor; [done|]. apply Forall_forall.
  intros v Hv. apply list_elem_of_In, filter_In in Hv as [Hv _].
  apply list_elem_of_In in Hv. by eapply Forall_forall in Hh.
Qed.

Lemma keyed_op m op : keyed m → keyed (spec_op m op).
Proof.
  intros Hm p v. destruct op as [voided|q]; simpl.
  - destruct (m !! void_seq_no voided); [apply Hm|].
    rewrite lookup_insert_Some. naive_solver.
  - rewrite map_lookup_filter_Some. naive_solver.
Qed.

Lemma represents_op voids m op :
  keyed m → represents voids m → represents (do_op voids op) (spec_op m op).
Proof.
  intros Hk [Hs Hm]. destruct op as [voided|p]; simpl.
  - unfold add. destruct (at_position voids (void_seq_no voided)) as [w|] eqn:Ha.
    + apply (at_position_spec _ _ Hs) in Ha as [Hw He]. apply Hm in Hw.
      rewrite He in Hw. rewrite Hw. done.
    + assert (∀ v, v ∈ voids → void_seq_no v ≠ void_seq_no voided) as Hnew.
      { intros v Hv He. pose proof (proj2 (at_position_spec voids _ Hs v) (conj Hv He)).
        congruence. }
      destruct (m !! void_seq_no voided) as [w|] eqn:Hl.
      { pose proof (Hk _ _ Hl) as Hw. rewrite <- Hw in Hl. apply Hm in Hl.
        by destruct (Hnew w Hl). }
      split; [by apply insert_in_order|]. intros v. cbn [fst].
      rewrite insert_elem, lookup_insert_Some, Hm. split; [|naive_solver].
      intros [-> |Hv]; [by left|right]. split; [|done].
      symmetry. apply Hnew. by apply Hm.
  - split; [by apply discard_in_order|]. intros v.
    rewrite list_elem_of_In. unfold discard_after. rewrite filter_In, <- list_elem_of_In, Hm.
    rewrite map_lookup_filter_Some. simpl. rewrite negb_true_iff, Z.ltb_ge. done.
Qed.

Lemma represents_ops ops :
  let voids := foldl do_op [] ops in
  let m := foldl spec_op ∅ ops in
  keyed m ∧ represents voids m.
Proof.
  induction ops as [|op ops IH] using rev_ind.
  - cbn [foldl]. split; [intros p v Hl; by rewrite lookup_empty in Hl|]. split; [constructor|].
    intros v. split; [by intros ?%not_elem_of_nil|].
    intros Hl. by rewrite lookup_empty in Hl.
  - rewrite !foldl_app. simpl. destruct IH as [Hk Hr].
    split; [by apply keyed_op|by apply represents_op].
Qed.

Lemma voiding_spec voids seq kind v :
  in_order voids →
  voiding voids seq kind = Some v ↔
  v ∈ voids ∧ names seq kind v = true ∧
  ∀ w, w ∈ voids → names seq kind w = true → void_seq_no v ≤ void_seq_no w.
Proof.
  induction 1 as [|held voids Hs IH Hh]; simpl.
  { split; [done|by intros [?%not_elem_of_nil _]]. }
  destruct (names seq kind held) eqn:Hn.
  - split.
    + intros [= <-]. split; [left|]. split; [done|].
      intros w [-> |Hw]%elem_of_cons _; [done|].
      eapply Forall_forall in Hh; [|done]. simpl in Hh. lia.
    + intros (Hv & Hnv & Hmin). apply elem_of_cons in Hv as [-> |Hv]; [done|].
      specialize (Hmin held ltac:(left) Hn).
      eapply Forall_forall in Hh; [|done]. simpl in Hh. lia.
  - rewrite IH. split.
    + intros (Hv & Hnv & Hmin). split; [by right|]. split; [done|].
      intros w [-> |Hw]%elem_of_cons Hnw; [congruence|by apply Hmin].
    + intros (Hv & Hnv & Hmin). apply elem_of_cons in Hv as [-> |Hv]; [congruence|].
      split; [done|]. split; [done|]. intros w Hw. apply Hmin. by right.
Qed.

(** however voids are added, again and in whatever order, and discarded,
    the list is a map from positions to the first void told of at each:
    [at] looks a position up in it, and [voiding] gives a void exactly when some
    void of the map names the command, then the one whose record comes first in
    the WAL, so that two holders told of the same voids answer a command
    alike. *)
Theorem void_list_is_a_map ops :
  let voids := foldl do_op [] ops in
  let m := foldl spec_op ∅ ops in
  in_order voids ∧
  (∀ p, at_position voids p = m !! p) ∧
  (∀ seq kind v, voiding voids seq kind = Some v ↔
     m !! void_seq_no v = Some v ∧ names seq kind v = true ∧
     ∀ p w, m !! p = Some w → names seq kind w = true → void_seq_no v ≤ p).
Proof.
  intros voids m. destruct (represents_ops ops) as [Hk [Hs Hm]]. fold voids m in Hk, Hs, Hm.
  split; [done|]. split.
  - intros p. apply option_eq. intros v. rewrite at_position_spec by done.
    rewrite Hm. split; [by intros [? <-]|]. intros Hl. by rewrite (Hk _ _ Hl).
  - intros seq kind v. rewrite voiding_spec, Hm by done.
    split; intros (Hv & Hn & Hmin); (split; [done|]; split; [done|]).
    + intros p w Hw. rewrite <- (Hk _ _ Hw). apply Hmin, Hm. by rewrite (Hk _ _ Hw).
    + intros w Hw. by apply Hmin, Hm.
Qed.
