(* ===== verification/LogEpochTable.v ===== *)
(** The table of the epochs of a log's records, and the repair of a follower's
    log: the class [LogEpochTable] of
    libraries/pubsub_itc_fw/include/pubsub_itc_fw/LogEpochTable.hpp, and the
    parts of libraries/pubsub_itc_fw/src/ReplicatedWal.cpp that ask, answer and
    act on the question how far two logs agree.

    A log is the list of its records, record [n] at place [n - 1], each with
    the epoch of the leadership that wrote it.  The first theorem shows that
    the table, whatever was appended and discarded, answers from its few runs
    what a search of the whole log would; the second that the exchange between
    a follower and its leader ends, within two rounds more than the follower's
    log has runs, with a log that is the start of the leader's. *)

From S2P Require Import Prelude.
#[local] Open Scope Z_scope.
#[local] Open Scope venue_scope.

Module LogEpochTable.

Record Run := mk_run { epoch : Z; first_seq_no : Z }.

Record t := mk { runs_ : list Run; last_seq_no_ : Z }.

Definition empty : t := mk [] 0.

(** [runs_.back().epoch != epoch], of a table that may be empty. *)
Definition starts_a_run (runs : list Run) (e : Z) : bool :=
  match last runs with
  | None => true
  | Some r => negb (epoch r =? e)
  end.

Definition note_record (seq_no e : Z) : comp t unit := λ tb,
  if negb (seq_no =? last_seq_no_ tb + 1) then (tb, Throws PreconditionAssertion)
  else
    (mk (if starts_a_run (runs_ tb) e then runs_ tb ++ [mk_run e seq_no]
         else runs_ tb) seq_no, Returns ()).

Definition last_seq_no (tb : t) : Z := last_seq_no_ tb.

Definition last_epoch (tb : t) : Z :=
  match last (runs_ tb) with None => 0 | Some r => epoch r end.

(** The loops over the runs start from the last: they are given the runs in
    that order. *)
Fixpoint epoch_in (backwards : list Run) (seq_no : Z) : Z :=
  match backwards with
  | [] => 0
  | run :: rest => if first_seq_no run <=? seq_no then epoch run else epoch_in rest seq_no
  end.

Definition epoch_of (tb : t) (seq_no : Z) : outcome Z :=
  if (seq_no <? 1) || (last_seq_no_ tb <? seq_no) then Throws PreconditionAssertion
  else Returns (epoch_in (reverse (runs_ tb)) seq_no).

Fixpoint last_at_or_before_in (backwards : list Run) (e end_ : Z) : Z :=
  match backwards with
  | [] => 0
  | run :: rest =>
      if epoch run <=? e then end_
      else last_at_or_before_in rest e (first_seq_no run - 1)
  end.

Definition last_record_at_or_before (tb : t) (e : Z) : Z :=
  last_at_or_before_in (reverse (runs_ tb)) e (last_seq_no_ tb).

Record PositionAnswer := mk_answer { answer_seq_no : Z; answer_epoch : Z }.
Record FollowerStep := mk_step { keep_through : Z; agreed : bool }.

Definition answer_position (tb : t) (follower_last_seq_no follower_last_epoch : Z)
    : outcome PositionAnswer :=
  let seq_no := Z.min follower_last_seq_no
                  (last_record_at_or_before tb follower_last_epoch) in
  if seq_no =? 0 then Returns (mk_answer seq_no 0)
  else let! e := epoch_of tb seq_no in Returns (mk_answer seq_no e).

Fixpoint first_of_run_in (backwards : list Run) (seq_no : Z) : Z :=
  match backwards with
  | [] => 1
  | run :: rest =>
      if first_seq_no run <=? seq_no then first_seq_no run
      else first_of_run_in rest seq_no
  end.

Definition first_of_run_holding (tb : t) (seq_no : Z) : Z :=
  first_of_run_in (reverse (runs_ tb)) seq_no.

Definition follower_step (tb : t) (answer : PositionAnswer) : outcome FollowerStep :=
  let seq_no := Z.min (answer_seq_no answer) (last_seq_no_ tb) in
  if seq_no <=? 0 then Returns (mk_step 0 true)
  else
    let! e := epoch_of tb seq_no in
    if e =? answer_epoch answer then Returns (mk_step seq_no true)
    else Returns (mk_step (first_of_run_holding tb seq_no - 1) false).

Fixpoint pop_back_while (backwards : list Run) (seq_no : Z) : list Run :=
  match backwards with
  | [] => []
  | run :: rest =>
      if seq_no <? first_seq_no run then pop_back_while rest seq_no else backwards
  end.

Definition truncate_after (seq_no : Z) : comp t unit := λ tb,
  if (seq_no <? 0) || (last_seq_no_ tb <? seq_no) then (tb, Throws PreconditionAssertion)
  else
    (mk (reverse (pop_back_while (reverse (runs_ tb)) seq_no)) seq_no, Returns ()).

(** ** What the table stands for *)

(** The runs, last first, of a log whose records have these epochs. *)
Inductive runs_of : list Run → list Z → Prop :=
  | runs_empty : runs_of [] []
  | runs_same r rest es :
      runs_of (r :: rest) es →
      runs_of (r :: rest) (es ++ [epoch r])
  | runs_new backwards es e :
      runs_of backwards es →
      starts_a_run (reverse backwards) e = true →
      runs_of (mk_run e (Z.of_nat (length es) + 1) :: backwards) (es ++ [e]).

Definition describes (tb : t) (es : list Z) : Prop :=
  runs_of (reverse (runs_ tb)) es ∧ last_seq_no_ tb = Z.of_nat (length es).

(** The epoch of record [n], by search of the log. *)
Definition epoch_at (es : list Z) (n : Z) : option Z :=
  if n <? 1 then None else es !! Z.to_nat (n - 1).

Lemma epoch_at_snoc es e n :
  epoch_at (es ++ [e]) n =
    if n =? Z.of_nat (length es) + 1 then Some e else epoch_at es n.
Proof.
  unfold epoch_at. destruct (Z.ltb_spec n 1), (Z.eqb_spec n (Z.of_nat (length es) + 1));
    try done; try lia.
  - subst n. rewrite lookup_app_r by lia.
    by replace (Z.to_nat _ - length es)%nat with 0%nat by lia.
  - destruct (decide (n ≤ Z.of_nat (length es))).
    + by rewrite lookup_app_l by lia.
    + rewrite !lookup_ge_None_2; [done|lia|]. rewrite length_app; cbn [length]. lia.
Qed.

Lemma epoch_at_Some es n e :
  epoch_at es n = Some e → 1 ≤ n ≤ Z.of_nat (length es).
Proof.
  unfold epoch_at. destruct (Z.ltb_spec n 1); [done|].
  intros ?%lookup_lt_Some. lia.
Qed.

Lemma epoch_at_in es n : 1 ≤ n ≤ Z.of_nat (length es) → is_Some (epoch_at es n).
Proof.
  intros Hn. unfold epoch_at. destruct (Z.ltb_spec n 1); [lia|].
  apply lookup_lt_is_Some. lia.
Qed.

Lemma runs_of_first backwards es :
  runs_of backwards es →
  Forall (λ r, 1 ≤ first_seq_no r ≤ Z.of_nat (length es)) backwards.
Proof.
  induction 1 as [|r rest es _ IH|bk es e _ IH _]; [done| |].
  - eapply Forall_impl; [exact IH|]. intros r'. rewrite length_app; cbn [length]. lia.
  - rewrite length_app; cbn [length]. constructor; [cbn; lia|].
    eapply Forall_impl; [exact IH|]. intros r'. cbn. lia.
Qed.

Lemma runs_of_nil es : runs_of [] es → es = [].
Proof. by inversion 1. Qed.

Lemma runs_of_last backwards es :
  runs_of backwards es → last es = epoch <$> head backwards.
Proof. by induction 1; rewrite ?last_snoc. Qed.

Lemma epoch_in_ok backwards es n e :
  runs_of backwards es → epoch_at es n = Some e → epoch_in backwards n = e.
Proof.
  intros Hr. revert n e. induction Hr as [|r rest es Hr IH|bk es e' Hr IH _];
    intros n e; [unfold epoch_at; by case_match| |].
  - rewrite epoch_at_snoc. apply runs_of_first in Hr. apply Forall_cons_1 in Hr as [Hf _].
    destruct (Z.eqb_spec n (Z.of_nat (length es) + 1)); [|by apply IH].
    intros [= <-]. cbn. destruct (Z.leb_spec (first_seq_no r) n); [done|lia].
  - rewrite epoch_at_snoc. cbn.
    destruct (Z.eqb_spec n (Z.of_nat (length es) + 1)) as [->|].
    { rewrite Z.leb_refl. by intros [= ->]. }
    intros Hn. pose proof (epoch_at_Some _ _ _ Hn).
    destruct (Z.leb_spec (Z.of_nat (length es) + 1) n); [lia|]. by apply IH.
Qed.

(** [k] is the last record of epoch [e] or an earlier one, or zero. *)
Definition is_last_at_or_before (es : list Z) (e k : Z) : Prop :=
  0 ≤ k ≤ Z.of_nat (length es) ∧
  (k = 0 ∨ ∃ e', epoch_at es k = Some e' ∧ e' ≤ e) ∧
  (∀ n e', k < n → epoch_at es n = Some e' → e < e').

Lemma last_at_or_before_ok backwards es e :
  runs_of backwards es →
  is_last_at_or_before es e
    (last_at_or_before_in backwards e (Z.of_nat (length es))).
Proof.
  unfold is_last_at_or_before.
  intros Hr. induction Hr as [|r rest es Hr IH|bk es e' Hr IH _].
  { split_and!; cbn; [lia|lia|by left|]. intros n e' _. unfold epoch_at. by case_match. }
  - cbn in *. destruct (Z.leb_spec (epoch r) e).
    + rewrite length_app; cbn [length]. split_and!; [lia|lia|..].
      * right. exists (epoch r). rewrite epoch_at_snoc.
        case_match; [done|bool_to_prop; lia].
      * intros n e' Hn He. apply epoch_at_Some in He. rewrite length_app in He; cbn in He. lia.
    + destruct IH as (Hk & Hhere & Hafter). rewrite length_app; cbn [length]. split_and!; [lia|lia|..].
      * destruct Hhere as [?|(e' & He & ?)]; [by left|right; exists e'].
        rewrite epoch_at_snoc. pose proof (epoch_at_Some _ _ _ He).
        case_match; [bool_to_prop; lia|done].
      * intros n e' Hn. rewrite epoch_at_snoc. case_match; [intros [= <-]; lia|].
        by apply Hafter.
  - cbn. destruct (Z.leb_spec e' e).
    + rewrite length_app; cbn [length]. split_and!; [lia|lia|..].
      * right. exists e'. rewrite epoch_at_snoc. case_match; [done|bool_to_prop; lia].
      * intros n e1 Hn He. apply epoch_at_Some in He. rewrite length_app in He; cbn in He. lia.
    + rewrite Z.add_simpl_r.
      destruct IH as (Hk & Hhere & Hafter). rewrite length_app; cbn [length]. split_and!; [lia|lia|..].
      * destruct Hhere as [?|(e1 & He & ?)]; [by left|right; exists e1].
        rewrite epoch_at_snoc. pose proof (epoch_at_Some _ _ _ He).
        case_match; [bool_to_prop; lia|done].
      * intros n e1 Hn. rewrite epoch_at_snoc. case_match; [intros [= <-]; lia|].
        by apply Hafter.
Qed.

Lemma pop_back_while_ok backwards es k :
  runs_of backwards es → 0 ≤ k ≤ Z.of_nat (length es) →
  runs_of (pop_back_while backwards k) (take (Z.to_nat k) es).
Proof.
  intros Hr. induction Hr as [|r rest es Hr IH|bk es e Hr IH Hnew];
    intros Hk.
  - rewrite take_nil. constructor.
  - destruct (decide (k = Z.of_nat (length es) + 1)) as [->|].
    + pose proof (runs_of_first _ _ Hr) as Hf. apply Forall_cons_1 in Hf as [Hf _]. cbn.
      destruct (Z.ltb_spec (Z.of_nat (length es) + 1) (first_seq_no r)); [lia|].
      rewrite take_ge; [by constructor|]. rewrite length_app; cbn [length]. lia.
    + rewrite length_app in Hk; cbn in Hk. rewrite take_app_le by lia. apply IH. lia.
  - rewrite length_app in Hk; cbn in Hk. cbn.
    destruct (Z.ltb_spec k (Z.of_nat (length es) + 1)).
    + rewrite take_app_le by lia. apply IH. lia.
    + rewrite take_ge; [by constructor|]. rewrite length_app; cbn [length]. lia.
Qed.

(** Going back to before the run that holds a record takes off that run. *)
Lemma first_of_run_ok backwards es n :
  runs_of backwards es → 1 ≤ n ≤ Z.of_nat (length es) →
  1 ≤ first_of_run_in backwards n ≤ n ∧
  (length (pop_back_while backwards (first_of_run_in backwards n - 1))
    < length backwards)%nat.
Proof.
  intros Hr. induction Hr as [|r rest es Hr IH|bk es e Hr IH _]; intros Hn.
  - cbn in Hn. lia.
  - pose proof (runs_of_first _ _ Hr) as Hf. apply Forall_cons_1 in Hf as [Hf _].
    destruct (decide (n = Z.of_nat (length es) + 1)) as [->|].
    + assert (Hpop : ∀ l k, (length (pop_back_while l k) ≤ length l)%nat).
      { intros l k. induction l as [|x l IHl]; cbn; [lia|]. case_match; cbn; lia. }
      cbn. destruct (Z.leb_spec (first_seq_no r) (Z.of_nat (length es) + 1)); [|lia].
      destruct (Z.ltb_spec (first_seq_no r - 1) (first_seq_no r)); [|lia].
      specialize (Hpop rest (first_seq_no r - 1)). split; lia.
    + apply IH. rewrite length_app in Hn; cbn in Hn. lia.
  - rewrite length_app in Hn; cbn in Hn. cbn.
    assert (Hpop : ∀ l k, (length (pop_back_while l k) ≤ length l)%nat).
    { intros l k. induction l as [|x l IHl]; cbn; [lia|]. case_match; cbn; lia. }
    destruct (Z.leb_spec (Z.of_nat (length es) + 1) n).
    + destruct (Z.ltb_spec (Z.of_nat (length es) + 1 - 1) (Z.of_nat (length es) + 1)); [|lia].
      specialize (Hpop bk (Z.of_nat (length es) + 1 - 1)). split; lia.
    + destruct IH as [Hf Hl]; [lia|].
      destruct (Z.ltb_spec (first_of_run_in bk n - 1) (Z.of_nat (length es) + 1)); [|lia].
      split; lia.
Qed.

(** ** The operations, on the table and on the log *)

Inductive Call :=
  | NoteRecord (seq_no e : Z)
  | TruncateAfter (seq_no : Z).

Definition apply (c : Call) : comp t unit :=
  match c with
  | NoteRecord n e => note_record n e
  | TruncateAfter n => truncate_after n
  end.

(** The same on the list of epochs. *)
Definition on_log (c : Call) (es : list Z) : list Z * outcome unit :=
  match c with
  | NoteRecord n e =>
      if n =? Z.of_nat (length es) + 1 then (es ++ [e], Returns ())
      else (es, Throws PreconditionAssertion)
  | TruncateAfter n =>
      if (0 <=? n) && (n <=? Z.of_nat (length es)) then (take (Z.to_nat n) es, Returns ())
      else (es, Throws PreconditionAssertion)
  end.

Lemma apply_describes c tb es :
  describes tb es →
  describes (apply c tb).1 (on_log c es).1 ∧ (apply c tb).2 = (on_log c es).2.
Proof.
  intros [Hr Hlast]. destruct c as [n e|n]; cbn.
  - unfold note_record. rewrite Hlast.
    destruct (Z.eqb_spec n (Z.of_nat (length es) + 1)) as [->|]; cbn [negb]; [|done].
    split; [|done]. cbn [fst]. split; cbn [runs_ last_seq_no_];
      [|rewrite length_app; cbn; lia].
    destruct (starts_a_run (runs_ tb) e) eqn:Hs.
    + rewrite reverse_snoc. apply runs_new; [done|]. by rewrite reverse_involutive.
    + unfold starts_a_run in Hs. destruct (last (runs_ tb)) as [r|] eqn:Hl; [|done].
      bool_to_prop. subst e.
      apply last_Some in Hl as [rest Hl]. rewrite Hl, reverse_snoc in Hr. rewrite Hl, reverse_snoc.
      by constructor.
  - unfold truncate_after. rewrite Hlast.
    destruct (Z.leb_spec 0 n), (Z.leb_spec n (Z.of_nat (length es)));
      destruct (Z.ltb_spec n 0), (Z.ltb_spec (Z.of_nat (length es)) n);
      try lia; cbn [orb andb]; try done.
    split; [|done]. cbn [fst]. split; cbn [runs_ last_seq_no_].
    + rewrite reverse_involutive. by apply pop_back_while_ok.
    + rewrite length_take. lia.
Qed.

Lemma epoch_of_describes tb es n :
  describes tb es →
  epoch_of tb n = match epoch_at es n with
                  | Some e => Returns e
                  | None => Throws PreconditionAssertion
                  end.
Proof.
  intros [Hr Hlast]. unfold epoch_of. rewrite Hlast.
  destruct (epoch_at es n) as [e|] eqn:He.
  - pose proof (epoch_at_Some _ _ _ He).
    destruct (Z.ltb_spec n 1), (Z.ltb_spec (Z.of_nat (length es)) n); try lia. cbn.
    by erewrite epoch_in_ok.
  - destruct (Z.ltb_spec n 1), (Z.ltb_spec (Z.of_nat (length es)) n); cbn; try done.
    destruct (epoch_at_in es n) as [? ?]; [lia|congruence].
Qed.

Lemma last_epoch_describes tb es :
  describes tb es → last_epoch tb = default 0 (last es).
Proof.
  intros [Hr _]. rewrite (runs_of_last _ _ Hr), head_reverse. unfold last_epoch.
  by destruct (last (runs_ tb)).
Qed.

Lemma last_record_describes tb es e :
  describes tb es → is_last_at_or_before es e (last_record_at_or_before tb e).
Proof.
  intros [Hr Hlast]. unfold last_record_at_or_before. rewrite Hlast.
  by apply last_at_or_before_ok.
Qed.

Definition after_calls (calls : list Call) : t :=
  foldl (λ tb c, (apply c tb).1) empty calls.
Definition log_after (calls : list Call) : list Z :=
  foldl (λ es c, (on_log c es).1) [] calls.

Lemma after_calls_describes calls : describes (after_calls calls) (log_after calls).
Proof.
  induction calls as [|c calls IH] using rev_ind; [by split; [constructor|]|].
  unfold after_calls, log_after in *. rewrite !foldl_app. cbn.
  by apply apply_describes.
Qed.

(** Whatever records are noted and discarded, the table answers for the
    log as a search of all its records would: it takes and refuses the same
    calls, and [last_seq_no], [last_epoch], [epoch_of] and
    [last_record_at_or_before] give the number and the epoch of the last
    record, the epoch of the record asked for, which is refused when the log
    does not hold it, and the last record of the epoch or an earlier one. *)
Theorem table_answers_for_the_log (calls : list Call) :
  let tb := after_calls calls in
  let es := log_after calls in
  (∀ c, (apply c tb).2 = (on_log c es).2) ∧
  last_seq_no tb = Z.of_nat (length es) ∧
  last_epoch tb = default 0 (last es) ∧
  (∀ n, epoch_of tb n = match epoch_at es n with
                        | Some e => Returns e
                        | None => Throws PreconditionAssertion
                        end) ∧
  (∀ e, is_last_at_or_before es e (last_record_at_or_before tb e)).
Proof.
  cbn zeta. pose proof (after_calls_describes calls) as Hd. split_and!.
  - intros c. by apply apply_describes.
  - apply Hd.
  - by apply last_epoch_describes.
  - intros n. by apply epoch_of_describes.
  - intros e. by apply last_record_describes.
Qed.

End LogEpochTable.

Module LogRepair.
Import LogEpochTable.

(** A record of the log: the epoch of the leadership that wrote it, and the
    rest. *)
Record LogRecord := mk_record { leader_epoch : Z; contents : list Z }.

(** The part of a [ReplicatedWal] that takes part: the records of its log and
    its table. *)
Record Replica := mk_replica { wal_ : list LogRecord; log_epochs_ : LogEpochTable.t }.

(** The fields of [LogPositionReply]. *)
Record Reply := mk_reply { reply_seq_no : Z; reply_epoch : Z; reply_agreed : bool }.

(** The request of [send_position_request]. *)
Definition position_request (follower : Replica) : Z * Z :=
  (last_seq_no (log_epochs_ follower), last_epoch (log_epochs_ follower)).

(** The reply of [handle_position_request]. *)
Definition position_reply (leader : Replica) (last_seq_no last_epoch : Z) : outcome Reply :=
  let! answer := answer_position (log_epochs_ leader) last_seq_no last_epoch in
  Returns (mk_reply (answer_seq_no answer) (answer_epoch answer)
    ((answer_seq_no answer =? last_seq_no) &&
     ((answer_seq_no answer =? 0) || (answer_epoch answer =? last_epoch)))).

(** What [handle_position_reply] does with the log, where no thread is reading
    it, and whether the logs are then known to agree. *)
Definition take_position_reply (follower : Replica) (reply : Reply)
    : outcome (Replica * bool) :=
  let last_before := last_seq_no (log_epochs_ follower) in
  let! step := follower_step (log_epochs_ follower)
                 (mk_answer (reply_seq_no reply) (reply_epoch reply)) in
  let agreed := reply_agreed reply && agreed step && (keep_through step =? last_before) in
  if keep_through step <? last_before then
    let r := truncate_after (keep_through step) (log_epochs_ follower) in
    let! _ := r.2 in
    Returns (mk_replica (take (Z.to_nat (keep_through step)) (wal_ follower)) r.1, agreed)
  else Returns (follower, agreed).

(** One request, its reply and what is done with it; then, while the logs are
    not known to agree, another. *)
Definition round (leader follower : Replica) : outcome (Replica * bool) :=
  let request := position_request follower in
  let! reply := position_reply leader request.1 request.2 in
  take_position_reply follower reply.

Fixpoint exchange (rounds : nat) (leader follower : Replica) : outcome Replica :=
  match rounds with
  | O => Throws DoesNotReturn
  | S rounds =>
      let! result := round leader follower in
      if result.2 : bool then Returns result.1 else exchange rounds leader result.1
  end.

Definition in_step (r : Replica) : Prop :=
  describes (log_epochs_ r) (leader_epoch <$> wal_ r).

(** A leadership numbers each record once, and a follower writes only what its
    leader sends: two logs that hold a record of one number and one epoch are
    the same up to it. *)
Definition same_where_epochs_meet (l f : list LogRecord) : Prop :=
  ∀ i r r', l !! i = Some r → f !! i = Some r' →
    leader_epoch r = leader_epoch r' → take (S i) l = take (S i) f.

Lemma epoch_at_record l n e :
  epoch_at (leader_epoch <$> l) n = Some e →
  ∃ r, l !! Z.to_nat (n - 1) = Some r ∧ leader_epoch r = e.
Proof.
  unfold epoch_at. case_match; [done|]. rewrite list_lookup_fmap.
  destruct (l !! Z.to_nat (n - 1)) as [r|]; [|done]. cbn. intros [= <-]. eauto.
Qed.

Lemma answer_ok tb es n e0 :
  describes tb es → 0 ≤ n →
  ∃ s e, answer_position tb n e0 = Returns (mk_answer s e) ∧ 0 ≤ s ≤ n ∧
    (s = 0 ∨ epoch_at es s = Some e) ∧
    (∀ e1, epoch_at es n = Some e1 → e1 ≤ e0 → s = n).
Proof.
  intros Hd Hn. pose proof (last_record_describes _ _ e0 Hd) as (Hk & _ & Hafter).
  unfold answer_position. set (k := last_record_at_or_before tb e0) in *.
  assert (Hwhole : ∀ e1, epoch_at es n = Some e1 → e1 ≤ e0 → Z.min n k = n).
  { intros e1 He1 Hle. destruct (decide (n ≤ k)); [lia|].
    specialize (Hafter n e1 ltac:(lia) He1). lia. }
  destruct (Z.eqb_spec (Z.min n k) 0) as [Hz|Hz].
  - eexists _, _. split; [done|]. split_and!; [lia|lia|by left|done].
  - rewrite (epoch_of_describes _ _ _ Hd).
    destruct (epoch_at_in es (Z.min n k)) as [e He]; [lia|]. rewrite He.
    eexists _, _. split; [done|]. split_and!; [lia|lia|by right|done].
Qed.

(** The follower's last record is in the leader's log with the same epoch. *)
Definition settled (leader follower : Replica) : Prop :=
  let n := Z.of_nat (length (wal_ follower)) in
  n = 0 ∨ ∃ e, epoch_at (leader_epoch <$> wal_ leader) n = Some e ∧
               epoch_at (leader_epoch <$> wal_ follower) n = Some e.

Lemma meet_prefix l f n e :
  same_where_epochs_meet l f →
  epoch_at (leader_epoch <$> l) n = Some e →
  epoch_at (leader_epoch <$> f) n = Some e →
  take (Z.to_nat n) l = take (Z.to_nat n) f.
Proof.
  intros Hsame Hl Hf. pose proof (epoch_at_Some _ _ _ Hl).
  apply epoch_at_record in Hl as (r & Hr & He), Hf as (r' & Hr' & He').
  specialize (Hsame _ _ _ Hr Hr' ltac:(congruence)).
  by replace (S (Z.to_nat (n - 1))) with (Z.to_nat n) in Hsame by lia.
Qed.

Lemma settled_prefix leader follower :
  same_where_epochs_meet (wal_ leader) (wal_ follower) →
  settled leader follower → wal_ follower `prefix_of` wal_ leader.
Proof.
  intros Hsame [Hz|(e & Hl & Hf)].
  - destruct (wal_ follower); [apply prefix_nil|done].
  - pose proof (meet_prefix _ _ _ _ Hsame Hl Hf) as Heq. rewrite Nat2Z.id in Heq.
    rewrite (take_ge (wal_ follower)) in Heq by done. rewrite <- Heq. apply prefix_take.
Qed.

Lemma same_take l f k :
  same_where_epochs_meet l f → same_where_epochs_meet l (take k f).
Proof.
  intros Hsame i r r' Hl Hf He. apply lookup_take_Some in Hf as [Hf Hi].
  rewrite take_take, Nat.min_l by lia. by eapply Hsame.
Qed.

Lemma last_epoch_at es n : n = Z.of_nat (length es) → n ≠ 0 →
  ∃ e, epoch_at es n = Some e ∧ last es = Some e.
Proof.
  intros -> Hn. destruct es as [|e es _] using rev_ind; [done|].
  exists e. rewrite last_snoc, epoch_at_snoc, length_app. cbn.
  case_match; [done|bool_to_prop; lia].
Qed.

Lemma round_settled leader follower :
  in_step leader → in_step follower → settled leader follower →
  round leader follower = Returns (follower, true).
Proof.
  intros Hil Hif Hset. unfold round, position_request, position_reply. cbn [fst snd].
  unfold last_seq_no at 1. rewrite (proj2 Hif), length_fmap.
  rewrite (last_epoch_describes _ _ Hif).
  set (n := Z.of_nat (length (wal_ follower))).
  destruct (answer_ok _ _ n (default 0 (last (leader_epoch <$> wal_ follower))) Hil)
    as (s & e & -> & Hs & Hin & Hwhole); [lia|]. cbn [obind answer_seq_no answer_epoch].
  unfold take_position_reply, follower_step, last_seq_no. cbn.
  rewrite (proj2 Hif), length_fmap. fold n.
  destruct (decide (n = 0)) as [Hz|Hz].
  { assert (s = 0) as -> by lia. rewrite Hz. by cbn. }
  destruct Hset as [Hset|(e1 & Hl & Hf)]; [by fold n in Hset|]. fold n in Hl, Hf.
  destruct (last_epoch_at (leader_epoch <$> wal_ follower) n) as (e2 & He2 & Hlast);
    [by rewrite length_fmap|done|]. rewrite Hlast in *. cbn [default] in *.
  assert (s = n) as ->. { apply (Hwhole e1); [done|]. replace e1 with e2 by congruence. cbn. lia. }
  destruct Hin as [?|Hin]; [lia|]. rewrite Z.min_id.
  destruct (Z.leb_spec n 0); [lia|]. rewrite (epoch_of_describes _ _ _ Hif), Hf. cbn.
  assert (e = e1) as -> by congruence. assert (e2 = e1) as -> by congruence. cbn.
  rewrite !Z.eqb_refl. cbn. rewrite !Z.eqb_refl. cbn.
  by destruct (Z.ltb_spec n n); [lia|]; rewrite orb_true_r.
Qed.

Definition cut (follower : Replica) (k : Z) : Replica :=
  mk_replica (take (Z.to_nat k) (wal_ follower))
             (truncate_after k (log_epochs_ follower)).1.

Lemma cut_in_step follower k :
  in_step follower → 0 ≤ k ≤ Z.of_nat (length (wal_ follower)) →
  in_step (cut follower k) ∧ (truncate_after k (log_epochs_ follower)).2 = Returns ().
Proof.
  intros Hin Hk. destruct (apply_describes (TruncateAfter k) _ _ Hin) as [Hd Hr].
  cbn in Hd, Hr. rewrite length_fmap in Hd, Hr.
  destruct (Z.leb_spec 0 k), (Z.leb_spec k (Z.of_nat (length (wal_ follower)))); try lia.
  cbn in Hd, Hr. split; [|done]. unfold in_step, cut. cbn. by rewrite fmap_take.
Qed.

(** The reply tells of a record of the leader's log; what is left then is
    settled, or has fewer runs. *)
Lemma take_reply_ok leader follower s e b :
  in_step follower →
  0 ≤ s ≤ Z.of_nat (length (wal_ follower)) →
  (s = 0 ∨ epoch_at (leader_epoch <$> wal_ leader) s = Some e) →
  ∃ k, let kept := if k <? Z.of_nat (length (wal_ follower)) then cut follower k
                   else follower in
    0 ≤ k ≤ Z.of_nat (length (wal_ follower)) ∧
    (∃ b', take_position_reply follower (mk_reply s e b) = Returns (kept, b') ∧
           (b' = true → k = Z.of_nat (length (wal_ follower)) ∧ settled leader kept)) ∧
    (settled leader kept ∨
     (length (runs_ (log_epochs_ kept)) < length (runs_ (log_epochs_ follower)))%nat).
Proof.
  intros Hif Hs Hin. set (n := Z.of_nat (length (wal_ follower))) in *.
  assert (Hn : last_seq_no_ (log_epochs_ follower) = n).
  { by rewrite (proj2 Hif), length_fmap. }
  assert (Htake : ∀ k, 0 ≤ k ≤ n →
    length (wal_ (if k <? n then cut follower k else follower)) = Z.to_nat k ∧
    ∀ j, j ≤ k → epoch_at (leader_epoch <$> wal_ (if k <? n then cut follower k else follower)) j
               = epoch_at (leader_epoch <$> wal_ follower) j).
  { intros k Hk. destruct (Z.ltb_spec k n); [|split; [lia|done]]. cbn.
    rewrite length_take. split; [lia|]. intros j Hj. unfold epoch_at. case_match; [done|].
    bool_to_prop. rewrite fmap_take, lookup_take by lia. destruct (decide _); [done|lia]. }
  unfold take_position_reply, follower_step, last_seq_no. cbn [reply_seq_no reply_epoch reply_agreed].
  cbn [answer_seq_no answer_epoch]. rewrite Hn, Z.min_l by lia.
  destruct (Z.leb_spec s 0) as [Hz|Hz]; cbn [obind keep_through agreed].
  { exists 0. specialize (Htake 0 ltac:(lia)) as [Hlen _].
    assert (Hset : settled leader (if 0 <? n then cut follower 0 else follower)).
    { left. rewrite Hlen. done. }
    split_and!; [lia|lia| |by left].
    destruct (Z.ltb_spec 0 n).
    - destruct (cut_in_step follower 0 Hif ltac:(lia)) as [_ ->]. cbn [obind].
      eexists. split; [reflexivity|]. intros Hb. bool_to_prop. lia.
    - eexists. split; [reflexivity|]. intros _. split; [lia|done]. }
  destruct Hin as [?|Hin]; [lia|]. rewrite (epoch_of_describes _ _ _ Hif).
  destruct (epoch_at_in (leader_epoch <$> wal_ follower) s) as [ef Hef];
    [rewrite length_fmap; fold n; lia|]. rewrite Hef. cbn [obind].
  destruct (Z.eqb_spec ef e) as [->|Hne]; cbn [obind keep_through agreed].
  - exists s. specialize (Htake s ltac:(lia)) as [Hlen Hep].
    assert (Hset : settled leader (if s <? n then cut follower s else follower)).
    { right. rewrite Hlen. exists e. rewrite Z2Nat.id by lia. split; [done|].
      rewrite Hep by lia. done. }
    split_and!; [lia|lia| |by left]. destruct (Z.ltb_spec s n).
    + destruct (cut_in_step follower s Hif ltac:(lia)) as [_ ->]. cbn [obind].
      eexists. split; [reflexivity|]. intros Hb. bool_to_prop. lia.
    + eexists. split; [reflexivity|]. intros _. split; [lia|done].
  - unfold first_of_run_holding. destruct (first_of_run_ok _ _ s (proj1 Hif)) as [Hf Hl];
      [rewrite length_fmap; fold n; lia|].
    set (k := first_of_run_in _ s - 1) in *. exists k.
    destruct (Z.ltb_spec k n); [|lia].
    destruct (cut_in_step follower k Hif ltac:(lia)) as [_ Hok]. split_and!; [lia|lia|..].
    + rewrite Hok. cbn [obind]. eexists. split; [reflexivity|]. intros Hb. bool_to_prop. done.
    + right. unfold cut, truncate_after. cbn [log_epochs_]. rewrite Hn.
      destruct (Z.ltb_spec k 0), (Z.ltb_spec n k); try lia. cbn [orb fst runs_].
      by rewrite length_reverse in Hl |- *.
Qed.

Lemma round_ok leader follower :
  in_step leader → in_step follower →
  ∃ k b, let kept := if k <? Z.of_nat (length (wal_ follower)) then cut follower k
                     else follower in
    0 ≤ k ≤ Z.of_nat (length (wal_ follower)) ∧
    round leader follower = Returns (kept, b) ∧
    (b = true → settled leader kept) ∧
    (settled leader kept ∨
     (length (runs_ (log_epochs_ kept)) < length (runs_ (log_epochs_ follower)))%nat).
Proof.
  intros Hil Hif. unfold round, position_request, position_reply, last_seq_no. cbn [fst snd].
  rewrite (proj2 Hif), length_fmap.
  destruct (answer_ok _ _ (Z.of_nat (length (wal_ follower)))
              (last_epoch (log_epochs_ follower)) Hil)
    as (s & e & -> & Hs & Hin & _); [lia|]. cbn [obind answer_seq_no answer_epoch].
  match goal with |- context [mk_reply s e ?b0] =>
    destruct (take_reply_ok leader follower s e b0 Hif Hs Hin)
      as (k & Hk & (b & Hr & Hb) & Hend)
  end. cbn zeta in *.
  exists k, b. split_and!; [lia|lia|exact Hr|intros Hbt; by apply Hb|done].
Qed.

(** What is kept is the start of what was there, and describes itself. *)
Lemma kept_ok follower k :
  in_step follower → 0 ≤ k ≤ Z.of_nat (length (wal_ follower)) →
  let kept := if k <? Z.of_nat (length (wal_ follower)) then cut follower k else follower in
  in_step kept ∧ wal_ kept = take (Z.to_nat k) (wal_ follower).
Proof.
  intros Hif Hk. cbn zeta. destruct (Z.ltb_spec k (Z.of_nat (length (wal_ follower)))).
  - split; [by apply cut_in_step|done].
  - split; [done|]. by rewrite take_ge by lia.
Qed.

Lemma exchange_ok m leader follower :
  in_step leader → in_step follower →
  same_where_epochs_meet (wal_ leader) (wal_ follower) →
  (length (runs_ (log_epochs_ follower)) ≤ m)%nat →
  ∃ k repaired, exchange (S (S m)) leader follower = Returns repaired ∧
    in_step repaired ∧ wal_ repaired = take k (wal_ follower) ∧
    wal_ repaired `prefix_of` wal_ leader.
Proof.
  revert follower. induction m as [|m IH]; intros follower Hil Hif Hsame Hm.
  - assert (settled leader follower) as Hset.
    { left. assert (runs_ (log_epochs_ follower) = []) as Hnil by (apply nil_length_inv; lia).
      destruct Hif as [Hr _]. rewrite Hnil in Hr. apply runs_of_nil, fmap_nil_inv in Hr.
      by rewrite Hr. }
    exists (length (wal_ follower)), follower. cbn [exchange].
    rewrite (round_settled _ _ Hil Hif Hset). split_and!; [done|done|by rewrite take_ge|].
    by apply settled_prefix.
  - destruct (round_ok leader follower Hil Hif) as (k & b & Hk & Hround & Hb & Hend).
    cbn zeta in *. destruct (kept_ok follower k Hif Hk) as [Hkin Hkeep]. cbn zeta in *.
    set (kept := if k <? _ then _ else _) in *.
    assert (Hks : same_where_epochs_meet (wal_ leader) (wal_ kept)).
    { rewrite Hkeep. by apply same_take. }
    cbn [exchange]. rewrite Hround. cbn [obind snd fst]. destruct b.
    { exists (Z.to_nat k), kept. split_and!; [done..|]. apply settled_prefix; auto. }
    destruct Hend as [Hset|Hfewer].
    + exists (Z.to_nat k), kept. cbn [exchange]. rewrite (round_settled _ _ Hil Hkin Hset).
      split_and!; [done..|]. by apply settled_prefix.
    + destruct (IH kept Hil Hkin Hks ltac:(lia)) as (k' & repaired & Hex & ? & Hw & ?).
      exists (k' `min` Z.to_nat k)%nat, repaired. split_and!; [exact Hex|done| |done].
      by rewrite Hw, Hkeep, take_take.
Qed.

(** C12: Where two logs that hold a record of one number and one epoch are the
    same up to it, the exchange between a follower and its leader ends, within
    two rounds more than the follower's log has runs of epochs: nothing is
    refused, the follower has only discarded records from the end of its log,
    what it keeps is the start of the leader's log, and its table again
    describes it. *)
Theorem repair_ends_in_the_leaders_log (leader follower : Replica)
  (Hleader : in_step leader) (Hfollower : in_step follower)
  (Hsame : same_where_epochs_meet (wal_ leader) (wal_ follower)) :
  ∃ k repaired,
    exchange (length (runs_ (log_epochs_ follower)) + 2) leader follower
      = Returns repaired ∧
    wal_ repaired = take k (wal_ follower) ∧
    wal_ repaired `prefix_of` wal_ leader ∧
    in_step repaired.
Proof.
  destruct (exchange_ok _ leader follower Hleader Hfollower Hsame (Nat.le_refl _))
    as (k & repaired & Hex & Hin & Hw & Hp).
  exists k, repaired. by rewrite Nat.add_comm.
Qed.

(** An old leader, of epoch 3, that wrote two records its follower did not get
    before the other instance led in epoch 4. *)
Definition example_leader : Replica :=
  mk_replica [mk_record 1 [10]; mk_record 3 [11]; mk_record 4 [12]; mk_record 4 [13]]
    (after_calls [NoteRecord 1 1; NoteRecord 2 3; NoteRecord 3 4; NoteRecord 4 4]).
Definition example_follower : Replica :=
  mk_replica [mk_record 1 [10]; mk_record 3 [11]; mk_record 3 [20]; mk_record 3 [21]]
    (after_calls [NoteRecord 1 1; NoteRecord 2 3; NoteRecord 3 3; NoteRecord 4 3]).

Lemma repair_ends_in_the_leaders_log_witness :
  (∃ k repaired,
    exchange (length (runs_ (log_epochs_ example_follower)) + 2)
      example_leader example_follower = Returns repaired ∧
    wal_ repaired = take k (wal_ example_follower) ∧
    wal_ repaired `prefix_of` wal_ example_leader ∧ in_step repaired) ∧
  exchange 4 example_leader example_follower =
    Returns (cut example_follower 2).
Proof.
  split; [|vm_compute; reflexivity].
  apply repair_ends_in_the_leaders_log.
  - apply after_calls_describes.
  - apply after_calls_describes.
  - intros i r r'. do 4 (destruct i as [|i]; [cbn; intros; simplify_eq; done|]). done.
Defined.

End LogRepair.
