(* ===== verification/GroupEcho.v ===== *)
(** The groups an acknowledgement echoes: the class
    libraries/pubsub_itc_fw/include/pubsub_itc_fw/BumpAllocator.hpp and the
    functions [echo_underlyings] and [echo_parties] of
    applications/matching_engine/MatchingEngineStateMachine.cpp, with the loop
    of [apply_new_order_unguarded] that grows the arena and tries again.

    The elements are of generated types, of which the code uses the size and
    the alignment: parameters, the alignment by its power of two.  Sizes are
    unbounded here: the lists are those of one decoded message, whose bytes are
    in memory, so no sum of them reaches 2^64.

    The theorem shows that the loop ends within nine turns, and that no element
    is dropped unless the groups need more than the largest arena. *)

From S2P Require Import Prelude.
#[local] Open Scope Z_scope.

Module BumpAllocator.

Record t := mk { has_storage : bool; capacity : Z; bytes_used_ : Z }.

Definition make (has_storage : bool) (capacity : Z) : t :=
  mk has_storage capacity 0.

(** The size and the alignment of a type. *)
Record Layout := mk_layout { size_of : Z; align_log2 : Z }.

(** [allocate<T>]: the offset of the storage, or null. *)
Definition allocate (ty : Layout) (element_count : nat) : comp t (option Z) := λ a,
  if (element_count =? 0)%nat then (a, Throws PreconditionAssertion)
  else
    let alignment := 2 ^ align_log2 ty in
    let aligned_offset :=
      Z.land (bytes_used_ a + alignment - 1) (Z.lnot (alignment - 1)) in
    let required_bytes := aligned_offset + size_of ty * Z.of_nat element_count in
    (mk (has_storage a) (capacity a) required_bytes,
     Returns (if negb (has_storage a) || (capacity a <? required_bytes)
              then None else Some aligned_offset)).

Definition reset (a : t) : t := mk (has_storage a) (capacity a) 0.

Definition bytes_remaining (a : t) : Z :=
  if capacity a <=? bytes_used_ a then 0 else capacity a - bytes_used_ a.

Definition is_measuring (a : t) : bool := negb (has_storage a).

End BumpAllocator.

(** The elements of the groups.  The types of the view and of the report have
    the same fields, so one type stands for both. *)
Record Underlyings := mk_underlyings {
  has_underlying_symbol : bool;
  underlying_symbol : string;
  has_underlying_security_id : bool;
  underlying_security_id : string;
  has_underlying_qty : bool;
  underlying_qty : string
}.

Record PartySubIDs := mk_party_sub_ids {
  has_party_sub_id : bool;
  party_sub_id : string;
  has_party_sub_id_type : bool;
  party_sub_id_type : Z
}.

Record PartyIDs := mk_party_ids {
  has_party_id : bool;
  party_id : string;
  has_party_id_source : bool;
  party_id_source : Z;
  has_party_role : bool;
  party_role : Z;
  no_party_sub_i_ds : list PartySubIDs
}.

Record Layouts := mk_layouts {
  of_underlyings : BumpAllocator.Layout;
  of_party_ids : BumpAllocator.Layout;
  of_party_sub_ids : BumpAllocator.Layout
}.

Module GroupEcho.

Section echo.
Context (layouts : Layouts).

Definition copy_underlying (input : Underlyings) : Underlyings :=
  mk_underlyings (has_underlying_symbol input) (underlying_symbol input)
    (has_underlying_security_id input) (underlying_security_id input)
    (has_underlying_qty input) (underlying_qty input).

Definition copy_sub_id (input : PartySubIDs) : PartySubIDs :=
  mk_party_sub_ids (has_party_sub_id input) (party_sub_id input)
    (has_party_sub_id_type input) (party_sub_id_type input).

Definition echo_underlyings (source : list Underlyings)
    : comp BumpAllocator.t (list Underlyings) :=
  if (length source =? 0)%nat then mret []
  else
    elements ← BumpAllocator.allocate (of_underlyings layouts) (length source);
    match elements with
    | None => mret []
    | Some _ => mret (map copy_underlying source)
    end.

(** One party: its own fields, then its sub-ids when there is room. *)
Definition echo_party (input : PartyIDs) : comp BumpAllocator.t PartyIDs :=
  let out := mk_party_ids (has_party_id input) (party_id input)
               (has_party_id_source input) (party_id_source input)
               (has_party_role input) (party_role input) in
  let subs := no_party_sub_i_ds input in
  if (length subs =? 0)%nat then mret (out [])
  else
    sub_elements ← BumpAllocator.allocate (of_party_sub_ids layouts) (length subs);
    match sub_elements with
    | None => mret (out [])
    | Some _ => mret (out (map copy_sub_id subs))
    end.

Fixpoint echo_each_party (source : list PartyIDs)
    : comp BumpAllocator.t (list PartyIDs) :=
  match source with
  | [] => mret []
  | input :: source =>
      out ← echo_party input;
      rest ← echo_each_party source;
      mret (out :: rest)
  end.

Definition echo_parties (source : list PartyIDs)
    : comp BumpAllocator.t (list PartyIDs) :=
  if (length source =? 0)%nat then mret []
  else
    elements ← BumpAllocator.allocate (of_party_ids layouts) (length source);
    match elements with
    | None => mret []
    | Some _ => echo_each_party source
    end.

Definition initial_er_group_arena_size : Z := 4096.
Definition max_er_group_arena_size : Z := 2 ^ 20.

Definition echo_both (underlyings : list Underlyings) (parties : list PartyIDs)
    : comp BumpAllocator.t (list Underlyings * list PartyIDs) :=
  us ← echo_underlyings underlyings;
  ps ← echo_parties parties;
  mret (us, ps).

(** The loop, on the size of the buffer, with [turns] turns allowed:
    [arena_mem] says which sizes the buffer can be given. *)
Fixpoint echo_groups (arena_mem : Z → bool) (turns : nat)
    (underlyings : list Underlyings) (parties : list PartyIDs)
    : comp Z (list Underlyings * list PartyIDs) := λ size,
  match turns with
  | O => (size, Throws DoesNotReturn)
  | S turns =>
      match echo_both underlyings parties (BumpAllocator.make true size) with
      | (_, Throws e) => (size, Throws e)
      | (arena, Returns groups) =>
          let bytes_used := BumpAllocator.bytes_used_ arena in
          if (bytes_used <=? size) || (max_er_group_arena_size <=? size)
          then (size, Returns groups)
          else
            let grown := Z.max bytes_used (size * 2) in
            if arena_mem grown
            then echo_groups arena_mem turns underlyings parties grown
            else (size, Throws BadAlloc)
      end
  end.

End echo.

End GroupEcho.

Import BumpAllocator GroupEcho.

Section proofs.
Context (layouts : Layouts).

Definition layout_ok (ty : Layout) : Prop := 0 < size_of ty ∧ 0 ≤ align_log2 ty.

Context (Hlayouts : layout_ok (of_underlyings layouts) ∧
                    layout_ok (of_party_ids layouts) ∧
                    layout_ok (of_party_sub_ids layouts)).

Lemma align_up used k :
  0 ≤ k → used ≤ Z.land (used + 2 ^ k - 1) (Z.lnot (2 ^ k - 1)).
Proof.
  intros Hk. replace (2 ^ k - 1) with (Z.ones k) by (rewrite Z.ones_equiv; lia).
  rewrite <- Z.ldiff_land, Z.ldiff_ones_r by done.
  rewrite Z.shiftl_mul_pow2, Z.shiftr_div_pow2 by done.
  pose proof (Z.pow_pos_nonneg 2 k).
  pose proof (Z.div_mod (used + 2 ^ k - 1) (2 ^ k)).
  pose proof (Z.mod_pos_bound (used + 2 ^ k - 1) (2 ^ k)). nia.
Qed.

(** The bytes in use after an allocation, and after the echo of a group. *)
Definition need_alloc (ty : Layout) (n : nat) (used : Z) : Z :=
  if (n =? 0)%nat then used
  else Z.land (used + 2 ^ align_log2 ty - 1) (Z.lnot (2 ^ align_log2 ty - 1))
       + size_of ty * Z.of_nat n.

Definition need_each (parties : list PartyIDs) (used : Z) : Z :=
  foldl (λ used p, need_alloc (of_party_sub_ids layouts)
                     (length (no_party_sub_i_ds p)) used) used parties.

(** The bytes the two groups need together. *)
Definition need (underlyings : list Underlyings) (parties : list PartyIDs) : Z :=
  need_each parties
    (need_alloc (of_party_ids layouts) (length parties)
       (need_alloc (of_underlyings layouts) (length underlyings) 0)).

Lemma need_alloc_grows ty n used : layout_ok ty → used ≤ need_alloc ty n used.
Proof.
  intros [Hs Ha]. unfold need_alloc. destruct (n =? 0)%nat; [done|].
  pose proof (align_up used (align_log2 ty) Ha). nia.
Qed.

Lemma need_alloc_mono ty n u v :
  layout_ok ty → u ≤ v → need_alloc ty n u ≤ need_alloc ty n v.
Proof.
  intros [Hs Ha] Huv. unfold need_alloc. destruct (n =? 0)%nat; [done|].
  replace (2 ^ align_log2 ty - 1) with (Z.ones (align_log2 ty))
    by (rewrite Z.ones_equiv; lia).
  rewrite <- !Z.ldiff_land, !Z.ldiff_ones_r by done.
  rewrite !Z.shiftl_mul_pow2, !Z.shiftr_div_pow2 by done.
  pose proof (Z.pow_pos_nonneg 2 (align_log2 ty)).
  pose proof (Z.div_le_mono (u + 2 ^ align_log2 ty - 1) (v + 2 ^ align_log2 ty - 1)
                (2 ^ align_log2 ty)). nia.
Qed.

Lemma need_each_mono ps u v : u ≤ v → need_each ps u ≤ need_each ps v.
Proof using Hlayouts.
  revert u v. induction ps as [|p ps IH]; intros u v Huv; [done|].
  apply IH, need_alloc_mono; [apply Hlayouts|done].
Qed.

Lemma need_each_grows ps u : u ≤ need_each ps u.
Proof using Hlayouts.
  revert u. induction ps as [|p ps IH]; intros u; [done|].
  etransitivity; [|apply IH]. apply need_alloc_grows, Hlayouts.
Qed.

(** A run of allocations: it adds at most what [bound] says to the bytes used,
    and, when those fit the arena at the end, nothing was refused, so exactly
    that, and its result is [full]. *)
Definition bounded {A} (m : comp BumpAllocator.t A) (bound : Z → Z) : Prop :=
  ∀ size used, ∃ used' a,
    m (BumpAllocator.mk true size used)
      = (BumpAllocator.mk true size used', Returns a) ∧ used ≤ used' ≤ bound used.

Definition exact {A} (m : comp BumpAllocator.t A) (bound : Z → Z) (full : A) : Prop :=
  bounded m bound ∧
  ∀ size used used' a,
    m (BumpAllocator.mk true size used)
      = (BumpAllocator.mk true size used', Returns a) → used' ≤ size →
    used' = bound used ∧ a = full.

Lemma ret_bounded {A} (a : A) (bound : Z → Z) :
  (∀ u, u ≤ bound u) → bounded (mret a) bound.
Proof. intros Hb size used. exists used, a. by split. Qed.

Lemma ret_exact {A} (a : A) : exact (mret a) (λ used, used) a.
Proof.
  split; [by apply ret_bounded|]. intros size used used' a' [= <- <-]. done.
Qed.

Lemma bind_exact {A B} (m : comp BumpAllocator.t A) (f : A → comp BumpAllocator.t B)
    bound bound' a b :
  exact m bound a → (∀ x, bounded (f x) bound') →
  (∀ u v, u ≤ v → bound' u ≤ bound' v) → exact (f a) bound' b →
  exact (m ≫= f) (λ used, bound' (bound used)) b.
Proof.
  intros [Hm He] Hf Hmono [_ Hfa]. split.
  - intros size used. destruct (Hm size used) as (u1 & x & Hx & Hb1).
    destruct (Hf x size u1) as (u2 & y & Hy & Hb2). exists u2, y.
    rewrite (bind_returns _ _ _ _ _ Hx). split; [done|].
    pose proof (Hmono u1 (bound used)). lia.
  - intros size used used' y Hr Hle.
    destruct (Hm size used) as (u1 & x & Hx & Hb1).
    rewrite (bind_returns _ _ _ _ _ Hx) in Hr.
    destruct (Hf x size u1) as (u2 & z & Hz & Hb2).
    rewrite Hz in Hr. injection Hr as <- <-.
    destruct (He size used u1 x Hx) as [-> ->]; [lia|].
    by apply (Hfa size _ u2 z).
Qed.

(** Where the result depends on whether the storage was given. *)
Lemma allocate_exact {B} ty n (none : B) (f : comp BumpAllocator.t B) bound b :
  layout_ok ty → n ≠ 0%nat → (∀ u, u ≤ bound u) →
  exact f bound b →
  exact (p ← allocate ty n; match p with None => mret none | Some _ => f end)
    (λ used, bound (need_alloc ty n used)) b.
Proof.
  intros Hty Hn Hg [Hf He].
  assert (∀ size used, allocate ty n (BumpAllocator.mk true size used)
    = (BumpAllocator.mk true size (need_alloc ty n used),
       Returns (if size <? need_alloc ty n used then None
                else Some (Z.land (used + 2 ^ align_log2 ty - 1)
                             (Z.lnot (2 ^ align_log2 ty - 1)))))) as Ha.
  { intros size used. unfold allocate, need_alloc.
    destruct (Nat.eqb_spec n 0); [done|]. reflexivity. }
  pose proof (λ used, need_alloc_grows ty n used Hty) as Hgrow. split.
  - intros size used. rewrite (bind_returns _ _ _ _ _ (Ha size used)).
    specialize (Hgrow used). specialize (Hg (need_alloc ty n used)).
    destruct (_ <? _); [eexists _, _; split; [reflexivity|lia]|].
    destruct (Hf size (need_alloc ty n used)) as (u & y & Hy & Hu).
    exists u, y. split; [done|lia].
  - intros size used used' y. rewrite (bind_returns _ _ _ _ _ (Ha size used)).
    destruct (Z.ltb_spec size (need_alloc ty n used)).
    + intros [= <- <-]. lia.
    + apply He.
Qed.

Lemma allocate_ret_exact {B} ty n (none some : B) :
  layout_ok ty → n ≠ 0%nat →
  exact (p ← allocate ty n; match p with None => mret none | Some _ => mret some end)
    (need_alloc ty n) some.
Proof.
  intros Hty Hn.
  exact (allocate_exact ty n none (mret some) (λ u, u) some Hty Hn
           (λ u, Z.le_refl u) (ret_exact some)).
Qed.

Lemma copy_underlyings_id l : map copy_underlying l = l.
Proof. induction l as [|[] l IH]; simpl; [done|]. by rewrite IH. Qed.

Lemma copy_subs_id l : map copy_sub_id l = l.
Proof. induction l as [|[] l IH]; simpl; [done|]. by rewrite IH. Qed.

Lemma echo_party_exact p :
  exact (echo_party layouts p)
    (need_alloc (of_party_sub_ids layouts) (length (no_party_sub_i_ds p))) p.
Proof using Hlayouts.
  unfold echo_party. destruct p as [h1 p1 h2 p2 h3 p3 subs]. cbn.
  destruct (Nat.eqb_spec (length subs) 0) as [Hz|Hnz].
  - apply length_zero_iff_nil in Hz as ->. apply ret_exact.
  - rewrite copy_subs_id. by apply allocate_ret_exact; [apply Hlayouts|].
Qed.

Lemma echo_each_exact ps : exact (echo_each_party layouts ps) (need_each ps) ps.
Proof using Hlayouts.
  induction ps as [|p ps IH]; simpl; [apply ret_exact|].
  eapply (bind_exact (echo_party layouts p) _ _ (need_each ps)); [apply echo_party_exact| | |].
  - intros x. apply (bind_exact (echo_each_party layouts ps) _ (need_each ps)
      (λ u, u) ps (x :: ps)); [done|intros; by apply ret_bounded|done|apply ret_exact].
  - apply need_each_mono.
  - apply (bind_exact (echo_each_party layouts ps) _ (need_each ps)
      (λ u, u) ps (p :: ps)); [done|intros; by apply ret_bounded|done|apply ret_exact].
Qed.

Lemma echo_both_exact us ps :
  exact (echo_both layouts us ps)
    (λ used, need_each ps (need_alloc (of_party_ids layouts) (length ps)
       (need_alloc (of_underlyings layouts) (length us) used))) (us, ps).
Proof using Hlayouts.
  unfold echo_both.
  assert (exact (echo_underlyings layouts us)
            (need_alloc (of_underlyings layouts) (length us)) us) as Hus.
  { unfold echo_underlyings. destruct (Nat.eqb_spec (length us) 0) as [Hz|Hnz].
    - apply length_zero_iff_nil in Hz as ->. apply ret_exact.
    - rewrite copy_underlyings_id.
      by apply allocate_ret_exact; [apply Hlayouts|]. }
  assert (exact (echo_parties layouts ps)
            (λ u, need_each ps (need_alloc (of_party_ids layouts) (length ps) u)) ps) as Hps.
  { unfold echo_parties. destruct (Nat.eqb_spec (length ps) 0) as [Hz|Hnz].
    - apply length_zero_iff_nil in Hz as ->. apply ret_exact.
    - apply allocate_exact; [apply Hlayouts|done|apply need_each_grows|apply echo_each_exact]. }
  assert (∀ x : list Underlyings, exact (echo_parties layouts ps ≫= λ y, mret (x, y))
    (λ u, need_each ps (need_alloc (of_party_ids layouts) (length ps) u)) (x, ps)) as Hx.
  { intros x. apply (bind_exact _ _ _ (λ u, u) ps (x, ps) Hps);
      [intros; by apply ret_bounded|done|apply ret_exact]. }
  eapply (bind_exact _ _ _
    (λ u, need_each ps (need_alloc (of_party_ids layouts) (length ps) u)) us _ Hus).
  - intros x. apply Hx.
  - intros u v Huv. apply need_each_mono, need_alloc_mono; [apply Hlayouts|done].
  - apply Hx.
Qed.

Lemma echo_groups_turn arena_mem turns us ps size used groups :
  echo_both layouts us ps (BumpAllocator.make true size)
    = (BumpAllocator.mk true size used, Returns groups) →
  echo_groups layouts arena_mem (S turns) us ps size
    = if (used <=? size) || (max_er_group_arena_size <=? size)
      then (size, Returns groups)
      else if arena_mem (Z.max used (size * 2))
           then echo_groups layouts arena_mem turns us ps (Z.max used (size * 2))
           else (size, Throws BadAlloc).
Proof. intros Hg. cbn [echo_groups]. by rewrite Hg. Qed.

(** The turns still needed from a buffer of [size] bytes. *)
Lemma echo_groups_returns arena_mem us ps turns size :
  (∀ n, arena_mem n = true) →
  0 < size → max_er_group_arena_size ≤ size * 2 ^ Z.of_nat turns →
  ∃ size' groups,
    echo_groups layouts arena_mem (S turns) us ps size = (size', Returns groups) ∧
    size ≤ size' ∧ (need us ps ≤ max_er_group_arena_size → groups = (us, ps)).
Proof using Hlayouts.
  intros Hmem. revert size. induction turns as [|turns IH]; intros size Hpos Hmax.
  all: destruct (echo_both_exact us ps) as [Hb He].
  all: destruct (Hb size 0) as (used & groups & Hg & Hu).
  all: rewrite (echo_groups_turn _ _ _ _ _ _ _ Hg); fold (need us ps) in Hu.
  all: destruct (Z.leb_spec used size) as [Hfit|Hbig];
    [exists size, groups; split; [done|]; split; [done|];
     intros _; by apply (He size 0 used groups Hg)|].
  all: destruct (Z.leb_spec max_er_group_arena_size size) as [Hc|Hc];
    [exists size, groups; split; [done|]; split; [done|]; lia|].
  - simpl in Hmax. lia.
  - cbn [orb]. rewrite Hmem.
    destruct (IH (Z.max used (size * 2))) as (size' & g' & Hr & Hle & Hfull).
    + lia.
    + rewrite Nat2Z.inj_succ, Z.pow_succ_r in Hmax by lia.
      pose proof (Z.pow_pos_nonneg 2 (Z.of_nat turns)). nia.
    + exists size', g'. rewrite Hr. split; [done|]. split; [lia|done].
Qed.

(** Whatever the allocations do, the loop ends, and the buffer never shrinks. *)
Lemma echo_groups_safe arena_mem us ps turns size :
  0 < size → max_er_group_arena_size ≤ size * 2 ^ Z.of_nat turns →
  ∃ size' r, echo_groups layouts arena_mem (S turns) us ps size = (size', r) ∧
    size ≤ size' ∧ (r = Throws BadAlloc ∨ ∃ groups, r = Returns groups).
Proof using Hlayouts.
  revert size. induction turns as [|turns IH]; intros size Hpos Hmax.
  all: destruct (proj1 (echo_both_exact us ps) size 0) as (used & groups & Hg & Hu).
  all: rewrite (echo_groups_turn _ _ _ _ _ _ _ Hg).
  all: destruct ((used <=? size) || (max_er_group_arena_size <=? size)) eqn:Hstop;
    [exists size, (Returns groups); split; [done|]; split; [done|]; right; by exists groups|].
  all: bool_to_prop.
  - simpl in Hmax. lia.
  - destruct (arena_mem _);
      [|exists size, (Throws BadAlloc); split; [done|]; split; [done|]; by left].
    destruct (IH (Z.max used (size * 2))) as (size' & r & Hr & Hle & Hres).
    + lia.
    + rewrite Nat2Z.inj_succ, Z.pow_succ_r in Hmax by lia.
      pose proof (Z.pow_pos_nonneg 2 (Z.of_nat turns)). nia.
    + exists size', r. rewrite Hr. split; [done|]. split; [lia|done].
Qed.

End proofs.

(** the loop that echoes an order's groups ends within nine turns, from any
    buffer as large as the one the engine starts with, and leaves the buffer no
    smaller.  When the groups need at most the largest arena, the report carries
    every element of both, so what is echoed does not depend on how far earlier
    orders have grown the buffer. *)
Theorem groups_are_echoed_whole layouts arena_mem us ps size :
  layout_ok (of_underlyings layouts) → layout_ok (of_party_ids layouts) →
  layout_ok (of_party_sub_ids layouts) →
  (∀ n, arena_mem n = true) → initial_er_group_arena_size ≤ size →
  ∃ size' groups,
    echo_groups layouts arena_mem 9 us ps size = (size', Returns groups) ∧
    size ≤ size' ∧ (need layouts us ps ≤ max_er_group_arena_size → groups = (us, ps)).
Proof.
  intros H1 H2 H3 Hmem Hsize. unfold initial_er_group_arena_size in Hsize.
  apply (echo_groups_returns layouts (conj H1 (conj H2 H3)) arena_mem us ps 8 size Hmem).
  - lia.
  - unfold max_er_group_arena_size. simpl. lia.
Qed.

