(* ===== verification/MatchingEngine.v ===== *)
(** The matching engine's handling of commands:
    applications/matching_engine/MatchingEngineStateMachine.{hpp,cpp}.

    The state is a pair: the book, which the state machine is given a reference
    to, and [Engine], everything else it owns or is given: its identifiers, the
    highest sequence number applied, the voids, what the command in hand has
    done, the size of the arena, and the outputs it has made so far in the order
    it made them.  Each member function is a computation on the pair that may
    throw, and what it changed before it threw stays changed.

    The outputs interface is the caller's: [output_throws] says whether the
    caller's object throws when it is given an output after those before it, and
    an output that throws is not delivered.  [mem] and [arena_mem] say which
    allocations succeed, of the book's map and of the arena.  Logging is left
    out, and so are the values that only logging reads.

    The theorems are in MatchingEngineRefinement.v. *)

From Stdlib Require Import Ascii.
From S2P Require Import Prelude KeyIndex SlotStore OrderBook Identifiers.
From S2P Require Import VoidedCommands GroupEcho.
#[local] Open Scope Z_scope.
#[local] Open Scope venue_scope.

Inductive ReportIsRepeat := RepeatNo | RepeatYes.

Inductive CommandSource := Live | CatchUp.

#[export] Instance repeat_eq_dec : EqDecision ReportIsRepeat.
Proof. solve_decision. Defined.

#[export] Instance source_eq_dec : EqDecision CommandSource.
Proof. solve_decision. Defined.

(** The generated enumerations whose values the state machine chooses. *)
Inductive ExecType := ExecNew | ExecCanceled | ExecRejected.
Inductive OrdStatus := StatusNew | StatusCanceled | StatusRejected.
Inductive OrdRejReason :=
  | ExchangeClosed | UnknownOrder | DuplicateOrder | OtherReason.
Inductive OrderOutcomeKind :=
  | OutcomeAccepted | RefusedDuplicate | RefusedTooLong | CancelRefusedTooLong
  | OutcomeCancelled | CancelRefusedUnknown | RefusedVoided
  | CancelRefusedVoided.

(** A field with its flag: [has_x] and [x]. *)
Record maybe (A : Type) := mk_maybe { has : bool; val : A }.
Arguments mk_maybe {A} has val.
Arguments has {A} m.
Arguments val {A} m.

Definition given {A} (a : A) : maybe A := mk_maybe true a.

(** [if (x.has_y) { er.has_y = true; er.y = x.y; }] on a field not yet set. *)
Definition carried {A} (m : maybe A) (blank : A) : maybe A :=
  if has m then given (val m) else mk_maybe false blank.

Record NewOrderSingleView := mk_new_order {
  no_cl_ord_id : string;
  no_symbol : string;
  no_side : Z;
  no_order_qty : string;
  no_ord_type : Z;
  no_price : maybe string;
  no_time_in_force : maybe Z;
  no_expire_time : maybe Z;
  no_underlyings : list Underlyings;
  no_party_i_ds : list PartyIDs
}.

Record OrderCancelRequestView := mk_cancel_request {
  cr_cl_ord_id : string;
  cr_orig_cl_ord_id : string;
  cr_symbol : string;
  cr_side : Z;
  cr_order_qty : maybe string
}.

Record TechnicalEventView := mk_technical_event {
  te_trading_day : Z;
  te_halted : bool
}.

Record VoidCommandsView := mk_void_commands {
  vc_first_seq_no : Z;
  vc_last_seq_no : Z;
  vc_new_orders_only : bool;
  vc_reason : VoidReason
}.

(** The fields of the report that are ever set. *)
Record ExecutionReport := mk_report {
  order_id : string;
  exec_id : string;
  exec_type : ExecType;
  ord_status : OrdStatus;
  symbol : string;
  side : Z;
  leaves_qty : string;
  cum_qty : string;
  avg_px : string;
  transact_time : Z;
  cl_ord_id : maybe string;
  orig_cl_ord_id : maybe string;
  order_qty : maybe string;
  ord_type : maybe Z;
  time_in_force : maybe Z;
  expire_time : maybe Z;
  price : maybe string;
  ord_rej_reason : maybe OrdRejReason;
  text : maybe string;
  er_underlyings : list Underlyings;
  er_party_i_ds : list PartyIDs
}.

Inductive Output :=
  | SendReport (report : ExecutionReport) (sequence_number : Z)
      (session : SessionIdentity.t) (repeat : ReportIsRepeat)
  | OrderOutcome (session : SessionIdentity.t) (cl_ord_id : string)
      (outcome : OrderOutcomeKind) (repeat : ReportIsRepeat)
      (sequence_number : Z) (orig_cl_ord_id : string)
  | OrderAccepted.

Fixpoint text_of (l : list ascii) : string :=
  match l with [] => EmptyString | c :: l => String c (text_of l) end.

Module MatchingEngine.

(** The rejections: every one sets these fields, and its reason and text. *)
Definition rejected_order (view : NewOrderSingleView) (id : string) (time : Z)
    (reason : OrdRejReason) (said : maybe string) : ExecutionReport :=
  {| order_id := "NONE"; exec_id := id;
     exec_type := ExecRejected; ord_status := StatusRejected;
     symbol := no_symbol view; side := no_side view;
     leaves_qty := "0"; cum_qty := "0"; avg_px := "0.00";
     transact_time := time;
     cl_ord_id := given (no_cl_ord_id view);
     orig_cl_ord_id := mk_maybe false "";
     order_qty := given (no_order_qty view);
     ord_type := mk_maybe false 0;
     time_in_force := mk_maybe false 0;
     expire_time := mk_maybe false 0;
     price := mk_maybe false "";
     ord_rej_reason := given reason;
     text := said;
     er_underlyings := []; er_party_i_ds := [] |}.

Definition rejected_cancel (view : OrderCancelRequestView) (id : string)
    (time : Z) (reason : OrdRejReason) (said : maybe string)
    : ExecutionReport :=
  {| order_id := "NONE"; exec_id := id;
     exec_type := ExecRejected; ord_status := StatusRejected;
     symbol := cr_symbol view; side := cr_side view;
     leaves_qty := "0"; cum_qty := "0"; avg_px := "0.00";
     transact_time := time;
     cl_ord_id := given (cr_cl_ord_id view);
     orig_cl_ord_id := given (cr_orig_cl_ord_id view);
     order_qty := cr_order_qty view;
     ord_type := mk_maybe false 0;
     time_in_force := mk_maybe false 0;
     expire_time := mk_maybe false 0;
     price := mk_maybe false "";
     ord_rej_reason := given reason;
     text := said;
     er_underlyings := []; er_party_i_ds := [] |}.

(** The acknowledgement of a new order, with the groups it echoes. *)
Definition accepted_order (view : NewOrderSingleView) (order id : string)
    (time : Z) (groups : list Underlyings * list PartyIDs) : ExecutionReport :=
  {| order_id := order; exec_id := id;
     exec_type := ExecNew; ord_status := StatusNew;
     symbol := no_symbol view; side := no_side view;
     leaves_qty := no_order_qty view; cum_qty := "0"; avg_px := "0.00";
     transact_time := time;
     cl_ord_id := given (no_cl_ord_id view);
     orig_cl_ord_id := mk_maybe false "";
     order_qty := given (no_order_qty view);
     ord_type := given (no_ord_type view);
     time_in_force := carried (no_time_in_force view) 0;
     expire_time := carried (no_expire_time view) 0;
     price := carried (no_price view) "";
     ord_rej_reason := mk_maybe false OtherReason;
     text := mk_maybe false "";
     er_underlyings := groups.1; er_party_i_ds := groups.2 |}.

(** A cancel, described from what the book held: [cl] and [orig] are the
    identifiers the report carries. *)
Definition cancelled_order (entry : OrderEntry.t) (order id : string) (time : Z)
    (cl : string) (orig : maybe string) : ExecutionReport :=
  {| order_id := order; exec_id := id;
     exec_type := ExecCanceled; ord_status := StatusCanceled;
     symbol := OrderEntry.symbol entry; side := OrderEntry.side entry;
     leaves_qty := "0"; cum_qty := "0"; avg_px := "0.00";
     transact_time := time;
     cl_ord_id := given cl;
     orig_cl_ord_id := orig;
     order_qty := given (OrderEntry.order_qty entry);
     ord_type := given (OrderEntry.ord_type entry);
     time_in_force := carried (mk_maybe (OrderEntry.has_time_in_force entry)
                                 (OrderEntry.time_in_force entry)) 0;
     expire_time := carried (mk_maybe (OrderEntry.has_expire_time entry)
                               (OrderEntry.expire_time entry)) 0;
     price := carried (mk_maybe (OrderEntry.has_price entry)
                         (OrderEntry.price entry)) "";
     ord_rej_reason := mk_maybe false OtherReason;
     text := mk_maybe false "";
     er_underlyings := []; er_party_i_ds := [] |}.

(** The entry a new order is put on the book as. *)
Definition entry_of (view : NewOrderSingleView) (sequence_number : Z)
    (session : SessionIdentity.t) : OrderEntry.t :=
  {| OrderEntry.placed_at_seq_no := sequence_number;
     OrderEntry.session := session;
     OrderEntry.side := no_side view;
     OrderEntry.ord_type := no_ord_type view;
     OrderEntry.has_time_in_force := has (no_time_in_force view);
     OrderEntry.time_in_force := val (no_time_in_force view);
     OrderEntry.has_expire_time := has (no_expire_time view);
     OrderEntry.expire_time := val (no_expire_time view);
     OrderEntry.has_price := has (no_price view);
     OrderEntry.cl_ord_id := "";
     OrderEntry.symbol := clip max_symbol_length (no_symbol view);
     OrderEntry.order_qty := clip max_qty_length (no_order_qty view);
     OrderEntry.price := if has (no_price view)
                         then clip max_qty_length (val (no_price view))
                         else "" |}.

Definition voided_order_text (reason : VoidReason) : string :=
  match reason with
  | HeldWhenTradingHalted =>
      "Trading halted while the order was waiting to be matched"
  | EngineDiedApplying =>
      "Venue could not process the order: the matching engines stopped while applying it"
  end.

Definition voided_cancel_text (reason : VoidReason) : string :=
  match reason with
  | HeldWhenTradingHalted =>
      "Trading halted while the cancel was waiting to be applied. The order is unchanged"
  | EngineDiedApplying =>
      "Venue could not process the cancel: the matching engines stopped while applying it. The order is unchanged"
  end.

Record Engine := mk {
  identifiers : ReportIdentifiers.t;
  highest_applied_seq_no : Z;
  voids : VoidedCommandList.t;
  reports_for_command : Z;
  book_changed_by_command : bool;
  er_group_arena_size : Z;
  outputs : list Output
}.

Definition with_identifiers (d : Engine) (i : ReportIdentifiers.t) : Engine :=
  mk i (highest_applied_seq_no d) (voids d) (reports_for_command d)
     (book_changed_by_command d) (er_group_arena_size d) (outputs d).
Definition with_highest (d : Engine) (n : Z) : Engine :=
  mk (identifiers d) n (voids d) (reports_for_command d)
     (book_changed_by_command d) (er_group_arena_size d) (outputs d).
Definition with_voids (d : Engine) (v : VoidedCommandList.t) : Engine :=
  mk (identifiers d) (highest_applied_seq_no d) v (reports_for_command d)
     (book_changed_by_command d) (er_group_arena_size d) (outputs d).
Definition with_progress (d : Engine) (reports : Z) (changed : bool) : Engine :=
  mk (identifiers d) (highest_applied_seq_no d) (voids d) reports changed
     (er_group_arena_size d) (outputs d).
Definition with_arena (d : Engine) (n : Z) : Engine :=
  mk (identifiers d) (highest_applied_seq_no d) (voids d)
     (reports_for_command d) (book_changed_by_command d) n (outputs d).
Definition with_outputs (d : Engine) (o : list Output) : Engine :=
  mk (identifiers d) (highest_applied_seq_no d) (voids d)
     (reports_for_command d) (book_changed_by_command d)
     (er_group_arena_size d) o.

(** The constructor. *)
Definition make (i : ReportIdentifiers.t) : Engine :=
  mk i 0 [] 0 false GroupEcho.initial_er_group_arena_size [].

Section engine.
Context {I : Type} `{KI : KeyIndex I OrderKey.t Z}.
Context (aes : list Z → outcome (list Z → outcome (list Z))).
Context (hmac : list Z → string → outcome (list Z)).
Context (mem : nat → bool) (arena_mem : Z → bool) (layouts : Layouts).
Context (output_throws : list Output → Output → option exn).

Abbreviation book := (OrderBook.t I).
Abbreviation state := (book * Engine)%type.

Definition note_caught_up_to (sequence_number : Z) : comp state unit :=
  on_snd (modify (λ d, with_highest d (Z.max (highest_applied_seq_no d)
                                             sequence_number))).

Definition begin_command : comp state unit :=
  on_snd (modify (λ d, with_progress d 0 false)).

(** A call of the outputs interface. *)
Definition emit (o : Output) : comp Engine unit := λ d,
  match output_throws (outputs d) o with
  | Some e => (d, Throws e)
  | None => (with_outputs d (outputs d ++ [o]), Returns ())
  end.

Definition send_report (report : ExecutionReport) (sequence_number : Z)
    (session : SessionIdentity.t) (repeat : ReportIsRepeat) : comp state unit :=
  on_snd (emit (SendReport report sequence_number session repeat)) ;;
  on_snd (modify (λ d, with_progress d (reports_for_command d + 1)
                                     (book_changed_by_command d))).

Definition order_outcome (session : SessionIdentity.t) (cl : string)
    (kind : OrderOutcomeKind) (repeat : ReportIsRepeat) (sequence_number : Z)
    (orig : string) : comp state unit :=
  on_snd (emit (OrderOutcome session cl kind repeat sequence_number orig)).

Definition use_trading_date (trading_date : Z) : comp state unit :=
  on_snd (λ d, let (i, r) := ReportIdentifiers.use_trading_date aes hmac
                               trading_date (identifiers d) in
               (with_identifiers d i, r)).

Definition make_exec_id (sequence_number place : Z) : comp Engine string :=
  ask (λ d, let! l := ReportIdentifiers.exec_id (identifiers d)
                        sequence_number place in
            Returns (text_of l)).

Definition make_order_id (placed_at_seq_no : Z) : comp Engine string :=
  ask (λ d, let! l := ReportIdentifiers.order_id (identifiers d)
                        placed_at_seq_no in
            Returns (text_of l)).

Definition is_live (source : CommandSource) : bool :=
  bool_decide (source = Live).

Definition repeat_of (source : CommandSource) : ReportIsRepeat :=
  if is_live source then RepeatNo else RepeatYes.

Definition applied_before (sequence_number : Z) : comp state bool :=
  on_snd (λ d, if highest_applied_seq_no d <? sequence_number
               then (with_highest d sequence_number, Returns false)
               else (d, Returns true)).

Definition sequence_goes_backwards (sequence_number : Z) : comp state bool :=
  on_snd (λ d, if sequence_number <=? highest_applied_seq_no d
               then (d, Returns true)
               else (with_highest d sequence_number, Returns false)).

(** [!live && applied_before(...)] and [live && sequence_goes_backwards(...)]:
    the second operand is not evaluated when the first is false. *)
Definition not_live_and_applied_before (source : CommandSource)
    (sequence_number : Z) : comp state bool :=
  if is_live source then mret false else applied_before sequence_number.

Definition live_and_goes_backwards (source : CommandSource)
    (sequence_number : Z) : comp state bool :=
  if is_live source then sequence_goes_backwards sequence_number
  else mret false.

Definition publish (sequence_number : Z) : comp state unit :=
  on_fst (OrderBook.publish sequence_number).

Definition publish_after_refusal (sequence_number : Z) (source : CommandSource)
    : comp state unit :=
  match source with
  | CatchUp => publish sequence_number
  | Live => mret ()
  end.

Definition set_halted (halted : bool) : comp state unit :=
  now ← on_fst (gets OrderBook.halted);
  if Bool.eqb halted now then mret ()
  else on_fst (OrderBook.set_halted halted).

Definition refuse_to_name (sequence_number : Z) : comp state unit :=
  set_halted true.

Definition refuse_out_of_sequence_order (view : NewOrderSingleView)
    (sequence_number transact_time : Z) (session : SessionIdentity.t)
    : comp state unit :=
  id ← on_snd (make_exec_id sequence_number 0);
  send_report (rejected_order view id transact_time OtherReason
      (given "Venue could not process the order: it arrived out of sequence"%string))
    sequence_number session RepeatNo.

Definition refuse_out_of_sequence_cancel (view : OrderCancelRequestView)
    (sequence_number transact_time : Z) (session : SessionIdentity.t)
    : comp state unit :=
  id ← on_snd (make_exec_id sequence_number 0);
  send_report (rejected_cancel view id transact_time OtherReason
      (given "Venue could not process the cancel: it arrived out of sequence. The order is unchanged"%string))
    sequence_number session RepeatNo.

Definition no_time_text (transact_time : Z) : string :=
  if transact_time =? 0
  then "Venue could not process the order: it carried no time"
  else "Venue could not process the order: it carried no trading date".

Definition no_time_cancel_text (transact_time : Z) : string :=
  if transact_time =? 0
  then "Venue could not process the cancel: it carried no time. The order is unchanged"
  else "Venue could not process the cancel: it carried no trading date. The order is unchanged".

Definition refuse_order_without_time (view : NewOrderSingleView)
    (sequence_number transact_time : Z) (session : SessionIdentity.t)
    (repeat : ReportIsRepeat) : comp state unit :=
  id ← on_snd (make_exec_id sequence_number 0);
  send_report (rejected_order view id transact_time OtherReason
                 (given (no_time_text transact_time)))
    sequence_number session repeat.

Definition refuse_cancel_without_time (view : OrderCancelRequestView)
    (sequence_number transact_time : Z) (session : SessionIdentity.t)
    (repeat : ReportIsRepeat) : comp state unit :=
  id ← on_snd (make_exec_id sequence_number 0);
  send_report (rejected_cancel view id transact_time OtherReason
                 (given (no_time_cancel_text transact_time)))
    sequence_number session repeat.

Definition voided_order_reason (reason : VoidReason) : OrdRejReason :=
  match reason with
  | HeldWhenTradingHalted => ExchangeClosed
  | EngineDiedApplying => OtherReason
  end.

Definition refuse_voided_order (view : NewOrderSingleView)
    (sequence_number transact_time : Z) (session : SessionIdentity.t)
    (voided : VoidedRange) (repeat : ReportIsRepeat) : comp state unit :=
  order_outcome session (no_cl_ord_id view) RefusedVoided repeat
    sequence_number "" ;;
  id ← on_snd (make_exec_id sequence_number 0);
  send_report (rejected_order view id transact_time
                 (voided_order_reason (void_reason voided))
                 (given (voided_order_text (void_reason voided))))
    sequence_number session repeat.

(** The rejection of a voided cancel, [found] being the order it names with its
    identifier, when that is open. *)
Definition voided_cancel_report (view : OrderCancelRequestView) (id : string)
    (time : Z) (voided : VoidedRange) (found : option (OrderEntry.t * string))
    : ExecutionReport :=
  let er := rejected_cancel view id time
              (if found is Some _ then OtherReason else UnknownOrder)
              (given (voided_cancel_text (void_reason voided))) in
  {| order_id := match found with Some (_, oid) => oid | None => "NONE" end;
     exec_id := exec_id er; exec_type := exec_type er;
     ord_status := if found is Some _ then StatusNew else StatusRejected;
     symbol := symbol er; side := side er;
     leaves_qty := match found with
                   | Some (entry, _) => OrderEntry.order_qty entry
                   | None => "0"
                   end;
     cum_qty := cum_qty er; avg_px := avg_px er;
     transact_time := transact_time er; cl_ord_id := cl_ord_id er;
     orig_cl_ord_id := orig_cl_ord_id er; order_qty := order_qty er;
     ord_type := ord_type er; time_in_force := time_in_force er;
     expire_time := expire_time er; price := price er;
     ord_rej_reason := ord_rej_reason er; text := text er;
     er_underlyings := []; er_party_i_ds := [] |}.

Definition refuse_voided_cancel (view : OrderCancelRequestView)
    (sequence_number transact_time : Z) (session : SessionIdentity.t)
    (voided : VoidedRange) (repeat : ReportIsRepeat) : comp state unit :=
  order_outcome session (cr_cl_ord_id view) CancelRefusedVoided repeat
    sequence_number (cr_orig_cl_ord_id view) ;;
  found ← (if OrderKey.fits (cr_orig_cl_ord_id view)
           then on_fst (ask (λ b, OrderBook.find b
                  (OrderKey.make session (cr_orig_cl_ord_id view))))
           else mret None);
  named ← match found with
          | Some entry =>
              oid ← on_snd (make_order_id (OrderEntry.placed_at_seq_no entry));
              mret (Some (entry, oid))
          | None => mret None
          end;
  id ← on_snd (make_exec_id sequence_number 0);
  send_report (voided_cancel_report view id transact_time voided named)
    sequence_number session repeat.

Definition too_long_text (what : string) : string :=
  (what ++ " exceeds maximum length of 64")%string.

Definition refuse_over_long_order (view : NewOrderSingleView)
    (sequence_number transact_time : Z) (session : SessionIdentity.t)
    (repeat : ReportIsRepeat) : comp state unit :=
  order_outcome session (no_cl_ord_id view) RefusedTooLong repeat
    sequence_number "" ;;
  id ← on_snd (make_exec_id sequence_number 0);
  send_report (rejected_order view id transact_time OtherReason
                 (given (too_long_text "ClOrdID")))
    sequence_number session repeat.

Definition refuse_over_long_cancel (view : OrderCancelRequestView)
    (sequence_number transact_time : Z) (session : SessionIdentity.t)
    (repeat : ReportIsRepeat) : comp state unit :=
  order_outcome session (cr_cl_ord_id view) CancelRefusedTooLong repeat
    sequence_number (cr_orig_cl_ord_id view) ;;
  id ← on_snd (make_exec_id sequence_number 0);
  send_report (rejected_cancel view id transact_time OtherReason
                 (given (too_long_text
                    (if OrderKey.fits (cr_orig_cl_ord_id view)
                     then "ClOrdID" else "OrigClOrdID"))))
    sequence_number session repeat.

(** Acknowledging an order that has been put on the book. *)
Definition echo_groups (view : NewOrderSingleView)
    : comp state (list Underlyings * list PartyIDs) :=
  on_snd (λ d, let (n, r) := GroupEcho.echo_groups layouts arena_mem 9
                               (no_underlyings view) (no_party_i_ds view)
                               (er_group_arena_size d) in
               (with_arena d n, r)).

Definition note_added (added : bool) : comp state unit :=
  on_snd (modify (λ d, with_progress d (reports_for_command d) added)).

(** From the lookup of the ClOrdID on, the order being one the venue can
    name. *)
Definition place_order (view : NewOrderSingleView)
    (sequence_number transact_time : Z) (session : SessionIdentity.t)
    (source : CommandSource) (id : string) : comp state unit :=
  let repeat := repeat_of source in
  let order_key := OrderKey.make session (no_cl_ord_id view) in
  duplicate ← on_fst (ask (λ b, OrderBook.contains b order_key));
  if duplicate : bool then
    order_outcome session (no_cl_ord_id view) RefusedDuplicate repeat
      sequence_number "" ;;
    send_report (rejected_order view id transact_time DuplicateOrder
                   (mk_maybe false ""%string)) sequence_number session repeat ;;
    publish_after_refusal sequence_number source
  else
    order ← on_snd (make_order_id sequence_number);
    added ← on_fst (OrderBook.add mem order_key
                      (entry_of view sequence_number session) sequence_number);
    note_added added ;;
    if negb added then
      send_report (rejected_order view id transact_time OtherReason
          (given "the venue is holding as many open orders as it can"%string))
        sequence_number session repeat ;;
      publish_after_refusal sequence_number source
    else
      (if is_live source then on_snd (emit OrderAccepted) else mret ()) ;;
      groups ← echo_groups view;
      send_report (accepted_order view order id transact_time groups)
        sequence_number session repeat ;;
      publish sequence_number ;;
      order_outcome session (no_cl_ord_id view) OutcomeAccepted repeat
        sequence_number "".

Definition apply_new_order_unguarded (view : NewOrderSingleView)
    (sequence_number transact_time trading_date : Z)
    (session : SessionIdentity.t) (source : CommandSource) : comp state unit :=
  let repeat := repeat_of source in
  before ← not_live_and_applied_before source sequence_number;
  if before : bool then mret ()
  else if negb (ReportIdentifiers.fits sequence_number 0) then
    refuse_to_name sequence_number
  else
    use_trading_date trading_date ;;
    backwards ← live_and_goes_backwards source sequence_number;
    if backwards : bool then
      refuse_out_of_sequence_order view sequence_number transact_time session
    else if (transact_time =? 0) || (trading_date =? 0) then
      refuse_order_without_time view sequence_number transact_time session
        repeat ;;
      publish_after_refusal sequence_number source
    else
      known ← on_snd (gets voids);
      match VoidedCommandList.voiding known sequence_number VoidedNewOrder with
      | Some voided =>
          refuse_voided_order view sequence_number transact_time session voided
            repeat ;;
          publish_after_refusal sequence_number source
      | None =>
          if negb (OrderKey.fits (no_cl_ord_id view)) then
            refuse_over_long_order view sequence_number transact_time session
              repeat ;;
            publish_after_refusal sequence_number source
          else
            id ← on_snd (make_exec_id sequence_number 0);
            halted ← on_fst (gets OrderBook.halted);
            if halted : bool then
              send_report (rejected_order view id transact_time ExchangeClosed
                             (given "trading is halted"%string))
                sequence_number session repeat ;;
              publish_after_refusal sequence_number source
            else
              place_order view sequence_number transact_time session source id
      end.

(** From the lookup of the order the cancel names on. *)
Definition cancel_order (view : OrderCancelRequestView)
    (sequence_number transact_time : Z) (session : SessionIdentity.t)
    (source : CommandSource) (id : string) : comp state unit :=
  let repeat := repeat_of source in
  let orig_key := OrderKey.make session (cr_orig_cl_ord_id view) in
  found ← on_fst (ask (λ b, OrderBook.find b orig_key));
  match found with
  | None =>
      send_report (rejected_cancel view id transact_time UnknownOrder
                     (mk_maybe false ""%string)) sequence_number session repeat ;;
      publish_after_refusal sequence_number source ;;
      order_outcome session (cr_cl_ord_id view) CancelRefusedUnknown repeat
        sequence_number (cr_orig_cl_ord_id view)
  | Some entry =>
      on_fst (OrderBook.remove orig_key) ;;
      note_added true ;;
      order ← on_snd (make_order_id (OrderEntry.placed_at_seq_no entry));
      send_report (cancelled_order entry order id transact_time
                     (cr_cl_ord_id view) (given (cr_orig_cl_ord_id view)))
        sequence_number session repeat ;;
      publish sequence_number ;;
      order_outcome session (cr_cl_ord_id view) OutcomeCancelled repeat
        sequence_number (cr_orig_cl_ord_id view)
  end.

Definition apply_cancel_unguarded (view : OrderCancelRequestView)
    (sequence_number transact_time trading_date : Z)
    (session : SessionIdentity.t) (source : CommandSource) : comp state unit :=
  let repeat := repeat_of source in
  before ← not_live_and_applied_before source sequence_number;
  if before : bool then mret ()
  else if negb (ReportIdentifiers.fits sequence_number 0) then
    refuse_to_name sequence_number
  else
    use_trading_date trading_date ;;
    backwards ← live_and_goes_backwards source sequence_number;
    if backwards : bool then
      refuse_out_of_sequence_cancel view sequence_number transact_time session
    else if (transact_time =? 0) || (trading_date =? 0) then
      refuse_cancel_without_time view sequence_number transact_time session
        repeat ;;
      publish_after_refusal sequence_number source
    else
      known ← on_snd (gets voids);
      match VoidedCommandList.voiding known sequence_number VoidedCancel with
      | Some voided =>
          refuse_voided_cancel view sequence_number transact_time session voided
            repeat ;;
          publish_after_refusal sequence_number source
      | None =>
          if negb (OrderKey.fits (cr_cl_ord_id view))
             || negb (OrderKey.fits (cr_orig_cl_ord_id view)) then
            refuse_over_long_cancel view sequence_number transact_time session
              repeat ;;
            publish_after_refusal sequence_number source
          else
            id ← on_snd (make_exec_id sequence_number 0);
            cancel_order view sequence_number transact_time session source id
      end.

(** [after_failure]: the exception of the rejection itself is caught too. *)
Definition after_failure (sequence_number : Z) (source : CommandSource)
    (send_rejection : comp state unit) : comp state unit :=
  d ← on_snd (gets (λ d, d));
  let untouched := negb (book_changed_by_command d)
                   && (reports_for_command d =? 0) in
  try_catch
    (if untouched then
       send_rejection ;; publish_after_refusal sequence_number source
     else if book_changed_by_command d then publish sequence_number
     else mret ())
    (λ _, mret ()).

Definition apply_new_order (view : NewOrderSingleView)
    (sequence_number transact_time trading_date : Z)
    (session : SessionIdentity.t) (source : CommandSource) : comp state unit :=
  begin_command ;;
  try_catch
    (apply_new_order_unguarded view sequence_number transact_time trading_date
       session source)
    (λ _, after_failure sequence_number source
       (id ← on_snd (make_exec_id sequence_number 0);
        on_snd (emit (SendReport (rejected_order view id transact_time OtherReason
                   (given "Venue could not process the order"%string))
                 sequence_number session (repeat_of source))))).

Definition apply_cancel (view : OrderCancelRequestView)
    (sequence_number transact_time trading_date : Z)
    (session : SessionIdentity.t) (source : CommandSource) : comp state unit :=
  begin_command ;;
  try_catch
    (apply_cancel_unguarded view sequence_number transact_time trading_date
       session source)
    (λ _, after_failure sequence_number source
       (id ← on_snd (make_exec_id sequence_number 0);
        on_snd (emit (SendReport (rejected_cancel view id transact_time OtherReason
                   (given "Venue could not process the cancel. The order is unchanged"%string))
                 sequence_number session (repeat_of source))))).

Inductive VoidLearned := AlreadyKnown | BeforeItsCommands | AfterApplyingSome.

Definition learn_void (voided : VoidedRange) : comp state VoidLearned :=
  added ← on_snd (λ d, let (v, added) := VoidedCommandList.add voided (voids d) in
                       (with_voids d v, Returns added));
  if negb added then mret AlreadyKnown
  else
    known_through ← on_fst (gets OrderBook.voids_known_through);
    if void_seq_no voided <=? known_through then mret AlreadyKnown
    else
      on_fst (OrderBook.set_voids_known_through (void_seq_no voided)) ;;
      highest ← on_snd (gets highest_applied_seq_no);
      if first_seq_no voided <=? highest then mret AfterApplyingSome
      else mret BeforeItsCommands.

Record VoidCommandsApplied := mk_void_applied {
  void_applied : bool;
  learned_too_late : bool
}.

Definition apply_void_commands (view : VoidCommandsView) (sequence_number : Z)
    (source : CommandSource) : comp state VoidCommandsApplied :=
  before ← not_live_and_applied_before source sequence_number;
  if before : bool then mret (mk_void_applied false false)
  else
    backwards ← live_and_goes_backwards source sequence_number;
    if backwards : bool then mret (mk_void_applied false false)
    else
      known ← on_snd (gets voids);
      late ← match VoidedCommandList.at_position known sequence_number with
             | Some _ => mret false
             | None =>
                 learned ← learn_void (mk_voided sequence_number
                             (vc_first_seq_no view) (vc_last_seq_no view)
                             (vc_new_orders_only view) (vc_reason view));
                 mret (if learned is AfterApplyingSome then true else false)
             end;
      publish sequence_number ;;
      mret (mk_void_applied true late).

Record BookCancelledByCommand := mk_book_cancelled {
  applied : bool;
  open_orders : nat;
  reports_sent : nat;
  orders_kept : nat
}.

(** The report of one order the command cancels; [place] is the closure's
    counter. *)
Definition report_cancelled (sequence_number transact_time : Z)
    (repeat : ReportIsRepeat) (entry : OrderEntry.t)
    : comp (Engine * Z) unit :=
  place ← on_snd (gets (λ place : Z, place));
  on_snd (modify (λ place, place + 1)) ;;
  id ← on_fst (make_exec_id sequence_number place);
  order ← on_fst (make_order_id (OrderEntry.placed_at_seq_no entry));
  on_fst (emit (SendReport
    (cancelled_order entry order id transact_time (OrderEntry.cl_ord_id entry)
       (mk_maybe false ""%string))
    0 (OrderEntry.session entry) repeat)).

Definition apply_cancel_book (orders_placed_through sequence_number
    transact_time trading_date : Z) (source : CommandSource)
    : comp state BookCancelledByCommand :=
  let not_applied := mk_book_cancelled false 0 0 0 in
  before ← not_live_and_applied_before source sequence_number;
  if before : bool then mret not_applied
  else if negb (ReportIdentifiers.fits sequence_number 0) then
    refuse_to_name sequence_number ;; mret not_applied
  else
    backwards ← live_and_goes_backwards source sequence_number;
    if backwards : bool then mret not_applied
    else
      use_trading_date trading_date ;;
      open ← on_fst (gets OrderBook.size);
      sent ← (λ s : state,
        let r := OrderBook.remove_placed_through orders_placed_through
                   (report_cancelled sequence_number transact_time
                      (repeat_of source)) (s.1, (s.2, 0)) in
        ((r.1.1, r.1.2.1), r.2));
      kept ← on_fst (gets OrderBook.size);
      publish sequence_number ;;
      mret (mk_book_cancelled true open sent kept).

Record TechnicalEventApplied := mk_event_applied {
  event_applied : bool;
  halt_changed : bool
}.

Definition apply_technical_event (view : TechnicalEventView)
    (sequence_number trading_date : Z) (source : CommandSource)
    : comp state TechnicalEventApplied :=
  before ← not_live_and_applied_before source sequence_number;
  if before : bool then mret (mk_event_applied false false)
  else
    backwards ← live_and_goes_backwards source sequence_number;
    if backwards : bool then mret (mk_event_applied false false)
    else if te_trading_day view <? trading_date then
      publish sequence_number ;;
      mret (mk_event_applied false false)
    else
      halted ← on_fst (gets OrderBook.halted);
      set_halted (te_halted view) ;;
      publish sequence_number ;;
      mret (mk_event_applied true (negb (Bool.eqb (te_halted view) halted))).

End engine.

End MatchingEngine.
