(* ===== verification/MatchingEngineRefinement.v ===== *)
(** What the matching engine promises, and that its state machine keeps it.

    [Venue] is the abstract state: the open orders as a finite map, whether
    trading is halted, the voids, and the highest position applied.  For each
    command [spec_*] says, with no region, no map of slots, no cipher state and
    no arena, what becomes of the venue and what is sent to members.  The
    refinement theorems show that the state machine of MatchingEngine.v,
    running on the book of OrderBook.v, does that, on every branch, when no
    allocation, no call of OpenSSL and no call of the outputs interface fails.

    The theorems on whole sequences of commands then follow: an engine that
    applies commands as they arrive and one that applies them while catching up
    end with the same orders and tell the members the same, and a catch-up that
    was cut short can be started again. *)

From Stdlib Require Import Ascii.
From stdpp Require Import sorting.
From S2P Require Import Prelude KeyIndex SlotStore OrderBook Identifiers.
From S2P Require Import VoidedCommands GroupEcho MatchingEngine.
Import MatchingEngine.
#[local] Open Scope Z_scope.

(** ** The abstract venue *)

Record Venue := mk_venue {
  v_orders : gmap OrderKey.t OrderEntry.t;
  v_halted : bool;
  v_known_through : Z;
  v_capacity : Z;
  v_highest : Z;
  v_voids : VoidedCommandList.t;
  v_date : Z
}.

Definition v_with_orders (v : Venue) m :=
  mk_venue m (v_halted v) (v_known_through v) (v_capacity v) (v_highest v)
    (v_voids v) (v_date v).
Definition v_with_halted (v : Venue) h :=
  mk_venue (v_orders v) h (v_known_through v) (v_capacity v) (v_highest v)
    (v_voids v) (v_date v).
Definition v_with_highest (v : Venue) n :=
  mk_venue (v_orders v) (v_halted v) (v_known_through v) (v_capacity v) n
    (v_voids v) (v_date v).
Definition v_with_date (v : Venue) n :=
  mk_venue (v_orders v) (v_halted v) (v_known_through v) (v_capacity v)
    (v_highest v) (v_voids v) n.
Definition v_with_voids (v : Venue) known l :=
  mk_venue (v_orders v) (v_halted v) known (v_capacity v) (v_highest v) l
    (v_date v).

Section names.
Context (aes : list Z → outcome (list Z → outcome (list Z))).
Context (hmac : list Z → string → outcome (list Z)).
Context (secret : list Z).

(** The identifiers' state once a date is in use: it depends on nothing else. *)
Definition keys_for (date : Z) : ReportIdentifiers.t :=
  (ReportIdentifiers.use_trading_date aes hmac date
     (ReportIdentifiers.make_identifiers secret)).1.

Definition report_name (date seq place : Z) : string :=
  match ReportIdentifiers.exec_id (keys_for date) seq place with
  | Returns l => text_of l
  | Throws _ => ""
  end.

Definition order_name (date seq : Z) : string :=
  match ReportIdentifiers.order_id (keys_for date) seq with
  | Returns l => text_of l
  | Throws _ => ""
  end.

(** What becomes of a new order the venue looks at. *)
Inductive OrderVerdict :=
  | OrderNoTime | OrderVoided (by_void : VoidedRange) | OrderTooLong
  | OrderHalted | OrderDuplicate | OrderBookFull | OrderTaken.

Definition order_verdict (v : Venue) (view : NewOrderSingleView)
    (seq time date : Z) (session : SessionIdentity.t) : OrderVerdict :=
  if (time =? 0) || (date =? 0) then OrderNoTime
  else
    match VoidedCommandList.voiding (v_voids v) seq VoidedNewOrder with
    | Some by_void => OrderVoided by_void
    | None =>
        if negb (OrderKey.fits (no_cl_ord_id view)) then OrderTooLong
        else if v_halted v then OrderHalted
        else match v_orders v !! OrderKey.make session (no_cl_ord_id view) with
             | Some _ => OrderDuplicate
             | None => if v_capacity v <=? Z.of_nat (size (v_orders v))
                       then OrderBookFull else OrderTaken
             end
    end.

(** The one report the verdict is told with. *)
Definition order_report (verdict : OrderVerdict) (view : NewOrderSingleView)
    (seq time date : Z) : ExecutionReport :=
  let id := report_name date seq 0 in
  match verdict with
  | OrderNoTime =>
      rejected_order view id time OtherReason (given (no_time_text time))
  | OrderVoided by_void =>
      rejected_order view id time (voided_order_reason (void_reason by_void))
        (given (voided_order_text (void_reason by_void)))
  | OrderTooLong =>
      rejected_order view id time OtherReason (given (too_long_text "ClOrdID"))
  | OrderHalted =>
      rejected_order view id time ExchangeClosed (given "trading is halted"%string)
  | OrderDuplicate =>
      rejected_order view id time DuplicateOrder (mk_maybe false ""%string)
  | OrderBookFull =>
      rejected_order view id time OtherReason
        (given "the venue is holding as many open orders as it can"%string)
  | OrderTaken =>
      accepted_order view (order_name date seq) id time
        (no_underlyings view, no_party_i_ds view)
  end.

(** The calls of the outputs interface: the report, and what is noted beside
    it. *)
Definition order_outputs (verdict : OrderVerdict) (view : NewOrderSingleView)
    (seq time date : Z) (session : SessionIdentity.t) (source : CommandSource)
    : list Output :=
  let report := SendReport (order_report verdict view seq time date) seq session
                  (repeat_of source) in
  let note kind := OrderOutcome session (no_cl_ord_id view) kind
                     (repeat_of source) seq "" in
  match verdict with
  | OrderNoTime | OrderHalted | OrderBookFull => [report]
  | OrderVoided _ => [note RefusedVoided; report]
  | OrderTooLong => [note RefusedTooLong; report]
  | OrderDuplicate => [note RefusedDuplicate; report]
  | OrderTaken => (if is_live source then [OrderAccepted] else [])
                  ++ [report; note OutcomeAccepted]
  end.

Definition place (v : Venue) (verdict : OrderVerdict)
    (view : NewOrderSingleView) (seq : Z) (session : SessionIdentity.t)
    : Venue :=
  match verdict with
  | OrderTaken =>
      let k := OrderKey.make session (no_cl_ord_id view) in
      v_with_orders v
        (<[k := OrderEntry.file_under k (entry_of view seq session)]> (v_orders v))
  | _ => v
  end.

(** A command that is not looked at: one the engine has applied already, and
    one no identifier can be made for, which halts trading. *)
Inductive Arrival := SeenBefore | Unnameable | OutOfSequence | Fresh.

Definition arrival (v : Venue) (seq : Z) (source : CommandSource) : Arrival :=
  if negb (is_live source) && (seq <=? v_highest v) then SeenBefore
  else if negb (ReportIdentifiers.fits seq 0) then Unnameable
  else if is_live source && (seq <=? v_highest v) then OutOfSequence
  else Fresh.

Definition unnameable (v : Venue) (seq : Z) (source : CommandSource) : Venue :=
  v_with_halted (if is_live source then v else v_with_highest v seq) true.

Definition spec_new_order (v : Venue) (view : NewOrderSingleView)
    (seq time date : Z) (session : SessionIdentity.t) (source : CommandSource)
    : Venue * list Output :=
  match arrival v seq source with
  | SeenBefore => (v, [])
  | Unnameable => (unnameable v seq source, [])
  | OutOfSequence =>
      (v_with_date v date,
       [SendReport (rejected_order view (report_name date seq 0) time OtherReason
          (given "Venue could not process the order: it arrived out of sequence"%string))
          seq session RepeatNo])
  | Fresh =>
      let v := v_with_date (v_with_highest v seq) date in
      let verdict := order_verdict v view seq time date session in
      (place v verdict view seq session,
       order_outputs verdict view seq time date session source)
  end.

(** What becomes of a cancel. *)
Inductive CancelVerdict :=
  | CancelNoTime
  | CancelVoided (by_void : VoidedRange) (found : option OrderEntry.t)
  | CancelTooLong | CancelUnknown | CancelTaken (entry : OrderEntry.t).

Definition cancel_verdict (v : Venue) (view : OrderCancelRequestView)
    (seq time date : Z) (session : SessionIdentity.t) : CancelVerdict :=
  let key := OrderKey.make session (cr_orig_cl_ord_id view) in
  if (time =? 0) || (date =? 0) then CancelNoTime
  else
    match VoidedCommandList.voiding (v_voids v) seq VoidedCancel with
    | Some by_void =>
        CancelVoided by_void (if OrderKey.fits (cr_orig_cl_ord_id view)
                              then v_orders v !! key else None)
    | None =>
        if negb (OrderKey.fits (cr_cl_ord_id view))
           || negb (OrderKey.fits (cr_orig_cl_ord_id view)) then CancelTooLong
        else match v_orders v !! key with
             | None => CancelUnknown
             | Some entry => CancelTaken entry
             end
    end.

Definition cancel_report (verdict : CancelVerdict)
    (view : OrderCancelRequestView) (seq time date : Z) : ExecutionReport :=
  let id := report_name date seq 0 in
  match verdict with
  | CancelNoTime =>
      rejected_cancel view id time OtherReason (given (no_time_cancel_text time))
  | CancelVoided by_void found =>
      voided_cancel_report view id time by_void
        ((λ e, (e, order_name date (OrderEntry.placed_at_seq_no e))) <$> found)
  | CancelTooLong =>
      rejected_cancel view id time OtherReason
        (given (too_long_text (if OrderKey.fits (cr_orig_cl_ord_id view)
                               then "ClOrdID" else "OrigClOrdID")))
  | CancelUnknown =>
      rejected_cancel view id time UnknownOrder (mk_maybe false ""%string)
  | CancelTaken entry =>
      cancelled_order entry (order_name date (OrderEntry.placed_at_seq_no entry))
        id time (cr_cl_ord_id view) (given (cr_orig_cl_ord_id view))
  end.

Definition cancel_outputs (verdict : CancelVerdict)
    (view : OrderCancelRequestView) (seq time date : Z)
    (session : SessionIdentity.t) (source : CommandSource) : list Output :=
  let report := SendReport (cancel_report verdict view seq time date) seq session
                  (repeat_of source) in
  let note kind := OrderOutcome session (cr_cl_ord_id view) kind
                     (repeat_of source) seq (cr_orig_cl_ord_id view) in
  match verdict with
  | CancelNoTime => [report]
  | CancelVoided _ _ => [note CancelRefusedVoided; report]
  | CancelTooLong => [note CancelRefusedTooLong; report]
  | CancelUnknown => [report; note CancelRefusedUnknown]
  | CancelTaken _ => [report; note OutcomeCancelled]
  end.

Definition take_off (v : Venue) (verdict : CancelVerdict)
    (view : OrderCancelRequestView) (session : SessionIdentity.t) : Venue :=
  match verdict with
  | CancelTaken _ =>
      v_with_orders v
        (delete (OrderKey.make session (cr_orig_cl_ord_id view)) (v_orders v))
  | _ => v
  end.

Definition spec_cancel (v : Venue) (view : OrderCancelRequestView)
    (seq time date : Z) (session : SessionIdentity.t) (source : CommandSource)
    : Venue * list Output :=
  match arrival v seq source with
  | SeenBefore => (v, [])
  | Unnameable => (unnameable v seq source, [])
  | OutOfSequence =>
      (v_with_date v date,
       [SendReport (rejected_cancel view (report_name date seq 0) time OtherReason
          (given "Venue could not process the cancel: it arrived out of sequence. The order is unchanged"%string))
          seq session RepeatNo])
  | Fresh =>
      let v := v_with_date (v_with_highest v seq) date in
      let verdict := cancel_verdict v view seq time date session in
      (take_off v verdict view session,
       cancel_outputs verdict view seq time date session source)
  end.

(** The orders a cancel of the book takes off, in the order they were placed. *)
#[local] Instance earlier_dec : RelDecision earlier.
Proof. intros e e'. unfold earlier. apply _. Defined.

Definition placed_through (m : gmap OrderKey.t OrderEntry.t) (p : Z)
    : list OrderEntry.t :=
  merge_sort earlier
    (filter (λ e, OrderEntry.placed_at_seq_no e ≤ p) (map_to_list m).*2).

Definition placed_after (m : gmap OrderKey.t OrderEntry.t) (p : Z)
    : gmap OrderKey.t OrderEntry.t :=
  filter (λ ke, p < OrderEntry.placed_at_seq_no ke.2) m.

Definition book_cancel_output (seq time date : Z) (source : CommandSource)
    (i : nat) (e : OrderEntry.t) : Output :=
  SendReport
    (cancelled_order e (order_name date (OrderEntry.placed_at_seq_no e))
       (report_name date seq (Z.of_nat i)) time (OrderEntry.cl_ord_id e)
       (mk_maybe false ""%string))
    0 (OrderEntry.session e) (repeat_of source).

Definition spec_cancel_book (v : Venue) (through seq time date : Z)
    (source : CommandSource)
    : Venue * list Output * BookCancelledByCommand :=
  match arrival v seq source with
  | SeenBefore | OutOfSequence => (v, [], mk_book_cancelled false 0 0 0)
  | Unnameable => (unnameable v seq source, [], mk_book_cancelled false 0 0 0)
  | Fresh =>
      let es := placed_through (v_orders v) through in
      let kept := placed_after (v_orders v) through in
      (v_with_orders (v_with_date (v_with_highest v seq) date) kept,
       imap (book_cancel_output seq time date source) es,
       mk_book_cancelled true (size (v_orders v)) (length es) (size kept))
  end.

End names.

Definition spec_technical_event (v : Venue) (view : TechnicalEventView)
    (seq date : Z) : Venue * TechnicalEventApplied :=
  if seq <=? v_highest v then (v, mk_event_applied false false)
  else
    let v := v_with_highest v seq in
    if te_trading_day view <? date then (v, mk_event_applied false false)
    else (v_with_halted v (te_halted view),
          mk_event_applied true (negb (Bool.eqb (te_halted view) (v_halted v)))).

Definition spec_learn_void (v : Venue) (voided : VoidedRange)
    : Venue * VoidLearned :=
  match VoidedCommandList.add voided (v_voids v) with
  | (_, false) => (v, AlreadyKnown)
  | (l, true) =>
      if void_seq_no voided <=? v_known_through v
      then (v_with_voids v (v_known_through v) l, AlreadyKnown)
      else (v_with_voids v (void_seq_no voided) l,
            if first_seq_no voided <=? v_highest v then AfterApplyingSome
            else BeforeItsCommands)
  end.

Definition spec_void_commands (v : Venue) (view : VoidCommandsView) (seq : Z)
    : Venue * VoidCommandsApplied :=
  if seq <=? v_highest v then (v, mk_void_applied false false)
  else
    let v := v_with_highest v seq in
    match VoidedCommandList.at_position (v_voids v) seq with
    | Some _ => (v, mk_void_applied true false)
    | None =>
        let (v, learned) := spec_learn_void v
          (mk_voided seq (vc_first_seq_no view) (vc_last_seq_no view)
             (vc_new_orders_only view) (vc_reason view)) in
        (v, mk_void_applied true
              (if learned is AfterApplyingSome then true else false))
    end.

(** ** The engine refines the venue *)

Section refinement.
Context {I : Type} `{KI : KeyIndex I OrderKey.t Z}.
Context {KL : KeyIndexLaws I OrderKey.t Z} `{Payload OrderEntry.t}.
Context (entry_size : Z).
Context (aes : list Z → outcome (list Z → outcome (list Z))).
Context (hmac : list Z → string → outcome (list Z)).
Context (secret : list Z) (mem : nat → bool) (arena_mem : Z → bool).
Context (layouts : Layouts) (output_throws : list Output → Output → option exn).

(** Nothing the engine calls fails: OpenSSL gives digests of 32 bytes and sets
    up ciphers that encrypt, memory is there, the outputs interface takes what
    it is given.  The generated types have a size and an alignment. *)
Record nothing_fails : Prop := {
  nf_hmac : ∀ k t, ∃ digest, hmac k t = Returns digest ∧ length digest = 32%nat;
  nf_aes : ∀ k, length k = 32%nat → ∃ c, aes k = Returns c ∧ never_fails c;
  nf_mem : ∀ n, mem n = true;
  nf_arena : ∀ n, arena_mem n = true;
  nf_outputs : ∀ before o, output_throws before o = None;
  nf_layouts : layout_ok (of_underlyings layouts) ∧
               layout_ok (of_party_ids layouts) ∧
               layout_ok (of_party_sub_ids layouts)
}.

Abbreviation state := (OrderBook.t I * Engine)%type.
Abbreviation keys_for := (keys_for aes hmac secret).
Abbreviation report_name := (report_name aes hmac secret).
Abbreviation order_name := (order_name aes hmac secret).

(** The state of an engine stands for a venue, and it has made these outputs:
    the book is one in use, and holds the venue's orders. *)
Record refines (s : state) (v : Venue) (o : list Output) : Prop := {
  rf_book : ∃ r fl, use_inv entry_size s.1 r fl;
  rf_orders : orders s.1 = v_orders v;
  rf_halted : OrderBook.halted s.1 = v_halted v;
  rf_known : OrderBook.voids_known_through s.1 = v_known_through v;
  rf_capacity : OrderBook.region_capacity s.1 = v_capacity v;
  rf_highest : highest_applied_seq_no s.2 = v_highest v;
  rf_voids : voids s.2 = v_voids v;
  rf_keys : identifiers s.2 = keys_for (v_date v);
  rf_arena : GroupEcho.initial_er_group_arena_size ≤ er_group_arena_size s.2;
  rf_outputs : outputs s.2 = o
}.

(** [m] takes an engine that stands for [v] to one that stands for [v'], makes
    the outputs [o], and returns [a]. *)
Definition runs {A} (m : comp state A) (v v' : Venue) (o : list Output) (a : A)
    : Prop :=
  ∀ s before, refines s v before →
    ∃ s', m s = (s', Returns a) ∧ refines s' v' (before ++ o).

Lemma runs_ret {A} (a : A) v : runs (mret a) v v [] a.
Proof. intros s before Hs. exists s. by rewrite app_nil_r. Qed.

Lemma runs_bind {A B} (m : comp state A) (f : A → comp state B) v v1 v2 o1 o2 a b :
  runs m v v1 o1 a → runs (f a) v1 v2 o2 b → runs (m ≫= f) v v2 (o1 ++ o2) b.
Proof.
  intros Hm Hf s before Hs. destruct (Hm s before Hs) as (s1 & Hr & H1).
  destruct (Hf s1 _ H1) as (s2 & Hr2 & H2). exists s2.
  rewrite (bind_returns _ _ _ _ _ Hr), app_assoc. done.
Qed.

(** A step that makes no output. *)
Lemma runs_then {A B} (m : comp state A) (f : A → comp state B) v v1 v2 o a b :
  runs m v v1 [] a → runs (f a) v1 v2 o b → runs (m ≫= f) v v2 o b.
Proof. apply (runs_bind m f v v1 v2 [] o a b). Qed.

(** The last step of a sequence makes none. *)
Lemma runs_after {A B} (m : comp state A) (f : A → comp state B) v v1 v2 o a b :
  runs m v v1 o a → runs (f a) v1 v2 [] b → runs (m ≫= f) v v2 o b.
Proof. rewrite <- (app_nil_r o) at 2. apply runs_bind. Qed.

(** *** The steps *)

Lemma runs_begin v : runs begin_command v v [] ().
Proof. intros [b d] before [??????????]. eexists. split; [reflexivity|].
  rewrite app_nil_r. by split. Qed.

Lemma runs_note_added added v : runs (note_added added) v v [] ().
Proof. intros [b d] before [??????????]. eexists. split; [reflexivity|].
  rewrite app_nil_r. by split. Qed.

Context (NF : nothing_fails).

Lemma runs_emit o v : runs (on_snd (emit output_throws o)) v v [o] ().
Proof using NF.
  intros [b d] before [????????? Ho]. unfold on_snd, emit. simpl in *.
  rewrite (nf_outputs NF). eexists. split; [reflexivity|]. split; try done.
  simpl. by rewrite Ho.
Qed.

Lemma runs_send er seq session repeat v :
  runs (send_report output_throws er seq session repeat) v v
    [SendReport er seq session repeat] ().
Proof using NF.
  eapply runs_after; [apply runs_emit|].
  intros [b d] before [??????????]. eexists. split; [reflexivity|].
  rewrite app_nil_r. by split.
Qed.

Lemma runs_outcome session cl kind repeat seq orig v :
  runs (order_outcome output_throws session cl kind repeat seq orig) v v
    [OrderOutcome session cl kind repeat seq orig] ().
Proof using NF. apply runs_emit. Qed.

(** A question the state answers. *)
Lemma runs_ask {A} (f : state → outcome A) v a :
  (∀ s before, refines s v before → f s = Returns a) → runs (ask f) v v [] a.
Proof.
  intros Hf s before Hs. exists s. unfold ask. rewrite (Hf s before Hs), app_nil_r. done.
Qed.

Lemma runs_voids v : runs (on_snd (gets voids)) v v [] (v_voids v).
Proof.
  intros [b d] before Hs. eexists. split; [unfold on_snd, gets; simpl|].
  - by rewrite <- (rf_voids _ _ _ Hs).
  - by rewrite app_nil_r.
Qed.

Lemma runs_halted v : runs (on_fst (gets OrderBook.halted)) v v [] (v_halted v).
Proof.
  intros [b d] before Hs. eexists. split; [unfold on_fst, gets; simpl|].
  - by rewrite <- (rf_halted _ _ _ Hs).
  - by rewrite app_nil_r.
Qed.

Lemma runs_known v :
  runs (on_fst (gets OrderBook.voids_known_through)) v v [] (v_known_through v).
Proof.
  intros [b d] before Hs. eexists. split; [unfold on_fst, gets; simpl|].
  - by rewrite <- (rf_known _ _ _ Hs).
  - by rewrite app_nil_r.
Qed.

Lemma runs_highest v : runs (on_snd (gets highest_applied_seq_no)) v v [] (v_highest v).
Proof.
  intros [b d] before Hs. eexists. split; [unfold on_snd, gets; simpl|].
  - by rewrite <- (rf_highest _ _ _ Hs).
  - by rewrite app_nil_r.
Qed.

Lemma runs_size v : runs (on_fst (gets OrderBook.size)) v v [] (size (v_orders v)).
Proof.
  intros [b d] before Hs. destruct (rf_book _ _ _ Hs) as (r & fl & Hu).
  eexists. split; [unfold on_fst, gets; simpl|].
  - rewrite <- (rf_orders _ _ _ Hs). simpl.
    by rewrite (size_orders b r fl (ui_ok _ _ _ _ Hu)).
  - by rewrite app_nil_r.
Qed.

(** *** Positions and names *)

Lemma runs_applied_before source seq v :
  runs (not_live_and_applied_before source seq) v
    (if negb (is_live source) && (v_highest v <? seq) then v_with_highest v seq else v)
    [] (negb (is_live source) && (seq <=? v_highest v)).
Proof.
  intros [b d] before Hs. pose proof (rf_highest _ _ _ Hs) as Hh. simpl in Hh.
  unfold not_live_and_applied_before. destruct (is_live source); cbn [negb andb].
  { exists (b, d). by rewrite app_nil_r. }
  unfold applied_before, on_snd. simpl. rewrite Hh, Z.leb_antisym.
  destruct (v_highest v <? seq); cbn [negb]; eexists; (split; [reflexivity|]);
    rewrite app_nil_r; [destruct Hs; by split|done].
Qed.

Lemma runs_goes_backwards source seq v :
  runs (live_and_goes_backwards source seq) v
    (if is_live source && (v_highest v <? seq) then v_with_highest v seq else v)
    [] (is_live source && (seq <=? v_highest v)).
Proof.
  intros [b d] before Hs. pose proof (rf_highest _ _ _ Hs) as Hh. simpl in Hh.
  unfold live_and_goes_backwards. destruct (is_live source); cbn [andb].
  2:{ exists (b, d). by rewrite app_nil_r. }
  unfold sequence_goes_backwards, on_snd. simpl. rewrite Hh, Z.leb_antisym.
  destruct (v_highest v <? seq); cbn [negb]; eexists; (split; [reflexivity|]);
    rewrite app_nil_r; [destruct Hs; by split|done].
Qed.

(** The keys of a date depend only on the date and the secret. *)
Lemma keys_of_date date :
  date ≠ -1 →
  ∃ oc rc, never_fails oc ∧ never_fails rc ∧
    (∀ d0, ReportIdentifiers.secret d0 = secret →
       ReportIdentifiers.trading_date d0 ≠ date →
       ReportIdentifiers.use_trading_date aes hmac date d0
         = (ReportIdentifiers.mk secret date (Some oc) (Some rc), Returns ())) ∧
    keys_for date = ReportIdentifiers.mk secret date (Some oc) (Some rc).
Proof using NF.
  intros Hd. destruct (nf_hmac NF secret (ReportIdentifiers.trading_date_text date))
    as (day & Hday & _).
  destruct (nf_hmac NF day "OrderID") as (ok & Hok & Hlo).
  destruct (nf_hmac NF day "ExecID") as (rk & Hrk & Hlr).
  destruct (nf_aes NF ok Hlo) as (oc & Hoc & Hno).
  destruct (nf_aes NF rk Hlr) as (rc & Hrc & Hnr).
  exists oc, rc. split; [done|]. split; [done|].
  assert (∀ d0, ReportIdentifiers.secret d0 = secret →
       ReportIdentifiers.trading_date d0 ≠ date →
       ReportIdentifiers.use_trading_date aes hmac date d0
         = (ReportIdentifiers.mk secret date (Some oc) (Some rc), Returns ())) as Huse.
  { intros d0 Hs Ht. unfold ReportIdentifiers.use_trading_date.
    destruct (Z.eqb_spec date (ReportIdentifiers.trading_date d0)); [done|].
    rewrite Hs, Hday. cbn [obind]. rewrite Hok, Hrk. cbn [obind].
    unfold Ff1.make. rewrite Hlo, Hlr. cbn. by rewrite Hoc, Hrc. }
  split; [done|]. unfold MatchingEngineRefinement.keys_for.
  rewrite Huse; [done|done|]. simpl. done.
Qed.

Lemma keys_secret date : ReportIdentifiers.secret (keys_for date) = secret.
Proof using NF.
  destruct (decide (date = -1)) as [-> |Hd].
  - reflexivity.
  - destruct (keys_of_date date Hd) as (oc & rc & _ & _ & _ & ->). done.
Qed.

Lemma keys_date date : ReportIdentifiers.trading_date (keys_for date) = date.
Proof using NF.
  destruct (decide (date = -1)) as [-> |Hd].
  - reflexivity.
  - destruct (keys_of_date date Hd) as (oc & rc & _ & _ & _ & ->). done.
Qed.

Lemma runs_use_trading_date date v :
  date ≠ -1 → runs (use_trading_date aes hmac date) v (v_with_date v date) [] ().
Proof using NF.
  intros Hd [b d] before Hs. pose proof (rf_keys _ _ _ Hs) as Hk. simpl in Hk.
  assert (ReportIdentifiers.use_trading_date aes hmac date (identifiers d)
          = (keys_for date, Returns ())) as Hu.
  { rewrite Hk. destruct (decide (v_date v = date)) as [<-|Hne].
    - unfold ReportIdentifiers.use_trading_date. by rewrite keys_date, Z.eqb_refl.
    - destruct (keys_of_date date Hd) as (oc & rc & _ & _ & Huse & ->).
      apply Huse; [apply keys_secret|by rewrite keys_date]. }
  unfold use_trading_date, on_snd. simpl. rewrite Hu. eexists. split; [reflexivity|].
  rewrite app_nil_r. destruct Hs. by split.
Qed.

Lemma runs_exec_id seq place v :
  v_date v ≠ -1 → ReportIdentifiers.fits seq place = true →
  ∀ d, identifiers d = keys_for (v_date v) →
  make_exec_id seq place d = (d, Returns (report_name (v_date v) seq place)).
Proof using NF.
  intros Hd Hf d Hk. unfold make_exec_id, ask.
  unfold MatchingEngineRefinement.report_name. rewrite Hk.
  destruct (keys_of_date _ Hd) as (oc & rc & _ & Hnr & _ & ->).
  unfold ReportIdentifiers.exec_id. cbn.
  destruct (make_undone "E" rc seq place Hnr Hf) as (l & -> & _). done.
Qed.

Lemma runs_order_id seq v :
  v_date v ≠ -1 → ReportIdentifiers.fits seq 0 = true →
  ∀ d, identifiers d = keys_for (v_date v) →
  make_order_id seq d = (d, Returns (order_name (v_date v) seq)).
Proof using NF.
  intros Hd Hf d Hk. unfold make_order_id, ask.
  unfold MatchingEngineRefinement.order_name. rewrite Hk.
  destruct (keys_of_date _ Hd) as (oc & rc & Hno & _ & _ & ->).
  unfold ReportIdentifiers.order_id. cbn.
  destruct (make_undone "O" oc seq 0 Hno Hf) as (l & -> & _). done.
Qed.

Lemma runs_make_exec_id seq place v :
  v_date v ≠ -1 → ReportIdentifiers.fits seq place = true →
  runs (on_snd (make_exec_id seq place)) v v [] (report_name (v_date v) seq place).
Proof using NF.
  intros Hd Hf [b d] before Hs. exists (b, d). unfold on_snd.
  rewrite (runs_exec_id seq place v Hd Hf _ (rf_keys _ _ _ Hs)), app_nil_r. done.
Qed.

Lemma runs_make_order_id seq v :
  v_date v ≠ -1 → ReportIdentifiers.fits seq 0 = true →
  runs (on_snd (make_order_id seq)) v v [] (order_name (v_date v) seq).
Proof using NF.
  intros Hd Hf [b d] before Hs. exists (b, d). unfold on_snd.
  rewrite (runs_order_id seq v Hd Hf _ (rf_keys _ _ _ Hs)), app_nil_r. done.
Qed.

(** *** The book *)

(** The book is replaced by one whose region has the same shape. *)
Lemma refines_new_book b d v before b' r r' fl fl' m h k :
  refines (b, d) v before → use_inv entry_size b r fl →
  use_inv entry_size b' r' fl' → same_shape r r' →
  orders b' = m → OrderBook.halted b' = h → OrderBook.voids_known_through b' = k →
  refines (b', d)
    (mk_venue m h k (v_capacity v) (v_highest v) (v_voids v) (v_date v)) before.
Proof.
  intros Hs Hu Hu' (_ & _ & _ & Hc & _) <- <- <-. destruct Hs. split; simpl in *; try done.
  - by exists r', fl'.
  - rewrite (capacity_header b' r' fl' (ui_ok _ _ _ _ Hu')), Hc.
    by rewrite <- (capacity_header b r fl (ui_ok _ _ _ _ Hu)).
Qed.

Lemma owner_values_length b r fl :
  use_inv entry_size b r fl → length (SlotStore.owner_values r) = 4%nat.
Proof.
  intros Hu. apply (mapped_owner _ _ (bk_mapped _ _ _ (ui_ok _ _ _ _ Hu))).
Qed.

Lemma beside_shape (b b' : OrderBook.t I) r r' :
  beside b r b' r' → same_shape r r'.
Proof. intros (_ & _ & _ & ? & ? & ? & ? & ? & ? & ?). done. Qed.

Lemma runs_publish seq v : runs (publish seq) v v [] ().
Proof.
  intros [b d] before Hs. destruct (rf_book _ _ _ Hs) as (r & fl & Hu). simpl in Hu.
  destruct (publish_ok b r fl seq (ui_ok _ _ _ _ Hu))
    as (b' & r' & Hp & Hb' & Ho & Hh & Hk & _ & _ & Hsh & Hov).
  exists (b', d). unfold publish, on_fst. simpl. rewrite Hp, app_nil_r. split; [done|].
  replace v with (mk_venue (v_orders v) (v_halted v) (v_known_through v) (v_capacity v)
    (v_highest v) (v_voids v) (v_date v)) by (by destruct v).
  apply (refines_new_book b d v before b' r r' fl fl); try done.
  - eapply use_inv_values; try done; rewrite Hov, ?Hh, ?Hk; apply Hu.
  - rewrite Ho. apply Hs.
  - rewrite Hh. apply Hs.
  - rewrite Hk. apply Hs.
Qed.

Lemma runs_publish_after_refusal seq source v :
  runs (publish_after_refusal seq source) v v [] ().
Proof. destruct source; [apply runs_ret|apply runs_publish]. Qed.

Lemma runs_set_halted h v : runs (set_halted h) v (v_with_halted v h) [] ().
Proof.
  unfold set_halted. eapply runs_then; [apply runs_halted|]. cbv beta.
  destruct (Bool.eqb_spec h (v_halted v)) as [-> |Hne].
  { destruct v. apply runs_ret. }
  intros [b d] before Hs. destruct (rf_book _ _ _ Hs) as (r & fl & Hu). simpl in Hu.
  destruct (set_halted_ok b r fl h (ui_ok _ _ _ _ Hu))
    as (b' & r' & Hp & Hb' & Ho & Hh & Hk & _ & _ & Hsh & Hov).
  exists (b', d). unfold on_fst. simpl. rewrite Hp, app_nil_r. split; [done|].
  pose proof (owner_values_length _ _ _ Hu).
  apply (refines_new_book b d v before b' r r' fl fl); try done.
  - eapply use_inv_values; try done; rewrite Hov.
    + rewrite Hh. apply list_lookup_insert_eq. lia.
    + rewrite Hk, list_lookup_insert_ne by lia. apply Hu.
  - rewrite Ho. apply Hs.
  - rewrite Hk. apply Hs.
Qed.

Lemma runs_set_voids n v :
  runs (on_fst (OrderBook.set_voids_known_through n)) v
    (v_with_voids v n (v_voids v)) [] ().
Proof.
  intros [b d] before Hs. destruct (rf_book _ _ _ Hs) as (r & fl & Hu). simpl in Hu.
  destruct (set_voids_known_through_ok b r fl n (ui_ok _ _ _ _ Hu))
    as (b' & r' & Hp & Hb' & Ho & Hh & Hk & _ & _ & Hsh & Hov).
  exists (b', d). unfold on_fst. simpl. rewrite Hp, app_nil_r. split; [done|].
  pose proof (owner_values_length _ _ _ Hu).
  apply (refines_new_book b d v before b' r r' fl fl); try done.
  - eapply use_inv_values; try done; rewrite Hov.
    + rewrite Hh, list_lookup_insert_ne by lia. apply Hu.
    + rewrite Hk. apply list_lookup_insert_eq. lia.
  - rewrite Ho. apply Hs.
  - rewrite Hh. apply Hs.
Qed.

Lemma runs_contains k v :
  runs (on_fst (ask (λ b, OrderBook.contains b k))) v v []
    (if v_orders v !! k is Some _ then true else false).
Proof.
  intros [b d] before Hs. destruct (rf_book _ _ _ Hs) as (r & fl & Hu). simpl in Hu.
  exists (b, d). unfold on_fst, ask. simpl.
  rewrite (contains_orders b r fl k (ui_ok _ _ _ _ Hu)), app_nil_r.
  by rewrite <- (rf_orders _ _ _ Hs).
Qed.

Lemma runs_find k v :
  runs (on_fst (ask (λ b, OrderBook.find b k))) v v [] (v_orders v !! k).
Proof.
  intros [b d] before Hs. destruct (rf_book _ _ _ Hs) as (r & fl & Hu). simpl in Hu.
  exists (b, d). unfold on_fst, ask. simpl.
  rewrite (find_orders b r fl k (ui_ok _ _ _ _ Hu)), app_nil_r.
  by rewrite <- (rf_orders _ _ _ Hs).
Qed.

Lemma runs_remove k v :
  runs (on_fst (OrderBook.remove k)) v (v_with_orders v (delete k (v_orders v))) []
    (if v_orders v !! k is Some _ then true else false).
Proof.
  intros [b d] before Hs. destruct (rf_book _ _ _ Hs) as (r & fl & Hu). simpl in Hu.
  pose proof (rf_orders _ _ _ Hs) as Ho. simpl in Ho.
  destruct (remove_ok b r fl k (ui_ok _ _ _ _ Hu))
    as (b' & r' & fl' & Hr & Hb' & Hbes & Ho').
  exists (b', d). unfold on_fst. simpl. rewrite Hr, app_nil_r, Ho. split; [done|].
  pose proof (proj1 Hbes) as Hh. pose proof (proj1 (proj2 Hbes)) as Hk.
  apply (refines_new_book b d v before b' r r' fl fl'); try done.
  - by eapply use_inv_beside.
  - by eapply beside_shape.
  - by rewrite Ho', Ho.
  - rewrite Hh. apply Hs.
  - rewrite Hk. apply Hs.
Qed.

(** Adding an order whose key is not on the book. *)
Lemma runs_add k e seq v :
  key_wf k → v_orders v !! k = None → seq = OrderEntry.placed_at_seq_no e → 0 < seq →
  runs (on_fst (OrderBook.add mem k e seq)) v
    (if v_capacity v <=? Z.of_nat (size (v_orders v)) then v
     else v_with_orders v (<[k := OrderEntry.file_under k e]> (v_orders v)))
    [] (negb (v_capacity v <=? Z.of_nat (size (v_orders v)))).
Proof using NF.
  intros Hk Hn He Hpos [b d] before Hs. destruct (rf_book _ _ _ Hs) as (r & fl & Hu).
  simpl in Hu. pose proof (ui_ok _ _ _ _ Hu) as Hb.
  pose proof (rf_orders _ _ _ Hs) as Ho. pose proof (rf_capacity _ _ _ Hs) as Hc.
  simpl in Ho, Hc. unfold on_fst. simpl.
  destruct (add_ok mem b r fl k e seq Hb Hk) as
    [[-> Ha]|(b' & r' & fl' & res & Ha & Hb' & Hbes & Hres)]; [congruence|done|done| |].
  - rewrite Ha. pose proof (full_book_size b r Hb) as Hfull.
    rewrite Ho, Hc in Hfull. destruct (Z.leb_spec (v_capacity v)
      (Z.of_nat (size (v_orders v)))); [|lia].
    exists (b, d). by rewrite app_nil_r.
  - rewrite Ha. destruct Hres as [[-> Ho']|(_ & _ & n & Hmem)];
      [|by rewrite (nf_mem NF) in Hmem].
    pose proof (orders_within_capacity b' r' fl' Hb') as Hle.
    rewrite (capacity_header b' r' fl' Hb') in Hle.
    rewrite (capacity_header b r fl Hb) in Hc.
    destruct (beside_shape _ _ _ _ Hbes) as (_ & _ & _ & Hsc & _).
    rewrite Ho', Ho, map_size_insert_None in Hle by done.
    destruct (Z.leb_spec (v_capacity v) (Z.of_nat (size (v_orders v)))); [lia|].
    exists (b', d). rewrite app_nil_r. split; [done|].
    apply (refines_new_book b d v before b' r r' fl fl'); try done.
    + by eapply use_inv_beside.
    + by eapply beside_shape.
    + by rewrite Ho', Ho.
    + rewrite (proj1 Hbes). apply Hs.
    + rewrite (proj1 (proj2 Hbes)). apply Hs.
Qed.

Lemma runs_echo view v :
  need layouts (no_underlyings view) (no_party_i_ds view)
    ≤ GroupEcho.max_er_group_arena_size →
  runs (echo_groups arena_mem layouts view) v v []
    (no_underlyings view, no_party_i_ds view).
Proof using NF.
  intros Hneed [b d] before Hs. pose proof (rf_arena _ _ _ Hs) as Ha. simpl in Ha.
  unfold GroupEcho.initial_er_group_arena_size in Ha.
  destruct (echo_groups_returns layouts (nf_layouts NF) arena_mem (no_underlyings view)
    (no_party_i_ds view) 8 (er_group_arena_size d) (nf_arena NF))
    as (n & groups & Hg & Hle & Hfull); [lia| |].
  { unfold GroupEcho.max_er_group_arena_size. simpl. lia. }
  unfold echo_groups, on_snd. cbn [fst snd]. rewrite Hg, (Hfull Hneed).
  eexists. split; [reflexivity|]. rewrite app_nil_r. destruct Hs. split; try done.
  simpl in *. lia.
Qed.

(** *** New orders *)

Lemma runs_try {A} (m : comp state A) h v v' o a :
  runs m v v' o a → runs (try_catch m h) v v' o a.
Proof.
  intros Hm s before Hs. destruct (Hm s before Hs) as (s' & Hr & Hs').
  exists s'. unfold try_catch. by rewrite Hr.
Qed.

Abbreviation order_outputs := (order_outputs aes hmac secret).
Abbreviation cancel_outputs := (cancel_outputs aes hmac secret).

(** A refusal told with one report, after [pre] was noted. *)
Lemma runs_refusal pre er seq session source v (m : comp state unit) :
  runs m v v pre () →
  runs (m ;; send_report output_throws er seq session (repeat_of source) ;;
        publish_after_refusal seq source) v v
    (pre ++ [SendReport er seq session (repeat_of source)]) ().
Proof using NF.
  intros Hm. eapply runs_bind; [exact Hm|].
  eapply runs_after; [apply runs_send|apply runs_publish_after_refusal].
Qed.

Lemma runs_place_order view seq time session source v :
  let key := OrderKey.make session (no_cl_ord_id view) in
  let verdict := match v_orders v !! key with
                 | Some _ => OrderDuplicate
                 | None => if v_capacity v <=? Z.of_nat (size (v_orders v))
                           then OrderBookFull else OrderTaken
                 end in
  v_date v ≠ -1 → ReportIdentifiers.fits seq 0 = true → 0 < seq →
  need layouts (no_underlyings view) (no_party_i_ds view)
    ≤ GroupEcho.max_er_group_arena_size →
  runs (place_order mem arena_mem layouts output_throws view seq time session source
          (report_name (v_date v) seq 0)) v
    (place v verdict view seq session)
    (order_outputs verdict view seq time (v_date v) session source) ().
Proof using NF.
  intros key verdict Hd Hf Hpos Hneed. unfold place_order.
  eapply runs_then; [apply runs_contains|]. fold key. unfold verdict.
  destruct (v_orders v !! key) as [e|] eqn:Hkey; cbv beta iota.
  { apply (runs_refusal [_]), runs_outcome. }
  eapply runs_then; [by apply runs_make_order_id|]. cbv beta.
  eapply runs_then; [by apply runs_add; [apply make_wf| | |]|]. cbv beta.
  eapply runs_then; [apply runs_note_added|]. cbv beta.
  destruct (_ <=? _); cbn [negb].
  { eapply runs_after; [apply runs_send|apply runs_publish_after_refusal]. }
  unfold MatchingEngineRefinement.order_outputs.
  assert (runs (if is_live source then on_snd (emit output_throws OrderAccepted) else mret ())
    (place v OrderTaken view seq session) (place v OrderTaken view seq session)
    (if is_live source then [OrderAccepted] else []) ()) as Hacc.
  { destruct (is_live source); [apply runs_emit|apply runs_ret]. }
  eapply runs_bind; [exact Hacc|]. cbv beta.
  eapply runs_then; [by apply runs_echo|]. cbv beta.
  eapply (runs_bind _ _ _ _ _ [_] [_]); [apply runs_send|].
  eapply runs_then; [apply runs_publish|]. apply runs_outcome.
Qed.

(** How a command the engine can name begins: what is common to a new order and
    a cancel, up to the point where it is looked at. *)
Definition opening {A} (trading_date seq : Z) (source : CommandSource)
    (seen : A) (no_name out fresh : comp state A) : comp state A :=
  before ← not_live_and_applied_before source seq;
  if before : bool then mret seen
  else if negb (ReportIdentifiers.fits seq 0) then no_name
  else
    use_trading_date aes hmac trading_date ;;
    backwards ← live_and_goes_backwards source seq;
    if backwards : bool then out else fresh.

Lemma runs_opening {A} date seq source (seen : A) no_name out fresh v v' o a :
  date ≠ -1 →
  match arrival v seq source with
  | SeenBefore => v' = v ∧ o = [] ∧ a = seen
  | Unnameable => ∀ v1, v1 = (if is_live source then v else v_with_highest v seq) →
                  runs no_name v1 v' o a
  | OutOfSequence => runs out (v_with_date v date) v' o a
  | Fresh => runs fresh (v_with_date (v_with_highest v seq) date) v' o a
  end →
  runs (opening date seq source seen no_name out fresh) v v' o a.
Proof using NF.
  intros Hd Ha. unfold arrival in Ha. unfold opening.
  eapply runs_then; [apply runs_applied_before|]. cbv beta.
  rewrite Z.ltb_antisym. destruct (is_live source) eqn:Hl; cbn [negb andb] in *.
  - destruct (ReportIdentifiers.fits seq 0); cbn [negb] in *; [|by apply Ha].
    eapply runs_then; [by apply runs_use_trading_date|]. cbv beta.
    eapply runs_then; [apply runs_goes_backwards|]. cbv beta.
    rewrite Hl, Z.ltb_antisym. cbn [andb v_highest v_with_date].
    destruct (seq <=? v_highest v); exact Ha.
  - destruct (seq <=? v_highest v); cbn [negb] in *.
    { destruct Ha as (-> & -> & ->). apply runs_ret. }
    destruct (ReportIdentifiers.fits seq 0); cbn [negb] in *; [|by apply Ha].
    eapply runs_then; [by apply runs_use_trading_date|]. cbv beta.
    eapply runs_then; [apply runs_goes_backwards|]. cbv beta.
    rewrite Hl. exact Ha.
Qed.

(** The venue's positions: every order was placed by a command at a position of
    its own that has been applied, and that an identifier can hold. *)
Record venue_ok (v : Venue) : Prop := {
  vo_highest : 0 ≤ v_highest v;
  vo_capacity : v_capacity v ≤ ReportIdentifiers.place_limit;
  vo_placed : ∀ k e, v_orders v !! k = Some e →
    0 < OrderEntry.placed_at_seq_no e ≤ v_highest v ∧
    ReportIdentifiers.fits (OrderEntry.placed_at_seq_no e) 0 = true ∧
    OrderEntry.key_of e = k;
  vo_distinct : ∀ k k' e e', v_orders v !! k = Some e → v_orders v !! k' = Some e' →
    OrderEntry.placed_at_seq_no e = OrderEntry.placed_at_seq_no e' → e = e';
  vo_size : Z.of_nat (size (v_orders v)) ≤ v_capacity v
}.

Lemma fresh_above v seq source :
  arrival v seq source = Fresh →
  v_highest v < seq ∧ ReportIdentifiers.fits seq 0 = true.
Proof.
  unfold arrival. destruct (is_live source), (Z.leb_spec seq (v_highest v)),
    (ReportIdentifiers.fits seq 0); by simpl.
Qed.

Lemma not_unnameable v seq source :
  arrival v seq source = OutOfSequence → ReportIdentifiers.fits seq 0 = true.
Proof.
  unfold arrival. destruct (is_live source), (seq <=? v_highest v),
    (ReportIdentifiers.fits seq 0); by simpl.
Qed.

Abbreviation spec_new_order := (spec_new_order aes hmac secret).
Abbreviation spec_cancel := (spec_cancel aes hmac secret).
Abbreviation spec_cancel_book := (spec_cancel_book aes hmac secret).
Abbreviation engine_new_order :=
  (apply_new_order aes hmac mem arena_mem layouts output_throws).
Abbreviation engine_cancel := (apply_cancel aes hmac output_throws).
Abbreviation engine_cancel_book := (apply_cancel_book aes hmac output_throws).

Lemma runs_new_order view seq time date session source v :
  venue_ok v → date ≠ -1 →
  need layouts (no_underlyings view) (no_party_i_ds view)
    ≤ GroupEcho.max_er_group_arena_size →
  runs (engine_new_order view seq time date session source) v
    (spec_new_order v view seq time date session source).1
    (spec_new_order v view seq time date session source).2 ().
Proof using NF.
  intros Hv Hd Hneed. unfold apply_new_order. eapply runs_then; [apply runs_begin|].
  apply runs_try. unfold apply_new_order_unguarded.
  apply runs_opening; [done|]. unfold MatchingEngineRefinement.spec_new_order.
  destruct (arrival v seq source) eqn:Ha; cbn [fst snd].
  { done. }
  { intros v1 ->. apply runs_set_halted. }
  { apply not_unnameable in Ha. unfold refuse_out_of_sequence_order.
    eapply runs_then; [by apply runs_make_exec_id|]. apply runs_send. }
  destruct (fresh_above _ _ _ Ha) as [Hab Hf]. pose proof (vo_highest _ Hv).
  set (w := v_with_date (v_with_highest v seq) date). unfold order_verdict.
  destruct ((time =? 0) || (date =? 0)).
  { eapply runs_after; [|apply runs_publish_after_refusal].
    eapply runs_then; [by apply runs_make_exec_id|]. apply runs_send. }
  eapply runs_then; [apply runs_voids|]. cbv beta.
  destruct (VoidedCommandList.voiding _ _ _) as [by_void|].
  { eapply runs_after; [|apply runs_publish_after_refusal].
    eapply (runs_bind _ _ _ _ _ [_] [_]); [apply runs_outcome|].
    eapply runs_then; [by apply runs_make_exec_id|]. apply runs_send. }
  destruct (OrderKey.fits (no_cl_ord_id view)); cbn [negb].
  2:{ eapply runs_after; [|apply runs_publish_after_refusal].
    eapply (runs_bind _ _ _ _ _ [_] [_]); [apply runs_outcome|].
    eapply runs_then; [by apply runs_make_exec_id|]. apply runs_send. }
  eapply runs_then; [by apply runs_make_exec_id|]. cbv beta.
  eapply runs_then; [apply runs_halted|]. cbv beta.
  destruct (v_halted w).
  { eapply runs_after; [apply runs_send|apply runs_publish_after_refusal]. }
  apply (runs_place_order view seq time session source w); [done|done|lia|done].
Qed.

(** *** Cancels *)

Lemma runs_find_fitting orig session v :
  runs (if OrderKey.fits orig
        then on_fst (ask (λ b, OrderBook.find b (OrderKey.make session orig)))
        else mret None) v v []
    (if OrderKey.fits orig then v_orders v !! OrderKey.make session orig else None).
Proof. destruct (OrderKey.fits orig); [apply runs_find|apply runs_ret]. Qed.

Lemma runs_name_found (found : option OrderEntry.t) v :
  v_date v ≠ -1 →
  (∀ e, found = Some e →
     ReportIdentifiers.fits (OrderEntry.placed_at_seq_no e) 0 = true) →
  runs (match found with
        | Some entry =>
            oid ← on_snd (make_order_id (OrderEntry.placed_at_seq_no entry));
            mret (Some (entry, oid))
        | None => mret None
        end) v v []
    ((λ e, (e, order_name (v_date v) (OrderEntry.placed_at_seq_no e))) <$> found).
Proof using NF.
  intros Hd Hf. destruct found as [e|]; [|apply runs_ret].
  eapply runs_then; [apply runs_make_order_id; [done|by apply Hf]|]. apply runs_ret.
Qed.

Lemma runs_cancel_order view seq time session source v :
  let key := OrderKey.make session (cr_orig_cl_ord_id view) in
  let verdict := match v_orders v !! key with
                 | None => CancelUnknown
                 | Some entry => CancelTaken entry
                 end in
  v_date v ≠ -1 → ReportIdentifiers.fits seq 0 = true →
  (∀ e, v_orders v !! key = Some e →
     ReportIdentifiers.fits (OrderEntry.placed_at_seq_no e) 0 = true) →
  runs (cancel_order output_throws view seq time session source
          (report_name (v_date v) seq 0)) v
    (take_off v verdict view session)
    (cancel_outputs verdict view seq time (v_date v) session source) ().
Proof using NF.
  intros key verdict Hd Hf Hfit. unfold cancel_order.
  eapply runs_then; [apply runs_find|]. fold key. unfold verdict. cbv beta.
  destruct (v_orders v !! key) as [e|] eqn:Hkey.
  - eapply runs_then; [apply runs_remove|]. cbv beta.
    eapply runs_then; [apply runs_note_added|]. cbv beta.
    eapply runs_then; [apply runs_make_order_id; [done|by apply Hfit]|]. cbv beta.
    eapply (runs_bind _ _ _ _ _ [_] [_]); [apply runs_send|].
    eapply runs_then; [apply runs_publish|]. apply runs_outcome.
  - eapply (runs_bind _ _ _ _ _ [_] [_]); [apply runs_send|].
    eapply runs_then; [apply runs_publish_after_refusal|]. apply runs_outcome.
Qed.

Lemma runs_cancel view seq time date session source v :
  venue_ok v → date ≠ -1 →
  runs (engine_cancel view seq time date session source) v
    (spec_cancel v view seq time date session source).1
    (spec_cancel v view seq time date session source).2 ().
Proof using NF.
  intros Hv Hd. unfold apply_cancel. eapply runs_then; [apply runs_begin|].
  apply runs_try. unfold apply_cancel_unguarded.
  apply runs_opening; [done|]. unfold MatchingEngineRefinement.spec_cancel.
  destruct (arrival v seq source) eqn:Ha; cbn [fst snd].
  { done. }
  { intros v1 ->. apply runs_set_halted. }
  { apply not_unnameable in Ha. unfold refuse_out_of_sequence_cancel.
    eapply runs_then; [by apply runs_make_exec_id|]. apply runs_send. }
  destruct (fresh_above _ _ _ Ha) as [Hab Hf].
  set (w := v_with_date (v_with_highest v seq) date). unfold cancel_verdict.
  assert (∀ k e, v_orders w !! k = Some e →
    ReportIdentifiers.fits (OrderEntry.placed_at_seq_no e) 0 = true) as Hfits.
  { intros k e He. by apply (vo_placed _ Hv k e He). }
  destruct ((time =? 0) || (date =? 0)).
  { eapply runs_after; [|apply runs_publish_after_refusal].
    eapply runs_then; [by apply runs_make_exec_id|]. apply runs_send. }
  eapply runs_then; [apply runs_voids|]. cbv beta.
  destruct (VoidedCommandList.voiding _ _ _) as [by_void|].
  { eapply runs_after; [|apply runs_publish_after_refusal].
    eapply (runs_bind _ _ _ _ _ [_] [_]); [apply runs_outcome|].
    eapply runs_then; [apply runs_find_fitting|]. cbv beta.
    eapply runs_then; [apply runs_name_found; [done|]|].
    { intros e. destruct (OrderKey.fits _); [apply Hfits|done]. }
    cbv beta. eapply runs_then; [by apply runs_make_exec_id|]. apply runs_send. }
  destruct (negb (OrderKey.fits (cr_cl_ord_id view)) || _).
  { eapply runs_after; [|apply runs_publish_after_refusal].
    eapply (runs_bind _ _ _ _ _ [_] [_]); [apply runs_outcome|].
    eapply runs_then; [by apply runs_make_exec_id|]. apply runs_send. }
  eapply runs_then; [by apply runs_make_exec_id|]. cbv beta.
  apply (runs_cancel_order view seq time session source w); [done|done|].
  intros e. apply Hfits.
Qed.

(** *** A cancel of the book *)

Lemma placed_through_spec m p e :
  e ∈ placed_through m p ↔
  OrderEntry.placed_at_seq_no e ≤ p ∧ ∃ k, m !! k = Some e.
Proof.
  unfold placed_through. rewrite merge_sort_Permutation, list_elem_of_filter.
  rewrite list_elem_of_fmap. split.
  - intros [Hp ([k e'] & -> & Hk%elem_of_map_to_list)]. eauto.
  - intros [Hp [k Hk]]. split; [done|]. exists (k, e). by rewrite elem_of_map_to_list.
Qed.

(** Whoever lists those orders, sorted and each once, lists them so. *)
Lemma placed_through_unique m p es :
  (∀ k e, m !! k = Some e → OrderEntry.key_of e = k) →
  (∀ k k' e e', m !! k = Some e → m !! k' = Some e' →
     OrderEntry.placed_at_seq_no e = OrderEntry.placed_at_seq_no e' → e = e') →
  StronglySorted earlier es → NoDup es →
  (∀ e, e ∈ es ↔ OrderEntry.placed_at_seq_no e ≤ p ∧ ∃ k, m !! k = Some e) →
  es = placed_through m p.
Proof.
  intros Hkey Hdist Hs Hn Hes. apply (StronglySorted_unique_strong earlier).
  - intros e e' [_ [k Hk]]%Hes [_ [k' Hk']]%placed_through_spec Hle Hle'.
    unfold earlier in *. apply (Hdist k k'); [done|done|lia].
  - done.
  - apply StronglySorted_merge_sort.
    + intros x y z. unfold earlier. lia.
    + intros x y. unfold earlier. lia.
  - apply NoDup_Permutation; [done| |].
    + unfold placed_through. rewrite merge_sort_Permutation. apply NoDup_filter.
      apply NoDup_fmap_2_strong; [|apply NoDup_map_to_list].
      intros [k e] [k' e'] Hk Hk' He. simpl in He. subst e'.
      apply elem_of_map_to_list in Hk, Hk'.
      by rewrite <- (Hkey k e Hk), <- (Hkey k' e Hk').
    + intros e. by rewrite Hes, placed_through_spec.
Qed.

Abbreviation book_cancel_output := (book_cancel_output aes hmac secret).

(** The report of one order, at the place [n]. *)
Lemma report_cancelled_ok seq time date source e n d :
  date ≠ -1 → identifiers d = keys_for date →
  ReportIdentifiers.fits seq (Z.of_nat n) = true →
  ReportIdentifiers.fits (OrderEntry.placed_at_seq_no e) 0 = true →
  report_cancelled output_throws seq time (repeat_of source) e (d, Z.of_nat n)
    = ((with_outputs d (outputs d ++ [book_cancel_output seq time date source n e]),
        Z.of_nat (S n)), Returns ()).
Proof using NF.
  intros Hd Hk Hf Hfe. set (v := mk_venue ∅ false 0 0 0 [] date).
  pose proof (runs_exec_id seq (Z.of_nat n) v Hd Hf d Hk) as He.
  pose proof (runs_order_id (OrderEntry.placed_at_seq_no e) v Hd Hfe d Hk) as Ho.
  unfold report_cancelled.
  erewrite bind_returns; [|reflexivity]. erewrite bind_returns; [|reflexivity].
  erewrite bind_returns; [|unfold on_fst; cbn [fst snd]; rewrite He; reflexivity].
  cbn [fst snd].
  erewrite bind_returns; [|unfold on_fst; cbn [fst snd]; rewrite Ho; reflexivity].
  cbn [fst snd]. unfold on_fst, emit. cbn [fst snd].
  rewrite (nf_outputs NF), Nat2Z.inj_succ, <- Z.add_1_r. reflexivity.
Qed.

Lemma fits_place seq (n : nat) :
  ReportIdentifiers.fits seq 0 = true → Z.of_nat n < ReportIdentifiers.place_limit →
  ReportIdentifiers.fits seq (Z.of_nat n) = true.
Proof.
  unfold ReportIdentifiers.fits. intros Hf Hn. bool_to_prop.
  repeat (apply andb_true_iff; split); try (apply Z.leb_le; lia); apply Z.ltb_lt; lia.
Qed.

Lemma visit_reports seq time date source es n d :
  date ≠ -1 → identifiers d = keys_for date → ReportIdentifiers.fits seq 0 = true →
  Z.of_nat (n + length es) ≤ ReportIdentifiers.place_limit →
  Forall (λ e, ReportIdentifiers.fits (OrderEntry.placed_at_seq_no e) 0 = true) es →
  visit_all (report_cancelled output_throws seq time (repeat_of source)) es
      (d, Z.of_nat n)
    = ((with_outputs d (outputs d
          ++ imap (λ i, book_cancel_output seq time date source (n + i)) es),
        Z.of_nat (n + length es)), Returns ()).
Proof using NF.
  intros Hd. revert n d. induction es as [|e es IH]; intros n d Hk Hf Hlim Hes.
  { simpl. rewrite app_nil_r, Nat.add_0_r. by destruct d. }
  apply Forall_cons in Hes as [He Hes]. cbn [length visit_all] in *.
  erewrite bind_returns;
    [|apply report_cancelled_ok; [exact Hd|exact Hk|apply fits_place; [done|lia]|done]].
  rewrite (IH (S n)); [|done|done|lia|done]. rewrite imap_cons. cbn [outputs with_outputs].
  rewrite <- app_assoc, Nat.add_0_r. cbn [app].
  replace (S n + length es)%nat with (n + S (length es))%nat by lia.
  rewrite (imap_ext (λ i, book_cancel_output seq time date source (S n + i))
    ((λ i, book_cancel_output seq time date source (n + i)) ∘ S)); [reflexivity|].
  intros i x _. cbn [compose]. by rewrite Nat.add_succ_comm.
Qed.

Lemma placed_through_length m p : (length (placed_through m p) ≤ size m)%nat.
Proof.
  unfold placed_through. rewrite merge_sort_Permutation.
  etransitivity; [apply length_filter|]. by rewrite length_fmap, length_map_to_list.
Qed.

Lemma visit_cancelled seq time source through v d :
  venue_ok v → v_date v ≠ -1 → identifiers d = keys_for (v_date v) →
  ReportIdentifiers.fits seq 0 = true →
  visit_all (report_cancelled output_throws seq time (repeat_of source))
      (placed_through (v_orders v) through) (d, 0)
    = ((with_outputs d (outputs d
          ++ imap (book_cancel_output seq time (v_date v) source)
               (placed_through (v_orders v) through)),
        Z.of_nat (length (placed_through (v_orders v) through))), Returns ()).
Proof using NF.
  intros Hv Hd Hk Hf.
  apply (visit_reports seq time (v_date v) source _ 0 d Hd Hk Hf).
  - pose proof (placed_through_length (v_orders v) through).
    pose proof (vo_size _ Hv). pose proof (vo_capacity _ Hv). lia.
  - apply Forall_forall. intros e [_ [k He]]%placed_through_spec.
    by apply (vo_placed _ Hv k e).
Qed.

(** The whole removal, with its reports. *)
Lemma runs_remove_through through seq time source v :
  venue_ok v → v_date v ≠ -1 → ReportIdentifiers.fits seq 0 = true →
  runs (λ s : state,
          let r := OrderBook.remove_placed_through through
                     (report_cancelled output_throws seq time (repeat_of source))
                     (s.1, (s.2, 0)) in
          ((r.1.1, r.1.2.1), r.2)) v
    (v_with_orders v (placed_after (v_orders v) through))
    (imap (book_cancel_output seq time (v_date v) source)
       (placed_through (v_orders v) through))
    (length (placed_through (v_orders v) through)).
Proof using NF.
  intros Hv Hd Hf [b d] before Hs. destruct (rf_book _ _ _ Hs) as (r & fl & Hu).
  simpl in Hu. pose proof (ui_ok _ _ _ _ Hu) as Hb.
  pose proof (rf_orders _ _ _ Hs) as Ho. simpl in Ho.
  destruct (remove_placed_through_ok through
    (report_cancelled output_throws seq time (repeat_of source)) b r fl (d, 0) Hb)
    as (es & b' & r' & fl' & n & Hsorted & Hnd & Hes & Hr & Hb' & Hbes & Ho' & Hall).
  pose proof Hes as Hes0. rewrite Ho in Hes.
  pose proof (placed_through_unique (v_orders v) through es
    (λ k e He, proj2 (proj2 (vo_placed _ Hv k e He))) (vo_distinct _ Hv) Hsorted Hnd Hes)
    as ->. clear Hsorted Hnd.
  rewrite (visit_cancelled seq time source through v d Hv Hd (rf_keys _ _ _ Hs) Hf)
    in Hr, Hall.
  cbn [fst snd] in Hr, Hall. specialize (Hall eq_refl). rewrite Hall in Ho'.
  cbn [obind] in Hr. cbn [fst snd]. rewrite Hr. eexists. split; [reflexivity|].
  cbn [fst snd].
  assert (orders b' = placed_after (v_orders v) through) as Hkept.
  { rewrite Ho'. apply map_eq. intros k.
    rewrite (without_placed_through b r fl through _ k Hb Hes0), Ho.
    unfold placed_after. rewrite map_lookup_filter.
    destruct (v_orders v !! k) as [e|]; simpl; [|done].
    case_guard as Hg; simpl in Hg; destruct (Z.ltb_spec through
      (OrderEntry.placed_at_seq_no e)); (done || lia). }
  assert (refines (b', d) (v_with_orders v (placed_after (v_orders v) through)) before)
    as Hs'.
  { apply (refines_new_book b d v before b' r r' fl fl'); try done.
    - by eapply use_inv_beside.
    - by eapply beside_shape.
    - rewrite (proj1 Hbes). apply Hs.
    - rewrite (proj1 (proj2 Hbes)). apply Hs. }
  destruct Hs'. split; try done. simpl in *. by rewrite rf_outputs0.
Qed.

Lemma venue_ok_fresh v seq date :
  venue_ok v → v_highest v < seq → venue_ok (v_with_date (v_with_highest v seq) date).
Proof.
  intros [Hh Hc Hp Hd Hs] Hlt. split; simpl; try done; [lia|].
  intros k e He. destruct (Hp k e He) as ([? ?] & ? & ?). split; [lia|done].
Qed.

Lemma runs_cancel_book through seq time date source v :
  venue_ok v → date ≠ -1 →
  runs (engine_cancel_book through seq time date source) v
    (spec_cancel_book v through seq time date source).1.1
    (spec_cancel_book v through seq time date source).1.2
    (spec_cancel_book v through seq time date source).2.
Proof using NF.
  intros Hv Hd. unfold apply_cancel_book, MatchingEngineRefinement.spec_cancel_book.
  pose proof (fresh_above v seq source) as Hab. unfold unnameable.
  eapply runs_then; [apply runs_applied_before|]. cbv beta. unfold arrival in *.
  rewrite Z.ltb_antisym. destruct (is_live source) eqn:Hl; cbn [negb andb] in *.
  2: destruct (seq <=? v_highest v) eqn:Hle; cbn [negb] in *; [apply runs_ret|].
  all: destruct (ReportIdentifiers.fits seq 0) eqn:Hf; cbn [negb] in *;
    [|eapply runs_then; [apply runs_set_halted|apply runs_ret]].
  all: eapply runs_then; [apply runs_goes_backwards|]; cbv beta; rewrite Hl; cbn [andb].
  1: rewrite Z.ltb_antisym; destruct (seq <=? v_highest v) eqn:Hle; cbn [negb] in *;
       [apply runs_ret|].
  all: destruct (Hab eq_refl) as [Hlt _].
  all: eapply runs_then; [by apply runs_use_trading_date|]; cbv beta.
  all: eapply runs_then; [apply runs_size|]; cbv beta.
  all: pose proof (venue_ok_fresh v seq date Hv Hlt) as Hw.
  all: eapply runs_after;
    [apply (runs_remove_through through seq time source
              (v_with_date (v_with_highest v seq) date) Hw); done|].
  all: eapply runs_then; [apply runs_size|]; cbv beta.
  all: eapply runs_then; [apply runs_publish|]; apply runs_ret.
Qed.

(** *** The other commands *)

Lemma runs_technical_event view seq date source v :
  runs (apply_technical_event view seq date source) v
    (spec_technical_event v view seq date).1 []
    (spec_technical_event v view seq date).2.
Proof.
  unfold apply_technical_event, spec_technical_event.
  eapply runs_then; [apply runs_applied_before|]. cbv beta.
  rewrite (Z.ltb_antisym seq (v_highest v)). destruct (is_live source) eqn:Hl; cbn [negb andb].
  2: destruct (seq <=? v_highest v) eqn:Hle; cbn [negb] in *; [apply runs_ret|].
  all: eapply runs_then; [apply runs_goes_backwards|]; cbv beta; rewrite Hl; cbn [andb].
  1: rewrite (Z.ltb_antisym seq (v_highest v)); destruct (seq <=? v_highest v); cbn [negb]; [apply runs_ret|].
  all: destruct (te_trading_day view <? date);
    [eapply runs_then; [apply runs_publish|apply runs_ret]|].
  all: eapply runs_then; [apply runs_halted|]; cbv beta.
  all: eapply runs_then; [apply runs_set_halted|]; cbv beta.
  all: eapply runs_then; [apply runs_publish|apply runs_ret].
Qed.

Lemma runs_add_void voided v :
  runs (on_snd (λ d, let (l, added) := VoidedCommandList.add voided (voids d) in
                     (with_voids d l, Returns added))) v
    (v_with_voids v (v_known_through v) (VoidedCommandList.add voided (v_voids v)).1) []
    (VoidedCommandList.add voided (v_voids v)).2.
Proof.
  intros [b d] before Hs. pose proof (rf_voids _ _ _ Hs) as Hv. simpl in Hv.
  unfold on_snd. simpl. rewrite Hv.
  destruct (VoidedCommandList.add voided (v_voids v)) as [l added]. eexists.
  split; [reflexivity|]. rewrite app_nil_r. destruct Hs. by split.
Qed.

Lemma runs_learn_void voided v :
  runs (learn_void voided) v (spec_learn_void v voided).1 []
    (spec_learn_void v voided).2.
Proof.
  unfold learn_void, spec_learn_void.
  eapply runs_then; [apply runs_add_void|]. cbv beta.
  destruct (VoidedCommandList.add voided (v_voids v)) as [l [|]] eqn:Ha; cbn [negb fst snd].
  2:{ unfold VoidedCommandList.add in Ha.
      destruct (VoidedCommandList.at_position _ _); [|done]. injection Ha as <-.
      destruct v. apply runs_ret. }
  eapply runs_then; [apply runs_known|].
  cbn [v_known_through v_with_voids].
  destruct (void_seq_no voided <=? v_known_through v); [apply runs_ret|].
  eapply runs_then; [apply runs_set_voids|]. cbv beta.
  eapply runs_then; [apply runs_highest|]. cbn [v_highest v_with_voids].
  destruct (first_seq_no voided <=? v_highest v); apply runs_ret.
Qed.

Lemma runs_void_commands view seq source v :
  runs (apply_void_commands view seq source) v
    (spec_void_commands v view seq).1 [] (spec_void_commands v view seq).2.
Proof.
  unfold apply_void_commands, spec_void_commands.
  eapply runs_then; [apply runs_applied_before|]. cbv beta.
  rewrite (Z.ltb_antisym seq (v_highest v)). destruct (is_live source) eqn:Hl; cbn [negb andb].
  2: destruct (seq <=? v_highest v) eqn:Hle; cbn [negb] in *; [apply runs_ret|].
  all: eapply runs_then; [apply runs_goes_backwards|]; cbv beta; rewrite Hl; cbn [andb].
  1: rewrite (Z.ltb_antisym seq (v_highest v)); destruct (seq <=? v_highest v); cbn [negb]; [apply runs_ret|].
  all: eapply runs_then; [apply runs_voids|]; cbv beta.
  all: destruct (VoidedCommandList.at_position _ _);
    [eapply runs_then; [apply runs_ret|];
     eapply runs_then; [apply runs_publish|apply runs_ret]|].
  all: destruct (spec_learn_void _ _) as [w learned] eqn:Hlv; cbn [fst snd].
  all: eapply (runs_then _ _ _ w);
    [eapply runs_then; [apply runs_learn_void|]; rewrite Hlv; apply runs_ret|].
  all: eapply runs_then; [apply runs_publish|apply runs_ret].
Qed.

(** *** Sequences of commands *)

Inductive Command :=
  | NewOrder (view : NewOrderSingleView) (time date : Z)
      (session : SessionIdentity.t)
  | CancelRequest (view : OrderCancelRequestView) (time date : Z)
      (session : SessionIdentity.t)
  | CancelBook (through time date : Z)
  | TechnicalEvent (view : TechnicalEventView) (date : Z)
  | VoidCommands (view : VoidCommandsView).

(** A command at its position in the WAL. *)
Definition WalRecord : Type := Z * Command.

Definition apply (source : CommandSource) (w : WalRecord) : comp state unit :=
  let (seq, command) := w in
  match command with
  | NewOrder view time date session =>
      engine_new_order view seq time date session source
  | CancelRequest view time date session =>
      engine_cancel view seq time date session source
  | CancelBook through time date =>
      engine_cancel_book through seq time date source ;; mret ()
  | TechnicalEvent view date =>
      apply_technical_event view seq date source ;; mret ()
  | VoidCommands view => apply_void_commands view seq source ;; mret ()
  end.

Fixpoint apply_all (source : CommandSource) (ws : list WalRecord)
    : comp state unit :=
  match ws with
  | [] => mret ()
  | w :: ws => apply source w ;; apply_all source ws
  end.

Definition spec (source : CommandSource) (v : Venue) (w : WalRecord)
    : Venue * list Output :=
  let (seq, command) := w in
  match command with
  | NewOrder view time date session =>
      spec_new_order v view seq time date session source
  | CancelRequest view time date session =>
      spec_cancel v view seq time date session source
  | CancelBook through time date =>
      (spec_cancel_book v through seq time date source).1
  | TechnicalEvent view date => ((spec_technical_event v view seq date).1, [])
  | VoidCommands view => ((spec_void_commands v view seq).1, [])
  end.

Fixpoint spec_all (source : CommandSource) (v : Venue) (ws : list WalRecord)
    : Venue * list Output :=
  match ws with
  | [] => (v, [])
  | w :: ws => let (v1, o1) := spec source v w in
               let (v2, o2) := spec_all source v1 ws in
               (v2, o1 ++ o2)
  end.

(** A record as the sequencer writes it: it carries no negative date, and the
    groups of an order fit the largest arena. *)
Definition record_ok (w : WalRecord) : Prop :=
  match w.2 with
  | NewOrder view _ date _ =>
      0 ≤ date ∧ need layouts (no_underlyings view) (no_party_i_ds view)
                   ≤ GroupEcho.max_er_group_arena_size
  | CancelRequest _ _ date _ | CancelBook _ _ date => 0 ≤ date
  | TechnicalEvent _ _ | VoidCommands _ => True
  end.

Lemma runs_apply source w v :
  venue_ok v → record_ok w →
  runs (apply source w) v (spec source v w).1 (spec source v w).2 ().
Proof using NF.
  intros Hv. destruct w as [seq [view time date session|view time date session
    |through time date|view date|view]]; unfold record_ok; simpl.
  - intros [? ?]. apply runs_new_order; [done|lia|done].
  - intros ?. apply runs_cancel; [done|lia].
  - intros ?. eapply runs_after; [apply runs_cancel_book; [done|lia]|apply runs_ret].
  - intros _. eapply runs_after; [apply runs_technical_event|apply runs_ret].
  - intros _. eapply runs_after; [apply runs_void_commands|apply runs_ret].
Qed.

(** What the commands keep of the venue's positions. *)
Lemma venue_ok_same v v' :
  venue_ok v → v_orders v' = v_orders v → v_capacity v' = v_capacity v →
  v_highest v ≤ v_highest v' → venue_ok v'.
Proof.
  intros [Hh Hc Hp Hd Hs] Ho Hcap Hle. split; rewrite ?Ho, ?Hcap; try done; [lia|].
  intros k e He. destruct (Hp k e He) as ([? ?] & ? & ?). split; [lia|done].
Qed.

Lemma venue_ok_fewer v v' :
  venue_ok v → v_orders v' ⊆ v_orders v → v_capacity v' = v_capacity v →
  v_highest v ≤ v_highest v' → venue_ok v'.
Proof.
  intros [Hh Hc Hp Hd Hs] Ho Hcap Hle. split; rewrite ?Hcap; try done; [lia| | |].
  - intros k e He. destruct (Hp k e) as ([? ?] & ? & ?);
      [by eapply lookup_weaken|]. split; [lia|done].
  - intros k k' e e' He He'. apply (Hd k k'); by eapply lookup_weaken.
  - pose proof (map_subseteq_size _ _ Ho). lia.
Qed.

Lemma venue_ok_placed v view seq session :
  venue_ok v → v_highest v < seq → ReportIdentifiers.fits seq 0 = true →
  let key := OrderKey.make session (no_cl_ord_id view) in
  v_orders v !! key = None → Z.of_nat (size (v_orders v)) < v_capacity v →
  ∀ date, venue_ok (place (v_with_date (v_with_highest v seq) date) OrderTaken view seq session).
Proof.
  intros [Hh Hc Hp Hd Hs] Hlt Hf key Hn Hroom date. split; simpl; try done; [lia| | |].
  - intros k e [[<- <-]|[_ He]]%lookup_insert_Some.
    + split; [simpl; lia|]. split; [done|]. apply key_of_filed, make_wf.
    + destruct (Hp k e He) as ([? ?] & ? & ?). split; [lia|done].
  - intros k k' e e' He He'.
    apply lookup_insert_Some in He as [[<- <-]|[_ He]];
      apply lookup_insert_Some in He' as [[<- <-]|[_ He']]; simpl; try done.
    + destruct (Hp k' e' He') as ([? ?] & _). lia.
    + destruct (Hp k e He) as ([? ?] & _). lia.
    + by apply (Hd k k').
  - rewrite map_size_insert_None by done. lia.
Qed.

Lemma venue_ok_unnameable v seq source :
  venue_ok v → arrival v seq source = Unnameable → venue_ok (unnameable v seq source).
Proof.
  intros Hv. unfold arrival, unnameable. destruct (is_live source); cbn [negb andb].
  - intros _. by apply (venue_ok_same v).
  - destruct (Z.leb_spec seq (v_highest v)); [done|]. intros _.
    apply (venue_ok_same v); simpl; try done. lia.
Qed.

Lemma venue_ok_spec source v w : venue_ok v → venue_ok (spec source v w).1.
Proof.
  intros Hv. destruct w as [seq [view time date session|view time date session
    |through time date|view date|view]]; simpl.
  - unfold MatchingEngineRefinement.spec_new_order.
    destruct (arrival v seq source) eqn:Ha; cbn [fst]; [done|by apply venue_ok_unnameable| |].
    { by apply (venue_ok_same v). }
    destruct (fresh_above _ _ _ Ha) as [Hab Hf].
    pose proof (venue_ok_fresh v seq date Hv Hab) as Hw.
    unfold order_verdict. cbn [v_orders v_capacity v_voids v_halted v_with_date v_with_highest].
    destruct (_ || _); [done|]. destruct (VoidedCommandList.voiding _ _ _); [done|].
    destruct (negb _); [done|]. destruct (v_halted v); [done|].
    destruct (v_orders v !! _) eqn:Hk; [done|].
    destruct (Z.leb_spec (v_capacity v) (Z.of_nat (size (v_orders v)))); [done|].
    by apply venue_ok_placed.
  - unfold MatchingEngineRefinement.spec_cancel.
    destruct (arrival v seq source) eqn:Ha; cbn [fst]; [done|by apply venue_ok_unnameable| |].
    { by apply (venue_ok_same v). }
    destruct (fresh_above _ _ _ Ha) as [Hab Hf].
    pose proof (venue_ok_fresh v seq date Hv Hab) as Hw.
    destruct (cancel_verdict _ _ _ _ _ _); try done. simpl.
    apply (venue_ok_fewer _ _ Hw); [apply delete_subseteq|done|done].
  - unfold MatchingEngineRefinement.spec_cancel_book.
    destruct (arrival v seq source) eqn:Ha; cbn [fst]; [done|by apply venue_ok_unnameable|done|].
    destruct (fresh_above _ _ _ Ha) as [Hab Hf].
    pose proof (venue_ok_fresh v seq date Hv Hab) as Hw.
    apply (venue_ok_fewer _ _ Hw); [apply map_filter_subseteq|done|done].
  - unfold spec_technical_event. destruct (Z.leb_spec seq (v_highest v)); [done|].
    destruct (_ <? _); apply (venue_ok_same v); simpl; try done; lia.
  - unfold spec_void_commands. destruct (Z.leb_spec seq (v_highest v)); [done|].
    destruct (VoidedCommandList.at_position _ _).
    { apply (venue_ok_same v); simpl; try done; lia. }
    unfold spec_learn_void. destruct (VoidedCommandList.add _ _) as [l [|]]; simpl.
    + destruct (_ <=? _); apply (venue_ok_same v); simpl; try done; lia.
    + apply (venue_ok_same v); simpl; try done; lia.
Qed.

Lemma venue_ok_spec_all source ws v : venue_ok v → venue_ok (spec_all source v ws).1.
Proof.
  revert v. induction ws as [|w ws IH]; intros v Hv; [done|].
  cbn [spec_all]. pose proof (venue_ok_spec source v w Hv) as Hu.
  destruct (spec source v w) as [u o]. specialize (IH u Hu).
  by destruct (spec_all source u ws).
Qed.

Lemma runs_apply_all source ws v :
  venue_ok v → Forall record_ok ws →
  runs (apply_all source ws) v (spec_all source v ws).1 (spec_all source v ws).2 ().
Proof using NF.
  intros Hv Hws. revert v Hv. induction Hws as [|w ws Hw _ IH]; intros v Hv; simpl.
  { apply runs_ret. }
  pose proof (runs_apply source w v Hv Hw) as Hr.
  pose proof (venue_ok_spec source v w Hv) as Hv1.
  destruct (spec source v w) as [v1 o1]. cbn [fst snd] in *.
  specialize (IH v1 Hv1). destruct (spec_all source v1 ws) as [v2 o2]. cbn [fst snd] in *.
  by eapply runs_bind.
Qed.

(** What a member or a test is told, apart from the marking as a possible repeat
    and from the count of orders processed. *)
Definition told (o : Output) : option Output :=
  match o with
  | SendReport er seq session _ => Some (SendReport er seq session RepeatNo)
  | OrderOutcome session cl kind _ seq orig =>
      Some (OrderOutcome session cl kind RepeatNo seq orig)
  | OrderAccepted => None
  end.

(** The reports among the outputs. *)
Definition report_of (o : Output) : option ExecutionReport :=
  match o with SendReport er _ _ _ => Some er | _ => None end.

(** The positions of the records go up from [n], and identifiers hold them. *)
Fixpoint in_sequence (n : Z) (ws : list WalRecord) : Prop :=
  match ws with
  | [] => True
  | w :: ws => n < w.1 ∧ ReportIdentifiers.fits w.1 0 = true ∧ in_sequence w.1 ws
  end.

Lemma arrival_fresh v seq source :
  v_highest v < seq → ReportIdentifiers.fits seq 0 = true →
  arrival v seq source = Fresh.
Proof.
  intros Hlt Hf. unfold arrival. rewrite Hf. destruct (Z.leb_spec seq (v_highest v)); [lia|].
  by destruct (is_live source).
Qed.

Lemma spec_fresh source v w :
  v_highest v < w.1 → ReportIdentifiers.fits w.1 0 = true →
  v_highest (spec source v w).1 = w.1 ∧
  (spec source v w).1 = (spec Live v w).1 ∧
  omap told (spec source v w).2 = omap told (spec Live v w).2.
Proof.
  intros Hlt Hf. pose proof (λ so, arrival_fresh v w.1 so Hlt Hf) as Ha.
  destruct w as [seq [view time date session|view time date session
    |through time date|view date|view]]; simpl in *.
  - unfold MatchingEngineRefinement.spec_new_order. rewrite !Ha. cbn [fst snd].
    destruct (order_verdict _ _ _ _ _ _); by destruct source.
  - unfold MatchingEngineRefinement.spec_cancel. rewrite !Ha. cbn [fst snd].
    destruct (cancel_verdict _ _ _ _ _ _); by destruct source.
  - unfold MatchingEngineRefinement.spec_cancel_book. rewrite !Ha. cbn [fst snd].
    split; [done|]. split; [done|].
    generalize (placed_through (v_orders v) through). intros es.
    enough (∀ n, omap told (imap (λ i, book_cancel_output seq time date source (n + i)) es)
      = omap told (imap (λ i, book_cancel_output seq time date Live (n + i)) es)) as He
      by apply (He 0%nat).
    induction es as [|e es IH]; intros n; [done|]. rewrite !imap_cons. simpl. f_equal.
    rewrite (imap_ext _ (λ i, book_cancel_output seq time date source (S n + i))),
      (imap_ext ((λ i, book_cancel_output seq time date Live (n + i)) ∘ S)
         (λ i, book_cancel_output seq time date Live (S n + i)));
      [apply IH| |]; intros i x _; cbn [compose]; by rewrite Nat.add_succ_comm.
  - unfold spec_technical_event. destruct (Z.leb_spec seq (v_highest v)); [lia|].
    destruct (_ <? _); done.
  - unfold spec_void_commands. destruct (Z.leb_spec seq (v_highest v)); [lia|].
    destruct (VoidedCommandList.at_position _ _); [done|].
    unfold spec_learn_void. destruct (VoidedCommandList.add _ _) as [l [|]]; [|done].
    by destruct (_ <=? _).
Qed.

Lemma spec_all_fresh source ws v :
  in_sequence (v_highest v) ws →
  (spec_all source v ws).1 = (spec_all Live v ws).1 ∧
  omap told (spec_all source v ws).2 = omap told (spec_all Live v ws).2.
Proof.
  revert v. induction ws as [|w ws IH]; intros v; simpl; [done|].
  intros (Hlt & Hf & Hws). destruct (spec_fresh source v w Hlt Hf) as (Hh & H1 & H2).
  destruct (spec source v w) as [v1 o1], (spec Live v w) as [v1' o1']. simpl in *. subst v1'.
  rewrite <- Hh in Hws. destruct (IH v1 Hws) as [H3 H4].
  destruct (spec_all source v1 ws) as [v2 o2], (spec_all Live v1 ws) as [v2' o2'].
  simpl in *. rewrite !omap_app. split; congruence.
Qed.

(** Records at or below the highest applied. *)
Lemma spec_all_seen ws v :
  Forall (λ w, w.1 ≤ v_highest v) ws → spec_all CatchUp v ws = (v, []).
Proof.
  induction 1 as [|w ws Hw _ IH]; [done|]. cbn [spec_all].
  assert (spec CatchUp v w = (v, [])) as ->.
  { assert (arrival v w.1 CatchUp = SeenBefore) as Ha.
    { unfold arrival. simpl. by destruct (Z.leb_spec w.1 (v_highest v)); [|lia]. }
    destruct w as [seq []]; simpl in *;
      unfold MatchingEngineRefinement.spec_new_order, MatchingEngineRefinement.spec_cancel,
        MatchingEngineRefinement.spec_cancel_book, spec_technical_event,
        spec_void_commands; rewrite ?Ha; try done;
      by destruct (Z.leb_spec seq (v_highest v)); [|lia]. }
  by rewrite IH.
Qed.

Lemma spec_all_app source ws1 ws2 v :
  spec_all source v (ws1 ++ ws2)
    = ((spec_all source (spec_all source v ws1).1 ws2).1,
       (spec_all source v ws1).2 ++ (spec_all source (spec_all source v ws1).1 ws2).2).
Proof.
  revert v. induction ws1 as [|w ws1 IH]; intros v; simpl.
  { by destruct (spec_all source v ws2). }
  destruct (spec source v w) as [v1 o1]. rewrite IH.
  destruct (spec_all source v1 ws1) as [v2 o2]. simpl. by rewrite app_assoc.
Qed.

Lemma spec_all_highest source ws v :
  in_sequence (v_highest v) ws →
  v_highest v ≤ v_highest (spec_all source v ws).1 ∧
  Forall (λ w, w.1 ≤ v_highest (spec_all source v ws).1) ws.
Proof.
  revert v. induction ws as [|w ws IH]; intros v; simpl; [done|].
  intros (Hlt & Hf & Hws). destruct (spec_fresh source v w Hlt Hf) as (Hh & _ & _).
  destruct (spec source v w) as [v1 o1]. simpl in *. rewrite <- Hh in Hws.
  destruct (IH v1 Hws) as [H1 H2]. destruct (spec_all source v1 ws) as [v2 o2].
  simpl in *. split; [lia|]. constructor; [lia|done].
Qed.

Lemma text_of_inj l l' : text_of l = text_of l' → l = l'.
Proof.
  revert l'. induction l as [|c l IH]; intros [|c' l']; simpl; try done.
  intros [= -> Hl]. f_equal. by apply IH.
Qed.

(** The reports of one command have names of their own. *)
Lemma report_name_inj date seq p q :
  date ≠ -1 → ReportIdentifiers.fits seq p = true → ReportIdentifiers.fits seq q = true →
  report_name date seq p = report_name date seq q → p = q.
Proof using NF.
  intros Hd Hp Hq. unfold MatchingEngineRefinement.report_name.
  destruct (keys_of_date date Hd) as (oc & rc & Hno & Hnr & _ & Hk).
  rewrite Hk. unfold ReportIdentifiers.exec_id. cbn [ReportIdentifiers.report_cipher].
  destruct (make_undone "E" rc seq p Hnr Hp) as (l & Hl & _).
  destruct (make_undone "E" rc seq q Hnr Hq) as (l' & Hl' & _).
  rewrite Hl, Hl'. intros He%text_of_inj. rewrite <- He in Hl'.
  set (d := ReportIdentifiers.mk secret date (Some oc) (Some rc)).
  pose proof (given_identifier d oc rc false seq p _ eq_refl eq_refl Hno Hnr Hl) as H1.
  pose proof (given_identifier d oc rc false seq q _ eq_refl eq_refl Hno Hnr Hl') as H2.
  rewrite H1 in H2. by injection H2.
Qed.

Lemma book_cancel_ids seq time date source es n :
  exec_id <$> omap report_of (imap (λ i, book_cancel_output seq time date source (n + i)) es)
    = imap (λ i _, report_name date seq (Z.of_nat (n + i))) es.
Proof.
  revert n. induction es as [|e es IH]; intros n; [done|]. rewrite !imap_cons.
  cbn [omap list_omap report_of book_cancel_output]. simpl. f_equal.
  rewrite (imap_ext _ (λ i, book_cancel_output seq time date source (S n + i))),
    (imap_ext ((λ i _, report_name date seq (Z.of_nat (n + i))) ∘ S)
       (λ i _, report_name date seq (Z.of_nat (S n + i))));
    [apply IH| |]; intros i x _; cbn [compose]; by rewrite Nat.add_succ_comm.
Qed.

Lemma book_cancel_ids_distinct seq time date source es :
  date ≠ -1 → ReportIdentifiers.fits seq 0 = true →
  Z.of_nat (length es) ≤ ReportIdentifiers.place_limit →
  NoDup (exec_id <$> omap report_of (imap (book_cancel_output seq time date source) es)).
Proof using NF.
  intros Hd Hf Hlen.
  change (imap (book_cancel_output seq time date source) es)
    with (imap (λ i, book_cancel_output seq time date source (0 + i)) es).
  rewrite book_cancel_ids. apply NoDup_alt. intros i j x.
  rewrite !list_lookup_imap, !fmap_Some. intros (e & Hi & ->) (e' & Hj & He).
  apply lookup_lt_Some in Hi, Hj. apply report_name_inj in He; [lia|done| |];
    apply fits_place; (done || lia).
Qed.

(** ** Properties *)

(** C4: a new order is dealt with as the venue promises, on every branch: an
    engine that stands for a venue, given an order live or by a catch-up, makes
    exactly the outputs [spec_new_order] says and stands for the venue it says
    afterwards.  An order a catch-up delivers again is passed over, one no
    identifier can name halts trading, and every other order is answered with
    exactly one report. *)
Theorem new_order_refines_venue view seq time date session source s v before :
  venue_ok v → 0 ≤ date →
  need layouts (no_underlyings view) (no_party_i_ds view)
    ≤ GroupEcho.max_er_group_arena_size →
  refines s v before →
  let spec := spec_new_order v view seq time date session source in
  (∃ s', engine_new_order view seq time date session source s = (s', Returns ()) ∧
         refines s' spec.1 (before ++ spec.2) ∧ venue_ok spec.1) ∧
  (arrival v seq source = Fresh ∨ arrival v seq source = OutOfSequence →
   length (omap report_of spec.2) = 1%nat).
Proof using NF.
  intros Hv Hd Hn Hs spec. split.
  - destruct (runs_new_order view seq time date session source v Hv ltac:(lia) Hn s
      before Hs) as (s' & Hr & Hs'). exists s'. split; [done|]. split; [done|].
    exact (venue_ok_spec source v (seq, NewOrder view time date session) Hv).
  - unfold spec, MatchingEngineRefinement.spec_new_order. intros [-> | ->]; [|done].
    cbn [snd]. destruct (order_verdict _ _ _ _ _ _); try done. by destruct source.
Qed.

(** C36: a request to cancel is dealt with as the venue promises, on every
    branch: the order it names is taken off the book and the report describes it
    from what the book held, or the book is unchanged and the report says why;
    one report either way. *)
Theorem cancel_refines_venue view seq time date session source s v before :
  venue_ok v → 0 ≤ date → refines s v before →
  let spec := spec_cancel v view seq time date session source in
  (∃ s', engine_cancel view seq time date session source s = (s', Returns ()) ∧
         refines s' spec.1 (before ++ spec.2) ∧ venue_ok spec.1) ∧
  (arrival v seq source = Fresh ∨ arrival v seq source = OutOfSequence →
   length (omap report_of spec.2) = 1%nat).
Proof using NF.
  intros Hv Hd Hs spec. split.
  - destruct (runs_cancel view seq time date session source v Hv ltac:(lia) s before Hs)
      as (s' & Hr & Hs'). exists s'. split; [done|]. split; [done|].
    exact (venue_ok_spec source v (seq, CancelRequest view time date session) Hv).
  - unfold spec, MatchingEngineRefinement.spec_cancel. intros [-> | ->]; [|done].
    cbn [snd]. by destruct (cancel_verdict _ _ _ _ _ _).
Qed.

(** C37: a cancel of the book takes off every order placed at or before its
    position and no other, and sends one report for each, in the order they were
    placed, each named by the command's position and its place among them, no
    two alike; it returns how many it cancelled and how many it kept. *)
Theorem cancel_book_refines_venue through seq time date source s v before :
  venue_ok v → 0 ≤ date → refines s v before →
  let spec := spec_cancel_book v through seq time date source in
  (∃ s', engine_cancel_book through seq time date source s = (s', Returns spec.2) ∧
         refines s' spec.1.1 (before ++ spec.1.2) ∧ venue_ok spec.1.1) ∧
  (arrival v seq source = Fresh →
   (∀ k, v_orders spec.1.1 !! k =
      (e ← v_orders v !! k;
       if through <? OrderEntry.placed_at_seq_no e then Some e else None)) ∧
   StronglySorted earlier (placed_through (v_orders v) through) ∧
   length spec.1.2 = reports_sent spec.2 ∧
   NoDup (exec_id <$> omap report_of spec.1.2)).
Proof using NF.
  intros Hv Hd Hs spec. split.
  - destruct (runs_cancel_book through seq time date source v Hv ltac:(lia) s before Hs)
      as (s' & Hr & Hs'). exists s'. split; [done|]. split; [done|].
    exact (venue_ok_spec source v (seq, CancelBook through time date) Hv).
  - intros Ha. unfold spec, MatchingEngineRefinement.spec_cancel_book. rewrite Ha.
    cbn. split_and!.
    + intros k. unfold placed_after. rewrite map_lookup_filter.
      destruct (v_orders v !! k) as [e|]; simpl; [|done].
      case_guard as Hg; simpl in Hg;
        destruct (Z.ltb_spec through (OrderEntry.placed_at_seq_no e)); (done || lia).
    + apply StronglySorted_merge_sort; intros x y; unfold earlier; [intros z|]; lia.
    + apply length_imap.
    + apply book_cancel_ids_distinct; [lia|by apply (fresh_above v seq source)|].
      pose proof (placed_through_length (v_orders v) through).
      pose proof (vo_size _ Hv). pose proof (vo_capacity _ Hv). lia.
Qed.

(** C3: an engine that applies commands as they arrive and an engine that
    applies the same commands while catching up, on a book of its own, end with
    the same orders, the same halt and the same voids, and have told the members
    the same reports in the same order, apart from their marking as possible
    repeats. *)
Theorem live_and_catch_up_agree ws s1 s2 v o1 o2 :
  venue_ok v → Forall record_ok ws → in_sequence (v_highest v) ws →
  refines s1 v o1 → refines s2 v o2 →
  ∃ s1' s2' v' n1 n2,
    apply_all Live ws s1 = (s1', Returns ()) ∧
    apply_all CatchUp ws s2 = (s2', Returns ()) ∧
    refines s1' v' (o1 ++ n1) ∧ refines s2' v' (o2 ++ n2) ∧
    omap told n1 = omap told n2.
Proof using NF.
  intros Hv Hws Hin H1 H2.
  destruct (runs_apply_all Live ws v Hv Hws s1 o1 H1) as (s1' & Hr1 & Hs1).
  destruct (runs_apply_all CatchUp ws v Hv Hws s2 o2 H2) as (s2' & Hr2 & Hs2).
  destruct (spec_all_fresh CatchUp ws v Hin) as [He Ho].
  exists s1', s2', (spec_all Live v ws).1, (spec_all Live v ws).2, (spec_all CatchUp v ws).2.
  rewrite He in Hs2. done.
Qed.

(** a catch-up can be started again from records already applied: an engine
    that has applied some of the WAL, live or by a catch-up cut short, and is
    then sent the WAL from where it began, ends with the orders and makes the
    outputs it would have if only the rest had been sent. *)
Theorem catch_up_can_start_again source ws1 ws2 s v before :
  venue_ok v → Forall record_ok (ws1 ++ ws2) → in_sequence (v_highest v) ws1 →
  refines s v before →
  ∃ s1 s2 s3 v' n,
    apply_all source ws1 s = (s1, Returns ()) ∧
    apply_all CatchUp (ws1 ++ ws2) s1 = (s2, Returns ()) ∧
    apply_all CatchUp ws2 s1 = (s3, Returns ()) ∧
    refines s2 v' (outputs s1.2 ++ n) ∧ refines s3 v' (outputs s1.2 ++ n).
Proof using NF.
  intros Hv Hws Hin Hs. pose proof Hws as [Hws1 Hws2]%Forall_app.
  destruct (runs_apply_all source ws1 v Hv Hws1 s before Hs) as (s1 & Hr1 & Hs1).
  set (v1 := (spec_all source v ws1).1) in *.
  assert (venue_ok v1) as Hv1.
  { by apply venue_ok_spec_all. }
  rewrite <- (rf_outputs _ _ _ Hs1) in Hs1.
  destruct (runs_apply_all CatchUp (ws1 ++ ws2) v1 Hv1 Hws s1 _ Hs1) as (s2 & Hr2 & Hs2).
  destruct (runs_apply_all CatchUp ws2 v1 Hv1 Hws2 s1 _ Hs1) as (s3 & Hr3 & Hs3).
  destruct (spec_all_highest source ws1 v Hin) as [_ Hseen].
  rewrite spec_all_app, (spec_all_seen ws1 v1 Hseen) in Hs2.
  exists s1, s2, s3, (spec_all CatchUp v1 ws2).1, (spec_all CatchUp v1 ws2).2. done.
Qed.

(** the commands no member sent are applied as the venue promises and send
    nothing: a technical event sets the halt unless it is for an older day, a
    record of voids is learned of if the engine did not know it, and learning of
    a void says whether the engine had already passed the first command it
    names; the orders never change. *)
Theorem venue_commands_refine_venue event voids_view voided seq date source s v before :
  refines s v before →
  (∃ s', apply_technical_event event seq date source s
           = (s', Returns (spec_technical_event v event seq date).2) ∧
         refines s' (spec_technical_event v event seq date).1 before) ∧
  (∃ s', apply_void_commands voids_view seq source s
           = (s', Returns (spec_void_commands v voids_view seq).2) ∧
         refines s' (spec_void_commands v voids_view seq).1 before) ∧
  (∃ s', learn_void voided s = (s', Returns (spec_learn_void v voided).2) ∧
         refines s' (spec_learn_void v voided).1 before) ∧
  v_orders (spec_technical_event v event seq date).1 = v_orders v ∧
  v_orders (spec_void_commands v voids_view seq).1 = v_orders v ∧
  v_orders (spec_learn_void v voided).1 = v_orders v.
Proof.
  intros Hs. split_and!.
  - destruct (runs_technical_event event seq date source v s before Hs) as (s' & ? & Hs').
    rewrite app_nil_r in Hs'. eauto.
  - destruct (runs_void_commands voids_view seq source v s before Hs) as (s' & ? & Hs').
    rewrite app_nil_r in Hs'. eauto.
  - destruct (runs_learn_void voided v s before Hs) as (s' & ? & Hs').
    rewrite app_nil_r in Hs'. eauto.
  - unfold spec_technical_event. split_ifs; done.
  - unfold spec_void_commands, spec_learn_void. destruct (_ <=? _); [done|].
    destruct (VoidedCommandList.at_position _ _); [done|].
    destruct (VoidedCommandList.add _ _) as [l [|]]; [|done]. by destruct (_ <=? _).
  - unfold spec_learn_void. destruct (VoidedCommandList.add _ _) as [l [|]]; [|done].
    by destruct (_ <=? _).
Qed.

End refinement.

(** ** Witnesses: an engine on a new region of three records *)

#[local] Existing Instance demo_payload.

Definition demo_layouts : Layouts :=
  mk_layouts (BumpAllocator.mk_layout 72 3) (BumpAllocator.mk_layout 64 3)
    (BumpAllocator.mk_layout 32 3).

Definition never_throws (before : list Output) (o : Output) : option exn := None.

Definition always (n : Z) : bool := true.

Definition demo_engine : OrderBook.t order_map * Engine :=
  (demo_new, MatchingEngine.make (ReportIdentifiers.make_identifiers [])).

Definition demo_venue : Venue := mk_venue ∅ false 0 3 0 [] (-1).

Definition demo_order (id : string) : NewOrderSingleView :=
  mk_new_order id "VOD.L" 49 "100" 50 (given "12.5"%string) (mk_maybe false 0)
    (mk_maybe false 0) [mk_underlyings true "LEG" false "" false ""] [].

Definition demo_cancel (id orig : string) : OrderCancelRequestView :=
  mk_cancel_request id orig "VOD.L" 49 (mk_maybe false ""%string).

Lemma demo_nothing_fails :
  nothing_fails shift_aes length_hmac plenty always demo_layouts never_throws.
Proof.
  split.
  - intros k t. eexists. split; [reflexivity|]. apply length_replicate.
  - intros k _. eexists. split; [reflexivity|]. intros block. eauto.
  - reflexivity.
  - reflexivity.
  - reflexivity.
  - repeat split; reflexivity || discriminate.
Qed.

Lemma demo_venue_ok : venue_ok demo_venue.
Proof.
  split; cbn [v_orders v_highest v_capacity demo_venue].
  - reflexivity.
  - discriminate.
  - intros k e He. by rewrite lookup_empty in He.
  - intros k k' e e' He. by rewrite lookup_empty in He.
  - rewrite map_size_empty. discriminate.
Qed.

Lemma demo_refines : refines 320 shift_aes length_hmac [] demo_engine demo_venue [].
Proof.
  assert (∃ r, OrderBook.open plenty SlotStore.OsOk None 320 "book" 3 0 OrderBook.make
               = (demo_new, Some r, Returns false)) as [r Hopen].
  { eexists. vm_compute. reflexivity. }
  destruct (open_new_book 320 plenty "book" 3 0 demo_new r Hopen) as [Hu Ho];
    [reflexivity|split; reflexivity|].
  split.
  - eexists _, _. exact Hu.
  - exact Ho.
  - vm_compute. reflexivity.
  - vm_compute. reflexivity.
  - vm_compute. reflexivity.
  - reflexivity.
  - reflexivity.
  - reflexivity.
  - discriminate.
  - reflexivity.
Qed.

(** The first order of the day, its fields as a member would send them. *)
Lemma new_order_refines_venue_witness :
  let spec := spec_new_order shift_aes length_hmac [] demo_venue (demo_order "A") 1 5
                20260314 demo_session Live in
  v_orders spec.1 = {[ demo_key "A" := OrderEntry.file_under (demo_key "A")
                         (entry_of (demo_order "A") 1 demo_session) ]} ∧
  (∃ s', apply_new_order shift_aes length_hmac plenty always demo_layouts never_throws
           (demo_order "A") 1 5 20260314 demo_session Live demo_engine
           = (s', Returns ()) ∧
         refines 320 shift_aes length_hmac [] s' spec.1 ([] ++ spec.2) ∧
         venue_ok spec.1) ∧
  length (omap report_of spec.2) = 1%nat.
Proof.
  intros spec. split; [reflexivity|].
  destruct (new_order_refines_venue 320 shift_aes length_hmac [] plenty always demo_layouts
    never_throws demo_nothing_fails (demo_order "A") 1 5 20260314 demo_session Live
    demo_engine demo_venue [] demo_venue_ok ltac:(lia)) as [H1 H2].
  - vm_compute. discriminate.
  - exact demo_refines.
  - split; [exact H1|]. apply H2. left. reflexivity.
Defined.

(** The WAL of a day: two orders, one of them cancelled, then all of them. *)
Definition demo_wal : list WalRecord :=
  [(1, NewOrder (demo_order "A") 5 20260314 demo_session);
   (2, NewOrder (demo_order "B") 6 20260314 demo_session)].

Definition demo_venue_2 : Venue :=
  (spec_all shift_aes length_hmac [] Live demo_venue demo_wal).1.

Lemma demo_wal_ok : Forall (record_ok demo_layouts) demo_wal.
Proof. repeat constructor; vm_compute; discriminate. Qed.

Lemma demo_wal_in_sequence : in_sequence (v_highest demo_venue) demo_wal.
Proof. repeat split; reflexivity. Qed.

Lemma demo_venue_2_ok : venue_ok demo_venue_2.
Proof. apply venue_ok_spec_all, demo_venue_ok. Qed.

Lemma demo_two_orders :
  ∃ s o, refines 320 shift_aes length_hmac [] s demo_venue_2 o.
Proof.
  destruct (runs_apply_all 320 shift_aes length_hmac [] plenty always demo_layouts
    never_throws demo_nothing_fails Live demo_wal demo_venue demo_venue_ok demo_wal_ok
    demo_engine [] demo_refines) as (s & _ & Hs).
  eexists s, _. exact Hs.
Qed.

(** Cancelling the first of two orders. *)
Lemma cancel_refines_venue_witness :
  let spec := spec_cancel shift_aes length_hmac [] demo_venue_2 (demo_cancel "X" "A") 3 7
                20260314 demo_session CatchUp in
  v_orders spec.1 !! demo_key "A" = None ∧
  v_orders spec.1 !! demo_key "B" = v_orders demo_venue_2 !! demo_key "B" ∧
  ∃ s before, refines 320 shift_aes length_hmac [] s demo_venue_2 before ∧
  (∃ s', apply_cancel shift_aes length_hmac never_throws
           (demo_cancel "X" "A") 3 7 20260314 demo_session CatchUp s = (s', Returns ()) ∧
         refines 320 shift_aes length_hmac [] s' spec.1 (before ++ spec.2) ∧
         venue_ok spec.1) ∧
  length (omap report_of spec.2) = 1%nat.
Proof.
  intros spec. split; [vm_compute; reflexivity|]. split; [vm_compute; reflexivity|].
  destruct demo_two_orders as (s & before & Hs). exists s, before. split; [exact Hs|].
  destruct (cancel_refines_venue 320 shift_aes length_hmac [] plenty always demo_layouts
    never_throws demo_nothing_fails (demo_cancel "X" "A") 3 7 20260314 demo_session CatchUp
    s demo_venue_2 before demo_venue_2_ok ltac:(lia) Hs) as [H1 H2].
  split; [exact H1|]. apply H2. left. reflexivity.
Defined.

(** Cancelling the orders placed up to the first: one report, one order kept. *)
Lemma cancel_book_refines_venue_witness :
  let spec := spec_cancel_book shift_aes length_hmac [] demo_venue_2 1 3 7 20260314 Live in
  spec.2 = mk_book_cancelled true 2 1 1 ∧
  ∃ s before, refines 320 shift_aes length_hmac [] s demo_venue_2 before ∧
  (∃ s', apply_cancel_book shift_aes length_hmac never_throws 1 3 7 20260314 Live s
           = (s', Returns spec.2) ∧
         refines 320 shift_aes length_hmac [] s' spec.1.1 (before ++ spec.1.2) ∧
         venue_ok spec.1.1) ∧
  length spec.1.2 = reports_sent spec.2.
Proof.
  intros spec. split; [vm_compute; reflexivity|].
  destruct demo_two_orders as (s & before & Hs). exists s, before. split; [exact Hs|].
  destruct (cancel_book_refines_venue 320 shift_aes length_hmac [] plenty always
    demo_layouts never_throws demo_nothing_fails 1 3 7 20260314 Live s demo_venue_2 before
    demo_venue_2_ok ltac:(lia) Hs) as [H1 H2].
  split; [exact H1|]. apply H2. reflexivity.
Defined.

Lemma live_and_catch_up_agree_witness :
  ∃ s1 s2 v n1 n2,
    apply_all shift_aes length_hmac plenty always demo_layouts never_throws Live demo_wal
      demo_engine = (s1, Returns ()) ∧
    apply_all shift_aes length_hmac plenty always demo_layouts never_throws CatchUp demo_wal
      demo_engine = (s2, Returns ()) ∧
    refines 320 shift_aes length_hmac [] s1 v ([] ++ n1) ∧
    refines 320 shift_aes length_hmac [] s2 v ([] ++ n2) ∧
    omap told n1 = omap told n2.
Proof.
  apply (live_and_catch_up_agree 320 shift_aes length_hmac [] plenty always demo_layouts
    never_throws demo_nothing_fails demo_wal demo_engine demo_engine demo_venue [] []).
  - exact demo_venue_ok.
  - exact demo_wal_ok.
  - exact demo_wal_in_sequence.
  - exact demo_refines.
  - exact demo_refines.
Defined.

