(* ===== verification/MatchingEngineFailure.v ===== *)
(** What a failure costs: the exception handling of
    applications/matching_engine/MatchingEngineStateMachine.cpp
    ([apply_new_order], [apply_cancel], [after_failure]).

    Here any allocation, any call of OpenSSL and any call of the outputs
    interface may throw an exception.  The theorems show that [apply_new_order]
    and [apply_cancel] then return all the same, with the book consistent, that
    the member is sent at most one report, and that no command that was rejected
    has changed the book. *)

From Stdlib Require Import Ascii.
From S2P Require Import Prelude KeyIndex SlotStore OrderBook Identifiers.
From S2P Require Import VoidedCommands GroupEcho MatchingEngine MatchingEngineRefinement.
Import MatchingEngine.
#[local] Open Scope Z_scope.

(** An outcome that is a value or an exception C++ can catch. *)
Definition caught {A} (r : outcome A) : Prop :=
  match r with Returns _ => True | Throws e => catchable e = true end.

Lemma caught_bind {A B} (r : outcome A) (f : A → outcome B) :
  caught r → (∀ a, r = Returns a → caught (f a)) → caught (obind r f).
Proof. destruct r; simpl; auto. Qed.

Definition cipher_throws_caught (c : list Z → outcome (list Z)) : Prop :=
  ∀ block, caught (c block).

Lemma cbc_caught c n r q : cipher_throws_caught c → caught (Ff1.cbc c n r q).
Proof.
  intros Hc. revert r q. induction n as [|n IH]; intros r q; cbn [Ff1.cbc]; [done|].
  apply caught_bind; auto.
Qed.

Lemma rounds_caught c tweak after_p b mu mv direction l ab :
  cipher_throws_caught c →
  caught (Ff1.rounds direction (Ff1.round_output c tweak after_p b) mu mv l ab).
Proof.
  intros Hc. revert ab. induction l as [|i l IH]; intros ab; cbn [Ff1.rounds]; [done|].
  apply caught_bind; [|auto].
  destruct direction; unfold Ff1.encrypt_round, Ff1.decrypt_round, Ff1.round_output;
    (apply caught_bind; [|done]); (apply caught_bind; [by apply cbc_caught|done]).
Qed.

Lemma run_caught c radix direction x tweak :
  cipher_throws_caught c → caught (Ff1.run c radix direction x tweak).
Proof.
  intros Hc. unfold Ff1.run.
  destruct (_ || _); [done|]. destruct (_ <? _)%nat; [done|].
  destruct (existsb _ _); [done|]. destruct (_ =? _); [done|].
  apply caught_bind; [apply Hc|]. intros after_p _.
  apply caught_bind; [by apply rounds_caught|done].
Qed.

Lemma make_caught letter c s p :
  cipher_throws_caught c → caught (ReportIdentifiers.make letter c s p).
Proof.
  intros Hc. unfold ReportIdentifiers.make. destruct (negb _); [done|].
  apply caught_bind; [by apply run_caught|done].
Qed.

Section failure.
Context {I : Type} `{KI : KeyIndex I OrderKey.t Z}.
Context {KL : KeyIndexLaws I OrderKey.t Z}.
Context (entry_size : Z).
Context (aes : list Z → outcome (list Z → outcome (list Z))).
Context (hmac : list Z → string → outcome (list Z)).
Context (mem : nat → bool) (arena_mem : Z → bool) (layouts : Layouts).
Context (output_throws : list Output → Output → option exn).

(** What fails throws an exception. *)
Record failures_are_exceptions : Prop := {
  fe_hmac : ∀ k t, caught (hmac k t);
  fe_aes : ∀ k, caught (aes k) ∧ ∀ c, aes k = Returns c → cipher_throws_caught c;
  fe_outputs : ∀ before o e, output_throws before o = Some e → catchable e = true;
  fe_layouts : layout_ok (of_underlyings layouts) ∧
               layout_ok (of_party_ids layouts) ∧
               layout_ok (of_party_sub_ids layouts)
}.

Abbreviation state := (OrderBook.t I * Engine)%type.

Definition ciphers_caught (i : ReportIdentifiers.t) : Prop :=
  (∀ c, ReportIdentifiers.order_cipher i = Some c → cipher_throws_caught c) ∧
  (∀ c, ReportIdentifiers.report_cipher i = Some c → cipher_throws_caught c).

(** An engine whose book is consistent. *)
Record sound (s : state) : Prop := {
  so_book : ∃ r fl, use_inv entry_size s.1 r fl;
  so_highest : 0 ≤ highest_applied_seq_no s.2;
  so_arena : GroupEcho.initial_er_group_arena_size ≤ er_group_arena_size s.2;
  so_ciphers : ciphers_caught (identifiers s.2)
}.

Definition is_rejection (er : ExecutionReport) : bool :=
  match exec_type er with ExecRejected => true | _ => false end.

(** While a command is applied that began with the orders [m0] and the outputs
    [o0]: it has sent [k] reports, and [c] says whether it has changed the
    book; if it has, it has sent no rejection. *)
Context (m0 : gmap OrderKey.t OrderEntry.t) (o0 : list Output).

Record doing (k : nat) (c : bool) (s : state) : Prop := {
  do_sound : sound s;
  do_changed : book_changed_by_command s.2 = c;
  do_orders : c = false → orders s.1 = m0;
  do_sent : ∃ n, outputs s.2 = o0 ++ n ∧ length (omap report_of n) = k ∧
              reports_for_command s.2 = Z.of_nat k ∧
              (c = true → Forall (λ er, is_rejection er = false) (omap report_of n))
}.

(** What the command has done by its end, however it ends. *)
Definition done_with (s : state) : Prop := ∃ k c, (k ≤ 1)%nat ∧ doing k c s.

(** [m] leaves what the command has done as it was, and its result satisfies
    [φ]. *)
Definition keeps {A} (k : nat) (c : bool) (m : comp state A) (φ : A → Prop) : Prop :=
  ∀ s, doing k c s →
    match m s with
    | (s', Returns a) => doing k c s' ∧ φ a
    | (s', Throws e) => catchable e = true ∧ doing k c s'
    end.

(** [m] is the rest of the command. *)
Definition ends (k : nat) (c : bool) (m : comp state unit) : Prop :=
  ∀ s, doing k c s →
    match m s with
    | (s', Returns _) => done_with s'
    | (s', Throws e) => catchable e = true ∧ done_with s'
    end.

Lemma keeps_ret {A} k c (a : A) (φ : A → Prop) : φ a → keeps k c (mret a) φ.
Proof. intros Ha s Hs. done. Qed.

Lemma keeps_bind {A B} k c (m : comp state A) (f : A → comp state B) φ ψ :
  keeps k c m φ → (∀ a, φ a → keeps k c (f a) ψ) → keeps k c (m ≫= f) ψ.
Proof.
  intros Hm Hf s Hs. specialize (Hm s Hs). unfold mbind, comp_bind.
  destruct (m s) as [s1 [a|e]]; [|done]. destruct Hm as [Hs1 Ha]. by apply Hf.
Qed.

Lemma ends_bind {A} k c (m : comp state A) (f : A → comp state unit) φ :
  (k ≤ 1)%nat → keeps k c m φ → (∀ a, φ a → ends k c (f a)) → ends k c (m ≫= f).
Proof.
  intros Hk Hm Hf s Hs. specialize (Hm s Hs). unfold mbind, comp_bind.
  destruct (m s) as [s1 [a|e]]; destruct Hm as [H1 H2]; [by apply Hf|].
  split; [done|]. by exists k, c.
Qed.

Lemma ends_keeps k c (m : comp state unit) φ :
  (k ≤ 1)%nat → keeps k c m φ → ends k c m.
Proof.
  intros Hk Hm s Hs. specialize (Hm s Hs).
  destruct (m s) as [s' [?|e]]; destruct Hm; [|split; [done|]]; by exists k, c.
Qed.

Context (FE : failures_are_exceptions).

(** *** The steps *)

(** A step on the engine that leaves what the command has done alone. *)
Lemma keeps_engine {A} k c (m : comp Engine A) (φ : A → Prop) :
  (∀ d, 0 ≤ highest_applied_seq_no d →
        GroupEcho.initial_er_group_arena_size ≤ er_group_arena_size d →
        ciphers_caught (identifiers d) →
        let (d', r) := m d in
        0 ≤ highest_applied_seq_no d' ∧
        GroupEcho.initial_er_group_arena_size ≤ er_group_arena_size d' ∧
        ciphers_caught (identifiers d') ∧
        book_changed_by_command d' = book_changed_by_command d ∧
        reports_for_command d' = reports_for_command d ∧
        (∃ n, outputs d' = outputs d ++ n ∧ omap report_of n = []) ∧
        match r with Returns a => φ a | Throws e => catchable e = true end) →
  keeps k c (on_snd m) φ.
Proof.
  intros Hm [b d] [[Hb Hh Ha Hc] Hch Ho (n & Hn & Hk & Hr & Hrej)]. unfold on_snd. simpl in *.
  specialize (Hm d Hh Ha Hc). destruct (m d) as [d' r]. simpl.
  destruct Hm as (Hh' & Ha' & Hc' & Hch' & Hr' & (n' & Hn' & Hz) & Hres).
  assert (doing k c (b, d')) as Hd'.
  { split; simpl; [by split|congruence|done|]. exists (n ++ n').
    rewrite omap_app, Hz, app_nil_r. split; [by rewrite Hn', Hn, app_assoc|].
    split; [done|]. split; [congruence|done]. }
  destruct r; done.
Qed.

(** The outputs that are no report. *)
Lemma keeps_emit k c o :
  report_of o = None → keeps k c (on_snd (emit output_throws o)) (λ _, True).
Proof using FE.
  intros Ho. apply keeps_engine. intros d Hh Ha Hc. unfold emit.
  destruct (output_throws _ _) as [e|] eqn:Ht; simpl.
  - split_and!; try done. { exists []. by rewrite app_nil_r. }
    by apply (fe_outputs FE) in Ht.
  - split_and!; try done. exists [o]. simpl. by rewrite Ho.
Qed.

Lemma keeps_outcome k c session cl kind repeat seq orig :
  keeps k c (order_outcome output_throws session cl kind repeat seq orig) (λ _, True).
Proof using FE. by apply keeps_emit. Qed.

(** A question the engine answers. *)
Lemma keeps_ask k c {A} (f : Engine → outcome A) :
  (∀ d, ciphers_caught (identifiers d) → caught (f d)) →
  keeps k c (on_snd (ask f)) (λ _, True).
Proof.
  intros Hf. apply keeps_engine. intros d Hh Ha Hc. simpl. specialize (Hf d Hc).
  split_and!; try done. exists []. by rewrite app_nil_r.
Qed.

Lemma keeps_exec_id k c seq place : keeps k c (on_snd (make_exec_id seq place)) (λ _, True).
Proof.
  apply keeps_ask. intros d [_ Hr]. apply caught_bind; [|done].
  unfold ReportIdentifiers.exec_id. destruct (ReportIdentifiers.report_cipher _); [|done].
  apply make_caught. by apply Hr.
Qed.

Lemma keeps_order_id k c seq : keeps k c (on_snd (make_order_id seq)) (λ _, True).
Proof.
  apply keeps_ask. intros d [Ho _]. apply caught_bind; [|done].
  unfold ReportIdentifiers.order_id. destruct (ReportIdentifiers.order_cipher _); [|done].
  apply make_caught. by apply Ho.
Qed.

Lemma keeps_voids k c : keeps k c (on_snd (gets voids)) (λ _, True).
Proof. by apply (keeps_ask k c (λ d, Returns (voids d))). Qed.

Lemma make_cipher_caught key :
  caught (Ff1.make aes key 16) ∧
  ∀ c, Ff1.make aes key 16 = Returns c → cipher_throws_caught c.
Proof using FE.
  unfold Ff1.make. cbn [orb Z.ltb Z.compare Pos.compare Pos.compare_cont].
  destruct (_ || _); [apply (fe_aes FE)|done].
Qed.

Lemma use_trading_date_caught date i :
  ciphers_caught i →
  ciphers_caught (ReportIdentifiers.use_trading_date aes hmac date i).1 ∧
  caught (ReportIdentifiers.use_trading_date aes hmac date i).2.
Proof using FE.
  intros Hc. unfold ReportIdentifiers.use_trading_date. destruct (_ =? _); [done|].
  assert (caught (let! day := hmac (ReportIdentifiers.secret i)
                      (ReportIdentifiers.trading_date_text date) in
                  let! ok := hmac day "OrderID" in
                  let! rk := hmac day "ExecID" in
                  Returns (ok, rk))%venue) as Hkeys.
  { repeat (apply caught_bind; [apply (fe_hmac FE)|intros]). done. }
  destruct (obind _ _) as [[ok rk]|e]; [|done].
  destruct (make_cipher_caught ok) as [Hmo Hco], (make_cipher_caught rk) as [Hmr Hcr].
  destruct (Ff1.make aes ok 16) as [oc|e]; [|split; [split; intros x; simpl; congruence|done]].
  destruct (Ff1.make aes rk 16) as [rc|e]; (split; [|done]); split; intros x; simpl;
    intros [= <-]; auto.
Qed.

Lemma keeps_use_trading_date k c date :
  keeps k c (use_trading_date aes hmac date) (λ _, True).
Proof using FE.
  apply keeps_engine. intros d Hh Ha Hc.
  destruct (use_trading_date_caught date (identifiers d) Hc) as [H1 H2].
  destruct (ReportIdentifiers.use_trading_date _ _ _ _) as [i r]. simpl in *.
  split_and!; try done. exists []. by rewrite app_nil_r.
Qed.

(** The checks of a position: the command is taken up only above the highest
    applied, which is not negative. *)
Lemma keeps_applied_before k c source seq :
  keeps k c (not_live_and_applied_before source seq)
    (λ before, before = false → is_live source = true ∨ 0 < seq).
Proof.
  unfold not_live_and_applied_before. destruct (is_live source).
  { apply keeps_ret. by left. }
  apply keeps_engine. intros d Hh Ha Hc.
  destruct (Z.ltb_spec (highest_applied_seq_no d) seq); simpl; split_and!; try done;
    try lia; exists []; by rewrite app_nil_r.
Qed.

Lemma keeps_goes_backwards k c source seq :
  keeps k c (live_and_goes_backwards source seq)
    (λ backwards, backwards = false → is_live source = false ∨ 0 < seq).
Proof.
  unfold live_and_goes_backwards. destruct (is_live source).
  2:{ apply keeps_ret. by left. }
  apply keeps_engine. intros d Hh Ha Hc.
  destruct (Z.leb_spec seq (highest_applied_seq_no d)); simpl; split_and!; try done;
    try lia; exists []; by rewrite app_nil_r.
Qed.

Lemma keeps_echo k c view :
  keeps k c (echo_groups arena_mem layouts view) (λ _, True).
Proof using FE.
  apply keeps_engine. intros d Hh Ha Hc.
  unfold GroupEcho.initial_er_group_arena_size in *.
  destruct (echo_groups_safe layouts (fe_layouts FE) arena_mem (no_underlyings view)
    (no_party_i_ds view) 8 (er_group_arena_size d)) as (n & r & -> & Hle & Hr); [lia| |].
  { unfold GroupEcho.max_er_group_arena_size. simpl. lia. }
  simpl. split_and!; try done; [lia|exists []; by rewrite app_nil_r|].
  destruct Hr as [-> |[groups ->]]; done.
Qed.

(** A step on the book that keeps the orders. *)
Lemma doing_book k c b b' d :
  doing k c (b, d) → (∃ r fl, use_inv entry_size b' r fl) → orders b' = orders b →
  doing k c (b', d).
Proof.
  intros [[Hb Hh Ha Hc] Hch Ho Hs] Hb' Heq. split; [by split|done| |done].
  simpl in *. intros Hf. rewrite Heq. auto.
Qed.

Lemma keeps_publish k c seq : keeps k c (publish seq) (λ _, True).
Proof.
  intros [b d] Hs. destruct (so_book _ (do_sound _ _ _ Hs)) as (r & fl & Hu). simpl in Hu.
  destruct (publish_ok b r fl seq (ui_ok _ _ _ _ Hu))
    as (b' & r' & Hp & Hb' & Ho & Hh & Hk & _ & _ & Hsh & Hov).
  unfold publish, on_fst. simpl. rewrite Hp. simpl. split; [|done].
  apply (doing_book k c b); [done| |done]. exists r', fl.
  eapply use_inv_values; try done; rewrite Hov, ?Hh, ?Hk; apply Hu.
Qed.

Lemma keeps_publish_after_refusal k c seq source :
  keeps k c (publish_after_refusal seq source) (λ _, True).
Proof. destruct source; [by apply keeps_ret|apply keeps_publish]. Qed.

(** A question the book answers. *)
Lemma keeps_book_ask k c {A} (f : OrderBook.t I → outcome A) (φ : A → Prop) :
  (∀ b r fl, use_inv entry_size b r fl → (c = false → orders b = m0) →
     ∃ a, f b = Returns a ∧ φ a) →
  keeps k c (on_fst (ask f)) φ.
Proof.
  intros Hf [b d] Hs. destruct (so_book _ (do_sound _ _ _ Hs)) as (r & fl & Hu).
  destruct (Hf b r fl Hu (do_orders _ _ _ Hs)) as (a & Ha & Hφ).
  unfold on_fst, ask. simpl. by rewrite Ha.
Qed.

Lemma keeps_halted k c : keeps k c (on_fst (gets OrderBook.halted)) (λ _, True).
Proof. apply (keeps_book_ask k c (λ b, Returns (OrderBook.halted b))). eauto. Qed.

Lemma keeps_set_halted k c h : keeps k c (set_halted h) (λ _, True).
Proof.
  unfold set_halted. eapply keeps_bind; [apply keeps_halted|]. intros now _.
  destruct (Bool.eqb h now); [by apply keeps_ret|].
  intros [b d] Hs. destruct (so_book _ (do_sound _ _ _ Hs)) as (r & fl & Hu). simpl in Hu.
  destruct (set_halted_ok b r fl h (ui_ok _ _ _ _ Hu))
    as (b' & r' & Hp & Hb' & Ho & Hh & Hk & _ & _ & Hsh & Hov).
  pose proof (mapped_owner _ _ (bk_mapped _ _ _ (ui_ok _ _ _ _ Hu))).
  unfold on_fst. simpl. rewrite Hp. simpl. split; [|done].
  apply (doing_book k c b); [done| |done]. exists r', fl.
  eapply use_inv_values; try done; rewrite Hov.
  + rewrite Hh. apply list_lookup_insert_eq. lia.
  + rewrite Hk, list_lookup_insert_ne by lia. apply Hu.
Qed.

(** *** Reports and changes of the book *)

Definition allowed (c : bool) (er : ExecutionReport) : Prop :=
  c = true → is_rejection er = false.

(** What delivering a report does to the count. *)
Lemma doing_sent c b d er seq session repeat :
  doing 0 c (b, d) → allowed c er →
  doing 1 c (b, with_progress
                  (with_outputs d (outputs d ++ [SendReport er seq session repeat]))
                  (reports_for_command d + 1) (book_changed_by_command d)).
Proof.
  intros [[Hb Hh Ha Hc] Hch Ho (n & Hn & Hk & Hr & Hrej)] Hal. simpl in *.
  split; simpl; [by split|done|done|]. exists (n ++ [SendReport er seq session repeat]).
  rewrite Hn, app_assoc, omap_app, length_app. simpl. split_and!; [done|lia|lia|].
  intros Htrue. apply Forall_app. split; [by apply Hrej|]. constructor; [by apply Hal|done].
Qed.

(** Sending the report, and then the rest. *)
Lemma ends_send c er seq session repeat (f : unit → comp state unit) :
  allowed c er → ends 1 c (f ()) →
  ends 0 c (send_report output_throws er seq session repeat ≫= f).
Proof using FE.
  intros Hal Hf [b d] Hs. unfold send_report, emit, mbind, comp_bind, on_snd. simpl.
  destruct (output_throws _ _) as [e|] eqn:Ht; simpl.
  - split; [by eapply (fe_outputs FE)|]. exists 0%nat, c. split; [lia|]. by destruct d.
  - by apply Hf, doing_sent.
Qed.

Lemma ends_last_send c er seq session repeat :
  allowed c er → ends 0 c (send_report output_throws er seq session repeat).
Proof using FE.
  intros Hal [b d] Hs. unfold send_report, emit, mbind, comp_bind, on_snd. simpl.
  destruct (output_throws _ _) as [e|] eqn:Ht; simpl.
  - split; [by eapply (fe_outputs FE)|]. exists 0%nat, c. split; [lia|]. by destruct d.
  - exists 1%nat, c. split; [lia|]. by apply doing_sent.
Qed.

(** A refusal: the report, then the position. *)
Lemma ends_refusal er seq session source :
  ends 0 false (send_report output_throws er seq session (repeat_of source) ;;
                publish_after_refusal seq source).
Proof using FE.
  apply ends_send; [done|]. eapply ends_keeps; [lia|apply keeps_publish_after_refusal].
Qed.

(** The book is changed and the command notes it. *)
Lemma doing_changed b d b' :
  doing 0 false (b, d) → (∃ r fl, use_inv entry_size b' r fl) →
  doing 0 true (b', with_progress d (reports_for_command d) true).
Proof.
  intros [[Hb Hh Ha Hc] Hch Ho (n & Hn & Hk & Hr & Hrej)] Hb'. simpl in *.
  split; simpl; [by split|done|done|]. exists n. split_and!; try done.
  intros _. apply nil_length_inv in Hk. by rewrite Hk.
Qed.

Lemma ends_add key e seq (f : bool → comp state unit) :
  key_wf key → m0 !! key = None → seq = OrderEntry.placed_at_seq_no e → 0 < seq →
  ends 0 false (f false) → ends 0 true (f true) →
  ends 0 false (added ← on_fst (OrderBook.add mem key e seq);
                note_added added ;; f added).
Proof.
  intros Hwf Hn He Hpos Hfull Hadded [b d] Hs.
  destruct (so_book _ (do_sound _ _ _ Hs)) as (r & fl & Hu). simpl in Hu.
  pose proof (do_orders _ _ _ Hs eq_refl) as Ho. simpl in Ho.
  pose proof (ui_ok _ _ _ _ Hu) as Hb. unfold mbind at 1, comp_bind at 1, on_fst. simpl.
  destruct (add_ok mem b r fl key e seq Hb Hwf) as
    [[-> Ha]|(b' & r' & fl' & res & Ha & Hb' & Hbes & Hres)]; [congruence|done|done| |].
  - rewrite Ha. simpl. apply Hfull.
    pose proof (do_changed _ _ _ Hs) as Hch. destruct d. simpl in *. by subst.
  - rewrite Ha. assert (∃ r fl, use_inv entry_size b' r fl) as Hu'.
    { exists r', fl'. by eapply use_inv_beside. }
    destruct Hres as [[-> Ho']|(-> & Ho' & _)]; simpl.
    + apply Hadded. by apply (doing_changed b).
    + split; [done|]. exists 0%nat, false. split; [lia|].
      apply (doing_book 0 false b); [done|done|by rewrite Ho'].
Qed.

Lemma ends_remove key (f : comp state unit) :
  ends 0 true f →
  ends 0 false (on_fst (OrderBook.remove key) ;; note_added true ;; f).
Proof.
  intros Hf [b d] Hs. destruct (so_book _ (do_sound _ _ _ Hs)) as (r & fl & Hu).
  simpl in Hu. unfold mbind at 1, comp_bind at 1, on_fst. simpl.
  destruct (remove_ok b r fl key (ui_ok _ _ _ _ Hu))
    as (b' & r' & fl' & -> & Hb' & Hbes & _). simpl. apply Hf.
  apply (doing_changed b); [done|]. exists r', fl'. by eapply use_inv_beside.
Qed.

Lemma ends_accept view order id seq time session source :
  ends 0 true
    ((if is_live source then on_snd (emit output_throws OrderAccepted) else mret ()) ;;
     groups ← echo_groups arena_mem layouts view;
     send_report output_throws (accepted_order view order id time groups) seq session
       (repeat_of source) ;;
     publish seq ;;
     order_outcome output_throws session (no_cl_ord_id view) OutcomeAccepted
       (repeat_of source) seq "").
Proof using FE.
  eapply (ends_bind _ _ _ _ (λ _, True)); [lia| |intros _ _].
  { destruct (is_live source); [by apply keeps_emit|by apply keeps_ret]. }
  eapply ends_bind; [lia|apply keeps_echo|intros groups _].
  apply ends_send; [done|].
  eapply ends_bind; [lia|apply keeps_publish|intros _ _].
  eapply ends_keeps; [lia|apply keeps_outcome].
Qed.

Lemma ends_place_order view seq time session source id :
  0 < seq →
  ends 0 false (place_order mem arena_mem layouts output_throws view seq time session
                  source id).
Proof using FE.
  intros Hpos. unfold place_order.
  set (key := OrderKey.make session (no_cl_ord_id view)).
  eapply (ends_bind _ _ _ _ (λ dup, dup = false → m0 !! key = None)); [lia| |].
  { apply keeps_book_ask. intros b r fl Hu Ho.
    rewrite (contains_orders b r fl key (ui_ok _ _ _ _ Hu)), (Ho eq_refl).
    eexists. split; [reflexivity|]. by destruct (m0 !! key). }
  intros [|] Hdup.
  { eapply ends_bind; [lia|apply keeps_outcome|intros _ _]. apply ends_refusal. }
  eapply ends_bind; [lia|apply keeps_order_id|intros order _].
  apply (ends_add key _ seq (λ added, if negb added then _ else _));
    [apply make_wf|auto|done|done|apply ends_refusal|apply ends_accept].
Qed.

Lemma ends_assoc {A B} k c (m : comp state A) (f : A → comp state B)
    (g : B → comp state unit) :
  ends k c (m ≫= λ a, f a ≫= g) → ends k c ((m ≫= f) ≫= g).
Proof.
  intros He s Hs. specialize (He s Hs). revert He. unfold mbind, comp_bind.
  by destruct (m s) as [s1 [a|e]].
Qed.

(** The refusals, which begin by making the report's name. *)
Lemma ends_refuse (er : string → ExecutionReport) seq session source :
  ends 0 false ((id ← on_snd (make_exec_id seq 0);
                 send_report output_throws (er id) seq session (repeat_of source)) ;;
                publish_after_refusal seq source).
Proof using FE.
  apply ends_assoc. eapply ends_bind; [lia|apply keeps_exec_id|intros id _].
  apply ends_refusal.
Qed.

Lemma ends_note_and_refuse (note : comp state unit) (er : string → ExecutionReport)
    seq session source :
  keeps 0 false note (λ _, True) →
  ends 0 false ((note ;; id ← on_snd (make_exec_id seq 0);
                 send_report output_throws (er id) seq session (repeat_of source)) ;;
                publish_after_refusal seq source).
Proof using FE.
  intros Hn. apply ends_assoc. eapply ends_bind; [lia|exact Hn|intros _ _].
  apply ends_refuse.
Qed.

Lemma ends_refuse_live (er : string → ExecutionReport) seq session :
  ends 0 false (id ← on_snd (make_exec_id seq 0);
                send_report output_throws (er id) seq session RepeatNo).
Proof using FE.
  eapply ends_bind; [lia|apply keeps_exec_id|intros id _]. by apply ends_last_send.
Qed.

Lemma keeps_find k c key :
  keeps k c (on_fst (ask (λ b, OrderBook.find b key))) (λ _, True).
Proof.
  apply keeps_book_ask. intros b r fl Hu _.
  rewrite (find_orders b r fl key (ui_ok _ _ _ _ Hu)). eauto.
Qed.

Lemma ends_cancel_order view seq time session source id :
  ends 0 false (cancel_order output_throws view seq time session source id).
Proof using FE.
  unfold cancel_order. eapply ends_bind; [lia|apply keeps_find|intros [e|] _].
  - apply ends_remove. eapply ends_bind; [lia|apply keeps_order_id|intros order _].
    apply ends_send; [done|].
    eapply ends_bind; [lia|apply keeps_publish|intros _ _].
    eapply ends_keeps; [lia|apply keeps_outcome].
  - apply ends_send; [done|].
    eapply ends_bind; [lia|apply keeps_publish_after_refusal|intros _ _].
    eapply ends_keeps; [lia|apply keeps_outcome].
Qed.

Lemma ends_refuse_voided_cancel view seq time session by_void source :
  ends 0 false (refuse_voided_cancel output_throws view seq time session by_void
                  (repeat_of source) ;;
                publish_after_refusal seq source).
Proof using FE.
  unfold refuse_voided_cancel.
  apply ends_assoc. eapply ends_bind; [lia|apply keeps_outcome|intros _ _].
  apply ends_assoc. eapply (ends_bind _ _ _ _ (λ _, True)); [lia| |intros found _].
  { destruct (OrderKey.fits _); [apply keeps_find|by apply keeps_ret]. }
  apply ends_assoc. eapply (ends_bind _ _ _ _ (λ _, True)); [lia| |intros named _].
  { destruct found; [|by apply keeps_ret].
    eapply keeps_bind; [apply keeps_order_id|intros oid _]. by apply keeps_ret. }
  apply ends_refuse.
Qed.

(** How both commands begin. *)
Lemma ends_opening date seq source (no_name out fresh : comp state unit) :
  ends 0 false no_name → ends 0 false out → (0 < seq → ends 0 false fresh) →
  ends 0 false (opening aes hmac date seq source () no_name out fresh).
Proof using FE.
  intros Hno Hout Hfresh. unfold opening.
  eapply ends_bind; [lia|apply keeps_applied_before|intros [|] Hb].
  { eapply (ends_keeps _ _ _ (λ _, True)); [lia|by apply keeps_ret]. }
  destruct (negb _); [done|].
  eapply ends_bind; [lia|apply keeps_use_trading_date|intros _ _].
  eapply ends_bind; [lia|apply keeps_goes_backwards|intros [|] Hg]; [done|].
  apply Hfresh. destruct (Hb eq_refl), (Hg eq_refl); congruence || done.
Qed.

Lemma ends_new_order view seq time date session source :
  ends 0 false (apply_new_order_unguarded aes hmac mem arena_mem layouts output_throws
                  view seq time date session source).
Proof using FE.
  apply ends_opening.
  { eapply ends_keeps; [lia|apply keeps_set_halted]. }
  { apply ends_refuse_live. }
  intros Hpos. destruct (_ || _); [apply ends_refuse|].
  eapply ends_bind; [lia|apply keeps_voids|intros known _].
  destruct (VoidedCommandList.voiding _ _ _) as [by_void|].
  { apply ends_note_and_refuse, keeps_outcome. }
  destruct (negb _); [apply ends_note_and_refuse, keeps_outcome|].
  eapply ends_bind; [lia|apply keeps_exec_id|intros id _].
  eapply ends_bind; [lia|apply keeps_halted|intros [|] _]; [apply ends_refusal|].
  by apply ends_place_order.
Qed.

Lemma ends_cancel view seq time date session source :
  ends 0 false (apply_cancel_unguarded aes hmac output_throws view seq time date session
                  source).
Proof using FE.
  apply ends_opening.
  { eapply ends_keeps; [lia|apply keeps_set_halted]. }
  { apply ends_refuse_live. }
  intros Hpos. destruct (_ || _); [apply ends_refuse|].
  eapply ends_bind; [lia|apply keeps_voids|intros known _].
  destruct (VoidedCommandList.voiding _ _ _) as [by_void|].
  { apply ends_refuse_voided_cancel. }
  destruct (_ || _); [apply ends_note_and_refuse, keeps_outcome|].
  eapply ends_bind; [lia|apply keeps_exec_id|intros id _]. apply ends_cancel_order.
Qed.

(** What the member and the book see at the end. *)
Definition finished (s : state) : Prop :=
  sound s ∧ ∃ n, outputs s.2 = o0 ++ n ∧ (length (omap report_of n) ≤ 1)%nat ∧
    (orders s.1 = m0 ∨ Forall (λ er, is_rejection er = false) (omap report_of n)).

Lemma done_finished s : done_with s → finished s.
Proof.
  intros (k & c & Hk & [Hs Hch Ho (n & Hn & Hl & _ & Hrej)]). split; [done|].
  exists n. split; [done|]. split; [lia|]. destruct c; [right|left]; auto.
Qed.

(** The rejection of a command that failed is sent outside the count. *)
Lemma failure_finished seq source (er : string → ExecutionReport) session s :
  done_with s →
  ∃ s', after_failure seq source
          (id ← on_snd (make_exec_id seq 0);
           on_snd (emit output_throws
             (SendReport (er id) seq session (repeat_of source)))) s
        = (s', Returns ()) ∧ finished s'.
Proof using FE.
  intros Hs. pose proof Hs as (k & c & Hk & Hd). destruct s as [b d].
  unfold after_failure. erewrite bind_returns; [|reflexivity]. cbn [snd].
  pose proof (do_changed _ _ _ Hd) as Hch.
  destruct (do_sent _ _ _ Hd) as (n & Hn & Hl & Hr & Hrej). simpl in *.
  rewrite Hch, Hr. destruct c; cbn [negb andb].
  { pose proof (keeps_publish k true seq _ Hd) as Hp. unfold try_catch.
    destruct (publish seq (b, d)) as [s' [[]|e]]; destruct Hp as [H1 H2].
    - exists s'. split; [done|]. apply done_finished. by exists k, true.
    - exists s'. rewrite H1. split; [done|]. apply done_finished. by exists k, true. }
  destruct (Z.eqb_spec (Z.of_nat k) 0) as [Hz|Hnz].
  2:{ exists (b, d). split; [done|]. by apply done_finished. }
  assert (k = 0%nat) as -> by lia. unfold try_catch.
  pose proof (keeps_exec_id 0 false seq 0 _ Hd) as Hid.
  unfold mbind at 1 2, comp_bind at 1 2.
  destruct (on_snd (make_exec_id seq 0) (b, d)) as [s1 [id|e]]; destruct Hid as [H1 H2].
  2:{ rewrite H1. exists s1. split; [done|]. apply done_finished. by exists 0%nat, false. }
  destruct s1 as [b1 d1]. unfold on_snd at 1, emit. cbn [fst snd].
  destruct (output_throws _ _) as [e|] eqn:Ht; cbn [fst snd].
  { rewrite (fe_outputs FE _ _ _ Ht). exists (b1, d1). split; [done|].
    apply done_finished. by exists 0%nat, false. }
  set (d2 := with_outputs d1 _).
  assert (∃ b2, publish_after_refusal seq source (b1, d2) = ((b2, d2), Returns ()) ∧
    (∃ r fl, use_inv entry_size b2 r fl) ∧ orders b2 = orders b1) as (b2 & -> & Hu2 & Ho2).
  { destruct (so_book _ (do_sound _ _ _ H1)) as (r & fl & Hu). simpl in Hu.
    destruct source; [by exists b1; eauto|].
    destruct (publish_ok b1 r fl seq (ui_ok _ _ _ _ Hu))
      as (b2 & r' & Hp & Hb' & Ho & Hh & Hkn & _ & _ & Hsh & Hov).
    exists b2. unfold publish_after_refusal, publish, on_fst. simpl. rewrite Hp.
    split; [done|]. split; [|done]. exists r', fl.
    eapply use_inv_values; try done; rewrite Hov, ?Hh, ?Hkn; apply Hu. }
  exists (b2, d2). split; [done|]. destruct H1 as [[_ Hh Ha Hc] _ Ho (n1 & Hn1 & Hl1 & _)].
  split; [by split|]. exists (n1 ++ [SendReport (er id) seq session (repeat_of source)]).
  simpl in *. rewrite Hn1, app_assoc, omap_app, length_app. simpl. split; [done|].
  split; [lia|]. left. rewrite Ho2. by apply Ho.
Qed.

End failure.

Section properties.
Context {I : Type} `{KI : KeyIndex I OrderKey.t Z}.
Context {KL : KeyIndexLaws I OrderKey.t Z}.
Context (entry_size : Z).
Context (aes : list Z → outcome (list Z → outcome (list Z))).
Context (hmac : list Z → string → outcome (list Z)).
Context (mem : nat → bool) (arena_mem : Z → bool) (layouts : Layouts).
Context (output_throws : list Output → Output → option exn).

Abbreviation state := (OrderBook.t I * Engine)%type.

(** A guarded command: what it is caught doing is put right. *)
Lemma guarded (m : comp state unit) seq source (er : string → ExecutionReport) session s :
  failures_are_exceptions aes hmac layouts output_throws → sound entry_size s →
  ends entry_size (orders s.1) (outputs s.2) 0 false m →
  ∃ s', (begin_command ;; try_catch m (λ _, after_failure seq source
           (id ← on_snd (make_exec_id seq 0);
            on_snd (emit output_throws
              (SendReport (er id) seq session (repeat_of source)))))) s = (s', Returns ()) ∧
    finished entry_size (orders s.1) (outputs s.2) s'.
Proof.
  intros FE [Hb Hh Ha Hc] Hm. destruct s as [b d]. simpl in *.
  erewrite bind_returns; [|reflexivity]. unfold try_catch.
  assert (doing entry_size (orders b) (outputs d) 0 false (b, with_progress d 0 false)) as Hd.
  { split; simpl; [by split|done|done|]. exists []. by rewrite app_nil_r. }
  specialize (Hm _ Hd). unfold on_snd, modify in *. cbn [fst snd] in *.
  destruct (m (b, with_progress d 0 false)) as [s1 [[]|e]].
  - exists s1. split; [done|]. by apply done_finished.
  - destruct Hm as [-> Hs1]. by eapply failure_finished.
Qed.

(** C7: a failure costs one command and not the engine.  Whatever allocation,
    call of OpenSSL or call of the outputs interface throws while a new order or
    a cancel is applied, the call returns, the book passes the check of its
    consistency, the member has been sent at most one report, and if that was a
    rejection the orders on the book are those before the command. *)
Theorem failure_costs_one_command order cancel seq time date session source s :
  failures_are_exceptions aes hmac layouts output_throws → sound entry_size s →
  (∃ s' n,
     apply_new_order aes hmac mem arena_mem layouts output_throws order seq time date
       session source s = (s', Returns ()) ∧ sound entry_size s' ∧
     OrderBook.consistency_problem s'.1 = Returns None ∧
     outputs s'.2 = outputs s.2 ++ n ∧ (length (omap report_of n) ≤ 1)%nat ∧
     (orders s'.1 = orders s.1 ∨
      Forall (λ er, is_rejection er = false) (omap report_of n))) ∧
  (∃ s' n,
     apply_cancel aes hmac output_throws cancel seq time date session source s
       = (s', Returns ()) ∧ sound entry_size s' ∧
     OrderBook.consistency_problem s'.1 = Returns None ∧
     outputs s'.2 = outputs s.2 ++ n ∧ (length (omap report_of n) ≤ 1)%nat ∧
     (orders s'.1 = orders s.1 ∨
      Forall (λ er, is_rejection er = false) (omap report_of n))).
Proof.
  intros FE Hs.
  assert (∀ s', finished entry_size (orders s.1) (outputs s.2) s' →
    sound entry_size s' ∧ OrderBook.consistency_problem s'.1 = Returns None) as Hok.
  { intros s' [Hs' _]. split; [done|]. destruct (so_book _ _ Hs') as (r & fl & Hu).
    by apply (consistency_ok _ r fl), (ui_ok entry_size). }
  pose proof (λ er m, guarded m seq source er session s FE Hs) as Hg. split.
  - destruct (Hg (λ id, rejected_order order id time OtherReason
      (given "Venue could not process the order"%string)) _ (ends_new_order entry_size aes hmac mem arena_mem layouts output_throws
      _ _ FE order seq time date session source)) as (s' & Hr & Hf).
    destruct (Hok _ Hf). destruct Hf as [_ (n & ? & ? & ?)]. by exists s', n.
  - destruct (Hg (λ id, rejected_cancel cancel id time OtherReason
      (given "Venue could not process the cancel. The order is unchanged"%string)) _
      (ends_cancel entry_size aes hmac layouts output_throws
      _ _ FE cancel seq time date session source)) as (s' & Hr & Hf).
    destruct (Hok _ Hf). destruct Hf as [_ (n & ? & ? & ?)]. by exists s', n.
Qed.

End properties.

(** ** Witness: the outputs interface throws when an order is counted *)

Definition count_throws (before : list Output) (o : Output) : option exn :=
  match o with OrderAccepted => Some RuntimeError | _ => None end.

Lemma demo_failures :
  failures_are_exceptions shift_aes length_hmac demo_layouts count_throws.
Proof.
  split.
  - done.
  - intros k. split; [done|]. intros c [= <-] block. done.
  - by intros before [] e; simpl; intros [= <-].
  - repeat split; reflexivity || discriminate.
Qed.

Lemma demo_sound : sound 320 demo_engine.
Proof.
  split.
  - exact (rf_book _ _ _ _ _ _ _ demo_refines).
  - reflexivity.
  - discriminate.
  - split; done.
Qed.

Definition demo_failed : OrderBook.t order_map * Engine :=
  (apply_new_order shift_aes length_hmac plenty always demo_layouts count_throws
     (demo_order "A") 1 5 20260314 demo_session Live demo_engine).1.

Lemma failure_costs_one_command_witness :
  outputs demo_failed.2 = [] ∧ OrderBook.size demo_failed.1 = 1%nat ∧
  OrderBook.consistency_problem demo_failed.1 = Returns None.
Proof.
  split; [vm_compute; reflexivity|]. split; [vm_compute; reflexivity|].
  destruct (failure_costs_one_command 320 shift_aes length_hmac plenty always
    demo_layouts count_throws (demo_order "A") (demo_cancel "X" "A") 1 5 20260314
    demo_session Live demo_engine demo_failures demo_sound) as [(s' & n & Hr & _ & Hc & _) _].
  unfold demo_failed. rewrite Hr. exact Hc.
Defined.
