(* ===== verification/WalEntry.v ===== *)
(** The entries of a write-ahead log, as bytes: the class [Crc32] of
    libraries/pubsub_itc_fw/src/Crc32.cpp, the header and the checks of
    include/pubsub_itc_fw/WalEntryChecks.hpp, and the fields
    include/pubsub_itc_fw/WalEntryContents.hpp stores in an entry.

    Bytes are integers from 0 to 255 and a segment is the list of its bytes.
    Integers are little-endian, as on the platforms the program supports; a
    signed one is stored in two's complement.  Pointers into a segment are
    offsets.

    The lemmas show that an entry laid out as the writer lays it out passes the
    checks and reads back, whatever follows it, and that unwritten space
    passes none. *)

From stdpp Require Export list_numbers.
From S2P Require Import Prelude.
#[local] Open Scope Z_scope.

(** [memcpy] out of a segment. *)
Definition slice (base : list Z) (offset len : Z) : list Z :=
  take (Z.to_nat len) (drop (Z.to_nat offset) base).

Definition size (bytes : list Z) : Z := Z.of_nat (length bytes).

(** [memcpy] into a block or a mapped file. *)
Definition splice (block : list Z) (at_ : Z) (bytes : list Z) : list Z :=
  take (Z.to_nat at_) block ++ bytes ++ drop (Z.to_nat (at_ + size bytes)) block.

Definition is_byte (b : Z) : Prop := 0 ≤ b < 2 ^ 8.

(** Integers of [n] bytes. *)
Definition bytes_of (n z : Z) : list Z := Z_to_little_endian n 8 z.
Definition unsigned_of (bytes : list Z) : Z := little_endian_to_Z 8 bytes.
Definition signed_of (bytes : list Z) : Z :=
  let u := unsigned_of bytes in
  let modulus := 2 ^ (8 * size bytes) in
  if 2 * u <? modulus then u else u - modulus.

Definition int_fits (n z : Z) : Prop := - 2 ^ (8 * n - 1) ≤ z < 2 ^ (8 * n - 1).

Module Crc32.

Record t := mk { state_ : Z }.

Definition initial : t := mk 0xFFFFFFFF.

Definition table_bit (c : Z) : Z :=
  if Z.testbit c 0 then Z.lxor 0xEDB88320 (Z.shiftr c 1) else Z.shiftr c 1.

Definition build_table : list Z := (λ i, Nat.iter 8 table_bit (Z.of_nat i)) <$> seq 0 256.

Definition crc32_table : list Z := build_table.

Definition feed_byte (c : t) (b : Z) : t :=
  mk (Z.lxor (default 0 (crc32_table !! Z.to_nat (Z.land (Z.lxor (state_ c) b) 0xFF)))
             (Z.shiftr (state_ c) 8)).

Definition feed (c : t) (data : list Z) : t := foldl feed_byte c data.

(** The checksum, and the state to start again from. *)
Definition finalize (c : t) : Z * t := (Z.lxor (state_ c) 0xFFFFFFFF, initial).

Definition compute (data : list Z) : Z := (finalize (feed initial data)).1.

Lemma feed_app c xs ys : feed (feed c xs) ys = feed c (xs ++ ys).
Proof. unfold feed. by rewrite foldl_app. Qed.

Lemma lxor_below x y k :
  0 ≤ k → 0 ≤ x < 2 ^ k → 0 ≤ y < 2 ^ k → 0 ≤ Z.lxor x y < 2 ^ k.
Proof.
  intros Hk Hx Hy. assert (0 ≤ Z.lxor x y) by (apply Z.lxor_nonneg; lia). split; [done|].
  apply Z.bounded_iff_bits_nonneg; [lia..|]. intros l Hl. rewrite Z.lxor_spec.
  assert (Z.testbit x l = false) as -> by (by apply (Z.bounded_iff_bits_nonneg k); lia).
  assert (Z.testbit y l = false) as -> by (by apply (Z.bounded_iff_bits_nonneg k); lia).
  done.
Qed.

Lemma table_below i : 0 ≤ default 0 (crc32_table !! i) < 2 ^ 32.
Proof.
  assert (Hall : Forall (λ z, 0 ≤ z < 2 ^ 32) crc32_table).
  { unfold crc32_table. apply Forall_forall. intros z Hz.
    assert (Hb : forallb (λ z, (0 <=? z) && (z <? 2 ^ 32)) build_table = true)
      by (vm_compute; reflexivity).
    rewrite forallb_forall in Hb. apply list_elem_of_In in Hz. specialize (Hb z Hz). lia. }
  destruct (crc32_table !! i) as [z|] eqn:Hz; cbn [default]; [|lia].
  by apply (Forall_lookup_1 _ _ _ _ Hall Hz).
Qed.

Lemma feed_below c data : 0 ≤ state_ c < 2 ^ 32 → 0 ≤ state_ (feed c data) < 2 ^ 32.
Proof.
  revert c. induction data as [|b data IH]; intros c Hc; [done|]. cbn [feed foldl].
  apply IH. unfold feed_byte. cbn [state_]. apply lxor_below; [lia|apply table_below|].
  rewrite Z.shiftr_div_pow2 by lia. split; [by apply Z.div_pos; lia|].
  apply Z.div_lt_upper_bound; lia.
Qed.

Lemma compute_below data : 0 ≤ compute data < 2 ^ 32.
Proof.
  unfold compute, finalize. cbn [fst]. apply lxor_below; [lia| |lia].
  apply feed_below. cbn. lia.
Qed.

(** The check value of the published CRC-32 (the digits 1 to 9). *)
Example check_value :
  compute [0x31; 0x32; 0x33; 0x34; 0x35; 0x36; 0x37; 0x38; 0x39] = 0xCBF43926.
Proof. vm_compute. reflexivity. Qed.

End Crc32.

(** ** The header and the checks *)

Definition entry_magic : Z := 0xFEEDFACE.

Definition entry_header_size : Z := 24.
Definition checksum_size : Z := 4.

Record EntryHeader := mk_header {
  magic : Z;
  payload_size : Z;
  record_id : Z;
  filler : Z
}.

Definition header_bytes (h : EntryHeader) : list Z :=
  bytes_of 4 (magic h) ++ bytes_of 4 (payload_size h) ++
  bytes_of 8 (record_id h) ++ bytes_of 8 (filler h).

Definition read_header (base : list Z) (offset : Z) : EntryHeader :=
  mk_header (unsigned_of (slice base offset 4))
            (unsigned_of (slice base (offset + 4) 4))
            (signed_of (slice base (offset + 8) 8))
            (unsigned_of (slice base (offset + 16) 8)).

Definition valid_entry_size_at (base : list Z) (segment_size offset : Z) : Z :=
  if segment_size <? offset + entry_header_size + checksum_size then 0
  else
    let header := read_header base offset in
    if negb (magic header =? entry_magic) then 0
    else
      let entry_size := entry_header_size + payload_size header + checksum_size in
      if (segment_size <? payload_size header)
         || (segment_size <? offset + entry_size) then 0
      else
        let crc := Crc32.feed Crc32.initial
                     (slice base offset (entry_header_size + payload_size header)) in
        let stored := unsigned_of (slice base
                        (offset + entry_header_size + payload_size header) 4) in
        if (Crc32.finalize crc).1 =? stored then entry_size else 0.

(** The loop of [next_valid_entry_after], from [offset] on, [turns] positions. *)
Fixpoint next_valid_from (turns : nat) (base : list Z) (segment_size offset : Z) : Z :=
  match turns with
  | O => segment_size
  | S turns =>
      if offset + entry_header_size <=? segment_size then
        if bool_decide (slice base offset 4 = bytes_of 4 entry_magic)
           && negb (valid_entry_size_at base segment_size offset =? 0)
        then offset
        else next_valid_from turns base segment_size (offset + 1)
      else segment_size
  end.

(** The loop leaves at the end of the segment: as many turns as it has bytes
    are enough. *)
Definition next_valid_entry_after (base : list Z) (segment_size from : Z) : Z :=
  next_valid_from (Z.to_nat (segment_size - from)) base segment_size (from + 1).

Definition all_zero (base : list Z) (from to : Z) : bool :=
  forallb (λ b, b =? 0) (slice base from (to - from)).

(** ** What [Wal::append] stores in an entry *)

Record WalEntryContents := mk_contents {
  wall_time_ns : Z;
  leader_epoch : Z;
  pdu_id : Z;
  record_bytes : list Z
}.

Definition wal_entry_header_size : Z := 14.

Definition read_wal_entry_contents (entry : list Z) : option WalEntryContents :=
  if size entry <? wal_entry_header_size then None
  else Some (mk_contents (signed_of (slice entry 0 8)) (signed_of (slice entry 8 4))
                         (signed_of (slice entry 12 2))
                         (drop (Z.to_nat wal_entry_header_size) entry)).

Definition write_wal_entry_header (wall_time_ns leader_epoch pdu_id : Z) : list Z :=
  bytes_of 8 wall_time_ns ++ bytes_of 4 leader_epoch ++ bytes_of 2 pdu_id.

(** ** Reading back what was stored *)

Lemma size_bytes_of n z : 0 ≤ n → size (bytes_of n z) = n.
Proof. intros Hn. unfold size, bytes_of. by rewrite length_Z_to_little_endian. Qed.

Lemma length_bytes_of n z : 0 ≤ n → length (bytes_of n z) = Z.to_nat n.
Proof. intros Hn. pose proof (size_bytes_of n z Hn). unfold size in *. lia. Qed.

Lemma bytes_of_bytes n z : 0 ≤ n → Forall is_byte (bytes_of n z).
Proof. intros Hn. by apply Z_to_little_endian_bound. Qed.

Lemma unsigned_of_bytes_of n z : 0 ≤ n → 0 ≤ z < 2 ^ (8 * n) → unsigned_of (bytes_of n z) = z.
Proof.
  intros Hn Hz. unfold unsigned_of, bytes_of.
  rewrite little_endian_to_Z_to_little_endian by lia.
  replace (n * 8) with (8 * n) by lia. by apply Z.mod_small.
Qed.

Lemma signed_of_bytes_of n z : 0 < n → int_fits n z → signed_of (bytes_of n z) = z.
Proof.
  intros Hn Hz. unfold signed_of. rewrite size_bytes_of by lia.
  unfold unsigned_of, bytes_of. rewrite little_endian_to_Z_to_little_endian by lia.
  replace (n * 8) with (8 * n) by lia. unfold int_fits in Hz.
  assert (Hp : 2 ^ (8 * n) = 2 * 2 ^ (8 * n - 1)).
  { rewrite <- Z.pow_succ_r by lia. f_equal. lia. }
  rewrite Hp in *. destruct (Z_lt_le_dec z 0).
  - rewrite <- (Z.mod_add _ 1), Z.mod_small by lia.
    destruct (Z.ltb_spec (2 * (z + 1 * (2 * 2 ^ (8 * n - 1)))) (2 * 2 ^ (8 * n - 1))); lia.
  - rewrite Z.mod_small by lia.
    destruct (Z.ltb_spec (2 * z) (2 * 2 ^ (8 * n - 1))); lia.
Qed.

Lemma size_app xs ys : size (xs ++ ys) = size xs + size ys.
Proof. unfold size. rewrite length_app. lia. Qed.

Lemma size_nonneg xs : 0 ≤ size xs.
Proof. unfold size. lia. Qed.

Lemma slice_skip pre xs offset len :
  size pre ≤ offset → slice (pre ++ xs) offset len = slice xs (offset - size pre) len.
Proof.
  unfold slice, size. intros Ho. rewrite drop_app_ge by lia. do 2 f_equal. lia.
Qed.

Lemma slice_head xs ys len : len = size xs → slice (xs ++ ys) 0 len = xs.
Proof. unfold slice, size. intros ->. rewrite Z2Nat.inj_0, drop_0, take_app_length'; [done|lia]. Qed.

Lemma slice_at pre xs ys offset len :
  offset = size pre → len = size xs → slice (pre ++ xs ++ ys) offset len = xs.
Proof. intros -> ->. rewrite slice_skip by lia. rewrite Z.sub_diag. by apply slice_head. Qed.

Lemma contents_read_back w e p bytes :
  int_fits 8 w → int_fits 4 e → int_fits 2 p →
  read_wal_entry_contents (write_wal_entry_header w e p ++ bytes)
    = Some (mk_contents w e p bytes).
Proof.
  intros Hw He Hp. unfold read_wal_entry_contents, write_wal_entry_header.
  pose proof (size_nonneg bytes).
  rewrite !size_app, !size_bytes_of by lia. unfold wal_entry_header_size.
  destruct (Z.ltb_spec (8 + (4 + 2) + size bytes) 14); [lia|].
  rewrite (drop_app_length' (_ ++ _ ++ _) bytes)
    by (rewrite !length_app, !length_bytes_of by lia; lia).
  rewrite <- !app_assoc.
  rewrite slice_head by (by rewrite size_bytes_of).
  rewrite slice_at by (by rewrite size_bytes_of).
  rewrite (app_assoc (bytes_of 8 w)), slice_at
    by (by rewrite ?size_app, ?size_bytes_of).
  by rewrite !signed_of_bytes_of.
Qed.

(** ** An entry as the writer lays it out *)

Record Entry := mk_entry { id : Z; payload : list Z }.

(** [hdr] of [WalWriter::append]. *)
Definition header_of (e : Entry) : EntryHeader :=
  mk_header entry_magic (size (payload e) mod 2 ^ 32) (id e) 0.

Definition checksum_of (e : Entry) : Z :=
  Crc32.compute (header_bytes (header_of e) ++ payload e).

Definition encode (e : Entry) : list Z :=
  header_bytes (header_of e) ++ payload e ++ bytes_of 4 (checksum_of e).

Definition entry_size (e : Entry) : Z := entry_header_size + size (payload e) + checksum_size.

Definition good_entry (e : Entry) : Prop :=
  int_fits 8 (id e) ∧ size (payload e) < 2 ^ 32.

Lemma size_header h : size (header_bytes h) = 24.
Proof. unfold header_bytes. by rewrite !size_app, !size_bytes_of. Qed.

Lemma size_encode e : size (encode e) = entry_size e.
Proof.
  unfold encode, entry_size, entry_header_size, checksum_size.
  rewrite !size_app, size_header, size_bytes_of; lia.
Qed.

Lemma entry_size_pos e : 28 ≤ entry_size e.
Proof.
  unfold entry_size, entry_header_size, checksum_size. pose proof (size_nonneg (payload e)). lia.
Qed.

Lemma read_header_at pre h rest :
  0 ≤ magic h < 2 ^ 32 → 0 ≤ payload_size h < 2 ^ 32 → int_fits 8 (record_id h) →
  0 ≤ filler h < 2 ^ 64 →
  read_header (pre ++ header_bytes h ++ rest) (size pre) = h.
Proof.
  intros Hm Hp Hr Hf. unfold read_header, header_bytes. rewrite <- !app_assoc.
  rewrite (slice_at pre) by (by rewrite ?size_bytes_of).
  rewrite (app_assoc pre), (slice_at (pre ++ _))
    by (by rewrite ?size_app, ?size_bytes_of by lia).
  rewrite (app_assoc (pre ++ _)), (slice_at ((pre ++ _) ++ _))
    by (rewrite ?size_app, ?size_bytes_of by lia; lia).
  rewrite (app_assoc ((pre ++ _) ++ _)), (slice_at (((pre ++ _) ++ _) ++ _))
    by (rewrite ?size_app, ?size_bytes_of by lia; lia).
  rewrite !unsigned_of_bytes_of, signed_of_bytes_of by (cbn; lia || done).
  by destruct h.
Qed.

Lemma read_header_entry pre e post :
  good_entry e →
  read_header (pre ++ encode e ++ post) (size pre)
    = mk_header entry_magic (size (payload e)) (id e) 0.
Proof.
  intros [Hid Hsize]. pose proof (size_nonneg (payload e)).
  unfold encode. rewrite <- app_assoc. rewrite read_header_at; cbn.
  - unfold header_of. by rewrite Z.mod_small.
  - unfold entry_magic. lia.
  - apply Z.mod_pos_bound. lia.
  - done.
  - lia.
Qed.

Lemma valid_entry pre e post :
  good_entry e →
  valid_entry_size_at (pre ++ encode e ++ post) (size (pre ++ encode e ++ post)) (size pre)
    = entry_size e.
Proof.
  intros Hg. unfold valid_entry_size_at. rewrite read_header_entry by done.
  cbn [magic payload_size]. rewrite Z.eqb_refl. cbn [negb].
  rewrite !size_app, size_encode.
  pose proof (entry_size_pos e). pose proof (size_nonneg pre). pose proof (size_nonneg post).
  unfold entry_size, entry_header_size, checksum_size in *.
  pose proof (size_nonneg (payload e)).
  destruct (Z.ltb_spec (size pre + (24 + size (payload e) + 4 + size post)) (size pre + 24 + 4)); [lia|].
  destruct (Z.ltb_spec (size pre + (24 + size (payload e) + 4 + size post)) (size (payload e))); [lia|].
  destruct (Z.ltb_spec (size pre + (24 + size (payload e) + 4 + size post))
                       (size pre + (24 + size (payload e) + 4))); [lia|].
  cbn [orb]. unfold encode.
  rewrite (app_assoc (header_bytes _)), <- (app_assoc (_ ++ payload e)).
  rewrite slice_at by (by rewrite ?size_app, ?size_header).
  rewrite (app_assoc pre), slice_at by (rewrite ?size_app, ?size_header, ?size_bytes_of; lia).
  rewrite unsigned_of_bytes_of by (try lia; apply Crc32.compute_below).
  unfold checksum_of, Crc32.compute. by rewrite Z.eqb_refl.
Qed.

(** What the readers hand on of a valid entry. *)
Definition payload_at (base : list Z) (offset : Z) : list Z :=
  slice base (offset + entry_header_size) (payload_size (read_header base offset)).

Lemma payload_entry pre e post :
  good_entry e → payload_at (pre ++ encode e ++ post) (size pre) = payload e.
Proof.
  intros Hg. unfold payload_at. rewrite read_header_entry by done. cbn [payload_size].
  unfold encode. rewrite <- !app_assoc, (app_assoc pre).
  by rewrite slice_at by (by rewrite ?size_app, ?size_header).
Qed.

(** ** Space never written *)

Definition zeros (n : Z) : list Z := replicate (Z.to_nat n) 0.

Lemma size_zeros n : 0 ≤ n → size (zeros n) = n.
Proof. intros Hn. unfold size, zeros. rewrite length_replicate. lia. Qed.

Lemma all_zero_end base from :
  all_zero base from (size base) = true ↔
  drop (Z.to_nat from) base = replicate (length base - Z.to_nat from) 0.
Proof.
  unfold all_zero, slice, size.
  rewrite take_ge by (rewrite length_drop; lia).
  rewrite forallb_forall. split.
  - intros Hall. rewrite <- length_drop. symmetry. apply replicate_as_Forall_2; [done|].
    apply Forall_forall. intros x Hx%list_elem_of_In%Hall. lia.
  - intros -> x Hx%list_elem_of_In%elem_of_replicate. lia.
Qed.

Lemma unsigned_zeros n : unsigned_of (replicate n 0) = 0.
Proof. unfold unsigned_of. induction n as [|n IH]; [done|]. cbn. by rewrite IH. Qed.

Lemma slice_all_zero base from offset len :
  drop (Z.to_nat from) base = replicate (length base - Z.to_nat from) 0 →
  0 ≤ from ≤ offset →
  ∃ n, slice base offset len = replicate n 0.
Proof.
  intros Hz Ho. unfold slice.
  replace (Z.to_nat offset) with (Z.to_nat from + Z.to_nat (offset - from))%nat by lia.
  rewrite <- drop_drop, Hz, drop_replicate, take_replicate. eauto.
Qed.

Lemma valid_in_zeros base from offset n :
  drop (Z.to_nat from) base = replicate (length base - Z.to_nat from) 0 →
  0 ≤ from ≤ offset → valid_entry_size_at base n offset = 0.
Proof.
  intros Hz Ho. unfold valid_entry_size_at. case_match; [done|].
  destruct (slice_all_zero base from offset 4 Hz Ho) as [k Hk].
  unfold read_header. cbn [magic]. by rewrite Hk, unsigned_zeros.
Qed.

(** A valid entry lies within its segment and has room for a header and a
    checksum. *)
Lemma unsigned_of_nonneg bytes : Forall is_byte bytes → 0 ≤ unsigned_of bytes.
Proof. intros Hb. by apply little_endian_to_Z_bound. Qed.

Lemma slice_bytes base offset len : Forall is_byte base → Forall is_byte (slice base offset len).
Proof. intros Hb. by apply Forall_take, Forall_drop. Qed.

Lemma valid_bounds base n offset :
  Forall is_byte base → valid_entry_size_at base n offset ≠ 0 →
  28 ≤ valid_entry_size_at base n offset ∧
  offset + valid_entry_size_at base n offset ≤ n.
Proof.
  intros Hb. unfold valid_entry_size_at.
  assert (0 ≤ payload_size (read_header base offset)).
  { apply unsigned_of_nonneg, slice_bytes, Hb. }
  unfold entry_header_size, checksum_size. repeat case_match; try done.
  intros _. bool_to_prop. lia.
Qed.

Lemma header_is_bytes h : Forall is_byte (header_bytes h).
Proof.
  unfold header_bytes. repeat (apply Forall_app; split); apply bytes_of_bytes; lia.
Qed.

Lemma encode_is_bytes e : Forall is_byte (payload e) → Forall is_byte (encode e).
Proof.
  intros Hp. unfold encode. apply Forall_app; split; [apply header_is_bytes|].
  apply Forall_app; split; [done|apply bytes_of_bytes; lia].
Qed.
