(* ===== verification/WalWriter.v ===== *)
(** Writing a write-ahead log: libraries/pubsub_itc_fw/src/WalWriter.cpp, with
    the directory the log is kept in.

    [Disk] is the directory: the segment files by their number, the snapshot
    and its temporary, and what the operating system answers to the calls that
    can fail, in the order they are made ([answers]; a call past the end of the
    list succeeds).  The numbers stand for the names, [wal_000042.log]: the
    number a reader takes out of a name has six digits ([number_in_name]).

    The file outlives the writer and is mapped shared, so a write through the
    mapping is a change of the file.  A write past the end of the file is no
    exception but kills the process: it is [UndefinedBehaviour].

    [WalWriter] is the class, one definition per member function, and the
    helper thread: [helper_turn] is one turn of its loop, taken in one step,
    which is all the writer can tell, because it reads what the helper makes
    only after the state says so.  Waiting for the helper lets it take its
    turn.  The name and the processors the helper gives itself are left out,
    as is what only the tests call. *)

From S2P Require Import Prelude.
From S2P Require Import WalEntry.
#[local] Open Scope Z_scope.

(** ** The directory *)

Record Disk := mk_disk {
  has_directory : bool;
  segments : gmap Z (list Z);
  snapshot_file : option (list Z);
  snapshot_tmp : option (list Z);
  answers : list bool
}.

Definition with_segments (d : Disk) (m : gmap Z (list Z)) : Disk :=
  mk_disk (has_directory d) m (snapshot_file d) (snapshot_tmp d) (answers d).
Definition with_answers (d : Disk) (l : list bool) : Disk :=
  mk_disk (has_directory d) (segments d) (snapshot_file d) (snapshot_tmp d) l.
Definition with_directory (d : Disk) : Disk :=
  mk_disk true (segments d) (snapshot_file d) (snapshot_tmp d) (answers d).
Definition with_snapshots (d : Disk) (final tmp : option (list Z)) : Disk :=
  mk_disk (has_directory d) (segments d) final tmp (answers d).

Definition no_disk : Disk := mk_disk false ∅ None None [].

(** Whether the operating system refuses the next call. *)
Definition refused : comp Disk bool := λ d,
  match answers d with
  | [] => (d, Returns false)
  | b :: rest => (with_answers d rest, Returns b)
  end.

(** A call whose failure is reported by an exception. *)
Definition call : comp Disk unit :=
  r ← refused; if r : bool then throw PubSubItcException else mret ().

(** The six digits [sscanf] takes of the name of a segment. *)
Fixpoint leading_six (turns : nat) (n : Z) : Z :=
  match turns with
  | O => n
  | S turns => if n <? 1000000 then n else leading_six turns (n / 10)
  end.
Definition number_in_name (seg_num : Z) : Z := leading_six 20 seg_num.

Definition set_segment (seg_num : Z) (bytes : list Z) : comp Disk unit :=
  modify (λ d, with_segments d (<[seg_num := bytes]> (segments d))).

(** Where an entry starts in the log. *)
Record WalPosition := mk_position { segment : Z; offset : Z }.

(** A mapping outlives the name of its file: writing to a file that was
    removed changes nothing that can be read. *)
Definition copy_into (seg_num at_ : Z) (bytes : list Z) : comp Disk unit := λ d,
  match segments d !! seg_num with
  | None => (d, Returns ())
  | Some file =>
      if at_ + size bytes <=? size file
      then set_segment seg_num (splice file at_ bytes) d
      else (d, Throws UndefinedBehaviour)
  end.

Module WalWriter.

Definition min_entry_bytes : Z := 24 + 1 + 4.
Definition fill_chunk_bytes : Z := 2 ^ 20.

(** A segment with its descriptor and its mapping, or without. *)
Record OpenedSegment := mk_opened { seg_num : Z; is_mapped : bool }.
Definition nothing_opened : OpenedSegment := mk_opened 0 false.

Inductive PrepState := Idle | Requested | Ready | Failed | Stopping.

#[global] Instance PrepState_eq_dec : EqDecision PrepState.
Proof. solve_decision. Defined.

(** [mmap_ptr_] is the segment whose file is mapped, or nothing. *)
Record t := mk {
  segment_size_ : Z;
  current_segment_ : Z;
  write_offset_ : Z;
  mmap_ptr_ : option Z;
  preparation_enabled_ : bool;
  segments_filled_inline_ : Z;
  segments_waited_for_ : Z;
  helper_running_ : bool;
  prep_state_ : PrepState;
  prepared_ : OpenedSegment;
  requested_segment_ : Z
}.

Definition initial : t :=
  mk 0 0 0 None true 0 0 false Idle nothing_opened 0.

Definition with_size (w : t) n := mk n (current_segment_ w) (write_offset_ w)
  (mmap_ptr_ w) (preparation_enabled_ w) (segments_filled_inline_ w)
  (segments_waited_for_ w) (helper_running_ w) (prep_state_ w) (prepared_ w)
  (requested_segment_ w).
Definition with_position (w : t) seg off := mk (segment_size_ w) seg off
  (mmap_ptr_ w) (preparation_enabled_ w) (segments_filled_inline_ w)
  (segments_waited_for_ w) (helper_running_ w) (prep_state_ w) (prepared_ w)
  (requested_segment_ w).
Definition with_mapping (w : t) m := mk (segment_size_ w) (current_segment_ w)
  (write_offset_ w) m (preparation_enabled_ w) (segments_filled_inline_ w)
  (segments_waited_for_ w) (helper_running_ w) (prep_state_ w) (prepared_ w)
  (requested_segment_ w).
Definition with_counts (w : t) filled waited := mk (segment_size_ w)
  (current_segment_ w) (write_offset_ w) (mmap_ptr_ w) (preparation_enabled_ w)
  filled waited (helper_running_ w) (prep_state_ w) (prepared_ w)
  (requested_segment_ w).
Definition with_helper (w : t) enabled running := mk (segment_size_ w)
  (current_segment_ w) (write_offset_ w) (mmap_ptr_ w) enabled
  (segments_filled_inline_ w) (segments_waited_for_ w) running (prep_state_ w)
  (prepared_ w) (requested_segment_ w).
Definition with_prep (w : t) state prepared requested := mk (segment_size_ w)
  (current_segment_ w) (write_offset_ w) (mmap_ptr_ w) (preparation_enabled_ w)
  (segments_filled_inline_ w) (segments_waited_for_ w) (helper_running_ w)
  state prepared requested.

Definition state : Type := Disk * t.

Definition writer : comp state t := on_snd (gets (λ w, w)).
Definition set_prep_state (s : PrepState) : comp state unit :=
  on_snd (modify (λ w, with_prep w s (prepared_ w) (requested_segment_ w))).
Definition set_prepared (o : OpenedSegment) : comp state unit :=
  on_snd (modify (λ w, with_prep w (prep_state_ w) o (requested_segment_ w))).

Definition current_position (w : t) : WalPosition :=
  mk_position (current_segment_ w) (write_offset_ w).

Definition is_open (w : t) : bool :=
  match mmap_ptr_ w with Some _ => true | None => false end.

(** *** Segments *)

(** The loop of [fill_new_segment]: a write that fails leaves what was
    written.  The loop writes at least one byte at each turn. *)
Fixpoint fill_loop (turns : nat) (seg_num remaining : Z) : comp Disk unit :=
  if remaining <=? 0 then mret ()
  else
    match turns with
    | O => throw DoesNotReturn
    | S turns =>
        let chunk := Z.min remaining fill_chunk_bytes in
        call ;;
        d ← gets (λ d, d);
        set_segment seg_num (default [] (segments d !! seg_num) ++ zeros chunk) ;;
        fill_loop turns seg_num (remaining - chunk)
    end.

Definition fill_new_segment (segment_size seg_num : Z) : comp Disk unit :=
  fill_loop (Z.to_nat segment_size) seg_num segment_size ;;
  call.

(** The open fails where there is no directory. *)
Definition create_and_map (segment_size seg_num : Z) : comp Disk OpenedSegment :=
  d ← gets (λ d, d);
  match segments d !! seg_num with
  | None =>
      (if has_directory d then call else throw PubSubItcException) ;;
      set_segment seg_num [] ;;
      fill_new_segment segment_size seg_num
  | Some _ => call
  end ;;
  call ;;
  mret (mk_opened seg_num true).

Definition close_segment : comp state unit :=
  on_snd (modify (λ w, with_mapping w None)).

Definition adopt (s : OpenedSegment) : comp state unit :=
  close_segment ;;
  on_snd (modify (λ w, with_mapping w (if is_mapped s then Some (seg_num s) else None))) ;;
  on_snd (modify (λ w, with_position w (seg_num s) (write_offset_ w))).

Definition open_segment (n : Z) : comp state unit :=
  on_snd (modify (λ w, with_counts w (segments_filled_inline_ w + 1) (segments_waited_for_ w))) ;;
  w ← writer;
  opened ← on_fst (create_and_map (segment_size_ w) n);
  adopt opened.

(** *** The helper thread *)

Definition wake_helper : comp state unit :=
  r ← on_fst refused;
  if r : bool then set_prep_state Failed else mret ().

(** A failure is kept for the writer: no exception leaves the thread. *)
Definition helper_turn : comp state unit :=
  w ← writer;
  if helper_running_ w && bool_decide (prep_state_ w = Requested) then
    try_catch
      (opened ← on_fst (create_and_map (segment_size_ w) (requested_segment_ w));
       set_prepared opened ;;
       set_prep_state Ready)
      (λ _, set_prep_state Failed)
  else mret ().

Definition request_preparation (n : Z) : comp state unit :=
  w ← writer;
  if negb (helper_running_ w) then mret ()
  else if negb (bool_decide (prep_state_ w = Idle))
          && negb (bool_decide (prep_state_ w = Failed)) then mret ()
  else
    on_snd (modify (λ w, with_prep w Requested (prepared_ w) n)) ;;
    wake_helper.

Definition await_helper : comp state unit :=
  on_snd (modify (λ w, with_counts w (segments_filled_inline_ w) (segments_waited_for_ w + 1))) ;;
  helper_turn.

Definition start_helper : comp state unit :=
  r ← on_fst refused;
  if r : bool then on_snd (modify (λ w, with_helper w false (helper_running_ w)))
  else on_snd (modify (λ w, with_helper w (preparation_enabled_ w) true)).

(** Told to stop while it makes a segment, the helper finishes the file,
    finds that it may not publish it, and lets it go.  Whether it has begun
    when it is told, the environment says. *)
Definition stop_helper : comp state unit :=
  w ← writer;
  if negb (helper_running_ w) then mret ()
  else
    set_prep_state Stopping ;;
    wake_helper ;;
    begun ← on_fst refused;
    (if bool_decide (prep_state_ w = Requested) && begun then
       try_catch (on_fst (create_and_map (segment_size_ w) (requested_segment_ w)) ;; mret ())
         (λ _, mret ()) ;;
       set_prepared nothing_opened
     else mret ()) ;;
    on_snd (modify (λ w, with_helper w (preparation_enabled_ w) false)).

Definition discard_prepared : comp state unit := set_prepared nothing_opened.

Definition release_prepared_if_ready : comp state unit :=
  w ← writer;
  if negb (bool_decide (prep_state_ w = Ready)) then mret ()
  else discard_prepared ;; set_prep_state Idle.

(** *** What the callers call *)

Definition open (segment_size : Z) (start : WalPosition) : comp state unit :=
  if segment_size <? min_entry_bytes * 2 then throw PreconditionAssertion
  else
    on_snd (modify (λ w, with_size w segment_size)) ;;
    on_fst call ;;
    on_fst (modify with_directory) ;;
    on_snd (modify (λ w, with_position w (segment start) (offset start))) ;;
    open_segment (segment start) ;;
    w ← writer;
    if preparation_enabled_ w then
      start_helper ;;
      w ← writer;
      request_preparation (current_segment_ w + 1)
    else mret ().

Definition close : comp state unit :=
  stop_helper ;;
  discard_prepared ;;
  close_segment ;;
  set_prep_state Idle.

Definition ensure_capacity (bytes_needed : Z) : comp state unit :=
  w ← writer;
  if segment_size_ w <? bytes_needed then throw PreconditionAssertion
  else if write_offset_ w + bytes_needed <=? segment_size_ w then mret ()
  else
    let next := current_segment_ w + 1 in
    (if bool_decide (prep_state_ w = Requested) then await_helper else mret ()) ;;
    w ← writer;
    (if bool_decide (prep_state_ w = Ready) && (seg_num (prepared_ w) =? next) then
       adopt (prepared_ w) ;;
       set_prepared nothing_opened ;;
       set_prep_state Idle
     else
       release_prepared_if_ready ;;
       open_segment next) ;;
    on_snd (modify (λ w, with_position w (current_segment_ w) 0)) ;;
    w ← writer;
    request_preparation (current_segment_ w + 1).

(** Writing through a mapping that is not there is undefined. *)
Definition copy (at_ : Z) (bytes : list Z) : comp state unit :=
  w ← writer;
  match mmap_ptr_ w with
  | None => throw UndefinedBehaviour
  | Some n => on_fst (copy_into n at_ bytes)
  end.

Definition append (record_id : Z) (payload : list Z) : comp state unit :=
  let total := entry_header_size + size payload + checksum_size in
  ensure_capacity total ;;
  w ← writer;
  let hdr := mk_header entry_magic (size payload mod 2 ^ 32) record_id 0 in
  let dest := write_offset_ w in
  copy dest (header_bytes hdr) ;;
  copy (dest + entry_header_size) payload ;;
  let crc := Crc32.feed (Crc32.feed Crc32.initial (header_bytes hdr)) payload in
  copy (dest + entry_header_size + size payload) (bytes_of 4 (Crc32.finalize crc).1) ;;
  on_snd (modify (λ w, with_position w (current_segment_ w) (write_offset_ w + total))).

End WalWriter.
