(* ===== verification/WalReader.v ===== *)
(** Reading a write-ahead log: libraries/pubsub_itc_fw/src/WalReader.cpp and
    src/WalCursor.cpp.

    The state is the directory with whatever state the caller's callback
    changes.  The log is read while nothing writes it, so the second look at an
    entry that does not check finds what the first one found.  A loop is given
    as many turns as the segment has bytes, or as the directory has segments;
    one that needed more would be [DoesNotReturn]. *)

From stdpp Require Import sorting.
From S2P Require Import Prelude.
From S2P Require Import WalEntry.
From S2P Require Import WalWriter.
#[local] Open Scope Z_scope.

Definition disk {S} : comp (Disk * S) Disk := on_fst (gets (λ d, d)).

(** The numbers in the names of the segments, in rising order. *)
Definition numbers_in_names (d : Disk) : list Z :=
  merge_sort Z.le (number_in_name <$> (map_to_list (segments d)).*1).

Module WalReader.

Record SegmentScan := mk_scan { consumed : Z; stopped_cleanly : bool }.

Section reader.
Context {S : Type}.

(** Called with the number of the record, the offset of its entry and its
    contents; nothing is called where the caller gave none. *)
Definition PositionedEntryCallback : Type := option (Z → Z → list Z → comp S unit).

Definition state : Type := Disk * S.

Fixpoint scan_loop (turns : nat) (base : list Z) (file_size offset : Z)
    (callback : PositionedEntryCallback) : comp S SegmentScan :=
  match turns with
  | O => throw DoesNotReturn
  | Datatypes.S turns =>
      let entry_size := valid_entry_size_at base file_size offset in
      if negb (entry_size =? 0) then
        match callback with
        | None => mret ()
        | Some f => f (record_id (read_header base offset)) offset (payload_at base offset)
        end ;;
        scan_loop turns base file_size (offset + entry_size) callback
      else if all_zero base offset file_size then mret (mk_scan offset true)
      else if next_valid_entry_after base file_size offset =? file_size
      then mret (mk_scan offset false)
      else if negb (valid_entry_size_at base file_size offset =? 0)
      then scan_loop turns base file_size offset callback
      else throw PubSubItcException
  end.

Definition scan_segment (seg start_offset : Z) (callback : PositionedEntryCallback)
    : comp state SegmentScan :=
  d ← disk;
  match segments d !! seg with
  | None => throw PubSubItcException
  | Some base =>
      on_fst call ;;
      on_fst call ;;
      let file_size := size base in
      if (file_size =? 0) || (file_size <=? start_offset)
      then mret (mk_scan start_offset true)
      else
        on_fst call ;;
        on_snd (scan_loop (Datatypes.S (length base)) base file_size start_offset callback)
  end.

(** [EntryCallback]: the callback that is not told the offset. *)
Definition without_offset (callback : option (Z → list Z → comp S unit))
    : PositionedEntryCallback :=
  match callback with
  | None => None
  | Some f => Some (λ id _ payload, f id payload)
  end.

Definition replay_segment (seg start_offset : Z)
    (callback : option (Z → list Z → comp S unit)) : comp state Z :=
  scan ← scan_segment seg start_offset (without_offset callback);
  mret (consumed scan).

Definition replay_segment_with_offsets (seg start_offset : Z)
    (callback : PositionedEntryCallback) : comp state Z :=
  scan ← scan_segment seg start_offset callback;
  mret (consumed scan).

(** What the loop of [replay] carries: [end], and the segment whose reading
    stopped at something that is neither an entry nor unwritten, with where. *)
Record Progress := mk_progress { end_ : WalPosition; unclean : option (Z * Z) }.

(** The segment before is read again from where its reading stopped. *)
Definition settle_unclean (seg start : Z) (callback : PositionedEntryCallback)
    (p : Progress) : comp state Progress :=
  match unclean p with
  | None => mret p
  | Some (unclean_seg, unclean_offset) =>
      again ← scan_segment unclean_seg unclean_offset callback;
      let e := if unclean_offset <? consumed again
               then mk_position (segment (end_ p)) (consumed again) else end_ p in
      (if negb (stopped_cleanly again) then
         here ← scan_segment seg start None;
         if start <? consumed here then throw PubSubItcException else mret ()
       else mret ()) ;;
      mret (mk_progress e None)
  end.

Fixpoint replay_loop (seg_nums : list Z) (from : WalPosition)
    (callback : PositionedEntryCallback) (p : Progress) : comp state WalPosition :=
  match seg_nums with
  | [] => mret (end_ p)
  | seg :: rest =>
      if seg <? segment from then replay_loop rest from callback p
      else
        let start := if seg =? segment from then offset from else 0 in
        p ← settle_unclean seg start callback p;
        scan ← scan_segment seg start callback;
        let unclean' := if negb (stopped_cleanly scan) then Some (seg, consumed scan)
                        else unclean p in
        let end' := if start <? consumed scan then mk_position seg (consumed scan)
                    else end_ p in
        replay_loop rest from callback (mk_progress end' unclean')
  end.

Definition replay (from : WalPosition) (callback : option (Z → list Z → comp S unit))
    : comp state WalPosition :=
  d ← disk;
  if negb (has_directory d) then mret from
  else
    on_fst call ;;
    replay_loop (numbers_in_names d) from (without_offset callback)
      (mk_progress from None).

End reader.
Arguments PositionedEntryCallback S : clear implicits.
Arguments state S : clear implicits.

End WalReader.

Module WalCursor.

(** [map_size_] is the size of the segment when it was mapped, where it is. *)
Record t := mk {
  segment_ : Z;
  every_segment_read_ : bool;
  offset_ : Z;
  position_ : WalPosition;
  map_size_ : option Z
}.

Definition initial : t := mk 0 true 0 (mk_position 0 0) None.

Definition state : Type := Disk * t.

Definition cursor : comp state t := on_snd (gets (λ c, c)).

Definition unmap_current : comp state unit :=
  on_snd (modify (λ c, mk (segment_ c) (every_segment_read_ c) (offset_ c) (position_ c) None)).

Definition segment_exists (d : Disk) (seg : Z) : bool :=
  match segments d !! seg with Some _ => true | None => false end.

(** The first number at or after [seg] in the names. *)
Definition first_segment_from (seg : Z) : comp state (option Z) :=
  d ← disk;
  if negb (has_directory d) then mret None
  else
    on_fst call ;;
    mret (foldl (λ first n,
      if (seg <=? n) && match first with None => true | Some m => n <? m end
      then Some n else first)
      None (number_in_name <$> (map_to_list (segments d)).*1)).

Definition open (from : WalPosition) : comp state unit :=
  unmap_current ;;
  d ← disk;
  if segment_exists d (segment from) then
    on_snd (modify (λ _, mk (segment from) false (offset from) from None))
  else
    on_snd (modify (λ c, mk (segment_ c) (every_segment_read_ c) (offset_ c) from None)) ;;
    first ← first_segment_from (segment from);
    on_snd (modify (λ _, mk (default 0 first)
      (match first with Some _ => false | None => true end) 0 from None)).

Definition move_to_next_segment : comp state unit :=
  unmap_current ;;
  d ← disk;
  c ← cursor;
  if segment_exists d (segment_ c + 1)
  then on_snd (modify (λ c, mk (segment_ c + 1) (every_segment_read_ c) 0 (position_ c) (map_size_ c)))
  else on_snd (modify (λ c, mk (segment_ c) true 0 (position_ c) (map_size_ c))).

(** [false] where the file is missing, cannot be opened or is empty. *)
Definition map_current_segment : comp state bool :=
  d ← disk;
  c ← cursor;
  match segments d !! segment_ c with
  | None => mret false
  | Some base =>
      open_refused ← on_fst refused;
      if open_refused : bool then mret false
      else
        stat_refused ← on_fst refused;
        if (stat_refused : bool) || (size base =? 0) then mret false
        else
          on_fst call ;;
          on_snd (modify (λ c, mk (segment_ c) (every_segment_read_ c) (offset_ c)
                                  (position_ c) (Some (size base)))) ;;
          mret true
  end.

(** The loop ends at the first number with no segment. *)
Fixpoint later_segment_loop (turns : nat) (later : Z) : comp Disk bool :=
  match turns with
  | O => throw DoesNotReturn
  | S turns =>
      d ← gets (λ d, d);
      match segments d !! later with
      | None => mret false
      | Some base =>
          open_refused ← refused;
          if open_refused : bool then mret false
          else
            read_refused ← refused;
            let first := if read_refused : bool then [] else slice base 0 4096 in
            if (entry_header_size <=? size first)
               && (negb (valid_entry_size_at first (size first) 0 =? 0)
                   || (magic (read_header first 0) =? entry_magic))
            then mret true
            else later_segment_loop turns (later + 1)
      end
  end.

Definition later_segment_has_entries : comp state bool :=
  d ← disk;
  c ← cursor;
  on_fst (later_segment_loop (S (Datatypes.length (map_to_list (segments d)))) (segment_ c + 1)).

(** What the mapping shows now. *)
Definition mapped (d : Disk) (c : t) (map_size : Z) : list Z :=
  slice (default [] (segments d !! segment_ c)) 0 map_size.

(** What [read_next] hands out: the number of the record and its contents. *)
Definition Found : Type := option (Z * list Z).

Fixpoint read_next_loop (turns : nat) : comp state Found :=
  match turns with
  | O => throw DoesNotReturn
  | S turns =>
      c ← cursor;
      if every_segment_read_ c then mret None
      else
        is_mapped ← match map_size_ c with
                    | Some _ => mret true
                    | None => map_current_segment
                    end;
        if negb is_mapped then move_to_next_segment ;; read_next_loop turns
        else
          d ← disk;
          c ← cursor;
          let map_size := default 0 (map_size_ c) in
          let base := mapped d c map_size in
          if map_size <? offset_ c + entry_header_size
          then move_to_next_segment ;; read_next_loop turns
          else
            let entry_size := valid_entry_size_at base map_size (offset_ c) in
            if entry_size =? 0 then
              if all_zero base (offset_ c) map_size
              then move_to_next_segment ;; read_next_loop turns
              else
                let later := next_valid_entry_after base map_size (offset_ c) in
                more ← (if later =? map_size then later_segment_has_entries else mret true);
                if negb more then mret None
                else if negb (valid_entry_size_at base map_size (offset_ c) =? 0)
                then read_next_loop turns
                else throw PubSubItcException
            else
              let past := offset_ c + entry_size in
              on_snd (modify (λ c, mk (segment_ c) (every_segment_read_ c) past
                                      (mk_position (segment_ c) past) (map_size_ c))) ;;
              mret (Some (record_id (read_header base (offset_ c)),
                          payload_at base (offset_ c)))
  end.

(** A turn that does not return goes on to the next segment. *)
Definition read_next : comp state Found :=
  d ← disk;
  read_next_loop (S (S (Datatypes.length (map_to_list (segments d))))).

End WalCursor.
