(* ===== verification/Wal.v ===== *)
(** The write-ahead log of a component: libraries/pubsub_itc_fw/src/Wal.cpp.

    [Wal] is the class, one definition per member function.  Its state is the
    directory with the object, which holds the writer; a cursor that a function
    keeps on its stack is passed through it.  The fields of the snapshot's
    header are kept as the bytes the file holds. *)

From stdpp Require Import sorting.
From S2P Require Import Prelude.
From S2P Require Import WalEntry.
From S2P Require Import WalWriter.
From S2P Require Import WalReader.
#[local] Open Scope Z_scope.

Module Wal.

Definition snapshot_magic : Z := 0xC0DEBA5E.
Definition snapshot_version : Z := 1.
Definition snapshot_checksum_offset : Z := 40.

Record t := mk {
  segment_size_ : Z;
  writer_ : WalWriter.t;
  record_count_ : Z;
  last_seq_no_ : Z
}.

Definition initial : t := mk 0 WalWriter.initial 0 0.

Definition with_counts (w : t) (count last : Z) : t :=
  mk (segment_size_ w) (writer_ w) count last.

Definition state : Type := Disk * t.

Definition wal : comp state t := on_snd (gets (λ w, w)).

(** A call of the writer. *)
Definition on_writer {A} (m : comp WalWriter.state A) : comp state A := λ st,
  let r := m (st.1, writer_ st.2) in
  ((r.1.1, mk (segment_size_ st.2) r.1.2 (record_count_ st.2) (last_seq_no_ st.2)), r.2).

(** A call of a cursor that is a local variable. *)
Definition on_cursor {A} (c : WalCursor.t) (m : comp WalCursor.state A)
    : comp state (A * WalCursor.t) := λ st,
  let r := m (st.1, c) in
  ((r.1.1, st.2), match r.2 with Returns a => Returns (a, r.1.2) | Throws e => Throws e end).

(** *** The snapshot *)

Record WalSnapshotHeader := mk_snapshot {
  snapshot_last_seq_no : Z;
  snapshot_record_count : Z;
  snapshot_position : WalPosition
}.

(** The bytes the checksum covers. *)
Definition snapshot_body (h : WalSnapshotHeader) : list Z :=
  bytes_of 4 snapshot_magic ++ bytes_of 4 snapshot_version ++
  bytes_of 8 (snapshot_last_seq_no h) ++ bytes_of 8 (snapshot_record_count h) ++
  bytes_of 8 (segment (snapshot_position h)) ++ bytes_of 8 (offset (snapshot_position h)).

Definition snapshot_bytes (h : WalSnapshotHeader) : list Z :=
  snapshot_body h ++ bytes_of 4 (Crc32.compute (snapshot_body h)) ++ bytes_of 4 0.

(** The position in the snapshot, or nothing where it cannot be used. *)
Definition load_snapshot : comp state (option WalPosition) :=
  d ← disk;
  match snapshot_file d with
  | None => mret None
  | Some file =>
      on_fst call ;;
      read_refused ← on_fst refused;
      let hdr := if read_refused : bool then [] else slice file 0 48 in
      if negb (size hdr =? 48) then mret None
      else if negb (unsigned_of (slice hdr 0 4) =? snapshot_magic)
              || negb (unsigned_of (slice hdr 4 4) =? snapshot_version) then mret None
      else if negb (Crc32.compute (slice hdr 0 snapshot_checksum_offset)
                    =? unsigned_of (slice hdr 40 4)) then mret None
      else
        on_snd (modify (λ w, with_counts w (unsigned_of (slice hdr 16 8))
                                           (signed_of (slice hdr 8 8)))) ;;
        mret (Some (mk_position (unsigned_of (slice hdr 24 8)) (unsigned_of (slice hdr 32 8))))
  end.

(** The temporary is written, then takes the snapshot's name. *)
Definition take_snapshot : comp state unit :=
  w ← wal;
  let bytes := snapshot_bytes (mk_snapshot (last_seq_no_ w) (record_count_ w)
                                 (WalWriter.current_position (writer_ w))) in
  on_fst call ;;
  on_fst (modify (λ d, with_snapshots d (snapshot_file d) (Some []))) ;;
  on_fst call ;;
  on_fst (modify (λ d, with_snapshots d (snapshot_file d) (Some bytes))) ;;
  on_fst call ;;
  on_fst (modify (λ d, with_snapshots d (Some bytes) None)).

(** *** Opening *)

Inductive WalOpenMode := UseSnapshot | IgnoreSnapshot.

Section open.
Context {S : Type}.

(** Called with the number of the record and what its entry holds. *)
Definition ReplayCallback : Type := option (Z → WalEntryContents → comp S unit).

Definition fw_cb (replay_cb : ReplayCallback) (record_id : Z) (payload : list Z)
    : comp (t * S) unit :=
  let count := on_fst (modify (λ w, with_counts w (record_count_ w + 1) record_id)) in
  match replay_cb with
  | None => count
  | Some f =>
      match read_wal_entry_contents payload with
      | None => mret ()
      | Some contents => count ;; on_snd (f record_id contents)
      end
  end.

(** The callback's state beside the object's. *)
Definition on_wal {A} (m : comp state A) : comp (Disk * (t * S)) A := λ st,
  let r := m (st.1, st.2.1) in ((r.1.1, (r.1.2, st.2.2)), r.2).

Definition open (segment_size : Z) (replay_cb : ReplayCallback) (open_mode : WalOpenMode)
    : comp (Disk * (t * S)) Z :=
  on_wal (on_snd (modify (λ w, mk segment_size (writer_ w) (record_count_ w) (last_seq_no_ w)))) ;;
  anchor ← match open_mode with
           | UseSnapshot => on_wal load_snapshot
           | IgnoreSnapshot => mret None
           end;
  end_ ← WalReader.replay (default (mk_position 0 0) anchor) (Some (fw_cb replay_cb));
  on_wal (on_writer (WalWriter.open segment_size end_)) ;;
  w ← on_wal wal;
  mret (last_seq_no_ w).

End open.
Arguments ReplayCallback S : clear implicits.

(** *** Appending *)

Definition append (seq_no pdu_id : Z) (payload : list Z) (wall_time_ns leader_epoch : Z)
    : comp state unit :=
  on_writer (WalWriter.append seq_no
    (write_wal_entry_header wall_time_ns leader_epoch pdu_id ++ payload)) ;;
  on_snd (modify (λ w, with_counts w (record_count_ w + 1) seq_no)).

(** *** The segments on the disk *)

(** Only a name of fourteen characters is taken, one of six digits. *)
Definition segment_numbers : comp Disk (list Z) :=
  d ← gets (λ d, d);
  r ← refused;
  if negb (has_directory d) || (r : bool) then mret []
  else mret (merge_sort Z.le (filter (λ n, n < 1000000) (map_to_list (segments d)).*1)).

Definition unlink (seg : Z) : comp Disk unit :=
  modify (λ d, with_segments d (delete seg (segments d))).

Fixpoint unlink_each (segs : list Z) : comp Disk unit :=
  match segs with
  | [] => mret ()
  | seg :: rest => unlink seg ;; unlink_each rest
  end.

Definition delete_segments_after (seg_num : Z) : comp Disk unit :=
  numbers ← segment_numbers;
  unlink_each (filter (λ n, seg_num < n) numbers).

Definition delete_segments_before (seg_num : Z) : comp Disk unit :=
  unlink_each (seqZ 0 seg_num).

(** The first bytes of a segment, or fewer, or no file. *)
Definition head_of (seg len : Z) : comp Disk (option (list Z)) :=
  d ← gets (λ d, d);
  match segments d !! seg with
  | None => mret None
  | Some base =>
      open_refused ← refused;
      if open_refused : bool then mret None
      else
        read_refused ← refused;
        mret (Some (if read_refused : bool then [] else slice base 0 len))
  end.

Fixpoint first_seq_no_in (segs : list Z) : comp Disk Z :=
  match segs with
  | [] => mret 0
  | seg :: rest =>
      head ← head_of seg 24;
      match head with
      | None => first_seq_no_in rest
      | Some header =>
          if (size header =? 24) && (magic (read_header header 0) =? entry_magic)
          then mret (record_id (read_header header 0))
          else first_seq_no_in rest
      end
  end.

Definition first_seq_no : comp Disk Z :=
  segs ← segment_numbers;
  first_seq_no_in segs.

Fixpoint first_wall_time_in (segs : list Z) : comp Disk (option Z) :=
  match segs with
  | [] => mret None
  | seg :: rest =>
      head ← head_of seg 32;
      match head with
      | None => first_wall_time_in rest
      | Some header =>
          if (size header =? 32) && (magic (read_header header 0) =? entry_magic)
             && (wal_entry_header_size <=? payload_size (read_header header 0))
          then mret (Some (signed_of (slice header 24 8)))
          else first_wall_time_in rest
      end
  end.

Definition first_wall_time_ns : comp Disk (option Z) :=
  segs ← segment_numbers;
  first_wall_time_in segs.

(** *** Finding a record *)

Definition comes_before (seq_no seg : Z) : comp Disk bool :=
  head ← head_of seg 24;
  match head with
  | None => mret true
  | Some header =>
      mret ((size header =? 24) && (magic (read_header header 0) =? entry_magic)
            && (record_id (read_header header 0) <=? seq_no))
  end.

(** The binary search: the last segment that comes before, from [low], which
    does.  Each turn brings [low] and [high] closer. *)
Fixpoint search (turns : nat) (seq_no low high : Z) : comp Disk Z :=
  if negb (low <? high) then mret low
  else
    match turns with
    | O => throw DoesNotReturn
    | S turns =>
        let middle := low + (high - low + 1) / 2 in
        before ← comes_before seq_no middle;
        if before : bool then search turns seq_no middle high
        else search turns seq_no low (middle - 1)
    end.

Definition scan_start_for (seq_no : Z) : comp state WalPosition :=
  w ← wal;
  let last := segment (WalWriter.current_position (writer_ w)) in
  before ← on_fst (comes_before seq_no 0);
  if negb before then mret (mk_position 0 0)
  else
    low ← on_fst (search (Z.to_nat last) seq_no 0 last);
    d ← disk;
    if WalCursor.segment_exists d low then mret (mk_position low 0)
    else mret (mk_position 0 0).

(** *** Discarding records *)

(** The records of the log are no more than its bytes. *)
Definition enough_turns (d : Disk) : nat :=
  S (sum_list ((λ p, length p.2) <$> map_to_list (segments d))).

(** The loop of [truncate_below]: the segment of the first record at or after
    [safe_seq_no]. *)
Fixpoint segment_at_or_after (turns : nat) (c : WalCursor.t) (safe_seq_no : Z)
    : comp state (option Z) :=
  match turns with
  | O => throw DoesNotReturn
  | S turns =>
      r ← on_cursor c WalCursor.read_next;
      match r.1 with
      | None => mret None
      | Some (record_id, _) =>
          if safe_seq_no <=? record_id
          then mret (Some (segment (WalCursor.position_ r.2)))
          else segment_at_or_after turns r.2 safe_seq_no
      end
  end.

Definition truncate_below (safe_seq_no : Z) : comp state unit :=
  c ← on_cursor WalCursor.initial (WalCursor.open (mk_position 0 0));
  d ← disk;
  found ← segment_at_or_after (enough_turns d) c.2 safe_seq_no;
  match found with
  | Some seg => on_fst (delete_segments_before seg)
  | None => mret ()
  end.

(** The loops of [truncate_after]: to the record, then counting the rest. *)
Fixpoint read_until (turns : nat) (c : WalCursor.t) (seq_no : Z)
    : comp state (option WalCursor.t) :=
  match turns with
  | O => throw DoesNotReturn
  | S turns =>
      r ← on_cursor c WalCursor.read_next;
      match r.1 with
      | None => mret None
      | Some (record_id, _) =>
          if record_id =? seq_no then mret (Some r.2) else read_until turns r.2 seq_no
      end
  end.

Fixpoint count_rest (turns : nat) (c : WalCursor.t) (discarded : Z) : comp state Z :=
  match turns with
  | O => throw DoesNotReturn
  | S turns =>
      r ← on_cursor c WalCursor.read_next;
      match r.1 with
      | None => mret discarded
      | Some _ => count_rest turns r.2 (discarded + 1)
      end
  end.

(** Where the record to keep ends, and how many records follow it. *)
Definition end_of_kept (seq_no : Z) : comp state (WalPosition * Z) :=
  w ← wal;
  if 0 <? seq_no then
    from ← scan_start_for seq_no;
    c ← on_cursor WalCursor.initial (WalCursor.open from);
    d ← disk;
    found ← read_until (enough_turns d) c.2 seq_no;
    match found with
    | None => throw PubSubItcException
    | Some c =>
        discarded ← count_rest (enough_turns d) c 0;
        mret (WalCursor.position_ c, discarded)
    end
  else mret (mk_position 0 0, record_count_ w).

Definition zero_chunk_bytes : Z := 64 * 1024.

(** [pwrite]: a file that ends before is made longer. *)
Definition pwrite (seg at_ : Z) (bytes : list Z) : comp Disk unit :=
  call ;;
  modify (λ d, match segments d !! seg with
               | None => d
               | Some file =>
                   with_segments d
                     (<[seg := splice (file ++ zeros (at_ - size file)) at_ bytes]> (segments d))
               end).

Fixpoint zero_loop (turns : nat) (seg segment_size at_ : Z) : comp Disk unit :=
  if negb (at_ <? segment_size) then mret ()
  else
    match turns with
    | O => throw DoesNotReturn
    | S turns =>
        let chunk := Z.min zero_chunk_bytes (segment_size - at_) in
        pwrite seg at_ (zeros chunk) ;;
        zero_loop turns seg segment_size (at_ + chunk)
    end.

Definition zero_rest (p : WalPosition) (segment_size : Z) : comp Disk unit :=
  d ← gets (λ d, d);
  match segments d !! segment p with
  | None => throw PubSubItcException
  | Some _ => call ;; zero_loop (Z.to_nat segment_size) (segment p) segment_size (offset p)
  end.

Definition truncate_after (seq_no : Z) : comp state unit :=
  w ← wal;
  if (seq_no <? 0) || (last_seq_no_ w <? seq_no) then throw PreconditionAssertion
  else if seq_no =? last_seq_no_ w then mret ()
  else
    kept ← end_of_kept seq_no;
    let '(end_, discarded) := kept : WalPosition * Z in
    on_writer WalWriter.close ;;
    on_fst (zero_rest end_ (segment_size_ w)) ;;
    on_fst (delete_segments_after (segment end_)) ;;
    on_fst (modify (λ d, with_snapshots d None (snapshot_tmp d))) ;;
    on_snd (modify (λ w, with_counts w
      (if record_count_ w <? discarded then 0 else record_count_ w - discarded) seq_no)) ;;
    on_writer (WalWriter.open (segment_size_ w) end_).

End Wal.
