(* ===== verification/WalLayout.v ===== *)
(** What a log that was written as the writer writes it looks like on the disk,
    and what reading it gives.

    A segment holds its entries one after the other and zeros from there to its
    end ([laid]); the log holds segments numbered without a gap ([holds]).  The
    lemmas of the two sections show that [WalReader] delivers, and [WalCursor]
    hands out, exactly the entries, in order, and where they say the log has
    reached. *)

From stdpp Require Import sorting.
From S2P Require Import Prelude.
From S2P Require Import WalEntry.
From S2P Require Import WalWriter.
From S2P Require Import WalReader.
#[local] Open Scope Z_scope.

(** ** Running code on a part of a state *)

Lemma on_fst_eq {S T A} (m : comp S A) (s s' : S) (t : T) r :
  m s = (s', r) → on_fst m (s, t) = ((s', t), r).
Proof. intros Hm. unfold on_fst. cbn. by rewrite Hm. Qed.

Lemma on_snd_eq {S T A} (m : comp T A) (s : S) (t t' : T) r :
  m t = (t', r) → on_snd m (s, t) = ((s, t'), r).
Proof. intros Hm. unfold on_snd. cbn. by rewrite Hm. Qed.

Lemma bind_assoc {S A B C} (m : comp S A) (f : A → comp S B) (g : B → comp S C) s :
  ((m ≫= f) ≫= g) s = (m ≫= λ a, f a ≫= g) s.
Proof. unfold mbind, comp_bind. by destruct (m s) as [s' [a|e]]. Qed.

Lemma bind_ext {S A B} (m : comp S A) (f g : A → comp S B) s :
  (∀ a s', f a s' = g a s') → (m ≫= f) s = (m ≫= g) s.
Proof. intros Hfg. unfold mbind, comp_bind. destruct (m s) as [s' [a|e]]; [apply Hfg|done]. Qed.

Lemma refused_quiet d : answers d = [] → refused d = (d, Returns false).
Proof. intros Hd. unfold refused. by rewrite Hd. Qed.

Lemma call_quiet d : answers d = [] → call d = (d, Returns ()).
Proof. intros Hd. unfold call. by rewrite (bind_returns _ _ _ _ _ (refused_quiet d Hd)). Qed.

Lemma disk_eq {S} d (s : S) : disk (d, s) = ((d, s), Returns d).
Proof. done. Qed.

Lemma call_fst_quiet {S} d (s : S) : answers d = [] → on_fst call (d, s) = ((d, s), Returns ()).
Proof. intros Hd. by apply on_fst_eq, call_quiet. Qed.

Lemma refused_fst_quiet {S} d (s : S) :
  answers d = [] → on_fst refused (d, s) = ((d, s), Returns false).
Proof. intros Hd. by apply on_fst_eq, refused_quiet. Qed.

Lemma gets_eq {S A} (f : S → A) s : gets f s = (s, Returns (f s)).
Proof. done. Qed.

Lemma modify_eq {S} (f : S → S) s : modify f s = (f s, Returns ()).
Proof. done. Qed.

Lemma mret_eq {S A} (a : A) (s : S) : (mret a : comp S A) s = (s, Returns a).
Proof. done. Qed.

Lemma set_segment_eq seg bytes d :
  set_segment seg bytes d = (with_segments d (<[seg := bytes]> (segments d)), Returns ()).
Proof. done. Qed.

Lemma modify_snd_eq {S T} (f : T → T) (s : S) (t : T) :
  on_snd (modify f) (s, t) = ((s, f t), Returns ()).
Proof. done. Qed.

Lemma modify_fst_eq {S T} (f : S → S) (s : S) (t : T) :
  on_fst (modify f) (s, t) = ((f s, t), Returns ()).
Proof. done. Qed.

(** One call made, whose result is known. *)
Tactic Notation "run" uconstr(H) := rewrite (bind_returns _ _ _ _ _ H).

(** ** The bytes of a segment *)

Definition written (es : list Entry) : list Z := concat (encode <$> es).

Definition laid (n : Z) (es : list Entry) : list Z :=
  written es ++ zeros (n - size (written es)).

Lemma written_cons e es : written (e :: es) = encode e ++ written es.
Proof. done. Qed.

Lemma written_app es fs : written (es ++ fs) = written es ++ written fs.
Proof. unfold written. by rewrite fmap_app, concat_app. Qed.

Lemma written_snoc es e : written (es ++ [e]) = written es ++ encode e.
Proof. rewrite written_app, written_cons. unfold written at 2. cbn. by rewrite app_nil_r. Qed.

Lemma written_length es : (28 * length es ≤ length (written es))%nat.
Proof.
  induction es as [|e es IH]; [cbn; lia|].
  rewrite written_cons, length_app. pose proof (entry_size_pos e) as Hp.
  rewrite <- size_encode in Hp. unfold size in Hp. cbn [length]. lia.
Qed.

Lemma written_nil es : size (written es) = 0 → es = [].
Proof.
  intros Hz. pose proof (written_length es). unfold size in Hz. destruct es; [done|cbn in *; lia].
Qed.

Lemma size_laid n es : size (written es) ≤ n → size (laid n es) = n.
Proof. intros Hn. unfold laid. rewrite size_app, size_zeros; lia. Qed.

(** ** Reading a segment *)

Section deliver.
Context {S : Type}.

(** The calls of the callback for entries from an offset on. *)
Fixpoint deliver (callback : WalReader.PositionedEntryCallback S) (at_ : Z)
    (es : list Entry) : comp S unit :=
  match es with
  | [] => mret ()
  | e :: es =>
      match callback with
      | None => mret ()
      | Some f => f (id e) at_ (payload e)
      end ;;
      deliver callback (at_ + entry_size e) es
  end.

Lemma deliver_none at_ es s : deliver None at_ es s = (s, Returns ()).
Proof. revert at_. induction es as [|e es IH]; intros at_; [done|]. cbn. apply IH. Qed.

Lemma scan_loop_laid callback es : ∀ turns pre k s,
  Forall good_entry es → (length es < turns)%nat →
  let base := pre ++ written es ++ replicate k 0 in
  WalReader.scan_loop turns base (size base) (size pre) callback s =
    (deliver callback (size pre) es ;;
     mret (WalReader.mk_scan (size pre + size (written es)) true)) s.
Proof.
  induction es as [|e es IH]; intros turns pre k s Hg Hturns; cbn zeta.
  - destruct turns as [|turns]; [lia|]. cbn [written fmap list_fmap concat app].
    cbn [WalReader.scan_loop].
    assert (Hz : drop (Z.to_nat (size pre)) (pre ++ replicate k 0)
                 = replicate (length (pre ++ replicate k 0) - Z.to_nat (size pre)) 0).
    { unfold size. rewrite Nat2Z.id, drop_app_length, length_app, length_replicate.
      f_equal. lia. }
    rewrite (valid_in_zeros _ (size pre)) by (done || pose proof (size_nonneg pre); lia).
    cbn [negb Z.eqb].
    assert (all_zero (pre ++ replicate k 0) (size pre) (size (pre ++ replicate k 0)) = true) as ->.
    { by apply all_zero_end. }
    cbn. by rewrite Z.add_0_r.
  - apply Forall_cons_1 in Hg as [He Hes]. destruct turns as [|turns]; [cbn in Hturns; lia|].
    rewrite written_cons, <- app_assoc. cbn [WalReader.scan_loop].
    rewrite valid_entry by done. pose proof (entry_size_pos e).
    destruct (Z.eqb_spec (entry_size e) 0); [lia|]. cbn [negb].
    rewrite read_header_entry, payload_entry by done. cbn [record_id deliver].
    rewrite bind_assoc. apply bind_ext. intros [] s'.
    specialize (IH turns (pre ++ encode e) k s' Hes ltac:(cbn in Hturns; lia)). cbn zeta in IH.
    assert (Hs : size (pre ++ encode e) = size pre + entry_size e)
      by (by rewrite size_app, size_encode).
    rewrite Hs, <- app_assoc in IH. rewrite IH.
    apply bind_ext. intros [] s''. rewrite (size_app (encode e)), size_encode.
    by rewrite Z.add_assoc.
Qed.

(** From an offset at which an entry starts, or at which the entries end. *)
Lemma scan_segment_laid callback d s seg n before es :
  answers d = [] → segments d !! seg = Some (laid n (before ++ es)) →
  Forall good_entry es → size (written (before ++ es)) ≤ n → 0 < n →
  ∃ r, WalReader.scan_segment seg (size (written before)) callback (d, s) =
         ((d, (deliver callback (size (written before)) es s).1), r) ∧
    r = match (deliver callback (size (written before)) es s).2 with
        | Returns _ => Returns (WalReader.mk_scan (size (written (before ++ es))) true)
        | Throws e => Throws e
        end.
Proof.
  intros Hd Hseg Hg Hfit Hn. unfold WalReader.scan_segment.
  run (disk_eq d s). rewrite Hseg.
  run (call_fst_quiet d s Hd). run (call_fst_quiet d s Hd).
  rewrite size_laid by done. rewrite written_app in *. rewrite size_app in *.
  destruct (Z.eqb_spec n 0); [lia|]. cbn [orb].
  destruct (Z.leb_spec n (size (written before))) as [Hle|Hle].
  - pose proof (size_nonneg (written es)). assert (size (written es) = 0) as Hz by lia.
    rewrite (written_nil es Hz). cbn. eexists. split; [done|]. by rewrite Z.add_0_r.
  - run (call_fst_quiet d s Hd).
    unfold on_snd. cbn [fst snd].
    pose proof (scan_loop_laid callback es (Datatypes.S (length (laid n (before ++ es))))
      (written before) (Z.to_nat (n - size (written (before ++ es)))) s Hg) as Hscan.
    cbn zeta in Hscan. rewrite app_assoc, <- written_app in Hscan.
    fold (zeros (n - size (written (before ++ es)))) in Hscan.
    fold (laid n (before ++ es)) in Hscan.
    rewrite size_laid in Hscan by (rewrite written_app, size_app; lia).
    rewrite Hscan.
    2: { pose proof (written_length es). unfold laid. rewrite written_app, !length_app. lia. }
    unfold mbind, comp_bind, mret, comp_ret.
    destruct (deliver callback (size (written before)) es s) as [s' [[]|e]]; cbn; eauto.
Qed.

End deliver.

(** ** The log *)

(** The entries of a segment. *)
Definition part_at (first : Z) (parts : list (list Entry)) (seg : Z) : option (list Entry) :=
  if seg <? first then None else parts !! Z.to_nat (seg - first).

(** A directory of segments of [n] bytes from number [first] on, which the
    operating system lets the program use. *)
Record holds (n first : Z) (parts : list (list Entry)) (d : Disk) : Prop := mk_holds {
  holds_directory : parts = [] ∨ has_directory d = true;
  holds_quiet : answers d = [];
  holds_segments : ∀ seg, segments d !! seg = laid n <$> part_at first parts seg;
  holds_good : Forall (Forall good_entry) parts;
  holds_fit : Forall (λ es, size (written es) ≤ n) parts;
  holds_numbers : 0 ≤ first ∧ first + Z.of_nat (length parts) ≤ 1000000;
  holds_size : 0 < n
}.

Lemma part_at_Some first parts seg es :
  part_at first parts seg = Some es ↔
  first ≤ seg ∧ parts !! Z.to_nat (seg - first) = Some es.
Proof.
  unfold part_at. destruct (Z.ltb_spec seg first) as [Hlt|Hge].
  - split; [done|]. intros [? _]. lia.
  - split; [done|]. by intros [_ ?].
Qed.

Lemma part_at_index first parts i : part_at first parts (first + Z.of_nat i) = parts !! i.
Proof.
  unfold part_at. destruct (Z.ltb_spec (first + Z.of_nat i) first); [lia|]. f_equal. lia.
Qed.

Lemma number_in_name_small n : n < 1000000 → number_in_name n = n.
Proof.
  intros Hn. unfold number_in_name. cbn [leading_six].
  destruct (Z.ltb_spec n 1000000); [done|lia].
Qed.

Lemma seqZ_sorted m n : Sorted Z.le (seqZ m n).
Proof.
  assert (∀ len m, Sorted Z.le (seqZ m (Z.of_nat len))) as Hlen.
  { induction len as [|len IH]; intros m'; [constructor|].
    rewrite Nat2Z.inj_succ, seqZ_cons by lia. rewrite Z.pred_succ. constructor; [apply IH|].
    destruct len as [|len]; [constructor|]. rewrite Nat2Z.inj_succ, seqZ_cons by lia.
    constructor. lia. }
  destruct (decide (0 ≤ n)); [|by rewrite seqZ_nil by lia].
  replace n with (Z.of_nat (Z.to_nat n)) by lia. apply Hlen.
Qed.

Lemma holds_keys n first parts d :
  holds n first parts d →
  (map_to_list (segments d)).*1 ≡ₚ seqZ first (Z.of_nat (length parts)).
Proof.
  intros Hh. apply NoDup_Permutation; [apply NoDup_fst_map_to_list|apply NoDup_seqZ|].
  intros seg. rewrite elem_of_seqZ, list_elem_of_fmap. split.
  - intros ([seg' bytes] & -> & Hin%elem_of_map_to_list). cbn.
    rewrite (holds_segments _ _ _ _ Hh) in Hin.
    apply fmap_Some in Hin as (es & Hes & _). apply part_at_Some in Hes as [? Hes].
    apply lookup_lt_Some in Hes. lia.
  - intros Hseg. destruct (lookup_lt_is_Some_2 parts (Z.to_nat (seg - first))) as [es Hes]; [lia|].
    exists (seg, laid n es). split; [done|]. apply elem_of_map_to_list.
    rewrite (holds_segments _ _ _ _ Hh).
    assert (part_at first parts seg = Some es) as ->; [|done].
    apply part_at_Some. split; [lia|done].
Qed.

Lemma names_of_keys d first len :
  (map_to_list (segments d)).*1 ≡ₚ seqZ first len → first + len ≤ 1000000 →
  numbers_in_names d = seqZ first len.
Proof.
  intros Hk Hnum. unfold numbers_in_names.
  assert (number_in_name <$> (map_to_list (segments d)).*1 = (map_to_list (segments d)).*1) as ->.
  { rewrite <- list_fmap_id. apply list_fmap_ext. intros i seg Hseg.
    apply number_in_name_small. apply list_elem_of_lookup_2 in Hseg.
    rewrite Hk, elem_of_seqZ in Hseg. cbn. lia. }
  apply (Sorted_unique Z.le); [apply Sorted_merge_sort, _|apply seqZ_sorted|].
  by rewrite merge_sort_Permutation.
Qed.

Lemma holds_names n first parts d :
  holds n first parts d →
  numbers_in_names d = seqZ first (Z.of_nat (length parts)).
Proof.
  intros Hh. apply names_of_keys; [by eapply holds_keys|apply Hh].
Qed.

(** Where the last entry of the segments from [seg] on ends, or [p] where they
    hold none. *)
Fixpoint end_after (p : WalPosition) (seg : Z) (parts : list (list Entry)) : WalPosition :=
  match parts with
  | [] => p
  | es :: parts =>
      end_after (if 0 <? size (written es) then mk_position seg (size (written es)) else p)
        (seg + 1) parts
  end.

Section replay.
Context {S : Type}.

(** The callback that is not told the offset, for each entry. *)
Fixpoint each (f : Z → list Z → comp S unit) (es : list Entry) : comp S unit :=
  match es with
  | [] => mret ()
  | e :: es => f (id e) (payload e) ;; each f es
  end.

Lemma each_app f es fs s : each f (es ++ fs) s = (each f es ;; each f fs) s.
Proof.
  revert s. induction es as [|e es IH]; intros s; [done|].
  cbn [each app]. rewrite bind_assoc. apply bind_ext. intros [] s'. apply IH.
Qed.

Lemma each_app_returns f es fs s s' :
  each f (es ++ fs) s = (s', Returns ()) →
  ∃ s1, each f es s = (s1, Returns ()) ∧ each f fs s1 = (s', Returns ()).
Proof.
  rewrite each_app. unfold mbind, comp_bind.
  destruct (each f es s) as [s1 [[]|e]]; [eauto|done].
Qed.

Lemma deliver_each f at_ es s :
  deliver (WalReader.without_offset (Some f)) at_ es s = each f es s.
Proof.
  revert at_ s. induction es as [|e es IH]; intros at_ s; [done|].
  cbn [deliver each WalReader.without_offset]. apply bind_ext. intros [] s'. apply IH.
Qed.

Lemma scan_each f d s s' seg n before es :
  answers d = [] → segments d !! seg = Some (laid n (before ++ es)) →
  Forall good_entry es → size (written (before ++ es)) ≤ n → 0 < n →
  each f es s = (s', Returns ()) →
  WalReader.scan_segment seg (size (written before)) (WalReader.without_offset (Some f)) (d, s)
    = ((d, s'), Returns (WalReader.mk_scan (size (written (before ++ es))) true)).
Proof.
  intros Hd Hseg Hg Hfit Hn He.
  destruct (scan_segment_laid (WalReader.without_offset (Some f)) d s seg n before es)
    as (r & -> & ->); [done..|]. by rewrite deliver_each, He.
Qed.

Lemma replay_loop_through f d n from more : ∀ parts a p s s',
  answers d = [] → 0 < n →
  (∀ i es, parts !! i = Some es → segments d !! (a + Z.of_nat i) = Some (laid n es)) →
  Forall (Forall good_entry) parts → Forall (λ es, size (written es) ≤ n) parts →
  segment from < a ∨ (segment from = a ∧ offset from = 0) →
  each f (concat parts) s = (s', Returns ()) →
  WalReader.replay_loop (seqZ a (Z.of_nat (length parts)) ++ more) from
    (WalReader.without_offset (Some f)) (WalReader.mk_progress p None) (d, s)
    = WalReader.replay_loop more from (WalReader.without_offset (Some f))
        (WalReader.mk_progress (end_after p a parts) None) (d, s').
Proof.
  induction parts as [|es parts IH]; intros a p s s' Hd Hn Hseg Hg Hfit Hfrom He.
  { cbn in He. by injection He as <-. }
  cbn [length]. rewrite Nat2Z.inj_succ, seqZ_cons, Z.pred_succ by lia.
  apply Forall_cons_1 in Hg as [Hg Hgs]. apply Forall_cons_1 in Hfit as [Hfit Hfits].
  cbn [concat] in He. apply each_app_returns in He as (s1 & He & Hes).
  cbn [app WalReader.replay_loop]. destruct (Z.ltb_spec a (segment from)); [lia|].
  assert ((if a =? segment from then offset from else 0) = 0) as ->.
  { destruct (Z.eqb_spec a (segment from)); lia. }
  cbn [WalReader.settle_unclean WalReader.unclean].
  rewrite (bind_returns _ _ (d, s) (d, s) (WalReader.mk_progress p None)) by done.
  assert (Hhere : segments d !! a = Some (laid n ([] ++ es))).
  { specialize (Hseg 0%nat es eq_refl). by rewrite Z.add_0_r in Hseg. }
  run (scan_each f d s s1 a n [] es Hd Hhere Hg Hfit Hn He).
  cbn [WalReader.stopped_cleanly WalReader.consumed negb WalReader.unclean WalReader.end_ app].
  rewrite IH with (s' := s'); [done|done|done| |done|done|by left; lia|done].
  intros i es' Hi. specialize (Hseg (Datatypes.S i) es' Hi).
  by replace (Z.succ a + Z.of_nat i) with (a + Z.of_nat (Datatypes.S i)) by lia.
Qed.

Lemma replay_loop_rest f d n from parts a p s s' :
  answers d = [] → 0 < n →
  (∀ i es, parts !! i = Some es → segments d !! (a + Z.of_nat i) = Some (laid n es)) →
  Forall (Forall good_entry) parts → Forall (λ es, size (written es) ≤ n) parts →
  segment from < a ∨ (segment from = a ∧ offset from = 0) →
  each f (concat parts) s = (s', Returns ()) →
  WalReader.replay_loop (seqZ a (Z.of_nat (length parts))) from
    (WalReader.without_offset (Some f)) (WalReader.mk_progress p None) (d, s)
    = ((d, s'), Returns (end_after p a parts)).
Proof.
  intros Hd Hn Hseg Hg Hfit Hfrom He.
  rewrite <- (app_nil_r (seqZ a _)). by rewrite (replay_loop_through f d n from [] parts a p s s').
Qed.

Lemma replay_loop_skip f d from l l' p (s : S) :
  Forall (λ seg, seg < segment from) l →
  WalReader.replay_loop (l ++ l') from f p (d, s) = WalReader.replay_loop l' from f p (d, s).
Proof.
  induction 1 as [|seg l Hseg _ IH]; [done|]. cbn [app WalReader.replay_loop].
  destruct (Z.ltb_spec seg (segment from)); [done|lia].
Qed.

(** Reading the whole log. *)
Lemma replay_from_start f n first parts d s s' :
  holds n first parts d → each f (concat parts) s = (s', Returns ()) →
  WalReader.replay (mk_position 0 0) (Some f) (d, s)
    = ((d, s'), Returns (end_after (mk_position 0 0) first parts)).
Proof.
  intros Hh He. pose proof (holds_quiet _ _ _ _ Hh) as Hd.
  unfold WalReader.replay. run (disk_eq d s).
  destruct (has_directory d) eqn:Hdir; cbn [negb].
  - run (call_fst_quiet d s Hd). rewrite (holds_names _ _ _ _ Hh).
    apply (replay_loop_rest f d n); try apply Hh; [| |done].
    + intros i es Hi. by rewrite (holds_segments _ _ _ _ Hh), part_at_index, Hi.
    + cbn. pose proof (holds_numbers _ _ _ _ Hh). lia.
  - destruct (holds_directory _ _ _ _ Hh) as [->|]; [|congruence].
    cbn in He. by injection He as <-.
Qed.

(** Reading on from a position at which an entry starts, or the log ends. *)
Lemma replay_from_middle f n first skipped before es rest d s s' :
  holds n first (skipped ++ (before ++ es) :: rest) d →
  each f (es ++ concat rest) s = (s', Returns ()) →
  let seg := first + Z.of_nat (length skipped) in
  let from := mk_position seg (size (written before)) in
  WalReader.replay from (Some f) (d, s)
    = ((d, s'), Returns (end_after
         (if size (written before) <? size (written (before ++ es))
          then mk_position seg (size (written (before ++ es))) else from) (seg + 1) rest)).
Proof.
  intros Hh He. cbn zeta. pose proof (holds_quiet _ _ _ _ Hh) as Hd.
  set (seg := first + Z.of_nat (length skipped)).
  assert (Hseg : ∀ i es', ((before ++ es) :: rest) !! i = Some es' →
            segments d !! (seg + Z.of_nat i) = Some (laid n es')).
  { intros i es' Hi. rewrite (holds_segments _ _ _ _ Hh).
    replace (seg + Z.of_nat i) with (first + Z.of_nat (length skipped + i)) by lia.
    rewrite part_at_index, lookup_app_r by lia.
    by replace (length skipped + i - length skipped)%nat with i by lia; rewrite Hi. }
  pose proof (holds_good _ _ _ _ Hh) as Hg. apply Forall_app in Hg as [_ [Hg Hgs]%Forall_cons_1].
  pose proof (holds_fit _ _ _ _ Hh) as Hf. apply Forall_app in Hf as [_ [Hf Hfs]%Forall_cons_1].
  apply Forall_app in Hg as [_ Hg].
  unfold WalReader.replay. run (disk_eq d s).
  destruct (holds_directory _ _ _ _ Hh) as [Hnil|Hdir]; [by destruct skipped|].
  rewrite Hdir. cbn [negb]. run (call_fst_quiet d s Hd). rewrite (holds_names _ _ _ _ Hh).
  rewrite length_app, Nat2Z.inj_add, seqZ_app by lia.
  rewrite replay_loop_skip.
  2: { apply Forall_forall. intros x Hx%elem_of_seqZ. cbn. lia. }
  fold seg. cbn [length]. rewrite Nat2Z.inj_succ, seqZ_cons, Z.pred_succ by lia.
  apply each_app_returns in He as (s1 & He & Hes).
  cbn [WalReader.replay_loop segment offset]. rewrite Z.ltb_irrefl, Z.eqb_refl.
  cbn [WalReader.settle_unclean WalReader.unclean].
  rewrite (bind_returns _ _ (d, s) (d, s) (WalReader.mk_progress (mk_position seg (size (written before))) None)) by done.
  assert (Hhere : segments d !! seg = Some (laid n (before ++ es))).
  { specialize (Hseg 0%nat _ eq_refl). by rewrite Z.add_0_r in Hseg. }
  run (scan_each f d s s1 seg n before es Hd Hhere Hg Hf (holds_size _ _ _ _ Hh) He).
  cbn [WalReader.stopped_cleanly WalReader.consumed negb WalReader.unclean WalReader.end_].
  apply (replay_loop_rest f d n); [done|apply Hh| |done|done|left; cbn; lia|done].
  intros i es' Hi. specialize (Hseg (Datatypes.S i) es' Hi).
  by replace (seg + 1 + Z.of_nat i) with (seg + Z.of_nat (Datatypes.S i)) by lia.
Qed.

End replay.

(** ** Reading with a cursor *)

(** The cursor stands in segment [first + j] after the entries [before], and
    has the segment mapped or has yet to map it. *)
Record cursor_at (n first : Z) (j : nat) (before : list Entry) (c : WalCursor.t) : Prop := {
  cursor_segment : WalCursor.segment_ c = first + Z.of_nat j;
  cursor_reading : WalCursor.every_segment_read_ c = false;
  cursor_offset : WalCursor.offset_ c = size (written before);
  cursor_map : WalCursor.map_size_ c = None ∨ WalCursor.map_size_ c = Some n
}.

Lemma cursor_eq d c : WalCursor.cursor (d, c) = ((d, c), Returns c).
Proof. done. Qed.

(** One turn of the loop of [read_next], once the segment is mapped. *)
Definition mapped_turn (turns : nat) : comp WalCursor.state WalCursor.Found :=
  d ← disk;
  c ← WalCursor.cursor;
  let map_size := default 0 (WalCursor.map_size_ c) in
  let base := WalCursor.mapped d c map_size in
  if map_size <? WalCursor.offset_ c + entry_header_size
  then WalCursor.move_to_next_segment ;; WalCursor.read_next_loop turns
  else
    let entry_size := valid_entry_size_at base map_size (WalCursor.offset_ c) in
    if entry_size =? 0 then
      if all_zero base (WalCursor.offset_ c) map_size
      then WalCursor.move_to_next_segment ;; WalCursor.read_next_loop turns
      else
        let later := next_valid_entry_after base map_size (WalCursor.offset_ c) in
        more ← (if later =? map_size then WalCursor.later_segment_has_entries else mret true);
        if negb more then mret None
        else if negb (valid_entry_size_at base map_size (WalCursor.offset_ c) =? 0)
        then WalCursor.read_next_loop turns
        else throw PubSubItcException
    else
      let past := WalCursor.offset_ c + entry_size in
      on_snd (modify (λ c, WalCursor.mk (WalCursor.segment_ c)
        (WalCursor.every_segment_read_ c) past
        (mk_position (WalCursor.segment_ c) past) (WalCursor.map_size_ c))) ;;
      mret (Some (record_id (read_header base (WalCursor.offset_ c)),
                  payload_at base (WalCursor.offset_ c))).

Section cursor.
Context (n first : Z) (parts : list (list Entry)) (d : Disk).
Context (Hh : holds n first parts d).

Lemma cursor_maps j before es c turns :
  cursor_at n first j before c → parts !! j = Some es →
  ∃ c', WalCursor.read_next_loop (S turns) (d, c) = mapped_turn turns (d, c') ∧
    cursor_at n first j before c' ∧ WalCursor.map_size_ c' = Some n ∧
    WalCursor.position_ c' = WalCursor.position_ c.
Proof using Hh.
  intros Hc Hj. pose proof (holds_quiet _ _ _ _ Hh) as Hd.
  pose proof (holds_size _ _ _ _ Hh) as Hn.
  cbn [WalCursor.read_next_loop]. run (cursor_eq d c). rewrite (cursor_reading _ _ _ _ _ Hc).
  destruct (cursor_map _ _ _ _ _ Hc) as [Hm|Hm]; rewrite Hm.
  - unfold WalCursor.map_current_segment. rewrite bind_assoc. run (disk_eq d c).
    rewrite bind_assoc. run (cursor_eq d c).
    rewrite (cursor_segment _ _ _ _ _ Hc), (holds_segments _ _ _ _ Hh), part_at_index, Hj.
    cbn [fmap option_fmap option_map].
    rewrite bind_assoc. run (refused_fst_quiet d c Hd).
    rewrite bind_assoc. run (refused_fst_quiet d c Hd). cbn [orb].
    rewrite size_laid by exact (Forall_lookup_1 _ _ _ _ (holds_fit _ _ _ _ Hh) Hj).
    destruct (Z.eqb_spec n 0); [lia|]. rewrite bind_assoc. run (call_fst_quiet d c Hd).
    rewrite bind_assoc. unfold on_snd at 1, modify at 1. cbn [fst snd].
    eexists. split; [reflexivity|]. split; [|done].
    constructor; try apply Hc. by right.
  - run (mret_eq true (d, c)). exists c. split; [reflexivity|]. done.
Qed.

Lemma mapped_laid j es c :
  WalCursor.segment_ c = first + Z.of_nat j → parts !! j = Some es →
  WalCursor.mapped d c n = laid n es.
Proof using Hh.
  intros Hc Hj. unfold WalCursor.mapped. rewrite Hc, (holds_segments _ _ _ _ Hh).
  rewrite part_at_index, Hj. cbn [fmap option_fmap option_map default]. unfold slice.
  cbn [Z.to_nat drop]. rewrite Z2Nat.inj_0, drop_0. apply take_ge.
  pose proof (size_laid n es (Forall_lookup_1 _ _ _ _ (holds_fit _ _ _ _ Hh) Hj)) as Hs.
  unfold size in Hs. lia.
Qed.

(** An entry is there: it is handed out. *)
Lemma cursor_reads j before e es c turns :
  cursor_at n first j before c → parts !! j = Some (before ++ e :: es) →
  ∃ c', WalCursor.read_next_loop (S turns) (d, c)
          = ((d, c'), Returns (Some (id e, payload e))) ∧
    cursor_at n first j (before ++ [e]) c' ∧
    WalCursor.position_ c' =
      mk_position (first + Z.of_nat j) (size (written (before ++ [e]))).
Proof using Hh.
  intros Hc Hj. destruct (cursor_maps j before _ c turns Hc Hj) as (c1 & -> & Hc1 & Hm & _).
  pose proof (Forall_lookup_1 _ _ _ _ (holds_fit _ _ _ _ Hh) Hj) as Hfit. cbn beta in Hfit.
  pose proof (Forall_lookup_1 _ _ _ _ (holds_good _ _ _ _ Hh) Hj) as Hg.
  apply Forall_app in Hg as [_ [Hg _]%Forall_cons_1].
  unfold mapped_turn. run (disk_eq d c1). run (cursor_eq d c1). rewrite Hm. cbv zeta. cbn [default from_option Datatypes.id].
  rewrite (mapped_laid j _ c1 (cursor_segment _ _ _ _ _ Hc1) Hj).
  rewrite (cursor_offset _ _ _ _ _ Hc1).
  assert (Hlaid : laid n (before ++ e :: es) = written before ++ encode e ++
            written es ++ zeros (n - size (written (before ++ e :: es)))).
  { unfold laid. by rewrite written_app, written_cons, <- !app_assoc. }
  pose proof (size_laid n _ Hfit) as Hsize. pose proof (entry_size_pos e).
  rewrite written_app, written_cons, !size_app, size_encode in Hfit.
  pose proof (size_nonneg (written es)). unfold entry_header_size at 1.
  destruct (Z.ltb_spec n (size (written before) + 24)); [lia|].
  assert (valid_entry_size_at (laid n (before ++ e :: es)) n (size (written before))
          = entry_size e) as Hvalid.
  { rewrite <- Hsize at 2. rewrite Hlaid. by apply valid_entry. }
  rewrite Hvalid. destruct (Z.eqb_spec (entry_size e) 0); [lia|].
  unfold mbind at 1, comp_bind at 1. unfold on_snd at 1, modify. cbn [fst snd].
  rewrite Hlaid, read_header_entry, payload_entry by done.
  eexists. split; [reflexivity|].
  assert (Hpast : size (written before) + entry_size e = size (written (before ++ [e]))).
  { by rewrite written_snoc, size_app, size_encode. }
  rewrite Hpast. split; [constructor|]; cbn; try apply Hc1; [done|].
  by rewrite (cursor_segment _ _ _ _ _ Hc1).
Qed.

(** No entry is left in the segment: the cursor moves on, or is finished. *)
Lemma cursor_moves j before c turns :
  cursor_at n first j before c → parts !! j = Some before →
  WalCursor.read_next_loop (S turns) (d, c) =
    WalCursor.read_next_loop turns
      (d, if decide (S j < length parts)%nat
          then WalCursor.mk (first + Z.of_nat (S j)) false 0 (WalCursor.position_ c) None
          else WalCursor.mk (first + Z.of_nat j) true 0 (WalCursor.position_ c) None).
Proof using Hh.
  intros Hc Hj. destruct (cursor_maps j before _ c turns Hc Hj) as (c1 & -> & Hc1 & Hm & Hp).
  pose proof (Forall_lookup_1 _ _ _ _ (holds_fit _ _ _ _ Hh) Hj) as Hfit. cbn beta in Hfit.
  unfold mapped_turn. run (disk_eq d c1). run (cursor_eq d c1). rewrite Hm. cbv zeta. cbn [default from_option Datatypes.id].
  rewrite (mapped_laid j _ c1 (cursor_segment _ _ _ _ _ Hc1) Hj).
  rewrite (cursor_offset _ _ _ _ _ Hc1).
  assert (Hz : drop (Z.to_nat (size (written before))) (laid n before)
               = replicate (length (laid n before) - Z.to_nat (size (written before))) 0).
  { unfold laid, size, zeros. rewrite Nat2Z.id, drop_app_length, length_app, length_replicate.
    f_equal. lia. }
  pose proof (size_nonneg (written before)).
  rewrite (valid_in_zeros _ (size (written before))) by (done || lia). cbn [Z.eqb].
  assert (all_zero (laid n before) (size (written before)) n = true) as ->.
  { rewrite <- (size_laid n before Hfit) at 2. by apply all_zero_end. }
  assert (Hmove : WalCursor.move_to_next_segment (d, c1) =
    ((d, if decide (S j < length parts)%nat
         then WalCursor.mk (first + Z.of_nat (S j)) false 0 (WalCursor.position_ c) None
         else WalCursor.mk (first + Z.of_nat j) true 0 (WalCursor.position_ c) None),
     Returns ())).
  { unfold WalCursor.move_to_next_segment, WalCursor.unmap_current. run (modify_snd_eq _ d c1).
    run (disk_eq d _). run (cursor_eq d _). cbn [WalCursor.segment_].
    rewrite (cursor_segment _ _ _ _ _ Hc1). unfold WalCursor.segment_exists.
    replace (first + Z.of_nat j + 1) with (first + Z.of_nat (S j)) by lia.
    rewrite (holds_segments _ _ _ _ Hh), part_at_index.
    rewrite <- Hp. case_decide as Hlt.
    - destruct (lookup_lt_is_Some_2 parts (S j) Hlt) as [es ->].
      cbn [fmap option_fmap option_map]. rewrite modify_snd_eq.
      cbn [WalCursor.segment_ WalCursor.every_segment_read_ WalCursor.position_ WalCursor.map_size_].
      rewrite (cursor_reading _ _ _ _ _ Hc1), ?(cursor_segment _ _ _ _ _ Hc1).
      do 3 f_equal. lia.
    - rewrite lookup_ge_None_2 by lia. cbn [fmap option_fmap option_map].
      rewrite modify_snd_eq.
      cbn [WalCursor.segment_ WalCursor.every_segment_read_ WalCursor.position_ WalCursor.map_size_].
      by rewrite ?(cursor_segment _ _ _ _ _ Hc1). }
  case_if; by run Hmove.
Qed.

(** What a cursor that stands after the entries [before] of segment
    [first + j] has still to hand out. *)
Definition remaining (j : nat) (es : list Entry) : list Entry :=
  es ++ concat (drop (S j) parts).

Lemma read_next_loop_ok turns : ∀ j before es c,
  cursor_at n first j before c → parts !! j = Some (before ++ es) →
  (length parts - j < turns)%nat →
  match remaining j es with
  | [] => ∃ c', WalCursor.read_next_loop turns (d, c) = ((d, c'), Returns None)
  | e :: more =>
      ∃ c' j' before' es',
        WalCursor.read_next_loop turns (d, c) = ((d, c'), Returns (Some (id e, payload e))) ∧
        cursor_at n first j' (before' ++ [e]) c' ∧
        parts !! j' = Some ((before' ++ [e]) ++ es') ∧
        WalCursor.position_ c' =
          mk_position (first + Z.of_nat j') (size (written (before' ++ [e]))) ∧
        more = remaining j' es' ∧
        concat (take j' parts) ++ before' = concat (take j parts) ++ before
  end.
Proof using Hh.
  induction turns as [|turns IH]; intros j before es c Hc Hj Hturns; [lia|].
  pose proof (lookup_lt_Some _ _ _ Hj) as Hlt. unfold remaining at 1. destruct es as [|e es].
  - rewrite app_nil_r in Hj. rewrite (cursor_moves j before c turns Hc Hj). cbn [app].
    case_decide as Hd.
    + destruct (lookup_lt_is_Some_2 parts (S j) Hd) as [es' Hes'].
      rewrite (drop_S _ _ _ Hes'). cbn [concat].
      specialize (IH (S j) [] es' (WalCursor.mk (first + Z.of_nat (S j)) false 0
                                     (WalCursor.position_ c) None)).
      fold (remaining (S j) es').
      rewrite (take_S_r _ _ _ Hj), concat_app in IH. cbn [concat] in IH.
      rewrite !app_nil_r in IH.
      apply IH; [|done|lia]. constructor; [done..|by left].
    + rewrite drop_ge by lia. cbn [concat]. destruct turns as [|turns]; [lia|].
      eexists. reflexivity.
  - cbn [app]. destruct (cursor_reads j before e es c turns Hc Hj) as (c' & -> & Hc' & Hpos).
    exists c', j, before, es. split_and!; try done. by rewrite <- app_assoc.
Qed.

Lemma read_next_ok j before es c :
  cursor_at n first j before c → parts !! j = Some (before ++ es) →
  match remaining j es with
  | [] => ∃ c', WalCursor.read_next (d, c) = ((d, c'), Returns None)
  | e :: more =>
      ∃ c' j' before' es',
        WalCursor.read_next (d, c) = ((d, c'), Returns (Some (id e, payload e))) ∧
        cursor_at n first j' (before' ++ [e]) c' ∧
        parts !! j' = Some ((before' ++ [e]) ++ es') ∧
        WalCursor.position_ c' =
          mk_position (first + Z.of_nat j') (size (written (before' ++ [e]))) ∧
        more = remaining j' es' ∧
        concat (take j' parts) ++ before' = concat (take j parts) ++ before
  end.
Proof using Hh.
  intros Hc Hj. unfold WalCursor.read_next, mbind, comp_bind. rewrite disk_eq.
  apply read_next_loop_ok; [done..|].
  pose proof (Permutation_length (holds_keys _ _ _ _ Hh)) as Hlen.
  rewrite length_fmap, length_seqZ in Hlen. lia.
Qed.

(** A cursor opened at the start of a segment that is there. *)
Lemma cursor_opens j es c :
  parts !! j = Some es →
  ∃ c', WalCursor.open (mk_position (first + Z.of_nat j) 0) (d, c) = ((d, c'), Returns ()) ∧
    cursor_at n first j [] c'.
Proof using Hh.
  intros Hj. unfold WalCursor.open, WalCursor.unmap_current. run (modify_snd_eq _ d c).
  run (disk_eq d _). unfold WalCursor.segment_exists. cbn [segment].
  rewrite (holds_segments _ _ _ _ Hh), part_at_index, Hj. cbn [fmap option_fmap option_map].
  rewrite modify_snd_eq. eexists. split; [reflexivity|]. constructor; [done..|by left].
Qed.

End cursor.
