(* ===== verification/WalLog.v ===== *)
(** The write-ahead log as a list of records.

    [writing] is the invariant of a log in use: what the directory holds, where
    the writer is, and what the helper has been asked for.  The sections show,
    operation by operation, that it is kept and what becomes of the entries. *)

From stdpp Require Import sorting.
From S2P Require Import Prelude.
From S2P Require Import WalEntry.
From S2P Require Import WalWriter.
From S2P Require Import WalReader.
From S2P Require Import Wal.
From S2P Require Import WalLayout.
#[local] Open Scope Z_scope.

(** ** Making a segment *)

Lemma with_segments_twice d m m' : with_segments (with_segments d m) m' = with_segments d m'.
Proof. done. Qed.

Lemma with_segments_same d : with_segments d (segments d) = d.
Proof. by destruct d. Qed.

Lemma zeros_app m n : 0 ≤ m → 0 ≤ n → zeros m ++ zeros n = zeros (m + n).
Proof. intros Hm Hn. unfold zeros. rewrite <- replicate_add. f_equal. lia. Qed.

Lemma fill_loop_ok turns : ∀ seg remaining d bytes,
  answers d = [] → segments d !! seg = Some bytes →
  0 ≤ remaining → (Z.to_nat remaining ≤ turns)%nat →
  WalWriter.fill_loop turns seg remaining d =
    (with_segments d (<[seg := bytes ++ zeros remaining]> (segments d)), Returns ()).
Proof.
  induction turns as [|turns IH]; intros seg remaining d bytes Hd Hseg Hr Ht;
    cbn [WalWriter.fill_loop]; destruct (Z.leb_spec remaining 0).
  1, 3: assert (remaining = 0) as -> by lia; unfold zeros; cbn; rewrite app_nil_r;
    rewrite insert_id by done; by destruct d.
  { lia. }
  assert (Hc : 1 ≤ Z.min remaining WalWriter.fill_chunk_bytes ≤ remaining).
  { unfold WalWriter.fill_chunk_bytes. lia. }
  set (chunk := Z.min remaining WalWriter.fill_chunk_bytes) in *.
  run (call_quiet d Hd). run (gets_eq _ d).
  rewrite Hseg. cbn [default].
  run (set_segment_eq _ _ d).
  rewrite (IH _ _ _ (bytes ++ zeros chunk)); [|done|apply lookup_insert_eq|lia|lia].
  cbn [segments with_segments]. rewrite insert_insert_eq, <- app_assoc, zeros_app by lia.
  by replace (chunk + (remaining - chunk)) with remaining by lia.
Qed.

Lemma laid_nil n : laid n [] = zeros n.
Proof. unfold laid. cbn. by rewrite Z.sub_0_r. Qed.

(** The file of segment [first + j], which is there or is the next. *)
Lemma create_and_map_ok n first parts d j :
  holds n first parts d → has_directory d = true →
  (j ≤ length parts)%nat → first + Z.of_nat j < 1000000 →
  ∃ m parts', WalWriter.create_and_map n (first + Z.of_nat j) d =
      (with_segments d m, Returns (WalWriter.mk_opened (first + Z.of_nat j) true)) ∧
    holds n first parts' (with_segments d m) ∧
    parts' = (if decide (j < length parts)%nat then parts else parts ++ [[]]).
Proof.
  intros Hh Hdir Hj Hroom. pose proof (holds_quiet _ _ _ _ Hh) as Hd.
  pose proof (holds_size _ _ _ _ Hh) as Hn.
  unfold WalWriter.create_and_map. run (gets_eq _ d).
  rewrite (holds_segments _ _ _ _ Hh), part_at_index.
  destruct (decide (j < length parts)%nat) as [Hlt|Hge].
  - destruct (lookup_lt_is_Some_2 parts j Hlt) as [es ->]. cbn [fmap option_fmap option_map].
    run (call_quiet d Hd). run (call_quiet d Hd).
    exists (segments d), parts. split_and!; [by destruct d| |done]. by destruct d.
  - assert (j = length parts) as -> by lia. rewrite lookup_ge_None_2 by lia.
    cbn [fmap option_fmap option_map]. rewrite Hdir.
    set (seg := first + Z.of_nat (length parts)).
    rewrite bind_assoc. run (call_quiet d Hd). rewrite bind_assoc.
    run (set_segment_eq _ _ d).
    unfold WalWriter.fill_new_segment. rewrite bind_assoc.
    run (fill_loop_ok (Z.to_nat n) seg n (with_segments d (<[seg := []]> (segments d))) []
           Hd (lookup_insert_eq _ _ _) ltac:(lia) ltac:(lia)).
    cbn [segments with_segments]. rewrite insert_insert_eq. cbn [app].
    match goal with |- context [with_segments ?x ?y] => set (d' := with_segments x y) end.
    run (call_quiet d' Hd). run (call_quiet d' Hd).
    exists (<[seg := zeros n]> (segments d)), (parts ++ [[]]). split_and!; [done| |done].
    constructor; [by right|done|..].
    + intros s. cbn [segments with_segments]. destruct (decide (s = seg)) as [->|Hne].
      * rewrite lookup_insert_eq. unfold seg. rewrite part_at_index.
        rewrite list_lookup_middle by done. cbn [fmap option_fmap option_map]. by rewrite laid_nil.
      * rewrite lookup_insert_ne by done. rewrite (holds_segments _ _ _ _ Hh). f_equal.
        unfold part_at. destruct (Z.ltb_spec s first); [done|].
        destruct (decide (s < seg)); [by rewrite lookup_app_l by lia|].
        rewrite !lookup_ge_None_2; [done|rewrite length_app; cbn; lia|lia].
    + apply Forall_app. split; [apply Hh|]. by repeat constructor.
    + apply Forall_app. split; [apply Hh|]. apply Forall_singleton. change (size (written [])) with 0. lia.
    + pose proof (holds_numbers _ _ _ _ Hh). rewrite length_app. cbn. lia.
    + done.
Qed.

(** ** The writer *)

(** The log is being written: segment [first + k] is the current one and holds
    [cur]; a segment after it was made ahead and is empty. *)
Record writing (n first : Z) (parts : list (list Entry)) (k : nat) (cur : list Entry)
    (d : Disk) (w : WalWriter.t) : Prop := mk_writing {
  writing_holds : holds n first parts d;
  writing_directory : has_directory d = true;
  writing_size : WalWriter.segment_size_ w = n ∧ WalWriter.min_entry_bytes * 2 ≤ n;
  writing_here : parts !! k = Some cur;
  writing_later : ∀ j es, parts !! j = Some es → (k < j)%nat → es = [];
  writing_ahead : (length parts ≤ k + 2)%nat;
  writing_segment : WalWriter.current_segment_ w = first + Z.of_nat k;
  writing_offset : WalWriter.write_offset_ w = size (written cur);
  writing_mapped : WalWriter.mmap_ptr_ w = Some (first + Z.of_nat k);
  writing_requested : WalWriter.prep_state_ w = WalWriter.Requested →
    WalWriter.helper_running_ w = true ∧
    WalWriter.requested_segment_ w = first + Z.of_nat (S k);
  writing_ready : WalWriter.prep_state_ w = WalWriter.Ready →
    WalWriter.prepared_ w = WalWriter.mk_opened (first + Z.of_nat (S k)) true ∧
    (S k < length parts)%nat
}.

Lemma writer_eq d w : WalWriter.writer (d, w) = ((d, w), Returns w).
Proof. done. Qed.

(** What was there stays: segments before [k] as they are, later ones with
    entries added at their end. *)
Definition grows (k : nat) (parts parts' : list (list Entry)) : Prop :=
  take k parts' = take k parts ∧
  ∀ j es, parts !! j = Some es → ∃ added, parts' !! j = Some (es ++ added).

Lemma grows_refl k parts : grows k parts parts.
Proof. split; [done|]. intros j es Hj. exists []. by rewrite app_nil_r. Qed.

Lemma grows_trans k parts1 parts2 parts3 :
  grows k parts1 parts2 → grows k parts2 parts3 → grows k parts1 parts3.
Proof.
  intros [H1 E1] [H2 E2]. split; [congruence|]. intros j es Hj.
  destruct (E1 j es Hj) as [a Ha]. destruct (E2 j _ Ha) as [b Hb].
  exists (a ++ b). by rewrite app_assoc.
Qed.

Lemma grows_less k parts parts' : grows (S k) parts parts' → grows k parts parts'.
Proof.
  intros [Ht He]. split; [|done]. apply (f_equal (take k)) in Ht.
  by rewrite !take_take, !Nat.min_l in Ht by lia.
Qed.

Lemma grows_insert k j parts es added :
  (k ≤ j)%nat → parts !! j = Some es → grows k parts (<[j := es ++ added]> parts).
Proof.
  intros Hj Hes. split; [by rewrite take_insert_ge by lia|]. intros i fs Hi.
  destruct (decide (i = j)) as [->|].
  - exists added. rewrite list_lookup_insert_eq; [congruence|]. by eapply lookup_lt_Some.
  - exists []. by rewrite list_lookup_insert_ne, app_nil_r.
Qed.

Lemma grows_ahead (parts : list (list Entry)) k j :
  (k ≤ length parts)%nat →
  grows k parts (if decide (j < length parts)%nat then parts else parts ++ [[]]).
Proof.
  intros Hk. case_decide; [apply grows_refl|]. split; [by rewrite take_app_le by done|].
  intros i es Hi. exists []. rewrite app_nil_r. by apply lookup_app_l_Some.
Qed.

(** A segment more ahead of the writer. *)
Lemma concat_ahead (parts : list (list Entry)) j :
  concat (if decide (j < length parts)%nat then parts else parts ++ [[]]) = concat parts.
Proof. case_decide; [done|]. rewrite concat_app. cbn. by rewrite app_nil_r. Qed.

Lemma writing_more n first parts k cur d w parts' m :
  writing n first parts k cur d w →
  holds n first parts' (with_segments d m) →
  parts' = (if decide (S k < length parts)%nat then parts else parts ++ [[]]) →
  writing n first parts' k cur (with_segments d m) w.
Proof.
  intros Hw Hh ->. pose proof (lookup_lt_Some _ _ _ (writing_here _ _ _ _ _ _ _ Hw)) as Hk.
  constructor; try apply Hw; [done|..]; case_decide; try apply Hw.
  - by rewrite lookup_app_l by done; apply Hw.
  - intros j es Hj Hlt. apply lookup_app_Some in Hj as [Hj|[Hj Hj']].
    + by eapply writing_later.
    + destruct (j - length parts)%nat as [|j']; cbn in Hj'; [congruence|done].
  - rewrite length_app. cbn. lia.
  - intros Hr. destruct (writing_ready _ _ _ _ _ _ _ Hw Hr). lia.
Qed.

Lemma helper_turn_ok n first parts k cur d w :
  writing n first parts k cur d w → first + Z.of_nat (S k) < 1000000 →
  ∃ m parts' w', WalWriter.helper_turn (d, w) = ((with_segments d m, w'), Returns ()) ∧
    writing n first parts' k cur (with_segments d m) w' ∧
    concat parts' = concat parts ∧ grows k parts parts' ∧
    WalWriter.prep_state_ w' ≠ WalWriter.Requested.
Proof.
  intros Hw Hroom. pose proof (lookup_lt_Some _ _ _ (writing_here _ _ _ _ _ _ _ Hw)) as Hk.
  unfold WalWriter.helper_turn. run (writer_eq d w).
  destruct (decide (WalWriter.prep_state_ w = WalWriter.Requested)) as [Hr|Hr].
  - destruct (writing_requested _ _ _ _ _ _ _ Hw Hr) as [Hrun Hreq].
    rewrite Hrun, bool_decide_eq_true_2 by done. cbn [andb].
    destruct (create_and_map_ok n first parts d (S k)) as (m & parts' & Hmake & Hh & Hparts);
      [apply Hw|apply Hw|lia|done|].
    unfold try_catch. rewrite (proj1 (writing_size _ _ _ _ _ _ _ Hw)), Hreq.
    run (on_fst_eq _ _ _ w _ Hmake).
    unfold WalWriter.set_prepared, WalWriter.set_prep_state.
    run (modify_snd_eq _ (with_segments d m) w). rewrite modify_snd_eq.
    eexists m, parts', _. split; [reflexivity|].
    split_and!; [|by rewrite Hparts; apply concat_ahead|rewrite Hparts; apply grows_ahead; lia|done].
    pose proof (writing_more _ _ _ _ _ _ _ _ _ Hw Hh Hparts) as Hmore.
    constructor; try apply Hmore; cbn; try done.
    intros _. split; [done|]. rewrite Hparts. case_decide; [done|].
    rewrite length_app. cbn. lia.
  - rewrite (bool_decide_eq_false_2 _ Hr), andb_false_r.
    exists (segments d), parts, w. rewrite with_segments_same.
    split_and!; [done..|apply grows_refl|done].
Qed.

Lemma request_preparation_ok n first parts k cur d w :
  writing n first parts k cur d w →
  ∃ w', WalWriter.request_preparation (first + Z.of_nat (S k)) (d, w) = ((d, w'), Returns ()) ∧
    writing n first parts k cur d w'.
Proof.
  intros Hw. unfold WalWriter.request_preparation. run (writer_eq d w).
  destruct (WalWriter.helper_running_ w) eqn:Hrun; cbn [negb]; [|by exists w].
  case_if; [by exists w|].
  run (modify_snd_eq _ d w). unfold WalWriter.wake_helper.
  run (refused_fst_quiet d (WalWriter.with_prep w WalWriter.Requested (WalWriter.prepared_ w)
         (first + Z.of_nat (S k))) (holds_quiet _ _ _ _ (writing_holds _ _ _ _ _ _ _ Hw))).
  eexists. split; [reflexivity|]. constructor; try apply Hw; cbn; done.
Qed.

Lemma open_segment_ok n first parts d w j :
  holds n first parts d → has_directory d = true → WalWriter.segment_size_ w = n →
  (j ≤ length parts)%nat → first + Z.of_nat j < 1000000 →
  ∃ m parts', WalWriter.open_segment (first + Z.of_nat j) (d, w) =
      ((with_segments d m,
        WalWriter.with_position (WalWriter.with_mapping
          (WalWriter.with_counts w (WalWriter.segments_filled_inline_ w + 1)
             (WalWriter.segments_waited_for_ w)) (Some (first + Z.of_nat j)))
          (first + Z.of_nat j) (WalWriter.write_offset_ w)), Returns ()) ∧
    holds n first parts' (with_segments d m) ∧
    parts' = (if decide (j < length parts)%nat then parts else parts ++ [[]]).
Proof.
  intros Hh Hdir Hn Hj Hroom. unfold WalWriter.open_segment. run (modify_snd_eq _ d w).
  set (w1 := WalWriter.with_counts w _ _). run (writer_eq d w1).
  destruct (create_and_map_ok n first parts d j) as (m & parts' & Hmake & Hh' & Hparts);
    [done..|].
  replace (WalWriter.segment_size_ w1) with n by done.
  run (on_fst_eq _ _ _ w1 _ Hmake). by exists m, parts'.
Qed.

(** The next segment becomes the current one. *)
Lemma rolled_writing n first parts k d w :
  holds n first parts d → has_directory d = true →
  WalWriter.segment_size_ w = n ∧ WalWriter.min_entry_bytes * 2 ≤ n →
  parts !! S k = Some [] → length parts = (k + 2)%nat →
  WalWriter.current_segment_ w = first + Z.of_nat (S k) →
  WalWriter.mmap_ptr_ w = Some (first + Z.of_nat (S k)) →
  WalWriter.prep_state_ w ≠ WalWriter.Requested → WalWriter.prep_state_ w ≠ WalWriter.Ready →
  writing n first parts (S k) [] d
    (WalWriter.with_position w (WalWriter.current_segment_ w) 0).
Proof.
  intros Hh Hdir Hn Hnext Hlen Hseg Hmap Hnr Hnd.
  constructor; cbn; try done; [|lia].
  intros j es Hj%lookup_lt_Some ?. lia.
Qed.

(** Waiting for the helper where it has been asked. *)
Lemma await_ok n first parts k cur d w :
  writing n first parts k cur d w → first + Z.of_nat (S k) < 1000000 →
  ∃ m parts' w',
    (if bool_decide (WalWriter.prep_state_ w = WalWriter.Requested)
     then WalWriter.await_helper else mret ()) (d, w) = ((with_segments d m, w'), Returns ()) ∧
    writing n first parts' k cur (with_segments d m) w' ∧ concat parts' = concat parts ∧
    grows k parts parts' ∧ WalWriter.prep_state_ w' ≠ WalWriter.Requested.
Proof.
  intros Hw Hroom.
  destruct (decide (WalWriter.prep_state_ w = WalWriter.Requested)) as [Hr|Hr].
  - rewrite bool_decide_eq_true_2 by done. unfold WalWriter.await_helper.
    run (modify_snd_eq _ d w). apply helper_turn_ok; [|done].
    constructor; try apply Hw; done.
  - rewrite bool_decide_eq_false_2 by done. exists (segments d), parts, w.
    rewrite with_segments_same. split_and!; [done..|apply grows_refl|done].
Qed.

(** The next segment is adopted, or made by the writer. *)
Lemma next_segment_ok n first parts k cur d w :
  writing n first parts k cur d w → first + Z.of_nat (S k) < 1000000 →
  WalWriter.prep_state_ w ≠ WalWriter.Requested →
  ∃ m parts' w',
    (if bool_decide (WalWriter.prep_state_ w = WalWriter.Ready) &&
        (WalWriter.seg_num (WalWriter.prepared_ w) =? first + Z.of_nat (S k))
     then WalWriter.adopt (WalWriter.prepared_ w) ;;
          WalWriter.set_prepared WalWriter.nothing_opened ;;
          WalWriter.set_prep_state WalWriter.Idle
     else WalWriter.release_prepared_if_ready ;;
          WalWriter.open_segment (first + Z.of_nat (S k))) (d, w)
      = ((with_segments d m, w'), Returns ()) ∧
    concat parts' = concat parts ∧ grows (S k) parts parts' ∧
    writing n first parts' (S k) [] (with_segments d m)
      (WalWriter.with_position w' (WalWriter.current_segment_ w') 0).
Proof.
  intros Hw Hroom Hnr. pose proof (writing_ahead _ _ _ _ _ _ _ Hw) as Hahead.
  pose proof (lookup_lt_Some _ _ _ (writing_here _ _ _ _ _ _ _ Hw)) as Hk.
  assert (Hempty : (S k < length parts)%nat → parts !! S k = Some []).
  { intros Hlt. destruct (lookup_lt_is_Some_2 parts (S k) Hlt) as [es Hes]. rewrite Hes.
    f_equal. eapply writing_later; [done..|lia]. }
  destruct (decide (WalWriter.prep_state_ w = WalWriter.Ready)) as [Hr|Hr].
  - destruct (writing_ready _ _ _ _ _ _ _ Hw Hr) as [Hp Hlt].
    rewrite bool_decide_eq_true_2, Hp by done. cbn [WalWriter.seg_num]. rewrite Z.eqb_refl.
    cbn [andb]. eexists (segments d), parts, _. rewrite with_segments_same.
    split; [reflexivity|]. split_and!; [done|apply grows_refl|].
    apply rolled_writing; cbn; try done; try apply Hw; [by apply Hempty|lia].
  - rewrite bool_decide_eq_false_2 by done. cbn [andb].
    unfold WalWriter.release_prepared_if_ready. rewrite bind_assoc. run (writer_eq d w).
    rewrite bool_decide_eq_false_2 by done. cbn [negb]. run (mret_eq () (d, w)).
    destruct (open_segment_ok n first parts d w (S k))
      as (m & parts' & Hopen & Hh & Hparts); try apply Hw; [lia|done|].
    rewrite Hopen. eexists m, parts', _. split; [reflexivity|].
    split_and!; [rewrite Hparts; apply concat_ahead|rewrite Hparts; apply grows_ahead; lia|].
    apply rolled_writing; cbn; try done; try apply Hw; rewrite Hparts;
      (case_decide as Hd; [by apply Hempty || lia|]).
    + rewrite lookup_app_r by lia. by replace (S k - length parts)%nat with O by lia.
    + rewrite length_app. cbn. lia.
Qed.

Lemma ensure_capacity_ok n first parts k cur d w needed :
  writing n first parts k cur d w → first + Z.of_nat (S k) < 1000000 → needed ≤ n →
  ∃ m parts' k' cur' w',
    WalWriter.ensure_capacity needed (d, w) = ((with_segments d m, w'), Returns ()) ∧
    writing n first parts' k' cur' (with_segments d m) w' ∧
    concat parts' = concat parts ∧ size (written cur') + needed ≤ n ∧
    (k ≤ k' ≤ S k)%nat ∧ grows k parts parts'.
Proof.
  intros Hw Hroom Hneeded. destruct (writing_size _ _ _ _ _ _ _ Hw) as [Hn Hmin].
  unfold WalWriter.ensure_capacity. run (writer_eq d w).
  rewrite Hn, (writing_offset _ _ _ _ _ _ _ Hw).
  destruct (Z.ltb_spec n needed); [lia|].
  destruct (Z.leb_spec (size (written cur) + needed) n).
  { exists (segments d), parts, k, cur, w. rewrite with_segments_same.
    split_and!; [done..|lia|lia|lia|apply grows_refl]. }
  rewrite (writing_segment _ _ _ _ _ _ _ Hw).
  replace (first + Z.of_nat k + 1) with (first + Z.of_nat (S k)) by lia.
  destruct (await_ok _ _ _ _ _ _ _ Hw Hroom) 
    as (m1 & parts1 & w1 & H1 & Hw1 & Hc1 & Hg1 & Hnr1).
  run H1. set (d1 := with_segments d m1) in *. run (writer_eq d1 w1).
  destruct (next_segment_ok _ _ _ _ _ _ _ Hw1 Hroom Hnr1) 
    as (m2 & parts2 & w2 & H2 & Hc2 & Hg2 & Hw2).
  run H2. set (d2 := with_segments d1 m2) in *. run (modify_snd_eq
    (λ w, WalWriter.with_position w (WalWriter.current_segment_ w) 0) d2 w2).
  set (w3 := WalWriter.with_position w2 _ 0) in *. run (writer_eq d2 w3).
  rewrite (writing_segment _ _ _ _ _ _ _ Hw2).
  replace (first + Z.of_nat (S k) + 1) with (first + Z.of_nat (S (S k))) by lia.
  destruct (request_preparation_ok _ _ _ _ _ _ _ Hw2) as (w4 & -> & Hw4).
  exists m2, parts2, (S k), [], w4. split_and!; [done|done|congruence| |lia|lia|].
  - change (size (written [])) with 0. lia.
  - by eapply grows_trans, grows_less.
Qed.

(** ** Appending *)

Lemma splice_zeros pre z bytes :
  size bytes ≤ z →
  splice (pre ++ zeros z) (size pre) bytes = pre ++ bytes ++ zeros (z - size bytes).
Proof.
  intros Hz. unfold splice, size in *. rewrite Nat2Z.id, take_app_length.
  do 2 f_equal. rewrite drop_app_ge by lia. unfold zeros. rewrite drop_replicate.
  f_equal. lia.
Qed.

Lemma copy_ok d w seg pre z bytes :
  WalWriter.mmap_ptr_ w = Some seg → segments d !! seg = Some (pre ++ zeros z) →
  size bytes ≤ z →
  WalWriter.copy (size pre) bytes (d, w) =
    ((with_segments d (<[seg := (pre ++ bytes) ++ zeros (z - size bytes)]> (segments d)), w),
     Returns ()).
Proof.
  intros Hmap Hseg Hz. unfold WalWriter.copy. run (writer_eq d w). rewrite Hmap.
  unfold on_fst, copy_into. cbn [fst snd]. rewrite Hseg.
  pose proof (size_nonneg bytes). rewrite size_app, size_zeros by lia.
  destruct (Z.leb_spec (size pre + size bytes) (size pre + z)); [|lia].
  by rewrite set_segment_eq, splice_zeros, app_assoc.
Qed.

Lemma holds_append n first parts d k cur e :
  holds n first parts d → parts !! k = Some cur → good_entry e →
  size (written cur) + entry_size e ≤ n →
  holds n first (<[k := cur ++ [e]]> parts)
    (with_segments d (<[first + Z.of_nat k := laid n (cur ++ [e])]> (segments d))).
Proof.
  intros Hh Hk Hg Hfit. pose proof (lookup_lt_Some _ _ _ Hk) as Hlt. constructor.
  - right. destruct (holds_directory _ _ _ _ Hh) as [->|]; [done|done].
  - apply Hh.
  - intros seg. cbn [segments with_segments]. destruct (decide (seg = first + Z.of_nat k)) as [->|Hne].
    + by rewrite lookup_insert_eq, part_at_index, list_lookup_insert_eq by done.
    + rewrite lookup_insert_ne by done. rewrite (holds_segments _ _ _ _ Hh). f_equal.
      unfold part_at. destruct (Z.ltb_spec seg first); [done|].
      by rewrite list_lookup_insert_ne by lia.
  - apply Forall_insert; [apply Hh|]. apply Forall_app. split; [|by constructor].
    exact (Forall_lookup_1 _ _ _ _ (holds_good _ _ _ _ Hh) Hk).
  - apply Forall_insert; [apply Hh|]. by rewrite written_snoc, size_app, size_encode.
  - rewrite length_insert. apply Hh.
  - apply Hh.
Qed.

Lemma concat_empty (parts : list (list Entry)) :
  (∀ j es, parts !! j = Some es → es = []) → concat parts = [].
Proof.
  induction parts as [|es parts IH]; intros Hall; [done|].
  cbn. rewrite (Hall 0%nat es eq_refl), IH; [done|]. intros j es' Hj. apply (Hall (S j) es' Hj).
Qed.

Lemma concat_split n first parts k cur d w :
  writing n first parts k cur d w → concat parts = concat (take k parts) ++ cur.
Proof.
  intros Hw. rewrite <- (take_drop_middle _ _ _ (writing_here _ _ _ _ _ _ _ Hw)) at 1.
  rewrite concat_app. cbn. rewrite (concat_empty (drop (S k) parts)); [by rewrite app_nil_r|].
  intros j es Hj. rewrite lookup_drop in Hj. eapply writing_later; [done..|lia].
Qed.

Lemma writing_append n first parts k cur d w e :
  writing n first parts k cur d w → good_entry e →
  size (written cur) + entry_size e ≤ n →
  writing n first (<[k := cur ++ [e]]> parts) k (cur ++ [e])
    (with_segments d (<[first + Z.of_nat k := laid n (cur ++ [e])]> (segments d)))
    (WalWriter.with_position w (WalWriter.current_segment_ w)
       (WalWriter.write_offset_ w + entry_size e)).
Proof.
  intros Hw Hg Hfit. pose proof (writing_here _ _ _ _ _ _ _ Hw) as Hk.
  pose proof (lookup_lt_Some _ _ _ Hk) as Hlt.
  constructor; try (apply Hw); cbn.
  - apply holds_append; [apply Hw|done..].
  - by apply list_lookup_insert_eq.
  - intros j es Hj Hkj. rewrite list_lookup_insert_ne in Hj by lia.
    by eapply writing_later.
  - rewrite length_insert. apply Hw.
  - rewrite written_snoc, size_app, size_encode. f_equal. apply Hw.
  - rewrite length_insert. apply Hw.
Qed.

(** The three copies of an entry, and what is done then. *)
Lemma copy_entry_ok {A} n d w seg cur e (then_ : comp WalWriter.state A) :
  WalWriter.mmap_ptr_ w = Some seg → segments d !! seg = Some (laid n cur) →
  size (written cur) + entry_size e ≤ n →
  let dest := size (written cur) in
  let hdr := header_of e in
  (WalWriter.copy dest (header_bytes hdr) ;;
   WalWriter.copy (dest + entry_header_size) (payload e) ;;
   WalWriter.copy (dest + entry_header_size + size (payload e))
     (bytes_of 4 (Crc32.finalize (Crc32.feed (Crc32.feed Crc32.initial (header_bytes hdr))
                                    (payload e))).1) ;;
   then_) (d, w)
  = then_ (with_segments d (<[seg := laid n (cur ++ [e])]> (segments d)), w).
Proof.
  intros Hmap Hseg Hfit. cbn zeta. set (h := header_bytes (header_of e)).
  assert (Hh : size h = 24) by apply size_header.
  pose proof (size_nonneg (payload e)).
  unfold entry_size, entry_header_size, checksum_size in *.
  set (rest := n - size (written cur)).
  run (copy_ok d w seg (written cur) rest h Hmap Hseg ltac:(lia)).
  match goal with |- context [(?x, w)] => set (d2 := x) end.
  replace (size (written cur) + 24) with (size (written cur ++ h)) by (rewrite size_app; lia).
  run (copy_ok d2 w seg (written cur ++ h) (rest - size h) (payload e) Hmap
         (lookup_insert_eq _ _ _) ltac:(lia)).
  cbn [segments with_segments d2]. rewrite insert_insert_eq.
  match goal with |- context [(?x, w)] => set (d3 := x) end.
  replace (size (written cur ++ h) + size (payload e))
    with (size ((written cur ++ h) ++ payload e)) by (rewrite size_app; lia).
  rewrite Crc32.feed_app. fold (Crc32.compute (h ++ payload e)). fold (checksum_of e).
  run (copy_ok d3 w seg ((written cur ++ h) ++ payload e) (rest - size h - size (payload e))
         (bytes_of 4 (checksum_of e)) Hmap (lookup_insert_eq _ _ _)
         ltac:(rewrite size_bytes_of; lia)).
  cbn [segments with_segments d3]. rewrite insert_insert_eq.
  assert (Heq : (((written cur ++ h) ++ payload e) ++ bytes_of 4 (checksum_of e)) ++
    zeros (rest - size h - size (payload e) - size (bytes_of 4 (checksum_of e)))
    = laid n (cur ++ [e])).
  { unfold laid. rewrite written_snoc, size_app, size_encode. unfold encode. fold h.
    rewrite <- !app_assoc. do 5 f_equal. rewrite size_bytes_of by lia.
    unfold entry_size, entry_header_size, checksum_size, rest. lia. }
  by rewrite Heq.
Qed.

(** The entry is added to the log, wherever it goes. *)
Lemma append_ok n first parts k cur d w e :
  writing n first parts k cur d w → first + Z.of_nat (S k) < 1000000 →
  good_entry e → entry_size e ≤ n →
  ∃ m parts' k' cur' w',
    WalWriter.append (id e) (payload e) (d, w) = ((with_segments d m, w'), Returns ()) ∧
    writing n first parts' k' cur' (with_segments d m) w' ∧
    concat parts' = concat parts ++ [e] ∧ (k ≤ k' ≤ S k)%nat ∧ cur' ≠ [] ∧
    grows k parts parts'.
Proof.
  intros Hw Hroom Hg Hfit. unfold WalWriter.append. fold (entry_size e).
  destruct (ensure_capacity_ok _ _ _ _ _ _ _ (entry_size e) Hw Hroom Hfit)
    as (m & parts1 & k' & cur' & w1 & Hens & Hw1 & Hc1 & Hsize & Hk' & Hgr).
  run Hens. set (d1 := with_segments d m) in *. run (writer_eq d1 w1).
  rewrite (writing_offset _ _ _ _ _ _ _ Hw1).
  pose proof (writing_append _ _ _ _ _ _ _ e Hw1 Hg Hsize) as Happ.
  eexists (<[first + Z.of_nat k' := laid n (cur' ++ [e])]> (segments d1)),
    (<[k' := cur' ++ [e]]> parts1), k', (cur' ++ [e]), _.
  split_and!; [|exact Happ| |lia|lia|by destruct cur'|].
  - refine (copy_entry_ok n d1 w1 _ cur' e _ (writing_mapped _ _ _ _ _ _ _ Hw1) _ Hsize).
    rewrite (holds_segments _ _ _ _ (writing_holds _ _ _ _ _ _ _ Hw1)).
    by rewrite part_at_index, (writing_here _ _ _ _ _ _ _ Hw1).
  - pose proof (concat_split _ _ _ _ _ _ _ Happ) as ->.
    rewrite take_insert_ge by lia. rewrite app_assoc.
    by rewrite <- (concat_split _ _ _ _ _ _ _ Hw1), Hc1.
  - eapply grows_trans; [done|]. apply grows_insert; [lia|apply Hw1].
Qed.

(** ** Opening and closing the writer *)

Lemma holds_with_directory n first parts d :
  holds n first parts d → holds n first parts (with_directory d).
Proof. intros Hh. constructor; try apply Hh. by right. Qed.

(** The writer opened where the entries of segment [first + k] end, which is
    the last that holds any; where there is no segment yet, one is made. *)
Lemma open_writer_ok n first parts d w k cur :
  holds n first parts d → WalWriter.min_entry_bytes * 2 ≤ n →
  (parts !! k = Some cur ∨ (k = length parts ∧ cur = [])) →
  (∀ j es, parts !! j = Some es → (k < j)%nat → es = []) →
  (length parts ≤ k + 2)%nat → first + Z.of_nat k < 1000000 →
  WalWriter.prep_state_ w = WalWriter.Idle →
  ∃ m parts' w',
    WalWriter.open n (mk_position (first + Z.of_nat k) (size (written cur))) (d, w)
      = ((with_segments (with_directory d) m, w'), Returns ()) ∧
    writing n first parts' k cur (with_segments (with_directory d) m) w' ∧
    concat parts' = concat parts ∧ grows k parts parts'.
Proof.
  intros Hh Hmin Hhere Hlater Hfew Hroom Hidle. unfold WalWriter.open.
  destruct (Z.ltb_spec n (WalWriter.min_entry_bytes * 2)); [lia|].
  run (modify_snd_eq _ d w). run (call_fst_quiet d (WalWriter.with_size w n) (holds_quiet _ _ _ _ Hh)).
  run (modify_fst_eq with_directory d (WalWriter.with_size w n)).
  set (d1 := with_directory d). run (modify_snd_eq _ d1 (WalWriter.with_size w n)).
  cbn [segment offset]. set (w1 := WalWriter.with_position _ _ _).
  assert (Hk : (k ≤ length parts)%nat).
  { destruct Hhere as [Hhere|[-> _]]; [|lia]. apply lookup_lt_Some in Hhere. lia. }
  destruct (open_segment_ok n first parts d1 w1 k) as (m & parts' & Hopen & Hh' & Hparts);
    [by apply holds_with_directory|done..|].
  run Hopen. set (w2 := WalWriter.with_position (WalWriter.with_mapping _ _) _ _).
  set (d2 := with_segments d1 m) in *. run (writer_eq d2 w2).
  assert (Hw2 : ∀ w', WalWriter.segment_size_ w' = n → 
    WalWriter.current_segment_ w' = first + Z.of_nat k →
    WalWriter.write_offset_ w' = size (written cur) →
    WalWriter.mmap_ptr_ w' = Some (first + Z.of_nat k) →
    WalWriter.prep_state_ w' = WalWriter.Idle →
    writing n first parts' k cur d2 w').
  { intros w' Hs Hc Ho Hp Hi. constructor; try done; rewrite ?Hi; try done; rewrite Hparts.
    - destruct Hhere as [Hhere|[-> ->]].
      + case_decide; [done|]. by apply lookup_app_l_Some.
      + rewrite decide_False by lia. by apply list_lookup_middle.
    - case_decide; [done|]. intros j es Hj Hlt.
      apply lookup_app_Some in Hj as [Hj|[Hj Hj']]; [by eapply Hlater|].
      destruct (j - length parts)%nat; cbn in Hj'; [congruence|done].
    - case_decide; [done|]. rewrite length_app. cbn. lia. }
  assert (concat parts' = concat parts ∧ grows k parts parts') as [Hc Hg].
  { rewrite Hparts. split; [apply concat_ahead|by apply grows_ahead]. }
  change (WalWriter.preparation_enabled_ w2) with (WalWriter.preparation_enabled_ w).
  destruct (WalWriter.preparation_enabled_ w).
  - unfold WalWriter.start_helper. rewrite bind_assoc.
    run (refused_fst_quiet d2 w2 (holds_quiet _ _ _ _ Hh')). run (modify_snd_eq _ d2 w2).
    match goal with |- context [(d2, ?x)] => set (w3 := x) end.
    run (writer_eq d2 w3).
    change (WalWriter.current_segment_ w3) with (first + Z.of_nat k).
    replace (first + Z.of_nat k + 1) with (first + Z.of_nat (S k)) by lia.
    destruct (request_preparation_ok n first parts' k cur d2 w3) as (w4 & -> & Hw4);
      [by apply Hw2|]. by exists m, parts', w4.
  - exists m, parts', w2. split_and!; [done|by apply Hw2|done|done].
Qed.

(** Nothing is lost by closing the writer. *)
Lemma close_writer_ok d w :
  answers d = [] →
  ∃ w', WalWriter.close (d, w) = ((d, w'), Returns ()) ∧
    WalWriter.prep_state_ w' = WalWriter.Idle.
Proof.
  intros Hd. unfold WalWriter.close, WalWriter.stop_helper.
  rewrite bind_assoc. run (writer_eq d w).
  destruct (WalWriter.helper_running_ w); cbn [negb].
  - unfold WalWriter.set_prep_state, WalWriter.wake_helper. rewrite bind_assoc.
    run (modify_snd_eq _ d w). set (w1 := WalWriter.with_prep w _ _ _).
    rewrite bind_assoc, bind_assoc. run (refused_fst_quiet d w1 Hd). run (mret_eq () (d, w1)).
    rewrite bind_assoc. run (refused_fst_quiet d w1 Hd). rewrite andb_false_r.
    rewrite bind_assoc. run (mret_eq () (d, w1)). by eexists.
  - run (mret_eq () (d, w)). by eexists.
Qed.
