(* ===== verification/WalRefinement.v ===== *)
(** The write-ahead log keeps what is appended to it.

    The specification is a list: the contents of the records, numbered from 1
    without a break, as the components number them.  [step_log] says what each
    operation does to it.  The operations of [Wal], restarts included, refine
    it: in every state that can be reached while the operating system refuses
    nothing and the segments are numbered with six digits, each operation
    returns, and opening the log again reads back exactly the records. *)

From stdpp Require Import sorting.
From S2P Require Import Prelude.
From S2P Require Import WalEntry.
From S2P Require Import WalWriter.
From S2P Require Import WalReader.
From S2P Require Import Wal.
From S2P Require Import WalLayout.
From S2P Require Import WalLog.
#[local] Open Scope Z_scope.

(** ** The records and their entries *)

Definition entry_of (seq_no : Z) (c : WalEntryContents) : Entry :=
  mk_entry seq_no
    (write_wal_entry_header (wall_time_ns c) (leader_epoch c) (pdu_id c) ++ record_bytes c).

(** The entries of records numbered from [from] on. *)
Fixpoint entries_from (from : Z) (log : list WalEntryContents) : list Entry :=
  match log with
  | [] => []
  | c :: log => entry_of from c :: entries_from (from + 1) log
  end.

Definition entries (log : list WalEntryContents) : list Entry := entries_from 1 log.

Fixpoint numbered_from (from : Z) (log : list WalEntryContents) : list (Z * WalEntryContents) :=
  match log with
  | [] => []
  | c :: log => (from, c) :: numbered_from (from + 1) log
  end.

(** A record of these contents fits in a segment of [n] bytes. *)
Definition fits (n : Z) (c : WalEntryContents) : Prop :=
  int_fits 8 (wall_time_ns c) ∧ int_fits 4 (leader_epoch c) ∧ int_fits 2 (pdu_id c) ∧
  size (record_bytes c) + 14 < 2 ^ 32 ∧ size (record_bytes c) + 42 ≤ n.

Lemma size_entry_header w e p : size (write_wal_entry_header w e p) = 14.
Proof. unfold write_wal_entry_header. by rewrite !size_app, !size_bytes_of. Qed.

Lemma size_entry_of n c : entry_size (entry_of n c) = size (record_bytes c) + 42.
Proof.
  unfold entry_size, entry_of, entry_header_size, checksum_size. cbn [payload].
  rewrite size_app, size_entry_header. lia.
Qed.

Lemma entry_of_good n seq_no c : fits n c → int_fits 8 seq_no → good_entry (entry_of seq_no c).
Proof.
  intros (_ & _ & _ & Hs & _) Hseq. split; [done|]. cbn [payload entry_of].
  rewrite size_app, size_entry_header. lia.
Qed.

Lemma entries_from_app from l l' :
  entries_from from (l ++ l') = entries_from from l ++ entries_from (from + Z.of_nat (length l)) l'.
Proof.
  revert from. induction l as [|c l IH]; intros from; cbn [app entries_from length].
  - by rewrite Z.add_0_r.
  - rewrite IH. do 3 f_equal. lia.
Qed.

Lemma length_entries_from from l : length (entries_from from l) = length l.
Proof. revert from. induction l as [|c l IH]; intros from; cbn; [done|by rewrite IH]. Qed.

Lemma drop_entries_from k from l :
  drop k (entries_from from l) = entries_from (from + Z.of_nat k) (drop k l).
Proof.
  revert k from. induction l as [|c l IH]; intros [|k] from; cbn [entries_from drop]; try done.
  - by rewrite Z.add_0_r.
  - rewrite IH. f_equal. lia.
Qed.

Lemma take_entries_from k from l : take k (entries_from from l) = entries_from from (take k l).
Proof.
  revert k from. induction l as [|c l IH]; intros [|k] from; cbn [entries_from take]; try done.
  by rewrite IH.
Qed.

Lemma lookup_entries_from from l i :
  entries_from from l !! i = entry_of (from + Z.of_nat i) <$> l !! i.
Proof.
  revert from i. induction l as [|c l IH]; intros from [|i]; cbn [entries_from]; try done.
  - cbn. by rewrite Z.add_0_r.
  - cbn. rewrite IH. do 2 f_equal. lia.
Qed.

(** ** Reading records back *)

(** The callback that keeps what it is given. *)
Definition collect : Wal.ReplayCallback (list (Z * WalEntryContents)) :=
  Some (λ seq_no c, modify (λ l, l ++ [(seq_no, c)])).

Lemma each_collects n log : ∀ from w l,
  Forall (fits n) log →
  each (Wal.fw_cb collect) (entries_from from log) (w, l) =
    ((Wal.with_counts w (Wal.record_count_ w + Z.of_nat (length log))
        (match log with [] => Wal.last_seq_no_ w | _ => from + Z.of_nat (length log) - 1 end),
      l ++ numbered_from from log), Returns ()).
Proof.
  induction log as [|c log IH]; intros from w l Hfit.
  - cbn. rewrite Z.add_0_r, app_nil_r. by destruct w.
  - apply Forall_cons_1 in Hfit as [(Hw & He & Hp & _) Hfit].
    cbn [entries_from each].
    assert (Hread : read_wal_entry_contents (payload (entry_of from c)) = Some c).
    { cbn [payload entry_of]. rewrite contents_read_back by done. by destruct c. }
    assert (Hcb : Wal.fw_cb collect (id (entry_of from c)) (payload (entry_of from c)) (w, l) =
      ((Wal.with_counts w (Wal.record_count_ w + 1) from, l ++ [(from, c)]), Returns ())).
    { unfold Wal.fw_cb, collect. by rewrite Hread. }
    run Hcb. set (w1 := Wal.with_counts w _ _). rewrite IH by done.
    cbn [numbered_from length]. rewrite <- app_assoc. cbn [app].
    unfold w1, Wal.with_counts. cbn [Wal.record_count_ Wal.last_seq_no_ Wal.segment_size_ Wal.writer_].
    assert (Ha : Wal.record_count_ w + 1 + Z.of_nat (length log)
                 = Wal.record_count_ w + Z.of_nat (S (length log))) by lia.
    assert (Hb : match log with [] => from | _ => from + 1 + Z.of_nat (length log) - 1 end
                 = from + Z.of_nat (S (length log)) - 1) by (destruct log; cbn [length]; lia).
    by rewrite Ha, Hb.
Qed.

(** ** The end of the log *)

Lemma end_after_empty p seg parts :
  (∀ j es, parts !! j = Some es → es = []) → end_after p seg parts = p.
Proof.
  revert p seg. induction parts as [|es parts IH]; intros p seg Hall; [done|].
  cbn [end_after]. rewrite (Hall 0%nat es eq_refl). cbn.
  apply IH. intros j fs Hj. apply (Hall (S j) fs Hj).
Qed.

Lemma end_after_at p seg parts j cur :
  parts !! j = Some cur → cur ≠ [] →
  (∀ i es, parts !! i = Some es → (j < i)%nat → es = []) →
  end_after p seg parts = mk_position (seg + Z.of_nat j) (size (written cur)).
Proof.
  revert p seg j. induction parts as [|es parts IH]; intros p seg j Hj Hne Hlater; [done|].
  cbn [end_after]. destruct j as [|j].
  - injection Hj as ->. rewrite end_after_empty.
    + destruct (Z.ltb_spec 0 (size (written cur))); [by rewrite Z.add_0_r|].
      pose proof (size_nonneg (written cur)). destruct Hne. apply written_nil. lia.
    + intros i fs Hi. apply (Hlater (S i) fs Hi). lia.
  - rewrite (IH _ _ j); [f_equal; lia|done|done|].
    intros i fs Hi Hlt. apply (Hlater (S i) fs Hi). lia.
Qed.

(** ** The invariant of a log in use *)

(** A snapshot, where there is one, names a position at which an entry starts
    or the log ends, and counts the records before it. *)
Definition snapshot_says (parts : list (list Entry)) (k : nat) (file : option (list Z)) : Prop :=
  match file with
  | None => True
  | Some bytes =>
      ∃ j before es, (j ≤ k)%nat ∧ parts !! j = Some (before ++ es) ∧
        let c := Z.of_nat (length (concat (take j parts) ++ before)) in
        bytes = Wal.snapshot_bytes (Wal.mk_snapshot c c
                  (mk_position (Z.of_nat j) (size (written before))))
  end.

#[global] Instance WalOpenMode_eq_dec : EqDecision Wal.WalOpenMode.
Proof. solve_decision. Defined.

Record log_state (n : Z) (parts : list (list Entry)) (k : nat) (cur : list Entry)
    (d : Disk) (w : Wal.t) (log : list WalEntryContents) : Prop := mk_log_state {
  log_writing : writing n 0 parts k cur d (Wal.writer_ w);
  log_entries : concat parts = entries log;
  log_end : cur ≠ [] ∨ k = 0%nat;
  log_fits : Forall (fits n) log;
  log_size : Wal.segment_size_ w = n ∧ n < 2 ^ 64;
  log_counts : Wal.record_count_ w = Z.of_nat (length log) ∧
               Wal.last_seq_no_ w = Z.of_nat (length log);
  log_numbers : Z.of_nat (length log) < 2 ^ 63;
  log_snapshot : snapshot_says parts k (snapshot_file d)
}.

Lemma snapshot_grows parts parts' k k' file :
  snapshot_says parts k file → grows k parts parts' → (k ≤ k')%nat →
  snapshot_says parts' k' file.
Proof.
  intros Hs [Ht Hg] Hk. destruct file as [bytes|]; [|done].
  destruct Hs as (j & before & es & Hj & Hhere & Hbytes). cbn zeta in *.
  destruct (Hg j _ Hhere) as [added Hj']. exists j, before, (es ++ added).
  split_and!; [lia|by rewrite app_assoc|]. cbn zeta. rewrite Hbytes.
  assert (take j parts' = take j parts) as ->; [|done].
  apply (f_equal (take j)) in Ht. by rewrite !take_take, !Nat.min_l in Ht by lia.
Qed.

Lemma wal_eq d w : Wal.wal (d, w) = ((d, w), Returns w).
Proof. done. Qed.

Lemma on_writer_eq {A} (m : comp WalWriter.state A) d w d' wr r :
  m (d, Wal.writer_ w) = ((d', wr), r) →
  Wal.on_writer m (d, w) =
    ((d', Wal.mk (Wal.segment_size_ w) wr (Wal.record_count_ w) (Wal.last_seq_no_ w)), r).
Proof. intros Hm. unfold Wal.on_writer. cbn [fst snd]. by rewrite Hm. Qed.

Lemma entries_snoc log c :
  entries (log ++ [c]) = entries log ++ [entry_of (Z.of_nat (length log) + 1) c].
Proof. unfold entries. rewrite entries_from_app. cbn. do 3 f_equal. lia. Qed.

Lemma append_refines n parts k cur d w log c :
  log_state n parts k cur d w log → Z.of_nat (S k) < 1000000 →
  fits n c → Z.of_nat (length log) + 1 < 2 ^ 63 →
  ∃ d' w' parts' k' cur',
    Wal.append (Z.of_nat (length log) + 1) (pdu_id c) (record_bytes c) (wall_time_ns c)
      (leader_epoch c) (d, w) = ((d', w'), Returns ()) ∧
    log_state n parts' k' cur' d' w' (log ++ [c]).
Proof.
  intros Hl Hroom Hfit Hlen. set (e := entry_of (Z.of_nat (length log) + 1) c).
  assert (Hg : good_entry e).
  { apply (entry_of_good n); [done|]. unfold int_fits. lia. }
  destruct (append_ok n 0 parts k cur d (Wal.writer_ w) e)
    as (m & parts' & k' & cur' & wr & Happ & Hw & Hc & Hk & Hne & Hgr);
    [apply Hl|lia|done| |].
  { unfold e. rewrite size_entry_of. destruct Hfit as (_ & _ & _ & _ & ?). lia. }
  destruct (log_counts _ _ _ _ _ _ _ Hl) as [Hcount Hlast].
  unfold Wal.append. run (on_writer_eq _ _ w _ _ _ Happ). rewrite modify_snd_eq.
  eexists _, _, parts', k', cur'. split; [reflexivity|].
  constructor; cbn [Wal.writer_ Wal.segment_size_ Wal.record_count_ Wal.last_seq_no_ Wal.with_counts].
  - done.
  - by rewrite Hc, (log_entries _ _ _ _ _ _ _ Hl), entries_snoc.
  - by left.
  - apply Forall_app. split; [apply Hl|by constructor].
  - apply (log_size _ _ _ _ _ _ _ Hl).
  - rewrite length_app. cbn [length]. lia.
  - rewrite length_app. cbn [length]. lia.
  - eapply snapshot_grows; [apply Hl|done|lia].
Qed.

Lemma writing_with_snapshots n first parts k cur d wr a b :
  writing n first parts k cur d wr →
  writing n first parts k cur (with_snapshots d a b) wr.
Proof.
  intros Hw. constructor; try apply Hw. pose proof (writing_holds _ _ _ _ _ _ _ Hw) as Hh.
  constructor; apply Hh.
Qed.

Lemma log_quiet n parts k cur d w log :
  log_state n parts k cur d w log → answers d = [].
Proof. intros Hl. apply (holds_quiet n 0 parts d). apply Hl. Qed.

(** The snapshot is of the whole log. *)
Lemma snapshot_refines n parts k cur d w log :
  log_state n parts k cur d w log →
  ∃ d', Wal.take_snapshot (d, w) = ((d', w), Returns ()) ∧
    log_state n parts k cur d' w log.
Proof.
  intros Hl. pose proof (log_quiet _ _ _ _ _ _ _ Hl) as Hd.
  unfold Wal.take_snapshot. run (wal_eq d w).
  set (bytes := Wal.snapshot_bytes _). run (call_fst_quiet d w Hd).
  run (modify_fst_eq _ d w). set (d1 := with_snapshots d _ _).
  run (call_fst_quiet d1 w Hd). run (modify_fst_eq _ d1 w). set (d2 := with_snapshots d1 _ _).
  run (call_fst_quiet d2 w Hd). rewrite modify_fst_eq.
  eexists. split; [reflexivity|]. constructor; try apply Hl.
  - apply (writing_with_snapshots n 0 parts k cur d). apply Hl.
  - pose proof (log_writing _ _ _ _ _ _ _ Hl) as Hw.
    cbn [snapshot_file with_snapshots snapshot_says].
    exists k, cur, []. rewrite app_nil_r. split_and!; [done|apply Hw|]. cbn zeta.
    rewrite <- (concat_split _ _ _ _ _ _ _ Hw), (log_entries _ _ _ _ _ _ _ Hl).
    unfold entries. rewrite length_entries_from. unfold bytes.
    destruct (log_counts _ _ _ _ _ _ _ Hl) as [-> ->].
    unfold WalWriter.current_position.
    by rewrite (writing_segment _ _ _ _ _ _ _ Hw), (writing_offset _ _ _ _ _ _ _ Hw).
Qed.

(** ** Opening the log *)

Lemma slice_concat (fields : list (list Z)) rest i x off len :
  fields !! i = Some x → off = size (concat (take i fields)) → len = size x →
  slice (concat fields ++ rest) off len = x.
Proof.
  intros Hi Hoff Hlen. rewrite <- (take_drop_middle _ _ _ Hi).
  rewrite concat_app, <- app_assoc. cbn [concat]. rewrite <- app_assoc. by apply slice_at.
Qed.

(** The fields of a snapshot are read where they were written. *)
Lemma snapshot_fields h :
  let bytes := Wal.snapshot_bytes h in
  size bytes = 48 ∧ slice bytes 0 48 = bytes ∧
  slice bytes 0 40 = Wal.snapshot_body h ∧
  slice bytes 40 4 = bytes_of 4 (Crc32.compute (Wal.snapshot_body h)) ∧
  slice bytes 0 4 = bytes_of 4 Wal.snapshot_magic ∧
  slice bytes 4 4 = bytes_of 4 Wal.snapshot_version ∧
  slice bytes 8 8 = bytes_of 8 (Wal.snapshot_last_seq_no h) ∧
  slice bytes 16 8 = bytes_of 8 (Wal.snapshot_record_count h) ∧
  slice bytes 24 8 = bytes_of 8 (segment (Wal.snapshot_position h)) ∧
  slice bytes 32 8 = bytes_of 8 (offset (Wal.snapshot_position h)).
Proof.
  cbn zeta. set (crc := bytes_of 4 (Crc32.compute (Wal.snapshot_body h))).
  assert (Hbody : size (Wal.snapshot_body h) = 40).
  { unfold Wal.snapshot_body. by rewrite !size_app, !size_bytes_of. }
  assert (Hcrc : size crc = 4) by (by apply size_bytes_of).
  assert (Hall : size (Wal.snapshot_bytes h) = 48).
  { unfold Wal.snapshot_bytes. fold crc. rewrite !size_app, Hbody, Hcrc. by rewrite size_bytes_of. }
  split; [done|]. split.
  { unfold slice. rewrite Z2Nat.inj_0, drop_0. apply take_ge. unfold size in Hall. lia. }
  unfold Wal.snapshot_bytes. fold crc. split; [by rewrite slice_head|]. split; [by rewrite slice_at|].
  replace (Wal.snapshot_body h) with (concat [bytes_of 4 Wal.snapshot_magic;
    bytes_of 4 Wal.snapshot_version; bytes_of 8 (Wal.snapshot_last_seq_no h);
    bytes_of 8 (Wal.snapshot_record_count h); bytes_of 8 (segment (Wal.snapshot_position h));
    bytes_of 8 (offset (Wal.snapshot_position h))])
    by (cbn [concat]; by rewrite app_nil_r).
  split_and!; [apply (slice_concat _ _ 0)|apply (slice_concat _ _ 1)|apply (slice_concat _ _ 2)
    |apply (slice_concat _ _ 3)|apply (slice_concat _ _ 4)|apply (slice_concat _ _ 5)];
    try done; cbn [take concat]; by rewrite ?size_app, ?size_bytes_of.
Qed.

Lemma load_snapshot_ok d w c seg off :
  answers d = [] → 0 ≤ c < 2 ^ 63 → 0 ≤ seg < 2 ^ 64 → 0 ≤ off < 2 ^ 64 →
  snapshot_file d = Some (Wal.snapshot_bytes (Wal.mk_snapshot c c (mk_position seg off))) →
  Wal.load_snapshot (d, w) =
    ((d, Wal.with_counts w c c), Returns (Some (mk_position seg off))).
Proof.
  intros Hd Hc Hseg Hoff Hfile. unfold Wal.load_snapshot. run (disk_eq d w). rewrite Hfile.
  run (call_fst_quiet d w Hd). run (refused_fst_quiet d w Hd).
  set (h := Wal.mk_snapshot c c (mk_position seg off)).
  destruct (snapshot_fields h) as (Hs & Hw & Hb & Hcrc & Hm & Hv & Hl & Hn & Hp & Ho).
  unfold Wal.snapshot_checksum_offset.
  rewrite Hw, Hs, Hb, Hcrc, Hm, Hv, Hl, Hn, Hp, Ho.
  cbn [h Wal.snapshot_last_seq_no Wal.snapshot_record_count Wal.snapshot_position segment offset].
  pose proof (Crc32.compute_below (Wal.snapshot_body h)).
  rewrite (signed_of_bytes_of 8 c) by (lia || unfold int_fits; lia).
  rewrite (unsigned_of_bytes_of 4 (Crc32.compute _)) by lia.
  rewrite !(unsigned_of_bytes_of 8) by lia.
  rewrite !unsigned_of_bytes_of by (unfold Wal.snapshot_magic, Wal.snapshot_version; lia).
  rewrite !Z.eqb_refl. cbn [negb orb]. by run (modify_snd_eq _ d w).
Qed.

(** What a process that starts finds: a directory with the records of the log,
    the last of them in segment [k]. *)
Record disk_state (n : Z) (parts : list (list Entry)) (k : nat) (cur : list Entry)
    (d : Disk) (log : list WalEntryContents) : Prop := mk_disk_state {
  disk_holds : holds n 0 parts d;
  disk_sizes : WalWriter.min_entry_bytes * 2 ≤ n ∧ n < 2 ^ 64;
  disk_here : parts !! k = Some cur ∨ (k = length parts ∧ cur = []);
  disk_later : ∀ j es, parts !! j = Some es → (k < j)%nat → es = [];
  disk_ahead : (length parts ≤ k + 2)%nat ∧ Z.of_nat k < 1000000;
  disk_entries : concat parts = entries log;
  disk_end : cur ≠ [] ∨ k = 0%nat;
  disk_fits : Forall (fits n) log;
  disk_numbers : Z.of_nat (length log) < 2 ^ 63;
  disk_snapshot : snapshot_says parts k (snapshot_file d)
}.

Lemma log_state_disk n parts k cur d w log :
  log_state n parts k cur d w log → disk_state n parts k cur d log.
Proof.
  intros Hl. pose proof (log_writing _ _ _ _ _ _ _ Hl) as Hw.
  pose proof (lookup_lt_Some _ _ _ (writing_here _ _ _ _ _ _ _ Hw)).
  pose proof (holds_numbers _ _ _ _ (writing_holds _ _ _ _ _ _ _ Hw)).
  constructor; try apply Hw; try apply Hl.
  - split; [apply Hw|apply Hl].
  - left. apply Hw.
  - split; [apply Hw|lia].
Qed.

Lemma no_disk_state n :
  WalWriter.min_entry_bytes * 2 ≤ n < 2 ^ 64 → disk_state n [] 0 [] no_disk [].
Proof.
  intros Hn. unfold WalWriter.min_entry_bytes in Hn. constructor; try done.
  - constructor; [by left|done| |done|done|by cbn; lia|lia].
    intros seg. unfold part_at. rewrite lookup_nil. cbn [segments no_disk].
    rewrite lookup_empty. by destruct (seg <? 0).
  - by right.
  - cbn. lia.
  - by right.
Qed.

(** Where the readers say the log ends, the writer goes on. *)
Lemma end_from_start n parts k cur d log :
  disk_state n parts k cur d log →
  end_after (mk_position 0 0) 0 parts = mk_position (Z.of_nat k) (size (written cur)).
Proof.
  intros Hd. destruct (decide (cur = [])) as [->|Hne].
  - destruct (disk_end _ _ _ _ _ _ Hd) as [?| ->]; [done|]. apply end_after_empty.
    intros [|j] es Hj; [|eapply disk_later; [done..|lia]].
    destruct (disk_here _ _ _ _ _ _ Hd) as [H0|[H0 _]]; [congruence|].
    by destruct parts.
  - destruct (disk_here _ _ _ _ _ _ Hd) as [Hk|[_ ?]]; [|done].
    rewrite (end_after_at _ _ _ k cur); [done..|]. intros i es Hi Hlt.
    by eapply disk_later.
Qed.

Lemma end_from_middle n skipped before es rest k cur d log :
  disk_state n (skipped ++ (before ++ es) :: rest) k cur d log →
  (length skipped ≤ k)%nat →
  let seg := Z.of_nat (length skipped) in
  end_after (if size (written before) <? size (written (before ++ es))
             then mk_position seg (size (written (before ++ es)))
             else mk_position seg (size (written before))) (seg + 1) rest
    = mk_position (Z.of_nat k) (size (written cur)).
Proof.
  intros Hd Hk. cbn zeta.
  assert (Hat : ∀ j, (skipped ++ (before ++ es) :: rest) !! (S (length skipped) + j)%nat = rest !! j).
  { intros j. rewrite lookup_app_r by lia.
    by replace (S (length skipped) + j - length skipped)%nat with (S j) by lia. }
  destruct (decide (k = length skipped)) as [->|Hne].
  - rewrite end_after_empty.
    + destruct (disk_here _ _ _ _ _ _ Hd) as [Hcur|[Hcur _]];
        [|rewrite length_app in Hcur; cbn in Hcur; lia].
      rewrite list_lookup_middle in Hcur by done. injection Hcur as <-.
      case_if; [done|]. bool_to_prop. rewrite written_app, size_app in *.
      pose proof (size_nonneg (written es)). f_equal. lia.
    + intros j fs Hj. apply (disk_later _ _ _ _ _ _ Hd (S (length skipped) + j)%nat); [|lia].
      by rewrite Hat.
  - assert (Hcne : cur ≠ []) by (destruct (disk_end _ _ _ _ _ _ Hd); [done|lia]).
    destruct (disk_here _ _ _ _ _ _ Hd) as [Hcur|[_ ?]]; [|done].
    replace k with (S (length skipped) + (k - S (length skipped)))%nat in Hcur by lia.
    rewrite Hat in Hcur. rewrite (end_after_at _ _ _ (k - S (length skipped)) cur);
      [f_equal; lia|done|done|].
    intros i fs Hi Hlt. apply (disk_later _ _ _ _ _ _ Hd (S (length skipped) + i)%nat); [|lia].
    by rewrite Hat.
Qed.

Lemma on_wal_eq {S A} (m : comp Wal.state A) d w (s : S) d' w' r :
  m (d, w) = ((d', w'), r) → Wal.on_wal m (d, (w, s)) = ((d', (w', s)), r).
Proof. intros Hm. unfold Wal.on_wal. cbn [fst snd]. by rewrite Hm. Qed.

(** The writer opened where the log ends. *)
Lemma writer_resumes n parts k cur d w log :
  disk_state n parts k cur d log →
  WalWriter.prep_state_ (Wal.writer_ w) = WalWriter.Idle → Wal.segment_size_ w = n →
  Wal.record_count_ w = Z.of_nat (length log) → Wal.last_seq_no_ w = Z.of_nat (length log) →
  ∃ d' w' parts',
    Wal.on_writer (WalWriter.open n (mk_position (Z.of_nat k) (size (written cur)))) (d, w)
      = ((d', w'), Returns ()) ∧
    log_state n parts' k cur d' w' log ∧ Wal.last_seq_no_ w' = Z.of_nat (length log).
Proof.
  intros Hd Hidle Hsize Hcount Hlast.
  destruct (open_writer_ok n 0 parts d (Wal.writer_ w) k cur)
    as (m & parts' & wr & Hopen & Hw & Hc & Hg); try apply Hd; [done|].
  change (mk_position (0 + Z.of_nat k)) with (mk_position (Z.of_nat k)) in Hopen.
  eexists _, _, parts'. split; [apply (on_writer_eq _ _ _ _ _ _ Hopen)|].
  split; [|done]. constructor; cbn [Wal.writer_ Wal.segment_size_ Wal.record_count_ Wal.last_seq_no_].
  - done.
  - rewrite Hc. apply Hd.
  - apply Hd.
  - apply Hd.
  - split; [done|apply Hd].
  - done.
  - apply Hd.
  - eapply snapshot_grows; [apply Hd|done|lia].
Qed.

Lemma concat_drop_skipped parts j before es log :
  parts !! j = Some (before ++ es) → concat parts = entries log →
  let c := length (concat (take j parts) ++ before) in
  es ++ concat (drop (S j) parts) = entries_from (1 + Z.of_nat c) (drop c log) ∧
  (c ≤ length log)%nat.
Proof.
  intros Hj Hc. cbn zeta. set (c := length (concat (take j parts) ++ before)).
  assert (Heq : entries log = (concat (take j parts) ++ before) ++ es ++ concat (drop (S j) parts)).
  { rewrite <- Hc, <- (take_drop_middle _ _ _ Hj) at 1.
    rewrite concat_app. cbn [concat]. by rewrite <- !app_assoc. }
  split.
  - unfold entries in Heq. rewrite <- drop_entries_from, Heq. unfold c.
    by rewrite drop_app_length.
  - apply (f_equal length) in Heq. unfold entries in Heq.
    rewrite length_entries_from, length_app in Heq. unfold c. lia.
Qed.

(** Reading from the start. *)
Lemma reads_all n parts k cur d log w :
  disk_state n parts k cur d log → Wal.record_count_ w = 0 → Wal.last_seq_no_ w = 0 →
  WalReader.replay (mk_position 0 0) (Some (Wal.fw_cb collect)) (d, (w, []))
    = ((d, (Wal.with_counts w (Z.of_nat (length log)) (Z.of_nat (length log)),
            numbered_from 1 log)),
       Returns (mk_position (Z.of_nat k) (size (written cur)))).
Proof.
  intros Hd Hcount Hlast. rewrite <- (end_from_start _ _ _ _ _ _ Hd).
  apply (replay_from_start _ n); [apply Hd|]. rewrite (disk_entries _ _ _ _ _ _ Hd).
  unfold entries. rewrite (each_collects n) by apply Hd. cbn [app]. rewrite Hcount, Hlast.
  do 4 f_equal. destruct log; cbn [length]; lia.
Qed.

(** Reading on from a snapshot that covers [c] records. *)
Lemma reads_rest n parts k cur d log w j before es :
  disk_state n parts k cur d log → (j ≤ k)%nat → parts !! j = Some (before ++ es) →
  let c := length (concat (take j parts) ++ before) in
  Wal.record_count_ w = Z.of_nat c → Wal.last_seq_no_ w = Z.of_nat c →
  WalReader.replay (mk_position (Z.of_nat j) (size (written before)))
      (Some (Wal.fw_cb collect)) (d, (w, []))
    = ((d, (Wal.with_counts w (Z.of_nat (length log)) (Z.of_nat (length log)),
            numbered_from (1 + Z.of_nat c) (drop c log))),
       Returns (mk_position (Z.of_nat k) (size (written cur)))).
Proof.
  intros Hd Hjk Hj. cbn zeta. pose proof (lookup_lt_Some _ _ _ Hj) as Hlt.
  destruct (concat_drop_skipped _ _ _ _ _ Hj (disk_entries _ _ _ _ _ _ Hd)) as [Hrest Hc].
  cbn zeta in *. set (c := length (concat (take j parts) ++ before)) in *.
  intros Hcount Hlast.
  assert (Hlen : length (take j parts) = j) by (rewrite length_take; lia).
  assert (Hparts : parts = take j parts ++ (before ++ es) :: drop (S j) parts).
  { by rewrite (take_drop_middle _ _ _ Hj). }
  pose proof Hd as Hd2. rewrite Hparts in Hd2.
  pose proof (end_from_middle n _ before es _ k cur d log Hd2) as Hend.
  rewrite Hlen in Hend. rewrite <- Hend by done.
  pose proof (replay_from_middle (Wal.fw_cb collect) n 0 (take j parts) before es
    (drop (S j) parts) d (w, []) (Wal.with_counts w (Z.of_nat (length log))
      (Z.of_nat (length log)), numbered_from (1 + Z.of_nat c) (drop c log))
    (disk_holds _ _ _ _ _ _ Hd2)) as Hreplay.
  cbn zeta in Hreplay. rewrite Hlen in Hreplay. apply Hreplay. rewrite Hrest.
  rewrite (each_collects n) by (apply Forall_drop, Hd). cbn [app]. rewrite Hcount, Hlast.
  rewrite length_drop. do 4 f_equal; [lia|].
  destruct (drop c log) eqn:Hdrop; [|lia].
  apply (f_equal length) in Hdrop. rewrite length_drop in Hdrop. cbn in Hdrop. lia.
Qed.

(** The end of [open], once the log has been read. *)
Lemma open_resumes {S} n parts k cur d log w (l : S) :
  disk_state n parts k cur d log →
  Wal.writer_ w = WalWriter.initial → Wal.segment_size_ w = n →
  Wal.record_count_ w = Z.of_nat (length log) → Wal.last_seq_no_ w = Z.of_nat (length log) →
  ∃ d' w' parts',
    (Wal.on_wal (Wal.on_writer (WalWriter.open n
       (mk_position (Z.of_nat k) (size (written cur))))) ;;
     w ← Wal.on_wal Wal.wal; mret (Wal.last_seq_no_ w)) (d, (w, l))
      = ((d', (w', l)), Returns (Z.of_nat (length log))) ∧
    log_state n parts' k cur d' w' log.
Proof.
  intros Hd Hwr Hsz Hcount Hlast.
  destruct (writer_resumes n parts k cur d w log Hd)
    as (d' & w' & parts' & Hopen & Hl & Hl'); [by rewrite Hwr|done..|].
  run (on_wal_eq _ _ _ l _ _ _ Hopen). run (on_wal_eq _ _ _ l _ _ _ (wal_eq d' w')).
  exists d', w', parts'. by rewrite Hl'.
Qed.

(** What is read where there is a snapshot and it is used. *)
Lemma snapshot_loads n parts k cur d log bytes w :
  disk_state n parts k cur d log → snapshot_file d = Some bytes →
  ∃ j before es,
    let c := length (concat (take j parts) ++ before) in
    (j ≤ k)%nat ∧ parts !! j = Some (before ++ es) ∧
    Wal.load_snapshot (d, w) = ((d, Wal.with_counts w (Z.of_nat c) (Z.of_nat c)),
      Returns (Some (mk_position (Z.of_nat j) (size (written before))))).
Proof.
  intros Hd Hfile. pose proof (holds_quiet _ _ _ _ (disk_holds _ _ _ _ _ _ Hd)) as Hq.
  pose proof (disk_snapshot _ _ _ _ _ _ Hd) as Hsays. rewrite Hfile in Hsays.
  destruct Hsays as (j & before & es & Hjk & Hj & Hbytes). cbn zeta in Hbytes.
  exists j, before, es. cbn zeta. split_and!; [done..|].
  destruct (concat_drop_skipped _ _ _ _ _ Hj (disk_entries _ _ _ _ _ _ Hd)) as [_ Hc].
  pose proof (disk_numbers _ _ _ _ _ _ Hd). pose proof (disk_ahead _ _ _ _ _ _ Hd).
  pose proof (Forall_lookup_1 _ _ _ _ (holds_fit _ _ _ _ (disk_holds _ _ _ _ _ _ Hd)) Hj) as Hsize.
  cbn beta in Hsize. rewrite written_app, size_app in Hsize.
  pose proof (size_nonneg (written es)). pose proof (size_nonneg (written before)).
  pose proof (disk_sizes _ _ _ _ _ _ Hd).
  apply load_snapshot_ok; [done|lia..|]. by rewrite Hfile, Hbytes.
Qed.

(** Opening the log: the writer stands at its end, the object knows how many
    records it holds, and the callback has been given those the snapshot does
    not cover, all of them where there is none or it is ignored. *)
Lemma open_refines n parts k cur d log mode :
  disk_state n parts k cur d log →
  ∃ d' w' parts' c,
    Wal.open n collect mode (d, (Wal.initial, []))
      = ((d', (w', numbered_from (1 + Z.of_nat c) (drop c log))),
         Returns (Z.of_nat (length log))) ∧
    log_state n parts' k cur d' w' log ∧
    (mode = Wal.IgnoreSnapshot ∨ snapshot_file d = None → c = 0%nat).
Proof.
  intros Hd. unfold Wal.open.
  run (on_wal_eq _ _ _ [] _ _ _ (modify_snd_eq _ d Wal.initial)). set (w0 := Wal.mk n _ _ _).
  destruct (decide (mode = Wal.IgnoreSnapshot ∨ snapshot_file d = None)) as [Hall|Hsome].
  - assert (Hanchor : (match mode with
                       | Wal.UseSnapshot => Wal.on_wal Wal.load_snapshot
                       | Wal.IgnoreSnapshot => mret None
                       end : comp (Disk * (Wal.t * list (Z * WalEntryContents))) _) (d, (w0, []))
        = ((d, (w0, [])), Returns None)).
    { destruct mode; [|done]. destruct Hall as [|Hnone]; [done|]. apply on_wal_eq.
      unfold Wal.load_snapshot. run (disk_eq d w0). by rewrite Hnone. }
    run Hanchor. cbn [default from_option].
    run (reads_all n parts k cur d log w0 Hd eq_refl eq_refl).
    match goal with |- context [(d, (?w, ?l))] =>
      destruct (open_resumes n parts k cur d log w l Hd) as (d' & w' & parts' & Hopen & Hl) end;
      [done..|].
    exists d', w', parts', 0%nat. by rewrite Hopen.
  - destruct mode; [|naive_solver]. destruct (snapshot_file d) as [bytes|] eqn:Hfile; [|naive_solver].
    destruct (snapshot_loads n parts k cur d log bytes w0 Hd Hfile)
      as (j & before & es & Hjk & Hj & Hload). cbn zeta in *.
    run (on_wal_eq _ _ _ [] _ _ _ Hload). cbn [default from_option Datatypes.id].
    set (c := length (concat (take j parts) ++ before)) in *.
    run (reads_rest n parts k cur d log (Wal.with_counts w0 (Z.of_nat c) (Z.of_nat c))
      j before es Hd Hjk Hj eq_refl eq_refl). fold c.
    match goal with |- context [(d, (?w, ?l))] =>
      destruct (open_resumes n parts k cur d log w l Hd) as (d' & w' & parts' & Hopen & Hl) end;
      [done..|].
    exists d', w', parts', c. split_and!; [exact Hopen|done|done].
Qed.
