(* ===== verification/WalTruncate.v ===== *)
(** Discarding the end of a write-ahead log: [Wal::truncate_after], with the
    search for the segment that holds a record and the cursor that finds where
    it ends. *)

From stdpp Require Import sorting.
From S2P Require Import Prelude.
From S2P Require Import WalEntry.
From S2P Require Import WalWriter.
From S2P Require Import WalReader.
From S2P Require Import Wal.
From S2P Require Import WalLayout.
From S2P Require Import WalLog.
From S2P Require Import WalRefinement.
#[local] Open Scope Z_scope.

(** The records before the entries of segment [j]. *)
Definition records_before (parts : list (list Entry)) (j : nat) : nat :=
  length (concat (take j parts)).

Lemma entry_number parts log j before e es :
  concat parts = entries log → parts !! j = Some (before ++ e :: es) →
  id e = Z.of_nat (records_before parts j + length before) + 1.
Proof.
  intros Hc Hj. unfold records_before.
  assert (Hat : entries log !! (length (concat (take j parts)) + length before)%nat = Some e).
  { assert (Hp : concat parts = concat (take j parts) ++ concat ((before ++ e :: es) :: drop (S j) parts)).
    { by rewrite <- concat_app, (take_drop_middle _ _ _ Hj). }
    rewrite <- Hc, Hp. cbn [concat]. rewrite lookup_app_r by lia. rewrite <- app_assoc. rewrite lookup_app_r by lia.
    by replace (_ + _ - _ - _)%nat with 0%nat by lia. }
  unfold entries in Hat. rewrite lookup_entries_from in Hat.
  apply fmap_Some in Hat as (c & _ & ->). cbn. lia.
Qed.

Lemma part_at_first parts j : part_at 0 parts (Z.of_nat j) = parts !! j.
Proof. exact (part_at_index 0 parts j). Qed.

(** ** Finding the segment *)

Section finding.
Context (n : Z) (parts : list (list Entry)) (d : Disk) (log : list WalEntryContents).
Context (Hh : holds n 0 parts d) (Hentries : concat parts = entries log).
Context (Hn : WalWriter.min_entry_bytes * 2 ≤ n).

Lemma comes_before_sound seq_no j es :
  parts !! j = Some es →
  ∃ b, Wal.comes_before seq_no (Z.of_nat j) d = (d, Returns b) ∧
    (b = true → Z.of_nat (records_before parts j) < seq_no).
Proof using Hh Hentries Hn.
  intros Hj. pose proof (holds_quiet _ _ _ _ Hh) as Hd.
  unfold WalWriter.min_entry_bytes in Hn.
  unfold Wal.comes_before, Wal.head_of. rewrite bind_assoc. run (gets_eq _ d).
  replace (segments d !! Z.of_nat j) with (Some (laid n es)).
  2: { rewrite (holds_segments _ _ _ _ Hh). rewrite part_at_first, Hj. done. }
  rewrite bind_assoc. run (refused_quiet d Hd). rewrite bind_assoc. run (refused_quiet d Hd).
  eexists. split; [reflexivity|]. intros Hb. apply andb_true_iff in Hb as [[Hsize Hm]%andb_true_iff Hid].
  destruct es as [|e es].
  { exfalso. rewrite laid_nil in Hm. unfold slice, zeros in Hm.
    rewrite drop_replicate, take_replicate in Hm.
    unfold read_header, slice in Hm. cbn [magic] in Hm.
    rewrite drop_replicate, take_replicate, unsigned_zeros in Hm. done. }
  pose proof (Forall_lookup_1 _ _ _ _ (holds_good _ _ _ _ Hh) Hj) as Hg.
  apply Forall_cons_1 in Hg as [[Hidfit Hgsize] _].
  assert (Hslice : slice (laid n (e :: es)) 0 24 = header_bytes (header_of e)).
  { unfold laid. rewrite written_cons. unfold encode. rewrite <- !app_assoc.
    apply slice_head. by rewrite size_header. }
  rewrite Hslice in Hid.
  assert (Hread : read_header (header_bytes (header_of e)) 0 = header_of e).
  { pose proof (read_header_at [] (header_of e) []) as Hr. rewrite app_nil_r in Hr.
    apply Hr; cbn; [unfold entry_magic; lia|apply Z.mod_pos_bound; lia|done|lia]. }
  rewrite Hread in Hid. cbn [record_id header_of] in Hid.
  rewrite (entry_number parts log j [] e es Hentries Hj) in Hid. cbn [length] in Hid. bool_to_prop. lia.
Qed.

Lemma search_sound seq_no turns : ∀ low high,
  0 ≤ low ≤ high → high < Z.of_nat (length parts) → (Z.to_nat (high - low) ≤ turns)%nat →
  Z.of_nat (records_before parts (Z.to_nat low)) < seq_no →
  ∃ found, Wal.search turns seq_no low high d = (d, Returns found) ∧
    low ≤ found ≤ high ∧ Z.of_nat (records_before parts (Z.to_nat found)) < seq_no.
Proof using Hh Hentries Hn.
  induction turns as [|turns IH]; intros low high Hlow Hhigh Hturns Hbefore; cbn [Wal.search];
    destruct (Z.ltb_spec low high); cbn [negb]; try (exists low; split_and!; [done|lia..|done]).
  { lia. }
  set (middle := low + (high - low + 1) / 2).
  assert (Hm : low < middle ≤ high).
  { unfold middle. pose proof (Z.div_le_mono 2 (high - low + 1) 2 ltac:(lia) ltac:(lia)).
    assert ((high - low + 1) / 2 ≤ high - low) by (apply Z.div_le_upper_bound; lia).
    change (2 / 2) with 1 in *. lia. }
  destruct (lookup_lt_is_Some_2 parts (Z.to_nat middle)) as [es Hes]; [lia|].
  destruct (comes_before_sound seq_no _ _ Hes) as (b & Hb & Hsound).
  rewrite Z2Nat.id in Hb by lia. run Hb. destruct b.
  - destruct (IH middle high) as (found & -> & Hf & Hr); [lia..|by apply Hsound|].
    exists found. split_and!; [done|lia|lia|done].
  - destruct (IH low (middle - 1)) as (found & -> & Hf & Hr); [lia..|done|].
    exists found. split_and!; [done|lia|lia|done].
Qed.

(** The reading that looks for a record starts in a segment whose first record
    is not after it. *)
Lemma scan_start_sound w seq_no k :
  WalWriter.current_segment_ (Wal.writer_ w) = Z.of_nat k → (k < length parts)%nat → 0 < seq_no →
  ∃ j es, Wal.scan_start_for seq_no (d, w)
            = ((d, w), Returns (mk_position (Z.of_nat j) 0)) ∧
    parts !! j = Some es ∧ Z.of_nat (records_before parts j) < seq_no.
Proof using Hh Hentries Hn.
  intros Hcur Hk Hseq. unfold Wal.scan_start_for. run (wal_eq d w).
  unfold WalWriter.current_position. cbn [segment]. rewrite Hcur.
  destruct (lookup_lt_is_Some_2 parts 0) as [es0 Hes0]; [lia|].
  destruct (comes_before_sound seq_no 0 _ Hes0) as (b & Hb & _).
  run (on_fst_eq _ _ _ w _ Hb). destruct b; cbn [negb].
  2: { exists 0%nat, es0. split_and!; [done..|].
    change (records_before parts 0) with 0%nat. lia. }
  destruct (search_sound seq_no (Z.to_nat (Z.of_nat k)) 0 (Z.of_nat k)) as (found & Hs & Hf & Hr);
    [lia..|change (records_before parts (Z.to_nat 0)) with 0%nat; lia|].
  run (on_fst_eq _ _ _ w _ Hs). run (disk_eq d w).
  destruct (lookup_lt_is_Some_2 parts (Z.to_nat found)) as [es Hes]; [lia|].
  exists (Z.to_nat found), es. split_and!; [|done..].
  assert (Hthere : segments d !! found = Some (laid n es)).
  { rewrite (holds_segments _ _ _ _ Hh). replace found with (Z.of_nat (Z.to_nat found)) at 1 by lia.
    by rewrite part_at_first, Hes. }
  unfold WalCursor.segment_exists. rewrite Hthere, Z2Nat.id by lia. done.
Qed.

End finding.

(** ** Reading to the record *)

Lemma on_cursor_eq {A} (m : comp WalCursor.state A) d w c c' a :
  m (d, c) = ((d, c'), Returns a) → Wal.on_cursor c m (d, w) = ((d, w), Returns (a, c')).
Proof. intros Hm. unfold Wal.on_cursor. cbn [fst snd]. by rewrite Hm. Qed.

Section reading.
Context (n : Z) (parts : list (list Entry)) (d : Disk) (log : list WalEntryContents).
Context (Hh : holds n 0 parts d) (Hentries : concat parts = entries log).

(** The cursor stands after record number [length (concat (take j parts) ++
    before)]. *)
Lemma remaining_length j before es :
  parts !! j = Some (before ++ es) →
  (length (remaining parts j es) + (records_before parts j + length before))%nat = length log.
Proof using Hentries.
  intros Hj. destruct (concat_drop_skipped _ _ _ _ _ Hj Hentries) as [Hr Hc].
  cbn zeta in *. unfold remaining, records_before. rewrite Hr, length_entries_from, length_drop.
  rewrite length_app in *. lia.
Qed.

Lemma read_until_ok w seq_no turns : ∀ j before es c,
  cursor_at n 0 j before c → parts !! j = Some (before ++ es) →
  Z.of_nat (records_before parts j + length before) < seq_no ≤ Z.of_nat (length log) →
  (Z.to_nat seq_no - (records_before parts j + length before) ≤ turns)%nat →
  ∃ c' j' before' es',
    Wal.read_until turns c seq_no (d, w) = ((d, w), Returns (Some c')) ∧
    cursor_at n 0 j' before' c' ∧ parts !! j' = Some (before' ++ es') ∧ before' ≠ [] ∧
    WalCursor.position_ c' = mk_position (Z.of_nat j') (size (written before')) ∧
    Z.of_nat (records_before parts j' + length before') = seq_no.
Proof using Hh Hentries.
  induction turns as [|turns IH]; intros j before es c Hc Hj Hseq Hturns; [lia|].
  cbn [Wal.read_until].
  pose proof (remaining_length j before es Hj) as Hlen.
  pose proof (read_next_ok n 0 parts d Hh j before es c Hc Hj) as Hnext.
  destruct (remaining parts j es) as [|e more] eqn:Hrem; [cbn in Hlen; lia|].
  destruct Hnext as (c' & j' & before' & es' & Hread & Hc' & Hj' & Hpos & _ & Hsame).
  run (on_cursor_eq _ d w _ _ _ Hread). cbn [fst snd].
  assert (Hnum : (records_before parts j' + length before')%nat
                 = (records_before parts j + length before)%nat).
  { apply (f_equal length) in Hsame. by rewrite !length_app in Hsame. }
  assert (Hid : id e = Z.of_nat (records_before parts j + length before) + 1).
  { rewrite <- Hnum. apply (entry_number parts log _ _ _ es'); [done|]. by rewrite <- app_assoc in Hj'. }
  assert (Hsnoc : length (before' ++ [e]) = S (length before')) by (rewrite length_app; cbn; lia).
  destruct (Z.eqb_spec (id e) seq_no) as [Heq|Hne].
  - exists c', j', (before' ++ [e]), es'. rewrite Hsnoc.
    split_and!; [done..|by destruct before'|done|lia].
  - apply (IH j' (before' ++ [e]) es' c'); [done|done|rewrite Hsnoc; lia..].
Qed.

Lemma count_rest_ok w turns : ∀ j before es c discarded,
  cursor_at n 0 j before c → parts !! j = Some (before ++ es) →
  (length (remaining parts j es) < turns)%nat →
  Wal.count_rest turns c discarded (d, w)
    = ((d, w), Returns (discarded + Z.of_nat (length (remaining parts j es)))).
Proof using Hh.
  induction turns as [|turns IH]; intros j before es c discarded Hc Hj Hturns; [lia|].
  cbn [Wal.count_rest].
  pose proof (read_next_ok n 0 parts d Hh j before es c Hc Hj) as Hnext.
  destruct (remaining parts j es) as [|e more] eqn:Hrem.
  - destruct Hnext as (c' & Hread). run (on_cursor_eq _ d w _ _ _ Hread). cbn. by rewrite Z.add_0_r.
  - destruct Hnext as (c' & j' & before' & es' & Hread & Hc' & Hj' & _ & Hmore & _).
    run (on_cursor_eq _ d w _ _ _ Hread). cbn [fst snd length] in *.
    rewrite (IH j' (before' ++ [e]) es' c' _ Hc' Hj') by (rewrite <- Hmore; lia).
    rewrite <- Hmore. do 2 f_equal. lia.
Qed.

(** There are no more records than bytes. *)
Lemma enough_turns_ok : (length log < Wal.enough_turns d)%nat.
Proof using Hh Hentries.
  unfold Wal.enough_turns.
  assert (Hsum : ∀ l, Forall (λ p : Z * list Z, length p.2 = Z.to_nat n) l →
    sum_list ((λ p, length p.2) <$> l) = (length l * Z.to_nat n)%nat).
  { induction 1 as [|p l Hp _ IH]; [done|]. cbn. cbn in IH. rewrite IH, Hp. lia. }
  rewrite Hsum.
  - pose proof (Permutation_length (holds_keys _ _ _ _ Hh)) as Hlen.
    rewrite length_fmap, length_seqZ, Nat2Z.id in Hlen. rewrite Hlen.
    rewrite <- (length_entries_from 1 log). fold (entries log). rewrite <- Hentries.
    assert (∀ l, Forall (λ es, size (written es) ≤ n) l →
      (length (concat l) ≤ length l * Z.to_nat n)%nat) as Hc.
    { induction 1 as [|es l Hes _ IH]; cbn; [lia|]. rewrite length_app.
      pose proof (written_length es). unfold size in Hes. lia. }
    pose proof (Hc parts (holds_fit _ _ _ _ Hh)). lia.
  - apply Forall_forall. intros [seg bytes] Hin%elem_of_map_to_list. cbn.
    rewrite (holds_segments _ _ _ _ Hh) in Hin. apply fmap_Some in Hin as (es & Hes & ->).
    apply part_at_Some in Hes as [_ Hes].
    pose proof (size_laid n es (Forall_lookup_1 _ _ _ _ (holds_fit _ _ _ _ Hh) Hes)) as Hs.
    unfold size in Hs. lia.
Qed.

End reading.

(** Where the records to keep end, and how many follow. *)
Lemma end_of_kept_ok n parts k cur d w log seq_no :
  log_state n parts k cur d w log → 0 ≤ seq_no ≤ Z.of_nat (length log) →
  ∃ j before es,
    Wal.end_of_kept seq_no (d, w) = ((d, w),
      Returns (mk_position (Z.of_nat j) (size (written before)),
               Z.of_nat (length log) - seq_no)) ∧
    parts !! j = Some (before ++ es) ∧ (before ≠ [] ∨ j = 0%nat) ∧
    Z.of_nat (records_before parts j + length before) = seq_no.
Proof.
  intros Hl Hseq. pose proof (log_writing _ _ _ _ _ _ _ Hl) as Hw.
  pose proof (writing_holds _ _ _ _ _ _ _ Hw) as Hh.
  pose proof (log_entries _ _ _ _ _ _ _ Hl) as Hent.
  pose proof (lookup_lt_Some _ _ _ (writing_here _ _ _ _ _ _ _ Hw)) as Hk.
  unfold Wal.end_of_kept. run (wal_eq d w). destruct (Z.ltb_spec 0 seq_no) as [Hpos|Hz].
  - destruct (scan_start_sound n parts d log Hh Hent (proj2 (writing_size _ _ _ _ _ _ _ Hw))
      w seq_no k) as (j0 & es0 & Hstart & Hj0 & Hbefore);
      [rewrite (writing_segment _ _ _ _ _ _ _ Hw); lia|done|done|].
    run Hstart. destruct (cursor_opens n 0 parts d Hh j0 es0 WalCursor.initial Hj0)
      as (c & Hopen & Hc).
    change (mk_position (0 + Z.of_nat j0)) with (mk_position (Z.of_nat j0)) in Hopen.
    run (on_cursor_eq _ d w _ _ _ Hopen). run (disk_eq d w). cbn [snd].
    pose proof (enough_turns_ok n parts d log Hh Hent) as Hturns.
    destruct (read_until_ok n parts d log Hh Hent w seq_no (Wal.enough_turns d) j0 [] es0 c Hc Hj0)
      as (c' & j & before & es & Hread & Hc' & Hj & Hne & Hend & Hnum); [cbn [length]; lia..|].
    run Hread. pose proof (remaining_length parts log Hent j before es Hj) as Hlen.
    run (count_rest_ok n parts d Hh w (Wal.enough_turns d) j before es c' 0 Hc' Hj ltac:(lia)).
    exists j, before, es. split_and!; [|done|by left|done]. rewrite Hend.
    replace (0 + Z.of_nat (length (remaining parts j es))) with (Z.of_nat (length log) - seq_no) by lia.
    done.
  - destruct (lookup_lt_is_Some_2 parts 0) as [es Hes]; [lia|].
    exists 0%nat, [], es. split_and!; [|done|by right|].
    + rewrite (proj1 (log_counts _ _ _ _ _ _ _ Hl)).
      by replace (Z.of_nat (length log) - seq_no) with (Z.of_nat (length log)) by lia.
    + change (records_before parts 0 + length (@nil Entry))%nat with 0%nat. lia.
Qed.

(** ** Cutting the log *)

Lemma zero_loop_ok turns : ∀ d seg n pre tail,
  answers d = [] → segments d !! seg = Some (pre ++ tail) → size (pre ++ tail) = n →
  (Z.to_nat (n - size pre) ≤ turns)%nat →
  Wal.zero_loop turns seg n (size pre) d =
    (with_segments d (<[seg := pre ++ zeros (n - size pre)]> (segments d)), Returns ()).
Proof.
  induction turns as [|turns IH]; intros d seg n pre tail Hd Hseg Hn Hturns;
    pose proof (size_app pre tail); pose proof (size_nonneg tail);
    cbn [Wal.zero_loop]; destruct (Z.ltb_spec (size pre) n); cbn [negb].
  1: lia.
  1, 3: assert (tail = []) as -> by (unfold size in *; destruct tail; [done|cbn in *; lia]);
    replace (n - size pre) with 0 by lia; change (zeros 0) with (@nil Z);
    rewrite app_nil_r in Hseg; rewrite app_nil_r, insert_id by done; by destruct d.
  set (chunk := Z.min Wal.zero_chunk_bytes (n - size pre)).
  assert (Hc : 1 ≤ chunk ≤ n - size pre) by (unfold chunk, Wal.zero_chunk_bytes; lia).
  assert (Hp : Wal.pwrite seg (size pre) (zeros chunk) d =
    (with_segments d (<[seg := (pre ++ zeros chunk) ++ drop (Z.to_nat chunk) tail]> (segments d)),
     Returns ())).
  { unfold Wal.pwrite. run (call_quiet d Hd). rewrite modify_eq, Hseg.
    assert (zeros (size pre - size (pre ++ tail)) = []) as ->.
    { unfold zeros. by replace (Z.to_nat _) with 0%nat by lia. }
    unfold splice. rewrite app_nil_r, size_zeros by lia. unfold size.
    rewrite Nat2Z.id, take_app_length, drop_app_ge by lia.
    rewrite <- app_assoc.
    by replace (Z.to_nat (Z.of_nat (length pre) + chunk) - length pre)%nat
      with (Z.to_nat chunk) by lia. }
  run Hp. replace (size pre + chunk) with (size (pre ++ zeros chunk))
    by (rewrite size_app, size_zeros; lia).
  assert (Hs : size (pre ++ zeros chunk) = size pre + chunk) by (rewrite size_app, size_zeros; lia).
  rewrite (IH _ seg n (pre ++ zeros chunk) (drop (Z.to_nat chunk) tail)); [|done|apply lookup_insert_eq|..].
  - cbn [segments with_segments]. rewrite insert_insert_eq, Hs. rewrite with_segments_twice, <- app_assoc, zeros_app by lia.
    by replace (chunk + (n - (size pre + chunk))) with (n - size pre) by lia.
  - rewrite size_app, Hs. unfold size in *. rewrite length_drop. lia.
  - lia.
Qed.

Lemma unlink_each_ok segs : ∀ d,
  ∃ m, Wal.unlink_each segs d = (with_segments d m, Returns ()) ∧
    ∀ seg, m !! seg = if decide (seg ∈ segs) then None else segments d !! seg.
Proof.
  induction segs as [|s segs IH]; intros d.
  - exists (segments d). split; [by rewrite with_segments_same|]. intros seg.
    rewrite decide_False; [done|apply not_elem_of_nil].
  - cbn [Wal.unlink_each]. unfold Wal.unlink at 1. run (modify_eq _ d).
    destruct (IH (with_segments d (delete s (segments d)))) as (m & -> & Hm).
    exists m. split; [done|]. intros seg. rewrite Hm. cbn [segments with_segments].
    destruct (decide (seg = s)) as [->|Hne].
    + rewrite lookup_delete_eq. rewrite (decide_True (P := s ∈ s :: segs)) by constructor.
      by case_decide.
    + rewrite lookup_delete_ne by done. destruct (decide (seg ∈ segs)).
      * rewrite decide_True by (by constructor). done.
      * rewrite decide_False; [done|]. by rewrite elem_of_cons; intros [|].
Qed.

Lemma segment_numbers_ok n parts d :
  holds n 0 parts d → has_directory d = true →
  Wal.segment_numbers d = (d, Returns (seqZ 0 (Z.of_nat (length parts)))).
Proof.
  intros Hh Hdir. unfold Wal.segment_numbers. run (gets_eq _ d).
  run (refused_quiet d (holds_quiet _ _ _ _ Hh)). rewrite Hdir. cbn [negb orb].
  pose proof (holds_keys _ _ _ _ Hh) as Hk.
  assert (filter (λ m, m < 1000000) (map_to_list (segments d)).*1 = (map_to_list (segments d)).*1) as ->.
  { assert (Hall : Forall (λ m, m < 1000000) (map_to_list (segments d)).*1).
    { apply Forall_forall. intros s Hs. rewrite Hk, elem_of_seqZ in Hs.
      pose proof (holds_numbers _ _ _ _ Hh). lia. }
    clear Hk. induction Hall as [|x l Hx _ IH]; [done|]. by rewrite filter_cons_True, IH by done. }
  assert (merge_sort Z.le (map_to_list (segments d)).*1 = seqZ 0 (Z.of_nat (length parts))) as ->.
  { apply (Sorted_unique Z.le); [apply Sorted_merge_sort, _|apply seqZ_sorted|].
    by rewrite merge_sort_Permutation. }
  done.
Qed.

(** What is left when the segments after [j] go and segment [j] keeps its
    entries [before]. *)
Lemma cut_holds n parts d j before es m :
  holds n 0 parts d → parts !! j = Some (before ++ es) →
  (∀ seg, m !! seg = if decide (Z.of_nat j < seg) then None
                     else <[Z.of_nat j := laid n before]> (segments d) !! seg) →
  holds n 0 (take j parts ++ [before]) (with_segments d m).
Proof.
  intros Hh Hj Hm. pose proof (lookup_lt_Some _ _ _ Hj) as Hlt.
  assert (Hlen : length (take j parts) = j) by (rewrite length_take; lia).
  pose proof (Forall_lookup_1 _ _ _ _ (holds_good _ _ _ _ Hh) Hj) as Hg.
  pose proof (Forall_lookup_1 _ _ _ _ (holds_fit _ _ _ _ Hh) Hj) as Hf. cbn beta in Hf.
  rewrite written_app, size_app in Hf. pose proof (size_nonneg (written es)).
  constructor; try apply Hh.
  - right. destruct (holds_directory _ _ _ _ Hh) as [Hnil|Hdir]; [by subst|done].
  - intros seg. cbn [segments with_segments]. rewrite Hm. unfold part_at.
    destruct (decide (Z.of_nat j < seg)).
    { destruct (Z.ltb_spec seg 0); [lia|]. rewrite lookup_ge_None_2; [done|].
      rewrite length_app, Hlen. cbn. lia. }
    destruct (decide (seg = Z.of_nat j)) as [->|Hne].
    + rewrite lookup_insert_eq. destruct (Z.ltb_spec (Z.of_nat j) 0); [lia|].
      rewrite list_lookup_middle by lia. done.
    + rewrite lookup_insert_ne by done. rewrite (holds_segments _ _ _ _ Hh). f_equal.
      unfold part_at. destruct (Z.ltb_spec seg 0); [done|].
      rewrite lookup_app_l by lia. rewrite lookup_take by lia. destruct (decide _); [done|lia].
  - apply Forall_app. split; [apply Forall_take, Hh|]. constructor; [|done].
    by apply Forall_app in Hg as [Hg _].
  - apply Forall_app. split; [apply Forall_take, Hh|]. constructor; [lia|done].
  - pose proof (holds_numbers _ _ _ _ Hh). rewrite length_app, Hlen. cbn. lia.
Qed.

Lemma cut_entries parts log j before es :
  parts !! j = Some (before ++ es) → concat parts = entries log →
  concat (take j parts ++ [before])
    = entries (take (records_before parts j + length before) log).
Proof.
  intros Hj Hc. unfold entries. rewrite <- take_entries_from. fold (entries log).
  rewrite <- Hc, concat_app. cbn [concat]. rewrite app_nil_r.
  assert (Hp : concat parts = (concat (take j parts) ++ before) ++ es ++ concat (drop (S j) parts)).
  { transitivity (concat (take j parts ++ (before ++ es) :: drop (S j) parts)).
    - by rewrite (take_drop_middle _ _ _ Hj).
    - rewrite concat_app. cbn [concat]. by rewrite <- !app_assoc. }
  rewrite Hp. rewrite take_app_length'; [done|]. unfold records_before. by rewrite length_app.
Qed.

(** The segment the record ends in is zeroed from there on and the segments
    after it go. *)
Lemma cut_disk_ok n parts d j before es :
  holds n 0 parts d → has_directory d = true → parts !! j = Some (before ++ es) →
  ∃ m, (Wal.zero_rest (mk_position (Z.of_nat j) (size (written before))) n ;;
        Wal.delete_segments_after (Z.of_nat j)) d = (with_segments d m, Returns ()) ∧
    holds n 0 (take j parts ++ [before]) (with_segments d m).
Proof.
  intros Hh Hdir Hj. pose proof (holds_quiet _ _ _ _ Hh) as Hd.
  assert (Hseg : segments d !! Z.of_nat j = Some (laid n (before ++ es))).
  { by rewrite (holds_segments _ _ _ _ Hh), part_at_first, Hj. }
  pose proof (Forall_lookup_1 _ _ _ _ (holds_fit _ _ _ _ Hh) Hj) as Hf. cbn beta in Hf.
  pose proof (holds_size _ _ _ _ Hh) as Hn.
  assert (Hzero : Wal.zero_rest (mk_position (Z.of_nat j) (size (written before))) n d
    = (with_segments d (<[Z.of_nat j := laid n before]> (segments d)), Returns ())).
  { unfold Wal.zero_rest. run (gets_eq _ d). cbn [segment offset]. rewrite Hseg.
    run (call_quiet d Hd).
    pose proof (size_nonneg (written before)).
    apply (zero_loop_ok (Z.to_nat n) d (Z.of_nat j) n (written before)
      (written es ++ zeros (n - size (written (before ++ es))))); [done| | |lia].
    - rewrite Hseg. unfold laid. by rewrite written_app, <- app_assoc.
    - rewrite app_assoc, <- written_app. by apply size_laid. }
  run Hzero. set (d1 := with_segments d _).
  assert (Hh1 : holds n 0 (<[j := before]> parts) d1).
  { pose proof (lookup_lt_Some _ _ _ Hj) as Hlt. constructor; try apply Hh.
    - by right.
    - intros seg. cbn [segments with_segments d1].
      destruct (decide (seg = Z.of_nat j)) as [->|Hne].
      + by rewrite lookup_insert_eq, part_at_first, list_lookup_insert_eq by done.
      + rewrite lookup_insert_ne by done. rewrite (holds_segments _ _ _ _ Hh). f_equal.
        unfold part_at. destruct (Z.ltb_spec seg 0); [done|]. by rewrite list_lookup_insert_ne by lia.
    - apply Forall_insert; [apply Hh|].
      pose proof (Forall_lookup_1 _ _ _ _ (holds_good _ _ _ _ Hh) Hj) as Hg.
      by apply Forall_app in Hg as [Hg _].
    - apply Forall_insert; [apply Hh|]. rewrite written_app, size_app in Hf.
      pose proof (size_nonneg (written es)). lia.
    - rewrite length_insert. apply Hh. }
  unfold Wal.delete_segments_after.
  run (segment_numbers_ok n _ d1 Hh1 Hdir). rewrite length_insert.
  destruct (unlink_each_ok (filter (λ m, Z.of_nat j < m) (seqZ 0 (Z.of_nat (length parts)))) d1)
    as (m & -> & Hm).
  exists m. split; [done|]. apply (cut_holds n parts d j before es m Hh Hj).
  intros seg. rewrite Hm. cbn [segments with_segments d1].
  destruct (decide (Z.of_nat j < seg)) as [Hlt|Hge].
  - case_decide as Hin; [done|]. rewrite lookup_insert_ne by lia.
    rewrite (holds_segments _ _ _ _ Hh). unfold part_at. destruct (Z.ltb_spec seg 0); [done|].
    rewrite lookup_ge_None_2; [done|]. destruct (decide (seg < Z.of_nat (length parts))); [|lia].
    destruct Hin. apply list_elem_of_filter. split; [done|]. apply elem_of_seqZ. lia.
  - rewrite decide_False; [done|]. by rewrite list_elem_of_filter; intros [? _].
Qed.

Lemma bind_step {S B} (m : comp S unit) (f : comp S B) s s' (b : B) :
  (m ;; f) s = (s', Returns b) →
  ∃ s1, m s = (s1, Returns ()) ∧ f s1 = (s', Returns b).
Proof.
  unfold mbind, comp_bind. destruct (m s) as [s1 [[]|e]]; [eauto|done].
Qed.

Lemma truncate_refines n parts k cur d w log seq_no :
  log_state n parts k cur d w log → 0 ≤ seq_no ≤ Z.of_nat (length log) →
  ∃ d' w' parts' k' cur', Wal.truncate_after seq_no (d, w) = ((d', w'), Returns ()) ∧
    log_state n parts' k' cur' d' w' (take (Z.to_nat seq_no) log).
Proof.
  intros Hl Hseq. destruct (log_counts _ _ _ _ _ _ _ Hl) as [Hcount Hlast].
  unfold Wal.truncate_after. run (wal_eq d w). rewrite Hlast.
  destruct (Z.ltb_spec seq_no 0); [lia|].
  destruct (Z.ltb_spec (Z.of_nat (length log)) seq_no); [lia|]. cbn [orb].
  destruct (Z.eqb_spec seq_no (Z.of_nat (length log))) as [->|Hne].
  { exists d, w, parts, k, cur. split; [done|]. by rewrite take_ge by lia. }
  destruct (end_of_kept_ok n parts k cur d w log seq_no Hl Hseq)
    as (j & before & es & Hend & Hj & Hne' & Hnum).
  run Hend. pose proof (log_writing _ _ _ _ _ _ _ Hl) as Hw.
  pose proof (writing_holds _ _ _ _ _ _ _ Hw) as Hh.
  pose proof (lookup_lt_Some _ _ _ Hj) as Hlt.
  destruct (close_writer_ok d (Wal.writer_ w) (log_quiet _ _ _ _ _ _ _ Hl)) as (wr & Hclose & Hidle).
  run (on_writer_eq _ _ w _ _ _ Hclose). set (w1 := Wal.mk _ wr _ _). cbn [segment].
  destruct (log_size _ _ _ _ _ _ _ Hl) as [Hsize Hbig]. rewrite Hsize.
  destruct (cut_disk_ok n parts d j before es Hh (writing_directory _ _ _ _ _ _ _ Hw) Hj)
    as (m & Hcut & Hcuth).
  apply bind_step in Hcut as (d1 & Hzero & Hdelete).
  run (on_fst_eq _ _ _ w1 _ Hzero). run (on_fst_eq _ _ _ w1 _ Hdelete).
  set (d2 := with_segments d m) in *. run (modify_fst_eq _ d2 w1).
  set (d3 := with_snapshots d2 _ _). run (modify_snd_eq _ d3 w1). set (w2 := Wal.with_counts w1 _ _).
  assert (Hlen : length (take (Z.to_nat seq_no) log) = Z.to_nat seq_no) by (rewrite length_take; lia).
  assert (Hds : disk_state n (take j parts ++ [before]) j before d3 (take (Z.to_nat seq_no) log)).
  { constructor.
    - constructor; apply Hcuth.
    - split; [apply Hw|done].
    - left. apply list_lookup_middle. rewrite length_take. lia.
    - intros i fs Hi%lookup_lt_Some Hji. rewrite length_app, length_take in Hi. cbn in Hi. lia.
    - pose proof (holds_numbers _ _ _ _ Hh). rewrite length_app, length_take. cbn. lia.
    - rewrite (cut_entries _ log j before es Hj) by apply Hl. do 2 f_equal. lia.
    - done.
    - apply Forall_take, Hl.
    - pose proof (log_numbers _ _ _ _ _ _ _ Hl). lia.
    - done. }
  destruct (writer_resumes n _ j before d3 w2 _ Hds) as (d' & w' & parts' & Hopen & Hl' & _).
  - done.
  - done.
  - cbn [w2 w1 Wal.record_count_ Wal.with_counts]. rewrite Hcount, Hlen. case_if; bool_to_prop; lia.
  - cbn [w2 Wal.last_seq_no_ Wal.with_counts]. rewrite Hlen. lia.
  - by exists d', w', parts', j, before.
Qed.
