(* ===== verification/WalTheorems.v ===== *)
(** What is promised of the write-ahead log.

    [reachable] is the step relation of one component's log: records appended,
    snapshots taken, records discarded, the helper thread taking its turn at
    any moment, and the process starting again at any moment between two
    operations, with the directory it left. *)

From stdpp Require Import sorting.
From S2P Require Import Prelude.
From S2P Require Import WalEntry.
From S2P Require Import WalWriter.
From S2P Require Import WalReader.
From S2P Require Import Wal.
From S2P Require Import WalLayout.
From S2P Require Import WalLog.
From S2P Require Import WalRefinement.
From S2P Require Import WalTruncate.
#[local] Open Scope Z_scope.

Inductive WalStep :=
  | Append (c : WalEntryContents)
  | HelperTurn
  | TakeSnapshot
  | Restart (mode : Wal.WalOpenMode)
  | TruncateAfter (seq_no : Z).

(** A process that starts: a new object, the directory as it is, the records
    of the log kept by the callback. *)
Definition start (n : Z) (mode : Wal.WalOpenMode) (d : Disk)
    : Wal.state * list (Z * WalEntryContents) * outcome Z :=
  let r := Wal.open n collect mode (d, (Wal.initial, [])) in
  (r.1.1, r.1.2.1, r.1.2.2, r.2).

Definition step_wal (n : Z) (s : WalStep) : comp Wal.state unit :=
  match s with
  | Append c =>
      w ← Wal.wal;
      Wal.append (Wal.last_seq_no_ w + 1) (pdu_id c) (record_bytes c) (wall_time_ns c)
        (leader_epoch c)
  | HelperTurn => Wal.on_writer WalWriter.helper_turn
  | TakeSnapshot => Wal.take_snapshot
  | Restart mode => λ st,
      let r := start n mode st.1 in
      (r.1.1, match r.2 with Returns _ => Returns () | Throws e => Throws e end)
  | TruncateAfter seq_no => Wal.truncate_after seq_no
  end.

(** The same on the list of records. *)
Definition step_log (s : WalStep) (log : list WalEntryContents) : list WalEntryContents :=
  match s with
  | Append c => log ++ [c]
  | TruncateAfter seq_no => take (Z.to_nat seq_no) log
  | _ => log
  end.

(** The record fits in a segment, the next segment's number has six digits, and
    the record to keep is in the log. *)
Definition allowed (n : Z) (s : WalStep) (st : Wal.state) (log : list WalEntryContents) : Prop :=
  let room := WalWriter.current_segment_ (Wal.writer_ st.2) + 1 < 1000000 in
  match s with
  | Append c => fits n c ∧ Z.of_nat (length log) + 1 < 2 ^ 63 ∧ room
  | HelperTurn => room
  | TruncateAfter seq_no => 0 ≤ seq_no ≤ Z.of_nat (length log)
  | _ => True
  end.

Inductive reachable (n : Z) : Wal.state → list WalEntryContents → Prop :=
  | reach_new mode st l r :
      start n mode no_disk = (st, l, Returns r) → reachable n st []
  | reach_step st log s st' :
      reachable n st log → allowed n s st log → step_wal n s st = (st', Returns ()) →
      reachable n st' (step_log s log).

Definition in_use (n : Z) (st : Wal.state) (log : list WalEntryContents) : Prop :=
  ∃ parts k cur, log_state n parts k cur st.1 st.2 log.

Lemma start_refines n parts k cur d log mode :
  disk_state n parts k cur d log →
  ∃ st c, start n mode d = (st, numbered_from (1 + Z.of_nat c) (drop c log),
                            Returns (Z.of_nat (length log))) ∧
    in_use n st log ∧ (mode = Wal.IgnoreSnapshot ∨ snapshot_file d = None → c = 0%nat).
Proof.
  intros Hd. destruct (open_refines n parts k cur d log mode Hd)
    as (d' & w' & parts' & c & Hopen & Hl & Hc).
  exists (d', w'), c. unfold start. rewrite Hopen. split_and!; [done| |done].
  by exists parts', k, cur.
Qed.

Lemma step_refines n st log s :
  in_use n st log → allowed n s st log →
  ∃ st', step_wal n s st = (st', Returns ()) ∧ in_use n st' (step_log s log).
Proof.
  destruct st as [d w]. intros (parts & k & cur & Hl) Hok. cbn [fst snd] in *.
  pose proof (writing_segment _ _ _ _ _ _ _ (log_writing _ _ _ _ _ _ _ Hl)) as Hseg.
  destruct s as [c| | |mode|seq_no]; cbn [allowed snd] in Hok; cbn [step_wal step_log].
  - destruct Hok as (Hfit & Hlen & Hroom). run (wal_eq d w).
    rewrite (proj2 (log_counts _ _ _ _ _ _ _ Hl)).
    destruct (append_refines n parts k cur d w log c Hl)
      as (d' & w' & parts' & k' & cur' & -> & Hl'); [lia|done|done|].
    exists (d', w'). split; [done|]. by exists parts', k', cur'.
  - destruct (helper_turn_ok n 0 parts k cur d (Wal.writer_ w))
      as (m & parts' & wr & Hturn & Hw & Hc & Hg & _); [apply Hl|lia|].
    rewrite (on_writer_eq _ _ w _ _ _ Hturn). eexists. split; [reflexivity|].
    exists parts', k, cur.
    constructor; cbn [fst snd Wal.writer_ Wal.segment_size_ Wal.record_count_ Wal.last_seq_no_];
      [done|rewrite Hc; apply Hl|apply Hl|apply Hl|apply (log_size _ _ _ _ _ _ _ Hl)
      |apply (log_counts _ _ _ _ _ _ _ Hl)|apply Hl|].
    eapply snapshot_grows; [apply Hl|done|lia].
  - destruct (snapshot_refines n parts k cur d w log Hl) as (d' & -> & Hl').
    exists (d', w). split; [done|]. by exists parts, k, cur.
  - destruct (start_refines n parts k cur d log mode (log_state_disk _ _ _ _ _ _ _ Hl))
      as (st & c & Hst & Huse & _).
    cbn [fst]. rewrite Hst. by exists st.
  - destruct (truncate_refines n parts k cur d w log seq_no Hl Hok)
      as (d' & w' & parts' & k' & cur' & -> & Hl').
    exists (d', w'). split; [done|]. by exists parts', k', cur'.
Qed.

Lemma reachable_in_use n st log :
  WalWriter.min_entry_bytes * 2 ≤ n < 2 ^ 64 → reachable n st log → in_use n st log.
Proof.
  intros Hn. induction 1 as [mode st l r Hst|st log s st' _ IH Hok Hstep].
  - destruct (start_refines n [] 0 [] no_disk [] mode (no_disk_state n Hn))
      as (st' & c & Hst' & Huse & _). by rewrite Hst in Hst'; simplify_eq.
  - destruct (step_refines n st log s IH Hok) as (st1 & Hst1 & Huse).
    by rewrite Hstep in Hst1; simplify_eq.
Qed.

(** C8: The write-ahead log keeps what it is given.  In every state that is
    reached by appending records, taking snapshots, discarding records from the
    end, letting the helper thread make the next segment at any moment and
    starting the process again at any moment: every operation that is allowed
    returns, and does to the list of records what [step_log] says; and a
    process that starts reads back the records of the list, in order, with
    their contents and numbers, all of them where it ignores the snapshot and
    those after the snapshot where it uses it, and says the number of the last. *)
Theorem wal_keeps_every_record (n : Z) (st : Wal.state) (log : list WalEntryContents)
  (Hn : WalWriter.min_entry_bytes * 2 ≤ n < 2 ^ 64)
  (Hreach : reachable n st log) :
  (∀ s, allowed n s st log →
     ∃ st', step_wal n s st = (st', Returns ()) ∧ reachable n st' (step_log s log)) ∧
  (∀ mode, ∃ st' c,
     start n mode st.1 = (st', numbered_from (1 + Z.of_nat c) (drop c log),
                          Returns (Z.of_nat (length log))) ∧
     (mode = Wal.IgnoreSnapshot → c = 0%nat) ∧
     Wal.record_count_ st'.2 = Z.of_nat (length log)).
Proof.
  pose proof (reachable_in_use n st log Hn Hreach) as Huse. split.
  - intros s Hok. destruct (step_refines n st log s Huse Hok) as (st' & Hstep & _).
    exists st'. split; [done|]. by eapply reach_step.
  - intros mode. destruct st as [d w]. destruct Huse as (parts & k & cur & Hl).
    destruct (start_refines n parts k cur d log mode (log_state_disk _ _ _ _ _ _ _ Hl))
      as (st' & c & Hst & (parts' & k' & cur' & Hl') & Hc).
    exists st', c. split_and!; [done|auto|]. apply (log_counts _ _ _ _ _ _ _ Hl').
Qed.

(** Two records of which the second does not fit beside the first, a snapshot,
    a third record and the second and third discarded. *)
Definition small_record (b : Z) : WalEntryContents := mk_contents 1000 4 7 [b; b; b].
Definition example_steps : list WalStep :=
  [Append (small_record 1); HelperTurn; TakeSnapshot; Append (small_record 2);
   Append (small_record 3); Restart Wal.UseSnapshot; TruncateAfter 1; Append (small_record 4)].

Definition run_steps (n : Z) (steps : list WalStep) (st : Wal.state) : Wal.state :=
  foldl (λ st s, (step_wal n s st).1) st steps.

Definition example_start : Wal.state := (start 80 Wal.UseSnapshot no_disk).1.1.

Lemma wal_keeps_every_record_witness :
  (∃ st' c,
     start 80 Wal.UseSnapshot (run_steps 80 example_steps example_start).1 =
       (st', numbered_from (1 + Z.of_nat c) (drop c [small_record 1; small_record 4]),
        Returns 2) ∧
     (Wal.UseSnapshot = Wal.IgnoreSnapshot → c = 0%nat) ∧ Wal.record_count_ st'.2 = 2) ∧
  (∃ st' c,
     start 80 Wal.IgnoreSnapshot (run_steps 80 example_steps example_start).1 =
       (st', numbered_from (1 + Z.of_nat c) (drop c [small_record 1; small_record 4]),
        Returns 2) ∧
     (Wal.IgnoreSnapshot = Wal.IgnoreSnapshot → c = 0%nat) ∧ Wal.record_count_ st'.2 = 2).
Proof.
  assert (Hreach : reachable 80 (run_steps 80 example_steps example_start)
                     [small_record 1; small_record 4]).
  { unfold run_steps.
    pose proof (reach_new 80 Wal.UseSnapshot example_start _ 0 ltac:(vm_compute; reflexivity)) as H0.
    assert (Hstep : ∀ st log s, reachable 80 st log → allowed 80 s st log →
      (step_wal 80 s st).2 = Returns () → reachable 80 (step_wal 80 s st).1 (step_log s log)).
    { intros st log s Hr Ha Hok. eapply reach_step; [exact Hr|exact Ha|].
      rewrite <- Hok. apply surjective_pairing. }
    change [small_record 1; small_record 4] with
      (foldl (λ log s, step_log s log) [] example_steps).
    unfold example_steps. cbn [foldl].
    repeat (apply Hstep; [|vm_compute; repeat split; discriminate || reflexivity
                          |vm_compute; reflexivity]).
    exact H0. }
  pose proof (wal_keeps_every_record 80 (run_steps 80 example_steps example_start)
    [small_record 1; small_record 4]
    ltac:(split; [vm_compute; discriminate|vm_compute; reflexivity]) Hreach) as [_ Hread].
  split; apply Hread.
Defined.
