(* ===== verification/WalDamage.v ===== *)
(** What reading does with a log that is not as the writer left it: the
    specification of reading a segment of any bytes, the unfinished entry a
    death leaves, and two states from which the log cannot be used again. *)

From stdpp Require Import sorting.
From S2P Require Import Prelude.
From S2P Require Import WalEntry.
From S2P Require Import WalWriter.
From S2P Require Import WalReader.
From S2P Require Import Wal.
From S2P Require Import WalLayout.
From S2P Require Import WalLog.
From S2P Require Import WalRefinement.
From S2P Require Import WalTruncate.
From S2P Require Import WalTheorems.
#[local] Open Scope Z_scope.

(** ** Reading a segment of any bytes *)

(** The callback that keeps what it is told. *)
Definition collect_offsets : WalReader.PositionedEntryCallback (list (Z * Z * list Z)) :=
  Some (λ id at_ payload, modify (λ l, l ++ [(id, at_, payload)])).

(** Valid entries one after the other, from an offset to where they stop. *)
Inductive run_of_entries (base : list Z) : Z → list (Z * Z * list Z) → Z → Prop :=
  | run_stops at_ :
      valid_entry_size_at base (size base) at_ = 0 → run_of_entries base at_ [] at_
  | run_goes_on at_ rest stop :
      valid_entry_size_at base (size base) at_ ≠ 0 →
      run_of_entries base (at_ + valid_entry_size_at base (size base) at_) rest stop →
      run_of_entries base at_
        ((record_id (read_header base at_), at_, payload_at base at_) :: rest) stop.

Lemma valid_has_magic base at_ :
  Forall is_byte base → 0 ≤ at_ → valid_entry_size_at base (size base) at_ ≠ 0 →
  slice base at_ 4 = bytes_of 4 entry_magic ∧ at_ + 28 ≤ size base.
Proof.
  intros Hb Hat Hv. pose proof (valid_bounds base (size base) at_ Hb Hv) as [H28 Hend].
  unfold valid_entry_size_at in Hv. repeat case_if; try done. bool_to_prop.
  unfold read_header in *. cbn [magic] in *.
  assert (Hlen : length (slice base at_ 4) = 4%nat).
  { unfold slice, size in *. rewrite length_take, length_drop.
    unfold entry_header_size, checksum_size in *. lia. }
  split; [|unfold entry_header_size, checksum_size in *; lia].
  unfold bytes_of. rewrite <- (Z_to_little_endian_to_Z 4 8 (slice base at_ 4));
    [|by rewrite Hlen|lia|by apply slice_bytes].
  f_equal. done.
Qed.

Lemma next_valid_from_spec base turns : ∀ at_,
  Forall is_byte base → 0 ≤ at_ → (Z.to_nat (size base - at_) ≤ turns)%nat →
  let r := next_valid_from turns base (size base) at_ in
  (r = size base ∧ ∀ off, at_ ≤ off → valid_entry_size_at base (size base) off = 0) ∨
  (at_ ≤ r < size base ∧ valid_entry_size_at base (size base) r ≠ 0).
Proof.
  induction turns as [|turns IH]; intros at_ Hb Hat Hturns; cbn zeta; cbn [next_valid_from].
  { left. split; [done|]. intros off Hoff.
    destruct (decide (valid_entry_size_at base (size base) off = 0)) as [|Hv]; [done|].
    apply valid_has_magic in Hv as [_ ?]; [lia|done|lia]. }
  unfold entry_header_size. destruct (Z.leb_spec (at_ + 24) (size base)) as [Hin|Hout].
  - case_if; bool_to_prop.
    + right. split; [lia|done].
    + destruct (IH (at_ + 1)) as [[Hr Hall]|[Hr Hv]]; [done|lia|lia|left|right].
      * split; [done|]. intros off Hoff. destruct (decide (off = at_)) as [->|]; [|apply Hall; lia].
        destruct (decide (valid_entry_size_at base (size base) at_ = 0)) as [|Hv]; [done|].
        pose proof (valid_has_magic base at_ Hb Hat Hv) as [Hm _].
        destruct Heqb as [Heqb|Heqb]; bool_to_prop; done.
      * split; [lia|done].
  - left. split; [done|]. intros off Hoff.
    destruct (decide (valid_entry_size_at base (size base) off = 0)) as [|Hv]; [done|].
    apply valid_has_magic in Hv as [_ ?]; [lia|done|lia].
Qed.

Lemma next_valid_spec base from :
  Forall is_byte base → 0 ≤ from →
  let r := next_valid_entry_after base (size base) from in
  (r = size base ∧ ∀ off, from < off → valid_entry_size_at base (size base) off = 0) ∨
  (from < r < size base ∧ valid_entry_size_at base (size base) r ≠ 0).
Proof.
  intros Hb Hf. unfold next_valid_entry_after.
  destruct (next_valid_from_spec base (Z.to_nat (size base - from)) (from + 1))
    as [[Hr Hall]|[Hr Hv]]; [done|lia|lia|left|right].
  - split; [done|]. intros off Hoff. apply Hall. lia.
  - split; [lia|done].
Qed.

Lemma all_zero_any base from :
  all_zero base from (size base) = true ↔ ∀ off x, from ≤ Z.of_nat off → base !! off = Some x → x = 0.
Proof.
  unfold all_zero, slice, size. rewrite take_ge by (rewrite length_drop; lia).
  rewrite forallb_forall. split.
  - intros Hall off x Hoff Hx. apply Z.eqb_eq, Hall. apply list_elem_of_In.
    apply list_elem_of_lookup. exists (off - Z.to_nat from)%nat. rewrite lookup_drop.
    by replace (Z.to_nat from + (off - Z.to_nat from))%nat with off by lia.
  - intros Hall x Hx%list_elem_of_In%list_elem_of_lookup. destruct Hx as [i Hi].
    rewrite lookup_drop in Hi. apply Z.eqb_eq. eapply Hall; [|done]. lia.
Qed.

Lemma scan_loop_spec base turns : ∀ at_ l,
  Forall is_byte base → 0 ≤ at_ ≤ size base → (Z.to_nat (size base - at_) < turns)%nat →
  ∃ found stop, run_of_entries base at_ found stop ∧
    let r := WalReader.scan_loop turns base (size base) at_ collect_offsets l in
    r.1 = l ++ found ∧
    r.2 = if all_zero base stop (size base) then Returns (WalReader.mk_scan stop true)
          else if next_valid_entry_after base (size base) stop =? size base
          then Returns (WalReader.mk_scan stop false)
          else Throws PubSubItcException.
Proof.
  induction turns as [|turns IH]; intros at_ l Hb Hat Hturns; [lia|].
  cbn [WalReader.scan_loop].
  destruct (Z.eqb_spec (valid_entry_size_at base (size base) at_) 0) as [Hz|Hv]; cbn [negb].
  - exists [], at_. split; [by constructor|]. cbn zeta. rewrite app_nil_r.
    destruct (all_zero base at_ (size base)); [done|].
    destruct (next_valid_entry_after base (size base) at_ =? size base); done.
  - pose proof (valid_bounds _ _ _ Hb Hv) as [H28 Hend].
    destruct (IH (at_ + valid_entry_size_at base (size base) at_)
                 (l ++ [(record_id (read_header base at_), at_, payload_at base at_)]))
      as (found & stop & Hrun & Hl & Hr); [done|lia|lia|].
    exists ((record_id (read_header base at_), at_, payload_at base at_) :: found), stop.
    split; [by constructor|]. cbn zeta in *. cbn [collect_offsets].
    unfold mbind, comp_bind, modify. rewrite <- app_assoc in Hl. done.
Qed.

(** C38: Reading a segment, whatever its bytes, ends, and reads no record past
    damage.  The callback is given the valid entries that follow each other
    from the offset on, and then: the bytes to the end of the segment are all
    zero, and the reading has stopped cleanly; or they are not, no valid entry
    starts in them, and it has not; or a valid entry does start in them, and
    the log is refused. *)
Theorem reading_stops_at_damage (base : list Z) (start_ : Z)
  (Hbytes : Forall is_byte base) (Hstart : 0 ≤ start_ ≤ size base) :
  ∃ found stop,
    run_of_entries base start_ found stop ∧
    let r := WalReader.scan_loop (S (length base)) base (size base) start_ collect_offsets [] in
    r.1 = found ∧
    match r.2 with
    | Returns scan =>
        WalReader.consumed scan = stop ∧
        (if WalReader.stopped_cleanly scan
         then ∀ off x, stop ≤ Z.of_nat off → base !! off = Some x → x = 0
         else ¬ (∀ off x, stop ≤ Z.of_nat off → base !! off = Some x → x = 0) ∧
              ∀ off, stop ≤ off → valid_entry_size_at base (size base) off = 0)
    | Throws e =>
        e = PubSubItcException ∧ valid_entry_size_at base (size base) stop = 0 ∧
        ∃ off, stop < off ∧ valid_entry_size_at base (size base) off ≠ 0
    end.
Proof.
  destruct (scan_loop_spec base (S (length base)) start_ [] Hbytes Hstart)
    as (found & stop & Hrun & Hl & Hr); [unfold size; lia|]. cbn zeta in *.
  assert (Hstop : valid_entry_size_at base (size base) stop = 0 ∧ 0 ≤ stop).
  { destruct Hstart as [H0 _]. clear Hl Hr. induction Hrun as [at_ Hz|at_ rest stop Hv _ IH]; [done|].
    pose proof (valid_bounds _ _ _ Hbytes Hv). apply IH. lia. }
  destruct Hstop as [Hstop Hpos].
  exists found, stop. split; [done|]. split; [done|]. rewrite Hr.
  destruct (all_zero base stop (size base)) eqn:Hz.
  - cbn. split; [done|]. by apply all_zero_any.
  - destruct (next_valid_spec base stop Hbytes Hpos) as [[Heq Hall]|[Hlt Hv]].
    + rewrite Heq, Z.eqb_refl. cbn. split; [done|]. split.
      * intros Hno. apply all_zero_any in Hno. congruence.
      * intros off Hoff. destruct (decide (off = stop)) as [->|]; [done|]. apply Hall. lia.
    + destruct (Z.eqb_spec (next_valid_entry_after base (size base) stop) (size base)); [lia|].
      split_and!; [done..|]. eexists. split; [|exact Hv]. lia.
Qed.

(** An entry of two bytes, then space never written. *)
Definition example_base : list Z := encode (mk_entry 5 [1; 2]) ++ zeros 20.

Lemma reading_stops_at_damage_witness :
  ∃ found stop,
    run_of_entries example_base 0 found stop ∧
    let r := WalReader.scan_loop (S (length example_base)) example_base (size example_base) 0
               collect_offsets [] in
    r.1 = found ∧
    match r.2 with
    | Returns scan =>
        WalReader.consumed scan = stop ∧
        (if WalReader.stopped_cleanly scan
         then ∀ off x, stop ≤ Z.of_nat off → example_base !! off = Some x → x = 0
         else ¬ (∀ off x, stop ≤ Z.of_nat off → example_base !! off = Some x → x = 0) ∧
              ∀ off, stop ≤ off → valid_entry_size_at example_base (size example_base) off = 0)
    | Throws e =>
        e = PubSubItcException ∧ valid_entry_size_at example_base (size example_base) stop = 0 ∧
        ∃ off, stop < off ∧ valid_entry_size_at example_base (size example_base) off ≠ 0
    end.
Proof.
  apply reading_stops_at_damage; [|split; vm_compute; discriminate].
  unfold example_base. apply Forall_app. split.
  - apply encode_is_bytes. repeat (constructor; [split; [lia|reflexivity]|]). constructor.
  - apply Forall_replicate. split; [lia|reflexivity].
Defined.

(** ** An entry left unfinished *)

Lemma next_valid_none base n turns : ∀ at_,
  (∀ off, at_ ≤ off → valid_entry_size_at base n off = 0) →
  next_valid_from turns base n at_ = n.
Proof.
  induction turns as [|turns IH]; intros at_ Hall; [done|]. cbn [next_valid_from].
  rewrite (Hall at_) by lia. cbn [Z.eqb negb]. rewrite andb_false_r.
  case_if; [|done]. apply IH. intros off Hoff. apply Hall. lia.
Qed.

Section unfinished.
Context {S : Type} (f : Z → list Z → comp S unit).
Abbreviation callback := (WalReader.without_offset (Some f)).

Lemma scan_loop_entries es : ∀ turns pre junk s,
  Forall good_entry es →
  let base := pre ++ written es ++ junk in
  WalReader.scan_loop (length es + turns) base (size base) (size pre) callback s =
    (deliver callback (size pre) es ;;
     WalReader.scan_loop turns base (size base) (size pre + size (written es)) callback) s.
Proof.
  induction es as [|e es IH]; intros turns pre junk s Hg; cbn zeta.
  - cbn [length Nat.add deliver]. run (mret_eq () s). by rewrite Z.add_0_r.
  - apply Forall_cons_1 in Hg as [He Hes].
    rewrite written_cons, <- app_assoc. cbn [length Nat.add WalReader.scan_loop].
    rewrite valid_entry by done. pose proof (entry_size_pos e).
    destruct (Z.eqb_spec (entry_size e) 0); [lia|]. cbn [negb].
    rewrite read_header_entry, payload_entry by done. cbn [record_id deliver].
    rewrite bind_assoc. apply bind_ext. intros [] s'.
    specialize (IH turns (pre ++ encode e) junk s' Hes). cbn zeta in IH.
    assert (Hs : size (pre ++ encode e) = size pre + entry_size e)
      by (by rewrite size_app, size_encode).
    rewrite Hs, <- app_assoc in IH. rewrite IH.
    apply bind_ext. intros [] s''. rewrite (size_app (encode e)), size_encode.
    by rewrite Z.add_assoc.
Qed.

(** A segment that ends in bytes in which no entry is valid: its entries are
    read from an offset on, and its end is where they end. *)
Lemma scan_junk d seg before es junk s s' :
  answers d = [] → segments d !! seg = Some (written before ++ written es ++ junk) →
  Forall good_entry es → size (written before) < size (written before ++ written es ++ junk) →
  let base := written before ++ written es ++ junk in
  let stop := size (written before) + size (written es) in
  (∀ off, stop ≤ off → valid_entry_size_at base (size base) off = 0) →
  each f es s = (s', Returns ()) →
  WalReader.scan_segment seg (size (written before)) callback (d, s)
    = ((d, s'), Returns (WalReader.mk_scan stop (all_zero base stop (size base)))).
Proof.
  intros Hd Hseg Hg Hpos. cbn zeta. intros Hnone He. unfold WalReader.scan_segment.
  run (disk_eq d s). rewrite Hseg. run (call_fst_quiet d s Hd). run (call_fst_quiet d s Hd).
  set (base := written before ++ written es ++ junk) in *.
  pose proof (size_nonneg (written before)).
  destruct (Z.eqb_spec (size base) 0); [lia|].
  destruct (Z.leb_spec (size base) (size (written before))); [lia|].
  cbn [orb]. run (call_fst_quiet d s Hd).
  assert (Hturns : ∃ turns, Datatypes.S (length base) = (length es + Datatypes.S turns)%nat).
  { exists (length base - length es)%nat. pose proof (written_length es).
    unfold base. rewrite !length_app. lia. }
  destruct Hturns as [turns ->].
  pose proof (scan_loop_entries es (Datatypes.S turns) (written before) junk s Hg) as Hscan.
  cbn zeta in Hscan. fold base in Hscan.
  rewrite (on_snd_eq _ d s s' (Returns (WalReader.mk_scan
    (size (written before) + size (written es))
    (all_zero base (size (written before) + size (written es)) (size base))))); [done|].
  rewrite Hscan. unfold mbind, comp_bind. rewrite deliver_each, He.
  cbn [WalReader.scan_loop]. rewrite Hnone by lia. cbn [Z.eqb negb].
  destruct (all_zero base _ _); [done|].
  unfold next_valid_entry_after. rewrite next_valid_none; [by rewrite Z.eqb_refl|].
  intros off Hoff. apply Hnone. lia.
Qed.

(** The segment after, which holds nothing, tells nothing against it. *)
Lemma replay_loop_junk d n from p seg es junk rest s s' :
  answers d = [] → 0 < n →
  segments d !! seg = Some (written es ++ junk) → size (written es ++ junk) = n →
  size (written es) < n →
  rest = [] ∨ (rest = [seg + 1] ∧ segments d !! (seg + 1) = Some (laid n [])) →
  Forall good_entry es →
  (∀ off, size (written es) ≤ off → valid_entry_size_at (written es ++ junk) n off = 0) →
  segment from < seg ∨ (segment from = seg ∧ offset from = 0) →
  each f es s = (s', Returns ()) →
  WalReader.replay_loop (seg :: rest) from callback (WalReader.mk_progress p None) (d, s)
    = ((d, s'), Returns (if 0 <? size (written es) then mk_position seg (size (written es)) else p)).
Proof.
  intros Hd Hn Hseg Hsize Hlt Hrest Hg Hnone Hfrom He.
  cbn [WalReader.replay_loop]. destruct (Z.ltb_spec seg (segment from)); [lia|].
  assert ((if seg =? segment from then offset from else 0) = 0) as ->.
  { destruct (Z.eqb_spec seg (segment from)); lia. }
  cbn [WalReader.settle_unclean WalReader.unclean].
  rewrite (bind_returns _ _ (d, s) (d, s) (WalReader.mk_progress p None)) by done.
  pose proof (scan_junk d seg [] es junk s s' Hd Hseg Hg) as Hscan. cbn zeta in Hscan.
  change (written []) with (@nil Z) in Hscan. change (size []) with 0 in Hscan.
  cbn [app] in Hscan. rewrite Hsize in Hscan. specialize (Hscan Hn Hnone He). cbn [Z.add] in Hscan.
  run Hscan. cbn [WalReader.stopped_cleanly WalReader.consumed].
  set (b := all_zero (written es ++ junk) (size (written es)) n).
  set (e := if 0 <? size (written es) then _ else _).
  destruct Hrest as [->|[-> Hnext]]; [done|].
  cbn [WalReader.replay_loop]. destruct (Z.ltb_spec (seg + 1) (segment from)); [lia|].
  destruct (Z.eqb_spec (seg + 1) (segment from)); [lia|].
  assert (Hlast : ∀ cb, WalReader.scan_segment (seg + 1) 0 cb (d, s')
                        = ((d, s'), Returns (WalReader.mk_scan 0 true))).
  { intros cb. destruct (scan_segment_laid cb d s' (seg + 1) n [] []) as (r & Hr & Hr');
      [done|done|done|change (size (written ([] ++ []))) with 0; lia|done|].
    rewrite Hr' in Hr. exact Hr. }
  assert (Hsettle : WalReader.settle_unclean (seg + 1) 0 callback
    (WalReader.mk_progress e (if negb b then Some (seg, size (written es)) else None)) (d, s')
    = ((d, s'), Returns (WalReader.mk_progress e None))).
  { unfold WalReader.settle_unclean. cbn [WalReader.unclean WalReader.end_].
    destruct b eqn:Hb; cbn [negb]; [done|].
    pose proof (scan_junk d seg es [] junk s' s' Hd) as Hagain. cbn zeta in Hagain.
    change (written []) with (@nil Z) in Hagain. cbn [app] in Hagain.
    change (size []) with 0 in Hagain. rewrite Z.add_0_r, Hsize in Hagain.
    run (Hagain Hseg (Forall_nil_2 _) Hlt Hnone eq_refl). cbn [WalReader.consumed WalReader.stopped_cleanly].
    fold b. rewrite Hb, Z.ltb_irrefl. cbn [negb]. rewrite bind_assoc. run (Hlast None). done. }
  cbn [WalReader.unclean WalReader.end_]. run Hsettle. by run (Hlast callback).
Qed.

End unfinished.

(** The process dies in [append], with the next segment taken up where that was
    needed and the first [i] bytes of the entry copied: where it was writing,
    and the directory it leaves. *)
Definition after_capacity (e : Entry) (st : Wal.state) : WalWriter.state :=
  (WalWriter.ensure_capacity (entry_size e) (st.1, Wal.writer_ st.2)).1.

Definition dies_in_append (e : Entry) (i : nat) (st : Wal.state) : Disk :=
  let st1 := after_capacity e st in
  (copy_into (WalWriter.current_segment_ st1.2) (WalWriter.write_offset_ st1.2)
     (take i (encode e)) st1.1).1.

(** No entry is valid at the place it was writing to, or after it. *)
Definition nothing_valid_from (n seg at_ : Z) (d : Disk) : Prop :=
  ∀ off, at_ ≤ off → valid_entry_size_at (default [] (segments d !! seg)) n off = 0.

Lemma keys_insert (m : gmap Z (list Z)) i x :
  is_Some (m !! i) → (map_to_list (<[i := x]> m)).*1 ≡ₚ (map_to_list m).*1.
Proof.
  intros Hi. apply NoDup_Permutation; [apply NoDup_fst_map_to_list..|].
  intros j. rewrite !list_elem_of_fmap. split; intros ([j' y] & -> & Hin%elem_of_map_to_list); cbn.
  - destruct (decide (j' = i)) as [->|Hne].
    + destruct Hi as [z Hz]. exists (i, z). split; [done|]. by apply elem_of_map_to_list.
    + rewrite lookup_insert_ne in Hin by done. exists (j', y). split; [done|].
      by apply elem_of_map_to_list.
  - destruct (decide (j' = i)) as [->|Hne].
    + exists (i, x). split; [done|]. apply elem_of_map_to_list, lookup_insert_eq.
    + exists (j', y). split; [done|]. apply elem_of_map_to_list. by rewrite lookup_insert_ne.
Qed.

(** Opening the writer in a segment that is there. *)
Lemma open_writer_existing n d w p bytes :
  answers d = [] → WalWriter.min_entry_bytes * 2 ≤ n → segments d !! segment p = Some bytes →
  ∃ w', WalWriter.open n p (d, w) = ((with_directory d, w'), Returns ()) ∧
    WalWriter.current_position w' = p.
Proof.
  intros Hd Hn Hseg. unfold WalWriter.open.
  destruct (Z.ltb_spec n (WalWriter.min_entry_bytes * 2)); [lia|].
  run (modify_snd_eq _ d w). run (call_fst_quiet d (WalWriter.with_size w n) Hd).
  run (modify_fst_eq with_directory d (WalWriter.with_size w n)). set (d1 := with_directory d).
  run (modify_snd_eq _ d1 (WalWriter.with_size w n)). set (w1 := WalWriter.with_position _ _ _).
  assert (Hmake : WalWriter.create_and_map n (segment p) d1
                  = (d1, Returns (WalWriter.mk_opened (segment p) true))).
  { unfold WalWriter.create_and_map. run (gets_eq _ d1). cbn [segments d1 with_directory].
    rewrite Hseg. run (call_quiet d1 Hd). by run (call_quiet d1 Hd). }
  assert (Hopen : ∃ w2, WalWriter.open_segment (segment p) (d1, w1) = ((d1, w2), Returns ()) ∧
    WalWriter.current_position w2 = p).
  { unfold WalWriter.open_segment. run (modify_snd_eq _ d1 w1). set (w2 := WalWriter.with_counts w1 _ _).
    run (writer_eq d1 w2). change (WalWriter.segment_size_ w2) with n.
    run (on_fst_eq _ _ _ w2 _ Hmake). eexists. split; [reflexivity|]. by destruct p. }
  destruct Hopen as (w2 & Hopen & Hpos). run Hopen. run (writer_eq d1 w2).
  destruct (WalWriter.preparation_enabled_ w2); [|by exists w2].
  unfold WalWriter.start_helper. rewrite bind_assoc. run (refused_fst_quiet d1 w2 Hd).
  run (modify_snd_eq _ d1 w2). set (w3 := WalWriter.with_helper w2 _ _). run (writer_eq d1 w3).
  unfold WalWriter.request_preparation. run (writer_eq d1 w3). cbn [negb WalWriter.helper_running_ w3 WalWriter.with_helper].
  case_if; [by exists w3|]. run (modify_snd_eq _ d1 w3). unfold WalWriter.wake_helper.
  match goal with |- context [(d1, ?x)] => set (w4 := x) end.
  run (refused_fst_quiet d1 w4 Hd). by exists w4.
Qed.

(** Where the writer stood before the append is where the log ends. *)
Lemma capacity_position n parts k cur parts' k' cur' d w d1 w1 :
  writing n 0 parts k cur d w → (cur ≠ [] ∨ k = 0%nat) →
  writing n 0 parts' k' cur' d1 w1 → concat parts' = concat parts →
  (k ≤ k' ≤ S k)%nat → grows k parts parts' →
  (if 0 <? size (written cur') then mk_position (Z.of_nat k') (size (written cur'))
   else end_after (mk_position 0 0) 0 (take k' parts'))
  = mk_position (Z.of_nat k) (size (written cur)).
Proof.
  intros Hw Hend Hw' Hc Hk [Htake Hgr].
  pose proof (writing_here _ _ _ _ _ _ _ Hw) as Hcur.
  pose proof (writing_here _ _ _ _ _ _ _ Hw') as Hcur'.
  destruct (Hgr k cur Hcur) as [added Hadd].
  pose proof (concat_split _ _ _ _ _ _ _ Hw) as Hs. pose proof (concat_split _ _ _ _ _ _ _ Hw') as Hs'.
  rewrite Hc, Hs in Hs'. pose proof (size_nonneg (written cur')).
  destruct (decide (k' = k)) as [->|Hne].
  - rewrite Htake in Hs'. apply app_inv_head in Hs'. subst cur'.
    destruct (Z.ltb_spec 0 (size (written cur))); [done|].
    assert (cur = []) as -> by (apply written_nil; lia).
    destruct Hend as [?| ->]; [done|]. done.
  - assert (k' = S k) as -> by lia. rewrite (take_S_r _ _ _ Hadd), Htake, concat_app in Hs'.
    cbn [concat] in Hs'. rewrite app_nil_r, <- app_assoc in Hs'. apply app_inv_head in Hs'.
    assert (added = [] ∧ cur' = []) as [-> ->].
    { apply (f_equal length) in Hs'. rewrite !length_app in Hs'.
      split; apply nil_length_inv; lia. }
    cbn. rewrite app_nil_r in Hadd.
    assert (Hlast : take (S k) parts' !! k = Some cur) by (rewrite lookup_take by lia; by case_decide; [|lia]).
    assert (Hno : ∀ i es, take (S k) parts' !! i = Some es → (k < i)%nat → es = []).
    { intros i es Hi Hki. apply lookup_lt_Some in Hi. rewrite length_take in Hi. lia. }
    destruct (decide (cur = [])) as [->|Hcne].
    + destruct Hend as [?| ->]; [done|]. apply end_after_empty. intros [|i] es Hi.
      * congruence.
      * apply (Hno (S i) es Hi). lia.
    + by rewrite (end_after_at _ _ _ k cur).
Qed.

(** What the death leaves: segment [k] ends in part of an entry, and everything
    else is as the writer left it. *)
Record left_by_death (n : Z) (parts : list (list Entry)) (k : nat) (cur : list Entry)
    (junk : list Z) (d : Disk) (log : list WalEntryContents) : Prop := mk_left {
  left_quiet : answers d = [];
  left_directory : has_directory d = true;
  left_keys : (map_to_list (segments d)).*1 ≡ₚ seqZ 0 (Z.of_nat (length parts));
  left_max : Z.of_nat (length parts) ≤ 1000000;
  left_here : parts !! k = Some cur;
  left_others : ∀ j es, parts !! j = Some es → j ≠ k →
    segments d !! Z.of_nat j = Some (laid n es);
  left_junk : segments d !! Z.of_nat k = Some (written cur ++ junk);
  left_size : size (written cur ++ junk) = n ∧ size (written cur) < n;
  left_ahead : (length parts ≤ k + 2)%nat ∧ (parts !! S k = None ∨ parts !! S k = Some []);
  left_good : Forall (Forall good_entry) parts ∧ Forall (λ es, size (written es) ≤ n) parts;
  left_entries : concat (take k parts) ++ cur = entries log
}.

Lemma death_leaves n parts k cur d w log e i :
  log_state n parts k cur d w log → Z.of_nat (S k) < 1000000 →
  good_entry e → entry_size e ≤ n →
  ∃ parts' k' cur' junk,
    left_by_death n parts' k' cur' junk (dies_in_append e i (d, w)) log ∧
    WalWriter.current_segment_ (after_capacity e (d, w)).2 = Z.of_nat k' ∧
    WalWriter.write_offset_ (after_capacity e (d, w)).2 = size (written cur') ∧
    (if 0 <? size (written cur') then mk_position (Z.of_nat k') (size (written cur'))
     else end_after (mk_position 0 0) 0 (take k' parts'))
    = mk_position (Z.of_nat k) (size (written cur)) ∧ (k ≤ k')%nat.
Proof.
  intros Hl Hroom Hg Hfit. pose proof (log_writing _ _ _ _ _ _ _ Hl) as Hw.
  destruct (ensure_capacity_ok n 0 parts k cur d (Wal.writer_ w) (entry_size e) Hw)
    as (m & parts' & k' & cur' & w1 & Hens & Hw1 & Hc & Hsize & Hk & Hgr); [lia|done|].
  set (d1 := with_segments d m) in *.
  assert (Hafter : after_capacity e (d, w) = (d1, w1)).
  { unfold after_capacity. cbn [fst snd]. by rewrite Hens. }
  pose proof (writing_holds _ _ _ _ _ _ _ Hw1) as Hh.
  assert (Hseg : segments d1 !! Z.of_nat k' = Some (laid n cur')).
  { by rewrite (holds_segments _ _ _ _ Hh), part_at_first, (writing_here _ _ _ _ _ _ _ Hw1). }
  assert (Htake : size (take i (encode e)) ≤ entry_size e).
  { rewrite <- size_encode. unfold size. rewrite length_take. lia. }
  pose proof (entry_size_pos e). pose proof (size_nonneg (take i (encode e))).
  set (junk := take i (encode e) ++ zeros (n - size (written cur') - size (take i (encode e)))).
  assert (Hdies : dies_in_append e i (d, w)
    = with_segments d1 (<[Z.of_nat k' := written cur' ++ junk]> (segments d1))).
  { unfold dies_in_append. rewrite Hafter. cbn [fst snd].
    rewrite (writing_segment _ _ _ _ _ _ _ Hw1), (writing_offset _ _ _ _ _ _ _ Hw1).
    change (0 + Z.of_nat k') with (Z.of_nat k'). unfold copy_into. rewrite Hseg, size_laid by lia.
    destruct (Z.leb_spec (size (written cur') + size (take i (encode e))) n); [|lia].
    rewrite set_segment_eq. cbn [fst]. unfold laid. by rewrite splice_zeros by lia. }
  exists parts', k', cur', junk. rewrite Hafter, Hdies. cbn [snd]. split_and!.
  - constructor; cbn [segments with_segments].
    + apply Hh.
    + apply Hw1.
    + rewrite keys_insert by (by rewrite Hseg). by eapply holds_keys.
    + pose proof (holds_numbers _ _ _ _ Hh). lia.
    + apply Hw1.
    + intros j es Hj Hne. rewrite lookup_insert_ne by lia.
      by rewrite (holds_segments _ _ _ _ Hh), part_at_first, Hj.
    + by rewrite lookup_insert_eq.
    + unfold junk. rewrite !size_app, size_zeros; lia.
    + split; [apply Hw1|]. destruct (parts' !! S k') as [es|] eqn:Hes; [right|by left].
      f_equal. eapply writing_later; [exact Hw1|done|lia].
    + split; apply Hh.
    + rewrite <- (concat_split _ _ _ _ _ _ _ Hw1), Hc. apply Hl.
  - rewrite (writing_segment _ _ _ _ _ _ _ Hw1). lia.
  - apply Hw1.
  - eapply capacity_position; [exact Hw|apply Hl|exact Hw1|done|done|done].
  - lia.
Qed.

Lemma replay_after_death n parts k cur junk d log w :
  left_by_death n parts k cur junk d log → Forall (fits n) log →
  nothing_valid_from n (Z.of_nat k) (size (written cur)) d →
  Wal.record_count_ w = 0 → Wal.last_seq_no_ w = 0 →
  WalReader.replay (mk_position 0 0) (Some (Wal.fw_cb collect)) (d, (w, []))
    = ((d, (Wal.with_counts w (Z.of_nat (length log)) (Z.of_nat (length log)),
            numbered_from 1 log)),
       Returns (if 0 <? size (written cur) then mk_position (Z.of_nat k) (size (written cur))
                else end_after (mk_position 0 0) 0 (take k parts))).
Proof.
  intros Hleft Hfits Hnothing Hcount Hlast.
  pose proof (left_quiet _ _ _ _ _ _ _ Hleft) as Hd.
  pose proof (left_here _ _ _ _ _ _ _ Hleft) as Hcur.
  pose proof (lookup_lt_Some _ _ _ Hcur) as Hk.
  destruct (left_size _ _ _ _ _ _ _ Hleft) as [Hsize Hlt].
  destruct (left_ahead _ _ _ _ _ _ _ Hleft) as [Hfew Hnext].
  destruct (left_good _ _ _ _ _ _ _ Hleft) as [Hg Hf].
  pose proof (size_nonneg (written cur)).
  assert (Hall : each (Wal.fw_cb collect) (concat (take k parts) ++ cur) (w, [])
    = ((Wal.with_counts w (Z.of_nat (length log)) (Z.of_nat (length log)), numbered_from 1 log),
       Returns ())).
  { rewrite (left_entries _ _ _ _ _ _ _ Hleft). unfold entries.
    rewrite (each_collects n) by done. cbn [app]. rewrite Hcount, Hlast.
    do 4 f_equal. destruct log; cbn [length]; lia. }
  apply each_app_returns in Hall as (s1 & Hbefore & Hhere).
  unfold WalReader.replay. run (disk_eq d (w, [])).
  rewrite (left_directory _ _ _ _ _ _ _ Hleft). cbn [negb].
  run (call_fst_quiet d (w, ([] : list (Z * WalEntryContents))) Hd).
  rewrite (names_of_keys d 0 _ (left_keys _ _ _ _ _ _ _ Hleft)) by apply Hleft.
  assert (Hsplit : ∃ rest, seqZ 0 (Z.of_nat (length parts))
            = seqZ 0 (Z.of_nat (length (take k parts))) ++ Z.of_nat k :: rest ∧
            (rest = [] ∨ (rest = [Z.of_nat k + 1] ∧
               segments d !! (Z.of_nat k + 1) = Some (laid n [])))).
  { rewrite length_take, Nat.min_l by lia.
    replace (Z.of_nat (length parts)) with (Z.of_nat k + Z.of_nat (length parts - k)) by lia.
    rewrite seqZ_app by lia. cbn [Z.add].
    destruct Hnext as [Hnone|Hempty].
    - apply lookup_ge_None in Hnone. exists []. split; [|by left].
      by replace (length parts - k)%nat with 1%nat by lia.
    - pose proof (lookup_lt_Some _ _ _ Hempty). exists [Z.of_nat k + 1].
      replace (length parts - k)%nat with 2%nat by lia. split.
      { rewrite (seqZ_cons (Z.of_nat k)), (seqZ_cons (Z.succ _)), (seqZ_nil (Z.succ _)) by lia. done. }
      right. split; [done|].
      replace (Z.of_nat k + 1) with (Z.of_nat (S k)) by lia.
      apply (left_others _ _ _ _ _ _ _ Hleft _ _ Hempty). lia. }
  destruct Hsplit as (rest & -> & Hrest).
  rewrite (replay_loop_through (Wal.fw_cb collect) d n (mk_position 0 0) (Z.of_nat k :: rest)
    (take k parts) 0 (mk_position 0 0) (w, []) s1);
    [|done|lia| |by apply Forall_take|by apply Forall_take|right; split; reflexivity|done].
  - apply (replay_loop_junk _ d n _ _ _ cur junk rest s1);
      [done|lia|apply Hleft|done|done|done| | | |done].
    + exact (Forall_lookup_1 _ _ _ _ Hg Hcur).
    + unfold nothing_valid_from in Hnothing.
      by rewrite (left_junk _ _ _ _ _ _ _ Hleft) in Hnothing.
    + cbn. lia.
  - intros i es Hi. apply lookup_take_Some in Hi as [Hi Hik]. cbn [Z.add].
    apply (left_others _ _ _ _ _ _ _ Hleft); [done|lia].
Qed.

(** A death part way through [append] costs the record being appended and
    no other.  Where the bytes that were copied do not pass for an entry, which
    is what the checksum is for, the process that starts next reads back
    exactly the records that were there, in order, and its writer stands where
    the last one stood, so that the next record takes the place of the
    unfinished one. *)
Theorem death_in_append_costs_one_record (n : Z) (st : Wal.state)
  (log : list WalEntryContents) (c : WalEntryContents) (i : nat)
  (Hn : WalWriter.min_entry_bytes * 2 ≤ n < 2 ^ 64)
  (Hreach : reachable n st log) (Hok : allowed n (Append c) st log) :
  let e := entry_of (Z.of_nat (length log) + 1) c in
  let left := dies_in_append e i st in
  nothing_valid_from n (WalWriter.current_segment_ (after_capacity e st).2)
    (WalWriter.write_offset_ (after_capacity e st).2) left →
  ∃ st', start n Wal.IgnoreSnapshot left
           = (st', numbered_from 1 log, Returns (Z.of_nat (length log))) ∧
    Wal.record_count_ st'.2 = Z.of_nat (length log) ∧
    WalWriter.current_position (Wal.writer_ st'.2)
      = WalWriter.current_position (Wal.writer_ st.2).
Proof.
  cbn zeta. set (e := entry_of _ c). intros Hnothing.
  pose proof (reachable_in_use n st log Hn Hreach) as (parts & k & cur & Hl).
  destruct st as [d w]. cbn [fst snd] in *.
  destruct Hok as (Hfit & Hlen & Hroom). cbn [snd] in Hroom.
  pose proof (log_writing _ _ _ _ _ _ _ Hl) as Hw.
  rewrite (writing_segment _ _ _ _ _ _ _ Hw) in Hroom.
  destruct (death_leaves n parts k cur d w log e i Hl)
    as (parts' & k' & cur' & junk & Hleft & Hseg & Hoff & Hpos & Hk); [lia| | |].
  { apply (entry_of_good n); [done|]. unfold int_fits. lia. }
  { unfold e. rewrite size_entry_of. destruct Hfit as (_ & _ & _ & _ & ?). lia. }
  rewrite Hseg, Hoff in Hnothing. set (d2 := dies_in_append e i (d, w)) in *.
  set (w0 := Wal.mk n WalWriter.initial 0 0).
  pose proof (replay_after_death n parts' k' cur' junk d2 log w0 Hleft
    (log_fits _ _ _ _ _ _ _ Hl) Hnothing eq_refl eq_refl) as Hreplay.
  rewrite Hpos in Hreplay. set (w1 := Wal.with_counts w0 _ _) in *.
  assert (∃ bytes, segments d2 !! Z.of_nat k = Some bytes) as [bytes Hbytes].
  { pose proof (lookup_lt_Some _ _ _ (left_here _ _ _ _ _ _ _ Hleft)).
    destruct (decide (k = k')) as [->|Hne]; [eexists; exact (left_junk _ _ _ _ _ _ _ Hleft)|].
    destruct (lookup_lt_is_Some_2 parts' k) as [es Hes]; [lia|].
    eexists. exact (left_others _ _ _ _ _ _ _ Hleft k es Hes Hne). }
  destruct (open_writer_existing n d2 (Wal.writer_ w1)
    (mk_position (Z.of_nat k) (size (written cur))) bytes) as (wr & Hopen & Hcurrent);
    [apply Hleft|lia|done|].
  unfold start, Wal.open.
  run (on_wal_eq _ _ _ ([] : list (Z * WalEntryContents)) _ _ _ (modify_snd_eq _ d2 Wal.initial)).
  fold w0. run (mret_eq (None : option WalPosition) (d2, (w0, ([] : list (Z * WalEntryContents))))).
  cbn [default from_option]. run Hreplay.
  run (on_wal_eq _ _ _ (numbered_from 1 log) _ _ _ (on_writer_eq _ _ w1 _ _ _ Hopen)).
  eexists. split; [reflexivity|]. split; [done|].
  transitivity (WalWriter.current_position wr); [done|]. rewrite Hcurrent.
  unfold WalWriter.current_position.
  by rewrite (writing_segment _ _ _ _ _ _ _ Hw), (writing_offset _ _ _ _ _ _ _ Hw).
Qed.

(** Only the offsets of the segment need to be looked at. *)
Lemma nothing_valid_check n seg at_ d :
  forallb (λ off, valid_entry_size_at (default [] (segments d !! seg)) n off =? 0)
    (seqZ at_ (n - at_)) = true →
  nothing_valid_from n seg at_ d.
Proof.
  intros Hall off Hoff. rewrite forallb_forall in Hall.
  destruct (decide (off < n)) as [Hlt|Hge].
  - apply Z.eqb_eq, Hall, list_elem_of_In, elem_of_seqZ. lia.
  - unfold valid_entry_size_at, entry_header_size, checksum_size.
    destruct (Z.ltb_spec n (off + 24 + 4)); [done|lia].
Qed.

(** One record in the log; the death comes forty bytes into the second, which
    is the first of the next segment. *)
Definition one_record : Wal.state := run_steps 80 [Append (small_record 1)] example_start.

(** ** Two states the log does not come back from *)

(** A record of [m] bytes. *)
Definition record_of (m : nat) : WalEntryContents := mk_contents 1 1 1 (replicate m 7).

(** The log holds one record, and the death comes two bytes before the end of
    the second, one of thirty bytes.  The process starts again, as it should;
    a shorter record takes the place of the unfinished one, and the next goes
    to the next segment. *)
Definition before_death : Wal.state :=
  run_steps 120 [Append (record_of 0)] (start 120 Wal.IgnoreSnapshot no_disk).1.1.
Definition left_behind : Disk := dies_in_append (entry_of 2 (record_of 30)) 70 before_death.
Definition after_death : Wal.state := (start 120 Wal.IgnoreSnapshot left_behind).1.1.
Definition carried_on : Wal.state :=
  run_steps 120 [Append (record_of 5); Append (record_of 20)] after_death.

(** An unfinished entry that is overwritten by a shorter one can make the
    log unusable.  The bytes of it that are left after the shorter entry are
    neither an entry nor unwritten space; once the next record has gone to the
    next segment, they are taken for damage, and the next process to start
    refuses the log, though no record in it is damaged: both records appended
    after the death were appended without an error. *)
Theorem leftover_bytes_lock_the_log :
  (start 120 Wal.IgnoreSnapshot left_behind).2 = Returns 1 ∧
  (step_wal 120 (Append (record_of 5)) after_death).2 = Returns () ∧
  (step_wal 120 (Append (record_of 20))
     (step_wal 120 (Append (record_of 5)) after_death).1).2 = Returns () ∧
  (start 120 Wal.IgnoreSnapshot carried_on.1).2 = Throws PubSubItcException.
Proof. vm_compute. repeat split. Qed.

(** The disk is full when the helper fills the next segment: the file is made
    and the first write to it is refused.  From then on nothing is refused. *)
Definition disk_full : Wal.state :=
  (step_wal 80 HelperTurn (with_answers one_record.1 [false; true], one_record.2)).1.

(** A segment whose filling was refused is used as it is.  The helper keeps
    the failure for the writer, but the file stays, shorter than a segment; the
    writer, and every process that starts later, finds that it exists, maps it
    without looking at its size, and the first record that goes to it is
    written past the end of the file, which kills the process. *)
Theorem refused_fill_kills_the_writer :
  (step_wal 80 HelperTurn (with_answers one_record.1 [false; true], one_record.2)).2
    = Returns () ∧
  answers disk_full.1 = [] ∧ segments disk_full.1 !! 1 = Some [] ∧
  (step_wal 80 (Append (small_record 2)) disk_full).2 = Throws UndefinedBehaviour ∧
  (start 80 Wal.IgnoreSnapshot disk_full.1).2 = Returns 1 ∧
  (step_wal 80 (Append (small_record 2)) (start 80 Wal.IgnoreSnapshot disk_full.1).1.1).2
    = Throws UndefinedBehaviour.
Proof. vm_compute. repeat split. Qed.
