(* ===== verification/RecordLog.v ===== *)
(** What a replicated log asks of the write-ahead log under it.

    [RecordLog] lists the calls of [Wal] that ReplicatedWal.cpp makes, each as
    the state it leaves and its outcome, and [RecordLogLaws] what they promise:
    the log is the list of its records, numbered from one.  RecordLogWal.v gives
    the instance for [Wal]; ReplicatedWal.v is written and proved against the
    class. *)

From S2P Require Import Prelude.
From S2P Require Import WalEntry.
From S2P Require Import WalWriter.
From S2P Require Import WalRefinement.
#[local] Open Scope Z_scope.

Class RecordLog (W : Type) := {
  (** [Wal::append]. *)
  log_append : Z → WalEntryContents → comp W unit;
  (** [Wal::truncate_after]. *)
  log_truncate_after : Z → comp W unit;
  (** [Wal::last_seq_no] and [Wal::write_position]. *)
  log_last_seq_no : W → Z;
  log_write_position : W → WalPosition;
  (** [Wal::open] of the directory, reading every record: what the callback was
      given, also when [open] throws. *)
  log_open : W → W * list (Z * WalEntryContents) * outcome Z;
  (** [WalReader::replay] from [Wal::scan_start_for] of a record: what the
      callback is given. *)
  log_replay_for : Z → comp W (list (Z * WalEntryContents))
}.

(** The largest position [WalFollowingPositions] publishes. *)
Definition offset_bits : Z := 40.
Definition largest_offset : Z := 2 ^ offset_bits - 1.
Definition largest_segment : Z := 2 ^ (64 - offset_bits) - 1.

Definition position_fits (p : WalPosition) : bool :=
  (segment p <=? largest_segment) && (offset p <=? largest_offset).

Class RecordLogLaws (W : Type) `{RecordLog W} := {
  (** The state holds these records. *)
  log_holds : W → list WalEntryContents → Prop;
  (** There is room for one more. *)
  log_room : W → WalEntryContents → Prop;
  log_append_law w l c :
    log_holds w l → log_room w c →
    ∃ w', log_append (Z.of_nat (length l) + 1) c w = (w', Returns ()) ∧
          log_holds w' (l ++ [c]);
  log_truncate_law w l n :
    log_holds w l → 0 ≤ n ≤ Z.of_nat (length l) →
    ∃ w', log_truncate_after n w = (w', Returns ()) ∧
          log_holds w' (take (Z.to_nat n) l);
  log_last_law w l :
    log_holds w l → log_last_seq_no w = Z.of_nat (length l);
  log_position_law w l :
    log_holds w l → position_fits (log_write_position w) = true;
  log_open_law w l :
    log_holds w l →
    ∃ w', log_open w = (w', numbered_from 1 l, Returns (Z.of_nat (length l))) ∧
          log_holds w' l;
  (** Nothing is left out from the record on; records before it may be read. *)
  log_replay_law w l n :
    log_holds w l → 1 ≤ n →
    ∃ k, (k < Z.to_nat n)%nat ∧
      log_replay_for n w
        = (w, Returns (numbered_from (1 + Z.of_nat k) (drop k l)))
}.

(** ** A log that is the list of its records *)

#[export] Instance list_log : RecordLog (list WalEntryContents) := {
  log_append _ c := λ l, (l ++ [c], Returns ());
  log_truncate_after n := λ l, (take (Z.to_nat n) l, Returns ());
  log_last_seq_no l := Z.of_nat (length l);
  log_write_position l := mk_position 0 (Z.of_nat (length l));
  log_open l := (l, numbered_from 1 l, Returns (Z.of_nat (length l)));
  log_replay_for n := λ l,
    (l, Returns (numbered_from n (drop (Z.to_nat (n - 1)) l)))
}.

#[export] Program Instance list_log_laws : RecordLogLaws (list WalEntryContents) := {
  log_holds l l' := l = l' ∧ Z.of_nat (length l) ≤ largest_offset;
  log_room l _ := Z.of_nat (length l) + 1 ≤ largest_offset
}.
Next Obligation.
  intros w l c [-> _] Hroom. cbn in *. eexists. split; [done|]. split; [done|].
  rewrite length_app. cbn [length]. lia.
Qed.
Next Obligation.
  intros w l n [-> Hl] _. cbn. eexists. split; [done|]. split; [done|].
  rewrite length_take. lia.
Qed.
Next Obligation. intros w l [-> _]. done. Qed.
Next Obligation.
  intros w l [-> Hl]. apply andb_true_iff. split; apply Z.leb_le; [done|].
  exact Hl.
Qed.
Next Obligation. intros w l [-> Hl]. eexists. split; [done|]. done. Qed.
Next Obligation.
  intros w l n [-> Hl] Hn. exists (Z.to_nat (n - 1)). split; [lia|]. cbn.
  do 3 f_equal. lia.
Qed.
