(* ===== verification/RecordLogWal.v ===== *)
(** The write-ahead log of [Wal] is the log a replicated log needs: the
    instance of [RecordLog] with its laws.  The segment size is fixed, below
    2^40 bytes, so that every position can be published. *)

From stdpp Require Import sorting.
From S2P Require Import Prelude.
From S2P Require Import WalEntry.
From S2P Require Import WalWriter.
From S2P Require Import WalReader.
From S2P Require Import Wal.
From S2P Require Import WalLayout.
From S2P Require Import WalLog.
From S2P Require Import WalRefinement.
From S2P Require Import WalTruncate.
From S2P Require Import WalTheorems.
From S2P Require Import RecordLog.
#[local] Open Scope Z_scope.

(** The callback of [handle_position_request], which sends what it is given. *)
Definition give_record (seq_no : Z) (payload : list Z)
    : comp (list (Z * WalEntryContents)) unit :=
  match read_wal_entry_contents payload with
  | None => mret ()
  | Some c => modify (λ l, l ++ [(seq_no, c)])
  end.

Definition replay_for (seq_no : Z) : comp Wal.state (list (Z * WalEntryContents)) :=
  λ st,
    match Wal.scan_start_for seq_no st with
    | (st, Throws e) => (st, Throws e)
    | (st, Returns start) =>
        let r := WalReader.replay start (Some give_record) (st.1, []) in
        ((r.1.1, st.2), match r.2 with Returns _ => Returns r.1.2 | Throws e => Throws e end)
    end.

Definition wal_log (n : Z) : RecordLog Wal.state := {|
  log_append seq_no c :=
    Wal.append seq_no (pdu_id c) (record_bytes c) (wall_time_ns c) (leader_epoch c);
  log_truncate_after := Wal.truncate_after;
  log_last_seq_no st := Wal.last_seq_no_ st.2;
  log_write_position st := WalWriter.current_position (Wal.writer_ st.2);
  log_open st := start n Wal.IgnoreSnapshot st.1;
  log_replay_for := replay_for
|}.

(** Room for a record: it fits in a segment, its number in 63 bits, and the
    next segment's in six digits. *)
Definition wal_room (n : Z) (st : Wal.state) (c : WalEntryContents) : Prop :=
  fits n c ∧ Wal.record_count_ st.2 + 1 < 2 ^ 63 ∧
  WalWriter.current_segment_ (Wal.writer_ st.2) + 1 < 1000000.

Lemma each_gives n log : ∀ from l,
  Forall (fits n) log →
  each give_record (entries_from from log) l = (l ++ numbered_from from log, Returns ()).
Proof.
  induction log as [|c log IH]; intros from l Hfit; [by cbn; rewrite app_nil_r|].
  apply Forall_cons_1 in Hfit as [(Hw & He & Hp & _) Hfit].
  cbn [entries_from each].
  assert (Hcb : give_record (id (entry_of from c)) (payload (entry_of from c)) l
                = (l ++ [(from, c)], Returns ())).
  { unfold give_record. cbn [payload entry_of id]. rewrite contents_read_back by done.
    by destruct c. }
  run Hcb. rewrite IH by done. by rewrite <- app_assoc.
Qed.

Lemma replay_for_ok n st log seq_no :
  in_use n st log → 1 ≤ seq_no →
  ∃ k, (k < Z.to_nat seq_no)%nat ∧
    replay_for seq_no st = (st, Returns (numbered_from (1 + Z.of_nat k) (drop k log))).
Proof.
  destruct st as [d w]. intros (parts & k & cur & Hl) Hseq. cbn [fst snd] in *.
  pose proof (log_writing _ _ _ _ _ _ _ Hl) as Hw.
  pose proof (writing_holds _ _ _ _ _ _ _ Hw) as Hh.
  pose proof (lookup_lt_Some _ _ _ (writing_here _ _ _ _ _ _ _ Hw)) as Hk.
  destruct (scan_start_sound n parts d log Hh (log_entries _ _ _ _ _ _ _ Hl)
    (proj2 (writing_size _ _ _ _ _ _ _ Hw)) w seq_no k) as (j & es & Hscan & Hj & Hbefore);
    [by rewrite (writing_segment _ _ _ _ _ _ _ Hw)|done|lia|].
  exists (records_before parts j). split; [lia|]. unfold replay_for. rewrite Hscan. cbn [fst snd].
  destruct (concat_drop_skipped parts j [] es log Hj (log_entries _ _ _ _ _ _ _ Hl)) as [Hrest _].
  cbn zeta in Hrest. rewrite app_nil_r in Hrest. fold (records_before parts j) in Hrest.
  pose proof (replay_from_middle give_record n 0 (take j parts) [] es (drop (S j) parts) d []
    (numbered_from (1 + Z.of_nat (records_before parts j)) (drop (records_before parts j) log)))
    as Hreplay.
  cbn [app] in Hreplay. rewrite (take_drop_middle _ _ _ Hj) in Hreplay. specialize (Hreplay Hh).
  rewrite length_take, Nat.min_l in Hreplay by (apply lookup_lt_Some in Hj; lia).
  cbn zeta in Hreplay. rewrite Z.add_0_l in Hreplay. change (size (written [])) with 0 in Hreplay.
  rewrite Hreplay; [done|].
  rewrite Hrest, (each_gives n) by (apply Forall_drop, Hl). done.
Qed.

Program Definition wal_log_laws (n : Z) (Hn : n ≤ largest_offset) :
    @RecordLogLaws Wal.state (wal_log n) := {|
  log_holds := in_use n;
  log_room := wal_room n
|}.
Next Obligation.
  intros n Hn [d w] l c Huse (Hfit & Hcount & Hroom). cbn [fst snd] in *.
  assert (Hlen : Wal.record_count_ w = Z.of_nat (length l) ∧ Wal.last_seq_no_ w = Z.of_nat (length l)).
  { destruct Huse as (parts & k & cur & Hl). apply Hl. }
  destruct (step_refines n (d, w) l (Append c) Huse) as (st' & Hst & Huse').
  { cbn. split_and!; [done|lia|done]. }
  exists st'. split; [|done]. rewrite <- Hst. cbn [step_wal]. run (wal_eq d w).
  by rewrite (proj2 Hlen).
Qed.
Next Obligation.
  intros n Hn st l m Huse Hm.
  destruct (step_refines n st l (TruncateAfter m) Huse Hm) as (st' & Hst & Huse'). by exists st'.
Qed.
Next Obligation. intros n Hn [d w] l (parts & k & cur & Hl). apply Hl. Qed.
Next Obligation.
  intros n Hn [d w] l (parts & k & cur & Hl). cbn [fst snd] in *.
  pose proof (log_writing _ _ _ _ _ _ _ Hl) as Hw.
  pose proof (disk_ahead _ _ _ _ _ _ (log_state_disk _ _ _ _ _ _ _ Hl)).
  pose proof (holds_fit _ _ _ _ (writing_holds _ _ _ _ _ _ _ Hw)) as Hf.
  eapply Forall_lookup_1 in Hf; [|apply Hw].
  pose proof (writing_segment _ _ _ _ _ _ _ Hw). pose proof (writing_offset _ _ _ _ _ _ _ Hw).
  apply andb_true_iff. split; apply Z.leb_le;
    unfold log_write_position, wal_log, WalWriter.current_position; cbn [segment offset snd].
  - change largest_segment with 16777215. lia.
  - lia.
Qed.
Next Obligation.
  intros n Hn [d w] l (parts & k & cur & Hl). cbn [fst snd] in *.
  destruct (start_refines n parts k cur d l Wal.IgnoreSnapshot (log_state_disk _ _ _ _ _ _ _ Hl))
    as (st & c & Hst & Huse & Hc). specialize (Hc (or_introl eq_refl)). subst c.
  exists st. cbn [log_open wal_log fst]. by rewrite Hst.
Qed.
Next Obligation. intros n Hn st l m Huse Hm. by apply (replay_for_ok n). Qed.
