(* ===== verification/ReplicatedWal.v ===== *)
(** The log a pair keeps together: libraries/pubsub_itc_fw/src/ReplicatedWal.cpp.

    [ReplicatedWal] is the class, one definition per member function: numbering
    and writing records as the leader, copying them as the follower, deciding
    what is committed, the repair of a follower's log, and the calls of the
    lease agent (PairLeaseAgent.v) that decide the role.  The log itself is any
    [RecordLog] (RecordLogWal.v gives the one the code uses).

    What the object calls and tells is listed in [outputs], in order.  What the
    links and the thread that reads the log for a follower answer,
    [peer_connected] and [reading_has_stopped], is part of the state and is set
    by whoever runs the object.  The record of command identifiers, the log
    lines, the gauges and the test events are left out, and with them the
    members only they read. *)

From S2P Require Import Prelude.
From S2P Require Import Lease.
From S2P Require Import PairLeaseAgent.
From S2P Require Import LogEpochTable.
From S2P Require Import WalEntry.
From S2P Require Import WalWriter.
From S2P Require Import RecordLog.

#[local] Open Scope Z_scope.
#[local] Open Scope venue_scope.

Module ReplicatedWal.

Inductive ReplicaRole := unknown | leader | follower.

#[global] Instance ReplicaRole_eq_dec : EqDecision ReplicaRole.
Proof. solve_decision. Defined.

(** ** The messages of replication *)

Record LogPositionReply := mk_reply {
  reply_seq_no : Z;
  reply_epoch : Z;
  reply_agreed : bool;
  ask_again : bool
}.

Definition asks_again : LogPositionReply := mk_reply 0 0 false true.

(** The calls on [ReplicationLinksInterface], [LeaseLinksInterface],
    [PeerCatchUpInterface], [ReplicatedWalEventsInterface] and
    [WalFollowingPositions]. *)
Inductive output :=
  | ToVoter (m : sending)
  | SendRecord (seq_no : Z) (c : WalEntryContents)
  | SendAck (on seq_no : Z)
  | SendPositionRequest (last_seq_no last_epoch : Z)
  | SendPositionReply (r : LogPositionReply)
  | StartPeerCatchUp (after_seq_no : Z)
  | StopPeerCatchUp
  | RoleChanged (from to : ReplicaRole) (epoch : Z)
  | CommittedThrough (seq_no : Z)
  | WrittenAsFollower (seq_no : Z) (c : WalEntryContents)
  | DiscardedAfter (seq_no : Z)
  | GrantedLeaseToPeer (at_ : Z)
  | ReadAtOpen (seq_no : Z) (c : WalEntryContents)
  | PublishWritten (seq_no : Z) (end_ : WalPosition)
  | PublishCommitted (seq_no : Z).

(** ** The object *)

Record ReplicatedWalConfiguration := mk_configuration {
  ha_enabled : bool;
  pair_id : Z;
  instance_id : Z;
  third_voter_id : Z;
  lease : LeaseTiming.t
}.

(** What the object is given: whether it has [peer_catch_up_] and [positions_],
    and what its links and its catch-up answer. *)
Record surroundings := mk_surroundings {
  peer_catch_up_ : bool;
  positions_ : bool;
  peer_connected : bool;
  reading_has_stopped : bool
}.

Record lease_members := mk_lease_members {
  lease_agent_ : option PairLeaseAgent.t;
  owned_promise_recorder_ : BackgroundPromiseRecorder.t;
  epoch_recording_ : EpochRecording.t
}.

Record follower_members := mk_follower_members {
  highest_replicated_seq_no_ : Z;
  follower_wal_agreed_ : bool;
  last_position_request_at_ : Z
}.

Record leader_members := mk_leader_members {
  follower_wal_matches_ : bool;
  peer_acked_through_ : Z;
  peer_catching_up_ : bool;
  peer_catch_up_after_ : Z;
  peer_handed_over_at_ : Z;
  unanswered_request_ : option (Z * Z);
  waiting_since_ : option Z;
  running_alone_ : bool;
  committed_through_ : Z
}.

Section log.
Context {W : Type} `{RecordLog W}.

Record t := mk {
  configuration_ : ReplicatedWalConfiguration;
  around : surroundings;
  wal_ : W;
  log_epochs_ : LogEpochTable.t;
  on_leases : lease_members;
  role_ : ReplicaRole;
  epoch_ : Z;
  next_seq_no_ : Z;
  as_follower : follower_members;
  as_leader : leader_members;
  outputs : list output
}.

Definition follower_acknowledgement_timeout : Z := 100.
Definition position_request_interval : Z := 1000.

(** *** Changing members *)

Definition with_log (s : t) (w : W) (tb : LogEpochTable.t) : t :=
  mk (configuration_ s) (around s) w tb (on_leases s) (role_ s) (epoch_ s)
     (next_seq_no_ s) (as_follower s) (as_leader s) (outputs s).

Definition with_leases (s : t) (l : lease_members) (out : list output) : t :=
  mk (configuration_ s) (around s) (wal_ s) (log_epochs_ s) l (role_ s)
     (epoch_ s) (next_seq_no_ s) (as_follower s) (as_leader s) out.

Definition with_role (s : t) (r : ReplicaRole) : t :=
  mk (configuration_ s) (around s) (wal_ s) (log_epochs_ s) (on_leases s) r
     (epoch_ s) (next_seq_no_ s) (as_follower s) (as_leader s) (outputs s).

Definition with_epoch (s : t) (e : Z) : t :=
  mk (configuration_ s) (around s) (wal_ s) (log_epochs_ s) (on_leases s)
     (role_ s) e (next_seq_no_ s) (as_follower s) (as_leader s) (outputs s).

Definition with_next (s : t) (n : Z) : t :=
  mk (configuration_ s) (around s) (wal_ s) (log_epochs_ s) (on_leases s)
     (role_ s) (epoch_ s) n (as_follower s) (as_leader s) (outputs s).

Definition with_follower (s : t) (f : follower_members) : t :=
  mk (configuration_ s) (around s) (wal_ s) (log_epochs_ s) (on_leases s)
     (role_ s) (epoch_ s) (next_seq_no_ s) f (as_leader s) (outputs s).

Definition with_leader (s : t) (l : leader_members) : t :=
  mk (configuration_ s) (around s) (wal_ s) (log_epochs_ s) (on_leases s)
     (role_ s) (epoch_ s) (next_seq_no_ s) (as_follower s) l (outputs s).

Definition with_outputs (s : t) (out : list output) : t :=
  mk (configuration_ s) (around s) (wal_ s) (log_epochs_ s) (on_leases s)
     (role_ s) (epoch_ s) (next_seq_no_ s) (as_follower s) (as_leader s) out.

Definition with_around (s : t) (a : surroundings) : t :=
  mk (configuration_ s) a (wal_ s) (log_epochs_ s) (on_leases s)
     (role_ s) (epoch_ s) (next_seq_no_ s) (as_follower s) (as_leader s)
     (outputs s).

(** One member of [leader_members] or [follower_members]. *)
Definition set_matches (b : bool) (l : leader_members) : leader_members :=
  mk_leader_members b (peer_acked_through_ l) (peer_catching_up_ l)
    (peer_catch_up_after_ l) (peer_handed_over_at_ l) (unanswered_request_ l)
    (waiting_since_ l) (running_alone_ l) (committed_through_ l).

Definition set_acked (n : Z) (l : leader_members) : leader_members :=
  mk_leader_members (follower_wal_matches_ l) n (peer_catching_up_ l)
    (peer_catch_up_after_ l) (peer_handed_over_at_ l) (unanswered_request_ l)
    (waiting_since_ l) (running_alone_ l) (committed_through_ l).

Definition set_catching_up (b : bool) (l : leader_members) : leader_members :=
  mk_leader_members (follower_wal_matches_ l) (peer_acked_through_ l) b
    (peer_catch_up_after_ l) (peer_handed_over_at_ l) (unanswered_request_ l)
    (waiting_since_ l) (running_alone_ l) (committed_through_ l).

Definition set_catch_up_after (n : Z) (l : leader_members) : leader_members :=
  mk_leader_members (follower_wal_matches_ l) (peer_acked_through_ l)
    (peer_catching_up_ l) n (peer_handed_over_at_ l) (unanswered_request_ l)
    (waiting_since_ l) (running_alone_ l) (committed_through_ l).

Definition set_handed_over_at (n : Z) (l : leader_members) : leader_members :=
  mk_leader_members (follower_wal_matches_ l) (peer_acked_through_ l)
    (peer_catching_up_ l) (peer_catch_up_after_ l) n (unanswered_request_ l)
    (waiting_since_ l) (running_alone_ l) (committed_through_ l).

Definition set_unanswered (r : option (Z * Z)) (l : leader_members) : leader_members :=
  mk_leader_members (follower_wal_matches_ l) (peer_acked_through_ l)
    (peer_catching_up_ l) (peer_catch_up_after_ l) (peer_handed_over_at_ l) r
    (waiting_since_ l) (running_alone_ l) (committed_through_ l).

Definition set_waiting_since (at_ : option Z) (l : leader_members) : leader_members :=
  mk_leader_members (follower_wal_matches_ l) (peer_acked_through_ l)
    (peer_catching_up_ l) (peer_catch_up_after_ l) (peer_handed_over_at_ l)
    (unanswered_request_ l) at_ (running_alone_ l) (committed_through_ l).

Definition set_running_alone (b : bool) (l : leader_members) : leader_members :=
  mk_leader_members (follower_wal_matches_ l) (peer_acked_through_ l)
    (peer_catching_up_ l) (peer_catch_up_after_ l) (peer_handed_over_at_ l)
    (unanswered_request_ l) (waiting_since_ l) b (committed_through_ l).

Definition set_committed (n : Z) (l : leader_members) : leader_members :=
  mk_leader_members (follower_wal_matches_ l) (peer_acked_through_ l)
    (peer_catching_up_ l) (peer_catch_up_after_ l) (peer_handed_over_at_ l)
    (unanswered_request_ l) (waiting_since_ l) (running_alone_ l) n.

Definition set_agreed (b : bool) (f : follower_members) : follower_members :=
  mk_follower_members (highest_replicated_seq_no_ f) b
    (last_position_request_at_ f).

Definition set_highest (n : Z) (f : follower_members) : follower_members :=
  mk_follower_members n (follower_wal_agreed_ f) (last_position_request_at_ f).

Definition set_requested_at (at_ : Z) (f : follower_members) : follower_members :=
  mk_follower_members (highest_replicated_seq_no_ f) (follower_wal_agreed_ f) at_.

(** *** Code over the object *)

Definition this : comp t t := gets (λ s, s).
Definition leading (f : leader_members → leader_members) : comp t unit :=
  modify (λ s, with_leader s (f (as_leader s))).
Definition following (f : follower_members → follower_members) : comp t unit :=
  modify (λ s, with_follower s (f (as_follower s))).
Definition tell (o : output) : comp t unit :=
  modify (λ s, with_outputs s (outputs s ++ [o])).
Definition when (b : bool) (m : comp t unit) : comp t unit :=
  if b then m else mret ().

Definition on_wal {A} (m : comp W A) : comp t A := λ s,
  let r := m (wal_ s) in (with_log s r.1 (log_epochs_ s), r.2).

Definition on_table (m : comp LogEpochTable.t unit) : comp t unit := λ s,
  let r := m (log_epochs_ s) in (with_log s (wal_ s) r.1, r.2).

(** A call of [lease_agent_], or [d] where there is none.  What the agent sends
    it sends as it goes. *)
Definition on_lease {A} (d : A) (m : comp PairLeaseAgent.state A) : comp t A := λ s,
  match lease_agent_ (on_leases s) with
  | None => (s, Returns d)
  | Some a =>
      let r := m (PairLeaseAgent.mk_state a
                    (owned_promise_recorder_ (on_leases s))
                    (epoch_recording_ (on_leases s)) []) in
      (with_leases s
         (mk_lease_members (Some (PairLeaseAgent.agent r.1))
            (PairLeaseAgent.recorder r.1) (PairLeaseAgent.epochs r.1))
         (outputs s ++ (ToVoter <$> reverse (PairLeaseAgent.sent r.1))), r.2)
  end.

Definition is_leader (r : ReplicaRole) : bool :=
  match r with leader => true | _ => false end.

Definition last_seq_no (s : t) : Z := LogEpochTable.last_seq_no (log_epochs_ s).

Definition ha (s : t) : bool := ha_enabled (configuration_ s).
Definition connected (s : t) : bool := peer_connected (around s).
Definition catches_up (s : t) : bool := peer_catch_up_ (around s).
Definition reading_stopped (s : t) : bool := reading_has_stopped (around s).

(** *** Writing *)

Definition publish_written (seq_no : Z) : comp t unit :=
  s ← this;
  if negb (positions_ (around s)) then mret ()
  else
    let end_ := log_write_position (wal_ s) in
    if negb (position_fits end_) then throw PreconditionAssertion
    else tell (PublishWritten seq_no end_).

Definition publish_committed (seq_no : Z) : comp t unit :=
  s ← this; when (positions_ (around s)) (tell (PublishCommitted seq_no)).

Definition write (seq_no : Z) (c : WalEntryContents) : comp t unit :=
  on_wal (log_append seq_no c) ;;
  publish_written seq_no ;;
  s ← this;
  if negb (seq_no =? last_seq_no s + 1) then mret ()
  else on_table (LogEpochTable.note_record seq_no (leader_epoch c)).

(** *** Committing *)

Definition waits_for_follower (s : t) : bool :=
  let l := as_leader s in
  ha s && connected s && follower_wal_matches_ l && negb (running_alone_ l) &&
  (peer_handed_over_at_ l <=? peer_acked_through_ l).

Definition may_commit_without_follower (s : t) : bool :=
  negb (ha s) ||
  match lease_agent_ (on_leases s) with
  | None => true
  | Some a => PairLeaseAgent.may_act_without_peer a
  end.

Definition advance_commit : comp t unit :=
  s ← this;
  if negb (is_leader (role_ s)) then mret ()
  else
    let l := as_leader s in
    let through :=
      if waits_for_follower s
      then Z.max (committed_through_ l) (peer_acked_through_ l)
      else if may_commit_without_follower s
      then Z.max (committed_through_ l) (last_seq_no s)
      else Z.max (committed_through_ l) (peer_acked_through_ l) in
    when (committed_through_ l <? through)
      (leading (set_committed through) ;;
       publish_committed through ;;
       tell (CommittedThrough through)).

(** *** What is said of the follower *)

Definition agent_acting (s : t) (now : Z) : bool :=
  match lease_agent_ (on_leases s) with
  | None => false
  | Some a => LeaseParticipant.acting (PairLeaseAgent.participant_ a) now
  end.

Definition agent_says_may_lead (s : t) : bool :=
  match lease_agent_ (on_leases s) with
  | None => false
  | Some a => PairLeaseAgent.says_peer_may_lead a
  end.

Definition say_follower_may_not_lead (now : Z) : comp t unit :=
  s ← this;
  if negb (is_leader (role_ s)) || negb (agent_acting s now)
     || negb (agent_says_may_lead s) then mret ()
  else on_lease () (PairLeaseAgent.begin_running_without_peer now).

Definition say_follower_may_lead_if_it_holds_everything (now : Z) : comp t unit :=
  s ← this;
  if negb (is_leader (role_ s)) || negb (agent_acting s now)
     || agent_says_may_lead s then mret ()
  else if negb (waits_for_follower s)
          || (peer_acked_through_ (as_leader s) <? last_seq_no s) then mret ()
  else on_lease () (PairLeaseAgent.peer_holds_everything now).

Definition start_running_alone (now : Z) : comp t unit :=
  s ← this;
  if running_alone_ (as_leader s) then mret ()
  else
    leading (λ l, set_waiting_since None (set_running_alone true l)) ;;
    say_follower_may_not_lead now ;;
    advance_commit.

Definition stop_running_alone : comp t unit :=
  leading (set_running_alone false).

Definition follower_too_far_behind (now : Z) : comp t unit :=
  s ← this; when (waits_for_follower s) (start_running_alone now).

(** *** Appending, as the leader *)

Definition append (pdu_id : Z) (bytes : list Z) (wall_time_ns now : Z) : comp t Z :=
  s ← this;
  let seq_no := next_seq_no_ s in
  let c := mk_contents wall_time_ns (epoch_ s) pdu_id bytes in
  modify (λ s, with_next s (seq_no + 1)) ;;
  write seq_no c ;;
  s ← this;
  when (follower_wal_matches_ (as_leader s) && connected s)
    (tell (SendRecord seq_no c)) ;;
  (if waits_for_follower s then
     leading (λ l, match waiting_since_ l with
                   | None => set_waiting_since (Some now) l
                   | Some _ => l
                   end)
   else when (ha s) (say_follower_may_not_lead now)) ;;
  advance_commit ;;
  mret seq_no.

(** *** Asking where the logs agree *)

Definition forget_agreement : comp t unit :=
  s ← this;
  leading (λ l, set_handed_over_at 0 (set_waiting_since None
                  (set_matches false (set_unanswered None l)))) ;;
  following (set_agreed false) ;;
  when (peer_catching_up_ (as_leader s))
    (leading (set_catching_up false) ;;
     when (catches_up s) (tell StopPeerCatchUp)) ;;
  when (ha s && is_leader (role_ s) && connected s)
    (tell (SendPositionReply asks_again)).

Definition send_position_request (now : Z) : comp t unit :=
  s ← this;
  if negb (ha s) || is_leader (role_ s) || negb (connected s)
     || follower_wal_agreed_ (as_follower s) then mret ()
  else
    following (set_requested_at now) ;;
    tell (SendPositionRequest (last_seq_no s)
            (LogEpochTable.last_epoch (log_epochs_ s))).

(** *** Messages of replication *)

Definition handle_record (from seq_no : Z) (c : WalEntryContents) : comp t unit :=
  s ← this;
  if is_leader (role_ s) || negb (follower_wal_agreed_ (as_follower s)) then mret ()
  else if seq_no <=? last_seq_no s then mret ()
  else if last_seq_no s + 1 <? seq_no then following (set_agreed false)
  else
    write seq_no c ;;
    following (λ f, set_highest (Z.max (highest_replicated_seq_no_ f) seq_no) f) ;;
    tell (SendAck from seq_no) ;;
    tell (WrittenAsFollower seq_no c).

Definition handle_ack (seq_no now : Z) : comp t unit :=
  s ← this;
  if negb (is_leader (role_ s)) then mret ()
  else
    leading (λ l, set_acked (Z.max (peer_acked_through_ l) seq_no) l) ;;
    s ← this;
    (if last_seq_no s <=? peer_acked_through_ (as_leader s)
     then leading (set_waiting_since None)
     else when (waits_for_follower s) (leading (set_waiting_since (Some now)))) ;;
    when (running_alone_ (as_leader s) &&
          (last_seq_no s <=? peer_acked_through_ (as_leader s)))
      stop_running_alone ;;
    advance_commit ;;
    say_follower_may_lead_if_it_holds_everything now.

(** The records after [after], sent by this thread. *)
Fixpoint send_after (after : Z) (l : list (Z * WalEntryContents)) : comp t unit :=
  match l with
  | [] => mret ()
  | (seq_no, c) :: l =>
      when (after <? seq_no) (tell (SendRecord seq_no c)) ;; send_after after l
  end.

(** The reply is sent, and the records the follower lacks where it agrees. *)
Definition answer_position_request (last_seq_no_ : Z) (reply : LogPositionReply)
    : comp t unit :=
  leading (set_unanswered None) ;;
  tell (SendPositionReply reply) ;;
  if negb (reply_agreed reply) then mret ()
  else
    s ← this;
    when (follower_wal_matches_ (as_leader s))
      (leading (λ l, set_handed_over_at 0 (set_matches false l))) ;;
    leading (set_acked last_seq_no_) ;;
    if catches_up s then
      leading (λ l, set_catch_up_after last_seq_no_ (set_catching_up true l)) ;;
      tell (StartPeerCatchUp last_seq_no_)
    else
      records ← on_wal (log_replay_for (last_seq_no_ + 1));
      send_after last_seq_no_ records ;;
      s ← this;
      leading (λ l, set_handed_over_at (last_seq_no s) (set_matches true l)).

Definition position_reply (s : t) (last_seq_no_ last_epoch_ : Z)
    : outcome LogPositionReply :=
  let! answer := LogEpochTable.answer_position (log_epochs_ s) last_seq_no_ last_epoch_ in
  let seq_no := LogEpochTable.answer_seq_no answer in
  let e := LogEpochTable.answer_epoch answer in
  Returns (mk_reply seq_no e
             ((seq_no =? last_seq_no_) && ((seq_no =? 0) || (e =? last_epoch_)))
             false).

Definition handle_position_request (last_seq_no_ last_epoch_ : Z) : comp t unit :=
  s ← this;
  if negb (is_leader (role_ s)) || negb (connected s) then mret ()
  else
    reply ← ask (λ s, position_reply s last_seq_no_ last_epoch_);
    let l := as_leader s in
    if catches_up s && reply_agreed reply && peer_catching_up_ l
       && (last_seq_no_ =? peer_catch_up_after_ l) then mret ()
    else if catches_up s && peer_catching_up_ l then
      tell StopPeerCatchUp ;;
      leading (λ l, set_unanswered (Some (last_seq_no_, last_epoch_))
                      (set_catching_up false l))
    else if catches_up s && negb (reading_stopped s) then
      leading (set_unanswered (Some (last_seq_no_, last_epoch_)))
    else answer_position_request last_seq_no_ reply.

Definition on_peer_caught_up (through : Z) : comp t unit :=
  s ← this;
  if negb (peer_catching_up_ (as_leader s)) || negb (is_leader (role_ s)) then mret ()
  else leading (λ l, set_handed_over_at through
                       (set_matches true (set_catching_up false l))).

Definition on_peer_catch_up_stopped : comp t unit :=
  s ← this;
  match unanswered_request_ (as_leader s) with
  | None => mret ()
  | Some (n, e) =>
      if negb (catches_up s) || negb (reading_stopped s) then mret ()
      else
        leading (set_unanswered None) ;;
        handle_position_request n e
  end.

Definition discard_after (keep_through : Z) : comp t unit :=
  on_wal (log_truncate_after keep_through) ;;
  publish_written keep_through ;;
  on_table (LogEpochTable.truncate_after keep_through) ;;
  following (set_highest keep_through) ;;
  modify (λ s, with_next s (keep_through + 1)) ;;
  tell (DiscardedAfter keep_through).

Definition handle_position_reply (reply : LogPositionReply) (now : Z) : comp t unit :=
  s ← this;
  if is_leader (role_ s) then mret ()
  else if ask_again reply then
    following (set_agreed false) ;; send_position_request now
  else if follower_wal_agreed_ (as_follower s) then mret ()
  else
    let last_before := last_seq_no s in
    step ← ask (λ s, LogEpochTable.follower_step (log_epochs_ s)
                       (LogEpochTable.mk_answer (reply_seq_no reply) (reply_epoch reply)));
    let keep_through := LogEpochTable.keep_through step in
    let agreed := reply_agreed reply && LogEpochTable.agreed step
                  && (keep_through =? last_before) in
    if (keep_through <? last_before) && catches_up s && negb (reading_stopped s)
    then mret ()
    else
      when (keep_through <? last_before) (discard_after keep_through) ;;
      if agreed then following (set_agreed true) else send_position_request now.

(** *** The role *)

Definition set_epoch (new_epoch : Z) : comp t unit :=
  s ← this;
  if new_epoch <=? epoch_ s then mret ()
  else
    modify (λ s, with_epoch s new_epoch) ;;
    modify (λ s,
      let l := on_leases s in
      with_leases s
        (mk_lease_members (lease_agent_ l) (owned_promise_recorder_ l)
           (EpochRecording.record (epoch_recording_ l) new_epoch).1)
        (outputs s)).

Definition change_role (new_role : ReplicaRole) (now : Z) : comp t unit :=
  s ← this;
  if decide (new_role = role_ s) then mret ()
  else
    let old_role := role_ s in
    modify (λ s, with_role s new_role) ;;
    forget_agreement ;;
    match new_role with
    | leader =>
        modify (λ s, let highest := highest_replicated_seq_no_ (as_follower s) in
                     if next_seq_no_ s <=? highest then with_next s (highest + 1)
                     else s) ;;
        s ← this;
        leading (set_committed (last_seq_no s)) ;;
        publish_committed (last_seq_no s) ;;
        leading (λ l, set_waiting_since None (set_acked 0 l))
    | follower =>
        send_position_request now ;;
        leading (set_running_alone false)
    | unknown => mret ()
    end ;;
    s ← this;
    tell (RoleChanged old_role new_role (epoch_ s)).

Definition agent_highest_epoch (s : t) : Z :=
  match lease_agent_ (on_leases s) with
  | None => 0
  | Some a => LeaseVoter.highest_epoch (LeaseParticipant.voter (PairLeaseAgent.participant_ a))
  end.

Definition act_on (change : PairLeaseAgent.Change) (now : Z) : comp t unit :=
  s ← this;
  set_epoch (agent_highest_epoch s) ;;
  match change with
  | PairLeaseAgent.BecameLeader => change_role leader now
  | PairLeaseAgent.StoppedLeading => change_role follower now
  | PairLeaseAgent.AgreedPeerLeads => change_role follower now
  | PairLeaseAgent.Nothing => mret ()
  end.

(** *** Messages of the leases *)

(** The message is of this pair, and there is an agent to pass it to. *)
Definition passed_on (s : t) (pair : Z) : bool :=
  (pair =? pair_id (configuration_ s)) &&
  match lease_agent_ (on_leases s) with None => false | Some _ => true end.

Definition is_agreed_peer_leads (c : PairLeaseAgent.Change) : bool :=
  match c with PairLeaseAgent.AgreedPeerLeads => true | _ => false end.

Definition handle_lease_request (from : Z) (r : LeaseRequest) (now : Z) : comp t unit :=
  s ← this;
  if negb (passed_on s (LeaseMessages.pair_id r)) then mret ()
  else
    change ← on_lease PairLeaseAgent.Nothing
      (PairLeaseAgent.on_request from (candidate_instance_id r) (request_epoch r)
         (request_id r) (request_statement r) now);
    when (is_agreed_peer_leads change) (tell (GrantedLeaseToPeer now)) ;;
    act_on change now.

Definition handle_lease_grant (g : LeaseGrant) (now : Z) : comp t unit :=
  s ← this;
  if negb (passed_on s (grant_pair_id g)) then mret ()
  else
    change ← on_lease PairLeaseAgent.Nothing
      (PairLeaseAgent.on_grant (grant_voter g) (grant_epoch g)
         (grant_request_id g) (echoed_statement_number g) now);
    act_on change now ;;
    advance_commit.

Definition handle_statement_held (pair arbiter leader_id statement_epoch number : Z)
    (alone : bool) : comp t unit :=
  s ← this;
  if negb (passed_on s pair) then mret ()
  else
    on_lease () (PairLeaseAgent.on_statement_held arbiter
      (LeaderStatement.mk leader_id statement_epoch number false) alone) ;;
    advance_commit.

Section random.
Variable uniform : Z → Z → nat → Z.

Definition handle_lease_refusal (r : LeaseRefusal) (now : Z) : comp t unit :=
  s ← this;
  if negb (passed_on s (refusal_pair_id r)) then mret ()
  else
    change ← on_lease PairLeaseAgent.Nothing
      (PairLeaseAgent.on_refusal uniform (refusal_voter r)
         (refusal_highest_epoch r) (refusal_request_id r) (reason r) now);
    act_on change now.

(** *** Ticks *)

Definition on_lease_tick (now : Z) : comp t unit :=
  s ← this;
  match lease_agent_ (on_leases s) with
  | None => mret ()
  | Some _ =>
      change ← on_lease PairLeaseAgent.Nothing (PairLeaseAgent.on_tick uniform now);
      act_on change now ;;
      advance_commit ;;
      say_follower_may_lead_if_it_holds_everything now ;;
      s ← this;
      when (negb (follower_wal_agreed_ (as_follower s)) &&
            (position_request_interval
               <=? now - last_position_request_at_ (as_follower s)))
        (send_position_request now)
  end.

End random.

Definition on_acknowledgement_watch (now : Z) : comp t unit :=
  s ← this;
  match waiting_since_ (as_leader s) with
  | None => mret ()
  | Some since =>
      when (waits_for_follower s && (follower_acknowledgement_timeout <=? now - since))
        (start_running_alone now)
  end.

(** *** Connections *)

Definition on_peer_connection_established (now : Z) : comp t unit :=
  forget_agreement ;; send_position_request now.

Definition on_peer_connection_lost (now : Z) : comp t unit :=
  forget_agreement ;;
  s ← this;
  when (running_alone_ (as_leader s)) stop_running_alone ;;
  when (ha s) (say_follower_may_not_lead now) ;;
  advance_commit.

(** *** Opening *)

(** The constructor, over the directory as it is found. *)
Definition make (c : ReplicatedWalConfiguration) (a : surroundings) (w : W)
    (promises : BackgroundPromiseRecorder.t) (epochs : EpochRecording.t) : t :=
  mk c a w LogEpochTable.empty (mk_lease_members None promises epochs) unknown
     0 1 (mk_follower_members 0 false 0)
     (mk_leader_members false 0 false 0 0 None None false 0) [].

(** The callback of [open], which keeps the next number it expects and the last
    record before a gap. *)
Fixpoint read_records (expected : Z) (l : list (Z * WalEntryContents))
    : comp t (option Z) :=
  match l with
  | [] => mret None
  | (seq_no, c) :: l =>
      if negb (seq_no =? expected) then mret (Some (expected - 1))
      else
        on_table (LogEpochTable.note_record seq_no (leader_epoch c)) ;;
        tell (ReadAtOpen seq_no c) ;;
        read_records (expected + 1) l
  end.

Definition open_wal : comp t (list (Z * WalEntryContents) * outcome Z) := λ s,
  let '(w, l, r) := log_open (wal_ s) in
  (with_log s w (log_epochs_ s), Returns (l, r)).

Definition agent_configuration (c : ReplicatedWalConfiguration)
    : PairLeaseAgent.configuration :=
  PairLeaseAgent.mk_configuration (pair_id c) (instance_id c)
    (if instance_id c =? 1 then 2 else 1) (third_voter_id c) (lease c) true.

(** The lease agent, which keeps its promises in the directory's store. *)
Definition start_agent (now : Z) : comp t unit :=
  s ← this;
  let c := configuration_ s in
  let l := on_leases s in
  let b := owned_promise_recorder_ l in
  a ← ask (λ _, PairLeaseAgent.make (agent_configuration c) now (epoch_ s)
                  LeaseParticipant.SayWhetherPeerMayLead);
  let f := BackgroundPromiseRecorder.store b in
  let boot := BackgroundPromiseRecorder.boot_id b in
  modify (λ s, with_leases s
    (mk_lease_members
       (Some (PairLeaseAgent.keep_promises_in (LeasePromiseStore.load f boot)
                (LeasePromiseStore.load_statement f) now a))
       (BackgroundPromiseRecorder.make boot f) (epoch_recording_ l))
    (outputs s)).

Definition open (now : Z) : comp t Z :=
  result ← open_wal;
  gap ← read_records 1 result.1;
  ask (λ _, result.2) ;;
  match gap with
  | None => mret ()
  | Some last_before_gap => on_wal (log_truncate_after last_before_gap)
  end ;;
  s ← this;
  let last := log_last_seq_no (wal_ s) in
  following (set_highest last) ;;
  modify (λ s, with_next s (last + 1)) ;;
  publish_written last ;;
  modify (λ s, with_epoch s (EpochRecording.load (epoch_recording_ (on_leases s)))) ;;
  s ← this;
  (if negb (ha s) then
     e ← ask (λ _, LeaderEpoch.next_for (epoch_ s) (instance_id (configuration_ s)));
     set_epoch e ;;
     change_role leader now
   else start_agent now) ;;
  mret last.

End log.

Arguments t W : clear implicits.

End ReplicatedWal.
