(* ===== verification/ReplicatedPair.v ===== *)
(** A leader and its follower, each with its replicated log, run by a list of
    events through one leadership.

    The two are joined by one connection at a time, which delivers in order:
    what one side sent before it left can still be read by the other, and a new
    connection is opened once both have seen the last one go.  The messages of
    the leases reach either side at any moment with any contents.  The thread
    that reads the leader's log for its follower does what
    [PeerCatchUpInterface] says of it: it sends every record after the one it
    is given, on the connection of the replicated log, reports once it has sent
    the last record written, and, told to stop, stops some time later. *)

From S2P Require Import Prelude.
From S2P Require Import Lease.
From S2P Require Import PairLeaseAgent.
From S2P Require Import LogEpochTable.
From S2P Require Import WalEntry.
From S2P Require Import RecordLog.
From S2P Require Import ReplicatedWal.
Import ReplicatedWal.

#[local] Open Scope Z_scope.

Inductive message :=
  | MRecord (seq_no : Z) (c : WalEntryContents)
  | MAck (seq_no : Z)
  | MRequest (last_seq_no last_epoch : Z)
  | MReply (r : LogPositionReply).

(** What an output puts on the connection to the peer. *)
Definition to_peer (o : output) : list message :=
  match o with
  | SendRecord n c => [MRecord n c]
  | SendAck _ n => [MAck n]
  | SendPositionRequest n e => [MRequest n e]
  | SendPositionReply r => [MReply r]
  | _ => []
  end.

Definition posted (out : list output) : list message := out ≫= to_peer.

(** A message of the leases, as it reaches the replicated log. *)
Inductive lease_message :=
  | ARequest (from : Z) (r : LeaseRequest)
  | AGrant (g : LeaseGrant)
  | ARefusal (r : LeaseRefusal)
  | AHeld (pair arbiter leader_id statement_epoch number : Z) (alone : bool).

Section pair.
Context {W : Type} `{RecordLog W}.
Variable uniform : Z → Z → nat → Z.

(** [reader] is the number of the record the reading thread sends next, and
    whether the connection it sends on is still there; [stopping], that it has
    been told to stop. *)
Record pair := mk_pair {
  ldr : t W;
  flw : t W;
  to_follower : list message;
  to_leader : list message;
  ldr_up : bool;
  flw_up : bool;
  closing : bool;
  reader : option (Z * bool);
  stopping : bool
}.

Inductive event :=
  | EAppend (pdu_id : Z) (bytes : list Z) (wall_time_ns now : Z)
  | EToLeader (now : Z)
  | EToFollower (now : Z)
  | ELeaderTick (now : Z)
  | EFollowerTick (now : Z)
  | EWatch (now : Z)
  | ETooFarBehind (now : Z)
  | ELeaderLease (m : lease_message) (now : Z)
  | EFollowerLease (m : lease_message) (now : Z)
  | ELeaderUp (now : Z)
  | EFollowerUp (now : Z)
  | ELeaderLost (now : Z)
  | EFollowerLost (now : Z)
  | EReaderSends
  | EReaderDone
  | EReaderStops
  | EFollowerReads (stopped : bool)
  | ELeaderWriter (reached : bool)
  | EFollowerWriter (reached : bool)
  | EFollowerRestarts (now : Z).

(** [dispatch_message], of the messages on the connection to the peer. *)
Definition dispatch_message (m : message) (now : Z) : comp (t W) unit :=
  match m with
  | MRecord n c => handle_record 0 n c
  | MAck n => handle_ack n now
  | MRequest n e => handle_position_request n e
  | MReply r => handle_position_reply r now
  end.

Definition dispatch_lease (m : lease_message) (now : Z) : comp (t W) unit :=
  match m with
  | ARequest from r => handle_lease_request from r now
  | AGrant g => handle_lease_grant g now
  | ARefusal r => handle_lease_refusal uniform r now
  | AHeld pair arbiter leader_id e n alone =>
      handle_statement_held pair arbiter leader_id e n alone
  end.

(** What the calls of [PeerCatchUpInterface] do. *)
Definition direct (rd : option (Z * bool) * bool) (o : output)
    : option (Z * bool) * bool :=
  match o with
  | StartPeerCatchUp after => (Some (after + 1, true), false)
  | StopPeerCatchUp => (rd.1, true)
  | _ => rd
  end.

Definition with_reading (s : t W) (stopped : bool) : t W :=
  with_around s (mk_surroundings (peer_catch_up_ (around s))
    (positions_ (around s)) (peer_connected (around s)) stopped).

Definition with_connected (s : t W) (b : bool) : t W :=
  with_around s (mk_surroundings (peer_catch_up_ (around s))
    (positions_ (around s)) b (reading_has_stopped (around s))).

(** The leader has done something, starting from no outputs. *)
Definition settle_leader (p : pair) (s : t W) : pair :=
  let out := outputs s in
  let rd := foldl direct (reader p, stopping p) out in
  mk_pair (with_reading (with_outputs s []) (bool_decide (rd.1 = None))) (flw p)
    (if closing p then to_follower p else to_follower p ++ posted out)
    (to_leader p) (ldr_up p) (flw_up p) (closing p) rd.1 rd.2.

Definition settle_follower (p : pair) (s : t W) : pair :=
  mk_pair (ldr p) (with_outputs s []) (to_follower p)
    (if closing p then to_leader p else to_leader p ++ posted (outputs s))
    (ldr_up p) (flw_up p) (closing p) (reader p) (stopping p).

(** Running an operation of one side; a process whose operation throws is no
    longer part of the run. *)
Definition lead (p : pair) {A} (m : comp (t W) A) : option pair :=
  match m (ldr p) with
  | (s, Returns _) => Some (settle_leader p s)
  | (_, Throws _) => None
  end.

Definition follow (p : pair) {A} (m : comp (t W) A) : option pair :=
  match m (flw p) with
  | (s, Returns _) => Some (settle_follower p s)
  | (_, Throws _) => None
  end.

Definition with_leader_side (p : pair) (s : t W) (up : bool) : pair :=
  mk_pair s (flw p) (to_follower p) (to_leader p) up (flw_up p) (closing p)
    (reader p) (stopping p).

Definition with_follower_side (p : pair) (s : t W) (up : bool) : pair :=
  mk_pair (ldr p) s (to_follower p) (to_leader p) (ldr_up p) up (closing p)
    (reader p) (stopping p).

Definition with_queues (p : pair) (f l : list message) : pair :=
  mk_pair (ldr p) (flw p) f l (ldr_up p) (flw_up p) (closing p) (reader p)
    (stopping p).

Definition with_reader (p : pair) (r : option (Z * bool)) (stop : bool) : pair :=
  mk_pair (with_reading (ldr p) (bool_decide (r = None))) (flw p)
    (to_follower p) (to_leader p) (ldr_up p) (flw_up p) (closing p) r stop.

(** One side has left the connection: what was on its way to it is lost, and
    when both have left, everything. *)
Definition leave (p : pair) (leader_left : bool) : pair :=
  let other_up := if leader_left then flw_up p else ldr_up p in
  mk_pair (ldr p) (flw p)
    (if leader_left && other_up then to_follower p else [])
    (if negb leader_left && other_up then to_leader p else [])
    (ldr_up p) (flw_up p) other_up
    (if leader_left then (λ r, (r.1, false)) <$> reader p else reader p)
    (stopping p).

(** The record of a number, as the reading thread reads it. *)
Definition record_at (w : W) (n : Z) : option WalEntryContents :=
  match log_replay_for n w with
  | (_, Returns l) => snd <$> head (filter (λ r, r.1 = n) l)
  | (_, Throws _) => None
  end.

Definition restarted (s : t W) : t W :=
  make (configuration_ s)
    (mk_surroundings (peer_catch_up_ (around s)) (positions_ (around s)) false true)
    (wal_ s) (owned_promise_recorder_ (on_leases s)) (epoch_recording_ (on_leases s)).

(** A turn of the thread that writes the promise record. *)
Definition promises_written (s : t W) (reached : bool) : t W :=
  let l := on_leases s in
  with_leases s
    (mk_lease_members (lease_agent_ l)
       (BackgroundPromiseRecorder.write_requests (owned_promise_recorder_ l) reached)
       (epoch_recording_ l))
    (outputs s).

Definition react (p : pair) (e : event) : option pair :=
  match e with
  | EAppend pdu bytes wall now => lead p (append pdu bytes wall now)
  | EToLeader now =>
      match ldr_up p, to_leader p with
      | true, m :: rest =>
          lead (with_queues p (to_follower p) rest) (dispatch_message m now)
      | _, _ => None
      end
  | EToFollower now =>
      match flw_up p, to_follower p with
      | true, m :: rest =>
          follow (with_queues p rest (to_leader p)) (dispatch_message m now)
      | _, _ => None
      end
  | ELeaderTick now => lead p (on_lease_tick uniform now)
  | EFollowerTick now => follow p (on_lease_tick uniform now)
  | EWatch now => lead p (on_acknowledgement_watch now)
  | ETooFarBehind now => lead p (follower_too_far_behind now)
  | ELeaderLease m now => lead p (dispatch_lease m now)
  | EFollowerLease m now => follow p (dispatch_lease m now)
  | ELeaderUp now =>
      if ldr_up p || closing p then None
      else lead (with_leader_side p (with_connected (ldr p) true) true)
             (on_peer_connection_established now)
  | EFollowerUp now =>
      if flw_up p || closing p then None
      else follow (with_follower_side p (with_connected (flw p) true) true)
             (on_peer_connection_established now)
  | ELeaderLost now =>
      if ldr_up p
      then lead (leave (with_leader_side p (with_connected (ldr p) false) false) true)
             (on_peer_connection_lost now)
      else None
  | EFollowerLost now =>
      if flw_up p
      then follow (leave (with_follower_side p (with_connected (flw p) false) false) false)
             (on_peer_connection_lost now)
      else None
  | EReaderSends =>
      match reader p with
      | Some (n, live) =>
          match record_at (wal_ (ldr p)) n with
          | Some c =>
              let p' := with_reader p (Some (n + 1, live)) (stopping p) in
              Some (if live && negb (closing p)
                    then with_queues p' (to_follower p ++ [MRecord n c]) (to_leader p)
                    else p')
          | None => None
          end
      | None => None
      end
  | EReaderDone =>
      match reader p, stopping p with
      | Some (n, true), false =>
          if n =? ReplicatedWal.last_seq_no (ldr p) + 1
          then lead (with_reader p None false)
                 (on_peer_caught_up (ReplicatedWal.last_seq_no (ldr p)))
          else None
      | _, _ => None
      end
  | EReaderStops =>
      match reader p, stopping p with
      | Some _, true => lead (with_reader p None false) on_peer_catch_up_stopped
      | _, _ => None
      end
  | EFollowerReads stopped =>
      Some (with_follower_side p (with_reading (flw p) stopped) (flw_up p))
  | ELeaderWriter reached =>
      Some (with_leader_side p (promises_written (ldr p) reached) (ldr_up p))
  | EFollowerWriter reached =>
      Some (with_follower_side p (promises_written (flw p) reached) (flw_up p))
  | EFollowerRestarts now =>
      let p' := with_follower_side p (restarted (flw p)) false in
      follow (if flw_up p then leave p' false else p') (open now)
  end.

Fixpoint run (p : pair) (es : list event) : option pair :=
  match es with
  | [] => Some p
  | e :: es => match react p e with Some p' => run p' es | None => None end
  end.

End pair.
Arguments pair W : clear implicits.
