(* ===== verification/ReplicatedPairRuns.v ===== *)
(** Runs of a pair that show what the protocol of ReplicatedWal.cpp lets happen.

    The processes start from their directories, take the lead by the lease
    messages they are sent, and keep a log that is a list; nothing in the runs
    is beyond what the connection, the voters and the reading thread may do. *)

From S2P Require Import Prelude.
From S2P Require Import Lease.
From S2P Require Import PairLeaseAgent.
From S2P Require Import WalEntry.
From S2P Require Import RecordLog.
From S2P Require Import ReplicatedWal.
From S2P Require Import ReplicatedPair.
Import ReplicatedWal.

#[local] Open Scope Z_scope.

Definition shortest_wait (least most : Z) (draw : nat) : Z := least.

(** A process of pair 7, over a directory that holds [l] and whose epoch file
    says [e]; the third voter is 3. *)
Definition process (id e : Z) (l : list WalEntryContents) : t (list WalEntryContents) :=
  make (mk_configuration true 7 id 3 (LeaseTiming.mk 3000 250 1000))
    (mk_surroundings true true false true) l
    (BackgroundPromiseRecorder.make (Some 1%nat) None) (EpochRecording.mk e e []).

Definition opened (s : t (list WalEntryContents)) : t (list WalEntryContents) :=
  with_outputs (open 0 s).1 [].

Definition apart (a b : t (list WalEntryContents)) : pair (list WalEntryContents) :=
  mk_pair (opened a) (opened b) [] [] false false false None false.

(** What a run ends in: the two roles, the records of the two logs, what the
    leader has committed, whether it may commit what its follower does not
    hold, and whether it says that its follower may lead. *)
Record ending := mk_ending {
  roles : ReplicaRole * ReplicaRole;
  records : nat * nat;
  committed : Z;
  alone_allowed : bool;
  may_lead_said : bool
}.

Definition ends (p : pair (list WalEntryContents)) : ending :=
  mk_ending (role_ (ldr p), role_ (flw p)) (length (wal_ (ldr p)), length (wal_ (flw p)))
    (committed_through_ (as_leader (ldr p))) (may_commit_without_follower (ldr p))
    (agent_says_may_lead (ldr p)).

(** ** A reply that is late *)

(** The third voter elects instance 1. *)
Definition elect (epoch at_ : Z) : list event :=
  [ELeaderTick at_; ELeaderLease (AGrant (mk_grant 3 7 epoch 2 0)) at_].

(** The leader's request for a lease, at the follower. *)
Definition lease_asked (id at_ : Z) : event :=
  EFollowerLease
    (ARequest 9 (mk_request 1 7 1 id (LeaderStatement.mk 0 0 0 false))) at_.

(** Two records are written; the two connect, and the follower asks twice: on
    the connection, and because the leader asks it to.  The leader answers the
    second request only once it has sent the two records.  The follower writes
    them, is told who leads, which makes it forget that its log agrees, and then
    reads the second answer. *)
Definition late_reply : list event :=
  elect 1 4000 ++
  [lease_asked 1 4000;
   EAppend 500 [1] 0 4001; EAppend 500 [2] 0 4002;
   ELeaderUp 4100; EFollowerUp 4100; EToFollower 4101;
   EToLeader 4102; EReaderSends; EReaderSends; EReaderDone; EToLeader 4103;
   EToFollower 4104; EToFollower 4105; EToFollower 4106;
   EFollowerWriter true; lease_asked 3 4107;
   EToFollower 4108;
   EToLeader 4109; EToLeader 4110;
   EReaderSends; EReaderSends; EReaderDone; ELeaderTick 4200].

(** ** A lead taken with records of its own *)

Definition own_record : WalEntryContents := mk_contents 0 1 500 [1].

(** Instance 1 wrote a record in epoch 1 that instance 2 does not hold.  It is
    elected again; nobody has been told that instance 2 may not lead, and when
    instance 1 is gone instance 2, which has learnt the epoch from the third
    voter's refusal, is elected. *)
Definition own_record_lost : list event :=
  elect 5 4000 ++
  [EFollowerTick 8000;
   EFollowerLease (ARefusal (mk_refusal 3 7 5 2 epoch_behind)) 8001;
   EFollowerTick 20000;
   EFollowerLease (AGrant (mk_grant 3 7 6 4 0)) 20001].

Definition outcome_of (p : pair (list WalEntryContents)) (es : list event) : option ending :=
  ends <$> run shortest_wait p es.

(** The replies of a leader do not say which request they answer, and a
    follower that is told who leads forgets that its log agrees: a second
    answer to the request it made before it wrote anything then makes it
    discard every record it has written and acknowledged since.  The leader has
    committed them on its acknowledgements, waits for it as for a follower that
    holds them, and says that it may lead. *)
Theorem late_reply_discards_committed_records :
  outcome_of (apart (process 1 0 []) (process 2 0 [])) late_reply
    = Some (mk_ending (leader, follower) (2, 0)%nat 2 false true).
Proof. vm_compute. reflexivity. Qed.

(** An instance that takes the lead commits every record it holds at once,
    and what follows the committed position acts on them: a record only it
    holds is committed while nobody has confirmed that its peer may not lead,
    and the peer, elected after it, leads without the record. *)
Theorem new_lead_commits_what_only_it_holds :
  outcome_of (apart (process 1 1 [own_record]) (process 2 1 [])) (elect 5 4000)
    = Some (mk_ending (leader, unknown) (1, 0)%nat 1 false false) ∧
  outcome_of (apart (process 1 1 [own_record]) (process 2 1 [])) own_record_lost
    = Some (mk_ending (leader, leader) (1, 0)%nat 1 false false).
Proof. split; vm_compute; reflexivity. Qed.
