(* ===== verification/ReplicatedPairEffects.v ===== *)
(** What each operation of a replicated log does to what its peer sees: the
    log, what the leader knows of its follower, what the follower knows of its
    log, and the messages sent.

    The lemmas are of partial correctness, in the form of weakest
    preconditions: what holds of the state an operation returns in. *)

From S2P Require Import Prelude.
From S2P Require Import Lease.
From S2P Require Import PairLeaseAgent.
From S2P Require Import LogEpochTable.
From S2P Require Import WalEntry.
From S2P Require Import WalRefinement.
From S2P Require Import RecordLog.
From S2P Require Import ReplicatedWal.
From S2P Require Import ReplicatedPair.
Import ReplicatedWal.

#[local] Open Scope Z_scope.

(** ** Weakest preconditions *)

Definition wp {S A} (m : comp S A) (Q : S → A → Prop) (s : S) : Prop :=
  ∀ s' a, m s = (s', Returns a) → Q s' a.

Lemma wp_bind {S A B} (m : comp S A) (f : A → comp S B) Q s :
  wp m (λ s' a, wp (f a) Q s') s → wp (m ≫= f) Q s.
Proof.
  intros Hm s' b. unfold mbind, comp_bind. destruct (m s) as [s1 [a|e]] eqn:E; [|done].
  intros Hf. by apply (Hm _ _ E).
Qed.

Lemma wp_ret {S A} (a : A) (Q : S → A → Prop) s : Q s a → wp (mret a) Q s.
Proof. intros HQ s' a' [= <- <-]. done. Qed.

Lemma wp_gets {S A} (f : S → A) (Q : S → A → Prop) s : Q s (f s) → wp (gets f) Q s.
Proof. intros HQ s' a' [= <- <-]. done. Qed.

Lemma wp_modify {S} (f : S → S) (Q : S → unit → Prop) s : Q (f s) () → wp (modify f) Q s.
Proof. intros HQ s' a' [= <- <-]. done. Qed.

Lemma wp_ask {S A} (f : S → outcome A) (Q : S → A → Prop) s :
  (∀ a, f s = Returns a → Q s a) → wp (ask f) Q s.
Proof. intros HQ s' a' [= <- ?]. by apply HQ. Qed.

Lemma wp_mono {S A} (m : comp S A) (Q R : S → A → Prop) s :
  wp m Q s → (∀ s' a, Q s' a → R s' a) → wp m R s.
Proof. intros Hm HQR s' a E. by apply HQR, Hm. Qed.

Lemma wp_if {S A} (b : bool) (m m' : comp S A) Q s :
  (b = true → wp m Q s) → (b = false → wp m' Q s) → wp (if b then m else m') Q s.
Proof. destruct b; auto. Qed.

Lemma wp_this {W} (Q : t W → t W → Prop) (s : t W) : Q s s → wp this Q s.
Proof. intros HQ. exact (wp_gets _ Q s HQ). Qed.

Lemma wp_when {W} (b : bool) m (Q : t W → unit → Prop) (s : t W) :
  (b = true → wp m Q s) → (b = false → Q s ()) → wp (when b m) Q s.
Proof. destruct b; cbn; [auto|]. intros _ HQ. apply wp_ret. auto. Qed.

(** One step of a proof of a weakest precondition. *)
Ltac wp_step :=
  match goal with
  | |- wp (_ ≫= _) _ _ => apply wp_bind
  | |- wp (mret _) _ _ => apply wp_ret
  | |- wp this _ _ => apply wp_this
  | |- wp (gets _) _ _ => apply wp_gets
  | |- wp (modify _) _ _ => apply wp_modify
  | |- wp (leading _) _ _ => apply wp_modify
  | |- wp (following _) _ _ => apply wp_modify
  | |- wp (tell _) _ _ => apply wp_modify
  | |- wp (ask _) _ _ => let Ha := fresh "Hask" in apply wp_ask; intros ? Ha
  | |- wp (when _ _) _ _ => let Hb := fresh "Hif" in apply wp_when; intros Hb
  | |- wp (if _ then _ else _) _ _ => let Hb := fresh "Hif" in apply wp_if; intros Hb
  end.

Ltac wp_steps := repeat (wp_step; cbn beta).

Section effects.
Context {W : Type} `{RecordLogLaws W}.
Implicit Types (s : t W) (l : list WalEntryContents).

(** ** What an operation leaves alone *)

(** The messages and the calls of the catch-up that an operation adds. *)
Definition is_call (o : output) : bool :=
  match o with StartPeerCatchUp _ | StopPeerCatchUp => true | _ => false end.

Definition calls (out : list output) : list output := filter is_call out.

Definition emits s s' (msgs : list message) (cs : list output) : Prop :=
  ∃ out, outputs s' = outputs s ++ out ∧ posted out = msgs ∧ calls out = cs.

Lemma emits_refl s : emits s s [] [].
Proof. exists []. by rewrite app_nil_r. Qed.

Lemma emits_trans s1 s2 s3 m1 c1 m2 c2 :
  emits s1 s2 m1 c1 → emits s2 s3 m2 c2 → emits s1 s3 (m1 ++ m2) (c1 ++ c2).
Proof.
  intros (o1 & Ho1 & <- & <-) (o2 & Ho2 & <- & <-). exists (o1 ++ o2).
  rewrite Ho2, Ho1, app_assoc. split_and!; [done| |].
  - unfold posted. by rewrite bind_app.
  - unfold calls. by rewrite filter_app.
Qed.

Lemma emits_trans_nil s1 s2 s3 m c :
  emits s1 s2 [] [] → emits s2 s3 m c → emits s1 s3 m c.
Proof. apply emits_trans. Qed.

Lemma emits_same s s' : outputs s' = outputs s → emits s s' [] [].
Proof. intros Ho. exists []. by rewrite app_nil_r. Qed.

Lemma emits_quiet s s' out :
  outputs s' = outputs s ++ out → Forall (λ o, to_peer o = [] ∧ is_call o = false) out →
  emits s s' [] [].
Proof.
  intros Ho Hq. exists out. split; [done|]. clear Ho.
  induction Hq as [|o out [Hp Hc] _ [IHp IHc]]; [done|]. split.
  - unfold posted in *. cbn. by rewrite Hp, IHp.
  - unfold calls in *. rewrite filter_cons_False by (rewrite Hc; intros []). done.
Qed.

(** What the leader knows of its follower. *)
Definition knows s : bool * Z * bool * Z * Z * option (Z * Z) :=
  let l := as_leader s in
  (follower_wal_matches_ l, peer_acked_through_ l, peer_catching_up_ l,
   peer_catch_up_after_ l, peer_handed_over_at_ l, unanswered_request_ l).

Definition agrees s : bool := follower_wal_agreed_ (as_follower s).

Record same_log s s' : Prop := mk_same_log {
  sl_configuration : configuration_ s' = configuration_ s;
  sl_around : around s' = around s;
  sl_wal : wal_ s' = wal_ s;
  sl_table : log_epochs_ s' = log_epochs_ s;
  sl_next : next_seq_no_ s' = next_seq_no_ s
}.

Lemma same_log_refl s : same_log s s.
Proof. done. Qed.

Lemma same_log_trans s1 s2 s3 : same_log s1 s2 → same_log s2 s3 → same_log s1 s3.
Proof. intros [] []. constructor; congruence. Qed.

(** The operation has changed nothing the peer sees. *)
Record steady s s' : Prop := mk_steady {
  sy_log : same_log s s';
  sy_role : role_ s' = role_ s;
  sy_epoch : epoch_ s' = epoch_ s;
  sy_knows : knows s' = knows s;
  sy_agrees : agrees s' = agrees s;
  sy_emits : emits s s' [] []
}.

Lemma steady_refl s : steady s s.
Proof. constructor; [apply same_log_refl|done..|apply emits_refl]. Qed.

Lemma steady_trans s1 s2 s3 : steady s1 s2 → steady s2 s3 → steady s1 s3.
Proof.
  intros [] []. constructor; [by eapply same_log_trans|congruence..|].
  by eapply emits_trans_nil.
Qed.

Lemma steady_leases s ls out :
  Forall (λ o, to_peer o = [] ∧ is_call o = false) out →
  steady s (with_leases s ls (outputs s ++ out)).
Proof. intros Hq. constructor; try done. by eapply emits_quiet. Qed.

Lemma steady_leading s f :
  knows (with_leader s (f (as_leader s))) = knows s →
  steady s (with_leader s (f (as_leader s))).
Proof. intros Hk. constructor; try done. by apply emits_same. Qed.

Lemma steady_tell s o :
  to_peer o = [] → is_call o = false → steady s (with_outputs s (outputs s ++ [o])).
Proof.
  intros Hp Hc. constructor; try done. eapply emits_quiet; [done|]. by repeat constructor.
Qed.

Lemma on_lease_steady {A} (d : A) m s : wp (on_lease d m) (λ s' _, steady s s') s.
Proof.
  intros s' a. unfold on_lease. destruct (lease_agent_ (on_leases s)); intros [= <- _].
  - apply steady_leases. apply Forall_fmap, Forall_true. done.
  - apply steady_refl.
Qed.

Lemma publish_committed_steady n s : wp (publish_committed n) (λ s' _, steady s s') s.
Proof. unfold publish_committed. wp_steps; [by apply steady_tell|apply steady_refl]. Qed.

Lemma advance_commit_steady s : wp advance_commit (λ s' _, steady s s') s.
Proof.
  unfold advance_commit. wp_steps; try apply steady_refl.
  eapply wp_mono; [apply publish_committed_steady|]. cbn beta. intros s' _ Hs. wp_steps.
  eapply steady_trans; [|by apply steady_tell].
  eapply steady_trans; [|exact Hs]. by apply steady_leading.
Qed.

Lemma say_may_not_lead_steady now s :
  wp (say_follower_may_not_lead now) (λ s' _, steady s s') s.
Proof. unfold say_follower_may_not_lead. wp_steps; [apply steady_refl|apply on_lease_steady]. Qed.

Lemma say_may_lead_steady now s :
  wp (say_follower_may_lead_if_it_holds_everything now) (λ s' _, steady s s') s.
Proof.
  unfold say_follower_may_lead_if_it_holds_everything.
  wp_steps; try apply steady_refl. apply on_lease_steady.
Qed.

(** Two steady operations one after the other. *)
Lemma steady_seq {A B} (m : comp (t W) A) (f : A → comp (t W) B) s0 s :
  steady s0 s → wp m (λ s' _, steady s s') s →
  (∀ s' a, steady s0 s' → wp (f a) (λ s'' _, steady s0 s'') s') →
  wp (m ≫= f) (λ s' _, steady s0 s') s.
Proof.
  intros H0' Hm Hf. apply wp_bind. eapply wp_mono; [exact Hm|]. cbn beta. intros s' a Hs.
  apply Hf. by eapply steady_trans.
Qed.

Lemma steady_from {A} (m : comp (t W) A) s0 s :
  steady s0 s → wp m (λ s' _, steady s s') s → wp m (λ s' _, steady s0 s') s.
Proof. intros H0' Hm. eapply wp_mono; [exact Hm|]. intros s' a Hs. by eapply steady_trans. Qed.

Lemma start_running_alone_steady now s :
  wp (start_running_alone now) (λ s' _, steady s s') s.
Proof.
  unfold start_running_alone. wp_steps; [apply steady_refl|].
  eapply wp_mono; [apply say_may_not_lead_steady|]. cbn beta. intros s1 _ Hs1.
  eapply steady_from; [|apply advance_commit_steady].
  eapply steady_trans; [|exact Hs1]. 
  by apply (steady_leading _ (λ x, set_waiting_since None (set_running_alone true x))).
Qed.

Lemma stop_running_alone_steady s : wp stop_running_alone (λ s' _, steady s s') s.
Proof. unfold stop_running_alone. wp_steps. by apply steady_leading. Qed.

Lemma follower_too_far_behind_steady now s :
  wp (follower_too_far_behind now) (λ s' _, steady s s') s.
Proof.
  unfold follower_too_far_behind. wp_steps; [apply start_running_alone_steady|apply steady_refl].
Qed.

Lemma on_acknowledgement_watch_steady now s :
  wp (on_acknowledgement_watch now) (λ s' _, steady s s') s.
Proof.
  unfold on_acknowledgement_watch. wp_steps.
  destruct (waiting_since_ (as_leader s)); wp_steps;
    [apply start_running_alone_steady|apply steady_refl..].
Qed.

(** ** Writing *)

(** The log holds these records, and the table describes them. *)
Definition stores s l : Prop :=
  log_holds (wal_ s) l ∧ LogEpochTable.describes (log_epochs_ s) (leader_epoch <$> l).

Lemma stores_last s l : stores s l → ReplicatedWal.last_seq_no s = Z.of_nat (length l).
Proof.
  intros [_ [_ Hd]]. unfold ReplicatedWal.last_seq_no, LogEpochTable.last_seq_no.
  by rewrite Hd, length_fmap.
Qed.

Lemma stores_same s s' l : same_log s s' → stores s l → stores s' l.
Proof. intros Hs [Hw Ht]. split; [by rewrite (sl_wal _ _ Hs)|by rewrite (sl_table _ _ Hs)]. Qed.

(** Only the log has changed, and nothing is sent. *)
Record relogs s s' : Prop := mk_relogs {
  rl_configuration : configuration_ s' = configuration_ s;
  rl_around : around s' = around s;
  rl_role : role_ s' = role_ s;
  rl_epoch : epoch_ s' = epoch_ s;
  rl_next : next_seq_no_ s' = next_seq_no_ s;
  rl_leases : on_leases s' = on_leases s;
  rl_follower : as_follower s' = as_follower s;
  rl_leader : as_leader s' = as_leader s;
  rl_emits : emits s s' [] []
}.

Lemma publish_written_relogs n s :
  wp (publish_written n) (λ s' _, relogs s s' ∧ same_log s s') s.
Proof.
  unfold publish_written. wp_steps.
  - split; [|done]. constructor; try done. apply emits_refl.
  - by intros s' a.
  - split; [|done]. constructor; try done. eapply emits_quiet; [done|]. by repeat constructor.
Qed.

Lemma write_ok s l c :
  stores s l → log_room (wal_ s) c →
  wp (write (Z.of_nat (length l) + 1) c) (λ s' _, stores s' (l ++ [c]) ∧ relogs s s') s.
Proof.
  intros Hst Hroom. pose proof Hst as [Hw Ht]. unfold write. apply wp_bind.
  destruct (log_append_law _ _ _ Hw Hroom) as (w' & Happ & Hw').
  intros s1 []. unfold on_wal. rewrite Happ. intros [= <-]. cbn [fst snd].
  apply wp_bind. eapply wp_mono; [apply publish_written_relogs|]. cbn beta. intros s2 _ [Hr Hs].
  wp_steps.
  - pose proof (sl_table _ _ Hs) as Htab. cbn in Htab.
    exfalso. unfold ReplicatedWal.last_seq_no, LogEpochTable.last_seq_no in *.
    rewrite Htab in *. rewrite (proj2 Ht), length_fmap in *. bool_to_prop. lia.
  - intros s3 []. unfold on_table. pose proof (sl_table _ _ Hs) as Htab. cbn in Htab. rewrite Htab.
    destruct (LogEpochTable.apply_describes
      (LogEpochTable.NoteRecord (Z.of_nat (length l) + 1) (leader_epoch c)) _ _ Ht) as [Hd Hret].
    cbn in Hd, Hret. rewrite length_fmap, Z.eqb_refl in Hd, Hret. rewrite Hret. intros [= <-].
    split.
    + split; cbn; [by rewrite (sl_wal _ _ Hs)|]. by rewrite fmap_app.
    + constructor; apply Hr.
Qed.

(** The record an append makes. *)
Definition appended s (pdu wall : Z) (bytes : list Z) : WalEntryContents :=
  mk_contents wall (epoch_ s) pdu bytes.

Lemma append_effect pdu bytes wall now s l :
  stores s l → next_seq_no_ s = Z.of_nat (length l) + 1 →
  log_room (wal_ s) (appended s pdu wall bytes) →
  wp (append pdu bytes wall now) (λ s' _,
    let c := appended s pdu wall bytes in
    stores s' (l ++ [c]) ∧ next_seq_no_ s' = Z.of_nat (length l) + 2 ∧
    configuration_ s' = configuration_ s ∧ around s' = around s ∧ role_ s' = role_ s ∧
    epoch_ s' = epoch_ s ∧ knows s' = knows s ∧
    emits s s' (if follower_wal_matches_ (as_leader s) && connected s
                then [MRecord (Z.of_nat (length l) + 1) c] else []) []) s.
Proof.
  intros Hst Hnext Hroom. unfold append. wp_steps.
  rewrite Hnext. set (c := mk_contents _ _ _ _).
  set (s1 := with_next s _).
  eapply wp_mono; [apply (write_ok s1 l c); [done|exact Hroom]|].
  cbn beta. intros s2 _ [Hst2 Hr]. apply wp_bind, wp_this. apply wp_bind.
  assert (Hm : follower_wal_matches_ (as_leader s2) && connected s2
               = follower_wal_matches_ (as_leader s) && connected s).
  { unfold connected. by rewrite (rl_leader _ _ Hr), (rl_around _ _ Hr). }
  rewrite Hm. set (b := _ && _).
  set (msgs := if b then _ else []).
  apply (wp_mono _ (λ s3 _, same_log s2 s3 ∧ role_ s3 = role_ s2 ∧ epoch_ s3 = epoch_ s2 ∧
    as_leader s3 = as_leader s2 ∧ emits s2 s3 msgs [])).
  { unfold msgs. destruct b; cbn [when].
    - apply wp_modify. split_and!; try done. by eexists [SendRecord _ _].
    - apply wp_ret. split_and!; try done. apply emits_refl. }
  intros s3 _ (Hs3 & Hrole3 & Hep3 & Hl3 & He3).
  set (Q := λ (s' : t W) (_ : Z), _).
  assert (HQ : ∀ s4, steady s3 s4 → Q s4 (Z.of_nat (length l) + 1)).
  { intros s4 Hs4. unfold Q.
    assert (Hk : knows s4 = knows s).
    { rewrite (sy_knows _ _ Hs4). unfold knows. by rewrite Hl3, (rl_leader _ _ Hr). }
    pose proof (same_log_trans _ _ _ Hs3 (sy_log _ _ Hs4)) as Hlog.
    split_and!.
    - by eapply stores_same.
    - rewrite (sl_next _ _ Hlog), (rl_next _ _ Hr). cbn. lia.
    - rewrite (sl_configuration _ _ Hlog). apply Hr.
    - rewrite (sl_around _ _ Hlog). apply Hr.
    - rewrite (sy_role _ _ Hs4), Hrole3. apply Hr.
    - rewrite (sy_epoch _ _ Hs4), Hep3. apply Hr.
    - done.
    - eapply emits_trans_nil; [exact (rl_emits _ _ Hr)|].
      assert (emits s2 s4 (msgs ++ []) ([] ++ [])) as He.
      { eapply emits_trans; [done|apply Hs4]. }
      by rewrite app_nil_r in He. }
  apply wp_bind. apply (wp_mono _ (λ s4 _, steady s3 s4)).
  - wp_steps.
    + apply (steady_leading _ (λ x, match waiting_since_ x with
                                    | None => set_waiting_since (Some now) x | Some _ => x end)).
      unfold knows. cbn. by destruct (waiting_since_ (as_leader s3)).
    + apply say_may_not_lead_steady.
    + apply steady_refl.
  - intros s4 _ Hs4. apply wp_bind. eapply wp_mono; [apply advance_commit_steady|].
    cbn beta. intros s5 _ Hs5. apply wp_ret, HQ. by eapply steady_trans.
Qed.

(** ** The leader *)

(** The operation leaves the log, and the leader knowing [k]. *)
Record leads s s' (k : bool * Z * bool * Z * Z * option (Z * Z))
    (msgs : list message) (cs : list output) : Prop := mk_leads {
  ls_log : same_log s s';
  ls_role : role_ s' = role_ s;
  ls_epoch : epoch_ s' = epoch_ s;
  ls_knows : knows s' = k;
  ls_emits : emits s s' msgs cs
}.

Lemma leads_steady s s1 s2 k msgs cs :
  leads s s1 k msgs cs → steady s1 s2 → leads s s2 k msgs cs.
Proof.
  intros [] []. constructor; [by eapply same_log_trans|congruence..|].
  assert (emits s s2 (msgs ++ []) (cs ++ [])) as He by by eapply emits_trans.
  by rewrite !app_nil_r in He.
Qed.

Lemma steady_leads s s' : steady s s' → leads s s' (knows s) [] [].
Proof. intros []. by constructor. Qed.

Lemma leads_leading s f :
  leads s (with_leader s (f (as_leader s))) (knows (with_leader s (f (as_leader s)))) [] [].
Proof. constructor; try done. by apply emits_same. Qed.

Lemma leads_trans s1 s2 s3 k1 k2 m1 m2 c1 c2 :
  leads s1 s2 k1 m1 c1 → leads s2 s3 k2 m2 c2 → leads s1 s3 k2 (m1 ++ m2) (c1 ++ c2).
Proof.
  intros [] []. constructor; [by eapply same_log_trans|congruence..|by eapply emits_trans].
Qed.

Lemma leads_tell s o : leads s (with_outputs s (outputs s ++ [o])) (knows s)
  (to_peer o) (calls [o]).
Proof.
  constructor; try done. exists [o]. split_and!; [done| |done].
  unfold posted. cbn. by rewrite app_nil_r.
Qed.

Lemma leads_then_tell s s1 k msgs cs o :
  leads s s1 k msgs cs →
  leads s (with_outputs s1 (outputs s1 ++ [o])) k (msgs ++ to_peer o) (cs ++ calls [o]).
Proof.
  intros Hl. pose proof (leads_trans _ _ _ _ _ _ _ _ _ Hl (leads_tell s1 o)) as Ht.
  by rewrite (ls_knows _ _ _ _ _ Hl) in Ht.
Qed.

Lemma leads_then_leading s s1 k k' msgs cs f :
  leads s s1 k msgs cs → knows (with_leader s1 (f (as_leader s1))) = k' →
  leads s (with_leader s1 (f (as_leader s1))) k' msgs cs.
Proof.
  intros Hl <-. pose proof (leads_trans _ _ _ _ _ _ _ _ _ Hl (leads_leading s1 f)) as Ht.
  by rewrite !app_nil_r in Ht.
Qed.

(** A steady operation after one that led to [k]. *)
Lemma leads_then {A} (m : comp (t W) A) s s1 k msgs cs :
  leads s s1 k msgs cs → wp m (λ s' _, steady s1 s') s1 →
  wp m (λ s' _, leads s s' k msgs cs) s1.
Proof. intros Hl Hm. eapply wp_mono; [exact Hm|]. intros s' a Hs. by eapply leads_steady. Qed.

Lemma handle_ack_effect n now s :
  role_ s = leader →
  wp (handle_ack n now) (λ s' _,
    leads s s' (follower_wal_matches_ (as_leader s),
                Z.max (peer_acked_through_ (as_leader s)) n,
                peer_catching_up_ (as_leader s), peer_catch_up_after_ (as_leader s),
                peer_handed_over_at_ (as_leader s), unanswered_request_ (as_leader s)) [] []) s.
Proof.
  intros Hrole. unfold handle_ack. wp_step. wp_step. rewrite Hrole. cbn [is_leader negb].
  wp_step. wp_step. cbn beta. set (s1 := with_leader s _).
  assert (H1 : leads s s1 (follower_wal_matches_ (as_leader s),
                Z.max (peer_acked_through_ (as_leader s)) n,
                peer_catching_up_ (as_leader s), peer_catch_up_after_ (as_leader s),
                peer_handed_over_at_ (as_leader s), unanswered_request_ (as_leader s)) [] []).
  { apply leads_leading. }
  wp_step. wp_step. wp_step.
  apply (wp_mono _ (λ s2 _, steady s1 s2)).
  { wp_steps; try apply steady_refl; by apply steady_leading. }
  intros s2 _ Hs2. wp_step. eapply wp_mono.
  { apply (wp_when _ _ (λ s3 _, steady s1 s3)); intros _; [|done].
    eapply steady_from; [exact Hs2|]. apply stop_running_alone_steady. }
  cbn beta. intros s3 _ Hs3. wp_step. eapply wp_mono.
  { eapply steady_from; [exact Hs3|]. apply advance_commit_steady. }
  cbn beta. intros s4 _ Hs4. apply leads_then; [by eapply leads_steady|].
  apply say_may_lead_steady.
Qed.

(** Whether a follower that is not known to agree can ask. *)
Definition asking s : list message :=
  if ha s && connected s
  then [MRequest (ReplicatedWal.last_seq_no s) (LogEpochTable.last_epoch (log_epochs_ s))]
  else [].

Definition ask_again_of s : list message :=
  if ha s && is_leader (role_ s) && connected s then [MReply asks_again] else [].

Lemma forget_agreement_effect s :
  wp forget_agreement (λ s' _,
    leads s s' (false, peer_acked_through_ (as_leader s), false,
                peer_catch_up_after_ (as_leader s), 0, None) (ask_again_of s)
      (if peer_catching_up_ (as_leader s) && catches_up s then [StopPeerCatchUp] else []) ∧
    agrees s' = false) s.
Proof.
  unfold forget_agreement, ask_again_of. wp_step. wp_step. wp_step. wp_step. wp_step. wp_step.
  set (s1 := with_leader s _). set (s2 := with_follower s1 _).
  set (k := (false, peer_acked_through_ (as_leader s), false,
                peer_catch_up_after_ (as_leader s), 0, @None (Z * Z))).
  assert (H2 : leads s s2 (false, peer_acked_through_ (as_leader s),
      peer_catching_up_ (as_leader s), peer_catch_up_after_ (as_leader s), 0, None) [] [] ∧
      agrees s2 = false).
  { split; [|done]. constructor; try done. by apply emits_same. }
  wp_step. set (cs := if _ && catches_up s then _ else _).
  apply (wp_mono _ (λ s3 _, leads s s3 k [] cs ∧ agrees s3 = false)).
  { unfold cs. destruct (peer_catching_up_ (as_leader s)) eqn:Hc; cbn [when].
    - wp_step. wp_step. set (s3 := with_leader s2 _).
      assert (H3 : leads s s3 k [] []). { constructor; try done. by apply emits_same. }
      destruct (catches_up s); cbn [when andb]; wp_steps; [|by split].
      split; [|done]. constructor; try done. by exists [StopPeerCatchUp].
    - wp_step. cbn [andb]. destruct H2 as [H2 H2']. split; [|done].
      exact H2. }
  intros s3 _ [H3 Ha3]. apply wp_when; intros Hb; rewrite Hb; [|done]. wp_steps.
  split; [|done]. pose proof (leads_then_tell _ _ _ _ _ (SendPositionReply asks_again) H3) as H4.
  change (calls [_]) with (@nil output) in H4. by rewrite app_nil_r in H4.
Qed.

Lemma send_position_request_leader now s :
  role_ s = leader → wp (send_position_request now) (λ s' _, s' = s) s.
Proof.
  intros Hrole. unfold send_position_request. wp_steps; [done|..].
  all: rewrite Hrole in *; destruct (ha s); cbn in *; done.
Qed.

Lemma leader_up_effect now s :
  role_ s = leader →
  wp (on_peer_connection_established now) (λ s' _,
    leads s s' (false, peer_acked_through_ (as_leader s), false,
                peer_catch_up_after_ (as_leader s), 0, None) (ask_again_of s)
      (if peer_catching_up_ (as_leader s) && catches_up s then [StopPeerCatchUp] else [])) s.
Proof.
  intros Hrole. unfold on_peer_connection_established. wp_step.
  eapply wp_mono; [apply forget_agreement_effect|]. cbn beta. intros s1 _ [H1 _].
  eapply wp_mono; [apply send_position_request_leader|].
  { by rewrite (ls_role _ _ _ _ _ H1). }
  by intros s2 _ ->.
Qed.

Lemma leader_lost_effect now s :
  wp (on_peer_connection_lost now) (λ s' _,
    leads s s' (false, peer_acked_through_ (as_leader s), false,
                peer_catch_up_after_ (as_leader s), 0, None) (ask_again_of s)
      (if peer_catching_up_ (as_leader s) && catches_up s then [StopPeerCatchUp] else []) ∧
    agrees s' = false) s.
Proof.
  unfold on_peer_connection_lost. wp_step.
  eapply wp_mono; [apply forget_agreement_effect|]. cbn beta. intros s1 _ [H1 Ha1].
  set (Q := λ (s' : t W) (_ : unit), _).
  assert (HQ : ∀ s2, steady s1 s2 → Q s2 ()).
  { intros s2 Hs2. split; [by eapply leads_steady|]. by rewrite (sy_agrees _ _ Hs2). }
  wp_step. wp_step. wp_step.
  apply (wp_mono _ (λ s2 _, steady s1 s2)).
  { apply wp_when; intros _; [apply stop_running_alone_steady|apply steady_refl]. }
  intros s2 _ Hs2. wp_step. apply (wp_mono _ (λ s3 _, steady s1 s3)).
  { apply wp_when; intros _; [|done]. eapply steady_from; [done|]. apply say_may_not_lead_steady. }
  intros s3 _ Hs3. eapply wp_mono; [eapply steady_from; [exact Hs3|]; apply advance_commit_steady|].
  cbn beta. intros s4 []. apply HQ.
Qed.

(** *** A request of the follower's *)

(** The messages that carry the records after [n]. *)
Definition records_after (n : Z) l : list message :=
  (λ r, MRecord r.1 r.2) <$> numbered_from (n + 1) (drop (Z.to_nat n) l).

Lemma numbered_from_app from l1 l2 :
  numbered_from from (l1 ++ l2)
    = numbered_from from l1 ++ numbered_from (from + Z.of_nat (length l1)) l2.
Proof.
  revert from. induction l1 as [|c l1 IH]; intros from; cbn [numbered_from app length].
  - by rewrite Z.add_0_r.
  - rewrite IH. do 2 f_equal. f_equal. lia.
Qed.

Lemma send_after_effect n recs s :
  wp (send_after n recs) (λ s' _,
    leads s s' (knows s) ((λ r, MRecord r.1 r.2) <$> filter (λ r, n < r.1) recs) []) s.
Proof.
  revert s. induction recs as [|[m c] recs IH]; intros s; cbn [send_after].
  - wp_steps. apply steady_leads, steady_refl.
  - wp_step. apply wp_when; intros Hb; bool_to_prop.
    + wp_step. eapply wp_mono; [apply IH|]. cbn beta. intros s' _ Hs'.
      rewrite filter_cons_True by done. cbn [fmap list_fmap].
      pose proof (leads_trans _ _ _ _ _ _ _ _ _ (leads_tell s (SendRecord m c)) Hs') as Hl. exact Hl.
    + rewrite filter_cons_False by (cbn; lia). apply IH.
Qed.

Lemma filter_numbered n from l :
  1 ≤ from ≤ n + 1 → n ≤ from - 1 + Z.of_nat (length l) →
  filter (λ r, n < r.1) (numbered_from from l)
    = numbered_from (n + 1) (drop (Z.to_nat (n + 1 - from)) l).
Proof.
  revert from. induction l as [|c l IH]; intros from Hfrom Hn; cbn [numbered_from length] in *.
  - by rewrite drop_nil.
  - destruct (decide (from = n + 1)) as [->|].
    + rewrite Z.sub_diag. change (Z.to_nat 0) with 0%nat. rewrite drop_0.
      rewrite filter_cons_True by (cbn; lia). cbn [numbered_from]. f_equal. clear -n.
      assert (Hall : ∀ k, n < k → filter (λ r, n < r.1) (numbered_from k l) = numbered_from k l).
      { induction l as [|c' l IHl]; intros k Hk; cbn [numbered_from]; [done|].
        rewrite filter_cons_True by done. f_equal. apply IHl. lia. }
      apply Hall. lia.
    + rewrite filter_cons_False by (cbn; lia). rewrite IH by lia.
      by replace (Z.to_nat (n + 1 - from)) with (S (Z.to_nat (n + 1 - (from + 1)))) by lia.
Qed.

(** What the leader does with a request. *)
Definition answers s l (n e : Z) s' : Prop :=
  let ld := as_leader s in
  (connected s = false ∧ s' = s) ∨
  connected s = true ∧
  ∃ r, position_reply s n e = Returns r ∧
    ((catches_up s = true ∧ reply_agreed r = true ∧ peer_catching_up_ ld = true ∧
      n = peer_catch_up_after_ ld ∧ s' = s) ∨
     (catches_up s = true ∧ peer_catching_up_ ld = true ∧
      leads s s' (follower_wal_matches_ ld, peer_acked_through_ ld, false,
        peer_catch_up_after_ ld, peer_handed_over_at_ ld, Some (n, e)) [] [StopPeerCatchUp]) ∨
     (catches_up s = true ∧ peer_catching_up_ ld = false ∧ reading_stopped s = false ∧
      leads s s' (follower_wal_matches_ ld, peer_acked_through_ ld, false,
        peer_catch_up_after_ ld, peer_handed_over_at_ ld, Some (n, e)) [] []) ∨
     ((catches_up s = true → peer_catching_up_ ld = false ∧ reading_stopped s = true) ∧
      ((reply_agreed r = false ∧
        leads s s' (follower_wal_matches_ ld, peer_acked_through_ ld, peer_catching_up_ ld,
          peer_catch_up_after_ ld, peer_handed_over_at_ ld, None) [MReply r] []) ∨
       (reply_agreed r = true ∧ catches_up s = true ∧
        ∃ h, leads s s' (false, n, true, n, h, None) [MReply r] [StartPeerCatchUp n]) ∨
       (reply_agreed r = true ∧ catches_up s = false ∧
        leads s s' (true, n, peer_catching_up_ ld, peer_catch_up_after_ ld,
          Z.of_nat (length l), None) (MReply r :: records_after n l) [])))).

Lemma answer_position_request_effect s l n r :
  stores s l → 0 ≤ n → (reply_agreed r = true → n ≤ Z.of_nat (length l)) →
  wp (answer_position_request n r) (λ s' _,
    let ld := as_leader s in
    (reply_agreed r = false ∧
     leads s s' (follower_wal_matches_ ld, peer_acked_through_ ld, peer_catching_up_ ld,
       peer_catch_up_after_ ld, peer_handed_over_at_ ld, None) [MReply r] []) ∨
    (reply_agreed r = true ∧ catches_up s = true ∧
     ∃ h, leads s s' (false, n, true, n, h, None) [MReply r] [StartPeerCatchUp n]) ∨
    (reply_agreed r = true ∧ catches_up s = false ∧
     leads s s' (true, n, peer_catching_up_ ld, peer_catch_up_after_ ld,
       Z.of_nat (length l), None) (MReply r :: records_after n l) [])) s.
Proof.
  intros Hst Hn Hlen. unfold answer_position_request. wp_step. wp_step. wp_step. wp_step.
  set (s1 := with_outputs _ _). set (ld := as_leader s).
  assert (H1 : leads s s1 (follower_wal_matches_ ld, peer_acked_through_ ld,
    peer_catching_up_ ld, peer_catch_up_after_ ld, peer_handed_over_at_ ld, None) [MReply r] []).
  { constructor; try done. by exists [SendPositionReply r]. }
  destruct (reply_agreed r) eqn:Hagreed; cbn [negb]; [|wp_step; by left].
  wp_step. wp_step. wp_step.
  apply (wp_mono _ (λ s2 _, ∃ h, leads s s2 (false, peer_acked_through_ ld,
    peer_catching_up_ ld, peer_catch_up_after_ ld, h, None) [MReply r] [])).
  { apply wp_when; intros Hm.
    - wp_steps. exists 0.
      apply (leads_then_leading _ _ _ _ _ _ (λ x, set_handed_over_at 0 (set_matches false x)) H1). done.
    - exists (peer_handed_over_at_ ld). cbn in Hm. unfold ld in *. by rewrite Hm in H1. }
  intros s2 _ [h H2]. wp_step. wp_step.
  assert (H3 : leads s (with_leader s2 (set_acked n (as_leader s2)))
    (false, n, peer_catching_up_ ld, peer_catch_up_after_ ld, h, None) [MReply r] []).
  { apply (leads_then_leading _ _ _ _ _ _ (set_acked n) H2).
    pose proof (ls_knows _ _ _ _ _ H2) as Hk. unfold knows in *. cbn in *. congruence. }
  set (s3 := with_leader s2 _) in *.
  change (catches_up s1) with (catches_up s). destruct (catches_up s) eqn:Hc.
  - wp_step. wp_step. wp_step. right. left. split_and!; [done..|]. exists h.
    assert (H4 : leads s (with_leader s3 (set_catch_up_after n (set_catching_up true (as_leader s3))))
      (false, n, true, n, h, None) [MReply r] []).
    { apply (leads_then_leading _ _ _ _ _ _ (λ x, set_catch_up_after n (set_catching_up true x)) H3).
      pose proof (ls_knows _ _ _ _ _ H3) as Hk. unfold knows in *. cbn in *. congruence. }
    apply (leads_then_tell _ _ _ _ _ (StartPeerCatchUp n) H4).
  - wp_step. intros s4 recs.
    pose proof (stores_same _ _ _ (ls_log _ _ _ _ _ H3) Hst) as Hst3.
    destruct (log_replay_law _ _ (n + 1) (proj1 Hst3)) as (k & Hk & Hrep); [lia|].
    unfold on_wal. rewrite Hrep. intros [= <- <-]. cbn [fst snd].
    change (with_log s3 _ _) with s3. wp_step. eapply wp_mono; [apply send_after_effect|]. cbn beta. intros s5 _ H5.
    wp_step. wp_step. wp_step. right. right. split_and!; [done..|].
    rewrite filter_numbered in H5.
    2: lia. 2: { rewrite length_drop. specialize (Hlen eq_refl). lia. }
    rewrite drop_drop in H5.
    replace (k + Z.to_nat (n + 1 - (1 + Z.of_nat k)))%nat with (Z.to_nat n) in H5 by lia.
    fold (records_after n l) in H5.
    pose proof (leads_trans _ _ _ _ _ _ _ _ _ H3 H5) as H6. cbn [app] in H6.
    apply (leads_then_leading _ _ _ _ _ _ (λ x, set_handed_over_at (ReplicatedWal.last_seq_no s5)
      (set_matches true x)) H6).
    pose proof (ls_knows _ _ _ _ _ H6) as Hk6. rewrite (ls_knows _ _ _ _ _ H3) in Hk6.
    unfold knows in *. cbn in *.
    rewrite (stores_last s5 l). 2: { by eapply stores_same; [apply H6|]. }
    congruence.
Qed.

Record replies_with l (n e : Z) (r : LogPositionReply) : Prop := mk_replies {
  rp_again : ask_again r = false;
  rp_range : 0 ≤ reply_seq_no r ≤ n;
  rp_within : reply_seq_no r ≤ Z.of_nat (length l);
  rp_epoch : reply_seq_no r = 0 ∨
    LogEpochTable.epoch_at (leader_epoch <$> l) (reply_seq_no r) = Some (reply_epoch r);
  rp_agreed : reply_agreed r = true ↔
    n = 0 ∨ LogEpochTable.epoch_at (leader_epoch <$> l) n = Some e;
  rp_whole : reply_agreed r = true → reply_seq_no r = n;
  rp_above m e1 : m ≤ n → LogEpochTable.epoch_at (leader_epoch <$> l) m = Some e1 →
    e1 ≤ e → m ≤ reply_seq_no r;
  rp_below : reply_seq_no r = 0 ∨ ∃ k e1, reply_seq_no r ≤ k ∧
    LogEpochTable.epoch_at (leader_epoch <$> l) k = Some e1 ∧ e1 ≤ e
}.

Lemma position_reply_ok s l n e :
  stores s l → 0 ≤ n → ∃ r, position_reply s n e = Returns r ∧ replies_with l n e r.
Proof.
  intros [_ Hd] Hn. unfold position_reply, LogEpochTable.answer_position.
  pose proof (LogEpochTable.last_record_describes _ _ e Hd) as (Hk & Hhere & Hafter).
  set (k := LogEpochTable.last_record_at_or_before (log_epochs_ s) e) in *.
  set (es := leader_epoch <$> l) in *.
  assert (Hlen : length es = length l) by apply length_fmap.
  assert (Habove : ∀ m e1, m ≤ n → LogEpochTable.epoch_at es m = Some e1 → e1 ≤ e → m ≤ Z.min n k).
  { intros m e1 Hm He1 Hle. destruct (decide (m ≤ k)); [lia|]. specialize (Hafter m e1 ltac:(lia) He1). lia. }
  destruct (Z.eqb_spec (Z.min n k) 0) as [Hz|Hz]; cbn [obind LogEpochTable.answer_seq_no
    LogEpochTable.answer_epoch].
  - eexists. split; [reflexivity|]. constructor; cbn [ask_again reply_seq_no reply_epoch reply_agreed].
    + done.
    + lia.
    + lia.
    + by left.
    + rewrite Hz. change (0 =? 0) with true. cbn [orb]. rewrite andb_true_r. split.
      * intros ?. bool_to_prop. left. lia.
      * intros [->|He]; [done|]. specialize (Habove n e ltac:(lia) He ltac:(lia)).
        apply LogEpochTable.epoch_at_Some in He. lia.
    + intros ?. bool_to_prop. lia.
    + intros m e1 Hm He1 Hle. by apply (Habove m e1).
    + by left.
  - rewrite (LogEpochTable.epoch_of_describes _ _ _ Hd).
    destruct (LogEpochTable.epoch_at_in es (Z.min n k)) as [e1 He1]; [lia|].
    rewrite He1. cbn [obind LogEpochTable.answer_seq_no LogEpochTable.answer_epoch].
    eexists. split; [reflexivity|]. constructor; cbn [ask_again reply_seq_no reply_epoch reply_agreed].
    + done.
    + lia.
    + lia.
    + by right.
    + destruct (Z.eqb_spec (Z.min n k) 0); [lia|]. cbn [orb]. split.
      * intros ?. bool_to_prop. right. subst e1. by replace n with (Z.min n k).
      * intros [->|He]; [lia|]. specialize (Habove n e ltac:(lia) He ltac:(lia)).
        assert (Z.min n k = n) as Hmin by lia. rewrite Hmin in He1 |- *.
        rewrite Z.eqb_refl. cbn. apply Z.eqb_eq. unfold es in He1. congruence.
    + intros ?. bool_to_prop. lia.
    + done.
    + right. destruct Hhere as [?|(e' & He' & ?)]; [lia|]. exists k, e'. split_and!; [lia|done..].
Qed.

Ltac replied r := right; split; [done|]; exists r; split; [done|].

Lemma handle_position_request_effect s l n e :
  stores s l → role_ s = leader → 0 ≤ n →
  wp (handle_position_request n e) (λ s' _, answers s l n e s') s.
Proof.
  intros Hst Hrole Hn. unfold handle_position_request. wp_step. wp_step. rewrite Hrole.
  cbn [is_leader negb orb]. destruct (connected s) eqn:Hconn; cbn [negb]; [|wp_step; by left].
  destruct (position_reply_ok s l n e Hst Hn) as (r & Hr & Hrep).
  wp_step. apply wp_ask. intros a Ha. assert (a = r) as -> by congruence. clear Ha.
  set (ld := as_leader s).
  set (Q := λ (s' : t W) (_ : unit), _).
  assert (Hanswer : (catches_up s = true → peer_catching_up_ ld = false ∧ reading_stopped s = true) →
    wp (answer_position_request n r) Q s).
  { intros Hfree. eapply wp_mono; [apply (answer_position_request_effect s l n r Hst Hn)|].
    - intros Ha. rewrite <- (rp_whole _ _ _ _ Hrep Ha). apply Hrep.
    - cbn beta. intros s' [] Hs'. replied r. do 3 right. by split. }
  destruct (catches_up s) eqn:Hc; cbn [andb]; [|by apply Hanswer].
  destruct (peer_catching_up_ ld) eqn:Hcu.
  - rewrite andb_true_r. destruct (reply_agreed r && _) eqn:Hdup; bool_to_prop.
    + wp_step. replied r. left. by split_and!.
    + wp_step. wp_step. wp_step. replied r. right. left. split_and!; [done..|].
      apply (leads_then_leading _ _ _ _ _ _ (λ x, set_unanswered (Some (n, e)) (set_catching_up false x))
        (leads_tell s StopPeerCatchUp)). done.
  - rewrite andb_false_r. cbn [andb]. destruct (reading_stopped s) eqn:Hrs; cbn [negb].
    + by apply Hanswer.
    + wp_step. replied r. right. right. left. split_and!; [done..|].
      pose proof (leads_leading s (set_unanswered (Some (n, e)))) as Hl.
      unfold knows in Hl. cbn in Hl. fold ld in Hl. by rewrite Hcu in Hl.
Qed.

Lemma on_peer_caught_up_effect s n :
  role_ s = leader →
  wp (on_peer_caught_up n) (λ s' _,
    let ld := as_leader s in
    if peer_catching_up_ ld
    then leads s s' (true, peer_acked_through_ ld, false, peer_catch_up_after_ ld, n,
                     unanswered_request_ ld) [] []
    else s' = s) s.
Proof.
  intros Hrole. unfold on_peer_caught_up. wp_step. wp_step. rewrite Hrole. cbn [is_leader negb].
  rewrite orb_false_r. destruct (peer_catching_up_ (as_leader s)); cbn [negb]; wp_step; [|done].
  apply (leads_leading s (λ x, set_handed_over_at n (set_matches true (set_catching_up false x)))).
Qed.

Lemma on_peer_catch_up_stopped_effect s l :
  stores s l → role_ s = leader →
  (∀ n e, unanswered_request_ (as_leader s) = Some (n, e) → 0 ≤ n) →
  wp on_peer_catch_up_stopped (λ s' _,
    s' = s ∧ (unanswered_request_ (as_leader s) = None ∨ catches_up s = false ∨
              reading_stopped s = false) ∨ ∃ n e, unanswered_request_ (as_leader s) = Some (n, e) ∧
      answers (with_leader s (set_unanswered None (as_leader s))) l n e s') s.
Proof.
  intros Hst Hrole Hn. unfold on_peer_catch_up_stopped. wp_step. wp_step.
  destruct (unanswered_request_ (as_leader s)) as [[n e]|] eqn:Hu; [|wp_step; by auto].
  apply wp_if; intros Hb; [wp_step; left; split; [done|]|].
  { apply orb_true_iff in Hb as [Hb|Hb]; apply negb_true_iff in Hb; auto. }
  wp_step. wp_step.
  eapply wp_mono; [apply (handle_position_request_effect _ l); [done|done|by eapply Hn]|].
  cbn beta. intros s' _ Hs'. right. by exists n, e.
Qed.

(** ** The leases *)

(** Steady, but for the epoch. *)
Definition near s s' : Prop := steady (with_epoch s (epoch_ s')) s'.

Lemma near_steady s s' : near s s' → epoch_ s' = epoch_ s → steady s s'.
Proof.
  intros Hn He. unfold near in Hn. rewrite He in Hn.
  replace (with_epoch s (epoch_ s)) with s in Hn; [done|]. by destruct s.
Qed.

Lemma steady_near s s' : steady s s' → near s s'.
Proof. intros [[] ? ? ? ? ?]. by constructor; [constructor|..]. Qed.

Lemma near_trans s1 s2 s3 : near s1 s2 → near s2 s3 → near s1 s3.
Proof.
  intros [[] Hr _ Hk Ha He] [[] Hr' _ Hk' Ha' He']. cbn in *.
  constructor; [constructor; cbn; congruence|exact (eq_trans Hr' Hr)|done
    |exact (eq_trans Hk' Hk)|exact (eq_trans Ha' Ha)|].
  eapply emits_trans_nil; [exact He|exact He'].
Qed.

Lemma set_epoch_near n s : wp (set_epoch n) (λ s' _, near s s') s.
Proof.
  unfold set_epoch. wp_steps; [by apply steady_near, steady_refl|].
  constructor; try done. by apply emits_same.
Qed.

Lemma send_position_request_role now s :
  wp (send_position_request now) (λ s' _, role_ s' = role_ s) s.
Proof. unfold send_position_request. by wp_steps. Qed.

Lemma change_role_role r now s : wp (change_role r now) (λ s' _, role_ s' = r) s.
Proof.
  unfold change_role. wp_step. wp_step. destruct (decide (r = role_ s)); [by wp_steps|].
  wp_step. wp_step. wp_step. eapply wp_mono; [apply forget_agreement_effect|].
  cbn beta. intros s1 _ [H1 _]. pose proof (ls_role _ _ _ _ _ H1) as Hr1. cbn in Hr1.
  wp_step. apply (wp_mono _ (λ s2 _, role_ s2 = r)); [|intros s2 _ Hr2; by wp_steps].
  destruct r; wp_steps; try done.
  - eapply wp_mono; [apply publish_committed_steady|]. cbn beta. intros s2 _ H2. wp_steps.
    cbn. rewrite (sy_role _ _ H2). cbn. by case_if.
  - eapply wp_mono; [apply send_position_request_role|]. cbn beta. intros s2 _ H2. wp_steps.
    cbn. by rewrite H2.
Qed.

Lemma act_on_leader ch now s :
  role_ s = leader → wp (act_on ch now) (λ s' _, role_ s' = leader → near s s') s.
Proof.
  intros Hrole. unfold act_on. wp_step. wp_step. wp_step.
  eapply wp_mono; [apply set_epoch_near|]. cbn beta. intros s1 _ H1.
  pose proof (sy_role _ _ H1) as Hr1. cbn in Hr1. rewrite Hrole in Hr1.
  destruct ch.
  - by wp_step.
  - unfold change_role. wp_step. wp_step. rewrite decide_True by done. by wp_step.
  - eapply wp_mono; [apply change_role_role|]. cbn beta. intros s2 _ H2 H3. congruence.
  - eapply wp_mono; [apply change_role_role|]. cbn beta. intros s2 _ H2 H3. congruence.
Qed.

(** Operations that follow one after which the role was the leader's. *)
Lemma leader_then {A} (m : comp (t W) A) s s1 :
  (role_ s1 = leader → near s s1) → wp m (λ s' _, steady s1 s') s1 →
  wp m (λ s' _, role_ s' = leader → near s s') s1.
Proof.
  intros Hl Hm. eapply wp_mono; [exact Hm|]. cbn beta. intros s' a Hs Hrole.
  rewrite (sy_role _ _ Hs) in Hrole. eapply near_trans; [by apply Hl|by apply steady_near].
Qed.

Lemma leader_then_bind {A B} (m : comp (t W) A) (f : A → comp (t W) B) s s1 :
  (role_ s1 = leader → near s s1) → wp m (λ s' _, steady s1 s') s1 →
  (∀ s' a, (role_ s' = leader → near s s') →
     wp (f a) (λ s'' _, role_ s'' = leader → near s s'') s') →
  wp (m ≫= f) (λ s' _, role_ s' = leader → near s s') s1.
Proof.
  intros Hl Hm Hf. apply wp_bind. eapply wp_mono; [by apply leader_then|]. cbn beta. intros s' a.
  apply Hf.
Qed.

Lemma act_on_leader_after ch now s s1 :
  role_ s = leader → steady s s1 →
  wp (act_on ch now) (λ s' _, role_ s' = leader → near s s') s1.
Proof.
  intros Hrole Hs. eapply wp_mono; [apply act_on_leader|].
  - by rewrite (sy_role _ _ Hs).
  - cbn beta. intros s2 _ H2 Hr. eapply near_trans; [by apply steady_near|auto].
Qed.

Lemma dispatch_lease_leader uniform m now s :
  role_ s = leader →
  wp (dispatch_lease uniform m now) (λ s' _, role_ s' = leader → near s s') s.
Proof.
  intros Hrole. assert (Hrefl : role_ s = leader → near s s) by (intros _; apply steady_near, steady_refl).
  destruct m; cbn [dispatch_lease].
  - unfold handle_lease_request. wp_step. wp_step. wp_step; [by wp_step|].
    wp_step. eapply wp_mono; [apply on_lease_steady|]. cbn beta. intros s1 ch H1.
    wp_step. apply (wp_mono _ (λ s2 _, steady s s2)).
    { wp_steps; [|done]. eapply steady_trans; [done|by apply steady_tell]. }
    intros s2 _ H2. by apply act_on_leader_after.
  - unfold handle_lease_grant. wp_step. wp_step. wp_step; [by wp_step|].
    wp_step. eapply wp_mono; [apply on_lease_steady|]. cbn beta. intros s1 ch H1.
    wp_step. eapply wp_mono; [by apply act_on_leader_after|]. cbn beta. intros s2 _ H2.
    apply leader_then; [done|]. apply advance_commit_steady.
  - unfold handle_lease_refusal. wp_step. wp_step. wp_step; [by wp_step|].
    wp_step. eapply wp_mono; [apply on_lease_steady|]. cbn beta. intros s1 ch H1.
    by apply act_on_leader_after.
  - unfold handle_statement_held. wp_step. wp_step. wp_step; [by wp_step|].
    apply leader_then_bind; [done|apply on_lease_steady|]. intros s1 _ H1.
    apply leader_then; [done|]. apply advance_commit_steady.
Qed.

Lemma on_lease_tick_leader uniform now s :
  role_ s = leader →
  wp (on_lease_tick uniform now) (λ s' _, role_ s' = leader → near s s') s.
Proof.
  intros Hrole. unfold on_lease_tick. wp_step. wp_step.
  destruct (lease_agent_ (on_leases s)); [|wp_step; intros _; apply steady_near, steady_refl].
  wp_step. eapply wp_mono; [apply on_lease_steady|]. cbn beta. intros s1 ch H1.
  wp_step. eapply wp_mono; [by apply act_on_leader_after|]. cbn beta. intros s2 _ H2.
  apply leader_then_bind; [done|apply advance_commit_steady|]. intros s3 _ H3.
  apply leader_then_bind; [done|apply say_may_lead_steady|]. intros s4 _ H4.
  wp_step. wp_step. apply wp_when; intros _; [|done].
  intros s5 a H5 Hr5. pose proof (send_position_request_role now s4 s5 a H5) as Hr. cbn beta in Hr.
  rewrite Hr5 in Hr.
  rewrite (send_position_request_leader now s4 (eq_sym Hr) s5 a H5). by apply H4.
Qed.

(** ** The follower *)

(** The log is left as it was; whether it is known to agree is now [b]. *)
Record moves s s' (b : bool) (msgs : list message) : Prop := mk_moves {
  mv_log : same_log s s';
  mv_agrees : agrees s' = b;
  mv_emits : ∃ cs, emits s s' msgs cs
}.

Lemma near_moves s s' : near s s' → moves s s' (agrees s) [].
Proof. intros [[] ? ? ? ? He]. constructor; [by constructor|done|]. exists []. exact He. Qed.

Lemma moves_near s s1 s2 b msgs : moves s s1 b msgs → near s1 s2 → moves s s2 b msgs.
Proof.
  intros [Hl Ha [cs He]] [[] ? ? ? Ha' He']. constructor.
  - eapply same_log_trans; [exact Hl|]. by constructor.
  - rewrite Ha'. exact Ha.
  - exists (cs ++ []). rewrite <- (app_nil_r msgs). eapply emits_trans; [exact He|exact He'].
Qed.

Lemma near_then_moves s s1 s2 b msgs : near s s1 → moves s1 s2 b msgs → moves s s2 b msgs.
Proof.
  intros Hn [Hl Ha [cs He]]. destruct (near_moves _ _ Hn) as [Hl' _ _].
  constructor; [by eapply same_log_trans|done|]. exists cs.
  eapply emits_trans_nil; [|exact He]. destruct Hn as [_ _ _ _ _ He']. exact He'.
Qed.

Lemma moves_trans s s1 s2 b1 b2 m1 m2 :
  moves s s1 b1 m1 → moves s1 s2 b2 m2 → moves s s2 b2 (m1 ++ m2).
Proof.
  intros [Hl _ [cs He]] [Hl' Ha [cs' He']]. constructor; [by eapply same_log_trans|done|].
  exists (cs ++ cs'). by eapply emits_trans.
Qed.

Lemma same_log_asking s s' : same_log s s' → asking s' = asking s.
Proof.
  intros Hs. unfold asking, ha, connected, ReplicatedWal.last_seq_no.
  by rewrite (sl_configuration _ _ Hs), (sl_around _ _ Hs), (sl_table _ _ Hs).
Qed.

Lemma send_position_request_effect now s :
  role_ s ≠ leader →
  wp (send_position_request now) (λ s' _, role_ s' = role_ s ∧
    moves s s' (agrees s) (if agrees s then [] else asking s)) s.
Proof.
  intros Hrole. unfold send_position_request, asking, agrees. wp_step. wp_step.
  assert (is_leader (role_ s) = false) as -> by by destruct (role_ s).
  rewrite orb_false_r.
  destruct (ha s), (connected s), (follower_wal_agreed_ (as_follower s)) eqn:Ha;
    cbn [negb orb andb]; wp_steps; (split; [done|]); constructor; try done.
  all: try (exists []; by apply emits_refl).
  exists []. by eexists [_].
Qed.

Lemma forget_agreement_moves s :
  role_ s ≠ leader →
  wp forget_agreement (λ s' _, role_ s' = role_ s ∧ moves s s' false []) s.
Proof.
  intros Hrole. eapply wp_mono; [apply forget_agreement_effect|]. cbn beta. intros s' _ [Hl Ha].
  split; [apply Hl|]. constructor; [apply Hl|done|]. eexists. pose proof (ls_emits _ _ _ _ _ Hl) as He.
  unfold ask_again_of in He. assert (is_leader (role_ s) = false) as Hf by by destruct (role_ s).
  rewrite Hf, andb_false_r in He. exact He.
Qed.

Lemma follower_up_effect now s :
  role_ s ≠ leader →
  wp (on_peer_connection_established now) (λ s' _, role_ s' = role_ s ∧
    moves s s' false (asking s)) s.
Proof.
  intros Hrole. unfold on_peer_connection_established. wp_step.
  eapply wp_mono; [by apply forget_agreement_moves|]. cbn beta. intros s1 _ [Hr1 H1].
  eapply wp_mono; [apply send_position_request_effect; congruence|]. cbn beta. intros s2 _ [Hr2 H2].
  split; [congruence|]. rewrite (mv_agrees _ _ _ _ H1) in H2.
  rewrite (same_log_asking _ _ (mv_log _ _ _ _ H1)) in H2.
  exact (moves_trans _ _ _ _ _ _ _ H1 H2).
Qed.

Lemma follower_lost_effect now s :
  role_ s ≠ leader →
  wp (on_peer_connection_lost now) (λ s' _, role_ s' = role_ s ∧ moves s s' false []) s.
Proof.
  intros Hrole. eapply wp_mono; [apply leader_lost_effect|]. cbn beta. intros s' _ [Hl Ha].
  split; [apply Hl|]. constructor; [apply Hl|done|]. eexists. pose proof (ls_emits _ _ _ _ _ Hl) as He.
  unfold ask_again_of in He. assert (is_leader (role_ s) = false) as Hf by by destruct (role_ s).
  rewrite Hf, andb_false_r in He. exact He.
Qed.

(** What the leases may do to a follower that stays one. *)
Definition led s s' : Prop :=
  role_ s' ≠ leader →
  (role_ s' = role_ s ∧ moves s s' (agrees s) []) ∨
  (role_ s' ≠ role_ s ∧ moves s s' false (asking s)).

Lemma led_near s s' : near s s' → led s s'.
Proof.
  intros Hn _. left. split; [|by apply near_moves]. destruct Hn as [_ Hr _ _ _ _]. exact Hr.
Qed.

Lemma led_then_near s s1 s2 : led s s1 → near s1 s2 → led s s2.
Proof.
  intros Hl Hn Hr2. pose proof (sy_role _ _ Hn) as Hr. cbn in Hr. rewrite Hr in *.
  destruct (Hl Hr2) as [[? Hm]|[? Hm]]; [left|right]; (split; [done|]); by eapply moves_near.
Qed.

Lemma led_then {A} (m : comp (t W) A) s s1 :
  led s s1 → wp m (λ s' _, steady s1 s') s1 → wp m (λ s' _, led s s') s1.
Proof.
  intros Hl Hm. eapply wp_mono; [exact Hm|]. intros s' a Hs.
  eapply led_then_near; [done|by apply steady_near].
Qed.

Lemma change_role_follower now s :
  role_ s ≠ leader → wp (change_role follower now) (λ s' _, led s s') s.
Proof.
  intros Hrole. unfold change_role. wp_step. wp_step.
  destruct (decide (follower = role_ s)) as [Heq|Hne].
  { wp_step. apply led_near, steady_near, steady_refl. }
  wp_step. wp_step. wp_step. eapply wp_mono; [by apply forget_agreement_moves|].
  cbn beta. intros s1 _ [Hr1 H1]. cbn in Hr1. wp_step. wp_step.
  eapply wp_mono; [apply send_position_request_effect; by rewrite Hr1|].
  cbn beta. intros s2 _ [Hr2 H2]. wp_steps. intros _. right. cbn. split; [congruence|].
  rewrite (mv_agrees _ _ _ _ H1), (same_log_asking _ _ (mv_log _ _ _ _ H1)) in H2.
  pose proof (moves_trans _ _ _ _ _ _ _ H1 H2) as H3. destruct H3 as [Hl Ha [cs He]].
  constructor.
  - destruct Hl. constructor; done.
  - done.
  - exists (cs ++ []). rewrite <- (app_nil_r (asking s)).
    eapply emits_trans; [exact He|]. eapply emits_quiet; [done|]. by repeat constructor.
Qed.

Lemma act_on_follower ch now s s1 :
  role_ s ≠ leader → steady s s1 → wp (act_on ch now) (λ s' _, led s s') s1.
Proof.
  intros Hrole Hs. unfold act_on. wp_step. wp_step. wp_step.
  eapply wp_mono; [apply set_epoch_near|]. cbn beta. intros s2 _ H2.
  assert (Hn : near s s2) by (eapply near_trans; [by apply steady_near|done]).
  assert (Hr2 : role_ s2 = role_ s) by (destruct Hn as [_ Hr _ _ _ _]; exact Hr).
  assert (Hled : ∀ s', led s2 s' → led s s').
  { intros s' Hl Hr. destruct (Hl Hr) as [[? Hm]|[? Hm]]; [left|right]; (split; [congruence|]).
    - rewrite <- (mv_agrees _ _ _ _ (near_moves _ _ Hn)). by eapply near_then_moves.
    - rewrite <- (same_log_asking _ _ (mv_log _ _ _ _ (near_moves _ _ Hn))).
      by eapply near_then_moves. }
  destruct ch.
  - wp_step. by apply led_near.
  - eapply wp_mono; [apply change_role_role|]. cbn beta. intros s3 _ H3 Hr. congruence.
  - eapply wp_mono; [apply change_role_follower; congruence|]. cbn beta. intros s3 _. apply Hled.
  - eapply wp_mono; [apply change_role_follower; congruence|]. cbn beta. intros s3 _. apply Hled.
Qed.

Lemma dispatch_lease_follower uniform m now s :
  role_ s ≠ leader → wp (dispatch_lease uniform m now) (λ s' _, led s s') s.
Proof.
  intros Hrole. assert (Hrefl : led s s) by apply led_near, steady_near, steady_refl.
  destruct m; cbn [dispatch_lease].
  - unfold handle_lease_request. wp_step. wp_step. wp_step; [by wp_step|].
    wp_step. eapply wp_mono; [apply on_lease_steady|]. cbn beta. intros s1 ch H1.
    wp_step. apply (wp_mono _ (λ s2 _, steady s s2)).
    { wp_steps; [|done]. eapply steady_trans; [done|by apply steady_tell]. }
    intros s2 _ H2. by apply act_on_follower.
  - unfold handle_lease_grant. wp_step. wp_step. wp_step; [by wp_step|].
    wp_step. eapply wp_mono; [apply on_lease_steady|]. cbn beta. intros s1 ch H1.
    wp_step. eapply wp_mono; [by apply act_on_follower|]. cbn beta. intros s2 _ H2.
    apply led_then; [done|]. apply advance_commit_steady.
  - unfold handle_lease_refusal. wp_step. wp_step. wp_step; [by wp_step|].
    wp_step. eapply wp_mono; [apply on_lease_steady|]. cbn beta. intros s1 ch H1.
    by apply act_on_follower.
  - unfold handle_statement_held. wp_step. wp_step. wp_step; [by wp_step|].
    wp_step. eapply wp_mono; [by apply (led_then _ _ _ Hrefl), on_lease_steady|].
    cbn beta. intros s1 _ H1. apply led_then; [done|]. apply advance_commit_steady.
Qed.

(** A tick may also ask. *)
Definition ticked s s' : Prop :=
  role_ s' ≠ leader →
  ∃ b msgs, moves s s' b msgs ∧ Forall (λ m, m ∈ asking s) msgs ∧
    (role_ s' = role_ s ∧ b = agrees s ∨ role_ s' ≠ role_ s ∧ b = false) ∧
    (b = true → msgs = []).

Lemma on_lease_tick_follower uniform now s :
  role_ s ≠ leader → wp (on_lease_tick uniform now) (λ s' _, ticked s s') s.
Proof.
  intros Hrole. unfold on_lease_tick. wp_step. wp_step.
  destruct (lease_agent_ (on_leases s)).
  2: { wp_step. intros _. exists (agrees s), [].
    split_and!; [apply near_moves, steady_near, steady_refl|done|by left|done]. }
  wp_step. eapply wp_mono; [apply on_lease_steady|]. cbn beta. intros s1 ch H1.
  wp_step. eapply wp_mono; [by apply act_on_follower|]. cbn beta. intros s2 _ H2.
  wp_step. eapply wp_mono; [apply (led_then _ _ _ H2), advance_commit_steady|]. cbn beta. intros s3 _ H3.
  wp_step. eapply wp_mono; [apply (led_then _ _ _ H3), say_may_lead_steady|]. cbn beta. intros s4 _ H4.
  wp_step. wp_step.
  assert (Hled : role_ s4 ≠ leader → ∃ b msgs, moves s s4 b msgs ∧
    Forall (λ m, m ∈ asking s) msgs ∧
    (role_ s4 = role_ s ∧ b = agrees s ∨ role_ s4 ≠ role_ s ∧ b = false) ∧ (b = true → msgs = [])).
  { intros Hr4. destruct (H4 Hr4) as [[? Hm]|[? Hm]].
    - exists (agrees s), []. split_and!; [done|done|by left|done].
    - exists false, (asking s). split_and!; [done|by apply Forall_forall|by right|done]. }
  apply wp_when; intros Hb; [|done].
  intros s5 a E Hr5. pose proof (send_position_request_role now s4 s5 a E) as Hr. cbn beta in Hr.
  rewrite Hr in Hr5. destruct (Hled Hr5) as (b & msgs & Hm & Hall & Hcase & Hmsgs).
  destruct (send_position_request_effect now s4 Hr5 s5 a E) as [_ Hm5].
  pose proof (moves_trans _ _ _ _ _ _ _ Hm Hm5) as Hm6.
  rewrite (same_log_asking _ _ (mv_log _ _ _ _ Hm)) in Hm6.
  rewrite (mv_agrees _ _ _ _ Hm) in Hm6. rewrite Hr.
  eexists b, _. split_and!; [exact Hm6| |done|].
  - apply Forall_app. split; [done|]. destruct b; [done|by apply Forall_forall].
  - intros ->. by rewrite Hmsgs.
Qed.

Lemma asking_of s f :
  stores s f →
  asking s = if ha s && connected s
             then [MRequest (Z.of_nat (length f)) (default 0 (last (leader_epoch <$> f)))]
             else [].
Proof.
  intros Hst. unfold asking. rewrite (stores_last _ _ Hst).
  by rewrite (LogEpochTable.last_epoch_describes _ _ (proj2 Hst)).
Qed.

Lemma handle_ack_follower n now s :
  role_ s ≠ leader → wp (handle_ack n now) (λ s' _, s' = s) s.
Proof. intros Hrole. unfold handle_ack. wp_step. wp_step. destruct (role_ s); [by wp_steps|done|by wp_steps]. Qed.

Lemma handle_position_request_follower n e s :
  role_ s ≠ leader → wp (handle_position_request n e) (λ s' _, s' = s) s.
Proof.
  intros Hrole. unfold handle_position_request. wp_step. wp_step.
  destruct (role_ s); [by wp_steps|done|by wp_steps].
Qed.

Lemma handle_record_effect from n c s f :
  stores s f → role_ s ≠ leader → log_room (wal_ s) c →
  wp (handle_record from n c) (λ s' _,
    let p := Z.of_nat (length f) in
    role_ s' = role_ s ∧ configuration_ s' = configuration_ s ∧ around s' = around s ∧
    if negb (agrees s) || (n <=? p) then s' = s
    else if p + 1 <? n then moves s s' false []
    else stores s' (f ++ [c]) ∧ agrees s' = true ∧ ∃ cs, emits s s' [MAck n] cs) s.
Proof.
  intros Hst Hrole Hroom. unfold handle_record. wp_step. wp_step.
  assert (is_leader (role_ s) = false) as -> by by destruct (role_ s). cbn [orb].
  rewrite (stores_last _ _ Hst). unfold agrees at 1.
  destruct (follower_wal_agreed_ (as_follower s)) eqn:Ha; cbn [negb orb]; [|by wp_step].
  destruct (Z.leb_spec n (Z.of_nat (length f))); [by wp_step|].
  destruct (Z.ltb_spec (Z.of_nat (length f) + 1) n).
  { wp_step. split_and!; try done. constructor; try done. exists []. by apply emits_same. }
  assert (n = Z.of_nat (length f) + 1) as -> by lia.
  wp_step. eapply wp_mono; [by apply write_ok|]. cbn beta. intros s1 _ [Hst1 Hr].
  wp_steps. cbn. split_and!; try apply Hr; [done| |].
  - unfold agrees. cbn. by rewrite (rl_follower _ _ Hr).
  - destruct (rl_emits _ _ Hr) as (out & Ho & Hp & Hc). eexists _, _. split_and!; [|..|reflexivity].
    + cbn. rewrite Ho, <- !app_assoc. reflexivity.
    + unfold posted in *. by rewrite bind_app, Hp.
Qed.

(** What [follower_step] keeps of a log. *)
Definition keeps f (r : LogPositionReply) (k : Z) (b : bool) : Prop :=
  let m := Z.min (reply_seq_no r) (Z.of_nat (length f)) in
  let es := leader_epoch <$> f in
  (m ≤ 0 ∧ k = 0 ∧ b = true) ∨
  (0 < m ∧ LogEpochTable.epoch_at es m = Some (reply_epoch r) ∧ k = m ∧ b = true) ∨
  (0 < m ∧ (∃ e, LogEpochTable.epoch_at es m = Some e ∧ e ≠ reply_epoch r) ∧
   0 ≤ k < m ∧ b = false).

Lemma follower_step_ok s f r :
  stores s f →
  ∃ k b, LogEpochTable.follower_step (log_epochs_ s)
           (LogEpochTable.mk_answer (reply_seq_no r) (reply_epoch r))
           = Returns (LogEpochTable.mk_step k b) ∧ keeps f r k b.
Proof.
  intros [_ Hd]. unfold LogEpochTable.follower_step, keeps.
  cbn [LogEpochTable.answer_seq_no LogEpochTable.answer_epoch].
  rewrite (proj2 Hd), length_fmap. set (m := Z.min _ _).
  destruct (Z.leb_spec m 0); [eexists _, _; split; [done|]; by left|].
  rewrite (LogEpochTable.epoch_of_describes _ _ _ Hd).
  destruct (LogEpochTable.epoch_at_in (leader_epoch <$> f) m) as [e He]; [rewrite length_fmap; lia|].
  rewrite He. cbn [obind]. destruct (Z.eqb_spec e (reply_epoch r)) as [->|Hne].
  - eexists _, _. split; [done|]. right. left. done.
  - eexists _, _. split; [done|]. right. right. split_and!; [done|by exists e|..|done].
    all: destruct (LogEpochTable.first_of_run_ok _ _ m (proj1 Hd)) as [Hf _];
      [rewrite length_fmap; lia|]; unfold LogEpochTable.first_of_run_holding; lia.
Qed.

Lemma keeps_range f r k b :
  0 ≤ reply_seq_no r → keeps f r k b → 0 ≤ k ≤ Z.of_nat (length f) ∧ k ≤ reply_seq_no r.
Proof. intros Hr [(?&->&_)|[(?&_&->&_)|(?&_&?&_)]]; lia. Qed.

Lemma discard_after_effect s f k :
  stores s f → 0 ≤ k ≤ Z.of_nat (length f) →
  wp (discard_after k) (λ s' _, stores s' (take (Z.to_nat k) f) ∧
    role_ s' = role_ s ∧ configuration_ s' = configuration_ s ∧ around s' = around s ∧
    agrees s' = agrees s ∧ emits s s' [] []) s.
Proof.
  intros Hst Hk. pose proof Hst as [Hw Ht]. unfold discard_after. wp_step.
  destruct (log_truncate_law _ _ k Hw Hk) as (w' & Htr & Hw').
  intros s1 []. unfold on_wal. rewrite Htr. intros [= <-]. cbn [fst snd].
  wp_step. eapply wp_mono; [apply publish_written_relogs|]. cbn beta. intros s2 _ [Hr Hs].
  wp_step. intros s3 []. unfold on_table. pose proof (sl_table _ _ Hs) as Htab. cbn in Htab. rewrite Htab.
  destruct (LogEpochTable.apply_describes (LogEpochTable.TruncateAfter k) _ _ Ht) as [Hd Hret].
  cbn in Hd, Hret. rewrite length_fmap in Hd, Hret.
  destruct (Z.leb_spec 0 k), (Z.leb_spec k (Z.of_nat (length f))); try lia. cbn in Hd, Hret.
  rewrite Hret. intros [= <-]. cbn [fst]. wp_steps. cbn. split_and!; try apply Hr.
  - split; cbn; [by rewrite (sl_wal _ _ Hs)|]. by rewrite fmap_take.
  - unfold agrees. cbn. by rewrite (rl_follower _ _ Hr).
  - destruct (rl_emits _ _ Hr) as (out & Ho & Hp & Hc). cbn in Ho.
    exists (out ++ [DiscardedAfter k]). split_and!.
    + cbn. by rewrite Ho, app_assoc.
    + unfold posted in *. by rewrite bind_app, Hp.
    + unfold calls in *. by rewrite filter_app, Hc.
Qed.

Lemma handle_position_reply_effect r now s f :
  stores s f → role_ s ≠ leader → (ask_again r = false → 0 ≤ reply_seq_no r) →
  wp (handle_position_reply r now) (λ s' _,
    role_ s' = role_ s ∧ configuration_ s' = configuration_ s ∧ around s' = around s ∧
    if ask_again r then moves s s' false (asking s)
    else if agrees s then s' = s
    else ∃ k b, keeps f r k b ∧
      ((k < Z.of_nat (length f) ∧ s' = s) ∨
       (stores s' (take (Z.to_nat k) f) ∧
        agrees s' = reply_agreed r && b && (k =? Z.of_nat (length f)) ∧
        ∃ cs, emits s s' (if agrees s' then [] else asking s') cs))) s.
Proof.
  intros Hst Hrole Hseq. unfold handle_position_reply. wp_step. wp_step.
  assert (is_leader (role_ s) = false) as -> by by destruct (role_ s).
  destruct (ask_again r); [clear Hseq|specialize (Hseq eq_refl)].
  { wp_step. wp_step. set (s1 := with_follower s _).
    eapply wp_mono; [by apply send_position_request_effect|]. cbn beta. intros s2 _ [Hr2 H2].
    destruct (mv_log _ _ _ _ H2). split_and!; [done..|]. destruct H2 as [? ? [cs He]].
    constructor; [by constructor|done|]. exists cs. done. }
  unfold agrees at 1. destruct (follower_wal_agreed_ (as_follower s)) eqn:Ha; [by wp_step|].
  destruct (follower_step_ok s f r Hst) as (k & b & Hstep & Hk).
  pose proof (keeps_range _ _ _ _ Hseq Hk) as Hkr.
  wp_step. apply wp_ask. rewrite Hstep. intros st [= <-].
  cbn [LogEpochTable.keep_through LogEpochTable.agreed]. rewrite (stores_last _ _ Hst).
  apply wp_if; intros Hif.
  { wp_step. split_and!; [done..|]. exists k, b. split; [done|]. left. bool_to_prop. by split. }
  set (p := Z.of_nat (length f)) in *. wp_step.
  apply (wp_mono _ (λ s1 _, stores s1 (take (Z.to_nat k) f) ∧ role_ s1 = role_ s ∧
    configuration_ s1 = configuration_ s ∧ around s1 = around s ∧ agrees s1 = agrees s ∧
    emits s s1 [] [])).
  { apply wp_when; intros Hlt; bool_to_prop; [apply discard_after_effect; [done|lia]|].
    split_and!; try done; [|apply emits_refl]. rewrite take_ge by lia. done. }
  intros s1 _ (Hst1 & Hr1 & Hc1 & Har1 & Ha1 & He1). unfold agrees in Ha1 at 2. rewrite Ha in Ha1.
  destruct (reply_agreed r && b && (k =? p)) eqn:Hag.
  - wp_step. cbn. split_and!; try done. exists k, b. split; [done|]. right.
    split_and!; [done|done|]. cbn. exists []. done.
  - eapply wp_mono; [apply send_position_request_effect; congruence|]. cbn beta. intros s2 _ [Hr2 H2].
    destruct (mv_log _ _ _ _ H2) as [Hc2 Har2 Hw2 Ht2 Hn2]. split_and!; try congruence.
    exists k, b. split; [done|]. right. split_and!.
    + by eapply stores_same; [apply H2|].
    + rewrite Hag, (mv_agrees _ _ _ _ H2). done.
    + rewrite (mv_agrees _ _ _ _ H2). rewrite Ha1 in H2 |- *.
      rewrite (same_log_asking _ _ (mv_log _ _ _ _ H2)). destruct H2 as [_ _ [cs He]].
      exists cs. by eapply emits_trans_nil.
Qed.

(** ** A process that starts *)

Lemma read_records_effect f : ∀ g s,
  LogEpochTable.describes (log_epochs_ s) (leader_epoch <$> g) →
  wp (read_records (Z.of_nat (length g) + 1) (numbered_from (Z.of_nat (length g) + 1) f))
    (λ s' gap, gap = None ∧
      LogEpochTable.describes (log_epochs_ s') (leader_epoch <$> g ++ f) ∧
      wal_ s' = wal_ s ∧ role_ s' = role_ s ∧ configuration_ s' = configuration_ s ∧
      around s' = around s ∧ as_follower s' = as_follower s ∧ emits s s' [] []) s.
Proof.
  induction f as [|c f IH]; intros g s Hd; cbn [numbered_from read_records].
  - wp_step. rewrite app_nil_r. split_and!; try done. apply emits_refl.
  - rewrite Z.eqb_refl. cbn [negb]. wp_step. intros s1 []. unfold on_table.
    destruct (LogEpochTable.apply_describes
      (LogEpochTable.NoteRecord (Z.of_nat (length g) + 1) (leader_epoch c)) _ _ Hd) as [Hd1 Hret].
    cbn in Hd1, Hret. rewrite length_fmap, Z.eqb_refl in Hd1, Hret. rewrite Hret. intros [= <-].
    cbn [fst]. wp_step. wp_step. cbn. specialize (IH (g ++ [c])).
    rewrite length_app, Nat2Z.inj_add, <- Z.add_assoc in IH. cbn [length] in IH.
    rewrite <- Z.add_assoc. eapply wp_mono.
    { apply IH. cbn. by rewrite fmap_app. }
    cbn beta. intros s2 gap (-> & Hd2 & Hw & Hr & Hc & Ha & Hf & He).
    rewrite <- app_assoc in Hd2. split_and!; try done.
    eapply emits_trans_nil; [|exact He]. eapply emits_quiet; [done|]. by repeat constructor.
Qed.

Lemma start_agent_effect now s :
  wp (start_agent now) (λ s' _, same_log s s' ∧ role_ s' = role_ s ∧
    agrees s' = agrees s ∧ outputs s' = outputs s) s.
Proof. unfold start_agent. by wp_steps. Qed.

Lemma open_effect now s f :
  log_holds (wal_ s) f → log_epochs_ s = LogEpochTable.empty → ha s = true →
  agrees s = false →
  wp (open now) (λ s' _, stores s' f ∧ role_ s' = role_ s ∧
    configuration_ s' = configuration_ s ∧ around s' = around s ∧ agrees s' = false ∧
    emits s s' [] []) s.
Proof.
  intros Hw Ht Hha Hag. unfold open. wp_step.
  destruct (log_open_law _ _ Hw) as (w' & Hopen & Hw').
  intros s1 res. unfold open_wal. rewrite Hopen. intros [= <- <-]. cbn [fst snd]. wp_step.
  set (s1 := with_log s w' (log_epochs_ s)).
  eapply wp_mono.
  { apply (read_records_effect f [] s1). cbn. rewrite Ht. split; [constructor|done]. }
  cbn beta. intros s2 gap (-> & Hd & Hw2 & Hr2 & Hc2 & Ha2 & Hf2 & He2). cbn [app] in Hd.
  cbn in Hw2, Hr2, Hc2, Ha2, Hf2.
  wp_step. wp_step. wp_step. wp_step. wp_step. wp_step. wp_step. wp_step. wp_step. wp_step.
  wp_step. set (s3 := with_next _ _). eapply wp_mono; [apply publish_written_relogs|].
  cbn beta. intros s4 _ [Hr4 Hs4]. wp_step. wp_step. wp_step. wp_step. wp_step.
  set (s5 := with_epoch s4 _).
  assert (ha s5 = true) as ->.
  { unfold ha. cbn. rewrite (rl_configuration _ _ Hr4). cbn. rewrite Hc2. exact Hha. }
  cbn [negb]. eapply wp_mono; [apply start_agent_effect|]. cbn beta.
  intros s6 _ (Hs6 & Hr6 & Ha6 & Ho6). wp_step. split_and!.
  - eapply stores_same; [exact Hs6|]. split; cbn.
    + rewrite (sl_wal _ _ Hs4). cbn. by rewrite Hw2.
    + rewrite (sl_table _ _ Hs4). done.
  - rewrite Hr6. cbn. rewrite (rl_role _ _ Hr4). done.
  - rewrite (sl_configuration _ _ Hs6). cbn. rewrite (rl_configuration _ _ Hr4). done.
  - rewrite (sl_around _ _ Hs6). cbn. rewrite (rl_around _ _ Hr4). done.
  - rewrite Ha6. unfold agrees. cbn. rewrite (rl_follower _ _ Hr4). cbn. rewrite Hf2. exact Hag.
  - eapply emits_trans_nil; [exact He2|]. destruct (rl_emits _ _ Hr4) as (out & Ho & ? & ?).
    exists out. split; [|done]. rewrite Ho6. cbn. rewrite Ho. done.
Qed.

End effects.
