(* ===== verification/PairLogs.v ===== *)
(** The two logs of a pair: what is known of them while one instance leads, and
    what a request and its answer say of them. *)

From S2P Require Import Prelude.
From S2P Require Import LogEpochTable.
From S2P Require Import WalEntry.
From S2P Require Import WalRefinement.
From S2P Require Import RecordLog.
From S2P Require Import ReplicatedWal.
From S2P Require Import ReplicatedPair.
From S2P Require Import ReplicatedPairEffects.
Import ReplicatedWal.

#[local] Open Scope Z_scope.

Abbreviation log := (list WalEntryContents).
Abbreviation size_of l := (Z.of_nat (length l)).
Abbreviation epochs l := (leader_epoch <$> l).

(** ** Logs *)

(** Two logs that hold records of one epoch are the same up to the first. *)
Definition matching (l g : log) : Prop :=
  ∀ i j r r', l !! i = Some r → g !! j = Some r' → leader_epoch r = leader_epoch r' →
    take (S (i `min` j)) l = take (S (i `min` j)) g.

Definition ordered (g : log) : Prop :=
  ∀ i j r r', (i ≤ j)%nat → g !! i = Some r → g !! j = Some r' →
    leader_epoch r ≤ leader_epoch r'.

(** The first [n] records are those of the leader's log. *)
Definition shares (l g : log) (n : Z) : Prop :=
  0 ≤ n ≤ size_of g ∧ n ≤ size_of l ∧ take (Z.to_nat n) g = take (Z.to_nat n) l.

(** The end of a log, as a request gives it. *)
Definition end_of (g : log) : Z * Z := (size_of g, default 0 (last (epochs g))).

#[global] Arguments end_of : simpl never.

Section leadership.

(** The epoch the leader leads in, and how many records it had when it took the
    lead. *)
Variables (term start : Z).

(** What is known of the leader's log. *)
Record leader_log (l : log) : Prop := mk_leader_log {
  ll_ordered : ordered l;
  ll_term : ∀ i r, l !! i = Some r → leader_epoch r ≤ term;
  ll_start : 0 ≤ start ≤ size_of l;
  ll_own : ∀ i r, l !! i = Some r → start ≤ Z.of_nat i → leader_epoch r = term
}.

(** What is known of a log the follower has or had. *)
Record follower_log (l g : log) : Prop := mk_follower_log {
  fl_matching : matching l g;
  fl_ordered : ordered g;
  fl_term : ∀ i r, g !! i = Some r → leader_epoch r ≤ term;
  fl_own : ∀ i r, g !! i = Some r → leader_epoch r = term →
    (i < length l)%nat ∧ take (S i) g = take (S i) l
}.

Lemma prefix_lookup (g l : log) i r : g `prefix_of` l → g !! i = Some r → l !! i = Some r.
Proof. intros Hp Hi. by eapply prefix_lookup_Some. Qed.

Lemma prefix_take_eq (g l : log) n :
  g `prefix_of` l → (n ≤ length g)%nat → take n g = take n l.
Proof. intros [k ->] Hn. by rewrite take_app_le. Qed.

Lemma prefix_shares l g : g `prefix_of` l → shares l g (size_of g).
Proof.
  intros Hp. pose proof (prefix_length _ _ Hp). split_and!; [lia|lia|lia|].
  rewrite Nat2Z.id. by apply prefix_take_eq.
Qed.

Lemma shares_prefix l g : shares l g (size_of g) → g `prefix_of` l.
Proof.
  intros (_ & _ & He). rewrite Nat2Z.id, take_ge in He by lia. rewrite He. apply prefix_take.
Qed.

Lemma shares_le l g m n : shares l g n → 0 ≤ m ≤ n → shares l g m.
Proof.
  intros (Hg & Hl & He) Hm. split_and!; [lia..|].
  replace (Z.to_nat m) with (Z.to_nat m `min` Z.to_nat n)%nat by lia.
  by rewrite <- !take_take, He.
Qed.

Lemma take_prefix_eq (g l : log) n : take n g = take n l → (length g ≤ n)%nat → g `prefix_of` l.
Proof. intros He Hn. rewrite (take_ge g) in He by lia. rewrite He. apply prefix_take. Qed.

Lemma follower_log_prefix l g : leader_log l → g `prefix_of` l → follower_log l g.
Proof.
  intros Hl Hp. constructor.
  - intros i j r r' _ Hj _. pose proof (lookup_lt_Some _ _ _ Hj).
    symmetry. apply prefix_take_eq; [done|lia].
  - intros i j r r' Hij Hi Hj. eapply (ll_ordered _ Hl); eauto using prefix_lookup.
  - intros i r Hi. eapply (ll_term _ Hl). eauto using prefix_lookup.
  - intros i r Hi _. pose proof (lookup_lt_Some _ _ _ Hi). pose proof (prefix_length _ _ Hp).
    split; [lia|]. apply prefix_take_eq; [done|lia].
Qed.

Lemma follower_log_sub l g g' : follower_log l g → g' `prefix_of` g → follower_log l g'.
Proof.
  intros [Hm Ho Ht Hown] Hp.
  assert (Htk : ∀ n, (n ≤ length g')%nat → take n g' = take n g) by (intros; by apply prefix_take_eq).
  constructor.
  - intros i j r r' Hi Hj He. pose proof (lookup_lt_Some _ _ _ Hj).
    rewrite Htk by lia. eapply Hm; eauto using prefix_lookup.
  - intros i j r r' Hij Hi Hj. eapply Ho; eauto using prefix_lookup.
  - intros i r Hi. eapply Ht; eauto using prefix_lookup.
  - intros i r Hi He. pose proof (lookup_lt_Some _ _ _ Hi). rewrite Htk by lia.
    eapply Hown; eauto using prefix_lookup.
Qed.

Lemma lookup_snoc_cases (l : log) c i r :
  (l ++ [c]) !! i = Some r → (i < length l)%nat ∧ l !! i = Some r ∨ i = length l ∧ r = c.
Proof.
  intros Hi. destruct (decide (i < length l)%nat).
  - left. by rewrite lookup_app_l in Hi.
  - right. rewrite lookup_app_r in Hi by lia.
    destruct (i - length l)%nat eqn:E; [|done]. cbn in Hi. simplify_eq. split; [lia|done].
Qed.

Lemma leader_log_snoc l c : leader_log l → leader_epoch c = term → leader_log (l ++ [c]).
Proof.
  intros [Ho Ht Hs Hown] Hc. constructor.
  - intros i j r r' Hij Hi Hj.
    apply lookup_snoc_cases in Hi as [[? Hi]|[-> ->]], Hj as [[? Hj]|[-> ->]].
    + by eapply (Ho i j).
    + rewrite Hc. by eapply Ht.
    + lia.
    + lia.
  - intros i r [[_ Hi]|[_ ->]]%lookup_snoc_cases; [by eapply Ht|lia].
  - rewrite length_app. cbn [length]. lia.
  - intros i r [[_ Hi]|[_ ->]]%lookup_snoc_cases ?; [by eapply Hown|done].
Qed.

Lemma follower_log_grows l g c :
  leader_epoch c = term → follower_log l g → follower_log (l ++ [c]) g.
Proof.
  intros Hc [Hm Ho Ht Hown]. constructor; [|done|done|].
  - intros i j r r' Hi Hj He. apply lookup_snoc_cases in Hi as [[Hlt Hi]|[-> ->]].
    + rewrite take_app_le by lia. by eapply Hm.
    + destruct (Hown j r' Hj) as [Hlt Heq]; [congruence|].
      rewrite Nat.min_r by lia. by rewrite take_app_le by lia.
  - intros i r Hi He. destruct (Hown i r Hi He) as [Hlt Heq]. rewrite length_app. cbn [length].
    split; [lia|]. by rewrite take_app_le by lia.
Qed.

(** A log that is known does not share a record the leader has yet to write. *)
Lemma shares_grows l g c n :
  leader_epoch c = term → follower_log l g → shares (l ++ [c]) g n → shares l g n.
Proof.
  intros Hc Hg (Hn & Hl & He). rewrite length_app in Hl. cbn [length] in Hl.
  destruct (decide (n ≤ size_of l)) as [Hle|Hgt].
  - rewrite take_app_le in He by lia. done.
  - assert (Hn' : Z.to_nat n = S (length l)) by lia. rewrite Hn' in He.
    assert (Hr : g !! length l = Some c).
    { rewrite <- (lookup_take_lt g (S (length l)) (length l)) by lia. rewrite He.
      rewrite lookup_take_lt by lia. by apply list_lookup_middle. }
    destruct (fl_own _ _ Hg _ _ Hr Hc) as [? _]. lia.
Qed.

Lemma shares_mono l l' g n : l `prefix_of` l' → shares l g n → shares l' g n.
Proof.
  intros Hp (Hn & Hl & He). pose proof (prefix_length _ _ Hp). split_and!; [lia..|].
  rewrite He. apply prefix_take_eq; [done|lia].
Qed.

Lemma prefix_grows l g c :
  leader_epoch c = term → follower_log l g → g `prefix_of` (l ++ [c]) → g `prefix_of` l.
Proof. intros Hc Hg Hp. by apply shares_prefix, (shares_grows l g c), prefix_shares. Qed.

(** *** Epochs by number *)

Lemma epoch_at_lookup (g : log) n e :
  LogEpochTable.epoch_at (epochs g) n = Some e →
  ∃ r, g !! Z.to_nat (n - 1) = Some r ∧ leader_epoch r = e ∧ 1 ≤ n ≤ size_of g.
Proof.
  intros He. pose proof (LogEpochTable.epoch_at_Some _ _ _ He) as Hn. rewrite length_fmap in Hn.
  unfold LogEpochTable.epoch_at in He. destruct (Z.ltb_spec n 1); [done|].
  rewrite list_lookup_fmap in He. destruct (g !! Z.to_nat (n - 1)) as [r|]; [|done].
  exists r. by injection He.
Qed.

Lemma lookup_epoch_at (g : log) i r :
  g !! i = Some r → LogEpochTable.epoch_at (epochs g) (Z.of_nat i + 1) = Some (leader_epoch r).
Proof.
  intros Hi. unfold LogEpochTable.epoch_at. destruct (Z.ltb_spec (Z.of_nat i + 1) 1); [lia|].
  rewrite list_lookup_fmap. replace (Z.to_nat (Z.of_nat i + 1 - 1)) with i by lia. by rewrite Hi.
Qed.

Lemma epoch_at_prefix (l l' : log) n e :
  l `prefix_of` l' → LogEpochTable.epoch_at (epochs l) n = Some e →
  LogEpochTable.epoch_at (epochs l') n = Some e.
Proof.
  intros Hp He. destruct (epoch_at_lookup _ _ _ He) as (r & Hr & <- & Hn).
  eapply prefix_lookup in Hr; [|done]. apply lookup_epoch_at in Hr.
  by replace (Z.of_nat (Z.to_nat (n - 1)) + 1) with n in Hr by lia.
Qed.

Lemma end_of_snoc (g : log) r : end_of (g ++ [r]) = (size_of g + 1, leader_epoch r).
Proof.
  unfold end_of. rewrite fmap_app, length_app. cbn [fmap list_fmap length].
  rewrite last_snoc. cbn. f_equal. lia.
Qed.

(** A request the leader's log agrees with comes from a log that is the start
    of the leader's. *)
Lemma agreeing_prefix l g :
  matching l g →
  (size_of g = 0 ∨ LogEpochTable.epoch_at (epochs l) (size_of g) = Some (end_of g).2) →
  g `prefix_of` l.
Proof.
  intros Hm [Hz|He]; [destruct g; [apply prefix_nil|done]|].
  destruct (epoch_at_lookup _ _ _ He) as (r & Hr & Her & Hn).
  destruct g as [|r' g _] using rev_ind; [cbn in Hn; lia|]. rewrite end_of_snoc in Her. cbn in Her.
  rewrite length_app in *. cbn [length] in *.
  replace (Z.to_nat (Z.of_nat (length g + 1) - 1)) with (length g) in Hr by lia.
  pose proof (Hm (length g) (length g) r r' Hr) as Heq. rewrite Nat.min_id in Heq.
  apply (take_prefix_eq _ _ (S (length g))); [|rewrite length_app; cbn; lia].
  symmetry. apply Heq; [by apply list_lookup_middle|done].
Qed.

Lemma prefix_agreeing l g :
  g `prefix_of` l →
  size_of g = 0 ∨ LogEpochTable.epoch_at (epochs l) (size_of g) = Some (end_of g).2.
Proof.
  intros Hp. destruct g as [|r g _] using rev_ind; [by left|]. right.
  rewrite end_of_snoc. cbn [snd]. rewrite length_app.
  apply (epoch_at_prefix (g ++ [r])); [done|].
  replace (Z.of_nat (length g + length [r])) with (Z.of_nat (length g) + 1) by (cbn; lia).
  apply lookup_epoch_at. by apply list_lookup_middle.
Qed.

(** The epochs of a log that is known are no later than its last. *)
Lemma ordered_last g i r :
  ordered g → g !! i = Some r → leader_epoch r ≤ (end_of g).2.
Proof.
  intros Ho Hi. destruct g as [|r' g _] using rev_ind; [done|]. rewrite end_of_snoc. cbn.
  pose proof (lookup_lt_Some _ _ _ Hi) as Hlt. rewrite length_app in Hlt. cbn in Hlt.
  apply (Ho i (length g) r r'); [lia|done|by apply list_lookup_middle].
Qed.

(** *** What an answer says *)

Lemma shares_epoch l g n :
  shares l g n → 1 ≤ n → ∃ r, l !! Z.to_nat (n - 1) = Some r ∧ g !! Z.to_nat (n - 1) = Some r.
Proof.
  intros (Hg & Hl & He) Hn. destruct (lookup_lt_is_Some_2 g (Z.to_nat (n - 1))) as [r Hr]; [lia|].
  exists r. split; [|done].
  rewrite <- (lookup_take_lt l (Z.to_nat n)) by lia. rewrite <- He.
  by rewrite lookup_take_lt by lia.
Qed.

(** The records a log shares with the leader's are within the leader's answer. *)
Lemma answer_above l g r n :
  ordered g → replies_with l (end_of g).1 (end_of g).2 r →
  shares l g n → n ≤ reply_seq_no r.
Proof.
  intros Ho Hr Hs. destruct (decide (1 ≤ n)) as [Hn|]; [|pose proof (rp_range _ _ _ _ Hr); lia].
  destruct (shares_epoch _ _ _ Hs Hn) as (c & Hl & Hg).
  apply (rp_above _ _ _ _ Hr n (leader_epoch c)).
  - destruct Hs as (? & ? & ?). unfold end_of. cbn. lia.
  - apply lookup_epoch_at in Hl. by replace (Z.of_nat (Z.to_nat (n - 1)) + 1) with n in Hl by lia.
  - by eapply ordered_last.
Qed.

(** An answer that does not agree is about the records the leader had when it
    took the lead. *)
Lemma answer_within l g r :
  leader_log l → follower_log l g → replies_with l (end_of g).1 (end_of g).2 r →
  reply_agreed r = false → reply_seq_no r ≤ start.
Proof.
  intros Hl Hg Hr Hag. destruct (rp_below _ _ _ _ Hr) as [Hz|(k & e & Hk & He & Hle)].
  { pose proof (ll_start _ Hl). lia. }
  destruct (decide (reply_seq_no r ≤ start)); [done|]. exfalso.
  destruct (epoch_at_lookup _ _ _ He) as (c & Hc & <- & Hkr).
  rewrite (ll_own _ Hl _ _ Hc) in Hle by lia.
  assert (g `prefix_of` l) as Hp.
  { destruct g as [|c' g _] using rev_ind; [apply prefix_nil|]. rewrite end_of_snoc in Hle. cbn in Hle.
    assert (Hlast : (g ++ [c']) !! length g = Some c') by by apply list_lookup_middle.
    pose proof (fl_term _ _ Hg _ _ Hlast).
    destruct (fl_own _ _ Hg _ _ Hlast) as [_ Heq]; [lia|].
    apply (take_prefix_eq _ _ (S (length g))); [done|]. rewrite length_app. cbn. lia. }
  assert (reply_agreed r = true); [|congruence]. apply (rp_agreed _ _ _ _ Hr).
  by apply prefix_agreeing.
Qed.

Lemma answer_agreed l g r :
  matching l g → replies_with l (end_of g).1 (end_of g).2 r →
  (reply_agreed r = true ↔ g `prefix_of` l).
Proof.
  intros Hm Hr. rewrite (rp_agreed _ _ _ _ Hr). split; [by apply agreeing_prefix|].
  by apply prefix_agreeing.
Qed.

(** An answer about the very end of a log that is the start of the leader's
    leaves it whole, and one about a later record may not. *)
Lemma keeps_prefix l f r k b :
  f `prefix_of` l → size_of f ≤ reply_seq_no r →
  (reply_seq_no r = 0 ∨ LogEpochTable.epoch_at (epochs l) (reply_seq_no r) = Some (reply_epoch r)) →
  keeps f r k b →
  (k = size_of f ∧ b = true) ∨ (0 ≤ k < size_of f ∧ size_of f < reply_seq_no r ∧ b = false).
Proof.
  intros Hp Hle Hepoch Hk. unfold keeps in Hk.
  rewrite Z.min_r in Hk by lia.
  destruct Hk as [(?&->&->)|[(?&_&->&->)|(Hpos&(e&He&Hne)&Hk&->)]]; [left; lia|by left|].
  right. split_and!; [lia|lia| |done]. destruct (decide (size_of f = reply_seq_no r)) as [Heq|]; [|lia].
  exfalso. apply (epoch_at_prefix _ _ _ _ Hp) in He.
  rewrite Heq in He. destruct Hepoch as [?|Hepoch]; [lia|]. congruence.
Qed.

End leadership.
