(* ===== verification/PairProtocol.v ===== *)
(** The protocol by which a leader keeps its follower's log the start of its
    own, as a step relation on what the protocol is about, and its invariant.

    A [view] has the two logs, what the leader knows of its follower, whether
    the follower takes its log to agree, the connection and the reading thread.
    Between two changes of connection the pair is in one of four states.  The
    follower may be looking for a record the leader has ([lost]).  Once the
    leader has found a request to agree, the follower's log is the start of the
    leader's and the follower waits for that answer ([seek]), or writes what it
    is sent ([writing]), or has asked afresh after it wrote ([clean]). *)

From S2P Require Import Prelude.
From S2P Require Import LogEpochTable.
From S2P Require Import WalEntry.
From S2P Require Import WalRefinement.
From S2P Require Import RecordLog.
From S2P Require Import ReplicatedWal.
From S2P Require Import ReplicatedPair.
From S2P Require Import ReplicatedPairEffects.
From S2P Require Import PairLogs.
From Stdlib Require Import Sorted.
Import ReplicatedWal.

#[local] Open Scope Z_scope.

(** ** Views *)

(** What the leader knows of its follower. *)
Record known := mk_known {
  matches : bool;
  acked : Z;
  catching : bool;
  handed : Z;
  asked : option (Z * Z)
}.

Record line := mk_line {
  down : list message;
  back : list message;
  lup : bool;
  fup : bool;
  clos : bool
}.

Record view := mk_view {
  llog : log;
  flog : log;
  knowing : known;
  agreeing : bool;
  joined : line;
  rd : option (Z * bool);
  stop : bool
}.

Definition request (f : log) : message := MRequest (end_of f).1 (end_of f).2.

(** Messages sent on a connection that one side has left are lost. *)
Definition send_down (c : line) (ms : list message) : line :=
  mk_line (if clos c then down c else down c ++ ms) (back c) (lup c) (fup c) (clos c).
Definition send_back (c : line) (ms : list message) : line :=
  mk_line (down c) (if clos c then back c else back c ++ ms) (lup c) (fup c) (clos c).
Definition take_down (c : line) (ms : list message) : line :=
  mk_line ms (back c) (lup c) (fup c) (clos c).
Definition take_back (c : line) (ms : list message) : line :=
  mk_line (down c) ms (lup c) (fup c) (clos c).

Definition forgotten (k : known) : known := mk_known false (acked k) false 0 None.
Definition keep_asked (k : known) (r : option (Z * Z)) : known :=
  mk_known (matches k) (acked k) (catching k) (handed k) r.
Definition stop_catching (k : known) (r : option (Z * Z)) : known :=
  mk_known (matches k) (acked k) false (handed k) r.

(** The requests the leader has yet to answer, the oldest first. *)
Definition request_of (m : message) : option (Z * Z) :=
  match m with MRequest n e => Some (n, e) | _ => None end.

Definition requests (k : known) (c : line) : list (Z * Z) :=
  match asked k with Some r => [r] | None => [] end ++ omap request_of (back c).

(** The records the answers on their way to the follower are about. *)
Definition position (m : message) : option Z :=
  match m with
  | MReply r => if ask_again r then None else Some (reply_seq_no r)
  | _ => None
  end.

Definition again (m : message) : bool :=
  match m with MReply r => ask_again r | _ => false end.

(** Nothing the follower has asked is still to be answered. *)
Definition answered_all (v : view) : Prop :=
  requests (knowing v) (joined v) = [] ∧ omap position (down (joined v)) = [].

(** ** Steps *)

Section protocol.

(** The epoch of the leadership, how many records the leader had when it began,
    and whether a thread of its own reads the log for the follower. *)
Variables (term start : Z) (thread : bool).

(** The leader takes a request; what is left of its knowledge, the connection
    and the reading thread. *)
Inductive answer (l : log) (n e : Z) :
    known * line * option (Z * bool) * bool → known * line * option (Z * bool) * bool → Prop :=
  | answer_again k c r st :
      catching k = true →
      answer l n e (k, c, r, st) (k, c, r, st)
  | answer_stops k c r st :
      catching k = true →
      answer l n e (k, c, r, st) (stop_catching k (Some (n, e)), c, r, true)
  | answer_waits k c x st :
      catching k = false →
      answer l n e (k, c, Some x, st) (keep_asked k (Some (n, e)), c, Some x, st)
  | answer_no k c r st p :
      (thread = true → catching k = false ∧ r = None) →
      replies_with l n e p → reply_agreed p = false →
      answer l n e (k, c, r, st) (keep_asked k None, send_down c [MReply p], r, st)
  | answer_thread k c st p h :
      thread = true → catching k = false →
      replies_with l n e p → reply_agreed p = true →
      answer l n e (k, c, None, st)
        (mk_known false n true h None, send_down c [MReply p], Some (n + 1, true), false)
  | answer_here k c r st p :
      thread = false →
      replies_with l n e p → reply_agreed p = true →
      answer l n e (k, c, r, st)
        (mk_known true n (catching k) (size_of l) None,
         send_down c (MReply p :: records_after n l), r, st).

(** The follower takes an answer to a request. *)
Inductive repair (f : log) (c : line) (p : LogPositionReply) : log → bool → line → Prop :=
  | repair_later : repair f c p f false c
  | repair_step k b :
      keeps f p k b →
      repair f c p (take (Z.to_nat k) f) (reply_agreed p && b && (k =? size_of f))
        (if reply_agreed p && b && (k =? size_of f) then c
         else send_back c [request (take (Z.to_nat k) f)]).

Inductive step : view → view → Prop :=
  | step_append l f k a c r st rec :
      leader_epoch rec = term →
      step (mk_view l f k a c r st)
        (mk_view (l ++ [rec]) f k a
           (send_down c (if matches k && lup c then [MRecord (size_of l + 1) rec] else []))
           r st)
  | step_quiet v : step v v
  | step_ack l f k a c r st n b :
      lup c = true → back c = MAck n :: b →
      step (mk_view l f k a c r st)
        (mk_view l f (mk_known (matches k) (Z.max (acked k) n) (catching k) (handed k) (asked k))
           a (take_back c b) r st)
  | step_request l f k a c r st n e b k' c' r' st' :
      lup c = true → back c = MRequest n e :: b →
      answer l n e (k, take_back c b, r, st) (k', c', r', st') →
      step (mk_view l f k a c r st) (mk_view l f k' a c' r' st')
  | step_stopped l f k a c x :
      asked k = None →
      step (mk_view l f k a c (Some x) true) (mk_view l f k a c None false)
  | step_stopped_answers l f k a c x n e k' c' r' st' :
      asked k = Some (n, e) →
      answer l n e (keep_asked k None, c, None, false) (k', c', r', st') →
      step (mk_view l f k a c (Some x) true) (mk_view l f k' a c' r' st')
  | step_reads l f k a c n live st rec :
      l !! Z.to_nat (n - 1) = Some rec →
      step (mk_view l f k a c (Some (n, live)) st)
        (mk_view l f k a (if live then send_down c [MRecord n rec] else c)
           (Some (n + 1, live)) st)
  | step_caught_up l f k a c :
      catching k = true →
      step (mk_view l f k a c (Some (size_of l + 1, true)) false)
        (mk_view l f (mk_known true (acked k) false (size_of l) (asked k)) a c None false)
  | step_leader_up l f k a c r st :
      lup c = false → clos c = false →
      step (mk_view l f k a c r st)
        (mk_view l f (forgotten k) a
           (mk_line (down c ++ [MReply asks_again]) (back c) true (fup c) false)
           r (catching k || st))
  | step_leader_lost l f k a c r st :
      lup c = true →
      step (mk_view l f k a c r st)
        (mk_view l f (forgotten k) a
           (mk_line (if fup c then down c else []) [] false (fup c) (fup c))
           ((λ x, (x.1, false)) <$> r) (catching k || st))
  | step_told l f k a c r st n :
      (a = true → answered_all (mk_view l f k a c r st)) →
      (n ≠ 0%nat → fup c = true) →
      step (mk_view l f k a c r st)
        (mk_view l f k false (send_back c (replicate n (request f))) r st)
  | step_follower_up l f k a c r st :
      fup c = false → clos c = false →
      step (mk_view l f k a c r st)
        (mk_view l f k false
           (mk_line (down c) (back c ++ [request f]) (lup c) true false) r st)
  | step_follower_lost l f k a c r st :
      fup c = true →
      step (mk_view l f k a c r st)
        (mk_view l f k false
           (mk_line [] (if lup c then back c else []) (lup c) false (lup c)) r st)
  | step_record_passed l f k a c r st n rec d :
      fup c = true → down c = MRecord n rec :: d →
      a = false ∨ n ≤ size_of f →
      step (mk_view l f k a c r st) (mk_view l f k a (take_down c d) r st)
  | step_record_gap l f k c r st n rec d :
      fup c = true → down c = MRecord n rec :: d → size_of f + 1 < n →
      step (mk_view l f k true c r st) (mk_view l f k false (take_down c d) r st)
  | step_record l f k c r st rec d :
      fup c = true → down c = MRecord (size_of f + 1) rec :: d →
      step (mk_view l f k true c r st)
        (mk_view l (f ++ [rec]) k true
           (send_back (take_down c d) [MAck (size_of f + 1)]) r st)
  | step_asked_again l f k a c r st p d :
      fup c = true → down c = MReply p :: d → ask_again p = true →
      step (mk_view l f k a c r st)
        (mk_view l f k false (send_back (take_down c d) [request f]) r st)
  | step_reply_passed l f k c r st p d :
      fup c = true → down c = MReply p :: d → ask_again p = false →
      step (mk_view l f k true c r st) (mk_view l f k true (take_down c d) r st)
  | step_reply l f k c r st p d f' a' c' :
      fup c = true → down c = MReply p :: d → ask_again p = false →
      repair f (take_down c d) p f' a' c' →
      step (mk_view l f k false c r st) (mk_view l f' k a' c' r st).

(** ** The invariant *)

(** The records on their way, in the order they are sent in: each is the one
    after the last, and an answer that agrees starts again after the record it
    is about. *)
Fixpoint flows (x : option Z) (q : list message) (y : option Z) : Prop :=
  match q with
  | [] => x = y
  | MRecord n _ :: q => x = Some n ∧ flows (Some (n + 1)) q y
  | MReply p :: q =>
      flows (if negb (ask_again p) && reply_agreed p then Some (reply_seq_no p + 1) else x) q y
  | _ :: q => flows x q y
  end.

(** What follows a record, or an answer that agrees, asks about no later one. *)
Fixpoint chain (ps : list Z) (q : list message) : Prop :=
  match q with
  | [] => True
  | m :: q =>
      match m with
      | MRecord n _ =>
          Forall (λ p, p < n) (ps ++ omap position q) ∧ Forall (λ m, again m = false) q
      | MReply r =>
          ask_again r = false → reply_agreed r = true →
          Forall (λ p, p ≤ reply_seq_no r) (ps ++ omap position q) ∧
          Forall (λ m, again m = false) q
      | _ => True
      end ∧ chain ps q
  end.

(** A message to the follower is true of the leader's log. *)
Definition true_of (l : log) (m : message) : Prop :=
  match m with
  | MRecord n c => 1 ≤ n ∧ l !! Z.to_nat (n - 1) = Some c
  | MReply r =>
      ask_again r = true ∨
      0 ≤ reply_seq_no r ≤ size_of l ∧
      (reply_seq_no r = 0 ∨
       LogEpochTable.epoch_at (epochs l) (reply_seq_no r) = Some (reply_epoch r))
  | _ => False
  end.

(** The follower holds the record, or it is one the leader had when it took the
    lead. *)
Definition held (l f : log) (n : Z) : Prop := n ≤ start ∨ shares l f n.

Definition size_near (f g : log) : Prop := size_of g = size_of f ∨ size_of g < start.

Definition shrinking : list log → Prop := StronglySorted (λ g g', g' `prefix_of` g).

Definition ack_through (n : Z) (m : message) : Prop :=
  match m with MAck k => k ≤ n | _ => True end.

Definition no_ack (m : message) : Prop :=
  match m with MAck _ => False | _ => True end.

(** What the records on their way lead up to. *)
Definition flow (v : view) (ends : option Z → option Z → Prop) : Prop :=
  fup (joined v) = true ∨ clos (joined v) = false →
  ∃ x y, flows x (down (joined v)) y ∧
    (matches (knowing v) = true → y = Some (size_of (llog v) + 1)) ∧
    (∀ n, rd v = Some (n, true) → y = Some n) ∧ ends x y.

Definition refusal (l f : log) (m : message) : Prop :=
  again m = true ∨
  ∃ r, m = MReply r ∧ ask_again r = false ∧ reply_agreed r = false ∧
    true_of l m ∧ reply_seq_no r ≤ start ∧ ∀ n, shares l f n → n ≤ reply_seq_no r.

Record lost (v : view) (gs : list log) : Prop := mk_lost {
  lo_agreeing : agreeing v = false;
  lo_matches : matches (knowing v) = false;
  lo_catching : catching (knowing v) = false;
  lo_reader : ∀ n, rd v ≠ Some (n, true);
  lo_acks : Forall no_ack (back (joined v));
  lo_asking : Forall (λ g, flog v `prefix_of` g ∧ follower_log term (llog v) g ∧
                (g `prefix_of` llog v → size_near (flog v) g)) gs;
  lo_shrinking : shrinking gs;
  lo_down : Forall (refusal (llog v) (flog v)) (down (joined v))
}.

Record seek (v : view) (gs : list log) : Prop := mk_seek {
  se_acks : Forall no_ack (back (joined v));
  se_asking : Forall (λ g, flog v `prefix_of` g ∧ size_near (flog v) g) gs;
  se_shrinking : shrinking gs;
  se_positions : Forall (λ p, size_of (flog v) ≤ p ∧ (p = size_of (flog v) ∨ p ≤ start))
                   (omap position (down (joined v)));
  se_acked : size_of (flog v) ≤ acked (knowing v);
  se_near : acked (knowing v) = size_of (flog v) ∨ acked (knowing v) < start;
  se_chain : chain (acked (knowing v) :: ((λ g, size_of g) <$> gs)) (down (joined v));
  se_flow : flow v (λ _ y, ∀ n, y = Some n →
              Forall (λ p, p < n) (acked (knowing v) :: ((λ g, size_of g) <$> gs)))
}.

Record clean (v : view) (gs : list log) : Prop := mk_clean {
  cl_agreeing : agreeing v = false;
  cl_asking : Forall (λ g, g = flog v) gs;
  cl_positions : Forall (λ p, p = size_of (flog v)) (omap position (down (joined v)));
  cl_acks : Forall (ack_through (size_of (flog v))) (back (joined v));
  cl_acked : acked (knowing v) ≤ size_of (flog v);
  cl_again : Forall (λ m, again m = false) (down (joined v));
  cl_flow : flow v (λ _ _, True)
}.

Record writing (v : view) (gs : list log) : Prop := mk_writing {
  wr_agreeing : agreeing v = true ∨ fup (joined v) = false;
  wr_asking : Forall (λ g, size_of g ≤ size_of (flog v)) gs;
  wr_positions : Forall (λ p, p ≤ size_of (flog v)) (omap position (down (joined v)));
  wr_acks : Forall (ack_through (size_of (flog v))) (back (joined v));
  wr_acked : acked (knowing v) ≤ size_of (flog v);
  wr_again : Forall (λ m, again m = false) (down (joined v));
  wr_flow : flow v (λ x _, ∀ n, x = Some n → n ≤ size_of (flog v) + 1)
}.

Record found (v : view) (gs : list log) : Prop := mk_found {
  fo_prefix : flog v `prefix_of` llog v;
  fo_asking : Forall (λ g, g `prefix_of` llog v) gs;
  fo_down : Forall (true_of (llog v)) (down (joined v));
  fo_follower : fup (joined v) = true ∨ clos (joined v) = true;
  fo_leader : lup (joined v) = true ∨ clos (joined v) = true;
  fo_state : seek v gs ∨ clean v gs ∨ writing v gs
}.

(** What holds whichever state the pair is in. *)
Record basic (v : view) : Prop := mk_basic {
  so_leader : leader_log term start (llog v);
  so_follower : follower_log term (llog v) (flog v);
  so_catching : catching (knowing v) = true →
    matches (knowing v) = false ∧ asked (knowing v) = None ∧ stop v = false ∧
    ∃ n, rd v = Some (n, true);
  so_reader n b : rd v = Some (n, b) →
    1 ≤ n ≤ size_of (llog v) + 1 ∧ (b = true → lup (joined v) = true) ∧
    (stop v = false → catching (knowing v) = true ∧ b = true) ∧ thread = true;
  so_matches : matches (knowing v) = true →
    rd v = None ∧ lup (joined v) = true ∧ start ≤ handed (knowing v);
  so_asked r : asked (knowing v) = Some r →
    lup (joined v) = true ∧ catching (knowing v) = false ∧
    matches (knowing v) = false ∧ rd v ≠ None;
  so_closing : clos (joined v) = true → lup (joined v) = negb (fup (joined v));
  so_away : fup (joined v) = false →
    agreeing v = false ∧ (clos (joined v) = true → down (joined v) = []);
  so_unmet : fup (joined v) = false → clos (joined v) = false →
    back (joined v) = [] ∧ asked (knowing v) = None;
  so_gone : lup (joined v) = false → clos (joined v) = true → back (joined v) = [];
  so_apart : lup (joined v) = false → fup (joined v) = false →
    down (joined v) = [] ∧ back (joined v) = [];
  so_back : Forall (λ m, is_Some (request_of m) ∨ ∃ n, m = MAck n) (back (joined v));
  so_acked : held (llog v) (flog v) (acked (knowing v))
}.

(** [gs] are the logs the follower had when it made the requests that the
    leader has yet to answer. *)
Definition sound (v : view) : Prop :=
  basic v ∧
  ∃ gs, requests (knowing v) (joined v) = end_of <$> gs ∧ (lost v gs ∨ found v gs).

End protocol.
