(* ===== verification/PairInvariant.v ===== *)
(** The protocol of PairProtocol.v keeps its invariant. *)

From S2P Require Import Prelude.
From S2P Require Import LogEpochTable.
From S2P Require Import WalEntry.
From S2P Require Import WalRefinement.
From S2P Require Import RecordLog.
From S2P Require Import ReplicatedWal.
From S2P Require Import ReplicatedPair.
From S2P Require Import ReplicatedPairEffects.
From S2P Require Import PairLogs.
From S2P Require Import PairProtocol.
From Stdlib Require Import Sorted.
Import ReplicatedWal.

#[local] Open Scope Z_scope.

(** ** Messages on their way *)

Lemma cons_same {A} (x y : A) l k : x :: l = y :: k → x = y ∧ l = k.
Proof. by intros [= -> ->]. Qed.

Lemma flows_app x q1 q2 y :
  flows x (q1 ++ q2) y ↔ ∃ z, flows x q1 z ∧ flows z q2 y.
Proof.
  revert x. induction q1 as [|[n c|n|n e|p] q1 IH]; intros x; cbn [app flows].
  - split; [by eexists|]. by intros (z & -> & ?).
  - rewrite IH. split.
    + intros [-> (z & ? & ?)]. by exists z.
    + intros (z & [-> ?] & ?). split; [done|]. by exists z.
  - apply IH.
  - apply IH.
  - apply IH.
Qed.

(** Every number of [ps'] is at most one of [ps]. *)
Definition below (ps' ps : list Z) : Prop := ∀ p', p' ∈ ps' → ∃ p, p ∈ ps ∧ p' ≤ p.

Lemma below_subset ps' ps : ps' ⊆ ps → below ps' ps.
Proof. intros Hs p' Hp'. exists p'. split; [by apply Hs|lia]. Qed.

Lemma below_cons p' ps' ps : (∃ p, p ∈ ps ∧ p' ≤ p) → below ps' ps → below (p' :: ps') ps.
Proof. intros Hp Hb q [->|Hq]%elem_of_cons; [done|by apply Hb]. Qed.

Lemma below_app ps1 ps2 ps : below ps1 ps → below ps2 ps → below (ps1 ++ ps2) ps.
Proof. intros H1 H2 q [Hq|Hq]%elem_of_app; [by apply H1|by apply H2]. Qed.

Lemma Forall_below_lt n ps' ps : below ps' ps → Forall (λ p, p < n) ps → Forall (λ p, p < n) ps'.
Proof.
  rewrite !Forall_forall. intros Hb Hf p' Hp'. destruct (Hb p' Hp') as (p & Hp & Hle).
  specialize (Hf p Hp). cbn in Hf. lia.
Qed.

Lemma Forall_below_le n ps' ps : below ps' ps → Forall (λ p, p ≤ n) ps → Forall (λ p, p ≤ n) ps'.
Proof.
  rewrite !Forall_forall. intros Hb Hf p' Hp'. destruct (Hb p' Hp') as (p & Hp & Hle).
  specialize (Hf p Hp). cbn in Hf. lia.
Qed.

Lemma below_app_both ps1' ps1 ps2 : below ps1' ps1 → below (ps1' ++ ps2) (ps1 ++ ps2).
Proof.
  intros Hb p' [Hp|Hp]%elem_of_app.
  - destruct (Hb p' Hp) as (p & ? & ?). exists p. rewrite elem_of_app. auto.
  - exists p'. rewrite elem_of_app. split; [auto|lia].
Qed.

Lemma chain_below ps' ps q : below ps' ps → chain ps q → chain ps' q.
Proof.
  intros Hb. induction q as [|m q IH]; [done|]. cbn [chain]. intros [Hm Hq]. split; [|auto].
  pose proof (below_app_both _ _ (omap position q) Hb) as Hb'.
  destruct m as [n c| | |p]; [|done|done|].
  - destruct Hm. split; [by eapply Forall_below_lt|done].
  - intros H1 H2. destruct (Hm H1 H2). split; [by eapply Forall_below_le|done].
Qed.

(** A message at the end, whose answer, if it is one, is about a record of [ps]. *)
Lemma chain_snoc ps q m :
  chain ps q → again m = false → (∀ p, position m = Some p → p ∈ ps) → chain ps [m] →
  chain ps (q ++ [m]).
Proof.
  intros Hq Ha Hp Hm. induction q as [|m' q IH]; cbn [app]; [done|].
  destruct Hq as [Hm' Hq]. split; [|by apply IH].
  assert (Hpos : below (ps ++ omap position (q ++ [m])) (ps ++ omap position q)).
  { rewrite omap_app, app_assoc. apply below_app; [by apply below_subset|].
    intros p Hin. destruct (position m) as [p1|] eqn:E; cbn in Hin; rewrite E in Hin;
      [|by apply elem_of_nil in Hin]. apply list_elem_of_singleton in Hin as ->.
    exists p1. rewrite elem_of_app. split; [left; by apply Hp|lia]. }
  destruct m' as [n c| | |r]; [|done|done|].
  - destruct Hm' as [H1 H2]. split; [by eapply Forall_below_lt|].
    apply Forall_app. by repeat constructor.
  - intros E1 E2. destruct (Hm' E1 E2) as [H1 H2]. split; [by eapply Forall_below_le|].
    apply Forall_app. by repeat constructor.
Qed.

Lemma chain_record ps q n c :
  chain ps q → Forall (λ p, p < n) ps → chain ps (q ++ [MRecord n c]).
Proof.
  intros Hq Hps. apply chain_snoc; [done..|]. cbn. by rewrite app_nil_r.
Qed.

Lemma chain_reply ps q r :
  chain ps q → ask_again r = false → reply_seq_no r ∈ ps →
  Forall (λ p, p ≤ reply_seq_no r) ps → chain ps (q ++ [MReply r]).
Proof.
  intros Hq Ha Hin Hps. apply chain_snoc; [done|done| |].
  - cbn. rewrite Ha. by intros p [= <-].
  - cbn. rewrite app_nil_r. by split.
Qed.

(** The records of a log from one on, as messages. *)
Definition sent_from (n : Z) (l : log) : list message :=
  (λ r, MRecord r.1 r.2) <$> numbered_from n l.

Lemma chain_sent l : ∀ ps q n,
  chain ps q → Forall (λ p, p < n) ps → chain ps (q ++ sent_from n l).
Proof.
  induction l as [|c l IH]; intros ps q n Hq Hps; cbn; [by rewrite app_nil_r|].
  rewrite cons_middle, app_assoc. apply IH; [by apply chain_record|].
  eapply Forall_impl; [exact Hps|]. cbn. intros; lia.
Qed.

Lemma flows_sent l : ∀ n, flows (Some n) (sent_from n l) (Some (n + size_of l)).
Proof.
  induction l as [|c l IH]; intros n; [cbn; f_equal; lia|].
  replace (n + size_of (c :: l)) with ((n + 1) + size_of l) by (cbn [length]; lia).
  split; [done|]. apply IH.
Qed.

Lemma positions_sent n l : omap position (sent_from n l) = [].
Proof. revert n. induction l as [|c l IH]; intros n; cbn; [done|apply IH]. Qed.

Lemma again_sent n l : Forall (λ m, again m = false) (sent_from n l).
Proof. revert n. induction l as [|c l IH]; intros n; cbn; constructor; [done|apply IH]. Qed.

Lemma true_sent l : ∀ n g, 0 ≤ n → drop (Z.to_nat n) g = l → Forall (true_of g) (sent_from (n + 1) l).
Proof.
  induction l as [|c l IH]; intros n g Hn Hd; cbn; constructor.
  - cbn. split; [lia|]. replace (n + 1 - 1) with n by lia.
    rewrite <- (Nat.add_0_r (Z.to_nat n)), <- lookup_drop. by rewrite Hd.
  - apply IH; [lia|]. replace (Z.to_nat (n + 1)) with (Z.to_nat n + 1)%nat by lia.
    rewrite <- drop_drop, Hd. by rewrite skipn_cons.
Qed.

Lemma true_of_grows l c m : true_of l m → true_of (l ++ [c]) m.
Proof.
  destruct m as [n r| | |p]; cbn; [|done|done|].
  - intros [? Hl]. split; [done|]. rewrite lookup_app_l by by eapply lookup_lt_Some. done.
  - intros [?|[? He]]; [by left|]. right. rewrite length_app. cbn [length]. split; [lia|].
    destruct He as [?|He]; [by left|]. right. eapply epoch_at_prefix; [|done].
    by apply prefix_app_r.
Qed.

Section invariant.
Variables (term start : Z) (thread : bool).

Abbreviation sound := (sound term start thread).
Abbreviation basic := (basic term start thread).
Abbreviation lost := (lost term start).
Abbreviation found := (found start).
Abbreviation seek := (seek start).
Abbreviation held := (held start).

(** [subst], which would take [thread] for a variable too. *)
Ltac subst_but_thread :=
  repeat match goal with
  | H : ?x = ?y |- _ =>
      first [is_var x; tryif constr_eq x thread then fail else subst x
            |is_var y; tryif constr_eq y thread then fail else subst y]
  end.

(** ** The leader writes *)

Lemma held_grows l f c n : held l f n → held (l ++ [c]) f n.
Proof.
  intros [?|Hs]; [by left|]. right. eapply shares_mono; [|done]. by apply prefix_app_r.
Qed.

Lemma refusal_grows l f c m :
  leader_epoch c = term → follower_log term l f → refusal start l f m → refusal start (l ++ [c]) f m.
Proof.
  intros Hc Hf [?|(r & -> & Ha & Hag & Ht & Hs & Hall)]; [by left|]. right. exists r.
  split_and!; try done; [by apply true_of_grows|]. intros n Hn. apply Hall.
  by eapply shares_grows.
Qed.

Lemma lost_append l f k a c r st rec gs :
  leader_epoch rec = term → follower_log term l f →
  lost (mk_view l f k a c r st) gs →
  lost (mk_view (l ++ [rec]) f k a
    (send_down c (if matches k && lup c then [MRecord (size_of l + 1) rec] else [])) r st) gs.
Proof.
  intros Hc Hf [H1 H2 H3 H4 H5 H6 H7 H8]. cbn in *. rewrite H2. cbn [andb].
  constructor; cbn; try done.
  - eapply Forall_impl; [exact H6|]. cbn. intros g (Hp & Hg & Hn). split_and!; [done| |].
    + by apply follower_log_grows.
    + intros Hg'. apply Hn. by eapply prefix_grows.
  - assert (Hd : Forall (refusal start (l ++ [rec]) f) (down c)).
    { eapply Forall_impl; [exact H8|]. intros m. by apply refusal_grows. }
    destruct (clos c); [done|]. by rewrite app_nil_r.
Qed.

(** The leader has sent something, or nothing. *)
Lemma flow_sends l f k a c r st l' k' ms r' st' ends ends' :
  (clos c = true → lup c = negb (fup c)) → lup c = true →
  flow (mk_view l f k a c r st) ends →
  (∀ x y, (matches k = true → y = Some (size_of l + 1)) → (∀ n, r = Some (n, true) → y = Some n) →
     ends x y →
     ∃ y', flows y ms y' ∧ (matches k' = true → y' = Some (size_of l' + 1)) ∧
       (∀ n, r' = Some (n, true) → y' = Some n) ∧ ends' x y') →
  flow (mk_view l' f k' a (send_down c ms) r' st') ends'.
Proof.
  intros Hc Hl Hfl Hnew Hup. cbn in Hup. destruct (clos c) eqn:Hclos; cbn in Hup.
  - destruct Hup as [Hup|]; [|done]. rewrite Hup, Hl in Hc. by specialize (Hc eq_refl).
  - destruct (Hfl (or_intror Hclos)) as (x & y & Hq & Hy & Hr & He). cbn in *.
    destruct (Hnew x y Hy Hr He) as (y' & Hms & Hm & Hr' & He'). exists x, y'.
    rewrite Hclos. split_and!; try done. apply flows_app. by exists y.
Qed.

Lemma down_sends (P : message → Prop) c ms :
  Forall P (down c) → Forall P ms → Forall P (down (send_down c ms)).
Proof. intros H1 H2. cbn. destruct (clos c); [done|]. by apply Forall_app. Qed.

Lemma positions_sends (P : Z → Prop) c ms :
  Forall P (omap position (down c)) → Forall P (omap position ms) →
  Forall P (omap position (down (send_down c ms))).
Proof. intros H1 H2. cbn. destruct (clos c); [done|]. rewrite omap_app. by apply Forall_app. Qed.

Lemma chain_sends ps c ms :
  chain ps (down c) → chain ps (down c ++ ms) → chain ps (down (send_down c ms)).
Proof. intros H1 H2. cbn. by destruct (clos c). Qed.

(** A record sent when the leader would send it next. *)
Lemma found_record l f k a c r st l' k' r' st' n rec gs :
  (clos c = true → lup c = negb (fup c)) → lup c = true →
  (∀ m, true_of l m → true_of l' m) → l `prefix_of` l' → acked k' = acked k →
  true_of l' (MRecord n rec) →
  (∀ y, (matches k = true → y = Some (size_of l + 1)) → (∀ n, r = Some (n, true) → y = Some n) →
     y = Some n) →
  (matches k' = true → size_of l' = n) → (∀ m, r' = Some (m, true) → m = n + 1) →
  found (mk_view l f k a c r st) gs →
  found (mk_view l' f k' a (send_down c [MRecord n rec]) r' st') gs.
Proof.
  intros Hc Hl Ht Hp Hk Htr Hy Hm Hr [F1 F2 F3 F4 F5 F6]. cbn in *.
  assert (Hfl : ∀ ends, flow (mk_view l f k a c r st) ends → (∀ x, ends x (Some n) → ends x (Some (n + 1))) →
    flow (mk_view l' f k' a (send_down c [MRecord n rec]) r' st') ends).
  { intros ends Hf He. eapply flow_sends; [done|done|exact Hf|]. intros x y Hy1 Hy2 Hxy.
    rewrite (Hy y Hy1 Hy2) in Hxy |- *. exists (Some (n + 1)). cbn. split_and!; [done|done| | |by apply He].
    - intros Hm'. f_equal. rewrite Hm by done. done.
    - intros m Hm'. f_equal. symmetry. by apply Hr. }
  constructor; cbn [llog flog joined knowing rd]; try done.
  - by etrans.
  - eapply Forall_impl; [exact F2|]. cbn. intros g Hg. by etrans.
  - apply down_sends; [by eapply Forall_impl|by apply Forall_singleton].
  - destruct F6 as [[]|[[]|[]]]; [left|right; left|right; right]; constructor; cbn in *; try done.
    + by apply positions_sends.
    + by rewrite Hk.
    + by rewrite Hk.
    + rewrite Hk. destruct (clos c) eqn:Hclos; [done|].
      apply chain_record; [done|]. destruct (se_flow (or_intror Hclos)) as (x & y & _ & Hy1 & Hy2 & Hxy).
      apply Hxy. by apply Hy.
    + apply Hfl; rewrite ?Hk; [done|]. intros _ Hall m [= <-]. eapply Forall_impl; [by apply Hall|].
      cbn. intros; lia.
    + by apply positions_sends.
    + by rewrite Hk.
    + apply down_sends; [done|by repeat constructor].
    + by apply Hfl.
    + by apply positions_sends.
    + by rewrite Hk.
    + apply down_sends; [done|by repeat constructor].
    + by apply Hfl.
Qed.

(** Nothing the follower sees has changed but the leader's log. *)
Lemma found_longer l f k a c r st l' gs :
  (∀ m, true_of l m → true_of l' m) → l `prefix_of` l' → matches k = false →
  found (mk_view l f k a c r st) gs → found (mk_view l' f k a c r st) gs.
Proof.
  intros Ht Hp Hk [F1 F2 F3 F4 F5 F6]. cbn in *.
  assert (Hfl : ∀ ends, flow (mk_view l f k a c r st) ends → flow (mk_view l' f k a c r st) ends).
  { intros ends Hf Hup. destruct (Hf Hup) as (x & y & ? & ? & ? & ?). exists x, y. cbn in *.
    split_and!; try done. by rewrite Hk. }
  constructor; cbn; try done.
  - by etrans.
  - eapply Forall_impl; [exact F2|]. cbn. intros g Hg. by etrans.
  - by eapply Forall_impl.
  - destruct F6 as [[]|[[]|[]]]; [left|right; left|right; right]; constructor; cbn in *; auto.
Qed.

Lemma send_nothing c : send_down c [] = c.
Proof. unfold send_down. rewrite app_nil_r. by destruct c as [? ? ? ? []]. Qed.

Lemma append_sound l f k a c r st rec :
  leader_epoch rec = term → sound (mk_view l f k a c r st) →
  sound (mk_view (l ++ [rec]) f k a
    (send_down c (if matches k && lup c then [MRecord (size_of l + 1) rec] else [])) r st).
Proof.
  intros Hc [[S1 S2 S3 S4 S5 S6 S7 S8 Sun S9 S10 S11 S12] S13]. cbn in *.
  assert (Hsize : size_of (l ++ [rec]) = size_of l + 1) by (rewrite length_app; cbn; lia).
  split.
  - constructor; cbn; try done.
    + by apply leader_log_snoc.
    + by apply follower_log_grows.
    + intros n b Hr. destruct (S4 n b Hr) as (? & ?). rewrite Hsize. split; [lia|done].
    + intros Hf. destruct (S8 Hf) as [? Hd]. split; [done|]. intros Hclos. rewrite Hclos. by apply Hd.
    + intros Hl Hf. destruct (S10 Hl Hf) as [Hd Hb]. rewrite Hl, andb_false_r, app_nil_r.
      by destruct (clos c).
    + by apply held_grows.
  - destruct S13 as (gs & Hgs & [Hlost|Hfound]); exists gs; (split; [done|]).
    + left. by apply (lost_append l f k a c r st rec gs).
    + right. destruct (matches k) eqn:Hk; cbn [andb].
      * destruct (S5 eq_refl) as (-> & Hl & _). rewrite Hl.
        eapply (found_record l f k a c None st); try done.
        -- intros m. by apply true_of_grows.
        -- by apply prefix_app_r.
        -- cbn. split; [lia|]. replace (size_of l + 1 - 1) with (size_of l) by lia. rewrite Nat2Z.id.
           by apply list_lookup_middle.
        -- intros y Hy _. by apply Hy.
      * rewrite send_nothing. eapply found_longer; [|by apply prefix_app_r|done|done].
        intros m. by apply true_of_grows.
Qed.

(** ** The leader is told *)

Lemma held_prefix l f n :
  leader_log term start l → f `prefix_of` l → n ≤ size_of f → held l f n.
Proof.
  intros Hl Hp Hn. destruct (decide (n ≤ start)); [by left|]. right.
  pose proof (ll_start _ _ _ Hl). eapply shares_le; [by apply prefix_shares|]. lia.
Qed.

(** A message the leader has taken is no longer on its way. *)
Lemma lost_taken l f k a c r st m b gs :
  back c = m :: b → lost (mk_view l f k a c r st) gs → lost (mk_view l f k a (take_back c b) r st) gs.
Proof.
  intros Hb []. constructor; cbn in *; try done. rewrite Hb in lo_acks. by apply Forall_cons in lo_acks as [_ ?].
Qed.

Lemma flow_back l f k a c r st k' b st' ends :
  matches k' = matches k →
  flow (mk_view l f k a c r st) ends → flow (mk_view l f k' a (take_back c b) r st') ends.
Proof. intros Hk Hf Hup. destruct (Hf Hup) as (x & y & ?). exists x, y. cbn in *. by rewrite Hk. Qed.

Lemma found_taken l f k a c r st m b gs :
  back c = m :: b → found (mk_view l f k a c r st) gs → found (mk_view l f k a (take_back c b) r st) gs.
Proof.
  intros Hb [F1 F2 F3 F4 F5 F6]. constructor; cbn in *; try done.
  destruct F6 as [[]|[[]|[]]]; [left|right; left|right; right]; constructor; cbn in *; try done.
  all: try by eapply flow_back.
  all: rewrite Hb in *; by eapply Forall_cons_1.
Qed.

Lemma ack_sound l f k a c r st n b :
  lup c = true → back c = MAck n :: b → sound (mk_view l f k a c r st) →
  sound (mk_view l f (mk_known (matches k) (Z.max (acked k) n) (catching k) (handed k) (asked k))
    a (take_back c b) r st).
Proof.
  intros Hl Hb [[S1 S2 S3 S4 S5 S6 S7 S8 Sun S9 S10 S11 S12] (gs & Hgs & Hmode)]. cbn in *.
  assert (Hno : ¬ Forall no_ack (back c)).
  { rewrite Hb. by intros [[] _]%Forall_cons. }
  destruct Hmode as [[]|[F1 F2 F3 F4 F5 [[]|F6]]]; [done|done|]. cbn in *.
  assert (Hack : Forall (ack_through (size_of f)) (back c) ∧ acked k ≤ size_of f).
  { by destruct F6 as [[]|[]]. }
  destruct Hack as [Hack Hk]. rewrite Hb in Hack. apply Forall_cons in Hack as [Hn Hack]. cbn in Hn.
  split.
  - constructor; cbn in *; try done.
    + intros Hf Hclos. destruct (Sun Hf Hclos). congruence.
    + intros Hl'. congruence.
    + intros Hl'. congruence.
    + rewrite Hb in S11. by apply Forall_cons in S11 as [_ ?].
    + apply held_prefix; [done|done|]. lia.
  - exists gs. split.
    + unfold requests in *. cbn in *. by rewrite Hb in Hgs.
    + right. constructor; cbn in *; try done.
      destruct F6 as [[]|[]]; [right; left|right; right]; constructor; cbn in *; try done.
      all: try lia. all: by eapply flow_back.
Qed.

(** *** Requests *)

Lemma lost_tail v g gs : lost v (g :: gs) → lost v gs.
Proof.
  intros []. constructor; try done; [by eapply Forall_cons_1|].
  by apply StronglySorted_inv in lo_shrinking as [? _].
Qed.

Lemma sizes_tail x (g : log) gs :
  below (x :: ((λ g, size_of g) <$> gs)) (x :: ((λ g, size_of g) <$> g :: gs)).
Proof. apply below_subset. intros p. rewrite fmap_cons, !elem_of_cons. tauto. Qed.

Lemma found_tail v g gs : found v (g :: gs) → found v gs.
Proof.
  intros [F1 F2 F3 F4 F5 F6]. constructor; try done; [by eapply Forall_cons_1|].
  destruct F6 as [[]|[[]|[]]]; [left|right; left|right; right]; constructor; try done;
    try by eapply Forall_cons_1.
  - by apply StronglySorted_inv in se_shrinking as [? _].
  - eapply chain_below; [|done]. apply sizes_tail.
  - intros Hup. destruct (se_flow Hup) as (x & y & ? & ? & ? & Hy). exists x, y. split_and!; try done.
    intros n Hn. eapply Forall_below_lt; [apply sizes_tail|]. by apply Hy.
Qed.

(** The modes depend on the leader's knowledge only so far. *)
Lemma lost_known l f k a c r st k' st' gs :
  matches k' = matches k → catching k' = false →
  lost (mk_view l f k a c r st) gs → lost (mk_view l f k' a c r st') gs.
Proof. intros Hm Hc []. constructor; cbn in *; try done. congruence. Qed.

Lemma found_known l f k a c r st k' st' gs :
  matches k' = matches k → acked k' = acked k →
  found (mk_view l f k a c r st) gs → found (mk_view l f k' a c r st') gs.
Proof.
  intros Hm Hk [F1 F2 F3 F4 F5 F6].
  assert (Hfl : ∀ ends, flow (mk_view l f k a c r st) ends → flow (mk_view l f k' a c r st') ends).
  { intros ends Hf Hup. destruct (Hf Hup) as (x & y & ?). exists x, y. cbn in *. by rewrite Hm. }
  constructor; cbn in *; try done.
  destruct F6 as [[]|[[]|[]]]; [left|right; left|right; right]; constructor; cbn in *; try done;
    rewrite ?Hk; try done; by apply Hfl.
Qed.

(** What the leader sends when it agrees: the answer, and perhaps records. *)
Record agreement (l : log) (n : Z) (k' : known) (r' : option (Z * bool)) (ms : list message)
    : Prop := mk_agreement {
  am_positions : omap position ms = [n];
  am_again : Forall (λ m, again m = false) ms;
  am_true : Forall (true_of l) ms;
  am_chain ps q : chain ps q → n ∈ ps → Forall (λ p, p ≤ n) ps → chain ps (q ++ ms);
  am_flow : ∃ y', (∀ y, flows y ms (Some y')) ∧ n < y' ∧
    (matches k' = true → y' = size_of l + 1) ∧ (∀ m, r' = Some (m, true) → m = y');
  am_acked : acked k' = n
}.

Lemma refusals_flow l f x q : Forall (refusal start l f) q → flows x q x.
Proof.
  induction 1 as [|m q Hm _ IH]; [done|]. destruct Hm as [Ha|(p & -> & Ha & Hag & _)].
  - destruct m as [| | |p]; [done..|]. cbn in Ha |- *. by rewrite Ha.
  - cbn. by rewrite Ha, Hag.
Qed.

Lemma refusals_chain l f ps q : Forall (refusal start l f) q → chain ps q.
Proof.
  induction 1 as [|m q Hm _ IH]; [done|]. split; [|done].
  destruct Hm as [Ha|(p & -> & Ha & Hag & _)]; [|congruence].
  destruct m as [| | |p]; [done..|]. cbn in Ha. congruence.
Qed.

Lemma refusals_positions l f q :
  f `prefix_of` l → Forall (refusal start l f) q →
  Forall (λ p, size_of f ≤ p ∧ (p = size_of f ∨ p ≤ start)) (omap position q).
Proof.
  intros Hp. induction 1 as [|m q Hm _ IH]; [constructor|].
  destruct Hm as [Ha|(p & -> & Ha & _ & _ & Hs & Hall)].
  - destruct m as [| | |p]; [done..|]. cbn in Ha |- *. by rewrite Ha.
  - cbn. rewrite Ha. constructor; [|done]. split; [|by right]. apply Hall. by apply prefix_shares.
Qed.

Lemma refusals_true l f q : Forall (refusal start l f) q → Forall (true_of l) q.
Proof.
  intros Hq. eapply Forall_impl; [exact Hq|]. intros m [Ha|(p & -> & ? & ? & ? & ?)]; [|done].
  destruct m; [done..|]. by left.
Qed.

Lemma sizes_shrink (g : log) gs :
  Forall (λ g', g' `prefix_of` g) gs →
  Forall (λ p, p ≤ size_of g) (size_of g :: ((λ g, size_of g) <$> gs)).
Proof.
  intros Hb. constructor; [lia|]. apply Forall_fmap. eapply Forall_impl; [exact Hb|]. cbn.
  intros g' Hp. apply prefix_length in Hp. lia.
Qed.

(** Once sent, an agreement is what the records on their way lead up to. *)
Lemma flow_agreement l f k a c r st k' r' st' n ms ends ends' :
  (clos c = true → lup c = negb (fup c)) → lup c = true → agreement l n k' r' ms →
  flow (mk_view l f k a c r st) ends → (∀ x y y', n < y' → ends x y → ends' x (Some y')) →
  flow (mk_view l f k' a (send_down c ms) r' st') ends'.
Proof.
  intros Hc Hl [_ _ _ _ (y' & A5 & A6 & A7 & A8) _] Hf He. eapply flow_sends; [done|done|exact Hf|].
  intros x y _ _ Hxy. exists (Some y'). split_and!; [apply A5| | |by eapply He].
  - intros Hm. by rewrite A7.
  - intros m Hm. f_equal. symmetry. by apply A8.
Qed.

Lemma flow_refusals l f k a c r st :
  matches k = false → (∀ n, r ≠ Some (n, true)) →
  Forall (refusal start l f) (down c) → flow (mk_view l f k a c r st) (λ _ _, True).
Proof.
  intros Hm Hr Hd _. exists None, None. cbn. split_and!; [by apply (refusals_flow l f)|congruence| |done].
  intros n Hn. by destruct (Hr n).
Qed.

Lemma lost_agreement l f k a c r st g gs k' r' st' ms :
  (clos c = true → lup c = negb (fup c)) → lup c = true → (fup c = true ∨ clos c = true) →
  leader_log term start l → g `prefix_of` l → agreement l (size_of g) k' r' ms →
  lost (mk_view l f k a c r st) (g :: gs) →
  found (mk_view l f k' a (send_down c ms) r' st') gs ∧ held l f (size_of g).
Proof.
  intros Hc Hl Hfup Hll Hg Ham [L1 L2 L3 L4 L5 L6 L7 L8]. cbn in *.
  pose proof Ham as [A1 A2 A3 A4 _ A6].
  apply Forall_cons in L6 as [(Hfg & Hflg & Hnear) L6].
  apply StronglySorted_inv in L7 as [L7 Hbelow]. specialize (Hnear Hg).
  assert (Hfl : f `prefix_of` l) by by etrans.
  pose proof (prefix_length _ _ Hfg) as Hle. pose proof (sizes_shrink _ _ Hbelow) as Hsizes.
  assert (Hgs : Forall (λ g', g' `prefix_of` l) gs).
  { eapply Forall_impl; [exact Hbelow|]. cbn. intros g' Hg'. by etrans. }
  split; [|destruct Hnear as [?|?]; [apply held_prefix; [done..|lia]|left; lia]].
  constructor; cbn [llog flog joined knowing rd]; try done.
  - apply down_sends; [by apply (refusals_true l f)|done].
  - by left.
  - left. constructor; cbn [llog flog joined knowing rd]; rewrite ?A6; try done; try lia.
    + rewrite Forall_forall in L6, Hgs |- *. intros g' Hg'. destruct (L6 g' Hg') as (? & _ & Hn).
      split; [done|]. by apply Hn, Hgs.
    + apply positions_sends; [by apply (refusals_positions l f)|]. rewrite A1.
      apply Forall_singleton. unfold size_near in *. lia.
    + apply chain_sends; [by apply (refusals_chain l f)|]. apply A4; [by apply (refusals_chain l f)| |done].
      by left.
    + eapply (flow_agreement l f k a c r st); [done|done|exact Ham|by apply flow_refusals|]. intros _ _ y' Hy' _ m [= <-].
      eapply Forall_impl; [exact Hsizes|]. cbn. intros; lia.
Qed.

Lemma found_agreement l f k a c r st g gs k' r' st' ms :
  (clos c = true → lup c = negb (fup c)) → lup c = true →
  leader_log term start l → agreement l (size_of g) k' r' ms →
  found (mk_view l f k a c r st) (g :: gs) →
  found (mk_view l f k' a (send_down c ms) r' st') gs ∧ held l f (size_of g).
Proof.
  intros Hc Hl Hll Ham [F1 F2 F3 F4 F5 F6]. cbn in *. pose proof Ham as [A1 A2 A3 A4 _ A6].
  apply Forall_cons in F2 as [Hg F2].
  assert (Hheld : size_of g ≤ size_of f ∨ size_of g < start).
  { destruct F6 as [[]|[[]|[]]]; cbn in *.
    - apply Forall_cons in se_asking as [[_ Hn] _]. unfold size_near in Hn. lia.
    - apply Forall_cons in cl_asking as [-> _]. lia.
    - apply Forall_cons in wr_asking as [? _]. lia. }
  split; [|destruct Hheld as [?|?]; [by apply held_prefix|left; lia]].
  constructor; cbn [llog flog joined knowing rd]; try done; [by apply down_sends|].
  destruct F6 as [[]|[[]|[]]]; [left|right; left|right; right]; cbn in *;
    constructor; cbn [llog flog joined knowing rd agreeing]; rewrite ?A6; try done.
  - by eapply Forall_cons_1.
  - by apply StronglySorted_inv in se_shrinking as [? _].
  - apply Forall_cons in se_asking as [[Hfg Hn] _]. apply prefix_length in Hfg.
    apply positions_sends; [done|]. rewrite A1. apply Forall_singleton. unfold size_near in Hn. lia.
  - apply Forall_cons in se_asking as [[Hfg _] _]. apply prefix_length in Hfg. lia.
  - by apply Forall_cons in se_asking as [[_ ?] _].
  - apply StronglySorted_inv in se_shrinking as [_ Hbelow].
    assert (Hch : chain (size_of g :: ((λ g, size_of g) <$> gs)) (down c)).
    { eapply chain_below; [|exact se_chain]. apply below_subset. intros p. rewrite !elem_of_cons. tauto. }
    apply chain_sends; [done|]. apply A4; [done|by left|]. by apply sizes_shrink.
  - apply StronglySorted_inv in se_shrinking as [_ Hbelow].
    eapply (flow_agreement l f k a c r st); [done|done|exact Ham|exact se_flow|]. intros _ _ y' Hy' _ m [= <-].
    eapply Forall_impl; [by apply sizes_shrink|]. cbn. intros; lia.
  - by eapply Forall_cons_1.
  - apply Forall_cons in cl_asking as [-> _]. apply positions_sends; [done|].
    rewrite A1. by apply Forall_singleton.
  - apply Forall_cons in cl_asking as [-> _]. lia.
  - by apply down_sends.
  - by eapply (flow_agreement l f k a c r st); [done|done|exact Ham|exact cl_flow|].
  - by eapply Forall_cons_1.
  - apply Forall_cons in wr_asking as [? _]. apply positions_sends; [done|].
    rewrite A1. by apply Forall_singleton.
  - by apply Forall_cons in wr_asking as [? _].
  - by apply down_sends.
  - by eapply (flow_agreement l f k a c r st); [done|done|exact Ham|exact wr_flow|].
Qed.

Lemma reply_true l n e p : replies_with l n e p → true_of l (MReply p).
Proof. intros []. right. split; [lia|done]. Qed.

Lemma agreement_reply l n e p k' r' rest y' :
  replies_with l n e p → reply_agreed p = true →
  omap position rest = [] → Forall (λ m, again m = false) rest → Forall (true_of l) rest →
  (∀ ps q, chain ps q → Forall (λ q, q < n + 1) ps → chain ps (q ++ rest)) →
  flows (Some (n + 1)) rest (Some y') → n < y' →
  (matches k' = true → y' = size_of l + 1) → (∀ m, r' = Some (m, true) → m = y') →
  acked k' = n →
  agreement l n k' r' (MReply p :: rest).
Proof.
  intros Hp Hag R1 R2 R3 R4 Hfl Hlt Hm Hr Hk. pose proof (rp_whole _ _ _ _ Hp Hag) as Hn.
  pose proof (rp_again _ _ _ _ Hp) as Ha. constructor.
  - cbn. rewrite Ha, Hn. f_equal. done.
  - by constructor.
  - constructor; [by eapply reply_true|done].
  - intros ps q Hq Hin Hps. rewrite cons_middle, app_assoc. apply R4.
    + apply chain_reply; [done|done|by rewrite Hn|by rewrite Hn].
    + eapply Forall_impl; [exact Hps|]. cbn. intros; lia.
  - exists y'. split_and!; [|done..]. intros y. cbn. by rewrite Ha, Hag, Hn.
  - done.
Qed.

Lemma agreement_thread l n e p h :
  replies_with l n e p → reply_agreed p = true →
  agreement l n (mk_known false n true h None) (Some (n + 1, true)) [MReply p].
Proof.
  intros Hp Hag. eapply (agreement_reply l n e p _ _ [] (n + 1)); try done; try lia.
  - intros ps q Hq _. by rewrite app_nil_r.
  - by intros m [= <-].
Qed.

Lemma agreement_here l n e p b :
  replies_with l n e p → reply_agreed p = true →
  agreement l n (mk_known true n b (size_of l) None) None (MReply p :: records_after n l).
Proof.
  intros Hp Hag. pose proof (rp_whole _ _ _ _ Hp Hag). pose proof (rp_range _ _ _ _ Hp).
  pose proof (rp_within _ _ _ _ Hp).
  eapply (agreement_reply l n e p _ _ (records_after n l) (size_of l + 1)); try done; try lia.
  - apply positions_sent.
  - apply again_sent.
  - by apply true_sent; [lia|].
  - intros ps q Hq Hps. by apply chain_sent.
  - replace (size_of l + 1) with ((n + 1) + size_of (drop (Z.to_nat n) l)).
    + apply flows_sent.
    + rewrite length_drop. lia.
Qed.

Lemma shares_longer l f g n : f `prefix_of` g → shares l f n → shares l g n.
Proof.
  intros Hp (Hn & Hl & He). pose proof (prefix_length _ _ Hp). split_and!; [lia..|].
  rewrite <- He. symmetry. apply prefix_take_eq; [done|lia].
Qed.

(** The leader has found the oldest request to agree. *)
Lemma agreed_sound l f k a c r st g gs k' r' st' ms :
  lup c = true → (fup c = true ∨ clos c = true) → g `prefix_of` l →
  basic (mk_view l f k a c r st) → omap request_of (back c) = end_of <$> gs →
  lost (mk_view l f k a c r st) (g :: gs) ∨ found (mk_view l f k a c r st) (g :: gs) →
  agreement l (size_of g) k' r' ms → asked k' = None →
  (catching k' = true → matches k' = false ∧ st' = false ∧ ∃ n, r' = Some (n, true)) →
  (∀ n b, r' = Some (n, b) → 1 ≤ n ≤ size_of l + 1 ∧
     (st' = false → catching k' = true ∧ b = true) ∧ thread = true) →
  (matches k' = true → r' = None ∧ start ≤ handed k') →
  sound (mk_view l f k' a (send_down c ms) r' st').
Proof.
  intros Hl Hfup Hg [S1 S2 S3 S4 S5 S6 S7 S8 Sun S9 S10 S11 S12] Hgs Hmode Ham Hask K1 K2 K3.
  cbn in *.
  assert (Hnew : found (mk_view l f k' a (send_down c ms) r' st') gs ∧ held l f (size_of g)).
  { destruct Hmode as [Hlo|Hf]; [by eapply lost_agreement|by eapply found_agreement]. }
  destruct Hnew as [Hnew Hheld]. split.
  - constructor; cbn in *; try done.
    + intros Hc. by destruct (K1 Hc) as (? & ? & ?).
    + intros n b Hn. by destruct (K2 n b Hn) as (? & ? & ?).
    + intros Hm. by destruct (K3 Hm).
    + congruence.
    + intros Hf. destruct (S8 Hf) as [? Hd]. split; [done|]. intros Hclos. rewrite Hclos. by apply Hd.
    + intros Hf Hclos. destruct Hfup; congruence.
    + intros Hl'. congruence.
    + by rewrite (am_acked _ _ _ _ _ Ham).
  - exists gs. split; [|by right]. unfold requests. cbn [knowing joined back send_down]. by rewrite Hask.
Qed.

(** *** Whatever the leader does with a request *)

Lemma answer_sound l f k a c r st n e k' c' r' st' g gs :
  lup c = true → (fup c = true ∨ clos c = true) → end_of g = (n, e) →
  basic (mk_view l f k a c r st) → omap request_of (back c) = end_of <$> gs →
  lost (mk_view l f k a c r st) (g :: gs) ∨ found (mk_view l f k a c r st) (g :: gs) →
  answer thread l n e (k, c, r, st) (k', c', r', st') →
  sound (mk_view l f k' a c' r' st').
Proof.
  intros Hl Hfup Hg [S1 S2 S3 S4 S5 S6 S7 S8 Sun S9 S10 S11 S12] Hgs Hmode Hans. cbn in *.
  assert (Hr : thread = false → r = None).
  { intros Ht. destruct r as [[x b]|]; [|done]. destruct (S4 x b eq_refl) as (_ & _ & _ & ?). congruence. }
  assert (Hgp : ∀ p, replies_with l n e p → reply_agreed p = true → g `prefix_of` l).
  { intros p Hp Hag. destruct Hmode as [Hlo|Hf].
    - destruct (Forall_cons_1 _ _ _ (lo_asking _ _ _ _ Hlo)) as [(_ & Hgl & _) _].
      apply (answer_agreed l g p); [apply Hgl|by rewrite Hg|done].
    - by destruct (Forall_cons_1 _ _ _ (fo_asking _ _ _ Hf)). }
  inversion Hans as [? ? ? ? Hcat|? ? ? ? Hcat|? ? [x b] ? Hcat|? ? ? ? p Hno Hp Hag
    |? ? ? p h Ht Hcat Hp Hag|? ? ? ? p Ht Hp Hag]; subst_but_thread; clear Hans.
  - destruct (S3 Hcat) as (_ & Hask & _). split; [by constructor|]. exists gs. split.
    + unfold requests. cbn. by rewrite Hask.
    + destruct Hmode; [left; by eapply lost_tail|right; by eapply found_tail].
  - destruct (S3 Hcat) as (Hm & Hask & Hst & x & ->). split.
    + constructor; cbn; try done.
      * intros x' b Hx. destruct (S4 x' b Hx) as ([? ?] & ? & ? & ?). by split_and!.
      * intros Hf Hclos. destruct Hfup; congruence.
    + exists (g :: gs). split; [unfold requests; cbn; by rewrite Hg, Hgs|].
      destruct Hmode as [[]|Hf]; [cbn in *; congruence|]. right.
      by eapply found_known; [| |exact Hf].
  - assert (Hm : matches k = false).
    { destruct (matches k); [|done]. by destruct (S5 eq_refl). }
    split.
    + constructor; cbn; try done.
      * intros Hc. congruence.
      * intros Hf Hclos. destruct Hfup; congruence.
    + exists (g :: gs). split; [unfold requests; cbn; by rewrite Hg, Hgs|].
      destruct Hmode as [Hlo|Hf]; [left; by eapply lost_known; [| |exact Hlo]|].
      right. by eapply found_known; [| |exact Hf].
  - assert (r' = None) as -> by (destruct thread; [by destruct Hno|by apply Hr]).
    destruct Hmode as [Hlo|Hf].
    2: { destruct (Forall_cons_1 _ _ _ (fo_asking _ _ _ Hf)) as [Hpre _]. cbn in Hpre.
         assert (reply_agreed p = true); [|congruence].
         apply (answer_agreed l g p); [|by rewrite Hg|done].
         by apply (fl_matching _ _ _ (follower_log_prefix _ _ _ _ S1 Hpre)). }
    destruct (Forall_cons_1 _ _ _ (lo_asking _ _ _ _ Hlo)) as [(Hfg & Hgl & _) _]. cbn in Hfg, Hgl.
    split.
    + constructor; cbn in *; try done.
      * intros Hc. destruct (S3 Hc) as (_ & _ & _ & ? & ?). congruence.
      * intros Hf. destruct (S8 Hf) as [? Hd]. split; [done|]. intros Hclos. rewrite Hclos. by apply Hd.
      * intros Hf Hclos. destruct Hfup; congruence.
      * intros Hl'. congruence.
    + exists gs. split; [done|]. left. apply lost_tail in Hlo.
      destruct Hlo as [L1 L2 L3 L4 L5 L6 L7 L8]. constructor; cbn [llog flog joined knowing rd]; try done.
      apply down_sends; [done|]. apply Forall_singleton. right. exists p. split_and!; try done.
      * apply (rp_again _ _ _ _ Hp).
      * by eapply reply_true.
      * eapply (answer_within term start l g); [done|done|by rewrite Hg|done].
      * intros m Hm. eapply (answer_above l g); [apply Hgl|by rewrite Hg|].
        by eapply shares_longer.
  - assert (n = size_of g) as -> by (by injection Hg). pose proof (prefix_length _ _ (Hgp p Hp Hag)).
    eapply (agreed_sound l f k a c None st g gs); try done; [by eapply Hgp|by eapply agreement_thread|..].
    + intros _. split_and!; [done|done|by eexists].
    + intros m b [= <- <-]. split_and!; [lia|lia|done|done].
  - assert (n = size_of g) as -> by (by injection Hg). rewrite (Hr Ht) in *.
    pose proof (ll_start _ _ _ S1).
    eapply (agreed_sound l f k a c None st' g gs); try done; [by eapply Hgp|by eapply agreement_here|..].
    + intros Hc. destruct (S3 Hc) as (_ & _ & _ & ? & ?). congruence.
    + intros _. split; [done|]. cbn. lia.
Qed.

Lemma basic_taken l f k a c r st m b :
  lup c = true → back c = m :: b → basic (mk_view l f k a c r st) →
  basic (mk_view l f k a (take_back c b) r st).
Proof.
  intros Hl Hb [S1 S2 S3 S4 S5 S6 S7 S8 Sun S9 S10 S11 S12]. constructor; cbn in *; try done.
  - intros Hf Hclos. destruct (Sun Hf Hclos). congruence.
  - congruence.
  - congruence.
  - rewrite Hb in S11. by apply Forall_cons in S11 as [_ ?].
Qed.

Lemma request_sound l f k a c r st n e b k' c' r' st' :
  lup c = true → back c = MRequest n e :: b →
  answer thread l n e (k, take_back c b, r, st) (k', c', r', st') →
  sound (mk_view l f k a c r st) → sound (mk_view l f k' a c' r' st').
Proof.
  intros Hl Hb Hans [Hbasic (gs & Hgs & Hmode)]. unfold requests in Hgs. cbn in Hgs. rewrite Hb in Hgs.
  cbn in Hgs.
  assert (Hfup : fup c = true ∨ clos c = true).
  { destruct (fup c) eqn:Hf, (clos c) eqn:Hc; auto. destruct (so_unmet _ _ _ _ Hbasic Hf Hc) as [Hb' _].
    cbn in Hb'. congruence. }
  assert (Hsplit : ∃ g gs', end_of g = (n, e) ∧ omap request_of b = end_of <$> gs' ∧
    (lost (mk_view l f k a c r st) (g :: gs') ∨ found (mk_view l f k a c r st) (g :: gs'))).
  { destruct (asked k) as [q|]; cbn in Hgs.
    - destruct gs as [|g0 [|g gs]]; cbn in Hgs; [done|done|]. exists g, gs. apply cons_same in Hgs as [_ [Hn Hgs]%cons_same].
      split_and!; [done|done|].
      destruct Hmode; [left; by eapply lost_tail|right; by eapply found_tail].
    - destruct gs as [|g gs]; cbn in Hgs; [done|]. exists g, gs. by apply cons_same in Hgs as [? ?]. }
  destruct Hsplit as (g & gs' & Hg & Hgs' & Hmode').
  eapply (answer_sound l f k a (take_back c b) r st n e _ _ _ _ g gs'); try done.
  - by eapply basic_taken.
  - destruct Hmode'; [left; by eapply lost_taken|right; by eapply found_taken].
Qed.

(** *** The reading thread *)

Lemma found_reader l f k a c r st r' st' gs :
  (∀ n, r' = Some (n, true) → r = Some (n, true)) →
  found (mk_view l f k a c r st) gs → found (mk_view l f k a c r' st') gs.
Proof.
  intros Hr [F1 F2 F3 F4 F5 F6].
  assert (Hfl : ∀ ends, flow (mk_view l f k a c r st) ends → flow (mk_view l f k a c r' st') ends).
  { intros ends Hf Hup. destruct (Hf Hup) as (x & y & ? & ? & Hy & ?). exists x, y. cbn in *.
    split_and!; try done. intros n Hn. by apply Hy, Hr. }
  constructor; cbn in *; try done.
  destruct F6 as [[]|[[]|[]]]; [left|right; left|right; right]; constructor; cbn in *; auto.
Qed.

Lemma lost_reader l f k a c r st r' st' gs :
  (∀ n, r' ≠ Some (n, true)) →
  lost (mk_view l f k a c r st) gs → lost (mk_view l f k a c r' st') gs.
Proof. intros Hr []. by constructor. Qed.

(** The thread that reads is told to stop or has nobody to read for; the leader
    does not take its follower to agree. *)
Lemma reader_stopping l f k a c x st :
  basic (mk_view l f k a c (Some x) st) → matches k = false ∧ (st = true → catching k = false).
Proof.
  intros []. cbn in *. split.
  - destruct (matches k); [|done]. by destruct (so_matches eq_refl).
  - intros ->. destruct (catching k); [|done]. by destruct (so_catching eq_refl) as (_ & _ & ? & _).
Qed.

Lemma stopped_basic l f k a c x :
  basic (mk_view l f k a c (Some x) true) → basic (mk_view l f (keep_asked k None) a c None false).
Proof.
  intros Hb. destruct (reader_stopping _ _ _ _ _ _ _ Hb) as [Hm Hc]. specialize (Hc eq_refl).
  destruct Hb as [S1 S2 S3 S4 S5 S6 S7 S8 Sun S9 S10 S11 S12]. constructor; cbn in *; try done.
  - congruence.
  - congruence.
  - intros Hf Hclos. by destruct (Sun Hf Hclos).
Qed.

Lemma stopped_sound l f k a c x :
  asked k = None → sound (mk_view l f k a c (Some x) true) → sound (mk_view l f k a c None false).
Proof.
  intros Hask [Hb (gs & Hgs & Hmode)]. split.
  - apply stopped_basic in Hb. destruct k. cbn in *. by subst.
  - exists gs. split; [done|].
    destruct Hmode as [Hlo|Hf];
      [left; by eapply lost_reader; [|exact Hlo]|right; by eapply found_reader; [|exact Hf]].
Qed.

Lemma stopped_answers_sound l f k a c x n e k' c' r' st' :
  asked k = Some (n, e) →
  answer thread l n e (keep_asked k None, c, None, false) (k', c', r', st') →
  sound (mk_view l f k a c (Some x) true) → sound (mk_view l f k' a c' r' st').
Proof.
  intros Hask Hans [Hb (gs & Hgs & Hmode)]. unfold requests in Hgs. cbn in Hgs. rewrite Hask in Hgs.
  destruct gs as [|g gs]; cbn in Hgs; [done|]. apply cons_same in Hgs as [Hg Hgs].
  destruct (so_asked _ _ _ _ Hb _ Hask) as (Hl & Hc & Hm & _). cbn in Hl, Hc, Hm.
  assert (Hfup : fup c = true ∨ clos c = true).
  { destruct (fup c) eqn:Hf, (clos c) eqn:Hcl; auto. destruct (so_unmet _ _ _ _ Hb Hf Hcl) as [_ Hb'].
    cbn in Hb'. congruence. }
  eapply (answer_sound l f (keep_asked k None) a c None false n e _ _ _ _ g gs); try done.
  - by eapply stopped_basic.
  - destruct Hmode as [Hlo|Hf]; [left|right].
    + apply (lost_known l f k a c None false); [done|done|]. by apply (lost_reader _ _ _ _ _ (Some x) true).
    + apply (found_known l f k a c None false); [done|done|]. by apply (found_reader _ _ _ _ _ (Some x) true).
Qed.

Lemma reads_sound l f k a c n live st rec :
  l !! Z.to_nat (n - 1) = Some rec →
  sound (mk_view l f k a c (Some (n, live)) st) →
  sound (mk_view l f k a (if live then send_down c [MRecord n rec] else c) (Some (n + 1, live)) st).
Proof.
  intros Hrec [Hb (gs & Hgs & Hmode)]. pose proof (lookup_lt_Some _ _ _ Hrec) as Hlt.
  destruct (reader_stopping _ _ _ _ _ _ _ Hb) as [Hm _].
  destruct Hb as [S1 S2 S3 S4 S5 S6 S7 S8 Sun S9 S10 S11 S12]. cbn in *.
  destruct (S4 n live eq_refl) as (Hn & Hlive & Hst & Hth).
  assert (Hr : ∀ m b, Some (n + 1, live) = Some (m, b) → 1 ≤ m ≤ size_of l + 1 ∧
    (b = true → lup c = true) ∧ (st = false → catching k = true ∧ b = true) ∧ thread = true).
  { intros m b [= <- <-]. split; [lia|done]. }
  assert (Hcat : catching k = true → matches k = false ∧ asked k = None ∧ st = false ∧
    ∃ m, Some (n + 1, live) = Some (m, true)).
  { intros Hc. destruct (S3 Hc) as (? & ? & ? & m & [= _ ->]). split_and!; try done. by eexists. }
  destruct live.
  - specialize (Hlive eq_refl). destruct Hmode as [Hlo|Hf].
    { by destruct (lo_reader _ _ _ _ Hlo n). }
    split.
    + constructor; cbn in *; try done.
      * congruence.
      * intros r0 Hr0. by destruct (S6 r0 Hr0) as (? & ? & ? & ?).
      * intros Hfu. destruct (S8 Hfu) as [? Hd]. split; [done|]. intros Hclos. rewrite Hclos. by apply Hd.
      * congruence.
    + exists gs. split; [done|]. right. eapply (found_record l f k a c (Some (n, true)) st); try done.
      * cbn. split; [lia|done].
      * intros y _ Hy. by apply Hy.
      * congruence.
      * by intros m [= <-].
  - split.
    + constructor; cbn in *; try done; [congruence|]. intros r0 Hr0. by destruct (S6 r0 Hr0) as (? & ? & ? & ?).
    + exists gs. split; [done|].
      destruct Hmode as [Hlo|Hf];
      [left; by eapply lost_reader; [|exact Hlo]|right; by eapply found_reader; [|exact Hf]].
Qed.

Lemma caught_up_sound l f k a c :
  catching k = true → sound (mk_view l f k a c (Some (size_of l + 1, true)) false) →
  sound (mk_view l f (mk_known true (acked k) false (size_of l) (asked k)) a c None false).
Proof.
  intros Hc [[S1 S2 S3 S4 S5 S6 S7 S8 Sun S9 S10 S11 S12] (gs & Hgs & Hmode)]. cbn in *.
  destruct (S3 Hc) as (Hm & Hask & _ & _). destruct (S4 _ _ eq_refl) as (_ & Hl & _ & _).
  pose proof (ll_start _ _ _ S1). split.
  - constructor; cbn in *; try done; [|congruence]. intros _. split_and!; [done|by apply Hl|lia].
  - exists gs. split; [done|]. destruct Hmode as [Hlo|[F1 F2 F3 F4 F5 F6]].
    { by destruct (lo_reader _ _ _ _ Hlo (size_of l + 1)). }
    right.
    assert (Hfl : ∀ ends, flow (mk_view l f k a c (Some (size_of l + 1, true)) false) ends →
      flow (mk_view l f (mk_known true (acked k) false (size_of l) (asked k)) a c None false) ends).
    { intros ends Hf Hup. destruct (Hf Hup) as (x & y & ? & ? & Hy & ?). exists x, y. cbn in *.
      split_and!; try done. intros _. by apply Hy. }
    constructor; cbn in *; try done.
    destruct F6 as [[]|[[]|[]]]; [left|right; left|right; right]; constructor; cbn in *; auto.
Qed.

(** ** The connection, at the leader *)

(** With nothing on its way and nobody agreeing, the pair is lost. *)
Lemma apart_lost l f k c r st :
  matches k = false → catching k = false → (∀ n, r ≠ Some (n, true)) →
  down c = [] → back c = [] → lost (mk_view l f k false c r st) [].
Proof. intros ? ? ? Hd Hb. constructor; cbn; rewrite ?Hd, ?Hb; try done; constructor. Qed.

Lemma leader_up_sound l f k a c r st :
  lup c = false → clos c = false → sound (mk_view l f k a c r st) →
  sound (mk_view l f (forgotten k) a
    (mk_line (down c ++ [MReply asks_again]) (back c) true (fup c) false) r (catching k || st)).
Proof.
  intros Hl Hcl [[S1 S2 S3 S4 S5 S6 S7 S8 Sun S9 S10 S11 S12] (gs & Hgs & Hmode)]. cbn in *.
  assert (Hc : catching k = false).
  { destruct (catching k); [|done]. destruct (S3 eq_refl) as (_ & _ & _ & n & Hn).
    destruct (S4 _ _ Hn) as (_ & Hl' & _). rewrite Hl' in Hl; done. }
  assert (Hask : asked k = None).
  { destruct (asked k) as [q|]; [|done]. destruct (S6 q eq_refl). congruence. }
  destruct Hmode as [Hlo|[_ _ _ _ [F5|F5] _]]; [|cbn in F5; congruence..]. split.
  - rewrite Hc. constructor; cbn in *; try done.
    + intros n b Hn. destruct (S4 n b Hn) as (? & Hl' & Hst & ?). split_and!; [lia|lia|done| |done].
      intros Hst'; destruct (Hst Hst'); congruence.
    + intros Hf. by destruct (S8 Hf).
    + intros Hf _. by destruct (Sun Hf Hcl).
  - exists gs. split; [unfold requests in *; cbn in *; by rewrite Hask in Hgs|]. left.
    destruct Hlo as [L1 L2 L3 L4 L5 L6 L7 L8]. constructor; cbn in *; try done.
    apply Forall_app. split; [done|]. apply Forall_singleton. by left.
Qed.

Lemma leader_lost_sound l f k a c r st :
  lup c = true → sound (mk_view l f k a c r st) →
  sound (mk_view l f (forgotten k) a
    (mk_line (if fup c then down c else []) [] false (fup c) (fup c))
    ((λ x, (x.1, false)) <$> r) (catching k || st)).
Proof.
  intros Hl [[S1 S2 S3 S4 S5 S6 S7 S8 Sun S9 S10 S11 S12] (gs & Hgs & Hmode)]. cbn in *.
  assert (Hdead : ∀ n, (λ x, (x.1, false)) <$> r ≠ Some (n, true)) by (by destruct r).
  split.
  - constructor; cbn in *; try done.
    + intros n b Hn. destruct r as [[m b']|]; [|done]. cbn in Hn. injection Hn as <- <-.
      destruct (S4 m b' eq_refl) as (? & _ & Hst & ?). split_and!; [lia|lia|done| |done].
      intros Hst'; apply orb_false_iff in Hst' as [Hc Hst']; destruct (Hst Hst'); congruence.
    + by intros ->.
    + intros Hf. rewrite Hf. by destruct (S8 Hf).
    + by intros _ ->.
  - exists []. split; [done|]. destruct (fup c) eqn:Hf.
    + destruct Hmode as [[L1 L2 L3 L4 L5 L6 L7 L8]|[F1 F2 F3 F4 F5 F6]]; [left|right].
      { constructor; cbn; try done; constructor. }
      assert (Hfl : ∀ ends ends', flow (mk_view l f k a c r st) ends →
        (∀ x y, ends x y → ends' x y) →
        flow (mk_view l f (forgotten k) a (mk_line (down c) [] false true true)
          ((λ x, (x.1, false)) <$> r) (catching k || st)) ends').
      { intros ends ends' Hfl He _. destruct (Hfl (or_introl Hf)) as (x & y & ? & _ & _ & ?).
        exists x, y. split_and!; [done|done| |by apply He]. intros n Hn. by destruct (Hdead n). }
      constructor; cbn in *; try done; try apply Forall_nil_2; try (by left); try (by right).
      destruct F6 as [[]|[[]|[]]]; [left|right; left|right; right]; constructor; cbn in *; try done;
        try apply Forall_nil_2; try (by left).
      * eapply chain_below; [|exact se_chain]. apply below_subset.
        intros p [->|Hp]%elem_of_cons; [by left|by apply elem_of_nil in Hp].
      * eapply Hfl; [exact se_flow|]. intros x y Hy n Hn. specialize (Hy n Hn).
        apply Forall_cons in Hy as [? _]. by apply Forall_singleton.
      * by eapply Hfl.
      * destruct wr_agreeing as [?|?]; [by left|congruence].
      * by eapply Hfl.
    + left. destruct (S8 eq_refl) as [-> _]. by apply apart_lost.
Qed.

End invariant.
