(* ===== verification/PairFollower.v ===== *)
(** What the follower does keeps the invariant of PairProtocol.v, and no record
    it holds past those the leader started with is ever given up. *)

From S2P Require Import Prelude.
From S2P Require Import LogEpochTable.
From S2P Require Import WalEntry.
From S2P Require Import WalRefinement.
From S2P Require Import RecordLog.
From S2P Require Import ReplicatedWal.
From S2P Require Import ReplicatedPair.
From S2P Require Import ReplicatedPairEffects.
From S2P Require Import PairLogs.
From S2P Require Import PairProtocol.
From S2P Require Import PairInvariant.
From Stdlib Require Import Sorted.
Import ReplicatedWal.

#[local] Open Scope Z_scope.

Section follower.
Variables (term start : Z) (thread : bool).

Abbreviation sound := (sound term start thread).
Abbreviation basic := (basic term start thread).
Abbreviation lost := (lost term start).
Abbreviation found := (found start).
Abbreviation seek := (seek start).
Abbreviation held := (held start).

(** ** Asking *)

Lemma shrinking_asks (f : log) gs n :
  Forall (λ g, f `prefix_of` g) gs → shrinking gs → shrinking (gs ++ replicate n f).
Proof.
  intros Hf Hs. unfold shrinking in *. induction Hs as [|g gs Hs IH Hg]; cbn.
  - induction n as [|n IH]; cbn; constructor; [done|]. by apply Forall_replicate.
  - apply Forall_cons in Hf as [Hfg Hf]. constructor; [by apply IH|].
    apply Forall_app. split; [done|]. by apply Forall_replicate.
Qed.

(** The logs of the requests, with those just made. *)
Definition asking_too (c : line) (n : nat) (f : log) (gs : list log) : list log :=
  gs ++ (if clos c then [] else replicate n f).

Lemma requests_asks k c n f gs :
  requests k c = end_of <$> gs →
  requests k (send_back c (replicate n (request f))) = end_of <$> asking_too c n f gs.
Proof.
  intros Hgs. unfold requests, asking_too in *. cbn.
  destruct (clos c); [by rewrite app_nil_r|].
  rewrite omap_app, app_assoc, Hgs, fmap_app. f_equal.
  rewrite fmap_replicate. induction n as [|n IH]; [done|]. cbn. rewrite IH.
  by destruct (end_of f).
Qed.

Lemma asks_no_ack c n f :
  Forall no_ack (back c) → Forall no_ack (back (send_back c (replicate n (request f)))).
Proof.
  intros Hb. cbn. destruct (clos c); [done|]. apply Forall_app. split; [done|].
  by apply Forall_replicate.
Qed.

Lemma asks_acks p c n f :
  Forall (ack_through p) (back c) →
  Forall (ack_through p) (back (send_back c (replicate n (request f)))).
Proof.
  intros Hb. cbn. destruct (clos c); [done|]. apply Forall_app. split; [done|].
  by apply Forall_replicate.
Qed.

Lemma asking_too_all (P : log → Prop) c n f gs :
  Forall P gs → P f → Forall P (asking_too c n f gs).
Proof.
  intros Hgs Hf. apply Forall_app. split; [done|]. destruct (clos c); [constructor|].
  by apply Forall_replicate.
Qed.

Lemma asking_too_shrinks c n f gs :
  Forall (λ g, f `prefix_of` g) gs → shrinking gs → shrinking (asking_too c n f gs).
Proof.
  intros Hf Hs. unfold asking_too. destruct (clos c); [by rewrite app_nil_r|].
  by apply shrinking_asks.
Qed.

Lemma lost_asks l f k c r st gs n :
  follower_log term l f → lost (mk_view l f k false c r st) gs →
  lost (mk_view l f k false (send_back c (replicate n (request f))) r st) (asking_too c n f gs).
Proof.
  intros Hf [L1 L2 L3 L4 L5 L6 L7 L8]. constructor; cbn [llog flog joined knowing rd down send_back] in *;
    try done.
  - by apply asks_no_ack.
  - apply asking_too_all; [done|]. split_and!; [done|done|]. intros _. by left.
  - apply asking_too_shrinks; [|done]. eapply Forall_impl; [exact L6|]. by intros g (? & _).
Qed.

Lemma sizes_asking x c n (f : log) gs :
  size_of f ≤ x →
  below (x :: ((λ g, size_of g) <$> asking_too c n f gs)) (x :: ((λ g, size_of g) <$> gs)).
Proof.
  intros Hx. apply below_cons; [exists x; split; [by left|lia]|]. unfold asking_too.
  rewrite fmap_app. apply below_app; [apply below_subset; intros p; by right|].
  destruct (clos c); [by intros p Hp%elem_of_nil|]. rewrite fmap_replicate.
  intros p Hp%elem_of_replicate_inv. subst p. exists x. split; [by left|done].
Qed.

(** The connection's ends and the messages down it are as they were. *)
Lemma flow_same l f f' k a a' c c' r st st' ends ends' :
  down c' = down c → fup c' = fup c → clos c' = clos c → (∀ x y, ends x y → ends' x y) →
  flow (mk_view l f k a c r st) ends → flow (mk_view l f' k a' c' r st') ends'.
Proof.
  intros Hd Hf Hc He Hfl Hup. cbn in Hup. rewrite Hf, Hc in Hup.
  destruct (Hfl Hup) as (x & y & ? & ? & ? & ?). exists x, y. cbn in *. rewrite Hd.
  split_and!; auto.
Qed.

Lemma seek_asks l f k a a' c r st gs n :
  seek (mk_view l f k a c r st) gs →
  seek (mk_view l f k a' (send_back c (replicate n (request f))) r st) (asking_too c n f gs).
Proof.
  intros []. constructor; cbn [llog flog joined knowing rd down send_back] in *; try done.
  - by apply asks_no_ack.
  - apply asking_too_all; [done|]. split; [done|]. by left.
  - apply asking_too_shrinks; [|done]. eapply Forall_impl; [exact se_asking|]. by intros g (? & _).
  - eapply chain_below; [|exact se_chain]. by apply sizes_asking.
  - eapply flow_same; [..|exact se_flow]; try done. intros x y Hy m Hm.
    eapply Forall_below_lt; [by apply sizes_asking|]. by apply Hy.
Qed.

Lemma clean_asks l f k c r st gs n :
  clean (mk_view l f k false c r st) gs →
  clean (mk_view l f k false (send_back c (replicate n (request f))) r st) (asking_too c n f gs).
Proof.
  intros []. constructor; cbn [llog flog joined knowing rd down send_back agreeing] in *; try done.
  - by apply asking_too_all.
  - by apply asks_acks.
Qed.

(** A follower that wrote and has nothing left to hear asks afresh. *)
Lemma writing_asks l f k a c r st gs n :
  requests k c = end_of <$> gs → requests k c = [] → omap position (down c) = [] →
  writing (mk_view l f k a c r st) gs →
  clean (mk_view l f k false (send_back c (replicate n (request f))) r st) (asking_too c n f gs).
Proof.
  intros Hgs Hnone Hpos []. rewrite Hnone in Hgs. symmetry in Hgs. apply fmap_nil_inv in Hgs as ->.
  constructor; cbn [llog flog joined knowing rd down send_back agreeing] in *; try done.
  - by apply asking_too_all; [constructor|].
  - by rewrite Hpos.
  - by apply asks_acks.
  - by eapply flow_same; [..|exact wr_flow].
Qed.

Lemma basic_asks l f k a c r st n :
  (n ≠ 0%nat → fup c = true) → basic (mk_view l f k a c r st) →
  basic (mk_view l f k false (send_back c (replicate n (request f))) r st).
Proof.
  intros Hn [S1 S2 S3 S4 S5 S6 S7 S8 Sun S9 S10 S11 S12].
  assert (Hz : fup c = false → n = 0%nat).
  { destruct n; [done|]. intros Hf. rewrite Hn in Hf; done. }
  constructor; cbn in *; try done.
  - intros Hf. split; [done|]. by apply S8.
  - intros Hf Hc. destruct (Sun Hf Hc) as [-> ->]. rewrite Hc, (Hz Hf). done.
  - intros Hl Hc. rewrite Hc. by apply S9.
  - intros Hl Hf. destruct (S10 Hl Hf) as [-> ->]. rewrite (Hz Hf). by destruct (clos c).
  - destruct (clos c); [done|]. apply Forall_app. split; [done|]. apply Forall_replicate.
    left. by eexists.
Qed.

Lemma told_sound l f k a c r st n :
  (a = true → answered_all (mk_view l f k a c r st)) → (n ≠ 0%nat → fup c = true) →
  sound (mk_view l f k a c r st) →
  sound (mk_view l f k false (send_back c (replicate n (request f))) r st).
Proof.
  intros Ha Hn [Hb (gs & Hgs & Hmode)]. split; [by eapply basic_asks|].
  exists (asking_too c n f gs). split; [by apply requests_asks|].
  destruct Hmode as [Hlo|[F1 F2 F3 F4 F5 F6]].
  - left. pose proof (lo_agreeing _ _ _ _ Hlo) as Ha'. cbn in Ha'. subst a.
    apply lost_asks; [apply Hb|done].
  - right. constructor; cbn [llog flog joined knowing rd down send_back fup lup clos] in *; try done.
    { by apply asking_too_all. }
    destruct F6 as [Hs|[Hc|Hw]].
    + left. by apply (seek_asks _ _ _ a).
    + right. left. pose proof (cl_agreeing _ _ Hc) as Ha'. cbn in Ha'. subst a. by apply clean_asks.
    + destruct a.
      * right. left. destruct (Ha eq_refl) as [Hreq Hpos]. by eapply writing_asks.
      * right. right. destruct (wr_agreeing _ _ Hw) as [|Hf]; [done|]. cbn in Hf.
        assert (n = 0%nat) as -> by (destruct n; [done|rewrite Hn in Hf; done]).
        unfold asking_too. cbn [replicate].
        assert (send_back c [] = c) as Hsame.
        { unfold send_back. rewrite app_nil_r. by destruct c as [? ? ? ? []]. }
        rewrite Hsame. by destruct (clos c); rewrite app_nil_r.
Qed.

(** ** The connection, at the follower *)

Lemma follower_up_sound l f k a c r st :
  fup c = false → clos c = false → sound (mk_view l f k a c r st) →
  sound (mk_view l f k false
    (mk_line (down c) (back c ++ [request f]) (lup c) true false) r st).
Proof.
  intros Hf Hc [Hb (gs & Hgs & Hmode)].
  destruct Hmode as [Hlo|[_ _ _ [F4|F4] _ _]]; [|cbn in F4; congruence..].
  pose proof (lo_agreeing _ _ _ _ Hlo) as Ha. cbn in Ha. subst a.
  destruct Hb as [S1 S2 S3 S4 S5 S6 S7 S8 Sun S9 S10 S11 S12]. cbn in *. split.
  - constructor; cbn; try done. apply Forall_app. split; [done|]. apply Forall_singleton.
    left. by eexists.
  - exists (asking_too c 1 f gs). split.
    + pose proof (requests_asks k c 1 f gs Hgs) as Hr. unfold requests in *. cbn in *.
      by rewrite Hc in Hr.
    + left. pose proof (lost_asks l f k c r st gs 1 S2 Hlo) as [L1 L2 L3 L4 L5 L6 L7 L8].
      constructor; cbn in *; try done. by rewrite Hc in L5.
Qed.

Lemma follower_lost_sound l f k a c r st :
  fup c = true → sound (mk_view l f k a c r st) →
  sound (mk_view l f k false
    (mk_line [] (if lup c then back c else []) (lup c) false (lup c)) r st).
Proof.
  intros Hf [[S1 S2 S3 S4 S5 S6 S7 S8 Sun S9 S10 S11 S12] (gs & Hgs & Hmode)]. cbn in *.
  assert (Hask : lup c = false → asked k = None).
  { intros Hl. destruct (asked k) as [q|]; [|done]. destruct (S6 q eq_refl). congruence. }
  split.
  - constructor; cbn; try done.
    + intros _ Hl. rewrite Hl. split; [done|]. by apply Hask.
    + by intros ->.
    + by intros ->.
    + by destruct (lup c).
  - destruct (lup c) eqn:Hl.
    + exists gs. split; [done|].
      destruct Hmode as [[L1 L2 L3 L4 L5 L6 L7 L8]|[F1 F2 F3 F4 F5 F6]]; [left|right].
      { by constructor. }
      constructor; cbn in *; try done; try (by left); try (by right).
      assert (Hfl : ∀ ends, flow (mk_view l f k false (mk_line [] (back c) true false true) r st) ends).
      { by intros ends [|]. }
      destruct F6 as [[]|[[]|[]]]; [left|right; left|right; right]; constructor; cbn in *; auto.
    + exists []. split; [unfold requests; cbn; by rewrite (Hask eq_refl)|]. left.
      apply apart_lost; try done.
      * destruct (matches k); [|done]. by destruct (S5 eq_refl) as (_ & ? & _).
      * destruct (catching k); [|done]. destruct (S3 eq_refl) as (_ & _ & _ & n & Hn).
        destruct (S4 _ _ Hn) as (_ & Hl' & _). by specialize (Hl' eq_refl).
      * intros n Hn. destruct (S4 _ _ Hn) as (_ & Hl' & _). by specialize (Hl' eq_refl).
Qed.

(** ** Records *)

Lemma basic_down l f k a a' c r st d :
  fup c = true → basic (mk_view l f k a c r st) → basic (mk_view l f k a' (take_down c d) r st).
Proof.
  intros Hf [S1 S2 S3 S4 S5 S6 S7 S8 Sun S9 S10 S11 S12]. constructor; cbn in *; try done; congruence.
Qed.

(** No record is on its way to a follower that is lost. *)
Lemma lost_no_record v gs n rec d :
  lost v gs → down (joined v) = MRecord n rec :: d → False.
Proof.
  intros Hlo Hd. pose proof (lo_down _ _ _ _ Hlo) as H. rewrite Hd in H.
  apply Forall_cons in H as [[?|(r & ? & _)] _]; done.
Qed.

(** The records on their way, after the first. *)
Lemma flow_record l f f' k a a' c r st n rec d ends ends' c' :
  down c = MRecord n rec :: d → fup c = true →
  down c' = d → (∀ y, ends (Some n) y → ends' (Some (n + 1)) y) →
  flow (mk_view l f k a c r st) ends → flow (mk_view l f' k a' c' r st) ends'.
Proof.
  intros Hd Hf Hd' He Hfl _. destruct (Hfl (or_introl Hf)) as (x & y & Hq & ? & ? & Hxy). cbn in *.
  rewrite Hd in Hq. destruct Hq as [-> Hq]. exists (Some (n + 1)), y. rewrite Hd'.
  split_and!; auto.
Qed.

Lemma flow_first l f k a c r st n rec d ends :
  down c = MRecord n rec :: d → fup c = true → flow (mk_view l f k a c r st) ends →
  ∃ y, ends (Some n) y.
Proof.
  intros Hd Hf Hfl. destruct (Hfl (or_introl Hf)) as (x & y & Hq & _ & _ & Hxy). cbn in Hq.
  rewrite Hd in Hq. destruct Hq as [-> _]. by exists y.
Qed.

Lemma record_passed_sound l f k a c r st n rec d :
  fup c = true → down c = MRecord n rec :: d → a = false ∨ n ≤ size_of f →
  sound (mk_view l f k a c r st) → sound (mk_view l f k a (take_down c d) r st).
Proof.
  intros Hf Hd Ha [Hb (gs & Hgs & Hmode)]. split; [by eapply basic_down|].
  exists gs. split; [done|]. destruct Hmode as [Hlo|[F1 F2 F3 F4 F5 F6]].
  { by destruct (lost_no_record _ _ _ _ _ Hlo Hd). }
  right. cbn in *. rewrite Hd in F3. constructor; cbn; try done; [by eapply Forall_cons_1|].
  destruct F6 as [[]|[[]|[]]]; [left|right; left|right; right]; cbn in *.
  - rewrite Hd in se_positions, se_chain. constructor; cbn; try done; [by destruct se_chain|].
    by eapply (flow_record l f f k a a c); [exact Hd|done|done| |exact se_flow].
  - rewrite Hd in cl_positions, cl_again. constructor; cbn; try done; [by eapply Forall_cons_1|].
    by eapply (flow_record l f f k a a c); [exact Hd|done|done| |exact cl_flow].
  - rewrite Hd in wr_positions, wr_again. constructor; cbn; try done; [by eapply Forall_cons_1|].
    eapply (flow_record l f f k a a c); [exact Hd|done|done| |exact wr_flow]. intros y Hy m [= <-].
    destruct wr_agreeing as [->|]; [|congruence]. destruct Ha; [done|lia].
Qed.

Lemma record_gap_sound l f k c r st n rec d :
  fup c = true → down c = MRecord n rec :: d → size_of f + 1 < n →
  sound (mk_view l f k true c r st) → sound (mk_view l f k false (take_down c d) r st).
Proof.
  intros Hf Hd Hn [Hb (gs & Hgs & Hmode)]. split; [by eapply basic_down|].
  exists gs. split; [done|]. destruct Hmode as [Hlo|[F1 F2 F3 F4 F5 F6]].
  { by destruct (lost_no_record _ _ _ _ _ Hlo Hd). }
  right. cbn in *. rewrite Hd in F3. constructor; cbn; try done; [by eapply Forall_cons_1|].
  destruct F6 as [[]|[[]|[]]]; cbn in *; [|done|].
  - left. rewrite Hd in se_positions, se_chain. constructor; cbn; try done; [by destruct se_chain|].
    by eapply (flow_record l f f k true false c); [exact Hd|done|done| |exact se_flow].
  - exfalso. destruct (flow_first _ _ _ _ _ _ _ _ _ _ _ Hd Hf wr_flow) as [y Hy].
    specialize (Hy n eq_refl). lia.
Qed.

Lemma record_sound l f k c r st rec d :
  fup c = true → down c = MRecord (size_of f + 1) rec :: d →
  sound (mk_view l f k true c r st) →
  sound (mk_view l (f ++ [rec]) k true (send_back (take_down c d) [MAck (size_of f + 1)]) r st).
Proof.
  intros Hf Hd [Hb (gs & Hgs & Hmode)]. destruct Hmode as [Hlo|[F1 F2 F3 F4 F5 F6]].
  { by destruct (lost_no_record _ _ _ _ _ Hlo Hd). }
  cbn in *. rewrite Hd in F3. apply Forall_cons in F3 as [[_ Hrec] F3].
  replace (size_of f + 1 - 1) with (size_of f) in Hrec by lia. rewrite Nat2Z.id in Hrec.
  assert (Hp : f ++ [rec] `prefix_of` l).
  { destruct F1 as [g ->]. rewrite lookup_app_r in Hrec by lia. rewrite Nat.sub_diag in Hrec.
    destruct g as [|rec' g]; [done|]. injection Hrec as ->. exists g. by rewrite <- app_assoc. }
  assert (Hsize : size_of (f ++ [rec]) = size_of f + 1) by (rewrite length_app; cbn; lia).
  assert (Hpos : writing (mk_view l (f ++ [rec]) k true (send_back (take_down c d) [MAck (size_of f + 1)]) r st) gs).
  { assert (Hacks : Forall (ack_through (size_of f)) (back c) →
      Forall (ack_through (size_of (f ++ [rec]))) (back (send_back (take_down c d) [MAck (size_of f + 1)]))).
    { intros Hacks. assert (Hall : Forall (ack_through (size_of (f ++ [rec]))) (back c)).
      { eapply Forall_impl; [exact Hacks|]. intros [| | |]; cbn; try done. rewrite Hsize. intros; lia. }
      cbn. destruct (clos c); [done|]. apply Forall_app. split; [done|]. apply Forall_singleton.
      cbn. lia. }
    destruct F6 as [[]|[[]|[]]]; cbn in *; [|done|].
    - rewrite Hd in se_chain. destruct se_chain as [[Hlt Hag] _].
      apply Forall_cons in Hlt as [Hk [Hgs' Hps]%Forall_app]. rewrite Forall_fmap in Hgs'.
      constructor; cbn [llog flog joined knowing rd down send_back take_down agreeing fup] in *; try done.
      + by left.
      + eapply Forall_impl; [exact Hgs'|]. cbn. intros; lia.
      + eapply Forall_impl; [exact Hps|]. cbn. intros; lia.
      + apply Hacks. eapply Forall_impl; [exact se_acks|]. by intros [].
      + lia.
      + eapply (flow_record l f _ k true true c); [exact Hd|done|done| |exact se_flow].
        intros y Hy m [= <-]. lia.
    - rewrite Hd in wr_positions, wr_again. apply Forall_cons in wr_again as [_ Hag].
      constructor; cbn [llog flog joined knowing rd down send_back take_down agreeing fup] in *; try done.
      + eapply Forall_impl; [exact wr_asking|]. cbn. intros; lia.
      + eapply Forall_impl; [exact wr_positions|]. cbn. intros; lia.
      + by apply Hacks.
      + lia.
      + eapply (flow_record l f _ k true true c); [exact Hd|done|done| |exact wr_flow].
        intros y Hy m [= <-]. lia. }
  split.
  - destruct Hb as [S1 S2 S3 S4 S5 S6 S7 S8 Sun S9 S10 S11 S12]. cbn in *. constructor; cbn; try done.
    + by eapply follower_log_prefix.
    + congruence.
    + congruence.
    + intros Hl Hc. rewrite Hc. by apply S9.
    + congruence.
    + destruct (clos c); [done|]. apply Forall_app. split; [done|]. apply Forall_singleton. right. by eexists.
    + destruct S12 as [?|?]; [by left|right]. eapply shares_longer; [|done]. by apply prefix_app_r.
  - exists gs. split.
    + unfold requests in *. cbn in *. destruct (clos c); [done|]. rewrite omap_app. cbn.
      by rewrite app_nil_r.
    + right. constructor; cbn [llog flog joined knowing rd down send_back take_down fup lup clos] in *; try done.
      auto.
Qed.

(** ** Answers *)

Lemma lost_down l f k a a' c r st gs m d :
  a' = false → down c = m :: d → lost (mk_view l f k a c r st) gs →
  lost (mk_view l f k a' (take_down c d) r st) gs.
Proof.
  intros Ha Hd [L1 L2 L3 L4 L5 L6 L7 L8]. constructor; cbn in *; try done.
  rewrite Hd in L8. by eapply Forall_cons_1.
Qed.

(** The records on their way, after an answer. *)
Lemma flow_reply l f f' k a a' c r st p d ends ends' c' :
  down c = MReply p :: d → fup c = true → down c' = d →
  (∀ x y, ends x y → ends' (if negb (ask_again p) && reply_agreed p
                            then Some (reply_seq_no p + 1) else x) y) →
  flow (mk_view l f k a c r st) ends → flow (mk_view l f' k a' c' r st) ends'.
Proof.
  intros Hd Hf Hd' He Hfl _. destruct (Hfl (or_introl Hf)) as (x & y & Hq & ? & ? & Hxy). cbn in *.
  rewrite Hd in Hq. cbn in Hq. eexists _, y. rewrite Hd'. split_and!; [exact Hq|done|done|auto].
Qed.

Lemma seek_down l f k a a' c r st gs p d :
  down c = MReply p :: d → fup c = true → seek (mk_view l f k a c r st) gs →
  seek (mk_view l f k a' (take_down c d) r st) gs.
Proof.
  intros Hd Hf []. cbn in *. rewrite Hd in se_positions, se_chain. constructor; cbn; try done.
  - cbn in se_positions. destruct (ask_again p); [done|]. by eapply Forall_cons_1.
  - by destruct se_chain.
  - by eapply (flow_reply l f f k a a' c); [exact Hd|done|done| |exact se_flow].
Qed.

Lemma asked_again_sound l f k a c r st p d :
  fup c = true → down c = MReply p :: d → ask_again p = true →
  sound (mk_view l f k a c r st) →
  sound (mk_view l f k false (send_back (take_down c d) [request f]) r st).
Proof.
  intros Hf Hd Hp [Hb (gs & Hgs & Hmode)]. split.
  { apply (basic_asks l f k a (take_down c d) r st 1); [done|]. by eapply basic_down. }
  exists (asking_too (take_down c d) 1 f gs). split; [by apply (requests_asks k (take_down c d) 1)|].
  destruct Hmode as [Hlo|[F1 F2 F3 F4 F5 F6]].
  - left. apply (lost_asks _ _ _ (take_down c d) _ _ _ 1); [apply Hb|]. by eapply (lost_down l f k a false c).
  - right. cbn in *. rewrite Hd in F3. constructor; cbn; try done.
    { by apply asking_too_all. }
    { by eapply Forall_cons_1. }
    destruct F6 as [Hs|[[]|[]]].
    + left. apply (seek_asks _ _ _ a _ (take_down c d) _ _ _ 1). by eapply (seek_down l f k a a c).
    + cbn in *. rewrite Hd in cl_again. apply Forall_cons in cl_again as [Hag _]. cbn in Hag. congruence.
    + cbn in *. rewrite Hd in wr_again. apply Forall_cons in wr_again as [Hag _]. cbn in Hag. congruence.
Qed.

Lemma reply_passed_sound l f k c r st p d :
  fup c = true → down c = MReply p :: d → ask_again p = false →
  sound (mk_view l f k true c r st) → sound (mk_view l f k true (take_down c d) r st).
Proof.
  intros Hf Hd Hp [Hb (gs & Hgs & Hmode)]. split; [by eapply basic_down|].
  exists gs. split; [done|]. destruct Hmode as [Hlo|[F1 F2 F3 F4 F5 F6]].
  { by pose proof (lo_agreeing _ _ _ _ Hlo). }
  right. cbn in *. rewrite Hd in F3. constructor; cbn; try done; [by eapply Forall_cons_1|].
  destruct F6 as [Hs|[[]|[]]]; [left|done|right; right].
  - by eapply (seek_down l f k true true c).
  - cbn in *. rewrite Hd in wr_positions, wr_again. cbn in wr_positions. rewrite Hp in wr_positions.
    apply Forall_cons in wr_positions as [Hle wr_positions].
    constructor; cbn; try done; [by eapply Forall_cons_1|].
    eapply (flow_reply l f f k true true c); [exact Hd|done|done| |exact wr_flow].
    intros x y Hx m. rewrite Hp. cbn. destruct (reply_agreed p); [|by apply Hx]. intros [= <-]. lia.
Qed.

(** *** Discarding *)

Lemma take_shorter (f : log) k : 0 ≤ k ≤ size_of f → size_of (take (Z.to_nat k) f) = k.
Proof. intros Hk. rewrite length_take. lia. Qed.

Lemma shares_shorter l f k n : shares l (take k f) n → shares l f n.
Proof. intros Hs. eapply shares_longer; [|done]. apply prefix_take. Qed.

(** What the follower discards is held by nobody or was there when the leader
    took the lead. *)
Lemma take_held l f k n p :
  0 ≤ k ≤ size_of f → (k < size_of f → p ≤ start) → (∀ m, shares l f m → m ≤ p) →
  held l f n → held l (take (Z.to_nat k) f) n.
Proof.
  intros Hk Hp Hall [?|Hs]; [by left|]. destruct (decide (k < size_of f)) as [Hlt|].
  - left. specialize (Hall n Hs). lia.
  - right. by rewrite take_ge by lia.
Qed.

Lemma lost_shorter l f k c r st gs j p :
  0 ≤ j ≤ size_of f → refusal start l f (MReply p) → ask_again p = false →
  (j < size_of f → f `prefix_of` l → size_of f < start) →
  lost (mk_view l f k false c r st) gs →
  lost (mk_view l (take (Z.to_nat j) f) k false c r st) gs.
Proof.
  intros Hj Hp Hag Hlt [L1 L2 L3 L4 L5 L6 L7 L8]. constructor; cbn in *; try done.
  - eapply Forall_impl; [exact L6|]. cbn. intros g (Hfg & Hg & Hn). split_and!; [|done|].
    + etrans; [apply prefix_take|done].
    + intros Hgl. unfold size_near in *. rewrite take_shorter by done. specialize (Hn Hgl).
      destruct (decide (j < size_of f)); [|lia].
      assert (size_of f < start) by (apply Hlt; [done|by etrans]). lia.
  - eapply Forall_impl; [exact L8|]. intros m [?|(q & -> & ? & ? & ? & ? & Hall)]; [by left|].
    right. exists q. split_and!; try done. intros n Hn. apply Hall. by eapply shares_shorter.
Qed.

Lemma seek_shorter l f k a c r st gs j :
  0 ≤ j ≤ size_of f → size_of f < start → seek (mk_view l f k a c r st) gs →
  seek (mk_view l (take (Z.to_nat j) f) k a c r st) gs.
Proof.
  intros Hj Hlt []. constructor; cbn in *; rewrite ?take_shorter by done; try done; try lia.
  - eapply Forall_impl; [exact se_asking|]. cbn. intros g [Hp Hn]. split.
    + etrans; [apply prefix_take|done].
    + unfold size_near in *. rewrite take_shorter by done. lia.
  - eapply Forall_impl; [exact se_positions|]. cbn. intros q Hq. lia.
Qed.

Lemma basic_shorter l f k a c r st f' :
  f' `prefix_of` f → held l f' (acked k) → basic (mk_view l f k a c r st) →
  basic (mk_view l f' k a c r st).
Proof.
  intros Hp Hh [S1 S2 S3 S4 S5 S6 S7 S8 Sun S9 S10 S11 S12]. constructor; cbn in *; try done.
  by eapply follower_log_sub.
Qed.

Lemma reply_lost l f k c r st p d j b gs :
  fup c = true → down c = MReply p :: d → ask_again p = false → keeps f p j b →
  basic (mk_view l f k false c r st) → requests k c = end_of <$> gs →
  lost (mk_view l f k false c r st) gs →
  let f' := take (Z.to_nat j) f in
  reply_agreed p = false ∧
  sound (mk_view l f' k false (send_back (take_down c d) [request f']) r st) ∧
  ∀ n, held l f n → held l f' n.
Proof.
  intros Hf Hd Hp Hk Hb Hgs Hlo f'. pose proof (lo_down _ _ _ _ Hlo) as Href. cbn in Href.
  rewrite Hd in Href. apply Forall_cons in Href as [Href _].
  destruct Href as [Hag|(q & [= <-] & _ & Hag & Htrue & Hstart & Hall)]; [cbn in Hag; congruence|].
  cbn in Htrue. destruct Htrue as [?|[Hseq Hepoch]]; [congruence|].
  pose proof (keeps_range f p j b (proj1 Hseq) Hk) as [Hj _].
  assert (Hheld : ∀ n, held l f n → held l f' n).
  { intros n. apply (take_held l f j n (reply_seq_no p)); [done|lia|done]. }
  split_and!; [done| |done]. split.
  - apply (basic_asks l f' k false (take_down c d) r st 1); [done|].
    apply (basic_shorter l f); [apply prefix_take| |by eapply basic_down].
    apply Hheld. apply Hb.
  - exists (asking_too (take_down c d) 1 f' gs). split; [by apply (requests_asks k (take_down c d) 1)|].
    left. apply (lost_asks _ _ _ (take_down c d) _ _ _ 1).
    { eapply follower_log_sub; [apply Hb|]. apply prefix_take. }
    eapply (lost_shorter l f k (take_down c d) r st gs j p); [done| |done| |by eapply (lost_down l f k false false c)].
    + right. exists p. split_and!; try done. by right.
    + intros Hlt Hpre.
      assert (size_of f ≤ reply_seq_no p) by (apply Hall; by apply prefix_shares).
      destruct (keeps_prefix l f p j b) as [[? _]|(? & ? & _)]; [done|done|done|done|lia|lia].
Qed.

Lemma reply_seek l f k c r st p d j b gs :
  fup c = true → down c = MReply p :: d → ask_again p = false → keeps f p j b →
  basic (mk_view l f k false c r st) → requests k c = end_of <$> gs →
  found (mk_view l f k false c r st) gs → seek (mk_view l f k false c r st) gs →
  let f' := take (Z.to_nat j) f in
  let a' := reply_agreed p && b && (j =? size_of f) in
  sound (mk_view l f' k a'
    (if a' then take_down c d else send_back (take_down c d) [request f']) r st) ∧
  ∀ n, held l f n → held l f' n.
Proof.
  intros Hf Hd Hp Hk Hb Hgs [F1 F2 F3 F4 F5 _] Hs f' a'. cbn in F1, F2, F3, F4, F5.
  rewrite Hd in F3. apply Forall_cons in F3 as [Htrue F3]. destruct Htrue as [?|[Hseq Hepoch]]; [congruence|].
  pose proof (se_positions _ _ _ Hs) as Hpos. cbn in Hpos. rewrite Hd in Hpos. cbn in Hpos. rewrite Hp in Hpos.
  apply Forall_cons in Hpos as [[Hle Hnear] _].
  pose proof (keeps_prefix l f p j b F1 Hle Hepoch Hk) as Hcase.
  assert (Hj : 0 ≤ j ≤ size_of f) by lia.
  assert (Hheld : ∀ n, held l f n → held l f' n).
  { intros n. apply (take_held l f j n (size_of f)); [done|lia|]. by intros m (? & ? & ?); lia. }
  split; [|done].
  assert (Hpre : f' `prefix_of` l) by (etrans; [apply prefix_take|done]).
  assert (Hs' : ∀ a, seek (mk_view l f' k a (take_down c d) r st) gs).
  { intros a. destruct (decide (j < size_of f)).
    - apply seek_shorter; [done|lia|]. by eapply (seek_down l f k false a c).
    - unfold f'. rewrite take_ge by lia. by eapply (seek_down l f k false a c). }
  assert (Hb' : basic (mk_view l f' k a' (take_down c d) r st)).
  { apply (basic_shorter l f); [apply prefix_take|apply Hheld; apply Hb|by eapply basic_down]. }
  destruct a' eqn:Ea.
  - split; [done|]. exists gs. split; [done|]. right. by constructor; [..|left].
  - split.
    + by apply (basic_asks l f' k false (take_down c d) r st 1).
    + exists (asking_too (take_down c d) 1 f' gs). split; [by apply (requests_asks k (take_down c d) 1)|].
      right. constructor; cbn; try done; [by apply asking_too_all|]. left.
      by apply (seek_asks _ _ _ false _ (take_down c d) _ _ _ 1).
Qed.

Lemma reply_clean l f k c r st p d j b gs :
  fup c = true → down c = MReply p :: d → ask_again p = false → keeps f p j b →
  basic (mk_view l f k false c r st) → requests k c = end_of <$> gs →
  found (mk_view l f k false c r st) gs → clean (mk_view l f k false c r st) gs →
  let f' := take (Z.to_nat j) f in
  let a' := reply_agreed p && b && (j =? size_of f) in
  sound (mk_view l f' k a'
    (if a' then take_down c d else send_back (take_down c d) [request f']) r st) ∧
  ∀ n, held l f n → held l f' n.
Proof.
  intros Hf Hd Hp Hk Hb Hgs [F1 F2 F3 F4 F5 _] [C1 C2 C3 C4 C5 C6 C7] f' a'. cbn in *.
  rewrite Hd in F3, C3, C6. apply Forall_cons in F3 as [Htrue F3]. destruct Htrue as [?|[Hseq Hepoch]]; [congruence|].
  cbn in C3. rewrite Hp in C3. apply Forall_cons in C3 as [Hle C3]. apply Forall_cons in C6 as [_ C6].
  destruct (keeps_prefix l f p j b F1) as [[Hj Hbt]|(_ & ? & _)]; [lia|done|done| |lia].
  assert (Heq : f' = f) by (unfold f'; by rewrite take_ge by lia). rewrite Heq. split; [|done].
  assert (Ha' : a' = reply_agreed p).
  { unfold a'. rewrite Hj, Hbt, Z.eqb_refl, !andb_true_r. done. }
  rewrite Ha'. clear a' Ha'.
  assert (Hfl : ∀ a, flow (mk_view l f k a (take_down c d) r st) (λ x _, ∀ n, reply_agreed p = true → x = Some n → n ≤ size_of f + 1)).
  { intros a. eapply (flow_reply l f f k false a c); [exact Hd|done|done| |exact C7].
    intros x y _ n ->. rewrite Hp. cbn. intros [= <-]. lia. }
  destruct (reply_agreed p) eqn:Hag.
  - split; [by eapply basic_down|]. exists gs. split; [done|]. right.
    constructor; cbn; try done. right. right. constructor; cbn; try done.
    + by left.
    + eapply Forall_impl; [exact C2|]. cbn. intros g ->. lia.
    + eapply Forall_impl; [exact C3|]. cbn. intros; lia.
    + intros Hup. destruct (Hfl true Hup) as (x & y & ? & ? & ? & Hx). exists x, y. split_and!; auto.
  - split.
    + apply (basic_asks l f k false (take_down c d) r st 1); [done|]. by eapply basic_down.
    + exists (asking_too (take_down c d) 1 f gs). split; [by apply (requests_asks k (take_down c d) 1)|].
      right. constructor; cbn; try done; [by apply asking_too_all|]. right. left.
      apply (clean_asks _ _ _ (take_down c d) _ _ _ 1). constructor; cbn; try done.
      intros Hup. destruct (Hfl false Hup) as (x & y & ? & ? & ? & Hx). by exists x, y.
Qed.

Lemma reply_sound l f k c r st p d f' a' c' :
  fup c = true → down c = MReply p :: d → ask_again p = false →
  repair f (take_down c d) p f' a' c' →
  sound (mk_view l f k false c r st) →
  sound (mk_view l f' k a' c' r st) ∧ ∀ n, held l f n → held l f' n.
Proof.
  intros Hf Hd Hp Hrep [Hb (gs & Hgs & Hmode)].
  assert (Hcases : lost (mk_view l f k false c r st) gs ∨
    found (mk_view l f k false c r st) gs ∧
    (seek (mk_view l f k false c r st) gs ∨ clean (mk_view l f k false c r st) gs)).
  { destruct Hmode as [?|Hfo]; [by left|]. right. split; [done|].
    destruct (fo_state _ _ _ Hfo) as [?|[?|Hw]]; [by left|by right|].
    destruct (wr_agreeing _ _ Hw) as [?|Hf']; [done|]. cbn in Hf'. congruence. }
  destruct Hrep as [|j b Hk].
  - split; [|done]. split; [by eapply basic_down|]. exists gs. split; [done|].
    destruct Hcases as [Hlo|[[F1 F2 F3 F4 F5 _] Hst]]; [left; by eapply (lost_down l f k false false c)|].
    right. cbn in *. rewrite Hd in F3. constructor; cbn; try done; [by eapply Forall_cons_1|].
    destruct Hst as [Hs|[C1 C2 C3 C4 C5 C6 C7]]; [left; by eapply (seek_down l f k false false c)|].
    right. left. cbn in *. rewrite Hd in C3, C6. cbn in C3. rewrite Hp in C3.
    constructor; cbn; try done; [by eapply Forall_cons_1|by eapply Forall_cons_1|].
    by eapply (flow_reply l f f k false false c); [exact Hd|done|done| |exact C7].
  - destruct Hcases as [Hlo|[Hfo [Hs|Hc]]].
    + destruct (reply_lost l f k c r st p d j b gs Hf Hd Hp Hk Hb Hgs Hlo) as (Hag & ? & ?).
      by rewrite Hag.
    + by eapply reply_seek.
    + by eapply reply_clean.
Qed.

(** ** Every step *)

Theorem step_sound v v' :
  step term thread v v' → sound v →
  sound v' ∧ ∀ n, held (llog v) (flog v) n → held (llog v') (flog v') n.
Proof.
  intros Hstep Hv. destruct Hstep.
  - split; [by apply append_sound|]. intros m. apply held_grows.
  - done.
  - split; [by apply ack_sound|done].
  - split; [by eapply request_sound|done].
  - split; [by eapply stopped_sound|done].
  - split; [by eapply stopped_answers_sound|done].
  - split; [by apply reads_sound|done].
  - split; [by apply caught_up_sound|done].
  - split; [by apply leader_up_sound|done].
  - split; [by apply leader_lost_sound|done].
  - split; [by eapply told_sound|done].
  - split; [by eapply follower_up_sound|done].
  - split; [by eapply follower_lost_sound|done].
  - split; [by eapply record_passed_sound|done].
  - split; [by eapply record_gap_sound|done].
  - split; [by apply record_sound|]. cbn. intros m [?|?]; [by left|right].
    eapply shares_longer; [|done]. by apply prefix_app_r.
  - split; [by eapply asked_again_sound|done].
  - split; [by eapply reply_passed_sound|done].
  - by eapply reply_sound.
Qed.

End follower.
