(* ===== verification/PairRefinement.v ===== *)
(** A leader and its follower, run by ReplicatedPair.v, take steps of the
    protocol of PairProtocol.v. *)

From S2P Require Import Prelude.
From S2P Require Import Lease.
From S2P Require Import PairLeaseAgent.
From S2P Require Import LogEpochTable.
From S2P Require Import WalEntry.
From S2P Require Import WalRefinement.
From S2P Require Import RecordLog.
From S2P Require Import ReplicatedWal.
From S2P Require Import ReplicatedPair.
From S2P Require Import ReplicatedPairEffects.
From S2P Require Import PairLogs.
From S2P Require Import PairProtocol.
Import ReplicatedWal.

#[local] Open Scope Z_scope.

Definition known_of (l : leader_members) : known :=
  mk_known (follower_wal_matches_ l) (peer_acked_through_ l) (peer_catching_up_ l)
    (peer_handed_over_at_ l) (unanswered_request_ l).

Section refinement.
Context {W : Type} `{RecordLogLaws W}.
Variable uniform : Z → Z → nat → Z.
Implicit Types (p : pair W) (s : t W).

Definition line_of p : line :=
  mk_line (to_follower p) (to_leader p) (ldr_up p) (flw_up p) (closing p).

(** The view of a pair whose logs are [l] and [f]. *)
Definition view_of (l f : log) p : view :=
  mk_view l f (known_of (as_leader (ldr p))) (agrees (flw p)) (line_of p)
    (reader p) (stopping p).

(** The pair is in a leadership of epoch [term], between two events, and its
    logs are [l] and [f]. *)
Record pair_shows (term : Z) (thread : bool) (l f : log) p : Prop := mk_shows {
  sh_leader : stores (ldr p) l;
  sh_follower : stores (flw p) f;
  sh_leads : role_ (ldr p) = leader;
  sh_follows : role_ (flw p) ≠ leader;
  sh_epoch : epoch_ (ldr p) = term;
  sh_next : next_seq_no_ (ldr p) = size_of l + 1;
  sh_leader_ha : ha (ldr p) = true;
  sh_follower_ha : ha (flw p) = true;
  sh_thread : catches_up (ldr p) = thread;
  sh_leader_up : connected (ldr p) = ldr_up p;
  sh_follower_up : connected (flw p) = flw_up p;
  sh_reading : reading_stopped (ldr p) = bool_decide (reader p = None);
  sh_leader_told : outputs (ldr p) = [];
  sh_follower_told : outputs (flw p) = []
}.

(** Nothing the follower has asked is still to be answered. *)
Definition all_answered p : Prop :=
  unanswered_request_ (as_leader (ldr p)) = None ∧
  omap request_of (to_leader p) = [] ∧ omap position (to_follower p) = [].

(** What a run is asked for besides: there is room in the logs, the leader
    leads and its follower does not, and a follower that takes its log to agree
    is told of a leader only while nothing it has asked is still to be
    answered. *)
Definition fine p (e : event) (p' : pair W) : Prop :=
  role_ (ldr p') = leader ∧ epoch_ (ldr p') = epoch_ (ldr p) ∧ role_ (flw p') ≠ leader ∧
  match e with
  | EAppend pdu bytes wall _ => log_room (wal_ (ldr p)) (appended (ldr p) pdu wall bytes)
  | EToFollower _ =>
      match to_follower p with
      | MRecord _ c :: _ => log_room (wal_ (flw p)) c
      | _ => True
      end
  | EFollowerTick _ | EFollowerLease _ _ =>
      role_ (flw p') ≠ role_ (flw p) → agrees (flw p) = true → all_answered p
  | _ => True
  end.

Variables (term : Z) (thread : bool).
Abbreviation shows := (pair_shows term thread).
Abbreviation step := (step term thread).

(** ** The leader's side *)

Lemma lead_inv p {A} (m : comp (t W) A) p' :
  lead p m = Some p' → ∃ s a, m (ldr p) = (s, Returns a) ∧ p' = settle_leader p s.
Proof.
  unfold lead. destruct (m (ldr p)) as [s [a|e]]; [|done]. intros [= <-]. by eexists _, _.
Qed.

Lemma follow_inv p {A} (m : comp (t W) A) p' :
  follow p m = Some p' → ∃ s a, m (flw p) = (s, Returns a) ∧ p' = settle_follower p s.
Proof.
  unfold follow. destruct (m (flw p)) as [s [a|e]]; [|done]. intros [= <-]. by eexists _, _.
Qed.

Lemma direct_calls out : ∀ x, foldl direct x out = foldl direct x (calls out).
Proof.
  induction out as [|o out IH]; intros x; [done|]. unfold calls in *. destruct o; cbn; apply IH.
Qed.

Definition reading_of (x : option (Z * bool) * bool) (cs : list output)
    : option (Z * bool) * bool := foldl direct x cs.

Lemma leader_line p s msgs cs :
  outputs (ldr p) = [] → emits (ldr p) s msgs cs →
  line_of (settle_leader p s) = send_down (line_of p) msgs ∧
  reader (settle_leader p s) = (reading_of (reader p, stopping p) cs).1 ∧
  stopping (settle_leader p s) = (reading_of (reader p, stopping p) cs).2.
Proof.
  intros Ho (out & Hout & <- & <-). rewrite Ho in Hout. cbn in Hout.
  unfold settle_leader, send_down, line_of, reading_of. cbn. by rewrite Hout, direct_calls.
Qed.

Lemma send_nothing_down p : send_down (line_of p) [] = line_of p.
Proof. unfold send_down, line_of. cbn. rewrite app_nil_r. by destruct (closing p). Qed.

Lemma leader_view l f p s msgs cs :
  outputs (ldr p) = [] → emits (ldr p) s msgs cs →
  view_of l f (settle_leader p s)
    = mk_view l f (known_of (as_leader s)) (agrees (flw p)) (send_down (line_of p) msgs)
        (reading_of (reader p, stopping p) cs).1 (reading_of (reader p, stopping p) cs).2.
Proof.
  intros Ho Hem. destruct (leader_line _ _ _ _ Ho Hem) as (Hd & Hr & Hs).
  unfold view_of. by rewrite Hd, Hr, Hs.
Qed.

Lemma leader_shows l f l' p s :
  shows l f p → stores s l' → role_ s = leader → epoch_ s = term → next_seq_no_ s = size_of l' + 1 →
  configuration_ s = configuration_ (ldr p) → around s = around (ldr p) →
  shows l' f (settle_leader p s).
Proof.
  intros [] Hst Hr He Hn Hc Ha. constructor; cbn; try done.
  - unfold ha in *. cbn. by rewrite Hc.
  - unfold catches_up in *. cbn. by rewrite Ha.
  - unfold connected in *. cbn. by rewrite Ha.
Qed.

(** An operation that left the leader's log, told the follower [msgs] and the
    reading thread [cs]. *)
Lemma leads_shows l f p s k msgs cs :
  shows l f p → leads (ldr p) s k msgs cs → shows l f (settle_leader p s).
Proof.
  intros Hs [[] Hr He Hk Hem]. pose proof Hs as []. eapply leader_shows; try done; try congruence.
  by eapply stores_same; [|exact sh_leader0].
Qed.

Lemma known_knows s b1 n1 b2 n2 n3 r :
  knows s = (b1, n1, b2, n2, n3, r) → known_of (as_leader s) = mk_known b1 n1 b2 n3 r.
Proof. unfold knows, known_of. intros [= -> -> -> _ -> ->]. done. Qed.

Lemma steady_view l f p s :
  shows l f p → steady (ldr p) s → view_of l f (settle_leader p s) = view_of l f p.
Proof.
  intros Hs Hst.
  rewrite (leader_view _ _ _ _ _ _ (sh_leader_told _ _ _ _ _ Hs) (sy_emits _ _ Hst)).
  assert (known_of (as_leader s) = known_of (as_leader (ldr p))) as ->.
  { pose proof (sy_knows _ _ Hst) as Hk. by apply (known_knows s) in Hk. }
  by rewrite send_nothing_down.
Qed.

Lemma steady_step l f p s :
  shows l f p → steady (ldr p) s →
  shows l f (settle_leader p s) ∧ step (view_of l f p) (view_of l f (settle_leader p s)).
Proof.
  intros Hs Hst. split; [by eapply leads_shows, steady_leads|].
  rewrite steady_view by done. apply step_quiet.
Qed.

Lemma append_step l f p pdu bytes wall now s a :
  shows l f p → log_room (wal_ (ldr p)) (appended (ldr p) pdu wall bytes) →
  append pdu bytes wall now (ldr p) = (s, Returns a) →
  ∃ l', shows l' f (settle_leader p s) ∧ step (view_of l f p) (view_of l' f (settle_leader p s)).
Proof.
  intros Hs Hroom Hop. pose proof Hs as [].
  pose proof (append_effect pdu bytes wall now (ldr p) l sh_leader0 sh_next0 Hroom _ _ Hop) as He.
  cbn zeta in He. destruct He as (Hst & Hn & Hc & Ha & Hr & Hep & Hk & Hem).
  set (c := appended (ldr p) pdu wall bytes) in *.
  assert (size_of (l ++ [c]) = size_of l + 1) as Hsize by (rewrite length_app; cbn; lia).
  exists (l ++ [c]). split.
  - eapply leader_shows; try done; try congruence. rewrite Hsize. lia.
  - rewrite (leader_view _ _ _ _ _ _ sh_leader_told0 Hem). cbn.
    assert (known_of (as_leader s) = known_of (as_leader (ldr p))) as -> by by apply (known_knows s) in Hk.
    rewrite sh_leader_up0. apply step_append. done.
Qed.

(** *** Requests *)

Lemma answers_step l f p n e s :
  shows l f p → 0 ≤ n → ldr_up p = true → answers (ldr p) l n e s →
  shows l f (settle_leader p s) ∧
  answer thread l n e
    (known_of (as_leader (ldr p)), line_of p, reader p, stopping p)
    (known_of (as_leader s), line_of (settle_leader p s),
     reader (settle_leader p s), stopping (settle_leader p s)).
Proof.
  intros Hs Hn Hup Hans. pose proof Hs as [].
  assert (Hview : ∀ s b1 n1 b2 n2 n3 q msgs cs, leads (ldr p) s (b1, n1, b2, n2, n3, q) msgs cs →
    shows l f (settle_leader p s) ∧ line_of (settle_leader p s) = send_down (line_of p) msgs ∧
    reader (settle_leader p s) = (reading_of (reader p, stopping p) cs).1 ∧
    stopping (settle_leader p s) = (reading_of (reader p, stopping p) cs).2 ∧
    known_of (as_leader s) = mk_known b1 n1 b2 n3 q).
  { intros s' b1 n1 b2 n2 n3 q msgs cs Hl.
    destruct (leader_line p s' msgs cs sh_leader_told0 (ls_emits _ _ _ _ _ Hl)) as (? & ? & ?).
    split_and!; try done; [by eapply leads_shows|]. eapply known_knows. apply Hl. }
  destruct Hans as [[Hc _]|(Hc & r & Hr & Hcases)]; [congruence|].
  destruct (position_reply_ok (ldr p) l n e sh_leader0 Hn) as (r' & Hr' & Hrep).
  assert (r' = r) as -> by congruence. clear Hr'.
  destruct Hcases as [(Ht & Hag & Hcu & -> & ->)|[(Ht & Hcu & Hl)|[(Ht & Hcu & Hrs & Hl)|(Hfree & Hcases)]]].
  - destruct (leader_line p _ _ _ sh_leader_told0 (emits_refl _)) as (-> & -> & ->).
    split; [by eapply leads_shows, steady_leads, steady_refl|].
    rewrite send_nothing_down. by apply answer_again.
  - destruct (Hview _ _ _ _ _ _ _ _ _ Hl) as (? & -> & -> & -> & ->). split; [done|].
    rewrite send_nothing_down. by apply (answer_stops _ _ _ _ (known_of (as_leader (ldr p)))).
  - destruct (Hview _ _ _ _ _ _ _ _ _ Hl) as (? & -> & -> & -> & ->). split; [done|].
    rewrite send_nothing_down. cbn. rewrite sh_reading0 in Hrs.
    destruct (reader p) as [x|] eqn:Hrd; [|done].
    pose proof (answer_waits thread l n e (known_of (as_leader (ldr p))) (line_of p) x (stopping p) Hcu) as Hw.
    unfold keep_asked in Hw. cbn in Hw. by rewrite Hcu in Hw.
  - assert (Hfree' : thread = true → peer_catching_up_ (as_leader (ldr p)) = false ∧ reader p = None).
    { rewrite <- sh_thread0. intros Ht. destruct (Hfree Ht) as [? Hrs]. rewrite sh_reading0 in Hrs.
      by apply bool_decide_eq_true in Hrs. }
    destruct Hcases as [(Hag & Hl)|[(Hag & Ht & h & Hl)|(Hag & Ht & Hl)]];
      destruct (Hview _ _ _ _ _ _ _ _ _ Hl) as (? & -> & -> & -> & ->); (split; [done|]).
    + by apply (answer_no _ _ _ _ (known_of (as_leader (ldr p)))).
    + rewrite sh_thread0 in Ht. destruct (Hfree' Ht) as [? ->]. by apply answer_thread.
    + rewrite sh_thread0 in Ht. by apply (answer_here _ _ _ _ (known_of (as_leader (ldr p)))).
Qed.

(** *** Messages to the leader *)

Variable start : Z.
Abbreviation sound := (PairProtocol.sound term start thread).

Lemma queues_shows l f p d b : shows l f p → shows l f (with_queues p d b).
Proof. intros []. by constructor. Qed.

Lemma request_size l f p n e b :
  sound (view_of l f p) → to_leader p = MRequest n e :: b → 0 ≤ n.
Proof.
  intros [_ (gs & Hgs & _)] Hb. unfold requests in Hgs. cbn in Hgs. rewrite Hb in Hgs. cbn in Hgs.
  assert (Hin : (n, e) ∈ end_of <$> gs).
  { rewrite <- Hgs. apply elem_of_app. right. by left. }
  apply list_elem_of_fmap in Hin as (g & Hg & _). unfold end_of in Hg. injection Hg as -> _. lia.
Qed.

Lemma to_leader_step l f p m b now s a :
  shows l f p → sound (view_of l f p) → ldr_up p = true → to_leader p = m :: b →
  dispatch_message m now (ldr p) = (s, Returns a) →
  let p' := settle_leader (with_queues p (to_follower p) b) s in
  shows l f p' ∧ step (view_of l f p) (view_of l f p').
Proof.
  intros Hs Hsound Hup Hb Hop p'. pose proof (queues_shows l f p (to_follower p) b Hs) as Hs1.
  set (p1 := with_queues p (to_follower p) b) in *. pose proof Hs1 as Hs1'. destruct Hs1'.
  pose proof (so_back _ _ _ _ (proj1 Hsound)) as Hback. cbn in Hback. rewrite Hb in Hback.
  apply Forall_cons in Hback as [Hm _].
  destruct m as [n c|n|n e|r]; cbn in Hm.
  - destruct Hm as [[? ?]|[? ?]]; done.
  - pose proof (handle_ack_effect n now (ldr p1) sh_leads0 _ _ Hop) as Hl. cbn beta in Hl.
    split; [by eapply leads_shows|].
    unfold p'. rewrite (leader_view _ _ _ _ _ _ sh_leader_told0 (ls_emits _ _ _ _ _ Hl)).
    rewrite (known_knows _ _ _ _ _ _ _ (ls_knows _ _ _ _ _ Hl)), send_nothing_down.
    by eapply (step_ack _ _ l f (known_of (as_leader (ldr p))) (agrees (flw p)) (line_of p)).
  - pose proof (request_size _ _ _ _ _ _ Hsound Hb) as Hn.
    pose proof (handle_position_request_effect (ldr p1) l n e sh_leader0 sh_leads0 Hn _ _ Hop) as Hans.
    cbn beta in Hans. destruct (answers_step l f p1 n e s Hs1 Hn Hup Hans) as [Hsh Hansw].
    split; [done|].
    eapply (step_request _ _ l f (known_of (as_leader (ldr p))) (agrees (flw p)) (line_of p)); done.
  - destruct Hm as [[? ?]|[? ?]]; done.
Qed.

(** *** The reading thread *)

(** Only a leader with a reading thread of its own has it read for a follower. *)
Lemma catching_thread l f p :
  sound (view_of l f p) →
  reading_of (reader p, stopping p)
    (if peer_catching_up_ (as_leader (ldr p)) && thread then [StopPeerCatchUp] else [])
    = (reader p, peer_catching_up_ (as_leader (ldr p)) || stopping p).
Proof.
  intros [Hb _]. destruct (peer_catching_up_ (as_leader (ldr p))) eqn:Hc; [|done].
  destruct (so_catching _ _ _ _ Hb Hc) as (_ & _ & _ & n & Hn).
  destruct (so_reader _ _ _ _ Hb _ _ Hn) as (_ & _ & _ & Hth). by rewrite Hth.
Qed.

Lemma with_reader_shows l f p r st : shows l f p → shows l f (with_reader p r st).
Proof. intros []. by constructor. Qed.

Lemma reader_sends_step l f p n live c :
  shows l f p → sound (view_of l f p) → reader p = Some (n, live) →
  record_at (wal_ (ldr p)) n = Some c →
  let p1 := with_reader p (Some (n + 1, live)) (stopping p) in
  let p' := if live && negb (closing p)
            then with_queues p1 (to_follower p ++ [MRecord n c]) (to_leader p) else p1 in
  shows l f p' ∧ step (view_of l f p) (view_of l f p').
Proof.
  intros Hs Hsound Hrd Hrec p1 p'. split.
  { unfold p'. case_match; [apply queues_shows|]; by apply with_reader_shows. }
  destruct (so_reader _ _ _ _ (proj1 Hsound) n live) as (Hn & _); [done|]. cbn in Hn.
  assert (Hl : l !! Z.to_nat (n - 1) = Some c).
  { unfold record_at in Hrec. destruct (log_replay_law _ _ n (proj1 (sh_leader _ _ _ _ _ Hs))) as (k & Hk & Hr); [lia|].
    rewrite Hr in Hrec.
    replace (Z.to_nat (n - 1)) with (k + (Z.to_nat (n - 1) - k))%nat by lia. rewrite <- lookup_drop.
    revert Hrec. generalize (drop k l). intros g Hg.
    replace (Z.to_nat (n - 1) - k)%nat with (Z.to_nat (n - (1 + Z.of_nat k))) by lia.
    assert (Hle : 1 + Z.of_nat k ≤ n) by lia. clear -Hg Hle. revert Hg Hle. generalize (1 + Z.of_nat k).
    induction g as [|c' g IH]; intros m Hg Hle; cbn [numbered_from] in Hg; [done|].
    destruct (decide (m = n)) as [->|Hne].
    - rewrite filter_cons_True in Hg by done. cbn in Hg. by rewrite Z.sub_diag.
    - rewrite filter_cons_False in Hg by done. apply IH in Hg; [|lia].
      by replace (Z.to_nat (n - m)) with (S (Z.to_nat (n - (m + 1)))) by lia. }
  pose proof (step_reads term thread l f (known_of (as_leader (ldr p))) (agrees (flw p)) (line_of p) n live
    (stopping p) c Hl) as Hstep.
  unfold view_of at 1. rewrite Hrd.
  assert (view_of l f p' = mk_view l f (known_of (as_leader (ldr p))) (agrees (flw p))
    (if live then send_down (line_of p) [MRecord n c] else line_of p) (Some (n + 1, live)) (stopping p)) as ->; [|done].
  unfold p', p1, view_of, line_of, send_down. destruct live; cbn; [|done].
  by destruct (closing p) eqn:Hc; cbn; rewrite Hc.
Qed.

Lemma reader_done_step l f p s a :
  shows l f p → sound (view_of l f p) → reader p = Some (size_of l + 1, true) → stopping p = false →
  on_peer_caught_up (size_of l) (ldr (with_reader p None false)) = (s, Returns a) →
  let p' := settle_leader (with_reader p None false) s in
  shows l f p' ∧ step (view_of l f p) (view_of l f p').
Proof.
  intros Hs Hsound Hrd Hst Hop p'. pose proof (with_reader_shows l f p None false Hs) as Hs1.
  set (p1 := with_reader p None false) in *.
  destruct (so_reader _ _ _ _ (proj1 Hsound) (size_of l + 1) true) as (_ & _ & Hc & _); [done|].
  destruct (Hc Hst) as [Hc' _]. cbn in Hc'.
  pose proof (on_peer_caught_up_effect (ldr p1) (size_of l) (sh_leads _ _ _ _ _ Hs1) _ _ Hop) as Hl.
  cbn zeta in Hl. change (peer_catching_up_ (as_leader (ldr p1))) with (peer_catching_up_ (as_leader (ldr p))) in Hl.
  rewrite Hc' in Hl. split; [by eapply leads_shows|].
  unfold p'. rewrite (leader_view _ _ _ _ _ _ (sh_leader_told _ _ _ _ _ Hs1) (ls_emits _ _ _ _ _ Hl)).
  rewrite (known_knows _ _ _ _ _ _ _ (ls_knows _ _ _ _ _ Hl)), send_nothing_down.
  unfold view_of. rewrite Hrd, Hst.
  apply (step_caught_up _ _ l f (known_of (as_leader (ldr p)))). done.
Qed.

Lemma reader_stops_step l f p x s a :
  shows l f p → sound (view_of l f p) → reader p = Some x → stopping p = true →
  on_peer_catch_up_stopped (ldr (with_reader p None false)) = (s, Returns a) →
  let p' := settle_leader (with_reader p None false) s in
  shows l f p' ∧ step (view_of l f p) (view_of l f p').
Proof.
  intros Hs Hsound Hrd Hst Hop p'. pose proof (with_reader_shows l f p None false Hs) as Hs1.
  set (p1 := with_reader p None false) in *.
  assert (Hn : ∀ n e, unanswered_request_ (as_leader (ldr p)) = Some (n, e) → 0 ≤ n).
  { intros n e Hask. destruct (proj2 Hsound) as (gs & Hgs & _). unfold requests in Hgs. cbn in Hgs.
    rewrite Hask in Hgs. destruct gs as [|g gs]; [done|]. cbn in Hgs. unfold end_of in Hgs at 1.
    injection Hgs as -> _ _. lia. }
  pose proof (on_peer_catch_up_stopped_effect (ldr p1) l (sh_leader _ _ _ _ _ Hs1)
    (sh_leads _ _ _ _ _ Hs1) Hn _ _ Hop) as He. cbn beta in He.
  unfold view_of at 1. rewrite Hrd, Hst.
  destruct (unanswered_request_ (as_leader (ldr p))) as [[n e]|] eqn:Hask.
  - destruct (so_asked _ _ _ _ (proj1 Hsound) (n, e)) as (Hup & _); [done|]. cbn in Hup.
    destruct (so_reader _ _ _ _ (proj1 Hsound) x.1 x.2) as (_ & _ & _ & Hth).
    { cbn. rewrite Hrd. by destruct x. }
    destruct He as [(_ & [He|[He|He]])|(n' & e' & Hask' & Hans)].
    { cbn in He. congruence. }
    { rewrite (sh_thread _ _ _ _ _ Hs1) in He. congruence. }
    { rewrite (sh_reading _ _ _ _ _ Hs1) in He. done. }
    cbn in Hask'. rewrite Hask in Hask'. injection Hask' as <- <-.
    set (p2 := with_leader_side p1 (with_leader (ldr p1) (set_unanswered None (as_leader (ldr p1)))) (ldr_up p1)).
    assert (Hs2 : shows l f p2) by (destruct Hs1; by constructor).
    destruct (answers_step l f p2 n e s Hs2 (Hn n e eq_refl) Hup Hans) as [Hsh Hansw]. split; [done|].
    by eapply (step_stopped_answers _ _ l f (known_of (as_leader (ldr p)))).
  - assert (s = ldr p1) as ->.
    { destruct He as [[-> _]|(n & e & Hask' & _)]; [done|]. cbn in Hask'. congruence. }
    split; [by eapply leads_shows, steady_leads, steady_refl|].
    unfold p'. rewrite steady_view by (done || apply steady_refl).
    by apply step_stopped.
Qed.

(** *** The connection *)

Lemma leader_up_step l f p now s a :
  shows l f p → sound (view_of l f p) → ldr_up p = false → closing p = false →
  let p1 := with_leader_side p (with_connected (ldr p) true) true in
  on_peer_connection_established now (ldr p1) = (s, Returns a) →
  let p' := settle_leader p1 s in
  shows l f p' ∧ step (view_of l f p) (view_of l f p').
Proof.
  intros Hs Hsound Hup Hcl p1 Hop p'.
  assert (Hs1 : shows l f p1) by (destruct Hs; by constructor).
  pose proof (leader_up_effect now (ldr p1) (sh_leads _ _ _ _ _ Hs1) _ _ Hop) as Hl. cbn beta in Hl.
  assert (ask_again_of (ldr p1) = [MReply asks_again]) as Hask.
  { unfold ask_again_of. by rewrite (sh_leader_ha _ _ _ _ _ Hs1), (sh_leads _ _ _ _ _ Hs1). }
  rewrite Hask in Hl. split; [by eapply leads_shows|].
  unfold p'. rewrite (leader_view _ _ _ _ _ _ (sh_leader_told _ _ _ _ _ Hs1) (ls_emits _ _ _ _ _ Hl)).
  rewrite (known_knows _ _ _ _ _ _ _ (ls_knows _ _ _ _ _ Hl)).
  pose proof (step_leader_up term thread l f (known_of (as_leader (ldr p))) (agrees (flw p)) (line_of p)
    (reader p) (stopping p) Hup Hcl) as Hstep.
  assert (Hread : reading_of (reader p1, stopping p1)
    (if peer_catching_up_ (as_leader (ldr p1)) && catches_up (ldr p1) then [StopPeerCatchUp] else [])
    = (reader p, peer_catching_up_ (as_leader (ldr p)) || stopping p)).
  { rewrite (sh_thread _ _ _ _ _ Hs1). apply (catching_thread l f p Hsound). }
  rewrite Hread.
  assert (send_down (line_of p1) [MReply asks_again]
    = mk_line (to_follower p ++ [MReply asks_again]) (to_leader p) true (flw_up p) false) as ->;
    [|exact Hstep].
  unfold send_down, line_of. cbn. by rewrite Hcl.
Qed.

Lemma leader_lost_step l f p now s a :
  shows l f p → sound (view_of l f p) → ldr_up p = true →
  let p1 := leave (with_leader_side p (with_connected (ldr p) false) false) true in
  on_peer_connection_lost now (ldr p1) = (s, Returns a) →
  let p' := settle_leader p1 s in
  shows l f p' ∧ step (view_of l f p) (view_of l f p').
Proof.
  intros Hs Hsound Hup p1 Hop p'.
  assert (Hs1 : shows l f p1).
  { destruct Hs. constructor; try done. cbn. unfold reading_stopped in *. cbn. rewrite sh_reading0.
    by destruct (reader p). }
  destruct (leader_lost_effect now (ldr p1) _ _ Hop) as [Hl _]. cbn beta in Hl.
  assert (ask_again_of (ldr p1) = []) as Hask.
  { unfold ask_again_of. by rewrite (sh_leader_up _ _ _ _ _ Hs1), andb_false_r. }
  rewrite Hask in Hl. split; [by eapply leads_shows|].
  unfold p'. rewrite (leader_view _ _ _ _ _ _ (sh_leader_told _ _ _ _ _ Hs1) (ls_emits _ _ _ _ _ Hl)).
  rewrite (known_knows _ _ _ _ _ _ _ (ls_knows _ _ _ _ _ Hl)), send_nothing_down.
  pose proof (step_leader_lost term thread l f (known_of (as_leader (ldr p))) (agrees (flw p)) (line_of p)
    (reader p) (stopping p) Hup) as Hstep.
  assert (Hread : reading_of (reader p1, stopping p1)
    (if peer_catching_up_ (as_leader (ldr p1)) && catches_up (ldr p1) then [StopPeerCatchUp] else [])
    = (reader p1, peer_catching_up_ (as_leader (ldr p)) || stopping p)).
  { rewrite (sh_thread _ _ _ _ _ Hs1).
    pose proof (catching_thread l f p Hsound) as Hr. cbn in Hr |- *.
    destruct (peer_catching_up_ (as_leader (ldr p))), thread; cbn in *; try done; by injection Hr as <-. }
  rewrite Hread. exact Hstep.
Qed.

(** ** The follower's side *)

Lemma follower_view l f p s msgs cs :
  outputs (flw p) = [] → emits (flw p) s msgs cs →
  view_of l f (settle_follower p s)
    = mk_view l f (known_of (as_leader (ldr p))) (agrees s) (send_back (line_of p) msgs)
        (reader p) (stopping p).
Proof.
  intros Ho (out & Hout & <- & _). rewrite Ho in Hout. cbn in Hout.
  unfold view_of, settle_follower, send_back, line_of. cbn. by rewrite Hout.
Qed.

Lemma follower_shows l f f' p s :
  shows l f p → stores s f' → role_ s ≠ leader →
  configuration_ s = configuration_ (flw p) → around s = around (flw p) →
  shows l f' (settle_follower p s).
Proof.
  intros [] Hst Hr Hc Ha. constructor; cbn; try done.
  - unfold ha in *. cbn. by rewrite Hc.
  - unfold connected in *. cbn. by rewrite Ha.
Qed.

Lemma moves_shows l f p s b msgs :
  shows l f p → role_ s ≠ leader → moves (flw p) s b msgs → shows l f (settle_follower p s).
Proof.
  intros Hs Hr [[] _ _]. pose proof Hs as []. eapply follower_shows; try done.
  by eapply stores_same; [|exact sh_follower0].
Qed.

Lemma moves_view l f p s b msgs :
  shows l f p → moves (flw p) s b msgs →
  view_of l f (settle_follower p s)
    = mk_view l f (known_of (as_leader (ldr p))) b (send_back (line_of p) msgs)
        (reader p) (stopping p).
Proof.
  intros Hs [_ Ha [cs He]]. rewrite (follower_view _ _ _ _ _ _ (sh_follower_told _ _ _ _ _ Hs) He).
  by rewrite Ha.
Qed.

(** What a follower that asks sends. *)
Lemma asking_request l f p :
  shows l f p → asking (flw p) = if flw_up p then [request f] else [].
Proof.
  intros []. rewrite (asking_of _ _ sh_follower0), sh_follower_ha0, sh_follower_up0. done.
Qed.

Lemma asking_many l f p msgs :
  shows l f p → Forall (λ m, m ∈ asking (flw p)) msgs →
  ∃ n, msgs = replicate n (request f) ∧ (n ≠ 0%nat → flw_up p = true).
Proof.
  intros Hs Hall. rewrite (asking_request _ _ _ Hs) in Hall. exists (length msgs).
  split.
  - symmetry. apply replicate_as_elem_of. split; [done|]. intros m Hm. rewrite Forall_forall in Hall. specialize (Hall m Hm).
    destruct (flw_up p); [by apply list_elem_of_singleton in Hall|by apply elem_of_nil in Hall].
  - intros Hlen. destruct msgs as [|m msgs]; [done|]. apply Forall_cons in Hall as [Hm _].
    destruct (flw_up p); [done|by apply elem_of_nil in Hm].
Qed.

Lemma told_step l f p s n :
  shows l f p → role_ s ≠ leader → moves (flw p) s false (replicate n (request f)) →
  (n ≠ 0%nat → flw_up p = true) → (agrees (flw p) = true → all_answered p) →
  shows l f (settle_follower p s) ∧ step (view_of l f p) (view_of l f (settle_follower p s)).
Proof.
  intros Hs Hr Hm Hn Ha. split; [by eapply moves_shows|]. rewrite (moves_view _ _ _ _ _ _ Hs Hm).
  apply step_told; [|done]. intros Hag. destruct (Ha Hag) as (Hu & Hl & Hf).
  split; [|done]. unfold requests. cbn. by rewrite Hu.
Qed.

Lemma untold_step l f p s :
  shows l f p → role_ s ≠ leader → moves (flw p) s (agrees (flw p)) [] →
  shows l f (settle_follower p s) ∧ step (view_of l f p) (view_of l f (settle_follower p s)).
Proof.
  intros Hs Hr Hm. split; [by eapply moves_shows|]. rewrite (moves_view _ _ _ _ _ _ Hs Hm).
  assert (send_back (line_of p) [] = line_of p) as ->; [|apply step_quiet].
  unfold send_back, line_of. cbn. rewrite app_nil_r. by destruct (closing p).
Qed.

Lemma follower_tick_step l f p now s a :
  shows l f p → on_lease_tick uniform now (flw p) = (s, Returns a) → role_ s ≠ leader →
  (role_ s ≠ role_ (flw p) → agrees (flw p) = true → all_answered p) →
  shows l f (settle_follower p s) ∧ step (view_of l f p) (view_of l f (settle_follower p s)).
Proof.
  intros Hs Hop Hr Hfine.
  destruct (on_lease_tick_follower uniform now (flw p) (sh_follows _ _ _ _ _ Hs) _ _ Hop Hr)
    as (b & msgs & Hm & Hall & Hrole & Hb).
  destruct (asking_many _ _ _ _ Hs Hall) as (n & -> & Hn). destruct b.
  - rewrite (Hb eq_refl) in Hm. apply untold_step; [done..|].
    destruct Hrole as [[_ <-]|[_ ?]]; done.
  - eapply told_step; try done. intros Hag. destruct Hrole as [[_ ?]|[? _]]; [congruence|auto].
Qed.

Lemma follower_lease_step l f p m now s a :
  shows l f p → dispatch_lease uniform m now (flw p) = (s, Returns a) → role_ s ≠ leader →
  (role_ s ≠ role_ (flw p) → agrees (flw p) = true → all_answered p) →
  shows l f (settle_follower p s) ∧ step (view_of l f p) (view_of l f (settle_follower p s)).
Proof.
  intros Hs Hop Hr Hfine.
  destruct (dispatch_lease_follower uniform m now (flw p) (sh_follows _ _ _ _ _ Hs) _ _ Hop Hr)
    as [[_ Hm]|[Hrole Hm]]; [by apply untold_step|].
  destruct (asking_many l f p (asking (flw p)) Hs) as (n & Heq & Hn); [by apply Forall_forall|].
  rewrite Heq in Hm. eapply told_step; try done. auto.
Qed.

Lemma follower_up_step l f p now s a :
  shows l f p → flw_up p = false → closing p = false →
  let p1 := with_follower_side p (with_connected (flw p) true) true in
  on_peer_connection_established now (flw p1) = (s, Returns a) →
  let p' := settle_follower p1 s in
  shows l f p' ∧ step (view_of l f p) (view_of l f p').
Proof.
  intros Hs Hup Hcl p1 Hop p'.
  assert (Hs1 : shows l f p1) by (destruct Hs; by constructor).
  destruct (follower_up_effect now (flw p1) (sh_follows _ _ _ _ _ Hs1) _ _ Hop) as [Hr Hm].
  assert (role_ s ≠ leader) by (rewrite Hr; apply Hs1).
  split; [by eapply moves_shows|]. unfold p'. rewrite (moves_view _ _ _ _ _ _ Hs1 Hm).
  rewrite (asking_request _ _ _ Hs1). cbn [flw_up p1 with_follower_side].
  pose proof (step_follower_up term thread l f (known_of (as_leader (ldr p))) (agrees (flw p)) (line_of p)
    (reader p) (stopping p) Hup Hcl) as Hstep.
  assert (send_back (line_of p1) [request f]
    = mk_line (to_follower p) (to_leader p ++ [request f]) (ldr_up p) true false) as ->; [|exact Hstep].
  unfold send_back, line_of. cbn. by rewrite Hcl.
Qed.

Lemma follower_lost_step l f p now s a :
  shows l f p → flw_up p = true →
  let p1 := leave (with_follower_side p (with_connected (flw p) false) false) false in
  on_peer_connection_lost now (flw p1) = (s, Returns a) →
  let p' := settle_follower p1 s in
  shows l f p' ∧ step (view_of l f p) (view_of l f p').
Proof.
  intros Hs Hup p1 Hop p'.
  assert (Hs1 : shows l f p1) by (destruct Hs; by constructor).
  destruct (follower_lost_effect now (flw p1) (sh_follows _ _ _ _ _ Hs1) _ _ Hop) as [Hr Hm].
  assert (role_ s ≠ leader) by (rewrite Hr; apply Hs1).
  split; [by eapply moves_shows|]. unfold p'. rewrite (moves_view _ _ _ _ _ _ Hs1 Hm).
  pose proof (step_follower_lost term thread l f (known_of (as_leader (ldr p))) (agrees (flw p)) (line_of p)
    (reader p) (stopping p) Hup) as Hstep.
  assert (send_back (line_of p1) [] = line_of p1) as ->; [|exact Hstep].
  unfold send_back, line_of. cbn. rewrite app_nil_r. by destruct (ldr_up p).
Qed.

(** *** Messages to the follower *)

(** Only records and answers are on their way to the follower. *)
Lemma down_messages l f p m d :
  sound (view_of l f p) → to_follower p = m :: d →
  (∃ n c, m = MRecord n c) ∨ ∃ r, m = MReply r ∧ (ask_again r = false → 0 ≤ reply_seq_no r).
Proof.
  intros [_ (gs & _ & [Hlo|Hfo])] Hd.
  - pose proof (lo_down _ _ _ _ Hlo) as Hall. cbn in Hall. rewrite Hd in Hall.
    apply Forall_cons in Hall as [[Ha|(r & -> & ? & ? & Ht & ?)] _].
    + destruct m as [| | |r]; [done..|]. right. exists r. split; [done|]. cbn in Ha. congruence.
    + right. exists r. split; [done|]. intros _. destruct Ht as [?|[? _]]; [congruence|lia].
  - pose proof (fo_down _ _ _ Hfo) as Hall. cbn in Hall. rewrite Hd in Hall.
    apply Forall_cons in Hall as [Ht _]. destruct m as [n c| | |r]; [|done|done|].
    + left. by eexists _, _.
    + right. exists r. split; [done|]. intros Ha. destruct Ht as [?|[? _]]; [congruence|lia].
Qed.

Lemma record_step l f p n c d now s a :
  shows l f p → flw_up p = true → to_follower p = MRecord n c :: d →
  log_room (wal_ (flw p)) c → dispatch_message (MRecord n c) now (flw p) = (s, Returns a) →
  let p' := settle_follower (with_queues p d (to_leader p)) s in
  ∃ f', shows l f' p' ∧ step (view_of l f p) (view_of l f' p').
Proof.
  intros Hs Hup Hd Hroom Hop p'. pose proof (queues_shows l f p d (to_leader p) Hs) as Hs1.
  set (p1 := with_queues p d (to_leader p)) in *. pose proof Hs1 as Hs1'. destruct Hs1'.
  pose proof (handle_record_effect 0 n c (flw p1) f sh_follower0 sh_follows0 Hroom _ _ Hop) as He.
  cbn zeta in He. destruct He as (Hr & Hc & Har & He).
  assert (Hnl : role_ s ≠ leader) by (rewrite Hr; done).
  assert (Hnone : send_back (line_of p1) [] = line_of p1).
  { unfold send_back, line_of. cbn. rewrite app_nil_r. by destruct (closing p). }
  assert (Hview : view_of l f p = mk_view l f (known_of (as_leader (ldr p))) (agrees (flw p)) (line_of p)
    (reader p) (stopping p)) by done.
  destruct (negb (agrees (flw p1)) || (n <=? size_of f)) eqn:Hpass.
  - subst s. exists f.
    assert (Hm : moves (flw p1) (flw p1) (agrees (flw p1)) []).
    { apply near_moves, steady_near, steady_refl. }
    split; [by eapply moves_shows|]. unfold p'. rewrite (moves_view _ _ _ _ _ _ Hs1 Hm), Hnone.
    rewrite Hview. eapply (step_record_passed _ _ l f _ _ (line_of p)); [done|done|].
    cbn in Hpass. bool_to_prop. destruct Hpass as [Hpass|Hpass]; [left|right; lia].
    by destruct (agrees (flw p)).
  - apply orb_false_iff in Hpass as [Hag Hn]. apply negb_false_iff in Hag. apply Z.leb_gt in Hn.
    cbn in Hag. rewrite Hag in Hview.
    destruct (Z.ltb_spec (size_of f + 1) n) as [Hgap|Hgap].
    + exists f. split; [by eapply moves_shows|]. unfold p'. rewrite (moves_view _ _ _ _ _ _ Hs1 He), Hnone.
      rewrite Hview. by eapply (step_record_gap _ _ l f _ (line_of p)).
    + destruct He as (Hst & Hag' & cs & Hem). exists (f ++ [c]). split; [by eapply follower_shows|].
      unfold p'. rewrite (follower_view _ _ _ _ _ _ sh_follower_told0 Hem), Hag', Hview.
      assert (n = size_of f + 1) as -> by lia. by apply (step_record _ _ l f _ (line_of p)).
Qed.

Lemma reply_step l f p r d now s a :
  shows l f p → flw_up p = true → to_follower p = MReply r :: d →
  (ask_again r = false → 0 ≤ reply_seq_no r) →
  dispatch_message (MReply r) now (flw p) = (s, Returns a) →
  let p' := settle_follower (with_queues p d (to_leader p)) s in
  ∃ f', shows l f' p' ∧ step (view_of l f p) (view_of l f' p').
Proof.
  intros Hs Hup Hd Hseq Hop p'. pose proof (queues_shows l f p d (to_leader p) Hs) as Hs1.
  set (p1 := with_queues p d (to_leader p)) in *. pose proof Hs1 as Hs1'. destruct Hs1'.
  pose proof (handle_position_reply_effect r now (flw p1) f sh_follower0 sh_follows0 Hseq _ _ Hop) as He.
  cbn beta in He. destruct He as (Hr & Hc & Har & He).
  assert (Hnl : role_ s ≠ leader) by (rewrite Hr; done).
  assert (Hnone : send_back (line_of p1) [] = line_of p1).
  { unfold send_back, line_of. cbn. rewrite app_nil_r. by destruct (closing p). }
  assert (Hsame : moves (flw p1) (flw p1) (agrees (flw p1)) []).
  { apply near_moves, steady_near, steady_refl. }
  assert (Hview : view_of l f p = mk_view l f (known_of (as_leader (ldr p))) (agrees (flw p)) (line_of p)
    (reader p) (stopping p)) by done.
  destruct (ask_again r) eqn:Hagain.
  - exists f. split; [by eapply moves_shows|]. unfold p'. rewrite (moves_view _ _ _ _ _ _ Hs1 He).
    rewrite (asking_request _ _ _ Hs1). cbn [flw_up p1 with_queues]. rewrite Hup, Hview.
    by eapply (step_asked_again _ _ l f _ _ (line_of p)).
  - change (agrees (flw p1)) with (agrees (flw p)) in He. destruct (agrees (flw p)) eqn:Hag.
    + subst s. exists f. split; [by eapply moves_shows|].
      unfold p'. rewrite (moves_view _ _ _ _ _ _ Hs1 Hsame), Hnone. rewrite Hview.
      change (agrees (flw p1)) with (agrees (flw p)). rewrite Hag.
      by eapply (step_reply_passed _ _ l f _ (line_of p)).
    + destruct He as (k & b & Hk & [[_ ->]|(Hst & Hag' & cs & Hem)]).
      * exists f. split; [by eapply moves_shows|].
        unfold p'. rewrite (moves_view _ _ _ _ _ _ Hs1 Hsame), Hnone. rewrite Hview.
        change (agrees (flw p1)) with (agrees (flw p)). rewrite Hag.
        eapply (step_reply _ _ l f _ (line_of p)); [done|done|done|]. apply repair_later.
      * exists (take (Z.to_nat k) f). split; [by eapply follower_shows|].
        unfold p'. rewrite (follower_view _ _ _ _ _ _ sh_follower_told0 Hem), Hview.
        eapply (step_reply _ _ l f _ (line_of p)); [done|done|done|].
        pose proof (repair_step f (take_down (line_of p) d) r k b Hk) as Hrep.
        rewrite <- Hag' in Hrep.
        assert (asking s = if flw_up p then [request (take (Z.to_nat k) f)] else []) as Hask.
        { rewrite (asking_of _ _ Hst). unfold ha, connected in *. rewrite Hc, Har.
          by rewrite sh_follower_ha0, sh_follower_up0. }
        rewrite Hask, Hup. destruct (agrees s); [|exact Hrep].
        by rewrite Hnone.
Qed.

(** *** A follower that starts again *)

Lemma restart_step l f p now s a :
  shows l f p → sound (view_of l f p) →
  let p1 := with_follower_side p (restarted (flw p)) false in
  let p2 := if flw_up p then leave p1 false else p1 in
  open now (flw p2) = (s, Returns a) →
  let p' := settle_follower p2 s in
  shows l f p' ∧ step (view_of l f p) (view_of l f p').
Proof.
  intros Hs Hsound p1 p2 Hop p'. pose proof Hs as [].
  assert (Hflw : flw p2 = restarted (flw p)) by (unfold p2; by destruct (flw_up p)).
  rewrite Hflw in Hop.
  destruct (open_effect now (restarted (flw p)) f (proj1 sh_follower0) eq_refl sh_follower_ha0 eq_refl _ _ Hop)
    as (Hst & Hr & Hc & Har & Hag & Hem).
  assert (Hnl : role_ s ≠ leader) by (rewrite Hr; done).
  assert (Hem' : emits (flw p2) s [] []) by by rewrite Hflw.
  assert (Ho : outputs (flw p2) = []) by by rewrite Hflw.
  split.
  - unfold p', p2, p1. destruct (flw_up p); constructor; cbn; try done.
    all: unfold ha, connected in *; cbn; rewrite ?Hc, ?Har; done.
  - unfold p'. rewrite (follower_view _ _ _ _ _ _ Ho Hem'), Hag.
    assert (send_back (line_of p2) [] = line_of p2) as ->.
    { unfold send_back. rewrite app_nil_r. by destruct (line_of p2) as [? ? ? ? []]. }
    unfold p2. destruct (flw_up p) eqn:Hup.
    + by apply (step_follower_lost term thread l f (known_of (as_leader (ldr p))) (agrees (flw p)) (line_of p)
        (reader p) (stopping p)).
    + pose proof (step_told term thread l f (known_of (as_leader (ldr p))) (agrees (flw p)) (line_of p)
        (reader p) (stopping p) 0) as Hstep.
      assert (send_back (line_of p) (replicate 0 (request f)) = line_of p1) as Heq.
      { unfold send_back, line_of. cbn. rewrite app_nil_r, Hup. by destruct (closing p). }
      rewrite Heq in Hstep. apply Hstep; [|done]. intros Ha.
      destruct (so_away _ _ _ _ (proj1 Hsound) Hup) as [Ha' _]. cbn in Ha'. congruence.
Qed.

(** ** Every event *)

Lemma near_step l f p s :
  shows l f p → (role_ s = leader → near (ldr p) s) → role_ s = leader → epoch_ s = epoch_ (ldr p) →
  shows l f (settle_leader p s) ∧ step (view_of l f p) (view_of l f (settle_leader p s)).
Proof. intros Hs Hn Hr He. apply steady_step; [done|]. by apply near_steady; [apply Hn|]. Qed.

Lemma same_shows l f p p' :
  shows l f p' ∧ view_of l f p' = view_of l f p → ∃ l' f', shows l' f' p' ∧ step (view_of l f p) (view_of l' f' p').
Proof. intros [Hs Hv]. exists l, f. split; [done|]. rewrite Hv. apply step_quiet. Qed.

Lemma one_step l f p p' :
  shows l f p' ∧ step (view_of l f p) (view_of l f p') →
  ∃ l' f', shows l' f' p' ∧ step (view_of l f p) (view_of l' f' p').
Proof. intros ?. by exists l, f. Qed.

Lemma react_step l f p e p' :
  shows l f p → sound (view_of l f p) → react uniform p e = Some p' → fine p e p' →
  ∃ l' f', shows l' f' p' ∧ step (view_of l f p) (view_of l' f' p').
Proof.
  intros Hs Hsound Hreact (Hrole & Hepoch & Hfrole & Hfine). destruct e; cbn [react] in Hreact.
  - apply lead_inv in Hreact as (s & a & Hop & ->).
    destruct (append_step _ _ _ _ _ _ _ _ _ Hs Hfine Hop) as (l' & ? & ?). by exists l', f.
  - destruct (ldr_up p) eqn:Hup; [|done]. destruct (to_leader p) as [|m b] eqn:Hb; [done|].
    apply lead_inv in Hreact as (s & a & Hop & ->).
    apply one_step. by eapply to_leader_step.
  - destruct (flw_up p) eqn:Hup; [|done]. destruct (to_follower p) as [|m d] eqn:Hd; [done|].
    apply follow_inv in Hreact as (s & a & Hop & ->). cbn in Hop.
    destruct (down_messages _ _ _ _ _ Hsound Hd) as [(n & c & ->)|(r & -> & Hseq)].
    + destruct (record_step _ _ _ _ _ _ _ _ _ Hs Hup Hd Hfine Hop) as (f' & ? & ?). by exists l, f'.
    + destruct (reply_step _ _ _ _ _ _ _ _ Hs Hup Hd Hseq Hop) as (f' & ? & ?). by exists l, f'.
  - apply lead_inv in Hreact as (s & a & Hop & ->). apply one_step, near_step; try done.
    by eapply (on_lease_tick_leader uniform); [apply Hs|].
  - apply follow_inv in Hreact as (s & a & Hop & ->). apply one_step. by eapply follower_tick_step.
  - apply lead_inv in Hreact as (s & a & Hop & ->). apply one_step, steady_step; [done|].
    by eapply on_acknowledgement_watch_steady.
  - apply lead_inv in Hreact as (s & a & Hop & ->). apply one_step, steady_step; [done|].
    by eapply follower_too_far_behind_steady.
  - apply lead_inv in Hreact as (s & a & Hop & ->). apply one_step, near_step; try done.
    by eapply (dispatch_lease_leader uniform); [apply Hs|].
  - apply follow_inv in Hreact as (s & a & Hop & ->). apply one_step. by eapply follower_lease_step.
  - destruct (ldr_up p || closing p) eqn:Hc; [done|]. apply orb_false_iff in Hc as [Hup Hcl].
    apply lead_inv in Hreact as (s & a & Hop & ->). apply one_step. by eapply leader_up_step.
  - destruct (flw_up p || closing p) eqn:Hc; [done|]. apply orb_false_iff in Hc as [Hup Hcl].
    apply follow_inv in Hreact as (s & a & Hop & ->). apply one_step. by eapply follower_up_step.
  - destruct (ldr_up p) eqn:Hup; [|done].
    apply lead_inv in Hreact as (s & a & Hop & ->). apply one_step. by eapply leader_lost_step.
  - destruct (flw_up p) eqn:Hup; [|done].
    apply follow_inv in Hreact as (s & a & Hop & ->). apply one_step. by eapply follower_lost_step.
  - destruct (reader p) as [[n live]|] eqn:Hrd; [|done].
    destruct (record_at (wal_ (ldr p)) n) as [c|] eqn:Hrec; [|done]. injection Hreact as <-.
    apply one_step. by apply reader_sends_step.
  - destruct (reader p) as [[n []]|] eqn:Hrd; [|done|done]. destruct (stopping p) eqn:Hst; [done|].
    rewrite (stores_last _ _ (sh_leader _ _ _ _ _ Hs)) in Hreact.
    destruct (Z.eqb_spec n (size_of l + 1)) as [->|]; [|done].
    apply lead_inv in Hreact as (s & a & Hop & ->). apply one_step. by eapply reader_done_step.
  - destruct (reader p) as [x|] eqn:Hrd; [|done]. destruct (stopping p) eqn:Hst; [|done].
    apply lead_inv in Hreact as (s & a & Hop & ->). apply one_step. by eapply reader_stops_step.
  - injection Hreact as <-. apply same_shows. split; [destruct Hs; by constructor|done].
  - injection Hreact as <-. apply same_shows. split; [destruct Hs; by constructor|done].
  - injection Hreact as <-. apply same_shows. split; [destruct Hs; by constructor|done].
  - apply follow_inv in Hreact as (s & a & Hop & ->). apply one_step. by eapply restart_step.
Qed.

End refinement.
