(* ===== verification/ReplicatedPairCommit.v ===== *)
(** What the operations of a leader commit.

    A leader commits past what its follower has acknowledged only while it may
    commit without its follower. *)

From S2P Require Import Prelude.
From S2P Require Import Lease.
From S2P Require Import PairLeaseAgent.
From S2P Require Import LogEpochTable.
From S2P Require Import WalEntry.
From S2P Require Import RecordLog.
From S2P Require Import ReplicatedWal.
From S2P Require Import ReplicatedPair.
From S2P Require Import ReplicatedPairEffects.
Import ReplicatedWal.

#[local] Open Scope Z_scope.

Section commit.
Context {W : Type} `{RecordLogLaws W}.
Implicit Types s : t W.

Abbreviation committed s := (committed_through_ (as_leader s)).
Abbreviation acked s := (peer_acked_through_ (as_leader s)).

(** Nothing is committed. *)
Definition uncommitted s s' : Prop := committed s' = committed s.

Definition commits s s' : Prop :=
  committed s' = committed s ∨ committed s' ≤ acked s' ∨
  may_commit_without_follower s' = true.

Lemma commits_after s s1 s2 : uncommitted s s1 → commits s1 s2 → commits s s2.
Proof. unfold uncommitted, commits. intros ->. done. Qed.

Lemma uncommitted_trans s s1 s2 : uncommitted s s1 → uncommitted s1 s2 → uncommitted s s2.
Proof. unfold uncommitted. congruence. Qed.

Lemma commits_none s s' : uncommitted s s' → commits s s'.
Proof. by left. Qed.

(** One operation after another. *)
Lemma uncommitted_seq {A B} (m : comp (t W) A) (f : A → comp (t W) B) s0 s :
  uncommitted s0 s → wp m (λ s' _, uncommitted s s') s →
  (∀ s' a, uncommitted s0 s' → wp (f a) (λ s'' _, uncommitted s0 s'') s') →
  wp (m ≫= f) (λ s' _, uncommitted s0 s') s.
Proof.
  intros H0' Hm Hf. apply wp_bind. eapply wp_mono; [exact Hm|]. cbn beta. intros s' a Hs.
  apply Hf. by eapply uncommitted_trans.
Qed.

Lemma commits_seq {A B} (m : comp (t W) A) (f : A → comp (t W) B) s0 s :
  uncommitted s0 s → wp m (λ s' _, uncommitted s s') s →
  (∀ s' a, uncommitted s0 s' → wp (f a) (λ s'' _, commits s0 s'') s') →
  wp (m ≫= f) (λ s' _, commits s0 s') s.
Proof.
  intros H0' Hm Hf. apply wp_bind. eapply wp_mono; [exact Hm|]. cbn beta. intros s' a Hs.
  apply Hf. by eapply uncommitted_trans.
Qed.

Lemma commits_from {A} (m : comp (t W) A) s0 s :
  uncommitted s0 s → wp m (λ s' _, commits s s') s → wp m (λ s' _, commits s0 s') s.
Proof. intros H0' Hm. eapply wp_mono; [exact Hm|]. intros s' a Hs. by eapply commits_after. Qed.

(** ** Operations that commit nothing *)

Lemma on_lease_uncommitted {A} (d : A) m s : wp (on_lease d m) (λ s' _, uncommitted s s') s.
Proof. intros s' a. unfold on_lease. by destruct (lease_agent_ (on_leases s)); intros [= <- _]. Qed.

Lemma on_wal_uncommitted {A} (m : comp W A) s : wp (on_wal m) (λ s' _, uncommitted s s') s.
Proof. intros s' a. unfold on_wal. by intros [= <- _]. Qed.

Lemma on_table_uncommitted m s : wp (on_table m) (λ s' _, uncommitted s s') s.
Proof. intros s' a. unfold on_table. by intros [= <- _]. Qed.

Lemma write_uncommitted n c s : wp (write n c) (λ s' _, uncommitted s s') s.
Proof.
  unfold write. apply uncommitted_seq; [done|apply on_wal_uncommitted|]. intros s1 _ H1.
  apply uncommitted_seq; [done| |].
  - unfold publish_written. by wp_steps.
  - intros s2 _ H2. wp_steps; [done|]. eapply wp_mono; [apply on_table_uncommitted|].
    cbn beta. intros s3 _ H3. by eapply uncommitted_trans.
Qed.

Lemma say_may_not_lead_uncommitted now s :
  wp (say_follower_may_not_lead now) (λ s' _, uncommitted s s') s.
Proof. unfold say_follower_may_not_lead. wp_steps; [done|apply on_lease_uncommitted]. Qed.

Lemma forget_agreement_uncommitted s : wp forget_agreement (λ s' _, uncommitted s s') s.
Proof. unfold forget_agreement. by wp_steps. Qed.

Lemma send_position_request_uncommitted now s :
  wp (send_position_request now) (λ s' _, uncommitted s s') s.
Proof. unfold send_position_request. by wp_steps. Qed.

Lemma send_after_uncommitted n l : ∀ s, wp (send_after n l) (λ s' _, uncommitted s s') s.
Proof.
  induction l as [|[m c] l IH]; intros s; cbn [send_after]; [by wp_step|].
  apply uncommitted_seq; [done|by wp_steps|]. intros s1 _ H1.
  eapply wp_mono; [apply IH|]. cbn beta. intros s2 _ H2. by eapply uncommitted_trans.
Qed.

Lemma answer_position_request_uncommitted n r s :
  wp (answer_position_request n r) (λ s' _, uncommitted s s') s.
Proof.
  unfold answer_position_request.
  wp_step. wp_step. wp_step. wp_step. wp_step; [by wp_step|]. wp_step. wp_step.
  apply uncommitted_seq; [done|by wp_steps|]. intros s1 _ H1.
  wp_step. wp_step. wp_step; [by wp_steps|].
  apply uncommitted_seq; [done|apply on_wal_uncommitted|]. intros s2 recs H2.
  apply uncommitted_seq; [done|apply send_after_uncommitted|]. intros s3 _ H3. by wp_steps.
Qed.

Lemma handle_position_request_uncommitted n e s :
  wp (handle_position_request n e) (λ s' _, uncommitted s s') s.
Proof.
  unfold handle_position_request. wp_steps; try done. apply answer_position_request_uncommitted.
Qed.

Lemma on_peer_caught_up_uncommitted n s : wp (on_peer_caught_up n) (λ s' _, uncommitted s s') s.
Proof. unfold on_peer_caught_up. by wp_steps. Qed.

Lemma on_peer_catch_up_stopped_uncommitted s :
  wp on_peer_catch_up_stopped (λ s' _, uncommitted s s') s.
Proof.
  unfold on_peer_catch_up_stopped. wp_step. wp_step.
  destruct (unanswered_request_ (as_leader s)) as [[n e]|]; [|by wp_step].
  wp_step; [by wp_step|]. wp_step. wp_step.
  eapply wp_mono; [apply handle_position_request_uncommitted|]. done.
Qed.

Lemma leader_up_uncommitted now s :
  wp (on_peer_connection_established now) (λ s' _, uncommitted s s') s.
Proof.
  unfold on_peer_connection_established.
  apply uncommitted_seq; [done|apply forget_agreement_uncommitted|]. intros s1 _ H1.
  eapply wp_mono; [apply send_position_request_uncommitted|]. cbn beta. intros s2 _ H2.
  by eapply uncommitted_trans.
Qed.

(** ** Operations that commit *)

(** What [advance_commit] may have done to [committed]. *)
Definition advanced s s' : Prop :=
  committed s' = committed s ∨ committed s' ≤ acked s' ∨
  (may_commit_without_follower s' = true ∧ waits_for_follower s' = false).

Lemma advance_commit_advanced s : wp advance_commit (λ s' _, advanced s s') s.
Proof.
  unfold advance_commit, publish_committed. wp_step. wp_step. wp_step; [wp_step; by left|].
  set (through := if waits_for_follower s then _ else _). wp_step; [|by left].
  set (s1 := with_leader s (set_committed through (as_leader s))).
  assert (Hs1 : advanced s s1).
  { unfold advanced. change (waits_for_follower s1) with (waits_for_follower s).
    change (may_commit_without_follower s1) with (may_commit_without_follower s).
    cbn. bool_to_prop. unfold through in *.
    destruct (waits_for_follower s); [right; left; lia|].
    destruct (may_commit_without_follower s); [by right; right|right; left; lia]. }
  by wp_steps.
Qed.

Lemma advance_commit_commits s : wp advance_commit (λ s' _, commits s s') s.
Proof.
  eapply wp_mono; [apply advance_commit_advanced|]. cbn beta.
  intros s' _ [?|[?|[? _]]]; [by left|by right; left|by right; right].
Qed.

(** The statement that the follower may lead is made only by a leader that waits
    for it. *)
Lemma say_may_lead_advanced now s0 s :
  advanced s0 s → wp (say_follower_may_lead_if_it_holds_everything now) (λ s' _, commits s0 s') s.
Proof.
  intros Ha. unfold say_follower_may_lead_if_it_holds_everything.
  assert (Hc : commits s0 s).
  { destruct Ha as [?|[?|[? _]]]; [by left|by right; left|by right; right]. }
  wp_steps; try done.
  intros s' [] E. pose proof (on_lease_uncommitted _ _ _ _ _ E) as Hu. cbn beta in Hu.
  pose proof (on_lease_steady _ _ _ _ _ E) as Hst. cbn beta in Hst.
  assert (acked s' = acked s) as Hack.
  { pose proof (sy_knows _ _ Hst) as Hk. unfold knows in Hk. congruence. }
  destruct Ha as [?|[?|[_ Hw]]].
  - left. unfold uncommitted in Hu. congruence.
  - right. left. unfold uncommitted in Hu. rewrite Hu, Hack. done.
  - rewrite Hw in *. done.
Qed.

Lemma append_commits pdu bytes wall now s :
  wp (append pdu bytes wall now) (λ s' _, commits s s') s.
Proof.
  unfold append. wp_step. wp_step. wp_step. wp_step.
  apply commits_seq; [done|apply write_uncommitted|]. intros s1 _ H1.
  wp_step. wp_step. apply commits_seq; [done|by wp_steps|]. intros s2 _ H2.
  apply commits_seq; [done| |].
  - wp_steps; try done; [|apply say_may_not_lead_uncommitted].
    unfold uncommitted. cbn. by destruct (waiting_since_ (as_leader s2)).
  - intros s3 _ H3. wp_step. eapply wp_mono; [apply (commits_from _ _ _ H3), advance_commit_commits|].
    cbn beta. intros s4 _ H4. by wp_step.
Qed.

Lemma start_running_alone_commits now s : wp (start_running_alone now) (λ s' _, commits s s') s.
Proof.
  unfold start_running_alone. wp_step. wp_step. wp_step; [wp_step; by left|]. wp_step. wp_step.
  apply commits_seq; [done|apply say_may_not_lead_uncommitted|]. intros s1 _ H1.
  by apply commits_from, advance_commit_commits.
Qed.

Lemma follower_too_far_behind_commits now s :
  wp (follower_too_far_behind now) (λ s' _, commits s s') s.
Proof. unfold follower_too_far_behind. wp_steps; [apply start_running_alone_commits|by left]. Qed.

Lemma on_acknowledgement_watch_commits now s :
  wp (on_acknowledgement_watch now) (λ s' _, commits s s') s.
Proof.
  unfold on_acknowledgement_watch. wp_steps.
  destruct (waiting_since_ (as_leader s)); wp_steps; [apply start_running_alone_commits|by left..].
Qed.

Lemma handle_ack_commits n now s : wp (handle_ack n now) (λ s' _, commits s s') s.
Proof.
  unfold handle_ack. wp_step. wp_step. wp_step; [wp_step; by left|]. wp_step. wp_step. wp_step. wp_step.
  apply commits_seq; [done|by wp_steps|]. intros s1 _ H1.
  apply commits_seq; [done| |].
  - wp_steps; [|done]. unfold stop_running_alone. by wp_steps.
  - intros s2 _ H2. wp_step. eapply wp_mono; [apply advance_commit_advanced|]. cbn beta. intros s3 _ H3.
    eapply wp_mono; [by apply say_may_lead_advanced|]. cbn beta. intros s4 _ H4. by eapply commits_after.
Qed.

Lemma on_peer_connection_lost_commits now s :
  wp (on_peer_connection_lost now) (λ s' _, commits s s') s.
Proof.
  unfold on_peer_connection_lost. apply commits_seq; [done|apply forget_agreement_uncommitted|].
  intros s1 _ H1. wp_step. wp_step. apply commits_seq; [done| |].
  { wp_steps; [|done]. unfold stop_running_alone. by wp_steps. }
  intros s2 _ H2. apply commits_seq; [done| |].
  { wp_steps; [apply say_may_not_lead_uncommitted|done]. }
  intros s3 _ H3. by apply commits_from, advance_commit_commits.
Qed.

(** ** The leases *)

Lemma act_on_uncommitted ch now s :
  role_ s = leader → wp (act_on ch now) (λ s' _, role_ s' = leader → uncommitted s s') s.
Proof.
  intros Hrole. unfold act_on. wp_step. wp_step. wp_step.
  apply (wp_mono _ (λ s1 _, uncommitted s s1 ∧ role_ s1 = role_ s)).
  { unfold set_epoch. by wp_steps. }
  intros s1 _ [H1 Hr1]. destruct ch.
  - by wp_step.
  - unfold change_role. wp_step. wp_step. rewrite decide_True by congruence. by wp_step.
  - eapply wp_mono; [apply change_role_role|]. cbn beta. intros s2 _ H2 H3. congruence.
  - eapply wp_mono; [apply change_role_role|]. cbn beta. intros s2 _ H2 H3. congruence.
Qed.

(** After an operation that may have ended the lead. *)
Lemma leader_commits {A} (m : comp (t W) A) s s1 :
  (role_ s1 = leader → uncommitted s s1) → wp m (λ s' _, steady s1 s') s1 →
  wp m (λ s' _, commits s1 s') s1 → wp m (λ s' _, role_ s' = leader → commits s s') s1.
Proof.
  intros Hu Hst Hm s' a E Hr. pose proof (Hst _ _ E) as Hs. cbn beta in Hs.
  rewrite (sy_role _ _ Hs) in Hr. eapply commits_after; [by apply Hu|]. exact (Hm _ _ E).
Qed.

Lemma act_on_after ch now s s1 :
  role_ s = leader → steady s s1 → uncommitted s s1 →
  wp (act_on ch now) (λ s' _, role_ s' = leader → uncommitted s s') s1.
Proof.
  intros Hr Hs Hu. eapply wp_mono; [apply act_on_uncommitted; by rewrite (sy_role _ _ Hs)|].
  cbn beta. intros s2 _ H2 Hr2. eapply uncommitted_trans; [done|by apply H2].
Qed.

(** A call of the lease agent, and what follows from the change it reports. *)
Lemma lease_then_act {B} (d : PairLeaseAgent.Change) m (k : PairLeaseAgent.Change → comp (t W) B) s :
  role_ s = leader →
  (∀ ch s1, steady s s1 → uncommitted s s1 → wp (k ch) (λ s' _, role_ s' = leader → commits s s') s1) →
  wp (on_lease d m ≫= k) (λ s' _, role_ s' = leader → commits s s') s.
Proof.
  intros Hr Hk. apply wp_bind. intros s1 ch E. apply Hk.
  - exact (on_lease_steady _ _ _ _ _ E).
  - exact (on_lease_uncommitted _ _ _ _ _ E).
Qed.

Lemma dispatch_lease_commits uniform m now s :
  role_ s = leader →
  wp (dispatch_lease uniform m now) (λ s' _, role_ s' = leader → commits s s') s.
Proof.
  intros Hrole. assert (Hrefl : commits s s) by by left. destruct m; cbn [dispatch_lease].
  - unfold handle_lease_request. wp_step. wp_step. wp_step; [by wp_step|].
    apply lease_then_act; [done|]. intros ch s1 H1 Hu1. wp_step.
    apply (wp_mono _ (λ s2 _, steady s s2 ∧ uncommitted s s2)).
    { wp_steps; [|done]. split; [|done]. eapply steady_trans; [done|by apply steady_tell]. }
    intros s2 _ [H2 Hu2]. eapply wp_mono; [by apply act_on_after|]. cbn beta. intros s3 _ H3 Hr.
    apply commits_none. auto.
  - unfold handle_lease_grant. wp_step. wp_step. wp_step; [by wp_step|].
    apply lease_then_act; [done|]. intros ch s1 H1 Hu1. wp_step.
    eapply wp_mono; [by apply act_on_after|]. cbn beta. intros s2 _ H2.
    apply leader_commits; [done|apply advance_commit_steady|apply advance_commit_commits].
  - unfold handle_lease_refusal. wp_step. wp_step. wp_step; [by wp_step|].
    apply lease_then_act; [done|]. intros ch s1 H1 Hu1.
    eapply wp_mono; [by apply act_on_after|]. cbn beta. intros s3 _ H3 Hr. apply commits_none. auto.
  - unfold handle_statement_held. wp_step. wp_step. wp_step; [by wp_step|]. wp_step.
    intros s1 [] E. pose proof (on_lease_uncommitted _ _ _ _ _ E) as Hu. cbn beta in Hu.
    eapply wp_mono; [apply (commits_from _ _ _ Hu), advance_commit_commits|]. done.
Qed.

Lemma on_lease_tick_commits uniform now s :
  role_ s = leader →
  wp (on_lease_tick uniform now) (λ s' _, role_ s' = leader → commits s s') s.
Proof.
  intros Hrole. unfold on_lease_tick. wp_step. wp_step.
  destruct (lease_agent_ (on_leases s)); [|wp_step; intros _; by left].
  apply lease_then_act; [done|]. intros ch s1 H1 Hu1. wp_step.
  eapply wp_mono; [by apply act_on_after|]. cbn beta. intros s2 _ H2. wp_step.
  intros s3 [] E3. pose proof (advance_commit_steady _ _ _ E3) as Hst3. cbn beta in Hst3.
  pose proof (advance_commit_advanced _ _ _ E3) as Ha3. cbn beta in Ha3. wp_step.
  intros s4 [] E4. pose proof (say_may_lead_steady _ _ _ _ E4) as Hst4. cbn beta in Hst4.
  pose proof (say_may_lead_advanced now s2 s3 Ha3 _ _ E4) as Hc4. cbn beta in Hc4.
  assert (H4 : role_ s4 = leader → commits s s4).
  { intros Hr. eapply commits_after; [|exact Hc4]. apply H2.
    rewrite <- (sy_role _ _ Hst3), <- (sy_role _ _ Hst4). done. }
  wp_step. wp_step. apply wp_when; intros _; [|done].
  intros s5 a E5 Hr5. pose proof (send_position_request_role now s4 s5 a E5) as Hr. cbn beta in Hr.
  rewrite Hr5 in Hr.
  rewrite (send_position_request_leader now s4 (eq_sym Hr) s5 a E5). by apply H4.
Qed.

End commit.
