(* ===== verification/ReplicatedPairTheorems.v ===== *)
(** What a leader and its follower keep through one leadership. *)

From S2P Require Import Prelude.
From S2P Require Import Lease.
From S2P Require Import PairLeaseAgent.
From S2P Require Import LogEpochTable.
From S2P Require Import WalEntry.
From S2P Require Import WalRefinement.
From S2P Require Import RecordLog.
From S2P Require Import ReplicatedWal.
From S2P Require Import ReplicatedPair.
From S2P Require Import ReplicatedPairRuns.
From S2P Require Import ReplicatedPairEffects.
From S2P Require Import PairLogs.
From S2P Require Import PairProtocol.
From S2P Require Import PairInvariant.
From S2P Require Import PairFollower.
From S2P Require Import PairRefinement.
From S2P Require Import ReplicatedPairCommit.
Import ReplicatedWal.

#[local] Open Scope Z_scope.

(** ** A leadership *)

(** Two logs an epoch [term] can begin with: both in the order of their epochs,
    which are earlier, and the same up to any record of one epoch. *)
Record ready (term : Z) (l f : log) : Prop := mk_ready {
  re_leader : ordered l;
  re_follower : ordered f;
  re_matching : matching l f;
  re_leader_term : Forall (λ r, leader_epoch r < term) l;
  re_follower_term : Forall (λ r, leader_epoch r < term) f
}.

Lemma matching_sym l f : matching l f → matching f l.
Proof.
  intros Hm i j r r' Hi Hj He. rewrite Nat.min_comm. symmetry. by eapply Hm.
Qed.

(** Whichever of the two leads next. *)
Lemma ready_sym term l f : ready term l f → ready term f l.
Proof. intros []. constructor; try done. by apply matching_sym. Qed.

Lemma ready_leader term l f : ready term l f → leader_log term (size_of l) l.
Proof.
  intros []. constructor; [done| |lia|].
  - intros i r Hi. rewrite Forall_lookup in re_leader_term0. specialize (re_leader_term0 i r Hi). cbn in *. lia.
  - intros i r Hi Hle. apply lookup_lt_Some in Hi. lia.
Qed.

Lemma ready_follower term l f : ready term l f → follower_log term l f.
Proof.
  intros []. rewrite Forall_lookup in re_follower_term0. constructor; try done.
  - intros i r Hi. specialize (re_follower_term0 i r Hi). cbn in *. lia.
  - intros i r Hi He. specialize (re_follower_term0 i r Hi). cbn in *. lia.
Qed.

Section leadership.
Context {W : Type} `{RecordLogLaws W}.
Variable uniform : Z → Z → nat → Z.
Implicit Types p : pair W.

(** The leader has just taken the lead in epoch [term], with log [l], and is not
    connected to its follower, whose log is [f]. *)
Record begins (term : Z) (l f : log) p : Prop := mk_begins {
  be_shows : pair_shows term (catches_up (ldr p)) l f p;
  be_ready : ready term l f;
  be_matches : follower_wal_matches_ (as_leader (ldr p)) = false;
  be_catching : peer_catching_up_ (as_leader (ldr p)) = false;
  be_asked : unanswered_request_ (as_leader (ldr p)) = None;
  be_acked : peer_acked_through_ (as_leader (ldr p)) = 0;
  be_committed : committed_through_ (as_leader (ldr p)) ≤ size_of l;
  be_agrees : agrees (flw p) = false;
  be_down : to_follower p = [];
  be_back : to_leader p = [];
  be_leader_up : ldr_up p = false;
  be_follower_up : flw_up p = false;
  be_closing : closing p = false;
  be_reader : reader p = None
}.

(** Every event of a run is [fine]. *)
Fixpoint fine_run p (es : list event) : Prop :=
  match es with
  | [] => True
  | e :: es =>
      match react uniform p e with
      | Some p' => fine p e p' ∧ fine_run p' es
      | None => True
      end
  end.

(** A pair whose view is sound. *)
Definition kept (term start : Z) (l f : log) p : Prop :=
  pair_shows term (catches_up (ldr p)) l f p ∧
  PairProtocol.sound term start (catches_up (ldr p)) (view_of l f p).

Lemma begins_kept term l f p : begins term l f p → kept term (size_of l) l f p.
Proof.
  intros []. split; [done|]. pose proof (ready_leader _ _ _ be_ready0) as Hl.
  assert (Hb : basic term (size_of l) (catches_up (ldr p)) (view_of l f p)).
  { constructor; cbn; rewrite ?be_matches0, ?be_catching0, ?be_asked0, ?be_acked0, ?be_agrees0,
      ?be_down0, ?be_back0, ?be_leader_up0, ?be_follower_up0, ?be_closing0, ?be_reader0; try done.
    - by apply ready_follower.
    - left. lia. }
  split; [done|]. exists []. split.
  - unfold requests. cbn. by rewrite be_asked0, be_back0.
  - left. constructor; cbn; rewrite ?be_matches0, ?be_catching0, ?be_agrees0, ?be_down0, ?be_back0,
      ?be_reader0; try done; constructor.
Qed.

Lemma react_kept term start l f p e p' :
  kept term start l f p → react uniform p e = Some p' → fine p e p' →
  ∃ l' f', kept term start l' f' p' ∧ l `prefix_of` l' ∧
    ∀ n, held start l f n → held start l' f' n.
Proof.
  intros [Hs Hsound] Hr Hf.
  destruct (react_step uniform term (catches_up (ldr p)) start l f p e p' Hs Hsound Hr Hf) as (l' & f' & Hs' & Hstep).
  destruct (step_sound _ _ _ _ _ Hstep Hsound) as [Hsound' Hheld].
  exists l', f'. split_and!; [unfold kept; by rewrite (sh_thread _ _ _ _ _ Hs')| |done].
  clear -Hstep. unfold view_of in Hstep. by inversion Hstep; subst; try done; apply prefix_app_r.
Qed.

Lemma run_kept term start es : ∀ l f p p',
  kept term start l f p → run uniform p es = Some p' → fine_run p es →
  ∃ l' f', kept term start l' f' p' ∧ l `prefix_of` l' ∧
    ∀ n, held start l f n → held start l' f' n.
Proof.
  induction es as [|e es IH]; intros l f p p' Hk Hrun Hfine; cbn in Hrun, Hfine.
  - injection Hrun as <-. by exists l, f.
  - destruct (react uniform p e) as [p1|] eqn:Hr; [|done]. destruct Hfine as [Hfine Hrest].
    destruct (react_kept _ _ _ _ _ _ _ Hk Hr Hfine) as (l1 & f1 & Hk1 & Hp1 & Hh1).
    destruct (IH _ _ _ _ Hk1 Hrun Hrest) as (l2 & f2 & Hk2 & Hp2 & Hh2).
    exists l2, f2. split_and!; [done|by etrans|auto].
Qed.

(** ** What the leader relies on *)

(** A follower that takes its log to agree has the start of the leader's. *)
Lemma kept_agrees term start l f p :
  kept term start l f p → agrees (flw p) = true → f `prefix_of` l.
Proof.
  intros [_ [_ (gs & _ & [Hlo|Hfo])]] Ha; [|apply Hfo].
  pose proof (lo_agreeing _ _ _ _ Hlo) as Ha'. cbn in Ha'. congruence.
Qed.

(** What a leader that waits counts as acknowledged, its follower holds. *)
Lemma kept_waits term start l f p :
  kept term start l f p → waits_for_follower (ldr p) = true →
  f `prefix_of` l ∧ peer_acked_through_ (as_leader (ldr p)) ≤ size_of f.
Proof.
  intros [_ [Hb (gs & _ & Hmode)]] Hw. unfold waits_for_follower in Hw. bool_to_prop.
  assert (Hm : matches (known_of (as_leader (ldr p))) = true) by done.
  destruct (so_matches _ _ _ _ Hb Hm) as (_ & _ & Hh). cbn in Hh.
  destruct Hmode as [Hlo|[F1 _ _ _ _ [[]|[[]|[]]]]]; cbn in *; try (split; [done|lia]).
  pose proof (lo_matches _ _ _ _ Hlo) as Hm'. cbn in Hm'. congruence.
Qed.

Lemma shares_split l f n : shares l f n → 0 ≤ n ∧ take (Z.to_nat n) f = take (Z.to_nat n) l ∧
  n ≤ size_of f ∧ n ≤ size_of l.
Proof. intros (? & ? & ?). split_and!; [lia|done|lia|lia]. Qed.

(** The logs are such that either instance can lead in a later epoch. *)
Lemma kept_ready term start l f p term' :
  kept term start l f p → term < term' → ready term' l f.
Proof.
  intros [_ [Hb _]] Hlt. destruct (so_leader _ _ _ _ Hb) as [Ho Ht _ _].
  destruct (so_follower _ _ _ _ Hb) as [Hm Ho' Ht' _]. cbn in *. constructor; try done.
  - apply Forall_lookup. intros i r Hi. specialize (Ht i r Hi). lia.
  - apply Forall_lookup. intros i r Hi. specialize (Ht' i r Hi). lia.
Qed.

(** ** What the leader commits *)

(** After no event of the run may the leader commit without its follower. *)
Fixpoint never_alone p (es : list event) : bool :=
  match es with
  | [] => true
  | e :: es =>
      match react uniform p e with
      | Some p' => negb (may_commit_without_follower (ldr p')) && never_alone p' es
      | None => true
      end
  end.

Lemma lead_commits p p1 {A} (m : comp (t W) A) p' :
  lead p1 m = Some p' → as_leader (ldr p1) = as_leader (ldr p) →
  wp m (λ s' _, role_ s' = leader → commits (ldr p1) s') (ldr p1) →
  role_ (ldr p') = leader → commits (ldr p) (ldr p').
Proof.
  intros Hlead Hsame Hm Hr. apply lead_inv in Hlead as (s & a & Hop & ->). cbn in Hr.
  pose proof (Hm _ _ Hop Hr) as Hc. unfold commits in *. cbn. by rewrite Hsame in Hc.
Qed.

Lemma wp_any_role {A} (m : comp (t W) A) s :
  wp m (λ s' _, commits s s') s → wp m (λ s' _, role_ s' = leader → commits s s') s.
Proof. intros Hm. eapply wp_mono; [exact Hm|]. by intros. Qed.

Lemma wp_uncommitted {A} (m : comp (t W) A) s :
  wp m (λ s' _, uncommitted s s') s → wp m (λ s' _, role_ s' = leader → commits s s') s.
Proof. intros Hm. eapply wp_mono; [exact Hm|]. intros s' a Hs _. by apply commits_none. Qed.

Lemma follow_commits p p1 {A} (m : comp (t W) A) p' :
  follow p1 m = Some p' → ldr p1 = ldr p → commits (ldr p) (ldr p').
Proof.
  intros Hf Hsame. apply follow_inv in Hf as (s & a & _ & ->). left. unfold uncommitted. cbn. by rewrite Hsame.
Qed.

Lemma dispatch_message_commits m now s :
  role_ s = leader → (is_Some (request_of m) ∨ ∃ n, m = MAck n) →
  wp (dispatch_message m now) (λ s' _, role_ s' = leader → commits s s') s.
Proof.
  intros Hr Hm. destruct m as [n c|n|n e|r]; cbn in *.
  - by destruct Hm as [[? ?]|[? ?]].
  - apply wp_any_role, handle_ack_commits.
  - apply wp_uncommitted, handle_position_request_uncommitted.
  - by destruct Hm as [[? ?]|[? ?]].
Qed.

Lemma react_commits term start l f p e p' :
  kept term start l f p → react uniform p e = Some p' → role_ (ldr p') = leader →
  commits (ldr p) (ldr p').
Proof.
  intros [Hs [Hb _]] Hr Hrole. pose proof (sh_leads _ _ _ _ _ Hs) as Hl.
  pose proof (so_back _ _ _ _ Hb) as Hback. cbn in Hback.
  assert (Hnone : commits (ldr p) (ldr p)) by by left.
  destruct e; cbn [react] in Hr.
  - eapply lead_commits; [exact Hr|done|apply wp_any_role, append_commits|done].
  - destruct (ldr_up p); [|done]. destruct (to_leader p) as [|m b]; [done|].
    apply Forall_cons in Hback as [Hm _].
    eapply lead_commits; [exact Hr|done|by apply dispatch_message_commits|done].
  - destruct (flw_up p); [|done]. destruct (to_follower p) as [|m d]; [done|].
    by eapply follow_commits.
  - eapply lead_commits; [exact Hr|done|by apply on_lease_tick_commits|done].
  - by eapply follow_commits.
  - eapply lead_commits; [exact Hr|done|apply wp_any_role, on_acknowledgement_watch_commits|done].
  - eapply lead_commits; [exact Hr|done|apply wp_any_role, follower_too_far_behind_commits|done].
  - eapply lead_commits; [exact Hr|done|by apply dispatch_lease_commits|done].
  - by eapply follow_commits.
  - destruct (_ || _); [done|].
    eapply lead_commits; [exact Hr|done|apply wp_uncommitted, leader_up_uncommitted|done].
  - destruct (_ || _); [done|]. by eapply follow_commits.
  - destruct (ldr_up p); [|done].
    eapply lead_commits; [exact Hr|done|apply wp_any_role, on_peer_connection_lost_commits|done].
  - destruct (flw_up p); [|done]. by eapply follow_commits.
  - destruct (reader p) as [[n live]|]; [|done]. destruct (record_at _ _); [|done]. injection Hr as <-.
    left. by destruct (live && _).
  - destruct (reader p) as [[n []]|]; [|done|done]. destruct (stopping p); [done|].
    destruct (n =? _); [|done].
    eapply lead_commits; [exact Hr|done|apply wp_uncommitted, on_peer_caught_up_uncommitted|done].
  - destruct (reader p); [|done]. destruct (stopping p); [|done].
    eapply lead_commits; [exact Hr|done|apply wp_uncommitted, on_peer_catch_up_stopped_uncommitted|done].
  - injection Hr as <-. by left.
  - injection Hr as <-. by left.
  - injection Hr as <-. by left.
  - destruct (flw_up p); by eapply follow_commits.
Qed.

Lemma held_le start l f m n :
  0 ≤ start → held start l f n → m ≤ n → held start l f m.
Proof.
  intros H0' [?|Hs] Hm; [left; lia|]. destruct (decide (m ≤ start)); [by left|].
  right. eapply shares_le; [exact Hs|]. lia.
Qed.

Lemma run_committed term start es : ∀ l f p p',
  kept term start l f p → run uniform p es = Some p' → fine_run p es →
  never_alone p es = true → held start l f (committed_through_ (as_leader (ldr p))) →
  ∃ l' f', kept term start l' f' p' ∧
    held start l' f' (committed_through_ (as_leader (ldr p'))).
Proof.
  induction es as [|e es IH]; intros l f p p' Hk Hrun Hfine Halone Hc; cbn in Hrun, Hfine, Halone.
  - injection Hrun as <-. by exists l, f.
  - destruct (react uniform p e) as [p1|] eqn:Hr; [|done]. destruct Hfine as [Hfine Hrest].
    apply andb_true_iff in Halone as [Hmay Halone]. apply negb_true_iff in Hmay.
    destruct (react_kept _ _ _ _ _ _ _ Hk Hr Hfine) as (l1 & f1 & Hk1 & _ & Hh1).
    apply (IH _ _ _ _ Hk1 Hrun Hrest Halone).
    pose proof (ll_start _ _ _ (so_leader _ _ _ _ (proj1 (proj2 Hk1)))) as H0'.
    destruct (react_commits _ _ _ _ _ _ _ Hk Hr (proj1 Hfine)) as [->|[Hle|Hm]].
    + by apply Hh1.
    + eapply held_le; [lia|apply (so_acked _ _ _ _ (proj1 (proj2 Hk1)))|exact Hle].
    + congruence.
Qed.

End leadership.

(** ** Properties *)

Section properties.
Context {W : Type} `{RecordLogLaws W}.
Variable uniform : Z → Z → nat → Z.

(** C9: Through one leadership, whatever is delivered, lost with a connection,
    asked again, appended or restarted, and whatever the leases say: the
    leader's log only grows; a follower that takes its log to agree has the
    start of the leader's; while the leader waits for its follower, every record
    it counts as acknowledged is in the follower's log as in its own; and the
    two logs are such that either instance can lead in a later epoch.  This is so
    in a fine run: the logs have room, the roles stay, and a follower whose log
    agrees is told of a leader only while nothing it has asked is still to be
    answered.  Where it is told while a request of its is unanswered the late
    answer makes it discard what it has acknowledged
    ([late_reply_discards_committed_records]). *)
Theorem follower_keeps_the_leaders_log term l0 f0 (p : pair W) es p' :
  begins term l0 f0 p → run uniform p es = Some p' → fine_run uniform p es →
  ∃ l f, stores (ldr p') l ∧ stores (flw p') f ∧ l0 `prefix_of` l ∧
    (agrees (flw p') = true → f `prefix_of` l) ∧
    (waits_for_follower (ldr p') = true →
     let n := Z.to_nat (peer_acked_through_ (as_leader (ldr p'))) in
     (n ≤ length f)%nat ∧ take n f = take n l) ∧
    (∀ term', term < term' → ready term' l f ∧ ready term' f l).
Proof.
  intros Hbegins Hrun Hfine.
  destruct (run_kept uniform term (size_of l0) es _ _ _ _ (begins_kept _ _ _ _ Hbegins) Hrun Hfine)
    as (l & f & Hk & Hp & _).
  exists l, f. split_and!; [apply Hk|apply Hk|done| | |].
  - by eapply kept_agrees.
  - intros Hw n. destruct (kept_waits _ _ _ _ _ Hk Hw) as [Hpre Hle].
    split; [lia|]. by apply prefix_take_eq; [|lia].
  - intros term' Hlt. pose proof (kept_ready _ _ _ _ _ _ Hk Hlt). by split; [|apply ready_sym].
Qed.

(** C10: A record the leader wrote in this leadership and has once counted as
    acknowledged stays in the follower's log, as the leader has it, through
    everything that happens after, in a fine run: the logs have room, the roles
    stay, and a follower whose log agrees is told of a leader only while nothing
    it has asked is still to be answered. *)
Theorem acknowledged_records_are_kept term l0 f0 (p : pair W) es1 p1 es2 p2 n :
  begins term l0 f0 p →
  run uniform p es1 = Some p1 → fine_run uniform p es1 →
  n ≤ peer_acked_through_ (as_leader (ldr p1)) → size_of l0 < n →
  run uniform p1 es2 = Some p2 → fine_run uniform p1 es2 →
  ∃ l f, stores (ldr p2) l ∧ stores (flw p2) f ∧ n ≤ size_of f ∧
    take (Z.to_nat n) f = take (Z.to_nat n) l.
Proof.
  intros Hbegins Hrun1 Hfine1 Hn Hnew Hrun2 Hfine2.
  destruct (run_kept uniform term (size_of l0) es1 _ _ _ _ (begins_kept _ _ _ _ Hbegins) Hrun1 Hfine1)
    as (l1 & f1 & Hk1 & _ & _).
  assert (Hheld : held (size_of l0) l1 f1 n).
  { destruct (so_acked _ _ _ _ (proj1 (proj2 Hk1))) as [Hle|Hs]; cbn in *; [lia|].
    right. eapply shares_le; [exact Hs|]. lia. }
  destruct (run_kept uniform term (size_of l0) es2 _ _ _ _ Hk1 Hrun2 Hfine2) as (l2 & f2 & Hk2 & _ & Hh).
  destruct (Hh n Hheld) as [?|Hs]; [lia|].
  destruct (shares_split _ _ _ Hs) as (_ & Heq & Hle & _).
  exists l2, f2. split_and!; [apply Hk2|apply Hk2|lia|done].
Qed.

(** C11: A leader that may not commit without its follower commits only what the
    follower holds: every record committed in such a leadership, past those the
    leader took the lead with, is in the follower's log as in the leader's.  This
    is so in a fine run: the logs have room, the roles stay, and a follower whose
    log agrees is told of a leader only while nothing it has asked is still to be
    answered. *)
Theorem committed_records_are_held term l0 f0 (p : pair W) es p' :
  begins term l0 f0 p → run uniform p es = Some p' → fine_run uniform p es →
  never_alone uniform p es = true →
  let n := committed_through_ (as_leader (ldr p')) in
  ∃ l f, stores (ldr p') l ∧ stores (flw p') f ∧
    (n ≤ size_of l0 ∨
     n ≤ size_of f ∧ take (Z.to_nat n) f = take (Z.to_nat n) l).
Proof.
  intros Hbegins Hrun Hfine Halone n.
  destruct (run_committed uniform term (size_of l0) es _ _ _ _ (begins_kept _ _ _ _ Hbegins) Hrun Hfine Halone)
    as (l & f & Hk & Hheld).
  { left. apply Hbegins. }
  exists l, f. split_and!; [apply Hk|apply Hk|]. destruct Hheld as [?|Hs]; [by left|right].
  by destruct (shares_split _ _ _ Hs) as (_ & ? & ? & _).
Qed.

End properties.

(** ** A leadership, run *)

(** Instance 1 takes the lead in epoch 5, with a record of epoch 1 that
    instance 2 does not hold. *)
Definition new_lead : pair (list WalEntryContents) :=
  default (apart (process 1 1 [own_record]) (process 2 1 []))
    (run shortest_wait (apart (process 1 1 [own_record]) (process 2 1 [])) (elect 5 4000)).

(** It writes two records before the two are connected; the follower asks twice
    where the logs agree, and is sent what it lacks. *)
Definition catching_up : list event :=
  [EAppend 500 [2] 0 4001; EAppend 500 [3] 0 4002;
   ELeaderUp 4100; EFollowerUp 4100; EToFollower 4101;
   EToLeader 4102; EToLeader 4103; EReaderSends; EReaderSends; EReaderSends; EReaderDone;
   EToFollower 4104; EToFollower 4105; EToFollower 4106; EToFollower 4107;
   EFollowerWriter true; EToLeader 4108; EToLeader 4109; EToLeader 4110].

(** A record written while the follower agrees; then the follower restarts. *)
Definition one_more : list event :=
  [EAppend 500 [4] 0 4200; EToFollower 4201; EFollowerWriter true; EToLeader 4202;
   EFollowerRestarts 4300].

Definition after (p : pair (list WalEntryContents)) (es : list event)
    : pair (list WalEntryContents) :=
  default p (run shortest_wait p es).

Lemma new_lead_shows : pair_shows 5 true [own_record] [] new_lead.
Proof.
  assert (Hl : log_epochs_ (ldr new_lead) = LogEpochTable.mk [LogEpochTable.mk_run 1 1] 1)
    by (vm_compute; reflexivity).
  assert (Hf : log_epochs_ (flw new_lead) = LogEpochTable.mk [] 0) by (vm_compute; reflexivity).
  constructor.
  3-14: vm_compute; (reflexivity || discriminate).
  1-2: split; [split; vm_compute; (reflexivity || discriminate)|rewrite ?Hl, ?Hf; split; [|reflexivity]].
  - apply (LogEpochTable.runs_new [] [] 1); [constructor|reflexivity].
  - constructor.
Qed.

Lemma new_lead_begins : begins 5 [own_record] [] new_lead.
Proof.
  constructor; [exact new_lead_shows|constructor|..].
  6-17: vm_compute; (reflexivity || discriminate).
  - intros [|[|?]] [|[|?]] ? ? ? ? ?; cbn in *; simplify_eq; lia.
  - intros ? ? ? ? ? ?. by rewrite lookup_nil.
  - intros ? ? ? ? ?. by rewrite lookup_nil.
  - repeat constructor.
  - constructor.
Qed.

Ltac run_is_fine := vm_compute; repeat split; try discriminate; intros; discriminate.

Lemma follower_keeps_the_leaders_log_witness :
  ∃ l f, stores (ldr (after new_lead (catching_up ++ one_more))) l ∧
    stores (flw (after new_lead (catching_up ++ one_more))) f ∧
    [own_record] `prefix_of` l.
Proof.
  edestruct (follower_keeps_the_leaders_log shortest_wait 5 [own_record] [] new_lead
    (catching_up ++ one_more) (after new_lead (catching_up ++ one_more)))
    as (l & f & Hl & Hf & Hp & _).
  - exact new_lead_begins.
  - vm_compute. reflexivity.
  - run_is_fine.
  - exists l, f. by split_and!.
Defined.

Lemma acknowledged_records_are_kept_witness :
  ∃ l f, stores (ldr (after new_lead (catching_up ++ one_more))) l ∧
    stores (flw (after new_lead (catching_up ++ one_more))) f ∧ 3 ≤ size_of f ∧
    take 3 f = take 3 l.
Proof.
  apply (acknowledged_records_are_kept shortest_wait 5 [own_record] [] new_lead
    catching_up (after new_lead catching_up) one_more
    (after new_lead (catching_up ++ one_more)) 3).
  - exact new_lead_begins.
  - vm_compute. reflexivity.
  - run_is_fine.
  - vm_compute. discriminate.
  - vm_compute. reflexivity.
  - vm_compute. reflexivity.
  - run_is_fine.
Defined.

Lemma committed_records_are_held_witness :
  ∃ l f, stores (ldr (after new_lead (catching_up ++ one_more))) l ∧
    stores (flw (after new_lead (catching_up ++ one_more))) f ∧
    (4 ≤ size_of [own_record] ∨ 4 ≤ size_of f ∧ take 4 f = take 4 l).
Proof.
  apply (committed_records_are_held shortest_wait 5 [own_record] [] new_lead
    (catching_up ++ one_more) (after new_lead (catching_up ++ one_more))).
  - exact new_lead_begins.
  - vm_compute. reflexivity.
  - run_is_fine.
  - vm_compute. reflexivity.
Defined.
