(* ===== verification/RingBuffer.v ===== *)
(** A queue of fixed capacity: pubsub_itc_fw/FixedCapacityRingBuffer.hpp.

    A slot is [None] while no element exists in it: before one is constructed
    there and after it is destroyed.  Constructing over an element, destroying
    or reading a slot that has none, and leaving the storage are undefined.  The
    theorems show that none of them happens, and that the buffer is a queue that
    refuses an element when it is full. *)

From S2P Require Import Prelude.
#[local] Open Scope Z_scope.
#[local] Open Scope venue_scope.

Module RingBuffer.

Section ring.
Context {T : Type}.

Record t := mk {
  slots_ : list (option T);
  capacity_ : Z;
  front_ : Z;
  size_ : Z
}.

Definition make (capacity : Z) : outcome t :=
  if capacity =? 0 then Throws PreconditionAssertion
  else Returns (mk (replicate (Z.to_nat capacity) None) capacity 0 0).

Definition size (r : t) : Z := size_ r.
Definition capacity (r : t) : Z := capacity_ r.
Definition empty (r : t) : bool := size_ r =? 0.
Definition full (r : t) : bool := size_ r =? capacity_ r.

Definition index_after_front (r : t) (offset : Z) : Z :=
  let index := front_ r + offset in
  if capacity_ r <=? index then index - capacity_ r else index.

(** [new (slots_ + index) T(value)]. *)
Definition construct_at (index : Z) (value : T) : comp t unit := λ r,
  match slots_ r !! Z.to_nat index with
  | Some None =>
      (mk (<[Z.to_nat index := Some value]> (slots_ r)) (capacity_ r) (front_ r) (size_ r),
       Returns ())
  | _ => (r, Throws UndefinedBehaviour)
  end.

(** [slots_[index].~T()]. *)
Definition destroy_at (index : Z) : comp t T := λ r,
  match slots_ r !! Z.to_nat index with
  | Some (Some value) =>
      (mk (<[Z.to_nat index := None]> (slots_ r)) (capacity_ r) (front_ r) (size_ r),
       Returns value)
  | _ => (r, Throws UndefinedBehaviour)
  end.

Definition emplace_back (value : T) : comp t bool := λ r,
  if full r then (r, Returns false)
  else (construct_at (index_after_front r (size_ r)) value ;;
        modify (λ r, mk (slots_ r) (capacity_ r) (front_ r) (size_ r + 1)) ;;
        mret true) r.

Definition push_back (value : T) : comp t bool := emplace_back value.

Definition destroy_front : comp t T := λ r,
  (value ← destroy_at (front_ r);
   modify (λ r, mk (slots_ r) (capacity_ r) (index_after_front r 1) (size_ r - 1)) ;;
   mret value) r.

Definition pop_front : comp t unit := λ r,
  if empty r then (r, Throws PreconditionAssertion)
  else (destroy_front ;; mret ()) r.

Definition front (r : t) : outcome T :=
  if empty r then Throws PreconditionAssertion
  else match slots_ r !! Z.to_nat (front_ r) with
       | Some (Some value) => Returns value
       | _ => Throws UndefinedBehaviour
       end.

(** The elements destroyed, oldest first. *)
Fixpoint destroy_all (turns : nat) : comp t (list T) := λ r,
  if 0 <? size_ r then
    match turns with
    | O => (r, Throws DoesNotReturn)
    | S turns =>
        (value ← destroy_front;
         rest ← destroy_all turns;
         mret (value :: rest)) r
    end
  else (r, Returns []).

(** [release_storage] of a buffer that has storage. *)
Definition release_storage : comp t (list T) := λ r,
  destroy_all (Z.to_nat (size_ r)) r.

(** ** The queue a buffer holds *)

Record holds (r : t) (l : list T) : Prop := mk_holds {
  ho_capacity : 1 ≤ capacity_ r;
  ho_slots : Z.of_nat (length (slots_ r)) = capacity_ r;
  ho_front : 0 ≤ front_ r < capacity_ r;
  ho_size : size_ r = Z.of_nat (length l);
  ho_fits : size_ r ≤ capacity_ r;
  ho_each (i : nat) : Z.of_nat i < capacity_ r →
    slots_ r !! Z.to_nat (index_after_front r (Z.of_nat i)) = Some (l !! i)
}.

Lemma make_holds c : 0 < c → ∃ r, make c = Returns r ∧ holds r [] ∧ capacity r = c.
Proof.
  intros Hc. unfold make. destruct (Z.eqb_spec c 0); [lia|]. eexists. split; [done|].
  split; [|done]. constructor; cbn; rewrite ?length_replicate; try lia.
  intros i Hi. rewrite lookup_nil. apply lookup_replicate_2.
  unfold index_after_front. cbn [front_ capacity_]. destruct (Z.leb_spec c (0 + Z.of_nat i)); lia.
Qed.

Lemma empty_holds r l : holds r l → empty r = bool_decide (l = []).
Proof.
  intros []. unfold empty. rewrite ho_size0. by destruct l.
Qed.

Lemma full_holds r l : holds r l → full r = (Z.of_nat (length l) =? capacity r).
Proof. intros []. unfold full. by rewrite ho_size0. Qed.

Lemma size_holds r l : holds r l → size r = Z.of_nat (length l).
Proof. by intros []. Qed.

Lemma length_holds r l : holds r l → Z.of_nat (length l) ≤ capacity r.
Proof. intros []. unfold capacity. lia. Qed.

Lemma index_bounds r l i :
  holds r l → 0 ≤ i < capacity_ r →
  0 ≤ index_after_front r i < capacity_ r.
Proof. intros [] Hi. unfold index_after_front. split_ifs; lia. Qed.

Lemma index_inj r l i j :
  holds r l → 0 ≤ i < capacity_ r → 0 ≤ j < capacity_ r →
  index_after_front r i = index_after_front r j → i = j.
Proof. intros [] Hi Hj. unfold index_after_front. split_ifs; lia. Qed.

Lemma push_back_holds r l v :
  holds r l → Z.of_nat (length l) < capacity r →
  ∃ r', push_back v r = (r', Returns true) ∧ holds r' (l ++ [v]) ∧ capacity r' = capacity r.
Proof.
  intros Hh Hlt. unfold push_back, emplace_back. rewrite (full_holds _ _ Hh).
  destruct (Z.eqb_spec (Z.of_nat (length l)) (capacity r)); [lia|].
  pose proof Hh as []. unfold capacity in *.
  pose proof (index_bounds _ _ (size_ r) Hh ltac:(lia)) as Hb.
  assert (Hs : slots_ r !! Z.to_nat (index_after_front r (size_ r)) = Some None).
  { rewrite ho_size0, ho_each0 by lia. by rewrite lookup_ge_None_2. }
  unfold mbind, comp_bind, construct_at. rewrite Hs. eexists. split; [done|]. split; [|done].
  constructor; cbn; rewrite ?length_insert, ?length_app; cbn; try lia.
  intros i Hi. change (index_after_front (mk _ _ _ _) ?x) with (index_after_front r x).
  destruct (decide (Z.of_nat i = size_ r)) as [He|Hne].
  - rewrite He, list_lookup_insert_eq by lia.
    rewrite lookup_app_r by lia. by replace (i - length l)%nat with O by lia.
  - rewrite list_lookup_insert_ne.
    + rewrite ho_each0 by done. f_equal. destruct (decide (i < length l)%nat).
      * by rewrite lookup_app_l.
      * rewrite !lookup_ge_None_2; [done| |]; rewrite ?length_app; cbn; lia.
    + intros He. pose proof (index_bounds _ _ (Z.of_nat i) Hh ltac:(lia)).
      pose proof (index_inj _ _ (size_ r) (Z.of_nat i) Hh). lia.
Qed.

Lemma push_back_full r l v :
  holds r l → Z.of_nat (length l) = capacity r → push_back v r = (r, Returns false).
Proof.
  intros Hh He. unfold push_back, emplace_back.
  by rewrite (full_holds _ _ Hh), He, Z.eqb_refl.
Qed.

Lemma front_holds r x l : holds r (x :: l) → front r = Returns x.
Proof.
  intros Hh. unfold front. rewrite (empty_holds _ _ Hh), bool_decide_false by done.
  destruct Hh. specialize (ho_each0 0%nat ltac:(lia)). unfold index_after_front in *.
  rewrite Z.add_0_r in ho_each0. destruct (Z.leb_spec (capacity_ r) (front_ r)); [lia|].
  by rewrite ho_each0.
Qed.

Lemma destroy_front_holds r x l :
  holds r (x :: l) →
  ∃ r', destroy_front r = (r', Returns x) ∧ holds r' l ∧ capacity r' = capacity r.
Proof.
  intros Hh. pose proof Hh as []. cbn in *.
  unfold destroy_front, mbind, comp_bind, destroy_at.
  pose proof (ho_each0 0%nat ltac:(lia)) as H0. unfold index_after_front in H0.
  rewrite Z.add_0_r in H0. destruct (Z.leb_spec (capacity_ r) (front_ r)); [lia|].
  rewrite H0. eexists. split; [done|]. split; [|done].
  assert (Hi1 : 0 ≤ index_after_front r 1 < capacity_ r)
    by (unfold index_after_front; split_ifs; lia).
  constructor; cbn; rewrite ?length_insert; try lia; [done|].
  intros i Hi. set (k := index_after_front (mk _ _ _ _) _).
  destruct (decide (Z.of_nat i + 1 = capacity_ r)) as [He|Hne].
  - assert (k = front_ r) as -> by (subst k; unfold index_after_front; cbn; split_ifs; lia).
    rewrite list_lookup_insert_eq by lia. by rewrite lookup_ge_None_2 by lia.
  - assert (k = index_after_front r (Z.of_nat (S i))) as ->
      by (subst k; unfold index_after_front; cbn [front_ capacity_]; split_ifs; lia).
    rewrite list_lookup_insert_ne by (unfold index_after_front; split_ifs; lia).
    by rewrite ho_each0 by lia.
Qed.

Lemma pop_front_holds r x l :
  holds r (x :: l) →
  ∃ r', pop_front r = (r', Returns ()) ∧ holds r' l ∧ capacity r' = capacity r.
Proof.
  intros Hh. destruct (destroy_front_holds _ _ _ Hh) as (r' & Hd & Hh' & Hc).
  exists r'. split; [|done]. unfold pop_front.
  rewrite (empty_holds _ _ Hh), bool_decide_false by done.
  by rewrite (bind_returns _ _ _ _ _ Hd).
Qed.

Lemma destroy_all_holds r l n :
  holds r l → (length l ≤ n)%nat →
  ∃ r', destroy_all n r = (r', Returns l) ∧ holds r' [].
Proof.
  intros Hh. revert r n Hh. induction l as [|x l IH]; intros r n Hh Hn.
  - exists r. split; [|done]. pose proof (ho_size _ _ Hh) as Hs. by destruct n; cbn; rewrite Hs.
  - destruct n as [|n]; cbn in Hn; [lia|].
    destruct (destroy_front_holds _ _ _ Hh) as (r1 & Hd & Hh1 & _).
    destruct (IH r1 n Hh1 ltac:(lia)) as (r' & Hall & Hh').
    exists r'. split; [|done]. cbn [destroy_all]. rewrite (ho_size _ _ Hh).
    destruct (Z.ltb_spec 0 (Z.of_nat (length (x :: l)))); [|cbn in *; lia].
    by rewrite (bind_returns _ _ _ _ _ Hd), (bind_returns _ _ _ _ _ Hall).
Qed.

End ring.
Arguments t : clear implicits.
End RingBuffer.
