(* ===== verification/ByteArena.v ===== *)
(** Copies laid one after another in a block of bytes that is used round and
    round, as KeptReportStore.hpp and ReportsHeldForUnknownSessions.hpp lay them:
    where they lie, what giving up the oldest leaves, and that writing where
    there is room changes none of them. *)

From S2P Require Import Prelude.
From S2P Require Import WalEntry.
#[local] Open Scope Z_scope.

(** ** Reading and writing a block *)

Lemma size_splice block at_ bytes :
  0 ≤ at_ → at_ + size bytes ≤ size block → size (splice block at_ bytes) = size block.
Proof.
  intros H0 Hle. unfold splice, size in *.
  rewrite !length_app, length_take, length_drop. lia.
Qed.

Lemma slice_splice_same block at_ bytes :
  0 ≤ at_ → at_ + size bytes ≤ size block →
  slice (splice block at_ bytes) at_ (size bytes) = bytes.
Proof.
  intros H0 Hle. unfold splice. apply slice_at; [|done].
  unfold size in *. rewrite length_take. lia.
Qed.

Lemma slice_splice_other block at_ bytes o n :
  0 ≤ at_ → 0 ≤ o → at_ + size bytes ≤ size block → o + n ≤ size block →
  o + n ≤ at_ ∨ at_ + size bytes ≤ o →
  slice (splice block at_ bytes) o n = slice block o n.
Proof.
  intros H0 Ho Hle Hle' Hd. unfold slice, splice, size in *.
  destruct (decide (0 < n)); [|by rewrite !Z2Nat.nonpos by lia]. destruct Hd.
  - rewrite drop_app_le by (rewrite length_take; lia).
    rewrite take_app_le by (rewrite length_drop, length_take; lia).
    rewrite !take_drop_commute, take_take. do 2 f_equal. lia.
  - rewrite drop_app_ge by (rewrite length_take; lia).
    rewrite drop_app_ge by (rewrite length_take; lia).
    rewrite drop_drop. do 2 f_equal. rewrite length_take. lia.
Qed.

(** ** Where copies lie *)

Record span := mk_span { span_at : Z; span_size : Z }.

(** One after another, from one position to another. *)
Fixpoint adjacent (from : Z) (spans : list span) (to : Z) : Prop :=
  match spans with
  | [] => from = to
  | s :: spans => span_at s = from ∧ 0 ≤ span_size s ∧ adjacent (from + span_size s) spans to
  end.

Fixpoint total (spans : list span) : Z :=
  match spans with
  | [] => 0
  | s :: spans => span_size s + total spans
  end.

Lemma total_app xs ys : total (xs ++ ys) = total xs + total ys.
Proof. induction xs as [|x xs IH]; cbn; lia. Qed.

Lemma adjacent_total from spans to : adjacent from spans to → to = from + total spans.
Proof.
  revert from. induction spans as [|s spans IH]; intros from; cbn; [lia|].
  intros (_ & ? & Ha). apply IH in Ha. lia.
Qed.

Lemma adjacent_nonneg from spans to : adjacent from spans to → 0 ≤ total spans.
Proof.
  revert from. induction spans as [|s spans IH]; intros from; cbn; [done|].
  intros (_ & ? & Ha). apply IH in Ha. lia.
Qed.

Lemma adjacent_snoc from spans to n :
  adjacent from spans to → 0 ≤ n → adjacent from (spans ++ [mk_span to n]) (to + n).
Proof.
  revert from. induction spans as [|s spans IH]; intros from; cbn; [by intros ->|].
  intros (? & ? & Ha) Hn. auto.
Qed.

Lemma adjacent_each from spans to :
  adjacent from spans to →
  Forall (λ s, from ≤ span_at s ∧ 0 ≤ span_size s ∧ span_at s + span_size s ≤ to) spans.
Proof.
  revert from. induction spans as [|s spans IH]; intros from; cbn; [done|].
  intros (He & Hs & Ha). pose proof (adjacent_total _ _ _ Ha). pose proof (adjacent_nonneg _ _ _ Ha).
  constructor; [lia|]. eapply Forall_impl; [by apply IH|]. cbn. lia.
Qed.

(** In a block of [cap] bytes, oldest first: in one stretch that ends at [next],
    or in two, of which the younger starts at the start of the block.  What is
    left unused at the end of the block is less than [most]. *)
Inductive laid_out (cap most next : Z) : bool → list span → Prop :=
  | laid_nothing : next = 0 → laid_out cap most next false []
  | laid_one from s spans :
      0 ≤ from → next ≤ cap → adjacent from (s :: spans) next →
      laid_out cap most next false (s :: spans)
  | laid_two from a older end_ b younger :
      next ≤ from → 1 ≤ next → end_ ≤ cap → cap - end_ < most →
      adjacent from (a :: older) end_ → adjacent 0 (b :: younger) next →
      laid_out cap most next true ((a :: older) ++ b :: younger).

Section arena.
Variables (cap most : Z).
Hypothesis Hcap : 0 ≤ cap.
Abbreviation laid := (laid_out cap most).

Lemma laid_each next w spans :
  laid next w spans →
  0 ≤ next ≤ cap ∧ Forall (λ s, 0 ≤ span_at s ∧ 0 ≤ span_size s ∧ span_at s + span_size s ≤ cap) spans.
Proof.
  intros [->|from s rest H0 Hle Ha|from a older end_ b younger H1 H2 H3 H4 Ha Hb]; [done|..].
  - pose proof (adjacent_total _ _ _ Ha). pose proof (adjacent_nonneg _ _ _ Ha). split; [lia|].
    eapply Forall_impl; [by eapply adjacent_each|]. cbn. lia.
  - pose proof (adjacent_total _ _ _ Ha). pose proof (adjacent_nonneg _ _ _ Ha). split; [lia|].
    apply Forall_app. split; (eapply Forall_impl; [by eapply adjacent_each|]); cbn; lia.
Qed.

Lemma laid_total next w spans : laid next w spans → 0 ≤ total spans ≤ cap.
Proof.
  intros [->|from s rest H0 Hle Ha|from a older end_ b younger H1 H2 H3 H4 Ha Hb]; [done|..].
  - pose proof (adjacent_total _ _ _ Ha). pose proof (adjacent_nonneg _ _ _ Ha). lia.
  - pose proof (adjacent_total _ _ _ Ha). pose proof (adjacent_nonneg _ _ _ Ha).
    pose proof (adjacent_total _ _ _ Hb). pose proof (adjacent_nonneg _ _ _ Hb).
    rewrite total_app. lia.
Qed.

(** The oldest given up. *)
Definition next_after_discard (next : Z) (rest : list span) : Z :=
  match rest with [] => 0 | _ => next end.

Definition wrapped_after_discard (w : bool) (s : span) (rest : list span) : bool :=
  match rest with
  | [] => false
  | s' :: _ => if w && (span_at s' <? span_at s) then false else w
  end.

Lemma laid_discard next w s rest :
  laid next w (s :: rest) →
  laid (next_after_discard next rest) (wrapped_after_discard w s rest) rest.
Proof.
  inversion 1 as [|from ? ? H0 Hle Ha|from a older end_ b younger H1 H2 H3 H4 Ha Hb]; subst.
  - destruct rest as [|s' rest]; [by constructor|]. cbn in Ha.
    destruct Ha as (Hs & ? & Hs' & ? & Ha). cbn. econstructor; [|done|]; [|cbn; eauto]. lia.
  - cbn in Ha. destruct Ha as (Hat & Hn & Ha). destruct older as [|a' older]; cbn [app].
    + cbn in Hb. destruct Hb as (Hb0 & Hbn & Hb). cbn.
      destruct (Z.ltb_spec (span_at b) (span_at s)); [|lia].
      pose proof (adjacent_total _ _ _ Ha). apply (laid_one _ _ _ 0); [done| |by cbn]. cbn in *. lia.
    + cbn in Ha. destruct Ha as (Hat' & Hn' & Ha). cbn.
      destruct (Z.ltb_spec (span_at a') (span_at s)); [lia|].
      eapply (laid_two _ _ _ (from + span_size s) a' older); eauto; [lia|by cbn].
Qed.

(** Where a copy of [n] bytes goes, after a copy whose place is [s]. *)
Definition place (next : Z) (w : bool) (s : span) (n : Z) : option (Z * bool) :=
  if w then if n <=? span_at s - next then Some (next, true) else None
  else if n <=? cap - next then Some (next, false)
  else if n <=? span_at s then Some (0, true)
  else None.

Definition apart_from (o n : Z) (s : span) : Prop :=
  span_at s + span_size s ≤ o ∨ o + n ≤ span_at s.

Lemma laid_place next w s rest n o w' :
  laid next w (s :: rest) → 0 ≤ n ≤ most → place next w s n = Some (o, w') →
  laid (o + n) w' ((s :: rest) ++ [mk_span o n]) ∧ 0 ≤ o ∧ o + n ≤ cap ∧
  Forall (apart_from o n) (s :: rest).
Proof.
  inversion 1 as [|from ? ? H0 Hle Ha|from a older end_ b younger H1 H2 H3 H4 Ha Hb]; subst;
    intros [Hn Hm]; unfold place.
  - pose proof (adjacent_total _ _ _ Ha). pose proof (adjacent_nonneg _ _ _ Ha).
    destruct (Z.leb_spec n (cap - next)); [intros [= <- <-]|].
    + split_and!; [|lia..|].
      * eapply (laid_one _ _ _ from); [done|lia|]. apply (adjacent_snoc from (s :: rest)); [done|lia].
      * eapply Forall_impl; [by eapply adjacent_each|]. unfold apart_from. cbn. lia.
    + pose proof (proj1 Ha) as Hat. destruct (Z.leb_spec n (span_at s)); [intros [= <- <-]|done].
      assert (n ≤ cap) by lia. split_and!; [|lia..|].
      * eapply (laid_two _ _ _ from s rest next (mk_span 0 n) []); [lia..|done|]. by cbn.
      * eapply Forall_impl; [by eapply adjacent_each|]. unfold apart_from. cbn. lia.
  - pose proof (adjacent_total _ _ _ Ha). pose proof (adjacent_nonneg _ _ _ Ha).
    pose proof (proj1 Ha) as Hat. destruct (Z.leb_spec n (span_at s - next)); [intros [= <- <-]|done].
    split_and!; [|lia..|].
    + change ((s :: older ++ b :: younger) ++ ?x) with (((s :: older) ++ b :: younger) ++ x).
      rewrite <- app_assoc. eapply (laid_two _ _ _ from s older end_ b (younger ++ [mk_span next n])); eauto; [lia|lia|].
      apply (adjacent_snoc 0 (b :: younger)); [done|lia].
    + apply (Forall_app _ (s :: older) (b :: younger)). split.
      * eapply Forall_impl; [by eapply adjacent_each|]. unfold apart_from. cbn. lia.
      * eapply Forall_impl; [by eapply adjacent_each|]. unfold apart_from. cbn. lia.
Qed.

(** There is room while the copies leave room for two of the largest. *)
Lemma no_place_full next w s rest n :
  laid next w (s :: rest) → n ≤ most → place next w s n = None →
  cap < total (s :: rest) + 2 * most.
Proof.
  inversion 1 as [|from ? ? H0 Hle Ha|from a older end_ b younger H1 H2 H3 H4 Ha Hb]; subst;
    intros Hn; unfold place; pose proof (proj1 Ha) as Hat; pose proof (adjacent_total _ _ _ Ha).
  - destruct (Z.leb_spec n (cap - next)); [done|].
    destruct (Z.leb_spec n (span_at s)); [done|]. intros _. lia.
  - destruct (Z.leb_spec n (span_at s - next)); [done|]. intros _.
    pose proof (adjacent_total _ _ _ Hb).
    change (s :: older ++ b :: younger) with ((s :: older) ++ b :: younger).
    rewrite total_app. lia.
Qed.

Lemma laid_fresh n : 0 ≤ n ≤ cap → laid n false [mk_span 0 n].
Proof. intros [H0 Hn]. apply (laid_one _ _ _ 0); [done|lia|]. by cbn. Qed.

Lemma laid_empty next w : laid next w [] → next = 0 ∧ w = false.
Proof. by inversion 1. Qed.

End arena.

(** What each copy reads as in a block. *)
Definition reads (block : list Z) (s : span) (bytes : list Z) : Prop :=
  slice block (span_at s) (span_size s) = bytes ∧ size bytes = span_size s.

Lemma reads_kept block o bytes spans datas :
  0 ≤ o → o + size bytes ≤ size block →
  Forall (λ s, 0 ≤ span_at s ∧ 0 ≤ span_size s ∧ span_at s + span_size s ≤ size block) spans →
  Forall (apart_from o (size bytes)) spans →
  Forall2 (reads block) spans datas → Forall2 (reads (splice block o bytes)) spans datas.
Proof.
  intros H0 Hle Hin Hap HF. induction HF as [|s d spans datas [Hr Hs] HF IH]; [done|].
  apply Forall_cons in Hin as [Hin1 Hin], Hap as [Hap1 Hap].
  constructor; [|auto]. split; [|done].
  rewrite slice_splice_other; [done|lia..|]. unfold apart_from in Hap1. lia.
Qed.
