(* ===== verification/KeptReportStore.v ===== *)
(** The copies of reports a sequencer keeps while it does not lead:
    sequencer/EngineReportPosition.hpp, sequencer/KeptReportStore.hpp.

    A time point is a number of nanoseconds.  Differences of sizes are computed
    modulo 2^64, as the code's are, and a copy written or read outside the block
    is undefined. *)

From S2P Require Import Prelude.
From S2P Require Import WalEntry.
From S2P Require Import RingBuffer.
From S2P Require Import ByteArena.
#[local] Open Scope Z_scope.

Module EngineReportPosition.

Record t := mk { epoch : Z; number : Z }.

#[export] Instance t_eq_dec : EqDecision t.
Proof. solve_decision. Defined.

Definition is_before_or_at (p other : t) : bool :=
  (epoch p <? epoch other) || ((epoch p =? epoch other) && (number p <=? number other)).

Definition is_after (p other : t) : bool := negb (is_before_or_at p other).

Definition just_before (p : t) : t := mk (epoch p) (number p - 1).

Lemma before_or_at_trans a b c :
  is_before_or_at a b = true → is_before_or_at b c = true → is_before_or_at a c = true.
Proof.
  unfold is_before_or_at. rewrite !orb_true_iff, !andb_true_iff, !Z.ltb_lt, !Z.eqb_eq, !Z.leb_le. lia.
Qed.

Lemma before_or_at_total a b : is_before_or_at a b = true ∨ is_before_or_at b a = true.
Proof.
  unfold is_before_or_at. rewrite !orb_true_iff, !andb_true_iff, !Z.ltb_lt, !Z.eqb_eq, !Z.leb_le. lia.
Qed.

End EngineReportPosition.

Module KeptReportStore.

Record Entry := mk_entry {
  offset : Z;
  entry_size : Z;
  seq_no : Z;
  received_at : Z;
  position : option EngineReportPosition.t
}.

Record t := mk {
  bytes_ : list Z;
  entries_ : RingBuffer.t Entry;
  next_offset_ : Z;
  bytes_used_ : Z;
  wrapped_ : bool;
  lost_ : Z
}.

Definition make (capacity_bytes capacity_reports : Z) : outcome t :=
  obind (RingBuffer.make capacity_reports) (λ entries,
  if capacity_bytes =? 0 then Throws PreconditionAssertion
  else Returns (mk (replicate (Z.to_nat capacity_bytes) 0) entries 0 0 false 0)).

Definition with_next s n := mk (bytes_ s) (entries_ s) n (bytes_used_ s) (wrapped_ s) (lost_ s).
Definition with_used s n := mk (bytes_ s) (entries_ s) (next_offset_ s) n (wrapped_ s) (lost_ s).
Definition with_wrapped s w := mk (bytes_ s) (entries_ s) (next_offset_ s) (bytes_used_ s) w (lost_ s).
Definition with_lost s n := mk (bytes_ s) (entries_ s) (next_offset_ s) (bytes_used_ s) (wrapped_ s) n.
Definition with_bytes s b := mk b (entries_ s) (next_offset_ s) (bytes_used_ s) (wrapped_ s) (lost_ s).
Definition with_entries s r := mk (bytes_ s) r (next_offset_ s) (bytes_used_ s) (wrapped_ s) (lost_ s).

(** A member function of [entries_]. *)
Definition on_entries {A} (m : comp (RingBuffer.t Entry) A) : comp t A := λ s,
  let r := m (entries_ s) in (with_entries s r.1, r.2).

Definition empty (s : t) : bool := RingBuffer.empty (entries_ s).
Definition oldest : comp t Entry := ask (λ s, RingBuffer.front (entries_ s)).

Definition count (s : t) : Z := RingBuffer.size (entries_ s).
Definition bytes_used (s : t) : Z := bytes_used_ s.
Definition lost (s : t) : Z := lost_ s.

Definition discard_oldest : comp t unit :=
  front ← oldest;
  modify (λ s, with_used s (wrap64 (bytes_used_ s - entry_size front))) ;;
  on_entries RingBuffer.pop_front ;;
  now_empty ← gets empty;
  if (now_empty : bool) then
    modify (λ s, with_wrapped (with_next s 0) false)
  else
    next ← oldest;
    modify (λ s, if wrapped_ s && (offset next <? offset front)
                 then with_wrapped s false else s).

(** Where a copy of [n] bytes can be written, and whether the copies then lie in
    two stretches. *)
Definition free_place (s : t) (front : Entry) (n : Z) : option (Z * bool) :=
  if RingBuffer.full (entries_ s) then None
  else if wrapped_ s then
    if n <=? wrap64 (offset front - next_offset_ s) then Some (next_offset_ s, true) else None
  else if n <=? wrap64 (size (bytes_ s) - next_offset_ s) then Some (next_offset_ s, false)
  else if n <=? offset front then Some (0, true)
  else None.

(** Each turn but the last gives up a copy. *)
Fixpoint make_room (turns : nat) (n needed_from : Z) : comp t Z := λ s,
  if empty s then (modify (λ s, with_wrapped (with_next s 0) false) ;; mret 0) s
  else
    (front ← oldest;
     match free_place s front n with
     | Some (at_, wrapped) => modify (λ s, with_wrapped s wrapped) ;; mret at_
     | None =>
         modify (λ s, if needed_from <=? received_at front then with_lost s (lost_ s + 1) else s) ;;
         discard_oldest ;;
         match turns with
         | O => throw DoesNotReturn
         | S turns => make_room turns n needed_from
         end
     end) s.

(** [memcpy] into the block. *)
Definition copy_in (at_ : Z) (bytes : list Z) : comp t unit := λ s,
  if at_ + size bytes <=? size (bytes_ s)
  then (with_bytes s (splice (bytes_ s) at_ bytes), Returns ())
  else (s, Throws UndefinedBehaviour).

Definition keep (seq_no : Z) (bytes : list Z) (received_at needed_from : Z)
    (position : option EngineReportPosition.t) : comp t unit := λ s,
  if size (bytes_ s) <? size bytes then (with_lost s (lost_ s + 1), Returns ())
  else
    (at_ ← make_room (Z.to_nat (count s)) (size bytes) needed_from;
     copy_in at_ bytes ;;
     on_entries (RingBuffer.push_back (mk_entry at_ (size bytes) seq_no received_at position)) ;;
     modify (λ s, with_used (with_next s (at_ + size bytes)) (wrap64 (bytes_used_ s + size bytes)))) s.

(** [while (!empty() && gives_up(front)) discard_oldest()]: how many. *)
Fixpoint discard_while (turns : nat) (gives_up : Entry → bool) : comp t Z := λ s,
  if empty s then (s, Returns 0)
  else
    (front ← oldest;
     if gives_up front then
       discard_oldest ;;
       match turns with
       | O => throw DoesNotReturn
       | S turns => n ← discard_while turns gives_up; mret (n + 1)
       end
     else mret 0) s.

Definition discard_received_before (cutoff : Z) : comp t unit := λ s,
  (discard_while (Z.to_nat (count s)) (λ e, received_at e <? cutoff) ;; mret ()) s.

Definition forwarded (through : EngineReportPosition.t) (e : option EngineReportPosition.t) : bool :=
  match e with
  | Some p => EngineReportPosition.is_before_or_at p through
  | None => false
  end.

Definition discard_through (forwarded_through : EngineReportPosition.t) : comp t Z := λ s,
  discard_while (Z.to_nat (count s)) (λ e, forwarded forwarded_through (position e)) s.

(** What [visit] is given. *)
Definition visited (e : Entry) : comp t (Z * list Z) := λ s,
  if offset e + entry_size e <=? size (bytes_ s)
  then (s, Returns (seq_no e, slice (bytes_ s) (offset e) (entry_size e)))
  else (s, Throws UndefinedBehaviour).

Fixpoint take_loop (turns : nat) : comp t (list (Z * list Z)) := λ s,
  if empty s then (s, Returns [])
  else
    (front ← oldest;
     given ← visited front;
     discard_oldest ;;
     match turns with
     | O => throw DoesNotReturn
     | S turns => rest ← take_loop turns; mret (given :: rest)
     end) s.

Definition take_all : comp t (list (Z * list Z)) := λ s, take_loop (Z.to_nat (count s)) s.

(** ** The copies a store holds *)

Record copy := mk_copy {
  copy_seq_no : Z;
  copy_bytes : list Z;
  copy_received_at : Z;
  copy_position : option EngineReportPosition.t
}.

Definition span_of (e : Entry) : span := mk_span (offset e) (entry_size e).

Definition copy_of (block : list Z) (e : Entry) : copy :=
  mk_copy (seq_no e) (slice block (offset e) (entry_size e)) (received_at e) (position e).

Section store.
(** A block of [cap] bytes and [slots] entries, and copies of at most [most]
    bytes. *)
Variables (cap slots most : Z).
Hypotheses (Hcap : 0 < cap < 2 ^ 64) (Hslots : 0 < slots).

Record inv (s : t) (es : list Entry) : Prop := mk_inv {
  in_entries : RingBuffer.holds (entries_ s) es;
  in_slots : RingBuffer.capacity (entries_ s) = slots;
  in_laid : laid_out cap most (next_offset_ s) (wrapped_ s) (span_of <$> es);
  in_used : bytes_used_ s = total (span_of <$> es);
  in_block : size (bytes_ s) = cap
}.

Definition crowded (es : list Entry) : Prop :=
  Z.of_nat (length es) = slots ∨ cap < total (span_of <$> es) + 2 * most.

Definition needed_among (needed_from : Z) (es : list Entry) : Z :=
  Z.of_nat (length (filter (λ e, needed_from ≤ received_at e) es)).

Lemma oldest_inv s e es Q :
  inv s (e :: es) → Q s e → returns oldest s Q.
Proof.
  intros Hi HQ. unfold returns, oldest, ask. by rewrite (RingBuffer.front_holds _ _ _ (in_entries _ _ Hi)).
Qed.

Lemma empty_inv s es : inv s es → empty s = bool_decide (es = []).
Proof. intros Hi. apply RingBuffer.empty_holds, Hi. Qed.

Lemma count_inv s es : inv s es → count s = Z.of_nat (length es).
Proof. intros Hi. apply RingBuffer.size_holds, Hi. Qed.

Lemma discard_oldest_inv s e es :
  inv s (e :: es) →
  returns discard_oldest s (λ s' _, inv s' es ∧ bytes_ s' = bytes_ s ∧ lost_ s' = lost_ s).
Proof.
  intros Hi. apply returns_bind. eapply oldest_inv; [done|].
  destruct Hi. destruct (RingBuffer.pop_front_holds _ _ _ in_entries0) as (r & Hpop & Hr & Hc).
  rewrite fmap_cons in in_laid0. pose proof (laid_discard _ _ _ _ _ _ in_laid0) as Hl.
  assert (Hu : wrap64 (bytes_used_ s - entry_size e) = total (span_of <$> es)).
  { pose proof (laid_total cap most ltac:(lia) _ _ _ Hl). rewrite in_used0, fmap_cons. cbn [total span_of span_size].
    rewrite wrap64_small by lia. lia. }
  apply returns_bind. eapply returns_eq; [done|]. apply returns_bind.
  unfold on_entries. eapply returns_eq; [cbn; by rewrite Hpop|]. cbn.
  apply returns_bind. eapply returns_eq; [done|]. unfold empty. cbn.
  rewrite (RingBuffer.empty_holds _ _ Hr), Hu.
  destruct es as [|e' es]; cbn in *.
  - eapply returns_eq; [done|]. split_and!; [|done..]. constructor; cbn; try done. lia.
  - apply returns_bind. unfold oldest, ask. eapply returns_eq; [cbn; by rewrite (RingBuffer.front_holds _ _ _ Hr)|].
    eapply returns_eq; [done|]. cbn. destruct (wrapped_ s && (offset e' <? offset e)) eqn:Hw; cbn;
      (split_and!; [|done..]); constructor; cbn; try done; lia.
Qed.

(** Where [make_room] finds room: a free entry and [n] free bytes. *)
Record roomy (s : t) (es : list Entry) (at_ n : Z) : Prop := mk_roomy {
  ro_entries : RingBuffer.holds (entries_ s) es;
  ro_slots : RingBuffer.capacity (entries_ s) = slots;
  ro_free : Z.of_nat (length es) < slots;
  ro_laid : laid_out cap most (at_ + n) (wrapped_ s) ((span_of <$> es) ++ [mk_span at_ n]);
  ro_apart : Forall (λ e, apart_from at_ n (span_of e)) es;
  ro_inside : Forall (λ e, 0 ≤ offset e ∧ 0 ≤ entry_size e ∧ offset e + entry_size e ≤ cap) es;
  ro_at : 0 ≤ at_ ∧ at_ + n ≤ cap;
  ro_used : bytes_used_ s = total (span_of <$> es);
  ro_block : size (bytes_ s) = cap
}.

(** The test of the code is [place]. *)
Lemma place_inv s e es n :
  inv s (e :: es) →
  (if wrapped_ s then
     if n <=? wrap64 (offset e - next_offset_ s) then Some (next_offset_ s, true) else None
   else if n <=? wrap64 (size (bytes_ s) - next_offset_ s) then Some (next_offset_ s, false)
   else if n <=? offset e then Some (0, true)
   else None) = place cap (next_offset_ s) (wrapped_ s) (span_of e) n.
Proof.
  intros []. cbn in in_laid0. unfold place. cbn. rewrite in_block0.
  destruct (laid_each cap most ltac:(lia) _ _ _ in_laid0) as [Hn Hf].
  apply Forall_cons in Hf as [He _]. cbn in He.
  inversion in_laid0 as [|? ? ? ? ? Ha|from ? ? ? ? ? H1 ? ? ? Ha]; subst.
  - by rewrite wrap64_small by lia.
  - destruct Ha as [Hat _]. cbn in Hat. by rewrite wrap64_small by lia.
Qed.

Lemma roomy_first s n :
  inv s [] → 0 ≤ n ≤ cap → roomy (with_wrapped (with_next s 0) false) [] 0 n.
Proof.
  intros [] Hn. constructor; cbn; try done; try lia. by apply laid_fresh.
Qed.

Lemma make_room_free s e es n :
  inv s (e :: es) → 0 ≤ n ≤ most →
  free_place s e n = None ∧ crowded (e :: es) ∨
  ∃ at_ w, free_place s e n = Some (at_, w) ∧ roomy (with_wrapped s w) (e :: es) at_ n.
Proof.
  intros Hi Hn. unfold free_place. rewrite (place_inv _ _ _ n Hi). pose proof Hi as [].
  rewrite (RingBuffer.full_holds _ _ in_entries0), in_slots0.
  destruct (Z.eqb_spec (Z.of_nat (length (e :: es))) slots) as [He|Hne]; [by left; split; [|left]|].
  rewrite fmap_cons in in_laid0.
  destruct (place cap _ _ _ n) as [[at_ w]|] eqn:Hp.
  - right. exists at_, w. split; [done|].
    destruct (laid_place _ _ _ _ _ _ _ _ _ in_laid0 Hn Hp) as (Hl & H0 & Hle & Hap).
    destruct (laid_each cap most ltac:(lia) _ _ _ in_laid0) as [_ Hin].
    pose proof (RingBuffer.length_holds _ _ in_entries0).
    constructor; cbn [entries_ with_wrapped wrapped_ bytes_used_ bytes_]; try done; [lia| |].
    + rewrite <- fmap_cons in Hap. exact (proj1 (Forall_fmap span_of _ (e :: es)) Hap).
    + rewrite <- fmap_cons in Hin. exact (proj1 (Forall_fmap span_of _ (e :: es)) Hin).
  - left. split; [done|]. right. rewrite fmap_cons. eapply no_place_full; [done| |done]. lia.
Qed.

Lemma needed_counted s e es needed :
  inv s (e :: es) →
  let s1 := if needed <=? received_at e then with_lost s (lost_ s + 1) else s in
  inv s1 (e :: es) ∧ bytes_ s1 = bytes_ s ∧ lost_ s1 = lost_ s + needed_among needed [e].
Proof.
  intros Hi. unfold needed_among. cbn -[filter]. rewrite filter_cons, filter_nil.
  destruct (Z.leb_spec needed (received_at e)); [rewrite decide_True by done|rewrite decide_False by lia];
    cbn; (split_and!; [|done|lia]); [|done]. by destruct Hi; constructor.
Qed.

Lemma make_room_inv n needed : 0 ≤ n ≤ most → n ≤ cap → ∀ turns s es,
  inv s es → (length es ≤ turns)%nat →
  returns (make_room turns n needed) s (λ s' at_, ∃ k,
    (k ≤ length es)%nat ∧ roomy s' (drop k es) at_ n ∧ bytes_ s' = bytes_ s ∧
    lost_ s' = lost_ s + needed_among needed (take k es) ∧
    (k ≠ O → crowded (drop (k - 1) es))).
Proof.
  intros Hn Hc. induction turns as [|turns IH]; intros s es Hi Hl.
  all: unfold returns; cbn [make_room]; rewrite (empty_inv _ _ Hi).
  { destruct es; [|cbn in Hl; lia]. cbn. exists O. split_and!; [done|apply roomy_first; [done|lia]|done|symmetry; apply Z.add_0_r|done]. }
  destruct es as [|e es]; cbn [bool_decide decide decide_rel list_eq_nil_dec].
  { cbn. exists O. split_and!; [lia|apply roomy_first; [done|lia]|done|symmetry; apply Z.add_0_r|done]. }
  change (match ?m s with (s', Returns a) => ?Q s' a | (_, Throws _) => False end) with (returns m s Q).
  apply returns_bind. eapply oldest_inv; [done|].
  destruct (make_room_free s e es n Hi) as [[Hfree Hcr]|(at_ & w & Hfree & Hro)]; [done..| |];
    rewrite Hfree.
  - apply returns_bind. eapply returns_eq; [done|]. apply returns_bind.
    set (s1 := if _ <=? _ then _ else _).
    assert (Hi1 : inv s1 (e :: es) ∧ bytes_ s1 = bytes_ s ∧
      lost_ s1 = lost_ s + needed_among needed [e]) by by apply needed_counted.
    destruct Hi1 as (Hi1 & Hb1 & Hl1).
    eapply returns_mono; [by eapply discard_oldest_inv|]. cbn.
    intros s2 _ (Hi2 & Hb2 & Hl2).
    eapply returns_mono; [apply IH; [done|cbn in Hl; lia]|]. cbn.
    intros s3 at_ (k & Hk & Hro & Hb3 & Hl3 & Hcr'). exists (S k).
    split_and!; [lia|done|congruence| |].
    + rewrite Hl3, Hl2, Hl1. cbn [take]. unfold needed_among.
      rewrite <- Z.add_assoc. f_equal. rewrite <- Nat2Z.inj_add, <- length_app, <- filter_app. done.
    + intros _. destruct k as [|k]; [done|]. replace (S (S k) - 1)%nat with (S k) by lia.
      replace k with (S k - 1)%nat by lia. by apply Hcr'.
  - apply returns_bind. eapply returns_eq; [done|]. eapply returns_eq; [done|].
    exists O. split_and!; [lia|done|done|symmetry; apply Z.add_0_r|done].
Qed.

Lemma copies_kept block at_ bytes es :
  size block = cap → 0 ≤ at_ ∧ at_ + size bytes ≤ cap →
  Forall (λ e, 0 ≤ offset e ∧ 0 ≤ entry_size e ∧ offset e + entry_size e ≤ cap) es →
  Forall (λ e, apart_from at_ (size bytes) (span_of e)) es →
  copy_of (splice block at_ bytes) <$> es = copy_of block <$> es.
Proof.
  intros Hb [H0 Hle] Hin Hap. apply list_fmap_ext. intros i e He.
  apply (Forall_lookup_1 _ _ _ _ Hin) in He as Hin'. apply (Forall_lookup_1 _ _ _ _ Hap) in He.
  unfold apart_from in He. cbn in He. unfold copy_of. rewrite slice_splice_other; [done|lia..].
Qed.

(** Keeping a copy gives up the oldest copies, as many as it takes: only while
    the list is full or the copies leave no room for two of the largest. *)
Lemma keep_inv s es n bytes at_ needed p :
  inv s es → size bytes ≤ most → size bytes ≤ cap →
  returns (keep n bytes at_ needed p) s (λ s' _, ∃ k es',
    (k ≤ length es)%nat ∧ inv s' es' ∧
    copy_of (bytes_ s') <$> es'
      = drop k (copy_of (bytes_ s) <$> es) ++ [mk_copy n bytes at_ p] ∧
    lost_ s' = lost_ s + needed_among needed (take k es) ∧
    (k ≠ O → crowded (drop (k - 1) es))).
Proof.
  intros Hi Hm Hc. pose proof (size_nonneg bytes) as H0. unfold keep, returns.
  rewrite (in_block _ _ Hi). destruct (Z.ltb_spec cap (size bytes)); [lia|].
  change (match ?m s with (s', Returns a) => ?Q s' a | (_, Throws _) => False end) with (returns m s Q).
  apply returns_bind. eapply returns_mono; [eapply make_room_inv; [lia|done|done|]|].
  { rewrite (count_inv _ _ Hi). lia. }
  cbn. intros s1 o (k & Hk & Hro & Hb1 & Hl1 & Hcr). destruct Hro.
  apply returns_bind. unfold copy_in. eapply returns_eq.
  { destruct (Z.leb_spec (o + size bytes) (size (bytes_ s1))); [done|lia]. }
  set (e := mk_entry o (size bytes) n at_ p).
  destruct (RingBuffer.push_back_holds _ _ e ro_entries0) as (r & Hpush & Hr & Hcap'); [lia|].
  apply returns_bind. unfold on_entries. eapply returns_eq; [cbn; by rewrite Hpush|].
  eapply returns_eq; [done|]. cbn. exists k, (drop k es ++ [e]).
  assert (Hlaid : laid_out cap most (o + size bytes) (wrapped_ s1) (span_of <$> drop k es ++ [e]))
    by by rewrite fmap_app.
  split_and!; [done| | |done|done].
  - constructor; cbn; try done; [congruence| |].
    + pose proof (laid_total cap most ltac:(lia) _ _ _ Hlaid) as Ht.
      rewrite fmap_app, total_app in *. cbn in *. rewrite ro_used0, wrap64_small; lia.
    + by rewrite size_splice; [|lia..].
  - rewrite fmap_app, copies_kept, <- fmap_drop, Hb1 by done. cbn. do 2 f_equal.
    unfold copy_of. cbn. f_equal. by apply slice_splice_same; [lia|rewrite <- Hb1; lia].
Qed.

(** A copy larger than the block is not kept. *)
Lemma keep_too_large s es n bytes at_ needed p :
  inv s es → cap < size bytes →
  keep n bytes at_ needed p s = (with_lost s (lost_ s + 1), Returns ()).
Proof.
  intros Hi Hlt. unfold keep. rewrite (in_block _ _ Hi).
  by destruct (Z.ltb_spec cap (size bytes)); [|lia].
Qed.

(** The copies that go from the front. *)
Fixpoint front_while (p : Entry → bool) (es : list Entry) : nat :=
  match es with
  | [] => 0
  | e :: es => if p e then S (front_while p es) else 0
  end.

Lemma discard_while_inv p : ∀ turns s es,
  inv s es → (length es ≤ turns)%nat →
  returns (discard_while turns p) s (λ s' n,
    n = Z.of_nat (front_while p es) ∧ inv s' (drop (front_while p es) es) ∧
    bytes_ s' = bytes_ s ∧ lost_ s' = lost_ s).
Proof.
  induction turns as [|turns IH]; intros s es Hi Hl.
  all: unfold returns; cbn [discard_while]; rewrite (empty_inv _ _ Hi).
  { by destruct es; [|cbn in Hl; lia]. }
  destruct es as [|e es]; [done|].
  change (match ?m s with (s', Returns a) => ?Q s' a | (_, Throws _) => False end) with (returns m s Q).
  apply returns_bind. eapply oldest_inv; [done|]. cbn [front_while].
  destruct (p e); [|by eapply returns_eq].
  apply returns_bind. eapply returns_mono; [by eapply discard_oldest_inv|]. cbn.
  intros s1 _ (Hi1 & Hb1 & Hl1). apply returns_bind.
  eapply returns_mono; [apply IH; [done|cbn in Hl; lia]|]. cbn.
  intros s2 n (-> & Hi2 & Hb2 & Hl2). eapply returns_eq; [done|].
  split_and!; [lia|done|congruence|congruence].
Qed.

Lemma take_loop_inv : ∀ turns s es,
  inv s es → (length es ≤ turns)%nat →
  returns (take_loop turns) s (λ s' given,
    given = (λ e, (seq_no e, slice (bytes_ s) (offset e) (entry_size e))) <$> es ∧
    inv s' [] ∧ bytes_ s' = bytes_ s ∧ lost_ s' = lost_ s).
Proof.
  induction turns as [|turns IH]; intros s es Hi Hl.
  all: unfold returns; cbn [take_loop]; rewrite (empty_inv _ _ Hi).
  { by destruct es; [|cbn in Hl; lia]. }
  destruct es as [|e es]; [done|].
  change (match ?m s with (s', Returns a) => ?Q s' a | (_, Throws _) => False end) with (returns m s Q).
  apply returns_bind. eapply oldest_inv; [done|]. apply returns_bind. unfold visited.
  pose proof (in_laid _ _ Hi) as Hlaid. rewrite fmap_cons in Hlaid.
  destruct (laid_each cap most ltac:(lia) _ _ _ Hlaid) as [_ Hin].
  apply Forall_cons in Hin as [Hin _]. cbn in Hin.
  eapply returns_eq.
  { rewrite (in_block _ _ Hi). by destruct (Z.leb_spec (offset e + entry_size e) cap); [|lia]. }
  apply returns_bind. eapply returns_mono; [by eapply discard_oldest_inv|]. cbn.
  intros s1 _ (Hi1 & Hb1 & Hl1). apply returns_bind.
  eapply returns_mono; [apply IH; [done|cbn in Hl; lia]|]. cbn.
  intros s2 n (-> & Hi2 & Hb2 & Hl2). eapply returns_eq; [done|].
  split_and!; [|done|congruence|congruence]. by rewrite Hb1.
Qed.

(** ** The store as a queue *)

Inductive call :=
  | Keep (seq_no : Z) (bytes : list Z) (received_at needed_from : Z)
      (position : option EngineReportPosition.t)
  | DiscardReceivedBefore (cutoff : Z)
  | DiscardThrough (forwarded_through : EngineReportPosition.t)
  | TakeAll.

(** What a call hands over. *)
Definition apply (c : call) : comp t (list (Z * list Z)) :=
  match c with
  | Keep n bytes at_ needed p => keep n bytes at_ needed p ;; mret []
  | DiscardReceivedBefore cutoff => discard_received_before cutoff ;; mret []
  | DiscardThrough p => discard_through p ;; mret []
  | TakeAll => take_all
  end.

(** A queue of copies, and how many have been lost. *)
Record queue := mk_queue { queued : list copy; queue_lost : Z }.

Definition bytes_queued (l : list copy) : Z := foldr Z.add 0 (size ∘ copy_bytes <$> l).

Fixpoint drop_front (p : copy → bool) (l : list copy) : list copy :=
  match l with
  | [] => []
  | c :: l => if p c then drop_front p l else c :: l
  end.

(** A call gives up the oldest copies only for a new one, one at a time, while
    the list is full or what is held leaves no room for two of the largest.  A
    copy larger than the block is counted as lost at once. *)
Inductive promised : call → queue → queue → list (Z * list Z) → Prop :=
  | kept_copy l lost n bytes at_ needed p k :
      (k ≤ length l)%nat →
      (k ≠ O → Z.of_nat (length (drop (k - 1) l)) = slots ∨
        cap < bytes_queued (drop (k - 1) l) + 2 * most) →
      promised (Keep n bytes at_ needed p) (mk_queue l lost)
        (mk_queue (drop k l ++ [mk_copy n bytes at_ p])
          (lost + Z.of_nat (length (filter (λ c, needed ≤ copy_received_at c) (take k l))))) []
  | too_large_to_keep l lost n bytes at_ needed p :
      cap < size bytes →
      promised (Keep n bytes at_ needed p) (mk_queue l lost) (mk_queue l (lost + 1)) []
  | discarded_before l lost cutoff :
      promised (DiscardReceivedBefore cutoff) (mk_queue l lost)
        (mk_queue (drop_front (λ c, copy_received_at c <? cutoff) l) lost) []
  | discarded_through l lost through :
      promised (DiscardThrough through) (mk_queue l lost)
        (mk_queue (drop_front (λ c, forwarded through (copy_position c)) l) lost) []
  | taken l lost :
      promised TakeAll (mk_queue l lost) (mk_queue [] lost)
        ((λ c, (copy_seq_no c, copy_bytes c)) <$> l).

Definition small (c : call) : Prop :=
  match c with Keep _ bytes _ _ _ => size bytes ≤ cap → size bytes ≤ most | _ => True end.

Definition shows (s : t) (q : queue) : Prop :=
  ∃ es, inv s es ∧ queued q = copy_of (bytes_ s) <$> es ∧ queue_lost q = lost_ s.

Lemma bytes_queued_total s es j :
  inv s es →
  bytes_queued (copy_of (bytes_ s) <$> drop j es) = total (span_of <$> drop j es).
Proof.
  intros []. destruct (laid_each cap most ltac:(lia) _ _ _ in_laid0) as [_ Hin].
  apply Forall_fmap, (Forall_drop _ j) in Hin. clear -Hin in_block0.
  induction Hin as [|e es' He _ IH]; [done|].
  rewrite !fmap_cons. unfold bytes_queued in *. cbn in *. rewrite IH. f_equal.
  unfold size, slice in *. rewrite length_take, length_drop. lia.
Qed.

Lemma shows_inv s es : inv s es → shows s (mk_queue (copy_of (bytes_ s) <$> es) (lost_ s)).
Proof. intros Hi. by exists es. Qed.

Lemma filter_copies (block : list Z) needed es :
  length (filter (λ c, needed ≤ copy_received_at c) (copy_of block <$> es))
    = length (filter (λ e, needed ≤ received_at e) es).
Proof.
  induction es as [|e es IH]; [done|]. rewrite fmap_cons, !filter_cons. cbn -[filter].
  destruct (decide (needed ≤ received_at e)); cbn -[filter]; by rewrite IH.
Qed.

Lemma drop_front_copies (block : list Z) (p : copy → bool) (q : Entry → bool) es :
  (∀ e, p (copy_of block e) = q e) →
  drop_front p (copy_of block <$> es) = copy_of block <$> drop (front_while q es) es.
Proof.
  intros Hpq. induction es as [|e es IH]; [done|]. rewrite fmap_cons. cbn [drop_front front_while].
  rewrite Hpq. by destruct (q e).
Qed.

Lemma discard_promised (p : copy → bool) (q : Entry → bool) s es :
  inv s es → (∀ e, p (copy_of (bytes_ s) e) = q e) →
  returns (discard_while (Z.to_nat (count s)) q) s (λ s' _,
    shows s' (mk_queue (drop_front p (copy_of (bytes_ s) <$> es)) (lost_ s))).
Proof.
  intros Hi Hpq. eapply returns_mono; [eapply discard_while_inv; [done|]|].
  { rewrite (count_inv _ _ Hi). lia. }
  cbn. intros s' _ (_ & Hi' & Hb & Hl). rewrite (drop_front_copies _ _ _ _ Hpq), <- Hb, <- Hl.
  by apply shows_inv.
Qed.

Lemma keep_promised s q n bytes at_ needed p :
  shows s q → small (Keep n bytes at_ needed p) →
  returns (keep n bytes at_ needed p) s (λ s' _,
    ∃ q', shows s' q' ∧ promised (Keep n bytes at_ needed p) q q' []).
Proof.
  destruct q as [l lost]. intros (es & Hi & Hq & Hlost) Hs. cbn in Hq, Hlost. subst l lost.
  destruct (decide (cap < size bytes)) as [Hlt|Hge].
  { eapply returns_eq; [by eapply keep_too_large|].
    eexists. split; [|by constructor]. exists es. destruct Hi. by split_and!. }
  cbn in Hs. eapply returns_mono; [apply keep_inv; [done|apply Hs; lia|lia]|]. cbn.
  intros s' _ (k & es' & Hk & Hi' & Hcopies & Hl & Hcr).
  eexists. split; [by apply shows_inv|]. rewrite Hcopies, Hl. unfold needed_among.
  rewrite <- (filter_copies (bytes_ s)), fmap_take. constructor; [by rewrite length_fmap|].
  intros Hk0. rewrite <- fmap_drop, length_fmap, (bytes_queued_total _ _ _ Hi). by apply Hcr.
Qed.

Lemma discard_before_promised s q cutoff :
  shows s q →
  returns (discard_received_before cutoff) s (λ s' _,
    shows s' (mk_queue (drop_front (λ c, copy_received_at c <? cutoff) (queued q)) (queue_lost q))).
Proof.
  intros (es & Hi & -> & ->). apply returns_bind.
  eapply returns_mono; [by apply (discard_promised (λ c, copy_received_at c <? cutoff))|].
  cbn. intros s' _ Hs'. by eapply returns_eq.
Qed.

Lemma discard_through_promised s q through :
  shows s q →
  returns (discard_through through) s (λ s' _,
    shows s' (mk_queue (drop_front (λ c, forwarded through (copy_position c)) (queued q)) (queue_lost q))).
Proof.
  intros (es & Hi & -> & ->). by apply (discard_promised (λ c, forwarded through (copy_position c))).
Qed.

Lemma take_all_promised s q :
  shows s q →
  returns take_all s (λ s' given,
    shows s' (mk_queue [] (queue_lost q)) ∧
    given = (λ c, (copy_seq_no c, copy_bytes c)) <$> queued q).
Proof.
  intros (es & Hi & -> & ->). eapply returns_mono; [eapply take_loop_inv; [done|]|].
  { rewrite (count_inv _ _ Hi). lia. }
  cbn. intros s' given (-> & Hi' & Hb & Hl). rewrite <- Hl. split; [by apply (shows_inv s' [])|].
  by rewrite <- list_fmap_compose.
Qed.

Lemma apply_promised c s q :
  shows s q → small c → returns (apply c) s (λ s' given, ∃ q', shows s' q' ∧ promised c q q' given).
Proof.
  intros Hs Hsm. destruct q as [l lost], c as [n bytes at_ needed p|cutoff|through|]; cbn [apply].
  - apply returns_bind. eapply returns_mono; [by apply keep_promised|]. cbn. intros. by eapply returns_eq.
  - apply returns_bind. eapply returns_mono; [by apply discard_before_promised|]. cbn.
    intros. eapply returns_eq; [done|]. eexists. split; [done|constructor].
  - apply returns_bind. eapply returns_mono; [by apply discard_through_promised|]. cbn.
    intros. eapply returns_eq; [done|]. eexists. split; [done|constructor].
  - eapply returns_mono; [by apply take_all_promised|]. cbn. intros s' given [Hs' ->].
    eexists. split; [done|constructor].
Qed.

(** One call after another. *)
Fixpoint run (cs : list call) : comp t (list (list (Z * list Z))) :=
  match cs with
  | [] => mret []
  | c :: cs => given ← apply c; rest ← run cs; mret (given :: rest)
  end.

Inductive promised_run : list call → queue → queue → list (list (Z * list Z)) → Prop :=
  | promised_nil q : promised_run [] q q []
  | promised_cons c cs q q1 q2 given rest :
      promised c q q1 given → promised_run cs q1 q2 rest →
      promised_run (c :: cs) q q2 (given :: rest).

Lemma run_promised cs : ∀ s q,
  shows s q → Forall small cs →
  returns (run cs) s (λ s' given, ∃ q', shows s' q' ∧ promised_run cs q q' given).
Proof.
  induction cs as [|c cs IH]; intros s q Hs Hsmall; cbn [run].
  - eapply returns_eq; [done|]. exists q. split; [done|constructor].
  - apply Forall_cons in Hsmall as [Hc Hsmall]. apply returns_bind.
    eapply returns_mono; [by apply apply_promised|]. cbn. intros s1 given (q1 & Hs1 & Hp).
    apply returns_bind. eapply returns_mono; [by apply IH|]. cbn. intros s2 rest (q2 & Hs2 & Hp2).
    eapply returns_eq; [done|]. exists q2. split; [done|]. by econstructor.
Qed.

Lemma make_shows :
  ∃ s, make cap slots = Returns s ∧ shows s (mk_queue [] 0).
Proof.
  destruct (RingBuffer.make_holds (T := Entry) slots Hslots) as (r & Hr & Hh & Hc).
  unfold make. rewrite Hr. cbn. destruct (Z.eqb_spec cap 0); [lia|]. eexists. split; [done|].
  exists []. split_and!; [|done..]. constructor; cbn; try done; [by constructor|].
  unfold size. rewrite length_replicate. lia.
Qed.

(** What the counters say. *)
Lemma shows_counts s q :
  shows s q →
  count s = Z.of_nat (length (queued q)) ∧ bytes_used s = bytes_queued (queued q) ∧
  lost s = queue_lost q.
Proof.
  intros (es & Hi & -> & ->). rewrite length_fmap. split_and!; [by apply count_inv| |done].
  pose proof (bytes_queued_total s es 0 Hi) as Ht. rewrite drop_0 in Ht. by rewrite Ht, <- (in_used _ _ Hi).
Qed.

End store.

End KeptReportStore.

(** ** Properties *)

(** C34: The store of kept reports is a queue, through any sequence of calls: no
    call throws, loops or touches a byte outside the block; each copy is handed
    over once, oldest first, with the bytes it was kept with, though the block is
    used round and round; a copy is overwritten only to make room for another,
    the oldest first, only while the list is full or the copies held leave no
    room for two of the largest, and each one overwritten that was still needed
    is counted. *)
Theorem kept_reports_are_a_queue cap slots most cs :
  0 < cap < 2 ^ 64 → 0 < slots → Forall (KeptReportStore.small cap most) cs →
  ∃ s s' given q,
    KeptReportStore.make cap slots = Returns s ∧
    KeptReportStore.run cs s = (s', Returns given) ∧
    KeptReportStore.promised_run cap slots most cs (KeptReportStore.mk_queue [] 0) q given ∧
    KeptReportStore.count s' = Z.of_nat (length (KeptReportStore.queued q)) ∧
    KeptReportStore.bytes_used s' = KeptReportStore.bytes_queued (KeptReportStore.queued q) ∧
    KeptReportStore.lost s' = KeptReportStore.queue_lost q.
Proof.
  intros Hcap Hslots Hsmall.
  destruct (KeptReportStore.make_shows cap slots most Hcap Hslots) as (s & Hmake & Hs).
  destruct (returns_inv _ _ _ (KeptReportStore.run_promised cap slots most Hcap Hslots cs s _ Hs Hsmall))
    as (s' & given & Hrun & q & Hs' & Hp).
  exists s, s', given, q. split_and!; [done..| | |];
    by apply (KeptReportStore.shows_counts cap slots most Hcap).
Qed.

(** Three copies of four bytes in a block of ten: the third goes to the start of
    the block, over the first. *)
Lemma kept_reports_are_a_queue_witness :
  ∃ s s' q,
    KeptReportStore.make 10 5 = Returns s ∧
    KeptReportStore.run
      [KeptReportStore.Keep 1 [1; 1; 1; 1] 100 0 None;
       KeptReportStore.Keep 2 [2; 2; 2; 2] 200 0 None;
       KeptReportStore.Keep 3 [3; 3; 3; 3] 300 0 None; KeptReportStore.TakeAll] s
      = (s', Returns [[]; []; []; [(2, [2; 2; 2; 2]); (3, [3; 3; 3; 3])]]) ∧
    KeptReportStore.lost s' = KeptReportStore.queue_lost q ∧ KeptReportStore.lost s' = 1.
Proof.
  destruct (kept_reports_are_a_queue 10 5 4
    [KeptReportStore.Keep 1 [1; 1; 1; 1] 100 0 None;
     KeptReportStore.Keep 2 [2; 2; 2; 2] 200 0 None;
     KeptReportStore.Keep 3 [3; 3; 3; 3] 300 0 None; KeptReportStore.TakeAll])
    as (s & s' & given & q & Hmake & Hrun & _ & _ & _ & Hlost).
  - lia.
  - lia.
  - repeat (apply Forall_cons_2; [by vm_compute|]). apply Forall_nil_2.
  - exists s, s', q. vm_compute in Hmake. injection Hmake as <-. vm_compute in Hrun.
    injection Hrun as <- <-. split_and!; [vm_compute; reflexivity|vm_compute; reflexivity|done|vm_compute; reflexivity].
Defined.
