(* ===== verification/ArrayRing.v ===== *)
(** An array used as a ring: the elements are those at
    [(head + i) % capacity], for [i] below a count.  KeptReports.hpp keeps its
    samples and TradingHaltState.hpp the latest commands in one. *)

From S2P Require Import Prelude.
#[local] Open Scope Z_scope.

(** [array_[(head + i) % capacity]]. *)
Definition ring_slot (cap head i : Z) : nat := Z.to_nat ((head + i) mod cap).

Section ring.
Context {T : Type}.
Variable cap : Z.

Record ring_shows (array : list T) (head count : Z) (l : list T) : Prop := mk_ring_shows {
  rs_cap : 1 ≤ cap;
  rs_array : Z.of_nat (length array) = cap;
  rs_head : 0 ≤ head < cap;
  rs_count : count = Z.of_nat (length l);
  rs_fits : count ≤ cap;
  rs_each (i : nat) : (i < length l)%nat →
    array !! ring_slot cap head (Z.of_nat i) = l !! i
}.

Lemma ring_empty array head :
  1 ≤ cap → Z.of_nat (length array) = cap → 0 ≤ head < cap → ring_shows array head 0 [].
Proof. intros. constructor; try done; cbn; lia. Qed.

Lemma ring_slot_bound head i : 1 ≤ cap → (ring_slot cap head i < Z.to_nat cap)%nat.
Proof. intros Hc. unfold ring_slot. pose proof (Z.mod_pos_bound (head + i) cap). lia. Qed.

Lemma ring_slot_inj head i j :
  1 ≤ cap → 0 ≤ i < cap → 0 ≤ j < cap →
  ring_slot cap head i = ring_slot cap head j → i = j.
Proof.
  intros Hc Hi Hj He. unfold ring_slot in He.
  pose proof (Z.mod_pos_bound (head + i) cap). pose proof (Z.mod_pos_bound (head + j) cap).
  assert (Hm : (head + i) mod cap = (head + j) mod cap) by lia.
  pose proof (Z.div_mod (head + i) cap ltac:(lia)) as H1.
  pose proof (Z.div_mod (head + j) cap ltac:(lia)) as H2.
  assert (Hd : i - j = cap * ((head + i) / cap - (head + j) / cap)) by lia.
  set (q := (head + i) / cap - (head + j) / cap) in *. clearbody q.
  assert (q = 0) by nia. nia.
Qed.

Lemma ring_push array head count l x :
  ring_shows array head count l → count < cap →
  ring_shows (<[ring_slot cap head count := x]> array) head (count + 1) (l ++ [x]).
Proof.
  intros [] Hlt. constructor; rewrite ?length_insert, ?length_app; cbn; try done; [lia..|].
  intros i Hi. destruct (decide (i = length l)) as [->|Hne].
  - rewrite rs_count0, list_lookup_insert_eq, lookup_app_r, Nat.sub_diag; [done|done|].
    pose proof (ring_slot_bound head (Z.of_nat (length l)) rs_cap0). lia.
  - rewrite list_lookup_insert_ne, lookup_app_l, rs_each0; [done|lia|lia|].
    intros He. apply ring_slot_inj in He; lia.
Qed.

Lemma ring_pop_front array head count x l :
  ring_shows array head count (x :: l) → ring_shows array ((head + 1) mod cap) (count - 1) l.
Proof.
  intros []. cbn in *. constructor; try done; try lia.
  - apply Z.mod_pos_bound. lia.
  - intros i Hi. specialize (rs_each0 (S i) ltac:(lia)). 
    rewrite lookup_cons in rs_each0. rewrite <- rs_each0. f_equal. unfold ring_slot. rewrite Zplus_mod_idemp_l. do 2 f_equal. lia.
Qed.

Lemma ring_pop_back array head count l x :
  ring_shows array head count (l ++ [x]) → ring_shows array head (count - 1) l.
Proof.
  intros []. rewrite length_app in *. cbn in *. constructor; try done; try lia.
  intros i Hi. rewrite rs_each0 by lia. by rewrite lookup_app_l by lia.
Qed.

Lemma ring_first array head count x l :
  ring_shows array head count (x :: l) → array !! ring_slot cap head 0 = Some x.
Proof. intros []. exact (rs_each0 O (Nat.lt_0_succ _)). Qed.

Lemma ring_second array head count x y l :
  ring_shows array head count (x :: y :: l) → array !! ring_slot cap head 1 = Some y.
Proof. intros []. apply (rs_each0 1%nat). cbn. lia. Qed.

Lemma ring_last array head count l x :
  ring_shows array head count (l ++ [x]) → array !! ring_slot cap head (count - 1) = Some x.
Proof.
  intros []. rewrite length_app in *. cbn in *.
  rewrite (ltac:(lia) : count - 1 = Z.of_nat (length l)), rs_each0 by lia.
  by rewrite lookup_app_r, Nat.sub_diag by lia.
Qed.

(** The oldest is overwritten once the ring is full. *)
Lemma ring_full array head count l :
  ring_shows array head count l → count = cap → ∃ x rest, l = x :: rest.
Proof. intros [] He. destruct l as [|x rest]; cbn in *; [lia|by eexists _, _]. Qed.

End ring.
