(* ===== verification/KeptReports.v ===== *)
(** The reports a sequencer keeps while it does not lead, and forwards when it
    takes the lead: sequencer/KeptReports.{hpp,cpp}.

    Times are nanoseconds.  [outputs] are the calls of KeptReportsLinksInterface,
    oldest first. *)

From S2P Require Import Prelude.
From S2P Require Import WalEntry.
From S2P Require Import RingBuffer.
From S2P Require Import ArrayRing.
From S2P Require Import ByteArena.
From S2P Require Import KeptReportStore.
#[local] Open Scope Z_scope.

Module KeptReports.

Definition capacity_bytes : Z := 128 * 1024 * 1024.
Definition capacity_reports : Z := 262144.
Definition reports_forwarded_delay : Z := 100 * 1000000.
Definition discard_interval : Z := 1000 * 1000000.
Definition forwarded_sample_capacity : Z := 4096.

(** [Clock::time_point::min()]. *)
Definition time_point_min : Z := - 2 ^ 63.

Record ForwardedSample := mk_sample {
  written_ns : Z;
  through : EngineReportPosition.t
}.

Inductive output :=
  | ForwardKeptReport (er_seq_no : Z) (bytes : list Z)
  | KeptReportsLost (total : Z)
  | KeptReportsForwarded (discarded_as_forwarded count bytes : Z).

Record t := mk {
  lease_period_ : Z;
  drift_allowance_ : Z;
  store_ : KeptReportStore.t;
  last_granted_to_leader_ : Z;
  lost_reported_ : Z;
  discarded_at_ : Z;
  discarded_as_forwarded_ : Z;
  samples_ : list ForwardedSample;
  samples_head_ : Z;
  samples_count_ : Z;
  latest_record_written_ns_ : Z;
  outputs : list output
}.

Definition make (lease_period drift_allowance : Z) : outcome t :=
  obind (KeptReportStore.make capacity_bytes capacity_reports) (λ store,
  Returns (mk lease_period drift_allowance store 0 0 0 0
    (replicate (Z.to_nat forwarded_sample_capacity) (mk_sample 0 (EngineReportPosition.mk 0 0)))
    0 0 0 [])).

Definition with_store s x := mk (lease_period_ s) (drift_allowance_ s) x
  (last_granted_to_leader_ s) (lost_reported_ s) (discarded_at_ s) (discarded_as_forwarded_ s)
  (samples_ s) (samples_head_ s) (samples_count_ s) (latest_record_written_ns_ s) (outputs s).
Definition with_granted s x := mk (lease_period_ s) (drift_allowance_ s) (store_ s)
  x (lost_reported_ s) (discarded_at_ s) (discarded_as_forwarded_ s)
  (samples_ s) (samples_head_ s) (samples_count_ s) (latest_record_written_ns_ s) (outputs s).
Definition with_lost_reported s x := mk (lease_period_ s) (drift_allowance_ s) (store_ s)
  (last_granted_to_leader_ s) x (discarded_at_ s) (discarded_as_forwarded_ s)
  (samples_ s) (samples_head_ s) (samples_count_ s) (latest_record_written_ns_ s) (outputs s).
Definition with_discarded_at s x := mk (lease_period_ s) (drift_allowance_ s) (store_ s)
  (last_granted_to_leader_ s) (lost_reported_ s) x (discarded_as_forwarded_ s)
  (samples_ s) (samples_head_ s) (samples_count_ s) (latest_record_written_ns_ s) (outputs s).
Definition with_discarded s x := mk (lease_period_ s) (drift_allowance_ s) (store_ s)
  (last_granted_to_leader_ s) (lost_reported_ s) (discarded_at_ s) x
  (samples_ s) (samples_head_ s) (samples_count_ s) (latest_record_written_ns_ s) (outputs s).
Definition with_samples s a h c := mk (lease_period_ s) (drift_allowance_ s) (store_ s)
  (last_granted_to_leader_ s) (lost_reported_ s) (discarded_at_ s) (discarded_as_forwarded_ s)
  a h c (latest_record_written_ns_ s) (outputs s).
Definition with_latest s x := mk (lease_period_ s) (drift_allowance_ s) (store_ s)
  (last_granted_to_leader_ s) (lost_reported_ s) (discarded_at_ s) (discarded_as_forwarded_ s)
  (samples_ s) (samples_head_ s) (samples_count_ s) x (outputs s).
Definition with_outputs s x := mk (lease_period_ s) (drift_allowance_ s) (store_ s)
  (last_granted_to_leader_ s) (lost_reported_ s) (discarded_at_ s) (discarded_as_forwarded_ s)
  (samples_ s) (samples_head_ s) (samples_count_ s) (latest_record_written_ns_ s) x.

(** A member function of [store_]. *)
Definition on_store {A} (m : comp KeptReportStore.t A) : comp t A := λ s,
  let r := m (store_ s) in (with_store s r.1, r.2).

Definition tell (os : list output) : comp t unit := modify (λ s, with_outputs s (outputs s ++ os)).

(** [samples_[(samples_head_ + i) % forwarded_sample_capacity]]. *)
Definition sample (i : Z) : comp t ForwardedSample := ask (λ s,
  match samples_ s !! ring_slot forwarded_sample_capacity (samples_head_ s) i with
  | Some x => Returns x
  | None => Throws UndefinedBehaviour
  end).

Definition drop_oldest_sample : comp t unit :=
  modify (λ s, with_samples s (samples_ s)
    ((samples_head_ s + 1) mod forwarded_sample_capacity) (samples_count_ s - 1)).

Definition count (s : t) : Z := KeptReportStore.count (store_ s).
Definition lost (s : t) : Z := KeptReportStore.lost (store_ s).

Definition granted_lease_to_leader (at_ : Z) : comp t unit := modify (λ s, with_granted s at_).

Definition needed_from (s : t) : Z :=
  if last_granted_to_leader_ s =? 0 then time_point_min
  else last_granted_to_leader_ s - lease_period_ s - drift_allowance_ s.

Definition keep (er_seq_no : Z) (bytes : list Z) (position : option EngineReportPosition.t)
    (now : Z) : comp t unit :=
  from ← gets needed_from;
  on_store (KeptReportStore.discard_received_before from) ;;
  on_store (KeptReportStore.keep er_seq_no bytes now from position) ;;
  lost_now ← gets lost;
  reported ← gets lost_reported_;
  if lost_now =? reported then mret ()
  else modify (λ s, with_lost_reported s lost_now) ;; tell [KeptReportsLost lost_now].

(** [samples_[(samples_head_ + samples_count_) % forwarded_sample_capacity] = ...]. *)
Definition push_sample (x : ForwardedSample) : comp t unit := λ s,
  let i := ring_slot forwarded_sample_capacity (samples_head_ s) (samples_count_ s) in
  if (i <? length (samples_ s))%nat
  then (with_samples s (<[i := x]> (samples_ s)) (samples_head_ s) (samples_count_ s + 1), Returns ())
  else (s, Throws UndefinedBehaviour).

Definition leader_record_written (written : Z) (through_ : option EngineReportPosition.t)
    : comp t unit :=
  modify (λ s, with_latest s (Z.max (latest_record_written_ns_ s) written)) ;;
  match through_ with
  | None => mret ()
  | Some p =>
      n ← gets samples_count_;
      moved ←
        (if 0 <? n then
           newest ← sample (n - 1);
           mret (EngineReportPosition.is_after p (through newest))
         else mret true);
      if (moved : bool) then
        (if n =? forwarded_sample_capacity then drop_oldest_sample else mret ()) ;;
        push_sample (mk_sample written p)
      else mret ()
  end.

(** Each turn drops a sample. *)
Fixpoint drop_samples (turns : nat) (cutoff_ns : Z) : comp t unit :=
  n ← gets samples_count_;
  if 2 <=? n then
    second ← sample 1;
    if written_ns second <=? cutoff_ns then
      drop_oldest_sample ;;
      match turns with
      | O => throw DoesNotReturn
      | S turns => drop_samples turns cutoff_ns
      end
    else mret ()
  else mret ().

Definition discard_those_the_leader_forwarded : comp t unit :=
  latest ← gets latest_record_written_ns_;
  let cutoff_ns := latest - reports_forwarded_delay in
  n ← gets samples_count_;
  drop_samples (Z.to_nat n) cutoff_ns ;;
  n ← gets samples_count_;
  if n =? 0 then mret ()
  else
    first ← sample 0;
    if cutoff_ns <? written_ns first then mret ()
    else
      discarded ← on_store (KeptReportStore.discard_through (through first));
      modify (λ s, with_discarded s (discarded_as_forwarded_ s + discarded)).

Definition tick (now : Z) : comp t unit :=
  at_ ← gets discarded_at_;
  if discard_interval <=? now - at_ then
    modify (λ s, with_discarded_at s now) ;;
    discard_those_the_leader_forwarded
  else mret ().

Definition forward_all : comp t unit :=
  from ← gets needed_from;
  on_store (KeptReportStore.discard_received_before from) ;;
  n ← gets count;
  bytes ← gets (λ s, KeptReportStore.bytes_used (store_ s));
  discarded ← gets discarded_as_forwarded_;
  tell [KeptReportsForwarded discarded n bytes] ;;
  modify (λ s, with_discarded s 0) ;;
  given ← on_store KeptReportStore.take_all;
  tell ((λ g, ForwardKeptReport g.1 g.2) <$> given).

(** ** Accounting for every report *)

Inductive call :=
  | Granted (at_ : Z)
  | Keep (er_seq_no : Z) (bytes : list Z) (position : option EngineReportPosition.t) (now : Z)
  | LeaderRecord (written : Z) (through_ : option EngineReportPosition.t)
  | Tick (now : Z)
  | DiscardThoseTheLeaderForwarded
  | ForwardAll.

Definition apply (c : call) : comp t unit :=
  match c with
  | Granted at_ => granted_lease_to_leader at_
  | Keep n bytes p now => keep n bytes p now
  | LeaderRecord w p => leader_record_written w p
  | Tick now => tick now
  | DiscardThoseTheLeaderForwarded => discard_those_the_leader_forwarded
  | ForwardAll => forward_all
  end.

Fixpoint run (cs : list call) : comp t unit :=
  match cs with
  | [] => mret ()
  | c :: cs => apply c ;; run cs
  end.

(** The times the clocks give. *)
Definition timely (c : call) : Prop :=
  match c with
  | Keep _ _ _ now => time_point_min ≤ now
  | LeaderRecord w _ => 0 ≤ w
  | _ => True
  end.

Definition kept_by (c : call) : option KeptReportStore.copy :=
  match c with
  | Keep n bytes p now => Some (KeptReportStore.mk_copy n bytes now p)
  | _ => None
  end.

(** Every report kept, in the order of the calls. *)
Definition kept_in (cs : list call) : list KeptReportStore.copy := omap kept_by cs.

(** Every report forwarded. *)
Definition forwards (os : list output) : list (Z * list Z) :=
  omap (λ o, match o with ForwardKeptReport n bytes => Some (n, bytes) | _ => None end) os.

Definition report_of (c : KeptReportStore.copy) : Z * list Z :=
  (KeptReportStore.copy_seq_no c, KeptReportStore.copy_bytes c).

(** A report that need not be forwarded: it came more than a lease period and
    the drift allowance before the leader was granted a lease; or a record the
    leader wrote at least [reports_forwarded_delay] before another says that it
    had forwarded it. *)
Definition excusable (lease drift : Z) (cs : list call) (c : KeptReportStore.copy) : Prop :=
  (∃ at_, Granted at_ ∈ cs ∧ KeptReportStore.copy_received_at c < at_ - lease - drift) ∨
  (∃ w p w' p', LeaderRecord w (Some p) ∈ cs ∧ LeaderRecord w' p' ∈ cs ∧
     w + reports_forwarded_delay ≤ w' ∧
     KeptReportStore.forwarded p (KeptReportStore.copy_position c) = true).

Lemma excusable_more lease drift cs cs' c :
  excusable lease drift cs c → cs ⊆ cs' → excusable lease drift cs' c.
Proof.
  intros [(at_ & Hin & Hlt)|(w & p & w' & p' & H1 & H2 & Hle & Hf)] Hsub.
  - left. exists at_. split; [by apply Hsub|done].
  - right. exists w, p, w', p'. split_and!; [by apply Hsub..|done|done].
Qed.

Lemma bytes_ok : 0 < capacity_bytes < 2 ^ 64.
Proof. unfold capacity_bytes. lia. Qed.

Lemma reports_ok : 0 < capacity_reports.
Proof. unfold capacity_reports. lia. Qed.

Section accounting.
Variables (lease drift : Z).

Abbreviation shows := (KeptReportStore.shows capacity_bytes capacity_reports capacity_bytes).
Abbreviation queued := KeptReportStore.queued.

Record accounted (cs : list call) (s : t) (q : KeptReportStore.queue) (l : list ForwardedSample)
    (fw ex ov : list KeptReportStore.copy) : Prop := mk_accounted {
  ac_store : shows (store_ s) q;
  ac_ring : ring_shows forwarded_sample_capacity (samples_ s) (samples_head_ s) (samples_count_ s) l;
  ac_samples : Forall (λ x, LeaderRecord (written_ns x) (Some (through x)) ∈ cs) l;
  ac_latest : latest_record_written_ns_ s = 0 ∨
    ∃ p, LeaderRecord (latest_record_written_ns_ s) p ∈ cs;
  ac_granted : last_granted_to_leader_ s = 0 ∨ Granted (last_granted_to_leader_ s) ∈ cs;
  ac_lease : lease_period_ s = lease ∧ drift_allowance_ s = drift;
  ac_timely : Forall timely cs;
  ac_each : kept_in cs ≡ₚ fw ++ ex ++ ov ++ queued q;
  ac_order : fw ++ queued q `sublist_of` kept_in cs;
  ac_forwarded : forwards (outputs s) = report_of <$> fw;
  ac_excused : Forall (excusable lease drift cs) ex;
  ac_overwritten : Z.of_nat (length ov) = KeptReportStore.queue_lost q
}.

Definition accounts (cs : list call) (s : t) : Prop := ∃ q l fw ex ov, accounted cs s q l fw ex ov.

Lemma returns_on_store {A} (m : comp KeptReportStore.t A) s Q :
  returns m (store_ s) (λ st a, Q (with_store s st) a) → returns (on_store m) s Q.
Proof. unfold returns, on_store. cbn. by destruct (m (store_ s)) as [st [a|e]]. Qed.

(** A call that keeps nothing. *)
Lemma kept_in_snoc cs c : kept_in (cs ++ [c]) = kept_in cs ++ option_list (kept_by c).
Proof. unfold kept_in. rewrite omap_app. cbn. by destruct (kept_by c). Qed.

Lemma drop_front_split (p : KeptReportStore.copy → bool) l :
  ∃ gone, l = gone ++ KeptReportStore.drop_front p l ∧ Forall (λ c, p c = true) gone.
Proof.
  induction l as [|c l (gone & He & Hg)]; [by exists []|]. cbn. destruct (p c) eqn:Hp.
  - exists (c :: gone). split; [cbn; by f_equal|by constructor].
  - by exists [].
Qed.

(** Copies from the front go, each of them excusable. *)
Lemma accounted_discard cs s st q l fw ex ov (p : KeptReportStore.copy → bool) :
  accounted cs s q l fw ex ov →
  (∀ c, c ∈ kept_in cs → p c = true → excusable lease drift cs c) →
  shows st (KeptReportStore.mk_queue (KeptReportStore.drop_front p (queued q)) (KeptReportStore.queue_lost q)) →
  ∃ ex', accounted cs (with_store s st)
    (KeptReportStore.mk_queue (KeptReportStore.drop_front p (queued q)) (KeptReportStore.queue_lost q)) l fw ex' ov.
Proof.
  intros [] Hp Hs. destruct (drop_front_split p (queued q)) as (gone & He & Hg).
  exists (ex ++ gone). constructor; cbn; try done.
  - rewrite ac_each0, He at 1. by solve_Permutation.
  - etrans; [|exact ac_order0]. rewrite He at 2. apply sublist_app; [done|]. by apply sublist_inserts_l.
  - apply Forall_app. split; [done|]. apply Forall_forall. intros c Hc. apply Hp.
    + rewrite ac_each0, He, !elem_of_app. auto.
    + by apply (proj1 (Forall_forall _ _) Hg).
Qed.

Lemma accounted_more cs s q l fw ex ov c :
  accounted cs s q l fw ex ov → timely c → kept_by c = None →
  accounted (cs ++ [c]) s q l fw ex ov.
Proof.
  intros [] Ht Hk. assert (Hsub : cs ⊆ cs ++ [c]) by (intros x Hx; apply elem_of_app; auto).
  constructor; try done; rewrite ?kept_in_snoc, ?Hk, ?app_nil_r; try done.
  - eapply Forall_impl; [done|]. intros x Hx. by apply Hsub.
  - destruct ac_latest0 as [?|[p Hp]]; [by left|right]. exists p. by apply Hsub.
  - destruct ac_granted0; [by left|right]. by apply Hsub.
  - apply Forall_app. by repeat constructor.
  - eapply Forall_impl; [done|]. intros x Hx. by eapply excusable_more.
Qed.

Lemma kept_timely cs c :
  Forall timely cs → c ∈ kept_in cs → time_point_min ≤ KeptReportStore.copy_received_at c.
Proof.
  intros Ht Hc. apply list_elem_of_omap in Hc as (x & Hx & Hk).
  apply (proj1 (Forall_forall _ _) Ht) in Hx. destruct x; cbn in Hk; simplify_eq. done.
Qed.

(** Before [needed_from]. *)
Lemma old_excusable cs s q l fw ex ov c :
  accounted cs s q l fw ex ov → c ∈ kept_in cs →
  KeptReportStore.copy_received_at c < needed_from s → excusable lease drift cs c.
Proof.
  intros [] Hc Hlt. unfold needed_from in Hlt. destruct ac_lease0 as [Hle Hdr]. rewrite Hle, Hdr in Hlt.
  pose proof (kept_timely _ _ ac_timely0 Hc). destruct (Z.eqb_spec (last_granted_to_leader_ s) 0); [lia|].
  left. exists (last_granted_to_leader_ s). by destruct ac_granted0.
Qed.

Lemma discard_old cs s q l fw ex ov :
  accounted cs s q l fw ex ov →
  returns (on_store (KeptReportStore.discard_received_before (needed_from s))) s (λ s' _,
    needed_from s' = needed_from s ∧ ∃ q' ex', accounted cs s' q' l fw ex' ov).
Proof.
  intros Ha. apply returns_on_store.
  eapply returns_mono; [apply (KeptReportStore.discard_before_promised capacity_bytes capacity_reports capacity_bytes bytes_ok), Ha|]. cbn.
  intros st _ Hs. split; [done|].
  destruct (accounted_discard _ _ _ _ _ _ _ _ _ Ha (λ c Hc Hlt,
    old_excusable _ _ _ _ _ _ _ c Ha Hc (proj1 (Z.ltb_lt _ _) Hlt)) Hs) as [ex' Ha'].
  eauto.
Qed.

Lemma keep_in_store cs s q l fw ex ov n bytes p now :
  accounted cs s q l fw ex ov → time_point_min ≤ now →
  returns (on_store (KeptReportStore.keep n bytes now (needed_from s) p)) s (λ s' _,
    accounts (cs ++ [Keep n bytes p now]) s').
Proof.
  intros Ha Ht. apply returns_on_store.
  eapply returns_mono; [apply (KeptReportStore.keep_promised capacity_bytes capacity_reports capacity_bytes bytes_ok reports_ok); [apply Ha|exact (λ h, h)]|]. cbn.
  intros st _ (q' & Hs' & Hp). set (k := Keep n bytes p now). set (copy := KeptReportStore.mk_copy n bytes now p).
  assert (Hsub : cs ⊆ cs ++ [k]) by (intros x Hx; apply elem_of_app; auto).
  assert (Hbase : ∀ fw' ex' ov',
    kept_in cs ++ [copy] ≡ₚ fw' ++ ex' ++ ov' ++ queued q' →
    fw' ++ queued q' `sublist_of` kept_in cs ++ [copy] →
    fw' = fw → Forall (excusable lease drift cs) ex' →
    Z.of_nat (length ov') = KeptReportStore.queue_lost q' → accounts (cs ++ [k]) (with_store s st)).
  { intros fw' ex' ov' He Ho -> Hex Hov. destruct Ha. exists q', l, fw, ex', ov'.
    constructor; rewrite ?kept_in_snoc; cbn; try done.
    - eapply Forall_impl; [done|]. intros x Hx. by apply Hsub.
    - destruct ac_latest0 as [?|[r Hr]]; [by left|right]. exists r. by apply Hsub.
    - destruct ac_granted0; [by left|right]. by apply Hsub.
    - apply Forall_app. by repeat constructor.
    - eapply Forall_impl; [done|]. intros x Hx. by eapply excusable_more. }
  pose proof Ha as []. inversion Hp as [l0 lost ? ? ? ? ? j Hj Hcr|l0 lost ? ? ? ? ? Hlt| | |]; subst; cbn in *.
  - set (gone := take j l0) in *. set (P := λ c, needed_from s ≤ KeptReportStore.copy_received_at c) in *.
    assert (Hl0 : l0 = gone ++ drop j l0) by (symmetry; apply take_drop).
    apply (Hbase fw (ex ++ filter (λ c, ¬ P c) gone) (ov ++ filter P gone)); try done.
    + rewrite ac_each0, Hl0 at 1. rewrite <- (filter_app_complement P gone) at 1. by solve_Permutation.
    + rewrite (assoc_L (++)). apply sublist_app; [|done]. etrans; [|exact ac_order0].
      rewrite Hl0 at 2. apply sublist_app; [done|]. by apply sublist_inserts_l.
    + apply Forall_app. split; [done|]. apply Forall_forall. intros c Hc. apply list_elem_of_filter in Hc as [Hnot Hc].
      eapply old_excusable; [done| |unfold P in Hnot; lia]. rewrite ac_each0, Hl0, !elem_of_app. auto.
    + rewrite length_app. lia.
  - apply (Hbase fw ex (ov ++ [copy])); try done.
    + rewrite ac_each0. by solve_Permutation.
    + etrans; [exact ac_order0|]. by apply sublist_inserts_r.
    + rewrite length_app. cbn. lia.
Qed.

Lemma accounted_same cs s s' q l fw ex ov :
  accounted cs s q l fw ex ov →
  store_ s' = store_ s → samples_ s' = samples_ s → samples_head_ s' = samples_head_ s →
  samples_count_ s' = samples_count_ s → latest_record_written_ns_ s' = latest_record_written_ns_ s →
  last_granted_to_leader_ s' = last_granted_to_leader_ s → lease_period_ s' = lease_period_ s →
  drift_allowance_ s' = drift_allowance_ s → forwards (outputs s') = forwards (outputs s) →
  accounted cs s' q l fw ex ov.
Proof.
  intros [] H1 H2 H3 H4 H5 H6 H7 H8 H9.
  constructor; rewrite ?H1, ?H2, ?H3, ?H4, ?H5, ?H6, ?H7, ?H8, ?H9; done.
Qed.

Lemma forwards_app os os' : forwards (os ++ os') = forwards os ++ forwards os'.
Proof. apply omap_app. Qed.

Lemma forwards_given given : forwards ((λ g, ForwardKeptReport g.1 g.2) <$> given) = given.
Proof. induction given as [|[n bytes] given IH]; [done|]. cbn. f_equal. exact IH. Qed.

Lemma keep_accounts cs s n bytes p now :
  accounts cs s → time_point_min ≤ now →
  returns (keep n bytes p now) s (λ s' _, accounts (cs ++ [Keep n bytes p now]) s').
Proof.
  intros (q & l & fw & ex & ov & Ha) Ht. apply returns_bind. eapply returns_eq; [done|].
  apply returns_bind. eapply returns_mono; [by eapply discard_old|]. cbn.
  intros s1 _ (Hn & q1 & ex1 & Ha1). apply returns_bind. rewrite <- Hn.
  eapply returns_mono; [by eapply keep_in_store|]. cbn. intros s2 _ (q2 & l2 & fw2 & ex2 & ov2 & Ha2).
  do 2 (apply returns_bind; eapply returns_eq; [done|]).
  destruct (lost s2 =? lost_reported_ s2); [eapply returns_eq; [done|]; by eexists _, _, _, _, _|].
  apply returns_bind. eapply returns_eq; [done|]. eapply returns_eq; [done|].
  exists q2, l2, fw2, ex2, ov2. eapply accounted_same; [exact Ha2|try done..].
  cbn. rewrite forwards_app. apply app_nil_r.
Qed.

(** Where the samples are. *)
Lemma sample_at cs s q l fw ex ov i x Q :
  accounted cs s q l fw ex ov →
  samples_ s !! ring_slot forwarded_sample_capacity (samples_head_ s) i = Some x →
  Q s x → returns (sample i) s Q.
Proof. intros _ Hx HQ. unfold returns, sample, ask. by rewrite Hx. Qed.

Lemma accounted_samples cs s q l fw ex ov a h c l' :
  accounted cs s q l fw ex ov → ring_shows forwarded_sample_capacity a h c l' →
  Forall (λ x, LeaderRecord (written_ns x) (Some (through x)) ∈ cs) l' →
  accounted cs (with_samples s a h c) q l' fw ex ov.
Proof. intros [] ? ?. by constructor. Qed.

Lemma push_sample_accounts cs s q l fw ex ov x :
  accounted cs s q l fw ex ov → samples_count_ s < forwarded_sample_capacity →
  LeaderRecord (written_ns x) (Some (through x)) ∈ cs →
  returns (push_sample x) s (λ s' _, accounts cs s').
Proof.
  intros Ha Hlt Hin. pose proof (ac_ring _ _ _ _ _ _ _ Ha) as Hr. unfold returns, push_sample.
  pose proof (ring_slot_bound forwarded_sample_capacity (samples_head_ s) (samples_count_ s) ltac:(done)).
  rewrite (proj2 (Nat.ltb_lt _ _)) by (pose proof (rs_array _ _ _ _ _ Hr); lia).
  exists q, (l ++ [x]), fw, ex, ov. eapply accounted_samples; [done|by apply ring_push|].
  apply Forall_app. split; [apply Ha|by repeat constructor].
Qed.

Lemma record_accounts cs s w p :
  accounts cs s → 0 ≤ w →
  returns (leader_record_written w p) s (λ s' _, accounts (cs ++ [LeaderRecord w p]) s').
Proof.
  intros (q & l & fw & ex & ov & Ha) Ht. set (c := LeaderRecord w p).
  assert (Hin : c ∈ cs ++ [c]) by (apply elem_of_app; right; by left).
  apply (accounted_more _ _ _ _ _ _ _ c) in Ha; [|done..].
  apply returns_bind. eapply returns_eq; [done|].
  assert (Ha1 : accounted (cs ++ [c]) (with_latest s (Z.max (latest_record_written_ns_ s) w)) q l fw ex ov).
  { destruct Ha. constructor; cbn; try done. destruct (Z.max_spec (latest_record_written_ns_ s) w) as [[_ ->]|[_ ->]]; [|done].
    right. by exists p. }
  destruct p as [p|]; [|eapply returns_eq; [done|]; by eexists _, _, _, _, _].
  revert Ha1. generalize (with_latest s (Z.max (latest_record_written_ns_ s) w)). clear s Ha. intros s Ha.
  pose proof (ac_ring _ _ _ _ _ _ _ Ha) as Hr.
  apply returns_bind. eapply returns_eq; [done|]. apply returns_bind.
  assert (Hnewest : ∃ moved : bool, returns (if 0 <? samples_count_ s then
      newest ← sample (samples_count_ s - 1); mret (EngineReportPosition.is_after p (through newest))
      else mret true) s (λ s' a, s' = s ∧ a = moved)).
  { destruct (Z.ltb_spec 0 (samples_count_ s)); [|by eexists; eapply returns_eq].
    destruct l as [|x l _] using rev_ind; [pose proof (rs_count _ _ _ _ _ Hr); cbn in *; lia|].
    eexists. apply returns_bind. eapply sample_at; [exact Ha|by eapply ring_last|]. by eapply returns_eq. }
  destruct Hnewest as [moved Hnewest]. eapply returns_mono; [exact Hnewest|]. cbn. intros ? ? [-> ->].
  destruct moved; [|eapply returns_eq; [done|]; by eexists _, _, _, _, _].
  apply returns_bind. pose proof (rs_fits _ _ _ _ _ Hr).
  destruct (Z.eqb_spec (samples_count_ s) forwarded_sample_capacity) as [He|Hne]; (eapply returns_eq; [done|]).
  - destruct (ring_full _ _ _ _ _ Hr He) as (x & rest & ->).
    eapply push_sample_accounts; [|cbn; lia|done].
    eapply accounted_samples; [done|by eapply ring_pop_front|].
    by apply (Forall_cons_1 _ x rest), Ha.
  - eapply push_sample_accounts; [done|lia|done].
Qed.

Lemma drop_samples_accounts cs cutoff : ∀ turns s q l fw ex ov,
  accounted cs s q l fw ex ov → (length l ≤ turns)%nat →
  returns (drop_samples turns cutoff) s (λ s' _,
    store_ s' = store_ s ∧ latest_record_written_ns_ s' = latest_record_written_ns_ s ∧
    ∃ l', accounted cs s' q l' fw ex ov).
Proof.
  induction turns as [|turns IH]; intros s q l fw ex ov Ha Hl; cbn [drop_samples].
  all: pose proof (ac_ring _ _ _ _ _ _ _ Ha) as Hr; pose proof (rs_count _ _ _ _ _ Hr) as Hc.
  all: apply returns_bind; eapply returns_eq; [done|].
  all: destruct (Z.leb_spec 2 (samples_count_ s)); [|eapply returns_eq; [done|]; eauto].
  { destruct l; cbn in *; lia. }
  destruct l as [|x [|y l]]; cbn in Hc, Hl; [lia..|].
  apply returns_bind. eapply sample_at; [exact Ha|by eapply ring_second|].
  destruct (written_ns y <=? cutoff); [|eapply returns_eq; [done|]; eauto].
  apply returns_bind. eapply returns_eq; [done|].
  eapply returns_mono; [eapply (IH _ q (y :: l) fw ex ov)|].
  - eapply accounted_samples; [done|by eapply ring_pop_front|]. by apply (Forall_cons_1 _ x (y :: l)), Ha.
  - cbn. lia.
  - cbn. intros s' _ (-> & -> & Ha'). done.
Qed.

Lemma discard_forwarded_accounts cs s :
  accounts cs s → returns discard_those_the_leader_forwarded s (λ s' _, accounts cs s').
Proof.
  intros (q & l & fw & ex & ov & Ha). apply returns_bind. eapply returns_eq; [done|]. cbn beta zeta.
  apply returns_bind. eapply returns_eq; [done|]. apply returns_bind.
  pose proof (rs_count _ _ _ _ _ (ac_ring _ _ _ _ _ _ _ Ha)) as Hc.
  eapply returns_mono; [eapply drop_samples_accounts; [done|lia]|]. cbn.
  intros s1 _ (Hst & Hlat & l1 & Ha1). rewrite <- Hlat. clear s l Ha Hst Hlat Hc.
  apply returns_bind. eapply returns_eq; [done|].
  pose proof (ac_ring _ _ _ _ _ _ _ Ha1) as Hr.
  destruct (Z.eqb_spec (samples_count_ s1) 0); [eapply returns_eq; [done|]; by eexists _, _, _, _, _|].
  destruct l1 as [|x l1]; [pose proof (rs_count _ _ _ _ _ Hr); cbn in *; lia|].
  apply returns_bind. eapply sample_at; [exact Ha1|by eapply ring_first|].
  destruct (Z.ltb_spec (latest_record_written_ns_ s1 - reports_forwarded_delay) (written_ns x));
    [eapply returns_eq; [done|]; by eexists _, _, _, _, _|].
  apply returns_bind. apply returns_on_store.
  eapply returns_mono; [apply (KeptReportStore.discard_through_promised capacity_bytes capacity_reports
    capacity_bytes bytes_ok), Ha1|]. cbn. intros st gone Hs.
  edestruct (accounted_discard cs s1 st q (x :: l1) fw ex ov) as [ex' Ha']; [done| |exact Hs|].
  - intros c _ Hf. right. pose proof (ac_samples _ _ _ _ _ _ _ Ha1) as Hin. apply Forall_cons in Hin as [Hin _].
    pose proof (proj1 (Forall_forall _ _) (ac_timely _ _ _ _ _ _ _ Ha1) _ Hin) as H0. cbn in H0.
    destruct (ac_latest _ _ _ _ _ _ _ Ha1) as [Hz|[p' Hp']]; [unfold reports_forwarded_delay in *; lia|].
    eexists _, _, _, _. split_and!; [exact Hin|exact Hp'|lia|done].
  - eapply returns_eq; [done|]. eexists _, _, _, _, _. by eapply accounted_same.
Qed.

Lemma forward_all_accounts cs s :
  accounts cs s → returns forward_all s (λ s' _,
    ∃ q l fw ex ov, accounted cs s' q l fw ex ov ∧ queued q = []).
Proof.
  intros (q & l & fw & ex & ov & Ha). apply returns_bind. eapply returns_eq; [done|].
  apply returns_bind. eapply returns_mono; [by eapply discard_old|]. cbn.
  intros s1 _ (_ & q1 & ex1 & Ha1).
  do 5 (apply returns_bind; eapply returns_eq; [done|]).
  apply returns_bind. apply returns_on_store.
  eapply returns_mono; [apply (KeptReportStore.take_all_promised capacity_bytes capacity_reports
    capacity_bytes bytes_ok), Ha1|]. cbn. intros st given [Hs ->]. eapply returns_eq; [done|].
  exists (KeptReportStore.mk_queue [] (KeptReportStore.queue_lost q1)), l, (fw ++ queued q1), ex1, ov.
  split; [|done]. destruct Ha1. constructor; cbn; try done.
  - rewrite ac_each0, app_nil_r. by solve_Permutation.
  - by rewrite app_nil_r.
  - rewrite !forwards_app, fmap_app, <- ac_forwarded0. cbn. rewrite app_nil_r. f_equal.
    apply forwards_given.
Qed.

Lemma apply_accounts cs s c :
  accounts cs s → timely c → returns (apply c) s (λ s' _, accounts (cs ++ [c]) s').
Proof.
  intros Ha Ht.
  assert (Hmore : kept_by c = None → accounts (cs ++ [c]) s).
  { intros Hk. destruct Ha as (q & l & fw & ex & ov & Ha). exists q, l, fw, ex, ov.
    by apply accounted_more. }
  destruct c as [at_|n bytes p now|w p|now| |]; cbn [apply].
  - eapply returns_eq; [done|]. destruct (Hmore eq_refl) as (q & l & fw & ex & ov & []).
    exists q, l, fw, ex, ov. constructor; cbn; try done. right. apply elem_of_app. right. by left.
  - by apply keep_accounts.
  - by apply record_accounts.
  - apply returns_bind. eapply returns_eq; [done|].
    destruct (discard_interval <=? now - discarded_at_ s); [|eapply returns_eq; [done|by apply Hmore]].
    apply returns_bind. eapply returns_eq; [done|]. apply discard_forwarded_accounts.
    destruct (Hmore eq_refl) as (q & l & fw & ex & ov & Ha'). exists q, l, fw, ex, ov.
    by eapply accounted_same.
  - by apply discard_forwarded_accounts, Hmore.
  - eapply returns_mono; [by apply forward_all_accounts, Hmore|]. cbn.
    intros s' _ (q & l & fw & ex & ov & Ha' & _). by exists q, l, fw, ex, ov.
Qed.

Lemma run_accounts cs' : ∀ cs s,
  accounts cs s → Forall timely cs' →
  returns (run cs') s (λ s' _, accounts (cs ++ cs') s').
Proof.
  induction cs' as [|c cs' IH]; intros cs s Ha Ht; cbn [run].
  - eapply returns_eq; [done|]. by rewrite app_nil_r.
  - apply Forall_cons in Ht as [Ht Hts]. apply returns_bind.
    eapply returns_mono; [by apply apply_accounts|]. cbn. intros s1 _ Ha1.
    rewrite cons_middle, (assoc_L (++)). by apply IH.
Qed.

Lemma run_app cs cs' s Q :
  returns (run cs) s (λ s' _, returns (run cs') s' Q) → returns (run (cs ++ cs')) s Q.
Proof.
  revert s. induction cs as [|c cs IH]; intros s; cbn [run app].
  - done.
  - intros Hr. apply returns_bind. apply returns_inv in Hr as (s' & a & Hrun & HQ).
    unfold mbind, comp_bind in Hrun. destruct (apply c s) as [s1 [[]|e]] eqn:Hc; [|done].
    eapply returns_eq; [done|]. apply IH. by eapply returns_eq.
Qed.

Lemma make_accounts : ∃ s, make lease drift = Returns s ∧ accounts [] s.
Proof.
  destruct (KeptReportStore.make_shows _ _ capacity_bytes bytes_ok reports_ok) as (st & Hst & Hs).
  unfold make. rewrite Hst. eexists. split; [reflexivity|].
  exists (KeptReportStore.mk_queue [] 0), [], [], [], []. constructor; try done; [|by left..].
  apply ring_empty; [done| |done]. cbn [samples_]. rewrite length_replicate. done.
Qed.

End accounting.

End KeptReports.

(** ** Properties *)

(** C31: Taking the lead, an instance forwards every report it was given while it
    did not lead, in the order they came and as they came, except those that are
    excusable (they came more than a lease period and the drift allowance before
    the leader was last known to lead, or a record the leader wrote at least
    100 ms before a later one says it had forwarded them) and those that were
    overwritten or too large for the store, every one of which [lost] counts. *)
Theorem kept_reports_reach_their_members lease drift cs :
  Forall KeptReports.timely cs →
  ∃ s s' forwarded excused overwritten,
    KeptReports.make lease drift = Returns s ∧
    KeptReports.run (cs ++ [KeptReports.ForwardAll]) s = (s', Returns ()) ∧
    KeptReports.kept_in cs ≡ₚ forwarded ++ excused ++ overwritten ∧
    forwarded `sublist_of` KeptReports.kept_in cs ∧
    KeptReports.forwards (KeptReports.outputs s') = KeptReports.report_of <$> forwarded ∧
    Forall (KeptReports.excusable lease drift cs) excused ∧
    Z.of_nat (length overwritten) = KeptReports.lost s'.
Proof.
  intros Ht. destruct (KeptReports.make_accounts lease drift) as (s & Hmake & Ha).
  assert (Hrun : returns (KeptReports.run (cs ++ [KeptReports.ForwardAll])) s (λ s' _,
    ∃ q l fw ex ov, KeptReports.accounted lease drift cs s' q l fw ex ov ∧ KeptReportStore.queued q = [])).
  { apply KeptReports.run_app. eapply returns_mono; [by apply (KeptReports.run_accounts lease drift cs [] s Ha)|].
    cbn. intros s1 _ Ha1. apply returns_bind.
    eapply returns_mono; [by apply KeptReports.forward_all_accounts|]. cbn. intros. by eapply returns_eq. }
  apply returns_inv in Hrun as (s' & [] & Hrun & q & l & fw & ex & ov & [] & Hq).
  rewrite Hq, app_nil_r in *. exists s, s', fw, ex, ov. split_and!; try done.
  destruct (KeptReportStore.shows_counts _ _ _ KeptReports.bytes_ok _ _ ac_store) as (_ & _ & Hlost).
  unfold KeptReports.lost. by rewrite Hlost.
Qed.

(** Two reports kept, of which the leader is known to have forwarded the first. *)
Lemma kept_reports_reach_their_members_witness :
  let p n := Some (EngineReportPosition.mk 5 n) in
  let cs :=
    [KeptReports.Keep 1 [7] (p 1) 1000; KeptReports.Keep 2 [8; 9] (p 2) 2000;
     KeptReports.LeaderRecord 3000 (p 1); KeptReports.LeaderRecord 200000000 None;
     KeptReports.DiscardThoseTheLeaderForwarded] in
  ∃ s s' forwarded excused overwritten,
    KeptReports.make 3000000000 250000000 = Returns s ∧
    KeptReports.run (cs ++ [KeptReports.ForwardAll]) s = (s', Returns ()) ∧
    KeptReports.kept_in cs ≡ₚ forwarded ++ excused ++ overwritten.
Proof.
  intros p cs.
  destruct (kept_reports_reach_their_members 3000000000 250000000 cs)
    as (s & s' & fw & ex & ov & Hmake & Hrun & Hperm & _).
  - repeat (apply Forall_cons_2; [by vm_compute|]). apply Forall_nil_2.
  - by exists s, s', fw, ex, ov.
Defined.
