(* ===== verification/OrderRelease.v ===== *)
(** Holding each order until it may be sent to the leading matching engine:
    sequencer/OrderRelease.{hpp,cpp}.

    [links] is what OrderReleaseLinksInterface answers during a call, and
    [outputs] the calls made of it, oldest first.  Its [release_through] comes
    back to this class: it is SequencerThread::release_held_orders_through.  An
    envelope is a generated type; what is used of it is its number and that its
    payload can be taken off. *)

From S2P Require Import Prelude.
From S2P Require Import WalEntry.
From S2P Require Import RingBuffer.
#[local] Open Scope Z_scope.

Class Envelope (E : Type) := {
  envelope_seq_no : E → Z;
  without_payload : E → E;
  without_payload_seq_no e : envelope_seq_no (without_payload e) = envelope_seq_no e
}.

Module OrderRelease.

Inductive Reading := reading | paused_for_held_orders | paused_for_hand_over.

#[export] Instance Reading_eq_dec : EqDecision Reading.
Proof. solve_decision. Defined.

Definition engine_position_ask_interval : Z := 1000.
Definition own_payload_capacity : Z := 64.

(** What the links answer; [leading_engine_connection] is [None] when invalid. *)
Record links := mk_links {
  committed_through : Z;
  last_seq_no : Z;
  waits_for_confirmation : bool;
  waits_for_follower : bool;
  leading : bool;
  an_engine_takes_orders : bool;
  leading_engine_connection : option Z
}.

Section release.
Context {E : Type} `{Envelope E}.

(** [message] is the inbound message whose buffer the envelope points into, and
    [None] for a command of the sequencer's own. *)
Record HeldOrder := mk_held {
  envelope : E;
  message : option Z;
  own_payload : list Z
}.

Definition seq_no (o : HeldOrder) : Z := envelope_seq_no (envelope o).

Inductive output :=
  | SendToLeadingEngine (held : HeldOrder)
  | SendOrdersThatWaitedInTheWal (first : Z)
  | SendReleasedToFollowerEngines (released_through : Z)
  | SendEngineOrdersAfter (after : Z)
  | ReleaseMessage (message : Z)
  | PauseReading (connection : Z)
  | ResumeReading (connection : Z)
  | ReleasedPositionMoved (released_through : Z)
  | AskEnginePosition (connection request_id : Z)
  | HeldOrdersFull (first_seq_no : Z).

Record t := mk {
  capacity_ : Z;
  held_ : RingBuffer.t HeldOrder;
  first_unheld_seq_ : Z;
  order_connections_ : list Z;
  reading_ : Reading;
  awaiting_engine_position_ : bool;
  held_at_takeover_ : Z;
  engine_position_request_id_ : Z;
  engine_position_asks_ : Z;
  engine_position_asked_at_ : Z;
  outputs : list output
}.

Definition make (capacity : Z) : outcome t :=
  obind (RingBuffer.make capacity) (λ held,
  Returns (mk capacity held 0 [] reading false 0 0 0 0 [])).

Definition with_held s x := mk (capacity_ s) x (first_unheld_seq_ s) (order_connections_ s)
  (reading_ s) (awaiting_engine_position_ s) (held_at_takeover_ s) (engine_position_request_id_ s)
  (engine_position_asks_ s) (engine_position_asked_at_ s) (outputs s).
Definition with_first_unheld s x := mk (capacity_ s) (held_ s) x (order_connections_ s)
  (reading_ s) (awaiting_engine_position_ s) (held_at_takeover_ s) (engine_position_request_id_ s)
  (engine_position_asks_ s) (engine_position_asked_at_ s) (outputs s).
Definition with_connections s x := mk (capacity_ s) (held_ s) (first_unheld_seq_ s) x
  (reading_ s) (awaiting_engine_position_ s) (held_at_takeover_ s) (engine_position_request_id_ s)
  (engine_position_asks_ s) (engine_position_asked_at_ s) (outputs s).
Definition with_reading s x := mk (capacity_ s) (held_ s) (first_unheld_seq_ s) (order_connections_ s)
  x (awaiting_engine_position_ s) (held_at_takeover_ s) (engine_position_request_id_ s)
  (engine_position_asks_ s) (engine_position_asked_at_ s) (outputs s).
Definition with_awaiting s x := mk (capacity_ s) (held_ s) (first_unheld_seq_ s) (order_connections_ s)
  (reading_ s) x (held_at_takeover_ s) (engine_position_request_id_ s)
  (engine_position_asks_ s) (engine_position_asked_at_ s) (outputs s).
Definition with_asking s takeover id asks at_ := mk (capacity_ s) (held_ s) (first_unheld_seq_ s)
  (order_connections_ s) (reading_ s) (awaiting_engine_position_ s) takeover id asks at_ (outputs s).
Definition with_outputs s x := mk (capacity_ s) (held_ s) (first_unheld_seq_ s) (order_connections_ s)
  (reading_ s) (awaiting_engine_position_ s) (held_at_takeover_ s) (engine_position_request_id_ s)
  (engine_position_asks_ s) (engine_position_asked_at_ s) x.

Definition this : comp t t := gets (λ s, s).
Definition tell (os : list output) : comp t unit := modify (λ s, with_outputs s (outputs s ++ os)).

(** A member function of [held_]. *)
Definition on_held {A} (m : comp (RingBuffer.t HeldOrder) A) : comp t A := λ s,
  let r := m (held_ s) in (with_held s r.1, r.2).

Definition oldest (s : t) : outcome HeldOrder := RingBuffer.front (held_ s).
Definition none_held (s : t) : bool := RingBuffer.empty (held_ s).
Definition held (s : t) : Z := RingBuffer.size (held_ s).
Definition first_unheld (s : t) : Z := first_unheld_seq_ s.

Definition pause_at (s : t) : Z := capacity_ s * 3 / 4.
Definition resume_at (s : t) : Z := capacity_ s / 4.

(** *** Holding *)

Definition note_unheld (seq : Z) (said : list output) : comp t unit :=
  s ← this;
  if first_unheld_seq_ s =? 0
  then modify (λ s, with_first_unheld s seq) ;; tell said
  else mret ().

Definition hold (e : E) (slab_id : Z) : comp t unit :=
  s ← this;
  kept ←
    (if first_unheld_seq_ s =? 0 then on_held (RingBuffer.push_back (mk_held e (Some slab_id) []))
     else mret false);
  if (kept : bool) then mret ()
  else
    note_unheld (envelope_seq_no e) [HeldOrdersFull (envelope_seq_no e)] ;;
    tell [ReleaseMessage slab_id].

Definition hold_own_command (e : E) (bytes : list Z) : comp t unit :=
  if own_payload_capacity <? size bytes then throw UndefinedBehaviour
  else
    s ← this;
    kept ←
      (if negb (first_unheld_seq_ s =? 0) then mret false
       else on_held (RingBuffer.push_back (mk_held (without_payload e) None bytes)));
    if (kept : bool) then mret () else note_unheld (envelope_seq_no e) [].

Definition released_through (k : links) (s : t) : outcome Z :=
  if negb (none_held s) then
    obind (oldest s) (λ o, Returns (Z.min (committed_through k) (seq_no o - 1)))
  else if negb (first_unheld_seq_ s =? 0)
  then Returns (Z.min (committed_through k) (first_unheld_seq_ s - 1))
  else Returns (Z.min (committed_through k) (last_seq_no k)).

Definition held_orders_wait_on_the_follower (k : links) (s : t) : outcome bool :=
  if negb (waits_for_follower k) || (negb (RingBuffer.full (held_ s)) && (first_unheld_seq_ s =? 0))
  then Returns false
  else
    obind (if none_held s then Returns (first_unheld_seq_ s)
           else obind (oldest s) (λ o, Returns (seq_no o)))
      (λ oldest, Returns (committed_through k <? oldest)).

(** *** Reading from the gateways *)

Definition pause_or_resume_reading (k : links) : comp t unit :=
  s ← this;
  let waiting_for_confirmation :=
    leading k && (waits_for_confirmation k || awaiting_engine_position_ s) in
  match reading_ s with
  | paused_for_hand_over => mret ()
  | reading =>
      if waiting_for_confirmation && ((pause_at s <=? held s) || negb (first_unheld_seq_ s =? 0)) then
        tell (PauseReading <$> order_connections_ s) ;;
        modify (λ s, with_reading s paused_for_held_orders)
      else mret ()
  | paused_for_held_orders =>
      if waiting_for_confirmation && ((resume_at s <? held s) || negb (first_unheld_seq_ s =? 0))
      then mret ()
      else
        tell (ResumeReading <$> order_connections_ s) ;;
        modify (λ s, with_reading s reading)
  end.

Definition order_connection_established (connection : Z) : comp t unit :=
  modify (λ s, with_connections s (order_connections_ s ++ [connection])) ;;
  s ← this;
  if bool_decide (reading_ s = reading) then mret () else tell [PauseReading connection].

(** [erase] of the first one found. *)
Fixpoint erase_first (connection : Z) (l : list Z) : option (list Z) :=
  match l with
  | [] => None
  | c :: l => if c =? connection then Some l else cons c <$> erase_first connection l
  end.

Definition order_connection_lost (connection : Z) : comp t bool :=
  s ← this;
  match erase_first connection (order_connections_ s) with
  | None => mret false
  | Some l => modify (λ s, with_connections s l) ;; mret true
  end.

Definition pause_for_hand_over : comp t unit :=
  s ← this;
  match reading_ s with
  | paused_for_hand_over => mret ()
  | r =>
      modify (λ s, with_reading s paused_for_hand_over) ;;
      if bool_decide (r = reading) then tell (PauseReading <$> order_connections_ s) else mret ()
  end.

Definition end_pause_for_hand_over (k : links) : comp t unit :=
  s ← this;
  match reading_ s with
  | paused_for_hand_over =>
      modify (λ s, with_reading s paused_for_held_orders) ;; pause_or_resume_reading k
  | _ => mret ()
  end.

(** *** Releasing *)

Definition freed (o : HeldOrder) : list output :=
  match message o with Some m => [ReleaseMessage m] | None => [] end.

(** Each turn sends an order. *)
Fixpoint send_held (turns : nat) (committed : Z) : comp t unit :=
  s ← this;
  if none_held s then mret ()
  else
    o ← ask oldest;
    if committed <? seq_no o then mret ()
    else
      tell [SendToLeadingEngine o] ;;
      tell (freed o) ;;
      on_held RingBuffer.pop_front ;;
      match turns with
      | O => throw DoesNotReturn
      | S turns => send_held turns committed
      end.

Definition released_position_moved (k : links) : comp t unit :=
  r ← ask (released_through k);
  tell [ReleasedPositionMoved r] ;;
  pause_or_resume_reading k.

Definition release_to_leading_engine (k : links) (committed : Z) : comp t unit :=
  s ← this;
  if awaiting_engine_position_ s || negb (an_engine_takes_orders k) then released_position_moved k
  else
    send_held (Z.to_nat (held s)) committed ;;
    s ← this;
    (if negb (first_unheld_seq_ s =? 0) && (first_unheld_seq_ s <=? committed) then
       tell [SendOrdersThatWaitedInTheWal (first_unheld_seq_ s)] ;;
       modify (λ s, with_first_unheld s (if last_seq_no k <=? committed then 0 else committed + 1))
     else mret ()) ;;
    released_position_moved k.

(** SequencerThread::release_held_orders_through. *)
Definition release_held_orders_through (k : links) (committed : Z) : comp t unit :=
  release_to_leading_engine k committed ;;
  r ← ask (released_through k);
  tell [SendReleasedToFollowerEngines r].

Definition release_orders_that_waited_for_the_engine (k : links) : comp t unit :=
  release_held_orders_through k (committed_through k).

Fixpoint discard_held (turns : nat) : comp t unit :=
  s ← this;
  if none_held s then mret ()
  else
    o ← ask oldest;
    tell (freed o) ;;
    on_held RingBuffer.pop_front ;;
    match turns with
    | O => throw DoesNotReturn
    | S turns => discard_held turns
    end.

Definition stopped_leading (k : links) : comp t unit :=
  modify (λ s, with_awaiting s false) ;;
  s ← this;
  discard_held (Z.to_nat (held s)) ;;
  modify (λ s, with_first_unheld s 0) ;;
  pause_or_resume_reading k.

(** *** The wait after taking the lead *)

Definition stop_awaiting_engine_position (k : links) : comp t unit :=
  modify (λ s, with_awaiting s false) ;;
  release_orders_that_waited_for_the_engine k.

Definition ask_engine_for_position (k : links) (now : Z) : comp t unit :=
  s ← this;
  match leading_engine_connection k with
  | None => if awaiting_engine_position_ s then stop_awaiting_engine_position k else mret ()
  | Some engine =>
      (if awaiting_engine_position_ s then mret ()
       else modify (λ s, with_asking (with_awaiting s true) (last_seq_no k)
              (engine_position_request_id_ s) 0 (engine_position_asked_at_ s))) ;;
      modify (λ s, with_asking s (held_at_takeover_ s) (engine_position_request_id_ s + 1)
        (engine_position_asks_ s + 1) now) ;;
      s ← this;
      tell [AskEnginePosition engine (engine_position_request_id_ s)]
  end.

Definition tick (k : links) (now asked : Z) : comp t unit :=
  s ← this;
  if awaiting_engine_position_ s &&
     (engine_position_ask_interval <=? now - engine_position_asked_at_ s)
  then ask_engine_for_position k asked
  else mret ().

Definition engine_position (k : links) (request_id highest_applied : Z) : comp t unit :=
  s ← this;
  if negb (awaiting_engine_position_ s) || negb (leading k) ||
     negb (request_id =? engine_position_request_id_ s)
  then mret ()
  else
    modify (λ s, with_awaiting s false) ;;
    (if (highest_applied <? held_at_takeover_ s) && an_engine_takes_orders k
     then tell [SendEngineOrdersAfter highest_applied] else mret ()) ;;
    release_orders_that_waited_for_the_engine k.

End release.
Arguments t : clear implicits.
Arguments HeldOrder : clear implicits.
Arguments output : clear implicits.
End OrderRelease.
