(* ===== verification/OrderReleaseTheorems.v ===== *)
(** Orders are released in order, once each, when they are committed. *)

From stdpp Require Import sorting.
From S2P Require Import Prelude.
From S2P Require Import WalEntry.
From S2P Require Import RingBuffer.
From S2P Require Import OrderRelease.
Import OrderRelease.
#[local] Open Scope Z_scope.

Section theorems.
Context {E : Type} `{Envelope E}.
Implicit Types (s : t E) (l : list (HeldOrder E)) (W : list Z).

(** ** What the engine is sent *)

(** The numbers of the orders sent, of those in [W]: an order sent by itself, or
    those that waited in the log, which the reading thread sends from the first
    of them through the position released. *)
Definition delivery W (sent : list Z * option Z) (o : output E) : list Z * option Z :=
  match o with
  | SendToLeadingEngine held => (sent.1 ++ [seq_no held], sent.2)
  | SendOrdersThatWaitedInTheWal first => (sent.1, Some first)
  | ReleasedPositionMoved r =>
      match sent.2 with
      | Some first => (sent.1 ++ filter (λ x, first ≤ x ≤ r) W, None)
      | None => sent
      end
  | _ => sent
  end.

Definition deliveries W (os : list (output E)) : list Z * option Z :=
  foldl (delivery W) ([], None) os.

#[local] Arguments deliveries : simpl never.

Definition position_in (o : output E) : option Z :=
  match o with ReleasedPositionMoved r => Some r | _ => None end.

(** The messages whose buffers are given back. *)
Definition freed_in (o : output E) : option Z :=
  match o with ReleaseMessage m => Some m | _ => None end.

(** Outputs that send and free nothing. *)
Definition quiet (o : output E) : bool :=
  match o with
  | SendToLeadingEngine _ | SendOrdersThatWaitedInTheWal _ | ReleasedPositionMoved _
  | ReleaseMessage _ => false
  | _ => true
  end.

Lemma deliveries_app W os os' : deliveries W (os ++ os') = foldl (delivery W) (deliveries W os) os'.
Proof. apply foldl_app. Qed.

Lemma deliveries_quiet W x os : Forall (λ o, quiet o = true) os → foldl (delivery W) x os = x.
Proof. intros Hq. revert x. induction Hq as [|o os Ho _ IH]; intros x; [done|]. cbn. rewrite IH. by destruct o. Qed.

Lemma deliveries_more W x y os :
  Forall (λ r, r < y) (omap position_in os) →
  foldl (delivery (W ++ [y])) x os = foldl (delivery W) x os.
Proof.
  revert x. induction os as [|o os IH]; intros x Hr; [done|]. cbn [foldl].
  assert (Hd : delivery (W ++ [y]) x o = delivery W x o).
  { destruct o; try done. cbn. destruct (x.2); [|done]. rewrite filter_app, filter_cons, filter_nil.
    cbn in Hr. apply Forall_cons in Hr as [Hr _]. rewrite decide_False by lia. by rewrite app_nil_r. }
  rewrite Hd. apply IH. cbn in Hr. destruct o; cbn in Hr; try done. by apply Forall_cons in Hr as [_ Hr].
Qed.

(** ** What is kept through a leadership *)

(** Those of [W] that wait in the log. *)
Definition unheld W (first : Z) : list Z := if first =? 0 then [] else filter (λ x, first ≤ x) W.

Record keeps W (given : list Z) (last committed : Z) s l (sent : list Z) : Prop := mk_keeps {
  ke_held : RingBuffer.holds (held_ s) l;
  ke_capacity : RingBuffer.capacity (held_ s) = capacity_ s;
  ke_order : StronglySorted Z.lt W;
  ke_last : Forall (λ x, x ≤ last) W;
  ke_positive : Forall (λ x, 0 < x) W;
  ke_each : W = sent ++ (seq_no <$> l) ++ unheld W (first_unheld_seq_ s);
  ke_first : first_unheld_seq_ s ≠ 0 →
    0 < first_unheld_seq_ s ≤ last ∧ Forall (λ o, seq_no o < first_unheld_seq_ s) l;
  ke_sent : deliveries W (outputs s) = (sent, None);
  ke_committed : Forall (λ x, x ≤ committed) sent;
  ke_positions : Forall (λ r, r ≤ last) (omap position_in (outputs s));
  ke_freed : omap freed_in (outputs s) ++ omap message l ≡ₚ given;
  ke_le : 0 ≤ committed ≤ last
}.

Lemma keeps_ext W given last committed s s' l sent :
  keeps W given last committed s l sent →
  held_ s' = held_ s → capacity_ s' = capacity_ s → first_unheld_seq_ s' = first_unheld_seq_ s →
  outputs s' = outputs s → keeps W given last committed s' l sent.
Proof. intros [] H1 H2 H3 H4. constructor; rewrite ?H1, ?H2, ?H3, ?H4; done. Qed.

Lemma keeps_later W given last committed last' committed' s l sent :
  keeps W given last committed s l sent → last ≤ last' → committed ≤ committed' ≤ last' →
  keeps W given last' committed' s l sent.
Proof.
  intros [] Hl Hc. constructor; try done.
  - eapply Forall_impl; [exact ke_last0|]. cbn. lia.
  - intros Hf. destruct (ke_first0 Hf). split; [lia|done].
  - eapply Forall_impl; [exact ke_committed0|]. cbn. lia.
  - eapply Forall_impl; [exact ke_positions0|]. cbn. lia.
  - lia.
Qed.

Lemma omap_quiet {A} (f : output E → option A) os :
  (∀ o, quiet o = true → f o = None) → Forall (λ o, quiet o = true) os → omap f os = [].
Proof. intros Hf Hq. induction Hq as [|o os Ho _ IH]; [done|]. cbn. by rewrite Hf. Qed.

Lemma keeps_told W given last committed s l sent os :
  keeps W given last committed s l sent → Forall (λ o, quiet o = true) os →
  keeps W given last committed (with_outputs s (outputs s ++ os)) l sent.
Proof.
  intros [] Hq. constructor; cbn; try done.
  - by rewrite deliveries_app, deliveries_quiet.
  - rewrite omap_app, (omap_quiet position_in os), app_nil_r; [done| |done]. by intros [].
  - rewrite omap_app, (omap_quiet freed_in os), app_nil_r; [done| |done]. by intros [].
Qed.

Lemma tell_keeps W given last committed s l sent os Q :
  keeps W given last committed s l sent → Forall (λ o, quiet o = true) os →
  (keeps W given last committed (with_outputs s (outputs s ++ os)) l sent →
   Q (with_outputs s (outputs s ++ os)) ()) →
  returns (tell os) s Q.
Proof. intros Hk Hq HQ. eapply returns_eq; [done|]. by apply HQ, keeps_told. Qed.

(** ** Holding *)

Lemma unheld_snoc W first y :
  (first ≠ 0 → first ≤ y) → first ≠ 0 → unheld (W ++ [y]) first = unheld W first ++ [y].
Proof.
  intros Hle Hne. unfold unheld. destruct (Z.eqb_spec first 0); [done|].
  rewrite filter_app, filter_cons, filter_nil, decide_True by auto. done.
Qed.

Lemma sorted_snoc W last y :
  StronglySorted Z.lt W → Forall (λ x, x ≤ last) W → last < y → StronglySorted Z.lt (W ++ [y]).
Proof.
  intros Hs Hl Hy. apply StronglySorted_app. split_and!; [|done|by repeat constructor].
  intros x z Hx Hz. apply list_elem_of_singleton in Hz as ->.
  apply (proj1 (Forall_forall _ _) Hl) in Hx. lia.
Qed.

Lemma filter_none W last y : Forall (λ x, x ≤ last) W → last < y → filter (λ x, y ≤ x) W = [].
Proof.
  intros Hl Hy. induction Hl as [|x W Hx _ IH]; [done|]. rewrite filter_cons, decide_False by lia. done.
Qed.

(** A new order, held. *)
Lemma held_is_kept W given last committed s l sent r o :
  keeps W given last committed s l sent → last < seq_no o → first_unheld_seq_ s = 0 →
  RingBuffer.holds r (l ++ [o]) → RingBuffer.capacity r = RingBuffer.capacity (held_ s) →
  keeps (W ++ [seq_no o]) (given ++ option_list (message o)) (seq_no o) committed (with_held s r) (l ++ [o]) sent.
Proof.
  intros [] Ho Hf Hr Hc. constructor; cbn; try done.
  - congruence.
  - by eapply sorted_snoc.
  - apply Forall_app. split; [|by repeat constructor]. eapply Forall_impl; [exact ke_last0|]. cbn. lia.
  - apply Forall_app. split; [done|]. repeat constructor. lia.
  - rewrite Hf in *. unfold unheld in *. cbn in *. rewrite app_nil_r in *.
    by rewrite fmap_app, (assoc_L (++)), <- ke_each0.
  - unfold deliveries. rewrite deliveries_more; [done|]. eapply Forall_impl; [exact ke_positions0|]. cbn. lia.
  - eapply Forall_impl; [exact ke_positions0|]. cbn. lia.
  - rewrite omap_app, (assoc_L (++)), ke_freed0. cbn. by destruct (message o).
  - lia.
Qed.

Lemma held_in {W given last committed s l sent} :
  keeps W given last committed s l sent → Forall (λ o, seq_no o ≤ last) l.
Proof.
  intros []. rewrite ke_each0 in ke_last0. apply Forall_app in ke_last0 as [_ Hl].
  apply Forall_app in Hl as [Hl _]. exact (proj1 (Forall_fmap _ _ _) Hl).
Qed.

(** A new order that waits in the log. *)
Lemma keeps_unheld W given last committed s l sent y :
  keeps W given last committed s l sent → last < y →
  keeps (W ++ [y]) given y committed
    (with_first_unheld s (if first_unheld_seq_ s =? 0 then y else first_unheld_seq_ s)) l sent.
Proof.
  intros Hk Hy. pose proof (held_in Hk) as Hin. destruct Hk. set (f := if _ =? 0 then _ else _).
  assert (Hf : f ≠ 0 ∧ f ≤ y ∧ 0 < f).
  { unfold f. destruct (Z.eqb_spec (first_unheld_seq_ s) 0); [lia|]. destruct (ke_first0 ltac:(done)). lia. }
  assert (Hheld : Forall (λ o, seq_no o < f) l).
  { unfold f. destruct (Z.eqb_spec (first_unheld_seq_ s) 0).
    - eapply Forall_impl; [exact Hin|]. cbn. lia.
    - by destruct (ke_first0 ltac:(done)). }
  constructor; cbn [held_ capacity_ outputs first_unheld_seq_ with_first_unheld]; try done.
  - by eapply sorted_snoc.
  - apply Forall_app. split; [|by repeat constructor]. eapply Forall_impl; [exact ke_last0|]. cbn. lia.
  - apply Forall_app. split; [done|]. repeat constructor. lia.
  - rewrite unheld_snoc by (try tauto; lia). rewrite !(assoc_L (++)). f_equal. rewrite <- (assoc_L (++)).
    rewrite ke_each0 at 1. do 2 f_equal. unfold f, unheld.
    destruct (Z.eqb_spec (first_unheld_seq_ s) 0) as [He|Hne].
    + rewrite (proj2 (Z.eqb_neq y 0)) by lia. by rewrite (filter_none W last).
    + by rewrite (proj2 (Z.eqb_neq _ _)) by done.
  - intros _. split; [lia|done].
  - unfold deliveries. rewrite deliveries_more; [done|]. eapply Forall_impl; [exact ke_positions0|]. cbn. lia.
  - eapply Forall_impl; [exact ke_positions0|]. cbn. lia.
  - lia.
Qed.

(** ** Releasing *)

Lemma keeps_sent W given last committed s o l sent r :
  keeps W given last committed s (o :: l) sent → seq_no o ≤ committed →
  RingBuffer.holds r l → RingBuffer.capacity r = RingBuffer.capacity (held_ s) →
  keeps W given last committed
    (with_held (with_outputs s ((outputs s ++ [SendToLeadingEngine o]) ++ freed o)) r)
    l (sent ++ [seq_no o]).
Proof.
  intros [] Ho Hr Hc. constructor; cbn; try done.
  - congruence.
  - by rewrite <- (assoc_L (++)).
  - intros Hf. destruct (ke_first0 Hf) as [Hb Hl]. split; [done|]. by apply Forall_cons in Hl as [_ Hl].
  - rewrite !deliveries_app, ke_sent0. cbn. unfold freed. by destruct (message o).
  - apply Forall_app. split; [done|]. by repeat constructor.
  - rewrite !omap_app. cbn. unfold freed. rewrite app_nil_r. destruct (message o); cbn; by rewrite app_nil_r.
  - rewrite !omap_app. cbn. rewrite <- ke_freed0. cbn. unfold freed. rewrite app_nil_r.
    destruct (message o) as [m|]; cbn; [|by rewrite app_nil_r].
    by solve_Permutation.
Qed.

(** The oldest order held, and the rest. *)
Lemma oldest_keeps W given last committed s o l sent Q :
  keeps W given last committed s (o :: l) sent → Q s o → returns (ask oldest) s Q.
Proof.
  intros Hk HQ. unfold returns, ask, oldest. by rewrite (RingBuffer.front_holds _ _ _ (ke_held _ _ _ _ _ _ _ Hk)).
Qed.

Lemma none_held_keeps W given last committed s l sent :
  keeps W given last committed s l sent → none_held s = bool_decide (l = []).
Proof. intros Hk. apply RingBuffer.empty_holds, Hk. Qed.

Lemma pop_keeps W given last committed s o l sent Q s0 :
  keeps W given last committed s0 (o :: l) sent → held_ s = held_ s0 →
  (∀ r, RingBuffer.holds r l → RingBuffer.capacity r = RingBuffer.capacity (held_ s0) →
    Q (with_held s r) ()) →
  returns (on_held RingBuffer.pop_front) s Q.
Proof.
  intros Hk Hs HQ. destruct (RingBuffer.pop_front_holds _ _ _ (ke_held _ _ _ _ _ _ _ Hk)) as (r & Hp & Hr & Hc).
  eapply returns_eq; [unfold on_held; rewrite Hs, Hp; done|]. cbn. auto.
Qed.

(** Nothing that is due is left at the front. *)
Definition none_due (c : Z) l : Prop :=
  match l with [] => True | o :: _ => c < seq_no o end.

Lemma send_held_keeps W given last committed : ∀ turns s l sent,
  keeps W given last committed s l sent → (length l ≤ turns)%nat →
  returns (send_held turns committed) s (λ s' _, ∃ n,
    keeps W given last committed s' (drop n l) (sent ++ (seq_no <$> take n l)) ∧
    none_due committed (drop n l) ∧ first_unheld_seq_ s' = first_unheld_seq_ s ∧
    awaiting_engine_position_ s' = awaiting_engine_position_ s).
Proof.
  induction turns as [|turns IH]; intros s l sent Hk Hl; cbn [send_held].
  all: apply returns_bind; eapply returns_eq; [done|]; rewrite (none_held_keeps _ _ _ _ _ _ _ Hk).
  { destruct l; [|cbn in Hl; lia]. eapply returns_eq; [done|]. exists O. cbn. by rewrite app_nil_r. }
  destruct l as [|o l].
  { eapply returns_eq; [done|]. exists O. cbn. by rewrite app_nil_r. }
  rewrite bool_decide_false by done. apply returns_bind. eapply oldest_keeps; [done|].
  destruct (Z.ltb_spec committed (seq_no o)).
  { eapply returns_eq; [done|]. exists O. cbn. by rewrite app_nil_r. }
  apply returns_bind. eapply returns_eq; [done|]. apply returns_bind. eapply returns_eq; [done|]. cbn.
  apply returns_bind. eapply pop_keeps; [exact Hk|done|]. intros r Hr Hc.
  eapply returns_mono; [eapply (IH _ l (sent ++ [seq_no o]))|].
  - by eapply (keeps_sent W given last committed s).
  - cbn in Hl. lia.
  - cbn. intros s' _ (n & Hk' & Hdue & Hf & Ha). exists (S n). cbn.
    rewrite <- (assoc_L (++)) in Hk'. done.
Qed.

Definition released_of (k : links) l (first : Z) : Z :=
  Z.min (committed_through k)
    (match l with
     | o :: _ => seq_no o - 1
     | [] => if first =? 0 then last_seq_no k else first - 1
     end).

Lemma released_keeps k W given last committed s l sent :
  keeps W given last committed s l sent →
  released_through k s = Returns (released_of k l (first_unheld_seq_ s)).
Proof.
  intros Hk. unfold released_through, released_of. rewrite (none_held_keeps _ _ _ _ _ _ _ Hk).
  destruct l as [|o l]; cbn.
  - by destruct (first_unheld_seq_ s =? 0).
  - unfold oldest. by rewrite (RingBuffer.front_holds _ _ _ (ke_held _ _ _ _ _ _ _ Hk)).
Qed.

Lemma pause_keeps k W given last committed s l sent :
  keeps W given last committed s l sent →
  returns (pause_or_resume_reading k) s (λ s' _,
    keeps W given last committed s' l sent ∧ first_unheld_seq_ s' = first_unheld_seq_ s ∧
    awaiting_engine_position_ s' = awaiting_engine_position_ s).
Proof.
  intros Hk. apply returns_bind. eapply returns_eq; [done|]. cbn zeta. destruct (reading_ s).
  - case_if; [|by eapply returns_eq]. apply returns_bind.
    eapply tell_keeps; [done|by apply Forall_fmap, Forall_true|]. intros Hk'.
    eapply returns_eq; [done|]. split; [|done]. by eapply keeps_ext.
  - case_if; [by eapply returns_eq|]. apply returns_bind.
    eapply tell_keeps; [done|by apply Forall_fmap, Forall_true|]. intros Hk'.
    eapply returns_eq; [done|]. split; [|done]. by eapply keeps_ext.
  - by eapply returns_eq.
Qed.

Lemma moved_keeps k W given s l sent :
  keeps W given (last_seq_no k) (committed_through k) s l sent →
  returns (released_position_moved k) s (λ s' _,
    keeps W given (last_seq_no k) (committed_through k) s' l sent ∧
    first_unheld_seq_ s' = first_unheld_seq_ s ∧
    awaiting_engine_position_ s' = awaiting_engine_position_ s).
Proof.
  intros Hk. apply returns_bind. unfold ask. eapply returns_eq; [by rewrite (released_keeps k _ _ _ _ _ _ _ Hk)|].
  apply returns_bind. eapply returns_eq; [done|].
  eapply returns_mono; [eapply (pause_keeps k W given (last_seq_no k) (committed_through k) _ l sent)|by cbn].
  destruct Hk. constructor; cbn; try done.
  - by rewrite deliveries_app, ke_sent0.
  - rewrite omap_app. apply Forall_app. split; [done|]. repeat constructor. unfold released_of. lia.
  - by rewrite omap_app, app_nil_r.
Qed.

Lemma filter_above W c first :
  Forall (λ x, c < x) W → filter (λ x, first ≤ x ≤ c) W = [].
Proof.
  intros Hl. induction Hl as [|x W Hx _ IH]; [done|]. rewrite filter_cons, decide_False by lia. done.
Qed.

Lemma filter_all W c : Forall (λ x, c ≤ x) W → filter (λ x, c ≤ x) W = W.
Proof.
  intros Hl. induction Hl as [|x W Hx _ IH]; [done|]. rewrite filter_cons, decide_True by done. by f_equal.
Qed.

Lemma filter_split W first c :
  StronglySorted Z.lt W → first ≤ c + 1 →
  filter (λ x, first ≤ x) W = filter (λ x, first ≤ x ≤ c) W ++ filter (λ x, c + 1 ≤ x) W.
Proof.
  intros Hs Hle. induction Hs as [|x W Hs IH Hx]; [done|]. rewrite !filter_cons.
  destruct (decide (first ≤ x)).
  - destruct (decide (x ≤ c)).
    + rewrite (decide_True (P := first ≤ x ≤ c)) by lia. rewrite (decide_False (P := c + 1 ≤ x)) by lia.
      cbn. by f_equal.
    + rewrite (decide_False (P := first ≤ x ≤ c)) by lia. rewrite (decide_True (P := c + 1 ≤ x)) by lia.
      assert (Hall : Forall (λ z, c < z) W) by (eapply Forall_impl; [exact Hx|]; cbn; lia).
      rewrite filter_above by done. cbn. f_equal.
      rewrite !filter_all; [done| |]; (eapply Forall_impl; [exact Hall|]); cbn; lia.
  - rewrite (decide_False (P := first ≤ x ≤ c)) by lia. by rewrite (decide_False (P := c + 1 ≤ x)) by lia.
Qed.

(** The orders that waited in the log are handed to the reading thread. *)
Lemma waited_keeps k W given s sent :
  keeps W given (last_seq_no k) (committed_through k) s [] sent →
  first_unheld_seq_ s ≠ 0 → first_unheld_seq_ s ≤ committed_through k →
  let first := if last_seq_no k <=? committed_through k then 0 else committed_through k + 1 in
  keeps W given (last_seq_no k) (committed_through k)
    (with_first_unheld (with_outputs s ((outputs s ++ [SendOrdersThatWaitedInTheWal (first_unheld_seq_ s)]) ++
      [ReleasedPositionMoved (committed_through k)])) first) []
    (sent ++ filter (λ x, first_unheld_seq_ s ≤ x ≤ committed_through k) W).
Proof.
  intros [] Hne Hle first.
  assert (Hrest : filter (λ x, first_unheld_seq_ s ≤ x) W
    = filter (λ x, first_unheld_seq_ s ≤ x ≤ committed_through k) W ++ unheld W first).
  { rewrite (filter_split W _ (committed_through k)) by (done || lia). f_equal. unfold first, unheld.
    destruct (Z.leb_spec (last_seq_no k) (committed_through k)) as [Hl|Hl]; cbn [Z.eqb].
    - apply (filter_none _ (last_seq_no k)); [done|lia].
    - by rewrite (proj2 (Z.eqb_neq _ _)) by lia. }
  constructor; cbn [held_ capacity_ outputs first_unheld_seq_ with_first_unheld with_outputs]; try done.
  - rewrite <- (assoc_L (++)). cbn. rewrite <- Hrest. rewrite ke_each0 at 1. cbn. unfold unheld.
    by destruct (Z.eqb_spec (first_unheld_seq_ s) 0).
  - intros Hf. split; [|done]. unfold first in *. destruct (Z.leb_spec (last_seq_no k) (committed_through k)); [done|lia].
  - by rewrite !deliveries_app, ke_sent0.
  - apply Forall_app. split; [done|]. apply Forall_forall. intros x Hx. apply list_elem_of_filter in Hx. lia.
  - rewrite !omap_app. apply Forall_app. split; [by rewrite app_nil_r|]. repeat constructor. lia.
  - rewrite <- ke_freed0, !omap_app. cbn. by rewrite !app_nil_r.
Qed.

(** Every order committed has been sent. *)
Definition all_sent W (committed : Z) (sent : list Z) : Prop :=
  Forall (λ x, x ≤ committed → x ∈ sent) W.

Lemma all_sent_none_due W given last committed s l sent c :
  keeps W given last committed s l sent → none_due c l →
  (first_unheld_seq_ s ≠ 0 → c < first_unheld_seq_ s) → all_sent W c sent.
Proof.
  intros [] Hdue Hf. unfold all_sent. apply Forall_forall. intros x Hx Hle. pose proof Hx as Hx'.
  rewrite ke_each0 in Hx. apply elem_of_app in Hx as [Hx|Hx]; [done|exfalso].
  apply elem_of_app in Hx as [Hx|Hx].
  - destruct l as [|o l]; [by apply elem_of_nil in Hx|]. cbn in Hdue.
    rewrite ke_each0 in ke_order0. apply StronglySorted_app in ke_order0 as (_ & _ & Hs).
    apply StronglySorted_app in Hs as (_ & Hs & _). rewrite fmap_cons in Hs, Hx.
    apply StronglySorted_inv in Hs as [_ Hall]. apply elem_of_cons in Hx as [->|Hx]; [lia|].
    apply (proj1 (Forall_forall _ _) Hall) in Hx. lia.
  - unfold unheld in Hx. destruct (Z.eqb_spec (first_unheld_seq_ s) 0); [by apply elem_of_nil in Hx|].
    apply list_elem_of_filter in Hx. specialize (Hf ltac:(done)). lia.
Qed.

Lemma release_keeps k W given s l sent :
  keeps W given (last_seq_no k) (committed_through k) s l sent →
  returns (release_to_leading_engine k (committed_through k)) s (λ s' _, ∃ l' sent',
    keeps W given (last_seq_no k) (committed_through k) s' l' sent' ∧
    awaiting_engine_position_ s' = awaiting_engine_position_ s ∧
    (awaiting_engine_position_ s = false → an_engine_takes_orders k = true →
     all_sent W (committed_through k) sent')).
Proof.
  intros Hk. apply returns_bind. eapply returns_eq; [done|].
  destruct (awaiting_engine_position_ s || negb (an_engine_takes_orders k)) eqn:Hwait.
  { eapply returns_mono; [by eapply moved_keeps|]. cbn. intros s' _ (Hk' & _ & Ha).
    exists l, sent. split_and!; [done..|]. intros Ha' Ho. by rewrite Ha', Ho in Hwait. }
  apply returns_bind. eapply returns_mono; [eapply send_held_keeps; [done|]|].
  { unfold held. rewrite (RingBuffer.size_holds _ _ (ke_held _ _ _ _ _ _ _ Hk)). lia. }
  cbn. intros s1 _ (n & Hk1 & Hdue & Hf1 & Ha1). apply returns_bind. eapply returns_eq; [done|].
  apply returns_bind.
  destruct (negb (first_unheld_seq_ s1 =? 0) && (first_unheld_seq_ s1 <=? committed_through k)) eqn:Hw;
    bool_to_prop.
  - assert (Hnone : drop n l = []).
    { destruct (drop n l) as [|o rest]; [done|]. destruct (ke_first _ _ _ _ _ _ _ Hk1 ltac:(done)) as [_ Hl].
      apply Forall_cons in Hl as [Hl _]. cbn in Hdue. lia. }
    rewrite Hnone in Hk1. apply returns_bind. eapply returns_eq; [done|]. eapply returns_eq; [done|].
    pose proof (waited_keeps k _ _ _ _ Hk1 ltac:(done) ltac:(done)) as Hk2. cbn zeta in Hk2.
    set (first := if last_seq_no k <=? committed_through k then 0 else committed_through k + 1) in *.
    set (s2 := with_first_unheld _ first) in Hk2.
    assert (Hr : released_through k (with_first_unheld (with_outputs s1
      (outputs s1 ++ [SendOrdersThatWaitedInTheWal (first_unheld_seq_ s1)])) first)
      = Returns (committed_through k)).
    { transitivity (released_through k s2); [reflexivity|].
      rewrite (released_keeps k _ _ _ _ _ _ _ Hk2). f_equal. unfold released_of. cbn. pose proof (ke_le _ _ _ _ _ _ _ Hk2).
      unfold first. destruct (Z.leb_spec (last_seq_no k) (committed_through k)); cbn; [lia|].
      destruct (Z.eqb_spec (committed_through k + 1) 0); lia. }
    apply returns_bind. unfold ask. eapply returns_eq; [by rewrite Hr|].
    apply returns_bind. eapply returns_eq; [done|].
    eapply returns_mono; [exact (pause_keeps k _ _ _ _ _ _ _ Hk2)|]. cbn.
    intros s' _ (Hk' & Hf' & Ha'). eexists _, _. split_and!; [done|congruence|]. intros _ _.
    eapply all_sent_none_due; [exact Hk'|done|]. rewrite Hf'. cbn. unfold first.
    destruct (last_seq_no k <=? committed_through k); lia.
  - eapply returns_eq; [done|]. eapply returns_mono; [by eapply moved_keeps|]. cbn.
    intros s' _ (Hk' & Hf' & Ha'). eexists _, _. split_and!; [done|congruence|]. intros _ _.
    eapply all_sent_none_due; [exact Hk'|done|]. rewrite Hf'. intros Hne.
    destruct Hw as [Hw|Hw]; bool_to_prop; [done|lia].
Qed.

Lemma release_through_keeps k W given s l sent :
  keeps W given (last_seq_no k) (committed_through k) s l sent →
  returns (release_held_orders_through k (committed_through k)) s (λ s' _, ∃ l' sent',
    keeps W given (last_seq_no k) (committed_through k) s' l' sent').
Proof.
  intros Hk. apply returns_bind. eapply returns_mono; [by eapply release_keeps|]. cbn.
  intros s1 _ (l1 & sent1 & Hk1 & _). apply returns_bind. unfold ask.
  eapply returns_eq; [by rewrite (released_keeps k _ _ _ _ _ _ _ Hk1)|].
  eapply tell_keeps; [done|by repeat constructor|]. eauto.
Qed.

(** ** One leadership *)

Inductive action :=
  | Hold (e : E) (slab_id : Z)
  | HoldOwnCommand (e : E) (bytes : list Z)
  | Release
  | ReleaseThrough
  | Ask (now : Z)
  | Tick (now asked : Z)
  | EnginePosition (request_id highest_applied : Z)
  | StopAwaiting
  | Established (connection : Z)
  | Lost (connection : Z)
  | PauseForHandOver
  | EndPauseForHandOver.

Definition apply (k : links) (a : action) : comp (t E) unit :=
  match a with
  | Hold e slab_id => hold e slab_id
  | HoldOwnCommand e bytes => hold_own_command e bytes
  | Release => release_to_leading_engine k (committed_through k)
  | ReleaseThrough => release_held_orders_through k (committed_through k)
  | Ask now => ask_engine_for_position k now
  | Tick now asked => tick k now asked
  | EnginePosition id highest => engine_position k id highest
  | StopAwaiting => stop_awaiting_engine_position k
  | Established c => order_connection_established c
  | Lost c => order_connection_lost c ;; mret ()
  | PauseForHandOver => pause_for_hand_over
  | EndPauseForHandOver => end_pause_for_hand_over k
  end.

Fixpoint run (es : list (links * action)) : comp (t E) unit :=
  match es with
  | [] => mret ()
  | (k, a) :: es => apply k a ;; run es
  end.

Definition order_in (a : action) : option Z :=
  match a with
  | Hold e _ | HoldOwnCommand e _ => Some (envelope_seq_no e)
  | _ => None
  end.

Definition message_in (a : action) : option Z :=
  match a with Hold _ slab_id => Some slab_id | _ => None end.

(** The orders given, and the messages they came in. *)
Definition orders_in (es : list (links * action)) : list Z := omap (order_in ∘ snd) es.
Definition messages_in (es : list (links * action)) : list Z := omap (message_in ∘ snd) es.

Definition fits (last : Z) (k : links) (a : action) : Prop :=
  match a with
  | Hold e _ => last < envelope_seq_no e ∧ last_seq_no k = envelope_seq_no e
  | HoldOwnCommand e bytes =>
      last < envelope_seq_no e ∧ last_seq_no k = envelope_seq_no e ∧
      size bytes ≤ own_payload_capacity
  | _ => True
  end.

(** What holds of the log while an instance leads: it only grows, what is
    committed is in it, and an order is given once it is its last record. *)
Fixpoint leads (last committed : Z) (es : list (links * action)) : Prop :=
  match es with
  | [] => True
  | (k, a) :: es =>
      last ≤ last_seq_no k ∧ committed ≤ committed_through k ≤ last_seq_no k ∧
      fits last k a ∧
      leads (last_seq_no k) (committed_through k) es
  end.

(** Where the log is at the end. *)
Fixpoint log_after (last committed : Z) (es : list (links * action)) : Z * Z :=
  match es with
  | [] => (last, committed)
  | (k, _) :: es => log_after (last_seq_no k) (committed_through k) es
  end.

Lemma keeps_freed W given last committed s l sent m :
  keeps W given last committed s l sent →
  keeps W (given ++ [m]) last committed (with_outputs s (outputs s ++ [ReleaseMessage m])) l sent.
Proof.
  intros []. constructor; cbn; try done.
  - by rewrite deliveries_app, ke_sent0.
  - by rewrite omap_app, app_nil_r.
  - rewrite omap_app, <- ke_freed0. cbn. by solve_Permutation.
Qed.

Lemma note_unheld_keeps W given last committed s l sent y os Q :
  keeps W given last committed s l sent → last < y → Forall (λ o, quiet o = true) os →
  (∀ s', keeps (W ++ [y]) given y committed s' l sent → Q s' ()) →
  returns (note_unheld y os) s Q.
Proof.
  intros Hk Hy Hq HQ. pose proof (keeps_unheld _ _ _ _ _ _ _ _ Hk Hy) as Hk'.
  apply returns_bind. eapply returns_eq; [done|]. destruct (first_unheld_seq_ s =? 0).
  - apply returns_bind. eapply returns_eq; [done|]. eapply tell_keeps; [exact Hk'|done|apply HQ].
  - eapply returns_eq; [done|]. apply HQ. by eapply keeps_ext.
Qed.

(** An order taken into the ring, or not. *)
Lemma try_hold_keeps W given last committed s l sent o Q :
  keeps W given last committed s l sent → last < seq_no o →
  (∀ s', keeps (W ++ [seq_no o]) (given ++ option_list (message o)) (seq_no o) committed s' (l ++ [o]) sent →
    Q s' true) →
  Q s false →
  returns (if first_unheld_seq_ s =? 0 then on_held (RingBuffer.push_back o) else mret false) s Q.
Proof.
  intros Hk Ho Ht Hf. destruct (Z.eqb_spec (first_unheld_seq_ s) 0); [|by eapply returns_eq].
  pose proof (ke_held _ _ _ _ _ _ _ Hk) as Hh. pose proof (RingBuffer.length_holds _ _ Hh).
  destruct (decide (Z.of_nat (length l) = RingBuffer.capacity (held_ s))) as [He|Hne].
  - eapply returns_eq; [unfold on_held; by rewrite (RingBuffer.push_back_full _ _ o Hh He)|].
    cbn. by destruct s.
  - destruct (RingBuffer.push_back_holds _ _ o Hh) as (r & Hp & Hr & Hc); [lia|].
    eapply returns_eq; [unfold on_held; by rewrite Hp|]. cbn. apply Ht. by apply (held_is_kept W given last).
Qed.

Lemma ask_keeps k W given s l sent now :
  keeps W given (last_seq_no k) (committed_through k) s l sent →
  returns (ask_engine_for_position k now) s (λ s' _, ∃ l' sent',
    keeps W given (last_seq_no k) (committed_through k) s' l' sent').
Proof.
  intros Hk. apply returns_bind. eapply returns_eq; [done|].
  destruct (leading_engine_connection k) as [engine|].
  - apply returns_bind. destruct (awaiting_engine_position_ s); (eapply returns_eq; [done|]);
      (apply returns_bind; eapply returns_eq; [done|]); (apply returns_bind; eapply returns_eq; [done|]);
      (eapply tell_keeps; [by eapply keeps_ext|by repeat constructor|eauto]).
  - destruct (awaiting_engine_position_ s); [|eapply returns_eq; eauto].
    apply returns_bind. eapply returns_eq; [done|]. eapply release_through_keeps. by eapply keeps_ext.
Qed.

Lemma hold_keeps k W given last committed s l sent e slab_id :
  keeps W given last committed s l sent → committed ≤ committed_through k ≤ last_seq_no k →
  fits last k (Hold e slab_id) →
  returns (hold e slab_id) s (λ s' _, ∃ l' sent',
    keeps (W ++ [envelope_seq_no e]) (given ++ [slab_id]) (last_seq_no k) (committed_through k) s' l' sent').
Proof.
  intros Hk Hc [Hlt He]. apply returns_bind. eapply returns_eq; [done|]. apply returns_bind.
  eapply try_hold_keeps; [exact Hk|done| |].
  - intros s' Hk'. eapply returns_eq; [done|]. cbn in Hk'. exists (l ++ [mk_held e (Some slab_id) []]), sent.
    eapply keeps_later; [exact Hk'|unfold seq_no; cbn; lia|lia].
  - apply returns_bind. eapply note_unheld_keeps; [exact Hk|done|by repeat constructor|].
    intros s' Hk'. eapply returns_eq; [done|]. exists l, sent.
    eapply keeps_later; [by apply keeps_freed|lia|lia].
Qed.

Lemma hold_own_keeps k W given last committed s l sent e bytes :
  keeps W given last committed s l sent → committed ≤ committed_through k ≤ last_seq_no k →
  fits last k (HoldOwnCommand e bytes) →
  returns (hold_own_command e bytes) s (λ s' _, ∃ l' sent',
    keeps (W ++ [envelope_seq_no e]) given (last_seq_no k) (committed_through k) s' l' sent').
Proof.
  intros Hk Hc (Hlt & He & Hsz). unfold hold_own_command.
  destruct (Z.ltb_spec own_payload_capacity (size bytes)); [lia|].
  set (o := mk_held (without_payload e) None bytes).
  assert (Ho : seq_no o = envelope_seq_no e) by apply without_payload_seq_no.
  apply returns_bind. eapply returns_eq; [done|]. apply returns_bind. rewrite if_negb.
  eapply try_hold_keeps; [exact Hk|lia| |].
  - intros s' Hk'. eapply returns_eq; [done|]. cbn in Hk'. rewrite Ho, app_nil_r in Hk'.
    exists (l ++ [o]), sent. eapply keeps_later; [exact Hk'|lia|lia].
  - eapply note_unheld_keeps; [exact Hk|done|done|]. intros s' Hk'. exists l, sent.
    eapply keeps_later; [exact Hk'|lia|lia].
Qed.

Section while_leading.
Variables (k : links) (W given : list Z).
Abbreviation keeping s l sent := (keeps W given (last_seq_no k) (committed_through k) s l sent).
Abbreviation kept s := (∃ l sent, keeping s l sent).

Lemma engine_position_keeps s l sent id highest :
  keeping s l sent → returns (engine_position k id highest) s (λ s' _, kept s').
Proof.
  intros Hk. apply returns_bind. eapply returns_eq; [done|]. case_if; [eapply returns_eq; eauto|].
  apply returns_bind. eapply returns_eq; [done|]. apply returns_bind.
  assert (Hk1 : keeping (with_awaiting s false) l sent) by by eapply keeps_ext.
  case_if.
  - eapply tell_keeps; [exact Hk1|by repeat constructor|]. intros Hk2. by eapply release_through_keeps.
  - eapply returns_eq; [done|]. by eapply release_through_keeps.
Qed.

Lemma established_keeps s l sent c :
  keeping s l sent → returns (order_connection_established c) s (λ s' _, kept s').
Proof.
  intros Hk. apply returns_bind. eapply returns_eq; [done|]. apply returns_bind. eapply returns_eq; [done|].
  assert (Hk1 : keeping (with_connections s (order_connections_ s ++ [c])) l sent) by by eapply keeps_ext.
  case_if; [eapply returns_eq; eauto|]. eapply tell_keeps; [exact Hk1|by repeat constructor|eauto].
Qed.

Lemma lost_keeps s l sent c :
  keeping s l sent → returns (order_connection_lost c) s (λ s' _, kept s').
Proof.
  intros Hk. apply returns_bind. eapply returns_eq; [done|].
  destruct (erase_first c (order_connections_ s)); [|eapply returns_eq; eauto].
  apply returns_bind. eapply returns_eq; [done|]. eapply returns_eq; [done|].
  exists l, sent. by eapply keeps_ext.
Qed.

Lemma hand_over_keeps s l sent :
  keeping s l sent → returns pause_for_hand_over s (λ s' _, kept s').
Proof.
  intros Hk. apply returns_bind. eapply returns_eq; [done|].
  assert (Hk1 : keeping (with_reading s paused_for_hand_over) l sent) by by eapply keeps_ext.
  destruct (reading_ s); [| |eapply returns_eq; eauto]; (apply returns_bind; eapply returns_eq; [done|]); cbn.
  - eapply tell_keeps; [exact Hk1|by apply Forall_fmap, Forall_true|eauto].
  - eapply returns_eq; eauto.
Qed.

Lemma end_hand_over_keeps s l sent :
  keeping s l sent → returns (end_pause_for_hand_over k) s (λ s' _, kept s').
Proof.
  intros Hk. apply returns_bind. eapply returns_eq; [done|].
  assert (Hk1 : keeping (with_reading s paused_for_held_orders) l sent) by by eapply keeps_ext.
  destruct (reading_ s); [eapply returns_eq; eauto..|].
  apply returns_bind. eapply returns_eq; [done|].
  eapply returns_mono; [by eapply pause_keeps|]. cbn. intros s' _ (Hk' & _). eauto.
Qed.

End while_leading.

Lemma apply_keeps k a W given last committed s l sent :
  keeps W given last committed s l sent →
  last ≤ last_seq_no k → committed ≤ committed_through k ≤ last_seq_no k → fits last k a →
  returns (apply k a) s (λ s' _, ∃ l' sent',
    keeps (W ++ option_list (order_in a)) (given ++ option_list (message_in a))
      (last_seq_no k) (committed_through k) s' l' sent').
Proof.
  intros Hk0 Hl Hc Hfits. pose proof (keeps_later _ _ _ _ _ _ _ _ _ Hk0 Hl Hc) as Hk.
  destruct a; cbn [apply order_in message_in option_list]; rewrite ?app_nil_r.
  - eapply hold_keeps; [exact Hk0|done|done].
  - eapply hold_own_keeps; [exact Hk0|done|done].
  - eapply returns_mono; [by eapply release_keeps|]. cbn. intros s' _ (l' & sent' & Hk' & _). eauto.
  - by eapply release_through_keeps.
  - by eapply ask_keeps.
  - apply returns_bind. eapply returns_eq; [done|]. case_if; [by eapply ask_keeps|eapply returns_eq; eauto].
  - by eapply engine_position_keeps.
  - apply returns_bind. eapply returns_eq; [done|]. eapply release_through_keeps. by eapply keeps_ext.
  - by eapply established_keeps.
  - apply returns_bind. eapply returns_mono; [by eapply lost_keeps|]. cbn. intros. by eapply returns_eq.
  - by eapply hand_over_keeps.
  - by eapply end_hand_over_keeps.
Qed.

Lemma run_keeps es : ∀ W given last committed s l sent,
  keeps W given last committed s l sent → leads last committed es →
  returns (run es) s (λ s' _, ∃ l' sent',
    keeps (W ++ orders_in es) (given ++ messages_in es)
      (log_after last committed es).1 (log_after last committed es).2 s' l' sent').
Proof.
  induction es as [|[k a] es IH]; intros W given last committed s l sent Hk Hes; cbn [run log_after].
  - eapply returns_eq; [done|]. unfold orders_in, messages_in. cbn. rewrite !app_nil_r. eauto.
  - destruct Hes as (Hl & Hc & Hf & Hes). apply returns_bind.
    eapply returns_mono; [by eapply apply_keeps|]. cbn. intros s1 _ (l1 & sent1 & Hk1).
    eapply returns_mono; [by eapply IH|]. cbn. intros s2 _ (l2 & sent2 & Hk2). exists l2, sent2.
    unfold orders_in, messages_in in *. cbn. destruct (order_in a), (message_in a); cbn in *;
      rewrite <- ?(assoc_L (++)) in Hk2; cbn in Hk2; rewrite ?app_nil_r in Hk2; done.
Qed.

Lemma make_keeps capacity last committed :
  0 < capacity → 0 ≤ committed ≤ last →
  ∃ s, make capacity = Returns s ∧ keeps [] [] last committed s [] [].
Proof.
  intros Hcap Hle. destruct (RingBuffer.make_holds (T := HeldOrder E) capacity Hcap) as (r & Hr & Hh & Hc).
  unfold make. rewrite Hr. eexists. split; [reflexivity|].
  by constructor; cbn; try done; constructor.
Qed.

(** The position released says exactly which orders have been sent. *)
Lemma released_exactly k W given s l sent :
  keeps W given (last_seq_no k) (committed_through k) s l sent →
  ∃ r, released_through k s = Returns r ∧ r ≤ committed_through k ∧
    Forall (λ x, x ≤ r ↔ x ∈ sent) W.
Proof.
  intros Hk. exists (released_of k l (first_unheld_seq_ s)). split; [by eapply released_keeps|].
  split; [unfold released_of; lia|]. apply Forall_forall. intros x Hx. split.
  - intros Hle. assert (Hall : all_sent W (released_of k l (first_unheld_seq_ s)) sent).
    { eapply all_sent_none_due; [exact Hk| |].
      - destruct l as [|o l]; [done|]. cbn. unfold released_of. lia.
      - intros Hne. destruct (ke_first _ _ _ _ _ _ _ Hk Hne) as [_ Hf]. unfold released_of.
        destruct l as [|o l]; [destruct (Z.eqb_spec (first_unheld_seq_ s) 0); [done|lia]|].
        apply Forall_cons in Hf as [Hf _]. lia. }
    by apply (proj1 (Forall_forall _ _) Hall).
  - intros Hs. destruct Hk. pose proof (proj1 (Forall_forall _ _) ke_committed0 _ Hs).
    pose proof (proj1 (Forall_forall _ _) ke_last0 _ Hx). cbn beta in *. unfold released_of.
    rewrite ke_each0 in ke_order0. apply StronglySorted_app in ke_order0 as (Hb & _ & _).
    destruct l as [|o l]; [destruct (Z.eqb_spec (first_unheld_seq_ s) 0) as [|Hne]; [lia|]|].
    + assert (Hlt : x < first_unheld_seq_ s); [|lia].
      destruct (Z.lt_ge_cases x (first_unheld_seq_ s)) as [|Hge]; [done|exfalso].
      assert (Hin : x ∈ (seq_no <$> []) ++ unheld W (first_unheld_seq_ s)).
      { cbn. unfold unheld. destruct (Z.eqb_spec (first_unheld_seq_ s) 0); [done|].
        by apply list_elem_of_filter. }
      pose proof (Hb x x Hs Hin). lia.
    + assert (Hlt : x < seq_no o); [|lia]. apply (Hb x (seq_no o) Hs). rewrite fmap_cons. by left.
Qed.

(** ** The end of a leadership *)

Lemma discard_held_frees : ∀ turns s l,
  RingBuffer.holds (held_ s) l → (length l ≤ turns)%nat →
  returns (discard_held turns) s (λ s' _,
    RingBuffer.holds (held_ s') [] ∧
    omap freed_in (outputs s') = omap freed_in (outputs s) ++ omap message l).
Proof.
  induction turns as [|turns IH]; intros s l Hh Hl; cbn [discard_held].
  all: apply returns_bind; eapply returns_eq; [done|]; unfold none_held; rewrite (RingBuffer.empty_holds _ _ Hh).
  { destruct l; [|cbn in Hl; lia]. eapply returns_eq; [done|]. by rewrite app_nil_r. }
  destruct l as [|o l]; [eapply returns_eq; [done|]; by rewrite app_nil_r|].
  rewrite bool_decide_false by done. apply returns_bind. unfold ask, oldest.
  eapply returns_eq; [by rewrite (RingBuffer.front_holds _ _ _ Hh)|].
  apply returns_bind. eapply returns_eq; [done|]. apply returns_bind.
  destruct (RingBuffer.pop_front_holds _ _ _ Hh) as (r & Hp & Hr & _).
  eapply returns_eq; [unfold on_held; cbn; by rewrite Hp|].
  eapply returns_mono; [eapply (IH _ l); [done|cbn in Hl; lia]|]. cbn. intros s' _ [Hh' Hf]. split; [done|].
  rewrite Hf, omap_app, <- (assoc_L (++)). f_equal. unfold freed. by destruct (message o).
Qed.

Lemma pause_frees k s :
  returns (pause_or_resume_reading k) s (λ s' _, omap freed_in (outputs s') = omap freed_in (outputs s)).
Proof.
  assert (Hq : ∀ f, (f = PauseReading ∨ f = ResumeReading) →
    omap freed_in (f <$> order_connections_ s) = []).
  { intros f Hf. apply omap_quiet; [by intros []|]. apply Forall_fmap, Forall_true. by destruct Hf as [->| ->]. }
  apply returns_bind. eapply returns_eq; [done|]. cbn zeta. destruct (reading_ s).
  - case_if; [|by eapply returns_eq]. apply returns_bind. eapply returns_eq; [done|]. eapply returns_eq; [done|].
    cbn. by rewrite omap_app, Hq, app_nil_r by auto.
  - case_if; [by eapply returns_eq|]. apply returns_bind. eapply returns_eq; [done|]. eapply returns_eq; [done|].
    cbn. by rewrite omap_app, Hq, app_nil_r by auto.
  - by eapply returns_eq.
Qed.

Lemma stopped_leading_frees k s l :
  RingBuffer.holds (held_ s) l →
  returns (stopped_leading k) s (λ s' _,
    omap freed_in (outputs s') = omap freed_in (outputs s) ++ omap message l).
Proof.
  intros Hh. apply returns_bind. eapply returns_eq; [done|]. apply returns_bind. eapply returns_eq; [done|].
  apply returns_bind. eapply returns_mono; [eapply (discard_held_frees _ _ l); [done|]|].
  { unfold held. cbn. rewrite (RingBuffer.size_holds _ _ Hh). lia. }
  cbn. intros s1 _ [_ Hf]. apply returns_bind. eapply returns_eq; [done|].
  eapply returns_mono; [apply pause_frees|]. cbn. intros s2 _ ->. done.
Qed.

(** ** Properties *)

(** While an instance leads, whatever is written, committed, asked, answered,
    connected and paused: the orders it is given are sent to the leading engine
    in their order, each once, whether held here or handed to the reading thread
    because the storage was full; none is sent before its record is committed;
    and the position released says exactly which of them have been sent. *)
Theorem orders_are_released_in_order capacity last committed es :
  0 < capacity → 0 ≤ committed ≤ last → leads last committed es →
  ∃ (s s' : t E) sent waiting,
    make capacity = Returns s ∧ run es s = (s', Returns ()) ∧
    deliveries (orders_in es) (outputs s') = (sent, None) ∧
    orders_in es = sent ++ waiting ∧
    Forall (λ x, x ≤ (log_after last committed es).2) sent ∧
    ∀ k, (last_seq_no k, committed_through k) = log_after last committed es →
      ∃ r, released_through k s' = Returns r ∧ r ≤ committed_through k ∧
        Forall (λ x, x ≤ r ↔ x ∈ sent) (orders_in es).
Proof.
  intros Hcap Hle Hleads. destruct (make_keeps capacity last committed Hcap Hle) as (s & Hmake & Hk).
  destruct (returns_inv _ _ _ (run_keeps es _ _ _ _ _ _ _ Hk Hleads)) as (s' & [] & Hrun & l & sent & Hk').
  cbn [app] in Hk'. exists s, s', sent. eexists. split_and!; [done|done|apply Hk'|apply Hk'|apply Hk'|].
  intros k Hlog. rewrite <- Hlog in Hk'. by eapply released_exactly.
Qed.

(** C30: Once an engine takes orders and its position is not waited for, a release
    sends every order that is committed, those that waited in the log among
    them. *)
Theorem committed_orders_reach_the_engine capacity last committed es k :
  0 < capacity → 0 ≤ committed ≤ last → leads last committed es →
  (last_seq_no k, committed_through k) = log_after last committed es →
  ∃ (s s' : t E), make capacity = Returns s ∧ run es s = (s', Returns ()) ∧
    (awaiting_engine_position_ s' = false → an_engine_takes_orders k = true →
     ∃ s'' sent, release_to_leading_engine k (committed_through k) s' = (s'', Returns ()) ∧
       deliveries (orders_in es) (outputs s'') = (sent, None) ∧
       Forall (λ x, x ≤ committed_through k → x ∈ sent) (orders_in es)).
Proof.
  intros Hcap Hle Hleads Hlog. destruct (make_keeps capacity last committed Hcap Hle) as (s & Hmake & Hk).
  destruct (returns_inv _ _ _ (run_keeps es _ _ _ _ _ _ _ Hk Hleads)) as (s' & [] & Hrun & l & sent & Hk').
  cbn [app] in Hk'. rewrite <- Hlog in Hk'. exists s, s'. split_and!; [done|done|]. intros Ha Ho.
  destruct (returns_inv _ _ _ (release_keeps k _ _ _ _ _ Hk')) as (s'' & [] & Hrel & l' & sent' & Hk'' & _ & Hall).
  exists s'', sent'. split_and!; [done|apply Hk''|by apply Hall].
Qed.

(** Every inbound message whose order is given is given back once and no
    more: when its order is sent, at once when the order waits in the log, or
    when the instance stops leading. *)
Theorem every_message_is_given_back_once capacity last committed es k :
  0 < capacity → 0 ≤ committed ≤ last → leads last committed es →
  ∃ (s s' s'' : t E), make capacity = Returns s ∧ run es s = (s', Returns ()) ∧
    stopped_leading k s' = (s'', Returns ()) ∧
    omap freed_in (outputs s'') ≡ₚ messages_in es.
Proof.
  intros Hcap Hle Hleads. destruct (make_keeps capacity last committed Hcap Hle) as (s & Hmake & Hk).
  destruct (returns_inv _ _ _ (run_keeps es _ _ _ _ _ _ _ Hk Hleads)) as (s' & [] & Hrun & l & sent & Hk').
  destruct (returns_inv _ _ _ (stopped_leading_frees k _ _ (ke_held _ _ _ _ _ _ _ Hk')))
    as (s'' & [] & Hstop & Hf).
  exists s, s', s''. split_and!; [done..|]. rewrite Hf. apply Hk'.
Qed.

End theorems.

(** ** A leadership, run *)

#[local] Instance numbered : Envelope Z := {
  envelope_seq_no e := e;
  without_payload e := e;
  without_payload_seq_no _ := eq_refl
}.

Definition answers (last committed : Z) : links :=
  mk_links committed last true true true true (Some 7).

(** There is room for two orders: two more wait in the log.  The follower
    acknowledges three of the four, and then the last. *)
Definition crowded_run : list (links * action) :=
  [(answers 11 10, Hold 11 101); (answers 12 10, Hold 12 102); (answers 13 10, Hold 13 103);
   (answers 14 10, HoldOwnCommand 14 [1; 2]); (answers 14 13, Release)].

Lemma crowded_run_leads : leads 10 10 crowded_run.
Proof. vm_compute. repeat split; discriminate. Qed.

Lemma committed_orders_reach_the_engine_witness :
  ∃ (s s' s'' : t Z),
    make 2 = Returns s ∧ run crowded_run s = (s', Returns ()) ∧
    release_to_leading_engine (answers 14 13) 13 s' = (s'', Returns ()) ∧
    deliveries (orders_in crowded_run) (outputs s'') = ([11; 12; 13], None).
Proof.
  destruct (committed_orders_reach_the_engine 2 10 10 crowded_run (answers 14 13))
    as (s & s' & Hmake & Hrun & Hrel).
  - lia.
  - lia.
  - exact crowded_run_leads.
  - vm_compute. reflexivity.
  - vm_compute in Hmake. injection Hmake as <-. vm_compute in Hrun. injection Hrun as <-.
    destruct Hrel as (s'' & sent & Hrel & Hdel & _); [vm_compute; reflexivity..|].
    vm_compute in Hrel. injection Hrel as <-. vm_compute in Hdel. injection Hdel as <-.
    eexists _, _, _. split_and!; vm_compute; reflexivity.
Defined.

