(* ===== verification/TradingDate.v ===== *)
(** The date of a moment: fix_common/TradingDate.hpp, and that it is the
    calendar's: the day after each day is the next in the Gregorian calendar. *)

From S2P Require Import Prelude.
#[local] Open Scope Z_scope.

Module TradingDate.

Definition nanoseconds_per_day : Z := 86400000000000.

Record date := mk_date { year : Z; month : Z; day : Z }.

Definition year_of_era (day_of_era : Z) : Z :=
  Z.quot (day_of_era - Z.quot day_of_era 1460 + Z.quot day_of_era 36524
          - Z.quot day_of_era 146096) 365.

Definition day_of_year (day_of_era : Z) : Z :=
  let y := year_of_era day_of_era in
  day_of_era - (365 * y + Z.quot y 4 - Z.quot y 100).

Definition month_from_march (day_of_year : Z) : Z := Z.quot (5 * day_of_year + 2) 153.

Definition day_of_month (day_of_year : Z) : Z :=
  day_of_year - Z.quot (153 * month_from_march day_of_year + 2) 5 + 1.

Definition month_of (month_from_march : Z) : Z :=
  if month_from_march <? 10 then month_from_march + 3 else month_from_march - 9.

(** The civil date of a count of days since 1970-01-01. *)
Definition civil_from_days (days_since_1970 : Z) : date :=
  let days := days_since_1970 + 719468 in
  let era := Z.quot (if 0 <=? days then days else days - 146096) 146097 in
  let day_of_era := days - era * 146097 in
  let m := month_of (month_from_march (day_of_year day_of_era)) in
  mk_date (year_of_era day_of_era + era * 400 + (if m <=? 2 then 1 else 0)) m
    (day_of_month (day_of_year day_of_era)).

Definition days_of (wall_time_ns : Z) : Z :=
  let days := Z.quot wall_time_ns nanoseconds_per_day in
  if Z.rem wall_time_ns nanoseconds_per_day <? 0 then days - 1 else days.

Definition trading_date_of (wall_time_ns : Z) : Z :=
  let d := civil_from_days (days_of wall_time_ns) in
  year d * 10000 + month d * 100 + day d.

(** ** The calendar *)

Definition leap (y : Z) : bool :=
  (y mod 4 =? 0) && (negb (y mod 100 =? 0) || (y mod 400 =? 0)).

Definition days_in_month (y m : Z) : Z :=
  if m =? 2 then if leap y then 29 else 28
  else if (m =? 4) || (m =? 6) || (m =? 9) || (m =? 11) then 30 else 31.

Definition next_day (d : date) : date :=
  if day d <? days_in_month (year d) (month d) then mk_date (year d) (month d) (day d + 1)
  else if month d <? 12 then mk_date (year d) (month d + 1) 1
  else mk_date (year d + 1) 1 1.

Definition valid (d : date) : Prop :=
  1 ≤ month d ≤ 12 ∧ 1 ≤ day d ≤ days_in_month (year d) (month d).

(** ** Years of an era *)

(** The first day of a year that begins in March. *)
Definition first_day (y : Z) : Z := 365 * y + y / 4 - y / 100 + y / 400.

Lemma div_step a b : 0 < b → a / b ≤ (a + 1) / b ≤ a / b + 1.
Proof.
  intros Hb. split; [apply Z.div_le_mono; lia|].
  replace (a / b + 1) with ((a + 1 * b) / b) by (rewrite Z.div_add; lia).
  apply Z.div_le_mono; lia.
Qed.

Lemma year_of_era_step a : 0 ≤ a → a + 1 < 146096 → year_of_era a ≤ year_of_era (a + 1).
Proof.
  intros H0 Ha. unfold year_of_era.
  rewrite !(Z.quot_div_nonneg _ 1460), !(Z.quot_div_nonneg _ 36524), !(Z.quot_small _ 146096) by lia.
  pose proof (div_step a 1460 ltac:(lia)). pose proof (div_step a 36524 ltac:(lia)).
  apply Z.quot_le_mono; lia.
Qed.

Lemma year_of_era_mono a b : 0 ≤ a ≤ b → b < 146096 → year_of_era a ≤ year_of_era b.
Proof.
  intros Hab Hb. remember (Z.to_nat (b - a)) as n eqn:Hn. revert b Hab Hb Hn.
  induction n as [|n IH]; intros b Hab Hb Hn; [by replace b with a by lia|].
  etrans; [apply (IH (b - 1)); lia|]. pose proof (year_of_era_step (b - 1) ltac:(lia) ltac:(lia)) as Hs.
  by rewrite Z.sub_add in Hs.
Qed.

(** The years at their first and last days, by calculation. *)
Definition year_checked (y : Z) : bool :=
  (year_of_era (first_day y) =? y) && (year_of_era (first_day (y + 1) - 1) =? y) &&
  (first_day y =? 365 * y + Z.quot y 4 - Z.quot y 100) &&
  (first_day (y + 1) - first_day y =? (if leap (y + 1) then 366 else 365)) &&
  (0 <=? first_day y) && (first_day (y + 1) <=? (if y =? 399 then 146097 else 146096)).

Lemma years_checked : forallb year_checked (Z.of_nat <$> seq 0 400) = true.
Proof. vm_compute. reflexivity. Qed.

Lemma checked (P : Z → bool) n y :
  forallb P (Z.of_nat <$> seq 0 n) = true → 0 ≤ y < Z.of_nat n → P y = true.
Proof.
  intros Hf Hy. rewrite forallb_forall in Hf. apply Hf. apply list_elem_of_In, list_elem_of_fmap.
  exists (Z.to_nat y). split; [lia|]. apply elem_of_seq. lia.
Qed.

Lemma year_found n doe :
  0 ≤ doe < first_day (Z.of_nat n) →
  ∃ y, 0 ≤ y < Z.of_nat n ∧ first_day y ≤ doe < first_day (y + 1).
Proof.
  induction n as [|n IH]; intros Hd; [change (first_day (Z.of_nat 0)) with 0 in Hd; lia|].
  destruct (Z.lt_ge_cases doe (first_day (Z.of_nat n))) as [Hlt|Hge].
  - destruct (IH ltac:(lia)) as (y & Hy & Hdy). exists y. split; [lia|done].
  - exists (Z.of_nat n). split; [lia|]. replace (Z.of_nat n + 1) with (Z.of_nat (S n)) by lia. lia.
Qed.

(** A day of an era lies in its year. *)
Lemma year_of_day doe :
  0 ≤ doe < 146097 →
  let y := year_of_era doe in
  0 ≤ y < 400 ∧ first_day y ≤ doe < first_day (y + 1) ∧ day_of_year doe = doe - first_day y ∧
  first_day (y + 1) - first_day y = (if leap (y + 1) then 366 else 365).
Proof.
  intros Hd. destruct (year_found 400 doe) as (y & Hy & Hdy); [done|].
  pose proof (checked year_checked 400 y years_checked Hy) as Hc. unfold year_checked in Hc.
  bool_to_prop.
  assert (He : year_of_era doe = y).
  { destruct (decide (doe = 146096)) as [->|Hne].
    - destruct (Z.eqb_spec y 399) as [->|]; [reflexivity|lia].
    - pose proof (year_of_era_mono (first_day y) doe). pose proof (year_of_era_mono doe (first_day (y + 1) - 1)).
      destruct (Z.eqb_spec y 399) as [->|]; [|lia].
      pose proof (year_of_era_mono doe 146095). change (year_of_era 146095) with 399 in *. lia. }
  cbn zeta. rewrite He. split_and!; [lia..| |done]. unfold day_of_year. rewrite He. lia.
Qed.

(** ** Months of a year that begins in March *)

(** The longest each is. *)
Definition longest (m : Z) : Z := days_in_month 4 (month_of m).

Definition day_checked (d : Z) : bool :=
  let m := month_from_march d in
  let k := day_of_month d in
  (0 <=? m) && (m <=? 11) && (1 <=? k) && (k <=? longest m) &&
  bool_decide (m = 11 ∧ k = 28 ↔ d = 364) && bool_decide (m = 11 ∧ k = 29 ↔ d = 365) &&
  (if d <? 365
   then if k <? longest m
        then (month_from_march (d + 1) =? m) && (day_of_month (d + 1) =? k + 1)
        else (m <? 11) && (month_from_march (d + 1) =? m + 1) && (day_of_month (d + 1) =? 1)
   else true).

Lemma days_checked : forallb day_checked (Z.of_nat <$> seq 0 366) = true.
Proof. vm_compute. reflexivity. Qed.

(** ** Dates by era *)

Definition date_in (era doe : Z) : date :=
  let m := month_of (month_from_march (day_of_year doe)) in
  mk_date (year_of_era doe + era * 400 + (if m <=? 2 then 1 else 0)) m (day_of_month (day_of_year doe)).

Lemma civil_in n :
  civil_from_days n = date_in ((n + 719468) / 146097) ((n + 719468) mod 146097).
Proof.
  unfold civil_from_days, date_in. set (days := n + 719468).
  assert (He : Z.quot (if 0 <=? days then days else days - 146096) 146097 = days / 146097).
  { destruct (Z.leb_spec 0 days); Z.to_euclidean_division_equations; lia. }
  rewrite He. replace (days - days / 146097 * 146097) with (days mod 146097); [done|].
  Z.to_euclidean_division_equations. lia.
Qed.

Lemma leap_era y era : leap (y + era * 400) = leap y.
Proof.
  unfold leap. replace (era * 400) with (era * 100 * 4) at 1 by lia. rewrite Z.mod_add by lia.
  replace (era * 400) with (era * 4 * 100) at 1 by lia. rewrite Z.mod_add by lia.
  by rewrite Z.mod_add by lia.
Qed.

(** A month is as long as the longest but for a February. *)
Lemma days_in_month_of y m :
  0 ≤ m ≤ 11 →
  days_in_month y (month_of m) = if (m =? 11) && negb (leap y) then 28 else longest m.
Proof.
  intros Hm. unfold longest, days_in_month, month_of.
  destruct (Z.ltb_spec m 10); destruct (Z.eqb_spec m 11); cbn [andb];
    repeat case_if; bool_to_prop; try done; try lia.
Qed.

Lemma first_day_lt a b : 0 ≤ a < b → first_day a < first_day b.
Proof.
  intros Hab. remember (Z.to_nat (b - a)) as n eqn:Hn. revert b Hab Hn.
  induction n as [|n IH]; intros b Hab Hn; [lia|].
  assert (Hs : first_day (b - 1) < first_day b).
  { unfold first_day. pose proof (div_step (b - 1) 4 ltac:(lia)). pose proof (div_step (b - 1) 100 ltac:(lia)).
    pose proof (div_step (b - 1) 400 ltac:(lia)). rewrite Z.sub_add in *. lia. }
  destruct (decide (a = b - 1)) as [->|]; [done|].
  assert (first_day a < first_day (b - 1)) by (apply IH; lia). lia.
Qed.

(** Which year a day lies in. *)
Lemma year_is doe y :
  0 ≤ doe < 146097 → 0 ≤ y → first_day y ≤ doe < first_day (y + 1) →
  year_of_era doe = y ∧ day_of_year doe = doe - first_day y.
Proof.
  intros Hd Hy Hin. destruct (year_of_day doe Hd) as (Hy' & Hin' & Hdoy & _).
  assert (year_of_era doe = y) as He; [|by rewrite He in Hdoy].
  destruct (Z.lt_trichotomy (year_of_era doe) y) as [Hlt|[He|Hlt]]; [exfalso|done|exfalso].
  - destruct (decide (year_of_era doe + 1 = y)) as [Heq|]; [rewrite Heq in Hin'; lia|].
    pose proof (first_day_lt (year_of_era doe + 1) y). lia.
  - destruct (decide (y + 1 = year_of_era doe)) as [Heq|]; [rewrite <- Heq in Hin'; lia|].
    pose proof (first_day_lt (y + 1) (year_of_era doe)). lia.
Qed.

(** The date of the day numbered [d] in the year numbered [y] of an era. *)
Definition date_at (era y d : Z) : date :=
  let m := month_of (month_from_march d) in
  mk_date (y + era * 400 + (if m <=? 2 then 1 else 0)) m (day_of_month d).

Lemma date_at_valid era y d :
  0 ≤ d < (if leap (y + 1) then 366 else 365) →
  0 ≤ month_from_march d ≤ 11 ∧ 1 ≤ day_of_month d ∧
  days_in_month (year (date_at era y d)) (month_of (month_from_march d))
    = (if (month_from_march d =? 11) && negb (leap (y + 1)) then 28 else longest (month_from_march d)) ∧
  valid (date_at era y d).
Proof.
  intros Hd. assert (Hd' : 0 ≤ d < Z.of_nat 366) by (destruct (leap (y + 1)); lia).
  pose proof (checked day_checked 366 d days_checked Hd') as Hc. unfold day_checked in Hc. bool_to_prop.
  set (m := month_from_march d) in *. set (k := day_of_month d) in *.
  assert (Hdim : days_in_month (year (date_at era y d)) (month_of m)
    = if (m =? 11) && negb (leap (y + 1)) then 28 else longest m).
  { rewrite days_in_month_of by lia. destruct (Z.eqb_spec m 11) as [He|]; [|done].
    replace (year (date_at era y d)) with (y + 1 + era * 400); [by rewrite leap_era|].
    unfold date_at. fold m. rewrite He. change (month_of 11 <=? 2) with true. cbn [year]. lia. }
  split_and!; [lia|lia|lia|done|].
  unfold valid. change (month (date_at era y d)) with (month_of m). change (day (date_at era y d)) with k.
  rewrite Hdim. split.
  - unfold month_of. destruct (Z.ltb_spec m 10); lia.
  - split; [lia|]. destruct (Z.eqb_spec m 11) as [He|]; [|done]. destruct (leap (y + 1)); [done|]. cbn.
    rewrite He in *. change (longest 11) with 29 in *. lia.
Qed.

Lemma next_in_year era y d :
  0 ≤ d → d + 1 < (if leap (y + 1) then 366 else 365) →
  next_day (date_at era y d) = date_at era y (d + 1).
Proof.
  intros H0 Hd. destruct (date_at_valid era y d) as (Hm & Hk & Hdim & _); [lia|].
  assert (Hd' : 0 ≤ d < Z.of_nat 366) by (destruct (leap (y + 1)); lia).
  pose proof (checked day_checked 366 d days_checked Hd') as Hc. unfold day_checked in Hc. bool_to_prop.
  unfold next_day. change (month (date_at era y d)) with (month_of (month_from_march d)).
  change (day (date_at era y d)) with (day_of_month d). rewrite Hdim.
  set (m := month_from_march d) in *. set (k := day_of_month d) in *.
  destruct (Z.ltb_spec d 365); [|destruct (leap (y + 1)); lia].
  destruct (Z.ltb_spec k (longest m)) as [Hlt|Hge]; bool_to_prop.
  - assert (Hl : k < if (m =? 11) && negb (leap (y + 1)) then 28 else longest m).
    { destruct (Z.eqb_spec m 11) as [He|]; [|done]. destruct (leap (y + 1)); [done|]. cbn.
      rewrite He in *. change (longest 11) with 29 in *. lia. }
    rewrite (proj2 (Z.ltb_lt _ _) Hl). unfold date_at. fold m k. f_equal; [|congruence|congruence].
    by replace (month_from_march (d + 1)) with m.
  - rewrite (proj2 (Z.eqb_neq m 11)) by lia. cbn [andb]. rewrite (proj2 (Z.ltb_ge _ _) Hge).
    unfold date_at. fold m. replace (month_from_march (d + 1)) with (m + 1) by lia.
    replace (day_of_month (d + 1)) with 1 by lia. unfold month_of.
    destruct (Z.ltb_spec m 10), (Z.ltb_spec (m + 1) 10); try lia;
      repeat case_if; bool_to_prop; try lia; cbn [year]; f_equal; lia.
Qed.

Lemma next_of_year era y :
  next_day (date_at era y (if leap (y + 1) then 365 else 364)) = date_at era (y + 1) 0.
Proof.
  pose proof (leap_era (y + 1) era) as Hl. replace (y + 1 + era * 400) with (y + era * 400 + 1) in Hl by lia.
  change (date_at era (y + 1) 0) with (mk_date (y + 1 + era * 400 + 0) 3 1).
  replace (y + 1 + era * 400 + 0) with (y + era * 400 + 1) by lia. destruct (leap (y + 1)).
  - change (date_at era y 365) with (mk_date (y + era * 400 + 1) 2 29).
    unfold next_day, days_in_month. cbn [year month day]. by rewrite Hl.
  - change (date_at era y 364) with (mk_date (y + era * 400 + 1) 2 28).
    unfold next_day, days_in_month. cbn [year month day]. by rewrite Hl.
Qed.

Lemma date_in_at era doe : date_in era doe = date_at era (year_of_era doe) (day_of_year doe).
Proof. done. Qed.

Lemma date_in_next era doe :
  0 ≤ doe < 146097 →
  valid (date_in era doe) ∧
  next_day (date_in era doe) = if doe <? 146096 then date_in era (doe + 1) else date_in (era + 1) 0.
Proof.
  intros Hd. destruct (year_of_day doe Hd) as (Hy & Hin & Hdoy & Hlen). rewrite date_in_at.
  set (y := year_of_era doe) in *. set (d := day_of_year doe) in *. split.
  { apply date_at_valid. lia. }
  destruct (decide (doe + 1 < first_day (y + 1))) as [Hlt|Hge].
  - assert (first_day (y + 1) ≤ first_day 400) as Hle.
    { destruct (decide (y = 399)) as [->|]; [done|]. pose proof (first_day_lt (y + 1) 400). lia. }
    change (first_day 400) with 146097 in Hle.
    destruct (Z.ltb_spec doe 146096); [|lia]. rewrite next_in_year by lia. rewrite date_in_at.
    destruct (year_is (doe + 1) y) as [-> ->]; [lia..|]. f_equal. lia.
  - assert (Hd' : d = if leap (y + 1) then 365 else 364) by (destruct (leap (y + 1)); lia).
    rewrite Hd', next_of_year. destruct (Z.ltb_spec doe 146096) as [Hlt|Hlast].
    + assert (y ≠ 399) by (intros ->; change (first_day (399 + 1)) with 146097 in *; lia).
      rewrite date_in_at. destruct (year_is (doe + 1) (y + 1)) as [-> ->]; [lia..| |].
      * split; [lia|]. pose proof (first_day_lt (y + 1) (y + 1 + 1)). lia.
      * f_equal. lia.
    + assert (y = 399) as He.
      { destruct (decide (y = 399)); [done|]. pose proof (first_day_lt (y + 1) 400).
        change (first_day 400) with 146097 in *.
        destruct (decide (y + 1 = 399)); [|pose proof (first_day_lt (y + 1) 399)];
          change (first_day 399) with 145731 in *; lia. }
      rewrite He. change (date_in (era + 1) 0) with (mk_date (0 + (era + 1) * 400 + 0) 3 1).
      change (date_at era (399 + 1) 0) with (mk_date (400 + era * 400 + 0) 3 1). f_equal. lia.
Qed.

Lemma next_civil n :
  valid (civil_from_days n) ∧ civil_from_days (n + 1) = next_day (civil_from_days n).
Proof.
  rewrite !civil_in. set (x := n + 719468).
  destruct (date_in_next (x / 146097) (x mod 146097)) as [Hv Hn]; [apply Z.mod_pos_bound; lia|].
  split; [done|]. rewrite Hn. replace (n + 1 + 719468) with (x + 1) by lia.
  destruct (Z.ltb_spec (x mod 146097) 146096); f_equal;
    Z.to_euclidean_division_equations; lia.
Qed.

End TradingDate.

(** C35: The trading date of a moment is the date, in the Gregorian calendar, of the
    day it falls in: the first day is 1 January 1970, and each date is the one
    after the date of the day before, for every day before and after, written
    as the number yyyymmdd. *)
Theorem trading_date_is_the_calendar_date :
  TradingDate.civil_from_days 0 = TradingDate.mk_date 1970 1 1 ∧
  (∀ n, TradingDate.valid (TradingDate.civil_from_days n) ∧
        TradingDate.civil_from_days (n + 1) = TradingDate.next_day (TradingDate.civil_from_days n)) ∧
  (∀ ns, let d := TradingDate.civil_from_days (ns / 86400000000000) in
     TradingDate.trading_date_of ns
       = TradingDate.year d * 10000 + TradingDate.month d * 100 + TradingDate.day d).
Proof.
  split_and!; [reflexivity|apply TradingDate.next_civil|]. intros ns. cbn zeta.
  unfold TradingDate.trading_date_of. assert (He : TradingDate.days_of ns = ns / 86400000000000); [|by rewrite He].
  unfold TradingDate.days_of, TradingDate.nanoseconds_per_day.
  destruct (Z.ltb_spec (Z.rem ns 86400000000000) 0); Z.to_euclidean_division_equations; lia.
Qed.
