(* ===== verification/VenueState.v ===== *)
(** What a sequencer reads from its log: sequencer/TradingHaltState.hpp, sequencer/VenueStateFromTheWal.{hpp,cpp} and
    the part of sequencer/VoidFromWal.hpp they use.

    The generated decoders of a VoidCommands and of a TechnicalEvent are
    parameters. *)

From S2P Require Import Prelude.
From S2P Require Import ArrayRing.
From S2P Require Import TradingDate.
From S2P Require Import VoidedCommands.
#[local] Open Scope Z_scope.

(** ** Whether trading is halted *)

Module TradingHaltState.

Inductive TechnicalEventReason :=
  | CannotAccountForBook
  | LiftedByOperator
  | RecoveryTooLong
  | DeclaredByOperator.

Record TechnicalEventRecord := mk_event {
  event_seq_no : Z;
  event_halted : bool;
  event_reason : TechnicalEventReason;
  last_members_command_before : Z
}.

Inductive Lift := Allowed | NotHalted | NoEngineLeads | ReportsOutstanding.

Definition recent_members_commands_kept : Z := 1024.

Record t := mk {
  events_ : list TechnicalEventRecord;
  recent_ : list Z;
  recent_oldest_ : Z;
  recent_count_ : Z;
  latest_forgotten_ : Z
}.

Definition initial : t :=
  mk [] (replicate (Z.to_nat recent_members_commands_kept) 0) 0 0 0.

Definition with_events s x := mk x (recent_ s) (recent_oldest_ s) (recent_count_ s) (latest_forgotten_ s).
Definition with_recent s a o c := mk (events_ s) a o c (latest_forgotten_ s).
Definition with_forgotten s x := mk (events_ s) (recent_ s) (recent_oldest_ s) (recent_count_ s) x.

(** [recent_[(recent_oldest_ + i) % recent_members_commands_kept]]. *)
Definition recent_at (s : t) (i : Z) : outcome Z :=
  match recent_ s !! ring_slot recent_members_commands_kept (recent_oldest_ s) i with
  | Some x => Returns x
  | None => Throws UndefinedBehaviour
  end.

Definition store_recent (i : Z) (x : Z) : comp t unit := λ s,
  let slot := ring_slot recent_members_commands_kept (recent_oldest_ s) i in
  if (slot <? length (recent_ s))%nat
  then (with_recent s (<[slot := x]> (recent_ s)) (recent_oldest_ s) (recent_count_ s), Returns ())
  else (s, Throws UndefinedBehaviour).

Definition note_members_command (seq_no : Z) : comp t unit :=
  count ← gets recent_count_;
  (if count =? recent_members_commands_kept then
     oldest ← ask (λ s, recent_at s 0);
     modify (λ s, with_forgotten s oldest) ;;
     modify (λ s, with_recent s (recent_ s)
       ((recent_oldest_ s + 1) mod recent_members_commands_kept) (recent_count_ s - 1))
   else mret ()) ;;
  count ← gets recent_count_;
  store_recent count seq_no ;;
  modify (λ s, with_recent s (recent_ s) (recent_oldest_ s) (recent_count_ s + 1)).

Definition halted (s : t) : bool :=
  match last (events_ s) with Some e => event_halted e | None => false end.

Definition latest (s : t) : option TechnicalEventRecord := last (events_ s).

Definition last_members_command (s : t) : outcome Z :=
  if 0 <? recent_count_ s then recent_at s (recent_count_ s - 1)
  else Returns (latest_forgotten_ s).

Definition note_technical_event (seq_no : Z) (halts : bool) (reason : TechnicalEventReason)
    : comp t bool :=
  was_halted ← gets halted;
  before ← ask last_members_command;
  modify (λ s, with_events s (events_ s ++ [mk_event seq_no halts reason before])) ;;
  mret (negb (Bool.eqb was_halted halts)).

(** [while (!events_.empty() && events_.back().seq_no > seq_no) pop_back()], on
    the reversed vector. *)
Fixpoint pop_events_after (seq_no : Z) (backwards : list TechnicalEventRecord)
    : list TechnicalEventRecord :=
  match backwards with
  | [] => []
  | e :: rest => if seq_no <? event_seq_no e then pop_events_after seq_no rest else backwards
  end.

(** Each turn drops a command. *)
Fixpoint drop_recent_after (turns : nat) (seq_no : Z) : comp t unit :=
  s ← gets (λ s, s);
  if 0 <? recent_count_ s then
    newest ← ask (λ s, recent_at s (recent_count_ s - 1));
    if seq_no <? newest then
      modify (λ s, with_recent s (recent_ s) (recent_oldest_ s) (recent_count_ s - 1)) ;;
      match turns with
      | O => throw DoesNotReturn
      | S turns => drop_recent_after turns seq_no
      end
    else mret ()
  else mret ().

Definition discard_after (seq_no : Z) : comp t bool :=
  was_halted ← gets halted;
  modify (λ s, with_events s (reverse (pop_events_after seq_no (reverse (events_ s))))) ;;
  count ← gets recent_count_;
  drop_recent_after (Z.to_nat count) seq_no ;;
  modify (λ s, if seq_no <? latest_forgotten_ s then with_forgotten s seq_no else s) ;;
  now_halted ← gets halted;
  mret (negb (Bool.eqb was_halted now_halted)).

Definition may_lift (s : t) (engine_leads : bool) (highest_command_answered : Z) : Lift :=
  if negb (halted s) then NotHalted
  else if negb engine_leads then NoEngineLeads
  else if highest_command_answered <? default 0 (last_members_command_before <$> last (events_ s))
  then ReportsOutstanding
  else Allowed.

End TradingHaltState.

(** ** What every instance keeps from its log *)

Module VenueStateFromTheWal.
Import TradingHaltState.

(** The message types this part looks at; the identifiers are generated. *)
Inductive PduType :=
  | NewOrderSingle
  | OrderCancelRequest
  | ExecutionReport
  | VoidCommandsType
  | TechnicalEventType
  | OtherType (pdu_id : Z).

#[export] Instance PduType_eq_dec : EqDecision PduType.
Proof. solve_decision. Defined.

Inductive How := read_at_open | written_as_follower | written_by_this_leader.

#[export] Instance How_eq_dec : EqDecision How.
Proof. solve_decision. Defined.

(** A record: [answers_seq_no] and [trading_date] are [None] when the envelope
    has none. *)
Record WalRecord := mk_record {
  pdu_type : PduType;
  payload : list Z;
  answers_seq_no : option Z;
  trading_date_in : option Z
}.

Record Noted := mk_noted { halt_changed : bool; void_added : bool }.

(** What the generated decoders give. *)
Record VoidCommandsView := mk_void_view {
  view_first_seq_no : Z;
  view_last_seq_no : Z;
  view_new_orders_only : bool;
  view_void_reason : VoidReason
}.

Record TechnicalEventView := mk_event_view {
  view_halted : bool;
  view_reason : TechnicalEventReason
}.

Inductive VoidFound := FoundVoid (voided : VoidedRange) | NotAVoid | NotDecodable.

Record t := mk {
  trading_halt_ : TradingHaltState.t;
  voids_ : VoidedCommandList.t;
  void_awaiting_commit_ : Z;
  trading_date_ : Z;
  highest_command_answered_ : Z
}.

Definition initial : t := mk TradingHaltState.initial [] 0 0 0.

Definition with_halt s x := mk x (voids_ s) (void_awaiting_commit_ s) (trading_date_ s) (highest_command_answered_ s).
Definition with_voids s x := mk (trading_halt_ s) x (void_awaiting_commit_ s) (trading_date_ s) (highest_command_answered_ s).
Definition with_awaiting s x := mk (trading_halt_ s) (voids_ s) x (trading_date_ s) (highest_command_answered_ s).
Definition with_date s x := mk (trading_halt_ s) (voids_ s) (void_awaiting_commit_ s) x (highest_command_answered_ s).
Definition with_answered s x := mk (trading_halt_ s) (voids_ s) (void_awaiting_commit_ s) (trading_date_ s) x.

Definition on_halt {A} (m : comp TradingHaltState.t A) : comp t A := λ s,
  let r := m (trading_halt_ s) in (with_halt s r.1, r.2).

Section state.
Variable decode_void : list Z → option VoidCommandsView.
Variable decode_technical_event : list Z → option TechnicalEventView.

Definition void_from_command (seq_no : Z) (r : WalRecord) : VoidFound :=
  if negb (bool_decide (pdu_type r = VoidCommandsType)) then NotAVoid
  else match decode_void (payload r) with
       | None => NotDecodable
       | Some v => FoundVoid (mk_voided seq_no (view_first_seq_no v) (view_last_seq_no v)
                     (view_new_orders_only v) (view_void_reason v))
       end.

Definition note_trading_date (r : WalRecord) : comp t unit :=
  modify (λ s,
    match trading_date_in r with
    | Some d => if d =? trading_date_ s then s else with_date s d
    | None => s
    end).

Definition note_void (seq_no : Z) (r : WalRecord) : comp t bool := λ s,
  match void_from_command seq_no r with
  | FoundVoid voided =>
      let added := VoidedCommandList.add voided (voids_ s) in
      (with_voids s added.1, Returns added.2)
  | NotAVoid | NotDecodable => (s, Returns false)
  end.

Definition note_trading_halt (seq_no : Z) (r : WalRecord) : comp t bool :=
  match pdu_type r with
  | NewOrderSingle | OrderCancelRequest =>
      on_halt (note_members_command seq_no) ;; mret false
  | TechnicalEventType =>
      match decode_technical_event (payload r) with
      | None => mret false
      | Some e => on_halt (note_technical_event seq_no (view_halted e) (view_reason e))
      end
  | _ => mret false
  end.

Definition note_answer (r : WalRecord) : comp t unit :=
  modify (λ s,
    match pdu_type r, answers_seq_no r with
    | ExecutionReport, Some a => with_answered s (Z.max (highest_command_answered_ s) a)
    | _, _ => s
    end).

Definition note_record (seq_no : Z) (r : WalRecord) (how : How) : comp t Noted :=
  (if bool_decide (how = written_as_follower) then note_trading_date r else mret ()) ;;
  note_answer r ;;
  added ← note_void seq_no r;
  (if (added : bool) && bool_decide (how = written_by_this_leader)
   then modify (λ s, with_awaiting s seq_no) else mret ()) ;;
  changed ← note_trading_halt seq_no r;
  mret (mk_noted changed added).

Definition discard_after (seq_no : Z) : comp t bool :=
  modify (λ s, with_voids s (VoidedCommandList.discard_after seq_no (voids_ s))) ;;
  on_halt (TradingHaltState.discard_after seq_no).

Definition take_voids_due (committed_through : Z) : comp t bool := λ s,
  if (void_awaiting_commit_ s =? 0) || (committed_through <? void_awaiting_commit_ s)
  then (s, Returns false)
  else (with_awaiting s 0, Returns true).

Definition trading_date_known (s : t) : bool := negb (trading_date_ s =? 0).

Definition trading_date (first_record_wall_time_ns : option Z) (wall_time_ns : Z) : comp t Z := λ s,
  if negb (trading_date_ s =? 0) then (s, Returns (trading_date_ s))
  else
    let d := TradingDate.trading_date_of (default wall_time_ns first_record_wall_time_ns) in
    (with_date s d, Returns d).

End state.
End VenueStateFromTheWal.
