(* ===== verification/VenueStateTheorems.v ===== *)
(** What a sequencer keeps from its log is what the log says, however it came to
    hold its records. *)

From stdpp Require Import sorting.
From S2P Require Import Prelude.
From S2P Require Import ArrayRing.
From S2P Require Import VoidedCommands.
From S2P Require Import TradingDate.
From S2P Require Import VenueState.
Import TradingHaltState VenueStateFromTheWal.
#[local] Open Scope Z_scope.

Section theorems.
Variable decode_void : list Z → option VoidCommandsView.
Variable decode_technical_event : list Z → option TechnicalEventView.

(** ** What a log says *)

(** Records with their positions. *)
Abbreviation log := (list (Z * WalRecord)).
Implicit Types L : log.

(** Positions are positive and increase. *)
Definition in_order L : Prop :=
  StronglySorted Z.lt (fst <$> L) ∧ Forall (λ pr, 0 < pr.1) L.

(** A member's new order or cancel. *)
Definition members (r : WalRecord) : bool :=
  match pdu_type r with NewOrderSingle | OrderCancelRequest => true | _ => false end.

Definition commands_in L : list Z :=
  omap (λ pr : Z * WalRecord, if members pr.2 then Some pr.1 else None) L.

(** A TechnicalEvent: its position, whether it halts, and why. *)
Definition event_in (pr : Z * WalRecord) : option (Z * bool * TechnicalEventReason) :=
  match pdu_type pr.2 with
  | TechnicalEventType =>
      e ← decode_technical_event (payload pr.2);
      Some (pr.1, view_halted e, view_reason e)
  | _ => None
  end.

Definition events_in L : list (Z * bool * TechnicalEventReason) := omap event_in L.

Definition void_in (pr : Z * WalRecord) : option VoidedRange :=
  match void_from_command decode_void pr.1 pr.2 with FoundVoid v => Some v | _ => None end.

Definition voids_in L : VoidedCommandList.t := omap void_in L.

Definition answer_in (r : WalRecord) : option Z :=
  match pdu_type r with ExecutionReport => answers_seq_no r | _ => None end.

Definition through (n : Z) L : log := filter (λ pr, pr.1 ≤ n) L.

(** ** The halt *)

Definition told (e : TechnicalEventRecord) : Z * bool * TechnicalEventReason :=
  (event_seq_no e, event_halted e, event_reason e).

(** [recent] is what the ring holds, and [top] the last position of the log.
    [cut] says whether records have been discarded; until then the positions are
    exact. *)
Record halt_shows (cut : bool) (top : Z) L (s : TradingHaltState.t) (recent : list Z) : Prop := mk_halt_shows {
  hs_ring : ring_shows recent_members_commands_kept (recent_ s) (recent_oldest_ s) (recent_count_ s) recent;
  hs_sorted : StronglySorted Z.lt recent;
  hs_recent : Forall (λ p, p ∈ commands_in L) recent;
  hs_top : latest_forgotten_ s ≤ top;
  hs_forgotten : 0 ≤ latest_forgotten_ s ∧ Forall (λ p, latest_forgotten_ s < p) recent;
  hs_commands : Forall (λ p, p ∈ recent ∨ p ≤ latest_forgotten_ s) (commands_in L);
  hs_events : told <$> events_ s = events_in L;
  hs_before : Forall (λ e, Forall (λ p, p < event_seq_no e → p ≤ last_members_command_before e)
                (commands_in L)) (events_ s);
  hs_exact : cut = false →
    (latest_forgotten_ s = 0 ∨ latest_forgotten_ s ∈ commands_in L) ∧
    Forall (λ e, last_members_command_before e = 0 ∨
      last_members_command_before e ∈ commands_in L ∧ last_members_command_before e < event_seq_no e)
      (events_ s)
}.

(** The last member's command is known, or one that is no earlier. *)
Lemma last_command cut top L s recent :
  halt_shows cut top L s recent →
  ∃ p, last_members_command s = Returns p ∧ Forall (λ q, q ≤ p) (commands_in L) ∧
    (cut = false → p = 0 ∨ p ∈ commands_in L).
Proof.
  intros []. unfold last_members_command. pose proof (rs_count _ _ _ _ _ hs_ring0) as Hc.
  destruct recent as [|p recent _] using rev_ind.
  - rewrite Hc. cbn. eexists. split_and!; [done| |].
    + eapply Forall_impl; [exact hs_commands0|]. intros q [Hq|?]; [by apply elem_of_nil in Hq|done].
    + intros Hcut. by apply hs_exact0.
  - rewrite length_app in Hc. cbn in Hc. destruct (Z.ltb_spec 0 (recent_count_ s)); [|lia].
    exists p. unfold recent_at. rewrite (ring_last _ _ _ _ _ _ hs_ring0). split_and!; [done| |].
    + destruct hs_forgotten0 as [_ Hf]. apply Forall_app in Hf as [_ Hf]. apply Forall_cons in Hf as [Hf _].
      apply StronglySorted_app in hs_sorted0 as (Hb & _ & _).
      eapply Forall_impl; [exact hs_commands0|]. cbn. intros q [Hq|Hq]; [|lia].
      apply elem_of_app in Hq as [Hq|Hq]; [|by apply list_elem_of_singleton in Hq as ->].
      specialize (Hb q p Hq ltac:(by left)). lia.
    + intros _. right. apply Forall_app in hs_recent0 as [_ Hr]. by apply Forall_cons in Hr as [Hr _].
Qed.

Lemma commands_snoc L p r : commands_in (L ++ [(p, r)]) = commands_in L ++ (if members r then [p] else []).
Proof. unfold commands_in. rewrite omap_app. cbn. by destruct (members r). Qed.

Lemma events_snoc L p r : events_in (L ++ [(p, r)]) = events_in L ++ option_list (event_in (p, r)).
Proof. unfold events_in. rewrite omap_app. cbn. by destruct (event_in (p, r)). Qed.

Lemma commands_forall (P : Z → Prop) L : Forall (λ pr, P pr.1) L → Forall P (commands_in L).
Proof.
  intros HL. apply Forall_forall. intros q Hq. apply list_elem_of_omap in Hq as ([q' r] & Hin & Hm).
  cbn in Hm. destruct (members r); [|done]. simplify_eq. by apply (proj1 (Forall_forall _ _) HL) in Hin.
Qed.

(** The oldest command kept is forgotten once the ring is full. *)
Lemma forget_shows cut top L s recent :
  halt_shows cut top L s recent → Forall (λ q, q ≤ top) (commands_in L) →
  returns (if recent_count_ s =? recent_members_commands_kept then
     oldest ← ask (λ s, recent_at s 0);
     modify (λ s, with_forgotten s oldest) ;;
     modify (λ s, with_recent s (recent_ s)
       ((recent_oldest_ s + 1) mod recent_members_commands_kept) (recent_count_ s - 1))
   else mret ()) s (λ s' _, ∃ recent', halt_shows cut top L s' recent' ∧
     recent_count_ s' < recent_members_commands_kept).
Proof.
  intros Hs Htopc. rewrite Forall_forall in Htopc. pose proof Hs as []. pose proof (rs_fits _ _ _ _ _ hs_ring0) as Hfits.
  destruct (Z.eqb_spec (recent_count_ s) recent_members_commands_kept) as [He|Hne].
  - destruct (ring_full _ _ _ _ _ hs_ring0 He) as (x & rest & ->).
    apply returns_bind. unfold ask, recent_at.
    eapply returns_eq; [by rewrite (ring_first _ _ _ _ _ _ hs_ring0)|].
    apply returns_bind. eapply returns_eq; [done|]. eapply returns_eq; [done|]. exists rest.
    destruct hs_forgotten0 as [H0 Hf]. apply Forall_cons in Hf as [Hx Hf].
    apply StronglySorted_inv in hs_sorted0 as [Hsorted Hrest].
    apply Forall_cons in hs_recent0 as [Hxc Hrc].
    split; [|cbn; lia]. constructor; cbn; try done.
    + by eapply ring_pop_front.
    + by apply Htopc.
    + split; [lia|done].
    + eapply Forall_impl; [exact hs_commands0|]. cbn. intros q [Hq|Hq]; [|right; lia].
      apply elem_of_cons in Hq as [->|Hq]; [by right|by left].
    + intros Hcut. destruct (hs_exact0 Hcut) as [_ He']. split; [by right|done].
  - eapply returns_eq; [done|]. exists recent. split; [done|lia].
Qed.

Lemma event_in_at pr a : event_in pr = Some a → a.1.1 = pr.1.
Proof.
  unfold event_in. destruct (pdu_type pr.2); try done.
  destruct (decode_technical_event (payload pr.2)); cbn; intros; by simplify_eq.
Qed.

Lemma events_below cut top L s recent p :
  halt_shows cut top L s recent → Forall (λ pr, pr.1 < p) L → Forall (λ e, event_seq_no e < p) (events_ s).
Proof.
  intros [] Hlt. apply Forall_forall. intros e He.
  assert (Hin : told e ∈ events_in L) by (rewrite <- hs_events0; by apply list_elem_of_fmap_2).
  apply list_elem_of_omap in Hin as ([q r] & Hin & Hev). apply (proj1 (Forall_forall _ _) Hlt) in Hin.
  apply event_in_at in Hev. cbn in *. lia.
Qed.

(** A member's command at the end of the log. *)
Lemma note_command_shows cut top L s recent p r :
  halt_shows cut top L s recent → in_order L → Forall (λ pr, pr.1 ≤ top) L → 0 ≤ top < p → members r = true →
  returns (note_members_command p) s (λ s' _, ∃ recent', halt_shows cut p (L ++ [(p, r)]) s' recent').
Proof.
  intros Hs Hord Htop Hp Hm.
  assert (Hlt : Forall (λ pr : Z * WalRecord, pr.1 < p) L) by (eapply Forall_impl; [exact Htop|]; intros [q r0]; cbn; lia).
  pose proof (commands_forall (λ q, q < p) _ Hlt) as Hbelow.
  assert (Hev : event_in (p, r) = None) by (unfold event_in, members in *; cbn; by destruct (pdu_type r)).
  apply returns_bind. eapply returns_eq; [done|]. apply returns_bind.
  eapply returns_mono; [eapply forget_shows; [done|]|]. 
  { by apply (commands_forall (λ q, q ≤ top)). }
  cbn. clear s recent Hs. intros s _ (recent & Hs & Hroom).
  pose proof (events_below _ _ _ _ _ _ Hs Hlt) as Hes.
  apply returns_bind. eapply returns_eq; [done|]. apply returns_bind. unfold store_recent.
  pose proof (hs_ring _ _ _ _ _ Hs) as Hr.
  pose proof (ring_slot_bound recent_members_commands_kept (recent_oldest_ s) (recent_count_ s) ltac:(done)).
  eapply returns_eq.
  { rewrite (proj2 (Nat.ltb_lt _ _)) by (pose proof (rs_array _ _ _ _ _ Hr); lia). done. }
  eapply returns_eq; [done|]. exists (recent ++ [p]). destruct Hs.
  assert (Hrb : Forall (λ q, q < p) recent).
  { apply Forall_forall. intros q Hq. apply (proj1 (Forall_forall _ _) hs_recent0) in Hq.
    apply (proj1 (Forall_forall _ _) Hbelow) in Hq. cbn in Hq. lia. }
  constructor; cbn; rewrite ?commands_snoc, ?events_snoc, ?Hev, ?Hm, ?app_nil_r; try done.
  - by apply ring_push.
  - apply StronglySorted_app. split_and!; [|done|by repeat constructor].
    intros q q' Hq Hq'. apply list_elem_of_singleton in Hq' as ->. by apply (proj1 (Forall_forall _ _) Hrb).
  - apply Forall_app. split; [|apply Forall_singleton; apply elem_of_app; right; by left].
    eapply Forall_impl; [exact hs_recent0|]. intros q Hq. apply elem_of_app. by left.
  - lia.
  - destruct hs_forgotten0 as [H0 Hf]. split; [done|]. apply Forall_app. split; [done|]. apply Forall_singleton.
    lia.
  - apply Forall_app. split; [|apply Forall_singleton; left; apply elem_of_app; right; by left].
    eapply Forall_impl; [exact hs_commands0|]. intros q [Hq|?]; [left; apply elem_of_app; by left|by right].
  - eapply Forall_impl; [exact (proj2 (Forall_and _ _) (conj hs_before0 Hes))|]. cbn. intros e [He Hlast].
    apply Forall_app. split; [done|]. apply Forall_singleton. lia.
  - intros Hcut. destruct (hs_exact0 Hcut) as [Hf He]. split.
    + destruct Hf; [by left|right]. apply elem_of_app. by left.
    + eapply Forall_impl; [exact He|]. cbn. intros e [?|[? ?]]; [by left|right]. split; [apply elem_of_app; by left|done].
Qed.

(** A TechnicalEvent at the end of the log. *)
Lemma note_event_shows cut top L s recent p r e :
  halt_shows cut top L s recent → Forall (λ pr, pr.1 ≤ top) L → 0 ≤ top < p → members r = false →
  event_in (p, r) = Some (p, view_halted e, view_reason e) →
  returns (note_technical_event p (view_halted e) (view_reason e)) s (λ s' changed,
    halt_shows cut p (L ++ [(p, r)]) s' recent ∧
    changed = negb (Bool.eqb (TradingHaltState.halted s) (view_halted e))).
Proof.
  intros Hs Htop Hp Hm Hev. destruct (last_command _ _ _ _ _ Hs) as (q & Hq & Hlast & Hexact).
  apply returns_bind. eapply returns_eq; [done|]. apply returns_bind. unfold ask.
  eapply returns_eq; [by rewrite Hq|]. apply returns_bind. eapply returns_eq; [done|].
  eapply returns_eq; [done|]. split; [|done].
  pose proof (commands_forall (λ q, q ≤ top) _ Htop) as Hc. destruct Hs.
  constructor; cbn; rewrite ?commands_snoc, ?events_snoc, ?Hm, ?app_nil_r; try done.
  - lia.
  - rewrite fmap_app, hs_events0, Hev. done.
  - apply Forall_app. split; [done|]. apply Forall_singleton. cbn. eapply Forall_impl; [exact Hlast|]. cbn. lia.
  - intros Hcut. destruct (hs_exact0 Hcut) as [Hf He]. split; [done|]. apply Forall_app. split; [done|].
    apply Forall_singleton. cbn. destruct (Hexact Hcut) as [?|Hin]; [by left|right]. split; [done|].
    apply (proj1 (Forall_forall _ _) Hc) in Hin. cbn in Hin. lia.
Qed.

(** Any other record. *)
Lemma other_shows cut top L s recent p r :
  halt_shows cut top L s recent → top < p → members r = false → event_in (p, r) = None →
  halt_shows cut p (L ++ [(p, r)]) s recent.
Proof.
  intros [] Hp Hm Hev. constructor; rewrite ?commands_snoc, ?events_snoc, ?Hm, ?Hev, ?app_nil_r; try done. lia.
Qed.

(** *** Discarding *)

Lemma omap_through {A} (f : Z * WalRecord → option A) (pos : A → Z) n L :
  (∀ pr a, f pr = Some a → pos a = pr.1) →
  omap f (through n L) = filter (λ a, pos a ≤ n) (omap f L).
Proof.
  intros Hf. unfold through. induction L as [|pr L IH]; [done|]. rewrite filter_cons.
  destruct (decide (pr.1 ≤ n)); cbn; rewrite IH; destruct (f pr) as [a|] eqn:Ha; try done.
  all: rewrite filter_cons, (Hf _ _ Ha); by case_decide.
Qed.

Lemma commands_through n L : commands_in (through n L) = filter (λ q, q ≤ n) (commands_in L).
Proof.
  apply (omap_through _ id). intros [q r] a. cbn. by destruct (members r); intros [= ->].
Qed.

Lemma filter_id {A} (P : A → Prop) `{!∀ x, Decision (P x)} l : Forall P l → filter P l = l.
Proof. induction 1 as [|x l Hx _ IH]; [done|]. by rewrite filter_cons, decide_True, IH. Qed.

Lemma pop_events_filter n l :
  StronglySorted (λ e e', event_seq_no e < event_seq_no e') l →
  reverse (pop_events_after n (reverse l)) = filter (λ e, event_seq_no e ≤ n) l.
Proof.
  induction l as [|e l IH] using rev_ind; intros Hs; [done|].
  apply StronglySorted_app in Hs as (Hb & Hs & _). rewrite reverse_snoc. cbn [pop_events_after].
  rewrite filter_app, filter_cons, filter_nil. destruct (Z.ltb_spec n (event_seq_no e)).
  - rewrite decide_False by lia. rewrite app_nil_r. by apply IH.
  - rewrite decide_True by lia. rewrite reverse_cons, reverse_involutive. f_equal.
    symmetry. apply filter_id, Forall_forall. intros x Hx. specialize (Hb x e Hx ltac:(by left)). cbn in Hb. lia.
Qed.

Lemma drop_recent_filter n : ∀ turns s recent,
  ring_shows recent_members_commands_kept (recent_ s) (recent_oldest_ s) (recent_count_ s) recent →
  StronglySorted Z.lt recent → (length recent ≤ turns)%nat →
  returns (drop_recent_after turns n) s (λ s' _, ∃ c,
    s' = with_recent s (recent_ s) (recent_oldest_ s) c ∧
    ring_shows recent_members_commands_kept (recent_ s) (recent_oldest_ s) c (filter (λ q, q ≤ n) recent)).
Proof.
  induction turns as [|turns IH]; intros s recent Hr Hs Hl; cbn [drop_recent_after].
  all: apply returns_bind; eapply returns_eq; [done|].
  all: pose proof (rs_count _ _ _ _ _ Hr) as Hc.
  all: destruct recent as [|q recent _] using rev_ind; [rewrite Hc; cbn; eapply returns_eq; [done|];
    exists (recent_count_ s); by destruct s|].
  { rewrite length_app in Hl. cbn in Hl. lia. }
  rewrite length_app in Hc, Hl. cbn in Hc, Hl. destruct (Z.ltb_spec 0 (recent_count_ s)); [|lia].
  apply returns_bind. unfold ask, recent_at. eapply returns_eq; [by rewrite (ring_last _ _ _ _ _ _ Hr)|].
  rewrite filter_app, filter_cons, filter_nil. apply StronglySorted_app in Hs as (Hb & Hs & _).
  destruct (Z.ltb_spec n q).
  - rewrite decide_False by lia. rewrite app_nil_r. apply returns_bind. eapply returns_eq; [done|].
    eapply returns_mono; [eapply (IH _ recent); [by eapply ring_pop_back|done|lia]|]. cbn.
    intros s' _ (c & -> & Hr'). by exists c.
  - rewrite decide_True by lia. eapply returns_eq; [done|]. exists (recent_count_ s). split; [by destruct s|].
    rewrite filter_id; [done|]. apply Forall_forall. intros x Hx. specialize (Hb x q Hx ltac:(by left)). lia.
Qed.

Lemma events_in_sorted L : in_order L → StronglySorted (λ a b : Z * bool * TechnicalEventReason, a.1.1 < b.1.1) (events_in L).
Proof.
  intros [Hs _]. unfold events_in. remember (fst <$> L) as ps eqn:Hps. revert L Hps.
  induction Hs as [|p ps Hs IH Hp]; intros [|[q r] L] Hps; try done; [constructor|].
  rewrite fmap_cons in Hps. injection Hps as -> Hps. cbn. specialize (IH _ Hps).
  destruct (event_in (q, r)) as [a|] eqn:Ha; [|done]. constructor; [done|].
  apply Forall_forall. intros b Hb. apply list_elem_of_omap in Hb as ([q' r'] & Hin & Hb).
  rewrite (event_in_at _ _ Ha), (event_in_at _ _ Hb). cbn.
  apply (proj1 (Forall_forall _ _) Hp). rewrite Hps. by apply (list_elem_of_fmap_2 fst _ (q', r')).
Qed.

Lemma filter_told n (es : list TechnicalEventRecord) :
  told <$> filter (λ e, event_seq_no e ≤ n) es = filter (λ a : Z * bool * TechnicalEventReason, a.1.1 ≤ n) (told <$> es).
Proof.
  induction es as [|e es IH]; [done|]. rewrite fmap_cons, !filter_cons. cbn.
  destruct (decide (event_seq_no e ≤ n)); [rewrite fmap_cons|]; by rewrite IH.
Qed.

Lemma Forall_filter_of {A} (Q P : A → Prop) `{!∀ x, Decision (P x)} l : Forall Q l → Forall Q (filter P l).
Proof. induction 1 as [|x l Hx _ IH]; [constructor|]. rewrite filter_cons. case_decide; [by constructor|done]. Qed.

Lemma StronglySorted_filter {A} (R : A → A → Prop) (P : A → Prop) `{!∀ x, Decision (P x)} l :
  StronglySorted R l → StronglySorted R (filter P l).
Proof.
  induction 1 as [|x l Hs IH Hx]; [constructor|]. rewrite filter_cons. case_decide; [|done].
  constructor; [done|]. by apply Forall_filter_of.
Qed.

Lemma discard_shows cut top L s recent n :
  halt_shows cut top L s recent → in_order L → 0 ≤ n ≤ top →
  returns (TradingHaltState.discard_after n) s (λ s' changed,
    halt_shows true n (through n L) s' (filter (λ q, q ≤ n) recent) ∧
    changed = negb (Bool.eqb (TradingHaltState.halted s) (TradingHaltState.halted s'))).
Proof.
  intros Hs Hord Hn. pose proof Hs as []. apply returns_bind. eapply returns_eq; [done|].
  apply returns_bind. eapply returns_eq; [done|]. apply returns_bind. eapply returns_eq; [done|].
  apply returns_bind. pose proof (rs_count _ _ _ _ _ hs_ring0) as Hc.
  eapply returns_mono; [eapply (drop_recent_filter n _ _ recent); [done|done|cbn; lia]|]. cbn.
  intros s' _ (c & -> & Hring). apply returns_bind. eapply returns_eq; [done|].
  apply returns_bind. eapply returns_eq; [done|]. eapply returns_eq; [done|]. split; [|done].
  assert (Hev : reverse (pop_events_after n (reverse (events_ s))) = filter (λ e, event_seq_no e ≤ n) (events_ s)).
  { apply pop_events_filter. pose proof (events_in_sorted _ Hord) as Hes. rewrite <- hs_events0 in Hes.
    clear -Hes. induction (events_ s) as [|e es IH]; [constructor|]. rewrite fmap_cons in Hes.
    apply StronglySorted_inv in Hes as [Hes He]. constructor; [by apply IH|].
    by rewrite Forall_fmap in He. }
  match goal with |- halt_shows _ _ _ ?x _ => set (s' := x) end.
  assert (events_ s' = filter (λ e, event_seq_no e ≤ n) (events_ s) ∧ recent_ s' = recent_ s ∧
    recent_oldest_ s' = recent_oldest_ s ∧ recent_count_ s' = c ∧
    latest_forgotten_ s' = Z.min n (latest_forgotten_ s)) as (He & Ha & Ho & Hk & Hg).
  { rewrite <- Hev. subst s'. destruct (Z.ltb_spec n (latest_forgotten_ s)) as [Hlt|Hge]; cbn;
      rewrite ?(proj2 (Z.ltb_lt _ _) Hlt), ?(proj2 (Z.ltb_ge _ _) Hge); cbn; repeat split; lia. }
  clearbody s'. destruct hs_forgotten0 as [H0 Hf].
  constructor; rewrite ?commands_through, ?He, ?Ha, ?Ho, ?Hk, ?Hg; try done.
  - by apply StronglySorted_filter.
  - apply Forall_forall. intros q Hq. apply list_elem_of_filter in Hq as [Hq Hr].
    apply list_elem_of_filter. split; [done|]. by apply (proj1 (Forall_forall _ _) hs_recent0).
  - lia.
  - split; [lia|]. apply Forall_filter_of. eapply Forall_impl; [exact Hf|]. cbn. lia.
  - apply Forall_forall. intros q Hq. apply list_elem_of_filter in Hq as [Hq Hr].
    apply (proj1 (Forall_forall _ _) hs_commands0) in Hr as [Hr|Hr]; [left; by apply list_elem_of_filter|right; lia].
  - unfold events_in. rewrite (omap_through _ (λ a, a.1.1)) by (intros pr a; apply event_in_at).
    fold (events_in L). by rewrite <- hs_events0, <- filter_told.
  - apply Forall_filter_of. eapply Forall_impl; [exact hs_before0|]. intros e. apply Forall_filter_of.
Qed.

(** ** The whole of it *)

Inductive wal_op :=
  | HoldRecord (seq_no : Z) (r : WalRecord) (how : How)
  | CutBackTo (seq_no : Z).

(** A record is later than every one held; the log is cut back to a position it
    has reached. *)
Definition fits (top : Z) (o : wal_op) : Prop :=
  match o with HoldRecord p _ _ => top < p | CutBackTo n => 0 ≤ n ≤ top end.

Definition top_after (top : Z) (o : wal_op) : Z :=
  match o with HoldRecord p _ _ => p | CutBackTo n => n end.

Definition log_after L (o : wal_op) : log :=
  match o with HoldRecord p r _ => L ++ [(p, r)] | CutBackTo n => through n L end.

Definition cuts (o : wal_op) : bool :=
  match o with HoldRecord _ _ _ => false | CutBackTo _ => true end.

Fixpoint all_fit (top : Z) (ops : list wal_op) : Prop :=
  match ops with [] => True | o :: ops => fits top o ∧ all_fit (top_after top o) ops end.

Definition do_wal_op (o : wal_op) : comp VenueStateFromTheWal.t unit :=
  match o with
  | HoldRecord p r how => note_record decode_void decode_technical_event p r how ;; mret ()
  | CutBackTo n => VenueStateFromTheWal.discard_after n ;; mret ()
  end.

Fixpoint do_wal_ops (ops : list wal_op) : comp VenueStateFromTheWal.t unit :=
  match ops with [] => mret () | o :: ops => do_wal_op o ;; do_wal_ops ops end.

Definition answers_in L : list Z := omap (λ pr, answer_in pr.2) L.

Definition highest_of (l : list Z) : Z := foldr Z.max 0 l.

Record venue_shows (cut : bool) (top : Z) L (s : VenueStateFromTheWal.t) : Prop := mk_venue_shows {
  vs_order : in_order L;
  vs_top : 0 ≤ top ∧ Forall (λ pr, pr.1 ≤ top) L;
  vs_halt : ∃ recent, halt_shows cut top L (trading_halt_ s) recent;
  vs_voids : voids_ s = voids_in L;
  vs_answered : highest_of (answers_in L) ≤ highest_command_answered_ s;
  vs_exact : cut = false → highest_command_answered_ s = highest_of (answers_in L)
}.

Lemma venue_shows_initial : venue_shows false 0 [] VenueStateFromTheWal.initial.
Proof.
  constructor; try done; [split; constructor|]. exists [].
  constructor; try done; [by apply ring_empty| |]; [constructor|by split; left].
Qed.

Lemma void_in_at pr v : void_in pr = Some v → void_seq_no v = pr.1.
Proof.
  unfold void_in, void_from_command. destruct (bool_decide _); cbn; [|done].
  destruct (decode_void _); intros [= <-]. done.
Qed.

(** A void later than every one held goes last. *)
Lemma add_last v voids : Forall (λ w, void_seq_no w < void_seq_no v) voids →
  VoidedCommandList.add v voids = (voids ++ [v], true).
Proof.
  intros Hv. unfold VoidedCommandList.add.
  assert (VoidedCommandList.at_position voids (void_seq_no v) = None) as ->.
  { induction Hv as [|w voids Hw _ IH]; [done|]. cbn. destruct (Z.eqb_spec (void_seq_no w) (void_seq_no v)); [lia|done]. }
  f_equal. induction Hv as [|w voids Hw _ IH]; [done|]. cbn.
  destruct (Z.ltb_spec (void_seq_no v) (void_seq_no w)); [lia|]. by rewrite IH.
Qed.

Lemma voids_below top L p : Forall (λ pr, pr.1 ≤ top) L → top < p → Forall (λ w, void_seq_no w < p) (voids_in L).
Proof.
  intros HL Hp. apply Forall_forall. intros w Hw. apply list_elem_of_omap in Hw as (pr & Hin & Hw).
  apply void_in_at in Hw. apply (proj1 (Forall_forall _ _) HL) in Hin. cbn in Hin. lia.
Qed.

Lemma highest_snoc l a : highest_of (l ++ [a]) = Z.max (highest_of l) a.
Proof. unfold highest_of. induction l as [|b l IH]; cbn; [|rewrite IH]; lia. Qed.

Lemma highest_nonneg l : 0 ≤ highest_of l.
Proof. unfold highest_of. induction l; cbn; lia. Qed.

Lemma in_order_snoc top L p r :
  in_order L → Forall (λ pr, pr.1 ≤ top) L → 0 ≤ top < p → in_order (L ++ [(p, r)]).
Proof.
  intros [Hs Hpos] Htop Hp. split; [|apply Forall_app; split; [done|by apply Forall_singleton; cbn; lia]].
  rewrite fmap_app. apply StronglySorted_app. split_and!; [|done|by repeat constructor].
  intros q q' Hq Hq'. apply list_elem_of_singleton in Hq' as ->.
  apply list_elem_of_fmap in Hq as (pr & -> & Hin). apply (proj1 (Forall_forall _ _) Htop) in Hin. cbn in *. lia.
Qed.

(** What a record says of the halt. *)
Lemma note_halt_shows cut top L s p r :
  in_order L → 0 ≤ top ∧ Forall (λ pr, pr.1 ≤ top) L → top < p →
  (∃ recent, halt_shows cut top L (trading_halt_ s) recent) →
  returns (note_trading_halt decode_technical_event p r) s (λ s' _,
    (∃ recent, halt_shows cut p (L ++ [(p, r)]) (trading_halt_ s') recent) ∧
    voids_ s' = voids_ s ∧ highest_command_answered_ s' = highest_command_answered_ s).
Proof.
  intros Hord [H0 Htop] Hp (recent & Hs).
  assert (Hcommand : members r = true → returns (on_halt (note_members_command p) ;; mret false) s (λ s' _,
    (∃ recent, halt_shows cut p (L ++ [(p, r)]) (trading_halt_ s') recent) ∧
    voids_ s' = voids_ s ∧ highest_command_answered_ s' = highest_command_answered_ s)).
  { intros Hm. pose proof (note_command_shows _ _ _ _ _ p r Hs Hord Htop ltac:(lia) Hm) as Hn.
    apply returns_inv in Hn as (h' & [] & Hn & Hh). apply returns_bind. unfold on_halt.
    eapply returns_eq; [by rewrite Hn|]. by eapply returns_eq. }
  assert (Hother : members r = false → event_in (p, r) = None →
    ∃ recent, halt_shows cut p (L ++ [(p, r)]) (trading_halt_ s) recent).
  { intros Hm He. exists recent. by eapply other_shows. }
  unfold note_trading_halt. destruct (pdu_type r) eqn:Ht; try (apply Hcommand; by unfold members; rewrite Ht).
  all: assert (members r = false) as Hm by (unfold members; by rewrite Ht).
  all: try (eapply returns_eq; [done|]; split; [apply Hother; [done|by unfold event_in; cbn; rewrite Ht]|done]).
  destruct (decode_technical_event (payload r)) as [e|] eqn:Hd.
  - assert (event_in (p, r) = Some (p, view_halted e, view_reason e)) as He by (unfold event_in; cbn; by rewrite Ht, Hd).
    pose proof (note_event_shows _ _ _ _ _ p r e Hs Htop ltac:(lia) Hm He) as Hn.
    apply returns_inv in Hn as (h' & changed & Hn & Hh & _). unfold on_halt.
    eapply returns_eq; [by rewrite Hn|]. split; [by exists recent|done].
  - eapply returns_eq; [done|]. split; [apply Hother; [done|unfold event_in; cbn; by rewrite Ht, Hd]|done].
Qed.

Lemma note_void_adds L s p r how :
  voids_ s = voids_in L → Forall (λ w, void_seq_no w < p) (voids_in L) →
  returns (note_void decode_void p r) s (λ s1 added,
    returns (if (added : bool) && bool_decide (how = written_by_this_leader)
     then modify (λ s, with_awaiting s p) else mret ()) s1 (λ s' _,
    voids_ s' = voids_in (L ++ [(p, r)]) ∧ trading_halt_ s' = trading_halt_ s ∧
    highest_command_answered_ s' = highest_command_answered_ s)).
Proof.
  intros Hv Hb. unfold note_void.
  assert (Hsnoc : voids_in (L ++ [(p, r)]) = voids_in L ++ option_list (void_in (p, r))).
  { unfold voids_in. rewrite omap_app. cbn. by destruct (void_in (p, r)). }
  rewrite Hsnoc. unfold void_in at 1. cbn.
  destruct (void_from_command decode_void p r) as [v| |] eqn:Hf.
  - assert (void_seq_no v = p) as <-.
    { apply (void_in_at (p, r)). unfold void_in. cbn. by rewrite Hf. }
    eapply returns_eq; [done|]. rewrite Hv, add_last by done. cbn. case_bool_decide; by eapply returns_eq.
  - eapply returns_eq; [done|]. cbn. eapply returns_eq; [done|]. by rewrite app_nil_r.
  - eapply returns_eq; [done|]. cbn. eapply returns_eq; [done|]. by rewrite app_nil_r.
Qed.

Lemma note_answer_shows cut L s p r :
  (cut = false → highest_command_answered_ s = highest_of (answers_in L)) →
  highest_of (answers_in L) ≤ highest_command_answered_ s →
  returns (note_answer r) s (λ s' _,
    voids_ s' = voids_ s ∧ trading_halt_ s' = trading_halt_ s ∧
    (cut = false → highest_command_answered_ s' = highest_of (answers_in (L ++ [(p, r)]))) ∧
    highest_of (answers_in (L ++ [(p, r)])) ≤ highest_command_answered_ s').
Proof.
  intros He Hle. eapply returns_eq; [done|].
  assert (answers_in (L ++ [(p, r)]) = answers_in L ++ option_list (answer_in r)) as ->.
  { unfold answers_in. rewrite omap_app. cbn. by destruct (answer_in r). }
  unfold answer_in in *. destruct (pdu_type r); cbn; rewrite ?app_nil_r; try done.
  destruct (answers_seq_no r) as [a|]; cbn in *; rewrite ?app_nil_r; [|done].
  rewrite highest_snoc. split_and!; [done|done|intros Hc; rewrite (He Hc); done|lia].
Qed.

Lemma hold_shows cut top L s p r how :
  venue_shows cut top L s → top < p →
  returns (note_record decode_void decode_technical_event p r how) s (λ s' _,
    venue_shows cut p (L ++ [(p, r)]) s').
Proof.
  intros [Hord Htop Hh Hv Hle He] Hp. apply returns_bind.
  eapply (returns_mono _ _ (λ s' _, trading_halt_ s' = trading_halt_ s ∧ voids_ s' = voids_ s ∧
    highest_command_answered_ s' = highest_command_answered_ s)).
  { case_bool_decide; eapply returns_eq; try done. destruct (trading_date_in r); [|done]. by destruct (_ =? _). }
  intros s1 _ (Hh1 & Hv1 & Ha1). rewrite <- Hh1, <- Hv1, <- Ha1 in *. clear s Hh1 Hv1 Ha1. rename s1 into s.
  apply returns_bind. eapply returns_mono; [by apply (note_answer_shows cut L _ p)|].
  intros s2 _ (Hv2 & Hh2 & He2 & Hle2). apply returns_bind.
  eapply returns_mono; [apply (note_void_adds L _ p r how)|].
  { by rewrite Hv2. } { destruct Htop. by eapply voids_below. }
  intros s3 added Hadded. apply returns_bind. eapply returns_mono; [exact Hadded|].
  intros s4 _ (Hv4 & Hh4 & Ha4). apply returns_bind.
  eapply returns_mono; [eapply (note_halt_shows cut top L); [done|done|done|by rewrite Hh4, Hh2]|].
  intros s5 changed (Hh5 & Hv5 & Ha5). eapply returns_eq; [done|]. destruct Htop as [H0 Htop].
  constructor; rewrite ?Hv5, ?Ha5, ?Ha4; try done.
  - eapply in_order_snoc; [done..|lia].
  - split; [lia|]. apply Forall_app. split; [|by apply Forall_singleton; cbn].
    eapply Forall_impl; [exact Htop|]. intros [q r']; cbn; lia.
Qed.

Lemma filter_voids n (voids : list VoidedRange) :
  VoidedCommandList.discard_after n voids = filter (λ w, void_seq_no w ≤ n) voids.
Proof.
  induction voids as [|w voids IH]; [done|]. rewrite filter_cons.
  unfold VoidedCommandList.discard_after in *. cbn [List.filter]. rewrite IH.
  destruct (Z.ltb_spec n (void_seq_no w)); [rewrite decide_False|rewrite decide_True]; done || lia.
Qed.

Lemma highest_through n L : highest_of (answers_in (through n L)) ≤ highest_of (answers_in L).
Proof.
  unfold through, answers_in, highest_of. induction L as [|pr L IH]; [done|]. rewrite filter_cons.
  destruct (decide (pr.1 ≤ n)); cbn; destruct (answer_in pr.2); cbn; lia.
Qed.

Lemma in_order_through n L : in_order L → in_order (through n L).
Proof.
  intros [Hs Hp]. split; [|by apply Forall_filter_of].
  assert (fst <$> through n L = filter (λ q, q ≤ n) (fst <$> L)) as ->; [|by apply StronglySorted_filter].
  unfold through. clear. induction L as [|pr L IH]; [done|]. rewrite fmap_cons, !filter_cons.
  case_decide; [rewrite fmap_cons|]; by rewrite IH.
Qed.

Lemma cut_shows cut top L s n :
  venue_shows cut top L s → 0 ≤ n ≤ top →
  returns (VenueStateFromTheWal.discard_after n) s (λ s' _, venue_shows true n (through n L) s').
Proof.
  intros [Hord Htop (recent & Hh) Hv Hle He] Hn. apply returns_bind. eapply returns_eq; [done|].
  pose proof (discard_shows _ _ _ _ _ n Hh Hord Hn) as Hd. apply returns_inv in Hd as (h' & changed & Hd & Hs & _).
  unfold on_halt. eapply returns_eq; [cbn; by rewrite Hd|]. constructor; cbn; try done.
  - by apply in_order_through.
  - split; [lia|]. apply Forall_forall. intros pr Hpr. by apply list_elem_of_filter in Hpr as [? _].
  - by exists (filter (λ q, q ≤ n) recent).
  - rewrite filter_voids, Hv. unfold voids_in. by rewrite (omap_through _ void_seq_no) by apply void_in_at.
  - etrans; [apply highest_through|done].
Qed.

Lemma run_shows ops : ∀ cut top L s,
  venue_shows cut top L s → all_fit top ops →
  returns (do_wal_ops ops) s (λ s' _,
    venue_shows (cut || existsb cuts ops) (foldl top_after top ops) (foldl log_after L ops) s').
Proof.
  induction ops as [|o ops IH]; intros cut top L s Hs Hfit; cbn.
  { eapply returns_eq; [done|]. by rewrite orb_false_r. }
  destruct Hfit as [Ho Hfit]. apply returns_bind. rewrite orb_assoc.
  assert (returns (do_wal_op o) s (λ s' _, venue_shows (cut || cuts o) (top_after top o) (log_after L o) s')) as Hone.
  { destruct o as [p r how|n]; cbn; apply returns_bind.
    - eapply returns_mono; [by eapply hold_shows|]. intros s' a Hs'. eapply returns_eq; [done|].
      by rewrite orb_false_r.
    - eapply returns_mono; [by eapply cut_shows|]. intros s' a Hs'. eapply returns_eq; [done|].
      by rewrite orb_true_r. }
  eapply returns_mono; [exact Hone|]. intros s' [] Hs'. by apply IH.
Qed.

(** Opening a log reads it from its first record. *)
Definition opening L : list wal_op := (λ pr, HoldRecord pr.1 pr.2 read_at_open) <$> L.

Lemma opening_fits L top :
  StronglySorted Z.lt (fst <$> L) → Forall (λ pr, top < pr.1) L → all_fit top (opening L).
Proof.
  revert top. induction L as [|[p r] L IH]; intros top Hs Ht; [done|]. cbn.
  rewrite fmap_cons in Hs. apply StronglySorted_inv in Hs as [Hs Hp]. apply Forall_cons in Ht as [Ht _].
  split; [done|]. apply IH; [done|]. by rewrite Forall_fmap in Hp.
Qed.

Lemma opening_reads L : ∀ L0, foldl log_after L0 (opening L) = L0 ++ L ∧ existsb cuts (opening L) = false.
Proof.
  induction L as [|[p r] L IH]; intros L0; [by rewrite app_nil_r|].
  destruct (IH (L0 ++ [(p, r)])) as [IH1 IH2]. unfold opening in *. rewrite fmap_cons. cbn [foldl existsb cuts orb log_after fst snd].
  by rewrite IH1, <- app_assoc.
Qed.

Lemma shows_latest cut top L s :
  venue_shows cut top L s →
  told <$> latest (trading_halt_ s) = last (events_in L).
Proof. intros [_ _ (recent & Hh) _ _ _]. unfold latest. by rewrite <- (hs_events _ _ _ _ _ Hh), fmap_last. Qed.

(** C32: whatever records an instance reads as it opens, writes as leader and writes as follower, each later than the
    ones before it, and however often its log is cut back, it holds exactly the voids its log then holds and the
    latest TechnicalEvent in it, so it takes trading to be halted when the log says so; it agrees with an
    instance that opens that log afresh, and its highest command answered is no lower, and the same if the log was
    never cut back. *)
Theorem venue_state_is_what_the_log_says ops :
  all_fit 0 ops →
  let L := foldl log_after [] ops in
  ∃ s opened,
    do_wal_ops ops VenueStateFromTheWal.initial = (s, Returns ()) ∧
    do_wal_ops (opening L) VenueStateFromTheWal.initial = (opened, Returns ()) ∧
    voids_ s = voids_in L ∧ voids_ opened = voids_in L ∧
    told <$> latest (trading_halt_ s) = last (events_in L) ∧
    told <$> latest (trading_halt_ opened) = last (events_in L) ∧
    halted (trading_halt_ s) = halted (trading_halt_ opened) ∧
    highest_command_answered_ opened = highest_of (answers_in L) ∧
    highest_command_answered_ opened ≤ highest_command_answered_ s ∧
    (existsb cuts ops = false → highest_command_answered_ s = highest_command_answered_ opened).
Proof.
  intros Hfit L. pose proof (run_shows ops false 0 [] _ venue_shows_initial Hfit) as Hrun.
  apply returns_inv in Hrun as (s & [] & Hrun & Hs). fold L in Hs.
  destruct (vs_order _ _ _ _ Hs) as [Hsorted Hpos].
  pose proof (run_shows (opening L) false 0 [] _ venue_shows_initial (opening_fits _ 0 Hsorted Hpos)) as Hopen.
  destruct (opening_reads L []) as [HL Hcut]. rewrite HL, Hcut in Hopen.
  apply returns_inv in Hopen as (opened & [] & Hopen & Ho).
  pose proof (shows_latest _ _ _ _ Hs) as Hls. pose proof (shows_latest _ _ _ _ Ho) as Hlo. cbn [app orb] in *.
  exists s, opened. destruct Hs, Ho. rewrite (vs_exact1 eq_refl). split_and!; try done.
  unfold halted, latest in *. rewrite <- Hls in Hlo.
  destruct (last (events_ (trading_halt_ s))), (last (events_ (trading_halt_ opened))); by simplify_eq/=.
Qed.

Lemma last_told cut top L s recent e :
  halt_shows cut top L s recent → last (events_ s) = Some e →
  last (events_in L) = Some (told e) ∧
  Forall (λ p, p < event_seq_no e → p ≤ last_members_command_before e) (commands_in L) ∧
  (cut = false → last_members_command_before e = 0 ∨
     last_members_command_before e ∈ commands_in L ∧ last_members_command_before e < event_seq_no e).
Proof.
  intros [] He. assert (e ∈ events_ s) as Hin by by apply last_Some_elem_of.
  split_and!; [by rewrite <- hs_events0, fmap_last, He|by apply (proj1 (Forall_forall _ _) hs_before0)|].
  intros Hcut. destruct (hs_exact0 Hcut) as [_ Hx]. by apply (proj1 (Forall_forall _ _) Hx).
Qed.

(** C33: an operator's request to lift a halt is allowed only when the latest TechnicalEvent of the log halts trading,
    an engine leads, and the instance has noted an answer to every member's command before the halt, or to a
    later one, however the log was cut back; and if it was not, exactly then. *)
Theorem lift_is_never_early ops engine_leads :
  all_fit 0 ops →
  let L := foldl log_after [] ops in
  ∃ s, do_wal_ops ops VenueStateFromTheWal.initial = (s, Returns ()) ∧
    let answered := highest_command_answered_ s in
    let every_command_answered := ∃ p reason, last (events_in L) = Some (p, true, reason) ∧ engine_leads = true ∧
      Forall (λ q, q < p → q ≤ answered) (commands_in L) in
    (may_lift (trading_halt_ s) engine_leads answered = Allowed → every_command_answered) ∧
    (existsb cuts ops = false →
      answered = highest_of (answers_in L) ∧
      (every_command_answered → may_lift (trading_halt_ s) engine_leads answered = Allowed)).
Proof.
  intros Hfit L. pose proof (run_shows ops false 0 [] _ venue_shows_initial Hfit) as Hrun.
  apply returns_inv in Hrun as (s & [] & Hrun & Hs). fold L in Hs. exists s. split; [done|].
  destruct Hs as [_ _ (recent & Hh) _ Hle Hexact]. cbn [orb] in Hh, Hexact. intros answered every. unfold may_lift, halted.
  destruct (last (events_ (trading_halt_ s))) as [e|] eqn:He; cbn.
  - destruct (last_told _ _ _ _ _ _ Hh He) as (Hlast & Hbefore & Hx). split.
    + destruct (event_halted e) eqn:Hhalts; [|done]. destruct engine_leads; [|done]. cbn.
      destruct (Z.ltb_spec answered (last_members_command_before e)); [done|]. intros _.
      exists (event_seq_no e), (event_reason e). split; [by rewrite Hlast; unfold told; rewrite Hhalts|].
      split; [done|]. eapply Forall_impl; [exact Hbefore|]. cbn. lia.
    + intros Hcut. split; [by apply Hexact|]. intros (p & reason & Hl & -> & Hall). rewrite Hlast in Hl.
      unfold told in Hl. simplify_eq. rewrite H0. cbn.
      destruct (Z.ltb_spec answered (last_members_command_before e)) as [Hlt|]; [exfalso|done].
      destruct (Hx Hcut) as [Hzero|[Hin Hb]].
      * pose proof (highest_nonneg (answers_in L)). unfold answered in Hlt. lia.
      * pose proof (proj1 (Forall_forall _ _) Hall _ Hin Hb) as Hq. cbn in Hq. lia.
  - split; [done|]. intros Hcut. split; [by apply Hexact|]. intros (p & reason & Hl & _).
    rewrite <- (hs_events _ _ _ _ _ Hh), fmap_last, He in Hl. done.
Qed.

End theorems.

(** ** A day *)

Module Day.

Definition a_void (bytes : list Z) : option VoidCommandsView :=
  match bytes with [first; last] => Some (mk_void_view first last true EngineDiedApplying) | _ => None end.

Definition an_event (bytes : list Z) : option TechnicalEventView :=
  match bytes with [h] => Some (mk_event_view (h =? 1) DeclaredByOperator) | _ => None end.

Definition order : WalRecord := mk_record NewOrderSingle [] None (Some 20260105).
Definition halt : WalRecord := mk_record TechnicalEventType [1] None None.
Definition void_of (first last : Z) : WalRecord := mk_record VoidCommandsType [first; last] None None.
Definition answer (seq_no : Z) : WalRecord := mk_record ExecutionReport [] (Some seq_no) None.

Definition ops : list wal_op :=
  [HoldRecord 1 order read_at_open; HoldRecord 2 (answer 1) read_at_open; HoldRecord 3 order written_as_follower;
   HoldRecord 4 (void_of 3 3) written_as_follower; CutBackTo 3; HoldRecord 4 halt written_by_this_leader;
   HoldRecord 5 (answer 3) written_by_this_leader].

(** A halt after a member's order, and the order's report; the report is then cut off the log. *)
Definition cut_ops : list wal_op :=
  [HoldRecord 1 order written_as_follower; HoldRecord 2 halt written_as_follower;
   HoldRecord 3 (answer 1) written_as_follower; CutBackTo 2].

End Day.

Lemma venue_state_is_what_the_log_says_witness :
  ∃ s opened,
    do_wal_ops Day.a_void Day.an_event Day.ops VenueStateFromTheWal.initial = (s, Returns ()) ∧
    halted (trading_halt_ s) = halted (trading_halt_ opened).
Proof.
  destruct (venue_state_is_what_the_log_says Day.a_void Day.an_event Day.ops) as (s & opened & Hs & _ & _ & _ & _ & _ & Hh & _).
  - cbn. lia.
  - exists s, opened. split; [exact Hs|exact Hh].
Defined.

Lemma lift_is_never_early_witness :
  ∃ s, do_wal_ops Day.a_void Day.an_event Day.ops VenueStateFromTheWal.initial = (s, Returns ()) ∧
    (may_lift (trading_halt_ s) true (highest_command_answered_ s) = Allowed →
     Forall (λ q, q < 4 → q ≤ highest_command_answered_ s) [1; 3]).
Proof.
  destruct (lift_is_never_early Day.a_void Day.an_event Day.ops true) as (s & Hs & Hlift & _).
  - cbn. lia.
  - exists s. split; [exact Hs|]. intros Ha. destruct (Hlift Ha) as (p & reason & He & _ & Hall).
    cbn in He. injection He as <- _. exact Hall.
Defined.

(** An answer cut off the log still counts, so the halt may be lifted while the log holds no answer to an order before
    it, and an instance that opened the same log would decline. *)
Lemma cut_off_answers_still_lift :
  let run ops := (do_wal_ops Day.a_void Day.an_event ops VenueStateFromTheWal.initial).1 in
  let lift s := may_lift (trading_halt_ s) true (highest_command_answered_ s) in
  let L := foldl log_after [] Day.cut_ops in
  commands_in L = [1] ∧ answers_in L = [] ∧
  lift (run Day.cut_ops) = Allowed ∧ lift (run (opening L)) = ReportsOutstanding.
Proof. vm_compute. done. Qed.
