(* ===== verification/OrderReleaseFollowers.v ===== *)
(** No matching engine that follows the log is sent an order before the engine that leads is. *)

From stdpp Require Import sorting.
From S2P Require Import Prelude.
From S2P Require Import WalEntry.
From S2P Require Import RingBuffer.
From S2P Require Import OrderRelease.
From S2P Require Import OrderReleaseTheorems.
Import OrderRelease.
#[local] Open Scope Z_scope.

Section followers.
Context {E : Type} `{Envelope E}.
Implicit Types (s : t E) (l : list (HeldOrder E)) (W : list Z).

(** What the engines that follow the log are sent through. *)
Definition followers_in (o : output E) : option Z :=
  match o with SendReleasedToFollowerEngines r => Some r | _ => None end.

(** Of the orders in [W], each one at or before a position the followers are sent through has been sent to the leading
    engine before that; [st] is what has been sent before. *)
Fixpoint followers_after W (st : list Z * option Z) (os : list (output E)) : Prop :=
  match os with
  | [] => True
  | o :: os =>
      match followers_in o with Some r => Forall (λ x, x ≤ r → x ∈ st.1) W | None => True end ∧
      followers_after W (delivery W st o) os
  end.

Lemma followers_app W st os os' :
  followers_after W st (os ++ os') ↔ followers_after W st os ∧ followers_after W (foldl (delivery W) st os) os'.
Proof.
  revert st. induction os as [|o os IH]; intros st; cbn; [tauto|]. rewrite IH. tauto.
Qed.

Definition no_followers (o : output E) : Prop := followers_in o = None.

Lemma followers_none W st os : Forall no_followers os → followers_after W st os.
Proof. intros Hn. revert st. induction Hn as [|o os Ho _ IH]; intros st; [done|]. cbn. by rewrite Ho. Qed.

(** The orders at or before a position that the followers were sent through are among those sent. *)
Lemma followers_behind W os : ∀ st,
  followers_after W st os →
  Forall (λ r, ∀ q, q ∈ W → q ∉ (foldl (delivery W) st os).1 → r < q) (omap followers_in os).
Proof.
  assert (Hgrows : ∀ st o x, x ∈ st.1 → x ∈ (delivery W st o).1).
  { intros [sent owed] o x Hx. unfold delivery. destruct o; try done; cbn [fst snd] in *.
    - apply elem_of_app. by left.
    - destruct owed; [apply elem_of_app; by left|done]. }
  assert (Hall : ∀ os st x, x ∈ st.1 → x ∈ (foldl (delivery W) st os).1).
  { clear os. induction os as [|o os IH]; intros st x Hx; [done|]. by apply IH, Hgrows. }
  induction os as [|o os IH]; intros st Hs; [constructor|]. destruct Hs as [Ho Hs]. specialize (IH _ Hs). cbn.
  destruct (followers_in o) as [r|]; [|done]. constructor; [|done]. intros q Hq Hn.
  destruct (Z.le_gt_cases q r) as [Hle|]; [|lia]. rewrite Forall_forall in Ho. destruct Hn. by apply Hall, Hgrows, Ho.
Qed.

(** Orders later than every position said change nothing that was said. *)
Lemma followers_more W st y os :
  Forall (λ r, r < y) (omap position_in os) → Forall (λ r, r < y) (omap followers_in os) →
  followers_after W st os → followers_after (W ++ [y]) st os.
Proof.
  revert st. induction os as [|o os IH]; intros st Hp Hf Hs; [done|]. destruct Hs as [Ho Hs].
  assert (Hd : delivery (W ++ [y]) st o = delivery W st o).
  { apply (deliveries_more W st y [o]). cbn in Hp |- *. destruct (position_in o); [|done].
    apply Forall_cons in Hp as [Hp _]. by apply Forall_singleton. }
  cbn. rewrite Hd. split.
  - cbn in Hf. destruct (followers_in o) as [r|]; [|done]. apply Forall_cons in Hf as [Hf _].
    apply Forall_app. split; [done|]. apply Forall_singleton. lia.
  - apply IH; [| |done]; cbn in Hp, Hf.
    + destruct (position_in o); [by apply Forall_cons in Hp as [_ Hp]|done].
    + destruct (followers_in o); [by apply Forall_cons in Hf as [_ Hf]|done].
Qed.

(** ** What an operation says *)

Definition emits (P : output E → Prop) {A} (m : comp (t E) A) : Prop :=
  ∀ s, ∃ os, outputs (m s).1 = outputs s ++ os ∧ Forall P os.

Lemma emits_bind P {A B} (m : comp (t E) A) (f : A → comp (t E) B) :
  emits P m → (∀ a, emits P (f a)) → emits P (m ≫= f).
Proof.
  intros Hm Hf s. unfold mbind, comp_bind. destruct (Hm s) as (os & Ho & HP).
  destruct (m s) as [s' [a|e]]; cbn in *; [|by exists os].
  destruct (Hf a s') as (os' & Ho' & HP'). exists (os ++ os'). rewrite Ho', Ho, app_assoc. split; [done|].
  by apply Forall_app.
Qed.

Lemma emits_still P {A} (m : comp (t E) A) : (∀ s, outputs (m s).1 = outputs s) → emits P m.
Proof. intros Hm s. exists []. by rewrite Hm, app_nil_r. Qed.

Lemma emits_tell P os : Forall P os → emits P (tell os).
Proof. intros HP s. by exists os. Qed.

#[local] Ltac emit :=
  repeat first
    [ apply emits_bind; [|intros ?]
    | apply emits_tell; solve [repeat constructor | by apply Forall_fmap, Forall_true | by unfold freed; case_match; repeat constructor]
    | apply emits_still; solve [done | by intros s; unfold on_held; cbn; destruct (_ (held_ s))]
    | case_match
    | case_if ].

Lemma emits_pause k : emits no_followers (pause_or_resume_reading k).
Proof. unfold pause_or_resume_reading. emit. Qed.

Lemma emits_moved k : emits no_followers (released_position_moved k).
Proof. apply emits_bind; [by apply emits_still|intros r]. apply emits_bind; [by apply emits_tell; repeat constructor|]. intros _. apply emits_pause. Qed.

Lemma emits_send_held turns c : emits no_followers (send_held turns c).
Proof.
  induction turns as [|turns IH]; cbn [send_held]; emit; try apply IH.
Qed.

Lemma emits_release k c : emits no_followers (release_to_leading_engine k c).
Proof.
  apply emits_bind; [by apply emits_still|intros s]. case_if; [apply emits_moved|].
  apply emits_bind; [apply emits_send_held|intros _]. apply emits_bind; [by apply emits_still|intros s'].
  apply emits_bind; [|intros _; apply emits_moved]. emit.
Qed.

Lemma emits_hold e slab_id : emits no_followers (hold e slab_id).
Proof. unfold hold, note_unheld. emit. Qed.

Lemma emits_hold_own e bytes : emits no_followers (hold_own_command e bytes).
Proof. unfold hold_own_command, note_unheld. emit. Qed.

(** ** What is kept *)

Record sound W (given : list Z) (last committed : Z) s l (sent : list Z) : Prop := mk_sound {
  so_keeps : keeps W given last committed s l sent;
  so_followers : followers_after W ([], None) (outputs s);
  so_positions : Forall (λ r, r ≤ last) (omap followers_in (outputs s))
}.

Lemma omap_none {A B} (f : A → option B) (l : list A) : Forall (λ a, f a = None) l → omap f l = [].
Proof. induction 1 as [|a l Ha _ IH]; [done|]. cbn. by rewrite Ha. Qed.

(** An operation that says nothing to the followers. *)
Lemma sound_quiet {A} (m : comp (t E) A) W given given' last committed last' committed' s l sent Q :
  sound W given last committed s l sent → last ≤ last' →
  emits no_followers m →
  returns m s (λ s' a, ∃ l' sent', keeps W given' last' committed' s' l' sent' ∧
    (sound W given' last' committed' s' l' sent' → Q s' a)) →
  returns m s Q.
Proof.
  intros Hs Hl He Hr. unfold returns in *. destruct (He s) as (os & Hos & Hn).
  destruct (m s) as [s' [a|e]]; [|done]. cbn in Hos. destruct Hr as (l' & sent' & Hk & HQ). apply HQ.
  destruct Hs as [_ Hf Hp]. constructor; [done| |].
  - rewrite Hos. apply followers_app. split; [done|by apply followers_none].
  - rewrite Hos, omap_app, (omap_none _ os Hn), app_nil_r. eapply Forall_impl; [exact Hp|]. cbn. lia.
Qed.

Lemma sound_later W given last committed last' committed' s l sent :
  sound W given last committed s l sent → last ≤ last' → committed ≤ committed' ≤ last' →
  sound W given last' committed' s l sent.
Proof.
  intros [Hk Hf Hp] Hl Hc. constructor; [by eapply keeps_later|done|].
  eapply Forall_impl; [exact Hp|]. cbn. lia.
Qed.

Lemma sound_ext W given last committed s s' l sent :
  sound W given last committed s l sent →
  held_ s' = held_ s → capacity_ s' = capacity_ s → first_unheld_seq_ s' = first_unheld_seq_ s →
  outputs s' = outputs s → sound W given last committed s' l sent.
Proof. intros [] H1 H2 H3 H4. constructor; rewrite ?H4; try done. by eapply keeps_ext. Qed.

Lemma release_sound k W given s l sent :
  sound W given (last_seq_no k) (committed_through k) s l sent →
  returns (release_to_leading_engine k (committed_through k)) s (λ s' _, ∃ l' sent',
    sound W given (last_seq_no k) (committed_through k) s' l' sent').
Proof.
  intros Hs. eapply (sound_quiet _ W given given); [exact Hs|done|apply emits_release|].
  eapply returns_mono; [eapply release_keeps, Hs|]. cbn. intros s' _ (l' & sent' & Hk & _).
  exists l', sent'. split; [exact Hk|eauto].
Qed.

(** The followers are sent what has been released. *)
Lemma tell_followers_sound k W given s l sent Q :
  sound W given (last_seq_no k) (committed_through k) s l sent →
  (∀ s', sound W given (last_seq_no k) (committed_through k) s' l sent → Q s' ()) →
  returns (r ← ask (released_through k); tell [SendReleasedToFollowerEngines r]) s Q.
Proof.
  intros [Hk Hf Hp] HQ. destruct (released_exactly k _ _ _ _ _ Hk) as (r & Hr & Hle & Hx).
  apply returns_bind. unfold ask. eapply returns_eq; [by rewrite Hr|].
  eapply tell_keeps; [exact Hk|by repeat constructor|]. intros Hk'. apply HQ. constructor; [done| |].
  - cbn. apply followers_app. split; [done|]. cbn. split; [|done].
    fold (deliveries W (outputs s)). rewrite (ke_sent _ _ _ _ _ _ _ Hk). cbn.
    eapply Forall_impl; [exact Hx|]. cbn. tauto.
  - cbn. rewrite omap_app. apply Forall_app. split; [done|]. apply Forall_singleton.
    pose proof (ke_le _ _ _ _ _ _ _ Hk). lia.
Qed.

Lemma release_through_sound k W given s l sent :
  sound W given (last_seq_no k) (committed_through k) s l sent →
  returns (release_held_orders_through k (committed_through k)) s (λ s' _, ∃ l' sent',
    sound W given (last_seq_no k) (committed_through k) s' l' sent').
Proof.
  intros Hs. apply returns_bind. eapply returns_mono; [by eapply release_sound|]. cbn.
  intros s1 _ (l1 & sent1 & Hs1). eapply tell_followers_sound; [exact Hs1|eauto].
Qed.

(** An order given. *)
Lemma given_sound W given given' last committed last' committed' s s' l l' sent sent' y :
  sound W given last committed s l sent → last < y ≤ last' →
  (∃ os, outputs s' = outputs s ++ os ∧ Forall no_followers os) →
  keeps (W ++ [y]) given' last' committed' s' l' sent' →
  sound (W ++ [y]) given' last' committed' s' l' sent'.
Proof.
  intros [Hk Hf Hp] Hy (os & Hos & Hn) Hk'. constructor; [done| |].
  - rewrite Hos. apply followers_app. split; [|by apply followers_none].
    apply followers_more; [| |done]; (eapply Forall_impl; [first [exact Hp|exact (ke_positions _ _ _ _ _ _ _ Hk)]|]); cbn; lia.
  - rewrite Hos, omap_app, (omap_none _ os Hn), app_nil_r. eapply Forall_impl; [exact Hp|]. cbn. lia.
Qed.

Lemma hold_sound k W given last committed s l sent e slab_id :
  sound W given last committed s l sent → committed ≤ committed_through k ≤ last_seq_no k →
  fits last k (Hold e slab_id) →
  returns (hold e slab_id) s (λ s' _, ∃ l' sent',
    sound (W ++ [envelope_seq_no e]) (given ++ [slab_id]) (last_seq_no k) (committed_through k) s' l' sent').
Proof.
  intros Hs Hc Hfit. pose proof (hold_keeps k _ _ _ _ _ _ _ _ _ (so_keeps _ _ _ _ _ _ _ Hs) Hc Hfit) as Hh.
  pose proof (emits_hold e slab_id s) as He. unfold returns in *. destruct (hold e slab_id s) as [s' [a|x]]; [|done].
  destruct Hh as (l' & sent' & Hk'). exists l', sent'. destruct Hfit as [Hlt Heq].
  eapply given_sound; [exact Hs|lia|exact He|exact Hk'].
Qed.

Lemma hold_own_sound k W given last committed s l sent e bytes :
  sound W given last committed s l sent → committed ≤ committed_through k ≤ last_seq_no k →
  fits last k (HoldOwnCommand e bytes) →
  returns (hold_own_command e bytes) s (λ s' _, ∃ l' sent',
    sound (W ++ [envelope_seq_no e]) given (last_seq_no k) (committed_through k) s' l' sent').
Proof.
  intros Hs Hc Hfit. pose proof (hold_own_keeps k _ _ _ _ _ _ _ _ _ (so_keeps _ _ _ _ _ _ _ Hs) Hc Hfit) as Hh.
  pose proof (emits_hold_own e bytes s) as He. unfold returns in *. destruct (hold_own_command e bytes s) as [s' [a|x]]; [|done].
  destruct Hh as (l' & sent' & Hk'). exists l', sent'. destruct Hfit as (Hlt & Heq & _).
  eapply given_sound; [exact Hs|lia|exact He|exact Hk'].
Qed.

(** *** The other actions *)

Section while_leading.
Variables (k : links) (W given : list Z).
Abbreviation keeping s l sent := (sound W given (last_seq_no k) (committed_through k) s l sent).
Abbreviation kept s := (∃ l sent, keeping s l sent).

Lemma stop_awaiting_sound s l sent :
  keeping s l sent → returns (stop_awaiting_engine_position k) s (λ s' _, kept s').
Proof.
  intros Hs. apply returns_bind. eapply returns_eq; [done|]. eapply release_through_sound. by eapply sound_ext.
Qed.

Lemma tell_sound s l sent os Q :
  keeping s l sent → Forall (λ o, quiet o = true) os → Forall no_followers os →
  (keeping (with_outputs s (outputs s ++ os)) l sent → Q (with_outputs s (outputs s ++ os)) ()) →
  returns (tell os) s Q.
Proof.
  intros [Hk Hf Hp] Hq Hn HQ. eapply tell_keeps; [exact Hk|done|]. intros Hk'. apply HQ. constructor; [done| |]; cbn.
  - apply followers_app. split; [done|by apply followers_none].
  - by rewrite omap_app, (omap_none _ os Hn), app_nil_r.
Qed.

Lemma ask_sound s l sent now : keeping s l sent → returns (ask_engine_for_position k now) s (λ s' _, kept s').
Proof.
  intros Hs. apply returns_bind. eapply returns_eq; [done|].
  destruct (leading_engine_connection k) as [engine|].
  - apply returns_bind. destruct (awaiting_engine_position_ s); (eapply returns_eq; [done|]);
      (apply returns_bind; eapply returns_eq; [done|]); (apply returns_bind; eapply returns_eq; [done|]);
      (eapply tell_sound; [by eapply sound_ext|by repeat constructor|by repeat constructor|eauto]).
  - destruct (awaiting_engine_position_ s); [by eapply stop_awaiting_sound|eapply returns_eq; eauto].
Qed.

Lemma engine_position_sound s l sent id highest :
  keeping s l sent → returns (engine_position k id highest) s (λ s' _, kept s').
Proof.
  intros Hs. apply returns_bind. eapply returns_eq; [done|]. case_if; [eapply returns_eq; eauto|].
  apply returns_bind. eapply returns_eq; [done|]. apply returns_bind.
  assert (Hs1 : keeping (with_awaiting s false) l sent) by by eapply sound_ext.
  case_if.
  - eapply tell_sound; [exact Hs1|by repeat constructor|by repeat constructor|].
    intros Hs2. by eapply release_through_sound.
  - eapply returns_eq; [done|]. by eapply release_through_sound.
Qed.

(** The actions that give no order. *)
Definition gives_none (a : action (E := E)) : bool :=
  match a with Hold _ _ | HoldOwnCommand _ _ => false | _ => true end.

Lemma quiet_sound {A} (m : comp (t E) A) s l sent :
  keeping s l sent → emits no_followers m →
  returns m s (λ s' _, ∃ l sent, keeps W given (last_seq_no k) (committed_through k) s' l sent) →
  returns m s (λ s' _, kept s').
Proof.
  intros Hs He Hr. eapply (sound_quiet _ W given given); [exact Hs|done|exact He|].
  eapply returns_mono; [exact Hr|]. cbn. intros s' _ (l' & sent' & Hk). exists l', sent'. split; [exact Hk|eauto].
Qed.

Lemma action_sound a s l sent :
  keeping s l sent → gives_none a = true → returns (apply k a) s (λ s' _, kept s').
Proof.
  intros Hs Ha. pose proof (so_keeps _ _ _ _ _ _ _ Hs) as Hk. destruct a; try done; cbn [apply].
  - by eapply release_sound.
  - by eapply release_through_sound.
  - by eapply ask_sound.
  - apply returns_bind. eapply returns_eq; [done|]. case_if; [by eapply ask_sound|eapply returns_eq; eauto].
  - by eapply engine_position_sound.
  - by eapply stop_awaiting_sound.
  - eapply quiet_sound; [exact Hs|unfold order_connection_established; emit|by eapply established_keeps].
  - eapply quiet_sound; [exact Hs|unfold order_connection_lost; emit|].
    apply returns_bind. eapply returns_mono; [by eapply lost_keeps|]. cbn. intros. by eapply returns_eq.
  - eapply quiet_sound; [exact Hs|unfold pause_for_hand_over; emit|by eapply hand_over_keeps].
  - eapply quiet_sound; [exact Hs| |by eapply end_hand_over_keeps].
    apply emits_bind; [by apply emits_still|intros s0]. destruct (reading_ s0); try by apply emits_still.
    apply emits_bind; [by apply emits_still|intros _]. apply emits_pause.
Qed.

End while_leading.

End followers.
