(* ===== verification/HaltAndVoidRequests.v ===== *)
(** The requests to halt trading and to void commands: sequencer/HaltAndVoidRequests.{hpp,cpp}, and from
    sequencer/VoidFromWal.hpp what a record holds.

    [HaltLinks] is HaltAndVoidRequestsLinksInterface: what the requests ask of the thread, as a class over the thread's
    state.  Log lines and the words of an answer are left out. *)

From S2P Require Import Prelude.
From S2P Require Import VoidedCommands.
From S2P Require Import VenueState.
Import TradingHaltState VenueStateFromTheWal.
#[local] Open Scope Z_scope.

(** ** The messages *)

Inductive TradingPhase := StartOfDay | PreOpen | OpenPhase | ClosedPhase | EndOfDay.

Record TechnicalEvent := mk_technical_event {
  phase : TradingPhase;
  te_halted : bool;
  trading_day_of : Z;
  te_reason : TechnicalEventReason
}.

Inductive CancelBookReason := CancelRecoveryTooLong.

Record CancelBook := mk_cancel_book {
  cancel_reason : CancelBookReason;
  orders_placed_through : Z
}.

Inductive VoidDeclinedReason := NotAMembersCommand | AnsweredAlready | AnotherEngineLeads | NotInWal.

Inductive OperatorHaltOutcome :=
  | Halted
  | Lifted
  | AlreadyHalted
  | OutcomeNotHalted
  | NotLeader
  | OutcomeNoEngineLeads
  | OutcomeReportsOutstanding.

(** ** What a record of the log holds *)

Inductive CommandInRecord := MembersCommand | OtherRecord | NotDecodableRecord.

#[export] Instance CommandInRecord_eq_dec : EqDecision CommandInRecord.
Proof. solve_decision. Defined.

(** [None] is an envelope that did not decode. *)
Definition command_in_record (entry_is_an_envelope : bool) (envelope : option WalRecord) : CommandInRecord :=
  if negb entry_is_an_envelope then OtherRecord
  else match envelope with
       | None => NotDecodableRecord
       | Some r => match pdu_type r with
                   | NewOrderSingle | OrderCancelRequest => MembersCommand
                   | _ => OtherRecord
                   end
       end.

(** ** What the thread supplies *)

(** [command_in_wal_at] is [None] when the log holds no such record. *)
Class HaltLinks (S : Type) := {
  leading : S → bool;
  orders_routed_to : Z → S → bool;
  an_engine_takes_orders : S → bool;
  another_engine_leads : Z → S → bool;
  trading_halt : S → TradingHaltState.t;
  highest_command_answered : S → Z;
  released_through : S → outcome Z;
  last_seq_no : S → Z;
  next_seq_no : S → Z;
  trading_day : Z → comp S Z;
  voided_already : Z → S → bool;
  command_in_wal_at : Z → S → option CommandInRecord;
  write_technical_event : TechnicalEvent → comp S bool;
  write_void_commands : VoidCommandsView → comp S bool;
  write_cancel_book : CancelBook → comp S bool;
  send_voids : Z → comp S unit;
  decline_void : Z → Z → VoidDeclinedReason → comp S unit;
  answer_operator : Z → OperatorHaltOutcome → Z → comp S unit
}.

Module HaltAndVoidRequests.

Inductive Trading := halts | lifts.

#[export] Instance Trading_eq_dec : EqDecision Trading.
Proof. solve_decision. Defined.

Section requests.
Context {S : Type} `{HaltLinks S}.

Definition technical_event (trading : Trading) (reason : TechnicalEventReason) (now_ns : Z) : comp S TechnicalEvent :=
  day ← trading_day now_ns;
  mret (mk_technical_event OpenPhase (bool_decide (trading = halts)) day reason).

Definition operator_request (connection : Z) (halt : bool) (now_ns : Z) : comp S unit :=
  s ← gets (λ s, s);
  if negb (leading s) then answer_operator connection NotLeader 0
  else if halt then
    if TradingHaltState.halted (trading_halt s) then answer_operator connection AlreadyHalted 0
    else
      event ← technical_event halts DeclaredByOperator now_ns;
      seq_no ← gets next_seq_no;
      written ← write_technical_event event;
      if (written : bool) then answer_operator connection Halted seq_no
      else answer_operator connection OutcomeNotHalted 0
  else
    match may_lift (trading_halt s) (an_engine_takes_orders s) (highest_command_answered s) with
    | NotHalted => answer_operator connection OutcomeNotHalted 0
    | NoEngineLeads => answer_operator connection OutcomeNoEngineLeads 0
    | ReportsOutstanding => answer_operator connection OutcomeReportsOutstanding 0
    | Allowed =>
        event ← technical_event lifts LiftedByOperator now_ns;
        seq_no ← gets next_seq_no;
        written ← write_technical_event event;
        if (written : bool) then answer_operator connection Lifted seq_no
        else answer_operator connection OutcomeReportsOutstanding 0
    end.

Definition engine_halt_request (connection : Z) (reason : TechnicalEventReason) (now_ns : Z) : comp S unit :=
  s ← gets (λ s, s);
  if negb (leading s) || negb (orders_routed_to connection s) then mret ()
  else
    event ← technical_event halts reason now_ns;
    write_technical_event event ;;
    mret ().

Definition void_request (connection instance_id seq_no : Z) : comp S unit :=
  s ← gets (λ s, s);
  if negb (leading s) then mret ()
  else if voided_already seq_no s then send_voids connection
  else if another_engine_leads instance_id s then decline_void connection seq_no AnotherEngineLeads
  else if seq_no <=? highest_command_answered s then decline_void connection seq_no AnsweredAlready
  else
    match command_in_wal_at seq_no s with
    | None => decline_void connection seq_no NotInWal
    | Some command =>
        if negb (bool_decide (command = MembersCommand)) then decline_void connection seq_no NotAMembersCommand
        else
          write_void_commands (mk_void_view seq_no seq_no false EngineDiedApplying) ;;
          mret ()
    end.

Definition void_held_orders_at_the_halt : comp S unit :=
  released ← ask released_through;
  s ← gets (λ s, s);
  let first := Z.max released (highest_command_answered s) + 1 in
  let last := last_seq_no s in
  if last <? first then mret ()
  else
    write_void_commands (mk_void_view first last true HeldWhenTradingHalted) ;;
    mret ().

(** [std::numeric_limits<int64_t>::max()]. *)
Definition every_order : Z := 2 ^ 63 - 1.

Definition recovery_halt (now_ns : Z) : comp S unit :=
  void_held_orders_at_the_halt ;;
  write_cancel_book (mk_cancel_book CancelRecoveryTooLong every_order) ;;
  event ← technical_event halts RecoveryTooLong now_ns;
  write_technical_event event ;;
  mret ().

End requests.
End HaltAndVoidRequests.
