(* ===== verification/SequencerLeader.v ===== *)
(** A sequencer while it leads: how sequencer/SequencerThread.cpp writes commands and reports to its log, releases the
    orders, keeps what the log says and carries out the requests to halt and void.

    The parts are OrderRelease.v, VenueState.v and HaltAndVoidRequests.v.  The replicated log is the list of its
    records and how far they are committed; [world] is what the log, the routing to the engines and the clock answer
    during one event.  Delivering reports, serving publishers and the gateways, metrics and log lines are left out. *)

From S2P Require Import Prelude.
From S2P Require Import WalEntry.
From S2P Require Import OrderRelease.
From S2P Require Import VoidedCommands.
From S2P Require Import VenueState.
From S2P Require Import HaltAndVoidRequests.
Import TradingHaltState VenueStateFromTheWal.
#[local] Open Scope Z_scope.

Record envelope := mk_envelope { env_seq_no : Z; env_record : WalRecord }.

#[export, program] Instance envelope_is_numbered : Envelope envelope := {
  envelope_seq_no := env_seq_no;
  without_payload e := mk_envelope (env_seq_no e)
    (mk_record (pdu_type (env_record e)) [] (answers_seq_no (env_record e)) (trading_date_in (env_record e)))
}.
Next Obligation. done. Qed.

Module SequencerLeader.

(** [peer_acked_through] is what the follower has acknowledged; [may_commit_without_follower] whether the follower may
    not lead, or there is none. *)
Record world := mk_world {
  peer_acked_through : Z;
  waits_for_follower : bool;
  may_commit_without_follower : bool;
  waits_for_confirmation : bool;
  engine_takes_orders : bool;
  active_engine : option Z;
  standby_engine : option Z;
  another_leads : Z → bool;
  first_record_wall_time_ns : option Z;
  wall_time_ns : Z
}.

Inductive said :=
  | SaidVoids (engine : Z) (voids : list VoidedRange)
  | SaidDeclined (connection seq_no : Z) (reason : VoidDeclinedReason)
  | SaidToOperator (connection : Z) (outcome : OperatorHaltOutcome) (halted : bool) (seq_no : Z).

Record t := mk {
  world_ : world;
  orders_ : OrderRelease.t envelope;
  venue_state_ : VenueStateFromTheWal.t;
  wal_ : list (Z * WalRecord);
  committed_ : Z;
  said_ : list said
}.

Definition with_world s x := mk x (orders_ s) (venue_state_ s) (wal_ s) (committed_ s) (said_ s).
Definition with_orders s x := mk (world_ s) x (venue_state_ s) (wal_ s) (committed_ s) (said_ s).
Definition with_venue s x := mk (world_ s) (orders_ s) x (wal_ s) (committed_ s) (said_ s).
Definition with_wal s x := mk (world_ s) (orders_ s) (venue_state_ s) x (committed_ s) (said_ s).
Definition with_committed s x := mk (world_ s) (orders_ s) (venue_state_ s) (wal_ s) x (said_ s).
Definition with_said s x := mk (world_ s) (orders_ s) (venue_state_ s) (wal_ s) (committed_ s) x.

Definition this : comp t t := gets (λ s, s).
Definition say (x : said) : comp t unit := modify (λ s, with_said s (said_ s ++ [x])).

Definition on_orders {A} (m : comp (OrderRelease.t envelope) A) : comp t A := λ s,
  let r := m (orders_ s) in (with_orders s r.1, r.2).
Definition on_venue {A} (m : comp VenueStateFromTheWal.t A) : comp t A := λ s,
  let r := m (venue_state_ s) in (with_venue s r.1, r.2).

Definition wal_last (s : t) : Z := default 0 (fst <$> last (wal_ s)).
Definition wal_next (s : t) : Z := wal_last s + 1.

(** OrderLinks. *)
Definition links_of (s : t) : OrderRelease.links :=
  OrderRelease.mk_links (committed_ s) (wal_last s) (waits_for_confirmation (world_ s)) (waits_for_follower (world_ s))
    true (engine_takes_orders (world_ s)) (active_engine (world_ s)).

Section thread.
Variable decode_void : list Z → option VoidCommandsView.
Variable decode_technical_event : list Z → option TechnicalEventView.
Variable encode_void : VoidCommandsView → option (list Z).
Variable encode_technical_event : TechnicalEvent → option (list Z).
Variable encode_cancel_book : CancelBook → option (list Z).

(** *** The log's events *)

Definition send_voided_commands (engine : option Z) : comp t unit :=
  s ← this;
  match engine with
  | None => mret ()
  | Some engine =>
      let committed_voids := List.filter (λ v, void_seq_no v <=? committed_ s) (voids_ (venue_state_ s)) in
      match committed_voids with
      | [] => mret ()
      | _ => say (SaidVoids engine committed_voids)
      end
  end.

Definition send_voids_committed_through (seq_no : Z) : comp t unit :=
  due ← on_venue (take_voids_due seq_no);
  if negb due then mret ()
  else
    s ← this;
    send_voided_commands (active_engine (world_ s)) ;;
    (if bool_decide (standby_engine (world_ s) = active_engine (world_ s)) then mret ()
     else send_voided_commands (standby_engine (world_ s))).

(** SequencerReplicatedWalEvents::committed_through. *)
Definition committed_through (seq_no : Z) : comp t unit :=
  send_voids_committed_through seq_no ;;
  s ← this;
  on_orders (OrderRelease.release_to_leading_engine (links_of s) seq_no) ;;
  s ← this;
  on_orders (
    r ← ask (OrderRelease.released_through (links_of s));
    OrderRelease.tell [OrderRelease.SendReleasedToFollowerEngines r]).

(** ReplicatedWal::advance_commit. *)
Definition advance_commit : comp t unit :=
  s ← this;
  let w := world_ s in
  let through :=
    if waits_for_follower w then Z.max (committed_ s) (peer_acked_through w)
    else if may_commit_without_follower w then Z.max (committed_ s) (wal_last s)
    else Z.max (committed_ s) (peer_acked_through w) in
  if committed_ s <? through then
    modify (λ s, with_committed s through) ;;
    committed_through through
  else mret ().

(** *** Writing *)

(** The envelope is encoded into a buffer of the size that [encode] has just measured; the path on which that fails,
    which logs that the record is not persisted, is left out. *)
Definition append_envelope_to_wal (e : envelope) : comp t unit :=
  s ← this;
  let written_as := wal_next s in
  modify (λ s, with_wal s (wal_ s ++ [(written_as, env_record e)])) ;;
  advance_commit ;;
  on_venue (note_record decode_void decode_technical_event written_as (env_record e) written_by_this_leader) ;;
  mret ().

Definition trading_date_for (wall_time_ns : Z) : comp t Z :=
  s ← this;
  if trading_date_known (venue_state_ s) then on_venue (trading_date None wall_time_ns)
  else on_venue (trading_date (first_record_wall_time_ns (world_ s)) wall_time_ns).

Definition release_held_orders_through (seq_no : Z) : comp t unit :=
  s ← this;
  on_orders (OrderRelease.release_held_orders_through (links_of s) seq_no).

(** The follower is left behind when the storage is full of what it has not acknowledged:
    ReplicatedWal::follower_too_far_behind. *)
Definition if_the_follower_is_too_far_behind : comp t unit :=
  s ← this;
  waits ← ask (λ s, OrderRelease.held_orders_wait_on_the_follower (links_of s) (orders_ s));
  if (waits : bool) && waits_for_follower (world_ s) then
    modify (λ s, with_world s (mk_world (peer_acked_through (world_ s)) false (may_commit_without_follower (world_ s))
      (waits_for_confirmation (world_ s)) (engine_takes_orders (world_ s)) (active_engine (world_ s))
      (standby_engine (world_ s)) (another_leads (world_ s)) (first_record_wall_time_ns (world_ s))
      (wall_time_ns (world_ s)))) ;;
    advance_commit
  else mret ().

(** A member's new order or cancel, found not to be in the log. *)
Definition sequence_command (type : PduType) (bytes : list Z) (slab_id : Z) : comp t unit :=
  s ← this;
  let seq := wal_next s in
  date ← trading_date_for (wall_time_ns (world_ s));
  let e := mk_envelope seq (mk_record type bytes None (Some date)) in
  append_envelope_to_wal e ;;
  if_the_follower_is_too_far_behind ;;
  on_orders (OrderRelease.hold e slab_id) ;;
  s ← this;
  release_held_orders_through (committed_ s).

Definition write_own_command (type : PduType) (bytes : list Z) : comp t unit :=
  if OrderRelease.own_payload_capacity <? size bytes then throw PreconditionAssertion
  else
    s ← this;
    let seq := wal_next s in
    date ← trading_date_for (wall_time_ns (world_ s));
    let e := mk_envelope seq (mk_record type bytes None (Some date)) in
    append_envelope_to_wal e ;;
    if_the_follower_is_too_far_behind ;;
    on_orders (OrderRelease.hold_own_command e bytes) ;;
    s ← this;
    release_held_orders_through (committed_ s).

Definition write_own_encoded_command (type : PduType) (encoded : option (list Z)) : comp t bool :=
  match encoded with
  | None => mret false
  | Some bytes => write_own_command type bytes ;; mret true
  end.

(** The record of an engine's report, from forward_report_from_engine; zero answers no command. *)
Definition write_report (bytes : list Z) (er_seq_no : Z) : comp t unit :=
  s ← this;
  append_envelope_to_wal (mk_envelope (wal_next s)
    (mk_record ExecutionReport bytes (if 0 <? er_seq_no then Some er_seq_no else None) None)).

(** *** HaltLinks *)

(** The message type of a CancelBook (leader_follower.dsl). *)
Definition CancelBookType : PduType := OtherType 139.

Fixpoint record_at (l : list (Z * WalRecord)) (seq_no : Z) : option WalRecord :=
  match l with
  | [] => None
  | (p, r) :: l => if p =? seq_no then Some r else record_at l seq_no
  end.

#[global] Instance thread_links : HaltLinks t := {
  leading s := true;
  orders_routed_to connection s := bool_decide (active_engine (world_ s) = Some connection);
  an_engine_takes_orders s := engine_takes_orders (world_ s);
  another_engine_leads instance_id s := another_leads (world_ s) instance_id;
  trading_halt s := trading_halt_ (venue_state_ s);
  highest_command_answered s := highest_command_answered_ (venue_state_ s);
  released_through s := OrderRelease.released_through (links_of s) (orders_ s);
  last_seq_no := wal_last;
  next_seq_no := wal_next;
  trading_day := trading_date_for;
  voided_already seq_no s :=
    match VoidedCommandList.voiding (voids_ (venue_state_ s)) seq_no VoidedCancel with Some _ => true | None => false end;
  command_in_wal_at seq_no s := command_in_record true ∘ Some <$> record_at (wal_ s) seq_no;
  write_technical_event e := write_own_encoded_command TechnicalEventType (encode_technical_event e);
  write_void_commands c := write_own_encoded_command VoidCommandsType (encode_void c);
  write_cancel_book c := write_own_encoded_command CancelBookType (encode_cancel_book c);
  send_voids connection := send_voided_commands (Some connection);
  decline_void connection seq_no reason := say (SaidDeclined connection seq_no reason);
  answer_operator connection outcome seq_no :=
    s ← this;
    say (SaidToOperator connection outcome (TradingHaltState.halted (trading_halt_ (venue_state_ s))) seq_no)
}.

End thread.
End SequencerLeader.
