(* ===== verification/SequencerLeaderTheorems.v ===== *)
(** A sequencer while it leads: no engine is sent an order before the engine that leads is, and a halt voids exactly the
    orders that no engine was sent. *)

From stdpp Require Import sorting.
From S2P Require Import Prelude.
From S2P Require Import WalEntry.
From S2P Require Import OrderRelease.
From S2P Require Import OrderReleaseTheorems.
From S2P Require Import OrderReleaseFollowers.
From S2P Require Import VoidedCommands.
From S2P Require Import VenueState.
From S2P Require Import VenueStateTheorems.
From S2P Require Import HaltAndVoidRequests.
From S2P Require Import SequencerLeader.
Import TradingHaltState VenueStateFromTheWal SequencerLeader.
#[local] Open Scope Z_scope.

Section theorems.
Variable decode_void : list Z → option VoidCommandsView.
Variable decode_technical_event : list Z → option TechnicalEventView.
Variable encode_void : VoidCommandsView → option (list Z).
Variable encode_technical_event : TechnicalEvent → option (list Z).
Variable encode_cancel_book : CancelBook → option (list Z).

Implicit Types (s : SequencerLeader.t).
#[local] Arguments wal_last : simpl never.

#[local] Instance links_here : HaltLinks SequencerLeader.t :=
  thread_links decode_void decode_technical_event encode_void encode_technical_event encode_cancel_book.

(** ** Events *)

Inductive event :=
  | Command (type : PduType) (bytes : list Z) (slab_id : Z)
  | Report (bytes : list Z) (er_seq_no : Z)
  | Commit (through : Z)
  | OperatorRequest (connection : Z) (halt : bool)
  | EngineHaltRequest (connection : Z) (reason : TechnicalEventReason)
  | VoidRequest (connection instance_id seq_no : Z)
  | RecoveryHalt
  | OrderAction (a : action (E := envelope)).

Definition do_event (w : world) (e : event) : comp SequencerLeader.t unit :=
  modify (λ s, with_world s w) ;;
  match e with
  | Command type bytes slab_id => sequence_command decode_void decode_technical_event type bytes slab_id
  | Report bytes er_seq_no => write_report decode_void decode_technical_event bytes er_seq_no
  | Commit through =>
      s ← this;
      if committed_ s <? through
      then modify (λ s, with_committed s through) ;; SequencerLeader.committed_through through
      else mret ()
  | OperatorRequest connection halt => HaltAndVoidRequests.operator_request connection halt (wall_time_ns w)
  | EngineHaltRequest connection reason => HaltAndVoidRequests.engine_halt_request connection reason (wall_time_ns w)
  | VoidRequest connection instance_id seq_no => HaltAndVoidRequests.void_request connection instance_id seq_no
  | RecoveryHalt => HaltAndVoidRequests.recovery_halt (wall_time_ns w)
  | OrderAction a => s ← this; on_orders (apply (links_of s) a)
  end.

Fixpoint do_events (es : list (world * event)) : comp SequencerLeader.t unit :=
  match es with [] => mret () | (w, e) :: es => do_event w e ;; do_events es end.

(** A record is committed by its follower's acknowledgement, or by a voter's confirmation, after it has been written;
    never while it is being written. *)
Definition commits_later s (w : world) : Prop :=
  may_commit_without_follower w = false ∧ peer_acked_through w ≤ committed_ s.

Definition event_fits s (w : world) (e : event) : Prop :=
  commits_later s w ∧
  match e with
  | Command type _ _ => type = NewOrderSingle ∨ type = OrderCancelRequest
  | Commit through => through ≤ wal_last s
  | OrderAction a => gives_none a = true
  | _ => True
  end.

Fixpoint events_fit (es : list (world * event)) s : Prop :=
  match es with
  | [] => True
  | (w, e) :: es => event_fits s w e ∧ events_fit es (do_event w e s).1
  end.

(** The commands in the log after the position [since]. *)
Definition is_report (r : WalRecord) : bool := match pdu_type r with ExecutionReport => true | _ => false end.
Definition commands_since (since : Z) (L : list (Z * WalRecord)) : list Z :=
  omap (λ pr : Z * WalRecord, if (since <? pr.1) && negb (is_report pr.2) then Some pr.1 else None) L.

(** An instance that has just taken the lead holds no orders, and takes every record of its log to be committed. *)
Record takes_the_lead s : Prop := mk_takes_the_lead {
  tl_orders : ∃ capacity, 0 < capacity ∧ OrderRelease.make capacity = Returns (orders_ s);
  tl_venue : ∃ cut, venue_shows decode_void decode_technical_event cut (wal_last s) (wal_ s) (venue_state_ s);
  tl_committed : committed_ s = wal_last s
}.

(** ** The invariant *)

Record ok (since : Z) s (W given : list Z) l (sent : list Z) : Prop := mk_ok {
  ok_orders : sound W given (wal_last s) (committed_ s) (orders_ s) l sent;
  ok_venue : ∃ cut, venue_shows decode_void decode_technical_event cut (wal_last s) (wal_ s) (venue_state_ s);
  ok_since : since ≤ wal_last s;
  ok_written : W = commands_since since (wal_ s)
}.

Abbreviation oks since s := (∃ W given l sent, ok since s W given l sent).

Lemma last_snoc s p r L : wal_ s = L ++ [(p, r)] → wal_last s = p.
Proof. intros H. unfold wal_last. by rewrite H, last_snoc. Qed.

Lemma commands_since_snoc since L p r :
  commands_since since (L ++ [(p, r)]) =
  commands_since since L ++ (if (since <? p) && negb (is_report r) then [p] else []).
Proof. unfold commands_since. rewrite omap_app. cbn. by destruct ((since <? p) && negb (is_report r)). Qed.

Lemma venue_shows_ext cut top L v v' :
  venue_shows decode_void decode_technical_event cut top L v →
  trading_halt_ v' = trading_halt_ v → voids_ v' = voids_ v → highest_command_answered_ v' = highest_command_answered_ v →
  venue_shows decode_void decode_technical_event cut top L v'.
Proof. intros [] H1 H2 H3. constructor; rewrite ?H1, ?H2, ?H3; done. Qed.

(** A record this leader writes does not change its trading date. *)
Definition keeps_date {A} (m : comp VenueStateFromTheWal.t A) : Prop := ∀ v, trading_date_ (m v).1 = trading_date_ v.

Lemma keeps_date_bind {A B} (m : comp VenueStateFromTheWal.t A) (f : A → comp VenueStateFromTheWal.t B) :
  keeps_date m → (∀ a, keeps_date (f a)) → keeps_date (m ≫= f).
Proof.
  intros Hm Hf v. unfold mbind, comp_bind. specialize (Hm v). destruct (m v) as [v' [a|e]]; cbn in *; [|done].
  by rewrite Hf.
Qed.

Lemma note_record_keeps_date p r :
  keeps_date (note_record decode_void decode_technical_event p r written_by_this_leader).
Proof.
  unfold note_record. apply keeps_date_bind; [by intros v|intros _].
  apply keeps_date_bind; [intros v; cbn; by destruct (pdu_type r), (answers_seq_no r)|intros _].
  apply keeps_date_bind; [intros v; unfold note_void; by destruct (void_from_command decode_void p r)|intros added].
  apply keeps_date_bind; [by intros v; destruct added|intros _].
  apply keeps_date_bind; [|by intros b v]. intros v. unfold note_trading_halt, on_halt.
  destruct (pdu_type r); try done; try (unfold mbind, comp_bind; by destruct (note_members_command p (trading_halt_ v)) as [? []]).
  by destruct (decode_technical_event (payload r)).
Qed.

(** *** The parts of a write *)

Lemma advance_waits s :
  commits_later s (world_ s) → returns advance_commit s (λ s' _, s' = s).
Proof.
  intros [Hm Ha]. apply returns_bind. eapply returns_eq; [done|]. cbn zeta. rewrite Hm.
  destruct (waits_for_follower (world_ s)); (destruct (Z.ltb_spec (committed_ s)
    (Z.max (committed_ s) (peer_acked_through (world_ s)))); [lia|by eapply returns_eq]).
Qed.

(** What a write leaves as it was. *)
Definition same_but_log s s' : Prop :=
  world_ s' = world_ s ∧ orders_ s' = orders_ s ∧ committed_ s' = committed_ s ∧ said_ s' = said_ s.

Lemma append_shows cut s e :
  commits_later s (world_ s) →
  venue_shows decode_void decode_technical_event cut (wal_last s) (wal_ s) (venue_state_ s) →
  returns (append_envelope_to_wal decode_void decode_technical_event e) s (λ s' _,
    same_but_log s s' ∧ wal_ s' = wal_ s ++ [(wal_next s, env_record e)] ∧ wal_last s' = wal_next s ∧
    venue_shows decode_void decode_technical_event cut (wal_last s') (wal_ s') (venue_state_ s') ∧
    trading_date_ (venue_state_ s') = trading_date_ (venue_state_ s)).
Proof.
  intros Hw Hv. apply returns_bind. eapply returns_eq; [done|]. apply returns_bind. eapply returns_eq; [done|].
  apply returns_bind. eapply returns_mono; [by apply advance_waits|]. cbn. intros s1 _ ->.
  apply returns_bind.
  pose proof (hold_shows _ _ _ _ _ _ (wal_next s) (env_record e) written_by_this_leader Hv) as Hn.
  specialize (Hn ltac:(unfold wal_next; lia)). apply returns_inv in Hn as (v' & noted & Hn & Hv').
  unfold on_venue. eapply returns_eq; [cbn; by rewrite Hn|]. eapply returns_eq; [done|].
  match goal with |- same_but_log _ ?x ∧ _ => set (s' := x) end.
  assert (Hl : wal_last s' = wal_next s) by (by eapply last_snoc). rewrite Hl. split_and!; try done.
  pose proof (note_record_keeps_date (wal_next s) (env_record e) (venue_state_ s)) as Hd. by rewrite Hn in Hd.
Qed.

Lemma date_shows cut s now :
  venue_shows decode_void decode_technical_event cut (wal_last s) (wal_ s) (venue_state_ s) →
  returns (trading_date_for now) s (λ s' d, same_but_log s s' ∧ wal_ s' = wal_ s ∧
    venue_shows decode_void decode_technical_event cut (wal_last s) (wal_ s) (venue_state_ s') ∧
    (trading_date_ (venue_state_ s) ≠ 0 → s' = s ∧ d = trading_date_ (venue_state_ s))).
Proof.
  intros Hv. apply returns_bind. eapply returns_eq; [done|].
  unfold trading_date_known, on_venue, trading_date.
  destruct (Z.eqb_spec (trading_date_ (venue_state_ s)) 0) as [Hz|Hnz]; cbn.
  - eapply returns_eq; [by rewrite Hz|]. split_and!; try done. by eapply venue_shows_ext.
  - eapply returns_eq; [by rewrite (proj2 (Z.eqb_neq _ _) Hnz)|]. split_and!; try done. by destruct s.
Qed.

Lemma wait_on_follower_returns k W given last committed o l sent :
  keeps W given last committed o l sent →
  ∃ b, OrderRelease.held_orders_wait_on_the_follower (E := envelope) k o = Returns b.
Proof.
  intros Hk. unfold OrderRelease.held_orders_wait_on_the_follower. case_if; [eauto|].
  rewrite (none_held_keeps _ _ _ _ _ _ _ Hk). destruct l as [|x l]; cbn; [eauto|].
  unfold OrderRelease.oldest. rewrite (RingBuffer.RingBuffer.front_holds _ _ _ (ke_held _ _ _ _ _ _ _ Hk)). cbn. eauto.
Qed.

Lemma far_behind_waits s W given last committed l sent :
  keeps W given last committed (orders_ s) l sent → commits_later s (world_ s) →
  returns if_the_follower_is_too_far_behind s (λ s' _, ∃ w, s' = with_world s w ∧ commits_later s w).
Proof.
  intros Hk Hw. destruct (wait_on_follower_returns (links_of s) _ _ _ _ _ _ _ Hk) as [b Hb].
  apply returns_bind. eapply returns_eq; [done|]. apply returns_bind. unfold ask.
  eapply returns_eq; [by rewrite Hb|]. case_if.
  - apply returns_bind. eapply returns_eq; [done|]. eapply returns_mono; [by apply advance_waits|].
    cbn. intros s' _ ->. eexists. split; [done|]. by destruct Hw.
  - eapply returns_eq; [done|]. exists (world_ s). split; [by destruct s|done].
Qed.

Lemma on_orders_returns {A} (m : comp (OrderRelease.t envelope) A) s Q :
  returns m (orders_ s) (λ o a, Q (with_orders s o) a) → returns (on_orders m) s Q.
Proof. unfold returns, on_orders. cbn. by destruct (m (orders_ s)) as [o [a|e]]. Qed.

Lemma ok_with_orders since s W given l sent o :
  ok since s W given l sent → ∀ l' sent', sound W given (wal_last s) (committed_ s) o l' sent' →
  ok since (with_orders s o) W given l' sent'.
Proof. intros [] l' sent' Hs. constructor; done. Qed.

Lemma leader_release_ok since s W given l sent :
  ok since s W given l sent →
  returns (release_held_orders_through (committed_ s)) s (λ s' _, ∃ o l' sent',
    s' = with_orders s o ∧ ok since s' W given l' sent').
Proof.
  intros Hok. apply returns_bind. eapply returns_eq; [done|]. apply on_orders_returns.
  eapply returns_mono; [eapply (release_through_sound (links_of s)), Hok|]. cbn.
  intros o _ (l' & sent' & Hs). exists o, l', sent'. split; [done|]. by eapply ok_with_orders.
Qed.

(** What writing a record does. *)
Record wrote s (r : WalRecord) s' : Prop := mk_wrote {
  wr_wal : wal_ s' = wal_ s ++ [(wal_next s, r)];
  wr_committed : committed_ s' = committed_ s;
  wr_later : commits_later s' (world_ s');
  wr_date : trading_date_ (venue_state_ s') = trading_date_ (venue_state_ s)
}.

(** A command is appended, held and released. *)
Lemma write_tail_ok since s W given given' l sent e (hm : comp (OrderRelease.t envelope) unit) :
  ok since s W given l sent → commits_later s (world_ s) → is_report (env_record e) = false →
  (∀ k o, sound W given (wal_last s) (committed_ s) o l sent →
     OrderRelease.last_seq_no k = wal_next s → OrderRelease.committed_through k = committed_ s →
     returns hm o (λ o' _, ∃ l' sent',
       sound (W ++ [wal_next s]) given' (wal_next s) (committed_ s) o' l' sent')) →
  returns (append_envelope_to_wal decode_void decode_technical_event e ;;
    if_the_follower_is_too_far_behind ;;
    on_orders hm ;;
    s ← this;
    release_held_orders_through (committed_ s)) s (λ s' _,
    wrote s (env_record e) s' ∧ ∃ l' sent', ok since s' (W ++ [wal_next s]) given' l' sent').
Proof.
  intros Hok Hw Hr Hhold. destruct Hok as [Hs (cut & Hv) Hsince HW].
  apply returns_bind. eapply returns_mono; [by apply (append_shows cut)|]. cbn.
  intros s1 _ ((Hw1 & Ho1 & Hc1 & _) & Hwal1 & Hlast1 & Hv1 & Hd1). apply returns_bind.
  eapply returns_mono; [eapply far_behind_waits|].
  { rewrite Ho1. apply Hs. } { unfold commits_later. by rewrite Hw1, Hc1. }
  cbn. intros s2 _ (w & -> & Hw2). apply returns_bind. apply on_orders_returns. cbn. rewrite Ho1.
  eapply returns_mono; [eapply (Hhold (links_of s1)); [exact Hs|done|done]|]. cbn.
  intros o _ (l' & sent' & Hs'). apply returns_bind. eapply returns_eq; [done|].
  assert (Hok' : ok since (with_orders (with_world s1 w) o) (W ++ [wal_next s]) given' l' sent').
  { constructor.
    - change (wal_last (with_orders (with_world s1 w) o)) with (wal_last s1). cbn. by rewrite Hlast1, Hc1.
    - by exists cut.
    - change (since ≤ wal_last s1). rewrite Hlast1. unfold wal_next. lia.
    - change (W ++ [wal_next s] = commands_since since (wal_ s1)). rewrite Hwal1, commands_since_snoc, Hr, <- HW. unfold wal_next.
      destruct (Z.ltb_spec since (wal_last s + 1)); [done|lia]. }
  eapply returns_mono; [exact (leader_release_ok _ _ _ _ _ _ Hok')|]. cbn. intros s3 _ (o' & l3 & sent3 & -> & Hok3).
  split; [|by exists l3, sent3]. constructor; cbn; try done.
Qed.

(** The trading date is learnt first. *)
Lemma date_ok since s W given l sent now (Q : SequencerLeader.t → Z → Prop) :
  ok since s W given l sent → commits_later s (world_ s) →
  (∀ s' d, ok since s' W given l sent → commits_later s' (world_ s') → wal_ s' = wal_ s →
     committed_ s' = committed_ s → voids_ (venue_state_ s') = voids_ (venue_state_ s) →
     (trading_date_ (venue_state_ s) ≠ 0 → s' = s ∧ d = trading_date_ (venue_state_ s)) → Q s' d) →
  returns (trading_date_for now) s Q.
Proof.
  intros [Hs (cut & Hv) Hsince HW] Hw HQ. eapply returns_mono; [by apply (date_shows cut)|]. cbn.
  intros s' d ((Hw' & Ho & Hc & _) & Hwal & Hv' & Hd).
  assert (Hlast : wal_last s' = wal_last s) by (unfold wal_last; by rewrite Hwal).
  apply HQ; try done.
  - constructor; rewrite ?Hwal, ?Hlast, ?Ho, ?Hc; [done|by exists cut|done|done].
  - unfold commits_later. by rewrite Hw', Hc.
  - by rewrite (vs_voids _ _ _ _ _ _ Hv'), (vs_voids _ _ _ _ _ _ Hv).
Qed.

Lemma next_ext s s' : wal_ s' = wal_ s → wal_next s' = wal_next s.
Proof. intros Hw. unfold wal_next, wal_last. by rewrite Hw. Qed.

Lemma sequence_command_ok since s W given l sent type bytes slab_id :
  ok since s W given l sent → commits_later s (world_ s) →
  type = NewOrderSingle ∨ type = OrderCancelRequest →
  returns (sequence_command decode_void decode_technical_event type bytes slab_id) s (λ s' _, oks since s').
Proof.
  intros Hok Hw Htype. apply returns_bind. eapply returns_eq; [done|]. cbn zeta. apply returns_bind.
  eapply date_ok; [exact Hok|done|]. intros s1 d Hok1 Hw1 Hwal1 _ _ _.
  eapply returns_mono; [eapply (write_tail_ok since s1 W given (given ++ [slab_id])); [exact Hok1|done| |]|].
  - cbn. unfold is_report. cbn. by destruct Htype as [-> | ->].
  - intros k o Hs Hl Hc.
    eapply returns_mono; [eapply (hold_sound k); [exact Hs| |]|].
    + pose proof (ke_le _ _ _ _ _ _ _ (so_keeps _ _ _ _ _ _ _ Hs)). rewrite Hl, Hc. unfold wal_next. lia.
    + split; cbn; [rewrite (next_ext _ _ (eq_sym Hwal1)) | rewrite Hl, (next_ext _ _ Hwal1)]; [unfold wal_next; lia|done].
    + cbn. intros o' _ (l' & sent' & Hs'). exists l', sent'. rewrite Hl, Hc in Hs'.
      by rewrite (next_ext _ _ (eq_sym Hwal1)) in Hs'.
  - cbn. intros s' _ [_ (l' & sent' & Hok')]. by do 4 eexists.
Qed.

Lemma write_own_ok since s W given l sent type bytes (Q : SequencerLeader.t → unit → Prop) :
  ok since s W given l sent → commits_later s (world_ s) →
  type ≠ ExecutionReport → size bytes ≤ OrderRelease.own_payload_capacity →
  (∀ s1 s' d l' sent', wal_ s1 = wal_ s → committed_ s1 = committed_ s →
     voids_ (venue_state_ s1) = voids_ (venue_state_ s) →
     (trading_date_ (venue_state_ s) ≠ 0 → s1 = s) →
     wrote s1 (mk_record type bytes None (Some d)) s' →
     ok since s' (W ++ [wal_next s]) given l' sent' → Q s' ()) →
  returns (write_own_command decode_void decode_technical_event type bytes) s Q.
Proof.
  intros Hok Hw Htype Hsize HQ. unfold write_own_command.
  destruct (Z.ltb_spec OrderRelease.own_payload_capacity (size bytes)); [lia|].
  apply returns_bind. eapply returns_eq; [done|]. cbn zeta. apply returns_bind.
  eapply date_ok; [exact Hok|done|]. intros s1 d Hok1 Hw1 Hwal1 Hc1 Hv1 Hd1.
  eapply returns_mono; [eapply (write_tail_ok since s1 W given given); [exact Hok1|done| |]|].
  - cbn. unfold is_report. cbn. by destruct type.
  - intros k o Hs Hl Hc.
    eapply returns_mono; [eapply (hold_own_sound k); [exact Hs| |]|].
    + pose proof (ke_le _ _ _ _ _ _ _ (so_keeps _ _ _ _ _ _ _ Hs)). rewrite Hl, Hc. unfold wal_next. lia.
    + split_and!; cbn; [rewrite (next_ext _ _ (eq_sym Hwal1)) | rewrite Hl, (next_ext _ _ Hwal1)|]; [unfold wal_next; lia|done|done].
    + cbn. intros o' _ (l' & sent' & Hs'). exists l', sent'. rewrite Hl, Hc in Hs'.
      by rewrite (next_ext _ _ (eq_sym Hwal1)) in Hs'.
  - cbn. intros s' [] [Hwrote (l' & sent' & Hok')]. eapply HQ; try done; [by intros; apply Hd1|].
    by rewrite <- (next_ext _ _ Hwal1).
Qed.

Lemma report_ok since s W given l sent bytes er_seq_no :
  ok since s W given l sent → commits_later s (world_ s) →
  returns (write_report decode_void decode_technical_event bytes er_seq_no) s (λ s' _, oks since s').
Proof.
  intros [Hs (cut & Hv) Hsince HW] Hw. apply returns_bind. eapply returns_eq; [done|].
  eapply returns_mono; [by apply (append_shows cut)|]. cbn.
  intros s1 _ ((Hw1 & Ho1 & Hc1 & _) & Hwal1 & Hlast1 & Hv1 & _). exists W, given, l, sent. constructor.
  - rewrite Hlast1, Ho1, Hc1. pose proof (ke_le _ _ _ _ _ _ _ (so_keeps _ _ _ _ _ _ _ Hs)).
    eapply sound_later; [exact Hs|unfold wal_next; lia|unfold wal_next; lia].
  - by exists cut.
  - rewrite Hlast1. unfold wal_next. lia.
  - rewrite Hwal1, commands_since_snoc. cbn. by rewrite andb_false_r, app_nil_r.
Qed.

(** Saying something changes nothing of this. *)
Lemma ok_said since s x W given l sent : ok since s W given l sent → ok since (with_said s x) W given l sent.
Proof. intros []. constructor; done. Qed.

Lemma ok_world since s w W given l sent : ok since s W given l sent → ok since (with_world s w) W given l sent.
Proof. intros []. constructor; done. Qed.

Lemma send_voids_ok since s W given l sent engine :
  ok since s W given l sent →
  returns (send_voided_commands engine) s (λ s' _, ok since s' W given l sent ∧
    wal_last s' = wal_last s ∧ committed_ s' = committed_ s ∧ world_ s' = world_ s).
Proof.
  intros Hok. apply returns_bind. eapply returns_eq; [done|]. destruct engine as [engine|]; [|by eapply returns_eq].
  cbn zeta. destruct (List.filter _ _); [by eapply returns_eq|]. eapply returns_eq; [done|]. split; [by apply ok_said|done].
Qed.

Lemma voids_due_ok since s W given l sent n :
  ok since s W given l sent →
  returns (send_voids_committed_through n) s (λ s' _, ok since s' W given l sent ∧
    wal_last s' = wal_last s ∧ committed_ s' = committed_ s).
Proof.
  intros Hok. apply returns_bind. unfold on_venue, take_voids_due.
  assert (Hv : ∀ v, v = venue_state_ s ∨ v = with_awaiting (venue_state_ s) 0 → ok since (with_venue s v) W given l sent).
  { intros v Hv. destruct Hok as [Hs (cut & Hshow) Hsince HW]. constructor; try done. exists cut.
    destruct Hv as [-> | ->]; [exact Hshow|by eapply venue_shows_ext]. }
  destruct ((void_awaiting_commit_ (venue_state_ s) =? 0) || (n <? void_awaiting_commit_ (venue_state_ s))) eqn:Hdue;
    (eapply returns_eq; [cbn; by rewrite Hdue|]); cbn; [eapply returns_eq; [done|]; split; [apply Hv; by left|done]|].
  apply returns_bind. eapply returns_eq; [done|]. apply returns_bind.
  eapply returns_mono; [apply (send_voids_ok since), Hv; by right|]. cbn. intros s1 _ (Hok1 & Hl1 & Hc1 & _).
  case_if; [eapply returns_eq; [done|]; by rewrite Hl1, Hc1|].
  eapply returns_mono; [by apply (send_voids_ok since)|]. cbn. intros s2 _ (Hok2 & Hl2 & Hc2 & _).
  split; [done|]. by rewrite Hl2, Hc2, Hl1, Hc1.
Qed.

Lemma leader_commit_ok since s W given l sent through :
  ok since s W given l sent → committed_ s < through ≤ wal_last s →
  returns (modify (λ s, with_committed s through) ;; SequencerLeader.committed_through through) s (λ s' _, oks since s').
Proof.
  intros Hok Ht. apply returns_bind. eapply returns_eq; [done|].
  assert (Hok1 : ok since (with_committed s through) W given l sent).
  { destruct Hok. constructor; try done. eapply sound_later; [eassumption|done|].
    split; [cbn; lia|change (through ≤ wal_last s); lia]. }
  apply returns_bind. eapply returns_mono; [by eapply voids_due_ok|]. cbn. intros s2 _ (Hok2 & Hl2 & Hc2).
  apply returns_bind. eapply returns_eq; [done|]. apply returns_bind. apply on_orders_returns. rewrite <- Hc2.
  eapply returns_mono; [eapply (release_sound (links_of s2)), Hok2|]. cbn. intros o _ (l' & sent' & Hs').
  apply returns_bind. eapply returns_eq; [done|]. apply on_orders_returns.
  eapply (tell_followers_sound (links_of s2)); [exact Hs'|]. intros o' Hs''. exists W, given, l', sent'.
  exact (ok_with_orders _ _ _ _ _ _ o' Hok2 l' sent' Hs'').
Qed.

Lemma action_ok since s W given l sent a :
  ok since s W given l sent → gives_none a = true →
  returns (s ← this; on_orders (apply (links_of s) a)) s (λ s' _, oks since s').
Proof.
  intros Hok Ha. apply returns_bind. eapply returns_eq; [done|]. apply on_orders_returns.
  eapply returns_mono; [eapply (action_sound (links_of s)); [apply Hok|done]|]. cbn. intros o _ (l' & sent' & Hs').
  exists W, given, l', sent'. by eapply ok_with_orders.
Qed.

(** ** The requests *)

Definition int32 (z : Z) : Prop := - 2 ^ 31 ≤ z < 2 ^ 31.
Definition int64 (z : Z) : Prop := - 2 ^ 63 ≤ z < 2 ^ 63.

(** The generated codec: a command of the sequencer's own takes at most as many bytes as a held command can carry, and
    decodes to what was encoded. *)
Record own_codec : Prop := mk_own_codec {
  void_small c bytes : encode_void c = Some bytes → size bytes ≤ OrderRelease.own_payload_capacity;
  event_small e bytes : encode_technical_event e = Some bytes → size bytes ≤ OrderRelease.own_payload_capacity;
  cancel_small c bytes : encode_cancel_book c = Some bytes → size bytes ≤ OrderRelease.own_payload_capacity;
  void_back c : int64 (view_first_seq_no c) → int64 (view_last_seq_no c) →
    ∃ bytes, encode_void c = Some bytes ∧ decode_void bytes = Some c;
  event_back e : int32 (trading_day_of e) →
    ∃ bytes, encode_technical_event e = Some bytes ∧
      decode_technical_event bytes = Some (mk_event_view (te_halted e) (te_reason e))
}.

Context (codec : own_codec).

(** A write leaves the thread able to write again. *)
Abbreviation good since s := (oks since s ∧ commits_later s (world_ s)).

Lemma write_encoded_ok since s type encoded :
  good since s → type ≠ ExecutionReport →
  (∀ bytes, encoded = Some bytes → size bytes ≤ OrderRelease.own_payload_capacity) →
  returns (write_own_encoded_command decode_void decode_technical_event type encoded) s (λ s' _, good since s').
Proof.
  intros [(W & given & l & sent & Hok) Hw] Htype Hsmall. destruct encoded as [bytes|]; [|eapply returns_eq; eauto 10].
  apply returns_bind. eapply write_own_ok; [exact Hok|done|done|by apply Hsmall|].
  intros s1 s' d l' sent' _ _ _ _ Hwrote Hok'. eapply returns_eq; [done|]. split; [by do 4 eexists|by apply Hwrote].
Qed.

Lemma event_ok {A} since s trading reason now (f : TechnicalEvent → comp SequencerLeader.t A) Q :
  good since s → (∀ s' e, good since s' → returns (f e) s' Q) →
  returns (event ← HaltAndVoidRequests.technical_event trading reason now; f event) s Q.
Proof.
  intros [(W & given & l & sent & Hok) Hw] Hf. apply returns_bind. apply returns_bind. cbn.
  eapply date_ok; [exact Hok|done|]. intros s' d Hok' Hw' _ _ _ _. eapply returns_eq; [done|].
  apply Hf. split; [by do 4 eexists|done].
Qed.

Lemma leader_answer_ok since s connection outcome seq_no :
  oks since s → returns (answer_operator connection outcome seq_no) s (λ s' _, oks since s').
Proof.
  intros (W & given & l & sent & Hok). apply returns_bind. eapply returns_eq; [done|]. eapply returns_eq; [done|].
  exists W, given, l, sent. by apply ok_said.
Qed.

Lemma write_event_ok {A} since s e (f : bool → comp SequencerLeader.t A) Q :
  good since s → (∀ s' b, good since s' → returns (f b) s' Q) →
  returns (written ← write_technical_event e; f written) s Q.
Proof.
  intros Hg Hf. apply returns_bind.
  eapply returns_mono; [eapply (write_encoded_ok since); [exact Hg|done|by apply (event_small codec)]|].
  intros s' b Hg'. by apply Hf.
Qed.

Lemma operator_ok since s connection halt now :
  good since s → returns (HaltAndVoidRequests.operator_request connection halt now) s (λ s' _, oks since s').
Proof.
  intros Hg. apply returns_bind. eapply returns_eq; [done|]. cbn [negb leading links_here thread_links].
  assert (Hwrite : ∀ trading reason yes no, returns (event ← HaltAndVoidRequests.technical_event trading reason now;
    seq_no ← gets next_seq_no; written ← write_technical_event event;
    if (written : bool) then answer_operator connection yes seq_no else answer_operator connection no 0)
    s (λ s' _, oks since s')).
  { intros trading reason yes no. eapply event_ok; [exact Hg|]. intros s1 e Hg1. apply returns_bind.
    eapply returns_eq; [done|]. eapply write_event_ok; [exact Hg1|]. intros s2 [] [Hok2 _]; by apply leader_answer_ok. }
  destruct Hg as [Hok _]. destruct halt; [case_if; [by apply leader_answer_ok|apply Hwrite]|].
  destruct (may_lift _ _ _); [apply Hwrite|by apply leader_answer_ok..].
Qed.

Lemma engine_halt_ok since s connection reason now :
  good since s → returns (HaltAndVoidRequests.engine_halt_request connection reason now) s (λ s' _, oks since s').
Proof.
  intros Hg. apply returns_bind. eapply returns_eq; [done|]. case_if; [eapply returns_eq; [done|]; apply Hg|].
  eapply event_ok; [exact Hg|]. intros s1 e Hg1. eapply write_event_ok; [exact Hg1|]. intros s2 _ [Hok2 _].
  by eapply returns_eq.
Qed.

Lemma void_request_ok since s connection instance_id seq_no :
  good since s → returns (HaltAndVoidRequests.void_request connection instance_id seq_no) s (λ s' _, oks since s').
Proof.
  intros Hg. apply returns_bind. eapply returns_eq; [done|]. cbn [negb leading links_here thread_links].
  assert (Hsay : ∀ x, returns (say x) s (λ s' _, oks since s')).
  { intros x. destruct Hg as [(W & given & l & sent & Hok) _]. eapply returns_eq; [done|].
    exists W, given, l, sent. by apply ok_said. }
  case_if.
  { destruct Hg as [(W & given & l & sent & Hok) _]. eapply returns_mono; [by eapply send_voids_ok|]. cbn.
    intros s' _ [Hok' _]. by do 4 eexists. }
  case_if; [apply Hsay|]. case_if; [apply Hsay|].
  destruct (command_in_wal_at seq_no s) as [command|]; [|apply Hsay]. case_if; [apply Hsay|].
  apply returns_bind. eapply returns_mono; [eapply (write_encoded_ok since); [exact Hg|done|by apply (void_small codec)]|].
  intros s' b [Hok' _]. by eapply returns_eq.
Qed.

(** *** The halt when the venue cannot recover by itself *)

Definition dated s : Prop := trading_date_ (venue_state_ s) ≠ 0 ∧ int32 (trading_date_ (venue_state_ s)).

Lemma write_own_dated since s type encoded :
  good since s → dated s → type ≠ ExecutionReport →
  (∀ bytes, encoded = Some bytes → size bytes ≤ OrderRelease.own_payload_capacity) →
  returns (write_own_encoded_command decode_void decode_technical_event type encoded) s (λ s' _,
    good since s' ∧ dated s' ∧
    ∀ bytes, encoded = Some bytes → ∃ d, wal_ s' = wal_ s ++ [(wal_next s, mk_record type bytes None (Some d))]) .
Proof.
  intros [(W & given & l & sent & Hok) Hw] [Hd Hi] Htype Hsmall.
  destruct encoded as [bytes|]; [|eapply returns_eq; [done|]; split_and!; [by do 4 eexists|done|done|done]].
  apply returns_bind. eapply write_own_ok; [exact Hok|done|done|by apply Hsmall|].
  intros s1 s' d l' sent' _ _ _ Hs1 [Hwal _ Hw' Hdate] Hok'. rewrite (Hs1 Hd) in *. eapply returns_eq; [done|].
  split_and!; [by do 4 eexists|done|unfold dated; by rewrite Hdate|].
  intros ? [= ->]. by exists d.
Qed.

Lemma good_voids since s : good since s → voids_ (venue_state_ s) = voids_in decode_void (wal_ s).
Proof. intros [(W & given & l & sent & [_ (cut & []) _ _]) _]. done. Qed.

Lemma voids_in_snoc L p r :
  voids_in decode_void (L ++ [(p, r)]) = voids_in decode_void L ++ option_list (void_in decode_void (p, r)).
Proof. unfold voids_in. rewrite omap_app. cbn. by destruct (void_in decode_void (p, r)). Qed.

(** Writing a command that is not a void leaves the voids as they were. *)
Lemma write_no_void_dated since s type encoded :
  good since s → dated s → type ≠ ExecutionReport → type ≠ VoidCommandsType →
  (∀ bytes, encoded = Some bytes → size bytes ≤ OrderRelease.own_payload_capacity) →
  returns (write_own_encoded_command decode_void decode_technical_event type encoded) s (λ s' _,
    good since s' ∧ dated s' ∧ voids_ (venue_state_ s') = voids_ (venue_state_ s) ∧
    ∀ bytes, encoded = Some bytes → ∃ d, wal_ s' = wal_ s ++ [(wal_next s, mk_record type bytes None (Some d))]).
Proof.
  intros Hg Hd Ht Hv Hsmall. destruct encoded as [bytes|]; [|by eapply returns_eq].
  eapply returns_mono; [by eapply write_own_dated|]. cbn. intros s' _ (Hg' & Hd' & Hwal). split; [exact Hg'|]. split; [done|]. split; [|done].
  destruct (Hwal bytes eq_refl) as [d Hwal']. rewrite (good_voids _ _ Hg'), (good_voids _ _ Hg), Hwal', voids_in_snoc.
  unfold void_in, void_from_command. cbn. by rewrite bool_decide_eq_false_2, app_nil_r.
Qed.

(** The void of the orders that wait. *)
Definition void_at_the_halt s (released : Z) : option VoidedRange :=
  let first := Z.max released (highest_command_answered_ (venue_state_ s)) + 1 in
  if wal_last s <? first then None
  else Some (mk_voided (wal_next s) first (wal_last s) true HeldWhenTradingHalted).

Lemma void_held_dated since s W given l sent released :
  ok since s W given l sent → commits_later s (world_ s) → dated s → wal_last s < 2 ^ 63 →
  - 2 ^ 63 ≤ Z.max released (highest_command_answered_ (venue_state_ s)) →
  OrderRelease.released_through (links_of s) (orders_ s) = Returns released →
  returns HaltAndVoidRequests.void_held_orders_at_the_halt s (λ s' _,
    good since s' ∧ dated s' ∧
    voids_ (venue_state_ s') = voids_ (venue_state_ s) ++ option_list (void_at_the_halt s released)).
Proof.
  intros Hok Hw Hd Hlast Hlow Hr. assert (Hg : good since s) by (split; [by do 4 eexists|done]).
  apply returns_bind. unfold ask. eapply returns_eq; [cbn; by rewrite Hr|].
  apply returns_bind. eapply returns_eq; [done|]. cbn zeta. unfold void_at_the_halt.
  change (last_seq_no s) with (wal_last s). change (highest_command_answered s) with (highest_command_answered_ (venue_state_ s)).
  set (first := Z.max released (highest_command_answered_ (venue_state_ s)) + 1).
  destruct (Z.ltb_spec (wal_last s) first); [eapply returns_eq; [done|]; by rewrite app_nil_r|].
  apply returns_bind.
  destruct (void_back codec (mk_void_view first (wal_last s) true HeldWhenTradingHalted)) as (bytes & Hb & Hback).
  { unfold int64. cbn. lia. } { unfold int64. cbn. lia. }
  eapply returns_mono; [eapply (write_own_dated since); [exact Hg|done|done|by apply (void_small codec)]|].
  cbn. intros s' _ (Hg' & Hd' & Hwal). eapply returns_eq; [done|]. split; [exact Hg'|]. split; [done|].
  destruct (Hwal bytes Hb) as [d Hwal']. rewrite (good_voids _ _ Hg'), (good_voids _ _ Hg), Hwal', voids_in_snoc.
  unfold void_in, void_from_command. cbn. by rewrite Hback.
Qed.

Lemma halted_last cut top L p r v b reason :
  venue_shows decode_void decode_technical_event cut top (L ++ [(p, r)]) v →
  event_in decode_technical_event (p, r) = Some (p, b, reason) →
  TradingHaltState.halted (trading_halt_ v) = b.
Proof.
  intros Hv He. pose proof (shows_latest _ _ _ _ _ _ Hv) as Hl. rewrite events_snoc, He in Hl. cbn in Hl.
  rewrite last_app in Hl. cbn in Hl. unfold TradingHaltState.halted, latest in *.
  destruct (last (events_ (trading_halt_ v))) as [e|]; [|done]. cbn in Hl. unfold told in Hl. by injection Hl.
Qed.

Lemma recovery_halt_ok since s W given l sent released now :
  ok since s W given l sent → commits_later s (world_ s) → dated s → wal_last s < 2 ^ 63 →
  - 2 ^ 63 ≤ Z.max released (highest_command_answered_ (venue_state_ s)) →
  OrderRelease.released_through (links_of s) (orders_ s) = Returns released →
  returns (HaltAndVoidRequests.recovery_halt now) s (λ s' _,
    oks since s' ∧ TradingHaltState.halted (trading_halt_ (venue_state_ s')) = true ∧
    voids_ (venue_state_ s') = voids_ (venue_state_ s) ++ option_list (void_at_the_halt s released)).
Proof.
  intros Hok Hw Hd Hlast Hlow Hr. apply returns_bind. eapply returns_mono; [by eapply void_held_dated|].
  cbn. intros s1 _ (Hg1 & Hd1 & Hv1). apply returns_bind.
  eapply returns_mono; [eapply (write_no_void_dated since); [exact Hg1|done|done|done|by apply (cancel_small codec)]|].
  cbn. intros s2 _ (Hg2 & Hd2 & Hv2 & _). apply returns_bind. apply returns_bind.
  destruct Hg2 as [(W2 & given2 & l2 & sent2 & Hok2) Hw2]. cbn.
  eapply date_ok; [exact Hok2|done|]. intros s3 d _ _ _ _ _ Hsame. destruct (Hsame ltac:(apply Hd2)) as [-> ->].
  eapply returns_eq; [done|]. apply returns_bind. cbn.
  match goal with |- context [encode_technical_event ?e] => destruct (event_back codec e) as (bytes & Hb & Hback) end.
  { apply Hd2. }
  eapply returns_mono; [eapply (write_no_void_dated since); [split; [by do 4 eexists|done]|done|done|done|by apply (event_small codec)]|].
  cbn. intros s4 _ (Hg4 & Hd4 & Hv4 & Hwal4). eapply returns_eq; [done|]. split_and!; [apply Hg4| |by rewrite Hv4, Hv2, Hv1].
  destruct (Hwal4 bytes Hb) as [day Hwal]. destruct Hg4 as [(W4 & given4 & l4 & sent4 & [_ (cut & Hshow) _ _]) _].
  rewrite Hwal in Hshow. eapply halted_last; [exact Hshow|]. unfold event_in. cbn. rewrite Hback. done.
Qed.

(** ** Runs *)

Lemma ok_released since s W given l sent :
  ok since s W given l sent →
  ∃ r, OrderRelease.released_through (links_of s) (orders_ s) = Returns r ∧ r ≤ committed_ s ∧
    Forall (λ x, x ≤ r ↔ x ∈ sent) W.
Proof. intros Hok. apply (released_exactly (links_of s) W given _ l), Hok. Qed.

Lemma recovery_ok since s now :
  good since s → returns (HaltAndVoidRequests.recovery_halt now) s (λ s' _, oks since s').
Proof.
  intros Hg. apply returns_bind.
  eapply (returns_mono _ _ (λ s' _, good since s')).
  { pose proof Hg as [(W & given & l & sent & Hok) _]. destruct (ok_released _ _ _ _ _ _ Hok) as (r & Hr & _).
    apply returns_bind. unfold ask. eapply returns_eq; [cbn; by rewrite Hr|]. apply returns_bind.
    eapply returns_eq; [done|]. cbn zeta. case_if; [by eapply returns_eq|]. apply returns_bind.
    eapply returns_mono; [eapply (write_encoded_ok since); [exact Hg|done|by apply (void_small codec)]|].
    intros s' b Hg'. by eapply returns_eq. }
  intros s1 b1 Hg1. apply returns_bind.
  eapply returns_mono; [eapply (write_encoded_ok since); [exact Hg1|done|by apply (cancel_small codec)]|].
  intros s2 b2 Hg2. eapply event_ok; [exact Hg2|]. intros s3 e Hg3. eapply write_event_ok; [exact Hg3|].
  intros s4 b4 [Hok4 _]. by eapply returns_eq.
Qed.

Lemma do_event_ok since s w e : oks since s → event_fits s w e → returns (do_event w e) s (λ s' _, oks since s').
Proof.
  intros (W & given & l & sent & Hok) [Hw He]. apply returns_bind. eapply returns_eq; [done|].
  pose proof (ok_world _ _ w _ _ _ _ Hok) as Hok1. set (s1 := with_world s w) in *.
  assert (Hg : good since s1) by (split; [by do 4 eexists|done]).
  destruct e.
  - by eapply sequence_command_ok.
  - by eapply report_ok.
  - apply returns_bind. eapply returns_eq; [done|]. cbn. destruct (Z.ltb_spec (committed_ s) through).
    + by eapply (leader_commit_ok since s1).
    + eapply returns_eq; [done|]. apply Hg.
  - by apply operator_ok.
  - by apply engine_halt_ok.
  - by apply void_request_ok.
  - by apply recovery_ok.
  - by eapply action_ok.
Qed.

Lemma do_events_ok since es : ∀ s, oks since s → events_fit es s → returns (do_events es) s (λ s' _, oks since s').
Proof.
  induction es as [|[w e] es IH]; intros s Hok Hes; [by eapply returns_eq|]. destruct Hes as [He Hes].
  apply returns_bind. destruct (returns_inv _ _ _ (do_event_ok _ _ _ _ Hok He)) as (s' & [] & Hs' & Hok').
  rewrite Hs' in Hes. eapply returns_eq; [exact Hs'|]. by apply IH.
Qed.

Lemma lead_ok s : takes_the_lead s → oks (wal_last s) s.
Proof.
  intros [(capacity & Hcap & Hmake) (cut & Hv) Hc]. exists [], [], [], []. pose proof (vs_top _ _ _ _ _ _ Hv) as [H0 Htop].
  destruct (make_keeps (E := envelope) capacity (wal_last s) (committed_ s) Hcap) as (o & Ho & Hk); [lia|].
  rewrite Hmake in Ho. injection Ho as <-. constructor; [|by exists cut|done|].
  - assert (Hout : OrderRelease.outputs (orders_ s) = []).
    { unfold OrderRelease.make, obind in Hmake. destruct (RingBuffer.RingBuffer.make capacity); [|done].
      injection Hmake as <-. done. }
    constructor; [done| |]; by rewrite Hout.
  - symmetry. unfold commands_since. clear -Htop. induction Htop as [|pr L Hpr _ IH]; [done|]. cbn.
    destruct (Z.ltb_spec (wal_last s) pr.1); [lia|]. exact IH.
Qed.

(** ** Properties *)

(** C13: from when an instance takes the lead, whatever commands, reports, commits, requests and answers come, no call
    fails; the commands it writes are sent to the leading engine in the order of the log, each once; every command at or
    before a position the engines that follow the log are sent through has been sent to the engine that leads before that;
    and what it keeps of the venue's state is what its log says.  Records are committed by an acknowledgement or a
    confirmation that comes after they were written. *)
Theorem followers_are_never_ahead_of_the_leading_engine s es :
  takes_the_lead s → events_fit es s →
  ∃ s' sent waiting, do_events es s = (s', Returns ()) ∧
    let W := commands_since (wal_last s) (wal_ s') in
    W = sent ++ waiting ∧
    deliveries W (OrderRelease.outputs (orders_ s')) = (sent, None) ∧
    followers_after W ([], None) (OrderRelease.outputs (orders_ s')) ∧
    voids_ (venue_state_ s') = voids_in decode_void (wal_ s') ∧
    told <$> latest (trading_halt_ (venue_state_ s')) = last (events_in decode_technical_event (wal_ s')).
Proof.
  intros Hs Hes. destruct (returns_inv _ _ _ (do_events_ok _ _ _ (lead_ok _ Hs) Hes)) as (s' & [] & Hrun & Hok).
  destruct Hok as (W & given & l & sent & [[Hk Hf _] (cut & Hv) _ HW]). exists s', sent. eexists. split; [done|].
  cbn zeta. rewrite <- HW. split_and!; [apply Hk|apply Hk|done|apply Hv|by eapply shows_latest].
Qed.

(** What the void at the halt adds. *)
Lemma voiding_snoc voids v q kind :
  VoidedCommandList.voiding (voids ++ [v]) q kind =
  match VoidedCommandList.voiding voids q kind with
  | Some w => Some w
  | None => if VoidedCommandList.names q kind v then Some v else None
  end.
Proof. induction voids as [|w voids IH]; [done|]. cbn. by destruct (VoidedCommandList.names q kind w). Qed.

(** What the engines have been sent: the one that leads, and those that follow. *)
Lemma ok_sound_orders since s W given l sent :
  ok since s W given l sent →
  deliveries W (OrderRelease.outputs (orders_ s)) = (sent, None) ∧
  Forall (λ r, ∀ q, q ∈ W → q ∉ sent → r < q) (omap followers_in (OrderRelease.outputs (orders_ s))).
Proof.
  intros [[Hk Hf _] _ _ _]. pose proof (ke_sent _ _ _ _ _ _ _ Hk) as Hd. split; [done|].
  pose proof (followers_behind _ _ _ Hf) as Hb. unfold deliveries in Hd. by rewrite Hd in Hb.
Qed.

(** C14: the halt when the venue cannot recover by itself halts trading and voids exactly the new orders that no engine,
    neither the one that leads nor one that follows the log, has been sent and that no report has answered, or passed
    over: every other command is as it was, every cancel among them.  This is so after any run, from when the lead was
    taken, in which a record is committed only after it was written (what happens when one is not is
    [commit_while_writing_sends_an_order_ahead]), with the trading date known and the log within its numbers. *)
Theorem recovery_halt_voids_what_no_engine_was_sent s es w :
  takes_the_lead s → events_fit es s →
  ∃ s1 sent, do_events es s = (s1, Returns ()) ∧
    let W := commands_since (wal_last s) (wal_ s1) in
    let answered := highest_command_answered_ (venue_state_ s1) in
    deliveries W (OrderRelease.outputs (orders_ s1)) = (sent, None) ∧
    Forall (λ r, ∀ q, q ∈ W → q ∉ sent → r < q) (omap followers_in (OrderRelease.outputs (orders_ s1))) ∧
    (commits_later s1 w → dated s1 → wal_last s1 < 2 ^ 63 → 
     ∃ s2, do_event w RecoveryHalt s1 = (s2, Returns ()) ∧
       TradingHaltState.halted (trading_halt_ (venue_state_ s2)) = true ∧
       let before := VoidedCommandList.voiding (voids_ (venue_state_ s1)) in
       let after := VoidedCommandList.voiding (voids_ (venue_state_ s2)) in
       (∀ q, q ∈ W → q ∉ sent → answered < q → is_Some (after q VoidedNewOrder)) ∧
       (∀ q kind, q ∈ W → q ∈ sent ∨ q ≤ answered → after q kind = before q kind) ∧
       (∀ q, after q VoidedCancel = before q VoidedCancel)).
Proof.
  intros Hs Hes. destruct (returns_inv _ _ _ (do_events_ok _ _ _ (lead_ok _ Hs) Hes)) as (s1 & [] & Hrun & Hok).
  destruct Hok as (W & given & l & sent & Hok). exists s1, sent. split; [done|]. cbn zeta.
  rewrite <- (ok_written _ _ _ _ _ _ Hok). destruct (ok_sound_orders _ _ _ _ _ _ Hok) as [Hdel Hbehind].
  split; [done|]. split; [done|]. intros Hw Hd Hlast.
  destruct (ok_released _ _ _ _ _ _ (ok_world _ _ w _ _ _ _ Hok)) as (r & Hr & _ & Hsent).
  assert (Hanswered : 0 ≤ highest_command_answered_ (venue_state_ s1)).
  { destruct Hok as [_ (cut & []) _ _]. pose proof (highest_nonneg (answers_in (wal_ s1))). lia. }
  pose proof (recovery_halt_ok _ _ _ _ _ _ r (wall_time_ns w) (ok_world _ _ w _ _ _ _ Hok)) as Hrec.
  specialize (Hrec Hw Hd Hlast ltac:(cbn; lia) Hr). apply returns_inv in Hrec as (s2 & [] & Hrec & _ & Hhalted & Hvoids).
  exists s2. split; [exact Hrec|]. split; [done|]. rewrite Hvoids. unfold void_at_the_halt. cbn.
  change (wal_last (with_world s1 w)) with (wal_last s1).
  assert (Hbound : Forall (λ x, x ≤ wal_last s1) W) by apply Hok.
  rewrite !Forall_forall in *.
  destruct (Z.ltb_spec (wal_last s1) (Z.max r (highest_command_answered_ (venue_state_ s1)) + 1)) as [Hnone|Hsome]; cbn.
  - rewrite app_nil_r. split_and!; try done. intros q Hq Hn Ha. exfalso. apply Hn. apply Hsent; [done|].
    specialize (Hbound q Hq). cbn in Hbound. lia.
  - split_and!.
    + intros q Hq Hn Ha. rewrite voiding_snoc. destruct (VoidedCommandList.voiding _ _ _); [eauto|].
      unfold VoidedCommandList.names. cbn. rewrite (proj2 (Z.leb_le _ _)), (proj2 (Z.leb_le _ _)); cbn; [eauto|by apply Hbound|].
      destruct (Z.le_gt_cases q r) as [Hle|]; [exfalso; by apply Hn, Hsent|lia].
    + intros q kind Hq Hor. rewrite voiding_snoc. destruct (VoidedCommandList.voiding _ _ _); [done|].
      unfold VoidedCommandList.names. cbn. rewrite (proj2 (Z.leb_gt _ _)); [done|].
      destruct Hor as [Hin|]; [apply Hsent in Hin; [lia|done]|lia].
    + intros q. rewrite voiding_snoc. destruct (VoidedCommandList.voiding _ _ _); [done|].
      unfold VoidedCommandList.names. cbn. by rewrite andb_false_r.
Qed.

End theorems.

(** ** A day *)

Module LeadersDay.

Definition bit (b : bool) : Z := if b then 1 else 0.

Definition encode_void (c : VoidCommandsView) : option (list Z) :=
  Some [view_first_seq_no c; view_last_seq_no c; bit (view_new_orders_only c);
        bit (bool_decide (view_void_reason c = EngineDiedApplying))].
Definition decode_void (bytes : list Z) : option VoidCommandsView :=
  match bytes with
  | [first; last; n; r] => Some (mk_void_view first last (n =? 1) (if r =? 1 then EngineDiedApplying else HeldWhenTradingHalted))
  | _ => None
  end.

Definition reason_number (r : TechnicalEventReason) : Z :=
  match r with CannotAccountForBook => 1 | LiftedByOperator => 2 | RecoveryTooLong => 3 | DeclaredByOperator => 4 end.
Definition encode_technical_event (e : TechnicalEvent) : option (list Z) :=
  Some [bit (te_halted e); trading_day_of e; reason_number (te_reason e)].
Definition decode_technical_event (bytes : list Z) : option TechnicalEventView :=
  match bytes with
  | [h; _; r] => Some (mk_event_view (h =? 1)
      (if r =? 1 then CannotAccountForBook else if r =? 2 then LiftedByOperator
       else if r =? 3 then RecoveryTooLong else DeclaredByOperator))
  | _ => None
  end.
Definition encode_cancel_book (c : CancelBook) : option (list Z) := Some [orders_placed_through c].

Lemma codec : own_codec decode_void decode_technical_event encode_void encode_technical_event encode_cancel_book.
Proof.
  constructor.
  - intros c bytes [= <-]. done.
  - intros e bytes [= <-]. done.
  - intros c bytes [= <-]. done.
  - intros [first last n []] _ _; eexists; (split; [done|]); by destruct n.
  - intros [p h day []] _; eexists; (split; [done|]); by destruct h.
Qed.

(** An instance with an empty log and room for four orders. *)
Definition empty_orders : OrderRelease.t envelope :=
  OrderRelease.mk 4 (RingBuffer.RingBuffer.mk (replicate 4 None) 4 0 0) 0 [] OrderRelease.reading false 0 0 0 0 [].

(** With a follower that acknowledges what it holds; [takes] whether an engine takes orders. *)
Definition paired (takes : bool) : world :=
  mk_world 0 true false false takes (if takes then Some 1 else None) (Some 2) (λ _, false) None 1767600000000000000.

(** Without a follower. *)
Definition alone (takes : bool) : world :=
  mk_world 0 false true false takes (if takes then Some 1 else None) (Some 2) (λ _, false) None 1767600000000000000.

Definition start : SequencerLeader.t :=
  SequencerLeader.mk (paired true) empty_orders VenueStateFromTheWal.initial [] 0 [].

Lemma start_leads : takes_the_lead decode_void decode_technical_event start.
Proof.
  constructor; [by exists 4| |done]. exists false. apply venue_shows_initial.
Qed.

(** Two orders; the engine goes before the second. *)
Definition events : list (world * event) :=
  [(paired true, Command NewOrderSingle [1] 7); (paired true, Commit 1); (paired true, Report [9] 1);
   (paired false, Command NewOrderSingle [2] 8); (paired false, Command OrderCancelRequest [3] 9);
   (paired false, Commit 4)].

Definition run (es : list (world * event)) : SequencerLeader.t :=
  (do_events decode_void decode_technical_event encode_void encode_technical_event encode_cancel_book es start).1.

Lemma events_fit_here :
  events_fit decode_void decode_technical_event encode_void encode_technical_event encode_cancel_book events start.
Proof. vm_compute. repeat split; auto; congruence. Qed.

End LeadersDay.

Lemma followers_are_never_ahead_of_the_leading_engine_witness :
  ∃ s' sent waiting,
    do_events LeadersDay.decode_void LeadersDay.decode_technical_event LeadersDay.encode_void
      LeadersDay.encode_technical_event LeadersDay.encode_cancel_book LeadersDay.events LeadersDay.start = (s', Returns ()) ∧
    commands_since 0 (wal_ s') = sent ++ waiting ∧
    followers_after (commands_since 0 (wal_ s')) ([], None) (OrderRelease.outputs (orders_ s')).
Proof.
  destruct (followers_are_never_ahead_of_the_leading_engine LeadersDay.decode_void LeadersDay.decode_technical_event
    LeadersDay.encode_void LeadersDay.encode_technical_event LeadersDay.encode_cancel_book LeadersDay.codec
    LeadersDay.start LeadersDay.events LeadersDay.start_leads LeadersDay.events_fit_here)
    as (s' & sent & waiting & Hrun & HW & _ & Hf & _).
  exists s', sent, waiting. split; [exact Hrun|]. split; [exact HW|exact Hf].
Defined.

Lemma recovery_halt_voids_what_no_engine_was_sent_witness :
  ∃ s1 s2, s1 = LeadersDay.run LeadersDay.events ∧
    do_event LeadersDay.decode_void LeadersDay.decode_technical_event LeadersDay.encode_void
      LeadersDay.encode_technical_event LeadersDay.encode_cancel_book (LeadersDay.paired false) RecoveryHalt s1 = (s2, Returns ()) ∧
    is_Some (VoidedCommandList.voiding (voids_ (venue_state_ s2)) 3 VoidedNewOrder) ∧
    VoidedCommandList.voiding (voids_ (venue_state_ s2)) 1 VoidedNewOrder =
      VoidedCommandList.voiding (voids_ (venue_state_ s1)) 1 VoidedNewOrder.
Proof.
  destruct (recovery_halt_voids_what_no_engine_was_sent LeadersDay.decode_void LeadersDay.decode_technical_event
    LeadersDay.encode_void LeadersDay.encode_technical_event LeadersDay.encode_cancel_book LeadersDay.codec
    LeadersDay.start LeadersDay.events (LeadersDay.paired false) LeadersDay.start_leads LeadersDay.events_fit_here)
    as (s1 & sent & Hrun & Hsent & _ & Hhalt); cbn zeta in Hsent, Hhalt.
  assert (Hs1 : s1 = LeadersDay.run LeadersDay.events) by (unfold LeadersDay.run; rewrite Hrun; reflexivity).
  subst s1.
  assert (HW : commands_since (wal_last LeadersDay.start) (wal_ (LeadersDay.run LeadersDay.events)) = [1; 3; 4])
    by (vm_compute; reflexivity).
  assert (Ha : highest_command_answered_ (venue_state_ (LeadersDay.run LeadersDay.events)) = 1) by (vm_compute; reflexivity).
  assert (Hl : sent = [1]) by (apply (f_equal fst) in Hsent; vm_compute in Hsent; symmetry; exact Hsent).
  destruct Hhalt as (s2 & Hdo & _ & Hall & Hother & _).
  - vm_compute. split; [reflexivity|congruence].
  - vm_compute. split; [congruence|split; [congruence|reflexivity]].
  - vm_compute. reflexivity.
  - exists (LeadersDay.run LeadersDay.events), s2. split; [reflexivity|]. split; [exact Hdo|]. split.
    + apply Hall; [rewrite HW; right; left|rewrite Hl; intros [=]%list_elem_of_singleton|rewrite Ha; reflexivity].
    + apply Hother; [rewrite HW; left|left; rewrite Hl; left].
Defined.

(** an instance that commits a record as it writes it releases the record before it holds the order: when no engine
    takes orders and none waits, the engines that follow the log are sent the order though no engine that leads has
    been, and the halt then voids it. *)
Theorem commit_while_writing_sends_an_order_ahead :
  let s1 := LeadersDay.run [(LeadersDay.alone false, Command NewOrderSingle [1] 7)] in
  let s2 := LeadersDay.run [(LeadersDay.alone false, Command NewOrderSingle [1] 7); (LeadersDay.alone false, RecoveryHalt)] in
  omap followers_in (OrderRelease.outputs (orders_ s1)) = [1; 0] ∧
  deliveries [1] (OrderRelease.outputs (orders_ s1)) = ([], None) ∧
  OrderRelease.released_through (links_of s1) (orders_ s1) = Returns 0 ∧
  VoidedCommandList.voiding (voids_ (venue_state_ s2)) 1 VoidedNewOrder =
    Some (mk_voided 2 1 1 true HeldWhenTradingHalted).
Proof. vm_compute. done. Qed.

(** A void that is committed as it is written is not yet noted then, so the engines are not sent it. *)
Lemma void_committed_while_written_is_not_sent :
  let es := [(LeadersDay.alone true, Command NewOrderSingle [1] 7); (LeadersDay.alone true, VoidRequest 1 1 1)] in
  let s := LeadersDay.run es in
  voids_ (venue_state_ s) = [mk_voided 2 1 1 false EngineDiedApplying] ∧ committed_ s = 2 ∧ said_ s = [].
Proof. vm_compute. done. Qed.
