(* ===== verification/PduFraming.v ===== *)
(** The framing layer of a TCP connection between components:
    libraries/pubsub_itc_fw, PduHeader.hpp, PduFramer.cpp, PduParser.cpp and
    PduProtocolHandler.cpp.

    A connection's socket is what the kernel answers, in order.  On the way out
    that is how many bytes each [send] takes ([SendAnswer]); on the way in it is
    the pieces in which the bytes of the peer arrive ([NetEvent]), cut anywhere.
    The allocator of the payloads' chunks is a parameter, the class [SlabOps]
    with its laws [SlabLaws]; the library's own allocator is an instance of it
    in SlabAllocator.v.  The memory of the chunks is a map from a chunk's address
    to its bytes, and reading a chunk that was given back is
    [UndefinedBehaviour]. *)

From stdpp Require Import gmap strings.
From S2P Require Import Prelude.
From S2P Require Import WalEntry.
#[local] Open Scope Z_scope.

(** [htonl], [htons] and [htobe64] of an integer of [n] bytes, and back. *)
Definition net_bytes (n z : Z) : list Z := reverse (bytes_of n z).
Definition net_unsigned (bytes : list Z) : Z := unsigned_of (reverse bytes).
Definition net_signed (bytes : list Z) : Z := signed_of (reverse bytes).

Definition EAGAIN : Z := 11.

(** What [receive] and [send] of a framer or a parser answer: success and an
    error text. *)
Definition answer : Type := bool * string.

(** ** The header *)

Module PduHeader.

Definition pdu_canary_value : Z := 0xC0FFEE00.
Definition sizeof : Z := 24.

Record t := mk {
  byte_count : Z;
  pdu_id : Z;
  version : Z;
  filler_a : Z;
  seq_no : Z;
  canary : Z;
  filler_b : Z
}.

(** The header in memory, its fields in network byte order. *)
Definition to_wire (h : t) : list Z :=
  net_bytes 4 (byte_count h) ++ net_bytes 2 (pdu_id h) ++ net_bytes 1 (version h) ++
  net_bytes 1 (filler_a h) ++ net_bytes 8 (seq_no h) ++ net_bytes 4 (canary h) ++
  net_bytes 4 (filler_b h).

Definition of_wire (b : list Z) : t :=
  mk (net_unsigned (slice b 0 4)) (net_signed (slice b 4 2)) (net_signed (slice b 6 1))
     (net_unsigned (slice b 7 1)) (net_signed (slice b 8 8)) (net_unsigned (slice b 16 4))
     (net_unsigned (slice b 20 4)).

End PduHeader.

(** ** The sending side *)

(** The kernel's answer to a [send]: it takes at most [n] bytes, its buffer is
    full, or the connection is broken. *)
Inductive SendAnswer :=
  | Accepts (n : nat)
  | Full
  | Breaks (code : positive) (error : string).

Record Socket := mk_socket {
  answers : list SendAnswer;
  wire : list Z
}.

(** [ByteStreamInterface::send]. *)
Definition stream_send (data : list Z) (s : Socket) : Socket * (Z * string) :=
  match answers s with
  | [] => (s, (- EAGAIN, EmptyString))
  | Full :: rest => (mk_socket rest (wire s), (- EAGAIN, EmptyString))
  | Accepts n :: rest =>
      let taken := take n data in
      (mk_socket rest (wire s ++ taken), (size taken, EmptyString))
  | Breaks code error :: rest => (mk_socket rest (wire s), (- Zpos code, error))
  end.

Module PduFramer.

Definition max_payload_size : Z := 256.
Definition frame_buffer_size : Z := PduHeader.sizeof + max_payload_size.

(** What [active_frame_ptr_] points into: the framer's own buffer, or a chunk of
    the caller. *)
Inductive FramePtr :=
  | OwnBuffer
  | CallerChunk (p : Z).

Record t := mk {
  frame_buffer_ : list Z;
  active_frame_ptr_ : option FramePtr;
  frame_size_ : Z;
  send_offset_ : Z
}.

Definition initial : t := mk (zeros frame_buffer_size) None 0 0.

(** The socket and the memory of the callers' chunks. *)
Record World := mk_world {
  socket : Socket;
  chunks : gmap Z (list Z)
}.

Definition state : Type := World * t.

Definition has_pending_data (f : t) : bool := send_offset_ f <? frame_size_ f.

(** The bytes [active_frame_ptr_] points at. *)
Definition active_frame (st : state) : outcome (list Z) :=
  match active_frame_ptr_ st.2 with
  | None => Throws UndefinedBehaviour
  | Some OwnBuffer => Returns (frame_buffer_ st.2)
  | Some (CallerChunk p) =>
      match chunks st.1 !! p with
      | Some bytes => Returns bytes
      | None => Throws UndefinedBehaviour
      end
  end.

Definition on_socket {A} (m : Socket → Socket * A) : comp state A := λ st,
  let r := m (socket st.1) in ((mk_world r.1 (chunks st.1), st.2), Returns r.2).

Definition point_at (p : option FramePtr) (bytes : Z) (f : t) : t :=
  mk (frame_buffer_ f) p bytes 0.

Definition advance (n : Z) (f : t) : t :=
  mk (frame_buffer_ f) (active_frame_ptr_ f) (frame_size_ f) (send_offset_ f + n).

(** [PduFramer::continue_send]: the loop, with one turn for each answer of the
    socket and one for the answer it gives when it has none. *)
Fixpoint continue_send_loop (turns : nat) : comp state answer :=
  match turns with
  | O => throw DoesNotReturn
  | S turns =>
      f ← on_snd (gets (λ f, f));
      if send_offset_ f <? frame_size_ f then
        buf ← ask active_frame;
        let remaining := frame_size_ f - send_offset_ f in
        r ← on_socket (stream_send (slice buf (send_offset_ f) remaining));
        let '(bytes_sent, error) := r : Z * string in
        if bytes_sent <? 0 then
          if bytes_sent =? - EAGAIN then mret (true, EmptyString)
          else
            on_snd (modify (point_at None 0));;
            mret (false, error)
        else
          on_snd (modify (advance bytes_sent));;
          continue_send_loop turns
      else
        on_snd (modify (point_at None 0));;
        mret (true, EmptyString)
  end.

Definition continue_send : comp state answer := λ st,
  continue_send_loop (length (answers (socket st.1)) + 2) st.

(** The frame [send] builds. *)
Definition frame_header (pdu_id version seq_no size : Z) : PduHeader.t :=
  PduHeader.mk size pdu_id version 0 seq_no PduHeader.pdu_canary_value 0.

(** [PduFramer::send], [payload] being the bytes its pointer points at. *)
Definition send (pdu_id version seq_no : Z) (payload : option (list Z)) (n : Z)
    : comp state answer :=
  match payload with
  | None => throw PreconditionAssertion
  | Some bytes =>
      if n =? 0 then throw PreconditionAssertion
      else
        pending ← on_snd (gets has_pending_data);
        if pending : bool then throw PreconditionAssertion
        else if frame_buffer_size <? PduHeader.sizeof + n then throw PreconditionAssertion
        else if size bytes <? n then throw UndefinedBehaviour
        else
          on_snd (modify (λ f,
            mk (splice (frame_buffer_ f) 0
                 (PduHeader.to_wire (frame_header pdu_id version seq_no n) ++ slice bytes 0 n))
               (Some OwnBuffer) (PduHeader.sizeof + n) 0));;
          continue_send
  end.

(** [PduFramer::send_prebuilt]. *)
Definition send_prebuilt (frame : option Z) (total_bytes : Z) : comp state answer :=
  match frame with
  | None => throw PreconditionAssertion
  | Some p =>
      if total_bytes <=? PduHeader.sizeof then throw PreconditionAssertion
      else
        pending ← on_snd (gets has_pending_data);
        if pending : bool then throw PreconditionAssertion
        else
          on_snd (modify (point_at (Some (CallerChunk p)) total_bytes));;
          continue_send
  end.

End PduFramer.

(** ** The chunks of the payloads *)

(** What a framing layer calls of a slab allocator.  A chunk is named by its
    handle and its address; no address is the null pointer. *)
Class SlabOps (A : Type) := {
  slab_size : A → Z;
  allocate : Z → comp A (Z * option Z);
  deallocate : Z → Z → comp A unit
}.

(** What a slab allocator promises: the chunks it has given out and not taken
    back are [held], no two of them at one address; it gives a chunk for every
    size it allows while it has [room] for one more, and each takes at most one
    of it. *)
Class SlabLaws (A : Type) `{SlabOps A} := {
  good_allocator : A → Prop;
  held : A → list (Z * Z);
  room : A → nat;
  held_addresses a : good_allocator a → NoDup (held a).*2;
  allocate_law a n :
    good_allocator a → 0 < n ≤ slab_size a → (0 < room a)%nat →
    returns (allocate n) a (λ a' r, ∃ p, r.2 = Some p ∧ good_allocator a' ∧
      held a' ≡ₚ (r.1, p) :: held a ∧ slab_size a' = slab_size a ∧ (room a ≤ S (room a'))%nat);
  deallocate_law a h p :
    good_allocator a → (h, p) ∈ held a →
    returns (deallocate h p) a (λ a' _, good_allocator a' ∧
      held a ≡ₚ (h, p) :: held a' ∧ slab_size a' = slab_size a ∧ (room a ≤ room a')%nat)
}.

(** ** The receiving side *)

(** What happens at the socket: bytes arrive, the peer closes its side, or the
    connection breaks.  [Arrive []] is a turn in which there is nothing to
    read. *)
Inductive NetEvent :=
  | Arrive (bytes : list Z)
  | PeerClosed
  | ReadError (code : positive) (error : string).

(** [EventMessage::create_framework_pdu_message]. *)
Record FrameworkPdu := mk_pdu_message {
  msg_payload : Z;
  msg_payload_size : Z;
  msg_slab_id : Z;
  msg_connection_id : Z;
  msg_pdu_id : Z;
  msg_seq_no : Z
}.

Module PduParser.
Section parser.
Context {A : Type} `{SlabOps A}.

Definition invalid_slab_handle : Z := 2 ^ 64 - 1.

Record t := mk {
  connection_id_ : Z;
  disconnect_handler_ : bool;
  header_buffer_ : list Z;
  header_bytes_ : Z;
  header_validated_ : bool;
  current_payload_size_ : Z;
  current_pdu_id_ : Z;
  current_seq_no_ : Z;
  payload_chunk_ : option Z;
  payload_slab_id_ : Z;
  payload_bytes_received_ : Z
}.

Definition initial (connection_id : Z) (disconnect_handler : bool) : t :=
  mk connection_id disconnect_handler (zeros PduHeader.sizeof) 0 false 0 0 0
     None invalid_slab_handle 0.

(** What the parser works on: the socket, the allocator, the memory of the
    chunks, the queue of the target thread and how often the disconnect handler
    was called. *)
Record World := mk_world {
  events : list NetEvent;
  allocator : A;
  memory : gmap Z (list Z);
  enqueued : list FrameworkPdu;
  disconnects : nat
}.

Definition state : Type := World * t.

Definition set_events (e : list NetEvent) (w : World) : World :=
  mk_world e (allocator w) (memory w) (enqueued w) (disconnects w).
Definition set_memory (m : gmap Z (list Z)) (w : World) : World :=
  mk_world (events w) (allocator w) m (enqueued w) (disconnects w).
Definition set_allocator (a : A) (w : World) : World :=
  mk_world (events w) a (memory w) (enqueued w) (disconnects w).

(** [ByteStreamInterface::receive] into a buffer of [n] bytes: the count, the
    error text and the bytes. *)
Definition stream_receive (n : Z) : comp state (Z * string * list Z) := λ st,
  let w := st.1 in
  match events w with
  | [] => (st, Returns (- EAGAIN, EmptyString, []))
  | Arrive [] :: rest => ((set_events rest w, st.2), Returns (- EAGAIN, EmptyString, []))
  | Arrive bytes :: rest =>
      let taken := take (Z.to_nat n) bytes in
      let left_ := drop (Z.to_nat n) bytes in
      ((set_events (match left_ with [] => rest | _ => Arrive left_ :: rest end) w, st.2),
       Returns (size taken, EmptyString, taken))
  | PeerClosed :: _ => (st, Returns (0, EmptyString, []))
  | ReadError code error :: rest =>
      ((set_events rest w, st.2), Returns (- Zpos code, error, []))
  end.

Definition on_allocator {B} (m : comp A B) : comp state B := λ st,
  let r := m (allocator st.1) in ((set_allocator r.1 st.1, st.2), r.2).

Definition self : comp state t := on_snd (gets (λ p, p)).

(** The bytes of a read go to the header's buffer. *)
Definition take_header (bytes : list Z) (p : t) : t :=
  mk (connection_id_ p) (disconnect_handler_ p) (splice (header_buffer_ p) (header_bytes_ p) bytes)
     (header_bytes_ p + size bytes) (header_validated_ p) (current_payload_size_ p)
     (current_pdu_id_ p) (current_seq_no_ p) (payload_chunk_ p) (payload_slab_id_ p)
     (payload_bytes_received_ p).

Definition set_current (payload_size pdu_id seq_no : Z) (p : t) : t :=
  mk (connection_id_ p) (disconnect_handler_ p) (header_buffer_ p) (header_bytes_ p)
     (header_validated_ p) payload_size pdu_id seq_no (payload_chunk_ p) (payload_slab_id_ p)
     (payload_bytes_received_ p).

Definition set_payload (validated : bool) (chunk : option Z) (slab_id received : Z) (p : t) : t :=
  mk (connection_id_ p) (disconnect_handler_ p) (header_buffer_ p) (header_bytes_ p)
     validated (current_payload_size_ p) (current_pdu_id_ p) (current_seq_no_ p)
     chunk slab_id received.

Definition has_complete_header (p : t) : bool := PduHeader.sizeof <=? header_bytes_ p.

(** [PduParser::reset_header]. *)
Definition reset_header (p : t) : t :=
  mk (connection_id_ p) (disconnect_handler_ p) (header_buffer_ p) 0 false 0 0 0
     (payload_chunk_ p) (payload_slab_id_ p) (payload_bytes_received_ p).

Definition call_disconnect_handler : comp state unit :=
  p ← self;
  if disconnect_handler_ p : bool
  then on_fst (modify (λ w, mk_world (events w) (allocator w) (memory w) (enqueued w)
                                     (S (disconnects w))))
  else mret ().

(** A read of the header goes to its buffer, and stays in it. *)
Definition write_header (bytes : list Z) : comp state unit :=
  p ← self;
  if header_bytes_ p + size bytes <=? size (header_buffer_ p) then on_snd (modify (take_header bytes))
  else throw UndefinedBehaviour.

(** A read of the payload goes to the chunk, which must be there, and stays in
    it. *)
Definition write_chunk (chunk : option Z) (at_ : Z) (bytes : list Z) : comp state unit :=
  w ← on_fst (gets (λ w, w));
  match chunk ≫= (λ c, pair c <$> memory w !! c) with
  | Some (c, block) =>
      if (0 <=? at_) && (at_ + size bytes <=? size block) then
        on_fst (modify (set_memory (<[c := splice block at_ bytes]> (memory w))))
      else throw UndefinedBehaviour
  | None => throw UndefinedBehaviour
  end.

(** The chunk goes back to its slab, and its memory is not to be read again. *)
Definition release_chunk : comp state unit :=
  p ← self;
  match payload_chunk_ p with
  | None => throw PreconditionAssertion
  | Some c =>
      on_allocator (deallocate (payload_slab_id_ p) c);;
      on_fst (modify (λ w, set_memory (delete c (memory w)) w));;
      on_snd (modify (set_payload (header_validated_ p) None invalid_slab_handle
                        (payload_bytes_received_ p)))
  end.

(** [static_cast<int>]. *)
Definition to_int (z : Z) : Z := signed_of (bytes_of 4 z).

(** [PduParser::dispatch_pdu]. *)
Definition dispatch_pdu (slab_id : Z) (chunk : Z) : comp state unit :=
  p ← self;
  let msg := mk_pdu_message chunk (to_int (current_payload_size_ p)) slab_id (connection_id_ p)
               (current_pdu_id_ p) (current_seq_no_ p) in
  on_fst (modify (λ w, mk_world (events w) (allocator w) (memory w) (enqueued w ++ [msg])
                                (disconnects w))).

(** How a phase of the loop ends: it returns from [receive], or goes on. *)
Inductive flow := Return (r : answer) | Continue.

(** The checks of a complete header, and the chunk for its payload. *)
Definition accept_header : comp state flow :=
  p ← self;
  let hdr := PduHeader.of_wire (header_buffer_ p) in
  if negb (PduHeader.canary hdr =? PduHeader.pdu_canary_value) then
    mret (Return (false, "PduParser: canary mismatch -- wire corruption or framing error"%string))
  else
    on_snd (modify (set_current (PduHeader.byte_count hdr) (PduHeader.pdu_id hdr)
                      (PduHeader.seq_no hdr)));;
    if PduHeader.byte_count hdr =? 0 then
      mret (Return (false, "PduParser: zero-length payload is not permitted"%string))
    else
      limit ← on_fst (gets (λ w, slab_size (allocator w)));
      if limit <? PduHeader.byte_count hdr then
        mret (Return (false, "PduParser: inbound PDU payload exceeds inbound_slab_size"%string))
      else
        r ← on_allocator (allocate (PduHeader.byte_count hdr));
        let '(slab_id, chunk) := r : Z * option Z in
        match chunk with
        | None => mret (Return (false, "PduParser: slab allocation failed for incoming PDU payload"%string))
        | Some c =>
            on_fst (modify (λ w,
              set_memory (<[c := zeros (PduHeader.byte_count hdr)]> (memory w)) w));;
            on_snd (modify (set_payload true (Some c) slab_id 0));;
            mret Continue
        end.

(** Phase 1: the bytes of the header. *)
Definition header_phase : comp state flow :=
  p ← self;
  if header_validated_ p : bool then mret Continue
  else
    let header_space := PduHeader.sizeof - header_bytes_ p in
    f ← (if 0 <? header_space then
           r ← stream_receive header_space;
           let '(bytes_read, error, bytes) := r : Z * string * list Z in
           if (bytes_read =? 0) && String.eqb error EmptyString then
             call_disconnect_handler;; mret (Return (false, EmptyString))
           else if bytes_read <? 0 then
             if bytes_read =? - EAGAIN then mret (Return (true, EmptyString))
             else mret (Return (false, error))
           else
             write_header bytes;; mret Continue
         else mret Continue);
    match f : flow with
    | Return r => mret (Return r)
    | Continue =>
        complete ← on_snd (gets has_complete_header);
        if complete : bool then accept_header else mret (Return (true, EmptyString))
    end.

(** The end of phase 2: a complete frame is dispatched. *)
Definition complete_payload : comp state flow :=
  p ← self;
  if payload_bytes_received_ p <? current_payload_size_ p then
    mret (Return (true, EmptyString))
  else
    match payload_chunk_ p with
    | None => throw UndefinedBehaviour
    | Some c =>
        dispatch_pdu (payload_slab_id_ p) c;;
        on_snd (modify (set_payload true None invalid_slab_handle 0));;
        on_snd (modify reset_header);;
        mret Continue
    end.

(** Phase 2: the bytes of the payload, read into the chunk. *)
Definition payload_phase : comp state flow :=
  p ← self;
  let payload_remaining := current_payload_size_ p - payload_bytes_received_ p in
  f ← (if 0 <? payload_remaining then
         r ← stream_receive payload_remaining;
         let '(bytes_read, error, bytes) := r : Z * string * list Z in
         if (bytes_read =? 0) && String.eqb error EmptyString then
           release_chunk;; call_disconnect_handler;; mret (Return (false, EmptyString))
         else if bytes_read <? 0 then
           if bytes_read =? - EAGAIN then mret (Return (true, EmptyString))
           else release_chunk;; mret (Return (false, error))
         else
           write_chunk (payload_chunk_ p) (payload_bytes_received_ p) bytes;;
           on_snd (modify (set_payload true (payload_chunk_ p) (payload_slab_id_ p)
                             (payload_bytes_received_ p + bytes_read)));;
           mret Continue
       else mret Continue);
  match f : flow with
  | Return r => mret (Return r)
  | Continue => complete_payload
  end.

(** [PduParser::receive].  A turn that goes on has read a byte at least. *)
Fixpoint receive_loop (turns : nat) : comp state answer :=
  match turns with
  | O => throw DoesNotReturn
  | S turns =>
      f ← header_phase;
      match f : flow with
      | Return r => mret r
      | Continue =>
          f ← payload_phase;
          match f : flow with
          | Return r => mret r
          | Continue => receive_loop turns
          end
      end
  end.

(** The bytes that are still to be read. *)
Definition event_bytes (e : NetEvent) : list Z :=
  match e with Arrive bytes => bytes | _ => [] end.
Definition unread (es : list NetEvent) : list Z := es ≫= event_bytes.

Definition receive : comp state answer := λ st,
  receive_loop (length (unread (events st.1)) + 2) st.

End parser.
Arguments World : clear implicits.
Arguments state : clear implicits.
End PduParser.

(** ** A connection *)

Module PduProtocolHandler.
Section handler.
Context {A B : Type} `{SlabOps A} `{SlabOps B}.

Record t := mk {
  parser_ : PduParser.t;
  framer_ : PduFramer.t;
  current_allocator_ : bool;
  current_slab_id_ : Z;
  current_chunk_ptr_ : option Z;
  current_total_bytes_ : Z
}.

(** The parser is given no disconnect handler. *)
Definition initial (connection_id : Z) : t :=
  mk (PduParser.initial connection_id false) PduFramer.initial false
     PduParser.invalid_slab_handle None 0.

(** The two sides of the connection, and the allocator of the chunks that are
    sent. *)
Record World := mk_world {
  inbound : PduParser.World A;
  outbound : PduFramer.World;
  sender : B
}.

Definition state : Type := World * t.

Definition self : comp state t := on_snd (gets (λ h, h)).

Definition on_parser {X} (m : comp (PduParser.state A) X) : comp state X := λ st,
  let r := m (inbound st.1, parser_ st.2) in
  ((mk_world r.1.1 (outbound st.1) (sender st.1),
    mk r.1.2 (framer_ st.2) (current_allocator_ st.2) (current_slab_id_ st.2)
       (current_chunk_ptr_ st.2) (current_total_bytes_ st.2)), r.2).

Definition on_framer {X} (m : comp PduFramer.state X) : comp state X := λ st,
  let r := m (outbound st.1, framer_ st.2) in
  ((mk_world (inbound st.1) r.1.1 (sender st.1),
    mk (parser_ st.2) r.1.2 (current_allocator_ st.2) (current_slab_id_ st.2)
       (current_chunk_ptr_ st.2) (current_total_bytes_ st.2)), r.2).

Definition on_sender {X} (m : comp B X) : comp state X := λ st,
  let r := m (sender st.1) in ((mk_world (inbound st.1) (outbound st.1) r.1, st.2), r.2).

Definition set_current (allocator : bool) (slab_id : Z) (chunk : option Z) (total : Z) (h : t) : t :=
  mk (parser_ h) (framer_ h) allocator slab_id chunk total.

Definition forget (c : Z) (w : World) : World :=
  mk_world (inbound w)
    (PduFramer.mk_world (PduFramer.socket (outbound w)) (delete c (PduFramer.chunks (outbound w))))
    (sender w).

(** [PduProtocolHandler::release_pending_send]. *)
Definition release_pending_send : comp state unit :=
  h ← self;
  if current_allocator_ h : bool then
    match current_chunk_ptr_ h with
    | None => throw PreconditionAssertion
    | Some c =>
        on_sender (deallocate (current_slab_id_ h) c);;
        on_fst (modify (forget c));;
        on_snd (modify (set_current false PduParser.invalid_slab_handle None 0))
    end
  else mret ().

Definition has_pending_send (h : t) : bool := PduFramer.has_pending_data (framer_ h).

(** What [send_prebuilt] and [continue_send] do with the framer's answer. *)
Definition after_send (r : answer) : comp state answer :=
  if negb r.1 then release_pending_send;; mret (false, r.2)
  else
    pending ← on_snd (gets has_pending_send);
    (if negb pending then release_pending_send else mret ());;
    mret (true, EmptyString).

(** [PduProtocolHandler::send_prebuilt]; [allocator] says whether the pointer to
    the allocator is there. *)
Definition send_prebuilt (allocator : bool) (slab_id : Z) (chunk_ptr : option Z) (total_bytes : Z)
    : comp state answer :=
  if negb allocator then throw PreconditionAssertion
  else
    match chunk_ptr with
    | None => throw PreconditionAssertion
    | Some c =>
        on_snd (modify (set_current true slab_id (Some c) total_bytes));;
        r ← on_framer (PduFramer.send_prebuilt (Some c) total_bytes);
        after_send r
    end.

(** [PduProtocolHandler::continue_send]. *)
Definition continue_send : comp state answer :=
  r ← on_framer PduFramer.continue_send;
  after_send r.

(** [PduProtocolHandler::on_data_ready]: the answer of the parser, and no
    request to pause. *)
Definition on_data_ready : comp state (bool * string * bool) :=
  r ← on_parser PduParser.receive;
  mret (r.1, r.2, false).

(** [PduProtocolHandler::deallocate_pending_send]. *)
Definition deallocate_pending_send : comp state unit := release_pending_send.

(** What [InboundConnectionManager::teardown_connection] does with the handler
    before it destroys it.  The destructors of the parser and of the framer do
    nothing. *)
Definition teardown : comp state unit :=
  pending ← on_snd (gets has_pending_send);
  if pending : bool then deallocate_pending_send else mret ().

End handler.
Arguments World : clear implicits.
Arguments state : clear implicits.
End PduProtocolHandler.
