(* ===== verification/SlabAllocator.v ===== *)
(** The slab allocator of the framing layer: libraries/pubsub_itc_fw,
    SlabHandle.hpp, SlabAllocator.cpp, EmptySlabQueue.cpp and
    ExpandableSlabAllocator.cpp.

    One thread allocates; any thread gives chunks back.  The definitions are the
    atomic operations of the code, and a thread is where it is between two of
    them ([Reactor] and [Worker]), so that a run is any interleaving of their
    steps ([step]).  Memory is sequentially consistent.  A slab is an object with
    an identity of its own, and to follow a pointer to one that was deleted is
    [UndefinedBehaviour].  A slab's memory lies at an address of its own, the
    identity times the size of a slab.  The tripwire of the drain loop, which
    reads the clock, is left out. *)

From stdpp Require Import gmap.
From S2P Require Import Prelude.
#[local] Open Scope Z_scope.
#[local] Open Scope venue_scope.

(** ** Handles *)

Definition invalid_slab_handle : Z := 2 ^ 64 - 1.

Definition make_slab_handle (slot generation : Z) : Z :=
  Z.lor (Z.shiftl generation 32) (slot mod 2 ^ 32).

Definition slab_handle_slot (handle : Z) : Z :=
  let low := Z.land handle 0xFFFFFFFF in
  if low <? 2 ^ 31 then low else low - 2 ^ 32.

Definition slab_handle_generation (handle : Z) : Z := Z.shiftr handle 32.

(** ** A slab *)

(** What a pointer to a queue node points at: the queue's own, or the one in a
    slab. *)
Inductive Node := Dummy | SlabNode (slab : nat).

#[export] Instance Node_eq_dec : EqDecision Node.
Proof. solve_decision. Defined.

Module SlabAllocator.

Definition alignment : Z := 16.

Record t := mk {
  slab_id_ : Z;
  bump_ : Z;
  references_ : Z;
  is_current_ : bool;
  next : option Node
}.

Definition initial (slab_id : Z) : t := mk slab_id 0 1 true None.

Definition aligned (bump : Z) : Z := Z.land (bump + alignment - 1) (Z.lnot (alignment - 1)).

(** [SlabAllocator::allocate]: the offset of the chunk, or the null pointer. *)
Definition allocate (slab_size size : Z) (s : t) : t * option Z :=
  let aligned_bump := aligned (bump_ s) in
  let new_bump := aligned_bump + size in
  if slab_size <? new_bump then (s, None)
  else (mk (slab_id_ s) new_bump (references_ s + 1) (is_current_ s) (next s), Some aligned_bump).

(** The [fetch_sub] of [SlabAllocator::deallocate] and of [stop_being_current]:
    the count there was. *)
Definition fetch_sub (s : t) : t * Z :=
  (mk (slab_id_ s) (bump_ s) (references_ s - 1) (is_current_ s) (next s), references_ s).

Definition outstanding_count (s : t) : Z := references_ s - (if is_current_ s then 1 else 0).

Definition reset (s : t) : t := mk (slab_id_ s) 0 (references_ s) (is_current_ s) (next s).

(** [SlabAllocator::stop_being_current]. *)
Definition stop_being_current (s : t) : outcome (t * bool) :=
  if negb (is_current_ s) then Throws PreconditionAssertion
  else
    let r := fetch_sub (mk (slab_id_ s) (bump_ s) (references_ s) false (next s)) in
    Returns (r.1, r.2 =? 1).

Definition set_next (n : option Node) (s : t) : t :=
  mk (slab_id_ s) (bump_ s) (references_ s) (is_current_ s) n.

End SlabAllocator.

(** ** The chain of slabs *)

Module ExpandableSlabAllocator.
Import SlabAllocator.

Definition page_bits : Z := 8.
Definition page_size : Z := 256.
Definition max_pages : Z := 1024.

(** The registry of slots: which slab is in one, its generation, and the list
    of the free ones. *)
Record Registry := mk_registry {
  pages_ : gset Z;
  slots : gmap Z nat;
  generations : gmap Z Z;
  next_free : gmap Z Z;
  free_slot_head_ : Z;
  free_slot_count_ : Z;
  slab_slot_count_ : Z
}.

(** The queue of empty slabs; the other nodes are in the slabs. *)
Record Queue := mk_queue {
  dummy_next : option Node;
  head_ : Node;
  tail_ : Node
}.

(** [heap] has the slabs that are not deleted, [fresh] the identity of the next
    one, and [mmaps] how many more the kernel gives memory to. *)
Record t := mk {
  slab_size_ : Z;
  current_slab_slot_ : Z;
  current_slab_generation_ : Z;
  deferred_reclaim_slot_ : Z;
  empty_slab_queue_ : Queue;
  registry : Registry;
  heap : gmap nat SlabAllocator.t;
  fresh : nat;
  mmaps : nat
}.

Definition set_heap (h : gmap nat SlabAllocator.t) (a : t) : t :=
  mk (slab_size_ a) (current_slab_slot_ a) (current_slab_generation_ a) (deferred_reclaim_slot_ a)
     (empty_slab_queue_ a) (registry a) h (fresh a) (mmaps a).
Definition set_queue (q : Queue) (a : t) : t :=
  mk (slab_size_ a) (current_slab_slot_ a) (current_slab_generation_ a) (deferred_reclaim_slot_ a)
     q (registry a) (heap a) (fresh a) (mmaps a).
Definition set_registry (r : Registry) (a : t) : t :=
  mk (slab_size_ a) (current_slab_slot_ a) (current_slab_generation_ a) (deferred_reclaim_slot_ a)
     (empty_slab_queue_ a) r (heap a) (fresh a) (mmaps a).
Definition set_deferred (slot : Z) (a : t) : t :=
  mk (slab_size_ a) (current_slab_slot_ a) (current_slab_generation_ a) slot
     (empty_slab_queue_ a) (registry a) (heap a) (fresh a) (mmaps a).

Definition slab (a : t) (u : nat) : outcome SlabAllocator.t :=
  match heap a !! u with Some s => Returns s | None => Throws UndefinedBehaviour end.

Definition put (u : nat) (s : SlabAllocator.t) (a : t) : t := set_heap (<[u := s]> (heap a)) a.

(** [load_slab_reactor]. *)
Definition load_slab_reactor (a : t) (slot : Z) : outcome nat :=
  if bool_decide (Z.shiftr slot page_bits ∈ pages_ (registry a)) then
    match slots (registry a) !! slot with Some u => Returns u | None => Throws UndefinedBehaviour end
  else Throws UndefinedBehaviour.

(** *** The queue *)

(** The [next] of a node, and storing it. *)
Definition load_next (a : t) (n : Node) : outcome (option Node) :=
  match n with
  | Dummy => Returns (dummy_next (empty_slab_queue_ a))
  | SlabNode u => let! s := slab a u in Returns (next s)
  end.

Definition store_next (n : Node) (v : option Node) (a : t) : outcome t :=
  match n with
  | Dummy => Returns (set_queue (mk_queue v (head_ (empty_slab_queue_ a)) (tail_ (empty_slab_queue_ a))) a)
  | SlabNode u => let! s := slab a u in Returns (put u (set_next v s) a)
  end.

(** [EmptySlabQueue::enqueue] up to its exchange: the node that was last. *)
Definition enqueue_exchange (u : nat) (a : t) : outcome (t * Node) :=
  let! a1 := store_next (SlabNode u) None a in
  let q := empty_slab_queue_ a1 in
  Returns (set_queue (mk_queue (dummy_next q) (head_ q) (SlabNode u)) a1, tail_ q).

(** Its last store. *)
Definition enqueue_link (prev : Node) (u : nat) (a : t) : outcome t :=
  store_next prev (Some (SlabNode u)) a.

(** [EmptySlabQueue::try_dequeue] up to its first load: the slab id it finds. *)
Definition try_dequeue_next (a : t) : outcome (option (Z * t)) :=
  let q := empty_slab_queue_ a in
  let! n := load_next a (head_ q) in
  match n with
  | None => Returns None
  | Some n =>
      match n with
      | Dummy => Throws UndefinedBehaviour
      | SlabNode u =>
          let! s := slab a u in
          Returns (Some (slab_id_ s, set_queue (mk_queue (dummy_next q) n (tail_ q)) a))
      end
  end.

(** Its second load: is the queue empty? *)
Definition try_dequeue_empty (a : t) : bool :=
  bool_decide (tail_ (empty_slab_queue_ a) = head_ (empty_slab_queue_ a)).

(** *** Reclaiming *)

(** What the drain loop takes of the ids it gets. *)
Definition collect (a : t) (ids : list Z) (slab_id : Z) : list Z :=
  if (0 <=? slab_id) && (slab_id <? slab_slot_count_ (registry a)) then ids ++ [slab_id] else ids.

(** After the loop: the last one taken is held over, the one held over before
    is reclaimed. *)
Definition defer (a : t) (ids_to_reclaim : list Z) : t * list Z :=
  match last ids_to_reclaim with
  | None => (a, [])
  | Some new_deferred =>
      let rest := take (length ids_to_reclaim - 1) ids_to_reclaim in
      (set_deferred new_deferred a,
       if 0 <=? deferred_reclaim_slot_ a then rest ++ [deferred_reclaim_slot_ a] else rest)
  end.

Definition generation (r : Registry) (slot : Z) : Z := default 0 (generations r !! slot).

(** [release_slot]; the generation is 32 bits wide. *)
Definition release_slot (slot : Z) (r : Registry) : Registry :=
  mk_registry (pages_ r) (slots r)
    (<[slot := (generation r slot + 1) mod 2 ^ 32]> (generations r))
    (<[slot := free_slot_head_ r]> (next_free r)) slot (free_slot_count_ r + 1) (slab_slot_count_ r).

(** The turn of the last loop of [drain_empty_slab_queue] for one id. *)
Definition reclaim (id : Z) (a : t) : outcome t :=
  if id =? current_slab_slot_ a then Throws PubSubItcException
  else
    let! u := load_slab_reactor a id in
    let! _ := slab a u in
    let r := registry a in
    let r1 := mk_registry (pages_ r) (delete id (slots r)) (generations r) (next_free r)
                (free_slot_head_ r) (free_slot_count_ r) (slab_slot_count_ r) in
    Returns (set_registry (release_slot id r1) (set_heap (delete u (heap a)) a)).

(** *** Chaining *)

(** The slot of [append_new_slab]: a free one, or one never used. *)
Definition claim_slot (r : Registry) : outcome (Registry * Z) :=
  if 0 <=? free_slot_head_ r then
    let new_id := free_slot_head_ r in
    Returns (mk_registry (pages_ r) (slots r) (generations r) (next_free r)
               (default (-1) (next_free r !! new_id)) (free_slot_count_ r - 1) (slab_slot_count_ r),
             new_id)
  else if max_pages * page_size <=? slab_slot_count_ r then Throws PubSubItcException
  else
    Returns (mk_registry (pages_ r) (slots r) (generations r) (next_free r)
               (free_slot_head_ r) (free_slot_count_ r) (slab_slot_count_ r + 1),
             slab_slot_count_ r).

(** The rest of [append_new_slab]: the new slab is published and is current. *)
Definition publish_new_slab (a : t) : outcome t :=
  let! claimed := claim_slot (registry a) in
  let '(r, new_id) := claimed : Registry * Z in
  match mmaps a with
  | O => Throws BadAlloc
  | S left_ =>
      let r1 := mk_registry ({[ Z.shiftr new_id page_bits ]} ∪ pages_ r) (<[new_id := fresh a]> (slots r))
                  (generations r) (next_free r) (free_slot_head_ r) (free_slot_count_ r)
                  (slab_slot_count_ r) in
      Returns (mk (slab_size_ a) new_id (generation r1 new_id) (deferred_reclaim_slot_ a)
                 (empty_slab_queue_ a) r1 (<[fresh a := SlabAllocator.initial new_id]> (heap a))
                 (S (fresh a)) left_)
  end.

(** [ExpandableSlabAllocator::deallocate] up to the slab: the slab pointer, and
    then the check of the generation. *)
Definition find_slab (handle : Z) (a : t) : outcome nat :=
  let slot := slab_handle_slot handle in
  if (slot <? 0) || (max_pages * page_size <=? slot) then Throws PreconditionAssertion
  else if negb (bool_decide (Z.shiftr slot page_bits ∈ pages_ (registry a))) then
    Throws PreconditionAssertion
  else
    match slots (registry a) !! slot with
    | None => Throws PreconditionAssertion
    | Some u => Returns u
    end.

Definition check_generation (handle : Z) (a : t) : outcome unit :=
  if generation (registry a) (slab_handle_slot handle) =? slab_handle_generation handle
  then Returns () else Throws PreconditionAssertion.

(** The constructor. *)
Definition empty (slab_size : Z) (mmaps : nat) : t :=
  mk slab_size (-1) 0 (-1) (mk_queue None Dummy Dummy)
     (mk_registry ∅ ∅ ∅ ∅ (-1) 0 0) ∅ 0 mmaps.

Definition create (slab_size : Z) (mmaps : nat) : outcome t :=
  if slab_size =? 0 then Throws PreconditionAssertion
  else publish_new_slab (empty slab_size mmaps).

(** The address of a chunk in the memory of its slab. *)
Definition address (a : t) (u : nat) (offset : Z) : Z := (Z.of_nat u + 1) * slab_size_ a + offset.

End ExpandableSlabAllocator.

(** ** The threads *)

Module SlabThreads.
Import SlabAllocator.
Import ExpandableSlabAllocator.

(** A chunk: what [allocate] returns, and where it lies. *)
Record Chunk := mk_chunk {
  handle : Z;
  chunk_slab : nat;
  chunk_offset : Z;
  chunk_size : Z
}.

#[export] Instance Chunk_eq_dec : EqDecision Chunk.
Proof. solve_decision. Defined.

(** Where the allocating thread is in [allocate]: in the loop of the drain,
    before the first and before the second load of [try_dequeue]; in the loop
    that reclaims; before it looks whether the current slab is empty; before it
    allocates from it; in [append_new_slab], before it gives up the old slab,
    before the exchange and before the store of [enqueue], and before it
    publishes the new slab. *)
Inductive Reactor :=
  | Idle
  | DrainNext (size : Z) (ids : list Z)
  | DrainTail (size : Z) (ids : list Z)
  | Reclaim (size : Z) (ids : list Z)
  | SelfReclaim (size : Z)
  | Bump (size : Z)
  | Retire (size : Z)
  | QueueOld (size : Z) (u : nat)
  | LinkOld (size : Z) (prev : Node) (u : nat)
  | Append (size : Z).

(** Where a thread is that gives a chunk back: before it loads the slab, before
    it loads the generation, before it counts the chunk off, and, if it was the
    last one, before it clears the node, before the exchange and before the
    store of [enqueue]. *)
Inductive Worker :=
  | FindSlab (c : Chunk)
  | CheckGeneration (c : Chunk) (u : nat)
  | FreeChunk (c : Chunk) (u : nat)
  | ClearNext (u : nat)
  | QueueSlab (u : nat)
  | LinkSlab (prev : Node) (u : nat).

(** The allocator and the threads; [held] are the chunks given out and not yet
    counted off. *)
Record System := mk_system {
  allocator : t;
  reactor : Reactor;
  workers : gmap nat Worker;
  held : list Chunk
}.

Definition reactor_at (s : System) (a : t) (pc : Reactor) : System :=
  mk_system a pc (workers s) (held s).

Definition worker_at (s : System) (i : nat) (a : t) (pc : option Worker) : System :=
  mk_system a (reactor s) (partial_alter (λ _, pc) i (workers s)) (held s).

(** The start of [ExpandableSlabAllocator::allocate]. *)
Definition start_allocate (size : Z) (s : System) : outcome System :=
  if size =? 0 then Throws PreconditionAssertion
  else if slab_size_ (allocator s) <? size then Throws PreconditionAssertion
  else Returns (reactor_at s (allocator s) (DrainNext size [])).

(** [allocate] from the current slab [u], and what is returned. *)
Definition allocate_from (u : nat) (size : Z) (s : System) (full : Reactor) : outcome System :=
  let a := allocator s in
  let! sl := slab a u in
  match SlabAllocator.allocate (slab_size_ a) size sl with
  | (_, None) => Returns (reactor_at s a full)
  | (sl', Some offset) =>
      let c := mk_chunk (make_slab_handle (current_slab_slot_ a) (current_slab_generation_ a))
                 u offset size in
      Returns (mk_system (put u sl' a) Idle (workers s) (c :: held s))
  end.

(** One step of the allocating thread. *)
Definition reactor_step (s : System) : outcome System :=
  let a := allocator s in
  match reactor s with
  | Idle => Returns s
  | DrainNext size ids =>
      let! found := try_dequeue_next a in
      match found with
      | Some (slab_id, a') => Returns (reactor_at s a' (DrainNext size (collect a' ids slab_id)))
      | None => Returns (reactor_at s a (DrainTail size ids))
      end
  | DrainTail size ids =>
      if try_dequeue_empty a then
        let '(a', ids') := defer a ids in Returns (reactor_at s a' (Reclaim size ids'))
      else Returns (reactor_at s a (DrainNext size ids))
  | Reclaim size [] => Returns (reactor_at s a (SelfReclaim size))
  | Reclaim size (id :: ids) =>
      let! a' := reclaim id a in Returns (reactor_at s a' (Reclaim size ids))
  | SelfReclaim size =>
      let! u := load_slab_reactor a (current_slab_slot_ a) in
      let! sl := slab a u in
      Returns (reactor_at s (if outstanding_count sl =? 0 then put u (reset sl) a else a) (Bump size))
  | Bump size =>
      let! u := load_slab_reactor a (current_slab_slot_ a) in
      allocate_from u size s (Retire size)
  | Retire size =>
      let! u := load_slab_reactor a (current_slab_slot_ a) in
      let! sl := slab a u in
      let! r := stop_being_current sl in
      Returns (reactor_at s (put u r.1 a) (if r.2 : bool then QueueOld size u else Append size))
  | QueueOld size u =>
      let! r := enqueue_exchange u a in
      Returns (reactor_at s r.1 (LinkOld size r.2 u))
  | LinkOld size prev u =>
      let! a' := enqueue_link prev u a in Returns (reactor_at s a' (Append size))
  | Append size =>
      let! a' := publish_new_slab a in
      let! u := load_slab_reactor a' (current_slab_slot_ a') in
      let! sl := slab a' u in
      match SlabAllocator.allocate (slab_size_ a') size sl with
      | (_, None) => Throws PubSubItcException
      | _ => allocate_from u size (reactor_at s a' Idle) Idle
      end
  end.

(** One step of a thread that gives a chunk back. *)
Definition worker_step (i : nat) (s : System) : outcome System :=
  let a := allocator s in
  match workers s !! i with
  | None => Returns s
  | Some (FindSlab c) =>
      let! u := find_slab (handle c) a in Returns (worker_at s i a (Some (CheckGeneration c u)))
  | Some (CheckGeneration c u) =>
      let! _ := check_generation (handle c) a in Returns (worker_at s i a (Some (FreeChunk c u)))
  | Some (FreeChunk c u) =>
      let! sl := slab a u in
      let '(sl', old) := fetch_sub sl in
      Returns (mk_system (put u sl' a) (reactor s)
                 (partial_alter (λ _, if old =? 1 then Some (ClearNext u) else None) i (workers s))
                 (filter (λ d, d ≠ c) (held s)))
  | Some (ClearNext u) =>
      let! a' := store_next (SlabNode u) None a in Returns (worker_at s i a' (Some (QueueSlab u)))
  | Some (QueueSlab u) =>
      let! r := enqueue_exchange u a in Returns (worker_at s i r.1 (Some (LinkSlab r.2 u)))
  | Some (LinkSlab prev u) =>
      let! a' := enqueue_link prev u a in Returns (worker_at s i a' None)
  end.

(** What may happen next: a call of [allocate] or of [deallocate], or a step of
    a thread that is in one. *)
Inductive action :=
  | Allocate (size : Z)
  | Deallocate (i : nat) (c : Chunk)
  | ReactorStep
  | WorkerStep (i : nat).

Definition step (x : action) (s : System) : outcome System :=
  match x with
  | Allocate size => start_allocate size s
  | Deallocate i c => Returns (worker_at s i (allocator s) (Some (FindSlab c)))
  | ReactorStep => reactor_step s
  | WorkerStep i => worker_step i s
  end.

(** The chunk a thread is about to count off. *)
Definition freeing (w : Worker) : option Chunk :=
  match w with
  | FindSlab c | CheckGeneration c _ | FreeChunk c _ => Some c
  | _ => None
  end.

(** What the callers keep to: one thread allocates, within the size of a slab,
    and a chunk is given back once, by someone who has it. *)
Definition permitted (x : action) (s : System) : Prop :=
  match x with
  | Allocate size => reactor s = Idle ∧ 0 < size ≤ slab_size_ (allocator s)
  | Deallocate i c =>
      workers s !! i = None ∧ c ∈ held s ∧ ∀ j w, workers s !! j = Some w → freeing w ≠ Some c
  | _ => True
  end.

(** The systems that an allocator can come to, with its threads in any order. *)
Inductive reachable (slab_size : Z) (mmaps : nat) : System → Prop :=
  | reachable_start a :
      create slab_size mmaps = Returns a → reachable slab_size mmaps (mk_system a Idle ∅ [])
  | reachable_step x s s' :
      reachable slab_size mmaps s → permitted x s → step x s = Returns s' →
      reachable slab_size mmaps s'.

End SlabThreads.
