(* ===== verification/SlabAllocatorQueue.v ===== *)
(** The queue of empty slabs, with threads in the middle of an enqueue: what is
    on it, what was taken off it and is kept until the next drain, and that
    every step of a producer and of the consumer keeps it so. *)

From stdpp Require Import gmap.
From S2P Require Import Prelude.
From S2P Require Import SlabAllocator.
#[local] Open Scope Z_scope.
#[local] Open Scope venue_scope.
Import SlabAllocator ExpandableSlabAllocator SlabThreads.

(** ** Neighbours in a list *)

Definition follows {A} (x y : A) (l : list A) : Prop :=
  ∃ i : nat, l !! i = Some x ∧ l !! S i = Some y.

Lemma follows_elem {A} (x y : A) l : follows x y l → x ∈ l ∧ y ∈ tail l.
Proof.
  intros (i & Hx & Hy). split; [by eapply list_elem_of_lookup_2|].
  apply (list_elem_of_lookup_2 _ i). by destruct l.
Qed.

Lemma follows_snoc {A} (x y z w : A) l :
  last l = Some w → follows x y (l ++ [z]) → follows x y l ∨ x = w ∧ y = z.
Proof.
  rewrite last_lookup. intros Hw (i & Hx & Hy).
  destruct (decide (S i < length l)%nat) as [Hl|Hl].
  - left. exists i. rewrite lookup_app_l in Hx, Hy by lia. done.
  - right. assert (S i = length l) as Hi.
    { apply lookup_lt_Some in Hy. rewrite length_app in Hy. cbn in Hy. lia. }
    rewrite lookup_app_l in Hx by lia. rewrite lookup_app_r, Hi, Nat.sub_diag in Hy by lia.
    rewrite <- Hi in Hw. cbn in Hw, Hy. by simplify_eq.
Qed.

Lemma follows_app {A} (x y : A) l k : follows x y l → follows x y (l ++ k).
Proof.
  intros (i & Hx & Hy). exists i.
  by rewrite (lookup_app_l_Some _ _ _ _ Hx), (lookup_app_l_Some _ _ _ _ Hy).
Qed.

Lemma follows_last {A} (z w : A) l : last l = Some w → follows w z (l ++ [z]).
Proof.
  rewrite last_lookup. intros Hw. pose proof (lookup_lt_Some _ _ _ Hw) as Hl.
  exists (Nat.pred (length l)). rewrite (lookup_app_l_Some _ _ _ _ Hw). split; [done|].
  rewrite lookup_app_r by lia. by replace (S (Nat.pred (length l)) - length l)%nat with 0%nat by lia.
Qed.

Lemma follows_cons {A} (x y a b : A) l :
  follows x y (a :: b :: l) → x = a ∧ y = b ∨ follows x y (b :: l).
Proof. intros ([|i] & Hx & Hy); simplify_eq/=; [by left|]. right. by exists i. Qed.

Lemma follows_tail {A} (x y a : A) l : follows x y l → follows x y (a :: l).
Proof. intros (i & Hx & Hy). by exists (S i). Qed.

Lemma follows_unique {A} (x y z : A) l : NoDup l → follows x y l → follows x z l → y = z.
Proof.
  intros Hn (i & Hi & Hy) (j & Hj & Hz).
  assert (i = j) as -> by (by eapply NoDup_lookup). by simplify_eq.
Qed.

(** The last one is followed by nothing. *)
Lemma last_not_followed {A} (x y : A) l : NoDup l → last l = Some x → ¬ follows x y l.
Proof.
  rewrite last_lookup. intros Hn Hl (i & Hi & Hy).
  assert (i = Nat.pred (length l)) as -> by (by eapply NoDup_lookup).
  apply lookup_lt_Some in Hy. lia.
Qed.

(** ** The queue *)

(** What a pointer's node has in [next], if it is there. *)
Definition next_at (a : t) (n : Node) : option (option Node) :=
  match n with
  | Dummy => Some (dummy_next (empty_slab_queue_ a))
  | SlabNode u => next <$> heap a !! u
  end.

Definition id_of (a : t) (u : nat) : option Z := slab_id_ <$> heap a !! u.

(** A slab that nobody holds: no chunk, and it is not current. *)
Definition emptied (a : t) (u : nat) : Prop := ∃ s, heap a !! u = Some s ∧ references_ s = 0.

(** A thread that puts a slab on the queue: before its exchange, or between the
    exchange and the store. *)
Inductive Enqueuing := Before (u : nat) | Linking (prev : Node) (u : nat).

Definition carried (e : Enqueuing) : nat := match e with Before u => u | Linking _ u => u end.

Definition agents : Type := option nat → option Enqueuing.

(** [q] is the queue from its head; [zs] are the slots of the slabs that were
    taken off it and are not deleted, the last of them the head's. *)
Record queue_ok (a : t) (ag : agents) (zs : list Z) (q : list Node) : Prop := {
  qo_head : head q = Some (head_ (empty_slab_queue_ a));
  qo_last : last q = Some (tail_ (empty_slab_queue_ a));
  qo_nodup : NoDup q;
  qo_link n m : follows n m q →
    next_at a n = Some (Some m) ∨
    next_at a n = Some None ∧ ∃ x u, m = SlabNode u ∧ ag x = Some (Linking n u);
  qo_end : next_at a (tail_ (empty_slab_queue_ a)) = Some None;
  qo_queued n : n ∈ tail q → ∃ u id, n = SlabNode u ∧ emptied a u ∧ id_of a u = Some id ∧ id ∉ zs;
  qo_agent x e : ag x = Some e →
    emptied a (carried e) ∧ (∀ id, id_of a (carried e) = Some id → id ∉ zs) ∧
    match e with
    | Before u => SlabNode u ∉ q
    | Linking p u => follows p (SlabNode u) q ∧ next_at a p = Some None
    end;
  qo_unique x y e f : ag x = Some e → ag y = Some f → carried e = carried f → x = y;
  qo_zombies : NoDup zs;
  qo_zombie id : id ∈ zs → ∃ u, id_of a u = Some id ∧ emptied a u;
  qo_top : match head_ (empty_slab_queue_ a) with
           | Dummy => zs = []
           | SlabNode u => ∃ id, last zs = Some id ∧ id_of a u = Some id ∧ emptied a u
           end;
  qo_all u : emptied a u →
    SlabNode u ∈ tail q ∨ (∃ id, id_of a u = Some id ∧ id ∈ zs) ∨ ∃ x, ag x = Some (Before u)
}.

(** The slots tell the slabs apart. *)
Definition ids_distinct (a : t) : Prop :=
  ∀ u v id, id_of a u = Some id → id_of a v = Some id → u = v.

(** What is on the queue, on its way to it or off it is empty. *)
Lemma queue_emptied a ag zs q u : queue_ok a ag zs q → SlabNode u ∈ q → emptied a u.
Proof.
  intros Hq Hu. destruct q as [|n q]; [set_solver|]. apply elem_of_cons in Hu as [<-|Hu].
  - pose proof (qo_head _ _ _ _ Hq) as Hh. cbn in Hh. pose proof (qo_top _ _ _ _ Hq) as Ht.
    simplify_eq. rewrite <- Hh in Ht. by destruct Ht as (id & _ & _ & He).
  - by destruct (qo_queued _ _ _ _ Hq _ Hu) as (v & id & Hv & He & _); simplify_eq.
Qed.

(** The same queue, seen in another memory or with the threads renamed. *)
Lemma queue_view a a' ag ag' zs q :
  queue_ok a ag zs q →
  head_ (empty_slab_queue_ a') = head_ (empty_slab_queue_ a) →
  tail_ (empty_slab_queue_ a') = tail_ (empty_slab_queue_ a) →
  (∀ n, n ∈ q → next_at a' n = next_at a n) → (∀ u, emptied a' u ↔ emptied a u) →
  (∀ u, emptied a u → id_of a' u = id_of a u) → (∀ x, ag' x = ag x) → queue_ok a' ag' zs q.
Proof.
  intros Hq Hhd Htl Hnx Hem Hid Ha.
  assert (Hin : tail_ (empty_slab_queue_ a) ∈ q) by (apply last_Some_elem_of, (qo_last _ _ _ _ Hq)).
  split; rewrite ?Hhd, ?Htl; try apply Hq.
  - intros n m Hf. rewrite Hnx by (by apply follows_elem in Hf as []).
    destruct (qo_link _ _ _ _ Hq _ _ Hf) as [|(Hn & x & u & Hm & Hx)]; [by left|right].
    split; [done|]. exists x, u. by rewrite Ha.
  - rewrite Hnx by done. apply Hq.
  - intros n Hn. destruct (qo_queued _ _ _ _ Hq _ Hn) as (u & id & -> & Hu & Hi & Hz).
    exists u, id. by rewrite Hem, Hid.
  - intros x e. rewrite Ha. intros Hx. destruct (qo_agent _ _ _ _ Hq _ _ Hx) as (Hu & Hz & Hm).
    rewrite Hem, Hid by done. split_and!; [done..|]. destruct e; [done|]. destruct Hm as [Hf Hn].
    by rewrite Hnx by (by apply follows_elem in Hf as []).
  - intros x y e f. rewrite !Ha. apply Hq.
  - intros id Hz. destruct (qo_zombie _ _ _ _ Hq _ Hz) as (u & Hu & Hm). exists u. by rewrite Hid, Hem.
  - pose proof (qo_top _ _ _ _ Hq) as Ht. destruct (head_ (empty_slab_queue_ a)); [done|].
    destruct Ht as (id & Hl & Hi & Hm). exists id. by rewrite Hid, Hem.
  - intros u Hu. apply Hem in Hu. destruct (qo_all _ _ _ _ Hq _ Hu) as [|[(id & Hi & Hz)|(x & Hx)]].
    + by left.
    + right; left. exists id. by rewrite Hid.
    + right; right. exists x. by rewrite Ha.
Qed.

(** The slabs that hold something may change. *)
Lemma queue_frame a a' ag ag' zs q :
  queue_ok a ag zs q → empty_slab_queue_ a' = empty_slab_queue_ a →
  (∀ u s, heap a !! u = Some s → references_ s = 0 → heap a' !! u = Some s) →
  (∀ u, emptied a' u → emptied a u) → (∀ x, ag' x = ag x) → queue_ok a' ag' zs q.
Proof.
  intros Hq He Hk Hb Ha. eapply queue_view; [exact Hq|by rewrite He|by rewrite He| | | |exact Ha].
  - intros [|u] Hn; cbn; [by rewrite He|].
    destruct (queue_emptied _ _ _ _ _ Hq Hn) as (s & Hs & Hr). by rewrite Hs, (Hk _ _ Hs Hr).
  - intros u. split; [apply Hb|]. intros (s & Hs & Hr). exists s. split; [by apply Hk|done].
  - intros u (s & Hs & Hr). unfold id_of. by rewrite Hs, (Hk _ _ Hs Hr).
Qed.

(** The slabs that were taken off in another order, with the same one last. *)
Lemma queue_reorder a a' ag zs zs' q :
  queue_ok a ag zs q → empty_slab_queue_ a' = empty_slab_queue_ a → heap a' = heap a →
  zs' ≡ₚ zs → last zs' = last zs → queue_ok a' ag zs' q.
Proof.
  intros Hq He Hh Hp Hl.
  assert (Hn : ∀ n, next_at a' n = next_at a n) by (intros [|u]; cbn; by rewrite ?He, ?Hh).
  assert (Hi : ∀ u, id_of a' u = id_of a u) by (intros u; unfold id_of; by rewrite Hh).
  assert (Hm : ∀ u, emptied a' u ↔ emptied a u) by (intros u; unfold emptied; by rewrite Hh).
  destruct Hq. split; rewrite ?He, ?Hn, ?Hp, ?Hl; try done.
  - intros n m Hf. rewrite Hn. auto.
  - intros n Hx. destruct (qo_queued0 n Hx) as (u & id & -> & Hu & Hid & Hz).
    exists u, id. by rewrite Hm, Hi, Hp.
  - intros x e Hx. destruct (qo_agent0 x e Hx) as (Hu & Hz & Hc). rewrite Hm. split_and!; [done| |].
    + intros id. rewrite Hi, Hp. auto.
    + destruct e; [done|]. by rewrite Hn.
  - intros id. rewrite Hp. intros Hz. destruct (qo_zombie0 id Hz) as (u & Hu & Hv). exists u.
    by rewrite Hm, Hi.
  - destruct (head_ _); [|destruct qo_top0 as (id & Hx & Hy & Hz); exists id; by rewrite Hi, Hm].
    subst zs. by apply Permutation_nil_r.
  - intros u. rewrite Hm. intros Hu. destruct (qo_all0 u Hu) as [|[(id & Hx & Hz)|]]; auto.
    right; left. exists id. by rewrite Hi, Hp.
Qed.

(** *** Storing the next of a slab *)

Section set_next.
Context (a : t) (u : nat) (sl : SlabAllocator.t) (v : option Node).
Context (Hu : heap a !! u = Some sl).

Lemma emptied_set_next w : emptied (put u (set_next v sl) a) w ↔ emptied a w.
Proof.
  unfold emptied. cbn. destruct (decide (u = w)) as [<-|Hne].
  - rewrite lookup_insert_eq. split; intros (s & Hs & Hr); simplify_eq; eexists; split; by try done.
  - by rewrite lookup_insert_ne.
Qed.

Lemma id_set_next w : id_of (put u (set_next v sl) a) w = id_of a w.
Proof.
  unfold id_of. cbn. destruct (decide (u = w)) as [<-|Hne].
  - by rewrite lookup_insert_eq, Hu.
  - by rewrite lookup_insert_ne.
Qed.

Lemma next_set_same : next_at (put u (set_next v sl) a) (SlabNode u) = Some v.
Proof. cbn. by rewrite lookup_insert_eq. Qed.

Lemma next_set_other n : n ≠ SlabNode u → next_at (put u (set_next v sl) a) n = next_at a n.
Proof. destruct n as [|w]; [done|]. intros Hn. cbn. rewrite lookup_insert_ne by congruence. done. Qed.

End set_next.

(** *** A producer *)

(** The exchange of [enqueue] makes the slab the last one, not yet linked. *)
Lemma exchange_node_ok a ag ag' x u zs q :
  queue_ok a ag zs q → ag x = Some (Before u) →
  ag' x = Some (Linking (tail_ (empty_slab_queue_ a)) u) → (∀ y, y ≠ x → ag' y = ag y) →
  ∃ sl, heap a !! u = Some sl ∧
    let a' := set_queue (mk_queue (dummy_next (empty_slab_queue_ a)) (head_ (empty_slab_queue_ a)) (SlabNode u))
                (put u (set_next None sl) a) in
    enqueue_exchange u a = Returns (a', tail_ (empty_slab_queue_ a)) ∧
    queue_ok a' ag' zs (q ++ [SlabNode u]).
Proof.
  intros Hq Hx Hx' Hy. pose proof (qo_agent _ _ _ _ Hq _ _ Hx) as ((sl & Hsl & Hr) & Hz & Hn).
  cbn [carried] in *. exists sl. split; [done|]. cbn zeta. split.
  { unfold enqueue_exchange, store_next, slab. rewrite Hsl. done. }
  set (a' := set_queue _ _).
  assert (Hem : ∀ w, emptied a' w ↔ emptied a w) by (apply (emptied_set_next a u sl None Hsl)).
  assert (Hid : ∀ w, id_of a' w = id_of a w) by (apply (id_set_next a u sl None Hsl)).
  assert (Hsame : next_at a' (SlabNode u) = Some None) by (cbn; by rewrite lookup_insert_eq).
  assert (Hoth : ∀ n, n ≠ SlabNode u → next_at a' n = next_at a n)
    by (intros [|w] Hw; [done|cbn; by rewrite lookup_insert_ne by congruence]).
  pose proof (qo_last _ _ _ _ Hq) as Hlast.
  assert (Hin : tail_ (empty_slab_queue_ a) ∈ q) by (by apply last_Some_elem_of).
  assert (Hqn : ∀ n, n ∈ q → next_at a' n = next_at a n) by (intros n Hnq; apply Hoth; set_solver).
  assert (Hne : q ≠ []) by (intros ->; done).
  split.
  - cbn. rewrite head_app. pose proof (qo_head _ _ _ _ Hq) as Hh. destruct q; [done|]. exact Hh.
  - cbn. by rewrite last_snoc.
  - apply NoDup_app. split_and!; [apply Hq| |by apply NoDup_singleton]. set_solver.
  - intros n m Hf. apply (follows_snoc _ _ _ _ _ Hlast) in Hf as [Hf|[-> ->]].
    + rewrite Hqn by (by apply follows_elem in Hf as []).
      destruct (qo_link _ _ _ _ Hq _ _ Hf) as [|(Hnn & y & w & Hm & Hyw)]; [by left|right].
      split; [done|]. exists y, w. split; [done|]. rewrite Hy; [done|]. intros ->. congruence.
    + right. rewrite Hqn by done. split; [apply Hq|]. by exists x, u.
  - done.
  - intros n. destruct q as [|n0 q]; [done|]. cbn. rewrite elem_of_app. intros [Hnq|Hnu].
    + destruct (qo_queued _ _ _ _ Hq n Hnq) as (w & id & -> & Hw & Hi & Hwz).
      exists w, id. by rewrite Hem, Hid.
    + apply list_elem_of_singleton in Hnu as ->. exists u, (slab_id_ sl). rewrite Hem, Hid.
      unfold id_of in *. cbn in Hz. rewrite Hsl in *. split_and!; try done; [by exists sl|by apply Hz].
  - intros y e He. destruct (decide (y = x)) as [->|Hyx].
    + rewrite Hx' in He. simplify_eq. cbn. rewrite Hem. setoid_rewrite Hid.
      split_and!; [by exists sl|done|by apply follows_last|]. rewrite Hqn by done. apply Hq.
    + rewrite Hy in He by done. destruct (qo_agent _ _ _ _ Hq _ _ He) as (He1 & He2 & He3).
      rewrite Hem. setoid_rewrite Hid. split_and!; [done|done|]. destruct e as [w|p w]; cbn in *.
      * rewrite not_elem_of_app. split; [done|]. intros Hwu. apply list_elem_of_singleton in Hwu. simplify_eq.
        apply Hyx. by apply (qo_unique _ _ _ _ Hq _ _ _ _ He Hx).
      * destruct He3 as [Hf Hnn]. split; [by apply follows_app|].
        by rewrite Hqn by (by apply follows_elem in Hf as []).
  - intros y z e f He Hf Hc.
    assert (Hback : ∀ y e, ag' y = Some e → ∃ e', ag y = Some e' ∧ carried e' = carried e).
    { intros y' e' He'. destruct (decide (y' = x)) as [->|Hyx].
      - rewrite Hx' in He'. simplify_eq. by exists (Before u).
      - rewrite Hy in He' by done. by exists e'. }
    destruct (Hback _ _ He) as (e' & He' & Hc1), (Hback _ _ Hf) as (f' & Hf' & Hc2).
    apply (qo_unique _ _ _ _ Hq _ _ _ _ He' Hf'). congruence.
  - apply Hq.
  - intros id Hi. setoid_rewrite Hem. setoid_rewrite Hid. by apply Hq.
  - cbn. pose proof (qo_top _ _ _ _ Hq) as Ht. destruct (head_ _); [done|].
    destruct Ht as (id & Ht). exists id. by rewrite Hid, Hem.
  - intros w. rewrite Hem. intros Hw. destruct q as [|n0 q]; [done|]. cbn. rewrite elem_of_app.
    destruct (qo_all _ _ _ _ Hq _ Hw) as [|[(id & Hi & Hzz)|(y & Hyw)]].
    + by left; left.
    + right; left. exists id. by rewrite Hid.
    + destruct (decide (y = x)) as [->|Hyx].
      * rewrite Hx in Hyw. simplify_eq. left; right. by apply list_elem_of_singleton.
      * right; right. exists y. by rewrite Hy.
Qed.

(** Clearing the link of a slab that is not on the queue yet. *)
Lemma queue_clear a ag ag' zs q v x u sl :
  queue_ok a ag zs q → heap a !! u = Some sl → ag x = Some (Before u) → (∀ y, ag' y = ag y) →
  queue_ok (put u (set_next v sl) a) ag' zs q.
Proof.
  intros Hq Hu Hx Ha. destruct (qo_agent _ _ _ _ Hq _ _ Hx) as (_ & _ & Hn).
  eapply queue_view; [exact Hq|done|done| | | |exact Ha].
  - intros n Hin. apply next_set_other. by intros ->.
  - by apply emptied_set_next.
  - intros w _. by apply id_set_next.
Qed.

(** The store of [enqueue] links it. *)
Lemma link_ok a ag ag' x p u zs q :
  queue_ok a ag zs q → ag x = Some (Linking p u) → ag' x = None → (∀ y, y ≠ x → ag' y = ag y) →
  ∃ a', enqueue_link p u a = Returns a' ∧ queue_ok a' ag' zs q ∧
    (∀ w, slab_id_ <$> heap a' !! w = slab_id_ <$> heap a !! w) ∧
    ((∃ v sl, p = SlabNode v ∧ heap a !! v = Some sl ∧ a' = put v (set_next (Some (SlabNode u)) sl) a) ∨
     p = Dummy ∧ a' = set_queue (mk_queue (Some (SlabNode u)) (head_ (empty_slab_queue_ a))
                                   (tail_ (empty_slab_queue_ a))) a).
Proof.
  intros Hq Hx Hx' Hy. pose proof (qo_agent _ _ _ _ Hq _ _ Hx) as (Hu & Hz & Hf & Hn).
  cbn [carried] in *.
  assert (∃ a', enqueue_link p u a = Returns a' ∧
    next_at a' p = Some (Some (SlabNode u)) ∧ (∀ n, n ≠ p → next_at a' n = next_at a n) ∧
    (∀ w, emptied a' w ↔ emptied a w) ∧ (∀ w, id_of a' w = id_of a w) ∧
    head_ (empty_slab_queue_ a') = head_ (empty_slab_queue_ a) ∧
    tail_ (empty_slab_queue_ a') = tail_ (empty_slab_queue_ a) ∧
    ((∃ v sl, p = SlabNode v ∧ heap a !! v = Some sl ∧ a' = put v (set_next (Some (SlabNode u)) sl) a) ∨
     p = Dummy ∧ a' = set_queue (mk_queue (Some (SlabNode u)) (head_ (empty_slab_queue_ a))
                                   (tail_ (empty_slab_queue_ a))) a))
    as (a' & Hl & Hsame & Hoth & Hem & Hid & Hhd & Htl & Hform).
  { destruct p as [|v]; unfold enqueue_link, store_next.
    - eexists. split; [reflexivity|]. split_and!; try done; [by intros [|w]|by right].
    - cbn in Hn. destruct (heap a !! v) as [sl|] eqn:Hv; [|done]. unfold slab. rewrite Hv.
      eexists. split; [reflexivity|]. split_and!; try done.
      + by apply next_set_same.
      + intros n Hnv. by apply next_set_other.
      + by apply emptied_set_next.
      + by apply id_set_next.
      + left. by exists v, sl. }
  exists a'. split; [done|]. split; [|split; [exact Hid|exact Hform]].
  pose proof (qo_nodup _ _ _ _ Hq) as Hnd.
  assert (Hb : ∀ y e, ag' y = Some e → ag y = Some e ∧ y ≠ x).
  { intros y e He. destruct (decide (y = x)) as [->|Hyx]; [congruence|]. by rewrite Hy in He. }
  split; rewrite ?Hhd, ?Htl; try apply Hq.
  - intros n m Hnm. destruct (decide (n = p)) as [->|Hnp].
    + rewrite (follows_unique _ _ _ _ Hnd Hnm Hf). by left.
    + rewrite Hoth by done.
      destruct (qo_link _ _ _ _ Hq _ _ Hnm) as [|(Hnn & y & w & Hm & Hyw)]; [by left|right].
      split; [done|]. exists y, w. split; [done|]. rewrite Hy; [done|]. intros ->. congruence.
  - rewrite Hoth; [apply Hq|]. intros Heq.
    by apply (last_not_followed p (SlabNode u) q Hnd); [rewrite <- Heq; apply Hq|].
  - intros n Hnq. destruct (qo_queued _ _ _ _ Hq n Hnq) as (w & id & -> & Hw & Hi & Hwz).
    exists w, id. by rewrite Hem, Hid.
  - intros y e He. destruct (Hb _ _ He) as [He' Hyx].
    destruct (qo_agent _ _ _ _ Hq _ _ He') as (He1 & He2 & He3).
    rewrite Hem. setoid_rewrite Hid. split_and!; [done|done|]. destruct e as [w|p' w]; [done|].
    destruct He3 as [Hf' Hn']. split; [done|]. rewrite Hoth; [done|]. intros ->.
    apply Hyx. apply (qo_unique _ _ _ _ Hq _ _ _ _ He' Hx). cbn.
    pose proof (follows_unique _ _ _ _ Hnd Hf' Hf). congruence.
  - intros y z e f He Hf'. apply Hb in He as [He _], Hf' as [Hf' _]. by apply (qo_unique _ _ _ _ Hq _ _ _ _ He Hf').
  - intros id Hi. setoid_rewrite Hem. setoid_rewrite Hid. by apply Hq.
  - pose proof (qo_top _ _ _ _ Hq) as Ht. destruct (head_ (empty_slab_queue_ a)); [done|].
    destruct Ht as (id & Ht). exists id. by rewrite Hid, Hem.
  - intros w. rewrite Hem. intros Hw.
    destruct (qo_all _ _ _ _ Hq _ Hw) as [|[(id & Hi & Hzz)|(y & Hyw)]]; [by left| |].
    + right; left. exists id. by rewrite Hid.
    + right; right. exists y. rewrite Hy; [done|]. intros ->. congruence.
Qed.

(** The slab that a thread counts the last chunk off, or gives up with none
    outstanding, is that thread's to queue. *)
Lemma newly_empty_ok a a' ag ag' x u zs q :
  queue_ok a ag zs q → empty_slab_queue_ a' = empty_slab_queue_ a →
  ¬ emptied a u → emptied a' u → (∀ w, w ≠ u → heap a' !! w = heap a !! w) →
  id_of a' u = id_of a u → ids_distinct a →
  ag x = None → ag' x = Some (Before u) → (∀ y, y ≠ x → ag' y = ag y) →
  queue_ok a' ag' zs q.
Proof.
  intros Hq He Hnu Hu Ho Hidu Hd Hx Hx' Hy.
  assert (Hneq : ∀ w, emptied a w → w ≠ u) by (intros w Hw ->; done).
  assert (Hem : ∀ w, emptied a w → emptied a' w).
  { intros w Hw. unfold emptied. rewrite Ho; [done|by apply Hneq]. }
  assert (Hid : ∀ w, id_of a' w = id_of a w).
  { intros w. destruct (decide (w = u)) as [->|Hw]; [done|]. unfold id_of. by rewrite Ho. }
  assert (Hnx : ∀ n, n ∈ q → next_at a' n = next_at a n).
  { intros [|w] Hw; cbn; [by rewrite He|]. rewrite Ho; [done|]. eapply Hneq, queue_emptied; done. }
  assert (Htl : tail_ (empty_slab_queue_ a) ∈ q) by (apply last_Some_elem_of, (qo_last _ _ _ _ Hq)).
  split; rewrite ?He; try apply Hq.
  - intros n m Hf. rewrite Hnx by (by apply follows_elem in Hf as []).
    destruct (qo_link _ _ _ _ Hq _ _ Hf) as [|(Hn & y & w & Hm & Hyw)]; [by left|right].
    split; [done|]. exists y, w. split; [done|]. rewrite Hy; [done|]. intros ->. congruence.
  - rewrite Hnx by done. apply Hq.
  - intros n Hn. destruct (qo_queued _ _ _ _ Hq _ Hn) as (w & id & -> & Hw & Hi & Hz).
    exists w, id. rewrite Hid. auto.
  - intros y e Hye. destruct (decide (y = x)) as [->|Hyx].
    + rewrite Hx' in Hye. simplify_eq. cbn. setoid_rewrite Hid. split_and!; [done| |].
      * intros id Hi Hz. destruct (qo_zombie _ _ _ _ Hq _ Hz) as (w & Hw & Hwe).
        by rewrite (Hd _ _ _ Hw Hi) in Hwe.
      * intros Hin. by apply (queue_emptied _ _ _ _ _ Hq) in Hin.
    + rewrite Hy in Hye by done. destruct (qo_agent _ _ _ _ Hq _ _ Hye) as (H1 & H2 & H3).
      split_and!; [auto|by setoid_rewrite Hid|]. destruct e; [done|]. destruct H3 as [Hf Hn].
      split; [done|]. by rewrite Hnx by (by apply follows_elem in Hf as []).
  - intros y z e f Hye Hzf Hc.
    destruct (decide (y = x)) as [->|Hyx], (decide (z = x)) as [->|Hzx]; try done.
    + rewrite Hx' in Hye. rewrite Hy in Hzf by done. simplify_eq. cbn in Hc.
      destruct (qo_agent _ _ _ _ Hq _ _ Hzf) as (H1 & _). by rewrite <- Hc in H1.
    + rewrite Hx' in Hzf. rewrite Hy in Hye by done. simplify_eq. cbn in Hc.
      destruct (qo_agent _ _ _ _ Hq _ _ Hye) as (H1 & _). by rewrite Hc in H1.
    + rewrite Hy in Hye, Hzf by done. by apply (qo_unique _ _ _ _ Hq _ _ _ _ Hye Hzf).
  - intros id Hz. destruct (qo_zombie _ _ _ _ Hq _ Hz) as (w & Hw & Hm). exists w. rewrite Hid. auto.
  - pose proof (qo_top _ _ _ _ Hq) as Ht. destruct (head_ _); [done|].
    destruct Ht as (id & Hl & Hi & Hm). exists id. rewrite Hid. auto.
  - intros w Hw. destruct (decide (w = u)) as [->|Hwu]; [right; right; by exists x|].
    assert (Hw' : emptied a w) by (unfold emptied in *; by rewrite Ho in Hw).
    destruct (qo_all _ _ _ _ Hq _ Hw') as [|[(id & Hi & Hz)|(y & Hyw)]]; [by left| |].
    + right; left. exists id. by rewrite Hid.
    + right; right. exists y. rewrite Hy; [done|]. intros ->. congruence.
Qed.

(** *** The consumer *)

(** [try_dequeue] takes the slab after the head, whose store has been done, or
    finds none. *)
Lemma pop_ok a ag zs q :
  queue_ok a ag zs q → ids_distinct a →
  try_dequeue_next a = Returns None ∧ next_at a (head_ (empty_slab_queue_ a)) = Some None ∨
  ∃ u sl a', try_dequeue_next a = Returns (Some (slab_id_ sl, a')) ∧ heap a !! u = Some sl ∧
    a' = set_queue (mk_queue (dummy_next (empty_slab_queue_ a)) (SlabNode u) (tail_ (empty_slab_queue_ a))) a ∧
    (length (tail q) = S (length (tail (tail q))))%nat ∧
    queue_ok a' ag (zs ++ [slab_id_ sl]) (tail q).
Proof.
  intros Hq Hd. pose proof (qo_nodup _ _ _ _ Hq) as Hnd.
  pose proof (qo_head _ _ _ _ Hq) as Hh. pose proof (qo_last _ _ _ _ Hq) as Hl.
  pose proof (qo_end _ _ _ _ Hq) as Hend.
  destruct q as [|n0 q]; [done|]. cbn in Hh. simplify_eq.
  set (hd := head_ (empty_slab_queue_ a)) in *.
  assert (Hload : ∀ v, next_at a hd = Some v → load_next a hd = Returns v).
  { intros v. unfold load_next, slab. destruct hd as [|w]; cbn; [congruence|].
    destruct (heap a !! w); cbn; congruence. }
  destruct q as [|m q].
  { left. cbn in Hl. simplify_eq. rewrite <- Hl in Hend. split; [|done].
    unfold try_dequeue_next. fold hd. by rewrite (Hload _ Hend). }
  destruct (qo_queued _ _ _ _ Hq m ltac:(cbn; left)) as (u & id & -> & Hu & Hid & Hz).
  assert (Hf : follows hd (SlabNode u) (hd :: SlabNode u :: q)) by (by exists 0%nat).
  destruct (qo_link _ _ _ _ Hq _ _ Hf) as [Hn|(Hn & _)].
  2:{ left. split; [|done]. unfold try_dequeue_next. fold hd. by rewrite (Hload _ Hn). }
  right. pose proof Hu as (sl & Hsl & Hr). exists u, sl. eexists. split_and!.
  { unfold try_dequeue_next. fold hd. rewrite (Hload _ Hn). cbn. unfold slab. by rewrite Hsl. }
  { done. } { done. } { done. }
  assert (Hids : id_of a u = Some (slab_id_ sl)) by (unfold id_of; by rewrite Hsl).
  assert (id = slab_id_ sl) as -> by congruence.
  apply NoDup_cons in Hnd as [Hnh Hnd].
  set (a' := set_queue _ _).
  assert (Hnx : ∀ n, next_at a' n = next_at a n) by (by intros [|w]).
  assert (Hq1 : ∀ w, SlabNode w ∈ SlabNode u :: q → ∃ id, id_of a w = Some id ∧ id ∉ zs).
  { intros w Hw. destruct (qo_queued _ _ _ _ Hq _ Hw) as (v & i & Hv & _ & Hi & Hiz). simplify_eq. eauto. }
  assert (Hfresh : ∀ w id, w ≠ u → id_of a w = Some id → id ∉ zs → id ∉ zs ++ [slab_id_ sl]).
  { intros w id Hw Hi Hiz. rewrite not_elem_of_app, list_elem_of_singleton. split; [done|].
    intros ->. apply Hw. by eapply Hd. }
  split; cbn [tail].
  - done.
  - cbn. by rewrite <- Hl.
  - done.
  - intros n m' Hnm. rewrite Hnx. apply Hq. by apply follows_tail.
  - cbn. exact Hend.
  - intros n Hnq. assert (Hnq' : n ∈ SlabNode u :: q) by (by right).
    destruct (qo_queued _ _ _ _ Hq n Hnq') as (w & i & -> & Hw & Hi & Hiz).
    exists w, i. split_and!; [done..|]. apply (Hfresh w); [|done..].
    intros ->. apply NoDup_cons in Hnd as [Hnn _]. done.
  - intros x e Hx. destruct (qo_agent _ _ _ _ Hq _ _ Hx) as (H1 & H2 & H3).
    assert (Hne : carried e ≠ u).
    { intros Heq. destruct e as [w|p w]; cbn in *; subst w.
      - apply H3. right. by left.
      - destruct H3 as [Hf' Hn']. apply follows_cons in Hf' as [[-> _]|Hf']; [congruence|].
        apply follows_elem in Hf' as [_ Hf']. apply NoDup_cons in Hnd as [Hnn _]. done. }
    split_and!; [done| |].
    + intros i Hi. apply (Hfresh (carried e)); [done|done|by apply H2].
    + destruct e as [w|p w]; [set_solver|]. destruct H3 as [Hf' Hn'].
      apply follows_cons in Hf' as [[-> _]|Hf']; [congruence|]. by rewrite Hnx.
  - apply Hq.
  - apply NoDup_app. split_and!; [apply Hq| |by apply NoDup_singleton]. set_solver.
  - intros i. rewrite elem_of_app, list_elem_of_singleton. intros [Hi| ->]; [by apply Hq|].
    exists u. by split.
  - cbn. exists (slab_id_ sl). by rewrite last_snoc.
  - intros w Hw. destruct (qo_all _ _ _ _ Hq _ Hw) as [Hin|[(i & Hi & Hiz)|]]; [| |by right; right].
    + cbn in Hin. apply elem_of_cons in Hin as [Heq|Hin]; [|by left]. simplify_eq.
      right; left. exists (slab_id_ sl). split; [done|]. set_solver.
    + right; left. exists i. split; [done|]. set_solver.
Qed.

(** A slab that was taken off and is not the head's can be deleted. *)
Lemma reclaim_queue a a' ag zs q id u :
  queue_ok a ag (id :: zs) q → ids_distinct a → zs ≠ [] → id_of a u = Some id →
  heap a' = delete u (heap a) → empty_slab_queue_ a' = empty_slab_queue_ a → queue_ok a' ag zs q.
Proof.
  intros Hq Hd Hne Hid Hh He.
  pose proof (qo_zombies _ _ _ _ Hq) as Hnd. apply NoDup_cons in Hnd as [Hni Hnd].
  assert (Hlast : last (id :: zs) = last zs) by (by destruct zs).
  assert (Hnq : SlabNode u ∉ q).
  { intros Hin. destruct q as [|n q]; [set_solver|]. apply elem_of_cons in Hin as [<-|Hin].
    - pose proof (qo_top _ _ _ _ Hq) as Ht. pose proof (qo_head _ _ _ _ Hq) as Hhd. cbn in Hhd.
      simplify_eq. rewrite <- Hhd, Hlast in Ht. destruct Ht as (id' & Hl & Hi & _). simplify_eq.
      apply Hni, last_Some_elem_of. congruence.
    - destruct (qo_queued _ _ _ _ Hq _ Hin) as (w & i & Hw & _ & Hi & Hz). simplify_eq. set_solver. }
  assert (Ho : ∀ w, w ≠ u → heap a' !! w = heap a !! w) by (intros w Hw; by rewrite Hh, lookup_delete_ne).
  assert (Hoid : ∀ w, w ≠ u → id_of a' w = id_of a w) by (intros w Hw; unfold id_of; by rewrite Ho).
  assert (Hoe : ∀ w, w ≠ u → emptied a' w ↔ emptied a w) by (intros w Hw; unfold emptied; by rewrite Ho).
  assert (Hnx : ∀ n, n ∈ q → next_at a' n = next_at a n).
  { intros [|w] Hw; cbn; [by rewrite He|]. rewrite Ho; [done|]. by intros ->. }
  assert (Hzu : ∀ i w, i ∈ zs → id_of a w = Some i → w ≠ u) by (intros i w Hi Hw ->; congruence).
  assert (Htl : tail_ (empty_slab_queue_ a) ∈ q) by (apply last_Some_elem_of, (qo_last _ _ _ _ Hq)).
  assert (Hag : ∀ x e, ag x = Some e → carried e ≠ u).
  { intros x e Hx Heq. destruct (qo_agent _ _ _ _ Hq _ _ Hx) as (_ & H2 & _).
    rewrite Heq in H2. apply (H2 _ Hid). left. }
  split; rewrite ?He; try apply Hq.
  - intros n m Hf. rewrite Hnx by (by apply follows_elem in Hf as []). by apply Hq.
  - rewrite Hnx by done. apply Hq.
  - intros n Hn. destruct (qo_queued _ _ _ _ Hq _ Hn) as (w & i & -> & Hw & Hi & Hz).
    assert (w ≠ u). { intros ->. apply Hnq. by destruct q; [|right]. }
    exists w, i. rewrite Hoe, Hoid by done. set_solver.
  - intros x e Hx. pose proof (Hag _ _ Hx) as Hc. destruct (qo_agent _ _ _ _ Hq _ _ Hx) as (H1 & H2 & H3).
    rewrite Hoe, Hoid by done. split_and!; [done|intros i Hi; specialize (H2 _ Hi); set_solver|].
    destruct e; [done|]. destruct H3 as [Hf Hn]. split; [done|].
    by rewrite Hnx by (by apply follows_elem in Hf as []).
  - done.
  - intros i Hi. destruct (qo_zombie _ _ _ _ Hq i ltac:(by right)) as (w & Hw & Hwe).
    pose proof (Hzu _ _ Hi Hw). exists w. by rewrite Hoe, Hoid.
  - pose proof (qo_top _ _ _ _ Hq) as Ht. destruct (head_ (empty_slab_queue_ a)); [done|].
    rewrite Hlast in Ht. destruct Ht as (i & Hl & Hi & Hie). exists i.
    assert (slab0 ≠ u) by (eapply Hzu; [by apply last_Some_elem_of|done]). by rewrite Hoe, Hoid.
  - intros w Hw.
    assert (Hwu : w ≠ u). { intros ->. destruct Hw as (s & Hs & _). by rewrite Hh, lookup_delete_eq in Hs. }
    rewrite Hoe in Hw by done. rewrite Hoid by done.
    destruct (qo_all _ _ _ _ Hq _ Hw) as [|[(i & Hi & Hz)|]]; [by left| |by right; right].
    right; left. exists i. split; [done|]. apply elem_of_cons in Hz as [->|]; [|done].
    exfalso. apply Hwu. by eapply Hd.
Qed.
