(* ===== verification/SlabAllocatorSafety.v ===== *)
(** The invariant of the slab allocator and its threads: the registry of slots,
    the chunks that are out, the current slab and the queue, and that every
    permitted step of every thread keeps it. *)

From stdpp Require Import gmap.
From S2P Require Import Prelude.
From S2P Require Import SlabAllocator.
From S2P Require Import SlabAllocatorQueue.
#[local] Open Scope Z_scope.
#[local] Open Scope venue_scope.
Import SlabAllocator ExpandableSlabAllocator SlabThreads.

(** ** Handles and alignment *)

Lemma make_slab_handle_sum slot g :
  0 ≤ slot < 2 ^ 31 → 0 ≤ g → make_slab_handle slot g = g * 2 ^ 32 + slot.
Proof.
  intros Hs Hg. unfold make_slab_handle. rewrite Z.mod_small by lia.
  rewrite Z.shiftl_mul_pow2 by lia. rewrite <- Z.add_lor_land.
  replace (Z.land (g * 2 ^ 32) slot) with 0; [lia|]. symmetry.
  apply Z.bits_inj'. intros n Hn. rewrite Z.land_spec, Z.bits_0.
  destruct (Z.lt_ge_cases n 32).
  - by rewrite Z.mul_pow2_bits_low.
  - rewrite (Z.bits_above_log2 slot), andb_false_r; [done|lia|].
    destruct (decide (slot = 0)) as [->|]; [cbn; lia|].
    apply Z.log2_lt_pow2; [lia|]. apply Z.lt_le_trans with (2 ^ 31); [lia|].
    apply Z.pow_le_mono_r; lia.
Qed.

Lemma handle_slot slot g : 0 ≤ slot < 2 ^ 31 → 0 ≤ g → slab_handle_slot (make_slab_handle slot g) = slot.
Proof.
  intros Hs Hg. rewrite make_slab_handle_sum by done. unfold slab_handle_slot.
  change 0xFFFFFFFF with (Z.ones 32). rewrite Z.land_ones by lia.
  rewrite Z.add_comm, Z.mod_add, Z.mod_small by lia.
  rewrite (proj2 (Z.ltb_lt _ _)); [done|lia].
Qed.

Lemma handle_generation slot g :
  0 ≤ slot < 2 ^ 31 → 0 ≤ g → slab_handle_generation (make_slab_handle slot g) = g.
Proof.
  intros Hs Hg. rewrite make_slab_handle_sum by done. unfold slab_handle_generation.
  rewrite Z.shiftr_div_pow2 by lia. rewrite Z.add_comm, Z.div_add by lia.
  rewrite Z.div_small by lia. lia.
Qed.

Lemma aligned_bounds b : 0 ≤ b → b ≤ aligned b ≤ b + 15.
Proof.
  intros Hb. unfold aligned, alignment. change (16 - 1) with (Z.ones 4).
  rewrite <- Z.ldiff_land, Z.ldiff_ones_r, Z.shiftl_mul_pow2, Z.shiftr_div_pow2 by lia.
  change (2 ^ 4) with 16. pose proof (Z.div_mod (b + 16 - 1) 16). 
  pose proof (Z.mod_pos_bound (b + 16 - 1) 16). lia.
Qed.

(** ** The parts of the invariant *)

(** The list of free slots. *)
Fixpoint free_chain (links : gmap Z Z) (hd : Z) (l : list Z) : Prop :=
  match l with
  | [] => hd = -1
  | x :: l => hd = x ∧ 0 ≤ x ∧ free_chain links (default (-1) (links !! x)) l
  end.

(** A slot below the high-water mark has one slab, or is free. *)
Record registry_ok (a : t) : Prop := {
  ro_slot u id : id_of a u = Some id → slots (registry a) !! id = Some u;
  ro_slab id u : slots (registry a) !! id = Some u →
    id_of a u = Some id ∧ 0 ≤ id < slab_slot_count_ (registry a) ∧
    Z.shiftr id page_bits ∈ pages_ (registry a);
  ro_free : ∃ l, free_chain (next_free (registry a)) (free_slot_head_ (registry a)) l ∧ NoDup l ∧
    ∀ id, id ∈ l ↔ 0 ≤ id < slab_slot_count_ (registry a) ∧ slots (registry a) !! id = None;
  ro_count : 0 ≤ slab_slot_count_ (registry a) ≤ max_pages * page_size;
  ro_generation id : 0 ≤ generation (registry a) id < 2 ^ 32;
  ro_fresh u id : id_of a u = Some id → (u < fresh a)%nat
}.

Definition in_slab (u : nat) (cs : list Chunk) : list Chunk := filter (λ c, chunk_slab c = u) cs.

(** The chunks that are out lie in slabs that are there, apart from each other,
    and each slab counts its own. *)
Record chunks_ok (a : t) (cs : list Chunk) : Prop := {
  co_nodup : NoDup cs;
  co_references u sl : heap a !! u = Some sl →
    references_ sl = Z.of_nat (length (in_slab u cs)) + (if is_current_ sl then 1 else 0);
  co_bump u sl : heap a !! u = Some sl → 0 ≤ bump_ sl ≤ slab_size_ a;
  co_chunk c : c ∈ cs → ∃ sl, heap a !! chunk_slab c = Some sl ∧
    handle c = make_slab_handle (slab_id_ sl) (generation (registry a) (slab_id_ sl)) ∧
    0 ≤ chunk_offset c ∧ 0 < chunk_size c ∧ chunk_offset c + chunk_size c ≤ bump_ sl;
  co_apart c d : c ∈ cs → d ∈ cs → c ≠ d → chunk_slab c = chunk_slab d →
    chunk_offset c + chunk_size c ≤ chunk_offset d ∨ chunk_offset d + chunk_size d ≤ chunk_offset c
}.

(** Between giving up the old slab and publishing the new one there is no
    current slab. *)
Definition changing (pc : Reactor) : bool :=
  match pc with QueueOld _ _ | LinkOld _ _ _ | Append _ => true | _ => false end.

Definition current_ok (a : t) (pc : Reactor) : Prop :=
  if changing pc then ∀ u sl, heap a !! u = Some sl → is_current_ sl = false
  else
    ∃ u sl, slots (registry a) !! current_slab_slot_ a = Some u ∧ heap a !! u = Some sl ∧
      is_current_ sl = true ∧
      current_slab_generation_ a = generation (registry a) (current_slab_slot_ a) ∧
      ∀ v sl', heap a !! v = Some sl' → is_current_ sl' = true → v = u.

(** A chunk is on its way back with one thread, which has found its slab. *)
Definition workers_ok (ws : gmap nat Worker) (cs : list Chunk) : Prop :=
  (∀ i w c, ws !! i = Some w → freeing w = Some c → c ∈ cs ∧
     match w with CheckGeneration _ u | FreeChunk _ u => u = chunk_slab c | _ => True end) ∧
  (∀ i j w w' c, ws !! i = Some w → ws !! j = Some w' →
     freeing w = Some c → freeing w' = Some c → i = j).

Definition requested (pc : Reactor) : option Z :=
  match pc with
  | Idle => None
  | DrainNext n _ | DrainTail n _ | Reclaim n _ | SelfReclaim n | Bump n | Retire n
  | QueueOld n _ | LinkOld n _ _ | Append n => Some n
  end.

Definition pc_ok (a : t) (pc : Reactor) : Prop :=
  (∀ n, requested pc = Some n → 0 < n ≤ slab_size_ a) ∧
  match pc with Reclaim _ (_ :: _) => 0 ≤ deferred_reclaim_slot_ a | _ => True end.

(** The threads that put a slab on the queue. *)
Definition agent (s : System) : agents := λ x,
  match x with
  | None =>
      match reactor s with
      | QueueOld _ u => Some (Before u)
      | LinkOld _ p u => Some (Linking p u)
      | _ => None
      end
  | Some i =>
      match workers s !! i with
      | Some (ClearNext u) | Some (QueueSlab u) => Some (Before u)
      | Some (LinkSlab p u) => Some (Linking p u)
      | _ => None
      end
  end.

Definition deferred (a : t) : list Z :=
  if 0 <=? deferred_reclaim_slot_ a then [deferred_reclaim_slot_ a] else [].

(** The slots of the slabs that were taken off the queue and are not deleted. *)
Definition zombies (a : t) (pc : Reactor) : list Z :=
  match pc with
  | DrainNext _ ids | DrainTail _ ids => deferred a ++ ids
  | Reclaim _ ids => ids ++ deferred a
  | _ => deferred a
  end.

Record inv (s : System) (q : list Node) : Prop := {
  i_size : 0 < slab_size_ (allocator s);
  i_registry : registry_ok (allocator s);
  i_chunks : chunks_ok (allocator s) (held s);
  i_current : current_ok (allocator s) (reactor s);
  i_workers : workers_ok (workers s) (held s);
  i_pc : pc_ok (allocator s) (reactor s);
  i_queue : queue_ok (allocator s) (agent s) (zombies (allocator s) (reactor s)) q
}.

Lemma registry_distinct a : registry_ok a → ids_distinct a.
Proof.
  intros Hr u v id Hu Hv. apply (ro_slot _ Hr) in Hu, Hv. congruence.
Qed.

(** ** Steps that only move links *)

(** Two allocators that differ in the links of the queue and in what is held
    over. *)
Record same_slabs (a a' : t) : Prop := {
  ss_size : slab_size_ a' = slab_size_ a;
  ss_slot : current_slab_slot_ a' = current_slab_slot_ a;
  ss_gen : current_slab_generation_ a' = current_slab_generation_ a;
  ss_registry : registry a' = registry a;
  ss_fresh : fresh a' = fresh a;
  ss_heap u : set_next None <$> heap a' !! u = set_next None <$> heap a !! u
}.

Lemma same_slab a a' u sl' :
  same_slabs a a' → heap a' !! u = Some sl' →
  ∃ sl, heap a !! u = Some sl ∧ slab_id_ sl' = slab_id_ sl ∧ bump_ sl' = bump_ sl ∧
    references_ sl' = references_ sl ∧ is_current_ sl' = is_current_ sl.
Proof.
  intros Hs Hu. pose proof (ss_heap _ _ Hs u) as He. rewrite Hu in He.
  destruct (heap a !! u) as [sl|]; [|done]. exists sl. cbn in He. unfold set_next in He.
  injection He. done.
Qed.

Lemma same_slabs_sym a a' : same_slabs a a' → same_slabs a' a.
Proof. intros [? ? ? ? ? ?]. by split. Qed.

Lemma same_id a a' u : same_slabs a a' → id_of a' u = id_of a u.
Proof.
  intros Hs. unfold id_of. destruct (heap a' !! u) as [sl'|] eqn:H'.
  - destruct (same_slab _ _ _ _ Hs H') as (sl & -> & E & _). cbn. by rewrite E.
  - destruct (heap a !! u) as [sl|] eqn:H; [|done].
    destruct (same_slab _ _ _ _ (same_slabs_sym _ _ Hs) H) as (sl' & He & _). congruence.
Qed.

Lemma registry_same a a' : same_slabs a a' → registry_ok a → registry_ok a'.
Proof.
  intros Hs [H1 H2 H3 H4 H5 H6]. split; rewrite ?(ss_registry _ _ Hs), ?(ss_fresh _ _ Hs); try done.
  - intros u id. rewrite (same_id _ _ _ Hs). apply H1.
  - intros id u. rewrite (same_id _ _ _ Hs). apply H2.
  - intros u id. rewrite (same_id _ _ _ Hs). apply H6.
Qed.

Lemma chunks_same a a' cs : same_slabs a a' → chunks_ok a cs → chunks_ok a' cs.
Proof.
  intros Hs [H1 H2 H3 H4 H5]. split; try done.
  - intros u sl' Hu. destruct (same_slab _ _ _ _ Hs Hu) as (sl & Hsl & _ & _ & -> & ->). by apply H2.
  - intros u sl' Hu. destruct (same_slab _ _ _ _ Hs Hu) as (sl & Hsl & _ & -> & _).
    rewrite (ss_size _ _ Hs). by apply (H3 u).
  - intros c Hc. destruct (H4 c Hc) as (sl & Hsl & Hh & Ho).
    destruct (same_slab _ _ _ _ (same_slabs_sym _ _ Hs) Hsl) as (sl' & Hsl' & E1 & E2 & _).
    exists sl'. by rewrite (ss_registry _ _ Hs), <- E1, <- E2.
Qed.

Lemma current_same a a' pc pc' :
  same_slabs a a' → changing pc' = changing pc → current_ok a pc → current_ok a' pc'.
Proof.
  intros Hs Hp. unfold current_ok. rewrite Hp. destruct (changing pc).
  - intros Hc u sl' Hu. destruct (same_slab _ _ _ _ Hs Hu) as (sl & Hsl & _ & _ & _ & ->). by eapply Hc.
  - intros (u & sl & Hu & Hsl & Hc & Hg & Hq).
    destruct (same_slab _ _ _ _ (same_slabs_sym _ _ Hs) Hsl) as (sl' & Hsl' & _ & _ & _ & E).
    exists u, sl'. rewrite (ss_registry _ _ Hs), (ss_slot _ _ Hs), (ss_gen _ _ Hs), <- E.
    split_and!; try done. intros v sv Hv Hcv.
    destruct (same_slab _ _ _ _ Hs Hv) as (sw & Hw & _ & _ & _ & E'). eapply Hq; [done|congruence].
Qed.

(** A step of that kind, of whichever thread. *)
Lemma links_step s s' q q' :
  inv s q → same_slabs (allocator s) (allocator s') → held s' = held s →
  changing (reactor s') = changing (reactor s) → workers_ok (workers s') (held s) →
  pc_ok (allocator s') (reactor s') →
  queue_ok (allocator s') (agent s') (zombies (allocator s') (reactor s')) q' → inv s' q'.
Proof.
  intros Hi Hs Hh Hc Hw Hp Hq. split; try done.
  - rewrite (ss_size _ _ Hs). apply Hi.
  - eapply registry_same; [done|apply Hi].
  - rewrite Hh. eapply chunks_same; [done|apply Hi].
  - eapply current_same; [done|done|apply Hi].
  - by rewrite Hh.
Qed.

Lemma same_slabs_refl a : same_slabs a a.
Proof. by split. Qed.

Lemma same_put_next a u sl v : heap a !! u = Some sl → same_slabs a (put u (set_next v sl) a).
Proof.
  intros Hu. split; try done. intros w. cbn. destruct (decide (u = w)) as [<-|Hne].
  - rewrite lookup_insert_eq, Hu. done.
  - by rewrite lookup_insert_ne.
Qed.

Lemma same_set_queue a a' q : same_slabs a a' → same_slabs a (set_queue q a').
Proof. by intros [? ? ? ? ? ?]. Qed.

(** *** The threads that give chunks back *)

Lemma agent_worker_other s s' i x :
  reactor s' = reactor s → (∀ j, j ≠ i → workers s' !! j = workers s !! j) → x ≠ Some i →
  agent s' x = agent s x.
Proof. intros Hr Hw Hx. destruct x as [j|]; cbn; [|by rewrite Hr]. rewrite Hw; [done|congruence]. Qed.

(** A thread that is done with its chunk. *)
Lemma workers_freed ws cs i pc :
  workers_ok ws cs → (∀ w, pc = Some w → freeing w = None) →
  workers_ok (partial_alter (λ _, pc) i ws) cs.
Proof.
  intros [H1 H2] Hp.
  assert (Hb : ∀ j w c, partial_alter (λ _, pc) i ws !! j = Some w → freeing w = Some c → ws !! j = Some w).
  { intros j w c Hj Hf. destruct (decide (i = j)) as [<-|Hij].
    - rewrite lookup_partial_alter_eq in Hj. rewrite (Hp _ Hj) in Hf. done.
    - by rewrite lookup_partial_alter_ne in Hj. }
  split; intros; [eapply H1|eapply H2]; eauto.
Qed.

(** A thread that goes on with the chunk it has. *)
Lemma workers_go_on ws cs i w0 w1 c :
  workers_ok ws cs → ws !! i = Some w0 → freeing w0 = Some c → freeing w1 = Some c →
  match w1 with CheckGeneration _ u | FreeChunk _ u => u = chunk_slab c | _ => True end →
  workers_ok (partial_alter (λ _, Some w1) i ws) cs.
Proof.
  intros [H1 H2] Hi Hf0 Hf1 Hm.
  assert (Hb : ∀ j w d, partial_alter (λ _, Some w1) i ws !! j = Some w → freeing w = Some d →
    ∃ w', ws !! j = Some w' ∧ freeing w' = Some d).
  { intros j w d Hj Hf. destruct (decide (i = j)) as [<-|Hij].
    - rewrite lookup_partial_alter_eq in Hj. simplify_eq. by exists w0.
    - rewrite lookup_partial_alter_ne in Hj by done. eauto. }
  split.
  - intros j w d Hj Hf. destruct (decide (i = j)) as [<-|Hij].
    + rewrite lookup_partial_alter_eq in Hj. simplify_eq. split; [|done]. by eapply (H1 i).
    + rewrite lookup_partial_alter_ne in Hj by done. by eapply H1.
  - intros j k w w' d Hj Hk Hf Hf'.
    destruct (Hb _ _ _ Hj Hf) as (v & Hv & Hvf), (Hb _ _ _ Hk Hf') as (v' & Hv' & Hvf'). by eapply H2.
Qed.

(** The slab of a chunk that is out is found. *)
Lemma find_slab_ok s q c :
  inv s q → c ∈ held s → find_slab (handle c) (allocator s) = Returns (chunk_slab c) ∧
    check_generation (handle c) (allocator s) = Returns ().
Proof.
  intros Hi Hc. destruct (co_chunk _ _ (i_chunks _ _ Hi) c Hc) as (sl & Hsl & Hh & _).
  pose proof (i_registry _ _ Hi) as Hr.
  assert (Hid : id_of (allocator s) (chunk_slab c) = Some (slab_id_ sl)) by (unfold id_of; by rewrite Hsl).
  pose proof (ro_slot _ Hr _ _ Hid) as Hslot. destruct (ro_slab _ Hr _ _ Hslot) as (_ & Hb & Hp).
  pose proof (ro_count _ Hr) as Hct. pose proof (ro_generation _ Hr (slab_id_ sl)) as Hg.
  unfold max_pages, page_size in *.
  unfold find_slab, check_generation. rewrite Hh, handle_slot, handle_generation by lia. cbn zeta.
  rewrite Hslot, bool_decide_eq_true_2 by done. unfold max_pages, page_size.
  rewrite (proj2 (Z.ltb_ge _ _)), (proj2 (Z.leb_gt _ _)), Z.eqb_refl by lia. done.
Qed.

Lemma permutation_without (c : Chunk) cs : NoDup cs → c ∈ cs → cs ≡ₚ c :: filter (λ d, d ≠ c) cs.
Proof.
  intros Hn Hc. apply NoDup_Permutation; [done| |].
  - apply NoDup_cons. split; [|by apply NoDup_filter]. rewrite list_elem_of_filter. by intros [? _].
  - intros d. rewrite elem_of_cons, list_elem_of_filter. destruct (decide (d = c)) as [->|]; naive_solver.
Qed.

Lemma in_slab_without c cs u :
  NoDup cs → c ∈ cs →
  length (in_slab u cs) =
    ((if decide (chunk_slab c = u) then 1 else 0) + length (in_slab u (filter (λ d, d ≠ c) cs)))%nat.
Proof.
  intros Hn Hc. unfold in_slab. rewrite (permutation_without c cs) at 1 by done.
  rewrite filter_cons. by case_decide.
Qed.

(** Counting a chunk off. *)
Lemma chunks_freed a cs c sl :
  chunks_ok a cs → c ∈ cs → heap a !! chunk_slab c = Some sl →
  chunks_ok (put (chunk_slab c) (fetch_sub sl).1 a) (filter (λ d, d ≠ c) cs).
Proof.
  intros [H1 H2 H3 H4 H5] Hc Hsl. split.
  - by apply NoDup_filter.
  - intros u sl'. cbn. destruct (decide (chunk_slab c = u)) as [<-|Hne].
    + rewrite lookup_insert_eq. intros Hu. simplify_eq. cbn. rewrite (H2 _ _ Hsl).
      rewrite (in_slab_without c cs) by done. rewrite decide_True by done. lia.
    + rewrite lookup_insert_ne by done. intros Hu. rewrite (H2 _ _ Hu).
      rewrite (in_slab_without c cs) by done. by rewrite decide_False.
  - intros u sl'. cbn. destruct (decide (chunk_slab c = u)) as [<-|Hne].
    + rewrite lookup_insert_eq. intros Hu. simplify_eq. by apply (H3 _ _ Hsl).
    + rewrite lookup_insert_ne by done. apply H3.
  - intros d. rewrite list_elem_of_filter. intros [_ Hd]. destruct (H4 d Hd) as (sd & Hsd & Hdd). cbn.
    destruct (decide (chunk_slab c = chunk_slab d)) as [He|Hne].
    + rewrite He, lookup_insert_eq. eexists. split; [done|]. cbn. by rewrite He, Hsd in Hsl; simplify_eq.
    + rewrite lookup_insert_ne by done. by exists sd.
  - intros d e. rewrite !list_elem_of_filter. intros [_ Hd] [_ He]. by apply H5.
Qed.

Lemma id_put a u sl sl' v :
  heap a !! u = Some sl → slab_id_ sl' = slab_id_ sl → id_of (put u sl' a) v = id_of a v.
Proof.
  intros Hu He. unfold id_of. cbn. destruct (decide (u = v)) as [<-|Hne].
  - rewrite lookup_insert_eq, Hu. cbn. by rewrite He.
  - by rewrite lookup_insert_ne.
Qed.

(** A slab changes, its slot does not. *)
Lemma registry_put a u sl sl' :
  heap a !! u = Some sl → slab_id_ sl' = slab_id_ sl → registry_ok a → registry_ok (put u sl' a).
Proof.
  intros Hu He [H1 H2 H3 H4 H5 H6]. split; try done.
  - intros v id. rewrite (id_put _ _ _ _ _ Hu He). apply H1.
  - intros id v. rewrite (id_put _ _ _ _ _ Hu He). apply H2.
  - intros v id. rewrite (id_put _ _ _ _ _ Hu He). apply H6.
Qed.

Lemma current_put a pc u sl sl' :
  heap a !! u = Some sl → is_current_ sl' = is_current_ sl → current_ok a pc → current_ok (put u sl' a) pc.
Proof.
  intros Hu He. unfold current_ok. destruct (changing pc).
  - intros Hc v sv. cbn. destruct (decide (u = v)) as [<-|Hne].
    + rewrite lookup_insert_eq. intros Hv. simplify_eq. rewrite He. by eapply Hc.
    + rewrite lookup_insert_ne by done. apply Hc.
  - intros (v & sv & Hv & Hsv & Hc & Hg & Hq). cbn.
    assert (Hq' : ∀ w sw, <[u:=sl']> (heap a) !! w = Some sw → is_current_ sw = true → w = v).
    { intros w sw. destruct (decide (u = w)) as [<-|Hne].
      - rewrite lookup_insert_eq. intros Hw Hcw. simplify_eq. eapply Hq; [done|congruence].
      - rewrite lookup_insert_ne by done. apply Hq. }
    destruct (decide (u = v)) as [<-|Hne].
    + exists u, sl'. rewrite lookup_insert_eq. split_and!; try done. congruence.
    + exists v, sv. by rewrite lookup_insert_ne.
Qed.

(** A slab that holds something changes and still does: the queue is as it was. *)
Lemma queue_put a ag ag' zs q u sl sl' :
  queue_ok a ag zs q → heap a !! u = Some sl → references_ sl ≠ 0 → references_ sl' ≠ 0 →
  (∀ x, ag' x = ag x) → queue_ok (put u sl' a) ag' zs q.
Proof.
  intros Hq Hu H1 H2 Ha. eapply queue_frame; try done; cbn.
  - intros w s Hw Hr. rewrite lookup_insert_ne; [done|]. intros ->. congruence.
  - intros w (s & Hs & Hr). cbn in Hs. destruct (decide (u = w)) as [<-|Hne].
    + rewrite lookup_insert_eq in Hs. congruence.
    + rewrite lookup_insert_ne in Hs by done. by exists s.
Qed.

Lemma workers_without ws cs c i pc w :
  workers_ok ws cs → ws !! i = Some w → freeing w = Some c → (∀ w, pc = Some w → freeing w = None) →
  workers_ok (partial_alter (λ _, pc) i ws) (filter (λ d, d ≠ c) cs).
Proof.
  intros Hw Hi Hf Hp. pose proof (workers_freed _ _ i _ Hw Hp) as [H1 H2]. split; [|done].
  intros j v d Hj Hd. destruct (H1 j v d Hj Hd) as [Hin Hm]. split; [|done].
  apply list_elem_of_filter. split; [|done]. intros ->.
  destruct (decide (i = j)) as [<-|Hij].
  - rewrite lookup_partial_alter_eq in Hj. rewrite (Hp _ Hj) in Hd. done.
  - rewrite lookup_partial_alter_ne in Hj by done. by apply Hij, (proj2 Hw i j w v c).
Qed.

Lemma worker_step_ok s q i :
  inv s q → ∃ s' q', worker_step i s = Returns s' ∧ inv s' q'.
Proof.
  intros Hi. pose proof (i_workers _ _ Hi) as Hw. unfold worker_step.
  destruct (workers s !! i) as [w|] eqn:Ew; [|by exists s, q].
  assert (Hother : ∀ s' pc x, reactor s' = reactor s → workers s' = partial_alter (λ _, pc) i (workers s) →
    x ≠ Some i → agent s' x = agent s x).
  { intros s' pc x Hr Hws Hx. apply (agent_worker_other s s' i); [done| |done].
    intros j Hj. by rewrite Hws, lookup_partial_alter_ne. }
  assert (Hat : ∀ pc, partial_alter (λ _, pc) i (workers s) !! i = pc)
    by (intros; by rewrite lookup_partial_alter_eq).
  destruct w as [c|c u|c u|u|u|p u].
  - destruct (proj1 Hw i _ c Ew eq_refl) as [Hc _]. destruct (find_slab_ok _ _ _ Hi Hc) as [-> _].
    eexists _, q. split; [reflexivity|]. eapply links_step; [done|apply same_slabs_refl|done|done|by eapply workers_go_on|apply Hi|].
    eapply queue_frame; [apply Hi|done|done|done|]. intros x.
    destruct (decide (x = Some i)) as [->|Hx]; [cbn; by rewrite Hat, Ew|by eapply Hother].
  - destruct (proj1 Hw i _ c Ew eq_refl) as [Hc ->]. destruct (find_slab_ok _ _ _ Hi Hc) as [_ ->].
    eexists _, q. split; [reflexivity|]. eapply links_step; [done|apply same_slabs_refl|done|done|by eapply workers_go_on|apply Hi|].
    eapply queue_frame; [apply Hi|done|done|done|]. intros x.
    destruct (decide (x = Some i)) as [->|Hx]; [cbn; by rewrite Hat, Ew|by eapply Hother].
  - destruct (proj1 Hw i _ c Ew eq_refl) as [Hc ->]. cbn zeta.
    destruct (co_chunk _ _ (i_chunks _ _ Hi) c Hc) as (sl & Hsl & _).
    pose proof (co_references _ _ (i_chunks _ _ Hi) _ _ Hsl) as Href.
    rewrite (in_slab_without c) in Href by (try apply (i_chunks _ _ Hi); done).
    rewrite decide_True in Href by done.
    unfold slab. rewrite Hsl. cbn [obind fetch_sub].
    assert (Hne : ¬ emptied (allocator s) (chunk_slab c)).
    { intros (sl' & Hsl' & Hr). rewrite Hsl in Hsl'. simplify_eq. destruct (is_current_ sl'); lia. }
    eexists _, q. split; [reflexivity|]. split; cbn -[put].
    + apply Hi.
    + eapply registry_put; [done|done|apply Hi].
    + apply (chunks_freed _ _ _ _ (i_chunks _ _ Hi) Hc Hsl).
    + eapply current_put; [done|done|apply Hi].
    + eapply workers_without; [done|done|done|]. intros v. destruct (_ =? 1); naive_solver.
    + apply Hi.
    + destruct (Z.eqb_spec (references_ sl) 1) as [H1|H1].
      * eapply (newly_empty_ok (allocator s) _ (agent s) _ (Some i)); [apply Hi|done|exact Hne| | | | | | |].
        -- eexists. split; [by apply lookup_insert_eq|]. cbn. lia.
        -- intros v Hv. cbn. by rewrite lookup_insert_ne.
        -- by apply (id_put _ _ sl).
        -- apply registry_distinct, Hi.
        -- cbn. by rewrite Ew.
        -- cbn. by rewrite Hat.
        -- intros y Hy. by eapply Hother.
      * eapply queue_put; [apply Hi|done| |cbn; lia|].
        -- intros Hz. apply Hne. by exists sl.
        -- intros x. destruct (decide (x = Some i)) as [->|Hx]; [cbn; by rewrite Hat, Ew|by eapply Hother].
  - assert (Hag : agent s (Some i) = Some (Before u)) by (cbn; by rewrite Ew).
    destruct (qo_agent _ _ _ _ (i_queue _ _ Hi) _ _ Hag) as ((sl & Hsl & Hr) & Hz & Hnq).
    cbn [carried] in *. unfold store_next, slab. rewrite Hsl. cbn [obind].
    eexists _, q. split; [reflexivity|].
    eapply links_step; [done|by apply same_put_next|done|done|by apply workers_freed; naive_solver|apply Hi|].
    eapply (queue_clear _ (agent s) _ _ _ _ (Some i)); [apply Hi|done|done|].
    intros x. destruct (decide (x = Some i)) as [->|Hx]; [cbn; by rewrite Hat, Ew|by eapply Hother].
  - assert (Hag : agent s (Some i) = Some (Before u)) by (cbn; by rewrite Ew).
    edestruct (exchange_node_ok (allocator s) (agent s)
      (agent (worker_at s i (allocator s) (Some (LinkSlab (tail_ (empty_slab_queue_ (allocator s))) u)))))
      as (sl & Hsl & -> & Hq'); [apply Hi|exact Hag|cbn; by rewrite Hat|intros y Hy; by eapply Hother|].
    eexists _, _. split; [reflexivity|].
    eapply links_step; [done|by apply same_set_queue, same_put_next|done|done
      |by apply workers_freed; naive_solver|apply Hi|exact Hq'].
  - assert (Hag : agent s (Some i) = Some (Linking p u)) by (cbn; by rewrite Ew).
    edestruct (link_ok (allocator s) (agent s) (agent (worker_at s i (allocator s) None)))
      as (a' & -> & Hq' & _ & Hform); [apply Hi|exact Hag|cbn; by rewrite Hat|intros y Hy; by eapply Hother|].
    assert (Hss : same_slabs (allocator s) a').
    { destruct Hform as [(v & sl & -> & Hv & ->)|[-> ->]]; [by apply same_put_next|].
      apply same_set_queue, same_slabs_refl. }
    assert (Hd : deferred_reclaim_slot_ a' = deferred_reclaim_slot_ (allocator s))
      by (by destruct Hform as [(v & sl & -> & Hv & ->)|[-> ->]]).
    eexists _, q. split; [reflexivity|].
    eapply links_step; [done|exact Hss|done|done|by apply workers_freed; naive_solver| |].
    + cbn. destruct (i_pc _ _ Hi) as [H1 H2]. split; [by rewrite (ss_size _ _ Hss)|by rewrite Hd].
    + cbn. unfold zombies, deferred in *. rewrite Hd. exact Hq'.
Qed.

(** *** The allocating thread, in the drain *)

Lemma agent_reactor_other s a pc x : x ≠ None → agent (reactor_at s a pc) x = agent s x.
Proof. by destruct x. Qed.

(** A step that leaves the queue to the others. *)
Lemma agent_reactor_quiet s a pc x :
  agent (reactor_at s a pc) None = None → agent s None = None →
  agent (reactor_at s a pc) x = agent s x.
Proof. intros H1 H2. destruct x; [done|congruence]. Qed.

Lemma slot_of_id a u id : registry_ok a → id_of a u = Some id →
  0 ≤ id < slab_slot_count_ (registry a).
Proof. intros Hr Hid. by destruct (ro_slab _ Hr _ _ (ro_slot _ Hr _ _ Hid)) as (_ & ? & _). Qed.

Lemma drain_next_ok s q n ids :
  inv s q → reactor s = DrainNext n ids → ∃ s' q', reactor_step s = Returns s' ∧ inv s' q'.
Proof.
  intros Hi Hpc. unfold reactor_step. rewrite Hpc.
  pose proof (i_queue _ _ Hi) as Hq. rewrite Hpc in Hq. cbn in Hq.
  pose proof (i_pc _ _ Hi) as [Hn _]. rewrite Hpc in Hn. specialize (Hn n eq_refl).
  destruct (pop_ok _ _ _ _ Hq (registry_distinct _ (i_registry _ _ Hi)))
    as [[-> _]|(u & sl & a' & -> & Hsl & -> & _ & Hq')]; cbn [obind].
  - eexists _, q. split; [reflexivity|].
    eapply links_step; [done|apply same_slabs_refl|done|by rewrite Hpc|apply Hi| |].
    + split; [|done]. intros n' [= <-]. done.
    + eapply queue_frame; [exact Hq|done|done|done|].
      intros x. apply agent_reactor_quiet; [done|cbn; by rewrite Hpc].
  - assert (Hid : id_of (allocator s) u = Some (slab_id_ sl)) by (unfold id_of; by rewrite Hsl).
    pose proof (slot_of_id _ _ _ (i_registry _ _ Hi) Hid) as Hb.
    eexists _, (tail q). split; [reflexivity|].
    unfold collect. cbn [registry set_queue]. rewrite (proj2 (Z.leb_le _ _)), (proj2 (Z.ltb_lt _ _)) by lia.
    cbn [andb].
    eapply links_step; [done|apply same_set_queue, same_slabs_refl|done|by rewrite Hpc|apply Hi| |].
    + split; [|done]. intros n' [= <-]. done.
    + cbn. rewrite app_assoc. eapply queue_frame; [exact Hq'|done|done|done|].
      intros x. apply agent_reactor_quiet; [done|cbn; by rewrite Hpc].
Qed.

Lemma last_split {A} (l : list A) x : last l = Some x → l = take (length l - 1) l ++ [x].
Proof.
  intros Hl. destruct l as [|y l] using rev_ind; [done|]. rewrite last_snoc in Hl. simplify_eq.
  rewrite length_app. cbn. replace (length l + 1 - 1)%nat with (length l) by lia.
  by rewrite take_app_length.
Qed.

Lemma drain_tail_ok s q n ids :
  inv s q → reactor s = DrainTail n ids → ∃ s' q', reactor_step s = Returns s' ∧ inv s' q'.
Proof.
  intros Hi Hpc. unfold reactor_step. rewrite Hpc.
  pose proof (i_queue _ _ Hi) as Hq. rewrite Hpc in Hq. cbn in Hq.
  pose proof (i_pc _ _ Hi) as [Hn _]. rewrite Hpc in Hn. specialize (Hn n eq_refl).
  assert (Hag : ∀ a pc x, agent (reactor_at s a pc) None = None → agent (reactor_at s a pc) x = agent s x)
    by (intros a pc x Hx; apply agent_reactor_quiet; [done|cbn; by rewrite Hpc]).
  destruct (try_dequeue_empty _).
  2:{ eexists _, q. split; [reflexivity|].
      eapply links_step; [done|apply same_slabs_refl|done|by rewrite Hpc|apply Hi| |].
      - split; [|done]. intros n' [= <-]. done.
      - eapply queue_frame; [exact Hq|done|done|done|]. intros x. by apply Hag. }
  unfold defer. destruct (last ids) as [nd|] eqn:Hl.
  2:{ apply last_None in Hl as ->. eexists _, q. split; [reflexivity|].
      eapply links_step; [done|apply same_slabs_refl|done|by rewrite Hpc|apply Hi| |].
      - split; [|done]. intros n' [= <-]. done.
      - cbn. rewrite app_nil_r in Hq. eapply queue_frame; [exact Hq|done|done|done|]. intros x. by apply Hag. }
  pose proof (last_split _ _ Hl) as Hids. set (rest := take _ ids) in *.
  assert (Hnd : 0 ≤ nd).
  { destruct (qo_zombie _ _ _ _ Hq nd) as (u & Hu & _); [rewrite Hids; set_solver|].
    pose proof (slot_of_id _ _ _ (i_registry _ _ Hi) Hu). lia. }
  set (old := if 0 <=? _ then _ else _).
  assert (Hold : old = rest ++ deferred (allocator s))
    by (unfold old, deferred; case_if; [done|by rewrite app_nil_r]).
  eexists _, q. split; [reflexivity|].
  eapply links_step; [done|by split|done|by rewrite Hpc|apply Hi| |].
  - split; [intros n' [= <-]; done|]. cbn. by destruct old.
  - cbn. unfold deferred at 1. cbn. rewrite (proj2 (Z.leb_le _ _)) by done.
    eapply queue_frame; [eapply (queue_reorder (allocator s) (set_deferred nd (allocator s)));
      [exact Hq|done|done| |]|done|done|done|].
    + rewrite Hold, Hids. solve_Permutation.
    + rewrite Hids, app_assoc, !last_snoc. done.
    + intros x. by apply Hag.
Qed.

(** *** The allocating thread, deleting a slab *)

Lemma free_chain_insert links hd l x y :
  x ∉ l → free_chain links hd l → free_chain (<[x := y]> links) hd l.
Proof.
  revert hd. induction l as [|z l IH]; intros hd Hx; cbn; [done|]. intros (-> & Hz & Hc).
  split_and!; [done..|]. rewrite lookup_insert_ne by set_solver. apply IH; [set_solver|done].
Qed.

(** The allocator without the slab [u] of slot [id]. *)
Definition without (id : Z) (u : nat) (a : t) : t :=
  let r := registry a in
  set_registry (release_slot id (mk_registry (pages_ r) (delete id (slots r)) (generations r)
    (next_free r) (free_slot_head_ r) (free_slot_count_ r) (slab_slot_count_ r)))
    (set_heap (delete u (heap a)) a).

Section without.
Context (a : t) (id : Z) (u : nat).
Context (Hr : registry_ok a) (Hu : id_of a u = Some id).

Lemma id_without v : v ≠ u → id_of (without id u a) v = id_of a v.
Proof. intros Hv. unfold id_of. cbn. by rewrite lookup_delete_ne. Qed.

Lemma id_without_same : id_of (without id u a) u = None.
Proof. unfold id_of. cbn. by rewrite lookup_delete_eq. Qed.

Lemma generation_without i : i ≠ id → generation (registry (without id u a)) i = generation (registry a) i.
Proof. intros Hi. unfold generation. cbn. by rewrite lookup_insert_ne. Qed.

Lemma registry_without : registry_ok (without id u a).
Proof.
  pose proof (ro_slot _ Hr _ _ Hu) as Hslot.
  assert (Hback : ∀ v i, id_of (without id u a) v = Some i → v ≠ u ∧ id_of a v = Some i).
  { intros v i Hv. destruct (decide (v = u)) as [->|Hvu]; [by rewrite id_without_same in Hv|].
    by rewrite id_without in Hv. }
  split.
  - intros v i Hv. apply Hback in Hv as [Hvu Hv]. cbn. rewrite lookup_delete_ne; [by apply Hr|].
    intros <-. apply Hvu. by apply (registry_distinct _ Hr _ _ id).
  - intros i v. cbn. rewrite lookup_delete_Some. intros [Hi Hs].
    destruct (ro_slab _ Hr _ _ Hs) as (Hv & Hb & Hp). rewrite id_without; [done|]. intros ->. congruence.
  - destruct (ro_free _ Hr) as (l & Hc & Hn & Hl).
    assert (Hid : id ∉ l) by (rewrite Hl; intros [_ ?]; congruence).
    exists (id :: l). split_and!.
    + cbn. split_and!; [done| |].
      * pose proof (slot_of_id _ _ _ Hr Hu). lia.
      * rewrite lookup_insert_eq. cbn. by apply free_chain_insert.
    + by apply NoDup_cons.
    + intros i. rewrite elem_of_cons, Hl. cbn. destruct (decide (i = id)) as [->|Hi].
      * rewrite lookup_delete_eq. pose proof (slot_of_id _ _ _ Hr Hu). naive_solver.
      * rewrite lookup_delete_ne by done. naive_solver.
  - apply Hr.
  - intros i. destruct (decide (i = id)) as [->|Hi].
    + unfold generation. cbn. rewrite lookup_insert_eq. apply Z.mod_pos_bound. lia.
    + rewrite generation_without by done. apply Hr.
  - intros v i Hv. apply Hback in Hv as [Hvu Hv]. by apply (ro_fresh _ Hr _ _ Hv).
Qed.

Lemma chunks_without cs :
  chunks_ok a cs → in_slab u cs = [] → chunks_ok (without id u a) cs.
Proof.
  intros [H1 H2 H3 H4 H5] Hn.
  assert (Hb : ∀ v sl, heap (without id u a) !! v = Some sl → v ≠ u ∧ heap a !! v = Some sl).
  { intros v sl. cbn. rewrite lookup_delete_Some. naive_solver. }
  split; try done.
  - intros v sl Hv. apply Hb in Hv as [Hvu Hv]. by apply H2.
  - intros v sl Hv. apply Hb in Hv as [Hvu Hv]. by apply (H3 v).
  - intros c Hc. destruct (H4 c Hc) as (sl & Hsl & Hh & Ho).
    assert (Hcu : chunk_slab c ≠ u).
    { intros He. assert (Hin : c ∈ in_slab u cs) by (by apply list_elem_of_filter). rewrite Hn in Hin. set_solver. }
    exists sl. cbn [heap without set_registry set_heap]. rewrite lookup_delete_ne by done.
    split; [done|]. rewrite generation_without; [done|]. intros He. apply Hcu.
    apply (registry_distinct _ Hr _ _ id); [|done]. unfold id_of. rewrite Hsl. cbn. by rewrite He.
Qed.

Lemma current_without pc pc' :
  changing pc = false → changing pc' = false → id ≠ current_slab_slot_ a →
  current_ok a pc → current_ok (without id u a) pc'.
Proof.
  intros Hp Hp' Hi. unfold current_ok. rewrite Hp, Hp'.
  intros (v & sl & Hv & Hsl & Hc & Hg & Hq).
  assert (Hvu : v ≠ u).
  { intros ->. apply Hi. destruct (ro_slab _ Hr _ _ Hv) as (He & _). congruence. }
  exists v, sl. cbn [heap slots registry without set_registry set_heap release_slot current_slab_slot_
    current_slab_generation_].
  rewrite lookup_delete_ne, lookup_delete_ne by done. split_and!; try done.
  - rewrite Hg. symmetry. by apply generation_without.
  - intros w sw Hw. apply lookup_delete_Some in Hw as [_ Hw]. by apply Hq.
Qed.

End without.

Lemma reclaim_ok s q n id ids :
  inv s q → reactor s = Reclaim n (id :: ids) → ∃ s' q', reactor_step s = Returns s' ∧ inv s' q'.
Proof.
  intros Hi Hpc. unfold reactor_step. rewrite Hpc. cbn zeta.
  pose proof (i_queue _ _ Hi) as Hq. rewrite Hpc in Hq. cbn in Hq.
  pose proof (i_pc _ _ Hi) as [Hn Hd]. rewrite Hpc in Hn, Hd. specialize (Hn n eq_refl).
  pose proof (i_registry _ _ Hi) as Hr. pose proof (i_current _ _ Hi) as Hcur. rewrite Hpc in Hcur.
  destruct (qo_zombie _ _ _ _ Hq id ltac:(left)) as (u & Hu & sl & Hsl & Href).
  pose proof (ro_slot _ Hr _ _ Hu) as Hslot. destruct (ro_slab _ Hr _ _ Hslot) as (_ & Hb & Hp).
  pose proof (co_references _ _ (i_chunks _ _ Hi) _ _ Hsl) as Hcount.
  assert (Hne : id ≠ current_slab_slot_ (allocator s)).
  { intros ->. destruct Hcur as (v & sv & Hv & Hsv & Hc & _). simplify_eq. rewrite Hc in Hcount. lia. }
  assert (Hempty : in_slab u (held s) = []).
  { apply length_zero_iff_nil. destruct (is_current_ sl); lia. }
  unfold reclaim, load_slab_reactor, slab. rewrite (proj2 (Z.eqb_neq _ _)) by done.
  rewrite bool_decide_eq_true_2, Hslot by done. cbn [obind]. rewrite Hsl. cbn [obind].
  fold (without id u (allocator s)).
  eexists _, q. split; [reflexivity|]. split; cbn [allocator reactor workers held reactor_at].
  - apply Hi.
  - by apply registry_without.
  - by apply chunks_without; [..|apply Hi|].
  - by apply (current_without _ _ _ Hr Hu (Reclaim n (id :: ids))).
  - apply Hi.
  - split; [intros n' [= <-]; done|]. by destruct ids.
  - eapply queue_frame; [eapply (reclaim_queue (allocator s) (without id u (allocator s)) (agent s)
      _ _ id u); [exact Hq|by apply registry_distinct| |done|done|done]|done|done|done|].
    + unfold zombies, deferred. cbn [deferred_reclaim_slot_ without set_registry set_heap]. rewrite (proj2 (Z.leb_le _ _)) by done. by destruct ids.
    + intros x. apply agent_reactor_quiet; [done|cbn; by rewrite Hpc].
Qed.

(** *** The allocating thread, on its slab *)

(** The current slab, which is loaded from its slot. *)
Lemma current_slab a pc :
  registry_ok a → current_ok a pc → changing pc = false →
  ∃ u sl, load_slab_reactor a (current_slab_slot_ a) = Returns u ∧ heap a !! u = Some sl ∧
    is_current_ sl = true ∧ slab_id_ sl = current_slab_slot_ a ∧
    current_slab_generation_ a = generation (registry a) (current_slab_slot_ a) ∧
    ∀ v sl', heap a !! v = Some sl' → is_current_ sl' = true → v = u.
Proof.
  intros Hr Hc Hp. unfold current_ok in Hc. rewrite Hp in Hc.
  destruct Hc as (u & sl & Hu & Hsl & Hcur & Hg & Hq).
  destruct (ro_slab _ Hr _ _ Hu) as (Hid & _ & Hpg). exists u, sl. split_and!; try done.
  - unfold load_slab_reactor. by rewrite bool_decide_eq_true_2, Hu.
  - unfold id_of in Hid. rewrite Hsl in Hid. by simplify_eq/=.
Qed.

Lemma not_in_slab u cs c : in_slab u cs = [] → c ∈ cs → chunk_slab c ≠ u.
Proof.
  intros Hn Hc He. assert (Hin : c ∈ in_slab u cs) by (by apply list_elem_of_filter).
  rewrite Hn in Hin. set_solver.
Qed.

Lemma chunks_reset a cs u sl :
  chunks_ok a cs → 0 < slab_size_ a → heap a !! u = Some sl → in_slab u cs = [] →
  chunks_ok (put u (reset sl) a) cs.
Proof.
  intros [H1 H2 H3 H4 H5] Hsz Hsl Hn. split; try done.
  - intros v sv. cbn. destruct (decide (u = v)) as [<-|Hne].
    + rewrite lookup_insert_eq. intros Hv. simplify_eq. exact (H2 _ _ Hsl).
    + rewrite lookup_insert_ne by done. apply H2.
  - intros v sv. cbn. destruct (decide (u = v)) as [<-|Hne].
    + rewrite lookup_insert_eq. intros Hv. simplify_eq. cbn. lia.
    + rewrite lookup_insert_ne by done. apply H3.
  - intros c Hc. destruct (H4 c Hc) as (sc & Hsc & Hcc). exists sc. cbn.
    rewrite lookup_insert_ne; [done|]. intros He. by apply (not_in_slab _ _ _ Hn Hc).
Qed.

Lemma allocated size n sl sl' off :
  SlabAllocator.allocate size n sl = (sl', Some off) → 0 ≤ bump_ sl →
  bump_ sl ≤ off ∧ off + n ≤ size ∧
  sl' = SlabAllocator.mk (slab_id_ sl) (off + n) (references_ sl + 1) (is_current_ sl) (next sl).
Proof.
  unfold SlabAllocator.allocate. cbn zeta. intros Ha Hb. pose proof (aligned_bounds _ Hb).
  destruct (Z.ltb_spec size (aligned (bump_ sl) + n)); [done|]. simplify_eq. split_and!; [lia|lia|done].
Qed.

Lemma chunks_allocated a cs u sl sl' n off h :
  chunks_ok a cs → 0 < n → heap a !! u = Some sl →
  SlabAllocator.allocate (slab_size_ a) n sl = (sl', Some off) →
  h = make_slab_handle (slab_id_ sl) (generation (registry a) (slab_id_ sl)) →
  chunks_ok (put u sl' a) (mk_chunk h u off n :: cs).
Proof.
  intros [H1 H2 H3 H4 H5] Hn Hsl Ha Hh. pose proof (H3 _ _ Hsl) as Hb.
  destruct (allocated _ _ _ _ _ Ha) as (Ho & He & ->); [lia|].
  assert (Hbelow : ∀ c, c ∈ cs → chunk_slab c = u → chunk_offset c + chunk_size c ≤ off ∧ 0 < chunk_size c).
  { intros c Hc Hcu. destruct (H4 c Hc) as (sc & Hsc & _ & _ & Hs & Hl). rewrite Hcu, Hsl in Hsc.
    simplify_eq. lia. }
  split.
  - apply NoDup_cons. split; [|done]. intros Hin. destruct (Hbelow _ Hin eq_refl) as [Hl _]. cbn in Hl. lia.
  - intros v sv. unfold in_slab. rewrite filter_cons. cbn [heap put set_heap chunk_slab]. destruct (decide (u = v)) as [<-|Hne].
    + rewrite lookup_insert_eq. intros Hv. simplify_eq. cbn. rewrite (H2 _ _ Hsl). unfold in_slab. lia.
    + rewrite lookup_insert_ne by done. apply H2.
  - intros v sv. cbn. destruct (decide (u = v)) as [<-|Hne].
    + rewrite lookup_insert_eq. intros Hv. simplify_eq. cbn. lia.
    + rewrite lookup_insert_ne by done. apply H3.
  - intros c. rewrite elem_of_cons. intros [->|Hc]; cbn.
    + rewrite lookup_insert_eq. eexists. split; [done|]. cbn. split; [done|lia].
    + destruct (H4 c Hc) as (sc & Hsc & Hcc). destruct (decide (u = chunk_slab c)) as [He'|Hne].
      * rewrite <- He', lookup_insert_eq. eexists. split; [done|]. cbn.
        rewrite <- He' in Hsc. simplify_eq. destruct Hcc as (? & ? & ? & ?). split_and!; try done; lia.
      * rewrite lookup_insert_ne by done. by exists sc.
  - intros c d. rewrite !elem_of_cons. intros [->|Hc] [->|Hd] Hcd Hs; cbn in *; [done| | |by apply H5].
    + destruct (Hbelow d Hd (eq_sym Hs)). lia.
    + destruct (Hbelow c Hc Hs). lia.
Qed.

(** What a slab counts, with nothing out of it. *)
Lemma nothing_out a cs u sl :
  chunks_ok a cs → heap a !! u = Some sl → outstanding_count sl = 0 → in_slab u cs = [].
Proof.
  intros Hc Hsl Ho. pose proof (co_references _ _ Hc _ _ Hsl). unfold outstanding_count in Ho.
  apply length_zero_iff_nil. destruct (is_current_ sl); lia.
Qed.

Lemma current_counted a cs u sl :
  chunks_ok a cs → heap a !! u = Some sl → is_current_ sl = true → 1 ≤ references_ sl.
Proof. intros Hc Hsl Hcur. rewrite (co_references _ _ Hc _ _ Hsl), Hcur. lia. Qed.

Lemma workers_more ws cs c : workers_ok ws cs → workers_ok ws (c :: cs).
Proof. intros [H1 H2]. split; [|done]. intros i w d Hi Hf. destruct (H1 i w d Hi Hf). split; [by right|done]. Qed.

Lemma self_reclaim_ok s q n :
  inv s q → reactor s = SelfReclaim n → ∃ s' q', reactor_step s = Returns s' ∧ inv s' q'.
Proof.
  intros Hi Hpc. unfold reactor_step. rewrite Hpc.
  pose proof (i_pc _ _ Hi) as [Hn _]. rewrite Hpc in Hn. specialize (Hn n eq_refl).
  pose proof (i_queue _ _ Hi) as Hq. rewrite Hpc in Hq. cbn in Hq.
  destruct (current_slab _ _ (i_registry _ _ Hi) (i_current _ _ Hi)) as (u & sl & -> & Hsl & Hc & _);
    [by rewrite Hpc|].
  cbn [obind]. unfold slab. rewrite Hsl. cbn [obind]. eexists _, q. split; [reflexivity|].
  pose proof (current_counted _ _ _ _ (i_chunks _ _ Hi) Hsl Hc).
  assert (Hag : ∀ a x, agent (reactor_at s a (Bump n)) x = agent s x)
    by (intros a x; apply agent_reactor_quiet; [done|cbn; by rewrite Hpc]).
  destruct (Z.eqb_spec (outstanding_count sl) 0) as [Ho|Ho].
  - pose proof (nothing_out _ _ _ _ (i_chunks _ _ Hi) Hsl Ho) as Hno.
    split; cbn [allocator reactor workers held reactor_at].
    + apply Hi.
    + eapply registry_put; [done|done|apply Hi].
    + apply chunks_reset; [apply Hi|apply Hi|done|done].
    + eapply current_put; [done|done|]. pose proof (i_current _ _ Hi) as Hcu. by rewrite Hpc in Hcu.
    + apply Hi.
    + split; [intros n' [= <-]; done|done].
    + eapply queue_put; [exact Hq|done|lia|cbn; lia|apply Hag].
  - eapply links_step; [done|apply same_slabs_refl|done|by rewrite Hpc|apply Hi| |].
    + split; [intros n' [= <-]; done|done].
    + eapply queue_frame; [exact Hq|done|done|done|apply Hag].
Qed.

Lemma bump_ok s q n :
  inv s q → reactor s = Bump n → ∃ s' q', reactor_step s = Returns s' ∧ inv s' q'.
Proof.
  intros Hi Hpc. unfold reactor_step. rewrite Hpc.
  pose proof (i_pc _ _ Hi) as [Hn _]. rewrite Hpc in Hn. specialize (Hn n eq_refl).
  pose proof (i_queue _ _ Hi) as Hq. rewrite Hpc in Hq. cbn in Hq.
  destruct (current_slab _ _ (i_registry _ _ Hi) (i_current _ _ Hi)) as (u & sl & -> & Hsl & Hc & Hid & Hg & _);
    [by rewrite Hpc|].
  cbn [obind]. unfold allocate_from, slab. cbn zeta. rewrite Hsl. cbn [obind].
  pose proof (current_counted _ _ _ _ (i_chunks _ _ Hi) Hsl Hc).
  destruct (SlabAllocator.allocate _ _ _) as [sl' [off|]] eqn:Ha.
  - eexists _, q. split; [reflexivity|].
    pose proof (co_bump _ _ (i_chunks _ _ Hi) _ _ Hsl) as Hb.
    destruct (allocated _ _ _ _ _ Ha) as (Ho & He & Hsl'); [lia|].
    split; cbn [allocator reactor workers held].
    + apply Hi.
    + eapply registry_put; [done|by rewrite Hsl'|apply Hi].
    + eapply chunks_allocated; [apply Hi|lia|done|done|]. by rewrite Hid, Hg.
    + eapply current_put; [done|by rewrite Hsl'|]. pose proof (i_current _ _ Hi) as Hcu. by rewrite Hpc in Hcu.
    + apply workers_more, Hi.
    + by split.
    + eapply queue_put; [exact Hq|done|lia|rewrite Hsl'; cbn; lia|].
      intros [i|]; [done|]. cbn. by rewrite Hpc.
  - eexists _, q. split; [reflexivity|].
    eapply links_step; [done|apply same_slabs_refl|done|by rewrite Hpc|apply Hi| |].
    + split; [intros n' [= <-]; done|done].
    + eapply queue_frame; [exact Hq|done|done|done|].
      intros x. apply agent_reactor_quiet; [done|cbn; by rewrite Hpc].
Qed.

(** *** The allocating thread, changing slabs *)

Lemma chunks_retired a cs u sl :
  chunks_ok a cs → heap a !! u = Some sl → is_current_ sl = true →
  chunks_ok (put u (SlabAllocator.mk (slab_id_ sl) (bump_ sl) (references_ sl - 1) false (next sl)) a) cs.
Proof.
  intros [H1 H2 H3 H4 H5] Hsl Hc. split; try done.
  - intros v sv. cbn. destruct (decide (u = v)) as [<-|Hne].
    + rewrite lookup_insert_eq. intros Hv. simplify_eq. cbn. rewrite (H2 _ _ Hsl), Hc. lia.
    + rewrite lookup_insert_ne by done. apply H2.
  - intros v sv. cbn. destruct (decide (u = v)) as [<-|Hne].
    + rewrite lookup_insert_eq. intros Hv. simplify_eq. exact (H3 _ _ Hsl).
    + rewrite lookup_insert_ne by done. apply H3.
  - intros c Hc'. destruct (H4 c Hc') as (sc & Hsc & Hcc). cbn.
    destruct (decide (u = chunk_slab c)) as [He|Hne].
    + rewrite <- He, lookup_insert_eq. rewrite <- He in Hsc. simplify_eq. eexists. by split.
    + rewrite lookup_insert_ne by done. by exists sc.
Qed.

Lemma retire_ok s q n :
  inv s q → reactor s = Retire n → ∃ s' q', reactor_step s = Returns s' ∧ inv s' q'.
Proof.
  intros Hi Hpc. unfold reactor_step. rewrite Hpc.
  pose proof (i_pc _ _ Hi) as [Hn _]. rewrite Hpc in Hn. specialize (Hn n eq_refl).
  pose proof (i_queue _ _ Hi) as Hq. rewrite Hpc in Hq. cbn in Hq.
  destruct (current_slab _ _ (i_registry _ _ Hi) (i_current _ _ Hi)) as (u & sl & -> & Hsl & Hc & Hid & Hg & Huq);
    [by rewrite Hpc|].
  pose proof (current_counted _ _ _ _ (i_chunks _ _ Hi) Hsl Hc) as Hge.
  cbn [obind]. unfold slab. rewrite Hsl. cbn [obind]. unfold stop_being_current. rewrite Hc.
  cbn [negb obind fst snd fetch_sub slab_id_ bump_ references_ is_current_ next].
  set (sl' := SlabAllocator.mk _ _ _ _ _).
  assert (Hne : ¬ emptied (allocator s) u).
  { intros (sl0 & Hsl0 & Hr). rewrite Hsl in Hsl0. simplify_eq. lia. }
  eexists _, q. split; [reflexivity|].
  set (pc := if references_ sl =? 1 then _ else _).
  assert (Hch : changing pc = true) by (unfold pc; by case_if).
  assert (Hrq : requested pc = Some n) by (unfold pc; by case_if).
  assert (Hz : zombies (put u sl' (allocator s)) pc = deferred (allocator s)) by (unfold pc; by case_if).
  split; cbn [allocator reactor workers held reactor_at].
  - apply Hi.
  - eapply registry_put; [done|done|apply Hi].
  - apply chunks_retired; [apply Hi|done|done].
  - unfold current_ok. rewrite Hch. intros v sv. cbn. destruct (decide (u = v)) as [<-|Huv].
    + rewrite lookup_insert_eq. intros Hv. by simplify_eq.
    + rewrite lookup_insert_ne by done. intros Hv. destruct (is_current_ sv) eqn:Hcv; [|done].
      exfalso. apply Huv. symmetry. by eapply Huq.
  - apply Hi.
  - split; [intros n'; rewrite Hrq; intros [= <-]; done|]. unfold pc. by case_if.
  - rewrite Hz. subst pc. destruct (Z.eqb_spec (references_ sl) 1) as [H1|H1].
    + eapply (newly_empty_ok (allocator s) _ (agent s) _ None); [exact Hq|done|exact Hne| | | | | |done|].
      * eexists. split; [by apply lookup_insert_eq|]. cbn. lia.
      * intros v Hv. cbn. by rewrite lookup_insert_ne.
      * by apply (id_put _ _ sl).
      * apply registry_distinct, Hi.
      * cbn. by rewrite Hpc.
      * intros y Hy. by apply agent_reactor_other.
    + eapply queue_put; [exact Hq|done|lia|cbn; lia|].
      intros x. apply agent_reactor_quiet; [done|cbn; by rewrite Hpc].
Qed.

Lemma queue_old_ok s q n u :
  inv s q → reactor s = QueueOld n u → ∃ s' q', reactor_step s = Returns s' ∧ inv s' q'.
Proof.
  intros Hi Hpc. unfold reactor_step. rewrite Hpc.
  pose proof (i_pc _ _ Hi) as [Hn _]. rewrite Hpc in Hn. specialize (Hn n eq_refl).
  pose proof (i_queue _ _ Hi) as Hq. rewrite Hpc in Hq. cbn in Hq.
  edestruct (exchange_node_ok (allocator s) (agent s)
    (agent (reactor_at s (allocator s) (LinkOld n (tail_ (empty_slab_queue_ (allocator s))) u))) None u)
    as (sl & Hsl & -> & Hq'); [exact Hq|cbn; by rewrite Hpc|done|intros y Hy; by apply agent_reactor_other|].
  eexists _, _. split; [reflexivity|].
  eapply links_step; [done|by apply same_set_queue, same_put_next|done|by rewrite Hpc|apply Hi| |exact Hq'].
  split; [intros n' [= <-]; done|done].
Qed.

Lemma link_old_ok s q n p u :
  inv s q → reactor s = LinkOld n p u → ∃ s' q', reactor_step s = Returns s' ∧ inv s' q'.
Proof.
  intros Hi Hpc. unfold reactor_step. rewrite Hpc.
  pose proof (i_pc _ _ Hi) as [Hn _]. rewrite Hpc in Hn. specialize (Hn n eq_refl).
  pose proof (i_queue _ _ Hi) as Hq. rewrite Hpc in Hq. cbn in Hq.
  edestruct (link_ok (allocator s) (agent s) (agent (reactor_at s (allocator s) (Append n))) None p u)
    as (a' & -> & Hq' & _ & Hform); [exact Hq|cbn; by rewrite Hpc|done|intros y Hy; by apply agent_reactor_other|].
  assert (Hss : same_slabs (allocator s) a').
  { destruct Hform as [(v & sl & -> & Hv & ->)|[-> ->]]; [by apply same_put_next|].
    apply same_set_queue, same_slabs_refl. }
  assert (Hd : deferred_reclaim_slot_ a' = deferred_reclaim_slot_ (allocator s))
    by (by destruct Hform as [(v & sl & -> & Hv & ->)|[-> ->]]).
  eexists _, q. split; [reflexivity|].
  eapply links_step; [done|exact Hss|done|by rewrite Hpc|apply Hi| |].
  - split; [intros n' [= <-]; cbn; by rewrite (ss_size _ _ Hss)|done].
  - cbn. unfold deferred in *. rewrite Hd. exact Hq'.
Qed.

(** The slots that have a slab are as many as the slabs. *)
Lemma all_slots_used a :
  registry_ok a → (∀ id, 0 ≤ id < max_pages * page_size → slots (registry a) !! id ≠ None) →
  (Z.to_nat (max_pages * page_size) ≤ size (heap a))%nat.
Proof.
  intros Hr Hall.
  set (users := list_to_set ((λ id, default 0%nat (slots (registry a) !! id)) <$> seqZ 0 (max_pages * page_size)) : gset nat).
  assert (Hsub : users ⊆ dom (heap a)).
  { intros u. unfold users. rewrite elem_of_list_to_set, list_elem_of_fmap. intros (id & -> & Hid).
    apply elem_of_seqZ in Hid. destruct (slots (registry a) !! id) as [u|] eqn:Hu; [|by destruct (Hall id ltac:(lia))].
    cbn. destruct (ro_slab _ Hr _ _ Hu) as (He & _). unfold id_of in He. apply elem_of_dom.
    destruct (heap a !! u); done. }
  apply subseteq_size in Hsub. rewrite size_dom in Hsub. etrans; [|exact Hsub].
  unfold users. rewrite size_list_to_set; [by rewrite length_fmap, length_seqZ|].
  apply NoDup_fmap_2_strong; [|apply NoDup_seqZ]. intros i j Hi Hj. rewrite elem_of_seqZ in Hi, Hj.
  destruct (slots (registry a) !! i) as [u|] eqn:Hu; [|by destruct (Hall i ltac:(lia))].
  destruct (slots (registry a) !! j) as [v|] eqn:Hv; [|by destruct (Hall j ltac:(lia))].
  cbn. intros ->. destruct (ro_slab _ Hr _ _ Hu) as (H1 & _), (ro_slab _ Hr _ _ Hv) as (H2 & _). congruence.
Qed.

(** A slot is claimed that has no slab, unless they all have one. *)
Lemma claim_slot_ok a :
  registry_ok a →
  claim_slot (registry a) = Throws PubSubItcException ∧
    (Z.to_nat (max_pages * page_size) ≤ size (heap a))%nat ∨
  ∃ r id l, claim_slot (registry a) = Returns (r, id) ∧
    slots r = slots (registry a) ∧ generations r = generations (registry a) ∧ pages_ r = pages_ (registry a) ∧
    slots (registry a) !! id = None ∧
    slab_slot_count_ (registry a) ≤ slab_slot_count_ r ≤ max_pages * page_size ∧
    0 ≤ id < slab_slot_count_ r ∧
    free_chain (next_free r) (free_slot_head_ r) l ∧ NoDup l ∧
    (∀ i, i ∈ l ↔ 0 ≤ i < slab_slot_count_ r ∧ slots (registry a) !! i = None ∧ i ≠ id).
Proof.
  intros Hr. destruct (ro_free _ Hr) as (l & Hc & Hn & Hl). pose proof (ro_count _ Hr) as Hct.
  unfold claim_slot. destruct l as [|x l]; cbn in Hc.
  - rewrite Hc. cbn [Z.leb Z.compare]. destruct (Z.leb_spec (max_pages * page_size) (slab_slot_count_ (registry a))).
    + left. split; [done|]. apply all_slots_used; [done|]. intros id Hid Hnone.
      assert (Hin : id ∈ []) by (apply Hl; split; [lia|done]). set_solver.
    + right. eexists _, _, []. split; [reflexivity|]. cbn.
      assert (Hnone : slots (registry a) !! slab_slot_count_ (registry a) = None).
      { destruct (slots (registry a) !! _) as [u|] eqn:Hu; [|done].
        destruct (ro_slab _ Hr _ _ Hu) as (_ & Hb & _). lia. }
      do 4 (split; [done|]). split; [lia|]. split; [lia|]. split; [done|]. split; [constructor|].
      intros i. specialize (Hl i). split; [set_solver|]. intros (H1 & H2 & H3).
      apply Hl. split; [lia|done].
  - destruct Hc as (Hhd & Hx & Hc). rewrite Hhd, (proj2 (Z.leb_le _ _)) by done. right.
    destruct (proj1 (Hl x) ltac:(left)) as [Hb Hnone]. apply NoDup_cons in Hn as [Hxl Hn].
    eexists _, x, l. split; [reflexivity|]. cbn.
    do 4 (split; [done|]). split; [lia|]. split; [lia|]. split; [done|]. split; [done|].
    intros i. specialize (Hl i). rewrite elem_of_cons in Hl. split.
    + intros Hi. destruct (proj1 Hl ltac:(by right)). split; [done|]. split; [done|]. by intros ->.
    + intros (H1 & H2 & H3). by destruct (proj2 Hl (conj H1 H2)).
Qed.

(** The allocator with a new slab in slot [id], which is current. *)
Definition with_slab (r : Registry) (id : Z) (left_ : nat) (a : t) : t :=
  let r1 := mk_registry ({[ Z.shiftr id page_bits ]} ∪ pages_ r) (<[id := fresh a]> (slots r))
              (generations r) (next_free r) (free_slot_head_ r) (free_slot_count_ r)
              (slab_slot_count_ r) in
  mk (slab_size_ a) id (generation r1 id) (deferred_reclaim_slot_ a) (empty_slab_queue_ a) r1
     (<[fresh a := SlabAllocator.initial id]> (heap a)) (S (fresh a)) left_.

Section with_slab.
Context (a : t) (r : Registry) (id : Z) (left_ : nat) (l : list Z).
Context (Hr : registry_ok a).
Context (Hslots : slots r = slots (registry a)) (Hgens : generations r = generations (registry a)).
Context (Hpages : pages_ r = pages_ (registry a)) (Hnone : slots (registry a) !! id = None).
Context (Hcount : slab_slot_count_ (registry a) ≤ slab_slot_count_ r ≤ max_pages * page_size).
Context (Hid : 0 ≤ id < slab_slot_count_ r).
Context (Hc : free_chain (next_free r) (free_slot_head_ r) l) (Hn : NoDup l).
Context (Hl : ∀ i, i ∈ l ↔ 0 ≤ i < slab_slot_count_ r ∧ slots (registry a) !! i = None ∧ i ≠ id).

Lemma fresh_not_there : heap a !! fresh a = None.
Proof.
  destruct (heap a !! fresh a) as [sl|] eqn:Hsl; [|done].
  assert (He : id_of a (fresh a) = Some (slab_id_ sl)) by (unfold id_of; by rewrite Hsl).
  pose proof (ro_fresh _ Hr _ _ He). lia.
Qed.

Lemma id_with_same : id_of (with_slab r id left_ a) (fresh a) = Some id.
Proof. unfold id_of. cbn. by rewrite lookup_insert_eq. Qed.

Lemma id_with_other v : v ≠ fresh a → id_of (with_slab r id left_ a) v = id_of a v.
Proof. intros Hv. unfold id_of. cbn. by rewrite lookup_insert_ne. Qed.

Lemma generation_with i : generation (registry (with_slab r id left_ a)) i = generation (registry a) i.
Proof. unfold generation. cbn. by rewrite Hgens. Qed.

Lemma registry_with : registry_ok (with_slab r id left_ a).
Proof.
  assert (Hsome : ∀ v i, id_of a v = Some i → i ≠ id).
  { intros v i Hv ->. apply (ro_slot _ Hr) in Hv. congruence. }
  split.
  - intros v i Hv. cbn. rewrite Hslots. destruct (decide (v = fresh a)) as [->|Hvf].
    + rewrite id_with_same in Hv. simplify_eq. by rewrite lookup_insert_eq.
    + rewrite id_with_other in Hv by done. rewrite lookup_insert_ne; [by apply Hr|].
      intros <-. by eapply Hsome.
  - intros i v. cbn [registry with_slab slots pages_ slab_slot_count_]. rewrite Hslots, Hpages, lookup_insert_Some.
    intros [[Hie <-]|[Hi Hv]].
    + rewrite <- Hie, id_with_same. split; [done|]. split; [lia|set_solver].
    + destruct (ro_slab _ Hr _ _ Hv) as (He & Hb & Hp).
      assert (v ≠ fresh a) by (intros ->; pose proof (ro_fresh _ Hr _ _ He); lia).
      rewrite id_with_other by done. split; [done|]. split; [lia|set_solver].
  - exists l. cbn. split_and!; [done..|]. intros i. rewrite Hl, Hslots.
    destruct (decide (i = id)) as [->|Hi].
    + rewrite lookup_insert_eq. naive_solver.
    + rewrite lookup_insert_ne by done. naive_solver.
  - cbn. pose proof (ro_count _ Hr). lia.
  - intros i. rewrite generation_with. apply Hr.
  - intros v i Hv. cbn. destruct (decide (v = fresh a)) as [->|Hvf]; [lia|].
    rewrite id_with_other in Hv by done. pose proof (ro_fresh _ Hr _ _ Hv). lia.
Qed.

Lemma chunks_with cs : 0 < slab_size_ a → chunks_ok a cs → chunks_ok (with_slab r id left_ a) cs.
Proof.
  intros Hsz [H1 H2 H3 H4 H5].
  assert (Hnc : ∀ c, c ∈ cs → chunk_slab c ≠ fresh a).
  { intros c Hc' He. destruct (H4 c Hc') as (sc & Hsc & _). rewrite He, fresh_not_there in Hsc. done. }
  split; try done.
  - intros v sv. cbn. destruct (decide (fresh a = v)) as [<-|Hne].
    + rewrite lookup_insert_eq. intros Hv. simplify_eq. cbn.
      assert (in_slab (fresh a) cs = []) as ->; [|done].
      destruct (in_slab (fresh a) cs) as [|c cs'] eqn:He; [done|].
      assert (Hin : c ∈ in_slab (fresh a) cs) by (rewrite He; left).
      apply list_elem_of_filter in Hin as [Hc1 Hc2]. by destruct (Hnc c Hc2).
    + rewrite lookup_insert_ne by done. apply H2.
  - intros v sv. cbn. destruct (decide (fresh a = v)) as [<-|Hne].
    + rewrite lookup_insert_eq. intros Hv. simplify_eq. cbn. lia.
    + rewrite lookup_insert_ne by done. apply H3.
  - intros c Hc'. destruct (H4 c Hc') as (sc & Hsc & Hh & Ho). exists sc.
    cbn [heap with_slab]. rewrite lookup_insert_ne by (by apply not_eq_sym, Hnc). split; [done|].
    by rewrite generation_with.
Qed.

Lemma current_with pc pc' :
  changing pc = true → changing pc' = false → current_ok a pc → current_ok (with_slab r id left_ a) pc'.
Proof.
  intros Hp Hp'. unfold current_ok. rewrite Hp, Hp'. intros Hno.
  exists (fresh a), (SlabAllocator.initial id). cbn. rewrite !lookup_insert_eq. split_and!; try done.
  intros v sv. destruct (decide (fresh a = v)) as [<-|Hne]; [done|]. rewrite lookup_insert_ne by done.
  intros Hv Hcv. rewrite (Hno _ _ Hv) in Hcv. done.
Qed.

Lemma queue_with ag ag' zs q :
  queue_ok a ag zs q → (∀ x, ag' x = ag x) → queue_ok (with_slab r id left_ a) ag' zs q.
Proof.
  intros Hq Ha. eapply queue_frame; [exact Hq|done| | |exact Ha].
  - intros u s Hs Hz. cbn. rewrite lookup_insert_ne; [done|]. intros <-. by rewrite fresh_not_there in Hs.
  - intros u (s & Hs & Hz). cbn in Hs. destruct (decide (fresh a = u)) as [<-|Hne].
    + rewrite lookup_insert_eq in Hs. simplify_eq/=.
    + rewrite lookup_insert_ne in Hs by done. by exists s.
Qed.

End with_slab.

(** The kernel has no memory, or every slot has a slab. *)
Definition exhausted (a : t) (e : exn) : Prop :=
  e = PubSubItcException ∧ (Z.to_nat (max_pages * page_size) ≤ size (heap a))%nat ∨
  e = BadAlloc ∧ mmaps a = 0%nat.

Lemma publish_slab_ok a :
  registry_ok a →
  (∃ e, publish_new_slab a = Throws e ∧ exhausted a e) ∨
  ∃ r id l left_, publish_new_slab a = Returns (with_slab r id left_ a) ∧ mmaps a = S left_ ∧
    slots r = slots (registry a) ∧ generations r = generations (registry a) ∧ pages_ r = pages_ (registry a) ∧
    slots (registry a) !! id = None ∧
    slab_slot_count_ (registry a) ≤ slab_slot_count_ r ≤ max_pages * page_size ∧
    0 ≤ id < slab_slot_count_ r ∧
    free_chain (next_free r) (free_slot_head_ r) l ∧ NoDup l ∧
    (∀ i, i ∈ l ↔ 0 ≤ i < slab_slot_count_ r ∧ slots (registry a) !! i = None ∧ i ≠ id).
Proof.
  intros Hr. unfold publish_new_slab.
  destruct (claim_slot_ok _ Hr) as [[-> Hs]|(r & id & l & -> & Hrest)]; cbn [obind].
  - left. eexists. split; [done|]. by left.
  - destruct (mmaps a) as [|left_] eqn:Hm.
    + left. eexists. split; [done|]. by right.
    + right. exists r, id, l, left_. split; [done|]. by split.
Qed.

Lemma append_slab_ok s q n :
  inv s q → reactor s = Append n →
  (∃ e, reactor_step s = Throws e ∧ exhausted (allocator s) e) ∨
  ∃ s' q', reactor_step s = Returns s' ∧ inv s' q'.
Proof.
  intros Hi Hpc. unfold reactor_step. rewrite Hpc.
  pose proof (i_pc _ _ Hi) as [Hn _]. rewrite Hpc in Hn. specialize (Hn n eq_refl).
  pose proof (i_queue _ _ Hi) as Hq. rewrite Hpc in Hq. cbn in Hq.
  pose proof (i_current _ _ Hi) as Hcur. rewrite Hpc in Hcur.
  pose proof (i_registry _ _ Hi) as Hr. pose proof (i_size _ _ Hi) as Hsz.
  destruct (publish_slab_ok _ Hr) as [(e & -> & He)|(r & id & l & left_ & -> & Hm & H1 & H2 & H3 & H4 & H5 & H6 & H7 & H8 & H9)];
    [left; by exists e|right]; cbn [obind].
  set (a' := with_slab r id left_ (allocator s)).
  assert (Hr' : registry_ok a') by (by eapply registry_with).
  assert (Hc' : chunks_ok a' (held s)) by (by apply chunks_with; [..|apply Hi]).
  assert (Hcur' : current_ok a' Idle) by (by apply (current_with _ _ _ _ (Append n))).
  destruct (current_slab _ _ Hr' Hcur') as (u & sl & -> & Hsl & Hc & Hid & Hg & Huq); [done|].
  assert (Hu : heap a' !! fresh (allocator s) = Some (SlabAllocator.initial id))
    by (cbn; by rewrite lookup_insert_eq).
  pose proof (Huq _ _ Hu eq_refl) as <-. rewrite Hu in Hsl. simplify_eq.
  cbn [obind]. unfold slab. rewrite Hu. cbn [obind].
  assert (Hfit : SlabAllocator.allocate (slab_size_ a') n (SlabAllocator.initial id)
    = (SlabAllocator.mk id n 2 true None, Some 0)).
  { unfold SlabAllocator.allocate. change (slab_size_ a') with (slab_size_ (allocator s)).
    change (aligned (bump_ (SlabAllocator.initial id))) with 0. cbn zeta.
    by rewrite (proj2 (Z.ltb_ge _ _)) by lia. }
  rewrite Hfit. unfold allocate_from. cbn zeta. cbn [allocator reactor_at]. unfold slab. rewrite Hu. cbn [obind].
  rewrite Hfit. eexists _, q. split; [reflexivity|].
  split; cbn [allocator reactor workers held reactor_at].
  - exact Hsz.
  - by eapply registry_put.
  - eapply chunks_allocated; [done|lia|exact Hu|done|]. cbn -[generation a']. by rewrite Hg.
  - by eapply current_put.
  - apply workers_more, Hi.
  - by split.
  - eapply queue_put; [|exact Hu|done|done|reflexivity].
    apply (queue_with (allocator s) r id left_ Hr (agent s)); [exact Hq|].
    intros [i|]; [done|]. cbn. by rewrite Hpc.
Qed.

Lemma reactor_step_ok s q :
  inv s q →
  (∃ n e, reactor s = Append n ∧ reactor_step s = Throws e ∧ exhausted (allocator s) e) ∨
  ∃ s' q', reactor_step s = Returns s' ∧ inv s' q'.
Proof.
  intros Hi. destruct (reactor s) as [|n ids|n ids|n ids|n|n|n|n u|n p u|n] eqn:Hpc.
  - right. exists s, q. unfold reactor_step. by rewrite Hpc.
  - right. by eapply drain_next_ok.
  - right. by eapply drain_tail_ok.
  - right. destruct ids as [|id ids]; [|by eapply reclaim_ok].
    exists (reactor_at s (allocator s) (SelfReclaim n)), q. unfold reactor_step. rewrite Hpc. split; [done|].
    pose proof (i_pc _ _ Hi) as [Hn _]. rewrite Hpc in Hn. specialize (Hn n eq_refl).
    pose proof (i_queue _ _ Hi) as Hq. rewrite Hpc in Hq. cbn in Hq.
    eapply links_step; [done|apply same_slabs_refl|done|by rewrite Hpc|apply Hi| |].
    + split; [intros n' [= <-]; done|done].
    + eapply queue_frame; [exact Hq|done|done|done|].
      intros x. apply agent_reactor_quiet; [done|cbn; by rewrite Hpc].
  - right. by eapply self_reclaim_ok.
  - right. by eapply bump_ok.
  - right. by eapply retire_ok.
  - right. by eapply queue_old_ok.
  - right. by eapply link_old_ok.
  - destruct (append_slab_ok _ _ _ Hi Hpc) as [(e & He & Hx)|]; [left|by right]. by exists n, e.
Qed.

Lemma start_allocate_ok s q n :
  inv s q → reactor s = Idle → 0 < n ≤ slab_size_ (allocator s) →
  ∃ s', start_allocate n s = Returns s' ∧ inv s' q ∧ s' = reactor_at s (allocator s) (DrainNext n []).
Proof.
  intros Hi Hpc Hn. unfold start_allocate. rewrite (proj2 (Z.eqb_neq _ _)), (proj2 (Z.ltb_ge _ _)) by lia.
  eexists. split_and!; [reflexivity| |done].
  pose proof (i_queue _ _ Hi) as Hq. rewrite Hpc in Hq. cbn in Hq.
  eapply links_step; [done|apply same_slabs_refl|done|by rewrite Hpc|apply Hi| |].
  - split; [intros n' [= <-]; done|done].
  - cbn. rewrite app_nil_r. eapply queue_frame; [exact Hq|done|done|done|].
    intros x. apply agent_reactor_quiet; [done|cbn; by rewrite Hpc].
Qed.

Lemma start_deallocate_ok s q i c :
  inv s q → permitted (Deallocate i c) s →
  inv (worker_at s i (allocator s) (Some (FindSlab c))) q.
Proof.
  intros Hi (Hw & Hc & Hothers). pose proof (i_workers _ _ Hi) as [H1 H2].
  eapply links_step; [done|apply same_slabs_refl|done|done| |apply Hi|].
  - cbn. split.
    + intros j w d. destruct (decide (i = j)) as [<-|Hij].
      * rewrite lookup_partial_alter_eq. intros [= <-] [= <-]. done.
      * rewrite lookup_partial_alter_ne by done. apply H1.
    + intros j k w w' d. destruct (decide (i = j)) as [<-|Hij], (decide (i = k)) as [<-|Hik].
      * done.
      * rewrite lookup_partial_alter_eq, lookup_partial_alter_ne by done. intros [= <-] Hk [= <-] Hd.
        by destruct (Hothers k w').
      * rewrite lookup_partial_alter_eq, lookup_partial_alter_ne by done. intros Hj [= <-] Hd [= <-].
        by destruct (Hothers j w).
      * rewrite !lookup_partial_alter_ne by done. apply H2.
  - eapply queue_frame; [apply Hi|done|done|done|]. intros [j|]; [|done]. cbn.
    destruct (decide (i = j)) as [<-|Hij]; [by rewrite lookup_partial_alter_eq, Hw|].
    by rewrite lookup_partial_alter_ne.
Qed.

(** Every permitted step goes through, unless the memory or the slots are used
    up, and keeps the invariant. *)
Lemma step_ok s q x :
  inv s q → permitted x s →
  (∃ n e, x = ReactorStep ∧ reactor s = Append n ∧ step x s = Throws e ∧ exhausted (allocator s) e) ∨
  ∃ s' q', step x s = Returns s' ∧ inv s' q'.
Proof.
  intros Hi Hp. destruct x as [n|i c| |i]; cbn [step].
  - right. destruct Hp as [Hpc Hn]. destruct (start_allocate_ok _ _ _ Hi Hpc Hn) as (s' & ? & ? & _). eauto.
  - right. eexists _, q. split; [done|]. by apply start_deallocate_ok.
  - destruct (reactor_step_ok _ _ Hi) as [(n & e & H1 & H2 & H3)|]; [left|by right]. by exists n, e.
  - right. by eapply worker_step_ok.
Qed.

Lemma empty_ok slab_size mmaps : registry_ok (empty slab_size mmaps).
Proof.
  split.
  - done.
  - done.
  - exists []. split_and!; [done|constructor|]. intros id. cbn. split; [set_solver|]. intros [? _]. lia.
  - done.
  - intros id. unfold generation. cbn. by rewrite lookup_empty.
  - done.
Qed.

Lemma create_ok slab_size mmaps a :
  0 < slab_size → create slab_size mmaps = Returns a → inv (mk_system a Idle ∅ []) [Dummy].
Proof.
  intros Hsz. unfold create. rewrite (proj2 (Z.eqb_neq _ _)) by lia.
  pose proof (empty_ok slab_size mmaps) as Hr.
  destruct (publish_slab_ok _ Hr) as [(e & -> & He)|(r & id & l & left_ & -> & Hm & H1 & H2 & H3 & H4 & H5 & H6 & H7 & H8 & H9)];
    [done|]. intros [= <-].
  split; cbn [allocator reactor workers held].
  - done.
  - by eapply registry_with.
  - apply chunks_with; try done. split; try done; [constructor|set_solver..].
  - by apply (current_with _ _ _ _ (Append 1)).
  - by split.
  - by split.
  - cbn. apply (queue_with _ _ _ _ Hr (λ _, None)); [|by intros [i|]].
    split; try done; cbn.
    + apply NoDup_singleton.
    + intros n m Hf. apply follows_elem in Hf as [_ Hf]. set_solver.
    + set_solver.
    + constructor.
    + set_solver.
    + intros u (s & Hs & _). done.
Qed.

Lemma reachable_ok slab_size mmaps s :
  0 < slab_size → reachable slab_size mmaps s → ∃ q, inv s q.
Proof.
  intros Hsz. induction 1 as [a Ha|x s s' Hs [q IH] Hp Hx].
  - eexists. by eapply create_ok.
  - destruct (step_ok _ _ _ IH Hp) as [(n & e & _ & _ & He & _)|(s'' & q' & He & Hi)]; [congruence|].
    exists q'. congruence.
Qed.
