(* ===== verification/SlabAllocatorTheorems.v ===== *)
(** What the slab allocator promises: whatever the threads do in whatever order,
    none follows a pointer to a slab that was deleted and no two chunks that are
    out overlap; and a call that runs alone ends, with a chunk, and leaves no
    more slabs than are in use.  The last part makes it the allocator that the
    framing layer asks for. *)

From stdpp Require Import gmap.
From S2P Require Import Prelude.
From S2P Require Import SlabAllocator.
From S2P Require Import SlabAllocatorQueue.
From S2P Require Import SlabAllocatorSafety.
From S2P Require Import PduFraming.
#[local] Open Scope Z_scope.
#[local] Open Scope venue_scope.
Import SlabAllocator ExpandableSlabAllocator SlabThreads.

(** ** All interleavings *)

(** The memory of a chunk. *)
Definition chunk_address (s : System) (c : Chunk) : Z := address (allocator s) (chunk_slab c) (chunk_offset c).

(** C15: In every state that an allocator can come to, whichever thread moves
    next and whatever the threads are in the middle of, the move goes through:
    no pointer to a deleted slab or to the node in it is followed, no chunk that
    is out is refused, and the current slab is never found on the queue.  The
    one exception is a new slab for which the kernel has no memory or the
    registry no slot. *)
Theorem every_interleaving_is_safe slab_size mmaps s x :
  0 < slab_size → reachable slab_size mmaps s → permitted x s →
  (∃ s', step x s = Returns s') ∨
  ∃ n e, x = ReactorStep ∧ reactor s = Append n ∧ step x s = Throws e ∧ exhausted (allocator s) e.
Proof.
  intros Hsz Hs Hp. destruct (reachable_ok _ _ _ Hsz Hs) as (q & Hi).
  destruct (step_ok _ _ _ Hi Hp) as [(n & e & H)|(s' & q' & H & _)].
  - right. by exists n, e.
  - left. by exists s'.
Qed.

Lemma address_range s q c :
  inv s q → c ∈ held s →
  ∃ sl, heap (allocator s) !! chunk_slab c = Some sl ∧ 0 < chunk_size c ∧
    (Z.of_nat (chunk_slab c) + 1) * slab_size_ (allocator s) ≤ chunk_address s c ∧
    chunk_address s c + chunk_size c ≤ (Z.of_nat (chunk_slab c) + 2) * slab_size_ (allocator s).
Proof.
  intros Hi Hc. destruct (co_chunk _ _ (i_chunks _ _ Hi) c Hc) as (sl & Hsl & _ & Ho & Hs & He).
  pose proof (co_bump _ _ (i_chunks _ _ Hi) _ _ Hsl). exists sl. unfold chunk_address, address.
  split_and!; [done|done|lia|lia].
Qed.

Lemma addresses_apart s q c d :
  inv s q → c ∈ held s → d ∈ held s → c ≠ d →
  chunk_address s c + chunk_size c ≤ chunk_address s d ∨
  chunk_address s d + chunk_size d ≤ chunk_address s c.
Proof.
  intros Hi Hc Hd Hne.
  destruct (decide (chunk_slab c = chunk_slab d)) as [He|Hs].
  - destruct (co_apart _ _ (i_chunks _ _ Hi) c d Hc Hd Hne He); unfold chunk_address, address;
      rewrite He; lia.
  - destruct (address_range _ _ _ Hi Hc) as (_ & _ & _ & H1 & H2).
    destruct (address_range _ _ _ Hi Hd) as (_ & _ & _ & H3 & H4).
    pose proof (i_size _ _ Hi). destruct (Nat.lt_total (chunk_slab c) (chunk_slab d)) as [Hl|[?|Hl]]; [|done|].
    + left. etrans; [exact H2|]. etrans; [|exact H3]. apply Z.mul_le_mono_nonneg_r; lia.
    + right. etrans; [exact H4|]. etrans; [|exact H1]. apply Z.mul_le_mono_nonneg_r; lia.
Qed.

(** C16: In every state that an allocator can come to, two chunks that are out
    share no byte, and each lies within the memory of a slab that is not
    deleted, in the slot and the generation that its handle names. *)
Theorem chunks_that_are_out_are_apart slab_size mmaps s c :
  0 < slab_size → reachable slab_size mmaps s → c ∈ held s →
  (∃ sl, heap (allocator s) !! chunk_slab c = Some sl ∧
     slots (registry (allocator s)) !! slab_handle_slot (handle c) = Some (chunk_slab c) ∧
     generation (registry (allocator s)) (slab_handle_slot (handle c)) = slab_handle_generation (handle c) ∧
     0 ≤ chunk_offset c ∧ chunk_offset c + chunk_size c ≤ slab_size_ (allocator s)) ∧
  ∀ d, d ∈ held s → c ≠ d →
    chunk_address s c + chunk_size c ≤ chunk_address s d ∨
    chunk_address s d + chunk_size d ≤ chunk_address s c.
Proof.
  intros Hsz Hs Hc. destruct (reachable_ok _ _ _ Hsz Hs) as (q & Hi). split.
  2:{ intros d Hd Hne. by eapply addresses_apart. }
  destruct (co_chunk _ _ (i_chunks _ _ Hi) c Hc) as (sl & Hsl & Hh & Ho & Hz & He).
  pose proof (i_registry _ _ Hi) as Hr. pose proof (co_bump _ _ (i_chunks _ _ Hi) _ _ Hsl).
  assert (Hid : id_of (allocator s) (chunk_slab c) = Some (slab_id_ sl)) by (unfold id_of; by rewrite Hsl).
  pose proof (slot_of_id _ _ _ Hr Hid). pose proof (ro_count _ Hr). pose proof (ro_generation _ Hr (slab_id_ sl)).
  unfold max_pages, page_size in *.
  exists sl. rewrite Hh, handle_slot, handle_generation by lia.
  split_and!; [done|by apply Hr|done|lia|lia].
Qed.

(** ** A call that runs alone *)

(** No other thread is in a call, and what [try_dequeue] is about to look at has
    not changed since its first load. *)
Definition lone (s : System) : Prop :=
  workers s = ∅ ∧
  match reactor s with DrainTail _ _ => try_dequeue_empty (allocator s) = true | _ => True end.

(** How many steps [allocate] has left at most. *)
Definition steps_left (s : System) : nat :=
  match reactor s with
  | Idle => 0
  | Append _ => 1
  | LinkOld _ _ _ => 2
  | QueueOld _ _ => 3
  | Retire _ => 4
  | Bump _ => 5
  | SelfReclaim _ => 6
  | Reclaim _ ids => 7 + length ids
  | DrainTail _ ids => 8 + length ids
  | DrainNext _ ids =>
      9 + length ids +
      2 * (size (heap (allocator s)) - length (zombies (allocator s) (reactor s)))
  end.

(** How many more slabs there can be. *)
Definition spare (a : t) : nat :=
  Z.to_nat (Z.min (Z.of_nat (mmaps a)) (max_pages * page_size - Z.of_nat (size (heap a)))).

Definition appends (s : System) : nat := match reactor s with Append _ => 1 | _ => 0 end.

Lemma exhausted_spare a e : exhausted a e → spare a = 0%nat.
Proof. unfold spare. intros [[_ H]|[_ H]]; lia. Qed.

(** The slabs that were taken off the queue are no more than there are. *)
Lemma zombies_bound s q : inv s q → (length (zombies (allocator s) (reactor s)) ≤ size (heap (allocator s)))%nat.
Proof.
  intros Hi. pose proof (i_queue _ _ Hi) as Hq. set (zs := zombies _ _) in *.
  set (a := allocator s) in *.
  set (users := list_to_set ((λ id, default 0%nat (slots (registry a) !! id)) <$> zs) : gset nat).
  assert (Hz : ∀ id, id ∈ zs → ∃ u, slots (registry a) !! id = Some u ∧ id_of a u = Some id).
  { intros id Hid. destruct (qo_zombie _ _ _ _ Hq _ Hid) as (u & Hu & _).
    exists u. split; [by apply (i_registry _ _ Hi)|done]. }
  assert (Hsub : users ⊆ dom (heap a)).
  { intros u. unfold users. rewrite elem_of_list_to_set, list_elem_of_fmap. intros (id & -> & Hid).
    destruct (Hz _ Hid) as (u & -> & Hu). cbn. apply elem_of_dom. unfold id_of in Hu.
    by destruct (heap a !! u). }
  apply subseteq_size in Hsub. rewrite size_dom in Hsub. etrans; [|exact Hsub].
  unfold users. rewrite size_list_to_set; [by rewrite length_fmap|].
  apply NoDup_fmap_2_strong; [|apply Hq]. intros i j Hin Hj.
  destruct (Hz _ Hin) as (u & -> & Hu), (Hz _ Hj) as (v & -> & Hv). cbn. intros ->. congruence.
Qed.

(** What a step of the drain leaves alone. *)
Record quiet_step (s s' : System) : Prop := {
  qs_workers : workers s' = workers s;
  qs_size : slab_size_ (allocator s') = slab_size_ (allocator s);
  qs_spare : (spare (allocator s) ≤ spare (allocator s') + appends s)%nat;
  qs_request n : requested (reactor s) = Some n →
    requested (reactor s') = Some n ∧ held s' = held s ∨
    reactor s' = Idle ∧ ∃ c, held s' = c :: held s ∧ chunk_size c = n
}.

(** With no other thread about, the end of the queue is its head once nothing
    follows the head. *)
Lemma alone_empty s q n ids :
  inv s q → workers s = ∅ → reactor s = DrainNext n ids →
  next_at (allocator s) (head_ (empty_slab_queue_ (allocator s))) = Some None →
  try_dequeue_empty (allocator s) = true.
Proof.
  intros Hi Hw Hpc Hn. pose proof (i_queue _ _ Hi) as Hq.
  pose proof (qo_head _ _ _ _ Hq) as Hh. pose proof (qo_last _ _ _ _ Hq) as Hl.
  unfold try_dequeue_empty. apply bool_decide_eq_true_2.
  destruct q as [|n0 [|m q]]; [done|cbn in *; congruence|]. cbn in Hh. simplify_eq.
  destruct (qo_link _ _ _ _ Hq (head_ (empty_slab_queue_ (allocator s))) m) as [He|(_ & x & u & _ & Hx)].
  - by exists 0%nat.
  - congruence.
  - exfalso. destruct x as [i|]; cbn in Hx; [by rewrite Hw, lookup_empty in Hx|by rewrite Hpc in Hx].
Qed.

Lemma size_put a u sl sl' : heap a !! u = Some sl → size (heap (put u sl' a)) = size (heap a).
Proof. intros Hu. cbn. apply map_size_insert_Some. by rewrite Hu. Qed.

Lemma spare_same a a' : mmaps a' = mmaps a → size (heap a') = size (heap a) → spare a' = spare a.
Proof. unfold spare. by intros -> ->. Qed.

Lemma quiet_links s a pc :
  slab_size_ a = slab_size_ (allocator s) → spare a = spare (allocator s) →
  requested pc = requested (reactor s) → quiet_step s (reactor_at s a pc).
Proof.
  intros Hs Hp Hr. split; cbn; [done|done|rewrite Hp; lia|]. intros n Hn. left. by rewrite Hr.
Qed.

Lemma step_drain_next s q n ids s' q' :
  inv s q → inv s' q' → workers s = ∅ → reactor s = DrainNext n ids → reactor_step s = Returns s' →
  quiet_step s s' ∧ lone s' ∧ (steps_left s' < steps_left s)%nat.
Proof.
  intros Hi Hi' Hw Hpc Hs. pose proof (i_queue _ _ Hi) as Hq. pose proof (zombies_bound _ _ Hi') as Hz.
  unfold reactor_step in Hs. rewrite Hpc in Hs, Hq. unfold steps_left at 2. rewrite Hpc.
  destruct (pop_ok _ _ _ _ Hq (registry_distinct _ (i_registry _ _ Hi)))
    as [[Hd Hn]|(u & sl & a' & Hd & Hsl & -> & Hlen & Hq')]; rewrite Hd in Hs; cbn in Hs; simplify_eq.
  - split_and!; [by apply quiet_links; rewrite ?Hpc| |cbn; lia].
    split; [done|]. cbn. by eapply alone_empty.
  - unfold collect in *. cbn [registry set_queue] in *.
    assert (Hid : id_of (allocator s) u = Some (slab_id_ sl)) by (unfold id_of; by rewrite Hsl).
    pose proof (slot_of_id _ _ _ (i_registry _ _ Hi) Hid) as Hb.
    rewrite (proj2 (Z.leb_le _ _)), (proj2 (Z.ltb_lt _ _)) in * by lia. cbn [andb] in *.
    split_and!; [by apply quiet_links; rewrite ?Hpc|by split|].
    cbn -[Nat.mul] in *. rewrite !length_app in *. cbn -[Nat.mul] in *.
    change (deferred (set_queue _ _)) with (deferred (allocator s)) in *. lia.
Qed.

Lemma step_drain_tail s n ids s' :
  lone s → reactor s = DrainTail n ids → reactor_step s = Returns s' →
  quiet_step s s' ∧ lone s' ∧ (steps_left s' < steps_left s)%nat.
Proof.
  intros [Hw He] Hpc Hs. unfold reactor_step in Hs. rewrite Hpc in Hs, He. rewrite He in Hs.
  unfold steps_left at 2. rewrite Hpc. unfold defer in Hs.
  destruct (last ids) as [nd|] eqn:Hl; cbn in Hs; simplify_eq.
  - split_and!; [by apply quiet_links; rewrite ?Hpc|by split|]. cbn.
    pose proof (last_split _ _ Hl) as Hids. apply (f_equal length) in Hids. rewrite length_app in Hids.
    cbn in Hids. case_if; rewrite ?length_app; cbn; lia.
  - split_and!; [by apply quiet_links; rewrite ?Hpc|by split|]. cbn. lia.
Qed.

Lemma step_reclaim s n ids s' :
  workers s = ∅ → reactor s = Reclaim n ids → reactor_step s = Returns s' →
  quiet_step s s' ∧ lone s' ∧ (steps_left s' < steps_left s)%nat.
Proof.
  intros Hw Hpc Hs. unfold reactor_step in Hs. rewrite Hpc in Hs. unfold steps_left at 2. rewrite Hpc.
  destruct ids as [|id ids]; simplify_eq/=.
  - split_and!; [by apply quiet_links; rewrite ?Hpc|by split|cbn; lia].
  - unfold reclaim in Hs. case_if; [done|]. unfold load_slab_reactor, slab in Hs.
    case_match; [|done]. destruct (slots _ !! id) as [u|]; [|done]. cbn [obind] in Hs.
    destruct (heap _ !! u) as [sl|] eqn:Hsl; [|done]. cbn in Hs. simplify_eq.
    split_and!; [|by split|cbn; lia]. split; [done|done| |].
    + cbn. unfold spare, appends. cbn. rewrite map_size_delete_Some by (by rewrite Hsl). rewrite Hpc. lia.
    + intros n' Hn'. left. by rewrite Hpc in Hn'.
Qed.

Lemma step_self_reclaim s n s' :
  workers s = ∅ → reactor s = SelfReclaim n → reactor_step s = Returns s' →
  quiet_step s s' ∧ lone s' ∧ (steps_left s' < steps_left s)%nat.
Proof.
  intros Hw Hpc Hs. unfold reactor_step in Hs. rewrite Hpc in Hs. unfold steps_left at 2. rewrite Hpc.
  cbn zeta in Hs. destruct (load_slab_reactor _ _) as [u|]; [|done]. unfold slab in Hs. cbn [obind] in Hs.
  destruct (heap _ !! u) as [sl|] eqn:Hsl; [|done]. cbn [obind] in Hs. simplify_eq.
  split_and!; [|by split|cbn; lia]. case_if; apply quiet_links; rewrite ?Hpc; try done.
  by apply spare_same, size_put with sl.
Qed.

Lemma step_bump s n s' :
  workers s = ∅ → reactor s = Bump n → reactor_step s = Returns s' →
  quiet_step s s' ∧ lone s' ∧ (steps_left s' < steps_left s)%nat.
Proof.
  intros Hw Hpc Hs. unfold reactor_step in Hs. rewrite Hpc in Hs. unfold steps_left at 2. rewrite Hpc.
  cbn zeta in Hs. destruct (load_slab_reactor _ _) as [u|]; [|done].
  unfold allocate_from, slab in Hs. cbn [obind] in Hs.
  destruct (heap _ !! u) as [sl|] eqn:Hsl; [|done]. cbn [obind] in Hs.
  destruct (SlabAllocator.allocate _ _ _) as [sl' [off|]]; simplify_eq.
  - split_and!; [|by split|cbn; lia]. split; [done|done| |].
    + cbn [allocator]. rewrite (spare_same (allocator s) (put u sl' (allocator s))); [lia|done|by apply size_put with sl].
    + intros n' Hn'. rewrite Hpc in Hn'. right. split; [done|]. eexists. split; [done|]. by simplify_eq/=.
  - split_and!; [by apply quiet_links; rewrite ?Hpc|by split|cbn; lia].
Qed.

Lemma step_retire s n s' :
  workers s = ∅ → reactor s = Retire n → reactor_step s = Returns s' →
  quiet_step s s' ∧ lone s' ∧ (steps_left s' < steps_left s)%nat.
Proof.
  intros Hw Hpc Hs. unfold reactor_step in Hs. rewrite Hpc in Hs. unfold steps_left at 2. rewrite Hpc.
  cbn zeta in Hs. destruct (load_slab_reactor _ _) as [u|]; [|done]. unfold slab in Hs. cbn [obind] in Hs.
  destruct (heap _ !! u) as [sl|] eqn:Hsl; [|done]. cbn [obind] in Hs.
  destruct (stop_being_current sl) as [[sl' z]|]; [|done]. cbn in Hs. simplify_eq.
  assert (Hsp : spare (put u sl' (allocator s)) = spare (allocator s))
    by (by apply spare_same, size_put with sl).
  destruct z; (split_and!; [by apply quiet_links; rewrite ?Hpc|by split|cbn; lia]).
Qed.

Lemma spare_store n v a a' : store_next n v a = Returns a' →
  spare a' = spare a ∧ slab_size_ a' = slab_size_ a.
Proof.
  unfold store_next, slab. destruct n as [|u]; [by intros [= <-]|].
  destruct (heap a !! u) as [sl|] eqn:Hsl; [|done]. intros [= <-]. split; [|done].
  by apply spare_same, size_put with sl.
Qed.

Lemma step_queue_old s n u s' :
  workers s = ∅ → reactor s = QueueOld n u → reactor_step s = Returns s' →
  quiet_step s s' ∧ lone s' ∧ (steps_left s' < steps_left s)%nat.
Proof.
  intros Hw Hpc Hs. unfold reactor_step in Hs. rewrite Hpc in Hs. unfold steps_left at 2. rewrite Hpc.
  unfold enqueue_exchange in Hs. destruct (store_next _ _ _) as [a'|] eqn:Ha; [|done].
  apply spare_store in Ha as [H1 H2]. cbn in Hs. simplify_eq.
  split_and!; [by apply quiet_links; rewrite ?Hpc|by split|cbn; lia].
Qed.

Lemma step_link_old s n p u s' :
  workers s = ∅ → reactor s = LinkOld n p u → reactor_step s = Returns s' →
  quiet_step s s' ∧ lone s' ∧ (steps_left s' < steps_left s)%nat.
Proof.
  intros Hw Hpc Hs. unfold reactor_step in Hs. rewrite Hpc in Hs. unfold steps_left at 2. rewrite Hpc.
  unfold enqueue_link in Hs. destruct (store_next _ _ _) as [a'|] eqn:Ha; [|done].
  apply spare_store in Ha as [H1 H2]. cbn in Hs. simplify_eq.
  split_and!; [by apply quiet_links; rewrite ?Hpc|by split|cbn; lia].
Qed.

Lemma step_append s n s' :
  registry_ok (allocator s) → workers s = ∅ → reactor s = Append n → reactor_step s = Returns s' →
  quiet_step s s' ∧ lone s' ∧ (steps_left s' < steps_left s)%nat.
Proof.
  intros Hr Hw Hpc Hs. unfold reactor_step in Hs. rewrite Hpc in Hs. unfold steps_left at 2. rewrite Hpc.
  destruct (publish_slab_ok _ Hr) as [(e & He & _)|(r & id & l & left_ & He & Hm & _)];
    rewrite He in Hs; [done|]. cbn zeta in Hs. cbn [obind] in Hs.
  set (a' := with_slab r id left_ (allocator s)) in *.
  destruct (load_slab_reactor _ _) as [u|]; [|done]. unfold slab in Hs. cbn [obind] in Hs.
  destruct (heap a' !! u) as [sl|] eqn:Hsl; [|done]. cbn [obind] in Hs.
  destruct (SlabAllocator.allocate _ _ _) as [sl' [off|]] eqn:Ha; [|done].
  unfold allocate_from, slab in Hs. cbn zeta in Hs. cbn [allocator reactor_at] in Hs.
  rewrite Hsl in Hs. cbn [obind] in Hs. rewrite Ha in Hs. simplify_eq.
  split_and!; [|by split|cbn; lia]. split; [done|done| |].
  - cbn [allocator]. rewrite (spare_same a' (put u sl' a')); [|done|by apply size_put with sl].
    unfold spare, appends, a'. rewrite Hpc. cbn.
    rewrite map_size_insert_None by (by apply fresh_not_there). lia.
  - intros n' Hn'. rewrite Hpc in Hn'. right. split; [done|]. eexists. split; [done|]. by simplify_eq/=.
Qed.

(** A step of a call that runs alone brings it nearer to its end. *)
Lemma lone_step s q :
  inv s q → lone s → reactor s ≠ Idle →
  (∃ e, reactor_step s = Throws e ∧ exhausted (allocator s) e) ∨
  ∃ s' q', reactor_step s = Returns s' ∧ inv s' q' ∧
    quiet_step s s' ∧ lone s' ∧ (steps_left s' < steps_left s)%nat.
Proof.
  intros Hi Hl Hne. pose proof Hl as [Hw _].
  destruct (reactor_step_ok _ _ Hi) as [(n & e & _ & H1 & H2)|(s' & q' & Hs & Hi')]; [left; eauto|right].
  exists s', q'. split; [done|]. split; [done|].
  destruct (reactor s) as [|n ids|n ids|n ids|n|n|n|n u|n p u|n] eqn:Hpc; [done|..].
  - by eapply step_drain_next.
  - by eapply step_drain_tail.
  - by eapply step_reclaim.
  - by eapply step_self_reclaim.
  - by eapply step_bump.
  - by eapply step_retire.
  - by eapply step_queue_old.
  - by eapply step_link_old.
  - eapply step_append; [apply Hi|done..].
Qed.

(** *** What is left behind *)

Definition taken_off (s : System) (u : nat) : Prop :=
  ∃ id, id_of (allocator s) u = Some id ∧ id ∈ zombies (allocator s) (reactor s).

(** Once the drain is over, the empty slabs are those it took off the queue,
    and later the slab that is given up, if it is empty. *)
Definition tidy (s : System) : Prop :=
  match reactor s with
  | DrainNext _ _ | DrainTail _ _ => True
  | Reclaim _ _ | SelfReclaim _ | Bump _ | Retire _ => ∀ u, emptied (allocator s) u → taken_off s u
  | _ => ∃ v, ∀ u, emptied (allocator s) u → taken_off s u ∨ u = v
  end.

Lemma emptied_put a u sl sl' w :
  heap a !! u = Some sl → (references_ sl' = 0 → references_ sl = 0) →
  emptied (put u sl' a) w → emptied a w.
Proof.
  intros Hu Hr (s & Hs & Hz). cbn in Hs. destruct (decide (u = w)) as [<-|Hne].
  - rewrite lookup_insert_eq in Hs. simplify_eq. exists sl. auto.
  - rewrite lookup_insert_ne in Hs by done. by exists s.
Qed.

Lemma store_keeps n v a a' :
  store_next n v a = Returns a' →
  (∀ u, emptied a' u → emptied a u) ∧ (∀ u, id_of a' u = id_of a u) ∧
  deferred_reclaim_slot_ a' = deferred_reclaim_slot_ a.
Proof.
  unfold store_next, slab. destruct n as [|w]; [by intros [= <-]|].
  destruct (heap a !! w) as [sl|] eqn:Hsl; [|done]. intros [= <-]. split_and!; [|exact (id_set_next a w sl v Hsl)|done].
  intros u Hu. by apply (emptied_put a w sl (set_next v sl)).
Qed.

(** Only the deferred slab is kept by a step that changes nothing else. *)
Lemma taken_off_keeps s s' u :
  (∀ u, id_of (allocator s') u = id_of (allocator s) u) →
  zombies (allocator s') (reactor s') = zombies (allocator s) (reactor s) → taken_off s u → taken_off s' u.
Proof. unfold taken_off. intros Hi Hz (id & H1 & H2). exists id. by rewrite Hi, Hz. Qed.

Lemma tidy_after_drain s q n ids :
  inv s q → lone s → reactor s = DrainTail n ids → ∀ u, emptied (allocator s) u → taken_off s u.
Proof.
  intros Hi [Hw He] Hpc u Hu. rewrite Hpc in He. unfold try_dequeue_empty in He.
  apply bool_decide_eq_true in He. pose proof (i_queue _ _ Hi) as Hq.
  pose proof (qo_head _ _ _ _ Hq) as Hh. pose proof (qo_last _ _ _ _ Hq) as Hl.
  pose proof (qo_nodup _ _ _ _ Hq) as Hn.
  destruct (qo_all _ _ _ _ Hq u Hu) as [Hin|[Hz|(x & Hx)]].
  - exfalso. destruct q as [|m q]; [set_solver|]. cbn in Hh, Hin. simplify_eq.
    destruct q as [|k q]; [set_solver|]. rewrite last_cons_cons, He in Hl. apply NoDup_cons in Hn as [Hn _].
    by apply Hn, last_Some_elem_of.
  - done.
  - exfalso. destruct x as [i|]; cbn in Hx; [by rewrite Hw, lookup_empty in Hx|by rewrite Hpc in Hx].
Qed.

Lemma lone_tidy s q s' :
  inv s q → lone s → tidy s → reactor s ≠ Idle → reactor_step s = Returns s' → tidy s'.
Proof.
  intros Hi Hl Ht Hne Hs. pose proof Hs as Hs0. unfold tidy in Ht. unfold reactor_step in Hs0.
  destruct (reactor s) as [|n ids|n ids|n ids|n|n|n|n u|n p u|n] eqn:Hpc; [done|..].
  - cbn in Hs0. destruct (try_dequeue_next _) as [[[i a]|]|]; by simplify_eq/=.
  - pose proof (tidy_after_drain _ _ _ _ Hi Hl Hpc) as Hall.
    destruct Hl as [Hw He]. rewrite Hpc in He. rewrite He in Hs0.
    unfold defer in Hs0. destruct (last ids) as [nd|] eqn:Hlast; simplify_eq; cbn [tidy reactor reactor_at].
    + intros u Hu. destruct (Hall u Hu) as (id & H1 & H2). exists id. split; [done|].
      rewrite Hpc in H2. cbn in H2 |- *. rewrite (last_split _ _ Hlast) in H2 at 1.
      unfold deferred in *. cbn.
      assert (0 ≤ nd).
      { destruct (qo_zombie _ _ _ _ (i_queue _ _ Hi) nd) as (w & Hw' & _).
        - rewrite Hpc. cbn. apply elem_of_app. right. by apply last_Some_elem_of.
        - pose proof (slot_of_id _ _ _ (i_registry _ _ Hi) Hw'). lia. }
      rewrite (proj2 (Z.leb_le 0 nd)) by done. destruct (0 <=? _); set_solver.
    + intros u Hu. destruct (Hall u Hu) as (id & H1 & H2). exists id. split; [done|].
      rewrite Hpc in H2. apply last_None in Hlast as ->. cbn in H2 |- *. by rewrite app_nil_r in H2.
  - destruct ids as [|id ids]; cbn in Hs0.
    + simplify_eq. cbn [tidy reactor reactor_at]. intros u Hu. destruct (Ht u Hu) as (i & H1 & H2).
      exists i. rewrite Hpc in H2. done.
    + unfold reclaim in Hs0. case_if; [done|]. unfold load_slab_reactor, slab in Hs0.
      case_match; [|done]. destruct (slots _ !! id) as [w|] eqn:Hslot; [|done]. cbn [obind] in Hs0.
      destruct (heap _ !! w) as [sl|] eqn:Hsl; [|done]. cbn in Hs0. simplify_eq.
      destruct (ro_slab _ (i_registry _ _ Hi) _ _ Hslot) as (Hw & _).
      cbn [tidy reactor reactor_at]. intros u (su & Hsu & Hz). cbn in Hsu. apply lookup_delete_Some in Hsu as [Hu Hsu].
      destruct (Ht u (ex_intro _ su (conj Hsu Hz))) as (i & H1 & H2). exists i. rewrite Hpc in H2.
      split; [unfold id_of in *; cbn; by rewrite lookup_delete_ne|]. cbn in H2 |- *.
      apply elem_of_cons in H2 as [->|H2]; [|exact H2].
      exfalso. apply Hu. by apply (registry_distinct _ (i_registry _ _ Hi) _ _ id).
  - cbn zeta in Hs0. destruct (load_slab_reactor _ _) as [w|]; [|done]. unfold slab in Hs0. cbn [obind] in Hs0.
    destruct (heap _ !! w) as [sl|] eqn:Hsl; [|done]. cbn [obind] in Hs0. simplify_eq.
    cbn [tidy reactor reactor_at]. intros u Hu. case_if; cbn [allocator reactor_at] in Hu.
    + apply (emptied_put _ _ sl) in Hu; [|done|done]. apply (taken_off_keeps s); [|by rewrite Hpc|by apply Ht].
      intros v. by apply (id_put _ _ sl).
    + apply (taken_off_keeps s); [done|by rewrite Hpc|by apply Ht].
  - cbn zeta in Hs0. destruct (load_slab_reactor _ _) as [w|]; [|done].
    unfold allocate_from, slab in Hs0. cbn [obind] in Hs0.
    destruct (heap _ !! w) as [sl|] eqn:Hsl; [|done]. cbn [obind] in Hs0.
    pose proof (co_references _ _ (i_chunks _ _ Hi) _ _ Hsl) as Href.
    destruct (SlabAllocator.allocate _ _ _) as [sl' [off|]] eqn:Ha; simplify_eq; cbn [tidy reactor reactor_at].
    + pose proof (co_bump _ _ (i_chunks _ _ Hi) _ _ Hsl).
      destruct (allocated _ _ _ _ _ Ha) as (_ & _ & ->); [lia|].
      exists 0%nat. intros u Hu. left. apply (emptied_put _ _ sl) in Hu; [|done|cbn; destruct (is_current_ sl); lia].
      apply (taken_off_keeps s); [|by rewrite Hpc|by apply Ht]. intros v. by apply (id_put _ _ sl).
    + intros u Hu. apply (taken_off_keeps s); [done|by rewrite Hpc|by apply Ht].
  - cbn zeta in Hs0. destruct (load_slab_reactor _ _) as [w|]; [|done]. unfold slab in Hs0. cbn [obind] in Hs0.
    destruct (heap _ !! w) as [sl|] eqn:Hsl; [|done]. cbn [obind] in Hs0.
    unfold stop_being_current in Hs0. destruct (negb _); [done|]. cbn in Hs0. simplify_eq.
    set (sl' := SlabAllocator.mk _ _ _ _ _). set (a' := put w sl' (allocator s)).
    assert (Hall : ∀ pc, zombies a' pc = deferred (allocator s) → reactor s = Retire n →
      ∃ v, ∀ u, emptied a' u → taken_off (reactor_at s a' pc) u ∨ u = v).
    { intros pc Hz _. exists w. intros u Hu. destruct (decide (u = w)) as [->|Huw]; [by right|left].
      destruct Hu as (su & Hsu & Hr). cbn in Hsu. rewrite lookup_insert_ne in Hsu by done.
      destruct (Ht u (ex_intro _ su (conj Hsu Hr))) as (i & H1 & H2). exists i.
      split; [rewrite <- H1; by apply (id_put _ _ sl)|]. cbn. rewrite Hz. by rewrite Hpc in H2. }
    destruct (references_ sl =? 1); by apply Hall.
  - unfold enqueue_exchange in Hs0. destruct (store_next _ _ _) as [a'|] eqn:Ha; [|done].
    apply store_keeps in Ha as (H1 & H2 & H3). cbn in Hs0. simplify_eq. destruct Ht as (v & Hv).
    exists v. intros w Hw. destruct (Hv w (H1 w Hw)) as [(i & Hi1 & Hi2)|]; [left|by right].
    exists i. rewrite Hpc in Hi2. split; [rewrite <- Hi1, <- H2; done|].
    cbn in *. unfold deferred in *. cbn. by rewrite H3.
  - unfold enqueue_link in Hs0. destruct (store_next _ _ _) as [a'|] eqn:Ha; [|done].
    apply store_keeps in Ha as (H1 & H2 & H3). cbn in Hs0. simplify_eq. destruct Ht as (v & Hv).
    exists v. intros w Hw. destruct (Hv w (H1 w Hw)) as [(i & Hi1 & Hi2)|]; [left|by right].
    exists i. rewrite Hpc in Hi2. split; [by rewrite <- Hi1, <- H2|].
    cbn in *. unfold deferred in *. by rewrite H3.
  - pose proof (i_registry _ _ Hi) as Hr.
    destruct (publish_slab_ok _ Hr) as [(e & He & _)|(r & id & l & left_ & He & Hm & Hsl0 & Hg0 & _)];
      rewrite He in Hs0; [done|]. cbn zeta in Hs0. cbn [obind] in Hs0.
    set (a' := with_slab r id left_ (allocator s)) in *.
    destruct (load_slab_reactor _ _) as [w|]; [|done]. unfold slab in Hs0. cbn [obind] in Hs0.
    destruct (heap a' !! w) as [sl|] eqn:Hsl; [|done]. cbn [obind] in Hs0.
    destruct (SlabAllocator.allocate _ _ _) as [sl' [off|]] eqn:Ha; [|done].
    unfold allocate_from, slab in Hs0. cbn zeta in Hs0. cbn [allocator reactor_at] in Hs0.
    rewrite Hsl in Hs0. cbn [obind] in Hs0. rewrite Ha in Hs0. simplify_eq.
    assert (Hc' : chunks_ok a' (held s)) by (apply chunks_with; try done; apply Hi).
    pose proof (co_references _ _ Hc' _ _ Hsl) as Href. pose proof (co_bump _ _ Hc' _ _ Hsl) as Hb.
    destruct (allocated _ _ _ _ _ Ha) as (_ & _ & ->); [lia|].
    destruct Ht as (v & Hv). exists v. intros u Hu. cbn [allocator] in Hu.
    apply (emptied_put _ _ sl) in Hu; [|done|cbn; destruct (is_current_ sl); lia].
    assert (Hne' : u ≠ fresh (allocator s)).
    { intros ->. destruct Hu as (su & Hsu & Hz). cbn in Hsu. rewrite lookup_insert_eq in Hsu. simplify_eq/=. }
    assert (Hu' : emptied (allocator s) u).
    { destruct Hu as (su & Hsu & Hz). cbn in Hsu. rewrite lookup_insert_ne in Hsu by done. by exists su. }
    destruct (Hv u Hu') as [(i & Hi1 & Hi2)|]; [left|by right]. exists i. rewrite Hpc in Hi2.
    split; [|exact Hi2]. cbn [allocator]. rewrite (id_put _ _ sl) by done. rewrite <- Hi1. by apply id_with_other.
Qed.

(** *** The whole call *)

(** The allocating thread takes [k] steps. *)
Fixpoint run (k : nat) (s : System) : outcome System :=
  match k with
  | O => Returns s
  | S k => let! s' := reactor_step s in run k s'
  end.

Lemma run_idle k s : reactor s = Idle → run k s = Returns s.
Proof. intros Hpc. induction k as [|k IH]; [done|]. cbn. unfold reactor_step. by rewrite Hpc. Qed.

Lemma appends_below s : (appends s ≤ 1)%nat.
Proof. unfold appends. destruct (reactor s); lia. Qed.

Lemma run_alone k : ∀ s q n,
  inv s q → lone s → tidy s → requested (reactor s) = Some n → (steps_left s ≤ k)%nat →
  (0 < spare (allocator s))%nat →
  ∃ s' q' c, run k s = Returns s' ∧ inv s' q' ∧ lone s' ∧ tidy s' ∧ reactor s' = Idle ∧
    held s' = c :: held s ∧ chunk_size c = n ∧
    slab_size_ (allocator s') = slab_size_ (allocator s) ∧
    (spare (allocator s) ≤ S (spare (allocator s')))%nat.
Proof.
  induction k as [|k IH]; intros s q n Hi Hl Ht Hn Hk Hs.
  { destruct (reactor s) eqn:Hpc; unfold steps_left in Hk; rewrite Hpc in Hk; cbn in *; lia || done. }
  assert (Hne : reactor s ≠ Idle) by (intros He; by rewrite He in Hn).
  destruct (lone_step _ _ Hi Hl Hne) as [(e & _ & He)|(s1 & q1 & Hs1 & Hi1 & Hq1 & Hl1 & Hm)].
  { apply exhausted_spare in He. lia. }
  pose proof (lone_tidy _ _ _ Hi Hl Ht Hne Hs1) as Ht1.
  cbn [run]. rewrite Hs1. cbn [obind].
  destruct (qs_request _ _ Hq1 _ Hn) as [[Hn1 Hh]|(Hpc & c & Hh & Hc)].
  - pose proof (qs_spare _ _ Hq1) as Hsp.
    assert (Ha : appends s = 0%nat).
    { unfold appends, steps_left in *. destruct (reactor s) eqn:Hpc; try done. exfalso.
      destruct (reactor s1); cbn in *; lia || done. }
    destruct (IH s1 q1 n Hi1 Hl1 Ht1 Hn1) as (s' & q' & c & H1 & H2 & H3 & H3' & H4 & H5 & H6 & H7 & H8); [lia|lia|].
    exists s', q', c. rewrite Hh in H5. rewrite (qs_size _ _ Hq1) in H7.
    split_and!; try done. lia.
  - exists s1, q1, c. rewrite run_idle by done. split_and!; try done; [apply Hq1|].
    pose proof (qs_spare _ _ Hq1). pose proof (appends_below s). lia.
Qed.

(** As many steps as [allocate] takes when it runs alone. *)
Definition enough (s : System) : nat := (10 + 2 * size (heap (allocator s)))%nat.

Lemma allocate_alone s q n :
  inv s q → workers s = ∅ → reactor s = Idle → 0 < n ≤ slab_size_ (allocator s) →
  (0 < spare (allocator s))%nat →
  ∃ s1 s' q' c, start_allocate n s = Returns s1 ∧ run (enough s) s1 = Returns s' ∧
    inv s' q' ∧ workers s' = ∅ ∧ tidy s' ∧ reactor s' = Idle ∧ held s' = c :: held s ∧ chunk_size c = n ∧
    slab_size_ (allocator s') = slab_size_ (allocator s) ∧
    (spare (allocator s) ≤ S (spare (allocator s')))%nat.
Proof.
  intros Hi Hw Hpc Hn Hs. destruct (start_allocate_ok _ _ _ Hi Hpc Hn) as (s1 & Hs1 & Hi1 & ->).
  destruct (run_alone (enough s) _ _ n Hi1) as (s' & q' & c & H1 & H2 & [H3 _] & H3' & H4 & H5 & H6 & H7 & H8).
  - by split.
  - done.
  - done.
  - unfold steps_left, enough. cbn -[Nat.mul]. lia.
  - done.
  - by eexists _, s', q', c.
Qed.

(** The slabs that have a chunk out. *)
Definition slabs_in_use (s : System) : nat := size (list_to_set (chunk_slab <$> held s) : gset nat).

Lemma size_union_below (X Y : gset nat) : (size (X ∪ Y) ≤ size X + size Y)%nat.
Proof. rewrite size_union_alt. pose proof (subseteq_size (Y ∖ X) Y). set_solver by lia. Qed.

(** The slabs there are: those with a chunk out, the current one, the one held
    over, and one more. *)
Lemma few_slabs s q :
  inv s q → reactor s = Idle → tidy s → (size (heap (allocator s)) ≤ slabs_in_use s + 3)%nat.
Proof.
  intros Hi Hpc Ht. unfold tidy in Ht. rewrite Hpc in Ht. destruct Ht as (v & Hv).
  set (a := allocator s) in *.
  pose proof (i_current _ _ Hi) as Hcur. rewrite Hpc in Hcur. destruct Hcur as (uc & slc & _ & _ & _ & _ & Huq).
  set (ud := default 0%nat (slots (registry a) !! deferred_reclaim_slot_ a)).
  assert (Hsub : dom (heap a) ⊆ (list_to_set (chunk_slab <$> held s) : gset nat) ∪ {[uc]} ∪ {[ud]} ∪ {[v]}).
  { intros u Hu. apply elem_of_dom in Hu as [sl Hsl].
    pose proof (co_references _ _ (i_chunks _ _ Hi) _ _ Hsl) as Href.
    destruct (decide (references_ sl = 0)) as [Hz|Hz].
    - destruct (Hv u) as [(id & H1 & H2)| ->]; [by exists sl| |set_solver].
      rewrite Hpc in H2. cbn in H2. unfold deferred in H2. case_if; [|set_solver].
      apply list_elem_of_singleton in H2 as ->. apply (ro_slot _ (i_registry _ _ Hi)) in H1.
      assert (u = ud) as -> by (unfold ud, a; by rewrite H1).
      set_solver.
    - destruct (is_current_ sl) eqn:Hc; [rewrite (Huq _ _ Hsl Hc); set_solver|].
      destruct (in_slab u (held s)) as [|c cs] eqn:Hin; [cbn in Href; lia|].
      assert (Hc' : c ∈ in_slab u (held s)) by (rewrite Hin; left).
      apply list_elem_of_filter in Hc' as [<- Hc']. do 3 (apply elem_of_union; left).
      apply elem_of_list_to_set, list_elem_of_fmap. by exists c. }
  apply subseteq_size in Hsub. rewrite size_dom in Hsub. unfold slabs_in_use.
  etrans; [exact Hsub|]. pose proof (size_union_below (list_to_set (chunk_slab <$> held s)) {[uc]}).
  pose proof (size_union_below (list_to_set (chunk_slab <$> held s) ∪ {[uc]}) {[ud]}).
  pose proof (size_union_below (list_to_set (chunk_slab <$> held s) ∪ {[uc]} ∪ {[ud]}) {[v]}).
  rewrite !size_singleton in *. lia.
Qed.

(** C17: [allocate] ends when it runs alone, within ten steps and two for every
    slab, with a chunk of the size that was asked for, as long as the kernel and
    the registry have room for one slab more; and it leaves at most three slabs
    beyond those that have a chunk out, however many there were before. *)
Theorem allocate_ends_and_reclaims slab_size mmaps s n :
  0 < slab_size → reachable slab_size mmaps s → workers s = ∅ → reactor s = Idle →
  0 < n ≤ slab_size_ (allocator s) → (0 < spare (allocator s))%nat →
  ∃ s1 s' c, start_allocate n s = Returns s1 ∧ run (enough s) s1 = Returns s' ∧
    reactor s' = Idle ∧ held s' = c :: held s ∧ chunk_size c = n ∧
    (size (heap (allocator s')) ≤ slabs_in_use s' + 3)%nat.
Proof.
  intros Hsz Hs Hw Hpc Hn Hr. destruct (reachable_ok _ _ _ Hsz Hs) as (q & Hi).
  destruct (allocate_alone _ _ _ Hi Hw Hpc Hn Hr) as (s1 & s' & q' & c & H1 & H2 & H3 & _ & H4 & H5 & H6 & H7 & _).
  exists s1, s', c. split_and!; try done. by eapply few_slabs.
Qed.

(** *** Giving a chunk back *)

Fixpoint run_worker (k i : nat) (s : System) : outcome System :=
  match k with
  | O => Returns s
  | S k => let! s' := worker_step i s in run_worker k i s'
  end.

(** How many steps a thread has left. *)
Definition worker_left (w : option Worker) : nat :=
  match w with
  | None => 0
  | Some (LinkSlab _ _) => 1
  | Some (QueueSlab _) => 2
  | Some (ClearNext _) => 3
  | Some (FreeChunk _ _) => 4
  | Some (CheckGeneration _ _) => 5
  | Some (FindSlab _) => 6
  end.

(** What a step of such a thread leaves alone. *)
Record worker_moved (i : nat) (s s' : System) : Prop := {
  wm_reactor : reactor s' = reactor s;
  wm_others j : j ≠ i → workers s' !! j = workers s !! j;
  wm_size : slab_size_ (allocator s') = slab_size_ (allocator s);
  wm_spare : spare (allocator s') = spare (allocator s);
  wm_left : (worker_left (workers s' !! i) < worker_left (workers s !! i))%nat;
  wm_held : match workers s !! i with
            | Some (FreeChunk c _) => held s' = filter (λ d, d ≠ c) (held s)
            | _ => held s' = held s
            end;
  wm_next : match workers s !! i with
            | Some (FindSlab c) => ∃ u, workers s' !! i = Some (CheckGeneration c u)
            | Some (CheckGeneration c u) => workers s' !! i = Some (FreeChunk c u)
            | _ => ∀ w, workers s' !! i = Some w → freeing w = None
            end
}.

Lemma moved_at s i a pc :
  slab_size_ a = slab_size_ (allocator s) → spare a = spare (allocator s) →
  (worker_left pc < worker_left (workers s !! i))%nat →
  match workers s !! i with Some (FreeChunk _ _) => False | _ => True end →
  match workers s !! i with
  | Some (FindSlab c) => ∃ u, pc = Some (CheckGeneration c u)
  | Some (CheckGeneration c u) => pc = Some (FreeChunk c u)
  | _ => ∀ w, pc = Some w → freeing w = None
  end → worker_moved i s (worker_at s i a pc).
Proof.
  intros H1 H2 H3 H4 H5. split; cbn; rewrite ?lookup_partial_alter_eq; try done.
  - intros j Hj. by rewrite lookup_partial_alter_ne.
  - by destruct (workers s !! i) as [[]|].
Qed.

Lemma worker_step_moves i s s' w :
  workers s !! i = Some w → worker_step i s = Returns s' → worker_moved i s s'.
Proof.
  intros Hw Hs. unfold worker_step in Hs. rewrite Hw in Hs.
  destruct w as [c|c u|c u|u|u|p u]; cbn zeta in Hs.
  - destruct (find_slab _ _) as [u|]; [|done]. cbn in Hs. simplify_eq.
    apply moved_at; rewrite ?Hw; try done; [cbn; lia|by exists u].
  - destruct (check_generation _ _); [|done]. cbn in Hs. simplify_eq.
    apply moved_at; rewrite ?Hw; try done; cbn; lia.
  - unfold slab in Hs. destruct (heap _ !! u) as [sl|] eqn:Hsl; [|done]. cbn in Hs. simplify_eq.
    split; cbn; rewrite ?lookup_partial_alter_eq, ?Hw; try done.
    + intros j Hj. by rewrite lookup_partial_alter_ne.
    + by apply spare_same, size_put with sl.
    + destruct (_ =? 1); cbn; lia.
    + intros w. destruct (_ =? 1); [|done]. by intros [= <-].
  - destruct (store_next _ _ _) as [a'|] eqn:Ha; [|done]. apply spare_store in Ha as [H1 H2].
    cbn in Hs. simplify_eq. apply moved_at; rewrite ?Hw; try done; [cbn; lia|by intros w [= <-]].
  - unfold enqueue_exchange in Hs. destruct (store_next _ _ _) as [a'|] eqn:Ha; [|done].
    apply spare_store in Ha as [H1 H2]. cbn in Hs. simplify_eq.
    apply moved_at; rewrite ?Hw; try done; [cbn; lia|by intros w [= <-]].
  - unfold enqueue_link in Hs. destruct (store_next _ _ _) as [a'|] eqn:Ha; [|done].
    apply spare_store in Ha as [H1 H2]. cbn in Hs. simplify_eq.
    apply moved_at; rewrite ?Hw; try done; cbn; lia.
Qed.

(** What is out once the thread is done. *)
Definition held_after (w : option Worker) (cs : list Chunk) : list Chunk :=
  match w ≫= freeing with Some c => filter (λ d, d ≠ c) cs | None => cs end.

Lemma run_worker_ends k i : ∀ s q,
  inv s q → (worker_left (workers s !! i) ≤ k)%nat →
  ∃ s' q', run_worker k i s = Returns s' ∧ inv s' q' ∧ workers s' !! i = None ∧
    (∀ j, j ≠ i → workers s' !! j = workers s !! j) ∧ reactor s' = reactor s ∧
    held s' = held_after (workers s !! i) (held s) ∧
    slab_size_ (allocator s') = slab_size_ (allocator s) ∧ spare (allocator s') = spare (allocator s).
Proof.
  induction k as [|k IH]; intros s q Hi Hk.
  { exists s, q. destruct (workers s !! i) as [[]|] eqn:Hw; cbn in Hk; try lia. by split_and!. }
  destruct (workers s !! i) as [w|] eqn:Hw.
  2:{ cbn [run_worker]. unfold worker_step. rewrite Hw. cbn [obind].
      destruct (IH s q Hi) as (s' & q' & H1 & H2 & H3 & H4 & H5 & H6 & H7 & H8); [rewrite Hw; cbn; lia|].
      rewrite Hw in H6. by exists s', q'. }
  destruct (worker_step_ok _ _ i Hi) as (s1 & q1 & Hs1 & Hi1).
  pose proof (worker_step_moves _ _ _ _ Hw Hs1) as [Hm1 Hm2 Hm3 Hm4 Hm5 Hm6 Hm7].
  rewrite Hw in Hm5, Hm6, Hm7. cbn [run_worker]. rewrite Hs1. cbn [obind].
  destruct (IH s1 q1 Hi1) as (s' & q' & H1 & H2 & H3 & H4 & H5 & H6 & H7 & H8); [lia|].
  exists s', q'. split_and!; try done; try congruence.
  - intros j Hj. rewrite H4 by done. by apply Hm2.
  - rewrite H6. unfold held_after. destruct w as [c|c u|c u|u|u|p u]; cbn [mbind option_bind freeing].
    + destruct Hm7 as (u & ->). cbn. by rewrite Hm6.
    + rewrite Hm7. cbn. by rewrite Hm6.
    + destruct (workers s1 !! i) as [w1|] eqn:Hw1; cbn; [|done]. by rewrite (Hm7 _ eq_refl).
    + destruct (workers s1 !! i) as [w1|] eqn:Hw1; cbn; [|done]. by rewrite (Hm7 _ eq_refl).
    + destruct (workers s1 !! i) as [w1|] eqn:Hw1; cbn; [|done]. by rewrite (Hm7 _ eq_refl).
    + destruct (workers s1 !! i) as [w1|] eqn:Hw1; cbn; [|done]. by rewrite (Hm7 _ eq_refl).
Qed.

(** ** The allocator of the framing layer *)

(** [ExpandableSlabAllocator::allocate] and [deallocate] as whole calls. *)
Definition whole_allocate (n : Z) : comp System (Z * option Z) := λ s,
  match start_allocate n s with
  | Throws e => (s, Throws e)
  | Returns s1 =>
      match run (enough s) s1 with
      | Throws e => (s1, Throws e)
      | Returns s' =>
          match held s' with
          | c :: _ => (s', Returns (handle c, Some (chunk_address s' c)))
          | [] => (s', Throws UndefinedBehaviour)
          end
      end
  end.

(** The chunk that a handle and an address name. *)
Definition named (s : System) (h p : Z) (c : Chunk) : bool :=
  (handle c =? h) && (chunk_address s c =? p).

Definition whole_deallocate (h p : Z) : comp System unit := λ s,
  match List.find (named s h p) (held s) with
  | None => (s, Throws PreconditionAssertion)
  | Some c =>
      let s0 := worker_at s 0 (allocator s) (Some (FindSlab c)) in
      match run_worker 6 0 s0 with
      | Throws e => (s0, Throws e)
      | Returns s' => (s', Returns ())
      end
  end.

#[export] Instance slab_ops : SlabOps System := {|
  PduFraming.slab_size s := slab_size_ (allocator s);
  PduFraming.allocate := whole_allocate;
  PduFraming.deallocate := whole_deallocate
|}.

Definition chunk_name (s : System) (c : Chunk) : Z * Z := (handle c, chunk_address s c).

Lemma address_injective s q c d :
  inv s q → c ∈ held s → d ∈ held s → chunk_address s c = chunk_address s d → c = d.
Proof.
  intros Hi Hc Hd He. destruct (decide (c = d)) as [|Hne]; [done|].
  destruct (address_range _ _ _ Hi Hc) as (_ & _ & H1 & _).
  destruct (address_range _ _ _ Hi Hd) as (_ & _ & H2 & _).
  destruct (addresses_apart _ _ _ _ Hi Hc Hd Hne); lia.
Qed.

Lemma names_same s s' (cs : list Chunk) :
  slab_size_ (allocator s') = slab_size_ (allocator s) → chunk_name s' <$> cs = chunk_name s <$> cs.
Proof. intros He. apply list_fmap_ext. intros i c _. unfold chunk_name, chunk_address, address. by rewrite He. Qed.

(** Between calls. *)
Definition between_calls (s : System) : Prop := (∃ q, inv s q) ∧ workers s = ∅ ∧ reactor s = Idle.

Lemma whole_deallocate_ok s h p :
  between_calls s → (h, p) ∈ chunk_name s <$> held s →
  returns (whole_deallocate h p) s (λ s' _, between_calls s' ∧
    chunk_name s <$> held s ≡ₚ (h, p) :: (chunk_name s' <$> held s') ∧
    slab_size_ (allocator s') = slab_size_ (allocator s) ∧ spare (allocator s') = spare (allocator s)).
Proof.
  intros ((q & Hi) & Hw & Hpc) Hin. apply list_elem_of_fmap in Hin as (c & Hn & Hc).
  unfold chunk_name in Hn. simplify_eq. unfold returns, whole_deallocate.
  destruct (List.find _ _) as [d|] eqn:Hf.
  2:{ exfalso. eapply find_none in Hf; [|by apply list_elem_of_In, Hc].
      unfold named in Hf. by rewrite !Z.eqb_refl in Hf. }
  apply find_some in Hf as [Hd Hnm]. apply list_elem_of_In in Hd. unfold named in Hnm. bool_to_prop.
  assert (d = c) as -> by (eapply address_injective; [done|done|done|tauto]).
  set (s0 := worker_at s 0 _ _).
  assert (Hi0 : inv s0 q).
  { apply start_deallocate_ok; [done|]. split_and!; [by rewrite Hw|done|].
    intros j w Hj. by rewrite Hw, lookup_empty in Hj. }
  assert (Hw0 : workers s0 !! 0%nat = Some (FindSlab c)) by (cbn; by rewrite lookup_partial_alter_eq).
  destruct (run_worker_ends 6 0 s0 q Hi0) as (s' & q' & -> & H2 & H3 & H4 & H5 & H6 & H7 & H8);
    [rewrite Hw0; cbn; lia|].
  rewrite Hw0 in H6. cbn in H6. split_and!; [| |done|done].
  - split_and!; [by exists q'| |by rewrite H5].
    apply map_eq. intros j. rewrite lookup_empty. destruct (decide (j = 0%nat)) as [->|Hj]; [done|].
    rewrite H4 by done. cbn. rewrite lookup_partial_alter_ne by done. by rewrite Hw.
  - rewrite (names_same s s') by (by rewrite H7). rewrite H6.
    rewrite (permutation_without c (held s)) at 1; [done|apply (i_chunks _ _ Hi)|done].
Qed.

#[export] Instance slab_laws : SlabLaws System.
Proof.
  refine {| PduFraming.good_allocator := between_calls;
            PduFraming.held s := chunk_name s <$> held s;
            PduFraming.room s := spare (allocator s) |}.
  - intros s ((q & Hi) & _). rewrite <- list_fmap_compose.
    apply NoDup_fmap_2_strong; [|apply (i_chunks _ _ Hi)].
    intros c d Hc Hd He. by eapply address_injective.
  - intros s n ((q & Hi) & Hw & Hpc) Hn Hr.
    destruct (allocate_alone _ _ _ Hi Hw Hpc Hn Hr)
      as (s1 & s' & q' & c & H1 & H2 & H3 & H4 & _ & H5 & H6 & H7 & H8 & H9).
    unfold returns. cbn. unfold whole_allocate. rewrite H1, H2, H6. exists (chunk_address s' c).
    split_and!; try done.
    + split_and!; [by exists q'|done..].
    + rewrite H6, fmap_cons. by rewrite (names_same s s').
  - intros s h p Hb Hin. cbn.
    eapply returns_mono; [by apply whole_deallocate_ok|]. intros s' [] (H1 & H2 & H3 & H4).
    split_and!; try done. lia.
Defined.

(** ** A day with two threads *)

Module SlabsDay.

#[export] Instance permitted_dec x s : Decision (permitted x s).
Proof.
  destruct x as [n|i c| |i]; cbn.
  - unshelve eapply and_dec; [|apply _]. destruct (reactor s); (by left) || by right.
  - unshelve eapply and_dec; [apply _|]. unshelve eapply and_dec; [apply _|].
    exact (map_Forall_dec (λ _ w, freeing w ≠ Some c) (workers s)).
  - by left.
  - by left.
Defined.

Fixpoint play (xs : list action) (s : System) : option System :=
  match xs with
  | [] => Some s
  | x :: xs =>
      if decide (permitted x s) then
        match step x s with Returns s' => play xs s' | Throws _ => None end
      else None
  end.

Lemma play_reachable n m xs : ∀ s s',
  reachable n m s → play xs s = Some s' → reachable n m s'.
Proof.
  induction xs as [|x xs IH]; intros s s' Hs; cbn [play]; [by intros [= <-]|].
  destruct (decide (permitted x s)) as [Hp|]; [|done].
  destruct (step x s) as [s1|] eqn:Hx; [|done]. apply IH. by eapply reachable_step.
Qed.

Definition first : System :=
  match create 32 5 with Returns a => mk_system a Idle ∅ [] | Throws _ => mk_system (empty 32 5) Idle ∅ [] end.

Definition after (xs : list action) : System := default first (play xs first).

Lemma reachable_after xs : is_Some (play xs first) → reachable 32 5 (after xs).
Proof.
  intros [s Hs]. unfold after. rewrite Hs. apply (play_reachable _ _ xs first); [|done].
  unfold first. destruct (create 32 5) as [a|] eqn:Ha; [by apply reachable_start|by vm_compute in Ha].
Qed.

(** Two chunks fill the first slab, a third is in the second. *)
Definition morning : list action :=
  Allocate 16 :: replicate 6 ReactorStep ++ Allocate 16 :: replicate 6 ReactorStep ++
  Allocate 32 :: replicate 8 ReactorStep.

Definition chunk_at (i : nat) (s : System) : Chunk := default (mk_chunk 0 0 0 0) (held s !! i).

Definition first_chunk : Chunk := chunk_at 2 (after morning).
Definition second_chunk : Chunk := chunk_at 1 (after morning).

(** Both are given back, by two threads; the second is in the middle of putting
    the slab on the queue when the next [allocate] looks at it. *)
Definition noon : list action :=
  morning ++ Deallocate 1 first_chunk :: replicate 3 (WorkerStep 1) ++
  Deallocate 2 second_chunk :: replicate 5 (WorkerStep 2) ++
  Allocate 32 :: [ReactorStep].

(** Then it is done. *)
Definition evening : list action :=
  noon ++ WorkerStep 2 :: replicate 12 ReactorStep.

End SlabsDay.

Lemma every_interleaving_is_safe_witness :
  (∃ p, workers (SlabsDay.after SlabsDay.noon) !! 2%nat = Some (LinkSlab p 0)) ∧
  ((∃ s', step ReactorStep (SlabsDay.after SlabsDay.noon) = Returns s') ∨
   ∃ n e, ReactorStep = ReactorStep ∧ reactor (SlabsDay.after SlabsDay.noon) = Append n ∧
     step ReactorStep (SlabsDay.after SlabsDay.noon) = Throws e ∧
     exhausted (allocator (SlabsDay.after SlabsDay.noon)) e).
Proof.
  split; [exists Dummy; by vm_compute|].
  apply (every_interleaving_is_safe 32 5); [lia| |done].
  apply SlabsDay.reachable_after. eexists. by vm_compute.
Defined.

Lemma chunks_that_are_out_are_apart_witness :
  let s := SlabsDay.after SlabsDay.morning in
  chunk_address s SlabsDay.second_chunk + chunk_size SlabsDay.second_chunk ≤ chunk_address s SlabsDay.first_chunk ∨
  chunk_address s SlabsDay.first_chunk + chunk_size SlabsDay.first_chunk ≤ chunk_address s SlabsDay.second_chunk.
Proof.
  intros s. apply (chunks_that_are_out_are_apart 32 5 s SlabsDay.second_chunk).
  - lia.
  - apply SlabsDay.reachable_after. eexists. by vm_compute.
  - apply (list_elem_of_lookup_2 _ 1). by vm_compute.
  - apply (list_elem_of_lookup_2 _ 2). by vm_compute.
  - by vm_compute.
Defined.

Lemma allocate_ends_and_reclaims_witness :
  let s := SlabsDay.after SlabsDay.evening in
  ∃ s1 s' c, start_allocate 20 s = Returns s1 ∧ run (enough s) s1 = Returns s' ∧
    reactor s' = Idle ∧ held s' = c :: held s ∧ chunk_size c = 20 ∧
    (size (heap (allocator s')) ≤ slabs_in_use s' + 3)%nat.
Proof.
  intros s. apply (allocate_ends_and_reclaims 32 5).
  - lia.
  - apply SlabsDay.reachable_after. eexists. by vm_compute.
  - by vm_compute.
  - by vm_compute.
  - by vm_compute.
  - assert (He : spare (allocator s) = 2%nat) by (by vm_compute). rewrite He. lia.
Defined.
