(* ===== verification/PduFramingTheorems.v ===== *)
(** What the framing layer promises: the PDUs that one side frames are the PDUs
    that the other side dispatches, however the kernel cuts the bytes. *)

From stdpp Require Import gmap strings sorting.
From S2P Require Import Prelude.
From S2P Require Import WalEntry.
From S2P Require Import ByteArena.
From S2P Require Import SlabAllocator.
From S2P Require Import SlabAllocatorSafety.
From S2P Require Import SlabAllocatorTheorems.
From S2P Require Import PduFraming.
#[local] Open Scope Z_scope.

(** ** The header on the wire *)

Lemma length_net_bytes n z : 0 ≤ n → length (net_bytes n z) = Z.to_nat n.
Proof. intros Hn. unfold net_bytes. by rewrite length_reverse, length_bytes_of. Qed.

Lemma size_net_bytes n z : 0 ≤ n → size (net_bytes n z) = n.
Proof. intros Hn. unfold size. rewrite length_net_bytes by done. lia. Qed.

Lemma net_unsigned_bytes n z : 0 ≤ n → 0 ≤ z < 2 ^ (8 * n) → net_unsigned (net_bytes n z) = z.
Proof. intros. unfold net_unsigned, net_bytes. rewrite reverse_involutive. by apply unsigned_of_bytes_of. Qed.

Lemma net_signed_bytes n z : 0 < n → int_fits n z → net_signed (net_bytes n z) = z.
Proof. intros. unfold net_signed, net_bytes. rewrite reverse_involutive. by apply signed_of_bytes_of. Qed.

Definition header_fits (h : PduHeader.t) : Prop :=
  0 ≤ PduHeader.byte_count h < 2 ^ 32 ∧ int_fits 2 (PduHeader.pdu_id h) ∧
  int_fits 1 (PduHeader.version h) ∧ 0 ≤ PduHeader.filler_a h < 2 ^ 8 ∧
  int_fits 8 (PduHeader.seq_no h) ∧ 0 ≤ PduHeader.canary h < 2 ^ 32 ∧
  0 ≤ PduHeader.filler_b h < 2 ^ 32.

Lemma size_to_wire h : size (PduHeader.to_wire h) = 24.
Proof. unfold PduHeader.to_wire. by rewrite !size_app, !size_net_bytes. Qed.

Lemma length_to_wire h : length (PduHeader.to_wire h) = 24%nat.
Proof. pose proof (size_to_wire h). unfold size in *. lia. Qed.

(** A field at the offset where the fields before it end. *)
Lemma field_at pre n z post offset len :
  0 ≤ n → offset = size pre → len = n → slice (pre ++ net_bytes n z ++ post) offset len = net_bytes n z.
Proof. intros Hn -> ->. apply slice_at; [done|]. by rewrite size_net_bytes. Qed.

Lemma of_wire_to_wire h rest :
  header_fits h → PduHeader.of_wire (PduHeader.to_wire h ++ rest) = h.
Proof.
  destruct h as [bc pid v fa sn c fb]. intros (Hb & Hp & Hv & Ha & Hs & Hc & Hf).
  unfold PduHeader.of_wire, PduHeader.to_wire in *. cbn in *.
  rewrite <- !app_assoc. f_equal.
  - rewrite slice_head by (by rewrite size_net_bytes). by apply net_unsigned_bytes.
  - rewrite field_at by (by rewrite ?size_app, ?size_net_bytes). by apply net_signed_bytes.
  - rewrite (app_assoc (net_bytes 4 bc)), field_at by (by rewrite ?size_app, ?size_net_bytes).
    by apply net_signed_bytes.
  - rewrite 2!app_assoc, <- (app_assoc (net_bytes 4 bc)), field_at
      by (by rewrite ?size_app, ?size_net_bytes).
    by apply net_unsigned_bytes.
  - rewrite 3!app_assoc, field_at by (by rewrite ?size_app, ?size_net_bytes).
    by apply net_signed_bytes.
  - rewrite 4!app_assoc, field_at by (by rewrite ?size_app, ?size_net_bytes).
    by apply net_unsigned_bytes.
  - rewrite 5!app_assoc, field_at by (by rewrite ?size_app, ?size_net_bytes).
    by apply net_unsigned_bytes.
Qed.

(** ** A PDU and its frame *)

Record Pdu := mk_pdu {
  pdu_id : Z;
  pdu_version : Z;
  pdu_seq_no : Z;
  pdu_payload : list Z
}.

Definition pdu_header (f : Pdu) : PduHeader.t :=
  PduFramer.frame_header (pdu_id f) (pdu_version f) (pdu_seq_no f) (size (pdu_payload f)).

Definition frame (f : Pdu) : list Z := PduHeader.to_wire (pdu_header f) ++ pdu_payload f.

(** A PDU whose fields have the widths the header gives them, with a payload of
    at most [limit] bytes. *)
Definition good_pdu (limit : Z) (f : Pdu) : Prop :=
  int_fits 2 (pdu_id f) ∧ int_fits 1 (pdu_version f) ∧ int_fits 8 (pdu_seq_no f) ∧
  0 < size (pdu_payload f) ≤ limit ∧ size (pdu_payload f) < 2 ^ 31.

Lemma pdu_header_fits limit f : good_pdu limit f → header_fits (pdu_header f).
Proof.
  intros (? & ? & ? & ? & ?). unfold header_fits, pdu_header. cbn.
  repeat (split; [done || lia|]). done.
Qed.

Lemma frame_decoded limit f rest :
  good_pdu limit f → PduHeader.of_wire (PduHeader.to_wire (pdu_header f) ++ rest) = pdu_header f.
Proof. intros Hf. eapply of_wire_to_wire, pdu_header_fits, Hf. Qed.

Lemma size_frame f : size (frame f) = 24 + size (pdu_payload f).
Proof. unfold frame. by rewrite size_app, size_to_wire. Qed.

(** ** The framer *)

Section framer.
Import PduFramer.

(** What the framer has still to put on the wire. *)
Definition sending (st : state) (rest : list Z) : Prop :=
  match rest with
  | [] => frame_size_ st.2 = 0 ∧ send_offset_ st.2 = 0
  | _ => ∃ b, active_frame st = Returns b ∧ 0 ≤ send_offset_ st.2 < frame_size_ st.2 ∧
           frame_size_ st.2 ≤ size b ∧
           rest = slice b (send_offset_ st.2) (frame_size_ st.2 - send_offset_ st.2)
  end.

(** The answers that take a byte at least. *)
Definition takes (a : SendAnswer) : bool := match a with Accepts (S _) => true | _ => false end.
Definition takers (answers : list SendAnswer) : nat := length (filter (λ a, takes a = true) answers).
Definition unbroken (answers : list SendAnswer) : Prop :=
  Forall (λ a, match a with Breaks _ _ => False | _ => True end) answers.

(** What a call may have done: put bytes on the wire and used up answers. *)
Record sent (st st' : state) (took : list Z) : Prop := {
  sent_wire : wire (socket st'.1) = wire (socket st.1) ++ took;
  sent_chunks : chunks st'.1 = chunks st.1;
  sent_buffer : frame_buffer_ st'.2 = frame_buffer_ st.2;
  sent_answers : ∃ used, answers (socket st.1) = used ++ answers (socket st'.1)
                         ∧ (takers used ≤ length took)%nat
}.

Lemma sent_nothing st : sent st st [].
Proof. split; [by rewrite app_nil_r|done|done|]. exists []. by split. Qed.

Lemma sent_trans st1 st2 st3 t1 t2 : sent st1 st2 t1 → sent st2 st3 t2 → sent st1 st3 (t1 ++ t2).
Proof.
  intros [Hw1 Hc1 Hb1 (u1 & Ha1 & Hn1)] [Hw2 Hc2 Hb2 (u2 & Ha2 & Hn2)]. split.
  - by rewrite Hw2, Hw1, app_assoc.
  - congruence.
  - congruence.
  - exists (u1 ++ u2). split; [by rewrite Ha1, Ha2, app_assoc|].
    unfold takers in *. rewrite filter_app, !length_app. lia.
Qed.

(** The loop ends with the frame on the wire, with a full socket, or with the
    error of a broken one. *)
Inductive send_ended (st st' : state) (rest : list Z) : answer → Prop :=
  | ended_sent : sent st st' rest → sending st' [] → send_ended st st' rest (true, EmptyString)
  | ended_full took rest' :
      rest = took ++ rest' → rest' ≠ [] → sent st st' took → sending st' rest' →
      (∃ used, answers (socket st.1) = used ++ answers (socket st'.1) ∧
               (used ≠ [] ∨ answers (socket st'.1) = [])) →
      send_ended st st' rest (true, EmptyString)
  | ended_broken took rest' code error :
      rest = took ++ rest' → rest' ≠ [] → sent st st' took → sending st' [] →
      Breaks code error ∈ answers (socket st.1) →
      send_ended st st' rest (false, error).

Lemma slice_split b off n k :
  0 ≤ off → 0 ≤ k ≤ n → slice b off n = slice b off k ++ slice b (off + k) (n - k).
Proof.
  intros Ho Hk. unfold slice.
  replace (Z.to_nat n) with (Z.to_nat k + Z.to_nat (n - k))%nat by lia.
  replace (Z.to_nat (off + k)) with (Z.to_nat off + Z.to_nat k)%nat by lia.
  rewrite <- take_take_drop, drop_drop. done.
Qed.

Lemma slice_all b : slice b 0 (size b) = b.
Proof. rewrite <- (app_nil_r b) at 1. by apply slice_head. Qed.

Lemma size_slice b off n : 0 ≤ off → 0 ≤ n → off + n ≤ size b → size (slice b off n) = n.
Proof. unfold slice, size. intros. rewrite length_take, length_drop. lia. Qed.

Lemma sending_pending st rest : sending st rest → has_pending_data st.2 = bool_decide (rest ≠ []).
Proof.
  unfold has_pending_data. destruct rest as [|b rest]; unfold sending.
  - intros [-> ->]. done.
  - intros (bs & _ & Ho & _). rewrite bool_decide_eq_true_2 by done. apply Z.ltb_lt. lia.
Qed.

(** One turn of the loop with something to send. *)
Lemma turn_sends turns w f buf :
  has_pending_data f = true → active_frame (w, f) = Returns buf →
  continue_send_loop (S turns) (w, f) =
    (let r := stream_send (slice buf (send_offset_ f) (frame_size_ f - send_offset_ f)) (socket w) in
     let w' := mk_world r.1 (chunks w) in
     if r.2.1 <? 0 then
       if r.2.1 =? - EAGAIN then ((w', f), Returns (true, EmptyString))
       else ((w', point_at None 0 f), Returns (false, r.2.2))
     else continue_send_loop turns (w', advance r.2.1 f)).
Proof.
  unfold has_pending_data. intros Hp Hb. cbn [continue_send_loop].
  unfold mbind, comp_bind, ask, on_snd, gets, on_socket. cbn. rewrite Hp, Hb. cbn.
  destruct (stream_send _ _) as [s' [n e]]. cbn. by repeat case_match.
Qed.

(** The turn that finds nothing to send. *)
Lemma turn_ends turns w f :
  has_pending_data f = false →
  continue_send_loop (S turns) (w, f) = ((w, point_at None 0 f), Returns (true, EmptyString)).
Proof.
  unfold has_pending_data. intros Hp. cbn [continue_send_loop].
  unfold mbind, comp_bind, on_snd, gets. cbn. by rewrite Hp.
Qed.

Lemma sent_step w f f' a rest taken :
  answers (socket w) = a :: rest → (takes a = true → taken ≠ []) →
  frame_buffer_ f' = frame_buffer_ f →
  sent (w, f) (mk_world (mk_socket rest (wire (socket w) ++ taken)) (chunks w), f') taken.
Proof.
  intros Ha Ht Hf. split; cbn; [done|done|done|]. exists [a]. rewrite Ha. split; [done|].
  unfold takers. rewrite filter_cons, filter_nil. case_decide as Hd; [|cbn; lia].
  specialize (Ht Hd). destruct taken; [done|]. cbn. lia.
Qed.

Lemma used_step {w w' a rest} (f f' : t) :
  answers (socket w) = a :: rest → answers (socket w') = rest →
  ∃ used, answers (socket ((w, f) : state).1) = used ++ answers (socket ((w', f') : state).1) ∧
          (used ≠ [] ∨ answers (socket ((w', f') : state).1) = []).
Proof. intros Ha Hr. exists [a]. cbn. rewrite Ha, Hr. auto. Qed.

Lemma send_ended_after st st1 st' took rest r :
  sent st st1 took → send_ended st1 st' rest r → send_ended st st' (took ++ rest) r.
Proof.
  intros Hs He. pose proof Hs as [_ _ _ (u & Hu & _)]. destruct He.
  - apply ended_sent; [by eapply sent_trans|done].
  - eapply (ended_full _ _ _ (took ++ took0) rest'); [by rewrite <- app_assoc, H|done|by eapply sent_trans|done|].
    destruct H3 as (u' & Hu' & Hd). exists (u ++ u'). rewrite Hu, Hu', app_assoc. split; [done|].
    destruct Hd as [Hd|Hd]; [left|by right]. by destruct u.
  - eapply (ended_broken _ _ _ (took ++ took0) rest' code error);
      [by rewrite <- app_assoc, H|done|by eapply sent_trans|done|].
    rewrite Hu. apply elem_of_app. by right.
Qed.

(** What the framer has to send once [n] more bytes are on the wire. *)
Lemma sending_advance w w' f rest n :
  chunks w' = chunks w → sending (w, f) rest → rest ≠ [] → (n ≤ length rest)%nat →
  sending (w', advance (Z.of_nat n) f) (drop n rest) ∨
  (drop n rest = [] ∧ has_pending_data (advance (Z.of_nat n) f) = false).
Proof.
  intros Hc Hs Hne Hn. destruct rest as [|x rest]; [done|].
  destruct Hs as (b & Hb & Ho & Hsz & Hr). cbn in Ho, Hsz, Hr. rewrite Hr in *.
  pose proof (size_slice b (send_offset_ f) (frame_size_ f - send_offset_ f)) as Hlen.
  unfold size in Hlen, Hsz. rewrite Nat2Z.inj_le, Hlen in Hn by lia.
  rewrite (slice_split b _ _ (Z.of_nat n)), drop_app_length' by
    (try (pose proof (size_slice b (send_offset_ f) (Z.of_nat n)); unfold size in *); lia).
  destruct (Z.eq_dec (Z.of_nat n) (frame_size_ f - send_offset_ f)) as [He|He].
  - right. unfold has_pending_data. cbn. rewrite He, Z.sub_diag. split; [done|lia].
  - left. unfold sending. cbn.
    destruct (slice b (send_offset_ f + Z.of_nat n) _) as [|y ys] eqn:Ey; [exfalso|].
    + assert (Hl := size_slice b (send_offset_ f + Z.of_nat n) (frame_size_ f - send_offset_ f - Z.of_nat n)).
      rewrite Ey in Hl. unfold size in Hl. cbn in Hl. lia.
    + exists b. split_and!; [|lia|lia|unfold size; lia|].
      * unfold active_frame in *. cbn in *. by rewrite Hc.
      * rewrite <- Ey. f_equal. lia.
Qed.

Lemma take_min_drop (n : nat) (l : list Z) : l = take n l ++ drop (n `min` length l) l.
Proof.
  destruct (Nat.le_ge_cases n (length l)).
  - rewrite Nat.min_l by done. by rewrite take_drop.
  - rewrite Nat.min_r, take_ge, drop_ge by lia. by rewrite app_nil_r.
Qed.

Lemma loop_ends turns : ∀ w f rest,
  sending (w, f) rest → (length (answers (socket w)) + 1 < turns)%nat →
  returns (continue_send_loop turns) (w, f) (λ st' r, send_ended (w, f) st' rest r).
Proof.
  induction turns as [|turns IH]; intros w f rest Hs Ht; [lia|].
  pose proof (sending_pending _ _ Hs) as Hp.
  destruct (decide (rest = [])) as [->|Hne].
  { eapply returns_eq; [by apply turn_ends|]. apply ended_sent; [|done].
    destruct (sent_nothing (w, f)) as [H1 H2 H3 H4]. by split. }
  rewrite bool_decide_eq_true_2 in Hp by done. cbn in Hp.
  assert (∃ b, active_frame (w, f) = Returns b ∧
    rest = slice b (send_offset_ f) (frame_size_ f - send_offset_ f)) as (b & Hb & Hr).
  { destruct rest; [done|]. destruct Hs as (b & ? & ? & ? & ?). by exists b. }
  unfold returns. erewrite turn_sends by done. rewrite <- Hr. unfold stream_send.
  destruct (answers (socket w)) as [|a as_] eqn:Ea; cbn zeta.
  { cbn. eapply (ended_full _ _ _ [] rest); [done|done| |done|].
    - split; cbn; [by rewrite app_nil_r|done|done|]. exists []. cbn. by rewrite Ea.
    - exists []. cbn. rewrite Ea. auto. }
  destruct a as [n| |code error]; cbn [fst snd].
  - assert (Htk : takes (Accepts n) = true → take n rest ≠ []).
    { destruct n, rest; done. }
    pose proof (sent_step _ f (advance (size (take n rest)) f) _ _ _ Ea Htk eq_refl) as Hst.
    rewrite (proj2 (Z.ltb_ge _ _)) by (unfold size; lia).
    set (w' := mk_world _ _) in *.
    assert (size (take n rest) = Z.of_nat (n `min` length rest)) as Hsz
      by (unfold size; rewrite length_take; lia).
    destruct (sending_advance w w' f rest (n `min` length rest)) as [Hs'|[Hd Hq]];
      [done|done|done|lia| |].
    + rewrite <- Hsz in Hs'.
      eapply returns_mono; [apply (IH _ _ _ Hs'); cbn in *; lia|].
      intros st' r He. rewrite (take_min_drop n rest). by eapply send_ended_after.
    + rewrite <- Hsz in Hq. destruct turns as [|turns]; [cbn in Ht; lia|].
      eapply returns_eq; [by apply turn_ends|].
      assert (take n rest = rest) as Ht' by (by rewrite (take_min_drop n rest) at 2; rewrite Hd, app_nil_r).
      rewrite Ht' in Hst. apply ended_sent; [|done]. destruct Hst. by split.
  - cbn. eapply (ended_full _ _ _ [] rest); [done|done| | |by eapply used_step].
    + rewrite <- (app_nil_r (wire (socket w))). by eapply sent_step.
    + destruct rest; done.
  - cbn. assert (Hst : sent (w, f) (mk_world (mk_socket as_ (wire (socket w))) (chunks w), f) []).
    { pose proof (sent_step w f f _ _ [] Ea) as Hst. rewrite app_nil_r in Hst. by apply Hst. }
    rewrite (proj2 (Z.ltb_lt _ _)) by lia. destruct (_ =? _).
    + eapply (ended_full _ _ _ [] rest); [done|done|done|by destruct rest|by eapply used_step].
    + eapply (ended_broken _ _ _ [] rest); [done|done| |done|].
      * destruct Hst. by split.
      * cbn. rewrite Ea. left.
Qed.

Lemma continue_send_ends w f rest :
  sending (w, f) rest → returns continue_send (w, f) (λ st' r, send_ended (w, f) st' rest r).
Proof. intros Hs. apply loop_ends; [done|cbn; lia]. Qed.

Lemma sending_own w f bytes n :
  frame_buffer_ f = bytes → active_frame_ptr_ f = Some OwnBuffer → send_offset_ f = 0 →
  frame_size_ f = n → 0 < n ≤ size bytes → sending (w, f) (slice bytes 0 n).
Proof.
  intros Hb Hp Ho Hf Hn. pose proof (size_slice bytes 0 n ltac:(lia) ltac:(lia) ltac:(lia)) as Hl.
  destruct (slice bytes 0 n) as [|x l] eqn:E; [change (0 = n) in Hl; lia|].
  exists bytes. unfold active_frame. cbn. rewrite Hp, Ho, Hf, Hb, Z.sub_0_r.
  by split_and!; [|lia|lia|lia|].
Qed.

Lemma sending_chunk w f p bytes :
  active_frame_ptr_ f = Some (CallerChunk p) → chunks w !! p = Some bytes → send_offset_ f = 0 →
  frame_size_ f = size bytes → bytes ≠ [] → sending (w, f) bytes.
Proof.
  intros Hp Hc Ho Hf Hn. destruct bytes as [|x l]; [done|].
  exists (x :: l). unfold active_frame. cbn -[size]. rewrite Hp, Ho, Hf, Hc, Z.sub_0_r.
  split_and!; [done|lia| |lia|].
  - unfold size. cbn. lia.
  - by rewrite slice_all.
Qed.

(** [send] puts the frame of its PDU on the wire, or what the socket takes of
    it. *)
Lemma send_ends w f p :
  sending (w, f) [] → size (frame_buffer_ f) = frame_buffer_size →
  0 < size (pdu_payload p) ≤ max_payload_size →
  returns (send (pdu_id p) (pdu_version p) (pdu_seq_no p) (Some (pdu_payload p)) (size (pdu_payload p)))
    (w, f) (λ st' r, ∃ f0, frame_buffer_ f0 = splice (frame_buffer_ f) 0 (frame p) ∧
                           send_ended (w, f0) st' (frame p) r).
Proof.
  intros Hs Hl Hp. pose proof (sending_pending _ _ Hs) as Hq. cbn in Hq.
  unfold send. rewrite (proj2 (Z.eqb_neq _ _)) by lia.
  apply returns_bind. eapply returns_eq; [reflexivity|]. cbn [fst snd]. rewrite Hq.
  rewrite (proj2 (Z.ltb_ge _ _)) by (unfold frame_buffer_size; lia).
  rewrite Z.ltb_irrefl. apply returns_bind. eapply returns_eq; [reflexivity|].
  rewrite slice_all.
  change (PduHeader.to_wire _ ++ _) with (frame p).
  cbn beta iota delta [snd fst].
  set (f0 := mk (splice (frame_buffer_ f) 0 (frame p)) (Some OwnBuffer)
               (PduHeader.sizeof + size (pdu_payload p)) 0).
  assert (Hs0 : sending (w, f0) (slice (frame_buffer_ f0) 0 (size (frame p)))).
  { apply sending_own; try done; cbn -[size]; [by rewrite size_frame|].
    pose proof (size_frame p). unfold splice, frame_buffer_size, PduHeader.sizeof in *.
    rewrite !size_app. pose proof (size_nonneg (drop (Z.to_nat (0 + size (frame p))) (frame_buffer_ f))).
    pose proof (size_nonneg (take (Z.to_nat 0) (frame_buffer_ f))). lia. }
  cbn [frame_buffer_ f0] in Hs0. unfold splice in Hs0. rewrite take_0 in Hs0. cbn [app] in Hs0.
  rewrite slice_head in Hs0 by done.
  eapply returns_mono; [exact (continue_send_ends _ _ _ Hs0)|].
  intros st' r He. by exists f0.
Qed.

(** *** A connection that sends PDUs *)

(** The reactor calls [continue_send] when the socket has room again, and sends
    the next PDU when the one before is on the wire. *)
Fixpoint flush (rounds : nat) : comp state unit :=
  match rounds with
  | O => mret ()
  | S rounds =>
      pending ← on_snd (gets has_pending_data);
      if pending : bool then continue_send;; flush rounds else mret ()
  end.

Fixpoint transmit (rounds : nat) (ps : list Pdu) : comp state unit :=
  match ps with
  | [] => mret ()
  | p :: ps =>
      send (pdu_id p) (pdu_version p) (pdu_seq_no p) (Some (pdu_payload p)) (size (pdu_payload p));;
      flush rounds;;
      transmit rounds ps
  end.

Definition on_wire (ps : list Pdu) : list Z := ps ≫= frame.

Lemma takers_app a b : takers (a ++ b) = (takers a + takers b)%nat.
Proof. unfold takers. by rewrite filter_app, length_app. Qed.

(** A call on a socket that does not break and takes enough, in terms of what is
    left. *)
Lemma ended_unbroken st st' rest r :
  send_ended st st' rest r → unbroken (answers (socket st.1)) →
  (length rest ≤ takers (answers (socket st.1)))%nat →
  ∃ took rest', rest = took ++ rest' ∧ sent st st' took ∧ sending st' rest' ∧
    (rest' = [] ∨ (length (answers (socket st'.1)) < length (answers (socket st.1)))%nat).
Proof.
  intros He Hu Ht. destruct He as [Hs Hi|took rest' Hr Hn Hs Hi (u & Hu' & Hd)|took rest' code error Hr Hn Hs Hi Hb].
  - exists rest, []. rewrite app_nil_r. auto.
  - exists took, rest'. split_and!; [done..|]. right.
    destruct Hs as [_ _ _ (u2 & Hu2 & Htk)].
    destruct Hd as [Hd|Hd].
    + rewrite Hu', length_app. destruct u; [done|]. cbn. lia.
    + rewrite Hu2, Hd, app_nil_r in *. rewrite Hr, length_app in Ht. destruct rest'; [done|]. cbn in Ht. lia.
  - unfold unbroken in Hu. rewrite Forall_forall in Hu. by apply Hu in Hb.
Qed.

Lemma left_over st st' took rest :
  sent st st' took → (length (took ++ rest) ≤ takers (answers (socket st.1)))%nat →
  (length rest ≤ takers (answers (socket st'.1)))%nat.
Proof.
  intros [_ _ _ (u & Hu & Ht)] Hl. rewrite Hu, takers_app, length_app in Hl. lia.
Qed.

Lemma still_unbroken st st' took :
  sent st st' took → unbroken (answers (socket st.1)) → unbroken (answers (socket st'.1)).
Proof. intros [_ _ _ (u & Hu & _)]. unfold unbroken. rewrite Hu, Forall_app. tauto. Qed.

Lemma flush_sends rounds : ∀ st rest,
  sending st rest → unbroken (answers (socket st.1)) →
  (length rest ≤ takers (answers (socket st.1)))%nat →
  (length (answers (socket st.1)) < rounds)%nat →
  returns (flush rounds) st (λ st' _, sent st st' rest ∧ sending st' []).
Proof.
  induction rounds as [|rounds IH]; intros st rest Hs Hu Ht Hr; [lia|].
  cbn [flush]. apply returns_bind. eapply returns_eq; [by destruct st|].
  destruct st as [w f]. pose proof (sending_pending _ _ Hs) as Hq. cbn [fst snd] in *. rewrite Hq.
  destruct (decide (rest = [])) as [->|Hne].
  { rewrite bool_decide_eq_false_2 by tauto. split; [apply sent_nothing|done]. }
  rewrite bool_decide_eq_true_2 by done. apply returns_bind.
  eapply returns_mono; [by apply continue_send_ends|]. intros st1 r He.
  destruct (ended_unbroken _ _ _ _ He Hu Ht) as (took & rest' & -> & Hst & Hs1 & Hd).
  destruct Hd as [->|Hd].
  - rewrite app_nil_r. destruct rounds as [|rounds]; [by split|].
    cbn [flush]. apply returns_bind. eapply returns_eq; [by destruct st1|].
    destruct st1 as [w1 f1]. pose proof (sending_pending _ _ Hs1) as Hq1.
    cbn [fst snd] in *. rewrite Hq1. by split.
  - eapply returns_mono; [apply (IH st1 rest')|].
    + done.
    + by eapply still_unbroken.
    + by eapply left_over.
    + cbn in *. lia.
    + intros st' [] [H1 H2]. split; [by eapply sent_trans|done].
Qed.

Lemma transmit_sends rounds ps : ∀ st,
  sending st [] → size (frame_buffer_ st.2) = frame_buffer_size →
  Forall (λ p, 0 < size (pdu_payload p) ≤ max_payload_size) ps →
  unbroken (answers (socket st.1)) →
  (length (on_wire ps) ≤ takers (answers (socket st.1)))%nat →
  (length (answers (socket st.1)) < rounds)%nat →
  returns (transmit rounds ps) st (λ st' _,
    wire (socket st'.1) = wire (socket st.1) ++ on_wire ps ∧ sending st' []).
Proof.
  induction ps as [|p ps IH]; intros [w f] Hs Hb Hp Hu Ht Hr; cbn [transmit].
  { split; [by rewrite app_nil_r|done]. }
  apply Forall_cons in Hp as [Hp Hps]. cbn [on_wire mbind list_bind] in Ht.
  rewrite length_app in Ht. cbn [fst snd] in *.
  apply returns_bind. eapply returns_mono; [by apply send_ends|]. intros st1 r (f0 & Hf0 & He).
  destruct (ended_unbroken _ _ _ _ He Hu ltac:(cbn; lia)) as (took & rest' & Hfr & Hst & Hs1 & Hd).
  assert (Hl1 : (length (answers (socket st1.1)) ≤ length (answers (socket w)))%nat).
  { destruct Hst as [_ _ _ (u & Hu' & _)]. cbn in Hu'. rewrite Hu', length_app. lia. }
  rewrite Hfr in Ht. apply returns_bind. eapply returns_mono; [apply (flush_sends _ _ rest')|].
  - done.
  - by eapply still_unbroken.
  - eapply left_over; [exact Hst|]. cbn. lia.
  - lia.
  - intros st2 _ [Hst2 Hs2]. pose proof (sent_trans _ _ _ _ _ Hst Hst2) as Hst12.
    rewrite <- Hfr in Hst12, Ht.
    eapply returns_mono; [apply IH|].
    + done.
    + rewrite (sent_buffer _ _ _ Hst12). cbn [snd]. rewrite Hf0.
      rewrite size_splice; [done|lia|]. rewrite size_frame, Hb.
      unfold frame_buffer_size, PduHeader.sizeof, max_payload_size in *. lia.
    + done.
    + by eapply still_unbroken.
    + eapply (left_over _ _ _ _ Hst12). rewrite length_app. cbn. exact Ht.
    + destruct Hst12 as [_ _ _ (u & Hu' & _)]. cbn in Hu'. rewrite Hu', length_app in Hr. lia.
    + intros st3 _ [Hw3 Hs3]. split; [|done]. rewrite Hw3, (sent_wire _ _ _ Hst12).
      cbn [on_wire mbind list_bind fst]. by rewrite <- app_assoc.
Qed.

End framer.

(** ** The parser *)

Section parser.
Context {A : Type} `{SlabLaws A}.
Import PduParser.

Definition arriving (es : list NetEvent) : Prop :=
  Forall (λ e, match e with Arrive _ => True | _ => False end) es.

(** What is left at the socket: the pieces and their bytes. *)
Definition backlog (es : list NetEvent) : nat := (length es + length (unread es))%nat.

Definition read_on (es es' : list NetEvent) : Prop :=
  (backlog es' < backlog es)%nat ∨ backlog es = 0%nat ∧ backlog es' = 0%nat.

(** A read of a connection that stays open. *)
Lemma stream_receive_ok (w : World A) p n :
  arriving (events w) → 0 < n →
  ∃ es' k bs, stream_receive n (w, p) = ((set_events es' w, p), Returns (k, EmptyString, bs)) ∧
    arriving es' ∧ unread (events w) = bs ++ unread es' ∧ size bs ≤ n ∧ read_on (events w) es' ∧
    (bs = [] ∧ k = - EAGAIN ∨ bs ≠ [] ∧ k = size bs).
Proof.
  intros Ha Hn. unfold stream_receive. cbn [fst].
  destruct (events w) as [|e es] eqn:Ee.
  - exists [], (- EAGAIN), []. split_and!; try done; [|unfold size; cbn; lia|by right|auto].
    destruct w. cbn in Ee. by subst.
  - apply Forall_cons in Ha as [He Hes]. destruct e as [bs| |]; [|done..].
    destruct bs as [|b bs].
    + exists es, (- EAGAIN), []. split_and!; try done; [unfold size; cbn; lia|left|auto].
      unfold backlog. change (unread (Arrive [] :: es)) with (unread es). cbn [length]. lia.
    + set (l := b :: bs). assert (Htk : take (Z.to_nat n) l ≠ []) by (destruct (Z.to_nat n) eqn:?; [lia|done]).
      eexists _, _, (take (Z.to_nat n) l). split; [reflexivity|].
      assert (Hlen : (0 < length (take (Z.to_nat n) l))%nat) by (destruct (take _ l); [done|cbn; lia]).
      assert (Hsum : (length (take (Z.to_nat n) l) + length (drop (Z.to_nat n) l) = length l)%nat)
        by (rewrite <- length_app, take_drop; done).
      assert (Hun : unread (Arrive l :: es) = take (Z.to_nat n) l ++
        unread (match drop (Z.to_nat n) l with [] => es | _ => Arrive (drop (Z.to_nat n) l) :: es end)).
      { cbn [unread mbind list_bind event_bytes]. rewrite <- (take_drop (Z.to_nat n) l) at 1.
        rewrite <- app_assoc. f_equal. by destruct (drop (Z.to_nat n) l). }
      split_and!.
      * destruct (drop _ _); [done|]. by constructor.
      * exact Hun.
      * unfold size. rewrite length_take. lia.
      * left. unfold backlog. rewrite Hun, length_app.
        destruct (drop (Z.to_nat n) l); cbn [length]; lia.
      * by right.
Qed.

Variable limit : Z.
Variable given : list (Z * Z).
Variable queued : list FrameworkPdu.

(** The chunk of the payload that is being received. *)
Definition in_progress (p : t) : list (Z * Z) :=
  match payload_chunk_ p with Some c => [(payload_slab_id_ p, c)] | None => [] end.

Definition chunk_of (m : FrameworkPdu) : Z * Z := (msg_slab_id m, msg_payload m).

(** The message the application thread finds for a PDU, and its payload in
    memory. *)
Definition delivered (connection_id : Z) (memory : gmap Z (list Z)) (f : Pdu) (m : FrameworkPdu)
    : Prop :=
  msg_pdu_id m = pdu_id f ∧ msg_seq_no m = pdu_seq_no f ∧
  msg_payload_size m = size (pdu_payload f) ∧ msg_connection_id m = connection_id ∧
  memory !! msg_payload m = Some (pdu_payload f).

(** Where the parser is: in the header of the first PDU of [todo], or in its
    payload. *)
Inductive reading : state A → list Pdu → Prop :=
  | reading_header w p todo k :
      header_validated_ p = false → payload_chunk_ p = None →
      header_bytes_ p = Z.of_nat k → (k < 24)%nat → size (header_buffer_ p) = 24 →
      take k (header_buffer_ p) = take k (on_wire todo) → (k = 0%nat ∨ todo ≠ []) →
      unread (events w) = drop k (on_wire todo) →
      (length todo ≤ room (allocator w))%nat →
      reading (w, p) todo
  | reading_payload w p f todo c block r :
      header_validated_ p = true → size (header_buffer_ p) = 24 →
      current_payload_size_ p = size (pdu_payload f) → current_pdu_id_ p = pdu_id f →
      current_seq_no_ p = pdu_seq_no f → payload_chunk_ p = Some c →
      payload_bytes_received_ p = Z.of_nat r → (r < length (pdu_payload f))%nat →
      memory w !! c = Some block → length block = length (pdu_payload f) →
      take r block = take r (pdu_payload f) →
      unread (events w) = drop r (pdu_payload f) ++ on_wire todo →
      (length todo ≤ room (allocator w))%nat →
      reading (w, p) (f :: todo).

(** Between two calls of [receive]: the PDUs of [done] are with the application,
    those of [todo] are still to come, and the chunks given out are the ones the
    application has and the one in progress. *)
Record parsing (id : Z) (st : state A) (done todo : list Pdu) : Prop := {
  p_good : good_allocator (allocator st.1);
  p_limit : slab_size (allocator st.1) = limit;
  p_id : connection_id_ st.2 = id;
  p_arriving : arriving (events st.1);
  p_pdus : Forall (good_pdu limit) todo;
  p_reading : reading st todo;
  p_messages : ∃ msgs, enqueued st.1 = queued ++ msgs ∧
    Forall2 (delivered id (memory st.1)) done msgs ∧
    held (allocator st.1) ≡ₚ in_progress st.2 ++ (chunk_of <$> msgs) ++ given
}.

(** The header of a good PDU is accepted, and its payload has a chunk. *)
Lemma accept_header_ok (w : World A) p f :
  header_buffer_ p = PduHeader.to_wire (pdu_header f) → good_pdu (slab_size (allocator w)) f →
  good_allocator (allocator w) → (0 < room (allocator w))%nat →
  returns accept_header (w, p) (λ st' fl, fl = Continue ∧ ∃ a' h c,
    st' = (set_memory (<[c := zeros (size (pdu_payload f))]> (memory w)) (set_allocator a' w),
           set_payload true (Some c) h 0
             (set_current (size (pdu_payload f)) (pdu_id f) (pdu_seq_no f) p)) ∧
    good_allocator a' ∧ held a' ≡ₚ (h, c) :: held (allocator w) ∧
    slab_size a' = slab_size (allocator w) ∧ (room (allocator w) ≤ S (room a'))%nat).
Proof.
  intros Hb Hf Hg Hr.
  pose proof (frame_decoded _ _ [] Hf) as Hd. rewrite app_nil_r in Hd.
  pose proof Hf as (_ & _ & _ & Hs & _).
  unfold accept_header. apply returns_bind. eapply returns_eq; [reflexivity|]. cbn [snd].
  cbn zeta. rewrite Hb, Hd. cbn [pdu_header PduFramer.frame_header PduHeader.canary PduHeader.byte_count
    PduHeader.pdu_id PduHeader.seq_no].
  rewrite Z.eqb_refl. cbn [negb]. apply returns_bind. eapply returns_eq; [reflexivity|].
  rewrite (proj2 (Z.eqb_neq _ _)) by lia.
  apply returns_bind. eapply returns_eq; [reflexivity|]. cbn [fst snd].
  rewrite (proj2 (Z.ltb_ge _ _)) by lia.
  apply returns_bind. unfold on_allocator, returns. cbn [fst snd].
  pose proof (allocate_law _ _ Hg Hs Hr) as Ha. unfold returns in Ha.
  destruct (allocate _ _) as [a' [[h cp]|e]]; [|done]. destruct Ha as (c & Hc & Hg' & Hh & Hl & Hrm).
  cbn in Hc. subst cp. cbn. split; [done|]. by exists a', h, c.
Qed.

Lemma zeros_take n r : take r (zeros n) = zeros (Z.of_nat (r `min` Z.to_nat n)).
Proof. unfold zeros. rewrite take_replicate, Nat2Z.id. done. Qed.

Lemma frame_split f todo : on_wire (f :: todo) = PduHeader.to_wire (pdu_header f) ++ pdu_payload f ++ on_wire todo.
Proof. cbn [on_wire mbind list_bind]. unfold frame. by rewrite <- app_assoc. Qed.

Lemma take_splice_front block (k : nat) bytes :
  (k + length bytes ≤ length block)%nat →
  take (k + length bytes) (splice block (Z.of_nat k) bytes) = take k block ++ bytes.
Proof.
  intros Hl. unfold splice. rewrite Nat2Z.id, app_assoc, take_app_length'; [done|].
  rewrite length_app, length_take. lia.
Qed.

(** What more of a known sequence has been read. *)
Lemma read_more (all bs rest : list Z) k :
  drop k all = bs ++ rest → (k ≤ length all)%nat →
  take (k + length bs) all = take k all ++ bs ∧ drop (k + length bs) all = rest.
Proof.
  intros Hd Hk. rewrite <- (take_drop k all), Hd.
  assert (Hlen : length (take k all) = k) by (rewrite length_take; lia).
  split.
  - rewrite (take_app_length' _ _ k) by done. rewrite app_assoc, take_app_length'; [done|].
    rewrite length_app. lia.
  - rewrite app_assoc, drop_app_length'; [done|]. rewrite length_app. lia.
Qed.

(** A chunk that is given out next to the ones of the messages is at an address
    of its own. *)
Lemma fresh_address h c (msgs : list FrameworkPdu) :
  NoDup ((h, c) :: (chunk_of <$> msgs) ++ given).*2 → c ∉ msg_payload <$> msgs.
Proof.
  rewrite fmap_cons, NoDup_cons. intros [Hn _] Hin. apply Hn.
  rewrite fmap_app, <- list_fmap_compose. apply elem_of_app. by left.
Qed.

Lemma delivered_insert id (m : gmap Z (list Z)) c block fs msgs :
  c ∉ msg_payload <$> msgs → Forall2 (delivered id m) fs msgs →
  Forall2 (delivered id (<[c := block]> m)) fs msgs.
Proof.
  intros Hc Hd. induction Hd as [|f g fs gs (H1 & H2 & H3 & H4 & H5) Hd IH]; constructor.
  - rewrite fmap_cons, not_elem_of_cons in Hc. unfold delivered. split_and!; try done.
    destruct Hc. by rewrite lookup_insert_ne.
  - rewrite fmap_cons, not_elem_of_cons in Hc. destruct Hc. by apply IH.
Qed.

Definition moved_on (st st' : state A) : Prop := read_on (events st.1) (events st'.1).
Definition no_more (st st' : state A) : Prop :=
  (length (unread (events st'.1)) ≤ length (unread (events st.1)))%nat ∧
  (backlog (events st'.1) ≤ backlog (events st.1))%nat.


(** A read that stays in its buffer. *)
Lemma write_header_eq (w : World A) p bs :
  header_bytes_ p + size bs ≤ size (header_buffer_ p) →
  write_header bs (w, p) = ((w, take_header bs p), Returns ()).
Proof.
  intros Hs. unfold write_header. rewrite (bind_returns _ _ (w, p) (w, p) p) by done.
  by rewrite (proj2 (Z.leb_le _ _)) by done.
Qed.

Lemma write_chunk_eq (w : World A) p c block at_ bs :
  memory w !! c = Some block → 0 ≤ at_ → at_ + size bs ≤ size block →
  write_chunk (Some c) at_ bs (w, p) = ((set_memory (<[c := splice block at_ bs]> (memory w)) w, p), Returns ()).
Proof.
  intros Hm Hat Hs. unfold write_chunk. rewrite (bind_returns _ _ (w, p) (w, p) w) by done.
  cbn [mbind option_bind]. rewrite Hm. cbn [fmap option_fmap option_map].
  by rewrite !(proj2 (Z.leb_le _ _)) by done.
Qed.
Lemma header_phase_ok id st done todo :
  parsing id st done todo →
  returns header_phase st (λ st' fl,
    match fl with
    | Return r => r = (true, EmptyString) ∧ parsing id st' done todo ∧ moved_on st st'
    | Continue => parsing id st' done todo ∧ header_validated_ st'.2 = true ∧ no_more st st'
    end).
Proof.
  intros [Hg Hl Hi Ha Hp Hr Hm].
  destruct Hr as [w p todo k Hv Hc Hhb Hk Hsz Htk Hne Hun Hrm|].
  2:{ unfold header_phase. apply returns_bind. eapply returns_eq; [reflexivity|]. cbn [snd].
      rewrite H1. split_and!; [|done|split; apply Nat.le_refl]. split; try done. by eapply reading_payload. }
  cbn [fst snd] in *.
  unfold header_phase. apply returns_bind. eapply returns_eq; [reflexivity|]. cbn [snd].
  rewrite Hv. cbn zeta. unfold PduHeader.sizeof. rewrite (proj2 (Z.ltb_lt _ _)) by lia.
  destruct (stream_receive_ok w p (24 - header_bytes_ p) Ha ltac:(lia))
    as (es & kk & bs & Hsr & Has & Hue & Hbs & Hro & Hd).
  apply returns_bind. apply returns_bind. eapply returns_eq; [exact Hsr|].
  destruct Hd as [[-> ->]|[Hbn ->]].
  - cbn [andb Z.eqb Z.ltb]. eapply returns_eq; [reflexivity|]. split_and!; [done| |done].
    split; try done. eapply reading_header; try done. cbn [events set_events]. by rewrite <- Hun, Hue.
  - assert (Hsb : 0 < size bs) by (destruct bs; [done|unfold size; cbn; lia]).
    rewrite (proj2 (Z.eqb_neq (size bs) 0)), (proj2 (Z.ltb_ge (size bs) 0)) by lia. cbn [andb].
    apply returns_bind. eapply returns_eq; [apply write_header_eq; lia|]. cbn [fst snd].
    eapply returns_eq; [reflexivity|].
    apply returns_bind. eapply returns_eq; [reflexivity|]. cbn [fst snd].
    destruct todo as [|f todo].
    { rewrite Hun in Hue. cbn in Hue. destruct k, bs; done. }
    unfold size in Hbs, Hsb, Hsz. rewrite Hhb in Hbs.
    assert (Hlw : (24 ≤ length (on_wire (f :: todo)))%nat)
      by (rewrite frame_split, length_app, length_to_wire; lia).
    destruct (read_more (on_wire (f :: todo)) bs (unread es) k) as [Htk' Hdr]; [congruence|lia|].
    assert (Hbuf : take (k + length bs) (splice (header_buffer_ p) (Z.of_nat k) bs)
                   = take (k + length bs) (on_wire (f :: todo)))
      by (rewrite take_splice_front, Htk, Htk' by lia; done).
    assert (Hsz' : size (splice (header_buffer_ p) (Z.of_nat k) bs) = 24)
      by (rewrite size_splice; unfold size; lia).
    unfold has_complete_header, PduHeader.sizeof. cbn [header_bytes_ take_header].
    change (header_bytes_ (modify (take_header bs) p).1) with (header_bytes_ p + size bs). rewrite Hhb. destruct (Z.leb_spec 24 (Z.of_nat k + size bs)) as [Hle|Hgt]; unfold size in *.
    + assert (Hk24 : (k + length bs = 24)%nat) by lia. rewrite Hk24 in *.
      assert (Hbuf' : splice (header_buffer_ p) (Z.of_nat k) bs = PduHeader.to_wire (pdu_header f)).
      { rewrite frame_split, take_app_length' in Hbuf by (by rewrite length_to_wire).
        rewrite <- Hbuf, take_ge; [done|lia]. }
      apply Forall_cons in Hp as [Hf Hp]. cbn [length] in Hrm.
      eapply returns_mono; [apply (accept_header_ok (set_events es w) _ f)|].
      * cbn. by rewrite Hhb.
      * cbn. by rewrite Hl.
      * done.
      * cbn. lia.
      * intros st' fl (-> & a' & h & c & -> & Hg' & Hh' & Hl' & Hrm').
        cbn [fst snd] in *. cbn in Hh', Hl', Hrm'.
        destruct Hm as (msgs & Hq & Hdel & Hheld). unfold in_progress in Hheld. rewrite Hc in Hheld.
        cbn [app] in Hheld.
        split_and!; [|done|].
        2:{ unfold no_more. cbn [fst events set_events set_memory set_allocator].
            unfold read_on in Hro. rewrite Hue, length_app. lia. }
        split; cbn [fst snd]; try done.
        -- cbn. by rewrite Hl'.
        -- by constructor.
        -- eapply (reading_payload _ _ f todo c (zeros (size (pdu_payload f))) 0%nat); try done; cbn.
           ++ by rewrite Hhb.
           ++ destruct Hf as (_ & _ & _ & Hf & _). unfold size in Hf. lia.
           ++ by rewrite lookup_insert_eq.
           ++ unfold zeros, size. by rewrite length_replicate, Nat2Z.id.
           ++ lia.
        -- exists msgs. cbn. split_and!; [done| |].
           ++ eapply delivered_insert; [|done].
              pose proof (held_addresses _ Hg') as Hnd. rewrite Hh', Hheld in Hnd.
              by eapply fresh_address.
           ++ by rewrite Hh', Hheld.
    + eapply returns_eq; [reflexivity|]. split_and!; [done| |done].
      split; try done. eapply (reading_header _ _ _ (k + length bs)); try done; cbn.
      * rewrite Hhb. unfold size. lia.
      * lia.
      * by rewrite Hhb.
      * by rewrite Hhb.
      * by right.
Qed.

(** The one chunk in progress is not one that the application has. *)
Lemma progress_address p c (msgs : list FrameworkPdu) (a : A) :
  good_allocator a → payload_chunk_ p = Some c →
  held a ≡ₚ in_progress p ++ (chunk_of <$> msgs) ++ given → c ∉ msg_payload <$> msgs.
Proof.
  intros Hg Hc Hh. unfold in_progress in Hh. rewrite Hc in Hh. cbn [app] in Hh.
  pose proof (held_addresses _ Hg) as Hnd. rewrite Hh in Hnd. by eapply fresh_address.
Qed.

Lemma split_read (all rest bs left_ : list Z) r :
  drop r all ++ rest = bs ++ left_ → (r + length bs ≤ length all)%nat →
  drop r all = bs ++ drop (r + length bs) all ∧ take (r + length bs) all = take r all ++ bs ∧
  left_ = drop (r + length bs) all ++ rest.
Proof.
  intros He Hl.
  assert (Hb : take (length bs) (drop r all) = bs).
  { apply (f_equal (take (length bs))) in He.
    rewrite take_app_le in He by (rewrite length_drop; lia). by rewrite He, take_app_length. }
  assert (Hd : drop r all = bs ++ drop (r + length bs) all).
  { rewrite <- drop_drop. rewrite <- Hb at 1. by rewrite take_drop. }
  split_and!; [done| |].
  - by rewrite <- take_take_drop, Hb.
  - rewrite Hd, <- app_assoc in He. by apply app_inv_head in He.
Qed.

Lemma payload_phase_ok id st done f todo :
  parsing id st done (f :: todo) → header_validated_ st.2 = true →
  returns payload_phase st (λ st' fl,
    match fl with
    | Return r => r = (true, EmptyString) ∧ parsing id st' done (f :: todo) ∧ moved_on st st'
    | Continue => parsing id st' (done ++ [f]) todo ∧ no_more st st' ∧
        (length (unread (events st'.1)) < length (unread (events st.1)))%nat
    end).
Proof.
  intros [Hg Hl Hi Ha Hp Hr Hm] Hval.
  inversion Hr as [|w p f' todo' c block r Hv Hsz Hcs Hcp Hcq Hc Hrec Hrl Hmem Hbl Htk Hun Hrm];
    subst; [cbn in Hval; congruence|].
  cbn [fst snd] in *.
  unfold payload_phase. apply returns_bind. eapply returns_eq; [reflexivity|]. cbn [snd].
  cbn zeta. rewrite Hcs, Hrec. unfold size. rewrite (proj2 (Z.ltb_lt _ _)) by lia.
  destruct (stream_receive_ok w p (Z.of_nat (length (pdu_payload f)) - Z.of_nat r) Ha ltac:(lia))
    as (es & kk & bs & Hsr & Has & Hue & Hbs & Hro & Hd).
  apply returns_bind. apply returns_bind. eapply returns_eq; [exact Hsr|].
  destruct Hd as [[-> ->]|[Hbn ->]].
  - cbn [andb Z.eqb Z.ltb]. eapply returns_eq; [reflexivity|]. split_and!; [done| |done].
    split; try done. eapply reading_payload; try done. cbn [events set_events]. by rewrite <- Hun, Hue.
  - assert (Hsb : 0 < size bs) by (destruct bs; [done|unfold size; cbn; lia]).
    rewrite (proj2 (Z.eqb_neq (size bs) 0)), (proj2 (Z.ltb_ge (size bs) 0)) by lia. cbn [andb].
    apply returns_bind. rewrite Hc. eapply returns_eq; [by apply write_chunk_eq; [exact Hmem|lia|unfold size in *; lia]|].
    cbn [fst snd].
    apply returns_bind. eapply returns_eq; [reflexivity|]. cbn [fst snd].
    eapply returns_eq; [reflexivity|].
    unfold size in Hbs, Hsb. rewrite Hun in Hue.
    destruct (split_read (pdu_payload f) (on_wire todo) bs (unread es) r Hue ltac:(lia))
      as (Hdr & Htk' & Hue').
    set (w' := set_memory (<[c := splice block (Z.of_nat r) bs]> (memory w)) (set_events es w)).
    set (p' := set_payload true (Some c) (payload_slab_id_ p) (Z.of_nat r + size bs) p).
    match goal with |- returns ?m _ ?Q => change (returns m (w', p') Q) end.
    assert (Hblock : take (r + length bs) (splice block (Z.of_nat r) bs)
                     = take (r + length bs) (pdu_payload f))
      by (rewrite take_splice_front, Htk, Htk' by lia; done).
    assert (Hbl' : length (splice block (Z.of_nat r) bs) = length block).
    { pose proof (size_splice block (Z.of_nat r) bs) as Hs. unfold size in Hs. lia. }
    destruct Hm as (msgs & Hq & Hdel & Hheld).
    pose proof (progress_address _ _ _ _ Hg Hc Hheld) as Hfresh.
    assert (Hdel' : Forall2 (delivered (connection_id_ p) (memory w')) done msgs)
      by (by apply delivered_insert).
    unfold complete_payload. apply returns_bind. eapply returns_eq; [reflexivity|]. cbn [snd].
    cbn [p' set_payload payload_bytes_received_ current_payload_size_ payload_chunk_].
    rewrite Hcs. unfold size. case_if; bool_to_prop.
    + eapply returns_eq; [reflexivity|]. split_and!; [done| |done].
      split; try done.
      * eapply (reading_payload _ _ f todo c (splice block (Z.of_nat r) bs) (r + length bs));
          try done; cbn; [unfold size; lia|lia|by rewrite lookup_insert_eq|congruence].
      * exists msgs. split_and!; try done. cbn. unfold in_progress in *. by rewrite Hc in Hheld.
    + assert (Hrl' : (r + length bs = length (pdu_payload f))%nat) by lia.
      rewrite Hrl', take_ge, take_ge in Hblock by lia.
      apply Forall_cons in Hp as [Hf Hp].
      eapply returns_eq; [reflexivity|].
      rewrite Hrl', drop_all in Hue'. cbn [app] in Hue'.
      assert (Hlt : (length (unread es) < length (unread (events w)))%nat)
        by (rewrite Hun, Hue', Hdr, !length_app; lia).
      unfold read_on in Hro. split_and!; [| |exact Hlt].
      2:{ split; [apply Nat.lt_le_incl, Hlt|]. change (backlog es ≤ backlog (events w))%nat. lia. }
      split; try done.
      * eapply (reading_header _ _ _ 0%nat); try done; cbn; [lia|by left].
      * eexists (msgs ++ [_]). split_and!.
        -- cbn. rewrite Hq, <- app_assoc. reflexivity.
        -- apply Forall2_app; [done|]. apply Forall2_cons. split; [|done].
           unfold delivered. cbn. rewrite Hcp, Hcq, Hcs. split_and!; try done.
           ++ unfold to_int. apply signed_of_bytes_of; [lia|].
              destruct Hf as (_ & _ & _ & Hf & Hf'). unfold int_fits. lia.
           ++ by rewrite lookup_insert_eq, Hblock.
        -- unfold in_progress in *. rewrite Hc in Hheld. cbn. rewrite Hheld, fmap_app.
           cbn. rewrite <- app_assoc. cbn. by rewrite Permutation_middle.
Qed.

Lemma receive_loop_ok id turns : ∀ st done todo,
  parsing id st done todo → (length (unread (events st.1)) + 1 < turns)%nat →
  returns (receive_loop turns) st (λ st' r,
    r = (true, EmptyString) ∧ moved_on st st' ∧
    ∃ more todo', todo = more ++ todo' ∧ parsing id st' (done ++ more) todo').
Proof.
  induction turns as [|turns IH]; intros st done todo Hp Ht; [lia|].
  cbn [receive_loop]. apply returns_bind. eapply returns_mono; [by apply header_phase_ok|].
  intros st1 [r|].
  - intros (-> & Hp1 & Hm). split_and!; [done..|]. exists [], todo. by rewrite app_nil_r.
  - intros (Hp1 & Hv & Hn1 & Hn2).
    destruct todo as [|f todo].
    { exfalso. destruct Hp1 as [_ _ _ _ _ Hr _]. inversion Hr; subst. cbn in *. congruence. }
    apply returns_bind. eapply returns_mono; [by apply payload_phase_ok|].
    intros st2 [r|].
    + intros (-> & Hp2 & Hm). split_and!; [done| |].
      * unfold moved_on, read_on in *. lia.
      * exists [], (f :: todo). by rewrite app_nil_r.
    + intros (Hp2 & (Hn3 & Hn4) & Hn5).
      eapply returns_mono; [apply (IH _ _ _ Hp2); lia|].
      intros st3 r (-> & Hm & more & todo' & -> & Hp3).
      split_and!; [done|unfold moved_on, read_on in *; lia|].
      exists (f :: more), todo'. split; [done|]. by rewrite <- app_assoc in Hp3.
Qed.

Lemma receive_ok id st done todo :
  parsing id st done todo →
  returns receive st (λ st' r,
    r = (true, EmptyString) ∧ moved_on st st' ∧
    ∃ more todo', todo = more ++ todo' ∧ parsing id st' (done ++ more) todo').
Proof. intros Hp. apply receive_loop_ok; [done|lia]. Qed.

(** *** A connection that receives PDUs *)

(** The reactor calls [receive] whenever the socket is readable. *)
Fixpoint receive_all (rounds : nat) : comp (state A) unit :=
  match rounds with
  | O => mret ()
  | S rounds => receive;; receive_all rounds
  end.

Lemma receive_all_ok id rounds : ∀ st done todo,
  parsing id st done todo → (backlog (events st.1) ≤ rounds)%nat →
  returns (receive_all rounds) st (λ st' _,
    backlog (events st'.1) = 0%nat ∧ parsing id st' (done ++ todo) []).
Proof.
  induction rounds as [|rounds IH]; intros st done todo Hp Hb; cbn [receive_all].
  - assert (Hb0 : backlog (events st.1) = 0%nat) by lia. split; [done|].
    assert (todo = []) as ->; [|by rewrite app_nil_r].
    destruct Hp as [_ _ _ _ _ Hr _]. unfold backlog in Hb0.
    assert (Hu : unread (events st.1) = []) by (apply length_zero_iff_nil; lia).
    destruct Hr as [w p todo k ? ? ? Hk ? ? ? Hun ?|w p f todo ? ? r ? ? ? ? ? ? ? Hr ? ? ? Hun ?];
      cbn [fst] in Hu; rewrite Hu in Hun.
    + destruct todo as [|f todo]; [done|]. apply (f_equal length) in Hun.
      rewrite frame_split, length_drop, length_app, length_to_wire in Hun. cbn in Hun. lia.
    + apply (f_equal length) in Hun. rewrite length_app, length_drop in Hun. cbn in Hun. lia.
  - apply returns_bind. eapply returns_mono; [by apply receive_ok|].
    intros st1 r (_ & Hm & more & todo' & -> & Hp1). rewrite app_assoc.
    apply IH; [done|]. unfold moved_on, read_on in Hm. lia.
Qed.

End parser.

(** ** From one side to the other *)

Section connection.
Context {A : Type} `{SlabLaws A}.

(** A connection whose bytes have arrived in the pieces [es]. *)
Definition receiving (es : list NetEvent) (a : A) (memory : gmap Z (list Z)) (id : Z)
    : PduParser.state A :=
  (PduParser.mk_world es a memory [] 0, PduParser.initial id false).

Definition sending_side (answers : list SendAnswer) : PduFramer.state :=
  (PduFramer.mk_world (mk_socket answers []) ∅, PduFramer.initial).

Lemma receiving_starts es a m id ps :
  arriving es → PduParser.unread es = on_wire ps → Forall (good_pdu (slab_size a)) ps →
  good_allocator a → (length ps ≤ room a)%nat →
  parsing (slab_size a) (held a) [] id (receiving es a m id) [] ps.
Proof.
  intros Ha Hu Hp Hg Hr. split; try done.
  - eapply (reading_header _ _ _ 0%nat); try done; [cbn; lia|by left].
  - exists []. split_and!; [done|constructor|done].
Qed.

(** C18: The PDUs that a connection frames are the PDUs that the other end
    dispatches to its thread, in the order in which they were sent, each once,
    with its id, its sequence number and its payload, which is still in the
    chunk that the message names when the last of them has arrived; whatever the
    socket takes of each write, and into whatever pieces the network cuts the
    bytes.  Every chunk given out is the one of a message, and nothing is left
    half read. *)
Theorem pdus_arrive_as_they_were_framed (ps : list Pdu) (answers : list SendAnswer) (rounds : nat)
    (a : A) (m : gmap Z (list Z)) (id : Z) :
  Forall (good_pdu (slab_size a)) ps →
  Forall (λ p, 0 < size (pdu_payload p) ≤ PduFramer.max_payload_size) ps →
  unbroken answers → (length (on_wire ps) ≤ takers answers)%nat → (length answers < rounds)%nat →
  good_allocator a → (length ps ≤ room a)%nat →
  returns (transmit rounds ps) (sending_side answers) (λ st _,
    PduFramer.has_pending_data st.2 = false ∧
    ∀ es, arriving es → PduParser.unread es = wire (PduFramer.socket st.1) →
      returns (receive_all (backlog es)) (receiving es a m id) (λ st' _,
        PduParser.unread (PduParser.events st'.1) = [] ∧
        Forall2 (delivered id (PduParser.memory st'.1)) ps (PduParser.enqueued st'.1) ∧
        held (PduParser.allocator st'.1)
          ≡ₚ (chunk_of <$> PduParser.enqueued st'.1) ++ held a ∧
        PduParser.payload_chunk_ st'.2 = None ∧ PduParser.header_bytes_ st'.2 = 0)).
Proof.
  intros Hp Hl Hu Ht Hr Hg Hrm.
  eapply returns_mono; [apply transmit_sends; done|]. intros st _ [Hw Hs].
  split; [by rewrite (sending_pending _ _ Hs)|]. intros es Ha He. rewrite Hw in He. cbn in He.
  eapply returns_mono; [eapply receive_all_ok; [by apply receiving_starts|done]|].
  intros st' _ [Hb Hpar]. cbn [app] in Hpar.
  destruct Hpar as [_ _ _ _ _ Hread (msgs & Hq & Hd & Hh)]. cbn [app] in Hq. subst msgs.
  inversion Hread as [w p todo k ? Hc Hk ? ? ? Hz Hun|]; subst. cbn [fst snd] in *.
  assert (k = 0%nat) as -> by tauto.
  unfold in_progress in Hh. rewrite Hc in Hh. split_and!; try done.
Qed.

End connection.

(** ** A connection over the library's allocator *)

Module Connections.

Lemma good_after xs :
  is_Some (SlabsDay.play xs SlabsDay.first) → SlabThreads.workers (SlabsDay.after xs) = ∅ →
  SlabThreads.reactor (SlabsDay.after xs) = SlabThreads.Idle → good_allocator (SlabsDay.after xs).
Proof.
  intros Hp Hw Hr. split_and!; [|done|done].
  by apply (reachable_ok 32 5), SlabsDay.reachable_after.
Qed.

Definition pool : SlabThreads.System := SlabsDay.after [].

Lemma good_pool : good_allocator pool.
Proof. apply good_after; [by eexists|by vm_compute|by vm_compute]. Qed.

Definition two_pdus : list Pdu := [mk_pdu 7 1 42 [1; 2; 3]; mk_pdu (-3) 0 (-1) [9]].
Definition slow_socket : list SendAnswer := Accepts 30 :: Full :: replicate 60 (Accepts 3).

(** A frame in a chunk of 27 bytes. *)
Definition with_chunk : SlabThreads.System :=
  SlabsDay.after (SlabThreads.Allocate 27 :: replicate 6 SlabThreads.ReactorStep).

Definition chunk : Z * Z := default (0, 0) (head (held with_chunk)).

Definition handler : PduProtocolHandler.state SlabThreads.System SlabThreads.System :=
  (PduProtocolHandler.mk_world (receiving [] pool ∅ 1).1
     (PduFramer.mk_world (mk_socket [Accepts 5; Full; Accepts 100] [])
        {[ chunk.2 := frame (mk_pdu 7 1 42 [1; 2; 3]) ]}) with_chunk,
   PduProtocolHandler.initial 1).

(** A frame of five bytes of which three arrive. *)
Definition half_a_pdu : list NetEvent := [Arrive (take 27 (frame (mk_pdu 7 1 42 [1; 2; 3; 4; 5])))].

(** A whole frame, and the header and three of the bytes of the next. *)
Definition whole_and_half : list NetEvent :=
  [Arrive (take 26 (frame (mk_pdu 7 1 41 [1; 2; 3]))); Arrive (drop 26 (frame (mk_pdu 7 1 41 [1; 2; 3])))] ++ half_a_pdu.

Definition reader : PduProtocolHandler.state SlabThreads.System SlabThreads.System :=
  (PduProtocolHandler.mk_world (receiving half_a_pdu pool ∅ 1).1
     (PduFramer.mk_world (mk_socket [] []) ∅) pool, PduProtocolHandler.initial 1).

End Connections.

Lemma pdus_arrive_as_they_were_framed_witness :
  let ps := Connections.two_pdus in
  returns (transmit 70 ps) (sending_side Connections.slow_socket) (λ st _,
    PduFramer.has_pending_data st.2 = false ∧
    ∀ es, arriving es → PduParser.unread es = wire (PduFramer.socket st.1) →
      returns (receive_all (backlog es)) (receiving es Connections.pool ∅ 5) (λ st' _,
        PduParser.unread (PduParser.events st'.1) = [] ∧
        Forall2 (delivered 5 (PduParser.memory st'.1)) ps (PduParser.enqueued st'.1) ∧
        held (PduParser.allocator st'.1)
          ≡ₚ (chunk_of <$> PduParser.enqueued st'.1) ++ held Connections.pool ∧
        PduParser.payload_chunk_ st'.2 = None ∧ PduParser.header_bytes_ st'.2 = 0)).
Proof.
  intros ps. apply pdus_arrive_as_they_were_framed.
  - repeat constructor; by vm_compute.
  - repeat constructor; by vm_compute.
  - unfold unbroken. repeat (apply Forall_cons; split; [done|]). constructor.
  - apply Nat.leb_le. by vm_compute.
  - apply Nat.leb_le. by vm_compute.
  - exact Connections.good_pool.
  - apply Nat.leb_le. by vm_compute.
Defined.
