(* ===== verification/PduFramingSafety.v ===== *)
(** What the framing layer promises whatever arrives and however a connection
    ends: no bytes make the parser do harm, and every chunk is given back once. *)

From stdpp Require Import gmap strings.
From S2P Require Import Prelude.
From S2P Require Import WalEntry.
From S2P Require Import ByteArena.
From S2P Require Import SlabAllocator.
From S2P Require Import SlabAllocatorSafety.
From S2P Require Import SlabAllocatorTheorems.
From S2P Require Import PduFraming.
From S2P Require Import PduFramingTheorems.
#[local] Open Scope Z_scope.

(** ** Whatever arrives *)

Section hostile.
Context {A : Type} `{SlabLaws A}.
Import PduParser.
Variable given : list (Z * Z).
Variable limit : Z.

(** A read, whatever happens at the socket. *)
Lemma stream_receive_any (w : World A) p n :
  0 < n →
  ∃ es' k e bs, stream_receive n (w, p) = ((set_events es' w, p), Returns (k, e, bs)) ∧
    unread (events w) = bs ++ unread es' ∧ size bs ≤ n ∧
    (bs = [] ∧ (k < 0 ∨ k = 0 ∧ e = EmptyString) ∨ bs ≠ [] ∧ k = size bs).
Proof.
  intros Hn.
  unfold stream_receive. cbn [fst]. destruct w as [es a m q d]. cbn [events].
  destruct es as [|[[|b bs]| |code e] es]; cbn [set_events allocator memory enqueued disconnects].
  - exists [], (- EAGAIN), EmptyString, []. split_and!; try done; [unfold size; cbn; lia|left; by split; [|left]].
  - exists es, (- EAGAIN), EmptyString, []. split_and!; try done; [unfold size; cbn; lia|left; by split; [|left]].
  - set (l0 := b :: bs) in *. eexists _, _, _, (take (Z.to_nat n) l0). split; [reflexivity|].
    assert (Htk : take (Z.to_nat n) l0 ≠ []) by (destruct (Z.to_nat n) eqn:?; [lia|done]).
    split_and!; [|unfold size; rewrite length_take; lia|by right].
    cbn [unread mbind list_bind event_bytes]. rewrite <- (take_drop (Z.to_nat n) l0) at 1.
    rewrite <- app_assoc. f_equal. by destruct (drop (Z.to_nat n) l0).
  - eexists _, 0, EmptyString, []. split; [reflexivity|]. split_and!; try done; [unfold size; cbn; lia|left].
    split; [done|by right].
  - eexists _, _, e, []. split; [reflexivity|]. split_and!; try done; [unfold size; cbn; lia|left].
    split; [done|left; lia].
Qed.

(** A message with its chunk, which is there. *)
Definition has_chunk (m : gmap Z (list Z)) (msg : FrameworkPdu) : Prop :=
  ∃ block, m !! msg_payload msg = Some block ∧ size block = msg_payload_size msg ∧
    0 < size block ≤ limit.

(** The chunks given out since the connection began: those of the messages, and
    the one in progress. *)
Record accounts (st : state A) : Prop := {
  ac_good : good_allocator (allocator st.1);
  ac_limit : slab_size (allocator st.1) = limit;
  ac_held : held (allocator st.1) ≡ₚ in_progress st.2 ++ (chunk_of <$> enqueued st.1) ++ given;
  ac_messages : Forall (has_chunk (memory st.1)) (enqueued st.1)
}.

(** Where a parser is that goes on: in a header, or in a payload whose chunk has
    room for what is still to come. *)
Inductive sound : state A → Prop :=
  | sound_header w p :
      header_validated_ p = false → payload_chunk_ p = None → 0 ≤ header_bytes_ p ≤ 24 →
      size (header_buffer_ p) = 24 → Forall is_byte (header_buffer_ p) →
      Z.of_nat (length (unread (events w))) + header_bytes_ p < 24 * (Z.of_nat (room (allocator w)) + 1) →
      sound (w, p)
  | sound_payload w p c block :
      header_validated_ p = true → size (header_buffer_ p) = 24 → Forall is_byte (header_buffer_ p) →
      payload_chunk_ p = Some c → memory w !! c = Some block →
      size block = current_payload_size_ p → 0 ≤ payload_bytes_received_ p < current_payload_size_ p →
      current_payload_size_ p ≤ limit →
      Z.of_nat (length (unread (events w))) < 24 * (Z.of_nat (room (allocator w)) + 1) →
      sound (w, p).

Definition bytes_arrive (st : state A) : Prop := Forall is_byte (unread (events st.1)).

(** After a call: it goes on, or it has given back the chunk it was filling. *)
Definition after_call (r : answer) (st : state A) : Prop :=
  accounts st ∧ bytes_arrive st ∧ if r.1 : bool then sound st else payload_chunk_ st.2 = None.

Lemma net_unsigned_nonneg bs : Forall is_byte bs → 0 ≤ net_unsigned bs.
Proof. intros Hb. apply unsigned_of_nonneg. by rewrite Forall_reverse. Qed.

Lemma messages_insert (m : gmap Z (list Z)) c block msgs :
  c ∉ msg_payload <$> msgs → Forall (has_chunk m) msgs → Forall (has_chunk (<[c := block]> m)) msgs.
Proof.
  intros Hc Hm. apply Forall_forall. intros msg Hin. rewrite Forall_forall in Hm.
  destruct (Hm msg Hin) as (b & Hb & Hs). exists b. rewrite lookup_insert_ne; [done|].
  intros ->. apply Hc, list_elem_of_fmap. by exists msg.
Qed.

(** A complete header is accepted with a chunk, or refused without one. *)
Lemma accept_header_any (w : World A) p :
  accounts (w, p) → bytes_arrive (w, p) → payload_chunk_ p = None → header_bytes_ p = 24 →
  size (header_buffer_ p) = 24 → Forall is_byte (header_buffer_ p) →
  Z.of_nat (length (unread (events w))) + 24 < 24 * (Z.of_nat (room (allocator w)) + 1) →
  returns accept_header (w, p) (λ st' fl,
    match fl with
    | Return r => r.1 = false ∧ after_call r st'
    | Continue => accounts st' ∧ bytes_arrive st' ∧ sound st' ∧ header_validated_ st'.2 = true ∧
        unread (events st'.1) = unread (events w)
    end).
Proof.
  intros [Hg Hl Hh Hm] Hb Hc Hk Hsz Hbuf Hr. cbn [fst snd] in *.
  unfold accept_header. apply returns_bind. eapply returns_eq; [reflexivity|]. cbn [snd]. cbn zeta.
  set (hdr := PduHeader.of_wire (header_buffer_ p)).
  assert (Hn : 0 ≤ PduHeader.byte_count hdr) by (apply net_unsigned_nonneg, slice_bytes, Hbuf).
  destruct (negb _).
  { eapply returns_eq; [reflexivity|]. split; [done|]. by split_and!. }
  apply returns_bind. eapply returns_eq; [reflexivity|].
  destruct (Z.eqb_spec (PduHeader.byte_count hdr) 0) as [Hz|Hz].
  { eapply returns_eq; [reflexivity|]. split; [done|]. split_and!; [|done|done]. by split. }
  apply returns_bind. eapply returns_eq; [reflexivity|]. cbn [fst snd].
  destruct (Z.ltb_spec (slab_size (allocator w)) (PduHeader.byte_count hdr)) as [Hlt|Hge].
  { eapply returns_eq; [reflexivity|]. split; [done|]. split_and!; [|done|done]. by split. }
  apply returns_bind. unfold on_allocator, returns. cbn [fst snd].
  pose proof (allocate_law _ (PduHeader.byte_count hdr) Hg ltac:(lia) ltac:(lia)) as Ha. unfold returns in Ha.
  destruct (allocate _ _) as [a' [[h cp]|e]]; [|done]. destruct Ha as (c & Hcp & Hg' & Hh' & Hl' & Hrm).
  cbn in Hcp. subst cp. unfold in_progress in Hh. rewrite Hc in Hh. cbn [app] in Hh.
  cbn. split_and!; try done.
  - split; cbn [fst snd].
    + done.
    + cbn. by rewrite Hl'.
    + cbn. by rewrite Hh', Hh.
    + cbn. apply messages_insert; [|done]. pose proof (held_addresses _ Hg') as Hnd.
      rewrite Hh', Hh in Hnd. by eapply fresh_address.
  - eapply (sound_payload _ _ c); try done; cbn.
    + by rewrite lookup_insert_eq.
    + apply size_zeros. exact Hn.
    + split; [lia|]. change (0 < PduHeader.byte_count hdr). lia.
    + change (PduHeader.byte_count hdr ≤ limit). lia.
    + change (Z.of_nat (length (unread (events w))) < 24 * (Z.of_nat (room a') + 1)). lia.
Qed.

Lemma bytes_left (w : World A) p es bs :
  bytes_arrive (w, p) → unread (events w) = bs ++ unread es →
  Forall is_byte bs ∧ Forall is_byte (unread es).
Proof. unfold bytes_arrive. cbn. intros Hb Hu. rewrite Hu in Hb. by apply Forall_app in Hb. Qed.

Lemma accounts_view (st st' : state A) :
  accounts st → allocator st'.1 = allocator st.1 → memory st'.1 = memory st.1 →
  enqueued st'.1 = enqueued st.1 → in_progress st'.2 = in_progress st.2 → accounts st'.
Proof. intros [H1 H2 H3 H4] Ha Hm Hq Hp. split; rewrite ?Ha, ?Hm, ?Hq, ?Hp; done. Qed.

Lemma splice_bytes block at_ bs :
  Forall is_byte block → Forall is_byte bs → Forall is_byte (splice block at_ bs).
Proof. intros Hb Hs. unfold splice. rewrite !Forall_app. split_and!; [by apply Forall_take|done|by apply Forall_drop]. Qed.

(** What a phase leaves: the end of the call, or a parser that goes on. *)
Definition phase_ends (st0 st' : state A) (fl : flow) (go_on : Prop) : Prop :=
  match fl with
  | Return r => after_call r st'
  | Continue => accounts st' ∧ bytes_arrive st' ∧ sound st' ∧ go_on
  end.

Lemma header_phase_any st :
  accounts st → bytes_arrive st → sound st →
  returns header_phase st (λ st' fl, phase_ends st st' fl
    (header_validated_ st'.2 = true ∧
     (length (unread (events st'.1)) ≤ length (unread (events st.1)))%nat)).
Proof.
  intros Hac Hb Hs. destruct Hs as [w p Hv Hc Hk Hsz Hbuf Hr|w p c block Hv].
  2:{ unfold header_phase. apply returns_bind. eapply returns_eq; [reflexivity|]. cbn [snd]. rewrite Hv.
      eapply returns_eq; [reflexivity|]. split_and!; try done. by eapply sound_payload. }
  unfold header_phase. apply returns_bind. eapply returns_eq; [reflexivity|]. cbn [snd].
  rewrite Hv. cbn zeta. unfold PduHeader.sizeof. cbn [fst] in *.
  destruct (Z.ltb_spec 0 (24 - header_bytes_ p)) as [Hsp|Hfull].
  2:{ apply returns_bind. eapply returns_eq; [reflexivity|]. apply returns_bind. eapply returns_eq; [reflexivity|].
      cbn [fst snd gets]. unfold has_complete_header, PduHeader.sizeof. cbn [fst snd gets]. rewrite (proj2 (Z.leb_le _ _)) by lia.
      eapply returns_mono; [apply accept_header_any; try done; lia|].
      intros st' [r|] Hend; [by destruct Hend|]. destruct Hend as (H1 & H2 & H3 & H4 & H5).
      split_and!; try done. cbn. by rewrite H5. }
  destruct (stream_receive_any w p (24 - header_bytes_ p) Hsp) as (es & k & e & bs & Hsr & Hu & Hbs & Hd).
  apply returns_bind. apply returns_bind. eapply returns_eq; [exact Hsr|].
  destruct (bytes_left _ _ _ _ Hb Hu) as [Hbb Hbe].
  destruct Hd as [[-> Hk0]|[Hbn ->]].
  - assert (Hsame : unread es = unread (events w)) by done.
    assert (Hac' : accounts (set_events es w, p)) by (by eapply accounts_view).
    assert (Hs' : sound (set_events es w, p)).
    { apply sound_header; try done. cbn [events set_events allocator]. by rewrite Hsame. }
    destruct ((k =? 0) && String.eqb e EmptyString) eqn:E0.
    { apply returns_bind. unfold call_disconnect_handler.
      apply returns_bind. eapply returns_eq; [reflexivity|]. cbn [snd].
      destruct (disconnect_handler_ p); eapply returns_eq; try reflexivity; eapply returns_eq; try reflexivity;
        (split_and!; [by eapply accounts_view|done|done]). }
    destruct (Z.ltb_spec k 0) as [Hneg|Hnn].
    2:{ exfalso. destruct Hk0 as [|[-> ->]]; [lia|done]. }
    destruct (k =? - EAGAIN); (eapply returns_eq; [reflexivity|]); by split_and!.
  - assert (Hsb : 0 < size bs) by (destruct bs; [done|unfold size; cbn; lia]).
    rewrite (proj2 (Z.eqb_neq (size bs) 0)), (proj2 (Z.ltb_ge (size bs) 0)) by lia. cbn [andb].
    apply returns_bind. eapply returns_eq; [apply write_header_eq; lia|]. cbn [fst snd].
    eapply returns_eq; [reflexivity|].
    apply returns_bind. eapply returns_eq; [reflexivity|]. cbn [fst snd].
    set (w' := set_events es w). set (p' := take_header bs p).
    match goal with |- returns ?m0 _ ?Q => change (returns (if has_complete_header p' then accept_header
      else mret (Return (true, EmptyString))) (w', p') Q) end.
    assert (Hsz' : size (header_buffer_ p') = 24) by (cbn; rewrite size_splice; lia).
    assert (Hbuf' : Forall is_byte (header_buffer_ p')) by (by apply splice_bytes).
    assert (Hlen : Z.of_nat (length (unread (events w))) = size bs + Z.of_nat (length (unread es)))
      by (rewrite Hu, length_app; unfold size; lia).
    assert (Hac' : accounts (w', p')) by (by eapply accounts_view).
    unfold has_complete_header. destruct (Z.leb_spec PduHeader.sizeof (header_bytes_ p')) as [Hle|Hgt];
      unfold PduHeader.sizeof in *; cbn in Hle || cbn in Hgt.
    + eapply returns_mono; [apply accept_header_any; try done; cbn -[unread]; lia|].
      intros st' [r|] Hend; [by destruct Hend|]. destruct Hend as (H1 & H2 & H3 & H4 & H5).
      split_and!; try done. cbn [fst]. rewrite H5. cbn [events w' set_events]. lia.
    + eapply returns_eq; [reflexivity|]. split_and!; [done|done|].
      apply sound_header; try done; cbn -[unread]; lia.
Qed.

Lemma messages_delete (m : gmap Z (list Z)) c msgs :
  c ∉ msg_payload <$> msgs → Forall (has_chunk m) msgs → Forall (has_chunk (delete c m)) msgs.
Proof.
  intros Hc Hm. apply Forall_forall. intros msg Hin. rewrite Forall_forall in Hm.
  destruct (Hm msg Hin) as (b & Hb & Hs). exists b. rewrite lookup_delete_ne; [done|].
  intros ->. apply Hc, list_elem_of_fmap. by exists msg.
Qed.

(** The chunk that was being filled is given back. *)
Lemma release_chunk_ok (w : World A) p c :
  accounts (w, p) → payload_chunk_ p = Some c →
  returns release_chunk (w, p) (λ st' _,
    accounts st' ∧ payload_chunk_ st'.2 = None ∧ events st'.1 = events w).
Proof.
  intros [Hg Hl Hh Hm] Hc. cbn [fst snd] in *.
  pose proof (progress_address _ _ _ _ _ Hg Hc Hh) as Hfresh.
  unfold in_progress in Hh. rewrite Hc in Hh. cbn [app] in Hh.
  unfold release_chunk. apply returns_bind. eapply returns_eq; [reflexivity|]. cbn [snd]. rewrite Hc.
  apply returns_bind. unfold on_allocator, returns. cbn [fst snd].
  pose proof (deallocate_law _ (payload_slab_id_ p) c Hg) as Hd. unfold returns in Hd.
  assert (Hin : (payload_slab_id_ p, c) ∈ held (allocator w)) by (rewrite Hh; left).
  specialize (Hd Hin). destruct (deallocate _ _ _) as [a' [[]|e]]; [|done].
  destruct Hd as (Hg' & Hh' & Hl' & _). cbn. split_and!; try done.
  split; cbn [fst snd]; try done.
  - cbn. by rewrite Hl'.
  - cbn. rewrite Hh' in Hh. by apply Permutation_cons_inv in Hh.
  - cbn. by apply messages_delete.
Qed.

Lemma payload_phase_any st :
  limit < 2 ^ 31 → accounts st → bytes_arrive st → sound st → header_validated_ st.2 = true →
  returns payload_phase st (λ st' fl, phase_ends st st' fl
    (length (unread (events st'.1)) < length (unread (events st.1)))%nat).
Proof.
  intros Hlim Hac Hb Hs Hval. destruct Hs as [w p Hv|w p c block Hv Hsz Hbuf Hc Hmem Hbl Hrec Hcur Hr];
    [cbn in Hval; congruence|].
  cbn [fst snd] in *. unfold payload_phase. apply returns_bind. eapply returns_eq; [reflexivity|]. cbn [snd].
  cbn zeta. rewrite (proj2 (Z.ltb_lt _ _)) by lia.
  destruct (stream_receive_any w p (current_payload_size_ p - payload_bytes_received_ p)) as
    (es & k & e & bs & Hsr & Hu & Hbs & Hd); [lia|].
  apply returns_bind. apply returns_bind. eapply returns_eq; [exact Hsr|].
  destruct (bytes_left _ _ _ _ Hb Hu) as [Hbb Hbe].
  destruct Hd as [[-> Hk0]|[Hbn ->]].
  - assert (Hsame : unread es = unread (events w)) by done.
    assert (Hac' : accounts (set_events es w, p)) by (by eapply accounts_view).
    destruct ((k =? 0) && String.eqb e EmptyString) eqn:E0.
    { apply returns_bind. eapply returns_mono; [by eapply release_chunk_ok|].
      intros [w1 p1] [] (Ha1 & Hc1 & He1). cbn [fst snd] in *. apply returns_bind.
      unfold call_disconnect_handler. apply returns_bind. eapply returns_eq; [reflexivity|]. cbn [snd].
      assert (Hb1 : bytes_arrive (w1, p1)) by (unfold bytes_arrive; cbn [fst]; by rewrite He1).
      destruct (disconnect_handler_ p1); eapply returns_eq; try reflexivity; eapply returns_eq; try reflexivity;
        (split_and!; [by eapply accounts_view|done|done]). }
    destruct (Z.ltb_spec k 0) as [Hneg|Hnn].
    2:{ exfalso. destruct Hk0 as [|[-> ->]]; [lia|done]. }
    destruct (k =? - EAGAIN).
    + eapply returns_eq; [reflexivity|]. split_and!; [done|done|]. eapply sound_payload; try done.
      cbn [events set_events allocator]. by rewrite Hsame.
    + apply returns_bind. eapply returns_mono; [by eapply release_chunk_ok|].
      intros [w1 p1] [] (Ha1 & Hc1 & He1). cbn [fst snd] in *.
      eapply returns_eq; [reflexivity|]. split_and!; [done| |done].
      unfold bytes_arrive. cbn [fst]. by rewrite He1.
  - assert (Hsb : 0 < size bs) by (destruct bs; [done|unfold size; cbn; lia]).
    rewrite (proj2 (Z.eqb_neq (size bs) 0)), (proj2 (Z.ltb_ge (size bs) 0)) by lia. cbn [andb].
    apply returns_bind. rewrite Hc. eapply returns_eq; [by apply write_chunk_eq; [exact Hmem|lia|lia]|].
    cbn [fst snd].
    apply returns_bind. eapply returns_eq; [reflexivity|]. cbn [fst snd].
    eapply returns_eq; [reflexivity|].
    set (block' := splice block (payload_bytes_received_ p) bs).
    set (w' := set_memory (<[c := block']> (memory w)) (set_events es w)).
    set (p' := set_payload true (Some c) (payload_slab_id_ p) (payload_bytes_received_ p + size bs) p).
    match goal with |- returns ?m _ ?Q => change (returns m (w', p') Q) end.
    assert (Hbl' : size block' = size block) by (apply size_splice; lia).
    assert (Hlen : (length (unread es) < length (unread (events w)))%nat)
      by (rewrite Hu, length_app; unfold size in Hsb; lia).
    pose proof (progress_address _ _ _ _ _ (ac_good _ Hac) Hc (ac_held _ Hac)) as Hfresh.
    pose proof (messages_insert _ _ block' _ Hfresh (ac_messages _ Hac)) as Hmsgs.
    pose proof (ac_held _ Hac) as Hheld. unfold in_progress in Hheld. cbn [fst snd] in Hheld. rewrite Hc in Hheld.
    unfold complete_payload. apply returns_bind. eapply returns_eq; [reflexivity|]. cbn [snd].
    cbn [p' set_payload payload_bytes_received_ current_payload_size_ payload_chunk_].
    case_if; bool_to_prop.
    + eapply returns_eq; [reflexivity|]. split_and!; [|done|].
      * split; try done; apply Hac.
      * eapply (sound_payload _ _ c block'); try done; cbn -[unread].
        -- by rewrite lookup_insert_eq.
        -- by rewrite Hbl'.
        -- lia.
        -- lia.
    + eapply returns_eq; [reflexivity|]. split_and!; [|done| |exact Hlen].
      * split; cbn [fst snd]; try apply Hac.
        -- cbn. rewrite Hheld, fmap_app. cbn. rewrite <- app_assoc. cbn. by rewrite Permutation_middle.
        -- cbn. apply Forall_app. split; [done|]. apply Forall_singleton. exists block'. cbn.
           rewrite lookup_insert_eq, Hbl', Hbl. split_and!; try done; try lia.
           unfold to_int. symmetry. apply signed_of_bytes_of; [lia|]. unfold int_fits. lia.
      * apply sound_header; try done; cbn -[unread]; lia.
Qed.

Lemma receive_loop_any turns : ∀ st,
  limit < 2 ^ 31 → accounts st → bytes_arrive st → sound st →
  (length (unread (events st.1)) + 1 < turns)%nat →
  returns (receive_loop turns) st (λ st' r, after_call r st').
Proof.
  induction turns as [|turns IH]; intros st Hl Ha Hb Hs Ht; [lia|].
  cbn [receive_loop]. apply returns_bind. eapply returns_mono; [by apply header_phase_any|].
  intros st1 [r|]; [done|]. intros (Ha1 & Hb1 & Hs1 & Hv & Hn1).
  apply returns_bind. eapply returns_mono; [by apply payload_phase_any|].
  intros st2 [r|]; [done|]. intros (Ha2 & Hb2 & Hs2 & Hn2). apply IH; try done. lia.
Qed.

End hostile.

Section any_bytes.
Context {A : Type} `{SlabLaws A}.

(** The reactor calls [receive] until it fails. *)
Fixpoint serve (rounds : nat) : comp (PduParser.state A) bool :=
  match rounds with
  | O => mret true
  | S rounds =>
      r ← PduParser.receive;
      if r.1 : bool then serve rounds else mret false
  end.

Lemma serve_any given limit rounds : ∀ st,
  limit < 2 ^ 31 → accounts given limit st → bytes_arrive st → sound limit st →
  returns (serve rounds) st (λ st' going, after_call given limit (going, EmptyString) st').
Proof.
  induction rounds as [|rounds IH]; intros st Hl Ha Hb Hs; cbn [serve].
  { eapply returns_eq; [reflexivity|]. by split_and!. }
  apply returns_bind. eapply returns_mono; [apply receive_loop_any; try done; lia|].
  intros st' [[|] e] (H1 & H2 & H3); cbn [fst].
  - by apply IH.
  - eapply returns_eq; [reflexivity|]. by split_and!.
Qed.

(** C19: Whatever bytes arrive, in whatever pieces, and however the reading ends,
    by the peer closing, an error of the socket or a header that is refused, the
    parser writes only to its header and to the chunk it holds and never past
    their ends, and never fails but with an answer; every chunk it took is the
    one of a message with a payload of the size the message says, or the one
    being filled; and when a call has failed none is being filled.  The allocator
    must have room for a chunk for each 24 bytes, the size of a header, in slabs
    of less than 2^31 bytes.
    A connection that is torn down between two calls does lose the chunk being
    filled ([torn_down_in_mid_payload_loses_the_chunk]). *)
Theorem no_bytes_break_the_parser (es : list NetEvent) (rounds : nat) (a : A) (m : gmap Z (list Z)) (id : Z) :
  slab_size a < 2 ^ 31 → good_allocator a → Forall is_byte (PduParser.unread es) →
  (length (PduParser.unread es) < 24 * (room a + 1))%nat →
  returns (serve rounds) (receiving es a m id) (λ st' going,
    good_allocator (PduParser.allocator st'.1) ∧
    held (PduParser.allocator st'.1)
      ≡ₚ in_progress st'.2 ++ (chunk_of <$> PduParser.enqueued st'.1) ++ held a ∧
    Forall (has_chunk (slab_size a) (PduParser.memory st'.1)) (PduParser.enqueued st'.1) ∧
    (going = false → in_progress st'.2 = [])).
Proof.
  intros Hl Hg Hb Hr.
  eapply returns_mono; [apply (serve_any (held a) (slab_size a)); try done|].
  - apply sound_header; try done; cbn -[PduParser.unread]; try lia.
    apply Forall_replicate. split; lia.
  - intros st' going ([H1 H2 H3 H4] & _ & H5). split_and!; try done.
    intros ->. unfold in_progress. cbn in H5. by rewrite H5.
Qed.

End any_bytes.

(** ** The chunks that are sent *)

Section sender.
Context {A B : Type} `{SlabOps A} `{SlabLaws B}.
Import PduProtocolHandler.

(** The framer's side of a connection. *)
Definition out_side (st : state A B) : PduFramer.state := (outbound st.1, framer_ st.2).

(** A send in progress: the handler holds the chunk of the frame. *)
Record owning (st : state A B) (h c : Z) (rest : list Z) : Prop := {
  ow_current : current_allocator_ st.2 = true;
  ow_slab : current_slab_id_ st.2 = h;
  ow_chunk : current_chunk_ptr_ st.2 = Some c;
  ow_held : (h, c) ∈ held (sender st.1);
  ow_good : good_allocator (sender st.1);
  ow_sending : sending (out_side st) rest
}.

(** No send in progress. *)
Definition at_rest (st : state A B) : Prop :=
  current_allocator_ st.2 = false ∧ sending (out_side st) [].

Definition wire_of (st : state A B) : list Z := wire (PduFramer.socket (outbound st.1)).
Definition answers_of (st : state A B) : list SendAnswer := answers (PduFramer.socket (outbound st.1)).

(** The chunk went back, and nothing else changed. *)
Definition given_back (st st' : state A B) (h c : Z) : Prop :=
  good_allocator (sender st'.1) ∧ held (sender st.1) ≡ₚ (h, c) :: held (sender st'.1).

Lemma release_gives_back st h c rest :
  owning st h c rest →
  returns release_pending_send st (λ st' _,
    current_allocator_ st'.2 = false ∧ framer_ st'.2 = framer_ st.2 ∧ given_back st st' h c ∧
    wire_of st' = wire_of st ∧ answers_of st' = answers_of st).
Proof.
  intros [Hcur Hsl Hch Hin Hg _]. unfold release_pending_send. apply returns_bind.
  eapply returns_eq; [by destruct st|]. destruct st as [w hd]. cbn [fst snd] in *. rewrite Hcur, Hch.
  apply returns_bind. unfold on_sender, returns. cbn [fst snd].
  pose proof (deallocate_law _ _ _ Hg Hin) as Hd. unfold returns in Hd. rewrite Hsl.
  destruct (deallocate h c (sender w)) as [b' [[]|e]]; [|done]. destruct Hd as (Hg' & Hh & _).
  cbn. by split_and!.
Qed.

Lemma release_ok_once st h c rest :
  owning st h c rest → sending (out_side st) [] →
  returns release_pending_send st (λ st' _,
    at_rest st' ∧ given_back st st' h c ∧ wire_of st' = wire_of st ∧ answers_of st' = answers_of st).
Proof.
  intros Ho [Hs1 Hs2]. eapply returns_mono; [by eapply release_gives_back|].
  intros st' [] (Hcur & Hf & Hg & Hw & Ha). split_and!; try done. split; [done|].
  unfold out_side. split; cbn [snd] in *; by rewrite Hf.
Qed.

(** After a call that sends: some of [rest] went out, and the send is over or
    still in progress. *)
Definition moved_some (st st' : state A B) (h c : Z) (rest : list Z) : Prop :=
  ∃ took rest', rest = took ++ rest' ∧ wire_of st' = wire_of st ++ took ∧
    (∃ used, answers_of st = used ++ answers_of st' ∧ (takers used ≤ length took)%nat) ∧
    ((at_rest st' ∧ given_back st st' h c ∧ (rest' ≠ [] → ¬ unbroken (answers_of st))) ∨
     (owning st' h c rest' ∧ rest' ≠ [] ∧ sender st'.1 = sender st.1 ∧
        ((length (answers_of st') < length (answers_of st))%nat ∨ answers_of st' = []))).

(** What the handler does once the framer has answered. *)
Lemma after_send_ok st st1 h c rest r :
  owning st h c rest → rest ≠ [] →
  current_allocator_ st1.2 = true → current_slab_id_ st1.2 = h → current_chunk_ptr_ st1.2 = Some c →
  sender st1.1 = sender st.1 → send_ended (out_side st) (out_side st1) rest r →
  returns (after_send r) st1 (λ st' _, moved_some st st' h c rest).
Proof.
  intros Ho Hne Hcur Hsl Hch Hsd He.
  assert (Howns : ∀ rest', sending (out_side st1) rest' → owning st1 h c rest').
  { intros rest' Hs. destruct Ho. split; rewrite ?Hsd; done. }
  unfold after_send.
  destruct He as [Hst Hs|took rest' Hr Hn Hst Hs Ha|took rest' code error Hr Hn Hst Hs Hb]; cbn [fst snd negb].
  - apply returns_bind. eapply returns_eq; [by destruct st1|].
    destruct st1 as [w1 h1]. cbn [fst snd]. unfold has_pending_send.
    pose proof (sending_pending _ _ Hs) as Hp. cbn in Hp. rewrite Hp. cbn [negb].
    apply returns_bind. eapply returns_mono; [by eapply release_ok_once, Hs; apply Howns|].
    intros st' [] (Hr & (Hg & Hh) & Hw & Ha). eapply returns_eq; [reflexivity|].
    exists rest, []. rewrite app_nil_r. split_and!; [done|rewrite Hw; apply Hst|rewrite Ha; apply Hst|left].
    split_and!; [done| |done]. split; [done|]. by rewrite <- Hsd.
  - apply returns_bind. eapply returns_eq; [by destruct st1|].
    destruct st1 as [w1 h1]. cbn [fst snd]. unfold has_pending_send.
    pose proof (sending_pending _ _ Hs) as Hp. cbn in Hp.
    rewrite bool_decide_eq_true_2 in Hp by done. rewrite Hp. cbn [negb].
    apply returns_bind. eapply returns_eq; [reflexivity|]. eapply returns_eq; [reflexivity|].
    exists took, rest'. split_and!; [done|apply Hst|apply Hst|right].
    split_and!; [by apply Howns|done|done|]. destruct Ha as (used & Hu & [Hd|Hd]); [left|by right].
    change (answers_of st = used ++ answers_of (w1, h1)) in Hu. rewrite Hu, length_app.
    destruct used; [done|]. cbn. lia.
  - apply returns_bind. eapply returns_mono; [by eapply release_ok_once, Hs; apply Howns|].
    intros st' [] (Hrt & (Hg & Hh) & Hw & Ha). eapply returns_eq; [reflexivity|].
    exists took, rest'. split_and!; [done|rewrite Hw; apply Hst|rewrite Ha; apply Hst|left].
    split_and!; [done|split; [done|by rewrite <- Hsd]|].
    intros _ Hu. unfold unbroken in Hu. rewrite Forall_forall in Hu. by apply Hu in Hb.
Qed.

(** The reactor calls [continue_send] when the socket has room again. *)
Fixpoint drain_sends (rounds : nat) : comp (state A B) unit :=
  match rounds with
  | O => mret ()
  | S rounds =>
      pending ← on_snd (gets has_pending_send);
      if pending : bool then continue_send;; drain_sends rounds else mret ()
  end.

(** A frame of which [rest] was to be sent: what went out, and that its chunk
    went back; all of it went out if the socket did not break and took enough in
    the [rounds] there were. *)
Definition settled (rounds : nat) (st st' : state A B) (h c : Z) (rest : list Z) : Prop :=
  current_allocator_ st'.2 = false ∧ given_back st st' h c ∧
  ∃ took rest', rest = took ++ rest' ∧ wire_of st' = wire_of st ++ took ∧
    (unbroken (answers_of st) → (length rest ≤ takers (answers_of st))%nat →
     (length (answers_of st) < rounds)%nat → rest' = []).

Lemma teardown_at_rest st : at_rest st → returns teardown st (λ st' _, st' = st).
Proof.
  intros [_ Hs]. unfold teardown. apply returns_bind. eapply returns_eq; [by destruct st|].
  destruct st as [w hd]. cbn [fst snd]. unfold has_pending_send.
  pose proof (sending_pending _ _ Hs) as Hp. cbn in Hp. by rewrite Hp.
Qed.

Lemma teardown_owning st h c rest :
  owning st h c rest → rest ≠ [] →
  returns teardown st (λ st' _, current_allocator_ st'.2 = false ∧ given_back st st' h c ∧ wire_of st' = wire_of st).
Proof.
  intros Ho Hne. unfold teardown. apply returns_bind. eapply returns_eq; [by destruct st|].
  pose proof (sending_pending _ _ (ow_sending _ _ _ _ Ho)) as Hp.
  rewrite bool_decide_eq_true_2 in Hp by done.
  destruct st as [w hd]. unfold out_side in Hp. cbn [fst snd] in *. unfold has_pending_send. rewrite Hp.
  eapply returns_mono; [by eapply release_gives_back|]. by intros st' [] (? & _ & ? & ? & _).
Qed.

Lemma drain_at_rest rounds st : at_rest st → returns (drain_sends rounds) st (λ st' _, st' = st).
Proof.
  intros [_ Hs]. destruct rounds as [|rounds]; [done|]. cbn [drain_sends].
  apply returns_bind. eapply returns_eq; [by destruct st|].
  destruct st as [w hd]. cbn [fst snd]. unfold has_pending_send.
  pose proof (sending_pending _ _ Hs) as Hp. cbn in Hp. by rewrite Hp.
Qed.

Lemma returns_on_framer {X} (m : comp PduFramer.state X) (st : state A B) (Q : state A B → X → Prop) :
  returns m (outbound st.1, framer_ st.2) (λ s x, Q
    (mk_world (inbound st.1) s.1 (sender st.1),
     mk (parser_ st.2) s.2 (current_allocator_ st.2) (current_slab_id_ st.2) (current_chunk_ptr_ st.2)
        (current_total_bytes_ st.2)) x) →
  returns (on_framer m) st Q.
Proof. unfold returns, on_framer. by destruct (m _) as [[w f] [x|e]]. Qed.

Lemma returns_bind_inv {S X Y} (m : comp S X) (f : X → comp S Y) s Q :
  returns (m ≫= f) s Q → returns m s (λ s' x, returns (f x) s' Q).
Proof. unfold returns, mbind, comp_bind. by destruct (m s) as [s' [x|e]]. Qed.

(** The rest of a send, from what is true after a call of it. *)
Lemma settle_after rounds st st1 h c rest :
  (∀ rest', owning st1 h c rest' → rest' ≠ [] →
     returns (drain_sends rounds;; teardown) st1 (λ st' _, settled rounds st1 st' h c rest')) →
  moved_some st st1 h c rest →
  returns (drain_sends rounds;; teardown) st1 (λ st' _, settled (S rounds) st st' h c rest).
Proof.
  intros IH (took & rest' & Hr & Hw & (used & Hu & Hut) & Hd).
  destruct Hd as [(Hrt & Hg & Hb)|(Ho1 & Hn1 & Hsd & Hlen)].
  - apply returns_bind. eapply returns_mono; [by apply drain_at_rest|]. intros st2 [] ->.
    eapply returns_mono; [by apply teardown_at_rest|]. intros st3 [] ->.
    split_and!; [apply Hrt|done|]. exists took, rest'. split_and!; try done. intros Hub _ _.
    destruct (decide (rest' = [])) as [|Hn]; [done|]. by destruct (Hb Hn).
  - eapply returns_mono; [by apply (IH rest')|].
    intros st3 [] (Hc3 & (Hg3 & Hh3) & took2 & rest2 & Hr2 & Hw2 & Hfin).
    split_and!; [done|split; [done|by rewrite <- Hsd]|].
    exists (took ++ took2), rest2. rewrite Hr, Hr2, Hw2, Hw, <- !app_assoc. split_and!; try done.
    intros Hub Hl Hk. apply Hfin.
    + unfold unbroken in *. rewrite Hu, Forall_app in Hub. tauto.
    + rewrite Hu, takers_app in Hl. rewrite !length_app in Hl. rewrite Hr2, length_app. lia.
    + destruct Hlen as [Hlen|Hnil]; [lia|]. rewrite Hnil. cbn.
      rewrite Hu, Hnil, app_nil_r, !length_app in Hl. rewrite Hr2 in Hn1.
      destruct rounds; [|lia]. exfalso. rewrite Hu, Hnil, app_nil_r in Hk. destruct used; [|cbn in Hk; lia].
      assert (length (took2 ++ rest2) = 0%nat) by (rewrite length_app; cbn in Hl; lia).
      by apply Hn1, length_zero_iff_nil.
Qed.

Lemma drain_then_teardown rounds : ∀ st h c rest,
  owning st h c rest → rest ≠ [] →
  returns (drain_sends rounds;; teardown) st (λ st' _, settled rounds st st' h c rest).
Proof.
  induction rounds as [|rounds IH]; intros st h c rest Ho Hne; cbn [drain_sends].
  { apply returns_bind. eapply returns_eq; [reflexivity|].
    eapply returns_mono; [by eapply teardown_owning|]. intros st' [] (Hc & Hg & Hw).
    split_and!; [done..|]. exists [], rest. rewrite app_nil_r. split_and!; [done..|]. lia. }
  pose proof (sending_pending _ _ (ow_sending _ _ _ _ Ho)) as Hp. rewrite bool_decide_eq_true_2 in Hp by done.
  apply returns_bind. apply returns_bind. eapply returns_eq; [by destruct st|].
  unfold has_pending_send. destruct st as [w hd]. unfold out_side in Hp. cbn [fst snd] in Hp |- *. rewrite Hp.
  apply returns_bind. unfold continue_send. apply returns_bind. apply returns_on_framer.
  eapply returns_mono; [apply continue_send_ends, (ow_sending _ _ _ _ Ho)|]. intros [w1 f1] r Hc.
  eapply returns_mono; [eapply (after_send_ok (w, hd) _ h c rest); [done|done|apply Ho|apply Ho|apply Ho|done|exact Hc]|].
  intros st1 r1 Hm. apply returns_bind_inv. eapply settle_after; [|exact Hm]. intros rest' Ho1 Hn1. by apply IH.
Qed.

(** [send_prebuilt] of the framer starts on the frame in the chunk. *)
Lemma send_prebuilt_ends (w : PduFramer.World) f p bytes :
  sending (w, f) [] → PduFramer.chunks w !! p = Some bytes → PduHeader.sizeof < size bytes →
  returns (PduFramer.send_prebuilt (Some p) (size bytes)) (w, f) (λ st' r,
    send_ended (w, PduFramer.point_at (Some (PduFramer.CallerChunk p)) (size bytes) f) st' bytes r).
Proof.
  intros Hs Hc Hsz. pose proof (sending_pending _ _ Hs) as Hp. cbn in Hp.
  unfold PduFramer.send_prebuilt. rewrite (proj2 (Z.leb_gt _ _)) by done.
  apply returns_bind. eapply returns_eq; [reflexivity|]. cbn [fst snd]. rewrite Hp.
  apply returns_bind. eapply returns_eq; [reflexivity|]. apply continue_send_ends.
  apply (sending_chunk _ _ p); try done. intros ->. by unfold PduHeader.sizeof in Hsz.
Qed.

(** C20: A chunk that is handed to a connection to be sent is given back to its
    allocator, once: when its frame is on the wire, when the socket breaks, or
    when the connection is torn down in the middle of it; its memory is not read
    after that.  What went out is a prefix of the frame, and all of it when the
    socket does not break and takes it in the rounds there are. *)
Theorem sent_chunk_is_given_back_once st rounds h c bytes :
  at_rest st → good_allocator (sender st.1) → (h, c) ∈ held (sender st.1) →
  PduFramer.chunks (outbound st.1) !! c = Some bytes → PduHeader.sizeof < size bytes →
  returns (send_prebuilt true h (Some c) (size bytes);; drain_sends rounds;; teardown) st
    (λ st' _, settled rounds st st' h c bytes).
Proof.
  intros [Hcur Hs] Hg Hin Hc Hsz. destruct st as [w hd]. cbn [fst snd] in *.
  set (hd0 := mk (parser_ hd) (PduFramer.point_at (Some (PduFramer.CallerChunk c)) (size bytes) (framer_ hd))
                true h (Some c) (size bytes)).
  assert (Hne : bytes ≠ []) by (intros ->; by unfold PduHeader.sizeof in Hsz).
  assert (Ho : owning (w, hd0) h c bytes).
  { split; try done. by apply (sending_chunk _ _ c). }
  unfold send_prebuilt. cbn [negb]. apply returns_bind. apply returns_bind.
  eapply returns_eq; [reflexivity|]. apply returns_bind. apply returns_on_framer. cbn [fst snd].
  eapply returns_mono; [by apply send_prebuilt_ends|]. intros [w1 f1] r Hr.
  eapply returns_mono; [eapply (after_send_ok (w, hd0) _ h c bytes); [done|done|done|done|done|done|exact Hr]|].
  intros st1 r1 Hm. eapply returns_mono;
    [eapply settle_after; [|exact Hm]; intros rest' Ho1 Hn1; by apply drain_then_teardown|].
  intros st' [] (Hcu & Hgb & took & rest' & Hx1 & Hx2 & Hx3). split_and!; [done|done|].
  exists took, rest'. split_and!; try done. intros Hu Ht Hl. apply Hx3; [done|done|apply Nat.lt_lt_succ_r, Hl].
Qed.

End sender.

(** ** Over the library's allocator *)

Lemma no_bytes_break_the_parser_witness :
  let es := Connections.whole_and_half ++ [PeerClosed] in
  (∃ st', serve 4 (receiving es Connections.pool ∅ 5) = (st', Returns false) ∧
     length (PduParser.enqueued st'.1) = 1%nat ∧ length (held (PduParser.allocator st'.1)) = 1%nat) ∧
  returns (serve 4) (receiving es Connections.pool ∅ 5) (λ st' going,
    good_allocator (PduParser.allocator st'.1) ∧
    held (PduParser.allocator st'.1)
      ≡ₚ in_progress st'.2 ++ (chunk_of <$> PduParser.enqueued st'.1) ++ held Connections.pool ∧
    Forall (has_chunk (slab_size Connections.pool) (PduParser.memory st'.1)) (PduParser.enqueued st'.1) ∧
    (going = false → in_progress st'.2 = [])).
Proof.
  intros es. split; [eexists; split; [vm_compute; reflexivity|by vm_compute]|].
  apply no_bytes_break_the_parser.
  - by vm_compute.
  - exact Connections.good_pool.
  - let l := eval vm_compute in (PduParser.unread es) in change (Forall is_byte l).
    repeat first [apply List.Forall_nil|apply List.Forall_cons; [unfold is_byte; lia|]].
  - apply Nat.ltb_lt. by vm_compute.
Defined.

Lemma sent_chunk_is_given_back_once_witness :
  returns (PduProtocolHandler.send_prebuilt true Connections.chunk.1 (Some Connections.chunk.2)
             (size (frame (mk_pdu 7 1 42 [1; 2; 3])));;
           drain_sends 9;; PduProtocolHandler.teardown) Connections.handler
    (λ st' _, settled 9 Connections.handler st' Connections.chunk.1 Connections.chunk.2
       (frame (mk_pdu 7 1 42 [1; 2; 3]))).
Proof.
  apply (sent_chunk_is_given_back_once Connections.handler 9).
  - by vm_compute.
  - apply Connections.good_after; [by eexists; vm_compute|by vm_compute|by vm_compute].
  - apply (list_elem_of_lookup_2 _ 0). by vm_compute.
  - by vm_compute.
  - by vm_compute.
Defined.

(** A connection that is torn down, by the idle timeout or by a failed write,
    while a payload is arriving does not give back the chunk it was filling: it
    is out, no message has it, and the handler that knew of it is gone. *)
Lemma torn_down_in_mid_payload_loses_the_chunk :
  let r := (PduProtocolHandler.on_data_ready;; PduProtocolHandler.teardown) Connections.reader in
  r.2 = Returns () ∧ held Connections.pool = [] ∧
  length (held (PduParser.allocator (PduProtocolHandler.inbound r.1.1))) = 1%nat ∧
  PduParser.enqueued (PduProtocolHandler.inbound r.1.1) = [].
Proof. by vm_compute. Qed.
