(* ===== verification/FixField.v ===== *)
(** The text of a FIX field: libraries/fix_codec/FixChecksum.hpp and
    FixField.hpp, with the decimal conversions of the standard library they use.

    Text is a list of bytes.  [char] is signed on the platforms the program
    supports; the code only compares characters with digits and signs, for which
    a byte above 127 is as good as its negative value, and the checksum reads
    bytes as unsigned.  Arithmetic of a signed type that leaves its range is
    undefined, and is [UndefinedBehaviour] here. *)

From Stdlib Require Import String Ascii.
From S2P Require Import Prelude.
From S2P Require Import WalEntry.
#[local] Open Scope Z_scope.
#[local] Open Scope venue_scope.

(** The characters of a literal. *)
Definition text (s : string) : list Z :=
  (λ c, Z.of_N (N_of_ascii c)) <$> list_ascii_of_string s.

Definition soh : Z := 1.

Definition is_digit (c : Z) : bool := (48 <=? c) && (c <=? 57).

(** ** [std::to_chars] and [std::from_chars], in base ten *)

Fixpoint digits_from (turns : nat) (n : Z) (acc : list Z) : list Z :=
  match turns with
  | O => acc
  | S turns =>
      let acc := (48 + n mod 10) :: acc in
      if n / 10 =? 0 then acc else digits_from turns (n / 10) acc
  end.

(** No integer of 64 bits has more than twenty digits. *)
Definition digits (n : Z) : list Z := digits_from 20 n [].

Definition to_chars (value : Z) : list Z :=
  if value <? 0 then 45 :: digits (- value) else digits value.

(** Into an array of [capacity] characters; [None] is an error. *)
Definition to_chars_in (capacity value : Z) : option (list Z) :=
  if size (to_chars value) <=? capacity then Some (to_chars value) else None.

Fixpoint leading_digits (l : list Z) : list Z :=
  match l with
  | c :: l => if is_digit c then c :: leading_digits l else []
  | [] => []
  end.

Definition number_of (l : list Z) : Z := foldl (λ v c, v * 10 + (c - 48)) 0 l.

(** The value and how many characters were read; a minus sign is read only for a
    type with negative values, and a number outside [lo, hi] is an error. *)
Definition from_chars (lo hi : Z) (l : list Z) : option (Z * Z) :=
  let '(negative, rest) :=
    match l with
    | c :: rest => if (c =? 45) && (lo <? 0) then (true, rest) else (false, l)
    | [] => (false, [])
    end : bool * list Z in
  let ds := leading_digits rest in
  let v := if negative then - number_of ds else number_of ds in
  if size ds =? 0 then None
  else if (lo <=? v) && (v <=? hi) then Some (v, size ds + (if negative then 1 else 0))
  else None.

(** [detail::parse_number]. *)
Definition parse_number (lo hi : Z) (l : list Z) (fallback : Z) : Z :=
  match from_chars lo hi l with
  | Some (value, n) => if n =? size l then value else fallback
  | None => fallback
  end.

Definition parse_int : list Z → Z → Z := parse_number (- 2 ^ 31) (2 ^ 31 - 1).
Definition parse_int64 : list Z → Z → Z := parse_number (- 2 ^ 63) (2 ^ 63 - 1).
Definition parse_uint : list Z → Z → Z := parse_number 0 (2 ^ 32 - 1).

(** ** FixChecksum.hpp *)

(** The sum is 32 bits wide. *)
Definition compute_checksum (message_bytes : list Z) : Z :=
  (foldl (λ sum byte, (sum + byte) mod 2 ^ 32) 0 message_bytes) mod 256.

Definition checksum_matches (message_bytes received_checksum : list Z) : bool :=
  if negb (size received_checksum =? 3) then false
  else
    match from_chars 0 (2 ^ 32 - 1) received_checksum with
    | Some (received, n) => (n =? 3) && (compute_checksum message_bytes =? received)
    | None => false
    end.

(** ** FixField.hpp *)

(** A value of [int64_t], if the number is one. *)
Definition int64 (z : Z) : outcome Z :=
  if (- 2 ^ 63 <=? z) && (z <? 2 ^ 63) then Returns z else Throws UndefinedBehaviour.

Module FixField.

Record t := mk { tag : Z; value : list Z }.

#[export] Instance t_eq_dec : EqDecision t.
Proof. solve_decision. Defined.

Definition initial : t := mk 0 [].

Definition as_int (f : t) (fallback : Z) : Z := parse_int (value f) fallback.
Definition as_int64 (f : t) (fallback : Z) : Z := parse_int64 (value f) fallback.
Definition as_uint (f : t) (fallback : Z) : Z := parse_uint (value f) fallback.

Definition as_char (f : t) (fallback : Z) : Z :=
  match value f with [c] => c | _ => fallback end.

Definition as_bool (f : t) : bool := bool_decide (value f = text "Y").

(** The loop of [as_decimal]; [None] is [return false]. *)
Fixpoint decimal_loop (l : list Z) (digits fractional_digits : Z) (seen_dot seen_digit : bool)
    : outcome (option (Z * Z)) :=
  match l with
  | [] => Returns (if seen_digit then Some (digits, - fractional_digits) else None)
  | c :: l =>
      if c =? 46 then
        if seen_dot then Returns None else decimal_loop l digits fractional_digits true seen_digit
      else if negb (is_digit c) then Returns None
      else
        let! digits := int64 (digits * 10) in
        let! digits := int64 (digits + (c - 48)) in
        decimal_loop l digits (fractional_digits + (if seen_dot then 1 else 0)) seen_dot true
  end.

(** [as_decimal]: the mantissa and the exponent. *)
Definition as_decimal (f : t) : outcome (option (Z * Z)) :=
  match value f with
  | [] => Returns None
  | c :: rest =>
      let negative := c =? 45 in
      let! r := decimal_loop (if (c =? 43) || negative then rest else value f) 0 0 false false in
      Returns (match r with
               | Some (digits, exponent) => Some (if negative then - digits else digits, exponent)
               | None => None
               end)
  end.

(** [detail::days_from_civil]. *)
Definition days_from_civil (year month day : Z) : Z :=
  let year := year - (if month <=? 2 then 1 else 0) in
  let era := Z.quot (if 0 <=? year then year else year - 399) 400 in
  let year_of_era := year - era * 400 in
  let day_of_year := Z.quot (153 * (month + (if 2 <? month then -3 else 9)) + 2) 5 + day - 1 in
  let day_of_era := year_of_era * 365 + Z.quot year_of_era 4 - Z.quot year_of_era 100 + day_of_year in
  era * 146097 + day_of_era - 719468.

(** [two_or_four_digits], from the place [offset] on. *)
Fixpoint digits_loop (count : nat) (l : list Z) (offset result : Z) : outcome Z :=
  match count with
  | O => Returns result
  | S count =>
      let! c := at_index l offset in
      if negb (is_digit c) then Returns (-1)
      else digits_loop count l (offset + 1) (result * 10 + (c - 48))
  end.

Definition two_or_four_digits (f : t) (offset : Z) (count : nat) : outcome Z :=
  digits_loop count (value f) offset 0.

(** The two loops of [fractional_nanoseconds]. *)
Fixpoint fraction_loop (l : list Z) (left_ : nat) (nanoseconds : Z) {struct left_} : Z :=
  match left_ with
  | O => nanoseconds
  | S left' =>
      match l with
      | c :: l => if is_digit c then fraction_loop l left' (nanoseconds * 10 + (c - 48))
                  else nanoseconds * 10 ^ Z.of_nat left_
      | [] => nanoseconds * 10 ^ Z.of_nat left_
      end
  end.

Definition fractional_nanoseconds (f : t) : Z :=
  match value f !! 17%nat with
  | Some c => if c =? 46 then fraction_loop (drop 18 (value f)) 9 0 else 0
  | None => 0
  end.

Definition as_utc_timestamp_ns (f : t) (fallback : Z) : outcome Z :=
  if size (value f) <? 17 then Returns fallback
  else
    let! c8 := at_index (value f) 8 in
    let! c11 := at_index (value f) 11 in
    let! c14 := at_index (value f) 14 in
    if negb (c8 =? 45) || negb (c11 =? 58) || negb (c14 =? 58) then Returns fallback
    else
      let! year := two_or_four_digits f 0 4 in
      let! month := two_or_four_digits f 4 2 in
      let! day := two_or_four_digits f 6 2 in
      let! hour := two_or_four_digits f 9 2 in
      let! minute := two_or_four_digits f 12 2 in
      let! second := two_or_four_digits f 15 2 in
      if (year <? 0) || (month <? 1) || (12 <? month) || (day <? 1) || (31 <? day) ||
         (hour <? 0) || (23 <? hour) || (minute <? 0) || (59 <? minute) ||
         (second <? 0) || (60 <? second) then Returns fallback
      else
        let days := days_from_civil year month day in
        let seconds := days * 86400 + hour * 3600 + minute * 60 + second in
        let! nanoseconds := int64 (seconds * 1000000000) in
        int64 (nanoseconds + fractional_nanoseconds f).

End FixField.

Example read_42 : parse_int (text "-42") 0 = -42 := eq_refl.
Example read_plus : parse_int (text "+42") 7 = 7 := eq_refl.
Example write_1047 : to_chars 1047 = text "1047" := eq_refl.
Example read_price : FixField.as_decimal (FixField.mk 44 (text "-12.250")) = Returns (Some (-12250, -3)) := eq_refl.
Example read_time :
  FixField.as_utc_timestamp_ns (FixField.mk 52 (text "20240101-00:00:01.5")) 0 = Returns 1704067201500000000 := eq_refl.
