(* ===== verification/FixMessage.v ===== *)
(** One FIX message in a buffer: libraries/fix_codec/FixMessageWriter.hpp and
    FixMessageReader.hpp.

    A pointer into a buffer or a window is an offset.  The window of a reader is
    the list of its bytes, and a view of a part of it is the list of those
    bytes.  The dictionary header is generated when the program is built; what
    the codec asks of it is the class [Dictionary]. *)

From Stdlib Require Import String Ascii.
From S2P Require Import Prelude.
From S2P Require Import WalEntry.
From S2P Require Import FixField.
#[local] Open Scope Z_scope.
#[local] Open Scope venue_scope.

(** ** FixMessageWriter.hpp *)

Module FixMessageWriter.

Definition header_reserve_slack : Z := 16.

Record t := mk {
  buffer_ : list Z;
  capacity_ : Z;
  begin_string_ : list Z;
  body_start_ : Z;
  length_ : Z;
  overflow_ : bool
}.

(** The constructor, on a buffer of [capacity] bytes. *)
Definition make (buffer : list Z) (capacity : Z) (begin_string : list Z) : t :=
  let body_start := size begin_string + header_reserve_slack in
  mk buffer capacity begin_string body_start body_start (capacity <? body_start).

Definition set_overflow (w : t) : t :=
  mk (buffer_ w) (capacity_ w) (begin_string_ w) (body_start_ w) (length_ w) true.

Definition set_length (n : Z) (w : t) : t :=
  mk (buffer_ w) (capacity_ w) (begin_string_ w) (body_start_ w) n (overflow_ w).

(** [memcpy] into the buffer, or a store of one byte of it. *)
Definition store (position : Z) (bytes : list Z) : comp t unit := λ w,
  if (0 <=? position) && (position + size bytes <=? size (buffer_ w)) then
    (mk (splice (buffer_ w) position bytes) (capacity_ w) (begin_string_ w) (body_start_ w)
        (length_ w) (overflow_ w), Returns ())
  else (w, Throws UndefinedBehaviour).

Definition write_bytes (value : list Z) : comp t unit :=
  w ← gets (λ w, w);
  if capacity_ w <? length_ w + size value then modify set_overflow
  else
    store (length_ w) value;;
    modify (set_length (length_ w + size value)).

Definition write_byte (value : Z) : comp t unit :=
  w ← gets (λ w, w);
  if capacity_ w <? length_ w + 1 then modify set_overflow
  else
    store (length_ w) [value];;
    modify (set_length (length_ w + 1)).

Definition write_int (value : Z) : comp t unit :=
  match to_chars_in 16 value with
  | None => modify set_overflow
  | Some digits => write_bytes digits
  end.

Definition push_back_field (tag : Z) (value : list Z) : comp t unit :=
  write_int tag;;
  write_byte 61;;
  write_bytes value;;
  write_byte soh.

Definition push_back_int_field (tag value : Z) : comp t unit :=
  match to_chars_in 16 value with
  | None => modify set_overflow
  | Some digits => push_back_field tag digits
  end.

Definition push_back_char_field (tag value : Z) : comp t unit := push_back_field tag [value].

Definition overflowed (w : t) : bool := overflow_ w.

Definition write_prefix_bytes (position : Z) (source : list Z) : comp t Z :=
  store position source;;
  mret (position + size source).

(** The stores of [append_checksum], each followed by an increment. *)
Definition append_byte (value : Z) : comp t unit :=
  w ← gets (λ w, w);
  store (length_ w) [value];;
  modify (set_length (length_ w + 1)).

Definition append_checksum (checksum : Z) : comp t bool :=
  w ← gets (λ w, w);
  if capacity_ w <? length_ w + 7 then modify set_overflow;; mret false
  else
    append_byte 49;;
    append_byte 48;;
    append_byte 61;;
    append_byte (48 + (checksum / 100) mod 10);;
    append_byte (48 + (checksum / 10) mod 10);;
    append_byte (48 + checksum mod 10);;
    append_byte soh;;
    mret true.

(** [finish]: the view of the message, which is empty after an overflow.  The
    start of the header is computed in [size_t]. *)
Definition finish : comp t (list Z) :=
  w ← gets (λ w, w);
  if overflow_ w : bool then mret []
  else
    match to_chars_in 16 (length_ w - body_start_ w) with
    | None => modify set_overflow;; mret []
    | Some body_length_digits =>
        let header_size := 2 + size (begin_string_ w) + 1 + 2 + size body_length_digits + 1 in
        let header_start := wrap64 (body_start_ w - header_size) in
        position ← write_prefix_bytes header_start (text "8=");
        position ← write_prefix_bytes position (begin_string_ w);
        position ← write_prefix_bytes position [soh];
        position ← write_prefix_bytes position (text "9=");
        position ← write_prefix_bytes position body_length_digits;
        write_prefix_bytes position [soh];;
        message ← gets (λ w, slice (buffer_ w) header_start (length_ w - header_start));
        done ← append_checksum (compute_checksum message);
        if done : bool then
          gets (λ w, slice (buffer_ w) header_start (length_ w - header_start))
        else mret []
    end.

End FixMessageWriter.

(** ** FixMessageReader.hpp *)

(** What the reader asks of the generated dictionary. *)
Class DataLengths := is_data_length_tag : Z → bool.

Module FixMessageReader.

Inductive Status := Valid | Incomplete | Malformed | ChecksumError.

#[export] Instance Status_eq_dec : EqDecision Status.
Proof. solve_decision. Defined.

(** Where the message was not framed [message_bytes_] is empty, and so is the
    range of its fields. *)
Record t := mk {
  window_ : list Z;
  message_bytes_ : list Z;
  status_ : Status;
  error_message_ : string
}.

(** [find_char]: the first place at or after [first], and before [last], that
    holds [target].  Each byte is read where the cursor is, and a cursor outside
    the bytes is undefined behaviour. *)
Fixpoint find_char_loop (turns : nat) (bytes : list Z) (cursor target : Z) : outcome (option Z) :=
  match turns with
  | O => Returns None
  | S turns =>
      let! c := at_index bytes cursor in
      if c =? target then Returns (Some cursor) else find_char_loop turns bytes (cursor + 1) target
  end.

Definition find_char (bytes : list Z) (first last target : Z) : outcome (option Z) :=
  find_char_loop (Z.to_nat (last - first)) bytes first target.

(** [std::string_view(data + first, count)]: a view that does not lie in the bytes,
    as when [count] is a negative number cast to [size_t], is undefined behaviour. *)
Definition view (bytes : list Z) (first count : Z) : outcome (list Z) :=
  if (0 <=? first) && (0 <=? count) && (first + count <=? size bytes) then Returns (slice bytes first count)
  else Throws UndefinedBehaviour.

(** [find_delimiter], which stops at the size of the view it is given. *)
Fixpoint index_of (target : Z) (l : list Z) (at_ : Z) : option Z :=
  match l with
  | c :: l => if c =? target then Some at_ else index_of target l (at_ + 1)
  | [] => None
  end.

Definition find_delimiter (bytes : list Z) (from : Z) : option Z :=
  index_of soh (drop (Z.to_nat from) bytes) from.

(** [window_.compare(position, n, s) == 0] *)
Definition begins_at (bytes : list Z) (position : Z) (s : list Z) : bool :=
  bool_decide (slice bytes position (size s) = s).

Section frame.
Context (window : list Z).

Definition fail (status : Status) (explanation : string) : t := mk window [] status explanation.

Definition frame_checksum (body_length_end body_length : Z) : t :=
  let checksum_tag_start := body_length_end + 1 + body_length in
  if size window <? checksum_tag_start + 3 then
    fail Incomplete "message truncated before the Checksum (tag 10) field"
  else if negb (begins_at window checksum_tag_start (text "10=")) then
    fail Malformed "tag 10 (Checksum) is not at the offset BodyLength indicates"
  else
    match find_delimiter window checksum_tag_start with
    | None => fail Incomplete "Checksum (tag 10) field is not terminated by SOH"
    | Some checksum_end =>
        let message_bytes := slice window 0 (checksum_end + 1) in
        let checksum_input := slice window 0 checksum_tag_start in
        let received := slice window (checksum_tag_start + 3) (checksum_end - checksum_tag_start - 3) in
        if checksum_matches checksum_input received then mk window message_bytes Valid ""
        else mk window message_bytes ChecksumError "Checksum (tag 10) does not match the computed value"
    end.

(** The constructor. *)
Definition frame : t :=
  if size window <? 2 then
    fail Incomplete "message truncated before the BeginString (tag 8) field"
  else if negb (begins_at window 0 (text "8=")) then
    fail Malformed "message does not start with tag 8 (BeginString)"
  else
    match find_delimiter window 0 with
    | None => fail Incomplete "BeginString (tag 8) field is not terminated by SOH"
    | Some begin_string_end =>
        let body_length_tag_start := begin_string_end + 1 in
        if size window <? body_length_tag_start + 2 then
          fail Incomplete "message truncated before the BodyLength (tag 9) field"
        else if negb (begins_at window body_length_tag_start (text "9=")) then
          fail Malformed "tag 9 (BodyLength) must be the second field"
        else
          match find_delimiter window body_length_tag_start with
          | None => fail Incomplete "BodyLength (tag 9) field is not terminated by SOH"
          | Some body_length_end =>
              let body_length_text :=
                slice window (body_length_tag_start + 2)
                  (body_length_end - body_length_tag_start - 2) in
              let body_length := parse_int body_length_text (-1) in
              if negb (body_length =? parse_int body_length_text (-2)) then
                fail Malformed "BodyLength (tag 9) is not a number"
              else if body_length <=? 0 then
                fail Malformed "BodyLength (tag 9) must be a positive integer"
              else frame_checksum body_length_end body_length
          end
    end.
End frame.

Definition message_size (r : t) : Z := size (message_bytes_ r).

Definition error (r : t) : option string :=
  match error_message_ r with EmptyString => None | s => Some s end.

(** *** The fields *)

(** [const_iterator]; [end_] is the size of the message. *)
Record const_iterator := mk_iterator {
  field_start_ : Z;
  next_ : Z;
  pending_data_length_ : Z;
  field_ : FixField.t
}.

Definition past_end (bytes : list Z) : const_iterator :=
  mk_iterator (size bytes) (size bytes) 0 FixField.initial.

Section fields.
Context `{!DataLengths} (bytes : list Z).

(** [value_start + incoming_data_length], an address: a length of 2^63 or more
    wraps round, to an address below [value_start]. *)
Definition after_data (value_start incoming_data_length : Z) : Z :=
  if incoming_data_length <? 2 ^ 63 then value_start + incoming_data_length
  else value_start + incoming_data_length - 2 ^ 64.

Definition parse (field_start incoming_data_length : Z) : outcome const_iterator :=
  let end_ := size bytes in
  if end_ <=? field_start then Returns (past_end bytes)
  else
    let! equals := find_char bytes field_start end_ 61 in
    match equals with
    | None => Returns (past_end bytes)
    | Some equals =>
        let! tag_text := view bytes field_start (equals - field_start) in
        let value_start := equals + 1 in
        let! value_end :=
          (if (0 <? incoming_data_length) && (after_data value_start incoming_data_length <=? end_)
           then Returns (Some (after_data value_start incoming_data_length))
           else find_char bytes value_start end_ soh) in
        match value_end with
        | None => Returns (past_end bytes)
        | Some value_end =>
            if end_ <=? value_end then Returns (past_end bytes)
            else
              let tag := parse_int tag_text 0 in
              let! value := view bytes value_start (value_end - value_start) in
              let field := FixField.mk tag value in
              let pending :=
                if negb (tag =? 0) && is_data_length_tag tag then wrap64 (FixField.as_int field 0)
                else 0 in
              Returns (mk_iterator field_start (value_end + 1) pending field)
        end
    end.

Definition begin : outcome const_iterator := parse 0 0.
Definition at_end (it : const_iterator) : bool := field_start_ it =? size bytes.
Definition increment (it : const_iterator) : outcome const_iterator :=
  parse (next_ it) (pending_data_length_ it).

(** [for (const FixField& field : reader)]: the fields it gives, with one turn
    for each byte and one more. *)
Fixpoint fields_from (turns : nat) (it : const_iterator) : outcome (list FixField.t) :=
  match turns with
  | O => Throws DoesNotReturn
  | S turns =>
      if at_end it then Returns []
      else
        let! it' := increment it in
        let! rest := fields_from turns it' in
        Returns (field_ it :: rest)
  end.

Definition fields : outcome (list FixField.t) :=
  let! it := begin in fields_from (S (length bytes)) it.

(** [find], from [begin()]. *)
Fixpoint find_from (turns : nat) (tag : Z) (it : const_iterator) : outcome FixField.t :=
  match turns with
  | O => Throws DoesNotReturn
  | S turns =>
      if at_end it then Returns FixField.initial
      else if FixField.tag (field_ it) =? tag then Returns (field_ it)
      else let! it' := increment it in find_from turns tag it'
  end.

Definition find (tag : Z) : outcome FixField.t :=
  let! it := begin in find_from (S (length bytes)) tag it.

Definition msg_type : outcome (list Z) :=
  let! f := find 35 in Returns (FixField.value f).
End fields.

End FixMessageReader.
