(* ===== verification/FixValidator.v ===== *)
(** Whether a framed FIX message conforms to the dictionary:
    libraries/fix_codec/FixGroupWalker.hpp, FixReject.hpp and
    FixMessageValidator.hpp.

    The dictionary header is generated when the program is built, from the XML
    of the standard by src/python/fix_dictionary; what the codec asks of it is the
    class [Dictionary], and what the generator promises of the answers is
    [DictionaryLaws].  An iterator over the fields of a message is the list of
    the fields from it to the end. *)

From Stdlib Require Import String Ascii.
From S2P Require Import Prelude.
From S2P Require Import WalEntry.
From S2P Require Import FixField.
From S2P Require Import FixMessage.
#[local] Open Scope Z_scope.
#[local] Open Scope venue_scope.

(** ** The dictionary *)

Inductive field_format :=
  | fix_string | fix_int | fix_decimal | fix_char | fix_boolean
  | fix_utc_timestamp | fix_data | fix_multiple_value.

#[export] Instance field_format_eq_dec : EqDecision field_format.
Proof. solve_decision. Defined.

Record group_member := mk_member {
  member_tag : Z;
  required : bool;
  nested_group : Z
}.

Record group_def := mk_group {
  counter_tag : Z;
  delimiter_tag : Z;
  members : list group_member
}.

Class Dictionary := {
  data_lengths :: DataLengths;
  permitted_word_count : Z;
  field_index : Z → Z;
  permitted_mask : list Z → option (list Z);
  field_format_at : Z → field_format;
  has_enum_values_at : Z → bool;
  is_defined_enum_value_at : Z → list Z → bool;
  required_tags : list Z → list Z;
  group_index_for_counter : Z → Z;
  group_at : Z → group_def
}.

(** A bit for each index of a field, in words of 64 bits. *)
Definition mask_has_index (words : list Z) (dense_index : Z) : outcome bool :=
  if dense_index <? 0 then Returns false
  else
    let! word := at_index words (dense_index / 64) in
    Returns (Z.testbit (Z.shiftr word (dense_index mod 64)) 0).

(** What the generator promises: an index is the place of a tag among the tags
    that are defined, a mask has a word for every 64 of them, the members of a
    group are defined and fewer than the 256 tags an instance keeps track of. *)
Class DictionaryLaws (D : Dictionary) := {
  words_nonneg : 0 ≤ permitted_word_count;
  index_in_range tag : field_index tag = -1 ∨ 0 ≤ field_index tag < 64 * permitted_word_count;
  index_names_one a b : 0 ≤ field_index a → field_index a = field_index b → a = b;
  mask_has_words type words :
    permitted_mask type = Some words → size words = permitted_word_count;
  members_defined i m : m ∈ members (group_at i) → 0 ≤ field_index (member_tag m);
  members_few i : (length (members (group_at i)) < 256)%nat;
  required_defined type tag : tag ∈ required_tags type → 0 ≤ field_index tag
}.

(** ** FixGroupWalker.hpp *)

Definition max_group_depth : Z := 16.

(** The place of a tag among the members; the code's -1 is [None]. *)
Definition group_member_index (def : group_def) (tag : Z) : option group_member :=
  List.find (λ m, member_tag m =? tag) (members def).

(** [parse_num_in_group], in [int]. *)
Fixpoint parse_num_loop (l : list Z) (value : Z) : outcome Z :=
  match l with
  | [] => Returns value
  | c :: l =>
      if is_digit c then
        let value := value * 10 + (c - 48) in
        if value <? 2 ^ 31 then parse_num_loop l value else Throws UndefinedBehaviour
      else parse_num_loop l value
  end.

Definition parse_num_in_group (text : list Z) : outcome Z := parse_num_loop text 0.

(** The visitor of a walk, whose state is [V]. *)
Class Visitor (V : Type) := {
  enter_instance : Z → group_def → Z → comp V unit;
  visit_field : Z → group_def → Z → group_member → FixField.t → comp V bool;
  leave_instance : Z → group_def → Z → comp V bool;
  orphan_field : Z → group_def → FixField.t → comp V bool;
  enter_nested : Z → group_def → Z → FixField.t → group_def → comp V bool;
  leave_group : Z → group_def → Z → Z → comp V bool
}.

Section walker.
Context `{!Dictionary} {V : Type} `{!Visitor V}.

Definition walk : Type := V * list FixField.t.

Fixpoint skip_repeating_group (turns : nat) (def : group_def) : comp walk unit :=
  match turns with
  | O => throw DoesNotReturn
  | S turns =>
      it ← on_snd (gets (λ it, it));
      match it : list FixField.t with
      | [] => mret ()
      | field :: rest =>
          match group_member_index def (FixField.tag field) with
          | None => mret ()
          | Some member =>
              on_snd (modify (λ _, rest));;
              (if 0 <=? nested_group member then
                 skip_repeating_group turns (group_at (nested_group member))
               else mret ());;
              skip_repeating_group turns def
          end
      end
  end.

(** What follows the loop. *)
Definition walk_ends (def : group_def) (declared depth instances : Z) (have_instance : bool)
    : comp walk bool :=
  ok ← (if have_instance then on_fst (leave_instance depth def (instances - 1)) else mret true);
  if ok : bool then on_fst (leave_group depth def instances declared) else mret false.

(** The start of a turn: whether a new instance begins; [None] is [return false]. *)
Definition walk_instance (def : group_def) (depth instances : Z) (have_instance : bool)
    (field : FixField.t) : comp walk (option (Z * bool)) :=
  if FixField.tag field =? delimiter_tag def then
    ok ← (if have_instance then on_fst (leave_instance depth def (instances - 1)) else mret true);
    if ok : bool then
      on_fst (enter_instance depth def instances);;
      mret (Some (instances + 1, true))
    else mret None
  else if have_instance then mret (Some (instances, true))
  else
    ok ← on_fst (orphan_field depth def field);
    mret (if ok : bool then Some (instances, false) else None).

Definition walk_field (def : group_def) (depth instances : Z) (have_instance : bool)
    (member : group_member) (field : FixField.t) : comp walk bool :=
  if have_instance then on_fst (visit_field depth def (instances - 1) member field) else mret true.

Fixpoint walk_loop (turns : nat) (def : group_def) (declared depth instances : Z)
    (have_instance : bool) : comp walk bool :=
  match turns with
  | O => throw DoesNotReturn
  | S turns =>
      it ← on_snd (gets (λ it, it));
      match it : list FixField.t with
      | [] => walk_ends def declared depth instances have_instance
      | field :: rest =>
          match group_member_index def (FixField.tag field) with
          | None => walk_ends def declared depth instances have_instance
          | Some member =>
              started ← walk_instance def depth instances have_instance field;
              match started : option (Z * bool) with
              | None => mret false
              | Some (instances, have_instance) =>
                  ok ← walk_field def depth instances have_instance member field;
                  if negb ok then mret false
                  else
                    on_snd (modify (λ _, rest));;
                    ok ← (if (0 <=? nested_group member) && (depth <? max_group_depth) then
                            let nested := group_at (nested_group member) in
                            descend ← (if have_instance then
                                         on_fst (enter_nested depth def (instances - 1) field nested)
                                       else mret false);
                            if descend : bool then
                              declared ← ask (λ _, parse_num_in_group (FixField.value field));
                              walk_loop turns nested declared (depth + 1) 0 false
                            else
                              skip_repeating_group turns nested;; mret true
                          else mret true);
                    if negb ok then mret false
                    else walk_loop turns def declared depth instances have_instance
              end
          end
      end
  end.

(** [walk_repeating_group], with one turn for each field left and one more. *)
Definition walk_repeating_group (def : group_def) (declared depth : Z) : comp walk bool := λ st,
  walk_loop (S (length st.2)) def declared depth 0 false st.
End walker.

(** ** FixReject.hpp *)

Inductive RejectReason :=
  | NoReason
  | InvalidTagNumber
  | RequiredTagMissing
  | TagNotDefinedForThisMessage
  | ValueIsIncorrect
  | IncorrectDataFormat
  | TagAppearsMoreThanOnce
  | IncorrectNumInGroupCount.

#[export] Instance RejectReason_eq_dec : EqDecision RejectReason.
Proof. solve_decision. Defined.

Module FixReject.

Record t := mk {
  reason : RejectReason;
  ref_tag : Z;
  ref_msg_type : list Z;
  value : list Z
}.

Definition none : t := mk NoReason 0 [] [].

Definition ok (r : t) : bool := bool_decide (reason r = NoReason).

End FixReject.

(** ** FixMessageValidator.hpp *)

Module FixMessageValidator.

Definition max_tracked_tags : Z := 256.

Section validator.
Context `{!Dictionary}.

(** A table read by dense index. *)
Definition at_dense_index {A} (table : Z → A) (dense_index : Z) : outcome A :=
  if dense_index <? 0 then Throws UndefinedBehaviour else Returns (table dense_index).

Definition is_integer (text : list Z) : bool :=
  match text with
  | [] => false
  | c :: rest =>
      let digits := if (c =? 43) || (c =? 45) then rest else text in
      match digits with [] => false | _ => forallb is_digit digits end
  end.

Definition is_utc_timestamp (text : list Z) : outcome bool :=
  let probe := FixField.mk 0 text in
  let! first := FixField.as_utc_timestamp_ns probe (- 2 ^ 63) in
  if negb (first =? - 2 ^ 63) then Returns true
  else
    let! second := FixField.as_utc_timestamp_ns probe (- 2 ^ 63 + 1) in
    Returns (negb (second =? - 2 ^ 63 + 1)).

Definition check_format (dense_index tag : Z) (field : FixField.t) (type : list Z)
    : outcome FixReject.t :=
  let incorrect := FixReject.mk IncorrectDataFormat tag type (FixField.value field) in
  let verdict (good : bool) := if good then FixReject.none else incorrect in
  let! format := at_dense_index field_format_at dense_index in
  match format with
  | fix_int => Returns (verdict (is_integer (FixField.value field)))
  | fix_decimal =>
      let! r := FixField.as_decimal field in
      Returns (verdict (bool_decide (is_Some r)))
  | fix_char => Returns (verdict (size (FixField.value field) =? 1))
  | fix_boolean =>
      Returns (verdict (bool_decide (FixField.value field = text "Y") ||
                        bool_decide (FixField.value field = text "N")))
  | fix_utc_timestamp =>
      let! good := is_utc_timestamp (FixField.value field) in Returns (verdict good)
  | fix_string | fix_data | fix_multiple_value => Returns FixReject.none
  end.

(** The loop over the elements of a value of several, separated by spaces:
    whether each of them that is not empty is defined. *)
Fixpoint elements_defined (turns : nat) (dense_index : Z) (remaining : list Z) : outcome bool :=
  match turns with
  | O => Throws DoesNotReturn
  | S turns =>
      match remaining with
      | [] => Returns true
      | _ =>
          let space := FixMessageReader.index_of 32 remaining 0 in
          let element := match space with
                         | Some n => slice remaining 0 n
                         | None => remaining
                         end in
          if negb (bool_decide (element = [])) && negb (is_defined_enum_value_at dense_index element)
          then Returns false
          else match space with
               | None => Returns true
               | Some n => elements_defined turns dense_index (drop (Z.to_nat (n + 1)) remaining)
               end
      end
  end.

Definition check_field_semantics (dense_index tag : Z) (field : FixField.t) (type : list Z)
    : outcome FixReject.t :=
  let incorrect := FixReject.mk ValueIsIncorrect tag type (FixField.value field) in
  let! format_reject := check_format dense_index tag field type in
  if negb (FixReject.ok format_reject) then Returns format_reject
  else
    let! enumerated := at_dense_index has_enum_values_at dense_index in
    if enumerated : bool then
      let! format := at_dense_index field_format_at dense_index in
      if bool_decide (format = fix_multiple_value) then
        let! good := elements_defined (S (length (FixField.value field))) dense_index
                       (FixField.value field) in
        Returns (if good : bool then FixReject.none else incorrect)
      else if is_defined_enum_value_at dense_index (FixField.value field) then Returns FixReject.none
      else Returns incorrect
    else Returns FixReject.none.

(** *** [GroupValidationVisitor] *)

(** [instance_seen] holds for each depth the tags written to the array of the
    code, whose number is [instance_count]. *)
Record GroupValidation := mk_visitor {
  type_ : list Z;
  reject : FixReject.t;
  instance_seen : list (list Z);
  counter_value : list (list Z)
}.

Definition depths : nat := 17.

Definition visitor_for (type counter : list Z) : GroupValidation :=
  mk_visitor type FixReject.none (replicate depths []) (counter :: replicate 16 []).

Definition rejected (r : FixReject.t) : comp GroupValidation bool :=
  modify (λ v, mk_visitor (type_ v) r (instance_seen v) (counter_value v));; mret false.

Definition seen_at (depth : Z) : comp GroupValidation (list Z) :=
  ask (λ v, at_index (instance_seen v) depth).

(** A store to [instance_seen[depth]] or to [counter_value[depth]]. *)
Definition store_at {A} (l : list A) (depth : Z) (x : A) : outcome (list A) :=
  if (0 <=? depth) && (depth <? Z.of_nat (length l)) then Returns (<[Z.to_nat depth := x]> l)
  else Throws UndefinedBehaviour.

Definition set_seen (depth : Z) (tags : list Z) : comp GroupValidation unit :=
  seen ← ask (λ v, store_at (instance_seen v) depth tags);
  modify (λ v, mk_visitor (type_ v) (reject v) seen (counter_value v)).

Definition contains (values : list Z) (target : Z) : bool := bool_decide (target ∈ values).

Definition validate_field (depth : Z) (value : FixField.t) : comp GroupValidation bool :=
  type ← gets type_;
  seen ← seen_at depth;
  if contains seen (FixField.tag value) then
    rejected (FixReject.mk TagAppearsMoreThanOnce (FixField.tag value) type [])
  else
    (if size seen <? max_tracked_tags then set_seen depth (seen ++ [FixField.tag value])
     else mret ());;
    semantic ← ask (λ _, check_field_semantics (field_index (FixField.tag value))
                           (FixField.tag value) value type);
    if negb (FixReject.ok semantic) then rejected semantic else mret true.

Definition validate_orphan (def : group_def) : comp GroupValidation bool :=
  type ← gets type_;
  rejected (FixReject.mk RequiredTagMissing (delimiter_tag def) type []).

Definition validate_nested (depth : Z) (counter : FixField.t) : comp GroupValidation bool :=
  counters ← ask (λ v, store_at (counter_value v) (depth + 1) (FixField.value counter));
  modify (λ v, mk_visitor (type_ v) (reject v) (instance_seen v) counters);;
  mret true.

Definition validate_instance (depth : Z) (def : group_def) : comp GroupValidation bool :=
  type ← gets type_;
  seen ← seen_at depth;
  if max_tracked_tags <=? size seen then mret true
  else
    match List.find (λ m, required m && negb (contains seen (member_tag m))) (members def) with
    | Some m => rejected (FixReject.mk RequiredTagMissing (member_tag m) type [])
    | None => mret true
    end.

Definition validate_group (depth : Z) (def : group_def) (instances declared : Z)
    : comp GroupValidation bool :=
  type ← gets type_;
  if negb (instances =? declared) then
    counter ← ask (λ v, at_index (counter_value v) depth);
    rejected (FixReject.mk IncorrectNumInGroupCount (counter_tag def) type counter)
  else mret true.

#[export] Instance GroupValidationVisitor : Visitor GroupValidation := {|
  enter_instance depth _ _ := set_seen depth [];
  visit_field depth _ _ _ value := validate_field depth value;
  leave_instance depth def _ := validate_instance depth def;
  orphan_field _ def _ := validate_orphan def;
  enter_nested depth _ _ counter _ := validate_nested depth counter;
  leave_group depth def instances declared := validate_group depth def instances declared
|}.

(** *** [validate] *)

(** [test_and_set_index]: whether the bit was set, and the words with it set. *)
Definition test_and_set_index (words : list Z) (dense_index : Z) : outcome (list Z * bool) :=
  let bit := Z.shiftl 1 (dense_index mod 64) in
  let! word := at_index words (dense_index / 64) in
  if negb (Z.land word bit =? 0) then Returns (words, true)
  else Returns (<[Z.to_nat (dense_index / 64) := Z.lor word bit]> words, false).

(** The loop over the required tags. *)
Fixpoint required_present (type seen : list Z) (tags : list Z) : outcome FixReject.t :=
  match tags with
  | [] => Returns FixReject.none
  | tag :: tags =>
      let! present := mask_has_index seen (field_index tag) in
      if present : bool then required_present type seen tags
      else Returns (FixReject.mk RequiredTagMissing tag type [])
  end.

(** The checks of one field of the body: the words seen, or the reject. *)
Definition check_top_field (type : list Z) (permitted : option (list Z)) (seen : list Z)
    (field : FixField.t) : outcome (list Z * FixReject.t) :=
  let tag := FixField.tag field in
  let index := field_index tag in
  if index <? 0 then
    Returns (seen, FixReject.mk InvalidTagNumber tag type (FixField.value field))
  else
    let! allowed := match permitted with
                    | None => Returns true
                    | Some words => mask_has_index words index
                    end in
    if negb allowed then Returns (seen, FixReject.mk TagNotDefinedForThisMessage tag type [])
    else
      let! r := test_and_set_index seen index in
      if r.2 : bool then Returns (seen, FixReject.mk TagAppearsMoreThanOnce tag type [])
      else
        let! semantic := check_field_semantics index tag field type in
        Returns (r.1, semantic).

Fixpoint validate_loop (turns : nat) (type : list Z) (permitted : option (list Z))
    (seen : list Z) (it : list FixField.t) : outcome FixReject.t :=
  match turns with
  | O => Throws DoesNotReturn
  | S turns =>
      match it with
      | [] => required_present type seen (required_tags type)
      | field :: rest =>
          let! r := check_top_field type permitted seen field in
          let '(seen, verdict) := r : list Z * FixReject.t in
          if negb (FixReject.ok verdict) then Returns verdict
          else
            let group := group_index_for_counter (FixField.tag field) in
            if 0 <=? group then
              let! declared := parse_num_in_group (FixField.value field) in
              let '((visitor, rest), walked) :=
                walk_repeating_group (group_at group) declared 0
                  (visitor_for type (FixField.value field), rest) in
              let! ok := walked in
              if negb ok then Returns (reject visitor)
              else validate_loop turns type permitted seen rest
            else validate_loop turns type permitted seen rest
      end
  end.

(** [validate], of a message whose fields are [fields]. *)
Definition first_value (tag : Z) (fields : list FixField.t) : list Z :=
  match List.find (λ f, FixField.tag f =? tag) fields with
  | Some f => FixField.value f
  | None => []
  end.

Definition validate (fields : list FixField.t) : outcome FixReject.t :=
  let type := first_value 35 fields in
  validate_loop (S (length fields)) type (permitted_mask type)
    (replicate (Z.to_nat permitted_word_count) 0) fields.
End validator.

End FixMessageValidator.
