(* ===== verification/FixFieldTheorems.v ===== *)
(** What the text of a FIX field reads as: decimal numbers read back as they
    were written, and times. *)

From Stdlib Require Import String Ascii.
From S2P Require Import Prelude.
From S2P Require Import WalEntry.
From S2P Require Import TradingDate.
From S2P Require Import FixField.
#[local] Open Scope Z_scope.
#[local] Open Scope venue_scope.

(** ** Decimal numbers *)

Definition all_digits (l : list Z) : Prop := Forall (λ c, is_digit c = true) l.

Lemma number_snoc l c : number_of (l ++ [c]) = number_of l * 10 + (c - 48).
Proof. unfold number_of. by rewrite foldl_app. Qed.

Lemma is_digit_range c : is_digit c = true ↔ 48 ≤ c ≤ 57.
Proof. unfold is_digit. rewrite andb_true_iff, !Z.leb_le. done. Qed.

Lemma number_of_range l : all_digits l → 0 ≤ number_of l < 10 ^ size l.
Proof.
  induction l as [|c l IH] using rev_ind; intros Hl; [by cbn|].
  apply Forall_app in Hl as [Hl Hc]. apply Forall_singleton, is_digit_range in Hc.
  rewrite number_snoc. unfold size. rewrite length_app. cbn [length].
  rewrite Nat2Z.inj_add, Z.pow_add_r by lia. specialize (IH Hl). unfold size in IH. lia.
Qed.

Lemma digits_from_spec turns : ∀ n acc,
  0 ≤ n < 10 ^ Z.of_nat turns → (0 < turns)%nat →
  ∃ ds, digits_from turns n acc = ds ++ acc ∧ ds ≠ [] ∧ all_digits ds ∧ number_of ds = n ∧
        ∀ k, 0 < k → n < 10 ^ k → size ds ≤ k.
Proof.
  induction turns as [|turns IH]; intros n acc Hn Ht; [lia|]. cbn [digits_from].
  pose proof (Z.mod_pos_bound n 10 eq_refl). pose proof (Z.div_mod n 10 ltac:(lia)).
  assert (Hd : is_digit (48 + n mod 10) = true) by (apply is_digit_range; lia).
  destruct (Z.eqb_spec (n / 10) 0) as [Hz|Hz].
  - exists [48 + n mod 10]. split_and!; [done|done|by repeat constructor|unfold number_of; cbn [foldl]; lia|].
    intros k Hk _. unfold size. cbn [length]. lia.
  - assert (0 < n / 10) by (pose proof (Z.div_pos n 10); lia).
    assert (Hlt : n / 10 < 10 ^ Z.of_nat turns).
    { apply Z.div_lt_upper_bound; [lia|]. rewrite Nat2Z.inj_succ, Z.pow_succ_r in Hn by lia. lia. }
    assert (0 < turns)%nat by (destruct turns; [cbn in Hlt; lia|lia]).
    destruct (IH (n / 10) ((48 + n mod 10) :: acc)) as (ds & -> & Hne & Hds & Hv & Hs); [lia|done|].
    exists (ds ++ [48 + n mod 10]). split_and!.
    + by rewrite <- app_assoc.
    + by destruct ds.
    + apply Forall_app. split; [done|]. by repeat constructor.
    + rewrite number_snoc, Hv. lia.
    + intros k Hk Hnk. unfold size in *. rewrite length_app. cbn [length].
      assert (k ≠ 1) by (intros ->; rewrite Z.pow_1_r in Hnk; rewrite Z.div_small in Hz; lia).
      assert (Z.of_nat (length ds) ≤ k - 1); [|lia]. apply Hs; [lia|].
      apply Z.div_lt_upper_bound; [lia|]. rewrite <- Z.pow_succ_r by lia. by replace (Z.succ (k - 1)) with k by lia.
Qed.

Lemma digits_spec n : 0 ≤ n < 10 ^ 20 →
  digits n ≠ [] ∧ all_digits (digits n) ∧ number_of (digits n) = n ∧
  ∀ k, 0 < k → n < 10 ^ k → size (digits n) ≤ k.
Proof.
  intros Hn. destruct (digits_from_spec 20 n [] Hn ltac:(lia)) as (ds & Hd & H).
  unfold digits. by rewrite Hd, app_nil_r.
Qed.

Lemma leading_digits_app ds rest :
  all_digits ds → (∀ c, head rest = Some c → is_digit c = false) → leading_digits (ds ++ rest) = ds.
Proof.
  induction 1 as [|c ds Hc _ IH]; intros Hr; cbn.
  - destruct rest as [|c rest]; [done|]. cbn. by rewrite (Hr c).
  - rewrite Hc. by rewrite IH.
Qed.

Lemma leading_digits_all ds : all_digits ds → leading_digits ds = ds.
Proof. intros H. rewrite <- (app_nil_r ds) at 1. by apply leading_digits_app. Qed.

Lemma size_nonzero (l : list Z) : l ≠ [] → (size l =? 0) = false.
Proof. intros H. apply Z.eqb_neq. unfold size. destruct l; [done|cbn; lia]. Qed.

Lemma digit_not_minus c : is_digit c = true → (c =? 45) = false.
Proof. rewrite is_digit_range. lia. Qed.

(** Digits read as their number, in a type that has it. *)
Lemma from_chars_digits lo hi ds :
  ds ≠ [] → all_digits ds → lo ≤ number_of ds ≤ hi →
  from_chars lo hi ds = Some (number_of ds, size ds).
Proof.
  intros Hne Hds Hr. unfold from_chars. destruct ds as [|c ds]; [done|].
  rewrite (digit_not_minus c) by (by inversion Hds). cbn [andb].
  rewrite leading_digits_all, size_nonzero by done.
  rewrite (proj2 (Z.leb_le _ _)), (proj2 (Z.leb_le _ _)) by lia. cbn [andb]. by rewrite Z.add_0_r.
Qed.

(** A number reads back as it was written. *)
Lemma parse_to_chars lo hi z fallback :
  lo ≤ z ≤ hi → - 10 ^ 20 < z < 10 ^ 20 → parse_number lo hi (to_chars z) fallback = z.
Proof.
  intros Hr Hz. unfold parse_number, to_chars. destruct (Z.ltb_spec z 0) as [Hn|Hn].
  - destruct (digits_spec (- z)) as (Hne & Hds & Hv & _); [lia|]. unfold from_chars. cbn [Z.eqb Pos.eqb].
    rewrite (proj2 (Z.ltb_lt lo 0)) by lia. cbn [andb].
    rewrite leading_digits_all, size_nonzero, Hv, Z.opp_involutive by done.
    rewrite (proj2 (Z.leb_le _ _)), (proj2 (Z.leb_le _ _)) by lia. cbn [andb].
    rewrite (proj2 (Z.eqb_eq _ _)); [done|]. unfold size. cbn [length]. lia.
  - destruct (digits_spec z) as (Hne & Hds & Hv & _); [lia|].
    by rewrite from_chars_digits, Hv, Z.eqb_refl by (rewrite ?Hv; done).
Qed.

Lemma to_chars_int z : - 2 ^ 31 ≤ z < 2 ^ 31 → to_chars_in 16 z = Some (to_chars z).
Proof.
  intros Hz. unfold to_chars_in. rewrite (proj2 (Z.leb_le _ _)); [done|]. unfold to_chars.
  destruct (Z.ltb_spec z 0).
  - destruct (digits_spec (- z)) as (_ & _ & _ & Hs); [lia|]. unfold size in *. cbn [length].
    specialize (Hs 10). lia.
  - destruct (digits_spec z) as (_ & _ & _ & Hs); [lia|]. specialize (Hs 10). lia.
Qed.

(** No character of a number is a separator. *)
Lemma to_chars_plain z c : - 10 ^ 20 < z < 10 ^ 20 → c ∈ to_chars z → c = 45 ∨ 48 ≤ c ≤ 57.
Proof.
  intros Hz. unfold to_chars. assert (Hd : ∀ n, 0 ≤ n < 10 ^ 20 → c ∈ digits n → 48 ≤ c ≤ 57).
  { intros n Hn Hc. destruct (digits_spec n Hn) as (_ & Hds & _). unfold all_digits in Hds.
    rewrite Forall_forall in Hds. by apply is_digit_range, Hds. }
  destruct (Z.ltb_spec z 0); [|by right; eapply Hd; [|eassumption]; lia].
  intros [->|Hc]%elem_of_cons; [by left|]. right. apply (Hd (- z)); [lia|done].
Qed.

Lemma compute_checksum_range m : 0 ≤ compute_checksum m < 256.
Proof. unfold compute_checksum. apply Z.mod_pos_bound. lia. Qed.

(** ** Times *)

Import TradingDate.

(** The month of a year that begins in March, and the day of that year. *)
Definition march_month (m : Z) : Z := m + (if 2 <? m then -3 else 9).
Definition march_day (m d : Z) : Z := Z.quot (153 * march_month m + 2) 5 + d - 1.

Definition date_checked (m d : Z) : bool :=
  (month_from_march (march_day m d) =? march_month m) && (day_of_month (march_day m d) =? d) &&
  (month_of (march_month m) =? m) && (0 <=? march_day m d) && (march_day m d <? 366) &&
  bool_decide (march_day m d = 365 ↔ m = 2 ∧ d = 29).

Lemma dates_checked :
  forallb (λ m, forallb (λ d, negb (d <? days_in_month 4 (m + 1)) || date_checked (m + 1) (d + 1))
                  (Z.of_nat <$> seq 0 31)) (Z.of_nat <$> seq 0 12) = true.
Proof. vm_compute. reflexivity. Qed.

Lemma days_in_month_le y m : days_in_month y m ≤ days_in_month 4 m ≤ 31.
Proof. unfold days_in_month. repeat case_if; bool_to_prop; try done; lia. Qed.

Lemma date_checked_valid y m d : valid (mk_date y m d) → date_checked m d = true.
Proof.
  unfold valid. cbn [year month day]. intros [Hm Hd]. pose proof (days_in_month_le y m).
  pose proof (checked _ 12 (m - 1) dates_checked ltac:(lia)) as H1. cbn beta in H1.
  pose proof (checked _ 31 (d - 1) H1 ltac:(lia)) as H2. cbn beta in H2.
  rewrite !Z.sub_add in H2. apply orb_true_iff in H2 as [H2|H2]; [|done].
  bool_to_prop. lia.
Qed.

(** [days_from_civil] undoes [civil_from_days]. *)
Lemma civil_of_days y m d :
  valid (mk_date y m d) → civil_from_days (FixField.days_from_civil y m d) = mk_date y m d.
Proof.
  intros Hv. pose proof (date_checked_valid _ _ _ Hv) as Hc. unfold date_checked in Hc. bool_to_prop.
  set (yy := y - (if m <=? 2 then 1 else 0)).
  assert (He : Z.quot (if 0 <=? yy then yy else yy - 399) 400 = yy / 400).
  { destruct (Z.leb_spec 0 yy); Z.to_euclidean_division_equations; lia. }
  set (yoe := yy mod 400). assert (Hyoe : 0 ≤ yoe < 400) by (apply Z.mod_pos_bound; lia).
  assert (Hyy : yy - yy / 400 * 400 = yoe) by (unfold yoe; rewrite Z.mod_eq; lia).
  pose proof (checked year_checked 400 yoe years_checked Hyoe) as Hy. unfold year_checked in Hy. bool_to_prop.
  assert (Hn : FixField.days_from_civil y m d
               = yy / 400 * 146097 + (first_day yoe + march_day m d) - 719468).
  { unfold FixField.days_from_civil. fold yy. rewrite He, Hyy.
    fold (march_month m). fold (march_day m d). lia. }
  assert (Hleap : march_day m d = 365 → leap (yoe + 1) = true).
  { intros H365. match goal with H : _ ↔ _ |- _ => apply H in H365 as [-> ->] end.
    unfold valid, days_in_month in Hv. cbn [year month day] in Hv.
    destruct (leap y) eqn:Hl; [|cbn in Hv; lia].
    rewrite <- Hl, <- (leap_era (yoe + 1) (yy / 400)). f_equal. unfold yy in *. cbn in *. lia. }
  assert (Hin : first_day yoe ≤ first_day yoe + march_day m d < first_day (yoe + 1)).
  { destruct (leap (yoe + 1)); [lia|]. destruct (decide (march_day m d = 365)) as [H365|]; [|lia].
    by discriminate (Hleap H365). }
  assert (Hdoe : 0 ≤ first_day yoe + march_day m d < 146097).
  { split; [lia|]. destruct (Z.eqb_spec yoe 399); lia. }
  rewrite Hn, civil_in.
  replace (yy / 400 * 146097 + (first_day yoe + march_day m d) - 719468 + 719468)
    with (first_day yoe + march_day m d + yy / 400 * 146097) by lia.
  rewrite Z.div_add, Z.mod_add, Z.div_small, Z.mod_small, Z.add_0_l by lia.
  rewrite date_in_at. destruct (year_is (first_day yoe + march_day m d) yoe) as [-> ->]; [lia..|].
  replace (first_day yoe + march_day m d - first_day yoe) with (march_day m d) by lia.
  unfold date_at. replace (month_from_march (march_day m d)) with (march_month m) by lia.
  replace (month_of (march_month m)) with m by lia. replace (day_of_month (march_day m d)) with d by lia.
  f_equal. unfold yy in *. destruct (m <=? 2); lia.
Qed.

(** The text of a time, as FIX writes it. *)
Definition two (n : Z) : list Z := [48 + n / 10; 48 + n mod 10].
Definition four (n : Z) : list Z := two (n / 100) ++ two (n mod 100).

Definition time_text (d : date) (h mi s : Z) (fraction : list Z) : list Z :=
  (four (year d) ++ two (month d) ++ two (day d)) ++ [45] ++ two h ++ [58] ++ two mi ++ [58] ++ two s ++
  match fraction with [] => [] | _ => 46 :: fraction end.

(** The first nine digits of a fraction, as nanoseconds. *)
Definition fraction_ns (fraction : list Z) : Z :=
  number_of (take 9 fraction) * 10 ^ (9 - Z.min 9 (size fraction)).

Lemma number_of_cons_from v l :
  foldl (λ v c, v * 10 + (c - 48)) v l = v * 10 ^ size l + number_of l.
Proof.
  induction l as [|c l IH] using rev_ind; [change (v = v * 1 + 0); lia|].
  rewrite foldl_app. cbn [foldl]. rewrite IH, number_snoc, size_app.
  unfold size at 3. cbn [length]. rewrite Z.pow_add_r by (unfold size; lia).
  change (10 ^ Z.of_nat 1) with 10. ring.
Qed.

Lemma two_digits n : 0 ≤ n < 100 → all_digits (two n) ∧ number_of (two n) = n.
Proof.
  intros Hn. pose proof (Z.div_mod n 10 ltac:(lia)). pose proof (Z.mod_pos_bound n 10 ltac:(lia)).
  assert (0 ≤ n / 10 < 10) by (split; [apply Z.div_pos|apply Z.div_lt_upper_bound]; lia). split.
  - repeat constructor; apply is_digit_range; lia.
  - unfold number_of, two. cbn [foldl]. lia.
Qed.

Lemma four_digits n : 0 ≤ n < 10000 → all_digits (four n) ∧ number_of (four n) = n.
Proof.
  intros Hn. pose proof (Z.div_mod n 100 ltac:(lia)). pose proof (Z.mod_pos_bound n 100 ltac:(lia)).
  assert (0 ≤ n / 100 < 100) by (split; [apply Z.div_pos|apply Z.div_lt_upper_bound]; lia).
  destruct (two_digits (n / 100)) as [Ha Hb]; [lia|]. destruct (two_digits (n mod 100)) as [Hc Hd]; [lia|].
  split; [by apply Forall_app|]. unfold four, number_of. rewrite foldl_app. fold (number_of (two (n / 100))).
  rewrite number_of_cons_from, Hb, Hd. change (10 ^ size (two (n mod 100))) with 100. lia.
Qed.

Lemma at_index_app {A} (pre : list A) x post i :
  i = Z.of_nat (length pre) → at_index (pre ++ x :: post) i = Returns x.
Proof. intros ->. apply at_index_ok; [lia|]. rewrite Nat2Z.id. by rewrite list_lookup_middle. Qed.

Lemma digits_loop_reads ds : ∀ pre post r,
  all_digits ds →
  FixField.digits_loop (length ds) (pre ++ ds ++ post) (size pre) r = Returns (r * 10 ^ size ds + number_of ds).
Proof.
  induction ds as [|c ds IH]; intros pre post r Hds.
  { change (Returns r = Returns (r * 1 + 0)). f_equal. lia. }
  inversion Hds as [|? ? Hc Hds']; subst. cbn [length FixField.digits_loop app].
  rewrite at_index_app by done. cbn [obind]. rewrite Hc. cbn [negb].
  replace (size pre + 1) with (size (pre ++ [c])) by (by rewrite size_app).
  replace (pre ++ c :: ds ++ post) with ((pre ++ [c]) ++ ds ++ post) by (by rewrite <- app_assoc).
  rewrite IH by done. unfold number_of at 2. cbn [foldl]. rewrite number_of_cons_from.
  unfold size. cbn [length]. rewrite Nat2Z.inj_succ, Z.pow_succ_r by lia. f_equal. ring.
Qed.

Lemma digits_at pre ds post n l tag :
  all_digits ds → number_of ds = n → l = pre ++ ds ++ post →
  FixField.two_or_four_digits (FixField.mk tag l) (size pre) (length ds) = Returns n.
Proof.
  intros Hd <- ->. unfold FixField.two_or_four_digits. cbn [FixField.value].
  by rewrite digits_loop_reads by done.
Qed.

Lemma fraction_loop_reads left_ : ∀ ds v,
  all_digits ds →
  FixField.fraction_loop ds left_ v
  = foldl (λ v c, v * 10 + (c - 48)) v (take left_ ds) * 10 ^ (Z.of_nat left_ - Z.min (Z.of_nat left_) (size ds)).
Proof.
  induction left_ as [|left_ IH]; intros ds v Hd; cbn [FixField.fraction_loop take].
  { rewrite Z.min_l by apply size_nonneg. change (v = v * 1). lia. }
  destruct Hd as [|c ds Hc Hd]; cbn [foldl take].
  - unfold size. cbn [length]. rewrite Z.min_r, Z.sub_0_r by lia. done.
  - rewrite Hc, IH by done. f_equal. f_equal. unfold size. cbn [length]. lia.
Qed.

(** The characters of a time are found where the code looks for them. *)
Lemma time_text_read (d : date) (h mi s : Z) (fraction : list Z) (tag fallback : Z) :
  valid d → 0 ≤ year d ≤ 9999 → 0 ≤ h ≤ 23 → 0 ≤ mi ≤ 59 → 0 ≤ s ≤ 59 → all_digits fraction →
  FixField.as_utc_timestamp_ns (FixField.mk tag (time_text d h mi s fraction)) fallback
  = let! ns := int64 ((FixField.days_from_civil (year d) (month d) (day d) * 86400 + h * 3600 + mi * 60 + s)
                      * 1000000000) in
    int64 (ns + fraction_ns fraction).
Proof.
  intros Hv Hy Hh Hmi Hs Hf. destruct d as [y m d]. cbn [year month day] in *.
  pose proof Hv as [Hm Hd]. cbn [year month day] in Hm, Hd. pose proof (days_in_month_le y m).
  destruct (four_digits y) as [Dy Ny]; [lia|]. destruct (two_digits m) as [Dm Nm]; [lia|].
  destruct (two_digits d) as [Dd Nd]; [lia|]. destruct (two_digits h) as [Dh Nh]; [lia|].
  destruct (two_digits mi) as [Di Ni]; [lia|]. destruct (two_digits s) as [Ds Ns]; [lia|].
  unfold FixField.as_utc_timestamp_ns. cbn [FixField.value].
  set (l := time_text (mk_date y m d) h mi s fraction).
  set (tail := match fraction with [] => [] | _ => 46 :: fraction end) in l.
  assert (Hl : (size l <? 17) = false).
  { apply Z.ltb_ge. unfold l, time_text, size. cbn. lia. }
  assert (H8 : at_index l 8 = Returns 45) by (by apply (at_index_app (four y ++ two m ++ two d))).
  assert (H11 : at_index l 11 = Returns 58).
  { apply (at_index_app ((four y ++ two m ++ two d) ++ [45] ++ two h) 58 (two mi ++ [58] ++ two s ++ tail)). done. }
  assert (H14 : at_index l 14 = Returns 58).
  { apply (at_index_app ((four y ++ two m ++ two d) ++ [45] ++ two h ++ [58] ++ two mi) 58 (two s ++ tail)). done. }
  rewrite Hl, H8, H11, H14. cbn [obind Z.eqb Pos.eqb negb orb].
  assert (Hat : ∀ pre ds n post, all_digits ds → number_of ds = n → l = pre ++ ds ++ post →
    FixField.two_or_four_digits (FixField.mk tag l) (size pre) (length ds) = Returns n)
    by (intros; by eapply digits_at).
  pose proof (Hat [] (four y) y _ Dy Ny eq_refl) as E0.
  pose proof (Hat (four y) (two m) m _ Dm Nm eq_refl) as E4.
  pose proof (Hat (four y ++ two m) (two d) d _ Dd Nd eq_refl) as E6.
  pose proof (Hat (four y ++ two m ++ two d ++ [45]) (two h) h _ Dh Nh eq_refl) as E9.
  pose proof (Hat (four y ++ two m ++ two d ++ [45] ++ two h ++ [58]) (two mi) mi _ Di Ni eq_refl) as E12.
  pose proof (Hat (four y ++ two m ++ two d ++ [45] ++ two h ++ [58] ++ two mi ++ [58]) (two s) s tail Ds Ns eq_refl) as E15.
  change (FixField.two_or_four_digits (FixField.mk tag l) 0 4 = Returns y) in E0.
  change (FixField.two_or_four_digits (FixField.mk tag l) 4 2 = Returns m) in E4.
  change (FixField.two_or_four_digits (FixField.mk tag l) 6 2 = Returns d) in E6.
  change (FixField.two_or_four_digits (FixField.mk tag l) 9 2 = Returns h) in E9.
  change (FixField.two_or_four_digits (FixField.mk tag l) 12 2 = Returns mi) in E12.
  change (FixField.two_or_four_digits (FixField.mk tag l) 15 2 = Returns s) in E15.
  rewrite E0, E4, E6, E9, E12, E15. cbn [obind].
  assert (Hfr : FixField.fractional_nanoseconds (FixField.mk tag l) = fraction_ns fraction).
  { unfold FixField.fractional_nanoseconds, l, tail. destruct fraction as [|c fs]; [done|].
    change (FixField.fraction_loop (c :: fs) 9 0 = fraction_ns (c :: fs)). by rewrite fraction_loop_reads. }
  rewrite Hfr. cbn [FixField.value]. clear - Hy Hm Hd Hh Hmi Hs H.
  rewrite (proj2 (Z.ltb_ge y 0)), (proj2 (Z.ltb_ge m 1)), (proj2 (Z.ltb_ge 12 m)), (proj2 (Z.ltb_ge d 1)),
    (proj2 (Z.ltb_ge 31 d)), (proj2 (Z.ltb_ge h 0)), (proj2 (Z.ltb_ge 23 h)), (proj2 (Z.ltb_ge mi 0)),
    (proj2 (Z.ltb_ge 59 mi)), (proj2 (Z.ltb_ge s 0)), (proj2 (Z.ltb_ge 60 s)) by lia. done.
Qed.

Lemma days_bound y m d :
  valid (mk_date y m d) → 1678 ≤ y ≤ 2261 → -106700 ≤ FixField.days_from_civil y m d ≤ 106700.
Proof.
  intros Hv Hy. pose proof (date_checked_valid _ _ _ Hv) as Hc. unfold date_checked in Hc. bool_to_prop.
  destruct Hv as [Hm Hd]. cbn [year month day] in *. pose proof (days_in_month_le y m).
  unfold FixField.days_from_civil. fold (march_month m). fold (march_day m d).
  assert (Hq : if 2 <? m then march_day m d ≤ 306 else 306 ≤ march_day m d).
  { unfold march_day, march_month. destruct (Z.ltb_spec 2 m); Z.to_euclidean_division_equations; lia. }
  destruct (Z.ltb_spec 2 m), (Z.leb_spec m 2); try lia; rewrite (proj2 (Z.leb_le 0 _)) by lia;
    Z.to_euclidean_division_equations; lia.
Qed.

Lemma fraction_ns_range l : all_digits l → 0 ≤ fraction_ns l < 1000000000.
Proof.
  intros Hl. unfold fraction_ns. pose proof (number_of_range (take 9 l) (Forall_take _ _ _ Hl)) as Hr.
  replace (size (take 9 l)) with (Z.min 9 (size l)) in Hr by (unfold size; rewrite length_take; lia).
  pose proof (size_nonneg l). set (k := Z.min 9 (size l)) in *.
  assert (10 ^ k * 10 ^ (9 - k) = 10 ^ 9) by (rewrite <- Z.pow_add_r by lia; f_equal; lia).
  assert (0 < 10 ^ (9 - k)) by lia. change 1000000000 with (10 ^ 9). nia.
Qed.

Lemma int64_fits z : - 2 ^ 63 ≤ z < 2 ^ 63 → int64 z = Returns z.
Proof. intros Hz. unfold int64. by rewrite (proj2 (Z.leb_le _ _)), (proj2 (Z.ltb_lt _ _)) by lia. Qed.

(** C28: The text of a UTC time, "YYYYMMDD-HH:MM:SS" with or without a fraction of
    any number of digits, is read as the moment it names: the nanoseconds into
    its day are those of its hours, minutes, seconds and first nine digits, and
    its trading date is the date in the text.  This is so in the years whose
    nanoseconds fit 64 bits. *)
Theorem utc_time_is_read_as_its_moment (d : date) (h mi s : Z) (fraction : list Z) (tag fallback : Z) :
  valid d → 1678 ≤ year d ≤ 2261 → 0 ≤ h ≤ 23 → 0 ≤ mi ≤ 59 → 0 ≤ s ≤ 59 → all_digits fraction →
  ∃ ns, FixField.as_utc_timestamp_ns (FixField.mk tag (time_text d h mi s fraction)) fallback = Returns ns ∧
    ns mod nanoseconds_per_day = (h * 3600 + mi * 60 + s) * 1000000000 + fraction_ns fraction ∧
    trading_date_of ns = year d * 10000 + month d * 100 + day d.
Proof.
  intros Hv Hy Hh Hmi Hs Hf. rewrite time_text_read by (done || lia). destruct d as [y m d]. cbn [year month day] in *.
  pose proof (days_bound y m d Hv Hy). pose proof (fraction_ns_range _ Hf).
  set (days := FixField.days_from_civil y m d) in *. set (fr := fraction_ns fraction) in *.
  rewrite int64_fits by lia. cbn [obind]. rewrite int64_fits by lia.
  set (ns := (days * 86400 + h * 3600 + mi * 60 + s) * 1000000000 + fr).
  assert (Hns : ns = (h * 3600 + mi * 60 + s) * 1000000000 + fr + days * nanoseconds_per_day)
    by (unfold ns, nanoseconds_per_day; lia).
  exists ns. split_and!; [done| |].
  - rewrite Hns, Z.mod_add, Z.mod_small by (unfold nanoseconds_per_day; lia). done.
  - unfold trading_date_of. assert (days_of ns = days) as ->.
    { unfold days_of. rewrite Hns. unfold nanoseconds_per_day.
      destruct (Z.ltb_spec (Z.rem ((h * 3600 + mi * 60 + s) * 1000000000 + fr + days * 86400000000000) 86400000000000) 0);
        Z.to_euclidean_division_equations; lia. }
    unfold days. by rewrite civil_of_days.
Qed.

Lemma utc_time_is_read_as_its_moment_witness :
  time_text (mk_date 2026 3 14) 9 30 15 (text "25") = text "20260314-09:30:15.25" ∧
  ∃ ns, FixField.as_utc_timestamp_ns (FixField.mk 52 (text "20260314-09:30:15.25")) 0 = Returns ns ∧
    ns mod nanoseconds_per_day = 34215250000000 ∧ trading_date_of ns = 20260314.
Proof.
  split; [reflexivity|].
  apply (utc_time_is_read_as_its_moment (mk_date 2026 3 14) 9 30 15 (text "25") 52 0); cbn;
    [unfold valid; cbn; lia|lia..|repeat constructor].
Defined.

(** Three values that conform to their formats and leave the range of the type
    they are read in: a decimal of nineteen digits, and a time past the year 2262
    or before 1677. *)
Lemma long_decimal_overflows :
  FixField.as_decimal (FixField.mk 38 (text "9223372036854775808")) = Throws UndefinedBehaviour.
Proof. reflexivity. Qed.

Lemma late_time_overflows :
  FixField.as_utc_timestamp_ns (FixField.mk 126 (text "23000101-00:00:00")) 0 = Throws UndefinedBehaviour.
Proof. reflexivity. Qed.
