(* ===== verification/FixMessageTheorems.v ===== *)
(** What is written as a FIX message is read back, and what a reader makes of any
    bytes: FixMessage.v. *)

From Stdlib Require Import String Ascii.
From S2P Require Import Prelude.
From S2P Require Import WalEntry.
From S2P Require Import ByteArena.
From S2P Require Import PduFramingTheorems.
From S2P Require Import FixField.
From S2P Require Import FixFieldTheorems.
From S2P Require Import FixMessage.
#[local] Open Scope Z_scope.
#[local] Open Scope venue_scope.

(** ** The writer *)

Import FixMessageWriter.

Section writer.
Context (begin_string : list Z) (capacity : Z).

Definition body_at : Z := size begin_string + header_reserve_slack.

(** The body written so far, or [None] once there was no room. *)
Definition holds (w : t) (b : option (list Z)) : Prop :=
  size (buffer_ w) = capacity ∧ capacity_ w = capacity ∧ begin_string_ w = begin_string ∧
  body_start_ w = body_at ∧
  match b with
  | Some body =>
      length_ w = body_at + size body ∧ length_ w ≤ capacity ∧ overflow_ w = false ∧
      slice (buffer_ w) body_at (size body) = body
  | None => 0 ≤ length_ w ∧ overflow_ w = true
  end.

Definition extend (b : option (list Z)) (bytes : list Z) : option (list Z) :=
  match b with
  | Some body => if body_at + size body + size bytes <=? capacity then Some (body ++ bytes) else None
  | None => None
  end.

Lemma extend_app b xs ys : extend (extend b xs) ys = extend b (xs ++ ys).
Proof.
  destruct b as [body|]; [|done]. cbn. rewrite size_app. pose proof (size_nonneg ys).
  destruct (Z.leb_spec (body_at + size body + size xs) capacity); cbn.
  - rewrite size_app, app_assoc. repeat case_if; bool_to_prop; try done; lia.
  - rewrite (proj2 (Z.leb_gt _ _)) by lia. done.
Qed.

Lemma store_eq w p bytes :
  0 ≤ p → p + size bytes ≤ size (buffer_ w) →
  store p bytes w = (mk (splice (buffer_ w) p bytes) (capacity_ w) (begin_string_ w) (body_start_ w)
                       (length_ w) (overflow_ w), Returns ()).
Proof. intros H1 H2. unfold store. by rewrite (proj2 (Z.leb_le _ _) H1), (proj2 (Z.leb_le _ _) H2). Qed.

Lemma body_at_nonneg : 0 ≤ body_at.
Proof. unfold body_at, header_reserve_slack. pose proof (size_nonneg begin_string). lia. Qed.

Lemma write_bytes_holds w b v :
  holds w b → returns (write_bytes v) w (λ w' _, holds w' (extend b v)).
Proof.
  intros (Hs & Hc & Hb & Hbs & Hw). pose proof (size_nonneg v). pose proof body_at_nonneg.
  unfold write_bytes. apply returns_bind. eapply returns_eq; [reflexivity|]. rewrite Hc.
  destruct (Z.ltb_spec capacity (length_ w + size v)) as [Hlt|Hle].
  - eapply returns_eq; [reflexivity|]. destruct b as [body|]; cbn; [|by destruct Hw].
    destruct Hw as (Hl & ? & ?). rewrite (proj2 (Z.leb_gt _ _)) by lia. split_and!; cbn; try done.
    pose proof (size_nonneg body). lia.
  - assert (0 ≤ length_ w).
    { destruct b as [body|]; [|by destruct Hw]. pose proof (size_nonneg body). lia. }
    apply returns_bind. eapply returns_eq; [apply store_eq; lia|].
    eapply returns_eq; [reflexivity|]. unfold holds. cbn.
    rewrite size_splice by lia. destruct b as [body|]; cbn.
    + destruct Hw as (Hl & _ & Ho & Hsl). pose proof (size_nonneg body).
      rewrite (proj2 (Z.leb_le _ _)) by lia. split_and!; try done; [rewrite size_app; lia|].
      rewrite size_app, (slice_split _ _ _ (size body)), slice_splice_other, Hsl by lia. f_equal.
      rewrite <- Hl, Z.add_simpl_l. apply slice_splice_same; lia.
    + split_and!; try done; [lia|by destruct Hw].
Qed.

Lemma write_byte_holds w b c :
  holds w b → returns (write_byte c) w (λ w' _, holds w' (extend b [c])).
Proof. apply (write_bytes_holds w b [c]). Qed.

Definition field_bytes (f : FixField.t) : list Z :=
  to_chars (FixField.tag f) ++ [61] ++ FixField.value f ++ [soh].

Definition int_tag (f : FixField.t) : Prop := - 2 ^ 31 ≤ FixField.tag f < 2 ^ 31.

Lemma push_back_field_holds w b f :
  int_tag f → holds w b →
  returns (push_back_field (FixField.tag f) (FixField.value f)) w
    (λ w' _, holds w' (extend b (field_bytes f))).
Proof.
  intros Ht Hw. unfold push_back_field, write_int. rewrite to_chars_int by done.
  apply returns_bind. eapply returns_mono; [by apply write_bytes_holds|]. intros w1 [] H1.
  apply returns_bind. eapply returns_mono; [by apply write_byte_holds|].
  intros w2 [] H2.
  apply returns_bind. eapply returns_mono; [by apply write_bytes_holds|]. intros w3 [] H3.
  eapply returns_mono; [by apply write_byte_holds|]. intros w4 [] H4.
  unfold field_bytes. by rewrite <- !extend_app.
Qed.

(** The fields of a body. *)
Fixpoint push_back_fields (fs : list FixField.t) : comp t unit :=
  match fs with
  | [] => mret ()
  | f :: fs => push_back_field (FixField.tag f) (FixField.value f);; push_back_fields fs
  end.

Definition body_of (fs : list FixField.t) : list Z := fs ≫= field_bytes.

Lemma push_back_fields_holds fs : ∀ w b,
  Forall int_tag fs → holds w b →
  returns (push_back_fields fs) w (λ w' _, holds w' (extend b (body_of fs))).
Proof.
  induction fs as [|f fs IH]; intros w b Ht Hw; cbn [push_back_fields].
  - eapply returns_eq; [reflexivity|]. destruct b as [body|]; [|done]. cbn. destruct Hw as (? & ? & ? & ? & Hl & ? & ?).
    rewrite (proj2 (Z.leb_le _ _)) by (unfold size at 2; cbn; lia). by rewrite app_nil_r.
  - inversion Ht; subst. apply returns_bind. eapply returns_mono; [by apply push_back_field_holds|].
    intros w' [] H'. eapply returns_mono; [by apply IH|]. intros w'' [] H''.
    change (body_of (f :: fs)) with (field_bytes f ++ body_of fs). by rewrite <- extend_app.
Qed.
(** *** The whole message *)

Definition header (body : list Z) : list Z :=
  text "8=" ++ begin_string ++ [soh] ++ text "9=" ++ to_chars (size body) ++ [soh].

(** The three digits of a checksum. *)
Definition three (n : Z) : list Z := [48 + (n / 100) mod 10; 48 + (n / 10) mod 10; 48 + n mod 10].

Definition trailer (bytes : list Z) : list Z :=
  text "10=" ++ three (compute_checksum bytes) ++ [soh].

Definition message (body : list Z) : list Z :=
  let front := header body ++ body in front ++ trailer front.

Lemma splice_splice b p xs ys :
  0 ≤ p → p + size xs + size ys ≤ size b →
  splice (splice b p xs) (p + size xs) ys = splice b p (xs ++ ys).
Proof.
  intros Hp Hs. pose proof (size_nonneg xs). pose proof (size_nonneg ys). unfold splice.
  rewrite size_app. unfold size in *.
  replace (Z.to_nat (p + Z.of_nat (length xs)))
    with (length (take (Z.to_nat p) b ++ xs) + 0)%nat
    by (rewrite length_app, length_take; lia).
  rewrite !app_assoc, take_app_add, take_0, app_nil_r, <- !app_assoc. do 3 f_equal.
  rewrite app_assoc, drop_app_ge by (rewrite length_app, length_take; lia).
  rewrite drop_drop. f_equal. rewrite length_app, length_take. lia.
Qed.

(** A run of stores that follow one another. *)
Definition with_buffer (w : t) (b : list Z) : t :=
  mk b (capacity_ w) (begin_string_ w) (body_start_ w) (length_ w) (overflow_ w).

Lemma write_prefix_eq w p bytes :
  0 ≤ p → p + size bytes ≤ size (buffer_ w) →
  write_prefix_bytes p bytes w = (with_buffer w (splice (buffer_ w) p bytes), Returns (p + size bytes)).
Proof. intros H1 H2. unfold write_prefix_bytes. by erewrite bind_returns by (by apply store_eq). Qed.

(** The writer after a run of bytes was appended. *)
Definition after (w : t) (bytes : list Z) : t :=
  set_length (length_ w + size bytes) (with_buffer w (splice (buffer_ w) (length_ w) bytes)).

Lemma after_nil w : after w [] = w.
Proof.
  unfold after, with_buffer, splice, size. cbn [length]. rewrite !Z.add_0_r, app_nil_l, take_drop. by destruct w.
Qed.

Lemma append_byte_after w bytes c :
  0 ≤ length_ w → length_ w + size bytes + 1 ≤ size (buffer_ w) →
  append_byte c (after w bytes) = (after w (bytes ++ [c]), Returns ()).
Proof.
  intros H1 H2. pose proof (size_nonneg bytes). unfold append_byte. erewrite bind_returns by reflexivity.
  erewrite bind_returns
    by (apply store_eq; cbn; rewrite ?size_splice; unfold size in *; cbn [length]; lia).
  cbn. rewrite splice_splice by (unfold size in *; cbn [length]; lia).
  unfold after, with_buffer. cbn. by rewrite size_app, Z.add_assoc.
Qed.

Lemma append_checksum_eq w n :
  0 ≤ length_ w → length_ w + 7 ≤ capacity_ w → size (buffer_ w) = capacity_ w →
  append_checksum n w = (after w (text "10=" ++ three n ++ [soh]), Returns true).
Proof.
  intros H0 H7 Hs. unfold append_checksum. erewrite bind_returns by reflexivity.
  rewrite (proj2 (Z.ltb_ge _ _)) by lia. rewrite <- (after_nil w) at 1.
  do 7 (erewrite bind_returns; [|apply append_byte_after; [done|unfold size in *; cbn [length app]; lia]]).
  done.
Qed.

Lemma size_message body : size (message body) = size (header body) + size body + 7.
Proof. unfold message. by rewrite !size_app. Qed.

Lemma size_header_of body :
  size (header body) = size begin_string + 6 + size (to_chars (size body)).
Proof. unfold header. rewrite !size_app. change (size (text "8=")) with 2. change (size (text "9=")) with 2. change (size [soh]) with 1. lia. Qed.

(** A store that follows another in the prefix makes one store of the two. *)
Lemma write_prefix_after w p xs ys :
  0 ≤ p → p + size xs + size ys ≤ size (buffer_ w) →
  write_prefix_bytes (p + size xs) ys (with_buffer w (splice (buffer_ w) p xs))
  = (with_buffer w (splice (buffer_ w) p (xs ++ ys)), Returns (p + size (xs ++ ys))).
Proof.
  intros H1 H2. pose proof (size_nonneg xs). pose proof (size_nonneg ys).
  rewrite write_prefix_eq by (cbn; rewrite ?size_splice; lia). cbn.
  rewrite splice_splice, size_app, Z.add_assoc by lia. done.
Qed.

Lemma header_fits_prefix body :
  0 ≤ size body < 10 ^ 10 → to_chars_in 16 (size body) = Some (to_chars (size body)) ∧
  size (header body) ≤ body_at.
Proof.
  intros Hb. rewrite size_header_of. unfold body_at, header_reserve_slack, to_chars_in, to_chars.
  rewrite (proj2 (Z.ltb_ge _ _)) by lia. destruct (digits_spec (size body)) as (_ & _ & _ & Hs); [lia|].
  specialize (Hs 10 ltac:(lia) ltac:(lia)). split; [|lia]. by rewrite (proj2 (Z.leb_le _ _)) by lia.
Qed.

Lemma finish_eq w body :
  holds w (Some body) → capacity < 10 ^ 10 →
  returns finish w (λ w' view,
    if length_ w + 7 <=? capacity then view = message body else view = []).
Proof.
  intros (Hs & Hc & Hb & Hbs & Hl & Hle & Ho & Hsl) Hcap. pose proof (size_nonneg body).
  pose proof body_at_nonneg. destruct (header_fits_prefix body) as [Hd Hh]; [lia|].
  pose proof (size_nonneg (header body)).
  unfold finish. apply returns_bind. eapply returns_eq; [reflexivity|]. rewrite Ho.
  rewrite Hbs, Hl, Z.add_simpl_l, Hd, Hb.
  replace (2 + size begin_string + 1 + 2 + size (to_chars (size body)) + 1) with (size (header body))
    by (rewrite size_header_of; lia).
  rewrite wrap64_small by (unfold body_at, header_reserve_slack in *; pose proof (size_nonneg begin_string); lia).
  set (hs := body_at - size (header body)) in *.
  assert (H8 : size (text "8=") = 2) by done. assert (H9 : size (text "9=") = 2) by done.
  assert (Hsoh : size [soh] = 1) by done. pose proof (size_header_of body) as Hsh.
  pose proof (size_nonneg begin_string). pose proof (size_nonneg (to_chars (size body))).
  apply returns_bind. eapply returns_eq; [apply write_prefix_eq; lia|].
  do 5 (apply returns_bind; eapply returns_eq; [apply write_prefix_after; rewrite ?size_app; lia|]).
  replace ((((((text "8=") ++ begin_string) ++ [soh]) ++ text "9=") ++ to_chars (size body)) ++ [soh])
    with (header body) by (unfold header; by rewrite <- !app_assoc).
  set (w1 := with_buffer w (splice (buffer_ w) hs (header body))).
  assert (Hb1 : buffer_ w1 = splice (buffer_ w) hs (header body)) by done.
  assert (Hs1 : size (buffer_ w1) = capacity) by (rewrite Hb1, size_splice; lia).
  assert (Hfront : slice (buffer_ w1) hs (size (header body ++ body)) = header body ++ body).
  { rewrite Hb1, size_app, (slice_split _ _ _ (size (header body))), slice_splice_same by lia. f_equal.
    replace (size (header body) + size body - size (header body)) with (size body) by lia.
    rewrite slice_splice_other by lia. by replace (hs + size (header body)) with body_at by lia. }
  apply returns_bind. eapply returns_eq; [reflexivity|]. change (length_ w1) with (length_ w).
  replace (length_ w - hs) with (size (header body ++ body)) by (rewrite size_app; lia). rewrite Hfront.
  apply returns_bind. rewrite <- Hl. destruct (Z.leb_spec (length_ w + 7) capacity) as [Hfit|Hno].
  - eapply returns_eq; [apply append_checksum_eq; [change (0 ≤ length_ w)|change (length_ w + 7 ≤ capacity_ w)|rewrite Hs1; change (capacity = capacity_ w)]; lia|].
    eapply returns_eq; [reflexivity|]. unfold after. cbn [length_ buffer_ set_length with_buffer w1].
    fold (with_buffer w (splice (buffer_ w) hs (header body))). fold w1. fold (trailer (header body ++ body)).
    change (splice (buffer_ w) hs (header body)) with (buffer_ w1).
    set (tr := trailer (header body ++ body)). assert (Htr : size tr = 7) by done.
    unfold message. cbn zeta. fold tr.
    replace (length_ w + size tr - hs) with (size (header body ++ body) + size tr) by (rewrite size_app; lia).
    rewrite (slice_split _ _ _ (size (header body ++ body))) by (rewrite ?size_app in *; lia).
    rewrite Z.add_simpl_l, slice_splice_other, Hfront by (rewrite ?size_app in *; lia). f_equal.
    replace (hs + size (header body ++ body)) with (length_ w) by (rewrite size_app; lia).
    apply slice_splice_same; lia.
  - unfold append_checksum. apply returns_bind. eapply returns_eq; [reflexivity|].
    cbn [capacity_ length_ w1 with_buffer]. rewrite Hc, (proj2 (Z.ltb_lt _ _)) by lia.
    apply returns_bind. eapply returns_eq; [reflexivity|]. by eapply returns_eq; [reflexivity|].
Qed.

Definition write_message (fs : list FixField.t) : comp t (list Z) :=
  push_back_fields fs;; finish.

(** The message, if there is room for it, and nothing otherwise. *)
Lemma write_message_spec buffer fs :
  size buffer = capacity → capacity < 10 ^ 10 → Forall int_tag fs →
  returns (write_message fs) (make buffer capacity begin_string) (λ _ view,
    view = if body_at + size (body_of fs) + 7 <=? capacity then message (body_of fs) else []).
Proof.
  intros Hs Hc Ht. pose proof body_at_nonneg. pose proof (size_nonneg (body_of fs)).
  assert (Hmake : holds (make buffer capacity begin_string)
                 (if body_at <=? capacity then Some [] else None)).
  { unfold make. fold body_at. destruct (Z.leb_spec body_at capacity).
    - unfold holds. cbn. rewrite (proj2 (Z.ltb_ge _ _)) by lia. split_and!; try done.
      change (body_at = body_at + 0). lia.
    - unfold holds. cbn. by rewrite (proj2 (Z.ltb_lt _ _)). }
  unfold write_message. apply returns_bind. eapply returns_mono; [by eapply push_back_fields_holds|].
  intros w [] Hw. assert (Hb : extend (if body_at <=? capacity then Some [] else None) (body_of fs)
    = if body_at + size (body_of fs) <=? capacity then Some (body_of fs) else None).
  { destruct (Z.leb_spec body_at capacity); cbn [extend].
    - change (size []) with 0. by rewrite Z.add_0_r.
    - by rewrite (proj2 (Z.leb_gt _ _)) by lia. }
  rewrite Hb in Hw. destruct (Z.leb_spec (body_at + size (body_of fs)) capacity).
  - eapply returns_mono; [by apply finish_eq|]. intros w' view Hv.
    destruct Hw as (_ & _ & _ & _ & Hl & _). rewrite Hl in Hv. by case_if.
  - destruct Hw as (_ & _ & _ & _ & _ & Ho). unfold finish. apply returns_bind.
    eapply returns_eq; [reflexivity|]. rewrite Ho. eapply returns_eq; [reflexivity|].
    by rewrite (proj2 (Z.leb_gt _ _)) by lia.
Qed.
End writer.

(** ** Framing *)

Import FixMessageReader.

Lemma index_of_app target xs ys at_ :
  target ∉ xs → index_of target (xs ++ target :: ys) at_ = Some (at_ + size xs).
Proof.
  revert at_. induction xs as [|x xs IH]; intros at_ Hn; cbn.
  - rewrite Z.eqb_refl. f_equal. change (at_ = at_ + 0). lia.
  - rewrite not_elem_of_cons in Hn. destruct Hn as [Hx Hn].
    rewrite (proj2 (Z.eqb_neq _ _)) by done. rewrite IH by done. f_equal. unfold size. cbn [length]. lia.
Qed.

Lemma drop_size (pre xs : list Z) : drop (Z.to_nat (size pre)) (pre ++ xs) = xs.
Proof. unfold size. rewrite Nat2Z.id. apply drop_app_length. Qed.

Lemma find_delimiter_at w pre xs ys from :
  w = pre ++ xs ++ soh :: ys → from = size pre → soh ∉ xs → find_delimiter w from = Some (from + size xs).
Proof. intros -> -> Hn. unfold find_delimiter. rewrite drop_size. by apply index_of_app. Qed.

Lemma begins_at_ok w pre s post p : w = pre ++ s ++ post → p = size pre → begins_at w p s = true.
Proof. intros -> ->. unfold begins_at. apply bool_decide_eq_true_2. by apply slice_at. Qed.

Lemma three_digits n : 0 ≤ n < 1000 → all_digits (three n) ∧ number_of (three n) = n.
Proof.
  intros Hn. assert (0 ≤ n / 100 < 10) by (split; [apply Z.div_pos|apply Z.div_lt_upper_bound]; lia).
  unfold three. rewrite (Z.mod_small (n / 100)) by lia.
  pose proof (Z.mod_pos_bound (n / 10) 10 ltac:(lia)). pose proof (Z.mod_pos_bound n 10 ltac:(lia)).
  split; [repeat constructor; apply is_digit_range; lia|]. unfold number_of. cbn [foldl].
  Z.to_euclidean_division_equations. lia.
Qed.

Lemma checksum_of_three m : checksum_matches m (three (compute_checksum m)) = true.
Proof.
  pose proof (compute_checksum_range m). destruct (three_digits (compute_checksum m)) as [Hd Hn]; [lia|].
  unfold checksum_matches. change (size (three _)) with 3. cbn [Z.eqb Pos.eqb negb].
  rewrite from_chars_digits by first [done|rewrite Hn; lia]. rewrite Hn. change (size (three _)) with 3. cbn [Z.eqb Pos.eqb andb]. apply Z.eqb_refl.
Qed.

Lemma digits_no_soh n : 0 ≤ n < 10 ^ 20 → soh ∉ to_chars n.
Proof. intros Hn Hc. apply to_chars_plain in Hc; [|lia]. unfold soh in Hc. lia. Qed.

(** A message is framed as it is, whatever follows it. *)
Lemma frame_message begin_string body rest :
  soh ∉ begin_string → 0 < size body < 2 ^ 31 →
  frame (message begin_string body ++ rest)
  = mk (message begin_string body ++ rest) (message begin_string body) Valid "".
Proof.
  intros Hb Hbody. set (w := message begin_string body ++ rest).
  set (ds := to_chars (size body)). set (front := header begin_string body ++ body).
  set (cs := three (compute_checksum front)).
  assert (Hds : soh ∉ ds) by (apply digits_no_soh; lia).
  assert (Hw : w = text "8=" ++ begin_string ++ soh :: text "9=" ++ ds ++ soh :: body ++ text "10=" ++ cs ++ soh :: rest).
  { unfold w, message, trailer. fold front. cbn zeta. fold cs. unfold front, header. fold ds.
    rewrite <- !app_assoc. done. }
  set (p8 := text "8=" ++ begin_string). set (p9 := p8 ++ [soh]).
  set (p10 := p9 ++ text "9=" ++ ds ++ [soh] ++ body).
  assert (Hp8 : size p8 = 2 + size begin_string) by (unfold p8; by rewrite size_app).
  assert (Hp9 : size p9 = size p8 + 1) by (unfold p9; by rewrite size_app).
  assert (Hp10 : size p10 = size p9 + 2 + size ds + 1 + size body).
  { unfold p10. rewrite !size_app. change (size (text "9=")) with 2. change (size [soh]) with 1. lia. }
  assert (H10 : p10 = front) by (unfold p10, p9, p8, front, header; by rewrite <- !app_assoc).
  assert (Hsw : size w = size p10 + 7 + size rest).
  { unfold w, message. fold front. cbn zeta. rewrite <- H10, !size_app. change (size (trailer p10)) with 7. lia. }
  pose proof (size_nonneg begin_string). pose proof (size_nonneg rest). pose proof (size_nonneg ds).
  unfold frame. rewrite (proj2 (Z.ltb_ge _ _)) by lia.
  rewrite (begins_at_ok w [] (text "8=") _ 0 Hw eq_refl). cbn [negb].
  rewrite (find_delimiter_at w [] p8 (text "9=" ++ ds ++ soh :: body ++ text "10=" ++ cs ++ soh :: rest) 0);
    [|by rewrite Hw; unfold p8; rewrite <- !app_assoc|done|].
  2:{ unfold p8. rewrite elem_of_app. intros [H8|H8]; [|done]. by vm_compute in H8; set_solver. }
  rewrite Z.add_0_l, <- Hp9, (proj2 (Z.ltb_ge _ _)) by lia.
  assert (Hw9 : w = p9 ++ text "9=" ++ ds ++ soh :: body ++ text "10=" ++ cs ++ soh :: rest)
    by (rewrite Hw; unfold p9, p8; by rewrite <- !app_assoc).
  rewrite (begins_at_ok w p9 (text "9=") _ _ Hw9 eq_refl). cbn [negb].
  rewrite (find_delimiter_at w p9 (text "9=" ++ ds) (body ++ text "10=" ++ cs ++ soh :: rest) (size p9));
    [|by rewrite Hw9, <- !app_assoc|done|].
  2:{ rewrite elem_of_app. intros [H9|H9]; [|done]. by vm_compute in H9; set_solver. }
  assert (Hds' : slice w (size p9 + 2) (size p9 + size (text "9=" ++ ds) - size p9 - 2) = ds).
  { rewrite Hw9, (app_assoc p9). apply slice_at; rewrite size_app; [done|]. change (size (text "9=")) with 2. lia. }
  rewrite Hds'. unfold parse_int, ds. rewrite !parse_to_chars by lia. rewrite Z.eqb_refl. cbn [negb]. fold ds.
  rewrite (proj2 (Z.leb_gt _ _)) by lia. unfold frame_checksum.
  replace (size p9 + size (text "9=" ++ ds) + 1 + size body) with (size p10)
    by (rewrite size_app; change (size (text "9=")) with 2; lia).
  rewrite (proj2 (Z.ltb_ge _ _)) by lia.
  assert (Hw10 : w = p10 ++ text "10=" ++ cs ++ soh :: rest)
    by (rewrite Hw9; unfold p10; by rewrite <- !app_assoc).
  rewrite (begins_at_ok w p10 (text "10=") _ _ Hw10 eq_refl). cbn [negb].
  destruct (three_digits (compute_checksum front)) as [Hcs _]; [pose proof (compute_checksum_range front); lia|].
  fold cs in Hcs.
  rewrite (find_delimiter_at w p10 (text "10=" ++ cs) rest (size p10));
    [|by rewrite Hw10, <- !app_assoc|done|].
  2:{ rewrite elem_of_app. intros [Ha|Ha]; [by vm_compute in Ha; set_solver|].
      unfold all_digits in Hcs. rewrite Forall_forall in Hcs. by discriminate (Hcs _ Ha). }
  change (size (text "10=" ++ cs)) with 6.
  assert (Hin : slice w 0 (size p10) = front) by (rewrite Hw10, H10; by apply slice_head).
  assert (Hrec : slice w (size p10 + 3) (size p10 + 6 - size p10 - 3) = cs).
  { rewrite Hw10, (app_assoc p10). apply slice_at; rewrite ?size_app; [done|]. change (size cs) with 3. lia. }
  rewrite Hin, Hrec, checksum_of_three. f_equal. unfold w. apply slice_head.
  unfold message. fold front. cbn zeta. rewrite size_app, <- H10. change (size (trailer p10)) with 7. lia.
Qed.

(** ** Fields *)

Section fields_read.
Context `{!DataLengths}.

(** How long the field after [f] says it is, when [f] is a length. *)
Definition pending_of (f : FixField.t) : Z :=
  if negb (FixField.tag f =? 0) && is_data_length_tag (FixField.tag f)
  then wrap64 (FixField.as_int f 0) else 0.

(** Fields that can be told apart on the wire: a value has no separator in it,
    unless the field before says how long it is. *)
Fixpoint readable (pending : Z) (fs : list FixField.t) : Prop :=
  match fs with
  | [] => pending = 0
  | f :: fs =>
      int_tag f ∧ (if pending =? 0 then soh ∉ FixField.value f else size (FixField.value f) = pending) ∧
      readable (pending_of f) fs
  end.

(** A search that stays in the bytes finds what a search of the slice does. *)
Lemma find_char_loop_spec turns : ∀ bytes cursor target,
  0 ≤ cursor → cursor + Z.of_nat turns ≤ size bytes →
  find_char_loop turns bytes cursor target = Returns (index_of target (slice bytes cursor (Z.of_nat turns)) cursor).
Proof.
  induction turns as [|turns IH]; intros bytes cursor target Hc Hs; [done|]. cbn [find_char_loop].
  destruct (bytes !! Z.to_nat cursor) as [c|] eqn:Hl.
  2:{ apply lookup_ge_None in Hl. unfold size in Hs. lia. }
  rewrite (at_index_ok _ _ _ Hc Hl). cbn [obind]. unfold slice. rewrite (drop_S _ _ _ Hl), Nat2Z.id. cbn [take index_of].
  destruct (c =? target); [done|]. rewrite IH by lia. unfold slice. rewrite Nat2Z.id. by replace (Z.to_nat (cursor + 1)) with (S (Z.to_nat cursor)) by lia.
Qed.

Lemma find_char_spec bytes first last target :
  0 ≤ first ≤ last → last ≤ size bytes →
  find_char bytes first last target = Returns (index_of target (slice bytes first (last - first)) first).
Proof. intros Hf Hl. unfold find_char. rewrite find_char_loop_spec by lia. by rewrite Z2Nat.id by lia. Qed.

Lemma view_spec bytes first count :
  0 ≤ first → 0 ≤ count → first + count ≤ size bytes → view bytes first count = Returns (slice bytes first count).
Proof. intros. unfold view. by rewrite !(proj2 (Z.leb_le _ _)) by lia. Qed.

Lemma find_char_at bytes pre xs target ys from :
  bytes = pre ++ xs ++ target :: ys → from = size pre → target ∉ xs →
  find_char bytes from (size bytes) target = Returns (Some (from + size xs)).
Proof.
  intros -> -> Hn. pose proof (size_nonneg pre). pose proof (size_nonneg (xs ++ target :: ys)).
  rewrite find_char_spec by (rewrite ?(size_app pre); lia). unfold slice. rewrite drop_size, size_app, Z.add_simpl_l.
  unfold size at 1. rewrite Nat2Z.id, firstn_all. f_equal. by apply index_of_app.
Qed.

Lemma size_field_bytes f :
  size (field_bytes f) = size (to_chars (FixField.tag f)) + 1 + size (FixField.value f) + 1.
Proof.
  unfold field_bytes. rewrite !size_app. change (size [61]) with 1. change (size [soh]) with 1. lia.
Qed.

Lemma parse_field_bytes bytes pre f post pending :
  bytes = pre ++ field_bytes f ++ post → size bytes < 2 ^ 62 → int_tag f →
  (if pending =? 0 then soh ∉ FixField.value f else size (FixField.value f) = pending) →
  parse bytes (size pre) pending
  = Returns (mk_iterator (size pre) (size (pre ++ field_bytes f)) (pending_of f) f).
Proof.
  intros Hb Hsz Ht Hv. destruct f as [tag v]. cbn [FixField.tag FixField.value] in *.
  assert (Htag : - 2 ^ 31 ≤ tag < 2 ^ 31) by done.
  pose proof (size_field_bytes (FixField.mk tag v)) as Hf. cbn [FixField.tag FixField.value] in Hf.
  assert (Hsb : size bytes = size pre + size (field_bytes (FixField.mk tag v)) + size post)
    by (rewrite Hb, !size_app; lia).
  pose proof (size_nonneg pre). pose proof (size_nonneg post). pose proof (size_nonneg v).
  pose proof (size_nonneg (to_chars tag)).
  set (tt := to_chars tag) in *. assert (Hb' : bytes = pre ++ tt ++ 61 :: v ++ soh :: post).
  { rewrite Hb. unfold field_bytes. cbn [FixField.tag FixField.value]. fold tt. by rewrite <- !app_assoc. }
  unfold parse. rewrite (proj2 (Z.leb_gt _ _)) by lia.
  rewrite (find_char_at bytes pre tt 61 (v ++ soh :: post)); [|done|done|].
  2:{ intros Hc. apply to_chars_plain in Hc; lia. }
  set (vs := size pre + size tt + 1).
  assert (Hvs : vs = size (pre ++ tt ++ [61])) by (unfold vs; rewrite !size_app; change (size [61]) with 1; lia).
  assert (Hbv : bytes = (pre ++ tt ++ [61]) ++ v ++ soh :: post) by (rewrite Hb', <- !app_assoc; done).
  assert (Hend : (if (0 <? pending) && (after_data vs pending <=? size bytes)
                  then Returns (Some (after_data vs pending))
                  else find_char bytes vs (size bytes) soh) = Returns (Some (vs + size v))).
  { destruct (Z.eqb_spec pending 0) as [->|Hp].
    - change (0 <? 0) with false. cbn [andb]. by apply (find_char_at bytes (pre ++ tt ++ [61]) v soh post).
    - subst pending. rewrite (proj2 (Z.ltb_lt 0 _)) by lia. unfold after_data.
      rewrite (proj2 (Z.ltb_lt _ _)) by lia. rewrite (proj2 (Z.leb_le _ _)) by lia. done. }
  assert (Htt : slice bytes (size pre) (size pre + size tt - size pre) = tt).
  { rewrite Hb'. apply slice_at; [done|lia]. }
  assert (Hvv : slice bytes vs (vs + size v - vs) = v).
  { rewrite Hbv. apply slice_at; [done|lia]. }
  cbn [obind]. rewrite view_spec, Htt by lia. cbn [obind]. fold vs. rewrite Hend. cbn [obind].
  rewrite (proj2 (Z.leb_gt _ _)) by lia. rewrite view_spec, Hvv by lia. cbn [obind]. unfold parse_int, tt. rewrite parse_to_chars by lia.
  f_equal. f_equal. rewrite size_app. lia.
Qed.

Lemma fields_at bytes gs : ∀ pre pending turns,
  bytes = pre ++ body_of gs → size bytes < 2 ^ 62 → readable pending gs → (length gs < turns)%nat →
  (let! it := parse bytes (size pre) pending in fields_from bytes turns it) = Returns gs.
Proof.
  induction gs as [|f gs IH]; intros pre pending turns Hb Hs Hr Ht; (destruct turns as [|turns]; [lia|]).
  - rewrite app_nil_r in Hb. subst bytes. unfold parse. rewrite (proj2 (Z.leb_le _ _)) by lia.
    cbn. unfold at_end. cbn. by rewrite Z.eqb_refl.
  - destruct Hr as (Hi & Hv & Hr). cbn [length] in Ht.
    change (body_of (f :: gs)) with (field_bytes f ++ body_of gs) in Hb.
    rewrite (parse_field_bytes bytes pre f (body_of gs) pending) by done. cbn [obind fields_from].
    unfold at_end. cbn [field_start_].
    assert (Hlt : size pre < size bytes).
    { rewrite Hb, !size_app, size_field_bytes. pose proof (size_nonneg (body_of gs)).
      pose proof (size_nonneg (FixField.value f)). pose proof (size_nonneg (to_chars (FixField.tag f))). lia. }
    rewrite (proj2 (Z.eqb_neq _ _)) by lia. unfold increment. cbn [next_ pending_data_length_ field_].
    specialize (IH (pre ++ field_bytes f) (pending_of f) turns).
    rewrite <- app_assoc in IH. specialize (IH Hb Hs Hr ltac:(lia)).
    destruct (parse bytes (size (pre ++ field_bytes f)) (pending_of f)) as [it|e]; cbn [obind] in *; [|done].
    by rewrite IH.
Qed.

Lemma fields_count gs : (length gs ≤ length (body_of gs))%nat.
Proof.
  induction gs as [|f gs IH]; [done|]. change (body_of (f :: gs)) with (field_bytes f ++ body_of gs).
  pose proof (size_field_bytes f). pose proof (size_nonneg (FixField.value f)).
  pose proof (size_nonneg (to_chars (FixField.tag f))). unfold size in *. rewrite length_app. cbn [length]. lia.
Qed.

Lemma fields_of_body gs :
  size (body_of gs) < 2 ^ 62 → readable 0 gs → fields (body_of gs) = Returns gs.
Proof.
  intros Hs Hr. unfold fields, begin. apply (fields_at _ gs []); [done..|]. pose proof (fields_count gs). lia.
Qed.

(** The fields of a message: the two of the header, those of the body and the checksum. *)
Definition all_fields (begin_string : list Z) (fs : list FixField.t) : list FixField.t :=
  let front := header begin_string (body_of fs) ++ body_of fs in
  FixField.mk 8 begin_string :: FixField.mk 9 (to_chars (size (body_of fs))) :: fs ++
  [FixField.mk 10 (three (compute_checksum front))].

Lemma message_is_fields begin_string fs :
  message begin_string (body_of fs) = body_of (all_fields begin_string fs).
Proof.
  unfold all_fields, message. cbn zeta. set (cs := three _). set (front := header _ _ ++ _).
  change (body_of (FixField.mk 8 begin_string :: FixField.mk 9 (to_chars (size (body_of fs))) :: fs ++ [FixField.mk 10 cs]))
    with (field_bytes (FixField.mk 8 begin_string) ++ field_bytes (FixField.mk 9 (to_chars (size (body_of fs)))) ++
          body_of (fs ++ [FixField.mk 10 cs])).
  assert (Ha : body_of (fs ++ [FixField.mk 10 cs]) = body_of fs ++ body_of [FixField.mk 10 cs]) by apply bind_app.
  rewrite Ha.
  change (field_bytes (FixField.mk 8 begin_string)) with (text "8=" ++ begin_string ++ [soh]).
  change (field_bytes (FixField.mk 9 ?x)) with (text "9=" ++ x ++ [soh]).
  change (body_of [FixField.mk 10 cs]) with (trailer front). unfold front, header.
  rewrite <- !app_assoc. done.
Qed.

Lemma readable_int_tags fs : ∀ p, readable p fs → Forall int_tag fs.
Proof.
  induction fs as [|f fs IH]; intros p; [done|]. intros (Hi & _ & Hr). constructor; [done|by eapply IH].
Qed.

Lemma readable_snoc fs g : ∀ p,
  readable p fs → int_tag g → soh ∉ FixField.value g → pending_of g = 0 → readable p (fs ++ [g]).
Proof.
  induction fs as [|f fs IH]; intros p Hr Hi Hv Hp; cbn in *.
  - subst p. by rewrite Hp.
  - destruct Hr as (? & ? & Hr). split_and!; [done..|]. by apply IH.
Qed.

Lemma pending_plain t v : is_data_length_tag t = false → pending_of (FixField.mk t v) = 0.
Proof. intros Ht. unfold pending_of. cbn [FixField.tag]. by rewrite Ht, andb_false_r. Qed.

Lemma readable_all begin_string fs :
  is_data_length_tag 8 = false → is_data_length_tag 9 = false → is_data_length_tag 10 = false →
  soh ∉ begin_string → size (body_of fs) < 2 ^ 31 → readable 0 fs → readable 0 (all_fields begin_string fs).
Proof.
  intros H8 H9 H10 Hb Hs Hr. pose proof (size_nonneg (body_of fs)).
  unfold all_fields. cbn zeta. set (front := header _ _ ++ _). cbn [readable FixField.value].
  rewrite !pending_plain by done. change (0 =? 0) with true. cbn iota.
  assert (Hi : ∀ t v, - 2 ^ 31 ≤ t < 2 ^ 31 → int_tag (FixField.mk t v)) by done.
  split; [by apply Hi|]. split; [done|]. split; [by apply Hi|]. split; [apply digits_no_soh; lia|].
  apply readable_snoc; [done|by apply Hi| |by apply pending_plain].
  cbn [FixField.value]. intros Hc.
  destruct (three_digits (compute_checksum front)) as [Hcs _]; [pose proof (compute_checksum_range front); lia|].
  unfold all_digits in Hcs. rewrite Forall_forall in Hcs. by discriminate (Hcs _ Hc).
Qed.
End fields_read.

(** A message that fits is read back. *)
Lemma message_reads_back `{!DataLengths} (begin_string : list Z) (fs : list FixField.t) (rest : list Z) :
  is_data_length_tag 8 = false → is_data_length_tag 9 = false → is_data_length_tag 10 = false →
  soh ∉ begin_string → fs ≠ [] → readable 0 fs → body_at begin_string + size (body_of fs) + 7 < 2 ^ 31 →
  let view := message begin_string (body_of fs) in
  let r := frame (view ++ rest) in
  status_ r = Valid ∧ message_bytes_ r = view ∧ error r = None ∧
  fields view = Returns (all_fields begin_string fs).
Proof.
  intros H8 H9 H10 Hb Hne Hr Hfit. pose proof (body_at_nonneg begin_string).
  assert (0 < size (body_of fs)).
  { destruct fs as [|f fs]; [done|]. pose proof (fields_count (f :: fs)). unfold size. cbn [length] in *. lia. }
  cbn zeta. rewrite frame_message by (done || lia). cbn [status_ message_bytes_]. split_and!; [done..|].
  destruct (header_fits_prefix begin_string (body_of fs)) as [_ Hh]; [lia|].
  pose proof (size_message begin_string (body_of fs)) as Hm. rewrite message_is_fields in *.
  apply fields_of_body; [lia|]. apply readable_all; (done || lia).
Qed.

(** C21: The fields a caller writes are the fields a reader finds, in their order
    and with their bytes, between the header and the checksum that [finish] adds,
    whatever follows the message in the window; a value may hold the separator
    when the field before it says how long it is.  The writer stores nothing
    outside its buffer, and when there is no room for the message it returns no
    part of it. *)
Theorem written_message_reads_back `{!DataLengths} (buffer begin_string : list Z) (capacity : Z)
    (fs : list FixField.t) (rest : list Z) :
  is_data_length_tag 8 = false → is_data_length_tag 9 = false → is_data_length_tag 10 = false →
  soh ∉ begin_string → fs ≠ [] → readable 0 fs → size buffer = capacity → capacity < 2 ^ 31 →
  returns (write_message fs) (make buffer capacity begin_string) (λ _ view,
    if body_at begin_string + size (body_of fs) + 7 <=? capacity then
      let r := frame (view ++ rest) in
      status_ r = Valid ∧ message_bytes_ r = view ∧ error r = None ∧
      fields view = Returns (all_fields begin_string fs)
    else view = []).
Proof.
  intros H8 H9 H10 Hb Hne Hr Hs Hc.
  eapply returns_mono; [apply write_message_spec; [done|lia|by eapply readable_int_tags]|].
  intros w view ->. destruct (Z.leb_spec (body_at begin_string + size (body_of fs) + 7) capacity); [|done].
  apply message_reads_back; (done || lia).
Qed.

(** A message with a field of raw data in it. *)
Module RawData.

#[export] Instance lengths : DataLengths := λ tag, tag =? 95.

Definition body : list FixField.t :=
  [FixField.mk 35 (text "A"); FixField.mk 34 (text "7"); FixField.mk 95 (text "3"); FixField.mk 96 [1; 61; 1]].

End RawData.

(** Fields with known bytes are [readable] by evaluation. *)
Ltac by_evaluation :=
  lazymatch goal with
  | |- readable _ [] => reflexivity
  | |- readable _ (_ :: _) =>
      split; [unfold int_tag; cbn [FixField.tag]; lia|split; [by_evaluation|]]; by_evaluation
  | |- if ?b then _ else _ => let v := eval vm_compute in b in change b with v; cbn iota; by_evaluation
  | |- _ ∉ _ => apply (bool_decide_eq_false_1 _); reflexivity
  | |- readable _ ?l => let l' := eval hnf in l in change l with l'; by_evaluation
  | |- _ => reflexivity
  end.

Lemma written_message_reads_back_witness :
  returns (write_message RawData.body) (make (zeros 64) 64 (text "FIXT.1.1")) (λ _ view,
    status_ (frame (view ++ text "8=FIX")) = Valid ∧
    @fields RawData.lengths view = Returns (all_fields (text "FIXT.1.1") RawData.body)).
Proof.
  eapply returns_mono.
  - apply (@written_message_reads_back RawData.lengths (zeros 64) (text "FIXT.1.1") 64 RawData.body
      (text "8=FIX")); try reflexivity; try done.
    + apply (bool_decide_eq_false_1 _). reflexivity.
    + by_evaluation.
  - intros w view Hv. change (body_at (text "FIXT.1.1") + size (body_of RawData.body) + 7 <=? 64) with true in Hv.
    destruct Hv as (H1 & _ & _ & H4). by split.
Defined.

(** ** Any bytes *)

Section any_bytes.
Context `{!DataLengths} (bytes : list Z).

(** The iterators that the loop over a message comes to. *)
Inductive visited : const_iterator → Prop :=
  | visited_begin it : begin bytes = Returns it → visited it
  | visited_next it it' :
      visited it → at_end bytes it = false → increment bytes it = Returns it' → visited it'.

(** A field that says that the next one has a negative length. *)
Definition negative_length (f : FixField.t) : Prop :=
  is_data_length_tag (FixField.tag f) = true ∧ FixField.as_int f 0 < 0.

Lemma from_chars_range lo hi l v n : from_chars lo hi l = Some (v, n) → lo ≤ v ≤ hi.
Proof.
  unfold from_chars. destruct (match l with [] => (false, []) | _ => _ end) as [neg rest].
  destruct (_ =? 0); [done|]. destruct (_ && _) eqn:Hb; [|done]. intros [= <- _]. bool_to_prop. lia.
Qed.

Lemma parse_int_range l : - 2 ^ 31 ≤ parse_int l 0 < 2 ^ 31.
Proof.
  unfold parse_int, parse_number. destruct (from_chars _ _ l) as [[v n]|] eqn:Hf; [|lia].
  apply from_chars_range in Hf. destruct (n =? size l); lia.
Qed.

Lemma index_of_range target l at_ k : index_of target l at_ = Some k → at_ ≤ k < at_ + size l.
Proof.
  revert at_. induction l as [|c l IH]; intros at_; cbn; [done|]. unfold size in *. cbn [length].
  destruct (c =? target); [intros [= <-]; lia|]. intros Hk%IH. lia.
Qed.

Lemma find_char_range from target r :
  0 ≤ from ≤ size bytes → find_char bytes from (size bytes) target = r →
  ∃ o, r = Returns o ∧ ∀ k, o = Some k → from ≤ k < size bytes.
Proof.
  intros Hf <-. rewrite find_char_spec by lia. eexists. split; [reflexivity|]. intros k Hk%index_of_range.
  unfold slice, size in Hk |- *. rewrite length_take, length_drop in Hk. lia.
Qed.

(** A view of a part of the bytes. *)
Definition inside (v : list Z) : Prop := ∃ before after, bytes = before ++ v ++ after ∧ after ≠ [].

Lemma slice_inside p n : 0 ≤ p → 0 ≤ n → p + n < size bytes → inside (slice bytes p n).
Proof.
  intros Hp Hn Hs. exists (take (Z.to_nat p) bytes), (drop (Z.to_nat n) (drop (Z.to_nat p) bytes)).
  unfold slice. rewrite !take_drop. split; [done|]. intros He%(f_equal length). unfold size in Hs.
  rewrite !length_drop in He. cbn in He. lia.
Qed.

(** What one step of the iteration does. *)
Lemma parse_any start pending :
  0 ≤ start → 0 ≤ pending →
  match parse bytes start pending with
  | Returns it =>
      at_end bytes it = true ∨
      field_start_ it = start ∧ start < next_ it ≤ size bytes ∧
      pending_data_length_ it = pending_of (field_ it) ∧ inside (FixField.value (field_ it))
  | Throws e => e = UndefinedBehaviour ∧ 2 ^ 63 ≤ pending
  end.
Proof.
  intros Hs Hp. unfold parse. destruct (Z.leb_spec (size bytes) start).
  { left. unfold at_end. cbn. apply Z.eqb_refl. }
  destruct (find_char_range start 61 _ ltac:(lia) eq_refl) as (oe & -> & He). cbn [obind].
  destruct oe as [eq|]; [|left; apply Z.eqb_refl]. specialize (He eq eq_refl).
  rewrite view_spec by lia. cbn [obind].
  set (value_end := if (0 <? pending) && _ then _ else _).
  assert (Hv : ∃ o, value_end = Returns o ∧ ∀ k, o = Some k → eq + 1 ≤ k ∨ 2 ^ 63 ≤ pending).
  { unfold value_end. destruct ((0 <? pending) && _).
    - eexists. split; [reflexivity|]. intros k [= <-]. unfold after_data. destruct (Z.ltb_spec pending (2 ^ 63)); lia.
    - destruct (find_char_range (eq + 1) soh _ ltac:(lia) eq_refl) as (o & -> & Ho). exists o. split; [done|].
      intros k Hk. left. by apply Ho. }
  clearbody value_end. destruct Hv as (ov & -> & Hv). cbn [obind].
  destruct ov as [k|]; [|left; apply Z.eqb_refl]. specialize (Hv k eq_refl).
  destruct (Z.leb_spec (size bytes) k); [left; apply Z.eqb_refl|].
  destruct (Z.lt_ge_cases k (eq + 1)) as [Hneg|Hge].
  { unfold view. rewrite (proj2 (Z.leb_gt 0 (k - _))), andb_false_r by lia. cbn. split; [done|lia]. }
  rewrite view_spec by lia. cbn [obind]. right. cbn [field_start_ next_ pending_data_length_ field_ FixField.value].
  split; [done|]. split; [lia|]. split; [done|]. apply slice_inside; lia.
Qed.

Lemma pending_of_range f : 0 ≤ pending_of f ∧ (2 ^ 63 ≤ pending_of f → negative_length f).
Proof.
  unfold pending_of, negative_length. destruct (negb _ && is_data_length_tag _) eqn:Ht; [|lia].
  apply andb_true_iff in Ht as [_ Ht]. pose proof (parse_int_range (FixField.value f)).
  unfold FixField.as_int, wrap64 in *. split; [apply Z.mod_pos_bound; lia|]. intros Hb. split; [done|].
  destruct (Z.lt_ge_cases (parse_int (FixField.value f) 0) 0); [done|]. rewrite Z.mod_small in Hb; lia.
Qed.

(** What the fields are, or what stops the loop. *)
Definition iterated (r : outcome (list FixField.t)) : Prop :=
  (∃ fs, r = Returns fs ∧ Forall (λ f, inside (FixField.value f)) fs) ∨
  (r = Throws UndefinedBehaviour ∧
   ∃ it, visited it ∧ at_end bytes it = false ∧ negative_length (field_ it)).

Definition good_place (it : const_iterator) : Prop :=
  at_end bytes it = true ∨
  0 ≤ field_start_ it < next_ it ∧ next_ it ≤ size bytes ∧ pending_data_length_ it = pending_of (field_ it) ∧
  inside (FixField.value (field_ it)).

Lemma fields_from_any turns : ∀ it,
  visited it → good_place it → size bytes - field_start_ it < Z.of_nat turns →
  iterated (fields_from bytes turns it).
Proof.
  induction turns as [|turns IH]; intros it Hv Hg Ht; cbn [fields_from].
  - exfalso. destruct Hg as [Hg|Hg]; [unfold at_end in Hg; bool_to_prop|]; lia.
  - destruct (at_end bytes it) eqn:He; [left; by exists []|].
    destruct Hg as [Hg|(Hg1 & Hg2 & Hg3 & Hg4)]; [congruence|].
    destruct (pending_of_range (field_ it)) as [Hp Hneg]. rewrite <- Hg3 in Hp, Hneg.
    pose proof (parse_any (next_ it) (pending_data_length_ it) ltac:(lia) Hp) as Hpar.
    unfold increment. destruct (parse bytes (next_ it) (pending_data_length_ it)) as [it'|e] eqn:Hpa.
    + cbn [obind]. assert (Hv' : visited it') by (by eapply visited_next).
      destruct (IH it' Hv') as [(fs & Hfs & Hall)|[Hfs Hit]].
      * destruct Hpar as [Hpar|(Hst & ? & ? & ?)]; [by left|]. right. split_and!; (done || lia).
      * destruct Hpar as [Hpar|(Hst & ? & ? & ?)]; [unfold at_end in Hpar; bool_to_prop|]; lia.
      * left. exists (field_ it :: fs). rewrite Hfs. split; [done|]. by constructor.
      * right. by rewrite Hfs.
    + destruct Hpar as [-> Hbig]. right. split; [done|]. exists it. split_and!; try done; apply Hneg; lia.
Qed.
End any_bytes.

(** C25: Whatever bytes a message holds, the loop over its fields ends, reads no byte
    outside the message, and every value it gives is a part of the message with a
    byte after it, unless one of the fields it comes to is a length of raw data
    that is negative. *)
Theorem any_bytes_are_read_within_bounds `{!DataLengths} (bytes : list Z) :
  iterated bytes (fields bytes).
Proof.
  unfold fields. pose proof (parse_any bytes 0 0 ltac:(lia) ltac:(lia)) as Hp.
  unfold begin. destruct (parse bytes 0 0) as [it|e] eqn:He; [|lia]. cbn [obind].
  apply fields_from_any; [by constructor| |].
  - destruct Hp as [Hp|(Hst & ? & ? & ?)]; [by left|]. right. split_and!; (done || lia).
  - destruct Hp as [Hp|(Hst & ? & ? & ?)]; [unfold at_end in Hp; bool_to_prop|]; unfold size in *; lia.
Qed.

(** The length that does it: the value of the next field would be a view of
    nearly 2^64 bytes. *)
Lemma negative_length_reads_outside :
  @fields RawData.lengths (text "95=-1" ++ [soh] ++ text "96=abc" ++ [soh]) = Throws UndefinedBehaviour.
Proof. reflexivity. Qed.
