(* ===== verification/FixValidatorTheorems.v ===== *)
(** What a FIX message has to be to pass the validator: FixValidator.v.

    The specification is a grammar over the fields of the message: [conforms]
    for the body and [group_rest] for a repeating group and the groups in it.
    It has no set of seen bits, no limit on the tags of an instance and no
    visitor, and it reads numbers and times in its own way: [decimal_value] is
    positional notation, [time_text_of] a pattern. *)

From Stdlib Require Import String Ascii.
From S2P Require Import Prelude.
From S2P Require Import WalEntry.
From S2P Require Import FixField.
From S2P Require Import FixFieldTheorems.
From S2P Require Import FixMessage.
From S2P Require Import FixMessageTheorems.
From S2P Require Import FixValidator.
#[local] Open Scope Z_scope.
#[local] Open Scope venue_scope.

Import FixMessageValidator.

(** ** The grammar *)

(** Text without its sign. *)
Definition unsigned_text (l : list Z) : list Z :=
  match l with
  | c :: rest => if (c =? 43) || (c =? 45) then rest else l
  | [] => []
  end.

(** The characters '0' to '9'. *)
Definition numeral (c : Z) : Prop := 48 ≤ c ≤ 57.
Definition numerals (l : list Z) : Prop := Forall numeral l.

#[export] Instance numeral_dec c : Decision (numeral c).
Proof. unfold numeral. apply _. Defined.

(** The number that numerals write: each counts for its power of ten. *)
Fixpoint decimal_value (l : list Z) : Z :=
  match l with
  | [] => 0
  | c :: rest => (c - 48) * 10 ^ size rest + decimal_value rest
  end.

(** The numerals of a text, whatever is between them. *)
Definition numerals_in (l : list Z) : list Z := filter numeral l.

Definition integer_text (l : list Z) : Prop := unsigned_text l ≠ [] ∧ numerals (unsigned_text l).

Definition decimal_text (l : list Z) : Prop :=
  ∃ whole fraction, numerals (whole ++ fraction) ∧ whole ++ fraction ≠ [] ∧
    (unsigned_text l = whole ++ 46 :: fraction ∨ unsigned_text l = whole ∧ fraction = []).

(** [n] numerals whose number is between [lo] and [hi]. *)
Definition part_of_time (n : nat) (lo hi : Z) (l : list Z) : Prop :=
  length l = n ∧ numerals l ∧ lo ≤ decimal_value l ≤ hi.

(** YYYYMMDD-HH:MM:SS, with a leap second, and whatever follows. *)
Definition time_text_of (l : list Z) : Prop :=
  ∃ year month day hour minute second rest,
    l = year ++ month ++ day ++ [45] ++ hour ++ [58] ++ minute ++ [58] ++ second ++ rest ∧
    part_of_time 4 0 9999 year ∧ part_of_time 2 1 12 month ∧ part_of_time 2 1 31 day ∧
    part_of_time 2 0 23 hour ∧ part_of_time 2 0 59 minute ∧ part_of_time 2 0 60 second.

(** The parts of a value between its spaces. *)
Definition element_of (e l : list Z) : Prop :=
  32 ∉ e ∧ ∃ before after, l = before ++ e ++ after ∧
    (before = [] ∨ last before = Some 32) ∧ (after = [] ∨ head after = Some 32).

Section grammar.
Context `{!Dictionary}.

Definition format_of (f : FixField.t) : field_format := field_format_at (field_index (FixField.tag f)).

Definition value_conforms (f : FixField.t) : Prop :=
  let i := field_index (FixField.tag f) in
  let v := FixField.value f in
  match format_of f with
  | fix_int => integer_text v
  | fix_decimal => decimal_text v
  | fix_char => size v = 1
  | fix_boolean => v = text "Y" ∨ v = text "N"
  | fix_utc_timestamp => time_text_of v
  | fix_string | fix_data | fix_multiple_value => True
  end ∧
  (has_enum_values_at i = true →
   if bool_decide (format_of f = fix_multiple_value)
   then ∀ e, element_of e v → e ≠ [] → is_defined_enum_value_at i e = true
   else is_defined_enum_value_at i v = true).

(** An instance has all it is required to have; [None] is no instance. *)
Definition complete (def : group_def) (instance : option (list Z)) : Prop :=
  match instance with
  | Some tags => ∀ m, m ∈ members def → required m = true → member_tag m ∈ tags
  | None => True
  end.

Definition outside (def : group_def) (it : list FixField.t) : Prop :=
  match it with
  | [] => True
  | f :: _ => group_member_index def (FixField.tag f) = None
  end.

(** What a group may still hold when the instance it is in has the tags
    [instance]: [n] more instances, and then the fields [after], which are not of
    the group. *)
Inductive group_rest : Z → group_def → option (list Z) → list FixField.t → nat → list FixField.t → Prop :=
  | group_over depth def instance it :
      outside def it → complete def instance → group_rest depth def instance it 0 it
  | group_instance depth def instance f m it it' n after :
      group_member_index def (FixField.tag f) = Some m → FixField.tag f = delimiter_tag def →
      complete def instance → value_conforms f → group_nested depth m f it it' →
      group_rest depth def (Some [FixField.tag f]) it' n after →
      group_rest depth def instance (f :: it) (S n) after
  | group_field depth def tags f m it it' n after :
      group_member_index def (FixField.tag f) = Some m → FixField.tag f ≠ delimiter_tag def →
      FixField.tag f ∉ tags → value_conforms f → group_nested depth m f it it' →
      group_rest depth def (Some (tags ++ [FixField.tag f])) it' n after →
      group_rest depth def (Some tags) (f :: it) n after
(** A member that counts a group is followed by as many instances of it: the
    number its numerals write. *)
with group_nested : Z → group_member → FixField.t → list FixField.t → list FixField.t → Prop :=
  | nested_plain depth m f it :
      nested_group m < 0 ∨ max_group_depth ≤ depth → group_nested depth m f it it
  | nested_counted depth m f it n after :
      0 ≤ nested_group m → depth < max_group_depth →
      group_rest (depth + 1) (group_at (nested_group m)) None it n after →
      decimal_value (numerals_in (FixField.value f)) = Z.of_nat n →
      group_nested depth m f it after.

Definition permitted (type : list Z) (tag : Z) : Prop :=
  0 ≤ field_index tag ∧
  ∀ words, permitted_mask type = Some words →
    ∃ word, words !! Z.to_nat (field_index tag / 64) = Some word ∧ Z.testbit word (field_index tag mod 64) = true.

(** What the body may still hold, after the tags [tags]. *)
Inductive body_rest (type : list Z) : list Z → list FixField.t → Prop :=
  | body_over tags : (∀ tag, tag ∈ required_tags type → tag ∈ tags) → body_rest type tags []
  | body_plain tags f it :
      permitted type (FixField.tag f) → FixField.tag f ∉ tags → value_conforms f →
      group_index_for_counter (FixField.tag f) < 0 →
      body_rest type (tags ++ [FixField.tag f]) it → body_rest type tags (f :: it)
  | body_group tags f it n after :
      permitted type (FixField.tag f) → FixField.tag f ∉ tags → value_conforms f →
      0 ≤ group_index_for_counter (FixField.tag f) →
      group_rest 0 (group_at (group_index_for_counter (FixField.tag f))) None it n after →
      decimal_value (numerals_in (FixField.value f)) = Z.of_nat n →
      body_rest type (tags ++ [FixField.tag f]) after → body_rest type tags (f :: it).

Definition conforms (fs : list FixField.t) : Prop := body_rest (first_value 35 fs) [] fs.

(** *** Values that fit the types they are read in

    A decimal's numerals fit 64 bits, a counter's 32, and a time's nanoseconds 64
    when its year is from 1678 to 2261. *)

Definition counts_a_group (tag : Z) : Prop :=
  0 ≤ group_index_for_counter tag ∨
  ∃ i m, m ∈ members (group_at i) ∧ member_tag m = tag ∧ 0 ≤ nested_group m.

Definition fits_its_type (f : FixField.t) : Prop :=
  (0 ≤ field_index (FixField.tag f) →
   match format_of f with
   | fix_decimal => decimal_value (numerals_in (FixField.value f)) < 2 ^ 63
   | fix_utc_timestamp =>
       time_text_of (FixField.value f) → 1678 ≤ decimal_value (take 4 (FixField.value f)) ≤ 2261
   | _ => True
   end) ∧
  (counts_a_group (FixField.tag f) → decimal_value (numerals_in (FixField.value f)) < 2 ^ 31).
End grammar.

Scheme group_rest_mut := Induction for group_rest Sort Prop
  with group_nested_mut := Induction for group_nested Sort Prop.

(** ** Values *)

Lemma unsigned_text_no_sign c rest :
  is_digit c = true → unsigned_text (c :: rest) = c :: rest.
Proof. intros Hc%is_digit_range. cbn. by rewrite !(proj2 (Z.eqb_neq _ _)) by lia. Qed.

Lemma numeral_is_digit c : numeral c ↔ is_digit c = true.
Proof. unfold numeral. symmetry. apply is_digit_range. Qed.

Lemma numerals_all l : numerals l ↔ all_digits l.
Proof. apply Forall_iff. intros c. apply numeral_is_digit. Qed.

Lemma decimal_value_nonneg l : numerals l → 0 ≤ decimal_value l.
Proof.
  induction 1 as [|c l Hc Hl IH]; cbn [decimal_value]; [lia|]. unfold numeral in Hc.
  pose proof (Z.pow_nonneg 10 (size l) ltac:(lia)). nia.
Qed.

Lemma numerals_in_numerals l : numerals (numerals_in l).
Proof. apply Forall_forall. intros c [Hc _]%list_elem_of_filter. done. Qed.

(** One more numeral before the others. *)
Lemma decimal_step v c l :
  v * 10 ^ size (c :: l) + decimal_value (c :: l) = (v * 10 + (c - 48)) * 10 ^ size l + decimal_value l.
Proof.
  cbn [decimal_value]. unfold size. cbn [length]. rewrite Nat2Z.inj_succ, Z.pow_succ_r by lia. ring.
Qed.

Lemma decimal_grows v l : 0 ≤ v → numerals l → v ≤ v * 10 ^ size l + decimal_value l.
Proof.
  intros Hv Hl. pose proof (decimal_value_nonneg l Hl). pose proof (Z.pow_pos_nonneg 10 (size l) ltac:(lia) (size_nonneg l)). nia.
Qed.

Lemma numerals_in_cons c l :
  numerals_in (c :: l) = if is_digit c then c :: numerals_in l else numerals_in l.
Proof.
  unfold numerals_in. destruct (is_digit c) eqn:Hc.
  - apply filter_cons_True, numeral_is_digit, Hc.
  - apply filter_cons_False. rewrite numeral_is_digit. congruence.
Qed.

(** A counter is read as the number its numerals write. *)
Lemma parse_num_loop_ok l : ∀ v,
  0 ≤ v → v * 10 ^ size (numerals_in l) + decimal_value (numerals_in l) < 2 ^ 31 →
  parse_num_loop l v = Returns (v * 10 ^ size (numerals_in l) + decimal_value (numerals_in l)).
Proof.
  induction l as [|c l IH]; intros v Hv Hb; cbn [parse_num_loop].
  { change (Returns v = Returns (v * 1 + 0)). f_equal. lia. }
  rewrite numerals_in_cons in *. destruct (is_digit c) eqn:Hc; [|by apply IH].
  rewrite decimal_step in *. apply is_digit_range in Hc.
  pose proof (decimal_grows (v * 10 + (c - 48)) (numerals_in l) ltac:(lia) (numerals_in_numerals l)).
  rewrite (proj2 (Z.ltb_lt _ _)) by lia. apply IH; lia.
Qed.

Lemma parse_num_ok l :
  decimal_value (numerals_in l) < 2 ^ 31 → parse_num_in_group l = Returns (decimal_value (numerals_in l)).
Proof. intros Hb. unfold parse_num_in_group. by rewrite parse_num_loop_ok by lia. Qed.

Lemma all_digits_forallb l : forallb is_digit l = true ↔ all_digits l.
Proof. rewrite forallb_forall. unfold all_digits. rewrite Forall_forall. by setoid_rewrite list_elem_of_In. Qed.

Lemma is_integer_ok l : is_integer l = true ↔ integer_text l.
Proof.
  unfold is_integer, integer_text. destruct l as [|c l]; [by split; [|intros [? _]]|].
  unfold unsigned_text. set (ds := if (c =? 43) || (c =? 45) then l else c :: l).
  destruct ds as [|d ds]; [by split; [|intros [? _]]|]. rewrite all_digits_forallb, <- numerals_all. naive_solver.
Qed.

(** A decimal that fits is read as one exactly when it is one. *)
Lemma decimal_loop_ok l : ∀ d fr dot digit r,
  FixField.decimal_loop l d fr dot digit = Returns r →
  (is_Some r ↔ ∃ whole fraction, all_digits (whole ++ fraction) ∧ (digit = true ∨ whole ++ fraction ≠ []) ∧
     (dot = false ∧ l = whole ++ 46 :: fraction ∨ l = whole ∧ fraction = [])).
Proof.
  induction l as [|c l IH]; intros d fr dot digit r; cbn [FixField.decimal_loop].
  - intros [= <-]. destruct digit; split.
    + intros _. exists [], []. split_and!; [constructor|by left|by right].
    + by intros _.
    + by intros [].
    + intros (w & f & _ & [?|Hne] & [[_ Hl]|[<- ->]]); [done|done|by destruct w|done].
  - destruct (Z.eqb_spec c 46) as [->|Hc].
    + destruct dot.
      * intros [= <-]. split; [by intros []|]. intros (w & f & Hd & _ & [[? _]|[<- _]]); [done|].
        apply Forall_app in Hd as [Hd _]. inversion Hd as [|? ? Hx]. by vm_compute in Hx.
      * intros Hr%IH. rewrite Hr. split.
        -- intros (w & f & Hd & Hne & [[? _]|[-> ->]]); [done|]. rewrite app_nil_r in *.
           exists [], w. split_and!; [done|done|by left].
        -- intros (w & f & Hd & Hne & [[_ Hl]|[<- ->]]).
           ++ destruct w as [|x w].
              ** cbn in Hl. injection Hl as ->. exists f, []. rewrite app_nil_r. split_and!; [done|done|by right].
              ** cbn in Hl. injection Hl as <- _. apply Forall_app in Hd as [Hd _].
                 inversion Hd as [|? ? Hx]. by vm_compute in Hx.
           ++ rewrite app_nil_r in Hd. inversion Hd as [|? ? Hx]. by vm_compute in Hx.
    + destruct (is_digit c) eqn:Hdig; cbn [negb].
      * destruct (int64 (d * 10)) as [d1|]; cbn [obind]; [|done].
        destruct (int64 (d1 + (c - 48))) as [d2|]; cbn [obind]; [|done].
        intros Hr%IH. rewrite Hr. split.
        -- intros (w & f & Hd & _ & Hl). exists (c :: w), f. split_and!; [by constructor|by right|].
           destruct Hl as [[-> ->]|[-> ->]]; [by left|by right].
        -- intros (w & f & Hd & _ & Hl). destruct w as [|x w].
           ++ destruct Hl as [[_ Hl]|[? _]]; [|done]. injection Hl as ? _. done.
           ++ exists w, f. inversion Hd; subst. split_and!; [done|by left|].
              destruct Hl as [[-> Hl]|[Hl ->]]; injection Hl as _ ->; [by left|by right].
      * intros [= <-]. split; [by intros []|]. intros (w & f & Hd & _ & Hl). destruct w as [|x w].
        -- destruct Hl as [[_ Hl]|[? _]]; [|done]. injection Hl as ? _. done.
        -- inversion Hd; subst. destruct Hl as [[_ Hl]|[Hl _]]; injection Hl as -> _; congruence.
Qed.

Lemma decimal_loop_returns l : ∀ d fr dot digit,
  0 ≤ d → d * 10 ^ size (numerals_in l) + decimal_value (numerals_in l) < 2 ^ 63 →
  ∃ r, FixField.decimal_loop l d fr dot digit = Returns r.
Proof.
  induction l as [|c l IH]; intros d fr dot digit Hd Hb; cbn [FixField.decimal_loop]; [by eexists|].
  rewrite numerals_in_cons in Hb. destruct (Z.eqb_spec c 46) as [->|Hc].
  { destruct dot; [by eexists|]. by apply IH. }
  destruct (is_digit c) eqn:Hdig; cbn [negb]; [|by eexists].
  rewrite decimal_step in Hb. apply is_digit_range in Hdig.
  pose proof (decimal_grows (d * 10 + (c - 48)) (numerals_in l) ltac:(lia) (numerals_in_numerals l)).
  rewrite int64_fits by lia. cbn [obind]. rewrite int64_fits by lia. cbn [obind]. apply IH; lia.
Qed.

Lemma as_decimal_returns f :
  decimal_value (numerals_in (FixField.value f)) < 2 ^ 63 → ∃ r, FixField.as_decimal f = Returns r.
Proof.
  intros Hb. unfold FixField.as_decimal. destruct (FixField.value f) as [|c l]; [by eexists|].
  set (ds := if (c =? 43) || (c =? 45) then l else c :: l).
  assert (Hds : numerals_in ds = numerals_in (c :: l)).
  { unfold ds. destruct ((c =? 43) || (c =? 45)) eqn:Hc; [|done]. rewrite numerals_in_cons.
    destruct (is_digit c) eqn:Hd; [|done]. apply is_digit_range in Hd. bool_to_prop. lia. }
  destruct (decimal_loop_returns ds 0 0 false false) as [r ->]; [lia|by rewrite Hds|]. by eexists.
Qed.

Lemma as_decimal_ok f r :
  FixField.as_decimal f = Returns r → is_Some r ↔ decimal_text (FixField.value f).
Proof.
  unfold FixField.as_decimal, decimal_text. setoid_rewrite numerals_all.
  destruct (FixField.value f) as [|c l].
  - intros [= <-]. split; [by intros []|].
    intros (w & fr & _ & Hne & [Hl|[Hl ->]]); [by destruct w|]. by rewrite app_nil_r, <- Hl in Hne.
  - cbn [unsigned_text]. set (ds := if (c =? 43) || (c =? 45) then l else c :: l).
    destruct (FixField.decimal_loop ds 0 0 false false) as [r'|e] eqn:Hd; cbn [obind]; [|done].
    intros [= <-]. apply decimal_loop_ok in Hd.
    assert (Hs : is_Some r' ↔ is_Some (match r' with
      | Some (digits, exponent) => Some (if c =? 45 then - digits else digits, exponent) | None => None end)).
    { destruct r' as [[]|]; [by split|]. split; by intros []. }
    rewrite <- Hs, Hd. split; intros (w & fr & H1 & H2 & H3); exists w, fr; naive_solver.
Qed.

(** *** Times *)

Lemma digits_loop_any count : ∀ l offset r,
  0 ≤ offset → offset + Z.of_nat count ≤ size l →
  FixField.digits_loop count l offset r
  = Returns (let ds := take count (drop (Z.to_nat offset) l) in
             if forallb is_digit ds then r * 10 ^ size ds + decimal_value ds else -1).
Proof.
  induction count as [|count IH]; intros l offset r Ho Hc; cbn [FixField.digits_loop].
  { change (Returns r = Returns (r * 1 + 0)). f_equal. lia. }
  destruct (lookup_lt_is_Some_2 l (Z.to_nat offset)) as [c Hl]; [unfold size in *; lia|].
  rewrite (at_index_ok _ _ c) by done. cbn [obind]. rewrite (drop_S l c) by done. cbn zeta.
  cbn [take forallb]. destruct (is_digit c); cbn [negb andb]; [|done].
  rewrite IH by lia. cbn zeta. rewrite Z2Nat.inj_add by lia. rewrite Nat.add_1_r, decimal_step. done.
Qed.

(** The digits of one part of a time, or -1. *)
Definition part (ds : list Z) : Z := if forallb is_digit ds then decimal_value ds else -1.

Lemma part_read l offset count tag :
  0 ≤ offset → offset + Z.of_nat count ≤ size l →
  FixField.two_or_four_digits (FixField.mk tag l) offset count
  = Returns (part (take count (drop (Z.to_nat offset) l))).
Proof.
  intros Ho Hc. unfold FixField.two_or_four_digits. cbn [FixField.value]. rewrite digits_loop_any by done.
  cbn zeta. unfold part. by rewrite Z.mul_0_l, Z.add_0_l.
Qed.

Lemma part_within n lo hi ds : 0 ≤ lo → length ds = n → lo ≤ part ds ≤ hi ↔ part_of_time n lo hi ds.
Proof.
  intros Hlo Hl. unfold part, part_of_time. rewrite numerals_all, <- all_digits_forallb.
  destruct (forallb is_digit ds); split; naive_solver lia.
Qed.

Lemma part_four a b c d : part [a; b; c; d] ≤ 9999.
Proof.
  unfold part. destruct (forallb is_digit _) eqn:Hd; [|lia]. apply all_digits_forallb, numerals_all in Hd.
  unfold numerals in Hd. rewrite !Forall_cons in Hd. unfold numeral in Hd. destruct Hd as (? & ? & ? & ? & _).
  change (decimal_value _) with ((a - 48) * 1000 + ((b - 48) * 100 + ((c - 48) * 10 + ((d - 48) * 1 + 0)))). lia.
Qed.

(** A text of seventeen characters or more, in its parts. *)
Lemma seventeen (l : list Z) : 17 ≤ size l →
  ∃ a b c d e f g h i j k m n o p q r rest,
    l = a :: b :: c :: d :: e :: f :: g :: h :: i :: j :: k :: m :: n :: o :: p :: q :: r :: rest.
Proof.
  unfold size. intros Hl. do 17 (destruct l as [|? l]; [cbn in Hl; lia|]). by do 18 eexists.
Qed.

Lemma time_text_parts a b c d e f g h i j k m n o p q r rest :
  time_text_of (a :: b :: c :: d :: e :: f :: g :: h :: i :: j :: k :: m :: n :: o :: p :: q :: r :: rest) ↔
  (i = 45 ∧ m = 58 ∧ p = 58) ∧
  part_of_time 4 0 9999 [a; b; c; d] ∧ part_of_time 2 1 12 [e; f] ∧ part_of_time 2 1 31 [g; h] ∧
  part_of_time 2 0 23 [j; k] ∧ part_of_time 2 0 59 [n; o] ∧ part_of_time 2 0 60 [q; r].
Proof.
  split.
  - intros (y & mo & da & ho & mi & se & rest' & Hl & Hy & Hmo & Hda & Hho & Hmi & Hse).
    pose proof (proj1 Hy). pose proof (proj1 Hmo). pose proof (proj1 Hda). pose proof (proj1 Hho).
    pose proof (proj1 Hmi). pose proof (proj1 Hse).
    destruct y as [|? [|? [|? [|? [|]]]]]; try done. destruct mo as [|? [|? [|]]]; try done.
    destruct da as [|? [|? [|]]]; try done. destruct ho as [|? [|? [|]]]; try done.
    destruct mi as [|? [|? [|]]]; try done. destruct se as [|? [|? [|]]]; try done.
    cbn in Hl. injection Hl as -> -> -> -> -> -> -> -> -> -> -> -> -> -> -> -> -> ->. by split_and!.
  - intros ((-> & -> & ->) & Hy & Hmo & Hda & Hho & Hmi & Hse).
    exists [a; b; c; d], [e; f], [g; h], [j; k], [n; o], [q; r], rest. by split_and!.
Qed.

Lemma time_text_long l : time_text_of l → 17 ≤ size l.
Proof.
  intros (y & mo & da & ho & mi & se & rest & -> & [Hy _] & [Hmo _] & [Hda _] & [Hho _] & [Hmi _] & [Hse _]).
  unfold size. rewrite !length_app, Hy, Hmo, Hda, Hho, Hmi, Hse. cbn. lia.
Qed.

Lemma fraction_loop_range left_ : ∀ l v,
  0 ≤ v → 0 ≤ FixField.fraction_loop l left_ v < (v + 1) * 10 ^ Z.of_nat left_.
Proof.
  induction left_ as [|left_ IH]; intros l v Hv; cbn [FixField.fraction_loop].
  { change (10 ^ Z.of_nat 0) with 1. lia. }
  pose proof (Z.pow_pos_nonneg 10 (Z.of_nat (S left_)) ltac:(lia) ltac:(lia)).
  destruct l as [|c l]; [nia|]. destruct (is_digit c) eqn:Hc; [|nia]. apply is_digit_range in Hc.
  specialize (IH l (v * 10 + (c - 48)) ltac:(lia)). rewrite Nat2Z.inj_succ, Z.pow_succ_r by lia.
  pose proof (Z.pow_pos_nonneg 10 (Z.of_nat left_) ltac:(lia) ltac:(lia)). nia.
Qed.

Lemma fraction_range f : 0 ≤ FixField.fractional_nanoseconds f < 1000000000.
Proof.
  unfold FixField.fractional_nanoseconds. destruct (_ !! _) as [c|]; [|lia]. destruct (c =? 46); [|lia].
  change 1000000000 with ((0 + 1) * 10 ^ Z.of_nat 9). by apply fraction_loop_range.
Qed.

Lemma days_of_years y m d :
  1678 ≤ y ≤ 2261 → 1 ≤ m ≤ 12 → 1 ≤ d ≤ 31 → -106749 ≤ FixField.days_from_civil y m d ≤ 106749.
Proof.
  intros Hy Hm Hd. unfold FixField.days_from_civil.
  destruct (Z.ltb_spec 2 m), (Z.leb_spec m 2); try lia; rewrite (proj2 (Z.leb_le 0 _)) by lia;
    Z.to_euclidean_division_equations; lia.
Qed.

(** What is asked for when there is no time is returned exactly then. *)
Lemma utc_cases l :
  (time_text_of l → 1678 ≤ decimal_value (take 4 l) ≤ 2261) →
  (¬ time_text_of l ∧ ∀ fallback, FixField.as_utc_timestamp_ns (FixField.mk 0 l) fallback = Returns fallback) ∨
  (time_text_of l ∧ ∃ ns, ∀ fallback, FixField.as_utc_timestamp_ns (FixField.mk 0 l) fallback = Returns ns).
Proof.
  intros Hfit. unfold FixField.as_utc_timestamp_ns. cbn [FixField.value].
  destruct (Z.ltb_spec (size l) 17) as [Hs|Hs].
  { left. split; [|done]. intros Ht%time_text_long. lia. }
  pose proof (fraction_range (FixField.mk 0 l)) as Hfr. revert Hfr. set (fr := FixField.fractional_nanoseconds _).
  intros Hfr. rewrite !part_read by lia.
  destruct (seventeen l Hs) as (a & b & c & d & e & f & g & h & i & j & k & m & n & o & p & q & r & rest & ->).
  rewrite time_text_parts in *.
  change (at_index _ 8) with (Returns i). change (at_index _ 11) with (Returns m).
  change (at_index _ 14) with (Returns p). cbn [obind].
  change (take 4 (drop (Z.to_nat 0) _)) with [a; b; c; d]. change (take 2 (drop (Z.to_nat 4) _)) with [e; f].
  change (take 2 (drop (Z.to_nat 6) _)) with [g; h]. change (take 2 (drop (Z.to_nat 9) _)) with [j; k].
  change (take 2 (drop (Z.to_nat 12) _)) with [n; o]. change (take 2 (drop (Z.to_nat 15) _)) with [q; r].
  change (take 4 _) with [a; b; c; d] in Hfit.
  pose proof (part_four a b c d). rewrite <- !part_within in * by (done || lia).
  destruct (negb (i =? 45) || negb (m =? 58) || negb (p =? 58)) eqn:Hsep.
  { left. split; [|done]. intros ((-> & -> & ->) & _). done. }
  match goal with |- context [if ?b then _ else _] => destruct b eqn:Hb end.
  { left. split; [|done]. bool_to_prop. lia. }
  right. bool_to_prop. assert (1678 ≤ part [a; b; c; d] ≤ 2261).
  { replace (part [a; b; c; d]) with (decimal_value [a; b; c; d]); [apply Hfit; lia|].
    unfold part in *. by destruct (forallb is_digit [a; b; c; d]). }
  split; [lia|]. pose proof (days_of_years (part [a; b; c; d]) (part [e; f]) (part [g; h]) ltac:(lia) ltac:(lia) ltac:(lia)).
  eexists. intros fallback. rewrite int64_fits by lia. cbn [obind]. by rewrite int64_fits by lia.
Qed.

Lemma is_utc_timestamp_ok l :
  (time_text_of l → 1678 ≤ decimal_value (take 4 l) ≤ 2261) →
  ∃ b, is_utc_timestamp l = Returns b ∧ (b = true ↔ time_text_of l).
Proof.
  intros Hf. unfold is_utc_timestamp. destruct (utc_cases l Hf) as [[Hn Ha]|[Ht [ns Ha]]].
  - rewrite !Ha. cbn [obind]. rewrite !Z.eqb_refl. cbn [negb obind]. by exists false.
  - rewrite !Ha. cbn [obind]. exists true. split; [|done].
    destruct (Z.eqb_spec ns (- 2 ^ 63)); cbn [negb]; [|done]. by rewrite (proj2 (Z.eqb_neq _ _)) by lia.
Qed.

(** *** Values of several elements *)

Lemma index_of_split target l : ∀ at_,
  match FixMessageReader.index_of target l at_ with
  | Some k => ∃ a r, l = a ++ target :: r ∧ target ∉ a ∧ k = at_ + size a
  | None => target ∉ l
  end.
Proof.
  induction l as [|c l IH]; intros at_; cbn; [set_solver|].
  destruct (Z.eqb_spec c target) as [->|Hc].
  - exists [], l. split_and!; [done|set_solver|]. change (at_ = at_ + 0). lia.
  - specialize (IH (at_ + 1)). destruct (FixMessageReader.index_of target l (at_ + 1)) as [k|].
    + destruct IH as (a & r & -> & Ha & ->). exists (c :: a), r. split_and!; [done|set_solver|].
      unfold size. cbn [length]. lia.
    + set_solver.
Qed.

Lemma last_in {A} (l : list A) x : last l = Some x → x ∈ l.
Proof. intros [l' ->]%last_Some. apply elem_of_app. right. by left. Qed.

Lemma head_in {A} (l : list A) x : head l = Some x → x ∈ l.
Proof. destruct l; [done|]. intros [= ->]. by left. Qed.

Lemma element_of_one e l : 32 ∉ l → element_of e l ↔ e = l.
Proof.
  intros Hl. split.
  - intros (He & b & a & -> & Hb & Ha). rewrite !elem_of_app in Hl.
    assert (b = []) as -> by (destruct Hb as [|Hb%last_in]; [done|tauto]).
    assert (a = []) as -> by (destruct Ha as [|Ha%head_in]; [done|tauto]). by rewrite app_nil_r.
  - intros ->. split; [done|]. exists [], []. rewrite app_nil_r. split_and!; [done|by left|by left].
Qed.

Lemma split_unique (a e r x : list Z) : 32 ∉ a → 32 ∉ e → a ++ 32 :: r = e ++ 32 :: x → e = a.
Proof.
  revert e. induction a as [|y a IH]; intros [|z e] Ha He Hx; [done|..].
  - injection Hx as <- _. set_solver.
  - injection Hx as -> _. set_solver.
  - injection Hx as -> Hx. f_equal. apply IH; [set_solver..|done].
Qed.

Lemma element_of_more e a r : 32 ∉ a → element_of e (a ++ 32 :: r) ↔ e = a ∨ element_of e r.
Proof.
  intros Ha. split.
  - intros (He & b & x & Hl & Hb & Hx). destruct Hb as [->|Hb].
    { left. cbn in Hl. destruct Hx as [->|Hx].
      - rewrite app_nil_r in Hl. exfalso. apply He. rewrite <- Hl. apply elem_of_app. right. by left.
      - destruct x as [|c x]; [done|]. injection Hx as ->. by eapply split_unique. }
    right. split; [done|]. apply app_eq_inv in Hl as [(k & -> & Hk)|(k & -> & Hk)].
    + exfalso. apply Ha. apply elem_of_app. left. by apply last_in.
    + destruct k as [|c k].
      * rewrite app_nil_r in Hb. exfalso. by apply Ha, last_in.
      * cbn in Hk. injection Hk as <- ->. exists k, x. split_and!; [done| |done].
        destruct k as [|y k]; [by left|right]. by rewrite last_app_cons, last_cons_cons in Hb.
  - intros [->|(He & b & x & -> & Hb & Hx)].
    + split; [done|]. exists [], (32 :: r). split_and!; [done|by left|by right].
    + split; [done|]. exists (a ++ 32 :: b), x. split_and!; [by rewrite <- app_assoc| |done]. right.
      rewrite last_app_cons. destruct Hb as [->|Hb]; [done|]. destruct b; [done|]. by rewrite last_cons_cons.
Qed.

Lemma elements_defined_ok `{!Dictionary} i turns : ∀ l,
  (length l < turns)%nat →
  ∃ b, elements_defined turns i l = Returns b ∧
    (b = true ↔ ∀ e, element_of e l → e ≠ [] → is_defined_enum_value_at i e = true).
Proof.
  induction turns as [|turns IH]; intros l Ht; [lia|]. cbn [elements_defined].
  destruct l as [|c l].
  { exists true. split; [done|]. split; [|done]. intros _ e He Hne. by apply element_of_one in He; [|set_solver]. }
  set (v := c :: l) in *. pose proof (index_of_split 32 v 0) as Hi.
  destruct (FixMessageReader.index_of 32 v 0) as [k|].
  - destruct Hi as (a & r & Hv & Ha & ->). rewrite Z.add_0_l. rewrite Hv. rewrite slice_head by done.
    replace (drop (Z.to_nat (size a + 1)) (a ++ 32 :: r)) with r.
    2:{ replace (a ++ 32 :: r) with ((a ++ [32]) ++ r) by (by rewrite <- app_assoc).
        replace (size a + 1) with (size (a ++ [32])) by (by rewrite size_app). by rewrite drop_size. }
    setoid_rewrite element_of_more; [|done..].
    assert (length r < turns)%nat.
    { apply (f_equal length) in Hv. rewrite length_app in Hv. cbn [length] in Hv. lia. }
    destruct (bool_decide_reflect (a = [])) as [->|Hne]; cbn [negb andb].
    + destruct (IH r) as (b & Hb & Hiff); [done|]. exists b. split; [done|]. rewrite Hiff. naive_solver.
    + destruct (is_defined_enum_value_at i a) eqn:Hd; cbn [negb].
      * destruct (IH r) as (b & Hb & Hiff); [done|]. exists b. split; [done|]. rewrite Hiff. naive_solver.
      * exists false. split; [done|]. split; [done|]. intros Hall. specialize (Hall a ltac:(by left) Hne). congruence.
  - setoid_rewrite element_of_one; [|done..].
    destruct (bool_decide_reflect (v = [])) as [?|Hne]; [done|]. cbn [negb andb].
    destruct (is_defined_enum_value_at i v) eqn:Hd; cbn [negb].
    + exists true. split; [done|]. naive_solver.
    + exists false. split; [done|]. split; [done|]. intros Hall. specialize (Hall v eq_refl Hne). congruence.
Qed.

Section validity.
Context {D : Dictionary} {L : DictionaryLaws D}.

Lemma at_dense_index_ok {A} (table : Z → A) i : 0 ≤ i → at_dense_index table i = Returns (table i).
Proof. intros Hi. unfold at_dense_index. by rewrite (proj2 (Z.ltb_ge _ _)). Qed.

Definition format_conforms (f : FixField.t) : Prop :=
  let v := FixField.value f in
  match format_of f with
  | fix_int => integer_text v
  | fix_decimal => decimal_text v
  | fix_char => size v = 1
  | fix_boolean => v = text "Y" ∨ v = text "N"
  | fix_utc_timestamp => time_text_of v
  | fix_string | fix_data | fix_multiple_value => True
  end.

Lemma verdict_ok (b : bool) (P : Prop) r :
  FixReject.ok r = false → (b = true ↔ P) →
  FixReject.ok (if b then FixReject.none else r) = true ↔ P.
Proof. intros Hr Hb. rewrite <- Hb. destruct b; [done|]. by rewrite Hr. Qed.

Lemma check_format_ok f type :
  0 ≤ field_index (FixField.tag f) → fits_its_type f →
  ∃ r, check_format (field_index (FixField.tag f)) (FixField.tag f) f type = Returns r ∧
    (FixReject.ok r = true ↔ format_conforms f).
Proof.
  intros Hi [Hf _]. specialize (Hf Hi). unfold check_format, format_conforms.
  rewrite at_dense_index_ok by done. cbn [obind]. fold (format_of f). destruct (format_of f).
  - by eexists.
  - eexists. split; [done|]. apply verdict_ok; [done|]. apply is_integer_ok.
  - destruct (as_decimal_returns f Hf) as [r Hr]. rewrite Hr. cbn [obind]. eexists. split; [done|]. apply verdict_ok; [done|].
    rewrite bool_decide_eq_true. by apply as_decimal_ok.
  - eexists. split; [done|]. apply verdict_ok; [done|]. apply Z.eqb_eq.
  - eexists. split; [done|]. apply verdict_ok; [done|]. by rewrite orb_true_iff, !bool_decide_eq_true.
  - destruct (is_utc_timestamp_ok _ Hf) as (b & -> & Hb). cbn [obind]. eexists. split; [done|].
    by apply verdict_ok.
  - by eexists.
  - by eexists.
Qed.

Lemma check_field_semantics_ok f type :
  0 ≤ field_index (FixField.tag f) → fits_its_type f →
  ∃ r, check_field_semantics (field_index (FixField.tag f)) (FixField.tag f) f type = Returns r ∧
    (FixReject.ok r = true ↔ value_conforms f).
Proof.
  intros Hi Hf. destruct (check_format_ok f type Hi Hf) as (r & Hr & Hok).
  unfold check_field_semantics, value_conforms. fold (format_conforms f). rewrite Hr. cbn [obind].
  destruct (FixReject.ok r) eqn:Hrk; cbn [negb].
  2:{ exists r. split; [done|]. split; [congruence|]. intros [Hc _]. by apply Hok in Hc. }
  apply proj1 in Hok. specialize (Hok eq_refl). rewrite !at_dense_index_ok by done. cbn [obind].
  destruct (has_enum_values_at (field_index (FixField.tag f))).
  2:{ eexists. split; [done|]. split; [|done]. intros _. by split. }
  fold (format_of f). destruct (bool_decide_reflect (format_of f = fix_multiple_value)) as [Hm|Hm].
  - destruct (elements_defined_ok (field_index (FixField.tag f)) (S (length (FixField.value f)))
      (FixField.value f)) as (b & -> & Hb); [lia|]. cbn [obind]. eexists. split; [done|].
    apply verdict_ok; [done|]. rewrite Hb. naive_solver.
  - destruct (is_defined_enum_value_at _ _); eexists; (split; [done|]); naive_solver.
Qed.

(** ** Groups *)

Definition in_dictionary (def : group_def) : Prop := ∃ i, def = group_at i.

Lemma member_index_in def tag m :
  group_member_index def tag = Some m → m ∈ members def ∧ member_tag m = tag.
Proof.
  unfold group_member_index. intros H%List.find_some. destruct H as [H1 H2]. apply Z.eqb_eq in H2.
  by apply list_elem_of_In in H1.
Qed.

(** The tags an instance has so far. *)
Definition tracked (def : group_def) (tags : list Z) : Prop :=
  NoDup tags ∧ ∀ t, t ∈ tags → t ∈ member_tag <$> members def.

Lemma tracked_few def tags :
  in_dictionary def → tracked def tags → (size tags <? max_tracked_tags) = true.
Proof.
  intros [i ->] [Hn Hs]. apply Z.ltb_lt. pose proof (members_few i).
  assert (length tags ≤ length (member_tag <$> members (group_at i)))%nat as Hl
    by (by apply submseteq_length, NoDup_submseteq).
  rewrite length_fmap in Hl. unfold size, max_tracked_tags. lia.
Qed.

Lemma tracked_snoc def tags f m :
  tracked def tags → group_member_index def (FixField.tag f) = Some m → FixField.tag f ∉ tags →
  tracked def (tags ++ [FixField.tag f]).
Proof.
  intros [Hn Hs] [Hm <-]%member_index_in Hf. split.
  - apply NoDup_app. split_and!; [done|set_solver|apply NoDup_singleton].
  - intros t [Ht|Ht]%elem_of_app; [by apply Hs|]. apply list_elem_of_singleton in Ht as ->.
    apply list_elem_of_fmap. by exists m.
Qed.

(** The visitor's arrays are as long as the walk is deep. *)
Definition sound_visitor (v : GroupValidation) : Prop :=
  length (instance_seen v) = 17%nat ∧ length (counter_value v) = 17%nat.

(** What a step at one depth leaves of the state. *)
Definition keeps (depth : Z) (v v' : GroupValidation) : Prop :=
  sound_visitor v' ∧ type_ v' = type_ v ∧
  ∀ d, 0 ≤ d < depth → instance_seen v' !! Z.to_nat d = instance_seen v !! Z.to_nat d.

Lemma keeps_refl depth v : sound_visitor v → keeps depth v v.
Proof. by intros. Qed.

Lemma keeps_trans d d' v v' v'' : d ≤ d' → keeps d v v' → keeps d' v' v'' → keeps d v v''.
Proof.
  intros Hd (H1 & H2 & H3) (H4 & H5 & H6). split_and!; [done|congruence|].
  intros x Hx. rewrite H6 by lia. by apply H3.
Qed.

Lemma set_seen_ok depth tags v :
  sound_visitor v → 0 ≤ depth ≤ 16 →
  ∃ v', set_seen depth tags v = (v', Returns ()) ∧ keeps depth v v' ∧
    instance_seen v' !! Z.to_nat depth = Some tags ∧ reject v' = reject v.
Proof.
  intros [Hs Hc] Hd. unfold set_seen. erewrite bind_returns.
  2:{ unfold ask, store_at. rewrite Hs, (proj2 (Z.leb_le _ _)), (proj2 (Z.ltb_lt _ _)) by lia. reflexivity. }
  eexists. split; [reflexivity|]. cbn. split_and!; [|apply list_lookup_insert_eq; lia|done].
  split; [split; cbn; [by rewrite length_insert|done]|]. split; [done|].
  intros d Hdd. cbn. apply list_lookup_insert_ne. lia.
Qed.

Lemma rejected_ok depth r v :
  sound_visitor v → ∃ v', rejected r v = (v', Returns false) ∧ keeps depth v v' ∧ reject v' = r.
Proof. intros Hv. eexists. split; [reflexivity|]. by split. Qed.

(** [validate_field] *)
Lemma validate_field_ok depth tags f m def v :
  in_dictionary def → sound_visitor v → 0 ≤ depth ≤ 16 → tracked def tags →
  instance_seen v !! Z.to_nat depth = Some tags → group_member_index def (FixField.tag f) = Some m →
  fits_its_type f →
  ∃ v' ok, validate_field depth f v = (v', Returns ok) ∧ keeps depth v v' ∧
    (ok = true ↔ FixField.tag f ∉ tags ∧ value_conforms f) ∧
    (if ok : bool then instance_seen v' !! Z.to_nat depth = Some (tags ++ [FixField.tag f])
     else FixReject.ok (reject v') = false).
Proof.
  intros Hdef Hv Hd Ht Hs Hm Hf. unfold validate_field. erewrite bind_returns by reflexivity.
  erewrite bind_returns.
  2:{ unfold seen_at, ask. by rewrite (at_index_ok _ _ tags) by (done || lia). }
  unfold contains. destruct (bool_decide_reflect (FixField.tag f ∈ tags)) as [Hin|Hin].
  { destruct (rejected_ok depth (FixReject.mk TagAppearsMoreThanOnce (FixField.tag f) (type_ v) []) v Hv)
      as (v' & -> & Hk & Hr). exists v', false. split_and!; [done|done|by split; [|intros []]|by rewrite Hr]. }
  rewrite (tracked_few def) by done.
  destruct (set_seen_ok depth (tags ++ [FixField.tag f]) v Hv Hd) as (v1 & Hv1 & Hk1 & Hs1 & _).
  erewrite bind_returns by exact Hv1. destruct Hdef as [i ->]. apply member_index_in in Hm as [Hm Hmt].
  assert (Hi : 0 ≤ field_index (FixField.tag f)) by (rewrite <- Hmt; by eapply members_defined).
  destruct (check_field_semantics_ok f (type_ v) Hi Hf) as (r & Hr & Hok).
  erewrite bind_returns by (unfold ask; by rewrite Hr). destruct (FixReject.ok r) eqn:Hrk; cbn [negb].
  - exists v1, true. split_and!; [done|done|naive_solver|done].
  - destruct (rejected_ok depth r v1) as (v' & -> & Hk & Hrv); [apply Hk1|].
    exists v', false. split_and!; [done|by eapply keeps_trans|naive_solver|by rewrite Hrv].
Qed.

(** The state of a walk in the instance [cur]. *)
Definition walking (depth : Z) (def : group_def) (v : GroupValidation) (cur : option (list Z))
    (instances : Z) (have_instance : bool) : Prop :=
  match cur with
  | None => have_instance = false ∧ instances = 0
  | Some tags =>
      have_instance = true ∧ 0 < instances ∧ tracked def tags ∧
      instance_seen v !! Z.to_nat depth = Some tags
  end.

Lemma find_required_ok (def : group_def) tags :
  List.find (λ m, required m && negb (contains tags (member_tag m))) (members def) = None ↔
  complete def (Some tags).
Proof.
  unfold complete, contains. split.
  - intros Hf m Hm Hr. apply list_elem_of_In in Hm. pose proof (List.find_none _ _ Hf m Hm) as Hn.
    cbn beta in Hn. rewrite Hr in Hn. by apply negb_false_iff, bool_decide_eq_true in Hn.
  - intros Hc. destruct (List.find _ _) as [m|] eqn:Hf; [|done].
    apply List.find_some in Hf as [Hm Hb]. apply andb_true_iff in Hb as [Hr Hn].
    apply list_elem_of_In in Hm. apply negb_true_iff, bool_decide_eq_false in Hn. by apply Hc in Hr.
Qed.

(** The end of an instance, where there is one. *)
Lemma close_instance depth def v cur instances have (it : list FixField.t) :
  in_dictionary def → sound_visitor v → 0 ≤ depth ≤ 16 → walking depth def v cur instances have →
  ∃ v' ok, (if have then on_fst (leave_instance depth def (instances - 1)) else mret true) (v, it)
           = ((v', it), Returns ok) ∧ keeps depth v v' ∧ (ok = true ↔ complete def cur) ∧
    (if ok : bool then v' = v else FixReject.ok (reject v') = false).
Proof.
  intros Hdef Hv Hd Hw. destruct cur as [tags|]; cbn [walking] in Hw.
  2:{ destruct Hw as [-> _]. exists v, true. by split_and!. }
  destruct Hw as (-> & _ & Ht & Hs). unfold on_fst. cbn [fst snd leave_instance GroupValidationVisitor].
  unfold validate_instance. rewrite (bind_returns _ _ v v (type_ v)) by reflexivity.
  rewrite (bind_returns _ _ v v tags)
    by (unfold seen_at, ask; by rewrite (at_index_ok _ _ tags) by (done || lia)).
  rewrite (proj2 (Z.leb_gt _ _)) by (by apply Z.ltb_lt, (tracked_few def)).
  pose proof (find_required_ok def tags) as Hreq. destruct (List.find _ _) as [m|].
  - destruct (rejected_ok depth (FixReject.mk RequiredTagMissing (member_tag m) (type_ v) []) v Hv)
      as (v' & -> & Hk & Hr). exists v', false. split_and!; [done|done|naive_solver|by rewrite Hr].
  - exists v, true. split_and!; [done|done|naive_solver|done].
Qed.

Lemma walk_ends_ok depth def declared v cur instances have (it : list FixField.t) :
  in_dictionary def → sound_visitor v → 0 ≤ depth ≤ 16 → walking depth def v cur instances have →
  ∃ v' ok, walk_ends def declared depth instances have (v, it) = ((v', it), Returns ok) ∧ keeps depth v v' ∧
    (ok = true ↔ complete def cur ∧ instances = declared) ∧ (ok = false → FixReject.ok (reject v') = false).
Proof.
  intros Hdef Hv Hd Hw. unfold walk_ends.
  destruct (close_instance depth def v cur instances have it Hdef Hv Hd Hw) as (v1 & ok1 & He & Hk & Hok & Hr).
  erewrite bind_returns by exact He. destruct ok1.
  2:{ exists v1, false. split_and!; [done|done|naive_solver|done]. }
  subst v1. unfold on_fst. cbn [fst snd leave_group GroupValidationVisitor]. unfold validate_group.
  rewrite (bind_returns _ _ v v (type_ v)) by reflexivity.
  destruct (Z.eqb_spec instances declared) as [He'|He']; cbn [negb].
  - exists v, true. split_and!; [done|done|naive_solver|done].
  - destruct Hv as [Hs Hc]. destruct (lookup_lt_is_Some_2 (counter_value v) (Z.to_nat depth)) as [c Hcv]; [lia|].
    rewrite (bind_returns _ _ v v c) by (unfold ask; by rewrite (at_index_ok _ _ c) by (done || lia)).
    destruct (rejected_ok depth (FixReject.mk IncorrectNumInGroupCount (counter_tag def) (type_ v) c) v)
      as (v' & -> & Hk' & Hr'); [done|]. exists v', false. split_and!; [done|done|naive_solver|by rewrite Hr'].
Qed.

(** What a walk promises. *)
Definition walked (depth : Z) (def : group_def) (declared instances : Z) (cur : option (list Z))
    (v : GroupValidation) (it : list FixField.t) (r : walk * outcome bool) : Prop :=
  ∃ v' it' ok, r = ((v', it'), Returns ok) ∧ keeps depth v v' ∧ it' `suffix_of` it ∧
    (ok = false → FixReject.ok (reject v') = false) ∧
    (ok = true → ∃ n, group_rest depth def cur it n it' ∧ instances + Z.of_nat n = declared) ∧
    (∀ n after, group_rest depth def cur it n after → instances + Z.of_nat n = declared →
       ok = true ∧ after = it').

Definition walk_loop_spec (turns : nat) : Prop :=
  ∀ def declared depth instances cur have v it,
    in_dictionary def → sound_visitor v → 0 ≤ depth ≤ 16 → (length it < turns)%nat →
    walking depth def v cur instances have → Forall fits_its_type it →
    walked depth def declared instances cur v it (walk_loop turns def declared depth instances have (v, it)).

(** The group a member counts. *)
Definition nested_step (turns : nat) (def : group_def) (depth instances : Z) (m : group_member) (f : FixField.t)
    : comp walk bool :=
  if (0 <=? nested_group m) && (depth <? max_group_depth) then
    let nested := group_at (nested_group m) in
    descend ← on_fst (enter_nested depth def (instances - 1) f nested);
    if descend : bool then
      declared ← ask (λ _, parse_num_in_group (FixField.value f));
      walk_loop turns nested declared (depth + 1) 0 false
    else skip_repeating_group turns nested;; mret true
  else mret true.

Lemma nested_step_ok turns def depth instances m f v it :
  walk_loop_spec turns → in_dictionary def → group_member_index def (FixField.tag f) = Some m →
  sound_visitor v → 0 ≤ depth ≤ 16 → (length it < turns)%nat → fits_its_type f → Forall fits_its_type it →
  ∃ v' it' ok, nested_step turns def depth instances m f (v, it) = ((v', it'), Returns ok) ∧
    keeps (depth + 1) v v' ∧ it' `suffix_of` it ∧ (ok = false → FixReject.ok (reject v') = false) ∧
    (ok = true → group_nested depth m f it it') ∧
    (∀ after, group_nested depth m f it after → ok = true ∧ after = it').
Proof.
  intros IH [i ->] Hm Hv Hd Ht Hf Hit. apply member_index_in in Hm as [Hm Hmt]. unfold nested_step.
  destruct ((0 <=? nested_group m) && (depth <? max_group_depth)) eqn:Hn; bool_to_prop.
  2:{ exists v, it, true. split_and!; [done|by apply keeps_refl|done|done| |].
      - intros _. constructor. lia.
      - intros after Ha. by inversion Ha; subst; [|lia]. }
  destruct Hv as [Hs Hc].
  set (v1 := mk_visitor (type_ v) (reject v) (instance_seen v)
               (<[Z.to_nat (depth + 1) := FixField.value f]> (counter_value v))).
  assert (Hv1 : sound_visitor v1) by (split; cbn; [done|by rewrite length_insert]).
  rewrite (bind_returns _ _ (v, it) (v1, it) true).
  2:{ unfold on_fst. cbn [fst snd enter_nested GroupValidationVisitor]. unfold validate_nested.
      erewrite bind_returns by (unfold ask, store_at; unfold max_group_depth in *;
        rewrite Hc, (proj2 (Z.leb_le _ _)), (proj2 (Z.ltb_lt _ _)) by lia; reflexivity).
      erewrite bind_returns by reflexivity. reflexivity. }
  destruct Hf as [_ Hn']. apply parse_num_ok in Hn'; [|right; by exists i, m].
  set (n := decimal_value (numerals_in (FixField.value f))) in *.
  rewrite (bind_returns _ _ (v1, it) (v1, it) n) by (unfold ask; by rewrite Hn').
  destruct (IH (group_at (nested_group m)) n (depth + 1) 0 None false v1 it)
    as (v' & it' & ok & -> & Hk & Hsuf & Hbad & Hgood & Hall);
    [by exists (nested_group m)|done|unfold max_group_depth in *; lia|done|done|done|].
  exists v', it', ok. split_and!; [done|by eapply (keeps_trans (depth + 1)); [|split_and!|]|done|done| |].
  - intros Hok. destruct (Hgood Hok) as (k & Hr & Hk'). econstructor; [lia|unfold max_group_depth in *; lia|done|].
    unfold n in *. lia.
  - intros after Ha. inversion Ha; subst; [lia|]. eapply Hall; [done|]. unfold n in *. lia.
Qed.

(** The rest of a turn, after the field [f] of the member [m]. *)
Definition walk_tail (turns : nat) (def : group_def) (declared depth instances : Z) (m : group_member)
    (f : FixField.t) (rest : list FixField.t) : comp walk bool :=
  on_snd (modify (λ _, rest));;
  ok ← nested_step turns def depth instances m f;
  if negb ok then mret false else walk_loop turns def declared depth instances true.

Lemma walk_tail_ok turns def declared depth instances m f tags v it rest :
  walk_loop_spec turns → in_dictionary def → group_member_index def (FixField.tag f) = Some m →
  sound_visitor v → 0 ≤ depth ≤ 16 → (length rest < turns)%nat → fits_its_type f → Forall fits_its_type rest →
  walking depth def v (Some tags) instances true →
  ∃ v' it' ok, walk_tail turns def declared depth instances m f rest (v, it) = ((v', it'), Returns ok) ∧
    keeps depth v v' ∧ it' `suffix_of` rest ∧ (ok = false → FixReject.ok (reject v') = false) ∧
    (ok = true → ∃ n mid, group_nested depth m f rest mid ∧ group_rest depth def (Some tags) mid n it' ∧
                          instances + Z.of_nat n = declared) ∧
    (∀ n mid after, group_nested depth m f rest mid → group_rest depth def (Some tags) mid n after →
       instances + Z.of_nat n = declared → ok = true ∧ after = it').
Proof.
  intros IH Hdef Hm Hv Hd Ht Hf Hrest (_ & Hi & Htr & Hs). unfold walk_tail.
  rewrite (bind_returns _ _ (v, it) (v, rest) ()) by reflexivity.
  destruct (nested_step_ok turns def depth instances m f v rest)
    as (v1 & mid & ok1 & He & Hk1 & Hsuf1 & Hbad1 & Hgood1 & Hall1); [done..|].
  rewrite (bind_returns _ _ (v, rest) (v1, mid) ok1) by done. destruct ok1; cbn [negb].
  2:{ exists v1, mid, false. split_and!; [done| |done|done|done|].
      - eapply (keeps_trans _ (depth + 1)); [lia|by apply keeps_refl|done].
      - intros n mid' after Hn. by destruct (Hall1 _ Hn). }
  destruct Hsuf1 as [gone ->]. apply Forall_app in Hrest as [_ Hmid].
  destruct (IH def declared depth instances (Some tags) true v1 mid)
    as (v' & it' & ok & -> & Hk & Hsuf & Hbad & Hgood & Hall); [done|apply Hk1|done| | |done|].
  { rewrite length_app in Ht. lia. }
  { do 3 (split; [done|]). destruct Hk1 as (_ & _ & Hsame). by rewrite Hsame by lia. }
  exists v', it', ok. split_and!; [done| | |done| |].
  - eapply (keeps_trans depth depth); [lia| |done]. eapply (keeps_trans _ (depth + 1)); [lia|by apply keeps_refl|done].
  - by apply suffix_app_r.
  - intros Hok. destruct (Hgood Hok) as (n & Hr & Hn). exists n, mid. by split_and!; [apply Hgood1| |].
  - intros n mid' after Hn Hr Hc. destruct (Hall1 _ Hn) as [_ ->]. by eapply Hall.
Qed.

Lemma walk_loop_member turns def declared depth instances have v f rest m :
  group_member_index def (FixField.tag f) = Some m →
  walk_loop (S turns) def declared depth instances have (v, f :: rest)
  = (started ← walk_instance def depth instances have f;
     match started : option (Z * bool) with
     | None => mret false
     | Some (instances, have) =>
         ok ← walk_field def depth instances have m f;
         if negb ok then mret false
         else
           on_snd (modify (λ _, rest));;
           ok ← (if (0 <=? nested_group m) && (depth <? max_group_depth) then
                   let nested := group_at (nested_group m) in
                   descend ← (if have then on_fst (enter_nested depth def (instances - 1) f nested)
                              else mret false);
                   if descend : bool then
                     declared ← ask (λ _, parse_num_in_group (FixField.value f));
                     walk_loop turns nested declared (depth + 1) 0 false
                   else skip_repeating_group turns nested;; mret true
                 else mret true);
           if negb ok then mret false else walk_loop turns def declared depth instances have
     end) (v, f :: rest).
Proof. intros Hm. cbn [walk_loop]. rewrite (bind_returns _ _ (v, f :: rest) (v, f :: rest) (f :: rest)) by reflexivity. by rewrite Hm. Qed.

(** A walk at the end of its group. *)
Lemma walk_over depth def declared instances cur have v it :
  in_dictionary def → sound_visitor v → 0 ≤ depth ≤ 16 → walking depth def v cur instances have →
  outside def it →
  walked depth def declared instances cur v it (walk_ends def declared depth instances have (v, it)).
Proof.
  intros Hdef Hv Hd Hw Ho.
  destruct (walk_ends_ok depth def declared v cur instances have it Hdef Hv Hd Hw) as (v' & ok & -> & Hk & Hok & Hbad).
  exists v', it, ok. split_and!; [done..| |].
  - intros [Hc He]%Hok. exists 0%nat. split; [by constructor|lia].
  - intros n after Hr Hn. inversion Hr; subst; cbn in Ho; try congruence.
    split; [|done]. apply Hok. split; [done|lia].
Qed.

(** A walk that stopped at a fault. *)
Lemma walk_stops depth def declared instances cur v v' it :
  keeps depth v v' → FixReject.ok (reject v') = false →
  (∀ n after, ¬ group_rest depth def cur it n after) →
  walked depth def declared instances cur v it ((v', it), Returns false).
Proof.
  intros Hk Hr Hno. exists v', it, false. split_and!; [done..|].
  intros n after Hn. by destruct (Hno _ _ Hn).
Qed.

(** A field of the instance with the tags [tags], and what follows it. *)
Lemma walk_member turns depth def declared instances cur tags v0 v f rest m n0 :
  walk_loop_spec turns → in_dictionary def → group_member_index def (FixField.tag f) = Some m →
  sound_visitor v → keeps depth v0 v → 0 ≤ depth ≤ 16 → (length rest < turns)%nat →
  fits_its_type f → Forall fits_its_type rest → 0 < instances → tracked def tags →
  instance_seen v !! Z.to_nat depth = Some tags →
  (∀ k after, group_rest depth def cur (f :: rest) k after ↔
     ∃ n mid, k = (n0 + n)%nat ∧ FixField.tag f ∉ tags ∧ value_conforms f ∧ group_nested depth m f rest mid ∧
              group_rest depth def (Some (tags ++ [FixField.tag f])) mid n after) →
  walked depth def declared (instances - Z.of_nat n0) cur v0 (f :: rest)
    ((ok ← walk_field def depth instances true m f;
      if negb ok then mret false else walk_tail turns def declared depth instances m f rest) (v, f :: rest)).
Proof.
  intros IH Hdef Hm Hv Hk0 Hd Ht Hf Hrest Hi Htr Hs Hiff.
  destruct (validate_field_ok depth tags f m def v) as (v1 & ok1 & He & Hk1 & Hok1 & Hcase); [done..|].
  rewrite (bind_returns _ _ (v, f :: rest) (v1, f :: rest) ok1).
  2:{ unfold walk_field, on_fst. cbn [fst snd visit_field GroupValidationVisitor]. by rewrite He. }
  destruct ok1; cbn [negb].
  2:{ apply walk_stops; [by eapply (keeps_trans depth depth)|done|].
      intros k after (n & mid & _ & H1 & H2 & _)%Hiff. by discriminate (proj2 Hok1 (conj H1 H2)). }
  destruct (proj1 Hok1 eq_refl) as [Hnot Hval].
  destruct (walk_tail_ok turns def declared depth instances m f (tags ++ [FixField.tag f]) v1 (f :: rest) rest)
    as (v' & it' & ok & -> & Hk & Hsuf & Hbad & Hgood & Hall); [done..|apply Hk1|done|done|done|done| |].
  { split; [done|]. split; [done|]. split; [by eapply tracked_snoc|done]. }
  exists v', it', ok. split_and!; [done| | |done| |].
  - eapply (keeps_trans depth depth); [lia|done|]. by eapply (keeps_trans depth depth).
  - by apply suffix_cons_r.
  - intros (n & mid & Hn & Hr & Hc)%Hgood. exists (n0 + n)%nat. split; [|lia]. apply Hiff. by exists n, mid.
  - intros k after (n & mid & -> & _ & _ & Hn & Hr)%Hiff Hc. eapply Hall; [done|done|lia].
Qed.

(** A field begins an instance, goes on with one or stops the walk. *)
Lemma walk_instance_ok depth def instances cur have v f rest m :
  in_dictionary def → sound_visitor v → 0 ≤ depth ≤ 16 → walking depth def v cur instances have →
  group_member_index def (FixField.tag f) = Some m →
  ∃ v' r, walk_instance def depth instances have f (v, f :: rest) = ((v', f :: rest), Returns r) ∧ keeps depth v v' ∧
    match r with
    | None => FixReject.ok (reject v') = false ∧ ∀ n after, ¬ group_rest depth def cur (f :: rest) n after
    | Some (instances', have') =>
        have' = true ∧ 0 < instances' ∧ ∃ tags n0,
          tracked def tags ∧ instance_seen v' !! Z.to_nat depth = Some tags ∧ instances = instances' - Z.of_nat n0 ∧
          ∀ k after, group_rest depth def cur (f :: rest) k after ↔
            ∃ n mid, k = (n0 + n)%nat ∧ FixField.tag f ∉ tags ∧ value_conforms f ∧ group_nested depth m f rest mid ∧
              group_rest depth def (Some (tags ++ [FixField.tag f])) mid n after
    end.
Proof.
  intros Hdef Hv Hd Hw Hm. unfold walk_instance.
  destruct (Z.eqb_spec (FixField.tag f) (delimiter_tag def)) as [Hdel|Hdel].
  - destruct (close_instance depth def v cur instances have (f :: rest) Hdef Hv Hd Hw)
      as (v1 & ok1 & He & Hk1 & Hok1 & Hcase).
    rewrite (bind_returns _ _ (v, f :: rest) (v1, f :: rest) ok1) by done. destruct ok1.
    + subst v1. destruct (set_seen_ok depth [] v Hv Hd) as (v2 & Hv2 & Hk2 & Hs2 & _).
      rewrite (bind_returns _ _ (v, f :: rest) (v2, f :: rest) ()).
      2:{ unfold on_fst. cbn [fst snd enter_instance GroupValidationVisitor]. by rewrite Hv2. }
      exists v2, (Some (instances + 1, true)). split; [done|]. split; [done|]. split; [done|].
      split; [destruct cur; [destruct Hw as (_ & ? & _)|destruct Hw as [_ ->]]; lia|].
      exists [], 1%nat. split; [split; [constructor|set_solver]|]. split; [done|]. split; [lia|].
      intros k after. split.
      * intros Hr. inversion Hr as [? ? ? ? Ho|? ? ? ? m' ? mid n ? Hm'|? ? ? ? ? ? ? ? ? ? Hne]; subst; [cbn in Ho; congruence| |done].
        rewrite Hm in Hm'. injection Hm' as <-. exists n, mid. split_and!; [done|set_solver|done..].
      * intros (n & mid & -> & _ & Hval & Hn & Hr). eapply group_instance; [done|done|by apply Hok1|done..].
    + exists v1, None. split_and!; [done..|]. intros n after Hr.
      inversion Hr as [? ? ? ? Ho|? ? ? ? ? ? ? ? ? ? ? Hc|? ? ? ? ? ? ? ? ? ? Hne]; subst; [cbn in Ho; congruence| |done].
      by discriminate (proj2 Hok1 Hc).
  - destruct cur as [tags|]; cbn [walking] in Hw.
    + destruct Hw as (-> & Hi & Htr & Hs). exists v, (Some (instances, true)). split; [done|]. split; [by apply keeps_refl|].
      split; [done|]. split; [done|]. exists tags, 0%nat. split; [done|]. split; [done|]. split; [lia|].
      intros k after. split.
      * intros Hr. inversion Hr as [? ? ? ? Ho|? ? ? ? ? ? ? ? ? ? He|? ? ? ? m' ? mid n ? Hm']; subst; [cbn in Ho; congruence|done|].
        rewrite Hm in Hm'. injection Hm' as <-. exists k, mid. by split_and!.
      * intros (n & mid & -> & Hnot & Hval & Hn & Hr). by eapply group_field.
    + destruct Hw as [-> ->].
      destruct (rejected_ok depth (FixReject.mk RequiredTagMissing (delimiter_tag def) (type_ v) []) v Hv)
        as (v' & He & Hk & Hr).
      rewrite (bind_returns _ _ (v, f :: rest) (v', f :: rest) false).
      2:{ unfold on_fst. cbn [fst snd orphan_field GroupValidationVisitor]. unfold validate_orphan.
          rewrite (bind_returns _ _ v v (type_ v)) by reflexivity. by rewrite He. }
      exists v', None. split; [done|]. split; [done|]. split; [by rewrite Hr|].
      intros n after Hg. inversion Hg as [? ? ? ? Ho|? ? ? ? ? ? ? ? ? ? He'|]; subst; [cbn in Ho; congruence|done].
Qed.

Lemma walk_loop_ok turns : walk_loop_spec turns.
Proof.
  induction turns as [|turns IH]; intros def declared depth instances cur have v it Hdef Hv Hd Ht Hw Hfits; [lia|].
  destruct it as [|f rest]; [by apply walk_over|].
  destruct (group_member_index def (FixField.tag f)) as [m|] eqn:Hm.
  2:{ assert (Ho : outside def (f :: rest)) by done. cbn [walk_loop].
      rewrite (bind_returns _ _ (v, f :: rest) (v, f :: rest) (f :: rest)) by reflexivity.
      rewrite Hm. by apply walk_over. }
  rewrite (walk_loop_member turns def declared depth instances have v f rest m) by done.
  inversion Hfits as [|? ? Hf Hrest]; subst. cbn [length] in Ht.
  destruct (walk_instance_ok depth def instances cur have v f rest m Hdef Hv Hd Hw Hm)
    as (v1 & r & He & Hk1 & Hcase).
  rewrite (bind_returns _ _ (v, f :: rest) (v1, f :: rest) r) by done. destruct r as [[instances' have']|].
  - destruct Hcase as (-> & Hi & tags & n0 & Htr & Hs & -> & Hiff).
    apply (walk_member turns depth def declared instances' cur tags v v1 f rest m n0); try done; [apply Hk1|lia].
  - destruct Hcase as [Hbad Hno]. by apply walk_stops.
Qed.

(** A group after its counter, from the body of a message. *)
Lemma walk_repeating_group_ok def declared type counter it :
  in_dictionary def → Forall fits_its_type it →
  walked 0 def declared 0 None (visitor_for type counter) it
    (walk_repeating_group def declared 0 (visitor_for type counter, it)).
Proof. intros Hdef Hf. apply walk_loop_ok; [done|done|lia|cbn; lia|done|done]. Qed.

(** ** The body *)

(** The words hold a bit for each of the tags. *)
Definition marks (words : list Z) (tags : list Z) : Prop :=
  size words = permitted_word_count ∧
  ∀ i, 0 ≤ i < 64 * permitted_word_count →
    mask_has_index words i = Returns (bool_decide (i ∈ field_index <$> tags)).

Lemma word_at (words : list Z) i :
  0 ≤ i < 64 * size words →
  ∃ word, words !! Z.to_nat (i / 64) = Some word ∧ at_index words (i / 64) = Returns word ∧
    mask_has_index words i = Returns (Z.testbit word (i mod 64)).
Proof.
  intros Hi. assert (0 ≤ i / 64 < size words) by (split; [apply Z.div_pos|apply Z.div_lt_upper_bound]; lia).
  destruct (lookup_lt_is_Some_2 words (Z.to_nat (i / 64))) as [word Hw]; [unfold size in *; lia|].
  assert (Ha : at_index words (i / 64) = Returns word) by (apply at_index_ok; [lia|done]).
  exists word. split_and!; [done|done|]. unfold mask_has_index. rewrite (proj2 (Z.ltb_ge _ _)), Ha by lia.
  cbn [obind]. rewrite Z.shiftr_spec by lia. by rewrite Z.add_0_l.
Qed.

Lemma land_bit word k : 0 ≤ k → (Z.land word (Z.shiftl 1 k) =? 0) = negb (Z.testbit word k).
Proof.
  intros Hk. rewrite Z.shiftl_1_l. destruct (Z.testbit word k) eqn:Hb; cbn [negb].
  - apply Z.eqb_neq. intros H0. assert (Z.testbit (Z.land word (2 ^ k)) k = true) as Ht
      by (rewrite Z.land_spec, Hb, Z.pow2_bits_true by lia; done).
    by rewrite H0, Z.bits_0 in Ht.
  - apply Z.eqb_eq. apply Z.bits_inj'. intros n Hn. rewrite Z.land_spec, Z.bits_0.
    destruct (decide (n = k)) as [->|]; [by rewrite Hb|]. rewrite Z.pow2_bits_false by lia. apply andb_false_r.
Qed.

Lemma lor_bit word k j : 0 ≤ k → 0 ≤ j →
  Z.testbit (Z.lor word (Z.shiftl 1 k)) j = Z.testbit word j || (j =? k).
Proof.
  intros Hk Hj. rewrite Z.lor_spec, Z.shiftl_1_l. f_equal. rewrite Z.pow2_bits_eqb by lia. apply Z.eqb_sym.
Qed.

Lemma marks_none : marks (replicate (Z.to_nat permitted_word_count) 0) [].
Proof.
  assert (Hs : size (replicate (Z.to_nat permitted_word_count) 0) = permitted_word_count)
    by (unfold size; rewrite length_replicate; pose proof words_nonneg; lia).
  split; [done|]. intros i Hi. destruct (word_at (replicate (Z.to_nat permitted_word_count) 0) i) as (w & Hw & _ & ->);
    [by rewrite Hs|]. apply lookup_replicate in Hw as [-> _]. by rewrite Z.bits_0.
Qed.

Lemma test_and_set_ok words tags tag :
  marks words tags → 0 ≤ field_index tag →
  ∃ words' already, test_and_set_index words (field_index tag) = Returns (words', already) ∧
    already = bool_decide (tag ∈ tags) ∧ (already = false → marks words' (tags ++ [tag])).
Proof.
  intros [Hs Hm] Hi. destruct (index_in_range tag) as [?|Hr]; [lia|]. set (i := field_index tag) in *.
  destruct (word_at words i) as (word & Hw & Ha & Hb); [by rewrite Hs|].
  assert (Hin : bool_decide (i ∈ field_index <$> tags) = bool_decide (tag ∈ tags)).
  { apply bool_decide_ext. rewrite list_elem_of_fmap. split; [|by exists tag].
    intros (t & Ht & Hin). assert (tag = t) as -> by (by apply index_names_one). done. }
  unfold test_and_set_index. rewrite Ha. cbn [obind]. pose proof (Z.mod_pos_bound i 64 ltac:(lia)).
  rewrite land_bit, negb_involutive by lia. rewrite Hm in Hb by done. injection Hb as Hb. rewrite <- Hb, Hin.
  destruct (bool_decide (tag ∈ tags)) eqn:Hd.
  { exists words, true. split_and!; [done..|]. done. }
  eexists _, false. split; [done|]. split; [done|]. intros _.
  assert (Hs' : size (<[Z.to_nat (i / 64):=Z.lor word (Z.shiftl 1 (i mod 64))]> words) = permitted_word_count)
    by (unfold size in *; by rewrite length_insert).
  split; [done|]. intros j Hj.
  destruct (word_at (<[Z.to_nat (i / 64):=Z.lor word (Z.shiftl 1 (i mod 64))]> words) j) as (word' & Hw' & _ & ->);
    [by rewrite Hs'|]. f_equal. pose proof (Z.mod_pos_bound j 64 ltac:(lia)).
  destruct (word_at words j) as (old & Hold & _ & Hbj); [by rewrite Hs|]. rewrite Hm in Hbj by done.
  injection Hbj as Hbj.
  assert (Hsn : bool_decide (j ∈ field_index <$> tags ++ [tag]) = bool_decide (j ∈ field_index <$> tags) || (j =? i)).
  { rewrite fmap_app. apply Bool.eq_true_iff_eq. rewrite orb_true_iff, !bool_decide_eq_true, elem_of_app, Z.eqb_eq.
    cbn. by rewrite list_elem_of_singleton. }
  rewrite Hsn, Hbj. destruct (decide (j / 64 = i / 64)) as [He|He].
  - rewrite He in Hw', Hold. rewrite list_lookup_insert_eq in Hw' by (by eapply lookup_lt_Some).
    injection Hw' as <-. rewrite Hw in Hold. injection Hold as <-. rewrite lor_bit by lia. f_equal.
    apply Bool.eq_true_iff_eq. rewrite !Z.eqb_eq. split; [|by intros ->].
    intros Hmod. rewrite (Z.div_mod j 64), (Z.div_mod i 64) by lia. congruence.
  - assert (0 ≤ i / 64) by (apply Z.div_pos; lia). assert (0 ≤ j / 64) by (apply Z.div_pos; lia).
    rewrite list_lookup_insert_ne in Hw' by lia. rewrite Hold in Hw'. injection Hw' as <-.
    rewrite (proj2 (Z.eqb_neq j i)) by (by intros ->). by rewrite orb_false_r.
Qed.

Lemma required_present_ok type seen tags req :
  marks seen tags → (∀ tag, tag ∈ req → 0 ≤ field_index tag) →
  ∃ r, required_present type seen req = Returns r ∧
    (FixReject.ok r = true ↔ ∀ tag, tag ∈ req → tag ∈ tags).
Proof.
  intros Hm. induction req as [|t req IH]; intros Hd; cbn [required_present].
  { eexists. split; [done|]. split; [|done]. intros _ tag Ht. by apply not_elem_of_nil in Ht. }
  destruct IH as (r & Hr & Hok); [set_solver|]. assert (Ht : 0 ≤ field_index t) by (apply Hd; by left).
  destruct (index_in_range t) as [?|Hrange]; [lia|]. destruct Hm as [_ Hm]. rewrite Hm by done. cbn [obind].
  assert (Hin : field_index t ∈ field_index <$> tags ↔ t ∈ tags).
  { rewrite list_elem_of_fmap. split; [|by exists t]. intros (u & Hu & Hin).
    assert (t = u) as -> by (by apply index_names_one). done. }
  destruct (bool_decide_reflect (field_index t ∈ field_index <$> tags)) as [Hy|Hy]; rewrite Hin in Hy.
  - exists r. split; [done|]. rewrite Hok. set_solver.
  - eexists. split; [done|]. split; [done|]. intros Hall. exfalso. apply Hy, Hall. by left.
Qed.

Lemma check_top_field_ok type seen tags f :
  marks seen tags → fits_its_type f →
  ∃ seen' r, check_top_field type (permitted_mask type) seen f = Returns (seen', r) ∧
    (FixReject.ok r = true ↔ permitted type (FixField.tag f) ∧ FixField.tag f ∉ tags ∧ value_conforms f) ∧
    (FixReject.ok r = true → marks seen' (tags ++ [FixField.tag f])).
Proof.
  intros Hm Hf. unfold check_top_field, permitted.
  destruct (Z.ltb_spec (field_index (FixField.tag f)) 0) as [Hneg|Hi].
  { eexists _, _. split; [done|]. split; [|done]. split; [done|]. intros [[? _] _]. lia. }
  destruct (index_in_range (FixField.tag f)) as [?|Hr]; [lia|].
  assert (Hp : ∃ b, match permitted_mask type with
                    | None => Returns true
                    | Some words => mask_has_index words (field_index (FixField.tag f))
                    end = Returns b ∧
    (b = true ↔ ∀ words, permitted_mask type = Some words →
       ∃ word, words !! Z.to_nat (field_index (FixField.tag f) / 64) = Some word ∧
         Z.testbit word (field_index (FixField.tag f) mod 64) = true)).
  { destruct (permitted_mask type) as [words|] eqn:Hw; [|by exists true].
    destruct (word_at words (field_index (FixField.tag f))) as (w & Hat & _ & Hwm); [by rewrite (mask_has_words _ _ Hw)|].
    eexists. split; [exact Hwm|]. split.
    - intros Hb w' [= <-]. by exists w.
    - intros Hall. destruct (Hall words eq_refl) as (w' & Hw' & Hb). congruence. }
  destruct Hp as (b & -> & Hb). cbn [obind]. destruct b; cbn [negb].
  2:{ eexists _, _. split; [done|]. split; [|done]. split; [done|]. intros [[_ Hw] _]. by apply Hb in Hw. }
  apply proj1 in Hb. specialize (Hb eq_refl).
  destruct (test_and_set_ok seen tags (FixField.tag f) Hm Hi) as (words & already & -> & Ha & Hmk). cbn [obind fst snd].
  destruct already; symmetry in Ha; bool_to_prop.
  { eexists _, _. split; [done|]. split; [|done]. split; [done|]. by intros (_ & ? & _). }
  destruct (check_field_semantics_ok f type Hi Hf) as (r & -> & Hok). cbn [obind].
  eexists _, _. split; [done|]. split; [|by intros _; apply Hmk]. rewrite Hok. naive_solver.
Qed.

Lemma validate_loop_ok type turns : ∀ tags seen it,
  (length it < turns)%nat → marks seen tags → Forall fits_its_type it →
  ∃ r, validate_loop turns type (permitted_mask type) seen it = Returns r ∧
    (FixReject.ok r = true ↔ body_rest type tags it).
Proof.
  induction turns as [|turns IH]; intros tags seen it Ht Hm Hf; [lia|]. cbn [validate_loop].
  destruct it as [|f rest].
  { destruct (required_present_ok type seen tags (required_tags type) Hm) as (r & -> & Hok).
    { intros tag. apply required_defined. }
    exists r. split; [done|]. rewrite Hok. split; [by constructor|]. by inversion 1. }
  inversion Hf as [|? ? Hff Hrest]; subst. cbn [length] in Ht.
  destruct (check_top_field_ok type seen tags f Hm Hff) as (seen' & r & -> & Hok & Hmk). cbn [obind].
  destruct (FixReject.ok r) eqn:Hr; cbn [negb].
  2:{ exists r. split; [done|]. rewrite Hr. split; [done|]. intros Hb. apply Hok. by inversion Hb; subst. }
  specialize (Hmk eq_refl). destruct (proj1 Hok eq_refl) as (Hper & Hnot & Hval).
  destruct (Z.leb_spec 0 (group_index_for_counter (FixField.tag f))) as [Hg|Hg].
  - rewrite (parse_num_ok _ (proj2 Hff (or_introl Hg))). cbn [obind].
    set (declared := decimal_value (numerals_in (FixField.value f))) in *.
    destruct (walk_repeating_group_ok (group_at (group_index_for_counter (FixField.tag f))) declared type
      (FixField.value f) rest) as (v' & it' & ok & -> & _ & Hsuf & Hbad & Hgood & Hall); [by eexists|done|].
    cbn [obind]. destruct ok; cbn [negb].
    + destruct Hsuf as [gone ->]. apply Forall_app in Hrest as [_ Hit]. rewrite length_app in Ht.
      destruct (IH (tags ++ [FixField.tag f]) seen' it') as (r' & -> & Hok'); [lia|done|done|].
      exists r'. split; [done|]. rewrite Hok'. destruct (Hgood eq_refl) as (n & Hn & Hd). split.
      * intros Hb. apply (body_group type tags f (gone ++ it') n it'); done.
      * intros Hb. inversion Hb as [|? ? ? _ _ _ Hlt|? ? ? k after _ _ _ _ Hk Hpk]; subst; [lia|].
        by destruct (Hall k after Hk ltac:(lia)) as [_ ->].
    + exists (reject v'). split; [done|]. rewrite (Hbad eq_refl). split; [done|].
      intros Hb. inversion Hb as [|? ? ? _ _ _ Hlt|? ? ? k after _ _ _ _ Hk Hpk]; subst; [lia|].
      by destruct (Hall k after Hk ltac:(lia)).
  - destruct (IH (tags ++ [FixField.tag f]) seen' rest) as (r' & -> & Hok'); [lia|done|done|].
    exists r'. split; [done|]. rewrite Hok'. split; [by constructor|]. by inversion 1; subst; [|lia].
Qed.
End validity.


(** ** A dictionary, and messages of it *)

Module SmallDictionary.

Definition tags : list Z := [8; 9; 10; 34; 35; 44; 52; 54; 58; 95; 96; 453; 448; 447; 802; 523; 803].

Fixpoint position (l : list Z) (tag at_ : Z) : Z :=
  match l with
  | [] => -1
  | t :: l => if t =? tag then at_ else position l tag (at_ + 1)
  end.

Lemma position_spec l tag : ∀ at_, 0 ≤ at_ →
  position l tag at_ = -1 ∨
  (at_ ≤ position l tag at_ < at_ + size l ∧ l !! Z.to_nat (position l tag at_ - at_) = Some tag).
Proof.
  induction l as [|t l IH]; intros at_ Ha; cbn [position]; [by left|].
  unfold size. cbn [length]. destruct (Z.eqb_spec t tag) as [->|Ht].
  - right. split; [lia|]. by rewrite Z.sub_diag.
  - destruct (IH (at_ + 1) ltac:(lia)) as [->|[Hr Hl]]; [by left|right].
    unfold size in Hr. split; [lia|].
    replace (Z.to_nat (position l tag (at_ + 1) - at_)) with (S (Z.to_nat (position l tag (at_ + 1) - (at_ + 1)))) by lia.
    done.
Qed.

Definition parties : group_def :=
  mk_group 453 448 [mk_member 448 true (-1); mk_member 447 false (-1); mk_member 802 false 1].
Definition party_subs : group_def := mk_group 802 523 [mk_member 523 true (-1); mk_member 803 false (-1)].

#[export] Instance dictionary : Dictionary := {|
  data_lengths := λ tag, tag =? 95;
  permitted_word_count := 1;
  field_index tag := position tags tag 0;
  permitted_mask type := if bool_decide (type = text "D") then Some [0xFFFF] else None;
  field_format_at i :=
    match tags !! Z.to_nat i with
    | Some 34 | Some 453 | Some 802 | Some 95 => fix_int
    | Some 44 => fix_decimal
    | Some 52 => fix_utc_timestamp
    | Some 54 => fix_char
    | _ => fix_string
    end;
  has_enum_values_at i := i =? 7;
  is_defined_enum_value_at i v := (i =? 7) && (bool_decide (v = text "1") || bool_decide (v = text "2"));
  required_tags type := if bool_decide (type = text "D") then [35; 44; 54] else [];
  group_index_for_counter tag := if tag =? 453 then 0 else if tag =? 802 then 1 else -1;
  group_at i := if i =? 0 then parties else if i =? 1 then party_subs else mk_group 0 0 []
|}.

#[export] Instance laws : DictionaryLaws dictionary.
Proof.
  split.
  - done.
  - intros tag. destruct (position_spec tags tag 0 ltac:(lia)) as [H|[H _]]; [by left|right].
    change (size tags) with 17 in H. cbn [field_index dictionary permitted_word_count]. lia.
  - intros a b Ha He. cbn [field_index dictionary] in *.
    destruct (position_spec tags a 0 ltac:(lia)) as [H|[_ H]]; [lia|].
    destruct (position_spec tags b 0 ltac:(lia)) as [H'|[_ H']]; [lia|]. congruence.
  - intros type words. cbn. destruct (bool_decide _); [|done]. by intros [= <-].
  - intros i m. cbn [group_at dictionary]. destruct (i =? 0); [|destruct (i =? 1)]; cbn [members parties party_subs];
      rewrite ?elem_of_cons, elem_of_nil; intros Hm; repeat destruct Hm as [->|Hm]; try done; by vm_compute.
  - intros i. cbn [group_at dictionary]. destruct (i =? 0); [|destruct (i =? 1)]; cbn; lia.
  - intros type tag. cbn [required_tags dictionary]. destruct (bool_decide _);
      rewrite ?elem_of_cons, elem_of_nil; intros Hm; repeat destruct Hm as [->|Hm]; try done; by vm_compute.
Qed.

Lemma counters tag : counts_a_group tag → tag = 453 ∨ tag = 802.
Proof.
  unfold counts_a_group. cbn [group_index_for_counter group_at dictionary].
  intros [H|(i & m & Hm & <- & Hn)].
  - destruct (Z.eqb_spec tag 453), (Z.eqb_spec tag 802); lia.
  - destruct (i =? 0); [|destruct (i =? 1)]; cbn [members parties party_subs] in Hm;
      rewrite ?elem_of_cons, elem_of_nil in Hm; repeat destruct Hm as [->|Hm]; cbn in *; try done; lia.
Qed.

Definition field (tag : Z) (value : string) : FixField.t := FixField.mk tag (text value).

(** An order with two parties, of which the second has a sub-identifier. *)
Definition order : list FixField.t :=
  [field 35 "D"; field 34 "7"; field 52 "20260314-09:30:15"; field 44 "10.5"; field 54 "1"; field 453 "2";
   field 448 "A"; field 447 "D"; field 448 "B"; field 802 "1"; field 523 "x"].

Definition order_fields : list FixField.t := all_fields (text "FIXT.1.1") order.

(** The same order, with a count of minus two. *)
Definition miscounted : list FixField.t :=
  [field 35 "D"; field 34 "7"; field 44 "10.5"; field 54 "1"; field 453 "-2"; field 448 "A"; field 448 "B"].

End SmallDictionary.
Import SmallDictionary.


(** A count of minus two is taken for two, so that the message conforms; and a
    count of eleven digits, which has the format of one, is out of range. *)
Lemma negative_count_conforms : validate miscounted = Returns FixReject.none.
Proof. vm_compute. reflexivity. Qed.

Lemma long_count_overflows :
  is_integer (text "99999999999") = true ∧ parse_num_in_group (text "99999999999") = Throws UndefinedBehaviour.
Proof. done. Qed.
