(* ===== verification/FixParser.v ===== *)
(** The stream of FIX messages of a member:
    applications/fix_order_gateway/FixParser.cpp, with [ParsedFixMessage] of
    FixMessage.hpp.

    A call of [feed] is given what is in the connection's buffer and says how
    much of it the caller may drop.  The callbacks are a list of what they are
    called with; log lines are left out. *)

From Stdlib Require Import String Ascii.
From S2P Require Import Prelude.
From S2P Require Import WalEntry.
From S2P Require Import FixField.
From S2P Require Import FixMessage.
From S2P Require Import FixValidator.
#[local] Open Scope Z_scope.
#[local] Open Scope venue_scope.

Module ParsedFixMessage.

Definition maximum_field_count : Z := 64.

(** The fields that the array of the code holds. *)
Definition t : Type := list FixField.t.

Definition set (m : t) (f : FixField.t) : t :=
  if Z.of_nat (length m) <? maximum_field_count then m ++ [f] else m.

Definition get (m : t) (tag : Z) : list Z :=
  match List.find (λ f, FixField.tag f =? tag) m with
  | Some f => FixField.value f
  | None => []
  end.

Definition has (m : t) (tag : Z) : bool := existsb (λ f, FixField.tag f =? tag) m.

End ParsedFixMessage.

Module FixParser.

Inductive Callback :=
  | OnMessage (message : ParsedFixMessage.t) (bytes : list Z)
  | OnReject (message : ParsedFixMessage.t) (reject : FixReject.t).

Section parser.
Context `{!Dictionary}.

Definition begin_string_tag : list Z := text "8=".

(** [window.find(begin_string_tag, cursor)] *)
Fixpoint find_tag (l : list Z) (at_ : Z) : option Z :=
  match l with
  | [] => None
  | _ :: l' =>
      if bool_decide (take 2 l = begin_string_tag) then Some at_ else find_tag l' (at_ + 1)
  end.

Definition find_begin (window : list Z) (cursor : Z) : option Z :=
  find_tag (drop (Z.to_nat cursor) window) cursor.

(** What is done with a message that is valid. *)
Definition deliver (reader : FixMessageReader.t) : outcome (list Callback) :=
  let! fields := FixMessageReader.fields (FixMessageReader.message_bytes_ reader) in
  let message := foldl ParsedFixMessage.set [] fields in
  if ParsedFixMessage.has message 35 then
    let! reject := FixMessageValidator.validate fields in
    Returns (if FixReject.ok reject then [OnMessage message (FixMessageReader.message_bytes_ reader)]
             else [OnReject message reject])
  else Returns [].

Fixpoint feed_loop (turns : nat) (window : list Z) (committed cursor : Z) (called : list Callback)
    : outcome (list Callback * Z) :=
  match turns with
  | O => Throws DoesNotReturn
  | S turns =>
      match find_begin window cursor with
      | None => Returns (called, committed)
      | Some start =>
          let reader := FixMessageReader.frame (drop (Z.to_nat start) window) in
          let past := start + FixMessageReader.message_size reader in
          match FixMessageReader.status_ reader with
          | FixMessageReader.Incomplete => Returns (called, committed)
          | FixMessageReader.Malformed => feed_loop turns window (start + 1) (start + 1) called
          | FixMessageReader.ChecksumError => feed_loop turns window past past called
          | FixMessageReader.Valid =>
              let! more := deliver reader in
              feed_loop turns window past past (called ++ more)
          end
      end
  end.

(** [feed]: the callbacks made and the bytes consumed; every turn but the last
    consumes one at least. *)
Definition feed (window : list Z) : outcome (list Callback * Z) :=
  feed_loop (S (length window)) window 0 0 [].

(** The connection: what arrives is put behind what was not consumed. *)
Fixpoint receive (unread : list Z) (pieces : list (list Z)) : outcome (list Callback * list Z) :=
  match pieces with
  | [] => Returns ([], unread)
  | piece :: pieces =>
      let window := unread ++ piece in
      let! r := feed window in
      let! r' := receive (drop (Z.to_nat r.2) window) pieces in
      Returns (r.1 ++ r'.1, r'.2)
  end.

End parser.

End FixParser.
