(* ===== verification/FixParserTheorems.v ===== *)
(** The stream of a member's messages is read however the network cuts it, and
    every message in it is delivered: FixParser.v. *)

From Stdlib Require Import String Ascii.
From S2P Require Import Prelude.
From S2P Require Import WalEntry.
From S2P Require Import PduFramingTheorems.
From S2P Require Import FixField.
From S2P Require Import FixFieldTheorems.
From S2P Require Import FixMessage.
From S2P Require Import FixMessageTheorems.
From S2P Require Import FixValidator.
From S2P Require Import FixValidatorTheorems.
From S2P Require Import FixParser.
#[local] Open Scope Z_scope.
#[local] Open Scope venue_scope.

Import FixMessageReader.

(** ** More bytes do not change an answer *)

Lemma index_of_more target l x at_ k :
  index_of target l at_ = Some k → index_of target (l ++ x) at_ = Some k.
Proof.
  revert at_. induction l as [|c l IH]; intros at_; cbn; [done|]. by destruct (c =? target); [|apply IH].
Qed.

Lemma drop_more (w x : list Z) n : (n ≤ length w)%nat → drop n (w ++ x) = drop n w ++ x.
Proof. intros Hn. rewrite drop_app_le by done. done. Qed.

Lemma find_delimiter_range w from k : 0 ≤ from → find_delimiter w from = Some k → from ≤ k < size w.
Proof.
  intros Hf Hk%index_of_range. unfold size in Hk |- *. rewrite length_drop in Hk. lia.
Qed.

Lemma find_delimiter_more w x from k :
  0 ≤ from → find_delimiter w from = Some k → find_delimiter (w ++ x) from = Some k.
Proof.
  intros Hf Hk. pose proof (find_delimiter_range w from k Hf Hk). unfold find_delimiter, size in *.
  rewrite drop_more by lia. by apply index_of_more.
Qed.

Lemma slice_more w x p n : 0 ≤ p ≤ size w → p + n ≤ size w → slice (w ++ x) p n = slice w p n.
Proof.
  intros Hp Hs. unfold slice, size in *. rewrite drop_more by lia.
  apply take_app_le. rewrite length_drop. lia.
Qed.

Lemma begins_at_more w x p s : 0 ≤ p → p + size s ≤ size w → begins_at (w ++ x) p s = begins_at w p s.
Proof. intros Hp Hs. unfold begins_at. pose proof (size_nonneg s). by rewrite slice_more by lia. Qed.

(** Two readers that answer alike. *)
Definition same_answer (r r' : t) : Prop :=
  status_ r' = status_ r ∧ message_bytes_ r' = message_bytes_ r ∧ error_message_ r' = error_message_ r.

Lemma frame_checksum_more w x bl_end n :
  0 ≤ bl_end → 0 ≤ n → status_ (frame_checksum w bl_end n) ≠ Incomplete →
  same_answer (frame_checksum w bl_end n) (frame_checksum (w ++ x) bl_end n) ∧
  (status_ (frame_checksum w bl_end n) ≠ Malformed →
   0 < size (message_bytes_ (frame_checksum w bl_end n)) ≤ size w).
Proof.
  intros Hb Hn. unfold frame_checksum. set (ct := bl_end + 1 + n). pose proof (size_nonneg x).
  destruct (Z.ltb_spec (size w) (ct + 3)); [done|].
  rewrite size_app, (proj2 (Z.ltb_ge (size w + size x) _)) by lia. rewrite begins_at_more by (change (size (text "10=")) with 3; lia).
  destruct (begins_at w ct (text "10=")); cbn [negb]; [|done].
  destruct (find_delimiter w ct) as [ce|] eqn:Hce; [|done].
  pose proof (find_delimiter_range w ct ce ltac:(lia) Hce).
  rewrite (find_delimiter_more w x ct ce) by (done || lia). intros _.
  rewrite !(slice_more w x) by lia.
  assert (0 < size (slice w 0 (ce + 1)) ≤ size w) by (rewrite size_slice; lia).
  by destruct (checksum_matches _ _).
Qed.

(** A reader that has an answer keeps it when there are more bytes. *)
Lemma frame_more w x :
  status_ (frame w) ≠ Incomplete →
  same_answer (frame w) (frame (w ++ x)) ∧
  (status_ (frame w) ≠ Malformed → 0 < size (message_bytes_ (frame w)) ≤ size w).
Proof.
  unfold frame. pose proof (size_nonneg x). rewrite size_app.
  destruct (Z.ltb_spec (size w) 2); [done|]. rewrite (proj2 (Z.ltb_ge _ 2)) by lia.
  rewrite begins_at_more by (change (size (text "8=")) with 2; lia).
  destruct (begins_at w 0 (text "8=")); cbn [negb]; [|done].
  destruct (find_delimiter w 0) as [be|] eqn:Hbe; [|done].
  pose proof (find_delimiter_range w 0 be ltac:(lia) Hbe). rewrite (find_delimiter_more w x 0 be) by (done || lia).
  destruct (Z.ltb_spec (size w) (be + 1 + 2)); [done|]. rewrite (proj2 (Z.ltb_ge _ (be + 1 + 2))) by lia.
  rewrite begins_at_more by (change (size (text "9=")) with 2; lia).
  destruct (begins_at w (be + 1) (text "9=")); cbn [negb]; [|done].
  destruct (find_delimiter w (be + 1)) as [le|] eqn:Hle; [|done].
  pose proof (find_delimiter_range w (be + 1) le ltac:(lia) Hle).
  rewrite (find_delimiter_more w x (be + 1) le) by (done || lia).
  rewrite (slice_more w x) by lia. set (n := slice w _ _).
  destruct (negb _); [done|]. destruct (Z.leb_spec (parse_int n (-1)) 0); [done|].
  apply frame_checksum_more; lia.
Qed.

(** ** The loop, over what is left of the window *)

Import FixParser.

Section stream.
Context `{!Dictionary}.

(** The loop of [feed], with the window cut where the cursor is. *)
Fixpoint scan (turns : nat) (s : list Z) : outcome (list Callback * Z) :=
  match turns with
  | O => Throws DoesNotReturn
  | S turns =>
      match find_tag s 0 with
      | None => Returns ([], 0)
      | Some start =>
          let reader := frame (drop (Z.to_nat start) s) in
          let go past more :=
            let! r := scan turns (drop (Z.to_nat past) s) in Returns (more ++ r.1, past + r.2) in
          match status_ reader with
          | Incomplete => Returns ([], 0)
          | Malformed => go (start + 1) []
          | ChecksumError => go (start + message_size reader) []
          | Valid => let! more := deliver reader in go (start + message_size reader) more
          end
      end
  end.

Lemma find_tag_shift l a b : find_tag l (a + b) = (λ k, a + k) <$> find_tag l b.
Proof.
  revert b. induction l as [|c l IH]; intros b; cbn [find_tag]; [done|].
  destruct (bool_decide _); [done|]. by rewrite <- Z.add_assoc, IH.
Qed.

Lemma find_tag_range l k : find_tag l 0 = Some k → 0 ≤ k < size l.
Proof.
  assert (Hg : ∀ a, find_tag l a = Some k → a ≤ k < a + size l); [|by intros ?%Hg].
  induction l as [|c l IH]; intros a; cbn [find_tag]; [done|]. unfold size in *. cbn [length].
  destruct (bool_decide _); [intros [= <-]; lia|]. intros ?%IH. lia.
Qed.

Lemma find_tag_more l x k : find_tag l 0 = Some k → find_tag (l ++ x) 0 = Some k.
Proof.
  generalize 0. induction l as [|c l IH]; intros a; cbn [find_tag app]; [done|].
  destruct (bool_decide_reflect (take 2 (c :: l) = begin_string_tag)) as [Ht|Ht].
  - rewrite bool_decide_eq_true_2; [done|]. destruct l as [|d l]; [by vm_compute in Ht|]. cbn in *. done.
  - intros Hk. destruct l as [|d l]; [done|].
    rewrite bool_decide_eq_false_2; [by apply IH|]. done.
Qed.

Lemma drop_to (w : list Z) c n :
  0 ≤ c → 0 ≤ n → drop (Z.to_nat n) (drop (Z.to_nat c) w) = drop (Z.to_nat (c + n)) w.
Proof. intros. rewrite drop_drop. f_equal. lia. Qed.

Lemma message_size_nonneg r : 0 ≤ message_size r.
Proof. apply size_nonneg. Qed.

Lemma feed_loop_scan turns : ∀ w c called,
  0 ≤ c →
  feed_loop turns w c c called
  = let! r := scan turns (drop (Z.to_nat c) w) in Returns (called ++ r.1, c + r.2).
Proof.
  induction turns as [|turns IH]; intros w c called Hc; [done|]. cbn [feed_loop scan].
  unfold find_begin. replace c with (c + 0) at 2 by lia. rewrite find_tag_shift.
  destruct (find_tag (drop (Z.to_nat c) w) 0) as [k|] eqn:Hk; cbn [fmap option_fmap option_map].
  2:{ cbn. by rewrite app_nil_r, Z.add_0_r. }
  apply find_tag_range in Hk as [Hk _]. rewrite drop_to by lia.
  set (r := frame (drop (Z.to_nat (c + k)) w)). pose proof (message_size_nonneg r).
  assert (Hgo : ∀ n more called', 0 ≤ n → called' = called ++ more →
    feed_loop turns w (c + n) (c + n) called'
    = let! r0 := (let! r0 := scan turns (drop (Z.to_nat n) (drop (Z.to_nat c) w)) in
                  Returns (more ++ r0.1, n + r0.2)) in Returns (called ++ r0.1, c + r0.2)).
  { intros n more called' Hn ->. rewrite IH by lia. rewrite drop_to by lia.
    destruct (scan turns _) as [[es p]|e]; cbn; [|done]. by rewrite app_assoc, Z.add_assoc. }
  destruct (status_ r).
  - destruct (deliver r) as [more|e]; cbn [obind]; [|done].
    rewrite <- Z.add_assoc. by apply Hgo; [lia|].
  - cbn. by rewrite app_nil_r, Z.add_0_r.
  - rewrite <- Z.add_assoc. apply Hgo; [lia|by rewrite app_nil_r].
  - rewrite <- Z.add_assoc. apply Hgo; [lia|by rewrite app_nil_r].
Qed.

(** How far a turn goes. *)
Lemma turn_goes_on s k r :
  find_tag s 0 = Some k → r = frame (drop (Z.to_nat k) s) → status_ r ≠ Incomplete → status_ r ≠ Malformed →
  0 < k + message_size r ≤ size s.
Proof.
  intros Hk -> Hi Hm. apply find_tag_range in Hk.
  destruct (frame_more (drop (Z.to_nat k) s) [] Hi) as [_ Hs]. specialize (Hs Hm).
  unfold message_size. unfold size in *. rewrite length_drop in Hs. lia.
Qed.

Lemma scan_enough turns : ∀ turns' s,
  (length s < turns)%nat → (length s < turns')%nat → scan turns s = scan turns' s.
Proof.
  induction turns as [|turns IH]; intros turns' s Ht Ht'; [lia|]. destruct turns' as [|turns']; [lia|].
  cbn [scan]. destruct (find_tag s 0) as [k|] eqn:Hk; [|done].
  set (r := frame (drop (Z.to_nat k) s)). pose proof (find_tag_range _ _ Hk) as Hr. unfold size in Hr.
  pose proof (turn_goes_on s k r Hk eq_refl) as Hgo. unfold size in Hgo.
  assert (Hd : ∀ n, 0 < n ≤ Z.of_nat (length s) →
    scan turns (drop (Z.to_nat n) s) = scan turns' (drop (Z.to_nat n) s)).
  { intros n Hn. apply IH; rewrite length_drop; lia. }
  destruct (status_ r); [|done|by rewrite Hd by lia|by rewrite Hd by (apply Hgo; done)].
  destruct (deliver r); cbn [obind]; [|done]. by rewrite Hd by (apply Hgo; done).
Qed.

Definition scan_all (s : list Z) : outcome (list Callback * Z) := scan (S (length s)) s.

Lemma feed_is_scan w : feed w = scan_all w.
Proof.
  unfold feed. rewrite feed_loop_scan by lia. change (drop (Z.to_nat 0) w) with w. unfold scan_all.
  destruct (scan _ w) as [[]|]; done.
Qed.

(** One turn of the scan. *)
Definition turn (s : list Z) : outcome (option (Z * list Callback)) :=
  match find_tag s 0 with
  | None => Returns None
  | Some start =>
      let reader := frame (drop (Z.to_nat start) s) in
      match status_ reader with
      | Incomplete => Returns None
      | Malformed => Returns (Some (start + 1, []))
      | ChecksumError => Returns (Some (start + message_size reader, []))
      | Valid => let! more := deliver reader in Returns (Some (start + message_size reader, more))
      end
  end.

Lemma scan_all_turn s :
  scan_all s = let! t := turn s in
    match t with
    | None => Returns ([], 0)
    | Some (past, more) =>
        let! r := scan_all (drop (Z.to_nat past) s) in Returns (more ++ r.1, past + r.2)
    end.
Proof.
  unfold scan_all at 1. cbn [scan]. unfold turn. destruct (find_tag s 0) as [k|] eqn:Hk; [|done].
  set (r := frame (drop (Z.to_nat k) s)). pose proof (find_tag_range _ _ Hk) as Hr. unfold size in Hr.
  pose proof (turn_goes_on s k r Hk eq_refl) as Hgo. unfold size in Hgo.
  assert (Hd : ∀ n, 0 < n ≤ Z.of_nat (length s) →
    scan (length s) (drop (Z.to_nat n) s) = scan_all (drop (Z.to_nat n) s)).
  { intros n Hn. apply scan_enough; rewrite length_drop; lia. }
  destruct (status_ r); cbn [obind]; [|done|by rewrite Hd by lia|by rewrite Hd by (apply Hgo; done)].
  destruct (deliver r); cbn [obind]; [|done]. by rewrite Hd by (apply Hgo; done).
Qed.

Lemma turn_range s past more : turn s = Returns (Some (past, more)) → 0 < past ≤ size s.
Proof.
  unfold turn. destruct (find_tag s 0) as [k|] eqn:Hk; [|done].
  set (r := frame (drop (Z.to_nat k) s)). pose proof (find_tag_range _ _ Hk) as Hr.
  pose proof (turn_goes_on s k r Hk eq_refl) as Hgo.
  destruct (status_ r); [destruct (deliver r); cbn [obind]; [|done]|done|..]; intros [= <- <-];
    [by apply Hgo|lia|by apply Hgo].
Qed.

(** A turn that consumes something, or fails, does so with more bytes too. *)
Lemma turn_more s x : turn s ≠ Returns None → turn (s ++ x) = turn s.
Proof.
  unfold turn. destruct (find_tag s 0) as [k|] eqn:Hk; [|done]. rewrite (find_tag_more _ x _ Hk).
  pose proof (find_tag_range _ _ Hk) as Hr. unfold size in Hr. rewrite drop_more by lia.
  destruct (decide (status_ (frame (drop (Z.to_nat k) s)) = Incomplete)) as [Hi|Hi]; [by rewrite Hi|].
  destruct (frame_more (drop (Z.to_nat k) s) x Hi) as [(H1 & H2 & _) _].
  unfold message_size, deliver. rewrite H1, H2. done.
Qed.

Lemma scan_range n : ∀ s es p, (length s ≤ n)%nat → scan_all s = Returns (es, p) → 0 ≤ p ≤ size s.
Proof.
  induction n as [|n IH]; intros s es p Hn; rewrite scan_all_turn;
    (destruct (turn s) as [[[past more]|]|e] eqn:Ht; cbn [obind];
      [|intros [= <- <-]; pose proof (size_nonneg s); lia|done]);
    pose proof (turn_range _ _ _ Ht) as Hr; unfold size in *; [lia|].
  destruct (scan_all (drop (Z.to_nat past) s)) as [[es' p']|e] eqn:Hs; cbn; [|done]. intros [= <- <-].
  specialize (IH (drop (Z.to_nat past) s) es' p' ltac:(rewrite length_drop; lia) Hs).
  rewrite length_drop in IH. lia.
Qed.

(** To scan a window and then, behind what was left of it, more bytes is to scan
    the two at once. *)
Lemma scan_app n : ∀ s x, (length s ≤ n)%nat →
  scan_all (s ++ x) = let! r := scan_all s in
    let! r' := scan_all (drop (Z.to_nat r.2) s ++ x) in Returns (r.1 ++ r'.1, r.2 + r'.2).
Proof.
  induction n as [|n IH]; intros s x Hn.
  all: rewrite (scan_all_turn s).
  all: destruct (turn s) as [[[past more]|]|e] eqn:Ht; cbn [obind].
  all: try (cbn [fst snd]; change (drop (Z.to_nat 0) s) with s; by destruct (scan_all (s ++ x)) as [[]|]).
  all: try (rewrite scan_all_turn, turn_more by (by rewrite Ht); by rewrite Ht).
  all: pose proof (turn_range _ _ _ Ht) as Hr; unfold size in Hr.
  { lia. }
  rewrite scan_all_turn, turn_more by (by rewrite Ht). rewrite Ht. cbn [obind].
  rewrite drop_more by lia. rewrite IH by (rewrite length_drop; lia).
  destruct (scan_all (drop (Z.to_nat past) s)) as [[es p]|e] eqn:Hs; cbn [obind fst snd]; [|done].
  pose proof (scan_range (length s) (drop (Z.to_nat past) s) es p ltac:(rewrite length_drop; lia) Hs) as [Hp _].
  rewrite drop_to by lia. destruct (scan_all (drop (Z.to_nat (past + p)) s ++ x)) as [[es' p']|e]; cbn; [|done].
  by rewrite app_assoc, Z.add_assoc.
Qed.
End stream.

(** What a scan leaves it leaves again. *)
Lemma scan_settles `{!Dictionary} s es p :
  scan_all s = Returns (es, p) → scan_all (drop (Z.to_nat p) s) = Returns ([], 0).
Proof.
  intros Hs. pose proof (scan_app (length s) s [] ltac:(lia)) as Ha. rewrite app_nil_r, Hs in Ha.
  cbn [obind fst snd] in Ha. rewrite app_nil_r in Ha.
  destruct (scan_all (drop (Z.to_nat p) s)) as [[es' p']|e]; [|done]. cbn in Ha. injection Ha as He Hp.
  assert (es' = []) as -> by (apply (f_equal length) in He; rewrite length_app in He; destruct es'; [done|cbn in He; lia]).
  by replace p' with 0 by lia.
Qed.

Lemma receive_scan `{!Dictionary} pieces : ∀ unread,
  scan_all unread = Returns ([], 0) →
  receive unread pieces
  = let! r := scan_all (unread ++ mjoin pieces) in
    Returns (r.1, drop (Z.to_nat r.2) (unread ++ mjoin pieces)).
Proof.
  induction pieces as [|piece pieces IH]; intros unread Hu; cbn [receive mjoin list_join].
  - by rewrite app_nil_r, Hu.
  - rewrite feed_is_scan, app_assoc, (scan_app _ (unread ++ piece) _ (Nat.le_refl _)).
    destruct (scan_all (unread ++ piece)) as [[es p]|e] eqn:Hs; cbn [obind fst snd]; [|done].
    pose proof (scan_range _ _ _ _ (Nat.le_refl _) Hs) as Hp. unfold size in Hp.
    rewrite IH by (by eapply scan_settles).
    destruct (scan_all (drop (Z.to_nat p) (unread ++ piece) ++ mjoin pieces)) as [[es' p']|e] eqn:Hs';
      cbn [obind fst snd]; [|done].
    pose proof (scan_range _ _ _ _ (Nat.le_refl _) Hs') as Hp'.
    rewrite <- (drop_to _ p p') by lia. by rewrite (drop_more (unread ++ piece)) by lia.
Qed.

(** C22: Whatever bytes a member sends, and however the network cuts them, the
    messages delivered and rejected, and the bytes left over for the next read,
    are those of the whole stream read at once. *)
Theorem stream_is_read_however_it_is_cut `{!Dictionary} (pieces : list (list Z)) :
  receive [] pieces
  = let stream := mjoin pieces in
    let! r := feed stream in Returns (r.1, drop (Z.to_nat r.2) stream).
Proof. cbn zeta. rewrite feed_is_scan. by apply (receive_scan pieces []). Qed.

(** ** A stream of messages *)

Section messages.
Context `{!Dictionary}.

(** A message as it was written: its BeginString and its fields. *)
Record Sent := mk_sent { sent_begin : list Z; sent_fields : list FixField.t }.

Definition wire (m : Sent) : list Z := message (sent_begin m) (body_of (sent_fields m)).
Definition fields_of (m : Sent) : list FixField.t := all_fields (sent_begin m) (sent_fields m).

Definition well_written (m : Sent) : Prop :=
  soh ∉ sent_begin m ∧ sent_fields m ≠ [] ∧ readable 0 (sent_fields m) ∧
  size (body_of (sent_fields m)) < 2 ^ 31 ∧ size (sent_begin m) < 2 ^ 31.

(** What a member is to be answered: the message goes to the gateway if the
    validator finds nothing wrong with it, and the fault goes to it if not. *)
Definition answered (m : Sent) (c : Callback) : Prop :=
  ParsedFixMessage.has (take 64 (fields_of m)) 35 = true ∧
  ∃ r, FixMessageValidator.validate (fields_of m) = Returns r ∧
    c = if FixReject.ok r then OnMessage (take 64 (fields_of m)) (wire m)
        else OnReject (take 64 (fields_of m)) r.

Lemma set_all fs : ∀ m, (length m ≤ 64)%nat → foldl ParsedFixMessage.set m fs = take 64 (m ++ fs).
Proof.
  induction fs as [|f fs IH]; intros m Hm; cbn [foldl].
  - rewrite app_nil_r, take_ge; [done|lia].
  - unfold ParsedFixMessage.set at 2, ParsedFixMessage.maximum_field_count.
    destruct (Z.ltb_spec (Z.of_nat (length m)) 64).
    + rewrite IH by (rewrite length_app; cbn; lia). by rewrite <- app_assoc.
    + rewrite IH by done. assert (length m = 64)%nat as Hl by lia.
      by rewrite !take_app_le, !take_ge by lia.
Qed.

Lemma turn_message m c rest :
  is_data_length_tag 8 = false → is_data_length_tag 9 = false → is_data_length_tag 10 = false →
  well_written m → answered m c →
  turn (wire m ++ rest) = Returns (Some (size (wire m), [c])).
Proof.
  intros H8 H9 H10 (Hb & Hne & Hr & Hs & Hs') (Hh & r & Hv & ->). unfold turn.
  assert (Hf : find_tag (wire m ++ rest) 0 = Some 0) by reflexivity.
  rewrite Hf. change (drop (Z.to_nat 0) (wire m ++ rest)) with (wire m ++ rest).
  assert (Hpos : 0 < size (body_of (sent_fields m))).
  { destruct (sent_fields m) as [|f fs]; [done|]. pose proof (fields_count (f :: fs)). unfold size. cbn [length] in *. lia. }
  unfold wire at 1 2 3. rewrite frame_message by (done || lia). fold (wire m). cbn [status_]. unfold deliver.
  cbn [message_bytes_].
  destruct (header_fits_prefix (sent_begin m) (body_of (sent_fields m))) as [_ Hh']; [lia|].
  pose proof (size_message (sent_begin m) (body_of (sent_fields m))) as Hm.
  unfold body_at, FixMessageWriter.header_reserve_slack in Hh'.
  assert (Hfs : fields (wire m) = Returns (fields_of m)).
  { unfold wire, fields_of in *. rewrite message_is_fields in *. apply fields_of_body; [lia|].
    by apply readable_all. }
  rewrite Hfs. cbn [obind]. rewrite set_all by (cbn; lia). rewrite app_nil_l, Hh, Hv. cbn [obind].
  unfold message_size. cbn [message_bytes_]. by destruct (FixReject.ok r).
Qed.

Lemma scan_messages ms : ∀ cs,
  is_data_length_tag 8 = false → is_data_length_tag 9 = false → is_data_length_tag 10 = false →
  Forall well_written ms → Forall2 answered ms cs →
  scan_all (mjoin (wire <$> ms)) = Returns (cs, size (mjoin (wire <$> ms))).
Proof.
  induction ms as [|m ms IH]; intros cs H8 H9 H10 Hw Ha; inversion Ha as [|? c ? cs' Hc Hcs]; subst; [done|].
  inversion Hw; subst. change (mjoin (wire <$> (m :: ms))) with (wire m ++ mjoin (wire <$> ms)).
  rewrite scan_all_turn, (turn_message m c) by done. cbn [obind]. rewrite drop_size, (IH cs') by done.
  cbn [obind fst snd]. by rewrite size_app.
Qed.
End messages.

(** C23: The messages that were written to a connection, one after another, are
    delivered in their order, each once, with their fields, to the gateway when
    the validator finds nothing wrong with them and as a reject when it does,
    into whatever pieces the network cuts them; and nothing is left over. *)
Theorem members_messages_are_delivered `{!Dictionary} (ms : list Sent) (cs : list Callback)
    (pieces : list (list Z)) :
  is_data_length_tag 8 = false → is_data_length_tag 9 = false → is_data_length_tag 10 = false →
  Forall well_written ms → Forall2 answered ms cs → mjoin pieces = mjoin (wire <$> ms) →
  receive [] pieces = Returns (cs, []).
Proof.
  intros H8 H9 H10 Hw Ha Hp. rewrite receive_scan by done. rewrite app_nil_l, Hp, (scan_messages ms cs) by done.
  cbn [obind fst snd]. unfold size. by rewrite Nat2Z.id, drop_all.
Qed.

Import SmallDictionary.

(** Two messages in three pieces: an order, and one that says nothing of its price. *)
Module TwoMessages.

Definition good : Sent := mk_sent (text "FIXT.1.1") order.
Definition poor : Sent := mk_sent (text "FIXT.1.1") [field 35 "D"; field 34 "8"].
Definition stream : list Z := wire good ++ wire poor.
Definition pieces : list (list Z) := [take 20 stream; drop 20 (take 150 stream); drop 150 stream].

Definition answers : list Callback :=
  [OnMessage (take 64 (fields_of good)) (wire good);
   OnReject (take 64 (fields_of poor)) (FixReject.mk RequiredTagMissing 44 (text "D") [])].

End TwoMessages.

Lemma members_messages_are_delivered_witness :
  receive [] TwoMessages.pieces = Returns (TwoMessages.answers, []).
Proof.
  apply (members_messages_are_delivered [TwoMessages.good; TwoMessages.poor]); try reflexivity.
  - repeat constructor; try (apply (bool_decide_eq_false_1 _); reflexivity); try done; try by_evaluation;
      vm_compute; reflexivity.
  - repeat constructor; try reflexivity; eexists; (split; [vm_compute; reflexivity|reflexivity]).
Defined.
