(* ===== verification/FixSerialiser.v ===== *)
(** The FIX messages that a gateway sends of itself:
    applications/fix_order_gateway/FixMessage.hpp ([FixMessage]) and
    FixSerialiser.cpp. *)

From Stdlib Require Import String Ascii.
From S2P Require Import Prelude.
From S2P Require Import WalEntry.
From S2P Require Import TradingDate.
From S2P Require Import FixField.
From S2P Require Import FixFieldTheorems.
From S2P Require Import FixMessage.
From S2P Require Import FixMessageTheorems.
#[local] Open Scope Z_scope.
#[local] Open Scope venue_scope.

(** ** The message *)

Module FixMessage.

(** The fields in the order in which each was first set. *)
Definition t : Type := list FixField.t.

(** [field_for(tag) = value] *)
Fixpoint set (m : t) (tag : Z) (value : list Z) : t :=
  match m with
  | [] => [FixField.mk tag value]
  | f :: m => if FixField.tag f =? tag then FixField.mk tag value :: m else f :: set m tag value
  end.

Definition set_int (m : t) (tag value : Z) : t := set m tag (to_chars value).

Definition get (m : t) (tag : Z) : list Z :=
  match List.find (λ f, FixField.tag f =? tag) m with
  | Some f => FixField.value f
  | None => []
  end.

Definition has (m : t) (tag : Z) : bool := existsb (λ f, FixField.tag f =? tag) m.

Definition msg_type (m : t) : list Z := get m 35.

Definition fields (m : t) : list FixField.t := m.

End FixMessage.

(** ** The serialiser *)

Module FixSerialiser.

Definition is_session_managed_tag (tag : Z) : bool :=
  (tag =? 8) || (tag =? 9) || (tag =? 10) || (tag =? 35) || (tag =? 49) || (tag =? 56) ||
  (tag =? 34) || (tag =? 52).

Definition serialise_initial_buffer_size : Z := 512.
Definition serialise_max_buffer_size : Z := 64 * 1024.

Record t := mk {
  sender_comp_id_ : list Z;
  target_comp_id_ : list Z
}.

(** [current_utc_timestamp]: [gmtime_r] gives the date of the day and the time in
    it, and [strftime] writes them with their leading zeros. *)
Definition current_utc_timestamp (now_ns : Z) : list Z :=
  let seconds := Z.quot now_ns 1000000000 in
  let of_day := seconds mod 86400 in
  time_text (TradingDate.civil_from_days (seconds / 86400)) (of_day / 3600) (of_day / 60 mod 60)
    (of_day mod 60) [].

(** The fields pushed for a message. *)
Fixpoint push_application_fields (fs : list FixField.t) : comp FixMessageWriter.t unit :=
  match fs with
  | [] => mret ()
  | f :: fs =>
      (if is_session_managed_tag (FixField.tag f) then mret ()
       else FixMessageWriter.push_back_field (FixField.tag f) (FixField.value f));;
      push_application_fields fs
  end.

Definition encode (s : t) (msg : FixMessage.t) (seq_num : Z) (target_comp_id : list Z) (now_ns : Z)
    : comp FixMessageWriter.t (list Z) :=
  FixMessageWriter.push_back_field 35 (FixMessage.msg_type msg);;
  FixMessageWriter.push_back_field 49 (sender_comp_id_ s);;
  FixMessageWriter.push_back_field 56 target_comp_id;;
  FixMessageWriter.push_back_int_field 34 seq_num;;
  FixMessageWriter.push_back_field 52 (current_utc_timestamp now_ns);;
  push_application_fields (FixMessage.fields msg);;
  FixMessageWriter.finish.

(** The loop, which grows the buffer; the clock is read anew in each turn, and
    [resize] keeps the bytes that the turn before left. *)
Fixpoint serialise_loop (turns : nat) (s : t) (msg : FixMessage.t) (seq_num : Z) (target_comp_id : list Z)
    (clock : nat → Z) (buffer : list Z) : outcome (list Z) :=
  match turns with
  | O => Throws DoesNotReturn
  | S turns =>
      let '(writer, wire) := encode s msg seq_num target_comp_id (clock turns)
                               (FixMessageWriter.make buffer (size buffer) (text "FIXT.1.1")) in
      let! wire := wire in
      if negb (bool_decide (wire = [])) then Returns wire
      else if serialise_max_buffer_size <=? size (FixMessageWriter.buffer_ writer) then Returns []
      else serialise_loop turns s msg seq_num target_comp_id clock
             (FixMessageWriter.buffer_ writer ++ zeros (size (FixMessageWriter.buffer_ writer)))
  end.

(** Eight turns take the buffer from 512 bytes to 64 KiB. *)
Definition serialise_to (s : t) (msg : FixMessage.t) (seq_num : Z) (target_comp_id : list Z)
    (clock : nat → Z) : outcome (list Z) :=
  serialise_loop 8 s msg seq_num target_comp_id clock (zeros serialise_initial_buffer_size).

Definition serialise (s : t) (msg : FixMessage.t) (seq_num : Z) (clock : nat → Z) : outcome (list Z) :=
  serialise_to s msg seq_num (target_comp_id_ s) clock.

End FixSerialiser.
