(* ===== verification/FixSerialiserTheorems.v ===== *)
(** What a gateway sends of itself (FixSerialiser.v) is what it was asked to send. *)

From Stdlib Require Import String Ascii.
From S2P Require Import Prelude.
From S2P Require Import WalEntry.
From S2P Require Import ByteArena.
From S2P Require Import TradingDate.
From S2P Require Import FixField.
From S2P Require Import FixFieldTheorems.
From S2P Require Import FixMessage.
From S2P Require Import FixMessageTheorems.
From S2P Require Import FixSerialiser.
Import FixMessageWriter.
Import FixMessageReader.
Import TradingDate.
#[local] Open Scope Z_scope.
#[local] Open Scope venue_scope.

(** ** The clock's time *)

Definition date_code (d : date) : Z := year d * 10000 + month d * 100 + day d.

Lemma next_day_later d : valid d → date_code d < date_code (next_day d) ∧ year d ≤ year (next_day d).
Proof.
  destruct d as [y m d]. intros [Hm Hd]. cbn [year month day] in *. pose proof (days_in_month_le y m).
  unfold next_day, date_code. cbn [year month day]. repeat case_match; cbn [year month day]; bool_to_prop; lia.
Qed.

Lemma civil_later n k :
  date_code (civil_from_days n) < date_code (civil_from_days (n + 1 + Z.of_nat k)) ∧
  year (civil_from_days n) ≤ year (civil_from_days (n + 1 + Z.of_nat k)).
Proof.
  induction k as [|k IH].
  - rewrite Z.add_0_r. destruct (next_civil n) as [Hv ->]. by apply next_day_later.
  - replace (n + 1 + Z.of_nat (S k)) with (n + 1 + Z.of_nat k + 1) by lia.
    destruct (next_civil (n + 1 + Z.of_nat k)) as [Hv ->]. pose proof (next_day_later _ Hv). lia.
Qed.

Lemma civil_order n m : n < m →
  date_code (civil_from_days n) < date_code (civil_from_days m) ∧
  year (civil_from_days n) ≤ year (civil_from_days m).
Proof.
  intros Hlt. pose proof (civil_later n (Z.to_nat (m - n - 1))) as Hc.
  by replace (n + 1 + Z.of_nat (Z.to_nat (m - n - 1))) with m in Hc by lia.
Qed.

Lemma days_of_civil n :
  let d := civil_from_days n in FixField.days_from_civil (year d) (month d) (day d) = n.
Proof.
  cbn zeta. destruct (next_civil n) as [Hv _]. destruct (civil_from_days n) as [y m d] eqn:Hd. cbn [year month day].
  pose proof (civil_of_days y m d Hv) as Hc. set (n' := FixField.days_from_civil y m d) in *.
  destruct (Z.lt_trichotomy n' n) as [Hlt|[->|Hlt]]; [|done|]; apply civil_order in Hlt; rewrite Hc, Hd in Hlt; lia.
Qed.

Lemma year_of_clock n : 0 ≤ n ≤ 106751 → 1970 ≤ year (civil_from_days n) ≤ 2262.
Proof.
  intros Hn. change 1970 with (year (civil_from_days 0)). change 2262 with (year (civil_from_days 106751)).
  destruct (decide (n = 0)) as [->|]; [split; [done|by vm_compute]|].
  destruct (decide (n = 106751)) as [->|]; [split; [by vm_compute|done]|].
  pose proof (civil_order 0 n). pose proof (civil_order n 106751). lia.
Qed.

(** The sending time names the second in which the clock was read. *)
Lemma sending_time_read now tag fallback :
  0 ≤ now < 2 ^ 63 →
  FixField.as_utc_timestamp_ns (FixField.mk tag (FixSerialiser.current_utc_timestamp now)) fallback
  = Returns (now / 1000000000 * 1000000000).
Proof.
  intros Hn. unfold FixSerialiser.current_utc_timestamp. rewrite Z.quot_div_nonneg by lia.
  set (seconds := now / 1000000000).
  assert (Hs : 0 ≤ seconds ∧ seconds * 1000000000 ≤ now) by (unfold seconds; Z.to_euclidean_division_equations; lia).
  pose proof (year_of_clock (seconds / 86400) ltac:(Z.to_euclidean_division_equations; lia)) as Hy.
  destruct (next_civil (seconds / 86400)) as [Hv _].
  rewrite time_text_read; [|done|lia|Z.to_euclidean_division_equations; lia..|constructor].
  rewrite days_of_civil.
  assert (He : seconds / 86400 * 86400 + seconds mod 86400 / 3600 * 3600 +
               seconds mod 86400 / 60 mod 60 * 60 + seconds mod 86400 mod 60 = seconds)
    by (Z.to_euclidean_division_equations; lia).
  rewrite He, int64_fits by lia. cbn [obind]. change (fraction_ns []) with 0. by rewrite Z.add_0_r, int64_fits by lia.
Qed.

Lemma sending_time_text now :
  0 ≤ now < 2 ^ 63 → size (FixSerialiser.current_utc_timestamp now) = 17 ∧
  soh ∉ FixSerialiser.current_utc_timestamp now.
Proof.
  intros Hn. unfold FixSerialiser.current_utc_timestamp. rewrite Z.quot_div_nonneg by lia.
  set (seconds := now / 1000000000).
  assert (Hs : 0 ≤ seconds ∧ seconds * 1000000000 ≤ now) by (unfold seconds; Z.to_euclidean_division_equations; lia).
  pose proof (year_of_clock (seconds / 86400) ltac:(Z.to_euclidean_division_equations; lia)) as Hy.
  destruct (next_civil (seconds / 86400)) as [Hv _].
  set (d := civil_from_days (seconds / 86400)) in *. split; [done|].
  destruct Hv as [Hm Hd]. pose proof (days_in_month_le (year d) (month d)).
  assert (Htwo : ∀ n, 0 ≤ n < 100 → soh ∉ two n).
  { intros n Hr Hin. destruct (two_digits n Hr) as [Ha _]. unfold all_digits in Ha. rewrite Forall_forall in Ha.
    apply Ha in Hin. done. }
  unfold time_text, four. rewrite !not_elem_of_app, !list_elem_of_singleton.
  repeat match goal with
  | |- _ ∧ _ => split
  | |- _ ∉ two _ => apply Htwo; Z.to_euclidean_division_equations; lia
  | |- _ ∉ [] => apply not_elem_of_nil
  | |- _ => done
  end.
Qed.

(** ** One turn *)

(** The tags that the serialiser and the writer write themselves: BeginString,
    BodyLength, MsgType, SenderCompID, TargetCompID, MsgSeqNum, SendingTime and
    Checksum. *)
Definition session_tags : list Z := [8; 9; 35; 49; 56; 34; 52; 10].

(** The other fields of a message. *)
Definition unmanaged (msg : FixMessage.t) : list FixField.t :=
  List.filter (λ f, negb (bool_decide (FixField.tag f ∈ session_tags))) msg.

Lemma session_managed tag : FixSerialiser.is_session_managed_tag tag = bool_decide (tag ∈ session_tags).
Proof.
  apply Bool.eq_true_iff_eq. rewrite bool_decide_eq_true. unfold FixSerialiser.is_session_managed_tag, session_tags.
  rewrite !elem_of_cons, elem_of_nil, !orb_true_iff, !Z.eqb_eq. tauto.
Qed.

(** The body of what is sent. *)
Definition sent_fields (s : FixSerialiser.t) (msg : FixMessage.t) (seq_num : Z) (target : list Z) (now : Z)
    : list FixField.t :=
  [FixField.mk 35 (FixMessage.msg_type msg); FixField.mk 49 (FixSerialiser.sender_comp_id_ s);
   FixField.mk 56 target; FixField.mk 34 (to_chars seq_num);
   FixField.mk 52 (FixSerialiser.current_utc_timestamp now)] ++ unmanaged msg.

Lemma bind_then {S A B C} (m : comp S A) (f : A → comp S B) (g : B → comp S C) w :
  ((m ≫= f) ≫= g) w = (m ≫= λ a, f a ≫= g) w.
Proof. unfold mbind, comp_bind. by destruct (m w) as [w' [a|e]]. Qed.

Lemma bind_same {S A B} (m : comp S A) (f g : A → comp S B) w :
  (∀ a w, f a w = g a w) → (m ≫= f) w = (m ≫= g) w.
Proof. intros He. unfold mbind, comp_bind. destruct (m w) as [w' [a|e]]; [apply He|done]. Qed.

Lemma application_fields_eq {A} msg (k : unit → comp FixMessageWriter.t A) : ∀ w,
  (FixSerialiser.push_application_fields msg ≫= k) w = (push_back_fields (unmanaged msg) ≫= k) w.
Proof.
  induction msg as [|f msg IH]; intros w; [done|]. cbn [FixSerialiser.push_application_fields unmanaged List.filter].
  fold (unmanaged msg). rewrite session_managed. destruct (bool_decide (FixField.tag f ∈ session_tags)); cbn [negb].
  - rewrite bind_then. unfold mret, comp_ret, mbind at 1, comp_bind at 1. apply IH.
  - cbn [push_back_fields]. rewrite !bind_then. apply bind_same. intros _ w'. apply IH.
Qed.

Lemma encode_writes s msg seq_num target now w :
  - 2 ^ 31 ≤ seq_num < 2 ^ 31 →
  FixSerialiser.encode s msg seq_num target now w = write_message (sent_fields s msg seq_num target now) w.
Proof.
  intros Hs. unfold FixSerialiser.encode, write_message, sent_fields, push_back_int_field.
  rewrite to_chars_int by done. cbn [app push_back_fields FixField.tag FixField.value].
  do 5 (rewrite bind_then; apply bind_same; intros _ ?; try clear w; rename w0 into w). apply application_fields_eq.
Qed.

(** *** The buffer keeps its size *)

Definition sized {A} (m : comp FixMessageWriter.t A) : Prop := ∀ w, size (buffer_ (m w).1) = size (buffer_ w).

Lemma sized_bind {A B} (m : comp FixMessageWriter.t A) (f : A → comp FixMessageWriter.t B) : sized m → (∀ a, sized (f a)) → sized (m ≫= f).
Proof.
  intros Hm Hf w. unfold mbind, comp_bind. specialize (Hm w). destruct (m w) as [w' [a|e]]; cbn [fst] in *; [|done].
  by rewrite Hf.
Qed.

Lemma sized_store p bytes : sized (store p bytes).
Proof.
  intros w. unfold store. case_match; [|done]. cbn. bool_to_prop. apply size_splice; lia.
Qed.

Lemma sized_now {A} (m : comp FixMessageWriter.t A) : (∀ w, buffer_ (m w).1 = buffer_ w) → sized m.
Proof. intros Hm w. by rewrite Hm. Qed.

Ltac sized :=
  repeat first
    [apply sized_store
    |apply sized_bind; [|intros ?]
    |match goal with |- context [match ?b with _ => _ end] => destruct b end
    |apply sized_now; reflexivity].

Lemma sized_push_back_field tag v : sized (push_back_field tag v).
Proof. unfold push_back_field, write_int, write_byte, write_bytes. sized. Qed.

Lemma sized_finish : sized finish.
Proof. unfold finish, write_prefix_bytes, append_checksum, append_byte. sized. Qed.

Lemma sized_write_message fs : sized (write_message fs).
Proof.
  apply sized_bind; [|intros _; apply sized_finish].
  induction fs as [|f fs IH]; cbn [push_back_fields]; [by apply sized_now|].
  apply sized_bind; [apply sized_push_back_field|done].
Qed.

(** ** The loop *)

Section serialise.
Context (s : FixSerialiser.t) (msg : FixMessage.t) (seq_num : Z) (target : list Z) (clock : nat → Z).
Context (Hseq : 0 ≤ seq_num < 2 ^ 31).
Context (Htags : Forall int_tag (unmanaged msg)).

Let version := text "FIXT.1.1".

(** The bytes that the message takes in the writer's buffer. *)
Definition wire_room (now : Z) : Z := body_at version + size (body_of (sent_fields s msg seq_num target now)) + 7.

Lemma sent_int_tags now : Forall int_tag (sent_fields s msg seq_num target now).
Proof. unfold sent_fields. apply Forall_app. split; [|done]. repeat constructor; cbn; lia. Qed.

(** One turn. *)
Lemma serialise_turn turns buffer :
  size buffer ≤ 65536 →
  ∃ buffer', size buffer' = size buffer ∧
    FixSerialiser.serialise_loop (S turns) s msg seq_num target clock buffer
    = if wire_room (clock turns) <=? size buffer then
        Returns (message version (body_of (sent_fields s msg seq_num target (clock turns))))
      else if FixSerialiser.serialise_max_buffer_size <=? size buffer then Returns []
      else FixSerialiser.serialise_loop turns s msg seq_num target clock (buffer' ++ zeros (size buffer')).
Proof.
  intros Hle. cbn [FixSerialiser.serialise_loop]. rewrite encode_writes by lia.
  set (now := clock turns). set (fs := sent_fields s msg seq_num target now). set (w := make buffer _ _).
  assert (Hw : returns (write_message fs) w (λ _ view, view =
      if wire_room now <=? size buffer then message version (body_of fs) else []))
    by (apply write_message_spec; [done|lia|apply sent_int_tags]).
  pose proof (sized_write_message fs w) as Hsz. unfold returns in Hw.
  destruct (write_message fs w) as [w' [view|e]]; [|done]. subst view. cbn [obind fst] in *.
  change (buffer_ w) with buffer in Hsz. exists (buffer_ w'). split; [done|]. rewrite Hsz.
  by destruct (wire_room now <=? size buffer).
Qed.

(** What the loop returns, when its turns take the buffer to the largest size. *)
Lemma serialise_loop_returns turns : ∀ buffer,
  size buffer * 2 ^ Z.of_nat turns = FixSerialiser.serialise_max_buffer_size →
  ∃ turn, FixSerialiser.serialise_loop (S turns) s msg seq_num target clock buffer
    = Returns (if wire_room (clock turn) <=? FixSerialiser.serialise_max_buffer_size
               then message version (body_of (sent_fields s msg seq_num target (clock turn))) else []).
Proof.
  induction turns as [|turns IH]; intros buffer Hb; pose proof (size_nonneg buffer) as Hnn.
  - rewrite Z.mul_1_r in Hb. destruct (serialise_turn 0 buffer) as (b & _ & ->); [by rewrite Hb|].
    exists 0%nat. rewrite Hb, Z.leb_refl. by case_match.
  - rewrite Nat2Z.inj_succ, Z.pow_succ_r in Hb by lia. pose proof (Z.pow_pos_nonneg 2 (Z.of_nat turns)).
    assert (Hmax : FixSerialiser.serialise_max_buffer_size = 65536) by done.
    destruct (serialise_turn (S turns) buffer) as (b & Hsz & ->); [nia|].
    destruct (Z.leb_spec (wire_room (clock (S turns))) (size buffer)).
    { exists (S turns). by rewrite (proj2 (Z.leb_le _ _)) by nia. }
    rewrite (proj2 (Z.leb_gt _ _)) by nia. apply IH. rewrite size_app, size_zeros by lia. rewrite Hsz. lia.
Qed.
End serialise.

(** C29: A message that a gateway asks for is on the wire as it asked: [serialise]
    returns within its eight turns, and what it returns is either empty, when the
    message would not fit 64 KiB, or one message that a reader frames and whose
    fields are the header, the message type, the two parties, the sequence number,
    the time, then each field that was set, in its order and once, and the
    checksum.  The fields that the serialiser manages are never written twice, and
    the time read from the message is the second in which the clock was read. *)
Theorem sent_message_is_what_was_asked `{!DataLengths} (s : FixSerialiser.t) (msg : FixMessage.t) (seq_num : Z)
    (target : list Z) (clock : nat → Z) (rest : list Z) :
  (∀ tag, tag ∈ session_tags → is_data_length_tag tag = false) →
  0 ≤ seq_num < 2 ^ 31 → (∀ turn, 0 ≤ clock turn < 2 ^ 63) → readable 0 (unmanaged msg) →
  soh ∉ FixMessage.msg_type msg → soh ∉ FixSerialiser.sender_comp_id_ s → soh ∉ target →
  ∃ turn wire, FixSerialiser.serialise_to s msg seq_num target clock = Returns wire ∧
    let fs := sent_fields s msg seq_num target (clock turn) in
    if body_at (text "FIXT.1.1") + size (body_of fs) + 7 <=? FixSerialiser.serialise_max_buffer_size then
      let r := frame (wire ++ rest) in
      status_ r = Valid ∧ message_bytes_ r = wire ∧ fields wire = Returns (all_fields (text "FIXT.1.1") fs) ∧
      FixField.as_utc_timestamp_ns (FixField.mk 52 (FixSerialiser.current_utc_timestamp (clock turn))) 0
      = Returns (clock turn / 1000000000 * 1000000000)
    else wire = [].
Proof.
  intros Hd Hseq Hclock Hr Hm Hsend Ht.
  destruct (serialise_loop_returns s msg seq_num target clock Hseq (readable_int_tags _ _ Hr) 7
    (zeros FixSerialiser.serialise_initial_buffer_size)) as [turn He]; [reflexivity|].
  eexists turn, _. split; [exact He|]. cbn zeta. unfold wire_room.
  set (fs := sent_fields s msg seq_num target (clock turn)).
  destruct (Z.leb_spec (body_at (text "FIXT.1.1") + size (body_of fs) + 7) FixSerialiser.serialise_max_buffer_size)
    as [Hfit|]; [|done].
  destruct (message_reads_back (text "FIXT.1.1") fs rest) as (-> & -> & _ & ->); try (apply Hd, (bool_decide_eq_true_1 _); reflexivity).
  - by apply (bool_decide_eq_false_1 _).
  - done.
  - unfold fs, sent_fields. cbn [app readable FixField.value]. rewrite !pending_plain by (apply Hd, (bool_decide_eq_true_1 _); reflexivity).
    change (0 =? 0) with true. cbn iota. destruct (sending_time_text (clock turn) (Hclock turn)) as [_ Htime].
    repeat match goal with |- _ ∧ _ => split end; try done; try (unfold int_tag; cbn [FixField.tag]; lia).
    apply digits_no_soh; lia.
  - unfold FixSerialiser.serialise_max_buffer_size in Hfit. pose proof (body_at_nonneg (text "FIXT.1.1")). lia.
  - split_and!; [done..|]. apply sending_time_read, Hclock.
Qed.

(** A reject whose text a caller set, with a sequence number of its own that the
    serialiser does not write. *)
Module ALongReject.

Definition gateway : FixSerialiser.t := FixSerialiser.mk (text "VENUE") (text "MEMBER").

Definition asked : FixMessage.t :=
  FixMessage.set (FixMessage.set (FixMessage.set_int (FixMessage.set [] 35 (text "3")) 34 99) 45 (text "12"))
    58 (replicate 600 120).

Definition clock (turn : nat) : Z := 1773480615250000000 - Z.min 8 (Z.of_nat turn).

End ALongReject.

Lemma sent_message_is_what_was_asked_witness :
  FixSerialiser.current_utc_timestamp (ALongReject.clock 0) = text "20260314-09:30:15" ∧
  ∃ turn wire,
    FixSerialiser.serialise_to ALongReject.gateway ALongReject.asked 7 (text "MEMBER") ALongReject.clock = Returns wire ∧
    let fs := sent_fields ALongReject.gateway ALongReject.asked 7 (text "MEMBER") (ALongReject.clock turn) in
    if body_at (text "FIXT.1.1") + size (body_of fs) + 7 <=? FixSerialiser.serialise_max_buffer_size then
      let r := frame (wire ++ []) in
      status_ r = Valid ∧ message_bytes_ r = wire ∧
      @fields RawData.lengths wire = Returns (all_fields (text "FIXT.1.1") fs) ∧
      FixField.as_utc_timestamp_ns (FixField.mk 52 (FixSerialiser.current_utc_timestamp (ALongReject.clock turn))) 0
      = Returns (ALongReject.clock turn / 1000000000 * 1000000000)
    else wire = [].
Proof.
  split; [reflexivity|].
  apply (@sent_message_is_what_was_asked RawData.lengths ALongReject.gateway ALongReject.asked 7 (text "MEMBER")
    ALongReject.clock []).
  - intros tag Ht. unfold is_data_length_tag, RawData.lengths. apply Z.eqb_neq. intros ->.
    by apply (bool_decide_eq_true_2 _) in Ht.
  - lia.
  - intros turn. unfold ALongReject.clock. lia.
  - by_evaluation.
  - apply (bool_decide_eq_false_1 _). reflexivity.
  - apply (bool_decide_eq_false_1 _). reflexivity.
  - apply (bool_decide_eq_false_1 _). reflexivity.
Defined.
