(* ===== verification/RawBytes.v ===== *)
(** Connections that carry bytes the framework does not frame:
    libraries/pubsub_itc_fw, MirroredBuffer.cpp and the reading half of
    RawBytesProtocolHandler.cpp, with the two threads that share a buffer.

    The reactor reads a socket into the buffer and puts an event on the queue of
    the application thread: a pointer into the buffer, the number of bytes there,
    and the position of the first of them in the stream.  The thread puts on the
    reactor's queue how many bytes it has done with.  Neither waits for the
    other.  [head_] and [tail_] are positions in the stream, which is taken to be
    shorter than 2^63 bytes; a pointer is an offset into the two mappings. *)

From stdpp Require Import strings.
From S2P Require Import Prelude.
From S2P Require Import WalEntry.
#[local] Open Scope Z_scope.
#[local] Open Scope venue_scope.

(** [static_cast<int>] and [static_cast<int64_t>]. *)
Definition to_int32 (z : Z) : Z := (z + 2 ^ 31) mod 2 ^ 32 - 2 ^ 31.
Definition to_int64 (z : Z) : Z := (z + 2 ^ 63) mod 2 ^ 64 - 2 ^ 63.

(** ** MirroredBuffer *)

Module MirroredBuffer.

(** [memory_] is the one block that is mapped twice, end to end. *)
Record t := mk {
  memory_ : list Z;
  capacity_ : Z;
  head_ : Z;
  tail_ : Z
}.

Definition round_to_page_size (page_size requested : Z) : outcome Z :=
  if page_size <=? 0 then Throws PubSubItcException
  else Returns (to_int64 (Z.land (wrap64 (requested + page_size - 1)) (wrap64 (Z.lnot (page_size - 1))))).

(** The constructor, when the mappings are made. *)
Definition make (page_size requested_capacity : Z) : outcome t :=
  if requested_capacity <=? 0 then Throws PreconditionAssertion
  else
    let! capacity := round_to_page_size page_size requested_capacity in
    Returns (mk (zeros capacity) capacity 0 0).

Definition bytes_available (b : t) : Z := head_ b - tail_ b.
Definition space_remaining (b : t) : Z := capacity_ b - bytes_available b - 1.
Definition write_ptr (b : t) : Z := Z.rem (head_ b) (capacity_ b).
Definition read_ptr (b : t) : Z := Z.rem (tail_ b) (capacity_ b).

Definition advance_head (bytes : Z) : comp t unit :=
  b ← gets (λ b, b);
  if bytes <? 0 then throw PreconditionAssertion
  else if space_remaining b <? bytes then throw PreconditionAssertion
  else modify (λ b, mk (memory_ b) (capacity_ b) (head_ b + bytes) (tail_ b)).

Definition advance_tail (bytes : Z) : comp t unit :=
  b ← gets (λ b, b);
  if bytes <? 0 then throw PreconditionAssertion
  else if bytes_available b <? bytes then throw PreconditionAssertion
  else modify (λ b, mk (memory_ b) (capacity_ b) (head_ b) (tail_ b + bytes)).

(** Reading and writing through a pointer: offset [i] of the two mappings is byte
    [i mod capacity] of the block. *)
Definition in_mappings (b : t) (pointer n : Z) : bool :=
  (0 <=? pointer) && (0 <=? n) && (pointer + n <=? 2 * capacity_ b).

Definition byte_at (b : t) (i : Z) : Z := nth (Z.to_nat (i mod capacity_ b)) (memory_ b) 0.

Definition load (b : t) (pointer n : Z) : outcome (list Z) :=
  if in_mappings b pointer n then Returns (byte_at b <$> seqZ pointer n)
  else Throws UndefinedBehaviour.

Fixpoint store_bytes (memory : list Z) (capacity i : Z) (bytes : list Z) : list Z :=
  match bytes with
  | [] => memory
  | c :: bytes => store_bytes (<[Z.to_nat (i mod capacity) := c]> memory) capacity (i + 1) bytes
  end.

Definition store (pointer : Z) (bytes : list Z) : comp t unit :=
  b ← gets (λ b, b);
  if in_mappings b pointer (size bytes) then
    modify (λ b, mk (store_bytes (memory_ b) (capacity_ b) pointer bytes) (capacity_ b) (head_ b) (tail_ b))
  else throw UndefinedBehaviour.

End MirroredBuffer.

(** [EventMessage::create_raw_socket_message]. *)
Record Event := mk_event {
  payload : Z;
  payload_size : Z;
  tail_position : Z
}.

(** ** RawBytesProtocolHandler *)

Module RawBytesProtocolHandler.

Definition water_denominator : Z := 4.
Definition high_water_numerator : Z := 3.
Definition low_water_numerator : Z := 2.

Record t := mk {
  buffer_ : MirroredBuffer.t;
  reads_paused_ : bool
}.

Definition set_buffer (b : MirroredBuffer.t) (h : t) : t := mk b (reads_paused_ h).
Definition set_paused (paused : bool) (h : t) : t := mk (buffer_ h) paused.

(** Running code on the buffer. *)
Definition on_buffer {A} (m : comp MirroredBuffer.t A) : comp t A :=
  λ h, let r := m (buffer_ h) in (set_buffer r.1 h, r.2).

(** What [recv] finds: bytes, of which it takes as many as it is asked for,
    nothing yet, a connection that the peer has closed, or an error. *)
Inductive Waiting :=
  | Bytes (waiting : list Z)
  | Nothing
  | Closed
  | Fails (error : string).

(** The handler and the queue of the application thread. *)
Definition state : Type := t * list Event.

Definition on_data_ready (socket : Waiting) : comp state (bool * string * bool) :=
  space ← on_fst (gets (λ h, MirroredBuffer.space_remaining (buffer_ h)));
  if space =? 0 then
    mret (false, "RawBytesProtocolHandler::on_data_ready: buffer full, application is not consuming fast enough"%string, false)
  else
    match socket with
    | Closed => mret (false, EmptyString, false)
    | Nothing => mret (true, EmptyString, false)
    | Fails error => mret (false, error, false)
    | Bytes waiting =>
        let bytes := take (Z.to_nat space) waiting in
        b ← on_fst (gets buffer_);
        on_fst (on_buffer (MirroredBuffer.store (MirroredBuffer.write_ptr b) bytes));;
        on_fst (on_buffer (MirroredBuffer.advance_head (size bytes)));;
        b ← on_fst (gets buffer_);
        on_snd (modify (λ queue, queue ++
          [mk_event (MirroredBuffer.read_ptr b) (to_int32 (MirroredBuffer.bytes_available b))
             (MirroredBuffer.tail_ b)]));;
        paused ← on_fst (gets reads_paused_);
        if negb paused &&
           (MirroredBuffer.capacity_ b * high_water_numerator
              <=? MirroredBuffer.bytes_available b * water_denominator) then
          on_fst (modify (set_paused true));;
          mret (true, EmptyString, true)
        else mret (true, EmptyString, false)
    end.

(** [commit_bytes]: whether reads are to be resumed. *)
Definition commit_bytes (bytes : Z) : comp t bool :=
  on_buffer (MirroredBuffer.advance_tail bytes);;
  h ← gets (λ h, h);
  if negb (reads_paused_ h) then mret false
  else if MirroredBuffer.bytes_available (buffer_ h) * water_denominator
            <=? MirroredBuffer.capacity_ (buffer_ h) * low_water_numerator then
    modify (set_paused false);;
    mret true
  else mret false.

End RawBytesProtocolHandler.

(** ** The two threads *)

(** What the thread asks of the reactor. *)
Inductive Command :=
  | CommitRawBytes (bytes : Z)
  | Disconnect.

#[export] Instance Command_eq_dec : EqDecision Command.
Proof. solve_decision. Defined.

(** An application thread's [on_raw_socket_message]: the state of the session,
    the commands it puts on the reactor's queue, and what it does.  What it finds
    in the bytes it may answer by asking for the connection to be closed, which is
    for the caller to say ([ended]). *)
Class RawApplication (S O : Type) :=
  on_raw_socket_message : MirroredBuffer.t → Event → bool → S → outcome (S * list Command * list O).

Module RawThreads.

Section threads.
Context {S O : Type} {A : RawApplication S O}.

(** [received] is every byte that was read from the socket. *)
Record state := mk {
  received : list Z;
  handler : RawBytesProtocolHandler.t;
  open_ : bool;
  events : list Event;
  commands : list Command;
  session : S;
  done : list O
}.

Definition initial (b : MirroredBuffer.t) (s : S) : state :=
  mk [] (RawBytesProtocolHandler.mk b false) true [] [] s [].

(** A thread's next move: the reactor reads the socket or carries out a command,
    the application thread handles an event, or for a reason of its own asks for
    the connection to be closed; and the peer closes the connection. *)
Inductive action :=
  | ReactorReads (waiting : list Z)
  | ReactorObeys
  | ThreadHandles (ended : bool)
  | ThreadDisconnects
  | PeerCloses.

(** [InboundConnectionManager::on_data_ready], with bytes waiting. *)
Definition reactor_reads (waiting : list Z) (s : state) : outcome state :=
  let space := MirroredBuffer.space_remaining (RawBytesProtocolHandler.buffer_ (handler s)) in
  let '((h, queue), r) :=
    RawBytesProtocolHandler.on_data_ready (RawBytesProtocolHandler.Bytes waiting) (handler s, events s) in
  let! answer := r in
  let '(ok, _, _) := answer : bool * string * bool in
  Returns (mk (received s ++ take (Z.to_nat space) waiting) h (open_ s && ok) queue (commands s)
             (session s) (done s)).

(** [Reactor::process_control_commands]: a command for a connection that is gone
    is dropped.  Reading is tried at once when it is resumed, which is a move of
    its own here. *)
Definition reactor_obeys (c : Command) (rest : list Command) (s : state) : outcome state :=
  if open_ s then
    match c with
    | CommitRawBytes bytes =>
        let '(h, r) := RawBytesProtocolHandler.commit_bytes bytes (handler s) in
        let! _ := r in
        Returns (mk (received s) h true (events s) rest (session s) (done s))
    | Disconnect => Returns (mk (received s) (handler s) false (events s) rest (session s) (done s))
    end
  else Returns (mk (received s) (handler s) false (events s) rest (session s) (done s)).

Definition thread_handles (ended : bool) (e : Event) (rest : list Event) (s : state) : outcome state :=
  let! r := on_raw_socket_message (RawBytesProtocolHandler.buffer_ (handler s)) e ended (session s) in
  let '(session', more, did) := r : S * list Command * list O in
  Returns (mk (received s) (handler s) (open_ s) rest (commands s ++ more) session' (done s ++ did)).

(** A move, if it can be made: [EPOLLIN] is watched for while reads are not
    paused. *)
Definition step (a : action) (s : state) : option (outcome state) :=
  match a with
  | ReactorReads waiting =>
      if open_ s && negb (RawBytesProtocolHandler.reads_paused_ (handler s)) && negb (bool_decide (waiting = []))
      then Some (reactor_reads waiting s) else None
  | ReactorObeys =>
      match commands s with
      | c :: rest => Some (reactor_obeys c rest s)
      | [] => None
      end
  | ThreadHandles ended =>
      match events s with
      | e :: rest => Some (thread_handles ended e rest s)
      | [] => None
      end
  | ThreadDisconnects =>
      if open_ s then
        Some (Returns (mk (received s) (handler s) true (events s) (commands s ++ [Disconnect]) (session s) (done s)))
      else None
  | PeerCloses =>
      if open_ s then
        Some (Returns (mk (received s) (handler s) false (events s) (commands s) (session s) (done s)))
      else None
  end.

(** The moves in an order; one that cannot be made is passed over. *)
Fixpoint run (l : list action) (s : state) : outcome state :=
  match l with
  | [] => Returns s
  | a :: l =>
      match step a s with
      | Some r => let! s' := r in run l s'
      | None => run l s
      end
  end.

End threads.
End RawThreads.
