(* ===== verification/RawClients.v ===== *)
(** The three application threads that are handed raw bytes:
    FixOrderGatewayThread.cpp, SequencerThread.cpp (the operators' listener) and
    AuthenticationThread.cpp (the administrators' listener), each the part of its
    [on_raw_socket_message] that finds what is new and says what it is done with.

    The operators' and administrators' listeners are TLS: their handler
    (TlsRawBytesProtocolHandler.cpp) puts the decrypted bytes in the same buffer,
    with the same events and commits. *)

From stdpp Require Import strings.
From S2P Require Import Prelude.
From S2P Require Import WalEntry.
From S2P Require Import PduFraming.
From S2P Require Import FixField.
From S2P Require Import FixMessage.
From S2P Require Import FixValidator.
From S2P Require Import FixParser.
From S2P Require Import RawBytes.
#[local] Open Scope Z_scope.
#[local] Open Scope venue_scope.

(** ** FixOrderGatewayThread *)

Module FixOrderGateway.

Definition expected_preamble : list Z := text "8=FIXT.1.1" ++ [soh].

(** The members of [FixSession] that the bytes concern. *)
Record session := mk {
  preamble_verified : bool;
  absolute_head_seen_ : Z;
  absolute_bytes_committed_ : Z
}.

Definition initial : session := mk false 0 0.

(** What the thread does: the parser calls it back, or it disconnects the
    session. *)
Inductive output :=
  | Called (c : FixParser.Callback)
  | DisconnectSession (reason : string).

Section gateway.
Context `{!Dictionary}.

(** The bytes that are new go to the parser.  A callback may disconnect the
    session, which is before the bytes are committed. *)
Definition feed_new_bytes (buffer : MirroredBuffer.t) (ended : bool)
    (new_bytes_ptr new_bytes_len head_seen committed : Z)
    : outcome (session * list Command * list output) :=
  let! window := MirroredBuffer.load buffer new_bytes_ptr new_bytes_len in
  let! r := FixParser.feed window in
  let consumed := r.2 in
  Returns (mk true head_seen (committed + consumed), (if ended then [Disconnect] else []) ++ [CommitRawBytes consumed],
           Called <$> r.1).

Definition on_raw_socket_message (buffer : MirroredBuffer.t) (message : Event) (ended : bool) (s : session)
    : outcome (session * list Command * list output) :=
  let data := payload message in
  let available := payload_size message in
  let event_tail_position := tail_position message in
  if available <=? 0 then Returns (s, [], [])
  else
    let event_absolute_head := event_tail_position + available in
    let head_seen :=
      if absolute_head_seen_ s <? event_absolute_head then event_absolute_head else absolute_head_seen_ s in
    let committed := absolute_bytes_committed_ s in
    let s := mk (preamble_verified s) head_seen committed in
    let new_bytes_len := head_seen - committed in
    if new_bytes_len <=? 0 then Returns (s, [], [])
    else
      let window_offset := committed - event_tail_position in
      if (window_offset <? 0) || (available <? window_offset + new_bytes_len) then
        Returns (s, [Disconnect], [DisconnectSession "cumulative-bytes invariant violation"])
      else
        let new_bytes_ptr := data + window_offset in
        if negb (preamble_verified s) then
          let bytes_to_check := Z.min available (size expected_preamble) in
          let! seen := MirroredBuffer.load buffer data bytes_to_check in
          if negb (bool_decide (seen = take (Z.to_nat bytes_to_check) expected_preamble)) then
            Returns (mk false head_seen (committed + new_bytes_len),
                     [Disconnect; CommitRawBytes new_bytes_len],
                     [DisconnectSession "invalid FIX preamble"])
          else if available <? size expected_preamble then Returns (s, [CommitRawBytes 0], [])
          else feed_new_bytes buffer ended new_bytes_ptr new_bytes_len head_seen committed
        else feed_new_bytes buffer ended new_bytes_ptr new_bytes_len head_seen committed.

#[export] Instance application : RawApplication session output := on_raw_socket_message.
End gateway.

End FixOrderGateway.

(** ** SequencerThread *)

Module OperatorListener.

Definition largest_request : Z := 4096.
Definition OperatorHaltRequest : Z := 161.

(** What the thread does: [handle_operator_halt_request] with the bytes of a
    request, or a line in the log. *)
Inductive output :=
  | HandleOperatorHaltRequest (payload : list Z)
  | NotARequest (pdu_id : Z)
  | Discarding (bytes : Z).

(** The loop: how many bytes are done with, whether it returns at once because
    they are not requests, and what was done. *)
Fixpoint request_loop (turns : nat) (buffer : MirroredBuffer.t) (data available consumed : Z)
    (did : list output) : outcome (Z * bool * list output) :=
  match turns with
  | O => Throws DoesNotReturn
  | S turns =>
      if available - consumed <? PduHeader.sizeof then Returns (consumed, false, did)
      else
        let! bytes := MirroredBuffer.load buffer (data + consumed) PduHeader.sizeof in
        let header := PduHeader.of_wire bytes in
        let byte_count := PduHeader.byte_count header in
        if negb (PduHeader.canary header =? PduHeader.pdu_canary_value) || (largest_request <? byte_count) then
          Returns (available, true, did ++ [Discarding available])
        else if available - consumed <? PduHeader.sizeof + byte_count then Returns (consumed, false, did)
        else
          let! payload := MirroredBuffer.load buffer (data + consumed + PduHeader.sizeof) byte_count in
          let act :=
            if PduHeader.pdu_id header =? OperatorHaltRequest then HandleOperatorHaltRequest payload
            else NotARequest (PduHeader.pdu_id header) in
          request_loop turns buffer data available (consumed + PduHeader.sizeof + byte_count) (did ++ [act])
  end.

(** Every turn but the last is done with 24 bytes at least. *)
Definition on_raw_socket_message (buffer : MirroredBuffer.t) (message : Event) (_ : bool) (_ : unit)
    : outcome (unit * list Command * list output) :=
  let available := payload_size message in
  let! r := request_loop (S (Z.to_nat available)) buffer (payload message) available 0 [] in
  let '(consumed, discarded, did) := r in
  Returns ((), (if discarded || (0 <? consumed) then [CommitRawBytes consumed] else []), did).

#[export] Instance application : RawApplication unit output := on_raw_socket_message.

End OperatorListener.

(** ** AuthenticationThread *)

Module AdminListener.

Definition admin_pdu_header_size : Z := 24.
Definition admin_pdu_canary : Z := 0xC0FFEE00.
Definition pdu_id_set_credential_request : Z := 510.
Definition pdu_id_remove_credential_request : Z := 512.
Definition pdu_id_restore_credential_request : Z := 514.

Inductive output :=
  | HandleSetCredentialRequest (payload : list Z)
  | HandleRemoveCredentialRequest (payload : list Z)
  | HandleRestoreCredentialRequest (payload : list Z)
  | UnknownPdu (pdu_id : Z)
  | BadCanary (canary : Z).

Definition on_raw_socket_message (buffer : MirroredBuffer.t) (message : Event) (_ : bool) (_ : unit)
    : outcome (unit * list Command * list output) :=
  let data := payload message in
  let available := payload_size message in
  if available <? admin_pdu_header_size then Returns ((), [], [])
  else
    let! header := MirroredBuffer.load buffer data admin_pdu_header_size in
    let byte_count := net_unsigned (slice header 0 4) in
    let pdu_id := net_unsigned (slice header 4 2) in
    let canary := net_unsigned (slice header 16 4) in
    let total_size := admin_pdu_header_size + byte_count in
    if available <? total_size then Returns ((), [], [])
    else if negb (canary =? admin_pdu_canary) then Returns ((), [CommitRawBytes total_size], [BadCanary canary])
    else
      let! payload := MirroredBuffer.load buffer (data + admin_pdu_header_size) byte_count in
      let act :=
        if pdu_id =? pdu_id_set_credential_request then HandleSetCredentialRequest payload
        else if pdu_id =? pdu_id_remove_credential_request then HandleRemoveCredentialRequest payload
        else if pdu_id =? pdu_id_restore_credential_request then HandleRestoreCredentialRequest payload
        else UnknownPdu pdu_id in
      Returns ((), [CommitRawBytes total_size], [act]).

#[export] Instance application : RawApplication unit output := on_raw_socket_message.

End AdminListener.
