(* ===== verification/RawBytesTheorems.v ===== *)
(** What the two threads of a raw connection agree on (RawBytes.v): the buffer
    holds the bytes from [tail_] to [head_], and a pointer in an event reaches
    the bytes it was made for. *)

From stdpp Require Import strings.
From S2P Require Import Prelude.
From S2P Require Import WalEntry.
From S2P Require Import RawBytes.
#[local] Open Scope Z_scope.
#[local] Open Scope venue_scope.

Import MirroredBuffer.

(** ** The buffer *)

(** The bytes of the stream from [tail_] to [head_] are in the block. *)
Record holds (b : t) (received : list Z) : Prop := {
  holds_capacity : 0 < capacity_ b;
  holds_memory : size (memory_ b) = capacity_ b;
  holds_tail : 0 ≤ tail_ b ≤ head_ b;
  holds_head : head_ b = size received;
  holds_room : head_ b - tail_ b < capacity_ b;
  holds_bytes p : tail_ b ≤ p < head_ b →
    memory_ b !! Z.to_nat (p mod capacity_ b) = received !! Z.to_nat p
}.

Lemma made_holds page_size requested b :
  make page_size requested = Returns b → 0 < capacity_ b → holds b [] ∧ head_ b = 0.
Proof.
  unfold make, round_to_page_size. repeat case_match; try done. cbn. intros [= <-] Hc. cbn in *.
  split; [|done]. constructor; cbn; try lia; [by apply size_zeros; lia|done].
Qed.

Lemma mod_apart i q n : 0 < i - q < n → q mod n ≠ i mod n.
Proof.
  intros Hi He. assert (Hz : (i - q) mod n = 0).
  { rewrite Zminus_mod, He, Z.sub_diag. apply Z.mod_0_l. lia. }
  rewrite Z.mod_small in Hz; lia.
Qed.

Lemma length_store_bytes bytes : ∀ memory capacity i,
  length (store_bytes memory capacity i bytes) = length memory.
Proof. induction bytes as [|c bytes IH]; intros; cbn; [done|]. by rewrite IH, length_insert. Qed.

Lemma store_bytes_lookup bytes : ∀ memory capacity i q,
  0 < capacity → size memory = capacity → size bytes ≤ capacity → 0 ≤ i → i + size bytes - capacity ≤ q < i + size bytes →
  store_bytes memory capacity i bytes !! Z.to_nat (q mod capacity)
  = if i <=? q then bytes !! Z.to_nat (q - i) else memory !! Z.to_nat (q mod capacity).
Proof.
  induction bytes as [|c bytes IH]; intros memory capacity i q Hc Hm Hs Hi Hq; cbn [store_bytes].
  - unfold size in Hq. cbn in Hq. destruct (Z.leb_spec i q); [lia|done].
  - pose proof (Z.mod_pos_bound i capacity Hc). pose proof (Z.mod_pos_bound q capacity Hc).
    assert (Hsz : size (c :: bytes) = size bytes + 1) by (unfold size; cbn [length]; lia).
    assert (Hins : size (<[Z.to_nat (i mod capacity) := c]> memory) = capacity) by (unfold size in Hm |- *; by rewrite length_insert).
    rewrite IH; [|done|done|lia..].
    destruct (Z.leb_spec i q), (Z.leb_spec (i + 1) q); try lia.
    + replace (Z.to_nat (q - i)) with (S (Z.to_nat (q - (i + 1)))) by lia. done.
    + replace q with i by lia. rewrite Z.sub_diag. apply list_lookup_insert_eq. unfold size in Hm. lia.
    + apply list_lookup_insert_ne. pose proof (size_nonneg bytes). pose proof (mod_apart i q capacity ltac:(lia)). lia.
Qed.

Lemma store_bytes_mod bytes : ∀ memory capacity i j,
  i mod capacity = j mod capacity →
  store_bytes memory capacity i bytes = store_bytes memory capacity j bytes.
Proof.
  induction bytes as [|c bytes IH]; intros memory capacity i j He; cbn [store_bytes]; [done|].
  rewrite He. apply IH. rewrite Zplus_mod, He, <- Zplus_mod. done.
Qed.

(** A pointer that stands for a place of the stream between [tail_] and [head_]
    reads the bytes of the stream. *)
Lemma load_holds b received pointer p n :
  holds b received → 0 ≤ pointer → 0 ≤ n → pointer + n ≤ 2 * capacity_ b →
  pointer mod capacity_ b = p mod capacity_ b → tail_ b ≤ p → p + n ≤ head_ b →
  load b pointer n = Returns (slice received p n).
Proof.
  intros Hb H0 Hn H2 Hm Hp Hpn. unfold load, in_mappings.
  rewrite !(proj2 (Z.leb_le _ _)) by lia. cbn [andb]. f_equal.
  pose proof (holds_tail _ _ Hb). pose proof (holds_head _ _ Hb) as Hh. pose proof (holds_capacity _ _ Hb).
  apply list_eq_same_length with (n := Z.to_nat n).
  - unfold slice, size in *. rewrite length_take, length_drop. lia.
  - by rewrite length_fmap, length_seqZ.
  - intros i x y Hi Hx Hy. rewrite list_lookup_fmap in Hx. rewrite lookup_seqZ_lt in Hx by lia.
    cbn in Hx. injection Hx as <-. unfold slice in Hy. rewrite lookup_take_lt, lookup_drop in Hy by lia.
    unfold byte_at. apply nth_lookup_Some.
    replace ((pointer + Z.of_nat i) mod capacity_ b) with ((p + Z.of_nat i) mod capacity_ b)
      by (rewrite Zplus_mod, <- Hm, <- Zplus_mod; done).
    rewrite (holds_bytes _ _ Hb) by lia. rewrite <- Hy. f_equal. lia.
Qed.

Lemma store_holds b received bytes :
  holds b received → size bytes ≤ space_remaining b →
  ∃ b', (store (write_ptr b) bytes ≫= λ _, advance_head (size bytes)) b = (b', Returns ()) ∧
    holds b' (received ++ bytes) ∧ capacity_ b' = capacity_ b ∧ tail_ b' = tail_ b ∧
    head_ b' = head_ b + size bytes.
Proof.
  intros Hb Hs. pose proof Hb as [Hc Hm Ht Hh Hr Hbytes]. unfold space_remaining, bytes_available in Hs.
  pose proof (size_nonneg bytes). unfold write_ptr. rewrite Z.rem_mod_nonneg by lia.
  pose proof (Z.mod_pos_bound (head_ b) (capacity_ b) Hc).
  set (b1 := mk (store_bytes (memory_ b) (capacity_ b) (head_ b mod capacity_ b) bytes) (capacity_ b) (head_ b) (tail_ b)).
  assert (H1 : store (head_ b mod capacity_ b) bytes b = (b1, Returns ())).
  { unfold store. rewrite (bind_returns _ _ b b b) by done. unfold in_mappings. rewrite !(proj2 (Z.leb_le _ _)) by lia. done. }
  rewrite (bind_returns _ _ _ _ _ H1). unfold advance_head. rewrite (bind_returns _ _ b1 b1 b1) by done.
  rewrite !(proj2 (Z.ltb_ge _ _)) by (unfold space_remaining, bytes_available; cbn; lia). eexists. split; [reflexivity|]. cbn. split; [|done].
  constructor; cbn; try (done || lia).
  - unfold size in *. by rewrite length_store_bytes.
  - rewrite size_app. lia.
  - intros p Hp. rewrite (store_bytes_mod _ _ _ _ (head_ b)) by (apply Z.mod_mod; lia).
    rewrite store_bytes_lookup by lia. destruct (Z.leb_spec (head_ b) p).
    + rewrite lookup_app_r by (unfold size in *; lia). f_equal. unfold size in *. lia.
    + rewrite lookup_app_l by (unfold size in *; lia). apply Hbytes. lia.
Qed.

Lemma advance_tail_holds b received n :
  holds b received → 0 ≤ n ≤ bytes_available b →
  ∃ b', advance_tail n b = (b', Returns ()) ∧ holds b' received ∧ capacity_ b' = capacity_ b ∧
    tail_ b' = tail_ b + n ∧ head_ b' = head_ b.
Proof.
  intros Hb Hn. pose proof Hb as [Hc Hm Ht Hh Hr Hbytes]. unfold advance_tail.
  rewrite (bind_returns _ _ b b b) by done. rewrite !(proj2 (Z.ltb_ge _ _)) by lia. unfold bytes_available in Hn.
  eexists. split; [reflexivity|]. cbn. split; [|done]. constructor; cbn; try (done || lia).
  intros p Hp. apply Hbytes. lia.
Qed.

(** ** The handler *)

Import RawBytesProtocolHandler.

(** Reads are paused before the buffer is full, and go on when it is half empty. *)
Definition pausing (h : RawBytesProtocolHandler.t) : Prop :=
  if reads_paused_ h then capacity_ (buffer_ h) * 2 < bytes_available (buffer_ h) * 4
  else bytes_available (buffer_ h) * 4 < capacity_ (buffer_ h) * 3.

(** An event that was made when the first byte of the buffer was where it says. *)
Record event_ok (b : MirroredBuffer.t) (e : Event) : Prop := {
  event_pointer : payload e = tail_position e mod capacity_ b;
  event_tail : 0 ≤ tail_position e ≤ tail_ b;
  event_size : 0 < payload_size e < capacity_ b;
  event_head : tail_position e + payload_size e ≤ head_ b
}.

Definition event_end (e : Event) : Z := tail_position e + payload_size e.

(** The ends of the events in a queue, from what was seen to the last byte. *)
Fixpoint chain (from : Z) (es : list Event) (to : Z) : Prop :=
  match es with
  | [] => from = to
  | e :: es => from ≤ event_end e ∧ chain (event_end e) es to
  end.

Lemma chain_le es : ∀ from to, chain from es to → from ≤ to.
Proof.
  induction es as [|e es IH]; intros from to; cbn; [lia|]. intros [H1 H2%IH]. lia.
Qed.

Lemma event_chain_snoc es e : ∀ from to,
  chain from es to → to ≤ event_end e → chain from (es ++ [e]) (event_end e).
Proof.
  induction es as [|e' es IH]; intros from to; cbn; [intros -> ?; done|].
  intros [H1 H2] H3. split; [done|]. by eapply IH.
Qed.

Lemma to_int32_small z : 0 ≤ z < 2 ^ 31 → to_int32 z = z.
Proof. intros Hz. unfold to_int32. rewrite Z.mod_small; lia. Qed.

(** A read, when there is room. *)
Lemma on_data_ready_reads h received queue waiting :
  holds (buffer_ h) received → pausing h → reads_paused_ h = false → waiting ≠ [] →
  4 ≤ capacity_ (buffer_ h) < 2 ^ 31 →
  let bytes := take (Z.to_nat (space_remaining (buffer_ h))) waiting in
  ∃ h' e pause, on_data_ready (Bytes waiting) (h, queue) = ((h', queue ++ [e]), Returns (true, EmptyString, pause)) ∧
    holds (buffer_ h') (received ++ bytes) ∧ pausing h' ∧ event_ok (buffer_ h') e ∧
    capacity_ (buffer_ h') = capacity_ (buffer_ h) ∧ tail_ (buffer_ h') = tail_ (buffer_ h) ∧
    head_ (buffer_ h') = head_ (buffer_ h) + size bytes ∧ event_end e = head_ (buffer_ h') ∧
    tail_position e = tail_ (buffer_ h') ∧
    reads_paused_ h' = (capacity_ (buffer_ h) * 3 <=? bytes_available (buffer_ h') * 4).
Proof.
  intros Hb Hpa Hp Hw Hc bytes. unfold pausing in Hpa. rewrite Hp in Hpa. pose proof (holds_tail _ _ Hb) as Ht.
  assert (Hsp : 0 < space_remaining (buffer_ h)) by (unfold space_remaining, bytes_available in *; lia).
  assert (Hn : 0 < size bytes ≤ space_remaining (buffer_ h)).
  { unfold bytes, size. rewrite length_take. destruct waiting; [done|]. cbn [length]. lia. }
  destruct (store_holds _ _ bytes Hb) as (b' & Hst & Hb' & Hc' & Ht' & Hh'); [lia|].
  unfold on_data_ready. rewrite (bind_returns _ _ (h, queue) (h, queue) (space_remaining (buffer_ h))) by done.
  rewrite (proj2 (Z.eqb_neq _ _)) by lia. fold bytes.
  rewrite (bind_returns _ _ (h, queue) (h, queue) (buffer_ h)) by done.
  unfold mbind at 1, comp_bind at 1 in Hst.
  destruct (store (write_ptr (buffer_ h)) bytes (buffer_ h)) as [b1 [[]|x]] eqn:H1; [|done].
  rewrite (bind_returns _ _ (h, queue) (set_buffer b1 h, queue) ()) by (unfold on_fst, on_buffer; cbn; by rewrite H1).
  rewrite (bind_returns _ _ _ (set_buffer b' h, queue) ()) by (unfold on_fst, on_buffer; cbn; by rewrite Hst).
  rewrite (bind_returns _ _ (set_buffer b' h, queue) (set_buffer b' h, queue) b') by done.
  pose proof (holds_tail _ _ Hb'). pose proof (holds_room _ _ Hb').
  assert (Hav : bytes_available b' = head_ (buffer_ h) + size bytes - tail_ (buffer_ h)) by (unfold bytes_available; lia).
  set (e := mk_event (read_ptr b') (to_int32 (bytes_available b')) (tail_ b')).
  rewrite (bind_returns _ _ (set_buffer b' h, queue) (set_buffer b' h, queue ++ [e]) ()) by done.
  rewrite (bind_returns _ _ (set_buffer b' h, queue ++ [e]) (set_buffer b' h, queue ++ [e]) false)
    by (unfold on_fst; cbn; by rewrite Hp).
  assert (He : event_ok b' e ∧ event_end e = head_ b' ∧ tail_position e = tail_ b').
  { unfold event_end, e. cbn. rewrite to_int32_small by (unfold bytes_available in *; lia).
    split; [|unfold bytes_available; lia]. constructor; cbn; unfold bytes_available in *;
      rewrite ?to_int32_small by lia; try lia. unfold read_ptr. apply Z.rem_mod_nonneg; lia. }
  destruct He as (He1 & He2 & He3). cbn [negb andb]. unfold high_water_numerator, water_denominator.
  rewrite Hc'. destruct (Z.leb_spec (capacity_ (buffer_ h) * 3) (bytes_available b' * 4)).
  - exists (RawBytesProtocolHandler.mk b' true), e, true. cbn. rewrite (proj2 (Z.leb_le _ _)) by lia.
    repeat match goal with |- _ ∧ _ => split end; try done. unfold pausing. cbn. lia.
  - exists (RawBytesProtocolHandler.mk b' false), e, false. cbn. rewrite (proj2 (Z.leb_gt _ _)) by lia.
    split; [unfold set_buffer; by rewrite Hp|].
    repeat match goal with |- _ ∧ _ => split end; try done. unfold pausing. cbn. lia.
Qed.

(** A commit of bytes that the buffer holds. *)
Lemma commit_bytes_holds h received n :
  holds (buffer_ h) received → pausing h → 0 ≤ n ≤ bytes_available (buffer_ h) → 0 < capacity_ (buffer_ h) →
  ∃ h' r, commit_bytes n h = (h', Returns r) ∧ holds (buffer_ h') received ∧ pausing h' ∧
    capacity_ (buffer_ h') = capacity_ (buffer_ h) ∧ tail_ (buffer_ h') = tail_ (buffer_ h) + n ∧
    head_ (buffer_ h') = head_ (buffer_ h).
Proof.
  intros Hb Hpa Hn Hc. destruct (advance_tail_holds _ _ n Hb Hn) as (b' & Ha & Hb' & Hc' & Ht' & Hh').
  unfold commit_bytes. rewrite (bind_returns _ _ h (set_buffer b' h) ()) by (unfold on_buffer; by rewrite Ha).
  rewrite (bind_returns _ _ (set_buffer b' h) (set_buffer b' h) (set_buffer b' h)) by done. cbn [reads_paused_ set_buffer buffer_].
  assert (Hav : bytes_available b' = bytes_available (buffer_ h) - n) by (unfold bytes_available; lia).
  destruct (reads_paused_ h) eqn:Hp; cbn [negb].
  - unfold water_denominator, low_water_numerator. rewrite Hc'.
    destruct (Z.leb_spec (bytes_available b' * 4) (capacity_ (buffer_ h) * 2)).
    + eexists _, _. split; [reflexivity|]. cbn. repeat match goal with |- _ ∧ _ => split end; try done.
      unfold pausing. cbn. lia.
    + eexists _, _. split; [reflexivity|]. cbn. repeat match goal with |- _ ∧ _ => split end; try done.
      unfold pausing. cbn. rewrite Hp. lia.
  - eexists _, _. split; [reflexivity|]. cbn. repeat match goal with |- _ ∧ _ => split end; try done.
    unfold pausing in *. cbn. rewrite Hp in *. lia.
Qed.
