(* ===== verification/RawClientsTheorems.v ===== *)
(** What the threads that are handed raw bytes (RawClients.v) make of them,
    whatever the order in which they and the reactor move. *)

From stdpp Require Import strings.
From S2P Require Import Prelude.
From S2P Require Import WalEntry.
From S2P Require Import PduFraming.
From S2P Require Import FixField.
From S2P Require Import FixFieldTheorems.
From S2P Require Import FixMessage.
From S2P Require Import FixValidator.
From S2P Require Import FixValidatorTheorems.
From S2P Require Import FixParser.
From S2P Require Import FixParserTheorems.
From S2P Require Import RawBytes.
From S2P Require Import RawBytesTheorems.
From S2P Require Import RawClients.
#[local] Open Scope Z_scope.
#[local] Open Scope venue_scope.

Import RawThreads.
Import FixOrderGateway.

(** ** The preamble *)

(** The bytes and the preamble are the same as far as both go. *)
Definition agrees (bytes : list Z) : Prop := take 11 bytes = take (length bytes) expected_preamble.

#[export] Instance agrees_dec bytes : Decision (agrees bytes).
Proof. unfold agrees. apply _. Defined.

Lemma preamble_size : size expected_preamble = 11.
Proof. reflexivity. Qed.

Lemma agrees_take bytes n : agrees bytes → agrees (take n bytes).
Proof.
  unfold agrees. intros Ha. rewrite take_take, length_take.
  replace (11 `min` n)%nat with (n `min` 11)%nat by lia. rewrite <- take_take, Ha, take_take. done.
Qed.

Lemma agrees_front bytes more : agrees (bytes ++ more) → agrees bytes.
Proof.
  intros Ha. apply (agrees_take _ (length bytes)) in Ha. by rewrite take_app_length in Ha.
Qed.

(** Eleven bytes decide it. *)
Lemma agrees_enough bytes more : (11 ≤ length bytes)%nat → agrees bytes → agrees (bytes ++ more).
Proof.
  unfold agrees. intros Hn Ha. rewrite take_app_le by done. rewrite Ha, length_app.
  rewrite !take_ge; (done || (change (length expected_preamble) with 11%nat; lia)).
Qed.

(** The start of the preamble holds no message. *)
Lemma short_feed `{!Dictionary} bytes :
  agrees bytes → (length bytes < 11)%nat → FixParser.feed bytes = Returns ([], 0).
Proof.
  unfold agrees. intros Ha Hn. rewrite (take_ge bytes) in Ha by lia. rewrite Ha. clear Ha. revert Hn.
  generalize (length bytes). intros n Hn. do 11 (destruct n as [|n]; [reflexivity|]). lia.
Qed.

(** ** What holds of the two threads *)

(** The bytes that commands will free. *)
Definition commit_of (c : Command) : Z := match c with CommitRawBytes n => n | Disconnect => 0 end.
Definition commits (cs : list Command) : Z := foldr (λ c z, commit_of c + z) 0 cs.

Lemma commits_app cs cs' : commits (cs ++ cs') = commits cs + commits cs'.
Proof. induction cs as [|c cs IH]; cbn; [done|]. unfold commits in *. cbn. rewrite IH. lia. Qed.

Lemma commits_nonneg cs : Forall (λ c, 0 ≤ commit_of c) cs → 0 ≤ commits cs.
Proof. induction 1; cbn; [done|]. unfold commits in *. lia. Qed.

(** No byte is freed before the connection is closed. *)
Fixpoint frees_nothing (cs : list Command) : Prop :=
  match cs with
  | [] => True
  | CommitRawBytes n :: cs => n = 0 ∧ frees_nothing cs
  | Disconnect :: _ => True
  end.

Lemma frees_nothing_app cs cs' : frees_nothing cs → frees_nothing cs' → frees_nothing (cs ++ cs').
Proof. induction cs as [|[n|] cs IH]; cbn; [done| |done]. intros [-> H1] H2. by split; [|apply IH]. Qed.

Lemma commits_zero cs : Forall (λ c, 0 ≤ commit_of c) cs → commits cs = 0 → frees_nothing cs.
Proof.
  induction 1 as [|[n|] cs Hc Hcs IH]; cbn; [done| |done]. intros Hs. pose proof (commits_nonneg _ Hcs).
  unfold commits in *. cbn in Hs, Hc. split; [lia|]. apply IH. lia.
Qed.

Arguments commits : simpl never.

Section gateway.
Context `{!Dictionary}.

Notation state := (RawThreads.state (S := session) (O := output)).

Definition buffer (s : state) : MirroredBuffer.t := RawBytesProtocolHandler.buffer_ (handler s).
Definition head_seen (s : state) : Z := absolute_head_seen_ (RawThreads.session s).
Definition committed (s : state) : Z := absolute_bytes_committed_ (RawThreads.session s).
Definition verified (s : state) : bool := preamble_verified (RawThreads.session s).

Definition tail (s : state) : Z := MirroredBuffer.tail_ (buffer s).
Definition capacity (s : state) : Z := MirroredBuffer.capacity_ (buffer s).

(** Whatever the bytes are. *)
Record sound (s : state) : Prop := {
  sound_capacity : 4 ≤ capacity s < 2 ^ 31;
  sound_holds : holds (buffer s) (received s);
  sound_pausing : pausing (handler s);
  sound_events : Forall (event_ok (buffer s)) (events s);
  sound_chain : chain (head_seen s) (events s) (size (received s));
  sound_committed : tail s ≤ committed s ≤ head_seen s;
  sound_freed : open_ s = true → tail s + commits (commands s) = committed s;
  sound_commands : Forall (λ c, 0 ≤ commit_of c) (commands s)
}.

Definition bad_preamble : output := DisconnectSession "invalid FIX preamble".

(** The stream begins as it must, and what was done is what the parser makes of
    the bytes seen. *)
Record reading (s : state) : Prop := {
  reading_feed : ∃ cs, done s = Called <$> cs ∧
    FixParser.feed (take (Z.to_nat (head_seen s)) (received s)) = Returns (cs, committed s);
  reading_verified : if verified s then 11 ≤ head_seen s else head_seen s < 11
}.

(** The stream does not, and the parser is never called. *)
Record refusing (s : state) : Prop := {
  refusing_verified : verified s = false;
  refusing_tail : tail s = 0;
  refusing_done : Forall (λ o, o = bad_preamble) (done s);
  refusing_frees : open_ s = true → frees_nothing (commands s);
  refusing_told : agrees (take (Z.to_nat (head_seen s)) (received s)) ∧ head_seen s < 11 ∨ done s ≠ [];
  refusing_committed : done s = [] → committed s = 0
}.

Definition ok (s : state) : Prop :=
  sound s ∧ (agrees (received s) → reading s) ∧ (¬ agrees (received s) → refusing s).

Lemma ok_initial page_size requested b :
  MirroredBuffer.make page_size requested = Returns b → 4 ≤ MirroredBuffer.capacity_ b < 2 ^ 31 →
  ok (RawThreads.initial b FixOrderGateway.initial).
Proof.
  intros Hb Hc. destruct (made_holds _ _ _ Hb) as [Hh H0]; [lia|]. split; [|split].
  - constructor; cbn; try done; try (unfold tail, committed, buffer; cbn).
    + unfold pausing. cbn. unfold MirroredBuffer.bytes_available. pose proof (holds_tail _ _ Hh). lia.
    + pose proof (holds_tail _ _ Hh). unfold head_seen. cbn. lia.
    + pose proof (holds_tail _ _ Hh). change (commits []) with 0. lia.
  - intros _. constructor; [|done]. exists []. by split.
  - intros Ha. by destruct Ha.
Qed.

(** *** The reactor *)

Lemma step_read waiting s s' :
  ok s → step (ReactorReads waiting) s = Some s' → ∃ s1, s' = Returns s1 ∧ ok s1.
Proof.
  intros (Hs & Hr & Hf) Hst. unfold step in Hst. destruct (_ && _) eqn:He in Hst; [|done]. injection Hst as <-.
  apply andb_true_iff in He as [He Hw]. apply andb_true_iff in He as [Ho Hp].
  apply negb_true_iff in Hw, Hp. apply bool_decide_eq_false in Hw.
  pose proof Hs as [Hc Hh Hpa Hev Hch Hco Hfr Hcm].
  destruct (on_data_ready_reads (handler s) (received s) (events s) waiting)
    as (h' & e & pause & Hod & Hh' & Hpa' & Hev' & Hcap & Ht & Hhd & Hee & Hte & _); [done..|].
  unfold reactor_reads. rewrite Hod. cbn [obind]. rewrite Ho. cbn [andb]. eexists. split; [reflexivity|].
  set (bytes := take _ waiting) in *.
  pose proof (size_nonneg bytes). pose proof (holds_head _ _ Hh) as Hhead. pose proof (holds_head _ _ Hh') as Hhead'.
  pose proof (chain_le _ _ _ Hch) as Hle. pose proof (holds_tail _ _ Hh).
  assert (Hseen : take (Z.to_nat (head_seen s)) (received s ++ bytes) = take (Z.to_nat (head_seen s)) (received s)).
  { apply take_app_le. unfold size in Hle. lia. }
  split; [|split].
  - constructor; unfold capacity, tail, committed, head_seen, buffer in *; cbn; try done; try lia.
    + apply Forall_app. split; [|by apply Forall_singleton]. eapply Forall_impl; [exact Hev|].
      intros e' [? ? ? ?]. constructor; rewrite ?Hcap, ?Ht; try done. lia.
    + rewrite <- Hhead', <- Hee. eapply event_chain_snoc; [done|]. lia.
    + intros _. specialize (Hfr Ho). lia.
  - cbn. intros Ha. destruct (Hr (agrees_front _ _ Ha)) as [(cs & Hd & Hfd) Hv].
    constructor; [exists cs|]; unfold head_seen, committed, verified in *; cbn; rewrite ?Hseen; done.
  - cbn. intros Hna. destruct (decide (agrees (received s))) as [Ha|Ha].
    + destruct (Hr Ha) as [(cs & Hd & Hfd) Hv].
      destruct (verified s) eqn:Hver.
      { destruct Hna. apply agrees_enough; [|done]. unfold size in *. lia. }
      assert (Hsh : FixParser.feed (take (Z.to_nat (head_seen s)) (received s)) = Returns ([], 0)).
      { apply short_feed; [by apply agrees_take|]. rewrite length_take. lia. }
      rewrite Hsh in Hfd. injection Hfd as <- Hz. specialize (Hfr Ho). pose proof (commits_nonneg _ Hcm).
      constructor; unfold verified, tail, committed, head_seen, buffer in *; cbn; try done; try lia.
      * rewrite Hd. constructor.
      * intros _. apply commits_zero; [done|]. lia.
      * left. rewrite Hseen. split; [by apply agrees_take|done].
    + destruct (Hf Ha) as [Hv Htl Hd Hfn Ht2 Hcz].
      constructor; unfold verified, tail, committed, head_seen, buffer in *; cbn; try done.
      * lia.
      * intros _. by apply Hfn.
      * by rewrite Hseen.
Qed.

Lemma step_obey s s' : ok s → step ReactorObeys s = Some s' → ∃ s1, s' = Returns s1 ∧ ok s1.
Proof.
  intros (Hs & Hr & Hf) Hst. unfold step in Hst. destruct (commands s) as [|c rest] eqn:Hcs; [done|]. injection Hst as <-.
  pose proof Hs as [Hc Hh Hpa Hev Hch Hco Hfr Hcm]. rewrite Hcs in Hcm. inversion Hcm as [|? ? Hc0 Hrest]; subst.
  assert (Hclosed : ∀ s1, s1 = RawThreads.mk (received s) (handler s) false (events s) rest (RawThreads.session s) (done s) → ok s1).
  { intros s1 ->. split; [|split].
    - by constructor.
    - intros Ha. destruct (Hr Ha). by constructor.
    - intros Ha. destruct (Hf Ha). by constructor. }
  unfold reactor_obeys. destruct (open_ s) eqn:Ho; [|by eexists; split; [reflexivity|apply Hclosed]].
  destruct c as [n|]; [|by eexists; split; [reflexivity|apply Hclosed]].
  specialize (Hfr eq_refl). rewrite Hcs in Hfr. pose proof (commits_nonneg _ Hrest). pose proof (chain_le _ _ _ Hch).
  change (commits (CommitRawBytes n :: rest)) with (n + commits rest) in Hfr. cbn in Hc0.
  pose proof (holds_head _ _ Hh) as Hhd.
  destruct (commit_bytes_holds (handler s) (received s) n)
    as (h' & r & Hcb & Hh' & Hpa' & Hcap & Ht & Hhd'); [done|done| |unfold capacity, buffer in *; lia|].
  { unfold MirroredBuffer.bytes_available. fold (buffer s). unfold tail in *. lia. }
  rewrite Hcb. cbn [obind]. eexists. split; [reflexivity|]. split; [|split].
  - constructor; unfold capacity, tail, committed, head_seen, buffer in *; cbn; try done; try lia.
    eapply Forall_impl; [exact Hev|]. intros e [? ? ? ?]. constructor; rewrite ?Hcap, ?Ht, ?Hhd'; (done || lia).
  - intros Ha. destruct (Hr Ha). by constructor.
  - cbn. intros Ha. destruct (Hf Ha) as [Hv Htl Hd Hfn Ht2 Hcz]. specialize (Hfn Ho). rewrite Hcs in Hfn.
    destruct Hfn as [-> Hfn].
    constructor; unfold verified, tail, committed, head_seen, buffer in *; cbn; try done. lia.
Qed.
(** *** The application thread *)

(** What the thread finds in the buffer: from what it has committed to the end of
    the event. *)
Lemma load_new s e rest :
  sound s → events s = e :: rest →
  head_seen s ≤ event_end e ∧ committed s ≤ event_end e ∧ 0 ≤ tail_position e ≤ tail s ∧
  0 ≤ committed s - tail_position e ∧ event_end e ≤ size (received s) ∧
  MirroredBuffer.load (buffer s) (payload e + (committed s - tail_position e)) (event_end e - committed s)
  = Returns (slice (received s) (committed s) (event_end e - committed s)).
Proof.
  intros [Hc Hh Hpa Hev Hch Hco Hfr Hcm] He. rewrite He in Hev, Hch. inversion Hev as [|? ? [Hp Ht Hsz Hend] _]; subst.
  destruct Hch as [H1 H2%chain_le]. fold (tail s) in Ht. pose proof (holds_head _ _ Hh) as Hhd.
  fold (capacity s) in Hp, Hsz. assert (0 ≤ tail_position e mod capacity s < capacity s) by (apply Z.mod_pos_bound; lia).
  unfold event_end in *. split; [done|]. split; [lia|]. split; [done|]. split; [lia|]. split; [lia|].
  apply load_holds; fold (capacity s) (tail s); try done; try lia.
  rewrite Hp, Zplus_mod_idemp_l. f_equal. lia.
Qed.

(** Before the preamble is there nothing is freed, so an event shows the stream
    from its first byte. *)
Lemma load_first s e rest n :
  sound s → events s = e :: rest → tail s = 0 → 0 ≤ n ≤ payload_size e →
  tail_position e = 0 ∧
  MirroredBuffer.load (buffer s) (payload e) n = Returns (slice (received s) 0 n).
Proof.
  intros [Hc Hh Hpa Hev Hch Hco Hfr Hcm] He Ht0 Hn. rewrite He in Hev.
  inversion Hev as [|? ? [Hp Ht Hsz Hend] _]; subst. fold (tail s) in Ht.
  assert (Htp : tail_position e = 0) by lia. split; [done|]. fold (capacity s) in Hp, Hsz.
  assert (Hp0 : payload e = 0) by (rewrite Hp, Htp; done).
  apply load_holds; fold (capacity s) (tail s); try done; rewrite ?Hp0; try lia.
Qed.

(** The state after an event. *)
Definition after_event (s : state) (rest : list Event) (more : list Command) (session' : FixOrderGateway.session)
    (did : list output) : state :=
  RawThreads.mk (received s) (handler s) (open_ s) rest (commands s ++ more) session' (done s ++ did).

Lemma sound_after s e rest more session' did :
  sound s → events s = e :: rest →
  absolute_head_seen_ session' = event_end e →
  absolute_bytes_committed_ session' = committed s + commits more →
  Forall (λ c, 0 ≤ commit_of c) more → committed s + commits more ≤ event_end e →
  sound (after_event s rest more session' did).
Proof.
  intros Hs He Hh' Hc' Hm Hle. pose proof Hs as [Hc Hh Hpa Hev Hch Hco Hfr Hcm]. rewrite He in Hev, Hch.
  pose proof (commits_nonneg _ Hm). inversion Hev; subst. destruct Hch as [_ Hch].
  constructor; unfold capacity, tail, committed, head_seen, buffer in *; cbn; rewrite ?Hh', ?Hc'; try done; try lia.
  - rewrite commits_app. intros Ho. specialize (Hfr Ho). lia.
  - by apply Forall_app.
Qed.

(** The parser goes on from what it left. *)
Lemma feed_goes_on received seen end_ cs n :
  (seen ≤ end_)%nat → FixParser.feed (take seen received) = Returns (cs, n) →
  0 ≤ n ≤ Z.of_nat seen ∧
  FixParser.feed (take end_ received)
  = let! r := FixParser.feed (drop (Z.to_nat n) (take end_ received)) in Returns (cs ++ r.1, n + r.2).
Proof.
  intros Hle Hf. rewrite feed_is_scan in Hf. set (x := drop seen (take end_ received)).
  assert (Hsplit : take end_ received = take seen received ++ x).
  { unfold x. rewrite <- (take_drop seen (take end_ received)) at 1. by rewrite take_take, Nat.min_l by done. }
  pose proof (scan_range _ _ _ _ (le_n _) Hf) as Hr. unfold size in Hr. rewrite length_take in Hr.
  split; [lia|]. rewrite !feed_is_scan, Hsplit, (scan_app _ _ x (le_n _)), Hf. cbn [obind fst snd].
  rewrite drop_more; [done|]. rewrite length_take. lia.
Qed.

Lemma slice_take (l : list Z) p n : 0 ≤ p → 0 ≤ n → slice l p n = drop (Z.to_nat p) (take (Z.to_nat (p + n)) l).
Proof. intros. unfold slice. rewrite skipn_firstn_comm. f_equal. lia. Qed.

(** New bytes of a stream that begins as it must. *)
Lemma feed_step s e rest ended :
  sound s → reading s → agrees (received s) → events s = e :: rest → 11 ≤ event_end e → committed s < event_end e →
  match feed_new_bytes (buffer s) ended (payload e + (committed s - tail_position e)) (event_end e - committed s)
          (event_end e) (committed s) with
  | Returns (session', more, did) => ok (after_event s rest more session' did)
  | Throws x => FixParser.feed (take (Z.to_nat (event_end e)) (received s)) = Throws x
  end.
Proof.
  intros Hs [(cs & Hd & Hf) _] Ha He H11 Hnew. destruct (load_new s e rest Hs He) as (H1 & H2 & H3 & H4 & H5 & Hl).
  unfold feed_new_bytes. rewrite Hl. cbn [obind].
  pose proof (sound_committed s Hs) as Hco. pose proof (holds_tail _ _ (sound_holds s Hs)).
  destruct (feed_goes_on (received s) (Z.to_nat (head_seen s)) (Z.to_nat (event_end e)) cs (committed s)) as [_ Hgo];
    [lia|done|].
  rewrite slice_take by lia. replace (committed s + (event_end e - committed s)) with (event_end e) by lia.
  set (window := drop _ _) in *.
  destruct (FixParser.feed window) as [[cs' n]|x] eqn:Hw; cbn [obind] in *; [|done]. cbn [fst snd] in *.
  rewrite feed_is_scan in Hw. pose proof (scan_range _ _ _ _ (le_n _) Hw) as Hr.
  assert (Hwin : size window = event_end e - committed s).
  { unfold window, size in *. rewrite length_drop, length_take. lia. }
  assert (Hcn : commits ((if ended then [Disconnect] else []) ++ [CommitRawBytes n]) = n)
    by (unfold commits; destruct ended; cbn; lia).
  split; [|split; [intros _|done]].
  - apply (sound_after s e); try done; cbn; rewrite ?Hcn; try lia. destruct ended; repeat constructor; cbn; lia.
  - constructor; unfold head_seen, committed, verified; cbn; [|done]. exists (cs ++ cs').
    split; [by rewrite Hd, fmap_app|]. exact Hgo.
Qed.
(** An event that brings nothing, or too little for the preamble, is noted. *)
Lemma note_step s e rest session' zeros :
  ok s → events s = e :: rest → (event_end e ≤ committed s ∨ event_end e < 11) →
  verified s = preamble_verified session' → absolute_head_seen_ session' = event_end e →
  absolute_bytes_committed_ session' = committed s → zeros = [] ∨ zeros = [CommitRawBytes 0] →
  (¬ agrees (received s) → done s = [] → event_end e < 11 → agrees (take (Z.to_nat (event_end e)) (received s))) →
  ok (after_event s rest zeros session' []).
Proof.
  intros (Hs & Hr & Hf) He Hfew Hv Hh Hc Hz Hag. destruct (load_new s e rest Hs He) as (H1 & H2 & H3 & H4 & H5 & _).
  assert (Hcz : commits zeros = 0) by (by destruct Hz as [-> | ->]).
  assert (Hfz : frees_nothing zeros) by (by destruct Hz as [-> | ->]).
  pose proof (sound_committed s Hs).
  assert (Hsame : event_end e ≤ committed s → head_seen s = event_end e) by lia.
  split; [|split].
  - apply (sound_after s e); rewrite ?Hcz, ?Z.add_0_r; try done; try lia.
    destruct Hz as [-> | ->]; repeat constructor; cbn; lia.
  - intros Ha. destruct (Hr Ha) as [(cs & Hd & Hfd) Hver].
    assert (Hz2 : ∀ k, k < 11 → FixParser.feed (take (Z.to_nat k) (received s)) = Returns ([], 0)).
    { intros k Hk. apply short_feed; [by apply agrees_take|]. rewrite length_take. lia. }
    assert (Hnow : FixParser.feed (take (Z.to_nat (event_end e)) (received s)) = Returns (cs, committed s)).
    { destruct Hfew as [Hle|Hlt]; [by rewrite <- Hsame|]. rewrite Hz2 in Hfd |- * by lia. done. }
    assert (Hver' : if verified s then 11 ≤ event_end e else event_end e < 11).
    { destruct (verified s); [lia|]. destruct Hfew; [by rewrite <- Hsame|done]. }
    constructor; unfold head_seen, committed, verified in *; cbn; rewrite ?Hh, ?Hc, <- ?Hv, ?app_nil_r; [|done].
    by exists cs.
  - intros Ha. destruct (Hf Ha) as [Hver Htl Hd Hfn Htold Hcz'].
    constructor; unfold head_seen, committed, verified, tail in *; cbn; rewrite ?Hh, ?Hc, <- ?Hv, ?app_nil_r; try done.
    + intros Ho. apply frees_nothing_app; [by apply Hfn|done].
    + destruct Htold as [[Hp Hlt]|]; [|by right]. destruct (done s) eqn:Hds; [|by right]. left.
      destruct Hfew as [Hle|Hlt'].
      * by rewrite <- (Hsame Hle).
      * split; [|done]. by apply Hag.
Qed.

Lemma slice_first (l : list Z) n : slice l 0 n = take (Z.to_nat n) l.
Proof. reflexivity. Qed.

(** A stream that does not begin as it must. *)
Lemma refuse_step s e rest :
  ok s → events s = e :: rest → ¬ agrees (received s) →
  ok (after_event s rest [Disconnect; CommitRawBytes (event_end e - committed s)]
        (FixOrderGateway.mk false (event_end e) (committed s + (event_end e - committed s))) [bad_preamble]).
Proof.
  intros (Hs & Hr & Hf) He Hna. destruct (load_new s e rest Hs He) as (H1 & H2 & H3 & H4 & H5 & _).
  assert (Hc : commits [Disconnect; CommitRawBytes (event_end e - committed s)] = event_end e - committed s)
    by (unfold commits; cbn; lia).
  destruct (Hf Hna) as [Hver Htl Hd Hfn Htold Hcz]. split; [|split; [done|intros _]].
  - apply (sound_after s e); rewrite ?Hc; try done; try lia. repeat constructor; cbn; lia.
  - constructor; unfold head_seen, committed, verified, tail in *; cbn; try done.
    + apply Forall_app. by split; [|apply Forall_singleton].
    + intros Ho. by apply frees_nothing_app; [apply Hfn|].
    + right. by destruct (done s).
    + by destruct (done s).
Qed.

Lemma agrees_by_check (received : list Z) end_ :
  (end_ ≤ length received)%nat →
  take (end_ `min` 11) received = take (end_ `min` 11) expected_preamble ↔ agrees (take end_ received).
Proof.
  intros Hle. unfold agrees. rewrite take_take, length_take, (Nat.min_l end_ (length received)) by done.
  rewrite (Nat.min_comm 11 end_). assert (Hp : take end_ expected_preamble = take (end_ `min` 11) expected_preamble).
  { rewrite <- (take_ge expected_preamble 11) at 1 by done. by rewrite take_take. }
  by rewrite Hp.
Qed.

(** What handling an event promises. *)
Definition handled (s : state) (e : Event) (rest : list Event)
    (r : outcome (session * list Command * list output)) : Prop :=
  match (let! r' := r in let '(session', more, did) := r' in Returns (after_event s rest more session' did)) with
  | Returns s' => ok s'
  | Throws x => ∃ n, FixParser.feed (take n (received s)) = Throws x
  end.

Lemma handle_feed s e rest ended :
  sound s → reading s → agrees (received s) → events s = e :: rest → 11 ≤ event_end e → committed s < event_end e →
  handled s e rest (feed_new_bytes (buffer s) ended (payload e + (committed s - tail_position e))
                      (event_end e - committed s) (event_end e) (committed s)).
Proof.
  intros Hs Hr Ha He H11 Hnew. pose proof (feed_step s e rest ended Hs Hr Ha He H11 Hnew) as Hst. unfold handled.
  destruct (feed_new_bytes _ _ _ _ _ _) as [[[session' more] did]|x]; cbn [obind]; [done|].
  by eexists.
Qed.

(** Until the preamble is there nothing is freed. *)
Lemma nothing_freed s : ok s → verified s = false → tail s = 0.
Proof.
  intros (Hs & Hr & Hf) Hver. destruct (decide (agrees (received s))) as [Ha|Ha]; [|apply (Hf Ha)].
  destruct (Hr Ha) as [(cs & _ & Hfd) Hv]. rewrite Hver in Hv.
  rewrite short_feed in Hfd; [|by apply agrees_take|rewrite length_take; lia]. injection Hfd as _ Hz.
  pose proof (sound_committed s Hs). pose proof (holds_tail _ _ (sound_holds s Hs)) as Ht. fold (tail s) in Ht. lia.
Qed.

(** An event before the preamble is there. *)
Lemma handle_preamble s e rest ended :
  ok s → events s = e :: rest → verified s = false → committed s < event_end e → 0 < payload_size e →
  handled s e rest
    (let bytes_to_check := Z.min (payload_size e) (size expected_preamble) in
     let! seen := MirroredBuffer.load (buffer s) (payload e) bytes_to_check in
     if negb (bool_decide (seen = take (Z.to_nat bytes_to_check) expected_preamble)) then
       Returns (FixOrderGateway.mk false (event_end e) (committed s + (event_end e - committed s)),
                [Disconnect; CommitRawBytes (event_end e - committed s)], [bad_preamble])
     else if payload_size e <? size expected_preamble then
       Returns (FixOrderGateway.mk false (event_end e) (committed s), [CommitRawBytes 0], [])
     else feed_new_bytes (buffer s) ended (payload e + (committed s - tail_position e))
            (event_end e - committed s) (event_end e) (committed s)).
Proof.
  intros Hok He Hver Hnew Hsz. pose proof Hok as (Hs & Hr & Hf).
  destruct (load_new s e rest Hs He) as (_ & _ & _ & _ & H5 & _). cbn zeta. rewrite preamble_size.
  destruct (load_first s e rest (Z.min (payload_size e) 11) Hs He) as [Htp ->]; [by apply nothing_freed|lia|].
  cbn [obind]. assert (Hend : event_end e = payload_size e) by (unfold event_end; lia).
  rewrite slice_first. replace (Z.to_nat (Z.min (payload_size e) 11)) with (Z.to_nat (event_end e) `min` 11)%nat by lia.
  pose proof (agrees_by_check (received s) (Z.to_nat (event_end e))) as Hchk. unfold size in H5.
  destruct (bool_decide_reflect (take (Z.to_nat (event_end e) `min` 11) (received s)
    = take (Z.to_nat (event_end e) `min` 11) expected_preamble)) as [Hy|Hn]; cbn [negb].
  - apply Hchk in Hy; [|lia]. destruct (Z.ltb_spec (payload_size e) 11) as [Hlt|Hge].
    + unfold handled. cbn [obind]. apply (note_step s e); try done; [by right; lia|by right].
    + assert (Ha : agrees (received s)).
      { rewrite <- (take_drop (Z.to_nat (event_end e)) (received s)). apply agrees_enough; [|done].
        rewrite length_take. lia. }
      apply handle_feed; try done; [by apply Hr|lia].
  - unfold handled. cbn [obind]. apply refuse_step; [done|done|]. intros Ha. apply Hn, Hchk; [lia|]. by apply agrees_take.
Qed.

Lemma handle_event s e rest ended :
  ok s → events s = e :: rest →
  handled s e rest (FixOrderGateway.on_raw_socket_message (buffer s) e ended (RawThreads.session s)).
Proof.
  intros Hok He. pose proof Hok as (Hs & Hr & Hf).
  destruct (load_new s e rest Hs He) as (H1 & H2 & H3 & H4 & H5 & _).
  pose proof (sound_committed s Hs) as Hco. pose proof (holds_tail _ _ (sound_holds s Hs)) as Htl.
  assert (Hsz : 0 < payload_size e) by (pose proof (sound_events s Hs) as Hev; rewrite He in Hev; inversion Hev as [|? ? []]; lia).
  unfold FixOrderGateway.on_raw_socket_message. cbn [preamble_verified absolute_head_seen_ absolute_bytes_committed_].
  fold (head_seen s) (committed s) (verified s) (event_end e). rewrite (proj2 (Z.leb_gt _ _)) by lia.
  assert (Hhs : (if head_seen s <? event_end e then event_end e else head_seen s) = event_end e)
    by (destruct (Z.ltb_spec (head_seen s) (event_end e)); lia).
  rewrite Hhs. destruct (Z.leb_spec (event_end e - committed s) 0) as [Hnone|Hnew].
  { unfold handled. cbn [obind]. apply (note_step s e rest _ []); try done; [by left; lia|by left|].
    intros Hna Hd Hlt. destruct (Hf Hna) as [_ _ _ _ [[Hp _]|Hn] _]; [|done].
    by replace (event_end e) with (head_seen s) by lia. }
  rewrite (proj2 (Z.ltb_ge _ 0)) by lia. rewrite (proj2 (Z.ltb_ge (payload_size e) _)) by (unfold event_end; lia).
  cbn [orb]. destruct (verified s) eqn:Hver; cbn [negb].
  - assert (Ha : agrees (received s)).
    { destruct (decide (agrees (received s))) as [|Hna]; [done|]. destruct (Hf Hna). congruence. }
    pose proof (reading_verified s (Hr Ha)) as H11. rewrite Hver in H11.
    apply handle_feed; try done; [by apply Hr|lia|lia].
  - apply handle_preamble; try done. lia.
Qed.

Lemma step_handle s ended r :
  ok s → step (ThreadHandles ended) s = Some r →
  match r with
  | Returns s' => ok s'
  | Throws x => ∃ n, FixParser.feed (take n (received s)) = Throws x
  end.
Proof.
  intros Hok Hst. unfold step in Hst. destruct (events s) as [|e rest] eqn:He; [done|]. injection Hst as <-.
  exact (handle_event s e rest ended Hok He).
Qed.

Lemma step_close s a s' :
  ok s → a = ThreadDisconnects ∨ a = PeerCloses → step a s = Some s' → ∃ s1, s' = Returns s1 ∧ ok s1.
Proof.
  intros (Hs & Hr & Hf) Ha Hst. unfold step in Hst.
  destruct Ha as [-> | ->]; destruct (open_ s) eqn:Ho; try done; injection Hst as <-; eexists; (split; [reflexivity|]);
    destruct Hs; (split; [|split]).
  - constructor; cbn; try done.
    + rewrite commits_app. change (commits [Disconnect]) with 0. intros _. rewrite Z.add_0_r. auto.
    + apply Forall_app. by split; [|repeat constructor].
  - intros Ha. destruct (Hr Ha). by constructor.
  - intros Ha. destruct (Hf Ha). constructor; cbn; try done. intros _. by apply frees_nothing_app; [auto|].
  - by constructor.
  - intros Ha. destruct (Hr Ha). by constructor.
  - intros Ha. destruct (Hf Ha). by constructor.
Qed.

(** Every move keeps it, or fails as the parser fails on bytes of the stream. *)
Lemma gateway_step_ok s a r :
  ok s → step a s = Some r →
  match r with
  | Returns s' => ok s'
  | Throws x => ∃ n, FixParser.feed (take n (received s)) = Throws x
  end.
Proof.
  intros Hok Hst. destruct a as [waiting| |ended| |].
  - destruct (step_read _ _ _ Hok Hst) as (s1 & -> & Hs1). done.
  - destruct (step_obey _ _ Hok Hst) as (s1 & -> & Hs1). done.
  - by eapply step_handle.
  - destruct (step_close _ _ _ Hok ltac:(by left) Hst) as (s1 & -> & Hs1). done.
  - destruct (step_close _ _ _ Hok ltac:(by right) Hst) as (s1 & -> & Hs1). done.
Qed.

Lemma gateway_run_ok l : ∀ s s', ok s → run l s = Returns s' → ok s'.
Proof.
  induction l as [|a l IH]; intros s s' Hok; cbn [run]; [by intros [= <-]|].
  destruct (step a s) as [r|] eqn:Hst; [|by apply IH]. pose proof (gateway_step_ok s a r Hok Hst) as Hr.
  destruct r as [s1|x]; cbn [obind]; [|done]. by apply IH.
Qed.
End gateway.

(** C26: In whatever order the reactor reads a member's socket and carries out what
    it is asked, and the gateway's thread handles its events, with commits still
    on their way and the connection closed at any time by either side, each byte
    is given to the parser as the next of the stream: what was done is what the
    parser does with the bytes seen so far in one piece, these are all of them
    once no event is left, and no byte is freed before the parser is done with it.
    A stream that does not begin with the preamble is refused and never reaches
    the parser.  No move throws, unless the parser does on the bytes received.
    This is for a buffer of four bytes or more and less than 2 GiB. *)
Theorem gateway_reads_each_byte_once `{!Dictionary} (page_size requested : Z) (b : MirroredBuffer.t)
    (l : list action) (s : RawThreads.state) :
  MirroredBuffer.make page_size requested = Returns b → 4 ≤ MirroredBuffer.capacity_ b < 2 ^ 31 →
  run l (RawThreads.initial b FixOrderGateway.initial) = Returns s →
  (agrees (received s) → ∃ n cs, (n ≤ length (received s))%nat ∧ (events s = [] → n = length (received s)) ∧
     done s = Called <$> cs ∧ FixParser.feed (take n (received s)) = Returns (cs, committed s) ∧
     tail s ≤ committed s) ∧
  (¬ agrees (received s) → Forall (λ o, o = bad_preamble) (done s) ∧ (events s = [] → done s ≠ [])) ∧
  (∀ a x, step a s = Some (Throws x) → ∃ n, FixParser.feed (take n (received s)) = Throws x).
Proof.
  intros Hb Hc Hrun. pose proof (gateway_run_ok l _ _ (ok_initial _ _ _ Hb Hc) Hrun) as Hok.
  pose proof Hok as (Hs & Hr & Hf). pose proof (chain_le _ _ _ (sound_chain s Hs)) as Hle.
  assert (Hall : events s = [] → head_seen s = size (received s)).
  { intros He. pose proof (sound_chain s Hs) as Hch. by rewrite He in Hch. }
  pose proof (sound_committed s Hs). pose proof (holds_tail _ _ (sound_holds s Hs)) as Ht. fold (tail s) in Ht.
  split; [|split].
  - intros Ha. destruct (Hr Ha) as [(cs & Hd & Hfd) _]. exists (Z.to_nat (head_seen s)), cs. unfold size in *.
    split_and!; [lia| |done|done|lia]. intros ->%Hall. lia.
  - intros Ha. destruct (Hf Ha) as [_ _ Hd _ Htold _]. split; [done|]. intros He Hn.
    destruct Htold as [[Hp _]|]; [|done]. rewrite (Hall He) in Hp. unfold size in Hp.
    rewrite Nat2Z.id, take_ge in Hp by done. done.
  - intros a x Hst. exact (gateway_step_ok s a _ Hok Hst).
Qed.

(** C27: A connection that is open, with nothing left for either thread to do, reads
    its socket, unless what the parser could not consume of the bytes received is
    more than half of the buffer.  So reading stops only for a message that long,
    a pause that the application asks for aside, which is not in the model. *)
Theorem reading_stops_only_for_a_long_message `{!Dictionary} (page_size requested : Z) (b : MirroredBuffer.t)
    (l : list action) (s : RawThreads.state) :
  MirroredBuffer.make page_size requested = Returns b → 4 ≤ MirroredBuffer.capacity_ b < 2 ^ 31 →
  run l (RawThreads.initial b FixOrderGateway.initial) = Returns s →
  agrees (received s) → open_ s = true → events s = [] → commands s = [] →
  (∀ waiting, waiting ≠ [] → is_Some (step (ReactorReads waiting) s)) ∨
  ∃ cs consumed, FixParser.feed (received s) = Returns (cs, consumed) ∧
    2 * capacity s < 4 * (size (received s) - consumed).
Proof.
  intros Hb Hc Hrun Ha Ho He Hcs. pose proof (gateway_run_ok l _ _ (ok_initial _ _ _ Hb Hc) Hrun) as (Hs & Hr & _).
  destruct (Hr Ha) as [(cs & _ & Hfd) _]. pose proof (sound_chain s Hs) as Hch. rewrite He in Hch. cbn in Hch.
  rewrite Hch in Hfd. unfold size in Hfd. rewrite Nat2Z.id, take_ge in Hfd by done.
  pose proof (sound_freed s Hs Ho) as Hfr. rewrite Hcs in Hfr. change (commits []) with 0 in Hfr.
  pose proof (holds_head _ _ (sound_holds s Hs)). pose proof (sound_pausing s Hs) as Hpa. unfold pausing in Hpa.
  destruct (RawBytesProtocolHandler.reads_paused_ (handler s)) eqn:Hp.
  - right. exists cs, (committed s). split; [done|]. unfold MirroredBuffer.bytes_available in Hpa.
    unfold capacity, tail, buffer in *. lia.
  - left. intros waiting Hw. unfold step. rewrite Ho, Hp, bool_decide_eq_false_2 by done. done.
Qed.

(** ** Runs *)

Module RawRuns.

Definition page : Z := 4096.
Definition started {S : Type} {O : Type} (x : S) : outcome (RawThreads.state (S := S) (O := O)) :=
  let! b := MirroredBuffer.make page page in Returns (RawThreads.initial b x).

(** Two messages in three reads, of which the second is before the first is
    handled and the third before the first commit. *)
Definition two_messages : list action :=
  [ReactorReads (take 20 TwoMessages.stream); ReactorReads (drop 20 (take 150 TwoMessages.stream));
   ThreadHandles false; ReactorReads (drop 150 TwoMessages.stream); ThreadHandles false; ReactorObeys;
   ThreadHandles false; ReactorObeys; ReactorObeys].

(** A message that says it is longer than the buffer. *)
Definition long_message : list Z :=
  expected_preamble ++ text "9=5000" ++ [soh] ++ replicate 3100 48.

Definition one_long_message : list action := [ReactorReads long_message; ThreadHandles false; ReactorObeys].

(** A request of eight bytes, and a byte more before it is handled. *)
Definition request (pdu_id : Z) : list Z :=
  PduHeader.to_wire (PduHeader.mk 8 pdu_id 1 0 0 PduHeader.pdu_canary_value 0) ++ [1; 2; 3; 4; 5; 6; 7; 8].

Definition request_and_a_byte (pdu_id : Z) : list action :=
  [ReactorReads (request pdu_id); ReactorReads [0]; ThreadHandles false; ThreadHandles false].

End RawRuns.

Import SmallDictionary.

Lemma gateway_reads_each_byte_once_witness :
  ∃ s, (let! s0 := RawRuns.started FixOrderGateway.initial in run RawRuns.two_messages s0) = Returns s ∧
    events s = [] ∧ done s = Called <$> TwoMessages.answers.
Proof.
  destruct (MirroredBuffer.make RawRuns.page RawRuns.page) as [b|x] eqn:Hb; [|by vm_compute in Hb].
  unfold RawRuns.started. rewrite Hb. cbn [obind].
  assert (Hc : MirroredBuffer.capacity_ b = 4096) by (by injection Hb as <-).
  assert (Hgo : (let! s := run RawRuns.two_messages (RawThreads.initial b FixOrderGateway.initial) in
                 Returns (received s, events s)) = Returns (TwoMessages.stream, [])).
  { injection Hb as <-. vm_compute. reflexivity. }
  destruct (run RawRuns.two_messages (RawThreads.initial b FixOrderGateway.initial)) as [s|x] eqn:Hrun; [|done].
  injection Hgo as Hrec Hev. exists s. split; [done|]. split; [done|].
  destruct (gateway_reads_each_byte_once RawRuns.page RawRuns.page b RawRuns.two_messages s Hb ltac:(lia) Hrun)
    as (Hag & _ & _).
  destruct Hag as (n & cs & _ & Hn & -> & Hfeed & _).
  { rewrite Hrec. apply (bool_decide_eq_true_1 _). vm_compute. reflexivity. }
  rewrite (Hn Hev), take_ge, Hrec in Hfeed by done. f_equal.
  assert (Hf : FixParser.feed TwoMessages.stream = Returns (TwoMessages.answers, size TwoMessages.stream))
    by (vm_compute; reflexivity).
  congruence.
Defined.

Lemma reading_stops_only_for_a_long_message_witness :
  ∃ s, (let! s0 := RawRuns.started FixOrderGateway.initial in run RawRuns.two_messages s0) = Returns s ∧
    is_Some (step (ReactorReads [56]) s).
Proof.
  destruct (MirroredBuffer.make RawRuns.page RawRuns.page) as [b|x] eqn:Hb; [|by vm_compute in Hb].
  unfold RawRuns.started. rewrite Hb. cbn [obind].
  assert (Hc : MirroredBuffer.capacity_ b = 4096) by (by injection Hb as <-).
  assert (Hgo : (let! s := run RawRuns.two_messages (RawThreads.initial b FixOrderGateway.initial) in
                 Returns (received s, events s, commands s, open_ s, capacity s))
                = Returns (TwoMessages.stream, [], [], true, 4096)).
  { injection Hb as <-. vm_compute. reflexivity. }
  destruct (run RawRuns.two_messages (RawThreads.initial b FixOrderGateway.initial)) as [s|x] eqn:Hrun; [|done].
  injection Hgo as Hrec Hev Hcs Ho Hcap. exists s. split; [done|].
  destruct (reading_stops_only_for_a_long_message RawRuns.page RawRuns.page b RawRuns.two_messages s Hb ltac:(lia) Hrun)
    as [Hgo|(cs & n & Hf & Hlong)]; try done.
  - rewrite Hrec. apply (bool_decide_eq_true_1 _). vm_compute. reflexivity.
  - by apply Hgo.
  - exfalso. assert (Hs : FixParser.feed TwoMessages.stream = Returns (TwoMessages.answers, size TwoMessages.stream))
      by (vm_compute; reflexivity).
    rewrite Hrec, Hs in Hf. injection Hf as _ <-. rewrite Hrec, Hcap in Hlong. lia.
Defined.

(** A message of three quarters of the buffer or more is never read to its end:
    the connection stays open, with nothing left to do for either thread, and its
    socket is not read. *)
Lemma long_message_stalls_its_connection :
  (let! s0 := RawRuns.started FixOrderGateway.initial in
   let! s := run RawRuns.one_long_message s0 in
   Returns (open_ s, events s, commands s, done s, bool_decide (step (ReactorReads [48]) s = None)))
  = Returns (true, [], [], [], true).
Proof. vm_compute. reflexivity. Qed.

(** A request is carried out by every event that shows it, and its bytes are freed
    as often: the second commit throws in the reactor. *)
Lemma operator_request_is_carried_out_twice :
  (let! s0 := RawRuns.started () in
   let! s := run (A := OperatorListener.application) (RawRuns.request_and_a_byte OperatorListener.OperatorHaltRequest) s0 in
   Returns (done s, run (A := OperatorListener.application) [ReactorObeys; ReactorObeys] s))
  = Returns ([OperatorListener.HandleOperatorHaltRequest [1; 2; 3; 4; 5; 6; 7; 8];
              OperatorListener.HandleOperatorHaltRequest [1; 2; 3; 4; 5; 6; 7; 8]],
             Throws PreconditionAssertion).
Proof. vm_compute. reflexivity. Qed.

Lemma credential_request_is_carried_out_twice :
  (let! s0 := RawRuns.started () in
   let! s := run (A := AdminListener.application) (RawRuns.request_and_a_byte AdminListener.pdu_id_set_credential_request) s0 in
   Returns (done s, run (A := AdminListener.application) [ReactorObeys; ReactorObeys] s))
  = Returns ([AdminListener.HandleSetCredentialRequest [1; 2; 3; 4; 5; 6; 7; 8];
              AdminListener.HandleSetCredentialRequest [1; 2; 3; 4; 5; 6; 7; 8]],
             Throws PreconditionAssertion).
Proof. vm_compute. reflexivity. Qed.
